(* ===== verification/_CoqProject ===== *)
-Q . S2P
Prelude.v
Framing.v
RateLimiter.v
Leases.v
Cbor.v
Vocabulary.v
Caches.v
Text.v
Der.v
Token.v
DerivedKeys.v
Sessions.v
Fields.v
Messages.v
ClientCodec.v
RawCrypto.v
Cryptoki.v
CryptokiSafety.v
CryptokiSecrecy.v
CryptokiCalls.v
Broker.v
Operations.v
Holder.v
Scheduler.v
Ownership.v
SchedulerSafety.v
SchedulerHolds.v
Prompts.v
ReaderLabels.v
Mrz.v
Credentials.v
Flows.v
FlowSafety.v
FlowAsking.v
FlowConduct.v
FlowBatch.v
Presence.v
MasterLists.v
TextFiles.v
Storage.v
AnchorStore.v
AnchorImport.v
Config.v
AgentSocket.v
QtValues.v
SecurityChecks.v
QtTransport.v
