(* ===== verification/Prelude.v ===== *)
(** * LibreAgent: a verification development

    LibreAgent is the process between smart cards and the programs that use them. A
    client (the PKCS#11 module, a Qt application) talks to it over a local socket or
    D-Bus; the agent watches the readers, asks a person for PINs, runs the card
    operations on one worker thread per reader and answers. This library models the
    parts of it that decide what a client gets and when a key is used, as executable
    definitions translated from the C++ sources, and proves what those parts promise.
    Paths below are relative to the repository's [src/] directory.

    ** The parts and their files

    Bytes and messages, bottom up:
    - [Framing] models [wire/FdHarvest.h], [wire/Framing.cpp] and
      [wire/FrameReassembler.cpp]: frames with a length header and attached file
      descriptors, over [recvmsg]/[sendmsg] calls (class [SocketOps]) that may return
      any part of the stream. A frame that is sent is received whole with its
      descriptors, by the blocking receiver and by the reassembler under any
      segmentation; nothing is lost or read outside the control buffer; an announced
      length over the cap is refused by its header.
    - [Cbor] models [wire/Cbor.cpp]: the value tree over the QCBOR library (class
      [Qcbor], with a small decoder as an instance). What is accepted is in canonical
      form, bounded in depth and size, and re-encodes to itself; what is encoded decodes
      to itself; a scrubbed tree holds no text or byte string.
    - [Vocabulary] holds the closed enums and their text tokens ([wire/SyncError.cpp],
      [KeyType.h], [value/ErrorTaxonomy.cpp] and others), [Fields] the generic writing
      and reading of map fields.
    - [Messages] models [wire/Messages.h] and [wire/Messages.cpp] (requests as the agent
      parses them, replies and events as it builds them), [ClientCodec] models
      [wire/ClientCodec.cpp] (the same messages as the client sees them). Requests,
      replies and events survive the trip from one side's structs to the other's; a
      descriptor index of a parsed message is inside its frame; a reply with a secret
      leaves no copy in the tree it came from.

    Who may use a key:
    - [RateLimiter] models [operations/RateLimiter.cpp]: at most [kMaxPerWindow] prompts
      per caller and window, callers do not affect each other, nobody is locked out.
    - [Leases] models [pkcs11/LeaseManager.cpp]: logins with an idle time and a maximum
      lifetime, and whether the PIN was verified under them. A lease's entry is explained
      by its history of operations ([provenance]).
    - [RawCrypto] models [crypto/Mechanism.h], [operations/LmRawCrypto.cpp] and
      [operations/RawCryptoFlow.cpp]: what fits a key, how long a PIN stays with the card
      plugin, and the flow of one operation over its collaborators (class [FlowEnv]),
      whose calls are logged and checked against a discipline ([credit]).
    - [Broker] models [pkcs11/Pkcs11Broker.cpp], its wiring in [AgentCore.cpp] and
      [value/SyncErrorTaxonomy.cpp]: a state with the continuations the broker has handed
      to other threads, events for their calls in any order, and traces ([reach]). Its
      theorems put the three files above together: an operation starts only under an
      authorized login that stands, and a key is used without a PIN only where that
      caller had given the right one.

    Operations and readers:
    - [Operations] models [operations/OperationBase.cpp]: one operation with the threads
      that touch it (its worker, its watchdog's timers, those that cancel it) as programs
      of atomic accesses. It publishes one outcome, which is final; the watchdog times only
      the machine; its waits cannot deadlock.
    - [Holder] models [operations/CardSessionHolder.cpp] over the card library (class
      [CardLib]): one connection per reader, and no secret outside a session in use.
    - [Scheduler] models [operations/OperationManager.cpp]: calls and workers interleaved
      access by access over a heap of operations. [Ownership] has its invariant,
      [SchedulerSafety] shows that the steps keep it, [SchedulerHolds] reads off that a live
      operation has one holder, where the tables lead, how an operation ends, and that no
      call waits for a worker.

    What an operation does with a card and its holder:
    - [Caches] models [cache/CredentialCache.cpp], [cache/CardReadCache.cpp],
      [cache/CredentialSnapshotCache.cpp] and [value/CredentialRecord.h]: the secrets of a
      card and the count of refusals, what was read of it, and the records of its PINs. The
      records of a listing have different ids; the read cache answers with what was put
      last and gives back no memory that tells what was in it.
    - [Mrz] models [cache/MrzPayload.h]: what is accepted as a typed machine readable zone
      is exactly what a document with correct check digits gives.
    - [Credentials] models [CredentialCache::requestCredential] and the prompter and
      provider behind it ([operations/SerializingPrompter.h], [operations/FlowPrelude.cpp]),
      [Flows] the eight flows of [operations/]: reading identity, certificates, token
      information and PINs, signing one document or a batch, changing a PIN, activating a
      key. A flow is a program over the state it shares with other threads, who may act
      before each of its accesses; the card library is a script of the calls it makes back
      and its outcome; what the flow does is logged.
    - [FlowSafety] has the logic of such programs ([wp], [keeps]) and shows that only
      current secrets of the right kind, typed by the holder, reach the card;
      [FlowAsking] bounds how often the holder is asked; [FlowConduct] shows that a flow
      works with the card only between taking the session and giving it back, holds no
      secret afterwards, and drops what was cached of a card it changed; [FlowBatch] that a
      batch signs in order with one PIN and stops before it costs another try.

    What a person sees:
    - [Prompts] models [operations/PromptSerializer.cpp]: the queue of dialogs per card
      as steps of threads between critical sections. One dialog per card, in order of
      arrival, and no waiter is stuck.
    - [ReaderLabels] models [value/ReaderLabels.cpp], from the characters up: two readers
      never carry the same label.
    - [Presence] models [presence/ObjectRegistry.cpp], [PresenceModel.cpp],
      [CardKeyTracker.cpp] and [MonitorBridge.cpp]: the published readers and cards stay
      consistent, and every card that goes is reported once to the callback that scrubs
      its secrets.

    What the agent believes about countries' certificates ([trust/CscaAnchorImport.cpp]):
    - [MasterLists] models the reader of the files a person hands in: an export that is
      written by its grammar is read as exactly its signed lists.
    - [AnchorStore] models the store: the text of its state file, read and written byte by
      byte, and the replacement of the anchors over a disk on which every operation may
      fail or be the last. Every way a replacement can end is listed ([replacement_ends]).
    - [AnchorImport] models [importMasterList] over the trust library (class [TrustApi]):
      whom an import follows, that dates only grow, that what is reported is what is
      stored, and that the order of the lists does not matter.

    What the agent is set to:
    - [Config] models [config/ConfigStore.cpp] and the vocabularies of
      [operations/SignatureParams.h]: the settings, their file byte by byte, the calls that
      change them. The settings are well formed whatever the file says
      ([settings_well_formed]); a call changes its own key and tells every listener once;
      a restart gives the settings back; a write ends in one of the ways listed
      ([config_write_ends]).
    - [TextFiles] has the lines, numbers and key-value texts that this file and the state
      file of the anchors share, [Storage] the programs over a disk on which an operation
      may fail or be the last, with their logic.

    The PKCS#11 module, the library other programs load (under [src/pkcs11/]):
    - [Text] and [Der] model the padded text fields and labels of a token and the DER that
      the module reads and writes ([DerLength.h], [EcEncoding.cpp], the certificate fields
      of [ObjectModel.cpp]): the field cut from a certificate is the one a decoder of the
      grammar gives, and a point written as an octet string is read back.
    - [Token] models [ObjectModel.cpp]: the slots and objects built from the agent's
      snapshot, their handles, the attributes served, the template match. [DerivedKeys]
      models [DerivedKeys.cpp]: the keys an agreement leaves in the module.
    - [Sessions] models [SessionState.cpp] as a state with one function per method; it
      refines an abstract machine of sessions, logins and keys ([sessions_refine]), keeps
      its well-formedness ([session_state_form]) and never moves a reader to another slot
      id ([slot_ids_stable]).
    - [Cryptoki] models [Module.cpp]: every [C_] function of the module's table as a
      program ([Prog]) over critical sections under the module's mutex and calls to the
      agent, and the interleavings of any number of threads running them ([cstep],
      [creach]).
    - [CryptokiSafety] proves, for all interleavings, that the library is not torn down
      under a call in flight, that a session has one call in flight, what is sent to the
      agent and what a caller gets back; [CryptokiSecrecy] that two runs that differ only in
      the value of a protected derived key cannot be told apart; [CryptokiCalls] what a
      caller alone sees of a sequence of calls: every call returns, a search enumerates
      exactly the matches, the parts of a message are as good as the whole, a lapsed login
      ends, an offered key is usable.

    - [AgentSocket] models [SocketAgentClient.cpp], the module's connection to the agent,
      over a peer that may do anything (class [AgentPeer]): the client keeps to a protocol
      ([protocol_followed], an automaton over the log of what it does), an answer is the
      peer's answer to that question, and over an agent that uses the codec of [Messages]
      it is as good as a direct call ([socket_transparent]).

    The Qt client, the library of the applications (under [client/qt/src/]):
    - [QtValues] models the conversions between the values of the wire and those an
      application sees ([CredentialTypes.cpp], [CscaAnchorMapping.h], [CertFieldsExtra.h],
      [ConfigKeyHelpers.h], [IdentityRows.cpp] and the top of [SocketTransport.cpp]): a
      setting comes back as it was sent ([settings_carried]), the records of credentials and
      the rows of an identity carry every text of the wire and no other.
    - [SecurityChecks] models [SecurityChecks.cpp]: the checks shown are exactly those whose
      fields are there, by number, whatever the order of the fields ([checks_exact]).
    - [QtTransport] models [socket/SocketTransport.cpp], [DerListenerRegistry.h] and
      [dbus/ErrorNameMap.cpp]: one thread with an event loop, in which code in a callback may
      call again ([tstep]). Listeners are told from the loop only and in order of arrival; a
      certificate asked for is answered once, and is answered; a listener subscribed when its
      operation starts misses nothing.

    ** Conventions

    A [std::expected] is a [result], with its early return as the monadic bind. Machine
    integers are [Z] with an explicit [wrap]; bytes are [Z]; strings are [string]; maps
    and sets are [gmap] and [gset]. Clock readings are arguments. Threads are explicit:
    an event or a step is one critical section or one callback, and a theorem is about
    every order of them. Code outside the repository (QCBOR, the kernel's sockets, the
    card plugins, the prompter, the authority) is a class or an argument; a theorem that
    needs its documented behaviour has it as a hypothesis, and an instance shows it can
    hold. Conversions between [std::string] and [QString] are taken to keep the text, those
    of [QVariant] are a class ([QtValues.VariantOps]) with the laws Qt documents.

    ** Bounds and fuel

    - [Cbor.readValue] recurses on the levels the source's own depth limit leaves
      ([kMaxCborDepth]), so it never runs out before the code refuses.
    - The socket loops of [Framing] have fuel for their calls, and the theorems say how
      much is enough: more than the bytes left plus the calls that are interrupted.
    - [ReaderLabels.shortModel] has the length of the text as fuel, and every round makes
      it shorter ([shortModel_complete]); [freeLabel] has one more round than there are
      labels taken ([freeLabel_free]).
    - The module's handles and slot ids are 64-bit counters; [creach] takes a step only
      while they have room ([roomy]) and while a snapshot has fewer than 2^30 readers. The
      count of calls in flight is an [int] in the source and unbounded here. Exceptions
      (an allocation that fails) are not modelled.
    - The frames [AgentSocket] reads after a request are a finite list, those that come
      before the silence that ends the source's wait; its request ids wrap at 64 bits.
    - The request ids, tokens and generations of [QtTransport] are 64-bit counters; a call or
      a turn of the drain is a step only while they have room ([QtTransport.roomy]). The
      rounds of a wait are a finite list, those before the deadline.
    - Operation ids of [Scheduler] are a 64-bit counter; a step is taken only while it has
      room. References to operations and workers are never given out twice.
    - The names of stored anchors keep their order up to a million of them, which the
      theorems on [AnchorStore.anchors] assume; numbers are printed with one step of fuel
      per bit, more than they have digits.
    - Tickets of [Prompts] and ids of [Presence] are 64-bit counters; the theorems assume
      fewer than 2^64 of them are drawn. [FlowAsking.asking_bounded] assumes that the count
      of a card's refusals, 64 bits wide, has room for one more; the count of rejections
      wraps at 32 bits, and the bound on usable answers is for fewer than that.

    ** Found on the way

    Properties of the code as it is, rather than as its comments say: a burst of valid
    frames over the reassembler's caps is refused although each frame is within them
    ([Framing.pump_refuses_complete_burst]); the back-off never reaches its maximum
    ([RateLimiter.backoff_schedule]); a login over an expired lease can be dead on
    arrival ([Leases.grant_over_expired_lease_is_dead]); the client does not know the
    outcome [entryExpired] ([Vocabulary.entry_expired_is_lost]); a refused key agreement
    leaves its PIN with the plugin ([RawCrypto.derive_refusal_keeps_pin]); a login answered
    after its slot has another card is recorded for that card
    ([CryptokiCalls.login_recorded_for_another_card]); a part passed to [C_SignUpdate] while
    the signature is being made is accepted and lost
    ([CryptokiCalls.update_lost_during_final]); an operation published while its reader is
    removed is freed with its worker and can still be cancelled through the table
    ([SchedulerHolds.cancel_after_removal]); the phase of an operation that timed out leaves
    [Done] when its work goes on ([Operations.phase_leaves_done]); a signing flow that has
    served a channel's secret works with the card without a watchdog
    ([FlowConduct.channel_secret_unwatched]); a broken prompter makes a rejection of a
    secret that nobody typed ([FlowConduct.broken_prompter_counts_as_rejection]); evicting
    a card's entry makes an operation ask its holder several times again
    ([FlowConduct.asked_again_after_invalidate]); an import that is cut short can leave the
    old publishers over the new anchors, or a publisher with a date that lost its last digits
    ([AnchorStore.old_state_over_new_anchors], [cut_date_is_an_older_date]); a publisher that
    is missing from one import can be rolled back by a later one
    ([AnchorImport.forgotten_publisher_rolls_back]); a reason for signing with a newline in
    it sets, at the next start, a key that no client may set
    ([Config.reason_sets_reserved_key]); on a full disk the settings are replaced by their
    beginning ([Config.full_disk_loses_settings]); a connection that is lost while the cards
    are read makes a snapshot of cards without certificates
    ([AgentSocket.lost_connection_reads_as_empty_cards]); a Qt client whose agent greets and
    closes at once takes itself for connected ([QtTransport.greeting_then_closing]); a
    certificate that is read together with the end of the connection is reported as
    unavailable ([QtTransport.answer_lost_with_connection]); events of a lost connection are
    told after a new one is made ([QtTransport.old_event_after_reconnection]); two checks that
    spell one number differently are shown as they came ([SecurityChecks.one_number_twice]).

    ** Not modelled

    The operation
    launcher and the adapters from flows to operations; the calls into the card library;
    the objects of the Qt client above its connection, and its D-Bus connection; logging,
    exceptions, threads' start and stop, and memory wiping other than of the caches. [Broker] names
    what it takes from the operation manager, that a reader's worker runs one closure at
    a time, as the hypothesis [serialized] of the one conclusion that needs it. *)

From Stdlib Require Export ZArith Lia.
From stdpp Require Export base tactics numbers strings gmap option.
From stdpp Require Export list.

Local Open Scope Z_scope.

(** ** The [std::expected] result type

    Fallible code of the agent returns [std::expected<A, E>]; [Ok] and [Err]
    are its two alternatives, and the monadic [x ← r; k] is the early return
    [if (!r) return std::unexpected(r.error());]. *)
Inductive result (E A : Type) : Type :=
| Ok (a : A)
| Err (e : E).
Arguments Ok {E A} a.
Arguments Err {E A} e.

#[export] Instance result_ret {E} : MRet (result E) := λ A a, Ok a.
#[export] Instance result_bind {E} : MBind (result E) :=
  λ A B k r, match r with Ok a => k a | Err e => Err e end.
#[export] Instance result_fmap {E} : FMap (result E) :=
  λ A B f r, match r with Ok a => Ok (f a) | Err e => Err e end.

#[export] Instance result_eq_dec `{EqDecision E, EqDecision A} : EqDecision (result E A).
Proof. solve_decision. Defined.

Lemma bind_Ok {E A B : Type} (r : result E A) (k : A → result E B) (b : B) :
  r ≫= k = Ok b ↔ ∃ a, r = Ok a ∧ k a = Ok b.
Proof. destruct r as [a|e]; split; [eauto | by intros (?&[= <-]&?) | done | by intros (?&?&?)]. Qed.

Lemma Ok_bind {E A B : Type} (a : A) (k : A → result E B) : Ok a ≫= k = k a.
Proof. done. Qed.

Lemma bind_Err {E A B : Type} (r : result E A) (k : A → result E B) (e : E) :
  r ≫= k = Err e ↔ r = Err e ∨ ∃ a, r = Ok a ∧ k a = Err e.
Proof.
  destruct r as [a|e']; cbn; split.
  - intros ?; right; eauto.
  - intros [[=]|(?&[=]&?)]; by subst.
  - intros [= ->]. by left.
  - by intros [[=]|(?&[=]&?)]; subst.
Qed.

(** ** Machine integers

    A [w]-bit unsigned value is a [Z] in [[0, 2^w)]; every operation of the C++
    code that can leave the range is followed by an explicit [wrap]. *)
Definition wrap (w z : Z) : Z := z `mod` 2 ^ w.
Definition u8 (z : Z) : Z := wrap 8 z.
Definition u32 (z : Z) : Z := wrap 32 z.
Definition u64 (z : Z) : Z := wrap 64 z.

Lemma wrap_small (w z : Z) : 0 ≤ z < 2 ^ w → wrap w z = z.
Proof. apply Z.mod_small. Qed.

Lemma wrap_bound (w z : Z) : 0 ≤ w → 0 ≤ wrap w z < 2 ^ w.
Proof. intros. apply Z.mod_pos_bound. lia. Qed.

(** Disjoint bit ranges add up. *)
Lemma lor_shiftl (a b k : Z) : 0 ≤ k → 0 ≤ a < 2 ^ k → Z.lor a (Z.shiftl b k) = a + b * 2 ^ k.
Proof.
  intros Hk Ha. rewrite <-Z.shiftl_mul_pow2 by lia. symmetry. apply Z.add_nocarry_lor.
  apply Z.bits_inj'. intros n Hn. rewrite Z.land_spec, Z.bits_0.
  destruct (Z.lt_ge_cases n k) as [?|?].
  - by rewrite Z.shiftl_spec_low, andb_false_r.
  - destruct (Z.eq_dec a 0) as [->|]; [by rewrite Z.bits_0|].
    assert (Z.log2 a < k) by (apply Z.log2_lt_pow2; lia).
    rewrite (Z.bits_above_log2 a n); [done|lia|lia].
Qed.

(** A [std::uint8_t]. *)
Definition is_byte (b : Z) : Prop := 0 ≤ b < 256.

(** ** The development's automation

    [agent] collects the lemmas that rewrite a component's operations; [bool_hyps]
    turns the boolean guards of the code into propositions. *)
Create HintDb agent discriminated.
Create Rewrite HintDb agent.

Ltac bool_hyps :=
  repeat match goal with
  | H : (_ && _)%bool = true |- _ => apply andb_true_iff in H as [? ?]
  | H : (_ || _)%bool = false |- _ => apply orb_false_iff in H as [? ?]
  | H : negb _ = true |- _ => apply negb_true_iff in H
  | H : negb _ = false |- _ => apply negb_false_iff in H
  | H : bool_decide _ = true |- _ => apply bool_decide_eq_true in H
  | H : bool_decide _ = false |- _ => apply bool_decide_eq_false in H
  | H : (_ <? _)%Z = true |- _ => apply Z.ltb_lt in H
  | H : (_ <? _)%Z = false |- _ => apply Z.ltb_ge in H
  | H : (_ <=? _)%Z = true |- _ => apply Z.leb_le in H
  | H : (_ <=? _)%Z = false |- _ => apply Z.leb_gt in H
  | H : (_ =? _)%Z = true |- _ => apply Z.eqb_eq in H
  | H : (_ =? _)%Z = false |- _ => apply Z.eqb_neq in H
  end.

(** Case analysis on the innermost [match] or [if] of the goal or a hypothesis. *)
Ltac break_match :=
  match goal with
  | |- context [match ?x with _ => _ end] =>
      lazymatch x with context [match _ with _ => _ end] => fail | _ => destruct x eqn:? end
  | H : context [match ?x with _ => _ end] |- _ =>
      lazymatch x with context [match _ with _ => _ end] => fail | _ => destruct x eqn:? end
  end.

(** ** Lists *)

(** The length of a [std::vector], as a [std::size_t]. *)
Abbreviation zlen l := (Z.of_nat (length l)).
