(* ===== verification/Framing.v ===== *)
(** * Socket framing and frame reassembly

    Models [src/wire/FdHarvest.h], [src/wire/Framing.cpp] and
    [src/wire/FrameReassembler.cpp]: the length-prefixed frames of the socket
    transport, the file descriptors that ride them as SCM_RIGHTS ancillary data,
    the blocking send and receive loops, and the non-blocking reassembler.

    The kernel's socket is not code of the repository: [SocketOps] is the
    interface the loops call, [HealthyStream] the documented behaviour of a
    connected AF_UNIX stream socket, and [Scripted] an executable instance.
    A byte is a [Z] in [[0, 256)] and a descriptor is its number. *)
From S2P Require Import Prelude.
Local Open Scope Z_scope.

Module Framing.

Definition kProtocolVersion : Z := 1.

(** [uint32 bodyLen LE][uint32 fdCount LE] *)
Definition kFrameHeaderBytes : Z := 2 * 4.
Definition kMaxFrameBytes : Z := Z.shiftl 1 20.
Definition kMaxFrameFds : Z := 16.

Inductive FrameError :=
| PeerClosed
| Oversize
| Io
| TooManyFds
| FdMismatch
| WouldBlock.

#[export] Instance FrameError_eq_dec : EqDecision FrameError.
Proof. solve_decision. Defined.

Record Frame := mkFrame { body : list Z; fds : list Z }.

#[export] Instance Frame_eq_dec : EqDecision Frame.
Proof. solve_decision. Defined.

(** ** Descriptor harvest: [FdHarvest.h] *)

(** The values of [errno] the loops tell apart. [EWOULDBLOCK] is [EAGAIN] on the
    supported platforms. *)
Inductive Errno := EINTR | EAGAIN | EINVAL | EOTHER (code : Z).

#[export] Instance Errno_eq_dec : EqDecision Errno.
Proof. solve_decision. Defined.

Definition isWouldBlock (err : Errno) : bool := bool_decide (err = EAGAIN).

(** What [recvmsg] left in the [msghdr]: the address of the control buffer, or
    [None] for a null pointer, and how many of its bytes were delivered. *)
Record msghdr := mkMsghdr { msg_control : option Z; msg_controllen : Z }.

(** A control header: the length the sender claimed, whether it is an
    [SOL_SOCKET]/[SCM_RIGHTS] header, and the address [CMSG_DATA] gives. *)
Record cmsghdr := mkCmsghdr { cmsg_len : Z; is_scm_rights : bool; cmsg_data : Z }.

Section Harvest.
(** [CMSG_LEN(0)]: the platform's aligned size of a [cmsghdr]. *)
Variable CMSG_LEN0 : Z.

Definition deliveredFdBytes (msg : msghdr) (c : option cmsghdr) : Z :=
  match c, msg_control msg with
  | Some c, Some control =>
      let claimed := cmsg_len c in
      if claimed <? CMSG_LEN0 then 0
      else
        let controlEnd := control + msg_controllen msg in
        let data := cmsg_data c in
        if controlEnd <? data then 0
        else
          let delivered := u64 (controlEnd - data) in
          Z.min (u64 (claimed - CMSG_LEN0)) delivered
  | _, _ => 0
  end.

(** What one [recvmsg] call produced: its return value and [errno], the bytes
    stored in the destination, the [msghdr], the headers
    [CMSG_FIRSTHDR]/[CMSG_NXTHDR] walk, the integer stored at each address of
    the control buffer, and whether [MSG_CTRUNC] is set. *)
Record RawRecv := mkRawRecv {
  raw_ret : Z;
  raw_errno : Errno;
  raw_data : list Z;
  raw_msg : msghdr;
  raw_headers : list cmsghdr;
  raw_int_at : Z → Z;
  raw_ctrunc : bool }.

(** [FdRecvResult]: [bytes > 0] is [Received], [bytes = 0] is [RecvEof] and
    [bytes < 0] is [RecvFailed] with the [errno] still set. *)
Inductive FdRecvResult :=
| Received (data : list Z) (fds : list Z) (ancillaryTruncated : bool)
| RecvEof
| RecvFailed (err : Errno).

(** The descriptor slots one header contributes: the [i]-th [int] after
    [CMSG_DATA], for every [i] below the clamped count. *)
Definition harvestSlots (msg : msghdr) (c : cmsghdr) : list Z :=
  if is_scm_rights c then
    let count := deliveredFdBytes msg (Some c) `div` 4 in
    (λ i : nat, cmsg_data c + 4 * Z.of_nat i) <$> seq 0 (Z.to_nat count)
  else [].

Definition receiveWithFds (r : RawRecv) : FdRecvResult :=
  if raw_ret r <? 0 then RecvFailed (raw_errno r)
  else if raw_ret r =? 0 then RecvEof
  else
    let slots := concat (harvestSlots (raw_msg r) <$> raw_headers r) in
    Received (raw_data r) (raw_int_at r <$> slots) (raw_ctrunc r).
End Harvest.

(** What a [sendmsg] or [send] call reported. *)
Inductive SendResult :=
| Sent (count : Z)
| SendFailed (err : Errno).

(** The socket calls the frame loops make: a [receiveWithFds] of at most [n]
    bytes, and a [sendmsg] of some bytes with descriptors attached (none for the
    plain [send] of a frame's remainder). *)
Class SocketOps (sock : Type) := {
  receive : sock → Z → FdRecvResult * sock;
  transmit : sock → list Z → list Z → SendResult * sock }.

(** ** Frames: [Framing.cpp] *)

Definition putU32Le (out : list Z) (v : Z) : list Z :=
  out ++ [ u8 (Z.land v 0xFF);
           u8 (Z.land (Z.shiftr v 8) 0xFF);
           u8 (Z.land (Z.shiftr v 16) 0xFF);
           u8 (Z.land (Z.shiftr v 24) 0xFF) ].

(** [p[i]] *)
Definition at_ (p : list Z) (i : nat) : Z := default 0 (p !! i).

Definition getU32Le (p : list Z) : Z :=
  Z.lor (Z.lor (Z.lor (at_ p 0) (Z.shiftl (at_ p 1) 8)) (Z.shiftl (at_ p 2) 16))
        (Z.shiftl (at_ p 3) 24).

Definition encodeFrame (body : list Z) (fdCount : Z) : list Z :=
  putU32Le (putU32Le [] (u32 (zlen body))) fdCount ++ body.

(** Descriptors past the cap are dropped (and so closed). *)
Fixpoint keepFds (outFds harvested : list Z) : list Z :=
  match harvested with
  | [] => outFds
  | fd :: rest =>
      keepFds (if zlen outFds <? kMaxFrameFds then outFds ++ [fd] else outFds) rest
  end.

Section Loops.
Context {sock : Type} `{!SocketOps sock}.

(** [recvExact] reads until [n] bytes are there. [None] is running out of fuel,
    the other outcomes are those of the C++ function, with the descriptors
    collected so far and the socket's new state. *)
Fixpoint recvExact (fuel : nat) (s : sock) (got : list Z) (n : Z) (outFds : list Z) :
    option (result FrameError (list Z) * list Z * sock) :=
  match fuel with
  | O => None
  | S fuel =>
      if zlen got <? n then
        match receive s (n - zlen got) with
        | (RecvEof, s') => Some (Err PeerClosed, outFds, s')
        | (RecvFailed e, s') =>
            if bool_decide (e = EINTR) then recvExact fuel s' got n outFds
            else Some (Err (if isWouldBlock e then WouldBlock else Io), outFds, s')
        | (Received data harvested truncated, s') =>
            let outFds' := keepFds outFds harvested in
            if truncated then Some (Err Io, outFds', s')
            else recvExact fuel s' (got ++ data) n outFds'
        end
      else Some (Ok got, outFds, s)
  end.

Definition recvFrame (fuel : nat) (s : sock) : option (result FrameError Frame * sock) :=
  match recvExact fuel s [] kFrameHeaderBytes [] with
  | None => None
  | Some (Err err, _, s1) => Some (Err err, s1)
  | Some (Ok header, fds1, s1) =>
      let len := getU32Le header in
      let fdCount := getU32Le (drop 4 header) in
      if kMaxFrameBytes <? len then Some (Err Oversize, s1)
      else if kMaxFrameFds <? fdCount then Some (Err TooManyFds, s1)
      else
        match (if 0 <? len then recvExact fuel s1 [] len fds1 else Some (Ok [], fds1, s1)) with
        | None => None
        | Some (Err err, _, s2) => Some (Err err, s2)
        | Some (Ok bytes, fds2, s2) =>
            if zlen fds2 =? fdCount then Some (Ok (mkFrame bytes fds2), s2)
            else Some (Err FdMismatch, s2)
        end
  end.

Definition sendWithFds (s : sock) (data : list Z) (passFds : list Z) : SendResult * sock :=
  if kMaxFrameFds <? zlen passFds then (SendFailed EINVAL, s)
  else transmit s data passFds.

(** The send loop: the first send carries the descriptors, the remainder goes
    as plain sends. *)
Fixpoint sendLoop (fuel : nat) (s : sock) (framed passFds : list Z) (sent : Z)
    (ancillarySent : bool) : option (result FrameError unit * sock) :=
  match fuel with
  | O => None
  | S fuel =>
      if sent <? zlen framed then
        let '(w, s') :=
          if negb ancillarySent then sendWithFds s framed passFds
          else transmit s (drop (Z.to_nat sent) framed) [] in
        match w with
        | SendFailed e =>
            if bool_decide (e = EINTR) then sendLoop fuel s' framed passFds sent ancillarySent
            else Some (Err Io, s')
        | Sent count => sendLoop fuel s' framed passFds (sent + count) true
        end
      else Some (Ok tt, s)
  end.

Definition sendFrame (fuel : nat) (s : sock) (body passFds : list Z) :
    option (result FrameError unit * sock) :=
  if kMaxFrameBytes <? zlen body then Some (Err Oversize, s)
  else if kMaxFrameFds <? zlen passFds then Some (Err TooManyFds, s)
  else sendLoop fuel s (encodeFrame body (u32 (zlen passFds))) passFds 0 false.
End Loops.

(** ** The non-blocking reassembler: [FrameReassembler.cpp] *)

Definition kMaxPendingFds : Z := 2 * kMaxFrameFds.
Definition kMaxBufferBytes : Z := kFrameHeaderBytes + kMaxFrameBytes.
Definition kChunkBytes : Z := 4096.

Inductive PumpStatus := PumpOk | PumpPeerClosed | PumpError (error : FrameError).

Record PumpResult := mkPump { frames : list Frame; status : PumpStatus }.

(** [m_buffer] and [m_fds]. *)
Record FrameReassembler := mkReassembler { m_buffer : list Z; m_fds : list Z }.

Definition emptyReassembler : FrameReassembler := mkReassembler [] [].

(** The loop of [extract], from read position [pos]: the frames found, the
    position and the descriptors left, and the protocol violation that stopped
    it, if any. *)
Fixpoint extractLoop (fuel : nat) (buffer : list Z) (pos : Z) (fifo : list Z)
    (out : list Frame) : list Frame * Z * list Z * option FrameError :=
  match fuel with
  | O => (out, pos, fifo, None)
  | S fuel =>
      if zlen buffer - pos <? kFrameHeaderBytes then (out, pos, fifo, None)
      else
        let h := drop (Z.to_nat pos) buffer in
        let bodyLen := getU32Le h in
        let fdCount := getU32Le (drop 4 h) in
        if kMaxFrameBytes <? bodyLen then (out, pos, fifo, Some Oversize)
        else if kMaxFrameFds <? fdCount then (out, pos, fifo, Some TooManyFds)
        else if zlen buffer - pos <? kFrameHeaderBytes + bodyLen then (out, pos, fifo, None)
        else if zlen fifo <? fdCount then (out, pos, fifo, Some FdMismatch)
        else
          let f := mkFrame (take (Z.to_nat bodyLen) (drop (Z.to_nat kFrameHeaderBytes) h))
                           (take (Z.to_nat fdCount) fifo) in
          extractLoop fuel buffer (pos + kFrameHeaderBytes + bodyLen)
            (drop (Z.to_nat fdCount) fifo) (out ++ [f])
  end.

(** [extract]: every iteration consumes a header, so the buffer's length bounds
    the iterations. *)
Definition extract (r : FrameReassembler) (out : PumpResult) : PumpResult * FrameReassembler :=
  let '(fs, pos, fifo, err) :=
    extractLoop (S (length (m_buffer r))) (m_buffer r) 0 (m_fds r) (frames out) in
  (mkPump fs (match err with Some e => PumpError e | None => status out end),
   mkReassembler (if 0 <? pos then drop (Z.to_nat pos) (m_buffer r) else m_buffer r) fifo).

Section Pump.
Context {sock : Type} `{!SocketOps sock}.

(** The read loop of [pump]: drain the socket until it would block, ends or
    fails. *)
Fixpoint drain (fuel : nat) (s : sock) (r : FrameReassembler) :
    option (PumpStatus * FrameReassembler * sock) :=
  match fuel with
  | O => None
  | S fuel =>
      match receive s kChunkBytes with
      | (RecvEof, s') => Some (PumpPeerClosed, r, s')
      | (RecvFailed e, s') =>
          if bool_decide (e = EINTR) then drain fuel s' r
          else if isWouldBlock e then Some (PumpOk, r, s')
          else Some (PumpError Io, r, s')
      | (Received data harvested truncated, s') =>
          let fifo := m_fds r ++ harvested in
          if truncated then Some (PumpError Io, mkReassembler (m_buffer r) fifo, s')
          else if kMaxPendingFds <? zlen fifo then
            Some (PumpError TooManyFds, mkReassembler (m_buffer r) fifo, s')
          else
            let buffer := m_buffer r ++ data in
            if kMaxBufferBytes <? zlen buffer then
              Some (PumpError Oversize, mkReassembler buffer fifo, s')
            else drain fuel s' (mkReassembler buffer fifo)
      end
  end.

Definition pump (fuel : nat) (s : sock) (r : FrameReassembler) :
    option (PumpResult * FrameReassembler * sock) :=
  match drain fuel s r with
  | None => None
  | Some (PumpError e, r', s') => Some (mkPump [] (PumpError e), r', s')
  | Some (st, r', s') =>
      let '(out, r'') := extract r' (mkPump [] st) in
      Some (out, r'', s')
  end.
End Pump.

(** Arithmetic with the limits unfolded. *)
Ltac limits :=
  change kMaxFrameBytes with 1048576 in *; change kMaxFrameFds with 16 in *;
  change kFrameHeaderBytes with 8 in *; change kMaxPendingFds with 32 in *;
  change kMaxBufferBytes with 1048584 in *; change kChunkBytes with 4096 in *; cbn [length] in *; lia.

(** ** Byte-level lemmas *)

Lemma u8_land (v k : Z) : 0 ≤ k → u8 (Z.land (Z.shiftr v k) 0xFF) = (v `div` 2 ^ k) `mod` 256.
Proof.
  intros Hk. change 0xFF with (Z.ones 8). rewrite Z.land_ones by lia.
  rewrite Z.shiftr_div_pow2 by lia. unfold u8, wrap. change (2 ^ 8) with 256.
  by rewrite Z.mod_mod by lia.
Qed.

Lemma putU32Le_bytes (v : Z) :
  putU32Le [] v = [v `mod` 256; (v `div` 2 ^ 8) `mod` 256; (v `div` 2 ^ 16) `mod` 256;
                   (v `div` 2 ^ 24) `mod` 256].
Proof.
  unfold putU32Le. rewrite !u8_land by lia. cbn [app].
  f_equal. by rewrite <-(Z.shiftr_0_r v), u8_land, Z.div_1_r by lia.
Qed.

Lemma putU32Le_is_byte (v : Z) : Forall is_byte (putU32Le [] v).
Proof.
  rewrite putU32Le_bytes. unfold is_byte. repeat constructor; apply Z.mod_pos_bound; lia.
Qed.

Lemma getU32Le_sum (b0 b1 b2 b3 : Z) (rest : list Z) :
  is_byte b0 → is_byte b1 → is_byte b2 → is_byte b3 →
  getU32Le (b0 :: b1 :: b2 :: b3 :: rest) = b0 + b1 * 2 ^ 8 + b2 * 2 ^ 16 + b3 * 2 ^ 24.
Proof.
  unfold is_byte, getU32Le, at_. intros. simpl.
  rewrite (lor_shiftl b0 b1 8), (lor_shiftl _ b2 16), (lor_shiftl _ b3 24) by lia. lia.
Qed.

Lemma getU32Le_putU32Le (v : Z) (rest : list Z) :
  0 ≤ v < 2 ^ 32 → getU32Le (putU32Le [] v ++ rest) = v.
Proof.
  intros Hv. pose proof (putU32Le_is_byte v) as Hb. rewrite putU32Le_bytes in *.
  cbn [app]. decompose_Forall_hyps.
  rewrite getU32Le_sum by done. clear -Hv.
  Z.to_euclidean_division_equations. lia.
Qed.

(** Conversely four bytes are the encoding of the word they spell. *)
Lemma putU32Le_getU32Le (b0 b1 b2 b3 : Z) (rest : list Z) :
  is_byte b0 → is_byte b1 → is_byte b2 → is_byte b3 →
  putU32Le [] (getU32Le (b0 :: b1 :: b2 :: b3 :: rest)) = [b0; b1; b2; b3].
Proof.
  intros. rewrite getU32Le_sum, putU32Le_bytes by done. unfold is_byte in *.
  repeat (f_equal; try (Z.to_euclidean_division_equations; lia)).
Qed.

Lemma getU32Le_bound (p : list Z) : Forall is_byte p → 0 ≤ getU32Le p < 2 ^ 32.
Proof.
  intros Hp. assert (∀ i, is_byte (at_ p i)) as Hat.
  { intros i. unfold at_. destruct (p !! i) eqn:E; simpl; [|unfold is_byte; lia].
    by eapply Forall_lookup_1 in E. }
  pose proof (Hat 0%nat) as H0; pose proof (Hat 1%nat) as H1;
    pose proof (Hat 2%nat) as H2; pose proof (Hat 3%nat) as H3.
  assert (getU32Le p = getU32Le [at_ p 0; at_ p 1; at_ p 2; at_ p 3]) as -> by done.
  rewrite getU32Le_sum by done. unfold is_byte in *. lia.
Qed.

(** ** The harvest reads only delivered memory *)

(** The clamp answers at most what the sender claimed and at most what was
    delivered, so [delivered / sizeof(int)] slots stay inside the buffer. *)
Lemma deliveredFdBytes_bounds (len0 control : Z) (msg : msghdr) (c : cmsghdr) :
  0 ≤ len0 → 0 ≤ cmsg_len c < 2 ^ 64 → msg_control msg = Some control →
  0 ≤ control → control + msg_controllen msg < 2 ^ 64 → 0 ≤ cmsg_data c →
  let n := deliveredFdBytes len0 msg (Some c) in
  0 ≤ n ∧ (n = 0 ∨ n ≤ cmsg_len c - len0 ∧ cmsg_data c + n ≤ control + msg_controllen msg).
Proof.
  intros ?? Hmsg ???. unfold deliveredFdBytes, u64. rewrite Hmsg.
  destruct (cmsg_len c <? len0) eqn:?; [simpl; lia|].
  destruct (control + msg_controllen msg <? cmsg_data c) eqn:?; [simpl; lia|].
  bool_hyps. rewrite !wrap_small by lia. simpl. lia.
Qed.

Lemma harvestSlots_in_bounds (len0 control : Z) (msg : msghdr) (c : cmsghdr) (a : Z) :
  0 ≤ len0 → 0 ≤ cmsg_len c < 2 ^ 64 → msg_control msg = Some control →
  0 ≤ control → control + msg_controllen msg < 2 ^ 64 → 0 ≤ cmsg_data c →
  a ∈ harvestSlots len0 msg c →
  cmsg_data c ≤ a ∧ a + 4 ≤ control + msg_controllen msg ∧ a + 4 ≤ cmsg_data c + (cmsg_len c - len0).
Proof.
  intros ?? Hmsg ??? Ha. unfold harvestSlots in Ha.
  destruct (is_scm_rights c); [|by apply not_elem_of_nil in Ha].
  apply list_elem_of_fmap in Ha as (i & -> & Hi). apply elem_of_seq in Hi.
  pose proof (deliveredFdBytes_bounds len0 control msg c) as Hb. cbv zeta in Hb.
  destruct Hb as [Hn Hb]; try done.
  revert Hi Hn Hb. generalize (deliveredFdBytes len0 msg (Some c)). intros n Hi Hn Hb.
  assert (4 * Z.of_nat i + 4 ≤ n) by (Z.to_euclidean_division_equations; lia).
  cbn beta. lia.
Qed.

(** ** Streams that behave *)

(** The bytes of a stream with the descriptors that ride each of them. *)
Definition attach (bytes fds : list Z) : list (Z * list Z) :=
  match bytes with
  | [] => []
  | b :: bs => (b, fds) :: ((λ b, (b, [])) <$> bs)
  end.

Definition wireBytes (w : list (Z * list Z)) : list Z := w.*1.
Definition wireFds (w : list (Z * list Z)) : list Z := concat w.*2.

(** A connected AF_UNIX stream socket with no fault on the line: reads take a
    non-empty prefix of the inbound bytes in order, with the descriptors riding
    them; writes append a non-empty prefix of what was offered, the descriptors
    riding its first byte; only finitely many calls are interrupted. *)
Class HealthyStream (sock : Type) `{!SocketOps sock} := {
  inbound : sock → list (Z * list Z);
  outbound : sock → list (Z * list Z);
  interrupts : sock → nat;
  receive_ok : ∀ (s s' : sock) (n : Z) (r : FdRecvResult),
    0 < n → receive s n = (r, s') →
    match r with
    | Received data fds truncated =>
        ∃ k : nat, (0 < k ≤ length (inbound s))%nat ∧ Z.of_nat k ≤ n ∧
          data = wireBytes (take k (inbound s)) ∧ fds = wireFds (take k (inbound s)) ∧
          inbound s' = drop k (inbound s) ∧ (interrupts s' ≤ interrupts s)%nat ∧
          (truncated = true → kMaxFrameFds < zlen fds)
    | RecvFailed EINTR => inbound s' = inbound s ∧ (interrupts s' < interrupts s)%nat
    | RecvEof | RecvFailed EAGAIN => inbound s = [] ∧ inbound s' = []
    | RecvFailed _ => False
    end;
  transmit_ok : ∀ (s s' : sock) (bytes fds : list Z) (r : SendResult),
    bytes ≠ [] → zlen fds ≤ kMaxFrameFds → transmit s bytes fds = (r, s') →
    match r with
    | Sent k => 0 < k ≤ zlen bytes ∧
        outbound s' = outbound s ++ attach (take (Z.to_nat k) bytes) fds ∧
        (interrupts s' ≤ interrupts s)%nat
    | SendFailed EINTR => outbound s' = outbound s ∧ (interrupts s' < interrupts s)%nat
    | SendFailed _ => False
    end }.

(** An executable stream: each scripted entry is the most bytes one call moves,
    or an interruption; with the script used up every call moves all it can. *)
Record Scripted := mkScripted {
  inb : list (Z * list Z);
  outb : list (Z * list Z);
  script : list (option nat) }.

Definition scriptStep (limit : nat) (script : list (option nat)) : option nat * list (option nat) :=
  match script with
  | [] => (Some limit, [])
  | None :: rest => (None, rest)
  | Some k :: rest => (Some (Nat.min (S k) limit), rest)
  end.

Fixpoint interruptions (script : list (option nat)) : nat :=
  match script with
  | [] => 0
  | None :: rest => S (interruptions rest)
  | Some _ :: rest => interruptions rest
  end.

#[export] Instance scripted_ops : SocketOps Scripted := {
  receive s n :=
    match scriptStep (Nat.min (length (inb s)) (Z.to_nat n)) (script s) with
    | (None, sc) => (RecvFailed EINTR, mkScripted (inb s) (outb s) sc)
    | (Some O, sc) => (RecvFailed EAGAIN, mkScripted (inb s) (outb s) sc)
    | (Some k, sc) =>
        let chunk := take k (inb s) in
        (Received (wireBytes chunk) (wireFds chunk) (kMaxFrameFds <? zlen (wireFds chunk)),
         mkScripted (drop k (inb s)) (outb s) sc)
    end;
  transmit s bytes fds :=
    match scriptStep (length bytes) (script s) with
    | (None, sc) => (SendFailed EINTR, mkScripted (inb s) (outb s) sc)
    | (Some k, sc) =>
        (Sent (Z.of_nat k), mkScripted (inb s) (outb s ++ attach (take k bytes) fds) sc)
    end }.

Lemma scriptStep_bound limit sc k sc' :
  scriptStep limit sc = (Some k, sc') →
  (k ≤ limit)%nat ∧ ((0 < limit)%nat → (0 < k)%nat) ∧
  (interruptions sc' ≤ interruptions sc)%nat.
Proof.
  unfold scriptStep. destruct sc as [|[j|] rest]; intros [= <- <-]; destruct limit; simpl; lia.
Qed.

#[export, program] Instance scripted_healthy : HealthyStream Scripted := {
  inbound := inb; outbound := outb;
  interrupts s := interruptions (script s) }.
Next Obligation.
  intros [i o sc] s' n r Hn. simpl.
  destruct (scriptStep _ sc) as [[[|k]|] sc'] eqn:E; intros [= <- <-]; simpl.
  - apply scriptStep_bound in E as (?&?&?). assert (length i = 0%nat) as ?%nil_length_inv by lia.
    by subst.
  - apply scriptStep_bound in E as (?&?&?). exists (S k). repeat split; try lia; try done.
  - destruct sc as [|[j|] rest]; simplify_eq/=. split; [done|]. simpl; lia.
Qed.
Next Obligation.
  intros [i o sc] s' bytes fds r Hne Hfds. simpl.
  destruct (scriptStep _ sc) as [[k|] sc'] eqn:E; intros [= <- <-]; simpl.
  - apply scriptStep_bound in E as (?&?&?). destruct bytes; [done|]. simpl in *.
    rewrite Nat2Z.id. repeat split; try lia. 
  - destruct sc as [|[j|] rest]; simplify_eq/=. split; [done|]. simpl; lia.
Qed.

(** ** The blocking receive *)

Lemma keepFds_all (outFds harvested : list Z) :
  zlen outFds + zlen harvested ≤ kMaxFrameFds → keepFds outFds harvested = outFds ++ harvested.
Proof.
  revert outFds. induction harvested as [|fd rest IH]; intros outFds H; simpl in *.
  - by rewrite app_nil_r.
  - rewrite (proj2 (Z.ltb_lt _ _)) by lia.
    rewrite IH by (rewrite length_app; simpl; lia). by rewrite <-(assoc_L (++)).
Qed.

Lemma wireBytes_app w1 w2 : wireBytes (w1 ++ w2) = wireBytes w1 ++ wireBytes w2.
Proof. apply fmap_app. Qed.

Lemma wireFds_app w1 w2 : wireFds (w1 ++ w2) = wireFds w1 ++ wireFds w2.
Proof. unfold wireFds. by rewrite fmap_app, concat_app. Qed.

Lemma wireBytes_attach bytes fds : wireBytes (attach bytes fds) = bytes.
Proof.
  destruct bytes as [|b bs]; simpl; [done|]. f_equal. unfold wireBytes.
  rewrite <-list_fmap_compose. by apply list_fmap_id.
Qed.

Lemma wireFds_plain (bs : list Z) : wireFds ((λ b, (b, [])) <$> bs) = [].
Proof. induction bs; simpl; done. Qed.

Lemma wireFds_attach bytes fds : bytes ≠ [] → wireFds (attach bytes fds) = fds.
Proof.
  destruct bytes as [|b bs]; [done|]. intros _.
  change (fds ++ wireFds ((λ b, (b, [])) <$> bs) = fds). by rewrite wireFds_plain, app_nil_r.
Qed.

Lemma length_attach bytes fds : length (attach bytes fds) = length bytes.
Proof. destruct bytes; simpl; [done|]. by rewrite length_fmap. Qed.

Lemma length_wireBytes w : length (wireBytes w) = length w.
Proof. apply length_fmap. Qed.

Section Receive.
Context {sock : Type} `{!SocketOps sock, !HealthyStream sock}.

Lemma recvExact_complete (fuel : nat) (s : sock) (got : list Z) (n : Z) (outFds : list Z) :
  let m := Z.to_nat (n - zlen got) in
  let now := take m (inbound s) in
  zlen got ≤ n → (m ≤ length (inbound s))%nat → (m + interrupts s < fuel)%nat →
  zlen outFds + zlen (wireFds now) ≤ kMaxFrameFds →
  ∃ s', recvExact fuel s got n outFds =
          Some (Ok (got ++ wireBytes now), outFds ++ wireFds now, s') ∧
        inbound s' = drop m (inbound s) ∧ (interrupts s' ≤ interrupts s)%nat.
Proof.
  revert s got outFds. induction fuel as [|fuel IH]; intros s got outFds m now Hgot Hm Hfuel Hfds;
    [lia|]. simpl.
  destruct (zlen got <? n) eqn:Hlt; bool_hyps; last first.
  { assert (m = O) as Hm0 by lia. exists s. subst now. rewrite Hm0, take_0, drop_0. simpl.
    by rewrite !app_nil_r. }
  destruct (receive s (n - zlen got)) as [r s'] eqn:Hr.
  pose proof (receive_ok s s' (n - zlen got) r ltac:(lia) Hr) as Hok.
  destruct r as [data fds truncated| |err].
  - destruct Hok as (k & Hk & Hkn & -> & -> & Hin & Hint & Htr).
    assert (now = take k (inbound s) ++ take (m - k) (drop k (inbound s))) as Hnow.
    { subst now. rewrite take_take_drop. f_equal. lia. }
    rewrite Hnow, wireFds_app, length_app in Hfds.
    rewrite keepFds_all by lia.
    destruct truncated; [exfalso; lia|].
    assert (length (got ++ wireBytes (take k (inbound s))) = length got + k)%nat as Hl
      by (rewrite length_app, length_wireBytes, length_take; lia).
    specialize (IH s' (got ++ wireBytes (take k (inbound s)))
                  (outFds ++ wireFds (take k (inbound s)))). cbv zeta in IH.
    replace (Z.to_nat (n - zlen (got ++ wireBytes (take k (inbound s))))) with (m - k)%nat in IH
      by lia.
    rewrite Hin, length_drop, Hl in IH.
    destruct IH as (s'' & Heq & Hin' & Hint'); [lia|lia|lia|rewrite length_app; lia|].
    exists s''. rewrite Heq, Hnow, wireBytes_app, wireFds_app, !(assoc_L (++)).
    split_and!; [done| |lia]. rewrite Hin', drop_drop. f_equal. lia.
  - destruct Hok as [Hnil _]. rewrite Hnil in Hm. simpl in Hm. lia.
  - destruct err as [| | |code]; try done;
      try (destruct Hok as [Hnil _]; rewrite Hnil in Hm; simpl in Hm; lia).
    destruct Hok as [Hin Hint]. rewrite bool_decide_eq_true_2 by done.
    subst now. rewrite <-Hin in *.
    destruct (IH s' got outFds) as (s'' & Heq & Hin' & Hint'); try lia; try done.
    exists s''. split_and!; [done|done|lia].
Qed.
End Receive.

(** A frame both sides accept. *)
Definition frame_ok (f : Frame) : Prop :=
  Forall is_byte (body f) ∧ zlen (body f) ≤ kMaxFrameBytes ∧ zlen (fds f) ≤ kMaxFrameFds.

(** A frame on the wire: its encoding, the descriptors riding the first byte. *)
Definition frameWire (f : Frame) : list (Z * list Z) :=
  attach (encodeFrame (body f) (zlen (fds f))) (fds f).

Lemma encodeFrame_header (body : list Z) (n : Z) :
  encodeFrame body n = putU32Le [] (u32 (zlen body)) ++ putU32Le [] n ++ body.
Proof. done. Qed.

Lemma length_encodeFrame (body : list Z) (n : Z) :
  length (encodeFrame body n) = (8 + length body)%nat.
Proof. done. Qed.

Lemma encodeFrame_len (f : Frame) (n : Z) (rest : list Z) : frame_ok f →
  getU32Le (encodeFrame (body f) n ++ rest) = zlen (body f).
Proof.
  intros (_ & Hlen & _). rewrite encodeFrame_header, <-(assoc_L (++)).
  unfold u32. rewrite wrap_small by limits. apply getU32Le_putU32Le. limits.
Qed.

Lemma encodeFrame_fdCount (body : list Z) (n : Z) (rest : list Z) : 0 ≤ n ≤ kMaxFrameFds →
  getU32Le (drop 4 (encodeFrame body n ++ rest)) = n.
Proof.
  intros Hn. rewrite encodeFrame_header, <-(assoc_L (++)), drop_app_length' by done.
  rewrite <-(assoc_L (++)). apply getU32Le_putU32Le. limits.
Qed.

Lemma attach_nil (bytes : list Z) : attach bytes [] = (λ b, (b, [])) <$> bytes.
Proof. by destruct bytes. Qed.

Lemma take_attach (k : nat) (bytes fds : list Z) :
  take k (attach bytes fds) = attach (take k bytes) fds.
Proof. destruct bytes, k; simpl; try done. by rewrite fmap_take. Qed.

Lemma drop_attach (k : nat) (bytes fds : list Z) :
  (0 < k)%nat → drop k (attach bytes fds) = attach (drop k bytes) [].
Proof. destruct bytes, k; simpl; try lia; try done. intros _. by rewrite attach_nil, fmap_drop. Qed.

Lemma attach_app (b1 b2 fds : list Z) :
  b1 ≠ [] → attach (b1 ++ b2) fds = attach b1 fds ++ attach b2 [].
Proof. destruct b1; simpl; [done|]. intros _. by rewrite fmap_app, attach_nil. Qed.

Section FrameRoundTrip.
Context {sock : Type} `{!SocketOps sock, !HealthyStream sock}.

Lemma recvFrame_frameWire (fuel : nat) (s : sock) (f : Frame) (rest : list (Z * list Z)) :
  frame_ok f → inbound s = frameWire f ++ rest →
  (length (frameWire f) + interrupts s < fuel)%nat →
  ∃ s', recvFrame fuel s = Some (Ok f, s') ∧ inbound s' = rest ∧
        (interrupts s' ≤ interrupts s)%nat.
Proof.
  intros Hf Hin Hfuel. pose proof Hf as (_ & Hlen & Hfds). unfold frameWire in *.
  set (enc := encodeFrame (body f) (zlen (fds f))) in *.
  rewrite length_attach in Hfuel. assert (length enc = 8 + length (body f))%nat as Henc by done.
  assert (take 8 (inbound s) = attach (take 8 enc) (fds f)) as Htake.
  { by rewrite Hin, take_app_le, take_attach by (rewrite length_attach; lia). }
  assert (drop 8 (inbound s) = attach (body f) [] ++ rest) as Hdrop.
  { rewrite Hin, drop_app_le, drop_attach by (rewrite ?length_attach; lia). done. }
  destruct (recvExact_complete fuel s [] kFrameHeaderBytes []) as (s1 & Hrecv & Hin1 & Hint1).
  all: change (Z.to_nat (kFrameHeaderBytes - zlen [])) with 8%nat in *.
  all: rewrite ?Htake in *.
  { limits. } { rewrite Hin, length_app, length_attach. lia. } { lia. }
  { rewrite wireFds_attach by done. limits. }
  rewrite wireBytes_attach, wireFds_attach in Hrecv by done. cbn [app] in Hrecv.
  unfold recvFrame. rewrite Hrecv.
  assert (getU32Le (take 8 enc) = zlen (body f)) as ->
    by exact (encodeFrame_len f (zlen (fds f)) [] Hf).
  assert (getU32Le (drop 4 (take 8 enc)) = zlen (fds f)) as ->
    by exact (encodeFrame_fdCount (body f) (zlen (fds f)) [] ltac:(limits)).
  rewrite !(proj2 (Z.ltb_ge _ _)) by lia.
  rewrite Hdrop in Hin1. destruct (0 <? zlen (body f)) eqn:Hpos; bool_hyps.
  - destruct (recvExact_complete fuel s1 [] (zlen (body f)) (fds f)) as (s2 & Hrecv2 & Hin2 & Hint2).
    all: replace (Z.to_nat (zlen (body f) - zlen (@nil Z))) with (length (attach (body f) [])) in *
      by (rewrite length_attach; simpl; lia).
    all: rewrite ?Hin1, ?take_app_length, ?drop_app_length in *.
    { simpl; lia. } { rewrite length_app. lia. } { rewrite length_attach. lia. }
    { rewrite wireFds_attach by (intros Hnil; rewrite Hnil in Hpos; simpl in Hpos; lia). simpl. lia. }
    rewrite wireBytes_attach, attach_nil, wireFds_plain, app_nil_r in Hrecv2. cbn [app] in Hrecv2.
    rewrite Hrecv2, Z.eqb_refl. exists s2. destruct f. split_and!; [done|done|lia].
  - assert (body f = []) as Hb by (destruct (body f); [done|simpl in *; lia]).
    rewrite Z.eqb_refl. exists s1. destruct f; simpl in *. subst. split_and!; [done|done|lia].
Qed.

Lemma sendLoop_complete (fuel : nat) (s : sock) (framed passFds : list Z) (sent : Z)
    (base : list (Z * list Z)) :
  zlen passFds ≤ kMaxFrameFds → 0 ≤ sent ≤ zlen framed → 
  outbound s = base ++ attach (take (Z.to_nat sent) framed) passFds →
  (length framed - Z.to_nat sent + interrupts s < fuel)%nat →
  ∃ s', sendLoop fuel s framed passFds sent (0 <? sent) = Some (Ok tt, s') ∧
        outbound s' = base ++ attach framed passFds ∧ (interrupts s' ≤ interrupts s)%nat.
Proof.
  intros Hfds. revert s sent. induction fuel as [|fuel IH]; intros s sent Hsent Hout Hfuel; [lia|].
  simpl. destruct (sent <? zlen framed) eqn:Hlt; bool_hyps; last first.
  { exists s. rewrite take_ge in Hout by lia. done. }
  set (offered := drop (Z.to_nat sent) framed).
  set (riding := if 0 <? sent then [] else passFds).
  assert ((if negb (0 <? sent) then sendWithFds s framed passFds
           else transmit s offered []) = transmit s offered riding) as ->.
  { subst offered riding. destruct (0 <? sent) eqn:Hs; simpl; [done|]. bool_hyps.
    assert (sent = 0) as -> by lia. unfold sendWithFds.
    by rewrite (proj2 (Z.ltb_ge _ _)) by lia. }
  assert (length offered = length framed - Z.to_nat sent)%nat as Hoff by apply length_drop.
  destruct (transmit s offered riding) as [r s'] eqn:Hr.
  pose proof (transmit_ok s s' offered riding r) as Hok.
  destruct r as [k|err].
  - destruct Hok as (Hk & Hout' & Hint).
    { intros Hnil. rewrite Hnil in Hoff. simpl in Hoff. lia. }
    { subst riding. destruct (0 <? sent); simpl; limits. } { done. }
    destruct (IH s' (sent + k)) as (s'' & Heq & Hfin & Hint'').
    { lia. }
    { rewrite Hout', Hout, <-(assoc_L (++)). f_equal.
      rewrite Z2Nat.inj_add, <-take_take_drop by lia. fold offered. subst riding.
      destruct (0 <? sent) eqn:Hs; bool_hyps.
      - rewrite attach_app; [done|]. intros Hnil%(f_equal length).
        rewrite length_take in Hnil. simpl in Hnil. lia.
      - assert (sent = 0) as -> by lia. done. }
    { lia. }
    rewrite (proj2 (Z.ltb_lt 0 (sent + k))) in Heq by lia.
    exists s''. split_and!; [done|done|lia].
  - destruct err; try (exfalso; apply Hok; [|subst riding; destruct (0 <? sent); simpl; limits|done];
      intros Hnil; rewrite Hnil in Hoff; simpl in Hoff; lia).
    destruct Hok as (Hout' & Hint).
    { intros Hnil. rewrite Hnil in Hoff. simpl in Hoff. lia. }
    { subst riding. destruct (0 <? sent); simpl; limits. } { done. }
    rewrite bool_decide_eq_true_2 by done. rewrite Hout in Hout'.
    destruct (IH s' sent) as (s'' & Heq & Hfin & Hint''); [lia|done|lia|].
    exists s''. split_and!; [done|done|lia].
Qed.
End FrameRoundTrip.

(** ** Reassembly *)

Definition enc (f : Frame) : list Z := encodeFrame (body f) (zlen (fds f)).
Definition encAll (fs : list Frame) : list Z := concat (enc <$> fs).
Definition fdsAll (fs : list Frame) : list Z := concat (fds <$> fs).

(** Bytes that do not hold a complete frame yet, and violate no limit so far. *)
Definition incomplete (p : list Z) : Prop :=
  zlen p < kFrameHeaderBytes ∨
  getU32Le p ≤ kMaxFrameBytes ∧ getU32Le (drop 4 p) ≤ kMaxFrameFds ∧
    zlen p < kFrameHeaderBytes + getU32Le p.

Lemma encAll_app fs gs : encAll (fs ++ gs) = encAll fs ++ encAll gs.
Proof. unfold encAll. by rewrite fmap_app, concat_app. Qed.

Lemma fdsAll_app fs gs : fdsAll (fs ++ gs) = fdsAll fs ++ fdsAll gs.
Proof. unfold fdsAll. by rewrite fmap_app, concat_app. Qed.

Lemma enc_len (f : Frame) (rest : list Z) : frame_ok f → getU32Le (enc f ++ rest) = zlen (body f).
Proof. apply encodeFrame_len. Qed.

Lemma enc_fdCount (f : Frame) (rest : list Z) :
  frame_ok f → getU32Le (drop 4 (enc f ++ rest)) = zlen (fds f).
Proof. intros (_ & _ & ?). apply encodeFrame_fdCount. lia. Qed.

(** A buffer whose head spells an admissible header is that header's encoding
    followed by the rest. *)
Lemma header_split (h : list Z) :
  Forall is_byte h → kFrameHeaderBytes ≤ zlen h →
  h = putU32Le [] (getU32Le h) ++ putU32Le [] (getU32Le (drop 4 h)) ++ drop 8 h.
Proof.
  intros Hb Hl. do 8 (destruct h as [|? h]; [limits|]).
  repeat (apply Forall_cons_1 in Hb as [? Hb]).
  change (drop 4 (?a :: ?b :: ?c :: ?d :: ?t)) with t.
  by rewrite !putU32Le_getU32Le.
Qed.

Lemma extractLoop_done (fuel : nat) (buffer : list Z) (pos : Z) (fifo : list Z) (out : list Frame) :
  0 ≤ pos → incomplete (drop (Z.to_nat pos) buffer) → pos ≤ zlen buffer →
  extractLoop fuel buffer pos fifo out = (out, pos, fifo, None).
Proof.
  intros Hpos Hinc Hle. destruct fuel; [done|]. simpl.
  destruct (zlen buffer - pos <? kFrameHeaderBytes) eqn:?; [done|]. bool_hyps.
  unfold incomplete in Hinc. rewrite length_drop in Hinc.
  destruct Hinc as [?|(? & ? & ?)]; [lia|].
  rewrite !(proj2 (Z.ltb_ge _ _)) by lia. by rewrite (proj2 (Z.ltb_lt _ _)) by lia.
Qed.

Lemma extractLoop_complete (fs : list Frame) (fuel : nat) (buffer p : list Z) (pos : Z)
    (fifo fifo' : list Z) (out : list Frame) :
  Forall frame_ok fs → 0 ≤ pos ≤ zlen buffer →
  drop (Z.to_nat pos) buffer = encAll fs ++ p → fifo = fdsAll fs ++ fifo' →
  incomplete p → (length fs < fuel)%nat →
  extractLoop fuel buffer pos fifo out = (out ++ fs, pos + zlen (encAll fs), fifo', None).
Proof.
  intros Hok. revert fuel pos fifo out.
  induction Hok as [|f fs Hf Hok IH]; intros fuel pos fifo out Hpos Hdrop Hfifo Hinc Hfuel.
  { rewrite app_nil_r. simpl. rewrite Z.add_0_r. subst.
    apply extractLoop_done; simpl in *; try lia. by rewrite Hdrop. }
  destruct fuel as [|fuel]; [simpl in *; lia|]. cbn [extractLoop].
  pose proof Hf as (_ & Hlen & Hfds).
  change (encAll (f :: fs)) with (enc f ++ encAll fs) in *.
  rewrite <-(assoc_L (++)) in Hdrop.
  assert (length buffer = Z.to_nat pos + (8 + length (body f) + length (encAll fs) + length p))%nat as Hlb.
  { apply (f_equal length) in Hdrop. rewrite length_drop, !length_app in Hdrop.
    change (length (enc f)) with (8 + length (body f))%nat in Hdrop. lia. }
  rewrite (proj2 (Z.ltb_ge (zlen buffer - pos) _)) by limits.
  rewrite Hdrop, !enc_len, !enc_fdCount by done.
  change (fdsAll (f :: fs)) with (fds f ++ fdsAll fs) in Hfifo. rewrite <-(assoc_L (++)) in Hfifo.
  subst fifo. rewrite (proj2 (Z.ltb_ge kMaxFrameBytes _)), (proj2 (Z.ltb_ge kMaxFrameFds _)),
    (proj2 (Z.ltb_ge (zlen buffer - pos) _)), (proj2 (Z.ltb_ge (zlen (fds f ++ _)) _))
    by (rewrite ?length_app; limits).
  rewrite !Nat2Z.id, take_app_length, drop_app_length.
  replace (take _ (drop _ _)) with (body f); last first.
  { unfold enc, encodeFrame. rewrite <-!(assoc_L (++)). symmetry. apply take_app_length. }
  destruct f as [b0 f0]; cbn [body fds] in *.
  rewrite (IH fuel (pos + kFrameHeaderBytes + zlen b0) (fdsAll fs ++ fifo') (out ++ [mkFrame b0 f0]));
    try done; try limits; last first.
  { replace (Z.to_nat _) with (Z.to_nat pos + (8 + length b0))%nat by limits.
    rewrite <-drop_drop, Hdrop. by apply drop_app_length'. }
  rewrite <-(assoc_L (++)). cbn [app]. do 3 f_equal. rewrite length_app.
  change (length (enc _)) with (8 + length b0)%nat. limits.
Qed.

(** What the loop takes out of the buffer and the FIFO is exactly the encodings
    and descriptors of the frames it yields, in order; and it stops by itself. *)
Lemma extractLoop_lossless (fuel : nat) (buffer : list Z) (pos : Z) (fifo : list Z)
    (out out' : list Frame) (pos' : Z) (fifo' : list Z) (err : option FrameError) :
  Forall is_byte buffer → 0 ≤ pos ≤ zlen buffer →
  extractLoop fuel buffer pos fifo out = (out', pos', fifo', err) →
  pos ≤ pos' ≤ zlen buffer ∧
  ∃ fs, out' = out ++ fs ∧ Forall frame_ok fs ∧
    drop (Z.to_nat pos) buffer = encAll fs ++ drop (Z.to_nat pos') buffer ∧
    fifo = fdsAll fs ++ fifo' ∧
    (zlen buffer - pos < Z.of_nat fuel → err = None → incomplete (drop (Z.to_nat pos') buffer)).
Proof.
  intros Hb. revert pos fifo out. induction fuel as [|fuel IH]; intros pos fifo out Hpos Hrun.
  { simplify_eq/=. split; [lia|]. exists []. rewrite app_nil_r. split_and!; try done. lia. }
  cbn [extractLoop] in Hrun. set (h := drop (Z.to_nat pos) buffer) in *.
  assert (zlen h = zlen buffer - pos) as Hh by (subst h; rewrite length_drop; lia).
  assert (Forall is_byte h) as Hbh by (by apply Forall_drop).
  assert (∀ e, (zlen buffer - pos < Z.of_nat (S fuel) → e = None → incomplete h) →
               (out, pos, fifo, e) = (out', pos', fifo', err) →
    pos ≤ pos' ≤ zlen buffer ∧ ∃ fs, out' = out ++ fs ∧ Forall frame_ok fs ∧
    h = encAll fs ++ drop (Z.to_nat pos') buffer ∧ fifo = fdsAll fs ++ fifo' ∧
    (zlen buffer - pos < Z.of_nat (S fuel) → err = None → incomplete (drop (Z.to_nat pos') buffer)))
    as Hstop.
  { intros e He [= <- <- <- <-]. split; [lia|]. exists []. by rewrite app_nil_r. }
  repeat case_match; bool_hyps; try (eapply Hstop; [|exact Hrun]; intros; try done).
  - left. lia.
  - right. lia.
  - pose proof (getU32Le_bound h Hbh). pose proof (getU32Le_bound (drop 4 h) (Forall_drop _ _ _ Hbh)).
    apply IH in Hrun as (Hpos' & fs & -> & Hok & Hd & Hfifo & Hinc); [|limits].
    split; [limits|].
    set (f := mkFrame _ _) in *. exists (f :: fs).
    assert (zlen (body f) = getU32Le h) as Hlb
      by (cbn [f body]; rewrite length_take, length_drop; limits).
    assert (zlen (fds f) = getU32Le (drop 4 h)) as Hlf by (cbn [f fds]; rewrite length_take; lia).
    split_and!.
    + by rewrite <-(assoc_L (++)).
    + constructor; [|done]. split_and!; [|lia|lia]. by apply Forall_take, Forall_drop.
    + change (encAll (f :: fs)) with (enc f ++ encAll fs). rewrite <-(assoc_L (++)), <-Hd.
      unfold enc. rewrite encodeFrame_header, Hlb, Hlf. unfold u32. rewrite wrap_small by limits.
      rewrite (header_split h) at 1 by (done || limits). rewrite <-!(assoc_L (++)). do 2 f_equal.
      replace (Z.to_nat (pos + kFrameHeaderBytes + getU32Le h))
        with (Z.to_nat pos + (8 + Z.to_nat (getU32Le h)))%nat by limits.
      rewrite <-drop_drop. fold h. rewrite <-drop_drop. cbn [f body].
      change (Z.to_nat kFrameHeaderBytes) with 8%nat. by rewrite take_drop.
    + change (fdsAll (f :: fs)) with (fds f ++ fdsAll fs). rewrite <-(assoc_L (++)), <-Hfifo.
      cbn [f fds]. by rewrite take_drop.
    + intros. apply Hinc; [limits|done].
Qed.

Definition wireAll (fs : list Frame) : list (Z * list Z) := concat (frameWire <$> fs).

(** The reassembler holds exactly the bytes and descriptors of [tail]. *)
Definition holds (r : FrameReassembler) (tail : list (Z * list Z)) : Prop :=
  m_buffer r = wireBytes tail ∧ m_fds r = wireFds tail.

Lemma enc_ne_nil (f : Frame) : enc f ≠ [].
Proof. done. Qed.

Lemma wireFds_take_frameWire (k : nat) (f : Frame) :
  zlen (wireFds (take k (frameWire f))) ≤ zlen (fds f).
Proof.
  unfold frameWire. rewrite take_attach. destruct (take k _) eqn:E; [simpl; lia|].
  rewrite <-E, wireFds_attach; [lia|by rewrite E].
Qed.

Lemma incomplete_take (f : Frame) (k : nat) :
  frame_ok f → (k < length (enc f))%nat → incomplete (take k (enc f)).
Proof.
  intros Hf Hk. destruct (decide (k < 8)%nat) as [?|?].
  { left. rewrite length_take. limits. }
  right. assert (take k (enc f) = putU32Le [] (u32 (zlen (body f))) ++ putU32Le [] (zlen (fds f)) ++
    take (k - 8) (body f)) as ->.
  { unfold enc. rewrite encodeFrame_header. replace k with (4 + (4 + (k - 8)))%nat at 1 by lia. done. }
  destruct Hf as (_ & Hlen & Hfds). unfold u32. rewrite wrap_small by limits.
  rewrite getU32Le_putU32Le by limits.
  change (drop 4 (putU32Le [] ?a ++ ?b)) with b. rewrite getU32Le_putU32Le by limits.
  change (length (enc f)) with (8 + length (body f))%nat in Hk.
  split_and!; [limits|limits|]. rewrite !length_app, length_take. cbn [length putU32Le app]. limits.
Qed.

(** Any cut of a stream of frames falls after some whole frames, inside the next. *)
Lemma wireAll_cut (fs : list Frame) (w later : list (Z * list Z)) :
  Forall frame_ok fs → wireAll fs = w ++ later →
  ∃ d t tail, fs = d ++ t ∧ w = wireAll d ++ tail ∧ wireAll t = tail ++ later ∧
    incomplete (wireBytes tail) ∧
    (tail = [] ∨ ∃ f t', t = f :: t' ∧ (length tail < length (enc f))%nat ∧
                         zlen (wireFds tail) ≤ zlen (fds f)).
Proof.
  intros Hok. revert w. induction Hok as [|f fs Hf Hok IH]; intros w Hw.
  { symmetry in Hw. apply app_nil in Hw as [-> ->]. exists [], [], []. split_and!; try done.
    - left. simpl. limits. - by left. }
  change (wireAll (f :: fs)) with (frameWire f ++ wireAll fs) in Hw.
  assert (length (frameWire f) = length (enc f)) as Hl by apply length_attach.
  destruct (decide (length (frameWire f) ≤ length w)%nat) as [Hle|Hlt].
  - pose proof (f_equal (take (length (frameWire f))) Hw) as Ht.
    rewrite take_app_length, take_app_le in Ht by done.
    pose proof (f_equal (drop (length (frameWire f))) Hw) as Hd.
    rewrite drop_app_length, drop_app_le in Hd by done.
    destruct (IH _ Hd) as (d & t & tail & -> & Hw' & Ht' & Hinc & Htail).
    exists (f :: d), t, tail. split_and!; try done.
    rewrite <-(take_drop (length (frameWire f)) w), Hw', <-Ht. by rewrite (assoc_L (++)).
  - pose proof (f_equal (take (length w)) Hw) as Ht.
    rewrite take_app_length, take_app_le in Ht by lia.
    exists [], (f :: fs), w. split_and!; try done.
    + rewrite <-Ht. unfold frameWire. rewrite take_attach, wireBytes_attach.
      apply incomplete_take; [done|lia].
    + right. exists f, fs. split_and!; [done|lia|]. rewrite <-Ht. apply wireFds_take_frameWire.
Qed.

Lemma wireBytes_wireAll fs : wireBytes (wireAll fs) = encAll fs.
Proof.
  induction fs as [|f fs IH]; [done|].
  change (wireAll (f :: fs)) with (frameWire f ++ wireAll fs).
  rewrite wireBytes_app, IH. unfold frameWire. by rewrite wireBytes_attach.
Qed.

Lemma wireFds_wireAll fs : wireFds (wireAll fs) = fdsAll fs.
Proof.
  induction fs as [|f fs IH]; [done|].
  change (wireAll (f :: fs)) with (frameWire f ++ wireAll fs).
  rewrite wireFds_app, IH. unfold frameWire. by rewrite wireFds_attach.
Qed.

Lemma length_encAll fs : (length fs ≤ length (encAll fs))%nat.
Proof.
  induction fs as [|f fs IH]; [done|]. change (encAll (f :: fs)) with (enc f ++ encAll fs).
  rewrite length_app. change (length (enc f)) with (8 + length (body f))%nat. simpl. lia.
Qed.

Section PumpStream.
Context {sock : Type} `{!SocketOps sock, !HealthyStream sock}.

Lemma drain_complete (fuel : nat) (s : sock) (r : FrameReassembler) :
  zlen (m_buffer r) + zlen (inbound s) ≤ kMaxBufferBytes →
  zlen (m_fds r) + zlen (wireFds (inbound s)) ≤ kMaxPendingFds →
  zlen (wireFds (inbound s)) ≤ kMaxFrameFds →
  (length (inbound s) + interrupts s < fuel)%nat →
  ∃ st s', drain fuel s r = Some (st, mkReassembler (m_buffer r ++ wireBytes (inbound s))
                                         (m_fds r ++ wireFds (inbound s)), s') ∧
           (st = PumpOk ∨ st = PumpPeerClosed) ∧ inbound s' = [].
Proof.
  revert s r. induction fuel as [|fuel IH]; intros s [buf fifo] Hb Hp Hf Hfuel; [lia|].
  cbn [m_buffer m_fds] in *. simpl.
  destruct (receive s kChunkBytes) as [res s'] eqn:Hr.
  pose proof (receive_ok s s' kChunkBytes res ltac:(limits) Hr) as Hok.
  assert (inbound s = [] ∧ inbound s' = [] → ∀ st, (st = PumpOk ∨ st = PumpPeerClosed) →
    ∃ st' s'', Some (st, mkReassembler buf fifo, s') =
      Some (st', mkReassembler (buf ++ wireBytes (inbound s)) (fifo ++ wireFds (inbound s)), s'') ∧
      (st' = PumpOk ∨ st' = PumpPeerClosed) ∧ inbound s'' = []) as Hend.
  { intros [-> ?] st Hst. exists st, s'. unfold wireFds, wireBytes. simpl. by rewrite !app_nil_r. }
  destruct res as [data harvested truncated| |err].
  - destruct Hok as (k & Hk & Hkn & -> & -> & Hin & Hint & Htr).
    set (a := take k (inbound s)) in *.
    assert (inbound s = a ++ inbound s') as Hs by (rewrite Hin; symmetry; apply take_drop).
    assert (length a = k) as Ha by (subst a; rewrite length_take; lia).
    clearbody a. rewrite Hs in Hb, Hp, Hf, Hfuel |- *.
    rewrite wireFds_app, length_app in *.
    destruct truncated; [exfalso; lia|].
    rewrite (proj2 (Z.ltb_ge kMaxPendingFds _)), (proj2 (Z.ltb_ge kMaxBufferBytes _))
      by (rewrite ?length_app, ?length_wireBytes; lia).
    destruct (IH s' (mkReassembler (buf ++ wireBytes a) (fifo ++ wireFds a)))
      as (st & s'' & Heq & Hst & Hnil).
    all: cbn [m_buffer m_fds] in *; rewrite ?length_app, ?length_wireBytes in *; try lia.
    exists st, s''. by rewrite Heq, wireBytes_app, !(assoc_L (++)).
  - apply Hend; [done|by right].
  - destruct err; try done.
    + destruct Hok as [Hin Hint]. rewrite <-Hin in *.
      destruct (IH s' (mkReassembler buf fifo)) as (st & s'' & Heq & Hst & Hnil);
        cbn [m_buffer m_fds] in *; try lia. eauto.
    + apply Hend; [done|by left].
Qed.

Lemma pump_wireAll (fuel : nat) (s : sock) (r : FrameReassembler) (fs : list Frame)
    (tail later : list (Z * list Z)) :
  Forall frame_ok fs → holds r tail → wireAll fs = tail ++ inbound s ++ later →
  zlen tail + zlen (inbound s) ≤ kMaxBufferBytes →
  zlen (wireFds tail) ≤ kMaxFrameFds → zlen (wireFds (inbound s)) ≤ kMaxFrameFds →
  (length (inbound s) + interrupts s < fuel)%nat →
  ∃ out r' s' rest tail',
    pump fuel s r = Some (out, r', s') ∧ (status out = PumpOk ∨ status out = PumpPeerClosed) ∧
    fs = frames out ++ rest ∧ holds r' tail' ∧ wireAll rest = tail' ++ later ∧
    (tail' = [] ∨ ∃ f t, rest = f :: t ∧ (length tail' < length (enc f))%nat ∧
                         zlen (wireFds tail') ≤ zlen (fds f)).
Proof.
  intros Hok [Hbuf Hfifo] Hw Hcap Hf1 Hf2 Hfuel.
  destruct (drain_complete fuel s r) as (st & s' & Hdrain & Hst & Hnil);
    rewrite ?Hbuf, ?Hfifo, ?length_wireBytes; try limits.
  rewrite (assoc_L (++)) in Hw.
  destruct (wireAll_cut _ _ _ Hok Hw) as (d & t & tail' & -> & Hcut & Ht & Hinc & Htail).
  rewrite Hbuf, Hfifo, <-wireBytes_app, <-wireFds_app, Hcut, wireBytes_app, wireFds_app,
    wireBytes_wireAll, wireFds_wireAll in Hdrain.
  apply Forall_app in Hok as [Hd Hrest].
  assert (extract (mkReassembler (encAll d ++ wireBytes tail') (fdsAll d ++ wireFds tail')) (mkPump [] st)
          = (mkPump d st, mkReassembler (wireBytes tail') (wireFds tail'))) as Hext.
  { unfold extract. cbn [m_buffer m_fds frames status].
    rewrite (extractLoop_complete d _ _ (wireBytes tail') 0 _ (wireFds tail') []); try done.
    - cbn [app]. f_equal. f_equal. rewrite Z.add_0_l. destruct (0 <? _) eqn:Hz; bool_hyps.
      + by rewrite Nat2Z.id, drop_app_length.
      + destruct (encAll d) eqn:E; [done|]. simpl in Hz. lia.
    - lia.
    - rewrite length_app. pose proof (length_encAll d). lia. }
  exists (mkPump d st), (mkReassembler (wireBytes tail') (wireFds tail')), s', t, tail'.
  unfold pump. rewrite Hdrain. split_and!; try done.
  destruct Hst as [->| ->]; by rewrite Hext.
Qed.
End PumpStream.

(** The readiness callbacks of a connection, one socket state per callback: the
    frames every [pump] yields, in order; [None] as soon as one fails. *)
Fixpoint pumpAll {sock : Type} `{!SocketOps sock} (fuel : nat) (ss : list sock)
    (r : FrameReassembler) : option (list Frame * FrameReassembler) :=
  match ss with
  | [] => Some ([], r)
  | s :: ss =>
      match pump fuel s r with
      | Some (out, r', _) =>
          match status out with
          | PumpError _ => None
          | _ => '(fs, r'') ← pumpAll fuel ss r'; Some (frames out ++ fs, r'')
          end
      | None => None
      end
  end.

Lemma pumpAll_wireAll {sock : Type} `{!SocketOps sock, !HealthyStream sock}
    (fuel : nat) (ss : list sock) (M : Z) (r : FrameReassembler) (fs : list Frame)
    (tail : list (Z * list Z)) :
  Forall frame_ok fs → Forall (λ f, zlen (enc f) ≤ M) fs → holds r tail →
  zlen tail ≤ M → zlen (wireFds tail) ≤ kMaxFrameFds →
  wireAll fs = tail ++ concat (inbound <$> ss) →
  Forall (λ s, zlen (inbound s) + M ≤ kMaxBufferBytes ∧
               zlen (wireFds (inbound s)) ≤ kMaxFrameFds ∧
               (length (inbound s) + interrupts s < fuel)%nat) ss →
  (ss = [] → tail = []) →
  pumpAll fuel ss r = Some (fs, emptyReassembler).
Proof.
  revert r fs tail. induction ss as [|s ss IH]; intros r fs tail Hok HM Hr Ht1 Ht2 Hw Hss Hnil.
  { rewrite Hnil in Hw, Hr by done. destruct fs as [|f fs]; [|done].
    destruct r, Hr; simpl in *; subst; done. }
  apply Forall_cons_1 in Hss as [(Hcap & Hf & Hfuel) Hss].
  change (concat (inbound <$> s :: ss)) with (inbound s ++ concat (inbound <$> ss)) in Hw.
  destruct (pump_wireAll fuel s r fs tail (concat (inbound <$> ss)))
    as (out & r' & s' & rest & tail' & Hp & Hst & -> & Hr' & Hrest & Htail'); try done; [lia|].
  apply Forall_app in Hok as [Hd Hok]. apply Forall_app in HM as [_ HM].
  assert (pumpAll fuel ss r' = Some (rest, emptyReassembler)) as Hih.
  { apply (IH _ _ tail'); try done.
    - destruct Htail' as [->|(f & t & -> & Hl & _)]; [simpl; limits|].
      apply Forall_cons_1 in HM as [? _]. lia.
    - destruct Htail' as [->|(f & t & -> & _ & Hl)]; [simpl; limits|].
      apply Forall_cons_1 in Hok as [(_ & _ & ?) _]. lia.
    - intros ->. cbn in Hrest. rewrite app_nil_r in Hrest.
      destruct Htail' as [->|(f & t & -> & Hl & _)]; [done|].
      change (wireAll (f :: t)) with (frameWire f ++ wireAll t) in Hrest.
      apply (f_equal length) in Hrest. rewrite length_app in Hrest.
      unfold frameWire in Hrest. rewrite length_attach in Hrest. fold (enc f) in Hrest. lia. }
  cbn [pumpAll]. rewrite Hp. destruct Hst as [-> | ->]; by rewrite Hih.
Qed.

(** ** Properties *)

(** C27: A frame sent over one healthy stream arrives over another exactly as sent,
    whatever the partial transfers and interruptions on either side: same body,
    same descriptors in order, and the receiver stops at the frame's last byte. *)
Theorem frame_transport {sock1 sock2 : Type} `{!SocketOps sock1, !HealthyStream sock1}
    `{!SocketOps sock2, !HealthyStream sock2} (s : sock1) (f : Frame) (fuel : nat) :
  frame_ok f → (length (enc f) + interrupts s < fuel)%nat →
  ∃ s' w, sendFrame fuel s (body f) (fds f) = Some (Ok tt, s') ∧ outbound s' = outbound s ++ w ∧
    ∀ (t : sock2) (rest : list (Z * list Z)) (fuel' : nat),
      inbound t = w ++ rest → (length w + interrupts t < fuel')%nat →
      ∃ t', recvFrame fuel' t = Some (Ok f, t') ∧ inbound t' = rest.
Proof.
  intros Hf Hfuel. pose proof Hf as (_ & Hlen & Hfds).
  destruct (sendLoop_complete fuel s (enc f) (fds f) 0 (outbound s)) as (s' & Heq & Hout & _).
  { done. } { lia. } { by rewrite take_0, app_nil_r. } { change (Z.to_nat 0) with 0%nat. lia. }
  exists s', (frameWire f). split_and!.
  - unfold sendFrame. rewrite !(proj2 (Z.ltb_ge _ _)) by lia.
    unfold u32. rewrite wrap_small by limits. exact Heq.
  - exact Hout.
  - intros t rest fuel' Hin Hfuel'.
    destruct (recvFrame_frameWire fuel' t f rest) as (t' & ? & ? & _); eauto.
Qed.

(** Frames written back to back and delivered to the reassembler in any
    segmentation -- cut inside a header, a body or between frames, over any number
    of readiness callbacks -- come out whole, in order and each with its own
    descriptors, and nothing is left behind; as long as what one callback drains,
    together with one pending frame, fits the buffer. *)
Theorem reassembly_any_segmentation {sock : Type} `{!SocketOps sock, !HealthyStream sock}
    (fuel : nat) (ss : list sock) (M : Z) (fs : list Frame) :
  0 ≤ M → Forall frame_ok fs → Forall (λ f, zlen (enc f) ≤ M) fs →
  wireAll fs = concat (inbound <$> ss) →
  Forall (λ s, zlen (inbound s) + M ≤ kMaxBufferBytes ∧
               zlen (wireFds (inbound s)) ≤ kMaxFrameFds ∧
               (length (inbound s) + interrupts s < fuel)%nat) ss →
  pumpAll fuel ss emptyReassembler = Some (fs, emptyReassembler).
Proof.
  intros HM Hok Hsz Hw Hss. apply (pumpAll_wireAll fuel ss M _ _ []); try done; simpl; limits.
Qed.

(** What [extract] removes from the buffer and from the descriptor FIFO is, in
    order, exactly the encodings and the descriptors of the frames it yields; every
    frame is within the limits; and unless it reports a violation what stays
    behind holds no complete frame. *)
Theorem extract_lossless (r r' : FrameReassembler) (st : PumpStatus) (out : PumpResult) :
  Forall is_byte (m_buffer r) → extract r (mkPump [] st) = (out, r') →
  m_buffer r = encAll (frames out) ++ m_buffer r' ∧
  m_fds r = fdsAll (frames out) ++ m_fds r' ∧
  Forall frame_ok (frames out) ∧
  ((∀ e, status out ≠ PumpError e) → incomplete (m_buffer r')).
Proof.
  unfold extract. intros Hb.
  destruct (extractLoop _ _ _ _ _) as [[[fs pos] fifo] err] eqn:E. intros [= <- <-].
  apply extractLoop_lossless in E as (Hpos & gs & Hfs & Hok & Hbytes & Hfds & Hinc); [|done|lia].
  cbn [m_buffer m_fds frames status app] in *. subst gs. rewrite drop_0 in Hbytes.
  assert ((if 0 <? pos then drop (Z.to_nat pos) (m_buffer r) else m_buffer r) =
          drop (Z.to_nat pos) (m_buffer r)) as ->.
  { destruct (0 <? pos) eqn:?; [done|]. bool_hyps. by replace pos with 0 by lia. }
  split_and!; try done. intros Hst. apply Hinc; [lia|].
  destruct err as [e|]; [|done]. by destruct (Hst e).
Qed.

(** Every descriptor the harvest hands out was read from an [SCM_RIGHTS] header,
    at an address inside both the control data the kernel delivered and what the
    header claims, whatever lengths the peer put in its headers. *)
Theorem harvest_in_bounds (len0 control : Z) (r : RawRecv) (data fds : list Z) (trunc : bool) (fd : Z) :
  0 ≤ len0 → msg_control (raw_msg r) = Some control → 0 ≤ control →
  control + msg_controllen (raw_msg r) < 2 ^ 64 →
  Forall (λ c, 0 ≤ cmsg_len c < 2 ^ 64 ∧ 0 ≤ cmsg_data c) (raw_headers r) →
  receiveWithFds len0 r = Received data fds trunc → fd ∈ fds →
  ∃ c a, c ∈ raw_headers r ∧ is_scm_rights c = true ∧ fd = raw_int_at r a ∧
    cmsg_data c ≤ a ∧ a + 4 ≤ control + msg_controllen (raw_msg r) ∧
    a + 4 ≤ cmsg_data c + (cmsg_len c - len0).
Proof.
  intros Hlen0 Hctl Hpos Hend Hhdr Hrecv Hfd. unfold receiveWithFds in Hrecv.
  repeat case_match; simplify_eq. apply list_elem_of_fmap in Hfd as (a & -> & Ha).
  apply list_elem_of_In, in_concat in Ha as (slots & Hs%list_elem_of_In & Ha%list_elem_of_In).
  apply list_elem_of_fmap in Hs as (c & -> & Hc).
  pose proof (proj1 (Forall_forall _ _) Hhdr c Hc) as [? ?].
  exists c, a. destruct (is_scm_rights c) eqn:Hscm.
  - destruct (harvestSlots_in_bounds len0 control (raw_msg r) c a) as (? & ? & ?); eauto 10.
  - unfold harvestSlots in Ha. rewrite Hscm in Ha. by apply not_elem_of_nil in Ha.
Qed.

(** A header that declares a body over the cap, or too many descriptors, is
    refused as soon as its eight bytes are in: nothing of the body is read. *)
Theorem recvFrame_refuses_by_header {sock : Type} `{!SocketOps sock, !HealthyStream sock}
    (fuel : nat) (s : sock) (w rest : list (Z * list Z)) :
  inbound s = w ++ rest → zlen w = kFrameHeaderBytes → zlen (wireFds w) ≤ kMaxFrameFds →
  (8 + interrupts s < fuel)%nat →
  let h := wireBytes w in
  kMaxFrameBytes < getU32Le h ∨ kMaxFrameFds < getU32Le (drop 4 h) →
  ∃ s', recvFrame fuel s = Some (Err (if kMaxFrameBytes <? getU32Le h then Oversize else TooManyFds), s') ∧
        inbound s' = rest.
Proof.
  intros Hin Hw Hfds Hfuel h Hbad. assert (length w = 8%nat) as Hw8 by limits.
  destruct (recvExact_complete fuel s [] kFrameHeaderBytes []) as (s1 & Hrecv & Hin1 & _).
  all: change (Z.to_nat (kFrameHeaderBytes - zlen (@nil Z))) with 8%nat in *.
  all: rewrite ?Hin, <-?Hw8, ?take_app_length, ?drop_app_length in *.
  { limits. } { rewrite length_app. lia. } { lia. } { limits. }
  cbn [app] in Hrecv. fold h in Hrecv. exists s1. split; [|done]. unfold recvFrame. rewrite Hrecv.
  destruct (kMaxFrameBytes <? getU32Le h) eqn:?; [done|]. bool_hyps.
  by rewrite (proj2 (Z.ltb_lt _ _)) by lia.
Qed.

(** Three well-formed frames of eleven descriptors each, all complete on the
    socket when it becomes readable, are refused with [TooManyFds] and none is
    delivered, because the descriptors are counted before any frame is taken out;
    the same frames drained one per callback are all delivered. *)
Theorem pump_refuses_complete_burst :
  let f := mkFrame [1] [3; 4; 5; 6; 7; 8; 9; 10; 11; 12; 13] in
  let burst := mkScripted (wireAll [f; f; f]) [] [Some 8%nat; Some 8%nat; Some 8%nat] in
  let one := mkScripted (wireAll [f]) [] [] in
  frame_ok f ∧
  (∃ r' s', pump 10 burst emptyReassembler = Some (mkPump [] (PumpError TooManyFds), r', s')) ∧
  pumpAll 20 [one; one; one] emptyReassembler = Some ([f; f; f], emptyReassembler).
Proof.
  cbv zeta. split_and!.
  - split_and!; cbn; [|limits|limits]. repeat constructor; lia.
  - eexists _, _. vm_compute. reflexivity.
  - vm_compute. reflexivity.
Qed.

(** ** Witnesses *)

Lemma frame_transport_witness :
  let f := mkFrame [1; 2; 3] [7; 8] in
  let s := mkScripted [] [] [Some 2%nat; None; Some 0%nat] in
  ∃ s' w, sendFrame 100 s (body f) (fds f) = Some (Ok tt, s') ∧ outbound s' = outbound s ++ w ∧
    ∀ (t : Scripted) (rest : list (Z * list Z)) (fuel' : nat),
      inbound t = w ++ rest → (length w + interrupts t < fuel')%nat →
      ∃ t', recvFrame fuel' t = Some (Ok f, t') ∧ inbound t' = rest.
Proof.
  cbv zeta. apply frame_transport.
  - split_and!; [repeat constructor; lia|vm_compute; done|vm_compute; done].
  - vm_compute. lia.
Defined.

Lemma reassembly_any_segmentation_witness :
  let f := mkFrame [1; 2; 3] [7; 8] in let g := mkFrame [] [] in
  let part k1 k2 := mkScripted (take k2 (drop k1 (wireAll [f; g]))) [] [Some 1%nat; None] in
  pumpAll 40 [part 0%nat 5%nat; part 5%nat 7%nat; part 12%nat 7%nat] emptyReassembler =
    Some ([f; g], emptyReassembler).
Proof.
  cbv zeta. apply (reassembly_any_segmentation 40 _ 100).
  - lia.
  - repeat (constructor; [split_and!; [repeat constructor; lia|vm_compute; done|vm_compute; done]|]).
    constructor.
  - repeat constructor; vm_compute; done.
  - reflexivity.
  - repeat constructor; vm_compute; done || lia.
Defined.

Lemma extract_lossless_witness :
  let r := mkReassembler (encodeFrame [9; 9] 1 ++ [2; 0]) [5; 6] in
  let r' := mkReassembler [2; 0] [6] in
  let out := mkPump [mkFrame [9; 9] [5]] PumpOk in
  extract r (mkPump [] PumpOk) = (out, r') ∧ m_buffer r = encAll (frames out) ++ m_buffer r'.
Proof.
  cbv zeta. split; [reflexivity|].
  apply (extract_lossless _ _ PumpOk); [|reflexivity].
  repeat constructor; vm_compute; done.
Defined.

Lemma harvest_in_bounds_witness :
  let c := mkCmsghdr 28 true 1016 in
  let r := mkRawRecv 1 EINTR [65] (mkMsghdr (Some 1000) 20) [c] (λ a, a) true in
  receiveWithFds 16 r = Received [65] [1016] true ∧
  ∃ c' a, c' ∈ raw_headers r ∧ is_scm_rights c' = true ∧ 1016 = raw_int_at r a ∧
    cmsg_data c' ≤ a ∧ a + 4 ≤ 1000 + msg_controllen (raw_msg r) ∧
    a + 4 ≤ cmsg_data c' + (cmsg_len c' - 16).
Proof.
  cbv zeta. split; [reflexivity|].
  apply (harvest_in_bounds 16 1000 _ [65] [1016] true 1016).
  - lia.
  - reflexivity.
  - lia.
  - cbn [raw_msg msg_controllen]. lia.
  - constructor; [cbn [cmsg_len cmsg_data]; lia|constructor].
  - reflexivity.
  - by apply list_elem_of_singleton.
Defined.

Lemma recvFrame_refuses_by_header_witness :
  let w := attach (putU32Le [] 2000000 ++ putU32Le [] 0) [] in
  ∃ s' : Scripted,
    recvFrame 20 (mkScripted (w ++ [(1, [])]) [] [Some 2%nat]) = Some (Err Oversize, s') ∧
    inbound s' = [(1, [])].
Proof.
  cbv zeta.
  apply (recvFrame_refuses_by_header 20 (mkScripted _ [] [Some 2%nat])
           (attach (putU32Le [] 2000000 ++ putU32Le [] 0) []) [(1, [])]).
  - reflexivity.
  - reflexivity.
  - vm_compute. done.
  - vm_compute. lia.
  - left. vm_compute. done.
Defined.

End Framing.
