(* ===== verification/RateLimiter.v ===== *)
(** * The per-caller request throttle

    Models [src/operations/RateLimiter.cpp]: at most [kMaxPerWindow] attempts of a
    caller per sliding window, an exponential backoff once the cap is hit, and the
    sweep that keeps the table of callers bounded. Times are [steady_clock]
    nanoseconds; the clock's reading is an argument of [allow]. *)
From S2P Require Import Prelude.
Local Open Scope Z_scope.

Module RateLimiter.

(** [std::chrono::seconds] in the clock's nanoseconds. *)
Definition seconds (s : Z) : Z := s * 1000000000.

Definition kMaxPerWindow : Z := 5.
Definition kWindow : Z := seconds 60.
Definition kBaseBackoff : Z := seconds 2.
Definition kMaxBackoff : Z := seconds 60.
Definition kSweepThreshold : Z := 1024.

Record CallerState := mkCaller {
  recent : list Z;
  backoffLevel : Z;
  backoffUntil : Z }.

(** A default-constructed entry: no attempts, the epoch as backoff. *)
Definition freshCaller : CallerState := mkCaller [] 0 0.

(** The sweep's two tests: no attempt left in the window, no backoff running. *)
Definition windowEmpty (now : Z) (s : CallerState) : bool :=
  match last (recent s) with
  | None => true
  | Some t => kWindow <? now - t
  end.

Definition backoffElapsed (now : Z) (s : CallerState) : bool := backoffUntil s <=? now.

Definition sweep (callerKey : string) (now : Z) (m_callers : gmap string CallerState) :
    gmap string CallerState :=
  if kSweepThreshold <? Z.of_nat (size m_callers) then
    filter (λ '(k, s), ¬ (k ≠ callerKey ∧ windowEmpty now s = true ∧ backoffElapsed now s = true))
      m_callers
  else m_callers.

(** Drop attempts that have aged out of the sliding window. *)
Fixpoint ageOut (now : Z) (attempts : list Z) : list Z :=
  match attempts with
  | [] => []
  | t :: rest => if kWindow <? now - t then ageOut now rest else attempts
  end.

(** The backoff loop: doubled [level - 1] times, capped at [kMaxBackoff]. *)
Fixpoint growBackoff (doublings : nat) (backoff : Z) : Z :=
  match doublings with
  | O => backoff
  | S n => growBackoff n (Z.min (backoff * 2) kMaxBackoff)
  end.

Definition backoffFor (level : Z) : Z := growBackoff (Z.to_nat (level - 1)) kBaseBackoff.

Definition allow (callerKey : string) (now : Z) (m_callers : gmap string CallerState) :
    bool * gmap string CallerState :=
  let callers := sweep callerKey now m_callers in
  let s := default freshCaller (callers !! callerKey) in
  if now <? backoffUntil s then (false, <[callerKey := s]> callers)
  else
    let kept := ageOut now (recent s) in
    if kMaxPerWindow <=? zlen kept then
      let level := Z.min (backoffLevel s + 1) 5 in
      (false, <[callerKey := mkCaller kept level (now + backoffFor level)]> callers)
    else (true, <[callerKey := mkCaller (kept ++ [now]) 0 0]> callers).

(** A run of calls, each a caller and the clock's reading; the verdicts in order. *)
Fixpoint run (calls : list (string * Z)) (st : gmap string CallerState) :
    list bool * gmap string CallerState :=
  match calls with
  | [] => ([], st)
  | (k, now) :: rest =>
      let '(ok, st') := allow k now st in
      let '(oks, st'') := run rest st' in
      (ok :: oks, st'')
  end.

(** The times at which caller [k] was allowed. *)
Fixpoint allowedTimes (k : string) (calls : list (string * Z)) (verdicts : list bool) : list Z :=
  match calls, verdicts with
  | (k', now) :: calls, ok :: verdicts =>
      (if bool_decide (k' = k) && ok then [now] else []) ++ allowedTimes k calls verdicts
  | _, _ => []
  end.

(** ** The sliding window *)

(** Non-decreasing times. *)
Definition ascending (l : list Z) : Prop :=
  ∀ i j a b, (i ≤ j)%nat → l !! i = Some a → l !! j = Some b → a ≤ b.

(** Any six consecutive times span more than the window. *)
Definition spaced (l : list Z) : Prop :=
  ∀ i a b, l !! i = Some a → l !! (i + Z.to_nat kMaxPerWindow)%nat = Some b → kWindow < b - a.

(** What the limiter knows of a caller with grants [hist], no later than [T]: the
    attempts it no longer remembers have left the window. *)
Definition remembers (s : CallerState) (hist : list Z) (T : Z) : Prop :=
  ∃ old, hist = old ++ recent s ∧ Forall (λ x, kWindow < T - x) old ∧
         ascending hist ∧ Forall (λ x, x ≤ T) hist ∧ spaced hist.

Lemma ageOut_split (now : Z) (l : list Z) :
  ∃ d, l = d ++ ageOut now l ∧ Forall (λ x, kWindow < now - x) d.
Proof.
  induction l as [|t l (d & Hd & Hall)]; simpl; [by exists []|].
  destruct (kWindow <? now - t) eqn:E; [|by exists []]. bool_hyps.
  exists (t :: d). split; [by rewrite Hd at 1|by constructor].
Qed.

Lemma ageOut_all (now : Z) (l : list Z) : Forall (λ x, kWindow < now - x) l → ageOut now l = [].
Proof.
  induction 1 as [|x l Hx _ IH]; simpl; [done|]. by rewrite (proj2 (Z.ltb_lt _ _)).
Qed.

Lemma ascending_last (l : list Z) (t : Z) :
  ascending l → last l = Some t → Forall (λ x, x ≤ t) l.
Proof.
  intros Hasc Hlast. rewrite last_lookup in Hlast. apply Forall_lookup. intros i x Hi.
  eapply (Hasc i (pred (length l))); [|done..]. apply lookup_lt_Some in Hi. lia.
Qed.

Lemma ascending_app_r (l1 l2 : list Z) : ascending (l1 ++ l2) → ascending l2.
Proof.
  intros H i j a b Hij Ha Hb. apply (H (length l1 + i)%nat (length l1 + j)%nat); [lia|..].
  - rewrite lookup_app_r by lia. by replace (length l1 + i - length l1)%nat with i by lia.
  - rewrite lookup_app_r by lia. by replace (length l1 + j - length l1)%nat with j by lia.
Qed.

Lemma ascending_snoc (l : list Z) (t : Z) :
  ascending l → Forall (λ x, x ≤ t) l → ascending (l ++ [t]).
Proof.
  intros H Hall i j a b Hij Ha Hb.
  apply lookup_app_Some in Ha as [Ha|[Hi Ha]], Hb as [Hb|[Hj Hb]].
  - by eapply (H i j).
  - apply list_lookup_singleton_Some in Hb as [_ ->]. exact (Forall_lookup_1 _ _ _ _ Hall Ha).
  - apply lookup_lt_Some in Hb. lia.
  - apply list_lookup_singleton_Some in Ha as [_ ->]. apply list_lookup_singleton_Some in Hb as [_ ->]. lia.
Qed.

Lemma windowEmpty_spec (now : Z) (s : CallerState) :
  ascending (recent s) → windowEmpty now s = true → Forall (λ x, kWindow < now - x) (recent s).
Proof.
  unfold windowEmpty. intros Hasc. destruct (last (recent s)) as [t|] eqn:E; intros H.
  - bool_hyps. eapply Forall_impl; [by apply ascending_last|]. simpl. intros; lia.
  - apply last_None in E. by rewrite E.
Qed.

Lemma remembers_later (s : CallerState) (hist : list Z) (T T' : Z) :
  T ≤ T' → remembers s hist T → remembers s hist T'.
Proof.
  intros HT (old & -> & Hold & Hasc & Hle & Hsp). exists old. split_and!; try done.
  - eapply Forall_impl; [exact Hold|]. simpl; intros; lia.
  - eapply Forall_impl; [exact Hle|]. simpl; intros; lia.
Qed.

(** Forgetting an idle caller loses nothing. *)
Lemma remembers_forgotten (s : CallerState) (hist : list Z) (T : Z) :
  remembers s hist T → windowEmpty T s = true → remembers freshCaller hist T.
Proof.
  intros (old & -> & Hold & Hasc & Hle & Hsp) Hw.
  apply windowEmpty_spec in Hw; [|by eapply ascending_app_r].
  exists (old ++ recent s). split_and!; try done; [by rewrite app_nil_r|]. by apply Forall_app.
Qed.

Lemma lookup_sweep (k key : string) (now : Z) (st : gmap string CallerState) :
  sweep key now st !! k = st !! k ∨
  k ≠ key ∧ sweep key now st !! k = None ∧
    ∃ s, st !! k = Some s ∧ windowEmpty now s = true ∧ backoffElapsed now s = true.
Proof.
  unfold sweep. destruct (kSweepThreshold <? _); [|by left].
  destruct (st !! k) as [s|] eqn:E.
  - destruct (decide (k ≠ key ∧ windowEmpty now s = true ∧ backoffElapsed now s = true)) as [Hd|Hn].
    + right. split_and!; [apply Hd| |by exists s; destruct Hd as (_ & ? & ?)].
      apply map_lookup_filter_None. right. intros s' Hs'. rewrite E in Hs'. simplify_eq. auto.
    + left. apply map_lookup_filter_Some. auto.
  - left. apply map_lookup_filter_None. by left.
Qed.

Lemma lookup_sweep_self (key : string) (now : Z) (st : gmap string CallerState) :
  sweep key now st !! key = st !! key.
Proof. destruct (lookup_sweep key key now st) as [?|[? _]]; done. Qed.

(** The grant that [allow] records keeps the history spaced. *)
Lemma remembers_grant (s : CallerState) (hist : list Z) (T now : Z) (level until : Z) :
  remembers s hist T → T ≤ now → zlen (ageOut now (recent s)) < kMaxPerWindow →
  remembers (mkCaller (ageOut now (recent s) ++ [now]) level until) (hist ++ [now]) now.
Proof.
  intros Hr HT Hlen. apply (remembers_later _ _ _ now HT) in Hr as (old & -> & Hold & Hasc & Hle & Hsp).
  destruct (ageOut_split now (recent s)) as (d & Hd & Hdold).
  exists (old ++ d). split_and!.
  - simpl. rewrite Hd at 1. by rewrite !(assoc_L (++)).
  - by apply Forall_app.
  - by apply ascending_snoc.
  - apply Forall_app; split; [done|]. constructor; [lia|constructor].
  - intros i a b Ha Hb. apply lookup_app_Some in Hb as [Hb|[Hge Hb]].
    + apply (Hsp i); [|done]. rewrite lookup_app_l in Ha; [done|]. apply lookup_lt_Some in Hb. lia.
    + apply list_lookup_singleton_Some in Hb as [Heq ->].
      rewrite Hd, (assoc_L (++)) in Ha, Heq, Hge. rewrite length_app in Heq, Hge.
      unfold kMaxPerWindow in *. rewrite lookup_app_l in Ha by (rewrite length_app; lia).
      rewrite lookup_app_l in Ha by lia.
      by eapply (Forall_lookup_1 _ _ i a (proj2 (Forall_app _ _ _) (conj Hold Hdold))).
Qed.

Lemma remembers_refusal (s : CallerState) (hist : list Z) (T now : Z) (level until : Z) :
  remembers s hist T → T ≤ now → remembers (mkCaller (ageOut now (recent s)) level until) hist now.
Proof.
  intros Hr HT. apply (remembers_later _ _ _ now HT) in Hr as (old & -> & Hold & Hasc & Hle & Hsp).
  destruct (ageOut_split now (recent s)) as (d & Hd & Hdold).
  exists (old ++ d). split_and!; try done.
  - simpl. rewrite Hd at 1. by rewrite (assoc_L (++)).
  - by apply Forall_app.
Qed.

Definition entry (st : gmap string CallerState) (k : string) : CallerState :=
  default freshCaller (st !! k).

Lemma allow_self (k : string) (now T : Z) (st : gmap string CallerState) (hist : list Z) :
  remembers (entry st k) hist T → T ≤ now →
  let '(ok, st') := allow k now st in
  remembers (entry st' k) (if ok then hist ++ [now] else hist) now.
Proof.
  intros Hr HT. unfold allow, entry in *. rewrite lookup_sweep_self.
  set (s := default freshCaller (st !! k)) in *.
  destruct (now <? backoffUntil s) eqn:?; [|destruct (kMaxPerWindow <=? _) eqn:?];
    rewrite lookup_insert_eq; simpl; bool_hyps.
  - by eapply remembers_later.
  - by eapply remembers_refusal.
  - by eapply remembers_grant.
Qed.

Lemma allow_other (k key : string) (now T : Z) (st : gmap string CallerState) (hist : list Z) :
  k ≠ key → remembers (entry st k) hist T → T ≤ now →
  remembers (entry (snd (allow key now st)) k) hist now.
Proof.
  intros Hne Hr HT. apply (remembers_later _ _ _ now HT) in Hr.
  assert (entry (snd (allow key now st)) k = default freshCaller (sweep key now st !! k)) as ->.
  { unfold entry, allow. repeat case_match; simpl; by rewrite lookup_insert_ne. }
  unfold entry in *. destruct (lookup_sweep k key now st) as [->|(_ & -> & s & Hs & Hw & _)]; [done|].
  rewrite Hs in Hr. by eapply remembers_forgotten.
Qed.

Lemma run_remembers (k : string) (calls : list (string * Z)) (st : gmap string CallerState)
    (hist : list Z) (T : Z) :
  remembers (entry st k) hist T → Forall (λ c, T ≤ c.2) calls → ascending calls.*2 →
  ∃ T' st', snd (run calls st) = st' ∧
    remembers (entry st' k) (hist ++ allowedTimes k calls (fst (run calls st))) T'.
Proof.
  revert st hist T. induction calls as [|[key now] calls IH]; intros st hist T Hr HT Hasc.
  { exists T, st. split; [done|]. simpl. by rewrite app_nil_r. }
  apply Forall_cons_1 in HT as [Hnow HT]. simpl in Hnow. cbn [run].
  destruct (allow key now st) as [ok st'] eqn:Hal.
  destruct (run calls st') as [oks st''] eqn:Hrun.
  assert (remembers (entry st' k) (hist ++ (if bool_decide (key = k) && ok then [now] else [])) now) as Hr'.
  { destruct (bool_decide_reflect (key = k)) as [->|Hne]; simpl.
    - pose proof (allow_self k now T st hist Hr Hnow) as H. rewrite Hal in H.
      destruct ok; [done|by rewrite app_nil_r].
    - rewrite app_nil_r. pose proof (allow_other k key now T st hist ltac:(congruence) Hr Hnow) as H.
      by rewrite Hal in H. }
  destruct (IH _ _ now Hr') as (T' & st3 & Hst & Hfin).
  - apply Forall_forall. intros c Hc. apply list_elem_of_lookup in Hc as [i Hi].
    eapply (Hasc 0%nat (S i)); [lia|done|]. simpl. by rewrite list_lookup_fmap, Hi.
  - intros i j a b Hij Ha Hb. by apply (Hasc (S i) (S j)); [lia|..].
  - exists T', st3. rewrite Hrun in Hst, Hfin. simpl in *. split; [done|].
    by rewrite (assoc_L (++)).
Qed.

(** ** Isolation of callers *)

Lemma ascending_nil : ascending [].
Proof. by intros i j a b _ ?. Qed.

(** A caller with nothing worth remembering at time [T]. *)
Definition idle (T : Z) (s : CallerState) : Prop :=
  Forall (λ x, kWindow < T - x) (recent s) ∧ backoffUntil s ≤ T.

(** Two records of one caller that no later call can tell apart. *)
Definition agree (T : Z) (s1 s2 : CallerState) : Prop :=
  0 ≤ T ∧ ascending (recent s1) ∧ Forall (λ x, x ≤ T) (recent s1) ∧
  (s1 = s2 ∨ idle T s1 ∧ idle T s2).

(** The verdict and the new record, as a function of the caller's record alone. *)
Definition judge (now : Z) (s : CallerState) : bool * CallerState :=
  if now <? backoffUntil s then (false, s)
  else
    let kept := ageOut now (recent s) in
    if kMaxPerWindow <=? zlen kept then
      let level := Z.min (backoffLevel s + 1) 5 in
      (false, mkCaller kept level (now + backoffFor level))
    else (true, mkCaller (kept ++ [now]) 0 0).

Lemma allow_judge (k : string) (now : Z) (st : gmap string CallerState) :
  fst (allow k now st) = fst (judge now (entry st k)) ∧
  entry (snd (allow k now st)) k = snd (judge now (entry st k)).
Proof.
  unfold allow, judge, entry. rewrite lookup_sweep_self.
  repeat case_match; simpl; by rewrite lookup_insert_eq.
Qed.

Lemma judge_idle (now : Z) (s : CallerState) :
  idle now s → judge now s = (true, mkCaller [now] 0 0).
Proof.
  intros [Hr Hb]. unfold judge. rewrite (proj2 (Z.ltb_ge _ _)), ageOut_all by done. done.
Qed.

Lemma idle_later (T T' : Z) (s : CallerState) : T ≤ T' → idle T s → idle T' s.
Proof.
  intros HT [H1 H2]. split; [|lia]. eapply Forall_impl; [exact H1|]. simpl; intros; lia.
Qed.

Lemma agree_later (T T' : Z) (s1 s2 : CallerState) : T ≤ T' → agree T s1 s2 → agree T' s1 s2.
Proof.
  intros HT (H0 & H1 & H2 & H3). split_and!; [lia|done| |].
  - eapply Forall_impl; [exact H2|]. simpl; intros; lia.
  - destruct H3 as [?|[? ?]]; [by left|right; split; by eapply idle_later].
Qed.

Lemma ascending_ageOut (now : Z) (l : list Z) : ascending l → ascending (ageOut now l).
Proof.
  intros H. destruct (ageOut_split now l) as (d & Hd & _). rewrite Hd in H.
  by eapply ascending_app_r.
Qed.

Lemma Forall_ageOut (P : Z → Prop) (now : Z) (l : list Z) : Forall P l → Forall P (ageOut now l).
Proof.
  intros H. destruct (ageOut_split now l) as (d & Hd & _). rewrite Hd in H. by apply Forall_app in H as [_ ?].
Qed.

Lemma agree_judge (T now : Z) (s1 s2 : CallerState) :
  agree T s1 s2 → T ≤ now →
  fst (judge now s1) = fst (judge now s2) ∧ agree now (snd (judge now s1)) (snd (judge now s2)).
Proof.
  intros Ha HT. apply (agree_later _ now) in Ha as (HT0 & Hasc & Hle & Hor); [|done].
  destruct Hor as [<-|[Hi1 Hi2]]; last first.
  { rewrite !judge_idle by done. simpl. split; [done|]. split_and!; [done| |by constructor|by left].
    apply (ascending_snoc []); [apply ascending_nil|constructor]. }
  split; [done|]. unfold judge. repeat case_match; simpl; split_and!; auto.
  - by apply ascending_ageOut.
  - by apply Forall_ageOut.
  - apply ascending_snoc; [by apply ascending_ageOut|by apply Forall_ageOut].
  - apply Forall_app; split; [by apply Forall_ageOut|by constructor].
Qed.

Lemma agree_other (k key : string) (T now : Z) (st : gmap string CallerState) (s2 : CallerState) :
  k ≠ key → agree T (entry st k) s2 → T ≤ now → agree now (entry (snd (allow key now st)) k) s2.
Proof.
  intros Hne Ha HT. apply (agree_later _ now) in Ha; [|done].
  assert (entry (snd (allow key now st)) k = default freshCaller (sweep key now st !! k)) as ->.
  { unfold entry, allow. repeat case_match; simpl; by rewrite lookup_insert_ne. }
  unfold entry in *. destruct (lookup_sweep k key now st) as [->|(_ & -> & s & Hs & Hw & Hb)]; [done|].
  rewrite Hs in Ha. destruct Ha as (HT0 & Hasc & Hle & Hor). simpl in *.
  assert (idle now s) as Hi.
  { split; [by apply windowEmpty_spec|]. unfold backoffElapsed in Hb. by bool_hyps. }
  split_and!; [done|apply ascending_nil|constructor|]. right. split; [by split; [constructor|]|].
  destruct Hor as [<-|[_ ?]]; done.
Qed.

(** The verdicts of the calls caller [k] made. *)
Fixpoint verdictsOf (k : string) (calls : list (string * Z)) (verdicts : list bool) : list bool :=
  match calls, verdicts with
  | (k', _) :: calls, ok :: verdicts =>
      (if bool_decide (k' = k) then [ok] else []) ++ verdictsOf k calls verdicts
  | _, _ => []
  end.

Definition callsOf (k : string) (calls : list (string * Z)) : list (string * Z) :=
  filter (λ c, c.1 = k) calls.

Lemma ascending_tail (t : Z) (l : list Z) :
  ascending (t :: l) → ascending l ∧ Forall (λ x, t ≤ x) l.
Proof.
  intros H. split.
  - intros i j a b Hij Ha Hb. by apply (H (S i) (S j)); [lia|..].
  - apply Forall_lookup. intros i x Hi. by apply (H 0%nat (S i)); [lia|..].
Qed.

Lemma ascending_cons (t : Z) (l : list Z) : Forall (λ x, t ≤ x) l → ascending l → ascending (t :: l).
Proof.
  intros Hall H [|i] [|j] a b Hij Ha Hb; simplify_eq/=; try lia.
  - by eapply (Forall_lookup_1 _ _ _ _ Hall).
  - by apply (H i j); [lia|..].
Qed.

Lemma ascending_calls (c : string * Z) (calls : list (string * Z)) :
  ascending (c :: calls).*2 → ascending calls.*2 ∧ Forall (λ c', c.2 ≤ c'.2) calls.
Proof.
  rewrite fmap_cons. intros [H1 H2]%ascending_tail. split; [done|]. by rewrite Forall_fmap in H2.
Qed.

Lemma run_isolated (k : string) (calls : list (string * Z)) (T : Z)
    (st1 st2 : gmap string CallerState) :
  agree T (entry st1 k) (entry st2 k) → Forall (λ c, T ≤ c.2) calls → ascending calls.*2 →
  verdictsOf k calls (fst (run calls st1)) = fst (run (callsOf k calls) st2).
Proof.
  revert T st1 st2. induction calls as [|[key now] calls IH]; intros T st1 st2 Ha HT Hasc; [done|].
  apply Forall_cons_1 in HT as [Hnow HT]. simpl in Hnow.
  apply ascending_calls in Hasc as [Hasc Hlater].
  unfold callsOf in *. rewrite filter_cons. cbn [run].
  destruct (allow key now st1) as [ok st1'] eqn:Hal.
  destruct (run calls st1') as [oks st1''] eqn:Hrun. cbn [fst snd verdictsOf].
  destruct (decide (key = k)) as [->|Hne].
  - destruct (decide ((k, now).1 = k)) as [_|?]; [|done]. rewrite bool_decide_eq_true_2 by done.
    cbn [run]. destruct (allow k now st2) as [ok2 st2'] eqn:Hal2.
    destruct (run (filter _ calls) st2') as [oks2 st2''] eqn:Hrun2.
    destruct (agree_judge T now _ _ Ha Hnow) as [Hok Ha'].
    pose proof (allow_judge k now st1) as [H1 H1']. pose proof (allow_judge k now st2) as [H2 H2'].
    rewrite Hal in H1, H1'. rewrite Hal2 in H2, H2'. simpl in *.
    rewrite <-H1', <-H2' in Ha'. specialize (IH now st1' st2' Ha' Hlater Hasc).
    rewrite Hrun, Hrun2 in IH. simpl in IH. congruence.
  - destruct (decide ((key, now).1 = k)) as [?|_]; [done|]. rewrite bool_decide_eq_false_2 by done.
    apply (agree_other k key T now) in Ha; [|congruence|done]. rewrite Hal in Ha. simpl in *.
    specialize (IH now st1' st2 Ha Hlater Hasc). by rewrite Hrun in IH.
Qed.

(** ** Backoff *)

Definition record_ok (T : Z) (s : CallerState) : Prop :=
  Forall (λ x, x ≤ T) (recent s) ∧ 0 ≤ backoffLevel s ≤ 5 ∧ backoffUntil s ≤ Z.max 0 (T + seconds 32).

Lemma backoffFor_level (level : Z) : 1 ≤ level ≤ 5 → backoffFor level = seconds (2 ^ level).
Proof.
  intros H. assert (level = 1 ∨ level = 2 ∨ level = 3 ∨ level = 4 ∨ level = 5) as Hl by lia.
  by repeat destruct Hl as [->|Hl]; [..|subst].
Qed.

Lemma seconds_mono a b : a ≤ b → seconds a ≤ seconds b.
Proof. unfold seconds. lia. Qed.

Lemma backoffFor_bound (level : Z) : 1 ≤ level ≤ 5 → 0 < backoffFor level ≤ seconds 32.
Proof.
  intros H. rewrite backoffFor_level by done. split.
  - unfold seconds. assert (0 < 2 ^ level) by lia. lia.
  - apply seconds_mono. change 32 with (2 ^ 5). apply Z.pow_le_mono_r; lia.
Qed.

Lemma record_ok_judge (T now : Z) (s : CallerState) :
  record_ok T s → T ≤ now → record_ok now (snd (judge now s)).
Proof.
  intros (Hr & Hl & Hu) HT. assert (Forall (λ x, x ≤ now) (recent s)) as Hr'.
  { eapply Forall_impl; [exact Hr|]. simpl; intros; lia. }
  unfold judge. repeat case_match; simpl; split_and!; simpl; try lia; auto.
  - by apply Forall_ageOut.
  - pose proof (backoffFor_bound (Z.min (backoffLevel s + 1) 5)). lia.
  - apply Forall_app; split; [by apply Forall_ageOut|by constructor].
Qed.

Lemma record_ok_fresh (T : Z) : record_ok T freshCaller.
Proof. split_and!; simpl; try lia. constructor. Qed.

Lemma run_record_ok (k : string) (calls : list (string * Z)) (T : Z) (st : gmap string CallerState) :
  record_ok T (entry st k) → Forall (λ c, c.1 = k → T ≤ c.2) calls → ascending calls.*2 →
  ∃ T', record_ok T' (entry (snd (run calls st)) k) ∧
        (T' = T ∨ ∃ c, c ∈ calls ∧ c.1 = k ∧ T' = c.2).
Proof.
  revert T st. induction calls as [|[key now] calls IH]; intros T st Hok HT Hasc; [eauto|].
  apply Forall_cons_1 in HT as [Hnow HT]. simpl in Hnow.
  apply ascending_calls in Hasc as [Hasc Hlater]. cbn [run].
  destruct (allow key now st) as [ok st'] eqn:Hal.
  destruct (run calls st') as [oks st''] eqn:Hrun.
  destruct (decide (key = k)) as [->|Hne].
  - pose proof (allow_judge k now st) as [_ H]. rewrite Hal in H. simpl in H.
    destruct (IH now st') as (T' & Hok' & Hor); [|by eapply Forall_impl|done|].
    { rewrite H. by apply (record_ok_judge T); [|apply Hnow]. }
    rewrite Hrun in Hok'. exists T'. split; [done|]. right.
    destruct Hor as [->|(c & Hc & ? & ->)]; [exists (k, now)|exists c]; set_solver.
  - destruct (IH T st') as (T' & Hok' & Hor); [|done|done|].
    { pose proof (lookup_sweep k key now st) as Hs.
      assert (entry st' k = default freshCaller (sweep key now st !! k)) as ->.
      { replace st' with (snd (allow key now st)) by (by rewrite Hal).
        unfold entry, allow. repeat case_match; simpl; by rewrite lookup_insert_ne by congruence. }
      destruct Hs as [->|(_ & -> & _)]; [done|apply record_ok_fresh]. }
    rewrite Hrun in Hok'. exists T'. split; [done|].
    destruct Hor as [->|(c & Hc & ? & ->)]; [by left|right; exists c; set_solver].
Qed.

(** ** Properties *)

(** Whatever the callers do, with a clock that never runs backwards, any six
    consecutive grants of one caller span more than the window: at most
    [kMaxPerWindow] attempts per window, sweeps of the table included. *)
Theorem window_cap (k : string) (calls : list (string * Z)) :
  ascending calls.*2 →
  let hist := allowedTimes k calls (fst (run calls ∅)) in
  ∀ i a b, hist !! i = Some a → hist !! (i + Z.to_nat kMaxPerWindow)%nat = Some b → kWindow < b - a.
Proof.
  intros Hasc. destruct calls as [|[key now] calls]; [done|].
  destruct (run_remembers k ((key, now) :: calls) ∅ [] now) as (T' & st' & _ & old & _ & _ & _ & _ & Hsp).
  - exists []. by split_and!.
  - constructor; [done|]. by apply ascending_calls in Hasc as [_ H].
  - done.
  - exact Hsp.
Qed.

(** A caller is answered exactly as if it were the only one: the calls of the
    others, and the sweeps they trigger, never change its verdicts. *)
Theorem callers_isolated (k : string) (calls : list (string * Z)) :
  Forall (λ c, 0 ≤ c.2) calls → ascending calls.*2 →
  verdictsOf k calls (fst (run calls ∅)) = fst (run (callsOf k calls) ∅).
Proof.
  intros Hpos Hasc. apply (run_isolated k calls 0); [|done|done].
  split_and!; [done|apply ascending_nil|constructor|by left].
Qed.

(** No lockout: a caller that made no call for more than the window is always
    allowed, however much it was throttled before, because no backoff outlasts
    32 seconds. *)
Theorem no_lockout (k : string) (calls : list (string * Z)) (quiet now : Z) :
  ascending calls.*2 → Forall (λ c, 0 ≤ c.2) calls →
  Forall (λ c, c.1 = k → c.2 ≤ quiet) calls → 0 ≤ quiet → kWindow < now - quiet →
  fst (allow k now (snd (run calls ∅))) = true.
Proof.
  intros Hasc Hpos Hquiet Hq Hnow.
  destruct (run_record_ok k calls 0 ∅) as (T' & (Hr & _ & Hu) & Hor).
  - apply record_ok_fresh.
  - eapply Forall_impl; [exact Hpos|]. simpl; auto.
  - done.
  - assert (T' ≤ quiet) as HT'.
    { destruct Hor as [->|(c & Hc & Hk & ->)]; [done|].
      exact (proj1 (Forall_forall _ _) Hquiet c Hc Hk). }
    rewrite (proj1 (allow_judge k now _)), judge_idle; [done|]. split.
    + eapply Forall_impl; [exact Hr|]. simpl; intros; lia.
    + unfold kWindow, seconds in *. lia.
Qed.

(** Over the cap the caller is refused and the [n]-th refusal in a row, up to the
    fifth, starts a backoff of [2^n] seconds; the longest backoff is 32 seconds, so
    the documented cap [kMaxBackoff] is never reached. *)
Theorem backoff_schedule (k : string) (now : Z) (st : gmap string CallerState) :
  0 ≤ backoffLevel (entry st k) ≤ 5 → backoffUntil (entry st k) ≤ now →
  kMaxPerWindow ≤ zlen (ageOut now (recent (entry st k))) →
  let level := Z.min (backoffLevel (entry st k) + 1) 5 in
  let st' := snd (allow k now st) in
  fst (allow k now st) = false ∧ backoffLevel (entry st' k) = level ∧
  backoffUntil (entry st' k) = now + seconds (2 ^ level) ∧
  backoffUntil (entry st' k) ≤ now + seconds 32 < now + kMaxBackoff.
Proof.
  intros Hl Hu Hn level st'. pose proof (allow_judge k now st) as [H1 H2].
  fold st' in H2.
  unfold judge in *. rewrite (proj2 (Z.ltb_ge _ _)) in H1, H2 by lia.
  rewrite (proj2 (Z.leb_le _ _)) in H1, H2 by lia. rewrite H1, H2. cbn [snd fst backoffLevel backoffUntil].
  fold level. assert (1 ≤ level ≤ 5) by lia. rewrite backoffFor_level by done.
  split_and!; try done.
  - pose proof (backoffFor_bound level). rewrite backoffFor_level in * by done. lia.
  - unfold kMaxBackoff, seconds. lia.
Qed.

(** ** Witnesses *)

Ltac ascend :=
  repeat (apply ascending_cons; [repeat (constructor; [unfold seconds; lia|]); constructor|]);
  apply ascending_nil.

(** Six calls of one caller within five seconds, one of another, one much later. *)
Definition sampleCalls : list (string * Z) :=
  [("a", seconds 0); ("b", seconds 0); ("a", seconds 1); ("a", seconds 2); ("a", seconds 3);
   ("a", seconds 4); ("a", seconds 5); ("a", seconds 70)]%string.

Lemma sampleCalls_ascending : ascending sampleCalls.*2.
Proof. unfold sampleCalls. cbn [fmap list_fmap snd]. ascend. Qed.

Lemma window_cap_witness :
  let hist := allowedTimes "a" sampleCalls (fst (run sampleCalls ∅)) in
  hist = [seconds 0; seconds 1; seconds 2; seconds 3; seconds 4; seconds 70] ∧
  kWindow < seconds 70 - seconds 0.
Proof.
  cbv zeta. split; [vm_compute; reflexivity|].
  apply (window_cap "a" sampleCalls sampleCalls_ascending 0%nat); vm_compute; reflexivity.
Defined.

Lemma callers_isolated_witness :
  verdictsOf "a" sampleCalls (fst (run sampleCalls ∅)) = [true; true; true; true; true; false; true] ∧
  verdictsOf "a" sampleCalls (fst (run sampleCalls ∅)) = fst (run (callsOf "a" sampleCalls) ∅).
Proof.
  split; [vm_compute; reflexivity|]. apply callers_isolated.
  - repeat (constructor; [unfold seconds; simpl; lia|]). constructor.
  - apply sampleCalls_ascending.
Defined.

Lemma no_lockout_witness : fst (allow "a" (seconds 131) (snd (run sampleCalls ∅))) = true.
Proof.
  apply (no_lockout "a" sampleCalls (seconds 70)).
  - apply sampleCalls_ascending.
  - repeat (constructor; [unfold seconds; simpl; lia|]). constructor.
  - repeat (constructor; [unfold seconds; simpl; lia|]). constructor.
  - unfold seconds; lia.
  - unfold kWindow, seconds; lia.
Defined.

Lemma backoff_schedule_witness :
  let st := snd (run (take 6 sampleCalls) ∅) in
  let st' := snd (allow "a" (seconds 5) st) in
  backoffUntil (entry st' "a") = seconds 7 ∧
  backoffUntil (entry st' "a") ≤ seconds 5 + seconds 32 < seconds 5 + kMaxBackoff.
Proof.
  cbv zeta. split; [vm_compute; reflexivity|].
  refine (proj2 (proj2 (proj2 (backoff_schedule "a" (seconds 5) (snd (run (take 6 sampleCalls) ∅)) _ _ _))));
    vm_compute; repeat split; discriminate.
Defined.

End RateLimiter.
