(* ===== verification/Leases.v ===== *)
(** * PKCS#11 leases

    Models [src/pkcs11/LeaseManager.cpp]: who may use a card without a new login,
    for how long, and whether the PIN was verified under the current login. Times
    are [steady_clock] nanoseconds and the clock's reading is an argument, as in the
    code. A key's caller is the opaque [CallerToken] string, its card the
    [ObjectId] number. *)
From S2P Require Import Prelude.
Local Open Scope Z_scope.

Module Leases.

Record LeaseKey := mkLeaseKey { caller : string; card : Z }.

#[export] Instance LeaseKey_eq_dec : EqDecision LeaseKey.
Proof. solve_decision. Defined.

#[export] Instance LeaseKey_countable : Countable LeaseKey :=
  inj_countable' (λ k, (caller k, card k)) (λ p, mkLeaseKey p.1 p.2) (λ '(mkLeaseKey _ _), eq_refl).

(** Durations in seconds, as configured; [maxLifetime = 0] means no cap. *)
Record LeaseConfig := mkLeaseConfig { idleTimeout : Z; maxLifetime : Z }.

Definition defaultLeaseConfig : LeaseConfig := mkLeaseConfig (10 * 60) (8 * 60 * 60).

Definition nanos (seconds : Z) : Z := seconds * 1000000000.

Record Entry := mkEntry { lastUse : Z; origin : Z; pinVerified : bool }.

Record LeaseManager := mkLeaseManager {
  m_config : LeaseConfig;
  m_leases : gmap LeaseKey Entry }.

Definition setLeases (m : LeaseManager) (l : gmap LeaseKey Entry) : LeaseManager :=
  mkLeaseManager (m_config m) l.

Definition isActiveLocked (c : LeaseConfig) (e : Entry) (now : Z) : bool :=
  if nanos (idleTimeout c) <=? now - lastUse e then false
  else if (0 <? maxLifetime c) && (nanos (maxLifetime c) <=? now - origin e) then false
  else true.

Definition grant (key : LeaseKey) (now : Z) (m : LeaseManager) : LeaseManager :=
  match m_leases m !! key with
  | None => setLeases m (<[key := mkEntry now now false]> (m_leases m))
  | Some e => setLeases m (<[key := mkEntry now (origin e) false]> (m_leases m))
  end.

Definition isActive (key : LeaseKey) (now : Z) (m : LeaseManager) : bool * LeaseManager :=
  match m_leases m !! key with
  | None => (false, m)
  | Some e =>
      if negb (isActiveLocked (m_config m) e now) then
        (false, setLeases m (delete key (m_leases m)))
      else (true, m)
  end.

Definition touch (key : LeaseKey) (now : Z) (m : LeaseManager) : bool * LeaseManager :=
  match m_leases m !! key with
  | None => (false, m)
  | Some e =>
      if negb (isActiveLocked (m_config m) e now) then
        (false, setLeases m (delete key (m_leases m)))
      else (true, setLeases m (<[key := mkEntry now (origin e) (pinVerified e)]> (m_leases m)))
  end.

Definition isPinVerified (key : LeaseKey) (m : LeaseManager) : bool :=
  match m_leases m !! key with
  | None => false
  | Some e => pinVerified e
  end.

Definition setPinVerified (b : bool) (key : LeaseKey) (m : LeaseManager) : LeaseManager :=
  match m_leases m !! key with
  | None => m
  | Some e => setLeases m (<[key := mkEntry (lastUse e) (origin e) b]> (m_leases m))
  end.

Definition markPinVerified : LeaseKey → LeaseManager → LeaseManager := setPinVerified true.
Definition clearPinVerified : LeaseKey → LeaseManager → LeaseManager := setPinVerified false.

Definition revoke (key : LeaseKey) (m : LeaseManager) : LeaseManager :=
  setLeases m (delete key (m_leases m)).

Definition revokeCard (c : Z) (m : LeaseManager) : LeaseManager :=
  setLeases m (filter (λ '(k, _), card k ≠ c) (m_leases m)).

Definition revokeCaller (c : string) (m : LeaseManager) : LeaseManager :=
  setLeases m (filter (λ '(k, _), caller k ≠ c) (m_leases m)).

(** ** Histories *)

Inductive LeaseOp :=
| OpGrant (key : LeaseKey) (now : Z)
| OpIsActive (key : LeaseKey) (now : Z)
| OpTouch (key : LeaseKey) (now : Z)
| OpMark (key : LeaseKey)
| OpClear (key : LeaseKey)
| OpRevoke (key : LeaseKey)
| OpRevokeCard (c : Z)
| OpRevokeCaller (c : string).

Definition exec (m : LeaseManager) (op : LeaseOp) : LeaseManager :=
  match op with
  | OpGrant key now => grant key now m
  | OpIsActive key now => snd (isActive key now m)
  | OpTouch key now => snd (touch key now m)
  | OpMark key => markPinVerified key m
  | OpClear key => clearPinVerified key m
  | OpRevoke key => revoke key m
  | OpRevokeCard c => revokeCard c m
  | OpRevokeCaller c => revokeCaller c m
  end.

Definition execs (m : LeaseManager) (ops : list LeaseOp) : LeaseManager := foldl exec m ops.

(** The operations that end [key]'s lease. *)
Definition revokes (key : LeaseKey) (op : LeaseOp) : bool :=
  match op with
  | OpRevoke k => bool_decide (k = key)
  | OpRevokeCard c => bool_decide (card key = c)
  | OpRevokeCaller c => bool_decide (caller key = c)
  | _ => false
  end.

(** The operations after which [key]'s PIN must be verified again. *)
Definition unverifies (key : LeaseKey) (op : LeaseOp) : bool :=
  match op with
  | OpGrant k _ | OpClear k => bool_decide (k = key)
  | _ => revokes key op
  end.

(** ** One lease at a time *)

(** The effect of an operation on the entry of one key: no operation on another
    key, card or caller shows here. *)
Definition stepEntry (c : LeaseConfig) (key : LeaseKey) (op : LeaseOp) (o : option Entry) :
    option Entry :=
  match op with
  | OpGrant k now =>
      if bool_decide (k = key) then
        Some (mkEntry now (match o with Some e => origin e | None => now end) false)
      else o
  | OpIsActive k now =>
      if bool_decide (k = key) then e ← o; if isActiveLocked c e now then Some e else None else o
  | OpTouch k now =>
      if bool_decide (k = key) then
        e ← o; if isActiveLocked c e now then Some (mkEntry now (origin e) (pinVerified e)) else None
      else o
  | OpMark k =>
      if bool_decide (k = key) then e ← o; Some (mkEntry (lastUse e) (origin e) true) else o
  | OpClear k =>
      if bool_decide (k = key) then e ← o; Some (mkEntry (lastUse e) (origin e) false) else o
  | _ => if revokes key op then None else o
  end.

Lemma config_exec m op : m_config (exec m op) = m_config m.
Proof.
  destruct op; simpl; unfold grant, isActive, touch, markPinVerified, clearPinVerified, setPinVerified;
    repeat case_match; done.
Qed.

Lemma lookup_filter_keys (P : LeaseKey → Prop) `{!∀ k, Decision (P k)} (m : gmap LeaseKey Entry) key :
  filter (λ '(k, _), P k) m !! key = if decide (P key) then m !! key else None.
Proof.
  destruct (decide (P key)) as [HP|HP].
  - destruct (m !! key) eqn:E; [by apply map_lookup_filter_Some|].
    apply map_lookup_filter_None. by left.
  - apply map_lookup_filter_None. right. intros e _. done.
Qed.

Lemma lookup_exec (m : LeaseManager) (op : LeaseOp) (key : LeaseKey) :
  m_leases (exec m op) !! key = stepEntry (m_config m) key op (m_leases m !! key).
Proof.
  destruct op as [k now|k now|k now|k|k|k|c|c];
    unfold exec, grant, isActive, touch, markPinVerified, clearPinVerified, setPinVerified,
      stepEntry, revokes, revoke, revokeCard, revokeCaller;
    try (destruct (bool_decide_reflect (k = key)) as [->|Hne];
         [destruct (m_leases m !! key) as [e|] eqn:E; simpl;
            [destruct (isActiveLocked _ _ _); simpl|]
         |destruct (m_leases m !! k) as [e|] eqn:E; simpl;
            [destruct (isActiveLocked _ _ _); simpl|]]);
    try (destruct (bool_decide_reflect (k = key)) as [->|Hne];
         [destruct (m_leases m !! key) as [e|] eqn:E
         |destruct (m_leases m !! k) as [e|] eqn:E]; simpl);
    simpl; rewrite ?lookup_insert_eq, ?lookup_delete_eq; try done;
    try by rewrite ?lookup_insert_ne, ?lookup_delete_ne.
  - rewrite lookup_filter_keys. by repeat case_decide; case_bool_decide.
  - rewrite lookup_filter_keys. by repeat case_decide; case_bool_decide.
Qed.

(** The operations on [key]'s own lease. *)
Definition names (key : LeaseKey) (op : LeaseOp) : bool :=
  match op with
  | OpGrant k _ | OpIsActive k _ | OpTouch k _ | OpMark k | OpClear k | OpRevoke k =>
      bool_decide (k = key)
  | _ => false
  end.

(** ** Where a lease comes from *)

Definition emptyManager (c : LeaseConfig) : LeaseManager := mkLeaseManager c ∅.

(** The operations that count as a use of [key] at time [t]. *)
Definition uses (key : LeaseKey) (t : Z) (op : LeaseOp) : bool :=
  match op with
  | OpGrant k now | OpTouch k now => bool_decide (k = key) && bool_decide (now = t)
  | _ => false
  end.

(** [e] is the entry of [key] after [ops]: its origin is a grant that nothing
    revoked since, its last use a grant or a touch since then, and a verified PIN
    was marked since the last operation that asks for a new verification. *)
Definition provenance (key : LeaseKey) (ops : list LeaseOp) (e : Entry) : Prop :=
  ∃ pre post, ops = pre ++ OpGrant key (origin e) :: post ∧
    Forall (λ op, revokes key op = false) post ∧
    (∃ op, op ∈ OpGrant key (origin e) :: post ∧ uses key (lastUse e) op = true) ∧
    (pinVerified e = true → ∃ post1 post2, post = post1 ++ OpMark key :: post2 ∧
       Forall (λ op, unverifies key op = false) post2).

Lemma provenance_grant key ops now : provenance key (ops ++ [OpGrant key now]) (mkEntry now now false).
Proof.
  exists ops, []. split_and!; try done.
  exists (OpGrant key now). split; [left|]. simpl. by rewrite !bool_decide_eq_true_2.
Qed.

(** Extending a history by an operation that ends nothing. *)
Lemma provenance_snoc key ops e op e' :
  provenance key ops e → revokes key op = false → origin e' = origin e →
  (lastUse e' = lastUse e ∨ uses key (lastUse e') op = true) →
  (pinVerified e' = true → op = OpMark key ∨ pinVerified e = true ∧ unverifies key op = false) →
  provenance key (ops ++ [op]) e'.
Proof.
  intros (pre & post & -> & Hpost & (u & Hu & Huse) & Hpin) Hrev Horig Hlast Hver.
  exists pre, (post ++ [op]). rewrite Horig. split_and!.
  - by rewrite <-(assoc_L (++)).
  - apply Forall_app; split; [done|by constructor].
  - rewrite app_comm_cons. setoid_rewrite elem_of_app.
    destruct Hlast as [->|Huse']; [exists u; auto|exists op]. split; [|done].
    right. by apply list_elem_of_singleton.
  - intros Hv. destruct (Hver Hv) as [->|[Hv' Hun]].
    + by exists post, [].
    + destruct (Hpin Hv') as (p1 & p2 & -> & Hp2). exists p1, (p2 ++ [op]).
      split; [by rewrite <-(assoc_L (++))|]. apply Forall_app; split; [done|by constructor].
Qed.

Lemma execs_snoc m ops op : execs m (ops ++ [op]) = exec (execs m ops) op.
Proof. apply foldl_snoc. Qed.

Lemma config_execs m ops : m_config (execs m ops) = m_config m.
Proof.
  induction ops as [|op ops IH] using rev_ind; [done|]. by rewrite execs_snoc, config_exec.
Qed.

Lemma execs_provenance (c : LeaseConfig) (ops : list LeaseOp) (key : LeaseKey) (e : Entry) :
  m_leases (execs (emptyManager c) ops) !! key = Some e → provenance key ops e.
Proof.
  revert e. induction ops as [|op ops IH] using rev_ind; intros e;
    [by cbn; rewrite lookup_empty|].
  rewrite execs_snoc, lookup_exec. destruct (m_leases (execs _ ops) !! key) as [e0|] eqn:E; last first.
  { unfold stepEntry. repeat case_match; bool_hyps; try done. intros [= <-]. subst.
    apply provenance_grant. }
  specialize (IH e0 eq_refl). unfold stepEntry. intros Hstep.
  destruct op; cbn in Hstep; repeat case_match; bool_hyps; simplify_eq/=; try done;
    eapply provenance_snoc; try done; simpl; rewrite ?bool_decide_eq_true_2, ?bool_decide_eq_false_2 by done;
    auto; try by right.
  all: intros Hv; right; split; [done|]; try by rewrite bool_decide_eq_false_2.
Qed.

(** What [isActive] says of the entry. *)
Lemma isActive_entry key now m :
  fst (isActive key now m) = true →
  ∃ e, m_leases m !! key = Some e ∧ now - lastUse e < nanos (idleTimeout (m_config m)) ∧
    (0 < maxLifetime (m_config m) → now - origin e < nanos (maxLifetime (m_config m))).
Proof.
  unfold isActive. destruct (m_leases m !! key) as [e|]; [|done].
  destruct (isActiveLocked _ e now) eqn:Ha; [|done]. intros _. exists e.
  unfold isActiveLocked in Ha. repeat case_match; try done. bool_hyps.
  split_and!; [done|lia|]. intros Hm.
  rename select (_ && _ = false) into Hl. apply andb_false_iff in Hl as [Hl|Hl]; bool_hyps; lia.
Qed.

(** A lease is live only by a login that still holds: there was a grant for this
    caller and card that no logout, card removal or client disconnect followed; the
    lease was used less than [idleTimeout] ago; and if there is a maximum lifetime
    that very grant is younger than it, however often the lease was refreshed. *)
Theorem lease_live_by_login (c : LeaseConfig) (ops : list LeaseOp) (key : LeaseKey) (now : Z) :
  fst (isActive key now (execs (emptyManager c) ops)) = true →
  ∃ pre post g, ops = pre ++ OpGrant key g :: post ∧
    Forall (λ op, revokes key op = false) post ∧
    (∃ t op, op ∈ OpGrant key g :: post ∧ uses key t op = true ∧ now - t < nanos (idleTimeout c)) ∧
    (0 < maxLifetime c → now - g < nanos (maxLifetime c)).
Proof.
  intros (e & E & Hidle & Hmax)%isActive_entry. rewrite config_execs in Hidle, Hmax.
  apply execs_provenance in E as (pre & post & -> & Hpost & (op & Hop & Huse) & _).
  exists pre, post, (origin e). split_and!; [done|done| |done]. by exists (lastUse e), op.
Qed.

(** A PIN counts as verified only under the login that verified it: it was marked
    after the grant the lease stems from, and since then there was no new login, no
    recovery, no logout, no card removal and no disconnect. *)
Theorem pin_verified_under_login (c : LeaseConfig) (ops : list LeaseOp) (key : LeaseKey) :
  isPinVerified key (execs (emptyManager c) ops) = true →
  ∃ pre mid post g, ops = pre ++ OpGrant key g :: mid ++ OpMark key :: post ∧
    Forall (λ op, revokes key op = false) (mid ++ OpMark key :: post) ∧
    Forall (λ op, unverifies key op = false) post.
Proof.
  unfold isPinVerified. destruct (m_leases _ !! key) as [e|] eqn:E; [|done]. intros Hv.
  apply execs_provenance in E as (pre & post & -> & Hpost & _ & Hpin).
  destruct (Hpin Hv) as (p1 & p2 & -> & Hp2). by exists pre, p1, p2, (origin e).
Qed.

(** Removing a card, or disconnecting a client, ends exactly its leases: those of
    every other card and caller are untouched, and so is a lease on which only others
    operate. *)
Theorem revocation_exact (m : LeaseManager) (key : LeaseKey) (op : LeaseOp) :
  (revokes key op = true → m_leases (exec m op) !! key = None) ∧
  (revokes key op = false → names key op = false →
   m_leases (exec m op) !! key = m_leases m !! key).
Proof.
  rewrite lookup_exec. split; intros H; destruct op; simpl in *; rewrite ?H; try done;
    intros Hn; by rewrite ?Hn.
Qed.

Lemma isActiveLocked_true (c : LeaseConfig) (e : Entry) (t : Z) :
  t - lastUse e < nanos (idleTimeout c) →
  (maxLifetime c ≤ 0 ∨ t - origin e < nanos (maxLifetime c)) → isActiveLocked c e t = true.
Proof.
  intros Hi Hm. unfold isActiveLocked. rewrite (proj2 (Z.leb_gt _ _)) by lia.
  destruct Hm; [by rewrite (proj2 (Z.ltb_ge _ _)) by lia|].
  rewrite (proj2 (Z.leb_gt (nanos (maxLifetime _)) _)) by lia. by rewrite andb_false_r.
Qed.

(** Uses less than the idle timeout apart, starting from a use at [a]. *)
Fixpoint keptBusy (idle a : Z) (ts : list Z) : Prop :=
  match ts with
  | [] => True
  | t :: ts => t - a < idle ∧ keptBusy idle t ts
  end.

Lemma touches_serve (c : LeaseConfig) (m : LeaseManager) (key : LeaseKey) (e : Entry) (ts : list Z) (now : Z) :
  m_config m = c → m_leases m !! key = Some e →
  keptBusy (nanos (idleTimeout c)) (lastUse e) (ts ++ [now]) →
  Forall (λ t, maxLifetime c ≤ 0 ∨ t - origin e < nanos (maxLifetime c)) (ts ++ [now]) →
  fst (touch key now (foldl (λ m t, snd (touch key t m)) m ts)) = true.
Proof.
  intros Hc. revert m e Hc. induction ts as [|t ts IH]; intros m e Hc He [Ht Hbusy] Hlife;
    apply Forall_cons_1 in Hlife as [Hlt Hlife];
    pose proof (isActiveLocked_true c e _ Ht Hlt) as Hact; simpl.
  - unfold touch. by rewrite He, Hc, Hact.
  - apply (IH _ (mkEntry t (origin e) (pinVerified e))); try done;
      unfold touch; rewrite He, Hc, Hact; simpl; [done|by rewrite lookup_insert_eq].
Qed.

(** Within its bounds a login serves: after a grant that creates the lease, and any
    uses each less than [idleTimeout] after the one before, the next use is granted
    as long as the maximum lifetime has not passed. *)
Theorem login_serves (m : LeaseManager) (key : LeaseKey) (g : Z) (touches : list Z) (now : Z) :
  let c := m_config m in
  m_leases m !! key = None → keptBusy (nanos (idleTimeout c)) g (touches ++ [now]) →
  Forall (λ t, maxLifetime c ≤ 0 ∨ t - g < nanos (maxLifetime c)) (touches ++ [now]) →
  fst (touch key now (foldl (λ m t, snd (touch key t m)) (grant key g m) touches)) = true.
Proof.
  intros c Hnone Hbusy Hlife. apply (touches_serve c _ _ (mkEntry g g false)); try done;
    unfold grant; rewrite Hnone; simpl; [done|by rewrite lookup_insert_eq].
Qed.

(** A login over a lease that outlived the maximum lifetime but was not asked about
    since does not serve: the grant keeps the old origin, so although the login
    succeeded the very next use is refused. *)
Theorem grant_over_expired_lease_is_dead (m : LeaseManager) (key : LeaseKey) (e : Entry) (now : Z) :
  m_leases m !! key = Some e → 0 < maxLifetime (m_config m) →
  nanos (maxLifetime (m_config m)) ≤ now - origin e →
  fst (touch key now (grant key now m)) = false.
Proof.
  intros He Hm Hold. unfold touch, grant. rewrite He. simpl. rewrite lookup_insert_eq.
  unfold isActiveLocked. simpl. rewrite (proj2 (Z.ltb_lt _ _)), (proj2 (Z.leb_le _ (now - origin e))) by lia.
  by repeat case_match.
Qed.

(** ** Witnesses *)

Definition sampleKey : LeaseKey := mkLeaseKey ":1.42" 7.

Definition sampleOps : list LeaseOp :=
  [OpGrant sampleKey (nanos 0); OpMark sampleKey; OpRevoke sampleKey; OpGrant sampleKey (nanos 100);
   OpMark sampleKey; OpTouch sampleKey (nanos 300); OpRevokeCard 8; OpRevokeCaller ":1.43"].

Lemma lease_live_by_login_witness :
  ∃ pre post g, sampleOps = pre ++ OpGrant sampleKey g :: post ∧
    Forall (λ op, revokes sampleKey op = false) post ∧
    (∃ t op, op ∈ OpGrant sampleKey g :: post ∧ uses sampleKey t op = true ∧
       nanos 600 - t < nanos (idleTimeout defaultLeaseConfig)) ∧
    (0 < maxLifetime defaultLeaseConfig → nanos 600 - g < nanos (maxLifetime defaultLeaseConfig)).
Proof. apply lease_live_by_login. vm_compute. reflexivity. Defined.

Lemma pin_verified_under_login_witness :
  ∃ pre mid post g, sampleOps = pre ++ OpGrant sampleKey g :: mid ++ OpMark sampleKey :: post ∧
    Forall (λ op, revokes sampleKey op = false) (mid ++ OpMark sampleKey :: post) ∧
    Forall (λ op, unverifies sampleKey op = false) post.
Proof. apply (pin_verified_under_login defaultLeaseConfig). vm_compute. reflexivity. Defined.

Lemma revocation_exact_witness :
  m_leases (exec (execs (emptyManager defaultLeaseConfig) sampleOps) (OpRevokeCard 7)) !! sampleKey = None.
Proof. apply revocation_exact. vm_compute. reflexivity. Defined.

Lemma login_serves_witness :
  fst (touch sampleKey (nanos 1000) (foldl (λ m t, snd (touch sampleKey t m))
    (grant sampleKey (nanos 0) (emptyManager defaultLeaseConfig)) [nanos 500])) = true.
Proof.
  apply login_serves.
  - reflexivity.
  - vm_compute. done.
  - repeat constructor; right; vm_compute; reflexivity.
Defined.

Lemma grant_over_expired_lease_is_dead_witness :
  let m := grant sampleKey (nanos 0) (emptyManager defaultLeaseConfig) in
  fst (touch sampleKey (nanos 90000) (grant sampleKey (nanos 90000) m)) = false.
Proof.
  cbv zeta. apply (grant_over_expired_lease_is_dead _ _ (mkEntry 0 0 false)).
  - vm_compute. reflexivity.
  - vm_compute. reflexivity.
  - vm_compute. discriminate.
Defined.

End Leases.
