(* ===== verification/Cbor.v ===== *)
(** * The CBOR value seam

    Models [src/wire/Cbor.cpp] and [include/LibreSCRS/Agent/wire/Cbor.h]: the value
    tree, the canonical key order, the encoder's calls, the bounded decoder and its
    re-encode-and-compare check, and the scrub of secret-bearing trees.

    The QCBOR library is not code of the repository. The encoder is the sequence of
    calls it makes on a QCBOR context; [Qcbor] holds what QCBOR answers: the bytes
    of a finished sequence of calls, and the items of a byte string one by one.
    A [double] is its 64-bit pattern; a text or byte string is its bytes. *)
From S2P Require Import Prelude.
Local Open Scope Z_scope.

Module Cbor.

(** ** Values *)

#[local] Unset Elimination Schemes.
(** The map alternative is the entries in iteration order: [emplace] keeps them
    sorted by [canonicalKeyLess]. *)
Inductive CborValue : Type :=
| CNull
| CBool (b : bool)
| CUInt (u : Z)
| CInt (i : Z)
| CDouble (bits : Z)
| CText (text : string)
| CBytes (bytes : list Z)
| CArray (elements : list CborValue)
| CMap (entries : list (string * CborValue)).
#[local] Set Elimination Schemes.

Abbreviation Map := (list (string * CborValue)).

Definition INT64_MAX : Z := 2 ^ 63 - 1.

(** [CborValue(std::uint64_t)]: values that fit are stored as [Int]. *)
Definition uint (u : Z) : CborValue := if u <=? INT64_MAX then CInt u else CUInt u.

Definition asBool (v : CborValue) : option bool := match v with CBool b => Some b | _ => None end.
Definition asUInt (v : CborValue) : option Z :=
  match v with
  | CUInt u => Some u
  | CInt i => if 0 <=? i then Some (u64 i) else None
  | _ => None
  end.
Definition asInt (v : CborValue) : option Z := match v with CInt i => Some i | _ => None end.
Definition asDouble (v : CborValue) : option Z := match v with CDouble d => Some d | _ => None end.
Definition asText (v : CborValue) : option string := match v with CText t => Some t | _ => None end.
Definition asBytes (v : CborValue) : option (list Z) := match v with CBytes b => Some b | _ => None end.
Definition asArray (v : CborValue) : option (list CborValue) := match v with CArray a => Some a | _ => None end.
Definition asMap (v : CborValue) : option Map := match v with CMap m => Some m | _ => None end.

(** Byte-wise lexicographic [<] on strings of one length. *)
Fixpoint bytesLess (a b : string) : bool :=
  match a, b with
  | String x a, String y b =>
      if N.eqb (Ascii.N_of_ascii x) (Ascii.N_of_ascii y) then bytesLess a b
      else N.ltb (Ascii.N_of_ascii x) (Ascii.N_of_ascii y)
  | EmptyString, String _ _ => true
  | _, EmptyString => false
  end.

Definition canonicalKeyLess (a b : string) : bool :=
  if negb (String.length a =? String.length b)%nat then (String.length a <? String.length b)%nat
  else bytesLess a b.

(** [std::map::find] on the sorted entries. *)
Fixpoint mapFind (key : string) (m : Map) : option CborValue :=
  match m with
  | [] => None
  | (k, v) :: rest => if String.eqb k key then Some v else mapFind key rest
  end.

(** [std::map::emplace]: in key order, no effect when the key is there already. *)
Fixpoint emplace (key : string) (v : CborValue) (m : Map) : Map :=
  match m with
  | [] => [(key, v)]
  | (k, w) :: rest =>
      if canonicalKeyLess key k then (key, v) :: m
      else if canonicalKeyLess k key then (k, w) :: emplace key v rest
      else m
  end.

Definition find (key : string) (v : CborValue) : option CborValue :=
  m ← asMap v; mapFind key m.

(** ** Encoding *)

(** The calls on a QCBOR encode context. *)
Inductive EncCall :=
| AddNULL
| AddBool (b : bool)
| AddUInt64 (u : Z)
| AddInt64 (i : Z)
| AddDouble (bits : Z)
| AddDoubleNoPreferred (bits : Z)
| AddFloatNoPreferred (bits : Z)
| AddText (s : string)
| AddBytes (bytes : list Z)
| OpenArray | CloseArray | OpenMap | CloseMap.

Definition addPreferredDouble (bits : Z) : EncCall :=
  let exponent := Z.land (Z.shiftr bits 52) 0x7ff - 1023 in
  let regular := negb (exponent =? -1023) && negb (exponent =? 1024) in
  let singleNormal := (-126 <=? exponent) && (exponent <=? 127) &&
                      (Z.land bits (Z.shiftl 1 29 - 1) =? 0) in
  if regular && negb singleNormal then
    if (exponent <? -149) || (-127 <? exponent) then AddDoubleNoPreferred bits
    else AddDouble bits
  else if regular then
    let halfNormal := (-14 <=? exponent) && (exponent <=? 15) &&
                      (Z.land bits (Z.shiftl 1 42 - 1) =? 0) in
    if negb halfNormal && ((exponent <? -24) || (-15 <? exponent)) then AddFloatNoPreferred bits
    else AddDouble bits
  else AddDouble bits.

Fixpoint encodeValue (v : CborValue) : list EncCall :=
  match v with
  | CNull => [AddNULL]
  | CBool b => [AddBool b]
  | CUInt u => [AddUInt64 u]
  | CInt i => [AddInt64 i]
  | CDouble d => [addPreferredDouble d]
  | CText t => [AddText t]
  | CBytes b => [AddBytes b]
  | CArray es => OpenArray :: concat (map encodeValue es) ++ [CloseArray]
  | CMap m => OpenMap :: concat (map (λ '(key, val), AddText key :: encodeValue val) m) ++ [CloseMap]
  end.

(** ** The QCBOR library *)

Inductive ItemType :=
| QINT64 (i : Z)
| QUINT64 (u : Z)
| QTRUE | QFALSE | QNULL
| QDOUBLE (bits : Z)
| QTEXT (s : string)
| QBYTES (bytes : list Z)
| QARRAY (count : option nat)
| QMAP (count : option nat)
| QOTHER.

(** An item and its map label: [None] when the label is not a text string. An
    array or map of indefinite length has no count. *)
Record QCBORItem := mkItem { uDataType : ItemType; label : option string }.

Class Qcbor (ctx : Type) := {
  (** [QCBOREncode_FinishGetSize] after the calls, then [QCBOREncode_Finish] into a
      buffer of that size; [None] is an encode error. *)
  FinishGetSize : list EncCall → option nat;
  Finish : nat → list EncCall → option (list Z);
  DecodeInit : list Z → ctx;
  (** [None] is anything but [QCBOR_SUCCESS]. *)
  GetNext : ctx → option (QCBORItem * ctx);
  DecodeFinish : ctx → bool }.

(** ** Decoding *)

Inductive CborError :=
| Malformed | NotCanonical | TooDeep | TooManyItems | TrailingBytes | UnsupportedType.

#[export] Instance CborError_eq_dec : EqDecision CborError.
Proof. solve_decision. Defined.

Definition kMaxCborDepth : nat := 16.
Definition kMaxCborItems : nat := 4096.

Section Codec.
Context {ctx : Type} `{!Qcbor ctx}.

(** An empty result stands for an encode error, as in the code. *)
Definition encode (v : CborValue) : list Z :=
  match FinishGetSize (encodeValue v) with
  | None => []
  | Some size =>
      match Finish size (encodeValue v) with
      | None => []
      | Some encoded => encoded
      end
  end.

(** The loop over the elements of an array. *)
Fixpoint readElements (read : QCBORItem → ctx → nat → result CborError (CborValue * ctx * nat))
    (count : nat) (c : ctx) (budget : nat) (arr : list CborValue) :
    result CborError (CborValue * ctx * nat) :=
  match count with
  | O => Ok (CArray arr, c, budget)
  | S count =>
      match GetNext c with
      | None => Err Malformed
      | Some (child, c) =>
          match read child c budget with
          | Err e => Err e
          | Ok (v, c, budget) => readElements read count c budget (arr ++ [v])
          end
      end
  end.

(** The loop over the entries of a map. *)
Fixpoint readEntries (read : QCBORItem → ctx → nat → result CborError (CborValue * ctx * nat))
    (count : nat) (c : ctx) (budget : nat) (m : Map) :
    result CborError (CborValue * ctx * nat) :=
  match count with
  | O => Ok (CMap m, c, budget)
  | S count =>
      match GetNext c with
      | None => Err Malformed
      | Some (child, c) =>
          match label child with
          | None => Err UnsupportedType
          | Some key =>
              match read child c budget with
              | Err e => Err e
              | Ok (v, c, budget) =>
                  match mapFind key m with
                  | Some _ => Err NotCanonical
                  | None => readEntries read count c budget (emplace key v m)
                  end
              end
          end
      end
  end.

(** [readValue] at [depth]: [levels] is [kMaxCborDepth + 1 - depth], so no level
    left is [depth > kMaxCborDepth]. It threads the decoder's position and the
    item budget. *)
Fixpoint readValue (levels : nat) (item : QCBORItem) (c : ctx) (budget : nat) :
    result CborError (CborValue * ctx * nat) :=
  match levels with
  | O => Err TooDeep
  | S levels =>
      match budget with
      | O => Err TooManyItems
      | S budget =>
          match uDataType item with
          | QINT64 i => Ok (CInt i, c, budget)
          | QUINT64 u => Ok (uint u, c, budget)
          | QTRUE => Ok (CBool true, c, budget)
          | QFALSE => Ok (CBool false, c, budget)
          | QNULL => Ok (CNull, c, budget)
          | QDOUBLE d => Ok (CDouble d, c, budget)
          | QTEXT s => Ok (CText s, c, budget)
          | QBYTES b => Ok (CBytes b, c, budget)
          | QARRAY None => Err NotCanonical
          | QARRAY (Some count) => readElements (readValue levels) count c budget []
          | QMAP None => Err NotCanonical
          | QMAP (Some count) => readEntries (readValue levels) count c budget []
          | QOTHER => Err UnsupportedType
          end
      end
  end.

Definition decode (bytes : list Z) : result CborError CborValue :=
  match GetNext (DecodeInit bytes) with
  | None => Err Malformed
  | Some (item, c) =>
      match readValue (S kMaxCborDepth) item c kMaxCborItems with
      | Err e => Err e
      | Ok (value, c, _) =>
          if negb (DecodeFinish c) then Err TrailingBytes
          else if bool_decide (encode value = bytes) then Ok value
          else Err NotCanonical
      end
  end.

End Codec.

(** ** Scrubbing *)

Definition zeroText (s : string) : string :=
  String.string_of_list_ascii (replicate (String.length s) Ascii.zero).

Fixpoint scrub (v : CborValue) : CborValue :=
  match v with
  | CText t => CText (zeroText t)
  | CBytes b => CBytes (replicate (length b) 0)
  | CArray es => CArray (map scrub es)
  | CMap m => CMap (map (λ '(key, val), (key, scrub val)) m)
  | _ => v
  end.

(** ** Induction and measures on values *)

Section Induction.
Context (P : CborValue → Prop).
Context (Hnull : P CNull) (Hbool : ∀ b, P (CBool b)) (Huint : ∀ u, P (CUInt u)) (Hint : ∀ i, P (CInt i)).
Context (Hdouble : ∀ d, P (CDouble d)) (Htext : ∀ t, P (CText t)) (Hbytes : ∀ b, P (CBytes b)).
Context (Harray : ∀ es, Forall P es → P (CArray es)).
Context (Hmap : ∀ m : Map, Forall (λ kv, P kv.2) m → P (CMap m)).

Fixpoint value_ind (v : CborValue) : P v :=
  match v with
  | CNull => Hnull
  | CBool b => Hbool b
  | CUInt u => Huint u
  | CInt i => Hint i
  | CDouble d => Hdouble d
  | CText t => Htext t
  | CBytes b => Hbytes b
  | CArray es =>
      Harray es ((fix go (es : list CborValue) : Forall P es :=
        match es with
        | [] => Forall_nil_2 P
        | e :: es => Forall_cons_2 P e es (value_ind e) (go es)
        end) es)
  | CMap m =>
      Hmap m ((fix go (m : Map) : Forall (λ kv, P kv.2) m :=
        match m with
        | [] => Forall_nil_2 _
        | kv :: m => Forall_cons_2 (λ kv, P kv.2) kv m (value_ind kv.2) (go m)
        end) m)
  end.
End Induction.

(** The levels of nesting below a value, and the data items of its encoding (map
    keys are not counted, as in the decoder's budget). *)
Fixpoint depthOf (v : CborValue) : nat :=
  match v with
  | CArray es => foldr Nat.max O (map (λ e, S (depthOf e)) es)
  | CMap m => foldr Nat.max O (map (λ '(_, e), S (depthOf e)) m)
  | _ => O
  end.

Fixpoint itemCount (v : CborValue) : nat :=
  match v with
  | CArray es => S (sum_list (map itemCount es))
  | CMap m => S (sum_list (map (λ '(_, e), itemCount e) m))
  | _ => 1
  end%nat.

(** Strictly increasing keys: distinct, and in canonical order. *)
Fixpoint sortedKeys (m : Map) : bool :=
  match m with
  | [] => true
  | (k, _) :: rest =>
      forallb (λ '(k', _), canonicalKeyLess k k') rest && sortedKeys rest
  end.

(** What the constructors of [CborValue] establish: integers normalised, maps in
    canonical order. *)
Fixpoint wellFormed (v : CborValue) : bool :=
  match v with
  | CUInt u => INT64_MAX <? u
  | CArray es => forallb wellFormed es
  | CMap m => sortedKeys m && forallb (λ '(_, e), wellFormed e) m
  | _ => true
  end.

(** ** The key order *)

Lemma N_of_ascii_inj a b : Ascii.N_of_ascii a = Ascii.N_of_ascii b → a = b.
Proof. intros E. rewrite <- (Ascii.ascii_N_embedding a), <- (Ascii.ascii_N_embedding b). by f_equal. Qed.

Lemma bytesLess_irrefl a : bytesLess a a = false.
Proof. induction a as [|x a IH]; [done|]. cbn. by rewrite N.eqb_refl. Qed.

Lemma bytesLess_trans a b c : bytesLess a b = true → bytesLess b c = true → bytesLess a c = true.
Proof.
  revert b c. induction a as [|x a IH]; intros [|y b] [|z c]; cbn; try done.
  repeat case_match; repeat match goal with
    | H : (_ =? _)%N = true |- _ => apply N.eqb_eq in H
    | H : (_ =? _)%N = false |- _ => apply N.eqb_neq in H
    end; rewrite ?N.ltb_lt; try lia. by apply IH.
Qed.

Lemma bytesLess_total a b : bytesLess a b = false → bytesLess b a = false → a = b.
Proof.
  revert b. induction a as [|x a IH]; intros [|y b]; cbn; try done.
  rewrite (N.eqb_sym (Ascii.N_of_ascii y)). case_match eqn:E.
  - apply N.eqb_eq, N_of_ascii_inj in E. subst. intros ??. f_equal. by apply IH.
  - apply N.eqb_neq in E. rewrite !N.ltb_ge. lia.
Qed.

Lemma keyLess_spec a b : canonicalKeyLess a b = true ↔
  (String.length a < String.length b)%nat ∨ (String.length a = String.length b ∧ bytesLess a b = true).
Proof.
  unfold canonicalKeyLess. destruct (Nat.eqb_spec (String.length a) (String.length b)) as [E|E]; cbn [negb].
  - split; [by right|intros [?|[??]]; [lia|done]].
  - rewrite Nat.ltb_lt. split; [by left|intros [?|[??]]; lia].
Qed.

Lemma keyLess_irrefl a : canonicalKeyLess a a = false.
Proof. unfold canonicalKeyLess. rewrite Nat.eqb_refl. apply bytesLess_irrefl. Qed.

Lemma keyLess_trans a b c :
  canonicalKeyLess a b = true → canonicalKeyLess b c = true → canonicalKeyLess a c = true.
Proof.
  rewrite !keyLess_spec. intros [|[E H]] [|[E' H']]; try (left; lia).
  right. split; [lia|]. by eapply bytesLess_trans.
Qed.

Lemma keyLess_total a b : canonicalKeyLess a b = false → canonicalKeyLess b a = false → a = b.
Proof.
  unfold canonicalKeyLess. rewrite (Nat.eqb_sym (String.length b)).
  destruct (Nat.eqb_spec (String.length a) (String.length b)); cbn [negb];
    [apply bytesLess_total|rewrite !Nat.ltb_ge; lia].
Qed.

Lemma keyLess_asym a b : canonicalKeyLess a b = true → canonicalKeyLess b a = false.
Proof.
  intros H. destruct (canonicalKeyLess b a) eqn:E; [|done].
  pose proof (keyLess_trans _ _ _ H E) as H'. by rewrite keyLess_irrefl in H'.
Qed.

(** ** The map operations *)

Lemma forallb_keys_below k (m : Map) :
  forallb (λ '(k', _), canonicalKeyLess k k') m = true ↔ Forall (λ kv, canonicalKeyLess k kv.1 = true) m.
Proof. rewrite forallb_forall, Forall_forall. setoid_rewrite list_elem_of_In. split; intros H [??]; apply (H (_, _)). Qed.

Lemma sortedKeys_cons k v m :
  sortedKeys ((k, v) :: m) = true ↔ Forall (λ kv, canonicalKeyLess k kv.1 = true) m ∧ sortedKeys m = true.
Proof. cbn [sortedKeys]. by rewrite andb_true_iff, forallb_keys_below. Qed.

Lemma emplace_keys key v m (P : string → Prop) :
  P key → Forall (λ kv, P kv.1) m → Forall (λ kv, P kv.1) (emplace key v m).
Proof.
  intros Hk Hm. induction Hm as [|[k w] m Hkw Hm IH]; cbn; [by repeat constructor|].
  repeat case_match; by repeat constructor.
Qed.

Lemma emplace_sorted key v m : sortedKeys m = true → sortedKeys (emplace key v m) = true.
Proof.
  induction m as [|[k w] m IH]; [done|]. intros [Hk Hm]%sortedKeys_cons. cbn [emplace].
  case_match eqn:E1.
  - apply sortedKeys_cons. split; [|by apply sortedKeys_cons].
    constructor; [done|]. eapply Forall_impl; [exact Hk|]. intros [k' w'] ?. by eapply keyLess_trans.
  - case_match eqn:E2; apply sortedKeys_cons; [|done].
    split; [by apply (emplace_keys _ _ _ (λ x, canonicalKeyLess k x = true))|by apply IH].
Qed.

(** Appending in order: the case of the encoder's own output. *)
Lemma emplace_last key v m :
  Forall (λ kv, canonicalKeyLess kv.1 key = true) m → emplace key v m = m ++ [(key, v)].
Proof.
  induction 1 as [|[k w] m Hk _ IH]; [done|]. cbn in *.
  by rewrite (keyLess_asym _ _ Hk), Hk, IH.
Qed.

Lemma mapFind_emplace_ne key key' v m : key ≠ key' → mapFind key' (emplace key v m) = mapFind key' m.
Proof.
  intros Hne%String.eqb_neq. induction m as [|[k w] m IH]; cbn; [by rewrite Hne|].
  destruct (canonicalKeyLess key k); cbn; [by rewrite Hne|].
  destruct (canonicalKeyLess k key); cbn; by rewrite ?IH.
Qed.

Lemma mapFind_emplace key v m :
  mapFind key m = None → mapFind key (emplace key v m) = Some v.
Proof.
  induction m as [|[k w] m IH]; cbn; [by rewrite String.eqb_refl|].
  case_match eqn:E; [done|]. intros Hm. case_match eqn:E1; [cbn; by rewrite String.eqb_refl|].
  case_match eqn:E2; [cbn; rewrite E; by apply IH|].
  apply String.eqb_neq in E. by pose proof (keyLess_total _ _ E1 E2).
Qed.

Lemma mapFind_below key m : Forall (λ kv, canonicalKeyLess key kv.1 = true) m → mapFind key m = None.
Proof.
  induction 1 as [|[k w] m Hk _ IH]; [done|]. cbn in *. case_match eqn:E; [|done].
  apply String.eqb_eq in E as ->. by rewrite keyLess_irrefl in Hk.
Qed.

Lemma mapFind_above key m : Forall (λ kv, canonicalKeyLess kv.1 key = true) m → mapFind key m = None.
Proof.
  induction 1 as [|[k w] m Hk _ IH]; [done|]. cbn in *. case_match eqn:E; [|done].
  apply String.eqb_eq in E as ->. by rewrite keyLess_irrefl in Hk.
Qed.

(** ** What the decoder returns *)

Lemma depthOf_array es n : (∀ e, e ∈ es → depthOf e < n)%nat → (depthOf (CArray es) < S n)%nat.
Proof.
  cbn [depthOf]. induction es as [|e es IH]; cbn; [lia|]. intros H.
  pose proof (H e ltac:(left)). specialize (IH (λ x Hx, H x ltac:(by right))). lia.
Qed.

Lemma depthOf_map (m : Map) n : Forall (λ kv, depthOf kv.2 < n)%nat m → (depthOf (CMap m) < S n)%nat.
Proof. cbn [depthOf]. induction 1 as [|[k e] m]; cbn in *; lia. Qed.

Lemma wellFormed_map (m : Map) :
  wellFormed (CMap m) = true ↔ sortedKeys m = true ∧ Forall (λ kv, wellFormed kv.2 = true) m.
Proof.
  cbn [wellFormed]. rewrite andb_true_iff, forallb_forall, Forall_forall.
  setoid_rewrite list_elem_of_In. split; intros [? H]; (split; [done|]); intros [??]; apply (H (_, _)).
Qed.

Lemma emplace_values (P : CborValue → Prop) key v m :
  P v → Forall (λ kv, P kv.2) m → Forall (λ kv, P kv.2) (emplace key v m).
Proof.
  intros Hv Hm. induction Hm as [|[k w] m Hkw Hm IH]; cbn; [by repeat constructor|].
  repeat case_match; by repeat constructor.
Qed.

Abbreviation entryItems m := (sum_list (map (λ '(_, e), itemCount e) m)).

Lemma emplace_items key v (m : Map) : mapFind key m = None →
  entryItems (emplace key v m) = (itemCount v + entryItems m)%nat.
Proof.
  induction m as [|[k w] m IH]; cbn; [lia|].
  destruct (String.eqb_spec k key) as [|Hne]; [done|]. intros Hm.
  destruct (canonicalKeyLess key k) eqn:E1; cbn; [lia|].
  destruct (canonicalKeyLess k key) eqn:E2; cbn; [rewrite IH by done; lia|].
  by pose proof (keyLess_total _ _ E1 E2).
Qed.

Section Sound.
Context {ctx : Type} `{!Qcbor ctx}.

(** A value read with [levels] to go and out of a budget of [b]. *)
Definition soundRead (levels : nat) (read : QCBORItem → ctx → nat → result CborError (CborValue * ctx * nat)) :=
  ∀ item c b v c' b', read item c b = Ok (v, c', b') →
    wellFormed v = true ∧ (depthOf v < levels)%nat ∧ b = (itemCount v + b')%nat.

Lemma readElements_sound levels read count c b arr v c' b' :
  soundRead levels read →
  forallb wellFormed arr = true → (∀ e, e ∈ arr → depthOf e < levels)%nat →
  readElements read count c b arr = Ok (v, c', b') →
  wellFormed v = true ∧ (depthOf v < S levels)%nat ∧
  (b + sum_list (map itemCount arr) + 1 = itemCount v + b')%nat.
Proof.
  intros Hread. revert c b arr. induction count as [|count IH]; intros c b arr Hwf Hd; cbn [readElements].
  - intros [= <- <- <-]. split; [done|]. split; [by apply depthOf_array|]. cbn [itemCount]. lia.
  - destruct (GetNext c) as [[child c1]|]; [|done].
    destruct (read child c1 b) as [[[w c2] b2]|] eqn:E; [|done].
    apply Hread in E as (Hw & Hdw & ->). intros H. apply IH in H.
    + destruct H as (?&?&H). split_and!; [done..|]. rewrite map_app, sum_list_with_app in H. cbn in H. unfold id in *. lia.
    + by rewrite forallb_app, Hwf; cbn; rewrite Hw.
    + intros e [?|He]%elem_of_app; [auto|]. apply list_elem_of_singleton in He as ->. done.
Qed.

Lemma readEntries_sound levels read count c b m v c' b' :
  soundRead levels read →
  wellFormed (CMap m) = true → Forall (λ kv, depthOf kv.2 < levels)%nat m →
  readEntries read count c b m = Ok (v, c', b') →
  wellFormed v = true ∧ (depthOf v < S levels)%nat ∧
  (b + entryItems m + 1 = itemCount v + b')%nat.
Proof.
  intros Hread. revert c b m. induction count as [|count IH]; intros c b m Hwf Hd; cbn [readEntries].
  - intros [= <- <- <-]. split; [done|]. split; [by apply depthOf_map|]. cbn [itemCount]. lia.
  - destruct (GetNext c) as [[child c1]|]; [|done]. destruct (label child) as [key|]; [|done].
    destruct (read child c1 b) as [[[w c2] b2]|] eqn:E; [|done].
    destruct (mapFind key m) eqn:Hkey; [done|].
    apply Hread in E as (Hw & Hdw & ->). intros H. apply wellFormed_map in Hwf as [Hs Hwf]. apply IH in H.
    + destruct H as (?&?&H). split_and!; [done..|]. rewrite emplace_items in H by done. lia.
    + apply wellFormed_map. split; [by apply emplace_sorted|].
      by apply (emplace_values (λ x, wellFormed x = true)).
    + by apply (emplace_values (λ x, depthOf x < levels)%nat).
Qed.

Lemma readValue_sound levels : soundRead levels (readValue levels).
Proof.
  induction levels as [|levels IH]; intros item c b v c' b'; [done|]. cbn [readValue].
  destruct b as [|b]; [done|].
  destruct (uDataType item) as [ | u | | | | | | |[count|]|[count|]| ] eqn:Ety; try done;
    try (intros [= <- <- <-]; split_and!; (done || cbn; lia)).
  - intros [= <- <- <-]. unfold uint. destruct (Z.leb_spec u INT64_MAX); split_and!; cbn; lia || done.
  - intros H. apply (readElements_sound levels) in H as (?&?&H); [|done|done|by intros ? ?%elem_of_nil].
    split_and!; [done|done|cbn in H; lia].
  - intros H. apply (readEntries_sound levels) in H as (?&?&H); [|done|done|by constructor].
    split_and!; [done|done|cbn in H; lia].
Qed.
End Sound.

(** ** Reading back what was encoded *)

Definition headOf (v : CborValue) : ItemType :=
  match v with
  | CNull => QNULL
  | CBool b => if b then QTRUE else QFALSE
  | CUInt u => QUINT64 u
  | CInt i => QINT64 i
  | CDouble d => QDOUBLE d
  | CText t => QTEXT t
  | CBytes b => QBYTES b
  | CArray es => QARRAY (Some (length es))
  | CMap m => QMAP (Some (length m))
  end.

(** What a sequence of encode calls describes, as QCBOR documents them: a container has
    the items added between its open and its close, and in a map the items come in
    pairs, a text label before its value. The calls are read from the last to the
    first; a frame holds the items of an open container, each with those below it. *)
Definition Group : Type := ItemType * list QCBORItem.

Definition push (g : Group) (frames : list (list Group)) : option (list (list Group)) :=
  match frames with
  | frame :: frames => Some ((g :: frame) :: frames)
  | [] => None
  end.

Fixpoint labelled (gs : list Group) : option (list (string * Group)) :=
  match gs with
  | [] => Some []
  | (QTEXT key, _) :: g :: gs => ((key, g) ::.) <$> labelled gs
  | _ => None
  end.

Definition describe (c : EncCall) (frames : list (list Group)) : option (list (list Group)) :=
  match c with
  | AddNULL => push (QNULL, []) frames
  | AddBool b => push (if b then QTRUE else QFALSE, []) frames
  | AddUInt64 u => push (if u <=? INT64_MAX then QINT64 u else QUINT64 u, []) frames
  | AddInt64 i => push (QINT64 i, []) frames
  | AddDouble d | AddDoubleNoPreferred d | AddFloatNoPreferred d => push (QDOUBLE d, []) frames
  | AddText t => push (QTEXT t, []) frames
  | AddBytes b => push (QBYTES b, []) frames
  | CloseArray | CloseMap => Some ([] :: frames)
  | OpenArray =>
      match frames with
      | gs :: frames =>
          push (QARRAY (Some (length gs)), concat (map (λ '(ty, below), mkItem ty None :: below) gs)) frames
      | [] => None
      end
  | OpenMap =>
      match frames with
      | gs :: frames =>
          es ← labelled gs;
          push (QMAP (Some (length es)), concat (map (λ '(key, (ty, below)), mkItem ty (Some key) :: below) es)) frames
      | [] => None
      end
  end.

Definition described (calls : list EncCall) (frames : list (list Group)) : option (list (list Group)) :=
  foldr (λ c fs, fs ≫= describe c) (Some frames) calls.

Definition itemsOf (calls : list EncCall) : option (list QCBORItem) :=
  match described calls [[]] with
  | Some [[(ty, below)]] => Some (mkItem ty None :: below)
  | _ => None
  end.

(** The data items of a value in the order of its encoding, each under its key. *)
Fixpoint itemsBelow (v : CborValue) : list QCBORItem :=
  match v with
  | CArray es => concat (map (λ e, mkItem (headOf e) None :: itemsBelow e) es)
  | CMap m => concat (map (λ '(key, e), mkItem (headOf e) (Some key) :: itemsBelow e) m)
  | _ => []
  end.

Lemma described_app a b frames : described (a ++ b) frames = described b frames ≫= described a.
Proof.
  unfold described. rewrite foldr_app. destruct (foldr _ (Some frames) b) as [fs|]; cbn; [done|].
  induction a as [|c a IH]; cbn; [done|]. by rewrite IH.
Qed.

Lemma described_cons c calls frames : described (c :: calls) frames = described calls frames ≫= describe c.
Proof. done. Qed.

Lemma described_double d frame frames :
  described [addPreferredDouble d] (frame :: frames) = Some (((QDOUBLE d, []) :: frame) :: frames).
Proof. unfold addPreferredDouble. by repeat case_match. Qed.

(** The calls of a value describe its items. *)
Definition describes (v : CborValue) : Prop := ∀ frame frames,
  described (encodeValue v) (frame :: frames) = Some (((headOf v, itemsBelow v) :: frame) :: frames).

Lemma described_elements es frames :
  Forall describes es →
  described (concat (map encodeValue es) ++ [CloseArray]) frames =
    Some (map (λ e, (headOf e, itemsBelow e)) es :: frames).
Proof.
  induction 1 as [|e es He _ IH]; [done|]. cbn [map concat]. by rewrite <-(assoc_L (++)), described_app, IH; cbn.
Qed.

Lemma described_entries (m : Map) frames :
  Forall (λ kv, describes kv.2) m →
  described (concat (map (λ '(key, val), AddText key :: encodeValue val) m) ++ [CloseMap]) frames =
    Some (concat (map (λ '(key, e), [(QTEXT key, []); (headOf e, itemsBelow e)]) m) :: frames).
Proof.
  induction 1 as [|[k e] m He _ IH]; [done|]. cbn [map concat].
  rewrite <-(assoc_L (++)), described_app, IH. cbn [mbind option_bind app]. rewrite described_cons. cbn in He.
  by rewrite He.
Qed.

Lemma labelled_entries (m : Map) :
  labelled (concat (map (λ '(key, e), [(QTEXT key, []); (headOf e, itemsBelow e)]) m)) =
    Some (map (λ '(key, e), (key, (headOf e, itemsBelow e))) m).
Proof. induction m as [|[k e] m IH]; [done|]. cbn. by rewrite IH. Qed.

Lemma wellFormed_describes v : wellFormed v = true → describes v.
Proof.
  induction v as [ |[]|u|i|d|t|bs|es IH|m IH] using value_ind; intros Hwf frame frames; try done.
  - cbn in Hwf |- *. destruct (Z.leb_spec u INT64_MAX); [lia|done].
  - apply described_double.
  - cbn [encodeValue]. rewrite described_cons, described_elements; [cbn; rewrite length_map, map_map; done|].
    cbn in Hwf. rewrite Forall_forall in *. rewrite forallb_forall in Hwf. intros e He.
    apply IH; [done|]. by apply Hwf, list_elem_of_In.
  - apply wellFormed_map in Hwf as [_ Hwf]. cbn [encodeValue]. rewrite described_cons, described_entries.
    + cbn. rewrite labelled_entries. cbn. rewrite length_map, map_map. do 4 f_equal. f_equal. apply map_ext. by intros [].
    + rewrite Forall_forall in *. intros kv Hkv. by apply IH, Hwf.
Qed.

Lemma itemsOf_encodeValue v :
  wellFormed v = true → itemsOf (encodeValue v) = Some (mkItem (headOf v) None :: itemsBelow v).
Proof. intros Hwf. unfold itemsOf. by rewrite wellFormed_describes. Qed.

Section RoundTrip.
Context {ctx : Type} `{!Qcbor ctx}.

Fixpoint delivers (c : ctx) (items : list QCBORItem) (c' : ctx) : Prop :=
  match items with
  | [] => c = c'
  | item :: items => ∃ c1, GetNext c = Some (item, c1) ∧ delivers c1 items c'
  end.

(** QCBOR's own round trip on a sequence of calls: they finish in the size computed
    for them, and decoding the bytes delivers the items the calls describe and then
    the end. *)
Definition carried (calls : list EncCall) : Prop :=
  ∃ items size bytes c, itemsOf calls = Some items ∧ FinishGetSize calls = Some size ∧
    Finish size calls = Some bytes ∧ delivers (DecodeInit bytes) items c ∧ DecodeFinish c = true.

Lemma delivers_app c items1 items2 c' :
  delivers c (items1 ++ items2) c' → ∃ c1, delivers c items1 c1 ∧ delivers c1 items2 c'.
Proof.
  revert c. induction items1 as [|item items1 IH]; intros c; cbn; [by eauto|].
  intros (c1 & ? & (c2 & ? & ?)%IH). eauto 6.
Qed.

(** The values that [read] gives back from their items. *)
Definition readsBack (read : QCBORItem → ctx → nat → result CborError (CborValue * ctx * nat)) (v : CborValue) :=
  ∀ lbl c c' b, delivers c (itemsBelow v) c' → (itemCount v ≤ b)%nat →
    read (mkItem (headOf v) lbl) c b = Ok (v, c', (b - itemCount v)%nat).

Lemma readElements_back read es arr c c' b :
  Forall (readsBack read) es →
  delivers c (concat (map (λ e, mkItem (headOf e) None :: itemsBelow e) es)) c' →
  (sum_list (map itemCount es) ≤ b)%nat →
  readElements read (length es) c b arr = Ok (CArray (arr ++ es), c', (b - sum_list (map itemCount es))%nat).
Proof.
  intros Hes. revert arr c b. induction Hes as [|e es He _ IH]; intros arr c b.
  - cbn. intros -> _. by rewrite app_nil_r, Nat.sub_0_r.
  - cbn [map concat length readElements app delivers]. intros (c1 & -> & (c2 & Hc1 & Hc2)%delivers_app).
    cbn. intros Hb. rewrite (He _ _ _ _ Hc1) by (unfold id in *; lia).
    rewrite (IH _ _ _ Hc2) by (unfold id in *; lia). rewrite <- app_assoc. do 2 f_equal. unfold id. lia.
Qed.

Lemma readEntries_back read (es : Map) m c c' b :
  Forall (λ kv, readsBack read kv.2) es → sortedKeys es = true →
  Forall (λ kv, Forall (λ kv', canonicalKeyLess kv'.1 kv.1 = true) m) es →
  delivers c (concat (map (λ '(key, e), mkItem (headOf e) (Some key) :: itemsBelow e) es)) c' →
  (entryItems es ≤ b)%nat →
  readEntries read (length es) c b m = Ok (CMap (m ++ es), c', (b - entryItems es)%nat).
Proof.
  intros Hes. revert m c b. induction Hes as [|[k e] es He Hes IH]; intros m c b.
  - cbn. intros _ _ -> _. by rewrite app_nil_r, Nat.sub_0_r.
  - intros [Hk Hsort]%sortedKeys_cons [Hm Hes']%Forall_cons.
    cbn [map concat length readEntries app delivers label]. intros (c1 & -> & (c2 & Hc1 & Hc2)%delivers_app).
    cbn [label]. cbn. intros Hb. cbn in He, Hm. rewrite (He _ _ _ _ Hc1) by (unfold id in *; lia).
    rewrite (mapFind_above _ _ Hm), (emplace_last _ _ _ Hm).
    rewrite (IH (m ++ [(k, e)]) _ _ Hsort); [| |done|unfold id in *; lia].
    + rewrite <- app_assoc. do 2 f_equal. unfold id. lia.
    + eapply Forall_impl; [apply Forall_and; split; [exact Hes'|exact Hk]|].
      intros [k' e'] [??]. apply Forall_app. split; [done|by repeat constructor].
Qed.

Lemma depthOf_elements es n : (depthOf (CArray es) < S n)%nat → Forall (λ e, depthOf e < n)%nat es.
Proof.
  induction es as [|e es IH]; [by constructor|]. cbn [depthOf map foldr] in *. intros ?.
  constructor; [lia|]. apply IH. lia.
Qed.

Lemma depthOf_entries (m : Map) n : (depthOf (CMap m) < S n)%nat → Forall (λ kv, depthOf kv.2 < n)%nat m.
Proof.
  induction m as [|[k e] m IH]; [by constructor|]. cbn [depthOf map foldr] in *. intros ?.
  constructor; [cbn; lia|]. apply IH. lia.
Qed.

Lemma readValue_back v levels :
  wellFormed v = true → (depthOf v < levels)%nat → readsBack (readValue levels) v.
Proof.
  revert levels. induction v as [ |[]|u|i|d|t|bs|es IH|m IH] using value_ind;
    intros [|levels] Hwf Hd lbl c c' [|b] Hc Hb; (lia || (cbn in Hb; lia) || idtac);
    cbn [readValue uDataType headOf].
  all: try (cbn in Hc; subst c'; cbn [itemCount]; by rewrite Nat.sub_succ, Nat.sub_0_r).
  - cbn in Hc. subst c'. cbn in Hwf |- *. rewrite Nat.sub_0_r. unfold uint.
    destruct (Z.leb_spec u INT64_MAX); [lia|done].
  - cbn [itemCount] in Hb |- *. apply depthOf_elements in Hd. cbn [wellFormed] in Hwf.
    rewrite (readElements_back _ es [] c c' b); [done| |exact Hc|lia].
    apply Forall_forall. intros e He. rewrite Forall_forall in IH, Hd.
    apply IH; [done| |by apply Hd]. rewrite forallb_forall in Hwf. by apply Hwf, list_elem_of_In.
  - cbn [itemCount] in Hb |- *. apply depthOf_entries in Hd. apply wellFormed_map in Hwf as [Hs Hwf].
    rewrite (readEntries_back _ m [] c c' b); [done| |done| |exact Hc|lia].
    + rewrite Forall_forall in *. intros kv Hkv. apply IH; auto.
    + apply Forall_true. intros. constructor.
Qed.
End RoundTrip.

(** ** Scrubbing *)

(** The bytes of every text and byte string that is not a map key. *)
Fixpoint payload (v : CborValue) : list Z :=
  match v with
  | CText t => map (λ a, Z.of_N (Ascii.N_of_ascii a)) (String.list_ascii_of_string t)
  | CBytes b => b
  | CArray es => concat (map payload es)
  | CMap m => concat (map (λ '(_, e), payload e) m)
  | _ => []
  end.

(** What the scrub may not change: the tree, its keys and its scalars. *)
Fixpoint outline (v : CborValue) : CborValue :=
  match v with
  | CText _ => CText EmptyString
  | CBytes _ => CBytes []
  | CArray es => CArray (map outline es)
  | CMap m => CMap (map (λ '(key, e), (key, outline e)) m)
  | _ => v
  end.

Lemma payload_zeroText t : payload (CText (zeroText t)) = replicate (length (payload (CText t))) 0.
Proof.
  unfold zeroText. cbn [payload]. rewrite String.list_ascii_of_string_of_list_ascii, length_map.
  induction t as [|a t IH]; [done|]. cbn in *. by f_equal.
Qed.

Lemma payload_scrub v : payload (scrub v) = replicate (length (payload v)) 0.
Proof.
  induction v as [ |[]|u|i|d|t|bs|es IH|m IH] using value_ind; try done; cbn [scrub].
  - apply payload_zeroText.
  - cbn [payload]. induction IH as [|e es He _ IH']; [done|]. cbn. rewrite He, IH', length_app. by rewrite replicate_add.
  - cbn [payload]. induction IH as [|[k e] m He _ IH']; [done|]. cbn in *. rewrite He, IH', length_app. by rewrite replicate_add.
Qed.

Lemma outline_scrub v : outline (scrub v) = outline v.
Proof.
  induction v as [ |[]|u|i|d|t|bs|es IH|m IH] using value_ind; try done; cbn [scrub outline]; f_equal.
  - induction IH as [|e es He _ IH']; [done|]. cbn. by rewrite He, IH'.
  - induction IH as [|[k e] m He _ IH']; [done|]. cbn in *. by rewrite He, IH'.
Qed.

(** The first [n] items that a context delivers. *)
Fixpoint drain {ctx : Type} `{!Qcbor ctx} (n : nat) (c : ctx) : option (list QCBORItem * ctx) :=
  match n with
  | O => Some ([], c)
  | S n =>
      match GetNext c with
      | None => None
      | Some (item, c) =>
          match drain n c with
          | None => None
          | Some (items, c) => Some (item :: items, c)
          end
      end
  end.

Lemma drain_delivers {ctx : Type} `{!Qcbor ctx} n (c : ctx) items c' :
  drain n c = Some (items, c') → delivers c items c'.
Proof.
  revert c items. induction n as [|n IH]; intros c items; cbn; [by intros [= <- <-]|].
  destruct (GetNext c) as [[item c1]|] eqn:En; [|done]. destruct (drain n c1) as [[rest c2]|] eqn:E; [|done].
  intros [= <- <-]. cbn. exists c1. split; [done|by apply IH].
Qed.

(** ** A small CBOR

    Integers, strings, arrays and maps of the deterministic encoding, enough to
    evaluate the codec; floating-point calls fail. *)
Module Mini.

Fixpoint bigEndian (width : nat) (n : Z) : list Z :=
  match width with
  | O => []
  | S width => bigEndian width (n / 256) ++ [n mod 256]
  end.

Definition head (major n : Z) : list Z :=
  let initial extra := Z.lor (Z.shiftl major 5) extra in
  if n <? 24 then [initial n]
  else if n <? 2 ^ 8 then initial 24 :: bigEndian 1 n
  else if n <? 2 ^ 16 then initial 25 :: bigEndian 2 n
  else if n <? 2 ^ 32 then initial 26 :: bigEndian 4 n
  else initial 27 :: bigEndian 8 n.

Definition bytesOfText (s : string) : list Z :=
  map (λ a, Z.of_N (Ascii.N_of_ascii a)) (String.list_ascii_of_string s).
Definition textOfBytes (b : list Z) : string :=
  String.string_of_list_ascii (map (λ x, Ascii.ascii_of_N (Z.to_N x)) b).

(** The open containers, innermost first: the items so far and their bytes. The
    calls are read from the last to the first. *)
Definition add (bytes : list Z) (frames : list (Z * list Z)) : option (list (Z * list Z)) :=
  match frames with
  | (n, below) :: frames => Some ((n + 1, bytes ++ below) :: frames)
  | [] => None
  end.

Definition call (c : EncCall) (frames : list (Z * list Z)) : option (list (Z * list Z)) :=
  match c with
  | AddNULL => add [0xf6] frames
  | AddBool b => add [if b then 0xf5 else 0xf4] frames
  | AddUInt64 u => add (head 0 u) frames
  | AddInt64 i => add (if 0 <=? i then head 0 i else head 1 (-1 - i)) frames
  | AddText s => add (head 3 (zlen (bytesOfText s)) ++ bytesOfText s) frames
  | AddBytes b => add (head 2 (zlen b) ++ b) frames
  | CloseArray | CloseMap => Some ((0, []) :: frames)
  | OpenArray => match frames with (n, bytes) :: frames => add (head 4 n ++ bytes) frames | [] => None end
  | OpenMap => match frames with (n, bytes) :: frames => add (head 5 (n / 2) ++ bytes) frames | [] => None end
  | _ => None
  end.

Definition finish (calls : list EncCall) : option (list Z) :=
  match foldr (λ c fs, fs ≫= call c) (Some [(0, [])]) calls with
  | Some [(1, bytes)] => Some bytes
  | _ => None
  end.

Fixpoint number (acc : Z) (b : list Z) : Z :=
  match b with [] => acc | x :: b => number (acc * 256 + x) b end.

Definition readHead (b : list Z) : option (Z * Z * list Z) :=
  match b with
  | [] => None
  | x :: b =>
      let major := Z.shiftr x 5 in
      let extra := Z.land x 31 in
      if extra <? 24 then Some (major, extra, b)
      else
        let width := Z.to_nat (Z.shiftl 1 (extra - 24)) in
        if (extra <=? 27) && (width <=? length b)%nat then Some (major, number 0 (take width b), drop width b)
        else None
  end.

(** The containers being read: whether a map, and the entries still to come. *)
Record context := { rest : list Z; open : list (bool * nat) }.

Fixpoint settle (stack : list (bool * nat)) : list (bool * nat) :=
  match stack with (_, O) :: stack => settle stack | _ => stack end.

Definition readItem (b : list Z) : option (ItemType * list Z) :=
  '(major, n, b) ← readHead b;
  match major with
  | 0 => Some (if n <=? INT64_MAX then QINT64 n else QUINT64 n, b)
  | 1 => Some (QINT64 (-1 - n), b)
  | 2 => if n <=? zlen b then Some (QBYTES (take (Z.to_nat n) b), drop (Z.to_nat n) b) else None
  | 3 => if n <=? zlen b then Some (QTEXT (textOfBytes (take (Z.to_nat n) b)), drop (Z.to_nat n) b) else None
  | 4 => Some (QARRAY (Some (Z.to_nat n)), b)
  | 5 => Some (QMAP (Some (Z.to_nat n)), b)
  | 7 => Some (match n with 20 => QFALSE | 21 => QTRUE | 22 => QNULL | _ => QOTHER end, b)
  | _ => Some (QOTHER, b)
  end.

Definition enter (ty : ItemType) (stack : list (bool * nat)) : list (bool * nat) :=
  match ty with
  | QARRAY (Some n) => (false, n) :: stack
  | QMAP (Some n) => (true, n) :: stack
  | _ => stack
  end.

Definition getNext (c : context) : option (QCBORItem * context) :=
  match settle (open c) with
  | (true, S n) :: stack =>
      '(key, b) ← readItem (rest c);
      match key with
      | QTEXT key =>
          '(ty, b) ← readItem b;
          Some (mkItem ty (Some key), {| rest := b; open := enter ty ((true, n) :: stack) |})
      | _ => None
      end
  | (_, S n) :: stack =>
      '(ty, b) ← readItem (rest c);
      Some (mkItem ty None, {| rest := b; open := enter ty ((false, n) :: stack) |})
  | _ => None
  end.

#[global] Instance qcbor : Qcbor context := {|
  FinishGetSize calls := length <$> finish calls;
  Finish size calls := b ← finish calls; if (length b <=? size)%nat then Some b else None;
  DecodeInit b := {| rest := b; open := [(false, 1%nat)] |};
  GetNext := getNext;
  DecodeFinish c := match settle (open c), rest c with [], [] => true | _, _ => false end |}.

End Mini.

(** ** Properties *)

(** C19: what [decode] accepts is the canonical encoding of the value it returns,
    so no two byte strings decode to the same value; and the value's keys are
    distinct and sorted, its integers normalised, its nesting at most
    [kMaxCborDepth] and its items at most [kMaxCborItems]. *)
Theorem decode_canonical {ctx : Type} `{!Qcbor ctx} (bytes : list Z) (v : CborValue) :
  decode bytes = Ok v →
  encode v = bytes ∧ wellFormed v = true ∧
  (depthOf v ≤ kMaxCborDepth)%nat ∧ (itemCount v ≤ kMaxCborItems)%nat ∧
  (∀ bytes', decode bytes' = Ok v → bytes' = bytes).
Proof.
  assert (∀ b, decode b = Ok v → encode v = b ∧ wellFormed v = true ∧
    (depthOf v < S kMaxCborDepth)%nat ∧ (itemCount v ≤ kMaxCborItems)%nat) as Hgen.
  { intros b. unfold decode. destruct (GetNext _) as [[item c]|]; [|done].
    destruct (readValue _ item c _) as [[[w c'] b']|] eqn:E; [|done].
    apply readValue_sound in E as (? & ? & ?). destruct (DecodeFinish c'); [|done]. cbn [negb].
    case_bool_decide; [|done]. intros [= ->]. split_and!; done || lia. }
  intros H. pose proof (Hgen _ H) as (<- & ? & ? & ?). split_and!; [done..|lia|done|].
  intros b' Hb'. by destruct (Hgen _ Hb') as [<- _].
Qed.

Definition sampleValue : CborValue :=
  CMap (emplace "op" (CText "hello") (emplace "id" (uint 300)
    (emplace "data" (CArray [CBytes [1; 2; 255]; CInt (-7); CBool true; CNull; uint (2 ^ 63)]) []))).

Lemma decode_canonical_witness :
  decode (ctx := Mini.context) (encode (ctx := Mini.context) sampleValue) = Ok sampleValue ∧
  wellFormed sampleValue = true.
Proof.
  assert (decode (ctx := Mini.context) (encode (ctx := Mini.context) sampleValue) = Ok sampleValue) as H by by vm_compute.
  split; [exact H|]. destruct (decode_canonical _ _ H) as (_ & Hwf & _). exact Hwf.
Defined.

Lemma carried_decodes {ctx : Type} `{!Qcbor ctx} (v : CborValue) :
  wellFormed v = true → (depthOf v ≤ kMaxCborDepth)%nat → (itemCount v ≤ kMaxCborItems)%nat →
  carried (encodeValue v) → decode (encode v) = Ok v.
Proof.
  intros Hwf Hd Hn (items & size & bytes & c & Hitems & Hsize & Hbytes & Hdel & Hend).
  rewrite itemsOf_encodeValue in Hitems by done. injection Hitems as <-.
  assert (encode v = bytes) as Henc by (unfold encode; by rewrite Hsize, Hbytes).
  destruct Hdel as (c1 & Hnext & Hdel).
  unfold decode. rewrite Henc, Hnext, (readValue_back v (S kMaxCborDepth) Hwf ltac:(lia) _ _ _ _ Hdel Hn).
  rewrite Hend, Henc. cbn [negb]. by rewrite bool_decide_eq_true_2.
Qed.

(** A value within the caps, with normalised integers and sorted keys, decodes back
    to itself, if QCBOR carries the calls that encode it: the bytes it makes of them
    it reads back as the items they describe. *)
Theorem decode_encode {ctx : Type} `{!Qcbor ctx} (v : CborValue) :
  wellFormed v = true → (depthOf v ≤ kMaxCborDepth)%nat → (itemCount v ≤ kMaxCborItems)%nat →
  carried (encodeValue v) → decode (encode v) = Ok v.
Proof. apply carried_decodes. Qed.

Lemma decode_encode_witness :
  carried (ctx := Mini.context) (encodeValue sampleValue) ∧
  decode (ctx := Mini.context) (encode (ctx := Mini.context) sampleValue) = Ok sampleValue.
Proof.
  assert (carried (ctx := Mini.context) (encodeValue sampleValue)) as H.
  { eexists _, _, _, _. split; [vm_compute; reflexivity|]. split; [vm_compute; reflexivity|]. split; [vm_compute; reflexivity|].
    split; [apply (drain_delivers 9); vm_compute; reflexivity|vm_compute; reflexivity]. }
  split; [exact H|].
  apply (decode_encode sampleValue); [by vm_compute|by apply Nat.leb_le; vm_compute..|exact H].
Defined.

(** After [scrub] every text and byte string of the tree is zeros of its old
    length; the shape, the keys and the scalars are as they were. *)
Theorem scrub_erases (v : CborValue) :
  payload (scrub v) = replicate (length (payload v)) 0 ∧ outline (scrub v) = outline v.
Proof. split; [apply payload_scrub|apply outline_scrub]. Qed.

End Cbor.
