(* ===== verification/Vocabulary.v ===== *)
(** * The wire's closed vocabularies

    The enums of [include/LibreSCRS/Agent/wire/] and [include/LibreSCRS/Agent/]
    with their token conversions ([SyncError.cpp], [ReaderInterface.h],
    [KeyType.h]), and the taxonomies of [src/value/] that choose one of them for an
    outcome.

    The numeric enums ([ErrorCode], [OperationPhase], [OperationStatus],
    [PreReadAuth], [QuiesceReason]) are the integers of their underlying type: the
    decoders keep values no enumerator names. The text-token enums are inductive
    types. *)
From S2P Require Import Prelude.
Local Open Scope Z_scope.

Module Vocabulary.

(** ** Numeric enums *)

Module Err.
Abbreviation ErrorCode := Z (only parsing).
Definition None_ : ErrorCode := 0.
Definition CardRemoved : ErrorCode := 1.
Definition CredentialWrong : ErrorCode := 2.
Definition CredentialBlocked : ErrorCode := 3.
Definition CommunicationError : ErrorCode := 4.
Definition ParseError : ErrorCode := 5.
Definition UnsupportedCard : ErrorCode := 6.
Definition AuthFailed : ErrorCode := 7.
Definition PrompterError : ErrorCode := 8.
Definition CapabilityMissing : ErrorCode := 9.
Definition WatchdogTimeout : ErrorCode := 10.
Definition KeyNotFound : ErrorCode := 11.
Definition KeyAmbiguous : ErrorCode := 12.
Definition CertExpiredBlocked : ErrorCode := 13.
Definition ChainIncomplete : ErrorCode := 14.
Definition TsaUnreachable : ErrorCode := 15.
Definition SigningEngineError : ErrorCode := 16.
Definition RateLimited : ErrorCode := 17.
Definition EngineUnavailable : ErrorCode := 18.
Definition InvalidDocument : ErrorCode := 19.
Definition EntryExpired : ErrorCode := 20.
End Err.

Module Status.
Definition Ok_ : Z := 0.
Definition Cancelled : Z := 1.
Definition Error : Z := 2.
End Status.

(** ** Text-token enums *)

Module Sync.
Inductive SyncError :=
| UnknownCard | KeyNotFound | NotAuthorized | UserNotLoggedIn | UnknownConfigKey
| ReadOnlyConfig | InvalidConfigValue | UnsupportedProtocol | AuthFailed
| CommunicationError | NotSupported | UnsupportedOnThisCard
| UnsupportedSignatureParameter | InputTooLarge | RateLimited | UnknownCredential
| InvalidRequest | NoResult | MasterListReplayed | Cancelled.

#[global] Instance SyncError_eq_dec : EqDecision SyncError.
Proof. solve_decision. Defined.

Definition syncErrorName (e : SyncError) : string :=
  match e with
  | UnknownCard => "UnknownCard"
  | KeyNotFound => "KeyNotFound"
  | NotAuthorized => "NotAuthorized"
  | UserNotLoggedIn => "UserNotLoggedIn"
  | UnknownConfigKey => "UnknownConfigKey"
  | ReadOnlyConfig => "ReadOnlyConfig"
  | InvalidConfigValue => "InvalidConfigValue"
  | UnsupportedProtocol => "UnsupportedProtocol"
  | AuthFailed => "AuthFailed"
  | CommunicationError => "CommunicationError"
  | NotSupported => "NotSupported"
  | UnsupportedOnThisCard => "UnsupportedOnThisCard"
  | UnsupportedSignatureParameter => "UnsupportedSignatureParameter"
  | InputTooLarge => "InputTooLarge"
  | RateLimited => "RateLimited"
  | UnknownCredential => "UnknownCredential"
  | InvalidRequest => "InvalidRequest"
  | NoResult => "NoResult"
  | MasterListReplayed => "MasterListReplayed"
  | Cancelled => "Cancelled"
  end.

Definition kAll : list SyncError :=
  [UnknownCard; KeyNotFound; NotAuthorized; UserNotLoggedIn; UnknownConfigKey;
   ReadOnlyConfig; InvalidConfigValue; UnsupportedProtocol; AuthFailed;
   CommunicationError; NotSupported; UnsupportedOnThisCard;
   UnsupportedSignatureParameter; InputTooLarge; RateLimited; UnknownCredential;
   InvalidRequest; NoResult; MasterListReplayed; Cancelled].

Definition decodeSyncError (name : string) : SyncError :=
  match List.find (λ e, String.eqb (syncErrorName e) name) kAll with
  | Some e => e
  | None => CommunicationError
  end.
End Sync.

Module Cred.
Inductive CredentialOutcome :=
| Unspecified | Ok_ | UserCancelled | MissingFields | InvalidPin | Blocked
| PluginError | Unsupported | KeyActivationFailed | CardRemoved | EntryExpired.

#[global] Instance CredentialOutcome_eq_dec : EqDecision CredentialOutcome.
Proof. solve_decision. Defined.

Definition credOutcomeToken (o : CredentialOutcome) : string :=
  match o with
  | Unspecified => "unspecified"
  | Ok_ => "ok"
  | UserCancelled => "userCancelled"
  | MissingFields => "missingFields"
  | InvalidPin => "invalidPin"
  | Blocked => "blocked"
  | PluginError => "pluginError"
  | Unsupported => "unsupported"
  | KeyActivationFailed => "keyActivationFailed"
  | CardRemoved => "cardRemoved"
  | EntryExpired => "entryExpired"
  end.

Definition decodeCredOutcome (s : string) : CredentialOutcome :=
  if String.eqb s "unspecified" then Unspecified
  else if String.eqb s "ok" then Ok_
  else if String.eqb s "userCancelled" then UserCancelled
  else if String.eqb s "missingFields" then MissingFields
  else if String.eqb s "invalidPin" then InvalidPin
  else if String.eqb s "blocked" then Blocked
  else if String.eqb s "pluginError" then PluginError
  else if String.eqb s "unsupported" then Unsupported
  else if String.eqb s "keyActivationFailed" then KeyActivationFailed
  else if String.eqb s "cardRemoved" then CardRemoved
  else Unspecified.

(** [errorCodeFor(CredentialOutcome)]: the finish status and the error code. *)
Definition errorCodeFor (o : CredentialOutcome) : Z * Z :=
  match o with
  | Ok_ => (Status.Ok_, Err.None_)
  | UserCancelled => (Status.Cancelled, Err.None_)
  | Unspecified => (Status.Error, Err.CommunicationError)
  | MissingFields => (Status.Error, Err.PrompterError)
  | InvalidPin => (Status.Error, Err.CredentialWrong)
  | Blocked => (Status.Error, Err.CredentialBlocked)
  | PluginError => (Status.Error, Err.CommunicationError)
  | Unsupported => (Status.Error, Err.CapabilityMissing)
  | KeyActivationFailed => (Status.Error, Err.CommunicationError)
  | CardRemoved => (Status.Error, Err.CardRemoved)
  | EntryExpired => (Status.Error, Err.EntryExpired)
  end.
End Cred.

Module Iface.
Inductive ReaderInterface := Unknown | Contact | Contactless.

#[global] Instance ReaderInterface_eq_dec : EqDecision ReaderInterface.
Proof. solve_decision. Defined.

Definition readerInterfaceToken (i : ReaderInterface) : string :=
  match i with Unknown => "unknown" | Contact => "contact" | Contactless => "contactless" end.

Definition readerInterfaceFromToken (token : string) : option ReaderInterface :=
  List.find (λ i, String.eqb (readerInterfaceToken i) token) [Unknown; Contact; Contactless].
End Iface.

Module Key.
Inductive KeyType := Rsa | Ec | Other.

#[global] Instance KeyType_eq_dec : EqDecision KeyType.
Proof. solve_decision. Defined.

Definition keyTypeToken (t : KeyType) : string :=
  match t with Rsa => "RSA" | Ec => "EC" | Other => "OTHER" end.

Definition keyTypeFromToken (token : string) : KeyType :=
  if String.eqb token "RSA" then Rsa else if String.eqb token "EC" then Ec else Other.

Record NistCurve := mkCurve {
  keyBits : Z; fieldBytes : nat; crv : string; group : string; oidDer : list Z }.

Definition kP256OidDer : list Z := [0x06; 0x08; 0x2A; 0x86; 0x48; 0xCE; 0x3D; 0x03; 0x01; 0x07].
Definition kP384OidDer : list Z := [0x06; 0x05; 0x2B; 0x81; 0x04; 0x00; 0x22].
Definition kP521OidDer : list Z := [0x06; 0x05; 0x2B; 0x81; 0x04; 0x00; 0x23].

Definition kNistCurves : list NistCurve :=
  [mkCurve 256 32 "P-256" "prime256v1" kP256OidDer;
   mkCurve 384 48 "P-384" "secp384r1" kP384OidDer;
   mkCurve 521 66 "P-521" "secp521r1" kP521OidDer].

Definition nistCurveByBits (bits : Z) : option NistCurve :=
  List.find (λ c, keyBits c =? bits) kNistCurves.
Definition nistCurveByName (name : string) : option NistCurve :=
  List.find (λ c, String.eqb (crv c) name) kNistCurves.
Definition nistCurveByGroup (g : string) : option NistCurve :=
  List.find (λ c, String.eqb (group c) g) kNistCurves.
End Key.

(** ** Token round trips *)

Lemma decodeSyncError_name e : Sync.decodeSyncError (Sync.syncErrorName e) = e.
Proof. by destruct e. Qed.

Lemma decodeCredOutcome_token o : o ≠ Cred.EntryExpired → Cred.decodeCredOutcome (Cred.credOutcomeToken o) = o.
Proof. by destruct o. Qed.

Lemma readerInterface_token i : Iface.readerInterfaceFromToken (Iface.readerInterfaceToken i) = Some i.
Proof. by destruct i. Qed.

Lemma keyType_token t : Key.keyTypeFromToken (Key.keyTypeToken t) = t.
Proof. by destruct t. Qed.

(** The agent encodes a credential operation whose entry window expired as
    [entryExpired]; the client's decoder has no case for that token and reads it as
    [Unspecified], the one outcome that does not survive the trip. *)
Theorem entry_expired_is_lost (o : Cred.CredentialOutcome) :
  Cred.decodeCredOutcome (Cred.credOutcomeToken o) = (if decide (o = Cred.EntryExpired) then Cred.Unspecified else o).
Proof. by destruct o. Qed.

(** Any token that names no error reads as [CommunicationError]. *)
Lemma decodeSyncError_other (token : string) :
  token ∉ map Sync.syncErrorName Sync.kAll → Sync.decodeSyncError token = Sync.CommunicationError.
Proof.
  intros Hout. unfold Sync.decodeSyncError. destruct (List.find _ _) as [e|] eqn:E; [|done].
  apply List.find_some in E as [He Heq%String.eqb_eq]. destruct Hout. subst.
  apply list_elem_of_In, in_map, He.
Qed.

End Vocabulary.
