(* ===== verification/Caches.v ===== *)
(** * The caches and the credential records

    Models the three per-card caches of [src/cache/] and [value/CredentialRecord.h]. The
    credential cache ([CredentialCache.cpp]) keeps the CAN and MRZ of a card and the
    history of its prompts; the read cache ([CardReadCache.cpp]) keeps what was read from
    a card, for as long as it is used; the snapshot cache ([CredentialSnapshotCache.cpp])
    keeps the last listing of its PINs. Every method runs under its cache's mutex and is
    one function on the state; a reading of the clock is an argument. The buffers a cache
    gives back to the allocator are part of the state of the two that wipe them. *)
From Stdlib Require Import Ascii.
From stdpp Require Import gmap strings pretty.
From S2P Require Import Prelude Vocabulary.
Import Vocabulary.
Local Open Scope Z_scope.

(** A [Secure::String]. *)
Definition Secret := string.

(** ** The CAN and MRZ of a card, and its prompts *)
Module CredentialCache.

Inductive RefusalKind := Timeout | Cancelled.

#[export] Instance RefusalKind_eq_dec : EqDecision RefusalKind.
Proof. solve_decision. Defined.

Record Entry := mkEntry {
  can : option Secret; mrz : option Secret; lastPromptYieldedNothing : bool;
  refusalGeneration : Z; refusalKind : RefusalKind }.

(** A default-constructed entry, as [m_entries[cardKey]] makes it. *)
Definition emptyEntry : Entry := mkEntry None None false 0 Timeout.

Abbreviation Cache := (gmap string Entry).

Implicit Types (m : Cache) (k : string).

(** [m_entries[cardKey]], with what is done to it. *)
Definition onEntry (f : Entry → Entry) k m : Cache := <[k := f (default emptyEntry (m !! k))]> m.

Definition putCan k (v : Secret) m : Cache :=
  onEntry (λ e, mkEntry (Some v) (mrz e) (lastPromptYieldedNothing e) (refusalGeneration e) (refusalKind e)) k m.

Definition putMrz k (v : Secret) m : Cache :=
  onEntry (λ e, mkEntry (can e) (Some v) (lastPromptYieldedNothing e) (refusalGeneration e) (refusalKind e)) k m.

Definition getCan k m : option Secret := m !! k ≫= can.
Definition getMrz k m : option Secret := m !! k ≫= mrz.

Definition invalidate k m : Cache := delete k m.
Definition clear m : Cache := ∅.

Definition markCredentialWrong k m : Cache :=
  onEntry (λ e, mkEntry None None (lastPromptYieldedNothing e) (refusalGeneration e) (refusalKind e)) k m.

Definition lastPromptYieldedNothingFor k m : bool :=
  match m !! k with Some e => lastPromptYieldedNothing e | None => false end.

Definition noteLastPromptYieldedNothing k (yieldedNothing : bool) m : Cache :=
  let set e := mkEntry (can e) (mrz e) yieldedNothing (refusalGeneration e) (refusalKind e) in
  if negb yieldedNothing then match m !! k with Some e => <[k := set e]> m | None => m end
  else onEntry set k m.

Definition noteRefusal k (kind : RefusalKind) m : Cache :=
  onEntry (λ e, mkEntry (can e) (mrz e) (lastPromptYieldedNothing e) (u64 (refusalGeneration e + 1)) kind) k m.

Definition refusalGenerationFor k m : Z :=
  match m !! k with Some e => refusalGeneration e | None => 0 end.

Definition lastRefusalKindFor k m : RefusalKind :=
  match m !! k with Some e => refusalKind e | None => Timeout end.

(** ** The retry context of one operation ([AttemptContext]) *)
Record AttemptContext := mkAttempts {
  attempts : Z; lastErrorKey : string; generationAtDispatch : Z }.

Definition newAttempts (generation : Z) : AttemptContext := mkAttempts 0 EmptyString generation.

Definition recordRejection (msgKey : string) (a : AttemptContext) : AttemptContext :=
  mkAttempts (u32 (attempts a + 1)) msgKey (generationAtDispatch a).

Definition stillWantedFor k (a : option AttemptContext) m : bool :=
  match a with None => true | Some a => refusalGenerationFor k m <=? generationAtDispatch a end.

End CredentialCache.

(** ** What was read from a card *)
Module ReadCache.

Inductive FieldType := Text | Date | Binary | Photo.

Record FieldSnapshot := mkField {
  fs_fieldKey : string; fs_labelKey : string; fs_labelFallback : string; fs_type : FieldType;
  fs_textValue : string; fs_binaryValue : list Z }.

Record GroupSnapshot := mkGroup {
  gs_groupKey : string; gs_labelKey : string; gs_labelFallback : string; gs_fields : list FieldSnapshot }.

Record CardReadSnapshot := mkRead { crs_cardType : string; crs_groups : list GroupSnapshot }.

Record CertSnapshot := mkCert {
  certId : string; signingCapable : bool; keyUsageBits : Z; ekuOids : list string;
  chainSubjectCns : list string; trustStatus : Z; alwaysAuthenticate : bool; keyId : list Z;
  keyType : Key.KeyType; keyBits : Z; canDerive : bool; securityStatus : list string;
  certFields : list GroupSnapshot }.

(** A buffer the allocator gets back: the bytes it holds then. *)
Abbreviation Buffer := (list Z).

Definition bytes (s : string) : Buffer := map (λ c, Z.of_N (N_of_ascii c)) (String.list_ascii_of_string s).

(** [cleanse]: the buffer is zeroed before it goes. *)
Definition cleanse (b : Buffer) : Buffer := replicate (length b) 0.

(** The buffers of groups that [cleanseGroups] has gone over, when they are destroyed:
    the values are zeroed, keys and labels are not touched. *)
Definition cleanseGroups (groups : list GroupSnapshot) : list Buffer :=
  mjoin (map (λ g, [bytes (gs_groupKey g); bytes (gs_labelKey g); bytes (gs_labelFallback g)] ++
    mjoin (map (λ f, [bytes (fs_fieldKey f); bytes (fs_labelKey f); bytes (fs_labelFallback f);
      cleanse (bytes (fs_textValue f)); cleanse (fs_binaryValue f)]) (gs_fields g))) groups).

Record Entry := mkEntry {
  identity : option CardReadSnapshot; certs : option (list CertSnapshot); touchedAt : Z }.

(** [cleanseIdentity], [cleanseCerts]: the buffers each gives back. *)
Definition cleanseIdentity (e : Entry) : list Buffer :=
  match identity e with
  | None => []
  | Some s => bytes (crs_cardType s) :: cleanseGroups (crs_groups s)
  end.

Definition cleanseCerts (e : Entry) : list Buffer :=
  match certs e with
  | None => []
  | Some cs => mjoin (map (λ c, [cleanse (bytes (certId c))] ++ map (λ o, cleanse (bytes o)) (ekuOids c) ++
      map (λ o, cleanse (bytes o)) (chainSubjectCns c) ++ [keyId c] ++ map bytes (securityStatus c) ++
      cleanseGroups (certFields c)) cs)
  end.

Definition scrub (e : Entry) : list Buffer := cleanseIdentity e ++ cleanseCerts e.

(** The entries, and the buffers given back so far, latest first. *)
Record Cache := mkCache { entries : gmap string Entry; released : list Buffer }.

Definition emptyCache : Cache := mkCache ∅ [].

Definition release (bs : list Buffer) (c : Cache) : Cache := mkCache (entries c) (bs ++ released c).

(** [kNoIdleExpiry] is the largest duration. *)
Definition kNoIdleExpiry : Z := 2 ^ 63 - 1.

Section Window.
Context (m_idleWindow : Z).

Definition liveEntry (k : string) (now : Z) (c : Cache) : option Entry * Cache :=
  match entries c !! k with
  | None => (None, c)
  | Some e =>
      if negb (m_idleWindow =? kNoIdleExpiry) && (m_idleWindow <? now - touchedAt e)
      then (None, mkCache (delete k (entries c)) (scrub e ++ released c))
      else (Some e, c)
  end.

(** Each method reads the clock where [now] and [now'] stand. *)
Definition put (k : string) (s : CardReadSnapshot) (now : Z) (c : Cache) : Cache :=
  let e := default (mkEntry None None 0) (entries c !! k) in
  mkCache (<[k := mkEntry (Some s) (certs e) now]> (entries c)) (cleanseIdentity e ++ released c).

Definition putCertificates (k : string) (cs : list CertSnapshot) (now : Z) (c : Cache) : Cache :=
  let e := default (mkEntry None None 0) (entries c !! k) in
  mkCache (<[k := mkEntry (identity e) (Some cs) now]> (entries c)) (cleanseCerts e ++ released c).

(** [get] and [getCertificates], which differ in the half they look at. *)
Definition getHalf {A} (half : Entry → option A) (k : string) (now now' : Z) (c : Cache) : option A * Cache :=
  let '(e, c) := liveEntry k now c in
  match e with
  | None => (None, c)
  | Some e =>
      match half e with
      | None => (None, c)
      | Some v => (Some v, mkCache (<[k := mkEntry (identity e) (certs e) now']> (entries c)) (released c))
      end
  end.

Definition get : string → Z → Z → Cache → option CardReadSnapshot * Cache := getHalf identity.
Definition getCertificates : string → Z → Z → Cache → option (list CertSnapshot) * Cache := getHalf certs.

Definition invalidate (k : string) (c : Cache) : Cache :=
  match entries c !! k with
  | None => c
  | Some e => mkCache (delete k (entries c)) (scrub e ++ released c)
  end.

Definition clear (c : Cache) : Cache :=
  mkCache ∅ (mjoin (map (λ kv, scrub kv.2) (map_to_list (entries c))) ++ released c).

End Window.

End ReadCache.

(** ** The PINs of a card, as a client sees them *)
Module Records.

(** The enums of the card library that a record renders. *)
Inductive PinKind := KindUnknown | UserPin | SignPin | Puk | Can.
Inductive PinState := StateUnknown | Transport | Operational | NeedsChange | StateBlocked.
Inductive PinRecovery := RecoveryUnknown | HolderViaPuk | IssuerProcess | NoRecovery.
Inductive PINResultOutcome :=
| Unspecified | PinOk | UserCancelled | MissingFields | InvalidPin | Blocked | PluginError | Unsupported
| KeyActivationFailed.

(** [LocalizedText]. *)
Record LocalizedText := mkText { lt_key : string; lt_defaultText : string }.

(** [Plugin::PinStatusEntry], what a card plugin says of one PIN. *)
Record PinStatusEntry := mkPinStatus {
  ps_label : string; ps_kind : PinKind; ps_state : PinState; ps_reference : Z;
  ps_retriesLeft : option Z; ps_retriesMax : option Z; ps_usesLeft : option Z; ps_usesMax : option Z;
  ps_unblocksLeft : option Z; ps_minLength : option Z; ps_maxLength : option Z;
  ps_canChange : bool; ps_unblockable : bool; ps_activatable : bool; ps_keyActivationPending : bool;
  ps_keyActivatable : bool; ps_recovery : PinRecovery;
  ps_blockedGuidance : option LocalizedText; ps_keyActivationGuidance : option LocalizedText }.

Record CredentialRecord := mkRecord {
  id : string; label : string; kind : string; state : string;
  retriesLeft : option Z; retriesMax : option Z; usesLeft : option Z; usesMax : option Z;
  unblocksLeft : option Z; minLength : option Z; maxLength : option Z;
  canChange : bool; unblockable : bool; activatable : bool; keyActivationPending : bool;
  keyActivatable : bool; recovery : string;
  blockedGuidanceKey : option string; blockedGuidanceFallback : option string;
  keyActivationGuidanceKey : option string; keyActivationGuidanceFallback : option string }.

Record CredentialSnapshot := mkSnapshot {
  records : list CredentialRecord; version : Z; listPluginId : string }.

Definition credentialKindToken (k : PinKind) : string :=
  match k with
  | KindUnknown => "unknown" | UserPin => "user" | SignPin => "sign" | Puk => "puk" | Can => "can"
  end.

Definition credentialStateToken (s : PinState) : string :=
  match s with
  | StateUnknown => "unknown" | Transport => "transport" | Operational => "operational"
  | NeedsChange => "needsChange" | StateBlocked => "blocked"
  end.

Definition recoveryToken (r : PinRecovery) : string :=
  match r with
  | RecoveryUnknown => "unknown" | HolderViaPuk => "holderViaPuk" | IssuerProcess => "issuerProcess"
  | NoRecovery => "none"
  end.

(** The [std::overflow_error] is [None]. *)
Definition narrowLengthToInt (length : option Z) : option (option Z) :=
  match length with
  | None => Some None
  | Some l => if 2 ^ 31 - 1 <? l then None else Some (Some l)
  end.

Definition toCredentialOutcome (o : PINResultOutcome) : Cred.CredentialOutcome :=
  match o with
  | Unspecified => Cred.Unspecified | PinOk => Cred.Ok_ | UserCancelled => Cred.UserCancelled
  | MissingFields => Cred.MissingFields | InvalidPin => Cred.InvalidPin | Blocked => Cred.Blocked
  | PluginError => Cred.PluginError | Unsupported => Cred.Unsupported
  | KeyActivationFailed => Cred.KeyActivationFailed
  end.

(** [{:02x}] of a reference. *)
Definition hexDigit (n : N) : ascii := ascii_of_N (if (n <? 10)%N then 48 + n else 87 + n).

Fixpoint hexDigits (fuel : nat) (n : N) (acc : string) : string :=
  let acc := String (hexDigit (n mod 16)) acc in
  match fuel with
  | O => acc
  | S fuel => if (n / 16 =? 0)%N then acc else hexDigits fuel (n / 16) acc
  end.

Definition hex02 (n : Z) : string :=
  let s := hexDigits (N.to_nat (N.size (Z.to_N n))) (Z.to_N n) EmptyString in
  if (String.length s <? 2)%nat then String "0" s else s.

Definition toCredentialRecord (e : PinStatusEntry) : option CredentialRecord :=
  let kind := credentialKindToken (ps_kind e) in
  minLength ← narrowLengthToInt (ps_minLength e);
  maxLength ← narrowLengthToInt (ps_maxLength e);
  Some (mkRecord (kind +:+ ":0x" +:+ hex02 (ps_reference e)) (ps_label e) kind (credentialStateToken (ps_state e))
    (ps_retriesLeft e) (ps_retriesMax e) (ps_usesLeft e) (ps_usesMax e) (ps_unblocksLeft e) minLength maxLength
    (ps_canChange e) (ps_unblockable e) (ps_activatable e) (ps_keyActivationPending e) (ps_keyActivatable e)
    (recoveryToken (ps_recovery e))
    (lt_key <$> ps_blockedGuidance e) (lt_defaultText <$> ps_blockedGuidance e)
    (lt_key <$> ps_keyActivationGuidance e) (lt_defaultText <$> ps_keyActivationGuidance e)).

Definition setId (i : string) (r : CredentialRecord) : CredentialRecord :=
  mkRecord i (label r) (kind r) (state r) (retriesLeft r) (retriesMax r) (usesLeft r) (usesMax r)
    (unblocksLeft r) (minLength r) (maxLength r) (canChange r) (unblockable r) (activatable r)
    (keyActivationPending r) (keyActivatable r) (recovery r) (blockedGuidanceKey r) (blockedGuidanceFallback r)
    (keyActivationGuidanceKey r) (keyActivationGuidanceFallback r).

(** [++m[key]] on a map of counters. *)
Definition bump (key : string) (m : gmap string N) : gmap string N := <[key := (default 0 (m !! key) + 1)%N]> m.

Fixpoint suffixIds (population nextIndex : gmap string N) (rs : list CredentialRecord) : list CredentialRecord :=
  match rs with
  | [] => []
  | r :: rs =>
      if (default 0%N (population !! id r) <? 2)%N then r :: suffixIds population nextIndex rs
      else setId (id r +:+ ":" +:+ pretty (default 0%N (nextIndex !! id r))) r
             :: suffixIds population (bump (id r) nextIndex) rs
  end.

Definition disambiguateCredentialIds (rs : list CredentialRecord) : list CredentialRecord :=
  suffixIds (foldl (λ m r, bump (id r) m) ∅ rs) ∅ rs.

(** The string buffers of a record, all zeroed, when [cleanseRecord] has gone over it. *)
Definition cleanseRecord (r : CredentialRecord) : list ReadCache.Buffer :=
  map (λ s, ReadCache.cleanse (ReadCache.bytes s)) ([id r; label r; kind r; state r; recovery r] ++
    option_list (blockedGuidanceKey r) ++ option_list (blockedGuidanceFallback r) ++
    option_list (keyActivationGuidanceKey r) ++ option_list (keyActivationGuidanceFallback r)).

End Records.

(** ** The last listing of a card's PINs *)
Module SnapshotCache.
Import Records.

Record Entry := mkEntry { snapshot : CredentialSnapshot; touchedAt : Z }.

Record Cache := mkCache {
  entries : gmap string Entry; m_nextVersion : Z; released : list ReadCache.Buffer }.

Definition emptyCache : Cache := mkCache ∅ 1 [].

(** The buffers [scrub] gives back; the plugin's id is not card data. *)
Definition scrub (e : Entry) : list ReadCache.Buffer := mjoin (map cleanseRecord (records (snapshot e))).

Section Window.
Context (m_idleWindow : Z).

Definition liveEntry (k : string) (now : Z) (c : Cache) : option Entry * Cache :=
  match entries c !! k with
  | None => (None, c)
  | Some e =>
      if m_idleWindow <? now - touchedAt e
      then (None, mkCache (delete k (entries c)) (m_nextVersion c) (scrub e ++ released c))
      else (Some e, c)
  end.

Definition put (k : string) (s : CredentialSnapshot) (now : Z) (c : Cache) : Z * Cache :=
  let version := m_nextVersion c in
  let old := match entries c !! k with Some e => scrub e | None => [] end in
  (version, mkCache (<[k := mkEntry (mkSnapshot (records s) version (listPluginId s)) now]> (entries c))
              (u64 (m_nextVersion c + 1)) (old ++ released c)).

Definition get (k : string) (now now' : Z) (c : Cache) : option CredentialSnapshot * Cache :=
  let '(e, c) := liveEntry k now c in
  match e with
  | None => (None, c)
  | Some e => (Some (snapshot e), mkCache (<[k := mkEntry (snapshot e) now']> (entries c)) (m_nextVersion c) (released c))
  end.

Definition invalidate (k : string) (c : Cache) : Cache :=
  match entries c !! k with
  | None => c
  | Some e => mkCache (delete k (entries c)) (m_nextVersion c) (scrub e ++ released c)
  end.

Definition clear (c : Cache) : Cache :=
  mkCache ∅ (m_nextVersion c) (mjoin (map (λ kv, scrub kv.2) (map_to_list (entries c))) ++ released c).

End Window.

(** [clearFullScrubCaches]: what a sleep or a switch of users drops. *)
Definition clearFullScrubCaches (credentials : CredentialCache.Cache) (c : Cache) : CredentialCache.Cache * Cache :=
  (CredentialCache.clear credentials, clear c).

End SnapshotCache.

(** ** The ids of a listing are distinct *)
Module RecordsFacts.
Import Records.

Definition colons (s : string) : nat := length (List.filter (Ascii.eqb ":") (String.list_ascii_of_string s)).

Lemma colons_app s t : colons (s +:+ t) = (colons s + colons t)%nat.
Proof.
  unfold colons. induction s as [|c s IH]; [done|].
  change (String c s +:+ t) with (String c (s +:+ t)). cbn -[Ascii.eqb]. destruct (Ascii.eqb ":" c); cbn; lia.
Qed.

Lemma colons_cons c s : colons (String c s) = ((if Ascii.eqb ":" c then 1 else 0) + colons s)%nat.
Proof. unfold colons. cbn -[Ascii.eqb]. by destruct (Ascii.eqb ":" c). Qed.

Lemma colons_sep s x : colons (s +:+ ":" +:+ x) = S (colons s + colons x).
Proof. rewrite colons_app. change (":" +:+ x) with (String ":" x). rewrite colons_cons. cbn [Ascii.eqb Bool.eqb]. lia. Qed.

(** Text in which no colon occurs can be split off at the last colon. *)
Lemma last_colon s t x y : colons x = 0%nat → colons y = 0%nat →
  s +:+ ":" +:+ x = t +:+ ":" +:+ y → s = t ∧ x = y.
Proof.
  intros Hx Hy. revert t. induction s as [|c s IH]; intros [|d t]; cbn.
  - intros [= E]. by split.
  - intros [= _ E]. assert (E' : colons x = colons (t +:+ ":" +:+ y)) by (f_equal; exact E). rewrite colons_sep in E'. lia.
  - intros [= _ E]. assert (E' : colons (s +:+ ":" +:+ x) = colons y) by (f_equal; exact E). rewrite colons_sep in E'. lia.
  - intros [= -> E]. by destruct (IH t E) as [-> ->].
Qed.

Lemma hexDigit_colon n : (n < 16)%N → Ascii.eqb ":" (hexDigit n) = false.
Proof.
  intros Hn. assert (Hall : forallb (λ n, negb (Ascii.eqb ":" (hexDigit n))) (map N.of_nat (seq 0 16)) = true)
    by reflexivity.
  rewrite forallb_forall in Hall. apply negb_true_iff, Hall, in_map_iff. exists (N.to_nat n).
  split; [lia | apply in_seq; lia].
Qed.

Lemma hexDigits_colons fuel n acc : colons (hexDigits fuel n acc) = colons acc.
Proof.
  revert n acc. induction fuel as [|fuel IH]; intros n acc; cbn [hexDigits];
    [|destruct (n / 16 =? 0)%N; [|rewrite IH]];
    rewrite colons_cons, hexDigit_colon by (apply N.mod_lt; lia); done.
Qed.

Lemma hex02_colons n : colons (hex02 n) = 0%nat.
Proof. unfold hex02. destruct (_ <? _)%nat; [rewrite colons_cons; cbn [Ascii.eqb]|]; by rewrite hexDigits_colons. Qed.

Lemma pretty_colons (n : N) : colons (pretty n) = 0%nat.
Proof.
  unfold pretty, pretty_N. case_decide as Hn; [done|].
  cut (∀ s, colons (pretty_N_go n s) = colons s); [intros ->; done|].
  clear Hn. induction (N.lt_wf_0 n) as [n _ IH]. intros s.
  destruct (decide (n = 0)%N) as [->|Hn]; [done|].
  rewrite pretty_N_go_step, IH, colons_cons by (lia || (apply N.div_lt; lia)).
  assert (Hm : (n `mod` 10 < 10)%N) by (apply N.mod_lt; lia). destruct (n `mod` 10)%N as [|p]; [done|].
  do 4 (destruct p as [p|p|]; try done; try lia).
Qed.

(** The ids are "kind:reference", with one colon. *)
Lemma record_colons e r : toCredentialRecord e = Some r → colons (id r) = 1%nat.
Proof.
  unfold toCredentialRecord. intros (?&_&(?&_&[= <-])%bind_Some)%bind_Some. cbn [id]. rewrite colons_app. change (":0x" +:+ ?s) with (":" +:+ "0x" +:+ s).
  rewrite !colons_app, hex02_colons. by destruct (ps_kind e).
Qed.

Lemma bump_lookup x y m : default 0%N (bump x m !! y) = (default 0 (m !! y) + if decide (x = y) then 1 else 0)%N.
Proof. unfold bump. case_decide as E; [subst; rewrite lookup_insert_eq | rewrite lookup_insert_ne by done]; cbn; lia. Qed.

(** The first loop counts the records of each id. *)
Lemma population_lookup rs m x : (default 0 (foldl (λ m r, bump (id r) m) m rs !! x) =
  default 0 (m !! x) + N.of_nat (length (filter (λ r, id r = x) rs)))%N.
Proof.
  revert m. induction rs as [|r rs IH]; intros m; cbn [foldl]; [rewrite filter_nil; cbn; lia|].
  rewrite IH, bump_lookup, filter_cons. repeat case_decide; try done; cbn [length]; lia.
Qed.

Section Suffix.
Context (population : gmap string N).

Definition bareOk (rs : list CredentialRecord) : Prop := ∀ x,
  (N.of_nat (length (filter (λ r, id r = x) rs)) ≤ default 0 (population !! x))%N.

(** An id of the result: bare where it is the only one, numbered from the index where not. *)
Lemma suffixIds_id next rs y : y ∈ map id (suffixIds population next rs) → ∃ x, x ∈ map id rs ∧
  ((default 0 (population !! x) < 2)%N ∧ y = x ∨
   ∃ n : N, (default 0 (next !! x) ≤ n ∧ 2 ≤ default 0 (population !! x))%N ∧ y = x +:+ ":" +:+ pretty n).
Proof.
  revert next. induction rs as [|r rs IH]; intros next; cbn [suffixIds]; [intros []%elem_of_nil|].
  destruct (N.ltb_spec (default 0 (population !! id r)) 2)%N as [Hp|Hp]; cbn [map]; rewrite elem_of_cons;
    intros [->|Hy].
  - exists (id r). split; [by left | by left].
  - destruct (IH _ Hy) as (x&?&?). exists x. split; [by right | done].
  - exists (id r). split; [by left|]. right. eexists. by split.
  - destruct (IH _ Hy) as (x&?&[[??]|(n&[Hn ?]&?)]); exists x; (split; [by right|]); [by left|]. right. exists n.
    rewrite bump_lookup in Hn. split; [split; [case_decide|]|]; lia || done.
Qed.

Lemma suffixIds_unique next rs : bareOk rs → Forall (λ r, colons (id r) = 1%nat) rs →
  NoDup (map id (suffixIds population next rs)).
Proof.
  revert next. induction rs as [|r rs IH]; intros next Hpop Hc; [constructor|].
  apply Forall_cons in Hc as [Hr Hc]. assert (Hpop' : bareOk rs).
  { intros x. specialize (Hpop x). rewrite filter_cons in Hpop. case_decide; cbn in *; lia. }
  assert (Hone : ∀ x, x ∈ map id rs → colons x = 1%nat).
  { intros x (r'&->&Hr')%list_elem_of_fmap. by eapply Forall_forall in Hc. }
  cbn [suffixIds]. destruct (N.ltb_spec (default 0 (population !! id r)) 2)%N as [Hp|Hp]; cbn [map id setId];
    (constructor; [|by apply IH]); intros (x&Hx&[[? E]|(n&[Hn ?]&E)])%suffixIds_id.
  - subst x. specialize (Hpop (id r)). rewrite filter_cons_True in Hpop by done. cbn [length] in Hpop.
    apply list_elem_of_fmap in Hx as (r'&Er&Hr'). assert (Hin : r' ∈ filter (λ r0, id r0 = id r) rs)
      by (apply list_elem_of_filter; done).
    destruct (filter _ rs); [by apply elem_of_nil in Hin | cbn in *; lia].
  - apply (f_equal colons) in E. rewrite colons_sep, Hr, (Hone x Hx), pretty_colons in E. lia.
  - apply (f_equal colons) in E. rewrite colons_sep, Hr, (Hone x Hx), pretty_colons in E. lia.
  - apply last_colon in E as [<- E]; [|apply pretty_colons..]. apply (inj pretty) in E as <-.
    rewrite bump_lookup in Hn. case_decide; [lia | done].
Qed.

End Suffix.

(** The records of a listing have different ids, whatever kinds and references the
    plugin reports, and disambiguation changes nothing but ids. *)
Theorem credential_ids_unique entries rs : mapM toCredentialRecord entries = Some rs →
  NoDup (map id (disambiguateCredentialIds rs)) ∧
  map (setId EmptyString) (disambiguateCredentialIds rs) = map (setId EmptyString) rs.
Proof.
  intros Hrs. split.
  - apply suffixIds_unique; [intros x; rewrite population_lookup; cbn; lia|].
    apply mapM_Some in Hrs. induction Hrs as [|e r es rs Hr _ IH]; constructor; [by eapply record_colons | done].
  - unfold disambiguateCredentialIds. generalize (foldl (λ m r, bump (id r) m) ∅ rs). intros p.
    generalize (∅ : gmap string N). clear. induction rs as [|r rs IH]; intros m; [done|]. cbn [suffixIds]. destruct (_ <? _)%N; cbn; by rewrite IH.
Qed.

Definition samplePin (label : string) (kind : PinKind) (reference : Z) : PinStatusEntry :=
  mkPinStatus label kind Operational reference (Some 3) (Some 3) None None None (Some 4) (Some 8) true false false
    false false HolderViaPuk None None.

Lemma credential_ids_unique_witness :
  ∃ rs, mapM toCredentialRecord [samplePin "PIN" KindUnknown 0; samplePin "Sign" SignPin 0x92; samplePin "PUK" KindUnknown 0] = Some rs ∧
    map id (disambiguateCredentialIds rs) = ["unknown:0x00:0"; "sign:0x92"; "unknown:0x00:1"] ∧
    NoDup (map id (disambiguateCredentialIds rs)).
Proof.
  eexists. split; [reflexivity|]. split; [vm_compute; reflexivity|].
  refine (proj1 (credential_ids_unique [samplePin "PIN" KindUnknown 0; samplePin "Sign" SignPin 0x92; samplePin "PUK" KindUnknown 0] _ _)).
  reflexivity.
Defined.

End RecordsFacts.

(** ** What the read cache serves, and what it leaves in memory *)
Module ReadCacheFacts.
Import ReadCache.

(** The calls made on the cache, with the times its clock showed. *)
Inductive Op :=
| OPut (k : string) (s : CardReadSnapshot) (now : Z)
| OPutCerts (k : string) (cs : list CertSnapshot) (now : Z)
| OGet (k : string) (now now' : Z)
| OGetCerts (k : string) (now now' : Z)
| OInvalidate (k : string)
| OClear.

(** The last identity and certificates put for a card, and not dropped by a call since;
    a history has its latest call first. *)
Fixpoint lastPut (k : string) (h : list Op) : option CardReadSnapshot :=
  match h with
  | [] => None
  | OPut k' s _ :: h => if decide (k' = k) then Some s else lastPut k h
  | OInvalidate k' :: h => if decide (k' = k) then None else lastPut k h
  | OClear :: _ => None
  | _ :: h => lastPut k h
  end.

Fixpoint lastPutCerts (k : string) (h : list Op) : option (list CertSnapshot) :=
  match h with
  | [] => None
  | OPutCerts k' cs _ :: h => if decide (k' = k) then Some cs else lastPutCerts k h
  | OInvalidate k' :: h => if decide (k' = k) then None else lastPutCerts k h
  | OClear :: _ => None
  | _ :: h => lastPutCerts k h
  end.

(** The calls that use a card's entry, and when. *)
Definition usedAt (k : string) (t : Z) (op : Op) : Prop :=
  match op with
  | OPut k' _ now | OPutCerts k' _ now => k' = k ∧ now = t
  | OGet k' _ now' | OGetCerts k' _ now' => k' = k ∧ now' = t
  | _ => False
  end.

Section Window.
Context (window : Z).

Definition step (op : Op) (c : Cache) : Cache :=
  match op with
  | OPut k s now => put k s now c
  | OPutCerts k cs now => putCertificates k cs now c
  | OGet k now now' => (get window k now now' c).2
  | OGetCerts k now now' => (getCertificates window k now now' c).2
  | OInvalidate k => invalidate k c
  | OClear => clear c
  end.

Definition after (h : list Op) : Cache := foldr step emptyCache h.

(** The entry of a card, and the empty one of a card without. *)
Definition entryOf (k : string) (c : Cache) : Entry := default (mkEntry None None 0) (entries c !! k).

(** What the cache has, of what was put last: all of it, or nothing once it could expire. *)
Definition shows {A} (got last : option A) : Prop := got = last ∨ got = None ∧ window ≠ kNoIdleExpiry.

(** Every entry shows what was put last, and was used when its time says. *)
Definition explained (h : list Op) (c : Cache) : Prop := ∀ k,
  shows (identity (entryOf k c)) (lastPut k h) ∧ shows (certs (entryOf k c)) (lastPutCerts k h) ∧
  (entries c !! k = None ∨ Exists (usedAt k (touchedAt (entryOf k c))) h).

Lemma entryOf_insert k k' e es r :
  entryOf k' (mkCache (<[k := e]> es) r) = if decide (k = k') then e else entryOf k' (mkCache es r).
Proof. unfold entryOf. cbn. case_decide; [subst; by rewrite lookup_insert_eq | by rewrite lookup_insert_ne]. Qed.

Lemma entryOf_delete k k' es r :
  entryOf k' (mkCache (delete k es) r) = if decide (k = k') then mkEntry None None 0 else entryOf k' (mkCache es r).
Proof. unfold entryOf. cbn. case_decide; [subst; by rewrite lookup_delete_eq | by rewrite lookup_delete_ne]. Qed.

Lemma liveEntry_spec k now c : 
  (liveEntry window k now c = (Some (entryOf k c), c) ∧ entries c !! k = Some (entryOf k c) ∧
     (window ≠ kNoIdleExpiry → now - touchedAt (entryOf k c) ≤ window)) ∨
  (liveEntry window k now c = (None, c) ∧ entryOf k c = mkEntry None None 0) ∨
  (liveEntry window k now c = (None, mkCache (delete k (entries c)) (scrub (entryOf k c) ++ released c)) ∧
     window ≠ kNoIdleExpiry).
Proof.
  unfold liveEntry, entryOf. destruct (entries c !! k) as [e|] eqn:He; [|by right; left].
  destruct (_ && _)%bool eqn:Hw; bool_hyps; [by right; right | left]; cbn.
  split_and!; [done..|]. intros Hne. apply andb_false_iff in Hw as [Hw|Hw]; bool_hyps; lia.
Qed.

(** A call that puts nothing and drops at most what has expired. *)
Lemma explained_mono op h c c' :
  (∀ k, lastPut k (op :: h) = lastPut k h) → (∀ k, lastPutCerts k (op :: h) = lastPutCerts k h) →
  (∀ k, identity (entryOf k c') = identity (entryOf k c) ∧ certs (entryOf k c') = certs (entryOf k c) ∧
     (entries c' !! k = entries c !! k ∨ usedAt k (touchedAt (entryOf k c')) op) ∨
     entries c' !! k = None ∧ window ≠ kNoIdleExpiry) →
  explained h c → explained (op :: h) c'.
Proof.
  intros E1 E2 Hk Hc k. rewrite E1, E2. destruct (Hc k) as (H1&H2&H3).
  destruct (Hk k) as [(E3&E4&E5)|[E3 Hw]].
  - rewrite E3, E4. split_and!; [done..|]. destruct E5 as [E5|E5]; [|right; by left].
    rewrite E5. destruct H3 as [H3|H3]; [by left|]. right. right. unfold entryOf in *. by rewrite E5.
  - unfold entryOf. rewrite E3. split_and!; [by right..|by left].
Qed.

Lemma explained_getHalf {A} (half : Entry → option A) op k now now' h c :
  (∀ k, lastPut k (op :: h) = lastPut k h) → (∀ k, lastPutCerts k (op :: h) = lastPutCerts k h) →
  usedAt k now' op → explained h c → explained (op :: h) (getHalf window half k now now' c).2.
Proof.
  intros E1 E2 Hu. apply explained_mono; [done..|]. intros k'. unfold getHalf.
  destruct (liveEntry_spec k now c) as [(->&He&_)|[[-> He]|(->&Hw)]]; [|by left; auto|].
  - destruct (half _); [|by left; auto]. left. cbn. rewrite entryOf_insert. case_decide as Hk; [subst|].
    + split_and!; [done..|]. by right.
    + split_and!; [done..|]. left. by rewrite lookup_insert_ne.
  - cbn. rewrite entryOf_delete. case_decide as Hk; [subst; right; by rewrite lookup_delete_eq | left].
    rewrite lookup_delete_ne by done. auto.
Qed.

Lemma explained_insert op k e r h c :
  (∀ k', k' ≠ k → lastPut k' (op :: h) = lastPut k' h) → (∀ k', k' ≠ k → lastPutCerts k' (op :: h) = lastPutCerts k' h) →
  shows (identity e) (lastPut k (op :: h)) → shows (certs e) (lastPutCerts k (op :: h)) → usedAt k (touchedAt e) op →
  explained h c → explained (op :: h) (mkCache (<[k := e]> (entries c)) r).
Proof.
  intros E1 E2 H1 H2 Hu Hc k'. rewrite entryOf_insert. cbn [entries]. case_decide as Hk; [subst|].
  - split_and!; [done..|]. right. by left.
  - rewrite E1, E2, lookup_insert_ne by done. destruct (Hc k') as (?&?&H3). split_and!; [done..|].
    destruct H3; [by left | right; by right].
Qed.

Lemma explained_drop op (gone : string → bool) h c c' :
  (∀ k, lastPut k (op :: h) = if gone k then None else lastPut k h) →
  (∀ k, lastPutCerts k (op :: h) = if gone k then None else lastPutCerts k h) →
  (∀ k, entries c' !! k = if gone k then None else entries c !! k) →
  explained h c → explained (op :: h) c'.
Proof.
  intros E1 E2 E3 Hc k. unfold entryOf. rewrite E1, E2, E3. destruct (gone k); [cbn; split_and!; by left|].
  destruct (Hc k) as (?&?&H3). split_and!; [done..|]. destruct H3; [by left | right; by right].
Qed.

Lemma after_explained h : explained h (after h).
Proof.
  induction h as [|op h IH]; [intros k; split_and!; by left|]. cbn [after foldr]. change (foldr step emptyCache h) with (after h).
  destruct op as [k s now|k cs now|k now now'|k now now'|k|]; cbn [step].
  - destruct (IH k) as (_&?&_). apply explained_insert; [..|by apply IH]; intros; cbn; try case_decide; try done; by left.
  - destruct (IH k) as (?&_&_). apply explained_insert; [..|by apply IH]; intros; cbn; try case_decide; try done; by left.
  - by apply explained_getHalf.
  - by apply explained_getHalf.
  - apply (explained_drop _ (λ k', bool_decide (k = k')) _ (after h)); [..|done]; intros k'; cbn.
    1, 2: case_decide; case_bool_decide; done.
    unfold invalidate. destruct (entries (after h) !! k) eqn:He; case_bool_decide; cbn; subst;
      by rewrite ?lookup_delete_eq, ?lookup_delete_ne.
  - by apply (explained_drop _ (λ k', true) _ (after h)).
Qed.

(** The cache serves, for a card, what was last put for that card and has not been
    dropped since, and nothing else; only while its entry was used within the idle window;
    and always where expiry is off, as in production. *)
Theorem read_cache_exact h k now now' :
  let got := (get window k now now' (after h)).1 in
  let gotCerts := (getCertificates window k now now' (after h)).1 in
  shows got (lastPut k h) ∧ shows gotCerts (lastPutCerts k h) ∧
  (window ≠ kNoIdleExpiry → is_Some got ∨ is_Some gotCerts → Exists (λ op, ∃ t, usedAt k t op ∧ now - t ≤ window) h).
Proof.
  destruct (after_explained h k) as (H1&H2&H3). unfold get, getCertificates, getHalf.
  destruct (liveEntry_spec k now (after h)) as [(->&He&Hw)|[[-> He]|(->&Hw)]].
  - split_and!; [by destruct (identity (entryOf k (after h))) | by destruct (certs (entryOf k (after h))) |].
    intros Hne _. destruct H3 as [H3|H3]; [congruence|]. eapply Exists_impl; [exact H3|]. cbn. eauto.
  - rewrite He in H1, H2. cbn. split_and!; [done..|]. by intros _ [[]|[]].
  - cbn. split_and!; [by right..|]. by intros _ [[]|[]].
Qed.

End Window.
Definition sampleRead : CardReadSnapshot :=
  mkRead "eid" [mkGroup "personal" "g" "Personal" [mkField "name" "n" "Name" Text "ANA" []]].

Lemma read_cache_exact_witness :
  (get 300 "card" 200 201 (after 300 [OPut "card" sampleRead 10])).1 = Some sampleRead ∧
  Exists (λ op, ∃ t, usedAt "card" t op ∧ 200 - t ≤ 300) [OPut "card" sampleRead 10].
Proof.
  split; [reflexivity|].
  refine (proj2 (proj2 (read_cache_exact 300 [OPut "card" sampleRead 10] "card" 200 201)) _ _); [done|].
  left. by eexists.
Defined.

(** The same values with every text and byte string replaced by zeros of its length. *)
Definition blindText (s : string) : string := String.string_of_list_ascii (replicate (String.length s) Ascii.zero).
Definition blindField (f : FieldSnapshot) : FieldSnapshot :=
  mkField (fs_fieldKey f) (fs_labelKey f) (fs_labelFallback f) (fs_type f) (blindText (fs_textValue f))
    (replicate (length (fs_binaryValue f)) 0).
Definition blindGroup (g : GroupSnapshot) : GroupSnapshot :=
  mkGroup (gs_groupKey g) (gs_labelKey g) (gs_labelFallback g) (map blindField (gs_fields g)).
Definition blindRead (s : CardReadSnapshot) : CardReadSnapshot := mkRead (crs_cardType s) (map blindGroup (crs_groups s)).
Definition blindCert (c : CertSnapshot) : CertSnapshot :=
  mkCert (blindText (certId c)) (signingCapable c) (keyUsageBits c) (map blindText (ekuOids c))
    (map blindText (chainSubjectCns c)) (trustStatus c) (alwaysAuthenticate c) (keyId c) (keyType c) (keyBits c)
    (canDerive c) (securityStatus c) (map blindGroup (certFields c)).
Definition blindOp (op : Op) : Op :=
  match op with
  | OPut k s now => OPut k (blindRead s) now
  | OPutCerts k cs now => OPutCerts k (map blindCert cs) now
  | _ => op
  end.
Definition blindEntry (e : Entry) : Entry :=
  mkEntry (blindRead <$> identity e) (map blindCert <$> certs e) (touchedAt e).

Lemma cleanse_blindText s : cleanse (bytes (blindText s)) = cleanse (bytes s).
Proof.
  unfold cleanse, bytes, blindText. rewrite !length_map, String.list_ascii_of_string_of_list_ascii, length_replicate.
  f_equal. by induction s as [|c s IH]; [|cbn; rewrite IH].
Qed.

Lemma cleanseGroups_blind gs : cleanseGroups (map blindGroup gs) = cleanseGroups gs.
Proof.
  unfold cleanseGroups. rewrite map_map. f_equal. apply map_ext. intros g. cbn -[cleanse bytes blindText]. rewrite map_map. do 4 f_equal.
  apply map_ext. intros f. cbn -[cleanse bytes blindText]. rewrite cleanse_blindText. do 5 f_equal.
  unfold cleanse. by rewrite length_replicate.
Qed.

Lemma cleanseIdentity_blind e : cleanseIdentity (blindEntry e) = cleanseIdentity e.
Proof. unfold cleanseIdentity. destruct e as [[s|] cs t]; [|done]. cbn -[cleanseGroups bytes]. by rewrite cleanseGroups_blind. Qed.

Lemma cleanseCerts_blind e : cleanseCerts (blindEntry e) = cleanseCerts e.
Proof.
  unfold cleanseCerts. destruct e as [s [cs|] t]; [|done]. cbn -[cleanse cleanseGroups bytes blindText]. rewrite map_map. f_equal. apply map_ext.
  intros c. cbn -[cleanse cleanseGroups bytes blindText]. rewrite !map_map, cleanse_blindText, cleanseGroups_blind. do 2 f_equal.
  - apply map_ext, cleanse_blindText.
  - f_equal. apply map_ext, cleanse_blindText.
Qed.

Lemma scrub_blind e : scrub (blindEntry e) = scrub e.
Proof. unfold scrub. by rewrite cleanseIdentity_blind, cleanseCerts_blind. Qed.

(** Two caches alike but for the values read: one memory given back, one set of entries. *)
Definition alike (c c' : Cache) : Prop :=
  entries c' = blindEntry <$> entries c ∧ released c' ≡ₚ released c.

Lemma alike_getHalf {A} window (half : Entry → option A) k now now' c c' :
  (∀ e, is_Some (half (blindEntry e)) ↔ is_Some (half e)) → alike c c' →
  alike (getHalf window half k now now' c).2 (getHalf window half k now now' c').2.
Proof.
  intros Hh [E R]. unfold getHalf, liveEntry. rewrite E, lookup_fmap.
  destruct (entries c !! k) as [e|] eqn:He; cbn; [|by split]. destruct (_ && _)%bool; cbn.
  - split; cbn; [by rewrite ?E, fmap_delete | by rewrite scrub_blind, R].
  - specialize (Hh e). destruct (half (blindEntry e)), (half e); cbn; try by split.
    + split; cbn; [by rewrite ?E, fmap_insert | done].
    + by destruct (proj1 Hh (mk_is_Some _ _ eq_refl)).
    + by destruct (proj2 Hh (mk_is_Some _ _ eq_refl)).
Qed.

Lemma alike_default k c c' : alike c c' →
  default (mkEntry None None 0) (entries c' !! k) = blindEntry (default (mkEntry None None 0) (entries c !! k)).
Proof. intros [-> _]. rewrite lookup_fmap. by destruct (entries c !! k). Qed.

Lemma alike_step window op c c' : alike c c' → alike (step window op c) (step window (blindOp op) c').
Proof.
  intros Hc. destruct op as [k s now|k cs now|k now now'|k now now'|k|]; cbn [step blindOp].
  - unfold put. rewrite (alike_default k _ _ Hc). destruct Hc as [E R].
    split; cbn; [by rewrite ?E, fmap_insert | by rewrite cleanseIdentity_blind, R].
  - unfold putCertificates. rewrite (alike_default k _ _ Hc). destruct Hc as [E R].
    split; cbn; [by rewrite ?E, fmap_insert | by rewrite cleanseCerts_blind, R].
  - apply alike_getHalf; [|done]. intros e. apply fmap_is_Some.
  - apply alike_getHalf; [|done]. intros e. apply fmap_is_Some.
  - unfold invalidate. destruct Hc as [E R]. rewrite E, lookup_fmap. destruct (entries c !! k); cbn; [|by split].
    split; cbn; [by rewrite ?E, fmap_delete | by rewrite scrub_blind, R].
  - destruct Hc as [E R]. split; cbn; [by rewrite fmap_empty|]. rewrite R, E. f_equiv.
    rewrite (map_to_list_fmap blindEntry (entries c)), map_map. f_equiv.
    induction (map_to_list (entries c)) as [|[k e] l IH]; [done|]. cbn. rewrite IH. by rewrite scrub_blind.
Qed.

(** The memory the read cache gives back (on overwriting, expiry, invalidation and
    clearing) holds nothing of what was read from a card but its length: a run in which
    every value is replaced by zeros gives back the same buffers. *)
Theorem read_cache_wipes window h :
  released (after window (map blindOp h)) ≡ₚ released (after window h).
Proof.
  cut (alike (after window h) (after window (map blindOp h))); [by intros [_ ?]|].
  induction h as [|op h IH]; [by split | by apply alike_step].
Qed.

End ReadCacheFacts.
