(* ===== verification/Text.v ===== *)
(** * Text that is shown

    Models [include/LibreSCRS/Agent/util/DisplayText.h]: which bytes may be shown as a
    label, and where a label that is too long is cut; and [padField] of
    [src/pkcs11/Module.cpp], which fills a fixed field with it. Cutting a label that may
    be shown leaves one that may be shown, and drops no more than it has to. *)
From Stdlib Require Import Ascii.
From S2P Require Import Prelude.
Local Open Scope Z_scope.

Module Text.

(** The bytes of a [std::string]. *)
Definition bytesOf (s : string) : list Z := map (λ c, Z.of_N (N_of_ascii c)) (String.list_ascii_of_string s).

Definition isContinuation (b : Z) : bool := Z.land b 0xC0 =? 0x80.

(** The checks of one sequence of [cont] further bytes: continuation bytes, and a code
    point in the range that needs that many. *)
Definition sequenceOk (lead : Z) (more : list Z) : bool :=
  let cp := foldl (λ cp b, Z.lor (u32 (Z.shiftl cp 6)) (Z.land b 0x3F)) lead more in
  let kMinCp := match length more with 1%nat => 0x80 | 2%nat => 0x800 | _ => 0x10000 end in
  forallb isContinuation more && negb ((cp <? kMinCp) || (0x10FFFF <? cp) || ((0xD800 <=? cp) && (cp <=? 0xDFFF))).

Fixpoint isDisplayableUtf8 (bytes : list Z) : bool :=
  match bytes with
  | [] => true
  | c :: rest =>
      if (c <? 0x20) || (c =? 0x7F) then false
      else if c <? 0x80 then isDisplayableUtf8 rest
      else if Z.land c 0xE0 =? 0xC0 then
        match rest with
        | b1 :: rest => sequenceOk (Z.land c 0x1F) [b1] && isDisplayableUtf8 rest
        | _ => false
        end
      else if Z.land c 0xF0 =? 0xE0 then
        match rest with
        | b1 :: b2 :: rest => sequenceOk (Z.land c 0x0F) [b1; b2] && isDisplayableUtf8 rest
        | _ => false
        end
      else if Z.land c 0xF8 =? 0xF0 then
        match rest with
        | b1 :: b2 :: b3 :: rest => sequenceOk (Z.land c 0x07) [b1; b2; b3] && isDisplayableUtf8 rest
        | _ => false
        end
      else false
  end.

(** The loop that backs off to a lead byte. *)
Fixpoint backOff (text : list Z) (cut : nat) : nat :=
  match cut with
  | O => O
  | S c => if isContinuation (default 0 (text !! cut)) then backOff text c else cut
  end.

Definition utf8PrefixLength (text : list Z) (maxBytes : nat) : nat :=
  if (length text <=? maxBytes)%nat then length text else backOff text maxBytes.

Definition padField (len : nat) (src : list Z) : list Z :=
  let n := utf8PrefixLength src len in take n src ++ replicate (len - n) 0x20.

(** ** A label that is cut *)

(** One character off the front of displayable text. *)
Lemma displayable_split text :
  isDisplayableUtf8 text = true → text ≠ [] →
  ∃ lead more rest, text = lead :: more ++ rest ∧ (length more ≤ 3)%nat ∧ forallb isContinuation more = true ∧
    isDisplayableUtf8 rest = true ∧ ∀ rest', isDisplayableUtf8 rest' = true → isDisplayableUtf8 (lead :: more ++ rest') = true.
Proof.
  destruct text as [|c rest]; [done|]. intros H _. cbn in H.
  assert (Hseq : ∀ lead more, sequenceOk lead more = true → forallb isContinuation more = true).
  { intros lead more. unfold sequenceOk. by intros [? _]%andb_true_iff. }
  destruct ((c <? 0x20) || (c =? 0x7F)) eqn:E0; [done|]. destruct (c <? 0x80) eqn:E1.
  { exists c, [], rest. split_and!; try done; [cbn; lia|]. intros rest' Hr. cbn. by rewrite E0, E1. }
  destruct (Z.land c 0xE0 =? 0xC0) eqn:E2.
  { destruct rest as [|b1 rest]; [done|]. apply andb_true_iff in H as [Hs Hr]. exists c, [b1], rest.
    split_and!; try done; [cbn; lia|by eapply Hseq|]. intros rest' Hr'. cbn -[sequenceOk]. by rewrite E0, E1, E2, Hs. }
  destruct (Z.land c 0xF0 =? 0xE0) eqn:E3.
  { destruct rest as [|b1 [|b2 rest]]; try done. apply andb_true_iff in H as [Hs Hr]. exists c, [b1; b2], rest.
    split_and!; try done; [cbn; lia|by eapply Hseq|]. intros rest' Hr'. cbn -[sequenceOk]. by rewrite E0, E1, E2, E3, Hs. }
  destruct (Z.land c 0xF8 =? 0xF0) eqn:E4; [|done].
  destruct rest as [|b1 [|b2 [|b3 rest]]]; try done. apply andb_true_iff in H as [Hs Hr]. exists c, [b1; b2; b3], rest.
  split_and!; try done; [by eapply Hseq|]. intros rest' Hr'. cbn -[sequenceOk]. by rewrite E0, E1, E2, E3, E4, Hs.
Qed.

Lemma displayable_lead text : isDisplayableUtf8 text = true → text ≠ [] → ∃ b, head text = Some b ∧ isContinuation b = false.
Proof.
  destruct text as [|c rest]; [done|]. intros H _. exists c. split; [done|]. unfold isContinuation.
  destruct (Z.land c 0xC0 =? 0x80) eqn:E; [|done]. exfalso. apply Z.eqb_eq in E.
  assert (Hbits : Z.testbit c 7 = true ∧ Z.testbit c 6 = false).
  { split; [pose proof (f_equal (λ z, Z.testbit z 7) E) as Hb|pose proof (f_equal (λ z, Z.testbit z 6) E) as Hb];
      cbn beta in Hb; rewrite Z.land_spec in Hb; change (Z.testbit 0xC0 7) with true in Hb;
      change (Z.testbit 0xC0 6) with true in Hb; by rewrite andb_true_r in Hb. }
  destruct Hbits as [H7 H6].
  assert (Hno : ∀ mask value, Z.testbit mask 6 = true → Z.testbit value 6 = true → (Z.land c mask =? value) = false).
  { intros mask value Hm Hv. apply Z.eqb_neq. intros Hl. pose proof (f_equal (λ z, Z.testbit z 6) Hl) as Hb. cbn beta in Hb.
    by rewrite Z.land_spec, H6, Hv in Hb. }
  cbn in H. destruct ((c <? 0x20) || (c =? 0x7F)) eqn:E0; [done|]. bool_hyps.
  destruct (c <? 0x80) eqn:E1; bool_hyps; [|by rewrite !Hno in H].
  rewrite Z.bits_above_log2 in H7; [done|lia|]. apply Z.log2_lt_pow2; lia.
Qed.

Lemma displayable_app text text' :
  isDisplayableUtf8 text = true → isDisplayableUtf8 text' = true → isDisplayableUtf8 (text ++ text') = true.
Proof.
  induction text as [text IH] using (induction_ltof1 _ length). intros Hd Hd'.
  destruct (decide (text = [])) as [->|Hne]; [done|].
  destruct (displayable_split text Hd Hne) as (lead & more & rest & -> & _ & _ & Hr & Hadd).
  rewrite <- app_comm_cons, <- app_assoc. apply Hadd, IH; [|done|done]. unfold ltof. cbn. rewrite length_app. lia.
Qed.

Definition boundary (text : list Z) (n : nat) : Prop :=
  (n ≤ length text)%nat ∧ ∀ b, text !! n = Some b → isContinuation b = false.

Lemma displayable_take n text : isDisplayableUtf8 text = true → boundary text n → isDisplayableUtf8 (take n text) = true.
Proof.
  revert n. induction text as [text IH] using (induction_ltof1 _ length). intros n Hd [Hn Hb].
  destruct n as [|n]; [done|]. destruct (decide (text = [])) as [->|Hne]; [cbn in Hn; lia|].
  destruct (displayable_split text Hd Hne) as (lead & more & rest & -> & Hlen & Hmore & Hr & Hadd).
  cbn [take]. destruct (decide (n < length more)%nat) as [Hlt|Hge].
  - exfalso. destruct (lookup_lt_is_Some_2 more n Hlt) as [b Hl]. specialize (Hb b).
    change ((more ++ rest) !! n = Some b → isContinuation b = false) in Hb.
    rewrite lookup_app_l, Hl in Hb by done. rewrite forallb_forall in Hmore.
    rewrite (Hmore b) in Hb; [by specialize (Hb eq_refl)|]. apply list_elem_of_In. by eapply list_elem_of_lookup_2.
  - rewrite take_app_ge by lia. apply Hadd. apply IH; [|done|].
    + unfold ltof. cbn. rewrite length_app. lia.
    + split; [cbn in Hn; rewrite length_app in Hn; lia|]. intros b Hl. apply Hb.
      change ((more ++ rest) !! n = Some b). by rewrite lookup_app_r by lia.
Qed.

Lemma backOff_le text n : (backOff text n ≤ n)%nat.
Proof. induction n as [|n IH]; cbn [backOff]; [done|]. case_match; lia. Qed.

(** The cut is the last place that is not inside a character. *)
Lemma backOff_boundary text n : (n < length text)%nat → boundary text (backOff text n) ∨ backOff text n = 0%nat.
Proof.
  induction n as [|n IH]; intros Hn; cbn [backOff]; [by right|].
  destruct (isContinuation (default 0 (text !! S n))) eqn:E; [apply IH; lia|]. left. split; [lia|].
  intros b Hb. by rewrite Hb in E.
Qed.

Lemma backOff_last text n m b :
  (m ≤ n)%nat → text !! m = Some b → isContinuation b = false → (m ≤ backOff text n)%nat.
Proof.
  induction n as [|n IH]; intros Hm Hb Hc; cbn [backOff]; [lia|].
  destruct (decide (m = S n)) as [->|].
  - rewrite Hb. change (default 0 (Some b)) with b. by rewrite Hc.
  - case_match; [apply IH; done || lia|lia].
Qed.

Lemma boundary_near text n :
  isDisplayableUtf8 text = true → (n < length text)%nat →
  ∃ m, (m ≤ n ≤ m + 3)%nat ∧ (m = 0%nat ∨ ∃ b, text !! m = Some b ∧ isContinuation b = false).
Proof.
  revert n. induction text as [text IH] using (induction_ltof1 _ length). intros n Hd Hn.
  destruct (decide (text = [])) as [->|Hne]; [cbn in Hn; lia|].
  destruct (displayable_split text Hd Hne) as (lead & more & rest & -> & Hlen & Hmore & Hr & Hadd).
  destruct (decide (n ≤ length more)%nat) as [Hle|Hgt]; [exists 0%nat; split; [lia|by left]|].
  cbn in Hn. rewrite length_app in Hn.
  destruct (IH rest) with (n := (n - S (length more))%nat) as (m & Hm & Hb); [unfold ltof; cbn; rewrite length_app; lia|done|lia|].
  assert (Hl : ∀ k, (lead :: more ++ rest) !! (S (length more) + k)%nat = rest !! k).
  { intros k. change ((more ++ rest) !! (length more + k)%nat = rest !! k). by rewrite lookup_app_r, Nat.add_sub' by lia. }
  destruct Hb as [->|(b & Hb & Hc)].
  - destruct rest as [|b rest]; [cbn in Hn; lia|]. exists (S (length more)). split; [lia|]. right. exists b.
    rewrite <- (Nat.add_0_r (S (length more))), Hl. split; [done|].
    destruct (displayable_lead (b :: rest) Hr) as (b' & Hb' & Hc); [done|]. by simplify_eq/=.
  - exists (S (length more) + m)%nat. split; [lia|]. right. exists b. by rewrite Hl.
Qed.

(** A label cut to fit a field of the standard's structures is one that may be shown
    if the whole was: no character is split and none is made up, at most three bytes of
    room are left unused, and the field has exactly its length. *)
Theorem cut_label (text : list Z) (len : nat) (Hd : isDisplayableUtf8 text = true) :
  let n := utf8PrefixLength text len in
  isDisplayableUtf8 (take n text) = true ∧ (n ≤ len)%nat ∧ (n = length text ∨ len ≤ n + 3)%nat ∧
  padField len text = take n text ++ replicate (len - n) 0x20 ∧ length (padField len text) = len ∧
  isDisplayableUtf8 (padField len text) = true.
Proof.
  intros n.
  assert (Hfit : isDisplayableUtf8 (take n text) = true ∧ (n ≤ len)%nat ∧ (n ≤ length text)%nat ∧ (n = length text ∨ len ≤ n + 3)%nat).
  { unfold n, utf8PrefixLength. destruct (length text <=? len)%nat eqn:E.
    - apply Nat.leb_le in E. rewrite firstn_all. auto.
    - apply Nat.leb_gt in E. pose proof (backOff_le text len). split_and!; [|done|lia|].
      + destruct (backOff_boundary text len E) as [Hb| ->]; [by apply displayable_take|done].
      + right. destruct (boundary_near text len Hd E) as (m & Hm & [->|(b & Hb & Hc)]); [lia|].
        pose proof (backOff_last text len m b ltac:(lia) Hb Hc). lia. }
  destruct Hfit as (H1 & H2 & H3 & H4). split_and!; try done.
  - unfold padField. fold n. rewrite length_app, length_take, length_replicate. lia.
  - unfold padField. fold n. apply displayable_app; [done|]. induction (len - n)%nat; [done|by cbn].
Qed.

Example cut_label_witness :
  (** "Đorđe", cut after three bytes of seven *)
  let text := [0xC4; 0x90; 0x6F; 0x72; 0xC4; 0x91; 0x65] in
  padField 5 text = [0xC4; 0x90; 0x6F; 0x72; 0x20] ∧ isDisplayableUtf8 (padField 5 text) = true.
Proof. intros text. split; [reflexivity|]. by apply (cut_label text 5). Defined.

End Text.
