(* ===== verification/Der.v ===== *)
(** * DER, as far as the agent and its PKCS#11 module read and write it

    Models [src/util/DerLength.h] (the one rule a length is read by), the certificate
    walk of [src/pkcs11/Module.cpp] ([takeDerElement], [certificateField]) and
    [src/pkcs11/EcEncoding.cpp] (curve parameters and points). A span is the list of its
    bytes; a span argument that the code advances is returned. The theorems say that a
    field of a certificate is served exactly as the certificate encodes it, and that a
    point survives the trip through its two encodings, and nothing else is taken for
    one. *)
From S2P Require Import Prelude Vocabulary.
Import Vocabulary.
Local Open Scope Z_scope.

Module Der.

(** ** Lengths *)

Definition kMaxDerLengthOctets : nat := 4.

Record DerLength := mkLength { length_ : Z; lengthOctets : nat }.

(** The accumulation of the long form, in a 64-bit [std::size_t]. *)
Definition accumulate (value b : Z) : Z := Z.lor (u64 (Z.shiftl value 8)) b.

(** The test by subtraction: [pos + octets <= data.size()] holds where it is asked. *)
Definition contained (data : list Z) (pos : nat) (value : Z) (octets : nat) : option DerLength :=
  if zlen data - Z.of_nat pos - Z.of_nat octets <? value then None else Some (mkLength value octets).

Definition readDerLength (data : list Z) (pos : nat) : option DerLength :=
  match data !! pos with
  | None => None
  | Some first =>
      if negb (Z.land first 0x80 =? 0) then
        let octets := Z.to_nat (Z.land first 0x7F) in
        if (octets =? 0)%nat || (kMaxDerLengthOctets <? octets)%nat || (length data - pos - 1 <? octets)%nat then None
        else contained data pos (foldl accumulate 0 (take octets (drop (S pos) data))) (1 + octets)
      else contained data pos first 1
  end.

(** ** Elements *)

Record DerElement := mkElement { whole : list Z; content : list Z }.

Definition takeDerElement (input : list Z) : option (DerElement * list Z) :=
  match input with
  | [] => None
  | tag :: _ =>
      if Z.land tag 0x1F =? 0x1F then None
      else
        len ← readDerLength input 1;
        let header := (1 + lengthOctets len)%nat in
        let n := Z.to_nat (length_ len) in
        Some (mkElement (take (header + n) input) (take n (drop header input)), drop (header + n) input)
  end.

(** The lambda of [certificateField]. *)
Definition takeTagged (input : list Z) (tag : Z) : option (DerElement * list Z) :=
  '(e, rest) ← takeDerElement input;
  if default 0 (head (whole e)) =? tag then Some (e, rest) else None.

Inductive CertField := FSerialNumber | FIssuer | FSubject.

(** [type] is one of the three attributes its callers ask for. The code takes every
    element before it tests any; one that is missing makes the answer empty whatever
    the others are, so stopping there is the same. *)
Definition certificateField (der : list Z) (type : CertField) : option (list Z) :=
  '(cert, _) ← takeTagged der 0x30;
  '(tbs, _) ← takeTagged (content cert) 0x30;
  fields ← (if default 0 (head (content tbs)) =? 0xA0 then snd <$> takeDerElement (content tbs) else Some (content tbs));
  '(serial, fields) ← takeTagged fields 0x02;
  '(signature, fields) ← takeTagged fields 0x30;
  '(issuer, fields) ← takeTagged fields 0x30;
  '(validity, fields) ← takeTagged fields 0x30;
  '(subject, _) ← takeTagged fields 0x30;
  Some (whole (match type with FSerialNumber => serial | FIssuer => issuer | FSubject => subject end)).

(** ** EC points *)

Definition appendDerLength (out : list Z) (n : Z) : list Z :=
  if n <? 0x80 then out ++ [u8 n]
  else if n <=? 0xFF then out ++ [0x81; u8 n]
  else out ++ [0x82; u8 (Z.shiftr n 8); u8 (Z.land n 0xFF)].

Definition ecParamsDerFor (keyBits : Z) : list Z :=
  match Key.nistCurveByBits keyBits with Some c => Key.oidDer c | None => [] end.

Definition isNamedCurvePoint (crv : string) (x y : list Z) : bool :=
  match Key.nistCurveByName crv with
  | Some c => (length x =? Key.fieldBytes c)%nat && (length y =? Key.fieldBytes c)%nat
  | None => false
  end.

Definition isPointOfKey (keyBits : Z) (crv : string) (x y : list Z) : bool :=
  match Key.nistCurveByBits keyBits with
  | Some c => String.eqb (Key.crv c) crv && isNamedCurvePoint crv x y
  | None => false
  end.

Definition ecPointOctetString (x y : list Z) : list Z :=
  if bool_decide (x = []) || negb (length x =? length y)%nat then []
  else appendDerLength [0x04] (1 + zlen x + zlen y) ++ 0x04 :: x ++ y.

Definition peerPointFromPublicData (publicData : list Z) (keyBits : Z) : option (list Z) :=
  let n := (keyBits + 7) / 8 in
  if n =? 0 then None
  else
    let pointLen := 1 + 2 * n in
    point ← (if zlen publicData =? pointLen then Some publicData
             else
               let header := appendDerLength [0x04] pointLen in
               if negb (zlen publicData =? zlen header + pointLen) ||
                  negb (bool_decide (take (length header) publicData = header)) then None
               else Some (drop (length header) publicData));
    if negb (default 0 (head point) =? 0x04) then None else Some point.

(** ** Lengths and elements that are written are read back *)

(** The encoding a definite-length element has, with lengths below 64 KiB. *)
Definition element (tag : Z) (body : list Z) : list Z := tag :: appendDerLength [] (zlen body) ++ body.

Lemma appendDerLength_app out n : appendDerLength out n = out ++ appendDerLength [] n.
Proof. unfold appendDerLength. by repeat case_match. Qed.

Lemma land_short n : 0 ≤ n < 128 → Z.land n 0x80 = 0.
Proof.
  intros Hn. assert (Forall (λ n, Z.land n 0x80 = 0) (seqZ 0 128)) as H by (by apply (bool_decide_eq_true_1 _); vm_compute).
  rewrite Forall_forall in H. apply H, elem_of_seqZ. lia.
Qed.

Lemma accumulate_two a b : 0 ≤ a < 256 → 0 ≤ b < 256 → accumulate (accumulate 0 a) b = a * 256 + b.
Proof.
  intros Ha Hb. unfold accumulate, u64. rewrite Z.shiftl_0_l, (wrap_small 64 0), Z.lor_0_l by lia.
  rewrite Z.shiftl_mul_pow2, wrap_small by lia. change (2 ^ 8) with 256.
  apply Z.bits_inj'. intros k Hk. rewrite Z.lor_spec. change 256 with (2 ^ 8).
  rewrite <- !Z.shiftl_mul_pow2 by lia. rewrite Z.add_nocarry_lxor, Z.lxor_spec.
  - rewrite Z.shiftl_spec by lia. destruct (decide (k < 8)).
    + by rewrite (Z.testbit_neg_r a), orb_false_l, xorb_false_l by lia.
    + rewrite (Z.bits_above_log2 b), orb_false_r, xorb_false_r; [done|lia|].
      destruct (decide (b = 0)) as [->|]; [cbn; lia|]. assert (Z.log2 b < 8) by (apply Z.log2_lt_pow2; lia). lia.
  - apply Z.bits_inj_0. intros j. rewrite Z.land_spec. destruct (decide (j < 8)).
    + destruct (decide (j < 0)); [by rewrite !Z.testbit_neg_r by lia|].
      by rewrite Z.shiftl_spec, (Z.testbit_neg_r a), andb_false_l by lia.
    + rewrite (Z.bits_above_log2 b), andb_false_r; [done|lia|].
      destruct (decide (b = 0)) as [->|]; [cbn; lia|]. assert (Z.log2 b < 8) by (apply Z.log2_lt_pow2; lia). lia.
Qed.

Lemma length_appendDerLength n : (1 ≤ length (appendDerLength [] n) ≤ 3)%nat.
Proof. unfold appendDerLength. repeat case_match; cbn; lia. Qed.

Lemma readDerLength_append tag n rest :
  0 ≤ n < 65536 → n ≤ zlen rest →
  readDerLength (tag :: appendDerLength [] n ++ rest) 1 = Some (mkLength n (length (appendDerLength [] n))).
Proof.
  intros Hn Hr. unfold appendDerLength. destruct (n <? 0x80) eqn:E1; bool_hyps; [|destruct (n <=? 0xFF) eqn:E2; bool_hyps].
  - cbn [app readDerLength lookup list_lookup length]. unfold u8. rewrite wrap_small by lia. rewrite land_short by lia.
    cbn. unfold contained. cbn [length]. replace (_ <? n) with false; [done|]. symmetry. apply Z.ltb_ge. lia.
  - cbn [app]. unfold readDerLength, u8. rewrite wrap_small by lia. cbn [lookup list_lookup length]. 
    change (Z.land 0x81 0x80 =? 0) with false. change (Z.to_nat (Z.land 0x81 0x7F)) with 1%nat. cbn [negb].
    replace (_ || _ || _) with false; cycle 1.
    { symmetry. cbn. first [reflexivity | apply Nat.ltb_ge; lia]. }
    cbn [drop take foldl]. replace (accumulate 0 n) with n; cycle 1.
    { unfold accumulate. by rewrite Z.shiftl_0_l. }
    unfold contained. cbn [length]. replace (_ <? n) with false; [done|]. symmetry. apply Z.ltb_ge. lia.
  - cbn [app]. unfold readDerLength, u8. rewrite Z.shiftr_div_pow2 by lia. change 0xFF with (Z.ones 8).
    rewrite Z.land_ones, !wrap_small by (try apply Z.mod_pos_bound; lia || (split; [apply Z.div_pos; lia|apply Z.div_lt_upper_bound; lia])).
    cbn [lookup list_lookup length].
    change (Z.land 0x82 0x80 =? 0) with false. change (Z.to_nat (Z.land 0x82 0x7F)) with 2%nat. cbn [negb].
    replace (_ || _ || _) with false; cycle 1.
    { symmetry. cbn. first [reflexivity | apply Nat.ltb_ge; lia]. }
    cbn [drop take foldl]. rewrite accumulate_two; cycle 1.
    { split; [apply Z.div_pos; lia|apply Z.div_lt_upper_bound; lia]. }
    { apply Z.mod_pos_bound. lia. }
    replace (n / 2 ^ 8 * 256 + n `mod` 2 ^ 8) with n; cycle 1.
    { pose proof (Z.div_mod n (2 ^ 8) ltac:(lia)). lia. }
    unfold contained. cbn [length]. replace (_ <? n) with false; [done|]. symmetry. apply Z.ltb_ge. lia.
Qed.

Lemma takeDerElement_element tag body rest :
  Z.land tag 0x1F ≠ 0x1F → zlen body < 65536 →
  takeDerElement (element tag body ++ rest) = Some (mkElement (element tag body) body, rest).
Proof.
  intros Ht Hb. unfold takeDerElement, element. cbn [app]. apply Z.eqb_neq in Ht. rewrite Ht.
  rewrite <- app_assoc, readDerLength_append by (rewrite ?length_app; lia). cbn.
  set (l := appendDerLength [] (zlen body)). rewrite Nat2Z.id.
  f_equal. f_equal; [f_equal; [f_equal|]|]; rewrite ?app_assoc.
  - rewrite take_app_length' by (rewrite length_app; lia). done.
  - by rewrite <- app_assoc, drop_app_length, take_app_length.
  - by rewrite drop_app_length' by (rewrite length_app; lia).
Qed.

Lemma takeTagged_element tag body rest :
  Z.land tag 0x1F ≠ 0x1F → zlen body < 65536 →
  takeTagged (element tag body ++ rest) tag = Some (mkElement (element tag body) body, rest).
Proof. intros Ht Hb. unfold takeTagged. rewrite takeDerElement_element by done. cbn. by rewrite Z.eqb_refl. Qed.

(** What is taken is a prefix of what was there, and its content lies inside it. *)
Lemma takeDerElement_split input e rest :
  takeDerElement input = Some (e, rest) →
  input = whole e ++ rest ∧ ∃ header, whole e = header ++ content e.
Proof.
  unfold takeDerElement. destruct input as [|tag input]; [done|]. case_match; [done|].
  intros ([v o] & Hl & [= <- <-])%bind_Some. cbn [whole content length_ lengthOctets].
  split; [cbn; by rewrite take_drop|].
  exists (tag :: take o input). cbn. by rewrite take_take_drop.
Qed.

Lemma takeTagged_split input tag e rest :
  takeTagged input tag = Some (e, rest) →
  input = whole e ++ rest ∧ head (whole e) = Some tag ∧ ∃ header, whole e = header ++ content e.
Proof.
  unfold takeTagged. intros ([e' rest'] & Ht & H)%bind_Some. case_match; [|done]. bool_hyps. simplify_eq.
  apply takeDerElement_split in Ht as Hs. destruct Hs as [-> ?]. split_and!; [done| |done].
  unfold takeDerElement in Ht. destruct (whole e ++ rest) as [|t l] eqn:E; [done|]. revert Ht. case_match; [done|].
  intros ([v o] & _ & [= <- <-])%bind_Some. done.
Qed.

(** ** The certificate walk *)

(** A [TBSCertificate], field by field, and what follows its subject. *)
Record Tbs := mkTbs {
  version : option (list Z); serialBody : list Z; signatureBody : list Z; issuerBody : list Z;
  validityBody : list Z; subjectBody : list Z; extra : list Z }.

Definition encodeTbs (t : Tbs) : list Z :=
  match version t with Some v => element 0xA0 v | None => [] end ++
  element 0x02 (serialBody t) ++ element 0x30 (signatureBody t) ++ element 0x30 (issuerBody t) ++
  element 0x30 (validityBody t) ++ element 0x30 (subjectBody t) ++ extra t.

(** The certificate: [algorithms] stands for what follows the [TBSCertificate]. *)
Definition encodeCertificate (t : Tbs) (algorithms : list Z) : list Z :=
  element 0x30 (element 0x30 (encodeTbs t) ++ algorithms).

Definition fieldOf (t : Tbs) (type : CertField) : list Z :=
  match type with
  | FSerialNumber => element 0x02 (serialBody t)
  | FIssuer => element 0x30 (issuerBody t)
  | FSubject => element 0x30 (subjectBody t)
  end.

Lemma length_element tag body : (length body ≤ length (element tag body))%nat.
Proof. unfold element. cbn. rewrite length_app. lia. Qed.

Lemma certificateField_encode (t : Tbs) (algorithms trailing : list Z) (type : CertField) :
  zlen (encodeCertificate t algorithms) < 65536 →
  certificateField (encodeCertificate t algorithms ++ trailing) type = Some (fieldOf t type).
Proof.
  intros Hlen. unfold encodeCertificate in *.
  pose proof (length_element 0x30 (element 0x30 (encodeTbs t) ++ algorithms)) as H1.
  pose proof (length_element 0x30 (encodeTbs t)) as H2. rewrite length_app in H1.
  pose proof (length_element 0x02 (serialBody t)). pose proof (length_element 0x30 (signatureBody t)).
  pose proof (length_element 0x30 (issuerBody t)). pose proof (length_element 0x30 (validityBody t)).
  pose proof (length_element 0x30 (subjectBody t)).
  assert (Htbs : zlen (encodeTbs t) < 65536) by lia.
  unfold certificateField. rewrite takeTagged_element by (rewrite ?length_app; done || lia). cbn [mbind option_bind content].
  rewrite takeTagged_element by (done || lia). cbn [mbind option_bind content].
  unfold encodeTbs in *. rewrite !length_app in Htbs.
  set (rest := element 0x02 (serialBody t) ++ _) in *.
  assert (E : (if default 0 (head (match version t with Some v => element 0xA0 v | None => [] end ++ rest)) =? 0xA0
    then snd <$> takeDerElement (match version t with Some v => element 0xA0 v | None => [] end ++ rest)
    else Some (match version t with Some v => element 0xA0 v | None => [] end ++ rest)) = Some rest).
  { destruct (version t) as [v|]; [|done]. pose proof (length_element 0xA0 v).
    rewrite takeDerElement_element by (done || lia). done. }
  rewrite E. cbn [mbind option_bind].
  subst rest. do 5 (rewrite takeTagged_element by (done || lia); cbn [mbind option_bind whole]).
  by destruct type.
Qed.

(** The serial number, issuer and subject the module serves for a certificate are
    the certificate's own bytes: whatever is served is a stretch of the DER that starts
    with the field's tag, and of a certificate in DER (below 64 KiB, with or without a
    version, whatever follows it) it is exactly the field that was asked for. *)
Theorem certificate_field_exact (der : list Z) (type : CertField) :
  (∀ field, certificateField der type = Some field →
     (∃ before after, der = before ++ field ++ after) ∧
     head field = Some (match type with FSerialNumber => 0x02 | _ => 0x30 end)) ∧
  (∀ t algorithms trailing, der = encodeCertificate t algorithms ++ trailing →
     zlen (encodeCertificate t algorithms) < 65536 → certificateField der type = Some (fieldOf t type)).
Proof.
  split; [|by intros t algorithms trailing -> ?; apply certificateField_encode].
  intros field. unfold certificateField.
  intros ([cert r1] & (-> & _ & h1 & E1)%takeTagged_split & H)%bind_Some.
  apply bind_Some in H as ([tbs r2] & (Ec & _ & h2 & E2)%takeTagged_split & H).
  apply bind_Some in H as (fields & Hf & H).
  apply bind_Some in H as ([serial r3] & (-> & Hd3 & _)%takeTagged_split & H).
  apply bind_Some in H as ([signature r4] & (-> & _)%takeTagged_split & H).
  apply bind_Some in H as ([issuer r5] & (-> & Hd5 & _)%takeTagged_split & H).
  apply bind_Some in H as ([validity r6] & (-> & _)%takeTagged_split & H).
  apply bind_Some in H as ([subject r7] & (-> & Hd7 & _)%takeTagged_split & H).
  injection H as <-.
  assert (∃ v, content tbs = v ++ whole serial ++ whole signature ++ whole issuer ++ whole validity ++ whole subject ++ r7)
    as [v Ev].
  { revert Hf. case_match; [|intros [= ->]; by exists []].
    intros ([e r] & (-> & _)%takeDerElement_split & [= ->])%fmap_Some. by eexists. }
  rewrite E1, Ec, E2, Ev. split; [|by destruct type].
  destruct type; cbn.
  - exists (h1 ++ h2 ++ v). eexists. by rewrite <- !app_assoc.
  - exists (h1 ++ h2 ++ v ++ whole serial ++ whole signature). eexists. by rewrite <- !app_assoc.
  - exists (h1 ++ h2 ++ v ++ whole serial ++ whole signature ++ whole issuer ++ whole validity). eexists.
    by rewrite <- !app_assoc.
Qed.

(** A certificate with a version, and one without. *)
Example certificate_field_exact_witness :
  let t := mkTbs (Some [2; 1; 2]) [7] [6; 1; 42] [49; 0] [5; 0] [49; 1; 0] [48; 0] in
  certificateField (encodeCertificate t [3; 0]) FSubject = Some [0x30; 3; 49; 1; 0] ∧
  ∀ field, certificateField (encodeCertificate t [3; 0]) FIssuer = Some field → head field = Some 0x30.
Proof.
  intros t. split.
  - apply (proj2 (certificate_field_exact (encodeCertificate t [3; 0]) FSubject) t [3; 0] []); vm_compute; reflexivity.
  - intros field Hf. by apply (certificate_field_exact (encodeCertificate t [3; 0]) FIssuer) in Hf as [_ Hf].
Defined.

(** ** Points *)

Lemma peerPoint_iff publicData keyBits point :
  let n := (keyBits + 7) / 8 in
  0 ≤ keyBits →
  peerPointFromPublicData publicData keyBits = Some point ↔
  n ≠ 0 ∧ zlen point = 1 + 2 * n ∧ head point = Some 0x04 ∧
  (publicData = point ∨ publicData = appendDerLength [0x04] (zlen point) ++ point).
Proof.
  intros n Hk. assert (Hn0 : 0 ≤ n) by (apply Z.div_pos; lia).
  unfold peerPointFromPublicData. fold n. destruct (n =? 0) eqn:En; bool_hyps; [split; [done|lia]|].
  set (header := appendDerLength [0x04] (1 + 2 * n)).
  assert (Hh : 0 < zlen header).
  { unfold header. rewrite appendDerLength_app, length_app. cbn. lia. }
  assert (Hhead : ∀ l : list Z, negb (default 0 (head l) =? 4) = false → head l = Some 4).
  { intros [|b l]; cbn; [done|]. rewrite negb_false_iff, Z.eqb_eq. by intros ->. }
  split.
  - intros (p & Hp & H)%bind_Some. destruct (negb (default 0 (head p) =? 4)) eqn:Eh; [done|]. injection H as ->.
    apply Hhead in Eh. destruct (zlen publicData =? 1 + 2 * n) eqn:El; bool_hyps.
    + injection Hp as ->. eauto.
    + case_match; [done|]. bool_hyps. injection Hp as <-. assert (Hd : zlen (drop (length header) publicData) = 1 + 2 * n).
      { rewrite length_drop. lia. }
      split_and!; [done|done|done|]. right. rewrite Hd. fold header. match goal with E : take _ _ = header |- _ => rewrite <- E at 1 end. by rewrite take_drop.
  - intros (_ & Hlen & Hp & [->| ->]).
    + rewrite Hlen, Z.eqb_refl. cbn. by rewrite Hp.
    + rewrite Hlen. fold header. rewrite length_app. replace (_ =? 1 + 2 * n) with false; cycle 1.
      { symmetry. apply Z.eqb_neq. lia. }
      replace (Z.of_nat (length header + length point) =? zlen header + (1 + 2 * n)) with true; cycle 1.
      { symmetry. apply Z.eqb_eq. lia. }
      rewrite take_app_length, drop_app_length, bool_decide_eq_true_2 by done. cbn. by rewrite Hp.
Qed.

(** What a key agreement takes for the peer's point is exactly an uncompressed point
    of the key's size, bare or in a DER OCTET STRING, and it is that point it goes on
    with; so a point this module serves as [CKA_EC_POINT] can be given back to it. *)
Theorem peer_point_roundtrip (keyBits : Z) (crv : string) (x y : list Z) :
  isPointOfKey keyBits crv x y = true →
  peerPointFromPublicData (0x04 :: x ++ y) keyBits = Some (0x04 :: x ++ y) ∧
  peerPointFromPublicData (ecPointOctetString x y) keyBits = Some (0x04 :: x ++ y) ∧
  takeTagged (ecPointOctetString x y) 0x04 =
    Some (mkElement (ecPointOctetString x y) (0x04 :: x ++ y), []) ∧
  ∀ data point, peerPointFromPublicData data keyBits = Some point →
    zlen point = 1 + zlen x + zlen y ∧ head point = Some 0x04 ∧
    (data = point ∨ data = element 0x04 point).
Proof.
  unfold isPointOfKey, isNamedCurvePoint.
  destruct (Key.nistCurveByBits keyBits) as [c|] eqn:Ec; [|done]. intros [Hc%String.eqb_eq Hn]%andb_true_iff.
  assert (Hcurve : keyBits = Key.keyBits c ∧ Z.of_nat (Key.fieldBytes c) = (keyBits + 7) / 8 ∧
    0 ≤ keyBits ∧ (0 < Key.fieldBytes c ≤ 66)%nat ∧ Key.nistCurveByName (Key.crv c) = Some c).
  { apply List.find_some in Ec as [Hin Hk]. apply Z.eqb_eq in Hk. subst keyBits.
    repeat (destruct Hin as [<-|Hin]; [vm_compute; split_and!; congruence || lia|]). done. }
  destruct Hcurve as (-> & Hf & Hk0 & Hpos & Hname). rewrite <- Hc, Hname in Hn. bool_hyps.
  apply Nat.eqb_eq in H, H0.
  assert (Hx : x ≠ []) by (intros ->; cbn in H; lia).
  assert (Hos : ecPointOctetString x y = element 0x04 (0x04 :: x ++ y)).
  { unfold ecPointOctetString, element. rewrite bool_decide_eq_false_2 by done. rewrite H, H0, Nat.eqb_refl.
    cbn [orb negb length]. rewrite appendDerLength_app, length_app, H, H0. cbn [app]. do 3 f_equal. lia. }
  assert (Hlen : zlen (0x04 :: x ++ y) = 1 + 2 * ((Key.keyBits c + 7) / 8)).
  { cbn. rewrite length_app. lia. }
  rewrite Hos. split_and!.
  - apply peerPoint_iff; [lia|]. split_and!; [lia|done|done|by left].
  - apply peerPoint_iff; [lia|]. split_and!; [lia|done|done|right]. by rewrite appendDerLength_app.
  - rewrite <- (app_nil_r (element _ _)) at 1. apply takeTagged_element; [done|]. cbn. rewrite length_app. lia.
  - intros data point Hdp. apply (peerPoint_iff data _ point Hk0) in Hdp as (_ & Hp & Hh & Hd). split_and!; [lia|done|].
    unfold element. rewrite appendDerLength_app in Hd. naive_solver.
Qed.

Example peer_point_roundtrip_witness :
  let x := repeat 7 66 in
  ecPointOctetString x x = [0x04; 0x81; 133; 0x04] ++ x ++ x ∧
  peerPointFromPublicData (ecPointOctetString x x) 521 = Some (0x04 :: x ++ x).
Proof. intros x. split; [reflexivity|]. by apply (peer_point_roundtrip 521 "P-521" x x). Defined.

End Der.
