(* ===== verification/Token.v ===== *)
(** * The PKCS#11 view of a card

    Models [include/LibreSCRS/Agent/pkcs11/ObjectModel.h] and
    [src/pkcs11/ObjectModel.cpp]: from what the agent reports of its readers to slots,
    objects and mechanisms. [CK_ULONG] has 64 bits; the values of the standard's
    constants are those of [pkcs11t.h]. The theorem says that what a token advertises
    and what its key objects permit agree: a key that may be used has a mechanism the
    token lists, and a mechanism listed has a key. *)
From Stdlib Require Import Ascii.
From S2P Require Import Prelude Vocabulary.
Import Vocabulary.
Local Open Scope Z_scope.

(** ** The standard's vocabulary, as far as the module uses it *)

Module Ck.

Inductive CK_RV :=
| CKR_OK | CKR_SLOT_ID_INVALID | CKR_GENERAL_ERROR | CKR_FUNCTION_FAILED | CKR_ARGUMENTS_BAD | CKR_CANT_LOCK
| CKR_ATTRIBUTE_READ_ONLY | CKR_ATTRIBUTE_SENSITIVE | CKR_ATTRIBUTE_TYPE_INVALID | CKR_ATTRIBUTE_VALUE_INVALID
| CKR_ACTION_PROHIBITED | CKR_DATA_LEN_RANGE | CKR_DEVICE_ERROR | CKR_DEVICE_REMOVED | CKR_ENCRYPTED_DATA_LEN_RANGE
| CKR_FUNCTION_CANCELED | CKR_FUNCTION_NOT_SUPPORTED | CKR_KEY_HANDLE_INVALID | CKR_KEY_TYPE_INCONSISTENT
| CKR_KEY_FUNCTION_NOT_PERMITTED | CKR_MECHANISM_INVALID | CKR_MECHANISM_PARAM_INVALID | CKR_OBJECT_HANDLE_INVALID
| CKR_OPERATION_ACTIVE | CKR_OPERATION_NOT_INITIALIZED | CKR_PIN_INCORRECT | CKR_SESSION_HANDLE_INVALID
| CKR_SESSION_PARALLEL_NOT_SUPPORTED | CKR_TEMPLATE_INCOMPLETE | CKR_TEMPLATE_INCONSISTENT | CKR_TOKEN_NOT_PRESENT
| CKR_USER_ALREADY_LOGGED_IN | CKR_USER_NOT_LOGGED_IN | CKR_USER_TYPE_INVALID | CKR_BUFFER_TOO_SMALL
| CKR_CRYPTOKI_NOT_INITIALIZED | CKR_CRYPTOKI_ALREADY_INITIALIZED | CKR_FUNCTION_REJECTED.

#[global] Instance CK_RV_eq_dec : EqDecision CK_RV.
Proof. solve_decision. Defined.

(** An attribute type; [CKA_OTHER] is any the module does not name. *)
Inductive CK_ATTRIBUTE_TYPE :=
| CKA_CLASS | CKA_TOKEN | CKA_PRIVATE | CKA_LABEL | CKA_VALUE | CKA_CERTIFICATE_TYPE | CKA_ISSUER | CKA_SERIAL_NUMBER
| CKA_KEY_TYPE | CKA_SUBJECT | CKA_ID | CKA_SENSITIVE | CKA_ENCRYPT | CKA_DECRYPT | CKA_WRAP | CKA_UNWRAP | CKA_SIGN
| CKA_VERIFY | CKA_DERIVE | CKA_MODULUS | CKA_MODULUS_BITS | CKA_PUBLIC_EXPONENT | CKA_VALUE_LEN | CKA_EXTRACTABLE
| CKA_LOCAL | CKA_NEVER_EXTRACTABLE | CKA_ALWAYS_SENSITIVE | CKA_KEY_GEN_MECHANISM | CKA_EC_PARAMS | CKA_EC_POINT
| CKA_ALWAYS_AUTHENTICATE | CKA_OTHER (value : Z).

#[global] Instance CK_ATTRIBUTE_TYPE_eq_dec : EqDecision CK_ATTRIBUTE_TYPE.
Proof. solve_decision. Defined.

Abbreviation CK_TRUE := 1.
Abbreviation CK_FALSE := 0.
Abbreviation CK_UNAVAILABLE_INFORMATION := (2 ^ 64 - 1).
Abbreviation CKO_CERTIFICATE := 1.
Abbreviation CKO_PUBLIC_KEY := 2.
Abbreviation CKO_PRIVATE_KEY := 3.
Abbreviation CKO_SECRET_KEY := 4.
Abbreviation CKK_RSA := 0.
Abbreviation CKK_EC := 3.
Abbreviation CKK_GENERIC_SECRET := 16.
Abbreviation CKK_AES := 31.
Abbreviation CKM_RSA_PKCS := 1.
Abbreviation CKM_SHA256_RSA_PKCS := 64.
Abbreviation CKM_ECDSA := 4161.
Abbreviation CKM_ECDH1_DERIVE := 4176.

(** [CK_ATTRIBUTE]: [pValue] is the memory it points to, absent when it is null. A
    caller's buffer has the [ulValueLen] bytes it says. *)
Record CK_ATTRIBUTE := mkAttr { type : CK_ATTRIBUTE_TYPE; pValue : option (list Z); ulValueLen : Z }.

(** The memory of a [CK_ULONG], least significant byte first. *)
Fixpoint leBytes (n : nat) (z : Z) : list Z :=
  match n with O => [] | S n => z `mod` 256 :: leBytes n (z / 256) end.
Fixpoint leValue (bytes : list Z) : Z :=
  match bytes with [] => 0 | b :: bytes => b + 256 * leValue bytes end.

Lemma leValue_leBytes n z : 0 ≤ z < 256 ^ Z.of_nat n → leValue (leBytes n z) = z.
Proof.
  revert z. induction n as [|n IH]; intros z Hz; cbn [leBytes leValue]; [change (256 ^ Z.of_nat 0) with 1 in Hz; lia|].
  rewrite Nat2Z.inj_succ, Z.pow_succ_r in Hz by lia.
  rewrite IH; [pose proof (Z.div_mod z 256); lia|].
  split; [apply Z.div_pos; lia|apply Z.div_lt_upper_bound; lia].
Qed.

Lemma length_leBytes n z : length (leBytes n z) = n.
Proof. revert z. induction n; intros z; cbn; auto. Qed.

End Ck.

Module Token.
Import Ck.

(** ** What the agent reports *)

Record CertEntry := mkCert {
  certId : string; label : string; holderName : string; ckaId : list Z;
  signingCapable : bool; canSign : bool; canDecrypt : bool; signsHashOnCard : bool; alwaysAuthenticate : bool;
  canDerive : bool; keyType : Key.KeyType; keyBits : Z }.

Record ReaderState := mkReader {
  readerPath : string; readerName : string; hasCard : bool; tokenLabel : string; tokenSerial : string;
  certs : list CertEntry }.

Definition tokenLabelFor (certs : list CertEntry) (readerName : string) : string :=
  match List.find (λ c, signingCapable c && negb (String.eqb (holderName c) "")) certs with
  | Some c => holderName c
  | None => readerName
  end.

Record NeutralCert := mkNeutral {
  nCertId : string; nKeyId : list Z; nKeyType : Key.KeyType; nKeyBits : Z; nSigningCapable : bool;
  nCanDerive : bool; nKeyUsageBits : Z; nAlwaysAuthenticate : bool; nSubjectCn : string }.

(** [PreReadAuth], an integer on the wire. *)
Abbreviation PreReadAuth_None := 0.
Abbreviation PreReadAuth_Can := 2.

Definition certEntryFrom (cert : NeutralCert) (preAuth : Z) : option CertEntry :=
  let derives := nCanDerive cert && bool_decide (nKeyType cert = Key.Ec) in
  if negb (nSigningCapable cert) && negb derives then None
  else
    let canDriveSigning := (preAuth =? PreReadAuth_None) || (preAuth =? PreReadAuth_Can) in
    let canDriveDecrypt := preAuth =? PreReadAuth_None in
    let isRsa := bool_decide (nKeyType cert = Key.Rsa) in
    let keyUsagePermitsDecrypt := negb (Z.land (nKeyUsageBits cert) (Z.lor (Z.shiftl 1 2) (Z.shiftl 1 3)) =? 0) in
    Some {| certId := nCertId cert;
            label := if String.eqb (nSubjectCn cert) "" then nCertId cert else nSubjectCn cert;
            holderName := nSubjectCn cert;
            ckaId := nKeyId cert;
            signingCapable := nSigningCapable cert;
            canSign := nSigningCapable cert && canDriveSigning;
            canDecrypt := isRsa && canDriveDecrypt && keyUsagePermitsDecrypt;
            signsHashOnCard := isRsa && (preAuth =? PreReadAuth_Can);
            alwaysAuthenticate := nAlwaysAuthenticate cert;
            canDerive := derives;
            keyType := nKeyType cert;
            keyBits := nKeyBits cert |}.

Definition kTokenSerialMaxBytes : nat := 16.

(** What follows the last slash, all of it when there is none; then its last bytes. *)
Definition tokenSerialFor (cardHandle : string) : string :=
  let segment := foldl (λ acc c, if Ascii.eqb c "/"%char then [] else acc ++ [c]) [] (String.list_ascii_of_string cardHandle) in
  String.string_of_list_ascii
    (if (kTokenSerialMaxBytes <? length segment)%nat then drop (length segment - kTokenSerialMaxBytes) segment else segment).

(** ** Slots and objects *)

Record Object := mkObject {
  o_cls : Z; o_ckaId : list Z; o_label : string; o_certId : string; o_keyType : Key.KeyType; o_keyBits : Z;
  o_derive : bool; o_sign : bool; o_decrypt : bool; o_alwaysAuthenticate : bool }.

Record Slot := mkSlot {
  s_readerPath : string; s_readerName : string; s_tokenPresent : bool; s_protectedAuthPath : bool;
  s_tokenLabel : string; s_tokenSerial : string; s_objects : list Object; s_mechanisms : list Z }.

(** The [any...] flags of [build]'s loop, with the objects pushed so far. *)
Record Survey := mkSurvey {
  objects : list Object; anyRsaSign : bool; anyRsaDecrypt : bool; anyRsaHashOnCard : bool; anyEcSign : bool;
  anyDerive : bool }.

(** The body of the loop over a card's certificates. *)
Definition addCert (acc : Survey) (cert : CertEntry) : Survey :=
  let isRsa := bool_decide (keyType cert = Key.Rsa) in
  let isEc := bool_decide (keyType cert = Key.Ec) in
  if negb (isRsa || isEc) || negb (signingCapable cert || (isEc && canDerive cert)) then acc
  else if (isRsa && (keyBits cert =? 0)) || (isEc && negb (bool_decide (is_Some (Key.nistCurveByBits (keyBits cert)))))
  then acc
  else
    let signs := signingCapable cert && canSign cert in
    let certObj := mkObject CKO_CERTIFICATE (ckaId cert) (label cert) (certId cert) Key.Other 0 false false false false in
    let pubObj := mkObject CKO_PUBLIC_KEY (ckaId cert) (label cert) (certId cert) (keyType cert) (keyBits cert)
                    false false false false in
    let privObj := mkObject CKO_PRIVATE_KEY (ckaId cert) (label cert) (certId cert) (keyType cert) (keyBits cert)
                     (isEc && canDerive cert) signs (isRsa && canDecrypt cert) (alwaysAuthenticate cert) in
    if isRsa then
      mkSurvey (objects acc ++ [certObj; pubObj; privObj]) (anyRsaSign acc || signs) (anyRsaDecrypt acc || canDecrypt cert)
        (anyRsaHashOnCard acc || (signs && signsHashOnCard cert)) (anyEcSign acc) (anyDerive acc)
    else
      mkSurvey (objects acc ++ [certObj; pubObj; privObj]) (anyRsaSign acc) (anyRsaDecrypt acc) (anyRsaHashOnCard acc)
        (anyEcSign acc || signs) (anyDerive acc || canDerive cert).

(** One reader of [build]. *)
Definition slotOf (reader : ReaderState) : Slot :=
  if negb (hasCard reader) then
    mkSlot (readerPath reader) (readerName reader) false true (tokenLabel reader) (tokenSerial reader) [] []
  else
    let acc := foldl addCert (mkSurvey [] false false false false false) (certs reader) in
    mkSlot (readerPath reader) (readerName reader) true true (tokenLabel reader) (tokenSerial reader) (objects acc)
      ((if anyRsaHashOnCard acc then [CKM_SHA256_RSA_PKCS]
        else if anyRsaSign acc || anyRsaDecrypt acc then [CKM_RSA_PKCS] else []) ++
       (if anyEcSign acc then [CKM_ECDSA] else []) ++
       (if anyDerive acc then [CKM_ECDH1_DERIVE] else [])).

(** [ObjectModel::build]. *)
Definition build (readers : list ReaderState) : list Slot := map slotOf readers.

(** ** Mechanisms and keys agree *)

(** The certificates whose keys become objects, and those objects. *)
Definition surfaces (cert : CertEntry) : bool :=
  let isRsa := bool_decide (keyType cert = Key.Rsa) in
  let isEc := bool_decide (keyType cert = Key.Ec) in
  (isRsa || isEc) && (signingCapable cert || (isEc && canDerive cert)) &&
  negb ((isRsa && (keyBits cert =? 0)) || (isEc && negb (bool_decide (is_Some (Key.nistCurveByBits (keyBits cert)))))).

Definition privateOf (cert : CertEntry) : Object :=
  mkObject CKO_PRIVATE_KEY (ckaId cert) (label cert) (certId cert) (keyType cert) (keyBits cert)
    (bool_decide (keyType cert = Key.Ec) && canDerive cert) (signingCapable cert && canSign cert)
    (bool_decide (keyType cert = Key.Rsa) && canDecrypt cert) (alwaysAuthenticate cert).

Definition objectsOf (cert : CertEntry) : list Object :=
  if surfaces cert then
    [mkObject CKO_CERTIFICATE (ckaId cert) (label cert) (certId cert) Key.Other 0 false false false false;
     mkObject CKO_PUBLIC_KEY (ckaId cert) (label cert) (certId cert) (keyType cert) (keyBits cert) false false false false;
     privateOf cert]
  else [].

Definition rsa (f : CertEntry → bool) (cert : CertEntry) : bool :=
  surfaces cert && bool_decide (keyType cert = Key.Rsa) && f cert.
Definition ec (f : CertEntry → bool) (cert : CertEntry) : bool :=
  surfaces cert && bool_decide (keyType cert = Key.Ec) && f cert.
Definition signs (cert : CertEntry) : bool := signingCapable cert && canSign cert.

Lemma addCert_spec acc cert :
  addCert acc cert =
  mkSurvey (objects acc ++ objectsOf cert) (anyRsaSign acc || rsa signs cert) (anyRsaDecrypt acc || rsa canDecrypt cert)
    (anyRsaHashOnCard acc || rsa (λ c, signs c && signsHashOnCard c) cert) (anyEcSign acc || ec signs cert)
    (anyDerive acc || ec canDerive cert).
Proof.
  unfold addCert, objectsOf, rsa, ec, surfaces, signs, privateOf.
  destruct acc as [os a1 a2 a3 a4 a5]. cbn [objects anyRsaSign anyRsaDecrypt anyRsaHashOnCard anyEcSign anyDerive].
  generalize (bool_decide (is_Some (Key.nistCurveByBits (keyBits cert)))) as isCurve; intros isCurve.
  generalize (keyBits cert =? 0) as isZero; intros isZero.
  destruct (keyType cert), (signingCapable cert), (canDerive cert), isZero, isCurve;
    cbn -[app]; rewrite ?orb_false_r, ?app_nil_r; reflexivity.
Qed.

Lemma survey_spec l :
  foldl addCert (mkSurvey [] false false false false false) l =
  mkSurvey (concat (map objectsOf l)) (existsb (rsa signs) l) (existsb (rsa canDecrypt) l)
    (existsb (rsa (λ c, signs c && signsHashOnCard c)) l) (existsb (ec signs) l) (existsb (ec canDerive) l).
Proof.
  induction l as [|cert l IH] using rev_ind; [done|].
  rewrite foldl_app, IH. cbn [foldl]. rewrite addCert_spec, !existsb_app, map_app, concat_app.
  cbn [existsb map concat objects anyRsaSign anyRsaDecrypt anyRsaHashOnCard anyEcSign anyDerive].
  by rewrite !orb_false_r, app_nil_r.
Qed.

(** What a mechanism needs of a private key object: the tests of [C_SignInit],
    [C_DecryptInit] and [C_DeriveKey]. *)
Definition signsWith (m : Z) (o : Object) : Prop :=
  o_sign o = true ∧ (m = CKM_ECDSA ∧ o_keyType o = Key.Ec ∨ (m = CKM_RSA_PKCS ∨ m = CKM_SHA256_RSA_PKCS) ∧ o_keyType o = Key.Rsa).
Definition decryptsWith (m : Z) (o : Object) : Prop := m = CKM_RSA_PKCS ∧ o_keyType o = Key.Rsa ∧ o_decrypt o = true.
Definition derivesWith (m : Z) (o : Object) : Prop := m = CKM_ECDH1_DERIVE ∧ o_keyType o = Key.Ec ∧ o_derive o = true.

Lemma elem_of_concat_map {A B} (f : A → list B) (l : list A) y : y ∈ concat (map f l) ↔ ∃ x, x ∈ l ∧ y ∈ f x.
Proof.
  rewrite list_elem_of_In, <- flat_map_concat_map, in_flat_map. by setoid_rewrite list_elem_of_In.
Qed.

Lemma elem_of_objects l o :
  o ∈ concat (map objectsOf l) → o_cls o = CKO_PRIVATE_KEY → ∃ cert, cert ∈ l ∧ surfaces cert = true ∧ o = privateOf cert.
Proof.
  intros (cert & Hcert & Ho)%elem_of_concat_map Hc.
  exists cert. split; [done|]. unfold objectsOf in Ho. destruct (surfaces cert); [|set_solver].
  split; [done|]. rewrite !elem_of_cons in Ho. destruct Ho as [->|[->|[->|?]]]; [done|done|done|set_solver].
Qed.

Lemma elem_of_private l cert : cert ∈ l → surfaces cert = true → privateOf cert ∈ concat (map objectsOf l).
Proof.
  intros Hin Hs. apply elem_of_concat_map. exists cert. split; [done|]. unfold objectsOf. rewrite Hs. set_solver.
Qed.

Lemma existsb_elem {A} (f : A → bool) (l : list A) : existsb f l = true ↔ ∃ x, x ∈ l ∧ f x = true.
Proof. rewrite existsb_exists. by setoid_rewrite list_elem_of_In. Qed.

(** The certificates of one card as a transport hands them on. *)
Definition reported (preAuth : Z) (r : ReaderState) : Prop :=
  ∃ neutral, certs r = omap (λ c, certEntryFrom c preAuth) neutral.

Lemma reported_cert preAuth r cert :
  reported preAuth r → cert ∈ certs r →
  signsHashOnCard cert = bool_decide (keyType cert = Key.Rsa) && (preAuth =? PreReadAuth_Can) ∧
  (canDecrypt cert = true → preAuth = PreReadAuth_None) ∧ (canDerive cert = true → keyType cert = Key.Ec).
Proof.
  intros [neutral ->] (n & Hn & Hc)%list_elem_of_omap. unfold certEntryFrom in Hc. case_match; [done|]. injection Hc as <-.
  cbn. split_and!; [done| |]; intros; bool_hyps; done.
Qed.

Definition mechanismsOf (l : list CertEntry) : list Z :=
  (if existsb (rsa (λ c, signs c && signsHashOnCard c)) l then [CKM_SHA256_RSA_PKCS]
   else if existsb (rsa signs) l || existsb (rsa canDecrypt) l then [CKM_RSA_PKCS] else []) ++
  (if existsb (ec signs) l then [CKM_ECDSA] else []) ++ (if existsb (ec canDerive) l then [CKM_ECDH1_DERIVE] else []).

Lemma slotOf_card r :
  s_objects (slotOf r) = (if hasCard r then concat (map objectsOf (certs r)) else []) ∧
  s_mechanisms (slotOf r) = (if hasCard r then mechanismsOf (certs r) else []).
Proof. unfold slotOf. destruct (hasCard r); [|done]. cbn [negb s_objects s_mechanisms]. by rewrite survey_spec. Qed.

Lemma some_rsa f cert l : cert ∈ l → surfaces cert = true → keyType cert = Key.Rsa → f cert = true → existsb (rsa f) l = true.
Proof. intros ? Hs Hk Hf. apply existsb_elem. exists cert. split; [done|]. unfold rsa. by rewrite Hs, Hk, Hf. Qed.
Lemma some_ec f cert l : cert ∈ l → surfaces cert = true → keyType cert = Key.Ec → f cert = true → existsb (ec f) l = true.
Proof. intros ? Hs Hk Hf. apply existsb_elem. exists cert. split; [done|]. unfold ec. by rewrite Hs, Hk, Hf. Qed.

Lemma sign_mechanism l cert :
  cert ∈ l → surfaces cert = true → o_sign (privateOf cert) = true → ∃ m, m ∈ mechanismsOf l ∧ signsWith m (privateOf cert).
Proof.
  intros Hin Hs Hsign. unfold mechanismsOf, signsWith. cbn in *. destruct (keyType cert) eqn:Ek.
  - rewrite (some_rsa signs cert l) by done. case_match; eexists; (split; [by left|auto]).
  - rewrite (some_ec signs cert l) by done. exists CKM_ECDSA. split; [|auto].
    apply elem_of_app. right. by left.
  - unfold surfaces in Hs. by rewrite Ek in Hs.
Qed.

(** On a card that hashes itself no key decrypts, so the one RSA mechanism does. *)
Lemma decrypt_mechanism preAuth r cert :
  reported preAuth r → cert ∈ certs r → surfaces cert = true → o_decrypt (privateOf cert) = true →
  ∃ m, m ∈ mechanismsOf (certs r) ∧ decryptsWith m (privateOf cert).
Proof.
  intros Hr Hin Hs Hdec. cbn in Hdec. bool_hyps. exists CKM_RSA_PKCS.
  split; [|unfold decryptsWith; cbn; by rewrite bool_decide_eq_true_2].
  unfold mechanismsOf. rewrite (some_rsa canDecrypt cert) by done. rewrite orb_true_r.
  destruct (existsb (rsa (λ c, signs c && signsHashOnCard c)) (certs r)) eqn:E; [|by left].
  apply existsb_elem in E as (c & Hc & E). unfold rsa in E. bool_hyps.
  destruct (reported_cert _ _ _ Hr Hin) as (_ & Hd & _). destruct (reported_cert _ _ _ Hr Hc) as (Hh & _ & _).
  rewrite (Hd ltac:(done)), andb_false_r in Hh. congruence.
Qed.

Lemma derive_mechanism l cert :
  cert ∈ l → surfaces cert = true → o_derive (privateOf cert) = true →
  ∃ m, m ∈ mechanismsOf l ∧ derivesWith m (privateOf cert).
Proof.
  intros Hin Hs Hder. cbn in Hder. bool_hyps. exists CKM_ECDH1_DERIVE.
  split; [|unfold derivesWith; cbn; by rewrite bool_decide_eq_true_2].
  unfold mechanismsOf. rewrite (some_ec canDerive cert) by done. rewrite !elem_of_app. right. right. by left.
Qed.

Lemma mechanism_key l m :
  m ∈ mechanismsOf l → ∃ cert, cert ∈ l ∧ surfaces cert = true ∧
    (signsWith m (privateOf cert) ∨ decryptsWith m (privateOf cert) ∨ derivesWith m (privateOf cert)).
Proof.
  unfold mechanismsOf, signsWith, decryptsWith, derivesWith, signs. rewrite !elem_of_app.
  assert (Hex : ∀ f, existsb (rsa f) l = true →
    ∃ c, c ∈ l ∧ surfaces c = true ∧ keyType c = Key.Rsa ∧ f c = true).
  { intros f (c & Hc & E)%existsb_elem. unfold rsa in E. bool_hyps. eauto. }
  assert (Hex' : ∀ f, existsb (ec f) l = true →
    ∃ c, c ∈ l ∧ surfaces c = true ∧ keyType c = Key.Ec ∧ f c = true).
  { intros f (c & Hc & E)%existsb_elem. unfold ec in E. bool_hyps. eauto. }
  intros [Hm|[Hm|Hm]]; repeat case_match; try (by apply not_elem_of_nil in Hm);
    apply list_elem_of_singleton in Hm as ->; bool_hyps.
  - destruct (Hex _ H) as (c & ? & ? & ? & [Hf _]%andb_true_iff). exists c. cbn. auto 10.
  - apply orb_true_iff in H0 as [E|E]; destruct (Hex _ E) as (c & ? & ? & Ek & Ef); exists c; cbn; rewrite Ek; auto 10.
  - destruct (Hex' _ H) as (c & ? & ? & ? & ?). exists c. cbn. auto 10.
  - destruct (Hex' _ H) as (c & ? & ? & Ek & ?). exists c. cbn. rewrite Ek. auto 10.
Qed.

Lemma mechanismsOf_once l :
  NoDup (mechanismsOf l) ∧ ¬ (CKM_RSA_PKCS ∈ mechanismsOf l ∧ CKM_SHA256_RSA_PKCS ∈ mechanismsOf l).
Proof.
  unfold mechanismsOf. repeat case_match; (split; apply (bool_decide_eq_true_1 _); by vm_compute).
Qed.

Definition advertised (s : Slot) (m : Z) : Prop := m ∈ s_mechanisms s.

(** For a card whose certificates a transport reported, what the token advertises
    and what its private keys permit agree. Every key that signs, decrypts or derives
    has an advertised mechanism that does it, every advertised mechanism has a key, no
    token offers both RSA mechanisms, and every private key comes with the certificate
    and the public key that share its [CKA_ID]. *)
Theorem mechanisms_agree (preAuth : Z) (r : ReaderState) (Hr : reported preAuth r) :
  let s := slotOf r in
  (∀ o, o ∈ s_objects s → o_cls o = CKO_PRIVATE_KEY →
     (o_sign o = true → ∃ m, advertised s m ∧ signsWith m o) ∧
     (o_decrypt o = true → ∃ m, advertised s m ∧ decryptsWith m o) ∧
     (o_derive o = true → ∃ m, advertised s m ∧ derivesWith m o) ∧
     ∃ c p, c ∈ s_objects s ∧ p ∈ s_objects s ∧ o_cls c = CKO_CERTIFICATE ∧ o_cls p = CKO_PUBLIC_KEY ∧
       o_ckaId c = o_ckaId o ∧ o_ckaId p = o_ckaId o ∧ o_certId c = o_certId o ∧ o_keyBits p = o_keyBits o) ∧
  (∀ m, advertised s m → ∃ o, o ∈ s_objects s ∧ o_cls o = CKO_PRIVATE_KEY ∧
     (signsWith m o ∨ decryptsWith m o ∨ derivesWith m o)) ∧
  NoDup (s_mechanisms s) ∧ ¬ (advertised s CKM_RSA_PKCS ∧ advertised s CKM_SHA256_RSA_PKCS).
Proof.
  intros s. subst s. unfold advertised. destruct (slotOf_card r) as [-> ->].
  destruct (hasCard r); [|split_and!; [set_solver|set_solver|constructor|set_solver]].
  destruct (mechanismsOf_once (certs r)) as [Hnd Hone]. split_and!; [| |done|done].
  - intros o Ho Hc. destruct (elem_of_objects _ o Ho Hc) as (cert & Hin & Hs & ->).
    split; [by apply sign_mechanism|]. split; [by eapply decrypt_mechanism|]. split; [by apply derive_mechanism|].
    assert (Hsub : ∀ o', o' ∈ objectsOf cert → o' ∈ concat (map objectsOf (certs r))).
    { intros o' ?. apply elem_of_concat_map. eauto. }
    unfold objectsOf in Hsub. rewrite Hs in Hsub. eexists _, _.
    split; [apply Hsub; left|]. split; [apply Hsub; right; left|]. by cbn.
  - intros m (cert & Hin & Hs & Hm)%mechanism_key. exists (privateOf cert). split; [by apply elem_of_private|]. done.
Qed.

(** A card that asks for its CAN with an RSA and an EC key. *)
Example mechanisms_agree_witness :
  let neutral := [mkNeutral "a" [1] Key.Rsa 2048 true false 4 false "Ana"; mkNeutral "b" [2] Key.Ec 256 true true 4 true ""] in
  let r := mkReader "obj/1" "Reader" true "Ana" "7" (omap (λ c, certEntryFrom c PreReadAuth_Can) neutral) in
  s_mechanisms (slotOf r) = [CKM_SHA256_RSA_PKCS; CKM_ECDSA; CKM_ECDH1_DERIVE] ∧ length (s_objects (slotOf r)) = 6%nat ∧
  NoDup (s_mechanisms (slotOf r)).
Proof.
  intros neutral r. split; [reflexivity|]. split; [reflexivity|].
  apply (mechanisms_agree PreReadAuth_Can r). by exists neutral.
Defined.

End Token.
