(* ===== verification/DerivedKeys.v ===== *)
(** * The secret keys of [C_DeriveKey]

    Models [src/pkcs11/DerivedKeys.cpp]: what a template may ask for, the value a key
    takes from the shared secret, and how its attributes are served and matched. A key
    made from a template is served and found as that template asked; the value of a
    sensitive or unextractable key is in nothing that is served. *)
From S2P Require Import Prelude Vocabulary Token.
Import Vocabulary Ck.
Local Open Scope Z_scope.

Module DerivedKeys.

(** The memory behind an attribute: the first [ulValueLen] bytes of its buffer. *)
Definition valueOf (a : CK_ATTRIBUTE) : option (list Z) :=
  (λ buf, take (Z.to_nat (ulValueLen a)) buf) <$> pValue a.

Definition boolOf (a : CK_ATTRIBUTE) : option Z :=
  buf ← pValue a; if negb (ulValueLen a =? 1) then None else Some (default 0 (head buf)).

(** [scalarOf], at the eight bytes of a [CK_ULONG]. *)
Definition scalarOf (a : CK_ATTRIBUTE) : option Z :=
  buf ← pValue a; if negb (ulValueLen a =? 8) then None else Some (leValue (take 8 buf)).

Definition isUsageAttribute (t : CK_ATTRIBUTE_TYPE) : bool :=
  match t with
  | CKA_ENCRYPT | CKA_DECRYPT | CKA_WRAP | CKA_UNWRAP | CKA_SIGN | CKA_VERIFY | CKA_DERIVE => true
  | _ => false
  end.

Record DerivedKeyTemplate := mkTemplate {
  t_keyType : Z; t_valueLen : option Z; t_sensitive : bool; t_extractable : bool; t_label : list Z; t_id : list Z;
  t_usage : list (CK_ATTRIBUTE_TYPE * Z) }.

Definition emptyTemplate : DerivedKeyTemplate := mkTemplate CKK_GENERIC_SECRET None true false [] [] [].

Definition usageOf (t : DerivedKeyTemplate) (ty : CK_ATTRIBUTE_TYPE) : Z :=
  foldl (λ v e, if decide (fst e = ty) then snd e else v) CK_FALSE (t_usage t).

(** The buffer protocol: the length alone, too small, or the bytes. *)
Definition give (attr : CK_ATTRIBUTE) (src : list Z) : CK_RV * CK_ATTRIBUTE :=
  match pValue attr with
  | None => (CKR_OK, mkAttr (type attr) None (zlen src))
  | Some buf =>
      if ulValueLen attr <? zlen src then
        (CKR_BUFFER_TOO_SMALL, mkAttr (type attr) (Some buf) CK_UNAVAILABLE_INFORMATION)
      else (CKR_OK, mkAttr (type attr) (Some (src ++ drop (length src) buf)) (zlen src))
  end.

(** One attribute of the loop of [parseDerivedKeyTemplate]. *)
Definition parseAttribute (t : DerivedKeyTemplate) (a : CK_ATTRIBUTE) : result CK_RV DerivedKeyTemplate :=
  let '(mkTemplate keyType valueLen sensitive extractable label id usage) := t in
  if isUsageAttribute (type a) then
    match boolOf a with
    | None => Err CKR_ATTRIBUTE_VALUE_INVALID
    | Some b => Ok (mkTemplate keyType valueLen sensitive extractable label id (usage ++ [(type a, b)]))
    end
  else
    match type a with
    | CKA_CLASS =>
        match scalarOf a with
        | None => Err CKR_ATTRIBUTE_VALUE_INVALID
        | Some c => if negb (c =? CKO_SECRET_KEY) then Err CKR_TEMPLATE_INCONSISTENT else Ok t
        end
    | CKA_KEY_TYPE =>
        match scalarOf a with
        | None => Err CKR_ATTRIBUTE_VALUE_INVALID
        | Some k =>
            if negb (k =? CKK_GENERIC_SECRET) && negb (k =? CKK_AES) then Err CKR_TEMPLATE_INCONSISTENT
            else Ok (mkTemplate k valueLen sensitive extractable label id usage)
        end
    | CKA_VALUE_LEN =>
        match scalarOf a with
        | None => Err CKR_ATTRIBUTE_VALUE_INVALID
        | Some n =>
            if n =? 0 then Err CKR_ATTRIBUTE_VALUE_INVALID
            else Ok (mkTemplate keyType (Some n) sensitive extractable label id usage)
        end
    | CKA_TOKEN =>
        match boolOf a with
        | None => Err CKR_ATTRIBUTE_VALUE_INVALID
        | Some b => if negb (b =? CK_FALSE) then Err CKR_TEMPLATE_INCONSISTENT else Ok t
        end
    | CKA_PRIVATE =>
        match boolOf a with
        | None => Err CKR_ATTRIBUTE_VALUE_INVALID
        | Some b => if b =? CK_FALSE then Err CKR_TEMPLATE_INCONSISTENT else Ok t
        end
    | CKA_SENSITIVE =>
        match boolOf a with
        | None => Err CKR_ATTRIBUTE_VALUE_INVALID
        | Some b => Ok (mkTemplate keyType valueLen (negb (b =? CK_FALSE)) extractable label id usage)
        end
    | CKA_EXTRACTABLE =>
        match boolOf a with
        | None => Err CKR_ATTRIBUTE_VALUE_INVALID
        | Some b => Ok (mkTemplate keyType valueLen sensitive (negb (b =? CK_FALSE)) label id usage)
        end
    | CKA_LABEL =>
        match valueOf a with
        | None => if negb (ulValueLen a =? 0) then Err CKR_ATTRIBUTE_VALUE_INVALID else Ok t
        | Some v => Ok (mkTemplate keyType valueLen sensitive extractable v id usage)
        end
    | CKA_ID =>
        match valueOf a with
        | None => if negb (ulValueLen a =? 0) then Err CKR_ATTRIBUTE_VALUE_INVALID else Ok t
        | Some v => Ok (mkTemplate keyType valueLen sensitive extractable label v usage)
        end
    | CKA_LOCAL | CKA_ALWAYS_SENSITIVE | CKA_NEVER_EXTRACTABLE | CKA_KEY_GEN_MECHANISM | CKA_VALUE =>
        Err CKR_ATTRIBUTE_READ_ONLY
    | _ => Err CKR_ATTRIBUTE_TYPE_INVALID
    end.

Fixpoint parseAttributes (t : DerivedKeyTemplate) (l : list CK_ATTRIBUTE) : result CK_RV DerivedKeyTemplate :=
  match l with
  | [] => Ok t
  | a :: l => t ← parseAttribute t a; parseAttributes t l
  end.

(** [tmpl] is the array the pointer names, [None] the null pointer. *)
Definition parseDerivedKeyTemplate (tmpl : option (list CK_ATTRIBUTE)) (count : Z) : result CK_RV DerivedKeyTemplate :=
  if (0 <? count) && bool_decide (tmpl = None) then Err CKR_ARGUMENTS_BAD
  else
    t ← parseAttributes emptyTemplate (take (Z.to_nat count) (default [] tmpl));
    if t_keyType t =? CKK_AES then
      match t_valueLen t with
      | None => Err CKR_TEMPLATE_INCOMPLETE
      | Some n => if negb (n =? 16) && negb (n =? 24) && negb (n =? 32) then Err CKR_ATTRIBUTE_VALUE_INVALID else Ok t
      end
    else Ok t.

Definition derivedKeyValue (z : list Z) (t : DerivedKeyTemplate) : result CK_RV (list Z) :=
  match t_valueLen t with
  | None => Ok z
  | Some n => if zlen z <? n then Err CKR_TEMPLATE_INCONSISTENT else Ok (drop (length z - Z.to_nat n) z)
  end.

Record DerivedKey := mkKey { k_slot : Z; k_creator : Z; k_attributes : DerivedKeyTemplate; k_value : list Z }.

Definition serveDerivedKeyAttribute (key : DerivedKey) (attr : CK_ATTRIBUTE) : CK_RV * CK_ATTRIBUTE :=
  let flag (b : bool) := give attr [if b then CK_TRUE else CK_FALSE] in
  let t := k_attributes key in
  match type attr with
  | CKA_CLASS => give attr (leBytes 8 CKO_SECRET_KEY)
  | CKA_KEY_TYPE => give attr (leBytes 8 (t_keyType t))
  | CKA_TOKEN | CKA_LOCAL => flag false
  | CKA_PRIVATE => flag true
  | CKA_SENSITIVE | CKA_ALWAYS_SENSITIVE => flag (t_sensitive t)
  | CKA_EXTRACTABLE => flag (t_extractable t)
  | CKA_NEVER_EXTRACTABLE => flag (negb (t_extractable t))
  | CKA_VALUE_LEN => give attr (leBytes 8 (zlen (k_value key)))
  | CKA_VALUE =>
      if t_sensitive t || negb (t_extractable t) then
        (CKR_ATTRIBUTE_SENSITIVE, mkAttr (type attr) (pValue attr) CK_UNAVAILABLE_INFORMATION)
      else give attr (k_value key)
  | CKA_LABEL => give attr (t_label t)
  | CKA_ID => give attr (t_id t)
  | ty =>
      if isUsageAttribute ty then flag (negb (usageOf t ty =? CK_FALSE))
      else (CKR_ATTRIBUTE_TYPE_INVALID, attr)
  end.

(** One attribute of [derivedKeyMatches]: what is malformed is not compared. *)
Definition derivedKeyMatch (key : DerivedKey) (a : CK_ATTRIBUTE) : bool :=
  match type a with
  | CKA_CLASS => match scalarOf a with Some c => c =? CKO_SECRET_KEY | None => true end
  | CKA_KEY_TYPE => match scalarOf a with Some k => k =? t_keyType (k_attributes key) | None => true end
  | CKA_TOKEN => match boolOf a with Some b => b =? CK_FALSE | None => true end
  | CKA_PRIVATE => match boolOf a with Some b => negb (b =? CK_FALSE) | None => true end
  | CKA_ID => match valueOf a with Some v => bool_decide (v = t_id (k_attributes key)) | None => true end
  | CKA_LABEL => match valueOf a with Some v => bool_decide (v = t_label (k_attributes key)) | None => true end
  | _ => true
  end.

Definition derivedKeyMatches (key : DerivedKey) (tmpl : option (list CK_ATTRIBUTE)) (count : Z) : bool :=
  forallb (derivedKeyMatch key) (take (Z.to_nat count) (default [] tmpl)).

(** ** A key is what its template asked for *)

(** What a checked template says of one attribute it was read from. *)
Definition agrees (t : DerivedKeyTemplate) (a : CK_ATTRIBUTE) : Prop :=
  match type a with
  | CKA_CLASS => scalarOf a = Some CKO_SECRET_KEY
  | CKA_KEY_TYPE => scalarOf a = Some (t_keyType t)
  | CKA_VALUE_LEN => is_Some (scalarOf a) ∧ scalarOf a = t_valueLen t
  | CKA_TOKEN => boolOf a = Some CK_FALSE
  | CKA_PRIVATE => ∃ b, boolOf a = Some b ∧ b ≠ CK_FALSE
  | CKA_SENSITIVE => ∃ b, boolOf a = Some b ∧ t_sensitive t = negb (b =? CK_FALSE)
  | CKA_EXTRACTABLE => ∃ b, boolOf a = Some b ∧ t_extractable t = negb (b =? CK_FALSE)
  | CKA_LABEL => ∀ v, valueOf a = Some v → t_label t = v
  | CKA_ID => ∀ v, valueOf a = Some v → t_id t = v
  | ty => isUsageAttribute ty = true ∧ boolOf a = Some (usageOf t ty)
  end.

Lemma usageOf_snoc t ty b ty' :
  usageOf (mkTemplate (t_keyType t) (t_valueLen t) (t_sensitive t) (t_extractable t) (t_label t) (t_id t) (t_usage t ++ [(ty, b)])) ty' =
  if decide (ty = ty') then b else usageOf t ty'.
Proof. unfold usageOf. cbn [t_usage]. by rewrite foldl_app. Qed.

Lemma parseAttribute_agrees t a t' : parseAttribute t a = Ok t' → agrees t' a.
Proof.
  destruct t as [kt vl se ex la id us]. unfold parseAttribute, agrees.
  destruct (type a) eqn:Et; cbn [isUsageAttribute]; try done;
    (destruct (boolOf a) as [b|] eqn:Eb || destruct (scalarOf a) as [b|] eqn:Eb || destruct (valueOf a) as [b|] eqn:Eb);
    try done; intros H; repeat (case_match; try done; bool_hyps); simplify_eq;
    rewrite ?(usageOf_snoc (mkTemplate kt vl se ex la id us)); rewrite ?decide_True by done; cbn; naive_solver.
Qed.

(** An attribute of another type changes nothing that was said. *)
Lemma parseAttribute_frame t a t' a' :
  parseAttribute t a = Ok t' → type a' ≠ type a → agrees t a' → agrees t' a'.
Proof.
  destruct t as [kt vl se ex la id us]. unfold parseAttribute.
  intros H Hne. unfold agrees.
  destruct (type a) eqn:Et; cbn [isUsageAttribute] in H; repeat (case_match; try done); simplify_eq; try done;
    rewrite ?(usageOf_snoc (mkTemplate kt vl se ex la id us)); rewrite ?decide_False by congruence; cbn; done.
Qed.

Lemma parseAttributes_agrees l : ∀ t t',
  NoDup (map type l) → parseAttributes t l = Ok t' →
  (∀ a, a ∈ l → agrees t' a) ∧ (∀ a, type a ∉ map type l → agrees t a → agrees t' a).
Proof.
  induction l as [|a l IH]; intros t t'; cbn; [intros _ [= ->]; split; [set_solver|done]|].
  intros [Hn Hnd]%NoDup_cons (t1 & Ha & Hl)%bind_Ok. destruct (IH t1 t' Hnd Hl) as [Hin Hout]. split.
  - intros a' [->|Ha']%elem_of_cons; [|by apply Hin]. apply Hout; [done|]. by eapply parseAttribute_agrees.
  - intros a' [Hne Ha']%not_elem_of_cons Hag. apply Hout; [done|]. by eapply parseAttribute_frame.
Qed.

Lemma leBytes_leValue bs : Forall is_byte bs → leBytes (length bs) (leValue bs) = bs.
Proof.
  induction 1 as [|b bs Hb Hbs IH]; [done|]. cbn [length leBytes leValue]. unfold is_byte in Hb. f_equal.
  - rewrite (Z.mul_comm 256), Z_mod_plus_full. by apply Z.mod_small.
  - rewrite (Z.mul_comm 256), Z.div_add, Z.div_small, Z.add_0_l by lia. done.
Qed.

(** A template as a caller passes one: buffers of the stated size, and [CK_BBOOL]s that
    are [CK_TRUE] or [CK_FALSE]. *)
Definition wellFormed (a : CK_ATTRIBUTE) : Prop :=
  (∀ buf, pValue a = Some buf → zlen buf = ulValueLen a ∧ Forall is_byte buf) ∧
  (∀ b, boolOf a = Some b → isUsageAttribute (type a) || bool_decide (type a ∈ [CKA_PRIVATE; CKA_SENSITIVE; CKA_EXTRACTABLE]) = true →
     b = CK_TRUE ∨ b = CK_FALSE).

Lemma boolOf_value a b v : wellFormed a → boolOf a = Some b → valueOf a = Some v → v = [b].
Proof.
  intros [Hw _] (buf & Hb & H)%bind_Some Hv. case_match; [done|]. injection H as <-. bool_hyps.
  destruct (Hw buf Hb) as [Hl _]. unfold valueOf in Hv. rewrite Hb in Hv. cbn in Hv. injection Hv as <-.
  rewrite H0 in *. destruct buf as [|x [|]]; cbn in *; [lia|done|lia].
Qed.

Lemma scalarOf_value a k v : wellFormed a → scalarOf a = Some k → valueOf a = Some v → v = leBytes 8 k.
Proof.
  intros [Hw _] (buf & Hb & H)%bind_Some Hv. case_match; [done|]. injection H as <-. bool_hyps.
  destruct (Hw buf Hb) as [Hl Hf]. unfold valueOf in Hv. rewrite Hb in Hv. cbn in Hv. injection Hv as <-.
  rewrite H0. change (Z.to_nat 8) with 8%nat. replace 8%nat with (length (take 8 buf)) at 2 by (rewrite length_take; lia).
  symmetry. apply leBytes_leValue. by apply Forall_take.
Qed.

(** The value is a tail of the shared secret, of the length the template named. *)
Lemma derivedKeyValue_spec z t v :
  derivedKeyValue z t = Ok v → (∃ before, z = before ++ v) ∧ ∀ n, t_valueLen t = Some n → 0 ≤ n → zlen v = n.
Proof.
  unfold derivedKeyValue. destruct (t_valueLen t) as [n|].
  - case_match; [done|]. intros [= <-]. bool_hyps. split; [eexists; by rewrite take_drop|].
    intros ? [= <-] ?. rewrite length_drop. lia.
  - intros [= ->]. split; [by exists []|done].
Qed.

Lemma scalarOf_nonneg a k : wellFormed a → scalarOf a = Some k → 0 ≤ k.
Proof.
  intros [Hw _] (buf & Hb & H)%bind_Some. case_match; [done|]. injection H as <-. destruct (Hw buf Hb) as [_ Hf].
  apply (Forall_take _ 8) in Hf. induction Hf as [|x bs Hx Hbs IH]; cbn; [lia|]. unfold is_byte in Hx. lia.
Qed.

Lemma serve_agrees key a v buf n :
  wellFormed a → agrees (k_attributes key) a → valueOf a = Some v →
  (∀ len, t_valueLen (k_attributes key) = Some len → 0 ≤ len → zlen (k_value key) = len) →
  serveDerivedKeyAttribute key (mkAttr (type a) buf n) = give (mkAttr (type a) buf n) v.
Proof.
  intros Hw Hag Hv Hlen. pose proof (λ b, boolOf_value a b v Hw) as Hbool. pose proof (λ k, scalarOf_value a k v Hw) as Hscalar.
  pose proof (λ k, scalarOf_nonneg a k Hw) as Hnn.
  destruct Hw as [Hw Hcan]. unfold agrees in Hag. unfold serveDerivedKeyAttribute. cbn [type].
  destruct (type a) eqn:Et; cbn [isUsageAttribute] in *; try (by destruct Hag);
    try (by rewrite (Hbool _ Hag Hv)); try (by rewrite (Hscalar _ Hag Hv)); try (by rewrite (Hag v Hv)).
  all: try (destruct Hag as [_ Hag]; destruct (Hcan _ Hag ltac:(done)) as [Hb|Hb]; by rewrite (Hbool _ Hag Hv), Hb).
  all: try (destruct Hag as (b & Hb & Hr); destruct (Hcan _ Hb ltac:(done)) as [-> | ->]; by rewrite ?Hr, (Hbool _ Hb Hv)).
  destruct Hag as [[k Hk] Hr]. rewrite Hk in Hr. rewrite (Hlen k); [by rewrite (Hscalar _ Hk Hv)|done|by apply Hnn].
Qed.

Lemma match_agrees key a : agrees (k_attributes key) a → derivedKeyMatch key a = true.
Proof.
  unfold agrees, derivedKeyMatch. destruct (type a); try done; try (by intros ->); try (intros ->; apply Z.eqb_refl).
  - intros (b & -> & Hb). by apply negb_true_iff, Z.eqb_neq.
  - intros H. destruct (valueOf a) as [v|]; [|done]. by apply bool_decide_eq_true, symmetry, H.
  - intros H. destruct (valueOf a) as [v|]; [|done]. by apply bool_decide_eq_true, symmetry, H.
Qed.

(** A secret key is what the template of [C_DeriveKey] asked for. Its value is a tail
    of the shared secret, sixteen, twenty-four or thirty-two bytes for AES; asked for an
    attribute the template named, the module gives the bytes the template gave; and a
    search with the template finds the key. *)
Theorem derived_key_as_asked (l : list CK_ATTRIBUTE) (t : DerivedKeyTemplate) (z v : list Z) (slot creator : Z)
    (Honce : NoDup (map type l)) (Hwf : Forall wellFormed l)
    (Hparse : parseDerivedKeyTemplate (Some l) (zlen l) = Ok t) (Hvalue : derivedKeyValue z t = Ok v) :
  let key := mkKey slot creator t v in
  derivedKeyMatches key (Some l) (zlen l) = true ∧
  (∀ a asked buf n, a ∈ l → valueOf a = Some asked →
     serveDerivedKeyAttribute key (mkAttr (type a) buf n) = give (mkAttr (type a) buf n) asked) ∧
  (∃ before, z = before ++ v) ∧
  (t_keyType t = CKK_AES → zlen v = 16 ∨ zlen v = 24 ∨ zlen v = 32).
Proof.
  intros key. unfold parseDerivedKeyTemplate in Hparse. rewrite bool_decide_eq_false_2, andb_false_r in Hparse by done.
  cbn [default] in Hparse. rewrite Nat2Z.id, firstn_all in Hparse. apply bind_Ok in Hparse as (t' & Hl & Ht).
  assert (t' = t) as -> by (repeat case_match; congruence).
  destruct (parseAttributes_agrees l _ _ Honce Hl) as [Hag _].
  destruct (derivedKeyValue_spec z t v Hvalue) as [Htail Hlen]. split_and!.
  - unfold derivedKeyMatches. cbn [default]. rewrite Nat2Z.id, firstn_all. apply forallb_forall. intros a Ha%list_elem_of_In.
    by apply match_agrees, Hag.
  - intros a asked buf n Ha Hv. rewrite Forall_forall in Hwf. apply serve_agrees; auto.
  - done.
  - intros Haes. rewrite Haes in Ht. cbn in Ht. destruct (t_valueLen t) as [n|]; [|done].
    revert Ht. case_match; [done|]. intros _. apply andb_false_iff in H as [[H|H]%andb_false_iff|H]; bool_hyps;
      subst; rewrite (Hlen _ eq_refl) by lia; lia.
Qed.

Example derived_key_as_asked_witness :
  let l := [mkAttr CKA_KEY_TYPE (Some (leBytes 8 CKK_AES)) 8; mkAttr CKA_VALUE_LEN (Some (leBytes 8 16)) 8;
            mkAttr CKA_LABEL (Some [107; 49]) 2; mkAttr CKA_EXTRACTABLE (Some [CK_FALSE]) 1] in
  derivedKeyMatches (mkKey 0 1 (mkTemplate CKK_AES (Some 16) true false [107; 49] [] []) (seqZ 17 16)) (Some l) 4 = true.
Proof.
  intros l. apply (derived_key_as_asked l _ (seqZ 1 32) (seqZ 17 16)); [..|vm_compute; reflexivity|vm_compute; reflexivity].
  - apply (bool_decide_eq_true_1 _). by vm_compute.
  - repeat (apply Forall_cons_2 || apply Forall_nil_2); (split; cbn;
      [intros ? [= <-]; split; [done|unfold is_byte; repeat (apply Forall_cons_2; [split; [apply Z.leb_le|apply Z.ltb_lt]; vm_compute; reflexivity|]); by apply Forall_nil_2]
      |intros b Hb _; discriminate Hb || (injection Hb as <-; auto)]).
Defined.

(** ** The value of a protected key is not served *)

Lemma serve_hides key value attr :
  t_sensitive (k_attributes key) || negb (t_extractable (k_attributes key)) = true → length value = length (k_value key) →
  serveDerivedKeyAttribute (mkKey (k_slot key) (k_creator key) (k_attributes key) value) attr = serveDerivedKeyAttribute key attr.
Proof.
  intros Hs Hl. unfold serveDerivedKeyAttribute. cbn [k_attributes k_value]. by rewrite Hs, Hl.
Qed.

(** What is served fits: the memory behind an attribute keeps its size. *)
Lemma give_fits attr src rv attr' :
  give attr src = (rv, attr') → (∀ buf, pValue attr = Some buf → zlen buf = ulValueLen attr) →
  type attr' = type attr ∧ (length <$> pValue attr') = (length <$> pValue attr).
Proof.
  unfold give. intros Hg Hw. destruct (pValue attr) as [buf|]; [|by simplify_eq].
  specialize (Hw buf eq_refl). case_match; simplify_eq; [done|]. bool_hyps. cbn. split; [done|].
  f_equal. rewrite length_app, length_drop. lia.
Qed.

End DerivedKeys.
