(* ===== verification/Sessions.v ===== *)
(** * The PKCS#11 module's sessions, logins and objects

    Models [src/pkcs11/SessionState.h] and [SessionState.cpp]: the slots with their
    stable ids, the open sessions with their cursors, the login of each token, object
    handles and the derived keys. A [std::map] is a [gmap]; where the code iterates one,
    [sortedKeys] has its order. Times are ticks of the steady clock.

    The state keeps its form ([wf]), a slot id keeps meaning the same reader, and the
    operations implement what the standard says of sessions and logins ([Spec]): the
    sessions of a token share one login, and its private session objects live no longer
    than that login and the session that made them. *)
From stdpp Require Import sorting.
From S2P Require Import Prelude Vocabulary Token DerivedKeys.
Import Vocabulary Ck Token DerivedKeys.
Local Open Scope Z_scope.

Module Sessions.

(** ** Data *)

Record SignCursor := mkSign {
  sign_active : bool; sign_reader : string; sign_certId : string; sign_keyBits : Z; sign_mechanism : Z;
  sign_keyType : Key.KeyType; sign_accumulated : list Z }.
Definition noSign : SignCursor := mkSign false "" "" 0 CKM_RSA_PKCS Key.Other [].

Record DecryptCursor := mkDecrypt {
  decrypt_active : bool; decrypt_reader : string; decrypt_certId : string; decrypt_keyBits : Z;
  decrypt_accumulated : list Z }.
Definition noDecrypt : DecryptCursor := mkDecrypt false "" "" 0 [].

Record FindCursor := mkFind { find_active : bool; find_matches : list Z; find_next : nat }.
Definition noFind : FindCursor := mkFind false [] 0.

Record Session := mkSession {
  slot : Z; flags : Z; find : FindCursor; sign : SignCursor; decrypt : DecryptCursor; rpcInFlight : bool }.

Record SlotLogin := mkLogin { loggedIn : bool; generation : Z; checkedAt : Z }.

Record SessionState := mkState {
  m_slots : list Slot; m_readerToSlot : gmap string Z; m_nextSlotId : Z; m_slotIndex : gmap Z nat;
  m_sessions : gmap Z Session; m_nextSession : Z; m_logins : gmap Z SlotLogin; m_derived : gmap Z DerivedKey;
  m_nextDerived : Z }.

Definition emptyState : SessionState := mkState [] ∅ 0 ∅ ∅ 1 ∅ ∅ 1.

Definition setSessions (m : gmap Z Session) (st : SessionState) : SessionState :=
  mkState (m_slots st) (m_readerToSlot st) (m_nextSlotId st) (m_slotIndex st) m (m_nextSession st) (m_logins st)
    (m_derived st) (m_nextDerived st).
Definition setLogins (m : gmap Z SlotLogin) (st : SessionState) : SessionState :=
  mkState (m_slots st) (m_readerToSlot st) (m_nextSlotId st) (m_slotIndex st) (m_sessions st) (m_nextSession st) m
    (m_derived st) (m_nextDerived st).
Definition setDerived (m : gmap Z DerivedKey) (st : SessionState) : SessionState :=
  mkState (m_slots st) (m_readerToSlot st) (m_nextSlotId st) (m_slotIndex st) (m_sessions st) (m_nextSession st)
    (m_logins st) m (m_nextDerived st).

(** The keys of a [std::map], in order. *)
Definition sortedKeys {A} (m : gmap Z A) : list Z := merge_sort (≤) (map fst (map_to_list m)).

(** ** Logins and derived keys *)

Definition isLoggedIn (s : Z) (st : SessionState) : bool :=
  match m_logins st !! s with Some l => loggedIn l | None => false end.

Definition setLoggedIn (s now : Z) (st : SessionState) : SessionState :=
  let l := default (mkLogin false 0 0) (m_logins st !! s) in
  setLogins (<[s := mkLogin true (u64 (generation l + 1)) now]> (m_logins st)) st.

Definition destroyDerivedKeysOfSlot (s : Z) (st : SessionState) : SessionState :=
  setDerived (filter (λ e, k_slot (snd e) ≠ s) (m_derived st)) st.

Definition destroyDerivedKeysOfSession (creator : Z) (st : SessionState) : SessionState :=
  setDerived (filter (λ e, k_creator (snd e) ≠ creator) (m_derived st)) st.

Definition endLogin (s : Z) (st : SessionState) : SessionState :=
  let st := match m_logins st !! s with
            | Some l => setLogins (<[s := mkLogin false (generation l) (checkedAt l)]> (m_logins st)) st
            | None => st
            end in
  destroyDerivedKeysOfSlot s st.

Definition loginGeneration (s : Z) (st : SessionState) : Z :=
  match m_logins st !! s with Some l => generation l | None => 0 end.

Definition kLoginCheckInterval : Z := 1000000000.

Definition loginCheckDue (s now : Z) (st : SessionState) : bool :=
  match m_logins st !! s with
  | Some l => loggedIn l && (kLoginCheckInterval <=? now - checkedAt l)
  | None => false
  end.

Definition markLoginChecked (s now : Z) (st : SessionState) : SessionState :=
  match m_logins st !! s with
  | Some l => setLogins (<[s := mkLogin (loggedIn l) (generation l) now]> (m_logins st)) st
  | None => st
  end.

(** ** Slots *)

Definition slotById (id : Z) (st : SessionState) : option Slot :=
  idx ← m_slotIndex st !! id; m_slots st !! idx.

Definition slotIds (tokenPresentOnly : bool) (st : SessionState) : list Z :=
  List.filter (λ id, negb (tokenPresentOnly && negb (match slotById id st with Some s => s_tokenPresent s | None => false end)))
    (sortedKeys (m_slotIndex st)).

(** One slot of the loop of [setModel]. *)
Definition placeSlot (st : SessionState) (i : nat) (s : Slot) : SessionState :=
  let '(mkState slots readers next index sessions nextS logins derived nextD) := st in
  match readers !! s_readerPath s with
  | None =>
      mkState slots (<[s_readerPath s := next]> readers) (u64 (next + 1)) (<[next := i]> index) sessions nextS logins
        derived nextD
  | Some id => mkState slots readers next (<[id := i]> index) sessions nextS logins derived nextD
  end.

Fixpoint placeSlots (st : SessionState) (i : nat) (l : list Slot) : SessionState :=
  match l with
  | [] => st
  | s :: l => placeSlots (placeSlot st i s) (S i) l
  end.

(** What a slot showed: its serial when a token is present. *)
Definition shownSerial (s : Slot) : string := if s_tokenPresent s then s_tokenSerial s else "".

(** The test that ends a login when the model is replaced. *)
Definition tokenGone (serial : string) (now : option Slot) : bool :=
  String.eqb serial "" ||
  match now with
  | None => true
  | Some s => negb (s_tokenPresent s) || negb (String.eqb (s_tokenSerial s) serial)
  end.

Definition setModel (model : list Slot) (st : SessionState) : SessionState :=
  let before := map (λ id, (id, match slotById id st with Some s => shownSerial s | None => "" end))
                  (sortedKeys (m_slotIndex st)) in
  let st := placeSlots (mkState model (m_readerToSlot st) (m_nextSlotId st) ∅ (m_sessions st) (m_nextSession st)
                          (m_logins st) (m_derived st) (m_nextDerived st)) 0 model in
  foldl (λ st e, if tokenGone (snd e) (slotById (fst e) st) then endLogin (fst e) st else st) st before.

(** ** Sessions *)

Definition openSession (s f : Z) (st : SessionState) : Z * SessionState :=
  let h := m_nextSession st in
  (h, mkState (m_slots st) (m_readerToSlot st) (m_nextSlotId st) (m_slotIndex st)
        (<[h := mkSession s f noFind noSign noDecrypt false]> (m_sessions st)) (u64 (h + 1)) (m_logins st) (m_derived st)
        (m_nextDerived st)).

Definition session (h : Z) (st : SessionState) : option Session := m_sessions st !! h.

Definition slotHasSessions (s : Z) (st : SessionState) : bool :=
  existsb (λ e, slot (snd e) =? s) (map_to_list (m_sessions st)).

Definition closeSession (h : Z) (st : SessionState) : bool * SessionState :=
  let st := destroyDerivedKeysOfSession h st in
  match m_sessions st !! h with
  | None => (false, st)
  | Some s =>
      let st := setSessions (delete h (m_sessions st)) st in
      (true, if negb (slotHasSessions (slot s) st) then endLogin (slot s) st else st)
  end.

Definition closeAllSessions (s : Z) (st : SessionState) : SessionState :=
  let st := endLogin s st in
  setSessions (filter (λ e, slot (snd e) ≠ s) (m_sessions st)) st.

(** ** Objects *)

Definition kIndexMask : Z := 0xFFFFFFFF.
Definition kSlotShift : Z := 32.
Definition kDerivedHandleBit : Z := Z.shiftl 1 63.

Definition encodeHandle (s : Z) (objIndex : nat) : Z :=
  Z.lor (u64 (Z.shiftl s kSlotShift)) (Z.land (u64 (Z.of_nat objIndex + 1)) kIndexMask).

Definition resolveObject (s h : Z) (st : SessionState) : option Object :=
  let rawIndex := Z.land h kIndexMask in
  if negb (Z.shiftr h kSlotShift =? s) || (rawIndex =? 0) then None
  else sl ← slotById s st; s_objects sl !! Z.to_nat (rawIndex - 1).

Definition isDerivedHandle (h : Z) : bool := negb (Z.land h kDerivedHandleBit =? 0).

Definition addDerivedKey (key : DerivedKey) (st : SessionState) : Z * SessionState :=
  let h := Z.lor kDerivedHandleBit (m_nextDerived st) in
  (h, mkState (m_slots st) (m_readerToSlot st) (m_nextSlotId st) (m_slotIndex st) (m_sessions st) (m_nextSession st)
        (m_logins st) (match m_derived st !! h with Some _ => m_derived st | None => <[h := key]> (m_derived st) end)
        (u64 (m_nextDerived st + 1))).

Definition derivedKey (sess h : Z) (st : SessionState) : option DerivedKey :=
  match m_sessions st !! sess, m_derived st !! h with
  | Some s, Some k => if negb (k_slot k =? slot s) || negb (isLoggedIn (slot s) st) then None else Some k
  | _, _ => None
  end.

Definition destroyDerivedKey (h : Z) (st : SessionState) : bool * SessionState :=
  (bool_decide (is_Some (m_derived st !! h)), setDerived (delete h (m_derived st)) st).

(** One attribute of a search over the card's objects. *)
Definition objectMatch (obj : Object) (a : CK_ATTRIBUTE) : bool :=
  match type a with
  | CKA_CLASS => match scalarOf a with Some cls => cls =? o_cls obj | None => true end
  | CKA_ID => match valueOf a with Some want => bool_decide (want = o_ckaId obj) | None => true end
  | CKA_TOKEN => match boolOf a with Some want => want =? CK_TRUE | None => true end
  | CKA_KEY_TYPE =>
      match scalarOf a with
      | Some want =>
          let isKey := (o_cls obj =? CKO_PUBLIC_KEY) || (o_cls obj =? CKO_PRIVATE_KEY) in
          let have := if decide (o_keyType obj = Key.Ec) then CKK_EC else CKK_RSA in
          isKey && (want =? have)
      | None => true
      end
  | CKA_PRIVATE =>
      match boolOf a with
      | Some want => want =? (if o_cls obj =? CKO_PRIVATE_KEY then CK_TRUE else CK_FALSE)
      | None => true
      end
  | _ => true
  end.

Definition findMatches (sess s : Z) (tmpl : option (list CK_ATTRIBUTE)) (count : Z) (st : SessionState) : list Z :=
  match slotById s st with
  | None => []
  | Some sl =>
      let attrs := take (Z.to_nat count) (default [] tmpl) in
      concat (imap (λ i obj, if forallb (objectMatch obj) attrs then [encodeHandle s i] else []) (s_objects sl)) ++
      List.filter (λ h, match derivedKey sess h st with Some key => derivedKeyMatches key tmpl count | None => false end)
        (sortedKeys (m_derived st))
  end.

(** ** What sessions and logins promise *)

(** The standard's view: which session is on which token, which tokens the user is
    logged in to, and which private session objects there are, with their token and the
    session that made them. *)
Record Spec := mkSpec { sp_sessions : gmap Z Z; sp_user : gset Z; sp_keys : gmap Z (Z * Z) }.

(** The tokens in [gone] are logged out of, with their private session objects. *)
Definition spLogout (gone : gset Z) (a : Spec) : Spec :=
  mkSpec (sp_sessions a) (sp_user a ∖ gone) (filter (λ e, fst (snd e) ∉ gone) (sp_keys a)).

Definition spClose (h : Z) (a : Spec) : Spec :=
  let keys := filter (λ e, snd (snd e) ≠ h) (sp_keys a) in
  match sp_sessions a !! h with
  | None => mkSpec (sp_sessions a) (sp_user a) keys
  | Some s =>
      let a := mkSpec (delete h (sp_sessions a)) (sp_user a) keys in
      if decide (s ∈ (map_img (sp_sessions a) : gset Z)) then a else spLogout {[s]} a
  end.

(** The operations of the state, as a module call performs them. [OSession] is a change
    of a session's cursors. *)
Inductive Op :=
| OSetModel (model : list Slot) | OOpenSession (s f : Z) | OCloseSession (h : Z) | OCloseAllSessions (s : Z)
| OSetLoggedIn (s now : Z) | OEndLogin (s : Z) | OMarkLoginChecked (s now : Z)
| OAddDerivedKey (key : DerivedKey) | ODestroyDerivedKey (h : Z)
| OSession (h : Z) (f : FindCursor) (s : SignCursor) (d : DecryptCursor) (rpc : bool).

Definition updateSession (h : Z) (f : FindCursor) (s : SignCursor) (d : DecryptCursor) (rpc : bool) (st : SessionState) :
    SessionState :=
  setSessions (alter (λ se, mkSession (slot se) (flags se) f s d rpc) h (m_sessions st)) st.

Definition run (op : Op) (st : SessionState) : SessionState :=
  match op with
  | OSetModel model => setModel model st
  | OOpenSession s f => snd (openSession s f st)
  | OCloseSession h => snd (closeSession h st)
  | OCloseAllSessions s => closeAllSessions s st
  | OSetLoggedIn s now => setLoggedIn s now st
  | OEndLogin s => endLogin s st
  | OMarkLoginChecked s now => markLoginChecked s now st
  | OAddDerivedKey key => snd (addDerivedKey key st)
  | ODestroyDerivedKey h => snd (destroyDerivedKey h st)
  | OSession h f s d rpc => updateSession h f s d rpc st
  end.

(** The tokens a new model no longer shows. *)
Definition goneBy (model : list Slot) (st : SessionState) : gset Z :=
  list_to_set (List.filter (λ id, tokenGone (match slotById id st with Some s => shownSerial s | None => "" end)
                                   (slotById id (setModel model st))) (sortedKeys (m_slotIndex st))).

Definition specOf (op : Op) (st : SessionState) (a : Spec) : Spec :=
  match op with
  | OSetModel model => spLogout (goneBy model st) a
  | OOpenSession s _ => mkSpec (<[m_nextSession st := s]> (sp_sessions a)) (sp_user a) (sp_keys a)
  | OCloseSession h => spClose h a
  | OCloseAllSessions s =>
      let a := spLogout {[s]} a in mkSpec (filter (λ e, snd e ≠ s) (sp_sessions a)) (sp_user a) (sp_keys a)
  | OSetLoggedIn s _ => mkSpec (sp_sessions a) ({[s]} ∪ sp_user a) (sp_keys a)
  | OEndLogin s => spLogout {[s]} a
  | OMarkLoginChecked _ _ => a
  | OAddDerivedKey key =>
      mkSpec (sp_sessions a) (sp_user a)
        (<[Z.lor kDerivedHandleBit (m_nextDerived st) := (k_slot key, k_creator key)]> (sp_keys a))
  | ODestroyDerivedKey h => mkSpec (sp_sessions a) (sp_user a) (delete h (sp_keys a))
  | OSession _ _ _ _ _ => a
  end.

Definition abs (st : SessionState) : Spec :=
  mkSpec (slot <$> m_sessions st) (dom (filter (λ e, loggedIn (snd e) = true) (m_logins st)))
    ((λ k, (k_slot k, k_creator k)) <$> m_derived st).

(** ** The form of the state *)

Record wf (st : SessionState) : Prop := {
  wf_index : ∀ id i, m_slotIndex st !! id = Some i →
    ∃ s, m_slots st !! i = Some s ∧ m_readerToSlot st !! s_readerPath s = Some id;
  wf_inj : ∀ r r' id, m_readerToSlot st !! r = Some id → m_readerToSlot st !! r' = Some id → r = r';
  wf_readers : ∀ r id, m_readerToSlot st !! r = Some id → 0 ≤ id < m_nextSlotId st;
  wf_sessions : ∀ h s, m_sessions st !! h = Some s → 0 < h < m_nextSession st;
  wf_derived : ∀ h k, m_derived st !! h = Some k →
    (∃ n, h = Z.lor kDerivedHandleBit n ∧ 0 < n < m_nextDerived st) ∧
    (∃ s, m_sessions st !! k_creator k = Some s ∧ slot s = k_slot k) ∧ isLoggedIn (k_slot k) st = true;
  wf_counters : 0 ≤ m_nextSlotId st < 2 ^ 31 ∧ 0 < m_nextSession st ∧ 0 < m_nextDerived st < 2 ^ 63 }.

(** The counters have room, and a key is added where [C_DeriveKey] adds one. *)
Definition allowed (op : Op) (st : SessionState) : Prop :=
  m_nextSlotId st + (match op with OSetModel model => zlen model | _ => 0 end) < 2 ^ 31 ∧
  m_nextSession st + 1 < 2 ^ 64 ∧ m_nextDerived st + 1 < 2 ^ 63 ∧
  match op with
  | OAddDerivedKey key => ∃ s, m_sessions st !! k_creator key = Some s ∧ slot s = k_slot key ∧ isLoggedIn (k_slot key) st = true
  | _ => True
  end.

(** ** Reading the abstract state *)

Lemma elem_of_user s st : s ∈ sp_user (abs st) ↔ isLoggedIn s st = true.
Proof.
  cbn. rewrite elem_of_dom. unfold isLoggedIn. split.
  - intros [l Hl]. apply map_lookup_filter_Some in Hl as [-> H]. done.
  - destruct (m_logins st !! s) as [l|] eqn:E; [|done]. intros H. exists l. by apply map_lookup_filter_Some.
Qed.

Lemma spec_eq a a' :
  sp_sessions a = sp_sessions a' → (∀ s, s ∈ sp_user a ↔ s ∈ sp_user a') → sp_keys a = sp_keys a' → a = a'.
Proof. destruct a, a'; cbn. intros -> Hu ->. f_equal. by apply set_eq. Qed.

Lemma isLoggedIn_endLogin s s' st : isLoggedIn s' (endLogin s st) = if decide (s' = s) then false else isLoggedIn s' st.
Proof.
  unfold endLogin, isLoggedIn. destruct (m_logins st !! s) as [l|] eqn:E; cbn.
  - destruct (decide (s' = s)) as [->|Hne]; [by rewrite lookup_insert_eq|by rewrite lookup_insert_ne].
  - destruct (decide (s' = s)) as [->|Hne]; [by rewrite E|done].
Qed.

Lemma endLogin_frame s st :
  m_slots (endLogin s st) = m_slots st ∧ m_readerToSlot (endLogin s st) = m_readerToSlot st ∧
  m_nextSlotId (endLogin s st) = m_nextSlotId st ∧ m_slotIndex (endLogin s st) = m_slotIndex st ∧
  m_sessions (endLogin s st) = m_sessions st ∧ m_nextSession (endLogin s st) = m_nextSession st ∧
  m_nextDerived (endLogin s st) = m_nextDerived st ∧
  m_derived (endLogin s st) = filter (λ e, k_slot (snd e) ≠ s) (m_derived st).
Proof. unfold endLogin. by destruct (m_logins st !! s). Qed.

Lemma slotById_endLogin id s st : slotById id (endLogin s st) = slotById id st.
Proof. unfold slotById. by destruct (endLogin_frame s st) as (-> & _ & _ & -> & _). Qed.

Lemma abs_endLogin s st : abs (endLogin s st) = spLogout {[s]} (abs st).
Proof.
  destruct (endLogin_frame s st) as (_ & _ & _ & _ & Hs & _ & _ & Hd). apply spec_eq.
  - cbn [abs spLogout sp_sessions]. by rewrite Hs.
  - intros s'. rewrite elem_of_user, isLoggedIn_endLogin. unfold spLogout. cbn [sp_user].
    rewrite elem_of_difference, elem_of_singleton, elem_of_user. destruct (decide (s' = s)); naive_solver.
  - cbn [abs spLogout sp_keys]. rewrite Hd, map_filter_fmap. f_equal. apply map_filter_ext. intros h k _. cbn. set_solver.
Qed.

Lemma foldl_endLogin (gone : Z * string → SessionState → bool) l st :
  (∀ x s st, gone x (endLogin s st) = gone x st) →
  let st' := foldl (λ st x, if gone x st then endLogin (fst x) st else st) st l in
  abs st' = spLogout (list_to_set (map fst (List.filter (λ x, gone x st) l))) (abs st) ∧
  (∀ s, isLoggedIn s st' = true → isLoggedIn s st = true) ∧ (∀ id, slotById id st' = slotById id st) ∧
  m_slots st' = m_slots st ∧ m_readerToSlot st' = m_readerToSlot st ∧ m_nextSlotId st' = m_nextSlotId st ∧
  m_slotIndex st' = m_slotIndex st ∧ m_sessions st' = m_sessions st ∧ m_nextSession st' = m_nextSession st ∧
  m_nextDerived st' = m_nextDerived st ∧ m_derived st' ⊆ m_derived st.
Proof.
  intros Hg. revert st. induction l as [|x l IH]; intros st; cbn [foldl List.filter map list_to_set].
  - cbn. split_and!; try done. apply spec_eq; [done|cbn; set_solver|cbn].
    symmetry. apply map_filter_id. intros. set_solver.
  - cbn zeta. specialize (IH (if gone x st then endLogin (fst x) st else st)).
    destruct IH as (Ha & Hl & Hslot & IH). rewrite Ha.
    assert (Hext : List.filter (λ y, gone y (if gone x st then endLogin (fst x) st else st)) l = List.filter (λ y, gone y st) l).
    { apply List.filter_ext. intros y. destruct (gone x st); [apply Hg|done]. }
    rewrite Hext. destruct (gone x st); cbn [map list_to_set].
    + split; [|split; [|split]].
      * rewrite abs_endLogin. apply spec_eq; [done|unfold spLogout; cbn [sp_user]; set_solver|].
        unfold spLogout. cbn [sp_keys]. rewrite map_filter_filter. apply map_filter_ext. intros h k _. set_solver.
      * intros s Hs%Hl. rewrite isLoggedIn_endLogin in Hs. by case_decide.
      * intros id. by rewrite Hslot, slotById_endLogin.
      * destruct (endLogin_frame (fst x) st) as (E1 & E2 & E3 & E4 & E5 & E6 & E7 & E8). rewrite E1, E2, E3, E4, E5, E6, E7, E8 in IH.
        destruct IH as (? & ? & ? & ? & ? & ? & ? & Hd). split_and!; try done. etransitivity; [exact Hd|apply map_filter_subseteq].
    + done.
Qed.

(** ** Placing the slots *)

Definition placed (st st' : SessionState) : Prop :=
  m_slots st' = m_slots st ∧ m_sessions st' = m_sessions st ∧ m_nextSession st' = m_nextSession st ∧
  m_logins st' = m_logins st ∧ m_derived st' = m_derived st ∧ m_nextDerived st' = m_nextDerived st ∧
  m_readerToSlot st ⊆ m_readerToSlot st'.

Record numbered (st : SessionState) : Prop := {
  nb_index : ∀ id i, m_slotIndex st !! id = Some i →
    ∃ s, m_slots st !! i = Some s ∧ m_readerToSlot st !! s_readerPath s = Some id;
  nb_inj : ∀ r r' id, m_readerToSlot st !! r = Some id → m_readerToSlot st !! r' = Some id → r = r';
  nb_readers : ∀ r id, m_readerToSlot st !! r = Some id → 0 ≤ id < m_nextSlotId st;
  nb_next : 0 ≤ m_nextSlotId st }.

Lemma placeSlot_spec st i s :
  numbered st → m_slots st !! i = Some s → m_nextSlotId st + 1 < 2 ^ 64 →
  numbered (placeSlot st i s) ∧ placed st (placeSlot st i s) ∧ m_nextSlotId (placeSlot st i s) ≤ m_nextSlotId st + 1.
Proof.
  intros [Hi Hj Hr Hn] Hs Hb. destruct st as [slots readers next index ss ns lg dv nd]. unfold placeSlot. cbn in *.
  destruct (readers !! s_readerPath s) as [id|] eqn:Er; cbn.
  - split; [split; cbn; auto|split; [done|lia]]. intros id' i'. destruct (decide (id = id')) as [<-|Hne].
    + rewrite lookup_insert_eq. intros [= <-]. eauto.
    + rewrite lookup_insert_ne by done. apply Hi.
  - unfold u64. rewrite wrap_small by lia.
    assert (Hsub : readers ⊆ <[s_readerPath s := next]> readers) by by apply insert_subseteq.
    split; [split; cbn|split; [done|lia]].
    + intros id' i'. destruct (decide (next = id')) as [<-|Hne].
      * rewrite lookup_insert_eq. intros [= <-]. exists s. by rewrite lookup_insert_eq.
      * rewrite lookup_insert_ne by done. intros (s' & ? & ?)%Hi. exists s'. split; [done|]. by eapply lookup_weaken.
    + intros r r' id'. rewrite !lookup_insert_Some. intros [[<- <-]|[Hne H1]] [[<- E]|[Hne' H2]]; try done.
      * apply Hr in H2. lia.
      * apply Hr in H1. lia.
      * eauto.
    + intros r id'. rewrite lookup_insert_Some. intros [[<- <-]|[Hne H1%Hr]]; lia.
    + lia.
Qed.

Lemma placeSlots_spec l : ∀ st i,
  numbered st → (∀ k s, l !! k = Some s → m_slots st !! (i + k)%nat = Some s) → m_nextSlotId st + zlen l < 2 ^ 64 →
  numbered (placeSlots st i l) ∧ placed st (placeSlots st i l) ∧ m_nextSlotId (placeSlots st i l) ≤ m_nextSlotId st + zlen l.
Proof.
  induction l as [|s l IH]; intros st i Hn Hl Hb; cbn [placeSlots]; [split_and!; done || (cbn; lia)|].
  destruct (placeSlot_spec st i s) as (Hn' & Hp & Hle); [done| |cbn in Hb; lia|].
  { specialize (Hl 0%nat s eq_refl). by rewrite Nat.add_0_r in Hl. }
  assert (Hsl : m_slots (placeSlot st i s) = m_slots st) by apply Hp.
  destruct (IH (placeSlot st i s) (S i) Hn') as (Hn'' & Hp' & Hle').
  - intros k s' Hk. rewrite Hsl. specialize (Hl (S k) s' Hk). by rewrite Nat.add_succ_r in Hl.
  - cbn in Hb. lia.
  - split; [done|]. split; [|cbn; lia]. destruct Hp as (? & ? & ? & ? & ? & ? & Hr), Hp' as (? & ? & ? & ? & ? & ? & Hr').
    split_and!; try congruence. by etransitivity.
Qed.

Lemma filter_tagged {A B} (f : A → B) (p : A * B → bool) l :
  map fst (List.filter p (map (λ x, (x, f x)) l)) = List.filter (λ x, p (x, f x)) l.
Proof. induction l as [|x l IH]; cbn; [done|]. destruct (p (x, f x)); cbn; by rewrite IH. Qed.

Definition emptied (model : list Slot) (st : SessionState) : SessionState :=
  mkState model (m_readerToSlot st) (m_nextSlotId st) ∅ (m_sessions st) (m_nextSession st) (m_logins st) (m_derived st)
    (m_nextDerived st).

Lemma placed_model model st :
  wf st → m_nextSlotId st + zlen model < 2 ^ 31 →
  numbered (placeSlots (emptied model st) 0 model) ∧ placed (emptied model st) (placeSlots (emptied model st) 0 model) ∧
  m_nextSlotId (placeSlots (emptied model st) 0 model) < 2 ^ 31.
Proof.
  intros Hw Hb. destruct (placeSlots_spec model (emptied model st) 0) as (? & ? & Hle); [|done|cbn; lia|].
  - split; cbn; [set_solver|apply Hw|apply Hw|apply Hw].
  - split_and!; [done|done|]. cbn in Hle. lia.
Qed.

(** What [setModel] leaves: the new slots under their numbers, and the logins and keys of
    the tokens that are still there. *)
Lemma setModel_spec model st :
  wf st → m_nextSlotId st + zlen model < 2 ^ 31 →
  let st' := setModel model st in
  abs st' = spLogout (goneBy model st) (abs st) ∧ (∀ s, isLoggedIn s st' = true → isLoggedIn s st = true) ∧
  numbered st' ∧ m_slots st' = model ∧ m_sessions st' = m_sessions st ∧ m_nextSession st' = m_nextSession st ∧
  m_nextDerived st' = m_nextDerived st ∧ m_derived st' ⊆ m_derived st ∧ m_readerToSlot st ⊆ m_readerToSlot st' ∧
  m_nextSlotId st' < 2 ^ 31.
Proof.
  intros Hw Hb st'. destruct (placed_model model st Hw Hb) as ([Hi Hj Hr Hn] & (P1 & P2 & P3 & P4 & P5 & P6 & P7) & Hlt).
  set (st1 := placeSlots (emptied model st) 0 model) in *.
  set (before := map (λ id, (id, match slotById id st with Some s => shownSerial s | None => "" end)) (sortedKeys (m_slotIndex st))).
  destruct (foldl_endLogin (λ x st, tokenGone (snd x) (slotById (fst x) st)) before st1) as (Ha & Hl & Hs & F1 & F2 & F3 & F4 & F5 & F6 & F7 & F8).
  { intros x s st2. by rewrite slotById_endLogin. }
  change (foldl _ st1 before) with st' in *.
  assert (Habs : abs st1 = abs st) by (unfold abs; cbn in P2, P4, P5; by rewrite P2, P4, P5).
  assert (Hlog : ∀ s, isLoggedIn s st1 = isLoggedIn s st) by (intros s; unfold isLoggedIn; cbn in P4; by rewrite P4).
  split_and!.
  - rewrite Ha, Habs. f_equal. unfold goneBy. f_equal. unfold before. rewrite filter_tagged.
    apply List.filter_ext. intros id. fold st'. by rewrite Hs.
  - intros s. rewrite <- Hlog. apply Hl.
  - split; rewrite ?F1, ?F2, ?F3, ?F4; done.
  - by rewrite F1, P1.
  - by rewrite F5, P2.
  - by rewrite F6, P3.
  - by rewrite F7, P6.
  - rewrite F8. by cbn in P5; rewrite P5.
  - by rewrite F2.
  - by rewrite F3.
Qed.

(** ** Handles *)

Lemma land_high n k : 0 ≤ k → 0 ≤ n < 2 ^ k → Z.land (2 ^ k) n = 0.
Proof.
  intros Hk Hn. apply Z.bits_inj_0. intros j. rewrite Z.land_spec. destruct (decide (j = k)) as [->|Hj].
  - destruct (decide (n = 0)) as [->|]; [by rewrite Z.bits_0, andb_false_r|].
    rewrite (Z.bits_above_log2 n), andb_false_r; [done|lia|]. apply Z.log2_lt_pow2; lia.
  - by rewrite Z.pow2_bits_false.
Qed.

Lemma derivedHandle n : 0 ≤ n < 2 ^ 63 → Z.lor kDerivedHandleBit n = 2 ^ 63 + n.
Proof.
  intros Hn. change kDerivedHandleBit with (2 ^ 63). pose proof (land_high n 63 ltac:(lia) Hn) as H0.
  by rewrite Z.add_nocarry_lxor, Z.lxor_lor.
Qed.

(** The handle of a card's object, as a number. *)
Lemma encodeHandle_value s i :
  0 ≤ s < 2 ^ 32 → Z.of_nat i + 1 < 2 ^ 32 → encodeHandle s i = s * 2 ^ 32 + (Z.of_nat i + 1).
Proof.
  intros Hs Hi. unfold encodeHandle, u64, kSlotShift, kIndexMask.
  rewrite Z.shiftl_mul_pow2, wrap_small, (wrap_small 64 (Z.of_nat i + 1)) by lia.
  change 0xFFFFFFFF with (Z.ones 32). rewrite Z.land_ones, Z.mod_small by lia.
  assert (H0 : Z.land (s * 2 ^ 32) (Z.of_nat i + 1) = 0).
  { rewrite <- Z.shiftl_mul_pow2 by lia. apply Z.bits_inj_0. intros j. rewrite Z.land_spec.
    destruct (decide (j < 32)).
    - destruct (decide (j < 0)); [by rewrite !Z.testbit_neg_r by lia|].
      by rewrite Z.shiftl_spec, (Z.testbit_neg_r s), andb_false_l by lia.
    - rewrite (Z.bits_above_log2 (Z.of_nat i + 1)), andb_false_r; [done|lia|].
      assert (Z.log2 (Z.of_nat i + 1) < 32) by (apply Z.log2_lt_pow2; lia). lia. }
  rewrite (Z.add_nocarry_lxor (s * 2 ^ 32)) by done. by rewrite Z.lxor_lor.
Qed.

Lemma isDerivedHandle_iff h : 0 ≤ h < 2 ^ 64 → isDerivedHandle h = true ↔ 2 ^ 63 ≤ h.
Proof.
  intros Hh. unfold isDerivedHandle. change kDerivedHandleBit with (2 ^ 63). rewrite negb_true_iff, Z.eqb_neq.
  destruct (decide (h < 2 ^ 63)).
  - rewrite Z.land_comm, land_high by lia. lia.
  - split; [lia|]. intros _ H0. replace h with (2 ^ 63 + (h - 2 ^ 63)) in H0 by lia.
    assert (E : 2 ^ 63 + (h - 2 ^ 63) = Z.lor (2 ^ 63) (h - 2 ^ 63)).
    { rewrite <- (derivedHandle (h - 2 ^ 63)); [done|lia]. }
    rewrite E, Z.land_lor_distr_l, Z.land_diag in H0. apply Z.lor_eq_0_iff in H0. lia.
Qed.

(** ** Every operation keeps the form and implements the specification *)

Lemma isLoggedIn_setLoggedIn s s' now st : isLoggedIn s' (setLoggedIn s now st) = (if decide (s' = s) then true else isLoggedIn s' st).
Proof. unfold isLoggedIn, setLoggedIn. cbn. case_decide; [subst; by rewrite lookup_insert_eq|by rewrite lookup_insert_ne]. Qed.

Lemma isLoggedIn_markLoginChecked s s' now st : isLoggedIn s' (markLoginChecked s now st) = isLoggedIn s' st.
Proof.
  unfold isLoggedIn, markLoginChecked. destruct (m_logins st !! s) as [l|] eqn:E; [|done]. cbn.
  destruct (decide (s = s')) as [<-|]; [by rewrite lookup_insert_eq, E|by rewrite lookup_insert_ne].
Qed.

Lemma slotHasSessions_iff s st : slotHasSessions s st = true ↔ ∃ h se, m_sessions st !! h = Some se ∧ slot se = s.
Proof.
  unfold slotHasSessions. rewrite existsb_exists. split.
  - intros ([h se] & Hin%list_elem_of_In%elem_of_map_to_list & E%Z.eqb_eq). eauto.
  - intros (h & se & Hl & <-). exists (h, se). split; [by apply list_elem_of_In, elem_of_map_to_list|]. cbn. apply Z.eqb_refl.
Qed.

Lemma abs_close h st : abs (snd (closeSession h st)) = spClose h (abs st).
Proof.
  unfold closeSession, spClose. cbn [destroyDerivedKeysOfSession setDerived m_sessions].
  assert (Hk : (λ k, (k_slot k, k_creator k)) <$> filter (λ e, k_creator (snd e) ≠ h) (m_derived st) =
    filter (λ e, snd (snd e) ≠ h) (sp_keys (abs st))).
  { cbn [abs sp_keys]. by rewrite map_filter_fmap. }
  cbn [abs sp_sessions]. rewrite lookup_fmap.
  destruct (m_sessions st !! h) as [se|] eqn:E; cbn [fmap option_fmap option_map snd].
  - set (st1 := setSessions _ _). assert (Ha : abs st1 = mkSpec (delete h (slot <$> m_sessions st)) (sp_user (abs st))
      (filter (λ e, snd (snd e) ≠ h) (sp_keys (abs st)))).
    { unfold abs at 1. subst st1. cbn [setSessions destroyDerivedKeysOfSession setDerived m_sessions m_logins m_derived].
      by rewrite fmap_delete, Hk. }
    destruct (slotHasSessions (slot se) st1) eqn:Eh; cbn [negb].
    + rewrite Ha. rewrite decide_True; [done|]. apply slotHasSessions_iff in Eh as (h' & se' & Hl & Hs).
      apply elem_of_map_img. exists h'. cbn. rewrite <- fmap_delete, lookup_fmap. cbn in Hl. rewrite Hl. cbn. by rewrite Hs.
    + rewrite abs_endLogin, Ha. rewrite decide_False; [done|]. intros (h' & Hl)%elem_of_map_img. cbn in Hl.
      rewrite <- fmap_delete, lookup_fmap in Hl. apply fmap_Some in Hl as (se' & Hl & Hs).
      assert (slotHasSessions (slot se) st1 = true); [|congruence]. apply slotHasSessions_iff. eauto.
  - unfold abs at 1. cbn [destroyDerivedKeysOfSession setDerived m_sessions m_logins m_derived]. by rewrite Hk.
Qed.

Lemma fresh_derived st : wf st → m_nextDerived st < 2 ^ 63 → m_derived st !! Z.lor kDerivedHandleBit (m_nextDerived st) = None.
Proof.
  intros Hw Hb. apply eq_None_not_Some. intros [k Hk]. destruct (wf_derived _ Hw _ _ Hk) as [(n & E & Hn) _].
  destruct (wf_counters _ Hw) as (_ & _ & ?). rewrite !derivedHandle in E by lia. lia.
Qed.

Lemma run_refines st op : wf st → allowed op st → abs (run op st) = specOf op st (abs st).
Proof.
  intros Hw (Hb & _ & Hd & Hop). destruct op; cbn [run specOf].
  - by apply setModel_spec.
  - unfold abs. cbn. by rewrite fmap_insert.
  - apply abs_close.
  - unfold closeAllSessions. rewrite <- abs_endLogin. destruct (endLogin_frame s st) as (_ & _ & _ & _ & Hs & _).
    unfold abs at 1. cbn [setSessions m_sessions m_logins m_derived abs sp_sessions sp_user sp_keys]. f_equal.
    by rewrite map_filter_fmap.
  - apply spec_eq; [done| |done]. intros s'. rewrite elem_of_user, isLoggedIn_setLoggedIn. cbn [sp_user].
    rewrite elem_of_union, elem_of_singleton, elem_of_user. case_decide; naive_solver.
  - apply abs_endLogin.
  - apply spec_eq; [| |].
    + unfold markLoginChecked. by case_match.
    + intros s'. by rewrite !elem_of_user, isLoggedIn_markLoginChecked.
    + unfold markLoginChecked. by case_match.
  - unfold abs, addDerivedKey. cbn [snd m_sessions m_logins m_derived]. rewrite (fresh_derived st Hw) by lia.
    cbn. by rewrite fmap_insert.
  - unfold abs. cbn. by rewrite fmap_delete.
  - unfold updateSession, abs. cbn. f_equal. apply map_eq. intros h'. rewrite !lookup_fmap.
    destruct (decide (h = h')) as [<-|]; [|by rewrite lookup_alter_ne]. rewrite lookup_alter_eq. by destruct (m_sessions st !! h).
Qed.

(** Every private session object has its session open and its token logged in to. *)
Definition spInv (a : Spec) : Prop :=
  ∀ h s c, sp_keys a !! h = Some (s, c) → sp_sessions a !! c = Some s ∧ s ∈ sp_user a.

Lemma spInv_abs st :
  spInv (abs st) ↔ ∀ h k, m_derived st !! h = Some k →
    (∃ s, m_sessions st !! k_creator k = Some s ∧ slot s = k_slot k) ∧ isLoggedIn (k_slot k) st = true.
Proof.
  unfold spInv. setoid_rewrite elem_of_user. cbn [abs sp_keys sp_sessions]. split.
  - intros H h k Hk. destruct (H h (k_slot k) (k_creator k)) as [Hs Hl]; [by rewrite lookup_fmap, Hk|].
    rewrite lookup_fmap in Hs. apply fmap_Some in Hs as (s & ? & ?). eauto.
  - intros H h s c Hk. rewrite lookup_fmap in Hk. apply fmap_Some in Hk as (k & Hk & [= -> ->]).
    destruct (H h k Hk) as [(se & Hs & <-) ?]. by rewrite lookup_fmap, Hs.
Qed.

Lemma spInv_logout gone a : spInv a → spInv (spLogout gone a).
Proof. intros Hi h s c [Hk Hn]%map_lookup_filter_Some. destruct (Hi h s c Hk) as [??]. split; [done|]. cbn in *. set_solver. Qed.

Lemma spInv_close h a : spInv a → spInv (spClose h a).
Proof.
  intros Hi. unfold spClose. destruct (sp_sessions a !! h) as [s|] eqn:E.
  - case_decide; [|apply spInv_logout]; intros h' s' c [Hk Hn]%map_lookup_filter_Some; destruct (Hi h' s' c Hk) as [??];
      cbn in *; (split; [by rewrite lookup_delete_ne|done]).
  - intros h' s' c [Hk _]%map_lookup_filter_Some. by apply (Hi h').
Qed.

Lemma specOf_inv op st : wf st → allowed op st → spInv (abs st) → spInv (specOf op st (abs st)).
Proof.
  intros Hw Ha Hi. destruct Ha as (_ & _ & _ & Hop). destruct op; cbn [specOf]; try done.
  - by apply spInv_logout.
  - intros h s' c Hk. destruct (Hi h s' c Hk) as [Hs Hu]. split; [|done]. cbn. rewrite lookup_insert_ne; [done|].
    intros <-. cbn in Hs. rewrite lookup_fmap in Hs. apply fmap_Some in Hs as (se & Hse & _).
    apply (wf_sessions _ Hw) in Hse. lia.
  - by apply spInv_close.
  - intros h s' c Hk. destruct (spInv_logout {[s]} _ Hi h s' c Hk) as [Hs Hu]. split; [|done]. cbn in *.
    apply map_lookup_filter_Some. split; [done|]. cbn. set_solver.
  - intros h s' c Hk. destruct (Hi h s' c Hk) as [??]. split; [done|]. cbn. set_solver.
  - by apply spInv_logout.
  - destruct Hop as (se & Hse & Hs & Hl). intros h s c. cbn. rewrite lookup_insert_Some. intros [[_ [= <- <-]]|[_ Hk]].
    + split; [by rewrite lookup_fmap, Hse, <- Hs|]. by apply elem_of_user in Hl.
    + by apply (Hi h).
  - intros h' s c. cbn [sp_keys]. intros [_ Hk]%lookup_delete_Some. by apply (Hi h').
Qed.

(** The handles of derived keys, and the sessions', stay below their counters. *)
Lemma run_counters op st :
  wf st → allowed op st →
  (∀ h s, m_sessions (run op st) !! h = Some s → 0 < h < m_nextSession (run op st)) ∧
  (∀ h k, m_derived (run op st) !! h = Some k → ∃ n, h = Z.lor kDerivedHandleBit n ∧ 0 < n < m_nextDerived (run op st)) ∧
  0 < m_nextSession (run op st) ∧ 0 < m_nextDerived (run op st) < 2 ^ 63.
Proof.
  intros Hw (Hb & Hns & Hnd & Hop). pose proof (wf_sessions _ Hw) as Hs. destruct (wf_counters _ Hw) as (_ & Hc1 & Hc2 & Hc3).
  assert (Hd : ∀ h k, m_derived st !! h = Some k → ∃ n, h = Z.lor kDerivedHandleBit n ∧ 0 < n < m_nextDerived st).
  { intros h k Hk. by apply (wf_derived _ Hw) in Hk as [? _]. }
  assert (Hend : ∀ s st1, m_derived st1 ⊆ m_derived st → m_derived (endLogin s st1) ⊆ m_derived st).
  { intros s st1 Hsub. destruct (endLogin_frame s st1) as (_ & _ & _ & _ & _ & _ & _ & ->). etransitivity; [apply map_filter_subseteq|done]. }
  destruct op; cbn [run].
  - destruct (setModel_spec model st Hw Hb) as (_ & _ & _ & _ & -> & -> & -> & Hsub & _).
    split_and!; try done. intros h k Hk. eapply Hd, lookup_weaken; done.
  - cbn. unfold u64. rewrite wrap_small by lia. split_and!; try lia; try done.
    intros h se. rewrite lookup_insert_Some. intros [[<- _]|[_ ?%Hs]]; lia.
  - unfold closeSession. set (st1 := destroyDerivedKeysOfSession h st). change (m_sessions st1) with (m_sessions st).
    assert (Hsub : m_derived st1 ⊆ m_derived st) by apply map_filter_subseteq.
    destruct (m_sessions st !! h) as [se|]; cbn [snd]; [|split_and!; try done; intros h' k Hk; eapply Hd, lookup_weaken; done].
    set (st2 := setSessions _ _). assert (Hs2 : ∀ h s, m_sessions st2 !! h = Some s → 0 < h < m_nextSession st).
    { intros h' s. change (m_sessions st2) with (delete h (m_sessions st)). intros [_ ?]%lookup_delete_Some. by eapply Hs. }
    destruct (negb _).
    + specialize (Hend (slot se) st2 Hsub). destruct (endLogin_frame (slot se) st2) as (_ & _ & _ & _ & -> & -> & -> & _).
      split_and!; try done. intros h' k Hk. eapply Hd, lookup_weaken; done.
    + split_and!; try done. intros h' k Hk. eapply Hd, lookup_weaken; done.
  - unfold closeAllSessions. specialize (Hend s st ltac:(done)). destruct (endLogin_frame s st) as (_ & _ & _ & _ & E5 & E6 & E7 & _).
    cbn [setSessions m_sessions m_nextSession m_derived m_nextDerived]. rewrite E5, E6, E7. split_and!; try done.
    + intros h se [? _]%map_lookup_filter_Some. by eapply Hs.
    + intros h' k Hk. eapply Hd, lookup_weaken; done.
  - done.
  - specialize (Hend s st ltac:(done)). destruct (endLogin_frame s st) as (_ & _ & _ & _ & -> & -> & -> & _).
    split_and!; try done. intros h' k Hk. eapply Hd, lookup_weaken; done.
  - unfold markLoginChecked. by case_match.
  - cbn. rewrite (fresh_derived st Hw) by lia. unfold u64. rewrite wrap_small by lia. split_and!; try done; try lia.
    intros h k. rewrite lookup_insert_Some. intros [[<- _]|[_ (n & -> & ?)%Hd]]; eexists; split; done || lia.
  - cbn. split_and!; try done. intros h' k [_ ?]%lookup_delete_Some. by eapply Hd.
  - cbn. split_and!; try done. intros h' se. destruct (decide (h = h')) as [<-|].
    + rewrite lookup_alter_eq. intros (se' & ? & _)%fmap_Some. by eapply Hs.
    + rewrite lookup_alter_ne by done. apply Hs.
Qed.

(** The slots and their numbers change only with the model. *)
Lemma run_frame op st :
  match op with OSetModel _ => True | _ =>
    m_slots (run op st) = m_slots st ∧ m_readerToSlot (run op st) = m_readerToSlot st ∧
    m_nextSlotId (run op st) = m_nextSlotId st ∧ m_slotIndex (run op st) = m_slotIndex st
  end.
Proof.
  destruct op; try done; cbn [run].
  - unfold closeSession. set (st1 := destroyDerivedKeysOfSession h st). destruct (m_sessions st1 !! h) as [se|]; [|done].
    cbn [snd]. destruct (negb _); [|done]. by destruct (endLogin_frame (slot se) (setSessions (delete h (m_sessions st1)) st1)) as (-> & -> & -> & -> & _).
  - unfold closeAllSessions. by destruct (endLogin_frame s st) as (E1 & E2 & E3 & E4 & _).
  - by destruct (endLogin_frame s st) as (-> & -> & -> & -> & _).
  - unfold markLoginChecked. by case_match.
Qed.

Lemma run_numbered op st :
  wf st → allowed op st →
  numbered (run op st) ∧ m_readerToSlot st ⊆ m_readerToSlot (run op st) ∧ m_nextSlotId (run op st) < 2 ^ 31.
Proof.
  intros Hw (Hb & _). assert (Hn : numbered st) by (split; apply Hw).
  pose proof (run_frame op st) as Hf. destruct op; try (destruct Hf as (E1 & E2 & E3 & E4);
    split; [destruct Hn as [H1 H2 H3 H4]; split; rewrite ?E1, ?E2, ?E3, ?E4; done|split; [by rewrite E2|rewrite E3; apply Hw]]).
  destruct (setModel_spec model st Hw Hb) as (_ & _ & ? & _ & _ & _ & _ & _ & ? & ?). done.
Qed.

Lemma run_wf op st : wf st → allowed op st → wf (run op st).
Proof.
  intros Hw Ha. destruct (run_numbered op st Hw Ha) as ([H1 H2 H3 H4] & _ & H0).
  destruct (run_counters op st Hw Ha) as (H5 & H6 & H7 & H8).
  assert (Hinv : spInv (abs (run op st))).
  { rewrite run_refines by done. apply specOf_inv; [done|done|]. apply spInv_abs. intros h k Hk. apply (wf_derived _ Hw _ _ Hk). }
  split; try done. intros h k Hk. split; [by eapply H6|]. by apply (proj1 (spInv_abs _) Hinv h).
Qed.

(** ** Reachable states *)

Inductive reach : SessionState → Prop :=
| reach_empty : reach emptyState
| reach_step st op : reach st → allowed op st → reach (run op st).

Definition step (st st' : SessionState) : Prop := ∃ op, allowed op st ∧ st' = run op st.

Lemma reach_wf st : reach st → wf st.
Proof. induction 1; [split; cbn; set_solver by lia|by apply run_wf]. Qed.

Lemma slotById_reader st id s : wf st → slotById id st = Some s → m_readerToSlot st !! s_readerPath s = Some id.
Proof.
  intros Hw (i & Hi & Hs)%bind_Some. destruct (wf_index _ Hw _ _ Hi) as (s' & Hs' & ?). congruence.
Qed.


(** Whatever the module's calls do, in any order, its session state keeps its form.
    Every slot id stands for a slot of the current model, so no slot is read out of
    range, and for one reader; and every derived key has its own handle, belongs to an
    open session of its token, and its token is logged in to. *)
Theorem session_state_form (st : SessionState) (Hst : reach st) :
  (∀ id i, m_slotIndex st !! id = Some i → ∃ s, m_slots st !! i = Some s ∧ slotById id st = Some s) ∧
  (∀ id id' s s', slotById id st = Some s → slotById id' st = Some s' → s_readerPath s = s_readerPath s' → id = id') ∧
  (∀ h k, m_derived st !! h = Some k →
     isDerivedHandle h = true ∧ isLoggedIn (k_slot k) st = true ∧
     ∃ se, session (k_creator k) st = Some se ∧ slot se = k_slot k ∧ derivedKey (k_creator k) h st = Some k).
Proof.
  assert (Hw := reach_wf st Hst). split_and!.
  - intros id i Hi. destruct (wf_index _ Hw id i Hi) as (s & Hs & _). exists s. split; [done|]. unfold slotById. by rewrite Hi.
  - intros id id' s s' H1%(slotById_reader _ _ _ Hw) H2%(slotById_reader _ _ _ Hw) E. rewrite E in H1. congruence.
  - intros h k Hk. destruct (wf_derived _ Hw h k Hk) as ((n & -> & Hn) & (se & Hse & Hs) & Hl). split_and!; [|done|].
    + destruct (wf_counters _ Hw) as (_ & _ & ?). apply isDerivedHandle_iff; rewrite derivedHandle; lia.
    + exists se. split_and!; [done|done|]. unfold derivedKey. rewrite Hse, Hk, Hs, Z.eqb_refl, Hl. done.
Qed.

(** A token in use, one key derived, then the card exchanged. *)
Definition sampleSlot (serial : string) : Slot :=
  mkSlot "obj/1" "Reader" true true "Ana" serial
    [mkObject CKO_PRIVATE_KEY [1] "k" "c" Key.Ec 256 true true false false] [CKM_ECDSA; CKM_ECDH1_DERIVE].
Definition sampleKey : DerivedKey := mkKey 0 1 emptyTemplate [7].
Definition sampleOps : list Op :=
  [OSetModel [sampleSlot "7"]; OOpenSession 0 4; OSetLoggedIn 0 10; OAddDerivedKey sampleKey].
Definition sampleState : SessionState := foldl (λ st op, run op st) emptyState sampleOps.

Lemma sampleState_reach : reach sampleState.
Proof.
  unfold sampleState, sampleOps. cbn [foldl].
  repeat (apply reach_step; [|repeat (split; [vm_compute; reflexivity|]); try exact I; eexists; split_and!; vm_compute; reflexivity]).
  apply reach_empty.
Qed.


Example session_state_form_witness :
  isLoggedIn 0 sampleState = true ∧ isDerivedHandle (2 ^ 63 + 1) = true.
Proof.
  destruct (session_state_form sampleState sampleState_reach) as (_ & _ & H).
  destruct (H (2 ^ 63 + 1) sampleKey) as (H1 & H2 & _); [by vm_compute|]. done.
Defined.

(** ** Slot ids *)

Lemma steps_readers st st' : reach st → rtc step st st' → reach st' ∧ m_readerToSlot st ⊆ m_readerToSlot st'.
Proof.
  intros Hst. induction 1 as [|x y z (op & Ha & ->) _ IH]; [done|].
  destruct IH as [Hr Hsub]; [by apply reach_step|]. split; [done|]. etransitivity; [|exact Hsub].
  apply run_numbered; [by apply reach_wf|done].
Qed.

(** A slot id a caller holds keeps meaning the same reader: whatever models the
    agent reports in between, with the reader gone for a while or not, a slot id that
    is valid again names the same reader, and a reader that is back has its old id. *)
Theorem slot_ids_stable (st st' : SessionState) (id id' : Z) (s s' : Slot)
    (Hst : reach st) (Hlater : rtc step st st') (Hs : slotById id st = Some s) (Hs' : slotById id' st' = Some s') :
  id = id' ↔ s_readerPath s = s_readerPath s'.
Proof.
  destruct (steps_readers st st' Hst Hlater) as [Hr Hsub].
  pose proof (slotById_reader _ _ _ (reach_wf _ Hst) Hs) as H1. pose proof (slotById_reader _ _ _ (reach_wf _ Hr) Hs') as H2.
  pose proof (lookup_weaken _ _ _ _ H1 Hsub) as H3. split.
  - intros <-. by eapply (wf_inj _ (reach_wf _ Hr)).
  - intros E. rewrite E in H3. congruence.
Qed.

Example slot_ids_stable_witness :
  let later := run (OSetModel [mkSlot "obj/2" "Other" false true "" "" [] []; sampleSlot "9"]) (run (OSetModel []) sampleState) in
  slotById 0 (run (OSetModel []) sampleState) = None ∧ slotById 0 later = Some (sampleSlot "9") ∧ 0 = 0.
Proof.
  intros later. split; [by vm_compute|]. split; [by vm_compute|].
  apply (slot_ids_stable sampleState later 0 0 (sampleSlot "7") (sampleSlot "9")); [apply sampleState_reach| | | |done];
    [|by vm_compute|by vm_compute].
  eapply rtc_l; [|eapply rtc_l; [|apply rtc_refl]]; eexists; (split; [|reflexivity]); repeat split; vm_compute; reflexivity.
Defined.

(** ** Handles and searches *)

Lemma elem_of_sortedKeys {A} (m : gmap Z A) h : h ∈ sortedKeys m ↔ is_Some (m !! h).
Proof.
  unfold sortedKeys. rewrite merge_sort_Permutation, list_elem_of_fmap. split.
  - intros ([h' x] & -> & Hx%elem_of_map_to_list). by eexists.
  - intros [x Hx]. exists (h, x). split; [done|]. by apply elem_of_map_to_list.
Qed.

Lemma sortedKeys_sorted {A} (m : gmap Z A) : Sorted (≤) (sortedKeys m) ∧ NoDup (sortedKeys m).
Proof.
  split; [apply Sorted_merge_sort; intros x y; lia|]. unfold sortedKeys. rewrite merge_sort_Permutation. apply NoDup_fst_map_to_list.
Qed.

Lemma handles_resolve st id s i obj :
  wf st → slotById id st = Some s → zlen (s_objects s) < 2 ^ 32 - 1 → s_objects s !! i = Some obj →
  resolveObject id (encodeHandle id i) st = Some obj ∧ isDerivedHandle (encodeHandle id i) = false.
Proof.
  intros Hw Hs Hl Hi. assert (Hid : 0 ≤ id < 2 ^ 31).
  { apply (slotById_reader _ _ _ Hw) in Hs. apply (wf_readers _ Hw) in Hs. destruct (wf_counters _ Hw) as (? & _). lia. }
  assert (Hlt : Z.of_nat i < zlen (s_objects s)) by (apply lookup_lt_Some in Hi; lia).
  rewrite encodeHandle_value by lia. split.
  - unfold resolveObject, kIndexMask, kSlotShift. change 0xFFFFFFFF with (Z.ones 32).
    rewrite Z.land_ones, Z.shiftr_div_pow2 by lia. rewrite Z.add_comm, Z_mod_plus_full, Z.mod_small by lia.
    rewrite Z.div_add, Z.div_small, Z.add_0_l, Z.eqb_refl by lia. cbn [negb orb].
    replace (Z.of_nat i + 1 =? 0) with false by (symmetry; apply Z.eqb_neq; lia). rewrite Hs. cbn.
    by replace (Z.to_nat (Z.of_nat i + 1 - 1)) with i by lia.
  - apply not_true_iff_false. rewrite isDerivedHandle_iff; lia.
Qed.

Lemma elem_of_indexed {A B} (f : nat → A → list B) (l : list A) y : y ∈ concat (imap f l) ↔ ∃ i x, l !! i = Some x ∧ y ∈ f i x.
Proof.
  revert f. induction l as [|x l IH]; intros f; cbn; [set_solver|]. rewrite elem_of_app, IH. split.
  - intros [H|(i & x' & Hl & H)]; [by exists 0%nat, x|by exists (S i), x'].
  - intros ([|i] & x' & Hl & H); [left; by simplify_eq/=|right; by exists i, x'].
Qed.

Definition selects (tmpl : option (list CK_ATTRIBUTE)) (count : Z) (obj : Object) : Prop :=
  ∀ a, a ∈ take (Z.to_nat count) (default [] tmpl) → objectMatch obj a = true.

(** A search returns exactly the handles of the card's objects that match its
    template and of the derived keys the session may see that match it; the handle of a
    card's object resolves to that object, and never reads as a derived key's. *)
Theorem search_exact (st : SessionState) (sess id : Z) (s : Slot) (tmpl : option (list CK_ATTRIBUTE)) (count : Z)
    (Hst : reach st) (Hs : slotById id st = Some s) (Hl : zlen (s_objects s) < 2 ^ 32 - 1) :
  (∀ h, h ∈ findMatches sess id tmpl count st ↔
     (∃ i obj, s_objects s !! i = Some obj ∧ h = encodeHandle id i ∧ selects tmpl count obj) ∨
     (∃ key, derivedKey sess h st = Some key ∧ derivedKeyMatches key tmpl count = true)) ∧
  (∀ i obj, s_objects s !! i = Some obj →
     resolveObject id (encodeHandle id i) st = Some obj ∧ isDerivedHandle (encodeHandle id i) = false) ∧
  (∀ h key, derivedKey sess h st = Some key → isDerivedHandle h = true).
Proof.
  assert (Hw := reach_wf st Hst). split_and!.
  - intros h. unfold findMatches. rewrite Hs, elem_of_app, elem_of_indexed. f_equiv.
    + split; intros (i & obj & Hi & H); exists i, obj; (split; [done|]).
      * case_match; [|set_solver]. apply list_elem_of_singleton in H as ->. split; [done|].
        intros a Ha%list_elem_of_In. by apply (proj1 (forallb_forall _ _) ltac:(eassumption)).
      * destruct H as [-> Hsel]. replace (forallb _ _) with true; [set_solver|]. symmetry. apply forallb_forall.
        intros a Ha%list_elem_of_In. by apply Hsel.
    + rewrite list_elem_of_In, filter_In, <- list_elem_of_In, elem_of_sortedKeys. split.
      * intros [_ H]. destruct (derivedKey sess h st) as [key|]; [eauto|done].
      * intros (key & Hk & Hm). rewrite Hk. split; [|done]. unfold derivedKey in Hk.
        destruct (m_sessions st !! sess), (m_derived st !! h) eqn:E; by eexists.
  - intros i obj Hi. by eapply handles_resolve.
  - intros h key Hk. unfold derivedKey in Hk. destruct (m_sessions st !! sess), (m_derived st !! h) as [k|] eqn:E; try done.
    destruct (wf_derived _ Hw h k E) as ((n & -> & Hn) & _). destruct (wf_counters _ Hw) as (_ & _ & ?).
    apply isDerivedHandle_iff; rewrite derivedHandle; lia.
Qed.

Example search_exact_witness :
  findMatches 1 0 (Some [mkAttr CKA_PRIVATE (Some [CK_TRUE]) 1]) 1 sampleState = [1; 2 ^ 63 + 1] ∧
  resolveObject 0 1 sampleState ≠ None.
Proof.
  split; [by vm_compute|].
  assert (resolveObject 0 (encodeHandle 0 0) sampleState = Some (mkObject CKO_PRIVATE_KEY [1] "k" "c" Key.Ec 256 true true false false))
    as E; [|by change (encodeHandle 0 0) with 1 in E; rewrite E].
  apply (search_exact sampleState 1 0 (sampleSlot "7") None 0 sampleState_reach); by vm_compute.
Defined.

End Sessions.
