(* ===== verification/Fields.v ===== *)
(** * Building and reading wire maps

    The generic part of [src/wire/Messages.cpp] and [src/wire/ClientCodec.cpp]: a
    message is a map filled by a run of [emplace] calls, some of them under an
    [if] on an optional, and read back key by key. The lemmas here give the
    lookups, the well-formedness and the size of a map from the run that built
    it. *)
From stdpp Require Import gmap strings.
From S2P Require Import Prelude Cbor.
Import Cbor.
Local Open Scope Z_scope.

Module Fields.

(** One [emplace] per entry in order; a [None] is an [if] not taken. *)
Abbreviation fields := (list (string * option CborValue)).

Declare Scope fields_scope.
Delimit Scope fields_scope with fields.
Notation "k ↣ v" := (k, Some v) (at level 61, no associativity, only parsing) : fields_scope.
Notation "k ↣? o" := (k, o) (at level 61, no associativity, only parsing) : fields_scope.

Definition put (m : Map) (f : string * option CborValue) : Map :=
  match f.2 with
  | Some v => emplace f.1 v m
  | None => m
  end.

Definition emplaceAll (base : Map) (fs : fields) : Map := foldl put base fs.

(** The value of the first run entry with the key. *)
Fixpoint assoc (key : string) (fs : fields) : option CborValue :=
  match fs with
  | [] => None
  | (k, o) :: fs =>
      if String.eqb k key then
        match o with
        | Some v => Some v
        | None => assoc key fs
        end
      else assoc key fs
  end.

(** A [for] over a [std::map] whose body emplaces what [f] makes of each entry,
    leaving the function on a [nullopt]. *)
Fixpoint readInto {A} (f : CborValue → option A) (entries : Map) (out : gmap string A) :
    option (gmap string A) :=
  match entries with
  | [] => Some out
  | (k, v) :: entries =>
      match f v with
      | None => None
      | Some a =>
          readInto f entries (match out !! k with Some _ => out | None => <[k := a]> out end)
      end
  end.

(** The entries of a [std::map] as the fields of a wire map. *)
Definition writeFrom {A} (f : A → CborValue) (cells : gmap string A) : fields :=
  map (λ '(k, a), (k, Some (f a))) (map_to_list cells).

(** ** Lookups *)

Lemma mapFind_put key m f : sortedKeys m = true →
  mapFind key (put m f) =
  match mapFind key m with Some w => Some w | None => if String.eqb f.1 key then f.2 else None end.
Proof.
  destruct f as [k [v|]]; cbn; [|intros _; by repeat case_match].
  intros Hs. destruct (String.eqb_spec k key) as [->|Hne].
  - destruct (mapFind key m) as [w|] eqn:E; [|by apply mapFind_emplace].
    induction m as [|[k' w'] m IH]; [done|]. cbn in *. apply andb_true_iff in Hs as [Hk Hs].
    destruct (String.eqb_spec k' key) as [->|Hne].
    + rewrite keyLess_irrefl. cbn. by rewrite String.eqb_refl.
    + destruct (canonicalKeyLess key k') eqn:E1.
      { exfalso. apply forallb_keys_below in Hk. clear IH.
        rewrite (λ H, mapFind_below key m H) in E; [done|]. eapply Forall_impl; [exact Hk|].
        intros [k2 w2] ?. by eapply keyLess_trans. }
      destruct (canonicalKeyLess k' key) eqn:E2; cbn; apply String.eqb_neq in Hne; rewrite Hne; auto.
  - rewrite mapFind_emplace_ne by done. by destruct (mapFind key m).
Qed.
Lemma put_sorted m f : sortedKeys m = true → sortedKeys (put m f) = true.
Proof. destruct f as [k [v|]]; cbn; [apply emplace_sorted|done]. Qed.

Lemma emplaceAll_sorted base fs : sortedKeys base = true → sortedKeys (emplaceAll base fs) = true.
Proof. revert base. induction fs as [|f fs IH]; intros base Hs; [done|]. apply IH, put_sorted, Hs. Qed.

Lemma mapFind_emplaceAll key base fs : sortedKeys base = true →
  mapFind key (emplaceAll base fs) = match mapFind key base with Some w => Some w | None => assoc key fs end.
Proof.
  revert base. induction fs as [|[k o] fs IH]; intros base Hs; [cbn; by case_match|].
  change (emplaceAll base ((k, o) :: fs)) with (emplaceAll (put base (k, o)) fs). cbn [assoc].
  rewrite (IH (put base (k, o))) by by apply put_sorted.
  rewrite mapFind_put by done. cbn. destruct (mapFind key base); [done|].
  destruct (String.eqb k key), o; done.
Qed.

Lemma mapFind_fields key fs : mapFind key (emplaceAll [] fs) = assoc key fs.
Proof. by rewrite mapFind_emplaceAll. Qed.

Lemma assoc_some key (m : Map) : assoc key (map (λ '(k, v), (k, Some v)) m) = mapFind key m.
Proof. induction m as [|[k v] m IH]; [done|]. cbn. by rewrite IH. Qed.

(** ** Well-formedness and size *)

Definition fieldOk (P : CborValue → Prop) (f : string * option CborValue) : Prop :=
  match f.2 with Some v => P v | None => True end.

Lemma put_values P m f : fieldOk P f → Forall (λ kv, P kv.2) m → Forall (λ kv, P kv.2) (put m f).
Proof. destruct f as [k [v|]]; cbn; [apply emplace_values|done]. Qed.

Lemma emplaceAll_values P base fs :
  Forall (λ kv, P kv.2) base → Forall (fieldOk P) fs → Forall (λ kv, P kv.2) (emplaceAll base fs).
Proof.
  intros Hb Hfs. revert base Hb. induction Hfs as [|f fs Hf _ IH]; intros base Hb; [done|].
  by apply IH, put_values.
Qed.

Lemma wellFormed_emplaceAll base fs :
  wellFormed (CMap base) = true → Forall (fieldOk (λ v, wellFormed v = true)) fs →
  wellFormed (CMap (emplaceAll base fs)) = true.
Proof.
  intros [Hs Hwf]%wellFormed_map Hfs. apply wellFormed_map. split; [by apply emplaceAll_sorted|].
  by apply (emplaceAll_values (λ v, wellFormed v = true)).
Qed.

Lemma wellFormed_fields fs : Forall (fieldOk (λ v, wellFormed v = true)) fs →
  wellFormed (CMap (emplaceAll [] fs)) = true.
Proof. by apply wellFormed_emplaceAll. Qed.

Lemma wellFormed_array {A} (f : A → CborValue) l :
  Forall (λ a, wellFormed (f a) = true) l → wellFormed (CArray (map f l)) = true.
Proof. cbn [wellFormed]. induction 1 as [|a l Ha _ IH]; [done|]. cbn. by rewrite Ha, IH. Qed.

Lemma wellFormed_uint u : wellFormed (uint u) = true.
Proof. unfold uint. destruct (Z.leb_spec u INT64_MAX); [done|]. cbn. lia. Qed.

Lemma wellFormed_writeFrom {A} (f : A → CborValue) cells :
  (∀ k a, cells !! k = Some a → wellFormed (f a) = true) →
  Forall (fieldOk (λ v, wellFormed v = true)) (writeFrom f cells).
Proof.
  intros H. unfold writeFrom. apply Forall_forall. intros kv Hkv.
  apply list_elem_of_In, in_map_iff in Hkv as ([k a] & <- & Hka). cbn.
  apply (H k a), elem_of_map_to_list, list_elem_of_In, Hka.
Qed.

(** ** Reading back *)

Lemma asUInt_uint u : 0 ≤ u < 2 ^ 64 → asUInt (uint u) = Some u.
Proof.
  intros [? ?]. unfold uint. destruct (Z.leb_spec u INT64_MAX); cbn; [|done].
  rewrite (proj2 (Z.leb_le 0 u)) by done. unfold u64. by rewrite wrap_small.
Qed.

Lemma assoc_writeFrom {A} (f : A → CborValue) (cells : gmap string A) key :
  assoc key (writeFrom f cells) = f <$> (cells !! key).
Proof.
  unfold writeFrom.
  assert (∀ l : list (string * A), NoDup l.*1 →
    assoc key (map (λ '(k, a), (k, Some (f a))) l) = f <$> ((list_to_map l : gmap string A) !! key)) as H.
  { induction l as [|[k a] l IH]; [done|]. cbn. intros [Hk Hl]%NoDup_cons.
    destruct (String.eqb_spec k key) as [->|Hne]; [by rewrite lookup_insert_eq|].
    rewrite lookup_insert_ne by done. by apply IH. }
  rewrite H by apply NoDup_fst_map_to_list. by rewrite list_to_map_to_list.
Qed.

Lemma readInto_lookup {A} (f : CborValue → option A) (entries : Map) out :
  sortedKeys entries = true → (∀ k v, mapFind k entries = Some v → is_Some (f v)) →
  (∀ k, is_Some (mapFind k entries) → out !! k = None) →
  ∃ cells, readInto f entries out = Some cells ∧
    ∀ k, cells !! k = match mapFind k entries with Some v => f v | None => out !! k end.
Proof.
  revert out. induction entries as [|[k v] entries IH]; intros out; [by eauto|].
  intros [Hk Hs]%sortedKeys_cons Hf Hout. cbn [readInto].
  assert (mapFind k entries = None) as Hfresh by by apply mapFind_below.
  destruct (Hf k v) as [a Ha]; [cbn; by rewrite String.eqb_refl|]. rewrite Ha.
  rewrite (Hout k) by (cbn; rewrite String.eqb_refl; eauto).
  assert (∀ k' w, mapFind k' entries = Some w → k ≠ k') as Hne by (intros k' w ? ->; congruence).
  destruct (IH (<[k := a]> out)) as (cells & -> & Hcells); [done| | |].
  - intros k' w Hw. apply (Hf k'). cbn. pose proof (Hne _ _ Hw) as E%String.eqb_neq. by rewrite E.
  - intros k' [w Hw]. pose proof (Hne _ _ Hw) as E. rewrite lookup_insert_ne by done.
    apply Hout. cbn. apply String.eqb_neq in E. rewrite E. eauto.
  - exists cells. split; [done|]. intros k'. rewrite Hcells. cbn.
    destruct (String.eqb_spec k k') as [->|E]; [|by rewrite lookup_insert_ne].
    by rewrite Hfresh, lookup_insert_eq, Ha.
Qed.

Lemma readInto_writeFrom {A} (f : A → CborValue) (g : CborValue → option A) (cells : gmap string A) :
  (∀ k a, cells !! k = Some a → g (f a) = Some a) →
  readInto g (emplaceAll [] (writeFrom f cells)) ∅ = Some cells.
Proof.
  intros Hgf.
  assert (∀ k, mapFind k (emplaceAll [] (writeFrom f cells)) = f <$> (cells !! k)) as Hfind
    by (intros k; by rewrite mapFind_fields, assoc_writeFrom).
  destruct (readInto_lookup g (emplaceAll [] (writeFrom f cells)) ∅) as (cells' & Hr & Hcells').
  - by apply emplaceAll_sorted.
  - intros k v. rewrite Hfind. destruct (cells !! k) as [a|] eqn:E; [|done]. cbn. intros [= <-].
    rewrite (Hgf _ _ E). eauto.
  - intros. apply lookup_empty.
  - rewrite Hr. f_equal. apply map_eq. intros k. rewrite Hcells', Hfind.
    destruct (cells !! k) as [a|] eqn:E; cbn; [by apply (Hgf k)|apply lookup_empty].
Qed.

Lemma mapM_map {A B} (f : A → B) (g : B → option A) (l : list A) :
  Forall (λ a, g (f a) = Some a) l → mapM g (map f l) = Some l.
Proof. induction 1 as [|a l Ha _ IH]; [done|]. cbn. by rewrite Ha, IH. Qed.

Lemma option_eta {A} (o : option A) : match o with Some v => Some v | None => None end = o.
Proof. by destruct o. Qed.

Lemma none_fmap {A B} (f : A → B) : None = f <$> None.
Proof. done. Qed.

Lemma some_fmap {A B} (f : A → B) a : Some (f a) = f <$> Some a.
Proof. done. Qed.

(** Evaluates the lookup of a literal key in a run of literal keys. *)
Ltac find_key :=
  rewrite ?mapFind_fields, ?mapFind_emplaceAll, ?mapFind_fields by (first [reflexivity | by apply emplaceAll_sorted]);
  cbv beta iota zeta delta [assoc mapFind String.eqb Ascii.eqb Bool.eqb];
  rewrite ?option_eta;
  try first [reflexivity | apply none_fmap | apply some_fmap].

End Fields.
