(* ===== verification/Messages.v ===== *)
(** * The typed messages, agent side

    Models [include/LibreSCRS/Agent/wire/Messages.h] and [src/wire/Messages.cpp]:
    the message structs, the strict parser of requests, and the encoders of
    requests, replies and events. A [double] is its bit pattern, a [std::map] of the
    structs a [gmap]. *)
From stdpp Require Import gmap strings.
From S2P Require Import Prelude Cbor Vocabulary Fields.
Import Cbor Vocabulary Fields.
Local Open Scope Z_scope.
Local Open Scope string_scope.
Local Open Scope fields_scope.

Module Messages.

Inductive WireError := NotDecodable | NotAMap | MissingField | WrongType | NoTag | UnknownMessage.

#[export] Instance WireError_eq_dec : EqDecision WireError.
Proof. solve_decision. Defined.

(** ** Shared sub-types *)

Record VisualSignatureOpts := mkVisual {
  vs_page : Z; vs_x : Z; vs_y : Z; vs_width : Z; vs_height : Z; vs_text : string }.

Record SignOpts := mkSignOpts {
  so_format : string; so_level : string; so_packaging : string;
  so_allowExpired : option bool; so_displayName : option string; so_reason : option string;
  so_location : option string; so_tsaUrl : option string;
  so_visualSignature : option VisualSignatureOpts }.

Record ReaderState := mkReaderState {
  rs_handle : string; rs_name : string; rs_hasCard : bool; rs_card : option string;
  rs_model : string; rs_iface : Iface.ReaderInterface }.

Record CardState := mkCardState {
  cs_handle : string; cs_reader : string; cs_caps : Z; cs_preAuth : Z;
  cs_cardType : option string; cs_atr : option string }.

Record CertField := mkCertField { cf_labelKey : string; cf_labelFallback : string; cf_value : string }.

Record CertInfo := mkCertInfo {
  ci_certId : string; ci_signingCapable : bool; ci_fields : gmap string (gmap string CertField);
  ci_keyUsageBits : Z; ci_ekus : list string; ci_chainSubjectCns : list string;
  ci_trustStatus : Z; ci_alwaysAuthenticate : bool; ci_keyId : list Z;
  ci_keyType : Key.KeyType; ci_keyBits : Z; ci_canDerive : bool }.

Record SignMeta := mkSignMeta {
  sm_format : string; sm_level : string; sm_tsaUsed : bool; sm_chainComplete : bool }.

Record BatchDocument := mkBatchDocument { bd_name : string; bd_fdIndex : Z }.

Record CredentialRecord := mkCredentialRecord {
  cr_id : string; cr_label : string; cr_kind : string; cr_state : string;
  cr_retriesLeft : option Z; cr_retriesMax : option Z; cr_usesLeft : option Z;
  cr_usesMax : option Z; cr_unblocksLeft : option Z;
  cr_canChange : bool; cr_unblockable : bool; cr_activatable : bool;
  cr_keyActivationPending : bool; cr_keyActivatable : bool; cr_recovery : string;
  cr_blockedGuidanceKey : option string; cr_blockedGuidanceFallback : option string;
  cr_keyActivationGuidanceKey : option string; cr_keyActivationGuidanceFallback : option string }.

Record CredentialOpResult := mkCredentialOpResult {
  co_outcome : Cred.CredentialOutcome; co_retriesLeft : option Z; co_blocked : bool }.

(** ** Requests *)

Inductive Request :=
| Hello (proto : Z) (wantsEvents : bool)
| GetState
| ReadIdentity (card : string)
| GetPhoto (card : string)
| ReadCertificates (card : string)
| ReadTokenInfo (card : string)
| Sign (card cert : string) (inFd : Z) (opts : SignOpts)
| SignBatch (card cert : string) (docs : list BatchDocument) (opts : SignOpts)
| GetCertDer (reader cert : string)
| GetConfig
| SetConfig (key : string) (value : CborValue)
| ResetConfig (key : string)
| CancelOp (op : Z)
| GetSignResult (op : Z)
| PkLogin (reader : string)
| PkLogout (reader : string)
| PkPublicKey (reader cert : string)
| PkSignRaw (reader cert mech : string) (data : list Z)
| PkDecrypt (reader cert mech : string) (data : list Z)
| ListCredentials (card : string)
| ManagePin (card pinId verb : string) (activateKey : option bool)
| ActivateSigningKey (card : string)
| LayoutVisual (text : string) (x y width height : Z)
| GetAppearanceFont
| ImportCscaMasterList (list : Z)
| PkDerive (reader cert : string) (data : list Z)
| PkLoginState (reader : string).

Record RequestEnvelope := mkEnvelope { req : Z; body : Request }.

(** ** Replies, op results and events *)

Inductive PublicKeyReply :=
| RsaPublicKey (n e : list Z)
| EcPublicKey (crv : string) (x y : list Z).

Record CscaAnchorStateReply := mkCscaAnchorState {
  ca_anchors : Z; ca_issuers : Z; ca_replayRefusalActive : bool; ca_signer : option string;
  ca_signerPinned : option bool; ca_acceptedAt : option Z; ca_signedAt : option Z }.

(** [std::variant<ErrorCode, SyncError>] and the two optional messages. *)
Record ErrInfo := mkErrInfo {
  ei_code : Z + Sync.SyncError; ei_msgKey : option string; ei_msgFallback : option string }.

Record IdentityField := mkIdentityField {
  if_labelKey : string; if_labelFallback : string; if_type : string;
  if_value : string + list Z }.

Record PhotoItem := mkPhotoItem { ph_key : string; ph_fd : Z }.
Record SignResult := mkSignResult { sr_artifact : Z; sr_meta : SignMeta }.
Record SignBatchRow := mkSignBatchRow {
  sb_displayName : string; sb_artifact : Z; sb_meta : SignMeta; sb_code : Z }.

Inductive OpResult :=
| IdentityResult (fields : gmap string (gmap string IdentityField))
| PhotoResult (photos : list PhotoItem)
| CertListResult (certs : list CertInfo)
| OpSignResult (result : SignResult)
| SignBatchResult (rows : list SignBatchRow)
| CredentialsResult (result : CredentialOpResult) (records : list CredentialRecord).

(** The reply arms, one per overload of [makeReply], [makeSignRecoveryReply] and
    [makeErrorReply]. *)
Inductive Reply :=
| HelloAck (agentVer : string) (features : list string)
| OpStarted (op : Z)
| StateReply (readers : list ReaderState) (cards : list CardState)
| CertListReply (certs : list CertInfo)
| CertDerReply (der : list Z)
| PublicKey (key : PublicKeyReply)
| ConfigReply (entries : gmap string CborValue)
| AckReply
| LoginStateReply (active : bool)
| RawSignatureReply (sig : list Z)
| LayoutReply (fontSize lineHeight : Z) (lines : list string) (clipped : bool)
| AppearanceFontReply (fd : Z)
| CscaAnchorState (state : CscaAnchorStateReply)
| DerivedSecretReply (z : list Z)
| SignRecovery (result : SignResult)
| Error (info : ErrInfo).

Inductive Event :=
| ReaderAdded (reader : ReaderState)
| ReaderRemoved (handle : string)
| CardAdded (card : CardState)
| CardRemoved (handle : string)
| PropertyChanged (handle iface : string) (props : gmap string CborValue)
| ConfigChanged (key : string)
| OpProgress (op phase : Z)
| OpIdentityGroup (op : Z) (groupKey : string) (fields : gmap string IdentityField)
| OpResultReady (op : Z) (result : OpResult)
| OpFinished (op status code : Z) (msgKey msgFallback : string)
| AgentQuiesced (reason : Z).

(** ** Strict field accessors *)

Definition fText (m : Map) (k : string) : result WireError string :=
  match mapFind k m with
  | None => Err MissingField
  | Some v => match asText v with None => Err WrongType | Some t => Ok t end
  end.

Definition fUint (m : Map) (k : string) : result WireError Z :=
  match mapFind k m with
  | None => Err MissingField
  | Some v => match asUInt v with None => Err WrongType | Some u => Ok u end
  end.

Definition fBytes (m : Map) (k : string) : result WireError (list Z) :=
  match mapFind k m with
  | None => Err MissingField
  | Some v => match asBytes v with None => Err WrongType | Some b => Ok b end
  end.

Definition fOptText (m : Map) (k : string) : result WireError (option string) :=
  match mapFind k m with
  | None => Ok None
  | Some v => match asText v with None => Err WrongType | Some t => Ok (Some t) end
  end.

Definition fOptBool (m : Map) (k : string) : result WireError (option bool) :=
  match mapFind k m with
  | None => Ok None
  | Some v => match asBool v with None => Err WrongType | Some b => Ok (Some b) end
  end.

Definition fDouble (m : Map) (k : string) : result WireError Z :=
  match mapFind k m with
  | None => Err MissingField
  | Some v => match asDouble v with None => Err WrongType | Some d => Ok d end
  end.

(** [m->find(k)] of a required field of any type. *)
Definition fAny (m : Map) (k : string) : result WireError CborValue :=
  match mapFind k m with None => Err MissingField | Some v => Ok v end.

Definition parseVisualSignatureOpts (v : CborValue) : result WireError VisualSignatureOpts :=
  match asMap v with
  | None => Err WrongType
  | Some m =>
      page ← fUint m "page";
      x ← fDouble m "x";
      y ← fDouble m "y";
      width ← fDouble m "width";
      height ← fDouble m "height";
      text ← fText m "text";
      Ok (mkVisual page x y width height text)
  end.

Definition parseSignOpts (v : CborValue) : result WireError SignOpts :=
  match asMap v with
  | None => Err WrongType
  | Some m =>
      format ← fText m "format";
      level ← fText m "level";
      packaging ← fText m "packaging";
      allowExpired ← fOptBool m "allowExpired";
      displayName ← fOptText m "displayName";
      reason ← fOptText m "reason";
      location ← fOptText m "location";
      tsaUrl ← fOptText m "tsaUrl";
      visualSignature ←
        match mapFind "visualSignature" m with
        | None => Ok None
        | Some v => parsed ← parseVisualSignatureOpts v; Ok (Some parsed)
        end;
      Ok (mkSignOpts format level packaging allowExpired displayName reason location tsaUrl visualSignature)
  end.

Definition parseBatchDocument (v : CborValue) : result WireError BatchDocument :=
  match asMap v with
  | None => Err WrongType
  | Some m =>
      name ← fText m "name";
      fdIndex ← fUint m "fdIndex";
      Ok (mkBatchDocument name fdIndex)
  end.

(** ** Outbound sub-type encoders *)

Definition arrOfText (v : list string) : CborValue := CArray (map CText v).

Definition encodeVisualSignatureOpts (v : VisualSignatureOpts) : CborValue :=
  CMap (emplaceAll [] [
    "page" ↣ uint (vs_page v);
    "x" ↣ CDouble (vs_x v);
    "y" ↣ CDouble (vs_y v);
    "width" ↣ CDouble (vs_width v);
    "height" ↣ CDouble (vs_height v);
    "text" ↣ CText (vs_text v)]).

Definition encodeSignOpts (o : SignOpts) : CborValue :=
  CMap (emplaceAll [] [
    "format" ↣ CText (so_format o);
    "level" ↣ CText (so_level o);
    "packaging" ↣ CText (so_packaging o);
    "allowExpired" ↣? (CBool <$> so_allowExpired o);
    "displayName" ↣? (CText <$> so_displayName o);
    "reason" ↣? (CText <$> so_reason o);
    "location" ↣? (CText <$> so_location o);
    "tsaUrl" ↣? (CText <$> so_tsaUrl o);
    "visualSignature" ↣? (encodeVisualSignatureOpts <$> so_visualSignature o)]).

Definition encodeReaderState (r : ReaderState) : CborValue :=
  let labelled := negb (String.eqb (rs_model r) "") in
  CMap (emplaceAll [] [
    "handle" ↣ CText (rs_handle r);
    "name" ↣ CText (rs_name r);
    "hasCard" ↣ CBool (rs_hasCard r);
    "card" ↣? (CText <$> rs_card r);
    "model" ↣? (if labelled then Some (CText (rs_model r)) else None);
    "interface" ↣? (if labelled then Some (CText (Iface.readerInterfaceToken (rs_iface r))) else None)]).

Definition encodeCardState (c : CardState) : CborValue :=
  CMap (emplaceAll [] [
    "handle" ↣ CText (cs_handle c);
    "reader" ↣ CText (cs_reader c);
    "caps" ↣ uint (cs_caps c);
    "preAuth" ↣ uint (cs_preAuth c);
    "cardType" ↣? (CText <$> cs_cardType c);
    "atr" ↣? (CText <$> cs_atr c)]).

(** A cert-field tuple, the cell of [encodeCertInfo]'s inner loop. *)
Definition encodeCertField (cell : CertField) : CborValue :=
  CArray [CText (cf_labelKey cell); CText (cf_labelFallback cell); CText (cf_value cell)].

Definition encodeCertInfo (ci : CertInfo) : CborValue :=
  CMap (emplaceAll [] [
    "certId" ↣ CText (ci_certId ci);
    "signingCapable" ↣ CBool (ci_signingCapable ci);
    "fields" ↣ CMap (emplaceAll []
      (writeFrom (λ cells, CMap (emplaceAll [] (writeFrom encodeCertField cells))) (ci_fields ci)));
    "keyUsageBits" ↣ uint (ci_keyUsageBits ci);
    "ekus" ↣ arrOfText (ci_ekus ci);
    "chainSubjectCns" ↣ arrOfText (ci_chainSubjectCns ci);
    "trustStatus" ↣ uint (ci_trustStatus ci);
    "alwaysAuthenticate" ↣ CBool (ci_alwaysAuthenticate ci);
    "keyId" ↣ CBytes (ci_keyId ci);
    "keyType" ↣ CText (Key.keyTypeToken (ci_keyType ci));
    "keyBits" ↣ uint (ci_keyBits ci);
    "canDerive" ↣ CBool (ci_canDerive ci)]).

Definition encodeSignMeta (s : SignMeta) : CborValue :=
  CMap (emplaceAll [] [
    "format" ↣ CText (sm_format s);
    "level" ↣ CText (sm_level s);
    "tsaUsed" ↣ CBool (sm_tsaUsed s);
    "chainComplete" ↣ CBool (sm_chainComplete s)]).

Definition encodeBatchDocument (d : BatchDocument) : CborValue :=
  CMap (emplaceAll [] [
    "name" ↣ CText (bd_name d);
    "fdIndex" ↣ uint (bd_fdIndex d)]).

Definition encodeSignBatchRow (r : SignBatchRow) : CborValue :=
  CMap (emplaceAll [] [
    "displayName" ↣ CText (sb_displayName r);
    "artifact" ↣ uint (sb_artifact r);
    "meta" ↣ encodeSignMeta (sb_meta r);
    "errorCode" ↣ uint (sb_code r)]).

(** [static_cast<std::uint64_t>] of an [int]. *)
Definition uintOfInt (i : Z) : CborValue := uint (u64 i).

Definition encodeCredResult (r : CredentialOpResult) : CborValue :=
  CMap (emplaceAll [] [
    "outcome" ↣ CText (Cred.credOutcomeToken (co_outcome r));
    "retriesLeft" ↣? (uintOfInt <$> co_retriesLeft r);
    "blocked" ↣ CBool (co_blocked r)]).

Definition encodeCredRecord (rec : CredentialRecord) : CborValue :=
  CMap (emplaceAll [] [
    "id" ↣ CText (cr_id rec);
    "label" ↣ CText (cr_label rec);
    "kind" ↣ CText (cr_kind rec);
    "state" ↣ CText (cr_state rec);
    "retriesLeft" ↣? (uintOfInt <$> cr_retriesLeft rec);
    "retriesMax" ↣? (uintOfInt <$> cr_retriesMax rec);
    "usesLeft" ↣? (uintOfInt <$> cr_usesLeft rec);
    "usesMax" ↣? (uintOfInt <$> cr_usesMax rec);
    "unblocksLeft" ↣? (uintOfInt <$> cr_unblocksLeft rec);
    "canChange" ↣ CBool (cr_canChange rec);
    "unblockable" ↣ CBool (cr_unblockable rec);
    "activatable" ↣ CBool (cr_activatable rec);
    "keyActivationPending" ↣ CBool (cr_keyActivationPending rec);
    "keyActivatable" ↣ CBool (cr_keyActivatable rec);
    "recovery" ↣ CText (cr_recovery rec);
    "blockedGuidanceKey" ↣? (CText <$> cr_blockedGuidanceKey rec);
    "blockedGuidanceFallback" ↣? (CText <$> cr_blockedGuidanceFallback rec);
    "keyActivationGuidanceKey" ↣? (CText <$> cr_keyActivationGuidanceKey rec);
    "keyActivationGuidanceFallback" ↣? (CText <$> cr_keyActivationGuidanceFallback rec)]).

(** An id-field tuple, the cell of [encodeIdentityFieldsMap]. *)
Definition encodeIdentityField (cell : IdentityField) : CborValue :=
  CArray [CText (if_labelKey cell); CText (if_labelFallback cell); CText (if_type cell);
          match if_value cell with inl s => CText s | inr b => CBytes b end].

Definition encodeIdentityFieldsMap (cells : gmap string IdentityField) : Map :=
  emplaceAll [] (writeFrom encodeIdentityField cells).

Definition encodePhotoItem (p : PhotoItem) : CborValue :=
  CMap (emplaceAll [] ["key" ↣ CText (ph_key p); "fd" ↣ uint (ph_fd p)]).

Definition encodeOpResult (r : OpResult) : CborValue :=
  CMap (emplaceAll []
    match r with
    | IdentityResult fields =>
        ["kind" ↣ CText "Identity";
         "fields" ↣ CMap (emplaceAll [] (writeFrom (λ cells, CMap (encodeIdentityFieldsMap cells)) fields))]
    | PhotoResult photos =>
        ["kind" ↣ CText "Photo";
         "photos" ↣ CArray (map encodePhotoItem photos)]
    | CertListResult certs =>
        ["kind" ↣ CText "Certificates";
         "certs" ↣ CArray (map encodeCertInfo certs)]
    | OpSignResult result =>
        ["kind" ↣ CText "Sign";
         "artifact" ↣ uint (sr_artifact result);
         "meta" ↣ encodeSignMeta (sr_meta result)]
    | SignBatchResult rows =>
        ["kind" ↣ CText "SignBatch";
         "rows" ↣ CArray (map encodeSignBatchRow rows)]
    | CredentialsResult result records =>
        ["kind" ↣ CText "Credentials";
         "result" ↣ encodeCredResult result;
         "records" ↣ CArray (map encodeCredRecord records)]
    end).

(** ** Requests *)

Definition encodeRequestBody (body : Request) : Map :=
  emplaceAll []
    match body with
    | Hello proto wantsEvents =>
        ["t" ↣ CText "Hello"; "proto" ↣ uint proto;
         "wantsEvents" ↣? (if negb wantsEvents then Some (CBool false) else None)]
    | GetState => ["t" ↣ CText "GetState"]
    | ReadIdentity card => ["t" ↣ CText "ReadIdentity"; "card" ↣ CText card]
    | GetPhoto card => ["t" ↣ CText "GetPhoto"; "card" ↣ CText card]
    | ReadCertificates card => ["t" ↣ CText "ReadCertificates"; "card" ↣ CText card]
    | ReadTokenInfo card => ["t" ↣ CText "ReadTokenInfo"; "card" ↣ CText card]
    | Sign card cert inFd opts =>
        ["t" ↣ CText "Sign"; "card" ↣ CText card; "cert" ↣ CText cert; "in" ↣ uint inFd;
         "opts" ↣ encodeSignOpts opts]
    | SignBatch card cert docs opts =>
        ["t" ↣ CText "SignBatch"; "card" ↣ CText card; "cert" ↣ CText cert;
         "docs" ↣ CArray (map encodeBatchDocument docs); "opts" ↣ encodeSignOpts opts]
    | GetCertDer reader cert =>
        ["t" ↣ CText "GetCertDer"; "reader" ↣ CText reader; "cert" ↣ CText cert]
    | GetConfig => ["t" ↣ CText "GetConfig"]
    | SetConfig key value => ["t" ↣ CText "SetConfig"; "key" ↣ CText key; "value" ↣ value]
    | ResetConfig key => ["t" ↣ CText "ResetConfig"; "key" ↣ CText key]
    | CancelOp op => ["t" ↣ CText "CancelOp"; "op" ↣ uint op]
    | GetSignResult op => ["t" ↣ CText "GetSignResult"; "op" ↣ uint op]
    | PkLogin reader => ["t" ↣ CText "Pkcs11.Login"; "reader" ↣ CText reader]
    | PkLogout reader => ["t" ↣ CText "Pkcs11.Logout"; "reader" ↣ CText reader]
    | PkLoginState reader => ["t" ↣ CText "Pkcs11.LoginState"; "reader" ↣ CText reader]
    | PkPublicKey reader cert =>
        ["t" ↣ CText "Pkcs11.PublicKey"; "reader" ↣ CText reader; "cert" ↣ CText cert]
    | PkSignRaw reader cert mech data =>
        ["t" ↣ CText "Pkcs11.SignRaw"; "reader" ↣ CText reader; "cert" ↣ CText cert;
         "mech" ↣ CText mech; "data" ↣ CBytes data]
    | PkDecrypt reader cert mech data =>
        ["t" ↣ CText "Pkcs11.Decrypt"; "reader" ↣ CText reader; "cert" ↣ CText cert;
         "mech" ↣ CText mech; "data" ↣ CBytes data]
    | PkDerive reader cert data =>
        ["t" ↣ CText "Pkcs11.Derive"; "reader" ↣ CText reader; "cert" ↣ CText cert;
         "data" ↣ CBytes data]
    | ListCredentials card => ["t" ↣ CText "ListCredentials"; "card" ↣ CText card]
    | ManagePin card pinId verb activateKey =>
        ["t" ↣ CText "ManagePin"; "card" ↣ CText card; "pinId" ↣ CText pinId; "verb" ↣ CText verb;
         "activateKey" ↣? (CBool <$> activateKey)]
    | ActivateSigningKey card => ["t" ↣ CText "ActivateSigningKey"; "card" ↣ CText card]
    | LayoutVisual text x y width height =>
        ["t" ↣ CText "LayoutVisual"; "text" ↣ CText text; "x" ↣ CDouble x; "y" ↣ CDouble y;
         "width" ↣ CDouble width; "height" ↣ CDouble height]
    | GetAppearanceFont => ["t" ↣ CText "GetAppearanceFont"]
    | ImportCscaMasterList list => ["t" ↣ CText "ImportCscaMasterList"; "list" ↣ uint list]
    end.

Definition toCbor (env : RequestEnvelope) : CborValue :=
  CMap (emplaceAll (encodeRequestBody (body env)) ["req" ↣ uint (req env)]).

Definition parseHello (m : Map) : result WireError Request :=
  proto ← fUint m "proto";
  wantsEvents ← fOptBool m "wantsEvents";
  Ok (Hello proto (default true wantsEvents)).

Definition parseSign (m : Map) : result WireError Request :=
  card ← fText m "card";
  cert ← fText m "cert";
  inFd ← fUint m "in";
  optsValue ← fAny m "opts";
  opts ← parseSignOpts optsValue;
  Ok (Sign card cert inFd opts).

(** The loop over [docs]: the first bad document is the error. *)
Fixpoint parseBatchDocuments (items : list CborValue) : result WireError (list BatchDocument) :=
  match items with
  | [] => Ok []
  | item :: items =>
      doc ← parseBatchDocument item;
      docs ← parseBatchDocuments items;
      Ok (doc :: docs)
  end.

Definition parseSignBatch (m : Map) : result WireError Request :=
  card ← fText m "card";
  cert ← fText m "cert";
  docsValue ← fAny m "docs";
  match asArray docsValue with
  | None => Err WrongType
  | Some docsArr =>
      docs ← parseBatchDocuments docsArr;
      optsValue ← fAny m "opts";
      opts ← parseSignOpts optsValue;
      Ok (SignBatch card cert docs opts)
  end.

Definition parseSetConfig (m : Map) : result WireError Request :=
  key ← fText m "key";
  value ← fAny m "value";
  Ok (SetConfig key value).

(** The branch shared by [Pkcs11.SignRaw], [Pkcs11.Decrypt] and [Pkcs11.Derive]. *)
Definition parsePkCrypto (t : string) (m : Map) : result WireError Request :=
  reader ← fText m "reader";
  cert ← fText m "cert";
  mechToken ← (if negb (String.eqb t "Pkcs11.Derive") then fText m "mech" else Ok "");
  data ← fBytes m "data";
  if String.eqb t "Pkcs11.SignRaw" then Ok (PkSignRaw reader cert mechToken data)
  else if String.eqb t "Pkcs11.Decrypt" then Ok (PkDecrypt reader cert mechToken data)
  else Ok (PkDerive reader cert data).

Definition parseManagePin (m : Map) : result WireError Request :=
  card ← fText m "card";
  pinId ← fText m "pinId";
  verb ← fText m "verb";
  activateKey ← fOptBool m "activateKey";
  Ok (ManagePin card pinId verb activateKey).

Definition parseLayoutVisual (m : Map) : result WireError Request :=
  text ← fText m "text";
  x ← fDouble m "x";
  y ← fDouble m "y";
  width ← fDouble m "width";
  height ← fDouble m "height";
  Ok (LayoutVisual text x y width height).

(** The chain of [if (t == ...)] of [parseRequest]. *)
Definition parseBody (t : string) (m : Map) : result WireError Request :=
  if String.eqb t "Hello" then parseHello m
  else if String.eqb t "GetState" then Ok GetState
  else if String.eqb t "ReadIdentity" then card ← fText m "card"; Ok (ReadIdentity card)
  else if String.eqb t "GetPhoto" then card ← fText m "card"; Ok (GetPhoto card)
  else if String.eqb t "ReadCertificates" then card ← fText m "card"; Ok (ReadCertificates card)
  else if String.eqb t "ReadTokenInfo" then card ← fText m "card"; Ok (ReadTokenInfo card)
  else if String.eqb t "Sign" then parseSign m
  else if String.eqb t "SignBatch" then parseSignBatch m
  else if String.eqb t "GetCertDer" then
    reader ← fText m "reader"; cert ← fText m "cert"; Ok (GetCertDer reader cert)
  else if String.eqb t "GetConfig" then Ok GetConfig
  else if String.eqb t "SetConfig" then parseSetConfig m
  else if String.eqb t "ResetConfig" then key ← fText m "key"; Ok (ResetConfig key)
  else if String.eqb t "CancelOp" then op ← fUint m "op"; Ok (CancelOp op)
  else if String.eqb t "GetSignResult" then op ← fUint m "op"; Ok (GetSignResult op)
  else if String.eqb t "Pkcs11.Login" then reader ← fText m "reader"; Ok (PkLogin reader)
  else if String.eqb t "Pkcs11.Logout" then reader ← fText m "reader"; Ok (PkLogout reader)
  else if String.eqb t "Pkcs11.LoginState" then reader ← fText m "reader"; Ok (PkLoginState reader)
  else if String.eqb t "Pkcs11.PublicKey" then
    reader ← fText m "reader"; cert ← fText m "cert"; Ok (PkPublicKey reader cert)
  else if String.eqb t "Pkcs11.SignRaw" || String.eqb t "Pkcs11.Decrypt" || String.eqb t "Pkcs11.Derive" then
    parsePkCrypto t m
  else if String.eqb t "ListCredentials" then card ← fText m "card"; Ok (ListCredentials card)
  else if String.eqb t "ManagePin" then parseManagePin m
  else if String.eqb t "ActivateSigningKey" then card ← fText m "card"; Ok (ActivateSigningKey card)
  else if String.eqb t "LayoutVisual" then parseLayoutVisual m
  else if String.eqb t "GetAppearanceFont" then Ok GetAppearanceFont
  else if String.eqb t "ImportCscaMasterList" then list ← fUint m "list"; Ok (ImportCscaMasterList list)
  else Err UnknownMessage.

(** [parseRequest] after the decode. *)
Definition parseDecoded (decoded : CborValue) : result WireError RequestEnvelope :=
  match asMap decoded with
  | None => Err NotAMap
  | Some m =>
      req ← fUint m "req";
      tag ← match fText m "t" with
            | Err MissingField => Err NoTag
            | r => r
            end;
      body ← parseBody tag m;
      Ok (mkEnvelope req body)
  end.

Definition parseRequest {ctx : Type} `{!Qcbor ctx} (bytes : list Z) : result WireError RequestEnvelope :=
  match decode bytes with
  | Err _ => Err NotDecodable
  | Ok decoded => parseDecoded decoded
  end.

(** ** Replies *)

Definition makeReplyBase (req : Z) : Map :=
  emplaceAll [] ["t" ↣ CText "Reply"; "req" ↣ uint req].

Definition mergeInto (base arm : Map) : Map :=
  emplaceAll base (map (λ '(k, v), (k, Some v)) arm).

Definition reply (req : Z) (arm : fields) : CborValue :=
  CMap (mergeInto (makeReplyBase req) (emplaceAll [] arm)).

Definition makeReplyHelloAck (req : Z) (agentVer : string) (features : list string) : CborValue :=
  reply req ["kind" ↣ CText "HelloAck"; "agentVer" ↣ CText agentVer; "features" ↣ arrOfText features].

Definition makeReplyOpStarted (req op : Z) : CborValue := reply req ["op" ↣ uint op].

Definition makeReplyState (req : Z) (readers : list ReaderState) (cards : list CardState) : CborValue :=
  reply req ["readers" ↣ CArray (map encodeReaderState readers);
             "cards" ↣ CArray (map encodeCardState cards)].

Definition makeReplyCertList (req : Z) (certs : list CertInfo) : CborValue :=
  reply req ["certs" ↣ CArray (map encodeCertInfo certs)].

Definition makeReplyCertDer (req : Z) (der : list Z) : CborValue := reply req ["der" ↣ CBytes der].

Definition makeReplyPublicKey (req : Z) (pk : PublicKeyReply) : CborValue :=
  reply req
    match pk with
    | RsaPublicKey n e => ["kty" ↣ CText "RSA"; "n" ↣ CBytes n; "e" ↣ CBytes e]
    | EcPublicKey crv x y => ["kty" ↣ CText "EC"; "crv" ↣ CText crv; "x" ↣ CBytes x; "y" ↣ CBytes y]
    end.

Definition makeReplyConfig (req : Z) (entries : gmap string CborValue) : CborValue :=
  reply req ["entries" ↣ CMap (emplaceAll [] (writeFrom id entries))].

Definition makeReplyAck (req : Z) : CborValue := reply req ["ok" ↣ CBool true].

Definition makeReplyLoginState (req : Z) (active : bool) : CborValue := reply req ["active" ↣ CBool active].

Definition makeReplyRawSignature (req : Z) (sig : list Z) : CborValue := reply req ["sig" ↣ CBytes sig].

Definition makeReplyDerivedSecret (req : Z) (z : list Z) : CborValue := reply req ["z" ↣ CBytes z].

Definition makeReplyLayout (req fontSize lineHeight : Z) (lines : list string) (clipped : bool) : CborValue :=
  reply req ["kind" ↣ CText "Layout"; "fontSize" ↣ CDouble fontSize; "lineHeight" ↣ CDouble lineHeight;
             "lines" ↣ arrOfText lines; "clipped" ↣ CBool clipped].

Definition makeReplyAppearanceFont (req fd : Z) : CborValue := reply req ["fd" ↣ uint fd].

Definition encodeCscaAnchorState (a : CscaAnchorStateReply) : Map :=
  emplaceAll [] [
    "anchors" ↣ uint (ca_anchors a);
    "issuers" ↣ uint (ca_issuers a);
    "replayRefusalActive" ↣ CBool (ca_replayRefusalActive a);
    "signer" ↣? (CText <$> ca_signer a);
    "signerPinned" ↣? (CBool <$> ca_signerPinned a);
    "acceptedAt" ↣? (CInt <$> ca_acceptedAt a);
    "signedAt" ↣? (CInt <$> ca_signedAt a)].

Definition makeReplyCscaAnchorState (req : Z) (a : CscaAnchorStateReply) : CborValue :=
  CMap (mergeInto (makeReplyBase req) (emplaceAll (encodeCscaAnchorState a) ["kind" ↣ CText "CscaAnchorState"])).

Definition makeSignRecoveryReply (req : Z) (sr : SignResult) : CborValue :=
  reply req ["result" ↣ encodeOpResult (OpSignResult sr)].

Definition encodeErrInfo (e : ErrInfo) : Map :=
  emplaceAll [] [
    match ei_code e with
    | inl code => "code" ↣ uint code
    | inr name => "name" ↣ CText (Sync.syncErrorName name)
    end;
    "msgKey" ↣? (CText <$> ei_msgKey e);
    "msgFallback" ↣? (CText <$> ei_msgFallback e)].

Definition makeErrorReply (req : Z) (e : ErrInfo) : CborValue :=
  reply req ["err" ↣ CMap (encodeErrInfo e)].

(** The overload for each arm. *)
Definition makeReply (req : Z) (r : Reply) : CborValue :=
  match r with
  | HelloAck agentVer features => makeReplyHelloAck req agentVer features
  | OpStarted op => makeReplyOpStarted req op
  | StateReply readers cards => makeReplyState req readers cards
  | CertListReply certs => makeReplyCertList req certs
  | CertDerReply der => makeReplyCertDer req der
  | PublicKey key => makeReplyPublicKey req key
  | ConfigReply entries => makeReplyConfig req entries
  | AckReply => makeReplyAck req
  | LoginStateReply active => makeReplyLoginState req active
  | RawSignatureReply sig => makeReplyRawSignature req sig
  | LayoutReply fontSize lineHeight lines clipped => makeReplyLayout req fontSize lineHeight lines clipped
  | AppearanceFontReply fd => makeReplyAppearanceFont req fd
  | CscaAnchorState state => makeReplyCscaAnchorState req state
  | DerivedSecretReply z => makeReplyDerivedSecret req z
  | SignRecovery result => makeSignRecoveryReply req result
  | Error info => makeErrorReply req info
  end.

(** ** Events *)

Definition eventToCbor (e : Event) : CborValue :=
  CMap (emplaceAll []
    match e with
    | ReaderAdded reader => ["t" ↣ CText "ReaderAdded"; "reader" ↣ encodeReaderState reader]
    | ReaderRemoved handle => ["t" ↣ CText "ReaderRemoved"; "handle" ↣ CText handle]
    | CardAdded card => ["t" ↣ CText "CardAdded"; "card" ↣ encodeCardState card]
    | CardRemoved handle => ["t" ↣ CText "CardRemoved"; "handle" ↣ CText handle]
    | PropertyChanged handle iface props =>
        ["t" ↣ CText "PropertyChanged"; "handle" ↣ CText handle; "iface" ↣ CText iface;
         "props" ↣ CMap (emplaceAll [] (writeFrom id props))]
    | ConfigChanged key => ["t" ↣ CText "ConfigChanged"; "key" ↣ CText key]
    | OpProgress op phase => ["t" ↣ CText "OpProgress"; "op" ↣ uint op; "phase" ↣ uint phase]
    | OpIdentityGroup op groupKey fields =>
        ["t" ↣ CText "OpIdentityGroup"; "op" ↣ uint op; "groupKey" ↣ CText groupKey;
         "fields" ↣ CMap (encodeIdentityFieldsMap fields)]
    | OpResultReady op result =>
        ["t" ↣ CText "OpResultReady"; "op" ↣ uint op; "result" ↣ encodeOpResult result]
    | OpFinished op status code msgKey msgFallback =>
        ["t" ↣ CText "OpFinished"; "op" ↣ uint op; "status" ↣ uint status; "code" ↣ uint code;
         "msgKey" ↣ CText msgKey; "msgFallback" ↣ CText msgFallback]
    | AgentQuiesced reason => ["t" ↣ CText "AgentQuiesced"; "reason" ↣ uint reason]
    end).

(** ** Values the structs can hold *)

(** The ranges of the C++ field types. *)
Definition isU64 (z : Z) : bool := ((0 <=? z) && (z <? 2 ^ 64))%Z.
Definition isU32 (z : Z) : bool := ((0 <=? z) && (z <? 2 ^ 32))%Z.

Definition visualInRange (v : VisualSignatureOpts) : bool := isU64 (vs_page v).
Definition optsInRange (o : SignOpts) : bool :=
  match so_visualSignature o with Some v => visualInRange v | None => true end.

Definition requestInRange (r : Request) : bool :=
  match r with
  | Hello n _ | CancelOp n | GetSignResult n | ImportCscaMasterList n => isU64 n
  | Sign _ _ inFd opts => isU64 inFd && optsInRange opts
  | SignBatch _ _ docs opts => forallb (λ d, isU64 (bd_fdIndex d)) docs && optsInRange opts
  | SetConfig _ value => wellFormed value
  | _ => true
  end.

(** ** Reading the fields of a built map *)

Lemma fText_at m k s : mapFind k m = Some (CText s) → fText m k = Ok s.
Proof. unfold fText. by intros ->. Qed.

Lemma fUint_at m k u : mapFind k m = Some (uint u) → isU64 u = true → fUint m k = Ok u.
Proof. unfold fUint. intros -> [? ?%Z.ltb_lt]%andb_true_iff. rewrite asUInt_uint; [done|lia]. Qed.

Lemma fBytes_at m k b : mapFind k m = Some (CBytes b) → fBytes m k = Ok b.
Proof. unfold fBytes. by intros ->. Qed.

Lemma fDouble_at m k d : mapFind k m = Some (CDouble d) → fDouble m k = Ok d.
Proof. unfold fDouble. by intros ->. Qed.

Lemma fAny_at m k v : mapFind k m = Some v → fAny m k = Ok v.
Proof. unfold fAny. by intros ->. Qed.

Lemma fOptText_at m k o : mapFind k m = CText <$> o → fOptText m k = Ok o.
Proof. unfold fOptText. intros ->. by destruct o. Qed.

Lemma fOptBool_at m k o : mapFind k m = CBool <$> o → fOptBool m k = Ok o.
Proof. unfold fOptBool. intros ->. by destruct o. Qed.

(** Runs the next accessor of a parse; the ranges are hypotheses. *)
Ltac parse_field :=
  lazymatch goal with
  | |- fText ?m ?k ≫= _ = _ => erewrite (fText_at m k) by find_key
  | |- fUint ?m ?k ≫= _ = _ => erewrite (fUint_at m k); [|find_key|eassumption]
  | |- fBytes ?m ?k ≫= _ = _ => erewrite (fBytes_at m k) by find_key
  | |- fDouble ?m ?k ≫= _ = _ => erewrite (fDouble_at m k) by find_key
  | |- fOptText ?m ?k ≫= _ = _ => erewrite (fOptText_at m k) by find_key
  | |- fOptBool ?m ?k ≫= _ = _ => erewrite (fOptBool_at m k) by find_key
  | |- fAny ?m ?k ≫= _ = _ => erewrite (fAny_at m k) by find_key
  end;
  rewrite Ok_bind.

Lemma parseVisualSignatureOpts_encode v :
  visualInRange v = true → parseVisualSignatureOpts (encodeVisualSignatureOpts v) = Ok v.
Proof.
  intros Hv. unfold visualInRange in Hv. unfold parseVisualSignatureOpts, encodeVisualSignatureOpts. cbn [asMap].
  repeat parse_field. by destruct v.
Qed.

Lemma parseSignOpts_encode o : optsInRange o = true → parseSignOpts (encodeSignOpts o) = Ok o.
Proof.
  intros Ho. unfold parseSignOpts, encodeSignOpts. cbn [asMap]. repeat parse_field.
  match goal with
  | |- context [mapFind ?k ?m] =>
      assert (mapFind k m = encodeVisualSignatureOpts <$> so_visualSignature o) as -> by find_key
  end.
  unfold optsInRange in Ho.
  destruct o as [????????[v|]]; cbn [so_visualSignature fmap option_fmap option_map] in *; [|done].
  by rewrite parseVisualSignatureOpts_encode.
Qed.

Lemma parseBatchDocument_encode d : isU64 (bd_fdIndex d) = true → parseBatchDocument (encodeBatchDocument d) = Ok d.
Proof.
  intros Hd. unfold parseBatchDocument, encodeBatchDocument. cbn [asMap]. repeat parse_field. by destruct d.
Qed.

Lemma parseBatchDocuments_encode docs :
  forallb (λ d, isU64 (bd_fdIndex d)) docs = true → parseBatchDocuments (map encodeBatchDocument docs) = Ok docs.
Proof.
  induction docs as [|d docs IH]; [done|]. intros [Hd Hdocs]%andb_true_iff.
  cbn [map parseBatchDocuments]. by rewrite parseBatchDocument_encode, Ok_bind, IH, Ok_bind.
Qed.

(** Splits a conjunction of range checks, not the check of one number. *)
Ltac split_range :=
  repeat match goal with H : (_ && _)%bool = true |- _ => apply andb_true_iff in H as [? ?] end.

Lemma parseDecoded_toCbor env : isU64 (req env) = true → requestInRange (body env) = true →
  parseDecoded (toCbor env) = Ok env.
Proof.
  destruct env as [r b]. cbn [req body]. intros Hr Hb. unfold parseDecoded, toCbor. cbn [asMap req body].
  destruct b; unfold encodeRequestBody; parse_field; erewrite fText_at by find_key; rewrite Ok_bind;
    rewrite bind_Ok; (eexists; split; [|reflexivity]);
    cbv beta iota zeta delta [parseBody String.eqb Ascii.eqb Bool.eqb orb
      parseHello parseSign parseSignBatch parseSetConfig parsePkCrypto parseManagePin parseLayoutVisual negb];
    cbn [requestInRange] in Hb; split_range;
    repeat parse_field; try reflexivity.
  - rewrite (fOptBool_at _ _ (if wantsEvents then None else Some false)); [|find_key]; by destruct wantsEvents.
  - by rewrite parseSignOpts_encode.
  - cbn [asArray]. rewrite parseBatchDocuments_encode, Ok_bind by done. repeat parse_field.
    by rewrite parseSignOpts_encode.
Qed.

(** ** Encoded messages are well formed *)

Lemma fieldOk_opt {A} (P : CborValue → Prop) (f : A → CborValue) k o :
  (∀ a, o = Some a → P (f a)) → fieldOk P (k, f <$> o).
Proof. destruct o; cbn; auto. Qed.

Ltac wf_fields :=
  apply wellFormed_fields; repeat (apply Forall_cons_2 || apply Forall_nil_2);
  try (done || apply wellFormed_uint || (by apply fieldOk_opt; intros; (done || apply wellFormed_uint))).

Lemma wellFormed_arrOfText v : wellFormed (arrOfText v) = true.
Proof. apply wellFormed_array, Forall_true. done. Qed.

Lemma wellFormed_visual v : wellFormed (encodeVisualSignatureOpts v) = true.
Proof. wf_fields. Qed.

Lemma wellFormed_signOpts o : wellFormed (encodeSignOpts o) = true.
Proof. wf_fields. apply fieldOk_opt. intros. apply wellFormed_visual. Qed.

Lemma wellFormed_batchDocument d : wellFormed (encodeBatchDocument d) = true.
Proof. wf_fields. Qed.

Lemma wellFormed_toCbor env : requestInRange (body env) = true → wellFormed (toCbor env) = true.
Proof.
  destruct env as [r b]. intros Hb. apply wellFormed_emplaceAll.
  2: { repeat constructor; apply wellFormed_uint. }
  cbn [body] in *. destruct b; cbn [requestInRange] in Hb; split_range; wf_fields.
  - by destruct wantsEvents.
  - apply wellFormed_signOpts.
  - by apply wellFormed_array, Forall_true, wellFormed_batchDocument.
  - apply wellFormed_signOpts.
Qed.

Lemma wellFormed_readerState r : wellFormed (encodeReaderState r) = true.
Proof. wf_fields; by case_match. Qed.

Lemma wellFormed_cardState c : wellFormed (encodeCardState c) = true.
Proof. wf_fields. Qed.

Lemma wellFormed_certInfo ci : wellFormed (encodeCertInfo ci) = true.
Proof.
  wf_fields; try apply wellFormed_arrOfText.
  apply wellFormed_fields, wellFormed_writeFrom. intros _ cells _.
  by apply wellFormed_fields, wellFormed_writeFrom.
Qed.

Lemma wellFormed_identityFields cells : wellFormed (CMap (encodeIdentityFieldsMap cells)) = true.
Proof.
  apply wellFormed_fields, wellFormed_writeFrom. intros _ [? ? ? []] _; done.
Qed.

Lemma wellFormed_signBatchRow r : wellFormed (encodeSignBatchRow r) = true.
Proof. wf_fields. Qed.

Lemma wellFormed_credRecord r : wellFormed (encodeCredRecord r) = true.
Proof. wf_fields. Qed.

Lemma wellFormed_opResult r : wellFormed (encodeOpResult r) = true.
Proof.
  destruct r; wf_fields.
  - apply wellFormed_fields, wellFormed_writeFrom. intros. apply wellFormed_identityFields.
  - apply wellFormed_array, Forall_true. intros. wf_fields.
  - apply wellFormed_array, Forall_true, wellFormed_certInfo.
  - apply wellFormed_array, Forall_true, wellFormed_signBatchRow.
  - wf_fields.
  - apply wellFormed_array, Forall_true, wellFormed_credRecord.
Qed.

Lemma wellFormed_reply req arm : wellFormed (CMap arm) = true → wellFormed (CMap (mergeInto (makeReplyBase req) arm)) = true.
Proof.
  intros [_ Harm]%wellFormed_map. apply wellFormed_emplaceAll; [wf_fields|].
  apply Forall_forall. intros kv Hkv. apply list_elem_of_In, in_map_iff in Hkv as ([k v] & <- & Hkv).
  rewrite Forall_forall in Harm. apply (Harm (k, v)), list_elem_of_In, Hkv.
Qed.

(** The values an agent puts in a config reply or a property change come from
    [CborValue]'s constructors. *)
Definition replyWellFormed (r : Reply) : Prop :=
  match r with
  | ConfigReply entries => ∀ k v, entries !! k = Some v → wellFormed v = true
  | _ => True
  end.

Lemma wellFormed_makeReply req r : replyWellFormed r → wellFormed (makeReply req r) = true.
Proof.
  intros Hr. destruct r; apply wellFormed_reply; cbn [replyWellFormed] in Hr;
    try (wf_fields; try apply wellFormed_arrOfText).
  - apply wellFormed_array, Forall_true, wellFormed_readerState.
  - apply wellFormed_array, Forall_true, wellFormed_cardState.
  - apply wellFormed_array, Forall_true, wellFormed_certInfo.
  - destruct key; by repeat constructor.
  - by apply wellFormed_fields, wellFormed_writeFrom.
  - apply wellFormed_emplaceAll; [wf_fields|by repeat constructor].
  - apply (wellFormed_opResult (OpSignResult result)).
  - unfold encodeErrInfo. destruct info as [[] ? ?]; wf_fields.
Qed.

Definition eventWellFormed (e : Event) : Prop :=
  match e with
  | PropertyChanged _ _ props => ∀ k v, props !! k = Some v → wellFormed v = true
  | _ => True
  end.

Lemma wellFormed_event e : eventWellFormed e → wellFormed (eventToCbor e) = true.
Proof.
  intros He. destruct e; cbn [eventWellFormed] in He; wf_fields.
  - apply wellFormed_readerState.
  - apply wellFormed_cardState.
  - by apply wellFormed_fields, wellFormed_writeFrom.
  - apply wellFormed_identityFields.
  - apply wellFormed_opResult.
Qed.

End Messages.
