(* ===== verification/ClientCodec.v ===== *)
(** * The typed messages, client side

    Models [src/wire/ClientCodec.cpp] and [ClientCodec.h]: the decoders of replies
    and events over the [FieldReader], append-tolerant and bounded by the frame's
    descriptors, and the encoder of requests. The theorems compose them with the
    agent's encoders of [Messages.v] through the CBOR codec: what one side sends is
    what the other side reads. *)
From stdpp Require Import gmap strings.
From S2P Require Import Prelude Cbor Vocabulary Fields Messages.
Import Cbor Vocabulary Fields Messages.
Local Open Scope Z_scope.
Local Open Scope string_scope.

Module ClientCodec.

(** ** The field reader

    A computation over a map that carries the [m_ok] flag; an accessor returns a
    default and drops the flag where the source does. *)
Definition FieldReader (A : Type) : Type := Map → bool → A * bool.

#[export] Instance reader_ret : MRet FieldReader := λ A a m ok, (a, ok).
#[export] Instance reader_bind : MBind FieldReader :=
  λ A B k r m ok, k (r m ok).1 m (r m ok).2.

(** A required field: absent or of another type drops the flag. *)
Definition required {A} (as_ : CborValue → option A) (dflt : A) (k : string) : FieldReader A := λ m ok,
  match mapFind k m with
  | None => (dflt, false)
  | Some v => match as_ v with None => (dflt, false) | Some a => (a, ok) end
  end.

(** An optional field: only another type drops the flag. *)
Definition optional {A} (as_ : CborValue → option A) (k : string) : FieldReader (option A) := λ m ok,
  match mapFind k m with
  | None => (None, ok)
  | Some v => match as_ v with None => (None, false) | Some a => (Some a, ok) end
  end.

Definition text : string → FieldReader string := required asText "".
Definition optText : string → FieldReader (option string) := optional asText.
Definition uintField : string → FieldReader Z := required asUInt 0%Z.
Definition optUint : string → FieldReader (option Z) := optional asUInt.
Definition optInt64 : string → FieldReader (option Z) := optional asInt.
Definition boolean : string → FieldReader bool := required asBool false.
Definition optBool : string → FieldReader (option bool) := optional asBool.
Definition doubleField : string → FieldReader Z := required asDouble 0%Z.
Definition bytes : string → FieldReader (list Z) := required asBytes [].
(** The two that return a pointer return null with the flag dropped, and no caller
    reads it then. *)
Definition mapField : string → FieldReader Map := required asMap [].
Definition array : string → FieldReader (list CborValue) := required asArray [].

Definition UINT32_MAX : Z := 2 ^ 32 - 1.
Definition UINT8_MAX : Z := 2 ^ 8 - 1.
Definition INT_MAX : Z := 2 ^ 31 - 1.

Definition u32Field (k : string) : FieldReader Z := λ m ok,
  let '(v, ok) := uintField k m ok in
  if (UINT32_MAX <? v)%Z then (0%Z, false) else (v, ok).

Definition optInt (k : string) : FieldReader (option Z) := λ m ok,
  match optUint k m ok with
  | (None, ok) => (None, ok)
  | (Some v, ok) => if (INT_MAX <? v)%Z then (None, false) else (Some v, ok)
  end.

(** [FieldReader r(m); ...; if (!r.ok()) return nullopt;] and then [k]. *)
Definition reading {A B} (m : Map) (r : FieldReader A) (k : A → option B) : option B :=
  match r m true with
  | (a, true) => k a
  | (_, false) => None
  end.

Definition has (m : Map) (k : string) : bool :=
  match mapFind k m with Some _ => true | None => false end.

Definition findKey (m : Map) (k : string) : option CborValue := mapFind k m.

Definition textArray (a : list CborValue) : option (list string) := mapM asText a.

(** ** Numeric enums: raw up to the width of their storage *)

Definition decodeErrorCode (v : Z) : option Z := if (UINT32_MAX <? v)%Z then None else Some v.
Definition decodeOperationPhase (v : Z) : option Z := if (UINT32_MAX <? v)%Z then None else Some v.
Definition decodeOperationStatus (v : Z) : option Z := if (UINT32_MAX <? v)%Z then None else Some v.
Definition decodePreReadAuth (v : Z) : option Z := if (UINT8_MAX <? v)%Z then None else Some v.
Definition decodeQuiesceReason (v : Z) : option Z := if (UINT8_MAX <? v)%Z then None else Some v.

(** ** Shared sub-type decoders *)

Definition decodeReaderState (m : Map) : option ReaderState :=
  reading m
    (handle ← text "handle";
     name ← text "name";
     hasCard ← boolean "hasCard";
     card ← optText "card";
     model ← optText "model";
     iface ← optText "interface";
     mret (handle, name, hasCard, card, model, iface))
    (λ '(handle, name, hasCard, card, model, iface),
     Some (mkReaderState handle name hasCard card (default "" model)
       match iface with
       | Some i => default Iface.Unknown (Iface.readerInterfaceFromToken i)
       | None => Iface.Unknown
       end)).

Definition decodeCardState (m : Map) : option CardState :=
  reading m
    (handle ← text "handle";
     reader ← text "reader";
     caps ← u32Field "caps";
     preAuthRaw ← uintField "preAuth";
     cardType ← optText "cardType";
     atr ← optText "atr";
     mret (handle, reader, caps, preAuthRaw, cardType, atr))
    (λ '(handle, reader, caps, preAuthRaw, cardType, atr),
     preAuth ← decodePreReadAuth preAuthRaw;
     Some (mkCardState handle reader caps preAuth cardType atr)).

Definition decodeCertField (a : list CborValue) : option CertField :=
  match a with
  | [labelKey; labelFallback; value] =>
      labelKey ← asText labelKey;
      labelFallback ← asText labelFallback;
      value ← asText value;
      Some (mkCertField labelKey labelFallback value)
  | _ => None
  end.

Definition decodeCertInfo (m : Map) : option CertInfo :=
  reading m
    (certId ← text "certId";
     signingCapable ← boolean "signingCapable";
     fields ← mapField "fields";
     keyUsageBits ← u32Field "keyUsageBits";
     ekus ← array "ekus";
     chainSubjectCns ← array "chainSubjectCns";
     trustStatus ← u32Field "trustStatus";
     alwaysAuthenticate ← boolean "alwaysAuthenticate";
     keyId ← bytes "keyId";
     keyType ← text "keyType";
     keyBits ← u32Field "keyBits";
     canDerive ← boolean "canDerive";
     mret (certId, signingCapable, fields, keyUsageBits, ekus, chainSubjectCns, trustStatus,
           alwaysAuthenticate, keyId, keyType, keyBits, canDerive))
    (λ '(certId, signingCapable, fields, keyUsageBits, ekus, chainSubjectCns, trustStatus,
         alwaysAuthenticate, keyId, keyType, keyBits, canDerive),
     match keyId with
     | [] => None
     | _ =>
         groups ← readInto (λ groupVal, inner ← asMap groupVal;
                              readInto (λ fieldVal, tuple ← asArray fieldVal; decodeCertField tuple) inner ∅)
                    fields ∅;
         ekuList ← textArray ekus;
         cnList ← textArray chainSubjectCns;
         Some (mkCertInfo certId signingCapable groups keyUsageBits ekuList cnList trustStatus
                 alwaysAuthenticate keyId (Key.keyTypeFromToken keyType) keyBits canDerive)
     end).

Definition decodeSignMeta (m : Map) : option SignMeta :=
  reading m
    (format ← text "format";
     level ← text "level";
     tsaUsed ← boolean "tsaUsed";
     chainComplete ← boolean "chainComplete";
     mret (mkSignMeta format level tsaUsed chainComplete))
    Some.

(** The descriptors of the frame enter only by their number: an index at or past it
    is malformed. *)
Definition inFrame (fds : nat) (index : Z) : bool := negb (Z.of_nat fds <=? index)%Z.

Definition decodeSignResultFields (fds : nat) (m : Map) : option SignResult :=
  reading m
    (kind ← text "kind";
     artifact ← uintField "artifact";
     metaMap ← mapField "meta";
     mret (kind, artifact, metaMap))
    (λ '(kind, artifact, metaMap),
     if negb (String.eqb kind "Sign") then None
     else if negb (inFrame fds artifact) then None
     else meta ← decodeSignMeta metaMap; Some (mkSignResult artifact meta)).

Definition decodeSignBatchRow (fds : nat) (m : Map) : option SignBatchRow :=
  reading m
    (displayName ← text "displayName";
     artifact ← uintField "artifact";
     metaMap ← mapField "meta";
     codeRaw ← uintField "errorCode";
     mret (displayName, artifact, metaMap, codeRaw))
    (λ '(displayName, artifact, metaMap, codeRaw),
     if negb (inFrame fds artifact) then None
     else meta ← decodeSignMeta metaMap;
          code ← decodeErrorCode codeRaw;
          Some (mkSignBatchRow displayName artifact meta code)).

Definition decodePhotoItem (fds : nat) (m : Map) : option PhotoItem :=
  reading m
    (key ← text "key";
     fd ← uintField "fd";
     mret (key, fd))
    (λ '(key, fd), if negb (inFrame fds fd) then None else Some (mkPhotoItem key fd)).

Definition decodeIdField (a : list CborValue) : option IdentityField :=
  match a with
  | [labelKey; labelFallback; type; value] =>
      labelKey ← asText labelKey;
      labelFallback ← asText labelFallback;
      type ← asText type;
      match asText value with
      | Some s => Some (mkIdentityField labelKey labelFallback type (inl s))
      | None =>
          match asBytes value with
          | Some b => Some (mkIdentityField labelKey labelFallback type (inr b))
          | None => None
          end
      end
  | _ => None
  end.

Definition decodeCredOpResult (m : Map) : option CredentialOpResult :=
  reading m
    (outcomeStr ← text "outcome";
     retriesLeft ← optInt "retriesLeft";
     blocked ← boolean "blocked";
     mret (mkCredentialOpResult (Cred.decodeCredOutcome outcomeStr) retriesLeft blocked))
    Some.

Definition decodeCredentialRecord (m : Map) : option CredentialRecord :=
  reading m
    (id ← text "id";
     label ← text "label";
     kind ← text "kind";
     state ← text "state";
     retriesLeft ← optInt "retriesLeft";
     retriesMax ← optInt "retriesMax";
     usesLeft ← optInt "usesLeft";
     usesMax ← optInt "usesMax";
     unblocksLeft ← optInt "unblocksLeft";
     canChange ← boolean "canChange";
     unblockable ← boolean "unblockable";
     activatable ← boolean "activatable";
     keyActivationPending ← boolean "keyActivationPending";
     keyActivatable ← boolean "keyActivatable";
     recovery ← text "recovery";
     blockedGuidanceKey ← optText "blockedGuidanceKey";
     blockedGuidanceFallback ← optText "blockedGuidanceFallback";
     keyActivationGuidanceKey ← optText "keyActivationGuidanceKey";
     keyActivationGuidanceFallback ← optText "keyActivationGuidanceFallback";
     mret (mkCredentialRecord id label kind state retriesLeft retriesMax usesLeft usesMax unblocksLeft
             canChange unblockable activatable keyActivationPending keyActivatable recovery
             blockedGuidanceKey blockedGuidanceFallback keyActivationGuidanceKey
             keyActivationGuidanceFallback))
    Some.

(** A loop over an array whose items are maps. *)
Definition eachMap {A} (f : Map → option A) (items : list CborValue) : option (list A) :=
  mapM (λ item, m ← asMap item; f m) items.

(** ** Reply arms *)

Definition decodeHelloAck (m : Map) : option Reply :=
  reading m
    (agentVer ← text "agentVer";
     featuresArr ← array "features";
     mret (agentVer, featuresArr))
    (λ '(agentVer, featuresArr), features ← textArray featuresArr; Some (HelloAck agentVer features)).

Definition decodeOpStarted (m : Map) : option Reply :=
  reading m (uintField "op") (λ op, Some (OpStarted op)).

Definition decodeStateReply (m : Map) : option Reply :=
  reading m
    (readersArr ← array "readers";
     cardsArr ← array "cards";
     mret (readersArr, cardsArr))
    (λ '(readersArr, cardsArr),
     readers ← eachMap decodeReaderState readersArr;
     cards ← eachMap decodeCardState cardsArr;
     Some (StateReply readers cards)).

Definition decodeCertListReply (m : Map) : option Reply :=
  reading m (array "certs") (λ certsArr, certs ← eachMap decodeCertInfo certsArr; Some (CertListReply certs)).

Definition decodeCertDerReply (m : Map) : option Reply :=
  reading m (bytes "der") (λ der, Some (CertDerReply der)).

Definition decodePublicKeyReply (m : Map) : option Reply :=
  reading m (text "kty") (λ kty,
    if String.eqb kty "RSA" then
      reading m (n ← bytes "n"; e ← bytes "e"; mret (n, e)) (λ '(n, e), Some (PublicKey (RsaPublicKey n e)))
    else if String.eqb kty "EC" then
      reading m (crv ← text "crv"; x ← bytes "x"; y ← bytes "y"; mret (crv, x, y)) (λ '(crv, x, y),
        match Key.nistCurveByName crv with
        | None => None
        | Some curve =>
            if negb (length x =? Key.fieldBytes curve)%nat || negb (length y =? Key.fieldBytes curve)%nat
            then None
            else Some (PublicKey (EcPublicKey crv x y))
        end)
    else None).

Definition decodeConfigReply (m : Map) : option Reply :=
  reading m (mapField "entries") (λ entries, out ← readInto Some entries ∅; Some (ConfigReply out)).

Definition decodeAckReply (m : Map) : option Reply :=
  reading m (boolean "ok") (λ ok, if negb ok then None else Some AckReply).

Definition decodeLoginStateReply (m : Map) : option Reply :=
  reading m (boolean "active") (λ active, Some (LoginStateReply active)).

Definition decodeRawSignatureReply (m : Map) : option Reply :=
  reading m (bytes "sig") (λ sig, Some (RawSignatureReply sig)).

Definition decodeDerivedSecretReply (m : Map) : option Reply :=
  reading m (bytes "z") (λ z, Some (DerivedSecretReply z)).

Definition decodeLayoutReply (m : Map) : option Reply :=
  reading m
    (fontSize ← doubleField "fontSize";
     lineHeight ← doubleField "lineHeight";
     linesArr ← array "lines";
     clipped ← boolean "clipped";
     mret (fontSize, lineHeight, linesArr, clipped))
    (λ '(fontSize, lineHeight, linesArr, clipped),
     lines ← textArray linesArr; Some (LayoutReply fontSize lineHeight lines clipped)).

Definition decodeAppearanceFontReply (fds : nat) (m : Map) : option Reply :=
  reading m (uintField "fd") (λ fd, if negb (inFrame fds fd) then None else Some (AppearanceFontReply fd)).

Definition decodeCscaAnchorStateReply (m : Map) : option Reply :=
  reading m
    (anchors ← uintField "anchors";
     issuers ← uintField "issuers";
     replayRefusalActive ← boolean "replayRefusalActive";
     signer ← optText "signer";
     signerPinned ← optBool "signerPinned";
     acceptedAt ← optInt64 "acceptedAt";
     signedAt ← optInt64 "signedAt";
     mret (mkCscaAnchorState anchors issuers replayRefusalActive signer signerPinned acceptedAt signedAt))
    (λ out, Some (CscaAnchorState out)).

(** One reader for the whole of it: its flag is checked after the code or the name,
    so it is up again where the messages are read. *)
Definition decodeErrInfo (m : Map) : option ErrInfo :=
  if Bool.eqb (has m "code") (has m "name") then None
  else
    code ← (if has m "code" then reading m (uintField "code") (λ raw, inl <$> decodeErrorCode raw)
            else reading m (text "name") (λ raw, Some (inr (Sync.decodeSyncError raw))));
    reading m
      (msgKey ← optText "msgKey";
       msgFallback ← optText "msgFallback";
       mret (mkErrInfo code msgKey msgFallback))
      Some.

(** ** Op results *)

Definition decodeIdentityFieldsMap (fields : Map) : option (gmap string IdentityField) :=
  readInto (λ fieldVal, tuple ← asArray fieldVal; decodeIdField tuple) fields ∅.

Definition decodeOpResult (fds : nat) (m : Map) : option OpResult :=
  reading m (text "kind") (λ kind,
    if String.eqb kind "Identity" then
      reading m (mapField "fields") (λ fields,
        out ← readInto (λ groupVal, inner ← asMap groupVal; decodeIdentityFieldsMap inner) fields ∅;
        Some (IdentityResult out))
    else if String.eqb kind "Photo" then
      reading m (array "photos") (λ photos,
        out ← eachMap (decodePhotoItem fds) photos; Some (PhotoResult out))
    else if String.eqb kind "Certificates" then
      reading m (array "certs") (λ certs, out ← eachMap decodeCertInfo certs; Some (CertListResult out))
    else if String.eqb kind "Sign" then
      sr ← decodeSignResultFields fds m; Some (OpSignResult sr)
    else if String.eqb kind "SignBatch" then
      reading m (array "rows") (λ rows,
        out ← eachMap (decodeSignBatchRow fds) rows; Some (SignBatchResult out))
    else if String.eqb kind "Credentials" then
      reading m (resultMap ← mapField "result"; records ← array "records"; mret (resultMap, records))
        (λ '(resultMap, records),
         cr ← decodeCredOpResult resultMap;
         out ← eachMap decodeCredentialRecord records;
         Some (CredentialsResult cr out))
    else None).

(** ** Events *)

Definition decodeReaderAdded (m : Map) : option Event :=
  reading m (mapField "reader") (λ readerMap, rs ← decodeReaderState readerMap; Some (ReaderAdded rs)).
Definition decodeReaderRemoved (m : Map) : option Event :=
  reading m (text "handle") (λ handle, Some (ReaderRemoved handle)).
Definition decodeCardAdded (m : Map) : option Event :=
  reading m (mapField "card") (λ cardMap, cs ← decodeCardState cardMap; Some (CardAdded cs)).
Definition decodeCardRemoved (m : Map) : option Event :=
  reading m (text "handle") (λ handle, Some (CardRemoved handle)).
Definition decodePropertyChanged (m : Map) : option Event :=
  reading m
    (handle ← text "handle";
     iface ← text "iface";
     props ← mapField "props";
     mret (handle, iface, props))
    (λ '(handle, iface, props), out ← readInto Some props ∅; Some (PropertyChanged handle iface out)).
Definition decodeConfigChanged (m : Map) : option Event :=
  reading m (text "key") (λ key, Some (ConfigChanged key)).
Definition decodeOpProgress (m : Map) : option Event :=
  reading m (op ← uintField "op"; phaseRaw ← uintField "phase"; mret (op, phaseRaw))
    (λ '(op, phaseRaw), phase ← decodeOperationPhase phaseRaw; Some (OpProgress op phase)).
Definition decodeOpIdentityGroup (m : Map) : option Event :=
  reading m
    (op ← uintField "op";
     groupKey ← text "groupKey";
     fields ← mapField "fields";
     mret (op, groupKey, fields))
    (λ '(op, groupKey, fields), cells ← decodeIdentityFieldsMap fields; Some (OpIdentityGroup op groupKey cells)).
Definition decodeOpResultReady (fds : nat) (m : Map) : option Event :=
  reading m (op ← uintField "op"; resultMap ← mapField "result"; mret (op, resultMap))
    (λ '(op, resultMap), res ← decodeOpResult fds resultMap; Some (OpResultReady op res)).
Definition decodeOpFinished (m : Map) : option Event :=
  reading m
    (op ← uintField "op";
     statusRaw ← uintField "status";
     codeRaw ← uintField "code";
     msgKey ← text "msgKey";
     msgFallback ← text "msgFallback";
     mret (op, statusRaw, codeRaw, msgKey, msgFallback))
    (λ '(op, statusRaw, codeRaw, msgKey, msgFallback),
     status ← decodeOperationStatus statusRaw;
     code ← decodeErrorCode codeRaw;
     Some (OpFinished op status code msgKey msgFallback)).
Definition decodeAgentQuiesced (m : Map) : option Event :=
  reading m (uintField "reason") (λ reasonRaw, reason ← decodeQuiesceReason reasonRaw; Some (AgentQuiesced reason)).

(** ** Frames *)

Inductive ReplyVariant := KnownReply (r : Reply) | UnknownReply.
Inductive EventVariant := KnownEvent (e : Event) | UnknownEvent.
Record DecodedReply := mkDecodedReply { requestId : Z; replyArm : ReplyVariant }.

Definition known (reqId : Z) (r : option Reply) : option DecodedReply :=
  v ← r; Some (mkDecodedReply reqId (KnownReply v)).

(** The arms of [parseReply] in order. The flag is whether the arm scrubs the
    decoded tree before it returns. *)
Definition parseArm (fds : nat) (reqId : Z) (m : Map) : option DecodedReply * bool :=
  match findKey m "err" with
  | Some errVal =>
      ((errMap ← asMap errVal; known reqId (Error <$> decodeErrInfo errMap)), false)
  | None =>
  match findKey m "kind" with
  | Some kindVal =>
      (match asText kindVal with
       | Some k =>
           if String.eqb k "HelloAck" then known reqId (decodeHelloAck m)
           else if String.eqb k "Layout" then known reqId (decodeLayoutReply m)
           else if String.eqb k "CscaAnchorState" then known reqId (decodeCscaAnchorStateReply m)
           else None
       | None => None
       end, false)
  | None =>
  if has m "op" then (known reqId (decodeOpStarted m), false)
  else if has m "fd" then (known reqId (decodeAppearanceFontReply fds m), false)
  else if has m "readers" && has m "cards" then (known reqId (decodeStateReply m), false)
  else if has m "certs" then (known reqId (decodeCertListReply m), false)
  else if has m "der" then (known reqId (decodeCertDerReply m), false)
  else if has m "kty" then (known reqId (decodePublicKeyReply m), false)
  else if has m "entries" then (known reqId (decodeConfigReply m), false)
  else if has m "ok" then (known reqId (decodeAckReply m), false)
  else if has m "active" then (known reqId (decodeLoginStateReply m), false)
  else if has m "sig" then (known reqId (decodeRawSignatureReply m), true)
  else if has m "z" then (known reqId (decodeDerivedSecretReply m), true)
  else
    match findKey m "result" with
    | Some resultVal =>
        ((resultMap ← asMap resultVal; known reqId (SignRecovery <$> decodeSignResultFields fds resultMap)), false)
    | None => (Some (mkDecodedReply reqId UnknownReply), false)
    end
  end
  end.

Definition replyHeader : FieldReader (string * Z) :=
  tag ← text "t"; reqId ← uintField "req"; mret (tag, reqId).

(** [parseReply] after the decode: the reply, and the decoded tree as it is left. *)
Definition parseReplyTree (fds : nat) (decoded : CborValue) : option DecodedReply * CborValue :=
  match asMap decoded with
  | None => (None, decoded)
  | Some m =>
      match replyHeader m true with
      | (tag, reqId, true) =>
          if negb (String.eqb tag "Reply") then (None, decoded)
          else
            let '(r, wipe) := parseArm fds reqId m in
            (r, if wipe then scrub decoded else decoded)
      | (_, false) => (None, decoded)
      end
  end.

Definition parseEventTree (fds : nat) (decoded : CborValue) : option EventVariant :=
  m ← asMap decoded;
  reading m (text "t") (λ tag,
    if String.eqb tag "ReaderAdded" then KnownEvent <$> decodeReaderAdded m
    else if String.eqb tag "ReaderRemoved" then KnownEvent <$> decodeReaderRemoved m
    else if String.eqb tag "CardAdded" then KnownEvent <$> decodeCardAdded m
    else if String.eqb tag "CardRemoved" then KnownEvent <$> decodeCardRemoved m
    else if String.eqb tag "PropertyChanged" then KnownEvent <$> decodePropertyChanged m
    else if String.eqb tag "ConfigChanged" then KnownEvent <$> decodeConfigChanged m
    else if String.eqb tag "OpProgress" then KnownEvent <$> decodeOpProgress m
    else if String.eqb tag "OpIdentityGroup" then KnownEvent <$> decodeOpIdentityGroup m
    else if String.eqb tag "OpResultReady" then KnownEvent <$> decodeOpResultReady fds m
    else if String.eqb tag "OpFinished" then KnownEvent <$> decodeOpFinished m
    else if String.eqb tag "AgentQuiesced" then KnownEvent <$> decodeAgentQuiesced m
    else Some UnknownEvent).

Section Frames.
Context {ctx : Type} `{!Qcbor ctx}.

Definition parseReply (body : list Z) (fds : nat) : option DecodedReply :=
  match decode body with
  | Err _ => None
  | Ok decoded => (parseReplyTree fds decoded).1
  end.

Definition parseEvent (body : list Z) (fds : nat) : option EventVariant :=
  match decode body with
  | Err _ => None
  | Ok decoded => parseEventTree fds decoded
  end.

Definition encodeRequest (r : Request) (requestId : Z) : list Z :=
  encode (toCbor (mkEnvelope requestId r)).
End Frames.

(** ** Values the agent sends

    The ranges of the C++ field types, and the agent's own conventions: a reader
    without a model has no interface either, a certificate has a key id, counters
    are not negative, a descriptor index is within the frame. *)
Definition isU8 (z : Z) : bool := ((0 <=? z) && (z <? 2 ^ 8))%Z.
Definition isCount (z : Z) : bool := ((0 <=? z) && (z <? 2 ^ 31))%Z.
Definition all {A} (p : A → bool) (o : option A) : bool := match o with Some a => p a | None => true end.

Definition readerStateOk (r : ReaderState) : bool :=
  negb (String.eqb (rs_model r) "") || bool_decide (rs_iface r = Iface.Unknown).
Definition cardStateOk (c : CardState) : bool := isU32 (cs_caps c) && isU8 (cs_preAuth c).
Definition certInfoOk (ci : CertInfo) : bool :=
  isU32 (ci_keyUsageBits ci) && isU32 (ci_trustStatus ci) && isU32 (ci_keyBits ci) &&
  match ci_keyId ci with [] => false | _ => true end.
Definition indexOk (fds : nat) (i : Z) : bool := isU64 i && inFrame fds i.
Definition credResultOk (r : CredentialOpResult) : bool :=
  negb (bool_decide (co_outcome r = Cred.EntryExpired)) && all isCount (co_retriesLeft r).
Definition credRecordOk (r : CredentialRecord) : bool :=
  all isCount (cr_retriesLeft r) && all isCount (cr_retriesMax r) && all isCount (cr_usesLeft r) &&
  all isCount (cr_usesMax r) && all isCount (cr_unblocksLeft r).

Definition opResultOk (fds : nat) (r : OpResult) : bool :=
  match r with
  | IdentityResult _ => true
  | PhotoResult photos => forallb (λ p, indexOk fds (ph_fd p)) photos
  | CertListResult certs => forallb certInfoOk certs
  | OpSignResult result => indexOk fds (sr_artifact result)
  | SignBatchResult rows => forallb (λ row, indexOk fds (sb_artifact row) && isU32 (sb_code row)) rows
  | CredentialsResult result records => credResultOk result && forallb credRecordOk records
  end.

Definition replyOk (fds : nat) (r : Reply) : bool :=
  match r with
  | OpStarted op => isU64 op
  | StateReply readers cards => forallb readerStateOk readers && forallb cardStateOk cards
  | CertListReply certs => forallb certInfoOk certs
  | PublicKey (EcPublicKey crv x y) =>
      match Key.nistCurveByName crv with
      | Some curve => (length x =? Key.fieldBytes curve)%nat && (length y =? Key.fieldBytes curve)%nat
      | None => false
      end
  | AppearanceFontReply fd => indexOk fds fd
  | CscaAnchorState a => isU64 (ca_anchors a) && isU64 (ca_issuers a)
  | SignRecovery result => indexOk fds (sr_artifact result)
  | Error e => match ei_code e with inl code => isU32 code | inr _ => true end
  | _ => true
  end.

Definition eventOk (fds : nat) (e : Event) : bool :=
  match e with
  | ReaderAdded reader => readerStateOk reader
  | CardAdded card => cardStateOk card
  | OpProgress op phase => isU64 op && isU32 phase
  | OpIdentityGroup op _ _ => isU64 op
  | OpResultReady op result => isU64 op && opResultOk fds result
  | OpFinished op status code _ _ => isU64 op && isU32 status && isU32 code
  | AgentQuiesced reason => isU8 reason
  | _ => true
  end.

(** ** Running a reader on a built map *)

Lemma reading_bind {A B C} m (r : FieldReader A) (f : A → FieldReader B) (k : B → option C) a :
  r m true = (a, true) → reading m (r ≫= f) k = reading m (f a) k.
Proof. intros H. unfold reading. cbv [mbind reader_bind]. by rewrite H. Qed.

Lemma reading_ret {A B} m (a : A) (k : A → option B) : reading m (mret a) k = k a.
Proof. done. Qed.

Lemma reading_at {A B} m (r : FieldReader A) (k : A → option B) a :
  r m true = (a, true) → reading m r k = k a.
Proof. intros H. unfold reading. by rewrite H. Qed.

Lemma required_at {A} (as_ : CborValue → option A) d k m ok v a :
  mapFind k m = Some v → as_ v = Some a → required as_ d k m ok = (a, ok).
Proof. unfold required. by intros -> ->. Qed.

Lemma optional_at {A} (as_ : CborValue → option A) f k m ok o :
  mapFind k m = f <$> o → (∀ a, o = Some a → as_ (f a) = Some a) → optional as_ k m ok = (o, ok).
Proof. unfold optional. intros ->. destruct o; cbn; [by intros ->|done]. Qed.

Lemma isU64_uint u : isU64 u = true → asUInt (uint u) = Some u.
Proof. intros [? ?%Z.ltb_lt]%andb_true_iff. rewrite asUInt_uint; [done|lia]. Qed.

Lemma text_at k m ok s : mapFind k m = Some (CText s) → text k m ok = (s, ok).
Proof. intros H. by eapply required_at. Qed.
Lemma boolean_at k m ok b : mapFind k m = Some (CBool b) → boolean k m ok = (b, ok).
Proof. intros H. by eapply required_at. Qed.
Lemma double_at k m ok d : mapFind k m = Some (CDouble d) → doubleField k m ok = (d, ok).
Proof. intros H. by eapply required_at. Qed.
Lemma bytes_at k m ok b : mapFind k m = Some (CBytes b) → bytes k m ok = (b, ok).
Proof. intros H. by eapply required_at. Qed.
Lemma map_at k m ok m' : mapFind k m = Some (CMap m') → mapField k m ok = (m', ok).
Proof. intros H. by eapply required_at. Qed.
Lemma array_at k m ok a : mapFind k m = Some (CArray a) → array k m ok = (a, ok).
Proof. intros H. by eapply required_at. Qed.
Lemma uint_at k m ok u : mapFind k m = Some (uint u) → isU64 u = true → uintField k m ok = (u, ok).
Proof. intros H Hu. eapply required_at; [done|by apply isU64_uint]. Qed.
Lemma u32_at k m ok u : mapFind k m = Some (uint u) → isU32 u = true → u32Field k m ok = (u, ok).
Proof.
  intros H [? ?%Z.ltb_lt]%andb_true_iff. unfold u32Field.
  rewrite (uint_at _ _ _ u H) by (apply andb_true_iff; lia).
  unfold UINT32_MAX. destruct (Z.ltb_spec (2 ^ 32 - 1) u); [lia|done].
Qed.
Lemma optText_at k m ok o : mapFind k m = CText <$> o → optText k m ok = (o, ok).
Proof. intros H. by eapply optional_at. Qed.
Lemma optBool_at k m ok o : mapFind k m = CBool <$> o → optBool k m ok = (o, ok).
Proof. intros H. by eapply optional_at. Qed.
Lemma optInt64_at k m ok o : mapFind k m = CInt <$> o → optInt64 k m ok = (o, ok).
Proof. intros H. by eapply optional_at. Qed.
Lemma optInt_at k m ok o : mapFind k m = uintOfInt <$> o → all isCount o = true → optInt k m ok = (o, ok).
Proof.
  intros H Ho. unfold optInt, optUint. erewrite optional_at; [|done|].
  - destruct o as [i|]; [|done]. cbn in Ho. apply andb_true_iff in Ho as [? ?%Z.ltb_lt].
    unfold INT_MAX. destruct (Z.ltb_spec (2 ^ 31 - 1) i); [lia|done].
  - intros i ->. cbn in Ho. apply andb_true_iff in Ho as [?%Z.leb_le ?%Z.ltb_lt].
    unfold uintOfInt, u64. rewrite wrap_small by lia. apply asUInt_uint. lia.
Qed.

Lemma isU32_U64 z : isU32 z = true → isU64 z = true.
Proof. unfold isU32, isU64. rewrite !andb_true_iff, !Z.leb_le, !Z.ltb_lt. lia. Qed.
Lemma isU8_U64 z : isU8 z = true → isU64 z = true.
Proof. unfold isU8, isU64. rewrite !andb_true_iff, !Z.leb_le, !Z.ltb_lt. lia. Qed.

Lemma decodeU32 z : isU32 z = true → (if (UINT32_MAX <? z)%Z then None else Some z) = Some z.
Proof.
  intros [? ?%Z.ltb_lt]%andb_true_iff. unfold UINT32_MAX. destruct (Z.ltb_spec (2 ^ 32 - 1) z); [lia|done].
Qed.
Lemma decodeU8 z : isU8 z = true → (if (UINT8_MAX <? z)%Z then None else Some z) = Some z.
Proof.
  intros [? ?%Z.ltb_lt]%andb_true_iff. unfold UINT8_MAX. destruct (Z.ltb_spec (2 ^ 8 - 1) z); [lia|done].
Qed.

Lemma eachMap_encode {A} (enc : A → CborValue) (dec : Map → option A) l :
  Forall (λ a, (asMap (enc a) ≫= dec) = Some a) l → eachMap dec (map enc l) = Some l.
Proof. apply (mapM_map enc (λ item, asMap item ≫= dec)). Qed.

Lemma eachMap_encode_ok {A} (enc : A → CborValue) (dec : Map → option A) (ok : A → bool) l :
  (∀ a, ok a = true → (asMap (enc a) ≫= dec) = Some a) → forallb ok l = true → eachMap dec (map enc l) = Some l.
Proof.
  intros H Hl. apply eachMap_encode, Forall_forall. intros a Ha. apply H.
  rewrite forallb_forall in Hl. by apply Hl, list_elem_of_In.
Qed.

Lemma textArray_arr v : textArray (map CText v) = Some v.
Proof. apply (mapM_map CText asText), Forall_true. done. Qed.

Ltac in_range := first [eassumption | apply isU32_U64; eassumption | apply isU8_U64; eassumption].

Ltac field_at :=
  first
    [ eapply text_at; find_key | eapply boolean_at; find_key | eapply double_at; find_key
    | eapply bytes_at; find_key | eapply map_at; find_key | eapply array_at; find_key
    | eapply optText_at; find_key | eapply optBool_at; find_key | eapply optInt64_at; find_key
    | eapply uint_at; [find_key|in_range]
    | eapply u32_at; [find_key|eassumption]
    | eapply optInt_at; [find_key|eassumption] ].

(** Runs the next accessor of a reader. *)
Ltac read_field :=
  lazymatch goal with
  | |- reading ?m (mbind _ ?r) _ = _ => erewrite (reading_bind m r) by field_at
  | |- reading ?m (mret _) _ = _ => rewrite reading_ret
  | |- reading ?m ?r _ = _ => erewrite (reading_at m r) by field_at
  end.

(** Reads every field, of a map an encoder built. *)
Ltac read_fields := cbn [asMap mbind option_bind]; repeat read_field; cbn beta iota.

Lemma decodeSignMeta_encode s : (asMap (encodeSignMeta s) ≫= decodeSignMeta) = Some s.
Proof. unfold encodeSignMeta, decodeSignMeta. read_fields. by destruct s. Qed.

Lemma decodeReaderState_encode r :
  readerStateOk r = true → (asMap (encodeReaderState r) ≫= decodeReaderState) = Some r.
Proof.
  intros Hr. unfold encodeReaderState, decodeReaderState, readerStateOk in *. destruct r as [h n c cd model iface].
  cbn [rs_handle rs_name rs_hasCard rs_card rs_model rs_iface] in *.
  destruct (String.eqb_spec model "") as [->|Hm]; cbn [negb orb] in *; cbn [asMap mbind option_bind].
  - apply bool_decide_eq_true in Hr as ->. by read_fields.
  - read_fields. by rewrite readerInterface_token.
Qed.

Lemma decodeCardState_encode c :
  cardStateOk c = true → (asMap (encodeCardState c) ≫= decodeCardState) = Some c.
Proof.
  unfold cardStateOk. intros Hc. split_range. unfold encodeCardState, decodeCardState. read_fields.
  unfold decodePreReadAuth. rewrite decodeU8 by done. by destruct c.
Qed.

Lemma decodeCertInfo_encode ci :
  certInfoOk ci = true → (asMap (encodeCertInfo ci) ≫= decodeCertInfo) = Some ci.
Proof.
  unfold certInfoOk. intros Hci. split_range. unfold encodeCertInfo, decodeCertInfo. read_fields.
  destruct (ci_keyId ci) as [|b bs] eqn:Ekey; [done|].
  rewrite readInto_writeFrom.
  - cbn. rewrite !textArray_arr. cbn. rewrite keyType_token, <- Ekey. by destruct ci.
  - intros _ cells _. cbn. apply readInto_writeFrom. intros _ [] _. done.
Qed.

(** The decoder run on the map itself of a nested value. *)
Lemma nested {A} (v : CborValue) (dec : Map → option A) m a : (asMap v ≫= dec) = Some a → v = CMap m → dec m = Some a.
Proof. by intros H ->. Qed.

Lemma decodeSignResultFields_encode fds sr : indexOk fds (sr_artifact sr) = true →
  (asMap (encodeOpResult (OpSignResult sr)) ≫= decodeSignResultFields fds) = Some sr.
Proof.
  intros [? Hfd]%andb_true_iff. unfold encodeOpResult, decodeSignResultFields. read_fields.
  change (negb ("Sign" =? "Sign")) with false. rewrite Hfd. cbn [negb].
  rewrite (nested _ _ _ _ (decodeSignMeta_encode (sr_meta sr)) eq_refl). by destruct sr.
Qed.

Lemma decodeSignBatchRow_encode fds row :
  indexOk fds (sb_artifact row) && isU32 (sb_code row) = true →
  (asMap (encodeSignBatchRow row) ≫= decodeSignBatchRow fds) = Some row.
Proof.
  intros [[? Hfd]%andb_true_iff ?]%andb_true_iff. unfold encodeSignBatchRow, decodeSignBatchRow. read_fields.
  rewrite Hfd. cbn [negb]. rewrite (nested _ _ _ _ (decodeSignMeta_encode (sb_meta row)) eq_refl).
  unfold decodeErrorCode. rewrite decodeU32 by done. by destruct row.
Qed.

Lemma decodePhotoItem_encode fds p : indexOk fds (ph_fd p) = true →
  (asMap (encodePhotoItem p) ≫= decodePhotoItem fds) = Some p.
Proof.
  intros [? Hfd]%andb_true_iff. unfold encodePhotoItem, decodePhotoItem. read_fields. rewrite Hfd. by destruct p.
Qed.

Lemma decodeCredOpResult_encode r : credResultOk r = true →
  (asMap (encodeCredResult r) ≫= decodeCredOpResult) = Some r.
Proof.
  unfold credResultOk. intros [Ho%negb_true_iff%bool_decide_eq_false ?]%andb_true_iff. unfold encodeCredResult, decodeCredOpResult. read_fields.
  rewrite decodeCredOutcome_token by done. by destruct r.
Qed.

Lemma decodeCredentialRecord_encode r : credRecordOk r = true →
  (asMap (encodeCredRecord r) ≫= decodeCredentialRecord) = Some r.
Proof.
  unfold credRecordOk. intros Hr. split_range. unfold encodeCredRecord, decodeCredentialRecord. read_fields.
  by destruct r.
Qed.

Lemma decodeIdentityFieldsMap_encode cells : decodeIdentityFieldsMap (encodeIdentityFieldsMap cells) = Some cells.
Proof. apply readInto_writeFrom. intros _ [? ? ? []] _; done. Qed.

Lemma decodeOpResult_encode fds r : opResultOk fds r = true →
  (asMap (encodeOpResult r) ≫= decodeOpResult fds) = Some r.
Proof.
  intros Hr. destruct r; cbn [opResultOk] in Hr; unfold decodeOpResult, encodeOpResult; cbn [asMap mbind option_bind];
    read_field; cbv beta iota zeta delta [String.eqb Ascii.eqb Bool.eqb]; try (read_fields).
  - rewrite readInto_writeFrom; [done|]. intros _ cells _. apply decodeIdentityFieldsMap_encode.
  - by rewrite (eachMap_encode_ok _ _ _ _ (decodePhotoItem_encode fds) Hr).
  - by rewrite (eachMap_encode_ok _ _ _ _ decodeCertInfo_encode Hr).
  - by rewrite (nested _ _ _ _ (decodeSignResultFields_encode fds result Hr) eq_refl).
  - by rewrite (eachMap_encode_ok _ _ _ _ (decodeSignBatchRow_encode fds) Hr).
  - apply andb_true_iff in Hr as [Hres Hrec].
    rewrite (nested _ _ _ _ (decodeCredOpResult_encode result Hres) eq_refl).
    cbn. by rewrite (eachMap_encode_ok _ _ _ _ decodeCredentialRecord_encode Hrec).
Qed.

Lemma decodeErrInfo_encode e : match ei_code e with inl code => isU32 code | inr _ => true end = true →
  decodeErrInfo (encodeErrInfo e) = Some e.
Proof.
  destruct e as [[code|name] msgKey msgFallback]; cbn [ei_code]; intros He; unfold decodeErrInfo, encodeErrInfo, has;
    cbn [ei_code ei_msgKey ei_msgFallback].
  all: repeat match goal with |- context [mapFind ?k ?m] =>
    let H := fresh in eassert (mapFind k m = _) as H by find_key; rewrite H; clear H end.
  - cbn [eqb]. erewrite reading_at by field_at. unfold decodeErrorCode. rewrite decodeU32 by done.
    cbn [fmap option_fmap option_map mbind option_bind]. by read_fields.
  - cbn [eqb]. erewrite reading_at by field_at. rewrite decodeSyncError_name.
    cbn [mbind option_bind]. by read_fields.
Qed.

(** ** Replies *)

Lemma mapFind_mergeInto key base arm : sortedKeys base = true →
  mapFind key (mergeInto base arm) = match mapFind key base with Some w => Some w | None => mapFind key arm end.
Proof. intros. unfold mergeInto. by rewrite mapFind_emplaceAll, assoc_some. Qed.

Ltac find_key ::=
  rewrite ?mapFind_mergeInto by (by apply emplaceAll_sorted);
  rewrite ?mapFind_emplaceAll by (first [reflexivity | by apply emplaceAll_sorted]);
  cbv beta iota zeta delta [assoc mapFind String.eqb Ascii.eqb Bool.eqb];
  rewrite ?option_eta;
  try first [reflexivity | apply none_fmap | apply some_fmap].

(** Decides which keys a built reply has. *)
Ltac find_keys :=
  repeat match goal with |- context [mapFind ?k ?m] =>
    let H := fresh in eassert (mapFind k m = _) as H by find_key; rewrite H; clear H end;
  cbv beta iota zeta delta [String.eqb Ascii.eqb Bool.eqb andb negb asText asMap fst snd mbind option_bind].

(** Selects the arm of a built reply. *)
Ltac select_arm :=
  unfold parseReplyTree, makeReply, makeReplyHelloAck, makeReplyOpStarted, makeReplyState, makeReplyCertList,
    makeReplyCertDer, makeReplyPublicKey, makeReplyConfig, makeReplyAck, makeReplyLoginState,
    makeReplyRawSignature, makeReplyDerivedSecret, makeReplyLayout, makeReplyAppearanceFont,
    makeReplyCscaAnchorState, makeSignRecoveryReply, makeErrorReply, reply, makeReplyBase, encodeCscaAnchorState;
  cbn [asMap].

Lemma readTop m req : mapFind "t" m = Some (CText "Reply") → mapFind "req" m = Some (uint req) → isU64 req = true →
  replyHeader m true = ("Reply", req, true).
Proof.
  intros Ht Hreq Hr. unfold replyHeader. cbv [mbind reader_bind mret reader_ret].
  by rewrite (text_at _ _ _ _ Ht); cbn [fst snd]; rewrite (uint_at _ _ _ _ Hreq Hr).
Qed.

Lemma known_at req r v : r = Some v → known req r = Some (mkDecodedReply req (KnownReply v)).
Proof. by intros ->. Qed.

Lemma parseReplyTree_makeReply fds req r : isU64 req = true → replyOk fds r = true →
  (parseReplyTree fds (makeReply req r)).1 = Some (mkDecodedReply req (KnownReply r)).
Proof.
  intros Hreq Hr.
  destruct r as [ | | | |?|[]| | | | | | | | | | ]; cbn [replyOk] in Hr; split_range; select_arm;
    (erewrite readTop; [|find_key|find_key|done]); unfold parseArm, has, findKey; find_keys; apply known_at;
    unfold decodeHelloAck, decodeOpStarted, decodeStateReply, decodeCertListReply, decodeCertDerReply,
      decodePublicKeyReply, decodeConfigReply, decodeAckReply, decodeLoginStateReply, decodeRawSignatureReply,
      decodeDerivedSecretReply, decodeLayoutReply, decodeAppearanceFontReply, decodeCscaAnchorStateReply;
    repeat read_field; try reflexivity.
  - by rewrite textArray_arr.
  - rewrite (eachMap_encode_ok _ _ _ _ decodeReaderState_encode) by done. cbn [mbind option_bind].
    by rewrite (eachMap_encode_ok _ _ _ _ decodeCardState_encode).
  - by rewrite (eachMap_encode_ok _ _ _ _ decodeCertInfo_encode).
  - change ("EC" =? "RSA") with false. change ("EC" =? "EC") with true. cbv iota. repeat read_field.
    destruct (Key.nistCurveByName crv) as [curve|]; [|done]. split_range. by rewrite H, H0.
  - by rewrite readInto_writeFrom.
  - by rewrite textArray_arr.
  - apply andb_true_iff in Hr as [? Hfd]. repeat read_field. by rewrite Hfd.
  - by destruct state.
  - by rewrite (nested _ _ _ _ (decodeSignResultFields_encode fds result Hr) eq_refl).
  - by rewrite decodeErrInfo_encode.
Qed.

Lemma known_event_at o e : o = Some e → KnownEvent <$> o = Some (KnownEvent e).
Proof. by intros ->. Qed.

Lemma parseEventTree_event fds e : eventOk fds e = true →
  parseEventTree fds (eventToCbor e) = Some (KnownEvent e).
Proof.
  intros He. destruct e; cbn [eventOk] in He; split_range; unfold parseEventTree, eventToCbor;
    cbn [asMap mbind option_bind]; read_field; cbv beta iota zeta delta [String.eqb Ascii.eqb Bool.eqb].
  all: apply known_event_at.
  all: unfold decodeReaderAdded, decodeReaderRemoved, decodeCardAdded, decodeCardRemoved, decodePropertyChanged,
      decodeConfigChanged, decodeOpProgress, decodeOpIdentityGroup, decodeOpResultReady, decodeOpFinished,
      decodeAgentQuiesced, decodeOperationPhase, decodeOperationStatus, decodeErrorCode, decodeQuiesceReason;
    repeat read_field; try reflexivity; rewrite ?decodeU32, ?decodeU8 by done; try reflexivity.
  - by rewrite (nested _ _ _ _ (decodeReaderState_encode reader He) eq_refl).
  - by rewrite (nested _ _ _ _ (decodeCardState_encode card He) eq_refl).
  - by rewrite readInto_writeFrom.
  - by rewrite decodeIdentityFieldsMap_encode.
  - by rewrite (nested _ _ _ _ (decodeOpResult_encode fds result ltac:(done)) eq_refl).
Qed.

(** ** Indices of a decoded message *)

Definition opResultIndices (r : OpResult) : list Z :=
  match r with
  | PhotoResult photos => map ph_fd photos
  | OpSignResult result => [sr_artifact result]
  | SignBatchResult rows => map sb_artifact rows
  | _ => []
  end.

Definition replyIndices (r : Reply) : list Z :=
  match r with
  | AppearanceFontReply fd => [fd]
  | SignRecovery result => [sr_artifact result]
  | _ => []
  end.

Definition eventIndices (e : Event) : list Z :=
  match e with OpResultReady _ result => opResultIndices result | _ => [] end.

Lemma reading_inv {A B} m (r : FieldReader A) (k : A → option B) b :
  reading m r k = Some b → ∃ a, k a = Some b.
Proof. unfold reading. destruct (r m true) as [a []]; [eauto|done]. Qed.

Lemma mapM_property {A B} (f : A → option B) (P : B → Prop) l l' :
  (∀ a b, f a = Some b → P b) → mapM f l = Some l' → Forall P l'.
Proof.
  intros Hf. rewrite mapM_Some. induction 1; constructor; eauto.
Qed.

Lemma decodeSignResultFields_index fds m sr :
  decodeSignResultFields fds m = Some sr → inFrame fds (sr_artifact sr) = true.
Proof.
  intros [[[kind artifact] meta] H]%reading_inv. cbn in H. destruct (negb (kind =? "Sign")); [done|].
  destruct (inFrame fds artifact) eqn:E; [|done]. cbn in H. destruct (decodeSignMeta meta); [|done].
  by injection H as <-.
Qed.

Lemma decodeOpResult_indices fds m r :
  decodeOpResult fds m = Some r → Forall (λ i, inFrame fds i = true) (opResultIndices r).
Proof.
  intros [kind H]%reading_inv. repeat case_match;
    try (apply reading_inv in H as [items H]; destruct (eachMap _ items) as [out|] eqn:E; [|done]; injection H as <-).
  - apply reading_inv in H as [fields H]. destruct (readInto _ fields _); [|done]. by injection H as <-.
  - apply Forall_fmap. eapply mapM_property; [|exact E]. intros v p Hp. cbn in Hp.
    destruct (asMap v); [|done]. apply reading_inv in Hp as [[key fd] Hp]. cbn in Hp.
    destruct (inFrame fds fd) eqn:Efd; [|done]. by injection Hp as <-.
  - done.
  - destruct (decodeSignResultFields fds m) as [sr|] eqn:E; [|done]. injection H as <-.
    constructor; [by eapply decodeSignResultFields_index|constructor].
  - apply Forall_fmap. eapply mapM_property; [|exact E]. intros v row Hrow. cbn in Hrow.
    destruct (asMap v); [|done]. apply reading_inv in Hrow as [[[[name artifact] meta] code] Hrow]. cbn in Hrow.
    destruct (inFrame fds artifact) eqn:Efd; [|done]. cbn in Hrow.
    destruct (decodeSignMeta meta), (decodeErrorCode code); try done. by injection Hrow as <-.
  - apply reading_inv in H as [[res recs] H]. destruct (decodeCredOpResult res), (eachMap _ recs); try done.
    by injection H as <-.
  - done.
Qed.

(** ** The arm of a decoded reply *)

Definition secretReply (r : Reply) : bool :=
  match r with RawSignatureReply _ | DerivedSecretReply _ => true | _ => false end.

(** What every arm guarantees of the reply it returns. *)
Definition armOk (fds : nat) (wipe : bool) (r : Reply) : Prop :=
  Forall (λ i, inFrame fds i = true) (replyIndices r) ∧ (secretReply r = true → wipe = true).

Lemma known_inv req o d r : known req o = Some d → replyArm d = KnownReply r → o = Some r.
Proof. destruct o; [|done]. by intros [= <-] [= <-]. Qed.

(** Follows a decoder back from its result. *)
Ltac arm_inv H :=
  first
    [ discriminate H
    | apply reading_inv in H as [? H]; arm_inv H
    | match type of H with
      | context [match ?x with _ => _ end] => destruct x eqn:?; arm_inv H
      | (mbind _ ?o = _) => destruct o eqn:?; cbn in H; arm_inv H
      | (fmap _ ?o = _) => destruct o eqn:?; cbn in H; arm_inv H
      end
    | inversion H; subst; clear H ].

Lemma parseArm_ok fds req m d r :
  (parseArm fds req m).1 = Some d → replyArm d = KnownReply r → armOk fds (parseArm fds req m).2 r.
Proof.
  unfold parseArm.
  repeat (case_match; [cbn [fst snd]; intros H' Hd; try (destruct (asMap _) eqn:?; [cbn in H'|done]);
    try (eapply known_inv in H'; [|exact Hd]; unfold decodeOpStarted, decodeAppearanceFontReply, decodeStateReply,
      decodeCertListReply, decodeCertDerReply, decodePublicKeyReply, decodeConfigReply, decodeAckReply,
      decodeLoginStateReply, decodeRawSignatureReply, decodeDerivedSecretReply in H'; arm_inv H')|]).
  all: try (by split; [repeat constructor|]).
  - repeat (case_match; [|try done]); (eapply known_inv in H'; [|exact Hd]);
      unfold decodeHelloAck, decodeLayoutReply, decodeCscaAnchorStateReply in H'; arm_inv H'; by split; [repeat constructor|].
  - split; [|done]. repeat constructor. by apply negb_false_iff.
  - split; [|done]. repeat constructor. by eapply decodeSignResultFields_index.
  - by intros [= <-].
Qed.

(** ** Properties *)

(** C7: a request a client encodes reaches the agent as itself: the agent's strict
    parser returns the envelope, for every request whose numbers fit their fields and
    whose tree is within the codec's caps, if QCBOR carries the calls that encode it. *)
Theorem request_roundtrip {ctx : Type} `{!Qcbor ctx} (r : Request) (id : Z) :
  isU64 id = true → requestInRange r = true →
  (depthOf (toCbor (mkEnvelope id r)) ≤ kMaxCborDepth)%nat →
  (itemCount (toCbor (mkEnvelope id r)) ≤ kMaxCborItems)%nat →
  carried (encodeValue (toCbor (mkEnvelope id r))) →
  parseRequest (encodeRequest r id) = Ok (mkEnvelope id r).
Proof.
  intros Hid Hr Hd Hn Hc. unfold parseRequest, encodeRequest.
  rewrite carried_decodes by (done || by apply wellFormed_toCbor). by apply parseDecoded_toCbor.
Qed.

Definition sampleSign : Request :=
  Sign "card0" "cert7" 0 (mkSignOpts "pades" "b-lt" "enveloped" (Some true) None (Some "approval") None
    (Some "https://tsa.example") None).

Ltac carried_by n :=
  eexists _, _, _, _; split; [vm_compute; reflexivity|]; split; [vm_compute; reflexivity|];
  split; [vm_compute; reflexivity|];
  split; [apply (drain_delivers n); vm_compute; reflexivity|vm_compute; reflexivity].

Lemma request_roundtrip_witness :
  parseRequest (ctx := Mini.context) (encodeRequest (ctx := Mini.context) sampleSign 42) = Ok (mkEnvelope 42 sampleSign).
Proof.
  apply (request_roundtrip sampleSign 42); [by vm_compute|by vm_compute|by apply Nat.leb_le; vm_compute..|carried_by 13%nat].
Defined.

(** C11: a reply the agent builds is decoded by the client into the same arm and the
    same values, under the request's id: no arm is taken for another although
    replies carry no tag of their own. *)
Theorem reply_roundtrip {ctx : Type} `{!Qcbor ctx} (fds : nat) (id : Z) (r : Reply) :
  isU64 id = true → replyOk fds r = true → replyWellFormed r →
  (depthOf (makeReply id r) ≤ kMaxCborDepth)%nat → (itemCount (makeReply id r) ≤ kMaxCborItems)%nat →
  carried (encodeValue (makeReply id r)) →
  parseReply (encode (makeReply id r)) fds = Some (mkDecodedReply id (KnownReply r)).
Proof.
  intros Hid Hr Hwf Hd Hn Hc. unfold parseReply.
  rewrite carried_decodes by (done || by apply wellFormed_makeReply). by apply parseReplyTree_makeReply.
Qed.

Definition sampleReply : Reply :=
  StateReply [mkReaderState "r0" "ACS ACR39U" true (Some "c0") "ACR39U" Iface.Contact]
    [mkCardState "c0" "r0" 5 2 (Some "eid") None].

Lemma reply_roundtrip_witness :
  parseReply (ctx := Mini.context) (encode (ctx := Mini.context) (makeReply 7 sampleReply)) 0 =
  Some (mkDecodedReply 7 (KnownReply sampleReply)).
Proof.
  apply (reply_roundtrip 0 7 sampleReply);
    [by vm_compute|by vm_compute|done|by apply Nat.leb_le; vm_compute..|carried_by 18%nat].
Defined.

(** An event the agent builds is decoded by the client into the same event with
    the same values. *)
Theorem event_roundtrip {ctx : Type} `{!Qcbor ctx} (fds : nat) (e : Event) :
  eventOk fds e = true → eventWellFormed e →
  (depthOf (eventToCbor e) ≤ kMaxCborDepth)%nat → (itemCount (eventToCbor e) ≤ kMaxCborItems)%nat →
  carried (encodeValue (eventToCbor e)) →
  parseEvent (encode (eventToCbor e)) fds = Some (KnownEvent e).
Proof.
  intros He Hwf Hd Hn Hc. unfold parseEvent.
  rewrite carried_decodes by (done || by apply wellFormed_event). by apply parseEventTree_event.
Qed.

Definition sampleEvent : Event :=
  OpResultReady 3 (CredentialsResult (mkCredentialOpResult Cred.InvalidPin (Some 2) false) []).

Lemma event_roundtrip_witness :
  parseEvent (ctx := Mini.context) (encode (ctx := Mini.context) (eventToCbor sampleEvent)) 0 =
  Some (KnownEvent sampleEvent).
Proof.
  apply (event_roundtrip 0 sampleEvent);
    [by vm_compute|done|by apply Nat.leb_le; vm_compute..|carried_by 10%nat].
Defined.

(** Whatever the agent sends, a descriptor index of a decoded reply or event is
    within the frame's descriptors, so resolving it never reads past them. *)
Theorem indices_in_frame (fds : nat) (tree : CborValue) :
  (∀ d r, (parseReplyTree fds tree).1 = Some d → replyArm d = KnownReply r →
     Forall (λ i, i < Z.of_nat fds)%Z (replyIndices r)) ∧
  (∀ e, parseEventTree fds tree = Some (KnownEvent e) → Forall (λ i, i < Z.of_nat fds)%Z (eventIndices e)).
Proof.
  assert (∀ l, Forall (λ i, inFrame fds i = true) l → Forall (λ i, i < Z.of_nat fds)%Z l) as Hin.
  { intros l Hl. eapply Forall_impl; [exact Hl|]. intros i Hi%negb_true_iff%Z.leb_gt. done. }
  split.
  - intros d r. unfold parseReplyTree. destruct (asMap tree) as [m|]; [|done].
    destruct (replyHeader m true) as [[tag req] []]; [|done]. destruct (negb _); [done|].
    pose proof (parseArm_ok fds req m d r) as Harm. destruct (parseArm fds req m) as [o wipe].
    intros Ho Hd. apply Hin. by destruct (Harm Ho Hd).
  - intros e. unfold parseEventTree. destruct (asMap tree) as [m|]; [|done]. cbn [mbind option_bind].
    intros [tag H]%reading_inv. apply Hin. destruct e; try constructor.
    repeat match type of H with context [if ?c then _ else _] => destruct c end; try done.
    all: match type of H with (fmap _ ?o = _) => destruct o eqn:E; [|done] end; injection H as ->.
    all: apply reading_inv in E as [a E]; arm_inv E.
    by eapply decodeOpResult_indices.
Qed.

(** A reply that carried a plaintext, a raw signature or a derived secret leaves
    the decoded tree wiped: every text and byte string in it is zeros. *)
Theorem secret_replies_leave_no_copy (fds : nat) (tree : CborValue) (d : DecodedReply) (r : Reply) :
  (parseReplyTree fds tree).1 = Some d → replyArm d = KnownReply r → secretReply r = true →
  payload (parseReplyTree fds tree).2 = replicate (length (payload tree)) 0%Z.
Proof.
  unfold parseReplyTree. destruct (asMap tree) as [m|]; [|done].
  destruct (replyHeader m true) as [[tag req] []]; [|done]. destruct (negb _); [done|].
  pose proof (parseArm_ok fds req m d r) as Harm. destruct (parseArm fds req m) as [o wipe].
  intros Ho Hd Hs. cbn [fst snd] in *. destruct (Harm Ho Hd) as [_ Hw]. rewrite (Hw Hs). apply payload_scrub.
Qed.

Lemma secret_replies_leave_no_copy_witness :
  payload (parseReplyTree 0 (makeReply 9 (DerivedSecretReply [11; 22; 33]%Z))).2 = replicate 8 0%Z.
Proof.
  apply (secret_replies_leave_no_copy 0 (makeReply 9 (DerivedSecretReply [11; 22; 33]%Z))
    (mkDecodedReply 9 (KnownReply (DerivedSecretReply [11; 22; 33]%Z))) (DerivedSecretReply [11; 22; 33]%Z));
    [by vm_compute|done|done].
Defined.

End ClientCodec.
