(* ===== verification/RawCrypto.v ===== *)
(** * Raw key operations: the preflight, the PIN's lifetime and the consent flow

    Models [src/operations/LmRawCrypto.cpp] (what a request must satisfy before
    anyone is asked for a PIN, and how long a PIN stays with the card plugin) and
    [src/operations/RawCryptoFlow.cpp] (when the holder is prompted, when the key is
    used without a prompt, and when the lease is marked verified).

    The card plugin, the prompter, the session holder and the cancel token are not
    code of this component: [Plugin] and [FlowEnv] are what they answer, in the
    order they are asked. [Recorded] adds the log of those calls, over which the
    flow's theorems are stated. *)
From S2P Require Import Prelude Vocabulary.
Import Vocabulary.
Local Open Scope Z_scope.

Module RawCrypto.

Inductive Mechanism := RsaPkcs1Sign | EcdsaSign | RsaPkcs1Decrypt | EcdhDerive | Sha256RsaPkcs1Sign.

#[export] Instance Mechanism_eq_dec : EqDecision Mechanism.
Proof. solve_decision. Defined.

(** ** Mechanism tokens *)

Definition kSignMechanismTokens : list (string * Mechanism) :=
  [("rsa-pkcs", RsaPkcs1Sign); ("sha256-rsa-pkcs", Sha256RsaPkcs1Sign); ("ecdsa", EcdsaSign)].
Definition kDecryptMechanismTokens : list (string * Mechanism) := [("rsa-pkcs", RsaPkcs1Decrypt)].

Definition fromToken (table : list (string * Mechanism)) (token : string) : option Mechanism :=
  snd <$> List.find (λ t, String.eqb (fst t) token) table.
Definition signMechanismFromToken : string → option Mechanism := fromToken kSignMechanismTokens.
Definition decryptMechanismFromToken : string → option Mechanism := fromToken kDecryptMechanismTokens.

Definition mechanismToken (m : Mechanism) : string :=
  match List.find (λ t, bool_decide (snd t = m)) (kSignMechanismTokens ++ kDecryptMechanismTokens) with
  | Some t => fst t
  | None => ""%string
  end.

(** ** Statuses *)

Inductive RawCryptoStatus :=
| Ok_ | KeyNotFound | AuthFailed | CardError | NotSupported | ConsentRequired | InvalidInput.

#[export] Instance RawCryptoStatus_eq_dec : EqDecision RawCryptoStatus.
Proof. solve_decision. Defined.

Record RawCryptoResult := mkResult {
  status : RawCryptoStatus; bytes : list Z; alwaysAuthenticate : bool }.

Definition err (s : RawCryptoStatus) : RawCryptoResult := mkResult s [] false.

(** The plugin's own outcomes ([LibreSCRS/Plugin/PluginTypes.h], not under src). *)
Inductive PluginOutcome :=
| PluginOk | NotImplemented | PinIncorrect | PinBlocked | PluginCancelled | PluginError | Unspecified.

Definition mapSignOutcome (o : PluginOutcome) : RawCryptoStatus :=
  match o with
  | PluginOk => Ok_
  | NotImplemented => NotSupported
  | PinIncorrect | PinBlocked => AuthFailed
  | PluginCancelled | PluginError | Unspecified => CardError
  end.

Definition mapDecipherOutcome (o : PluginOutcome) : RawCryptoStatus :=
  match o with
  | PluginOk => Ok_
  | NotImplemented => NotSupported
  | PinIncorrect | PinBlocked => AuthFailed
  | PluginCancelled | PluginError | Unspecified => CardError
  end.

(** ** The key a certificate id resolves to *)

(** What [selectSigningCandidate], the certificate parser and the plugin say of the
    resolved key. *)
Record Selection := mkSelection {
  keyFID : option Z;
  keyType : Key.KeyType;        (** [classifyCertKey]; [Other] when it does not parse *)
  keyBits : Z;
  permitsDecrypt : bool;        (** [certKeyUsagePermitsDecrypt] *)
  canDerive : bool;
  perOperation : bool;          (** [CertificateData::alwaysAuthenticate] *)
  paceCard : bool;              (** [preReadAuth(session) == Can] *)
  onCurve : list Z → bool }.    (** [ecPeerPointOnCertCurve] *)

Definition fieldLength (s : Selection) : Z := (keyBits s + 7) / 8.

Definition ecdsaMechanismForDigest (digestLength : Z) : option Z :=
  if digestLength =? 32 then Some 256
  else if digestLength =? 48 then Some 384
  else if digestLength =? 64 then Some 512
  else None.

Definition isEmpty (l : list Z) : bool := match l with [] => true | _ => false end.

Definition preflight (selection : option Selection) (mechanism : Mechanism) (input : list Z) :
    RawCryptoStatus * option Selection :=
  match selection with
  | None => (KeyNotFound, None)
  | Some key =>
      match keyFID key with
      | None => (KeyNotFound, None)
      | Some _ =>
          let k := fieldLength key in
          let n := zlen input in
          let rsa := bool_decide (keyType key = Key.Rsa) in
          let ec := bool_decide (keyType key = Key.Ec) in
          match mechanism with
          | RsaPkcs1Sign =>
              if negb rsa || isEmpty input || (k <? n + 11) then (InvalidInput, None)
              else if paceCard key then (InvalidInput, None)
              else (Ok_, Some key)
          | Sha256RsaPkcs1Sign =>
              if negb rsa || isEmpty input || negb (paceCard key) then (InvalidInput, None)
              else (Ok_, Some key)
          | EcdsaSign =>
              if negb ec || negb (bool_decide (is_Some (ecdsaMechanismForDigest n))) then (InvalidInput, None)
              else (Ok_, Some key)
          | RsaPkcs1Decrypt =>
              if negb rsa then (InvalidInput, None)
              else if negb (permitsDecrypt key) then (NotSupported, None)
              else if negb (n =? k) then (InvalidInput, None)
              else (Ok_, Some key)
          | EcdhDerive =>
              if negb ec || negb (canDerive key) then (InvalidInput, None)
              else if negb (n =? 1 + 2 * k) || negb (bool_decide (head input = Some 0x04)) || negb (onCurve key input)
              then (InvalidInput, None)
              else (Ok_, Some key)
          end
      end
  end.

(** ** The PIN with the plugin *)

Section Plugin.
Context {Pin : Type} (pinEmpty : Pin → bool).

(** The plugin's session-keyed storage is the deposit; an operation reads it and
    answers an outcome and bytes. *)
Definition Plugin : Type := option Pin → PluginOutcome * list Z.

(** [erasePinFrom]: [setCredentials(session, "pin", {})]. *)
Definition erasePinFrom (deposit : option Pin) : option Pin := None.

(** [underTheOperationsPin]: the result and the deposit it leaves. A PIN given for
    the operation is a [ScopedPinDeposit], erased at the end unless kept. *)
Definition underTheOperationsPin (deposit : option Pin) (pin : option Pin) (perOp : bool)
    (operation : option Pin → RawCryptoResult) : RawCryptoResult * option Pin :=
  match pin with
  | Some p =>
      if pinEmpty p then (err AuthFailed, erasePinFrom deposit)
      else
        let out := operation (Some p) in
        if negb perOp && bool_decide (status out = Ok_) then (out, Some p) else (out, None)
  | None =>
      let out := operation deposit in
      if negb perOp && bool_decide (status out = Ok_) then (out, deposit)
      else (out, erasePinFrom deposit)
  end.

Definition signRaw (key : Selection) (mechanism : Mechanism) (input : list Z) (pin deposit : option Pin)
    (plugin : Plugin) : RawCryptoResult * option Pin :=
  match keyFID key with
  | None => (err KeyNotFound, deposit)
  | Some _ =>
      let supported :=
        match mechanism with
        | RsaPkcs1Sign | Sha256RsaPkcs1Sign => true
        | EcdsaSign => bool_decide (is_Some (ecdsaMechanismForDigest (zlen input)))
        | _ => false
        end in
      if negb supported then (err InvalidInput, deposit)
      else
        match perOperation key, pin with
        | true, None => (mkResult ConsentRequired [] true, deposit)
        | perOp, _ =>
            underTheOperationsPin deposit pin perOp (λ held,
              let '(o, signature) := plugin held in
              let s := mapSignOutcome o in
              mkResult s (if bool_decide (s = Ok_) then signature else []) perOp)
        end
  end.

Definition decipherWithKey (key : Selection) (pin deposit : option Pin) (plugin : Plugin) :
    RawCryptoResult * option Pin :=
  match perOperation key, pin with
  | true, None => (mkResult ConsentRequired [] true, deposit)
  | perOp, _ =>
      underTheOperationsPin deposit pin perOp (λ held,
        let '(o, plaintext) := plugin held in
        let s := mapDecipherOutcome o in
        mkResult s (if bool_decide (s = Ok_) then plaintext else []) perOp)
  end.

Definition decryptRaw (key : Selection) (mechanism : Mechanism) (pin deposit : option Pin) (plugin : Plugin) :
    RawCryptoResult * option Pin :=
  match keyFID key with
  | None => (err KeyNotFound, deposit)
  | Some _ =>
      if negb (bool_decide (mechanism = RsaPkcs1Decrypt)) then (err InvalidInput, deposit)
      else decipherWithKey key pin deposit plugin
  end.

Definition deriveRaw (key : Selection) (mechanism : Mechanism) (pin deposit : option Pin) (plugin : Plugin) :
    RawCryptoResult * option Pin :=
  match keyFID key with
  | None => (err KeyNotFound, deposit)
  | Some _ =>
      if negb (bool_decide (mechanism = EcdhDerive)) then (err InvalidInput, deposit)
      else
        let '(out, deposit) := decipherWithKey key pin deposit plugin in
        if bool_decide (status out = Ok_) &&
           (negb (bool_decide (keyType key = Key.Ec)) || negb (zlen (bytes out) =? fieldLength key))
        then (mkResult CardError [] (alwaysAuthenticate out), deposit)
        else (out, deposit)
  end.
End Plugin.

(** ** The flow *)

Inductive Outcome :=
| FOk | FCancelled | FKeyNotFound | FAuthFailed | FNotSupported | FCardError | FRateLimited | FInvalidInput.

#[export] Instance Outcome_eq_dec : EqDecision Outcome.
Proof. solve_decision. Defined.

Record FlowResult := mkFlowResult { outcome : Outcome; resultBytes : list Z }.

Definition makeError (o : Outcome) : FlowResult := mkFlowResult o [].
Definition makeCancelled : FlowResult := mkFlowResult FCancelled [].

Definition mapStatus (s : RawCryptoStatus) : Outcome :=
  match s with
  | Ok_ => FOk
  | KeyNotFound => FKeyNotFound
  | AuthFailed => FAuthFailed
  | NotSupported => FNotSupported
  | CardError => FCardError
  | ConsentRequired => FCardError
  | InvalidInput => FInvalidInput
  end.

Definition refusalOutcome (s : RawCryptoStatus) : Outcome :=
  match s with Ok_ => FCardError | _ => mapStatus s end.

Inductive OpenStatus := OpenOk | OpenCancelled | OpenFailed.
Inductive PromptStatus := PromptOk | PromptCancelled | PromptError | PromptTimeout | PromptHelperTooOld.
Inductive Op := OpSign | OpDecrypt | OpDerive.
Inductive Phase := AwaitingConsent | Authenticating | Signing.

#[export] Instance Phase_eq_dec : EqDecision Phase.
Proof. solve_decision. Defined.

(** The collaborators of one run, asked in turn. A preflight answers a status and
    whether it resolved a key; the prompter a status and whether a secret came with
    it; the terminal operation is told whether it gets the PIN. *)
Class FlowEnv (S : Type) := {
  isPinVerified : S → bool * S;
  allowPrompt : S → bool * S;
  openSession : S → OpenStatus * S;
  isCancelled : S → bool * S;
  runPreflight : S → RawCryptoStatus * bool * S;
  requestPin : S → PromptStatus * bool * S;
  terminal : bool → S → RawCryptoResult * S;
  markPinVerified : S → S;
  clearPinVerified : S → S;
  setPhase : Phase → S → S;
  invalidateSecrets : S → S }.

(** Which of the optional collaborators a host wired. *)
Record Wiring := mkWiring {
  hasIsPinVerified : bool; hasMark : bool; hasClear : bool; hasAllowPrompt : bool;
  hasPreflight : bool; hasOp : Op → bool }.

Section Flow.
Context {S : Type} `{!FlowEnv S} (w : Wiring).

Definition promptAllowed (s : S) : bool * S :=
  if hasAllowPrompt w then allowPrompt s else (false, s).

Definition preflightOr (s : S) : RawCryptoStatus * bool * S :=
  if hasPreflight w then runPreflight s else (CardError, false, s).

(** The lambda [collectPin]. *)
Definition collectPin (s : S) : PromptStatus * bool * S :=
  let '(status, secret, s) := requestPin (setPhase AwaitingConsent s) in
  match status, secret with
  | PromptOk, true => (PromptOk, true, setPhase Signing (setPhase Authenticating s))
  | _, _ => (status, false, s)
  end.

(** The lambda [obtainPin]: [None] is the PIN, [Some] the result to hand back. *)
Definition obtainPin (charge : bool) (s : S) : option FlowResult * S :=
  let '(refused, s) :=
    if charge then let '(allowed, s) := promptAllowed s in (negb allowed, s) else (false, s) in
  if refused then (Some (makeError FRateLimited), s)
  else
    let '(status, secret, s) := collectPin s in
    match status, secret with
    | PromptCancelled, _ => (Some makeCancelled, s)
    | PromptOk, true => (None, s)
    | _, _ => (Some (makeError FCardError), s)
    end.

(** The tail of [runOp] after the last use of the key. *)
Definition finishOp (result : RawCryptoResult) (s : S) : FlowResult * S :=
  let o := mapStatus (status result) in
  let s := if bool_decide (o = FAuthFailed) then invalidateSecrets s else s in
  if negb (bool_decide (o = FOk)) then (makeError o, s) else (mkFlowResult FOk (bytes result), s).

(** [markPinVerified] after an operation that presented the PIN. *)
Definition markAfter (result : RawCryptoResult) (s : S) : S :=
  if bool_decide (mapStatus (status result) = FOk) && negb (alwaysAuthenticate result) && hasMark w
  then markPinVerified s else s.

(** The retry of an operation run without the PIN under a verified lease. *)
Definition retryWithPin (channelLost : bool) (s : S) : FlowResult * S :=
  let s := if channelLost && hasClear w then clearPinVerified s else s in
  let '(cancelled, s) := isCancelled s in
  if cancelled then (makeCancelled, s)
  else
    let '(st, key, s) := if channelLost then preflightOr s else (Ok_, true, s) in
    if negb (bool_decide (st = Ok_)) || negb key then (makeError (refusalOutcome st), s)
    else
      let '(done, s) := obtainPin true s in
      match done with
      | Some r => (r, s)
      | None =>
          let '(cancelled, s) := isCancelled s in
          if cancelled then (makeCancelled, s)
          else
            let '(result, s) := terminal true s in
            finishOp result (markAfter result s)
      end.

(** [runOp] from the PIN on, with the key resolved. *)
Definition useKey (alreadyVerified : bool) (s : S) : FlowResult * S :=
  let '(done, s) := if alreadyVerified then (None, setPhase Signing s) else obtainPin false s in
  match done with
  | Some r => (r, s)
  | None =>
      let '(cancelled, s) := isCancelled s in
      if cancelled then (makeCancelled, s)
      else
        let '(result, s) := terminal (negb alreadyVerified) s in
        let consentAsked := alreadyVerified && bool_decide (status result = ConsentRequired) in
        let channelLost := alreadyVerified && negb consentAsked &&
                           bool_decide (mapStatus (status result) = FCardError) in
        if consentAsked || channelLost then retryWithPin channelLost s
        else if negb alreadyVerified then finishOp result (markAfter result s)
        else finishOp result s
  end.

Definition runOp (op : Op) (s : S) : FlowResult * S :=
  let '(alreadyVerified, s) := if hasIsPinVerified w then isPinVerified s else (false, s) in
  let '(allowed, s) := if alreadyVerified then (true, s) else promptAllowed s in
  if negb allowed then (makeError FRateLimited, s)
  else
    let '(opened, s) := openSession s in
    match opened with
    | OpenCancelled => (makeCancelled, s)
    | OpenFailed => (makeError FCardError, s)
    | OpenOk =>
        let '(cancelled, s) := isCancelled s in
        if cancelled then (makeCancelled, s)
        else
          let '(st, key, s) := preflightOr s in
          if negb (bool_decide (st = Ok_)) || negb key then (makeError (refusalOutcome st), s)
          else if negb (hasOp w op) then (makeError FCardError, s)
          else useKey alreadyVerified s
    end.

(** The entry for a mechanism. *)
Definition run (mechanism : Mechanism) (s : S) : FlowResult * S :=
  match mechanism with
  | EcdhDerive => runOp OpDerive s
  | RsaPkcs1Decrypt => runOp OpDecrypt s
  | _ => runOp OpSign s
  end.
End Flow.

(** ** The calls of a run *)

Inductive Call :=
| CVerified (b : bool)
| CAllow (b : bool)
| COpen (o : OpenStatus)
| CCancelled (b : bool)
| CPreflight (st : RawCryptoStatus) (key : bool)
| CPrompt (st : PromptStatus) (secret : bool)
| CTerminal (withPin : bool) (r : RawCryptoResult)
| CMark | CClear
| CPhase (p : Phase)
| CInvalidate.

(** Any environment, with its calls and answers logged in order. *)
#[export] Instance Recorded {S} `{!FlowEnv S} : FlowEnv (S * list Call) := {|
  isPinVerified '(s, log) := let '(b, s) := isPinVerified s in (b, (s, log ++ [CVerified b]));
  allowPrompt '(s, log) := let '(b, s) := allowPrompt s in (b, (s, log ++ [CAllow b]));
  openSession '(s, log) := let '(o, s) := openSession s in (o, (s, log ++ [COpen o]));
  isCancelled '(s, log) := let '(b, s) := isCancelled s in (b, (s, log ++ [CCancelled b]));
  runPreflight '(s, log) := let '(st, key, s) := runPreflight s in (st, key, (s, log ++ [CPreflight st key]));
  requestPin '(s, log) := let '(st, secret, s) := requestPin s in (st, secret, (s, log ++ [CPrompt st secret]));
  terminal withPin '(s, log) :=
    let '(r, s) := terminal withPin s in (r, (s, log ++ [CTerminal withPin r]));
  markPinVerified '(s, log) := (markPinVerified s, log ++ [CMark]);
  clearPinVerified '(s, log) := (clearPinVerified s, log ++ [CClear]);
  setPhase p '(s, log) := (setPhase p s, log ++ [CPhase p]);
  invalidateSecrets '(s, log) := (invalidateSecrets s, log ++ [CInvalidate]) |}.

(** ** The discipline of a run's calls *)

(** What the calls so far entitle the flow to: prompts paid for, PINs in hand, a
    verified lease, a key resolved, a verification to remember. *)
Record Credit := mkCredit {
  charges : nat; pins : nat; verified : bool; resolved : bool; markable : bool }.

Definition noCredit : Credit := mkCredit 0 0 false false false.

(** One call under the credit; [None] is a violation: a prompt nobody paid for, a
    use of the key without a PIN just given or a verified lease, a use of a key no
    preflight resolved, a mark after anything but a success that presented the PIN
    with a key the card does not mark for consent per operation. *)
Definition spend (c : Credit) (call : Call) : option Credit :=
  match call with
  | CVerified b => Some (mkCredit (charges c) (pins c) b (resolved c) (markable c))
  | CAllow b => Some (mkCredit (if b then S (charges c) else charges c) (pins c) (verified c) (resolved c) (markable c))
  | CPreflight st key =>
      Some (mkCredit (charges c) (pins c) (verified c) (bool_decide (st = Ok_) && key) (markable c))
  | CPrompt st secret =>
      match charges c with
      | O => None
      | S n =>
          let p := match st, secret with PromptOk, true => S (pins c) | _, _ => pins c end in
          Some (mkCredit n p (verified c) (resolved c) (markable c))
      end
  | CTerminal withPin r =>
      if negb (resolved c) then None
      else if withPin then
        match pins c with
        | O => None
        | S n =>
            Some (mkCredit (charges c) n (verified c) (resolved c)
                    (bool_decide (status r = Ok_) && negb (alwaysAuthenticate r)))
        end
      else if verified c then Some (mkCredit (charges c) (pins c) (verified c) (resolved c) false)
      else None
  | CMark => if markable c then Some (mkCredit (charges c) (pins c) (verified c) (resolved c) false) else None
  | CClear => Some (mkCredit (charges c) (pins c) false (resolved c) (markable c))
  | COpen _ | CCancelled _ | CPhase _ | CInvalidate => Some c
  end.

Definition credit (calls : list Call) : option Credit :=
  foldl (λ c call, c ≫= λ c, spend c call) (Some noCredit) calls.

#[local] Arguments credit : simpl never.

Lemma credit_snoc calls call : credit (calls ++ [call]) = credit calls ≫= λ c, spend c call.
Proof. unfold credit. by rewrite foldl_app. Qed.

Definition isPrompt (c : Call) : bool := match c with CPrompt _ _ => true | _ => false end.
Definition isUse (c : Call) : bool := match c with CTerminal _ _ => true | _ => false end.
Definition count (p : Call → bool) (l : list Call) : nat := length (List.filter p l).

(** Follows every answer the environment can give. *)
Ltac follow_flow :=
  unfold run, runOp, retryWithPin, obtainPin, collectPin, promptAllowed, preflightOr, finishOp, markAfter;
  repeat (cbn [isPinVerified allowPrompt openSession isCancelled runPreflight requestPin terminal markPinVerified
     clearPinVerified setPhase invalidateSecrets Recorded];
     match goal with
     | |- context [match ?e with _ => _ end] =>
         lazymatch e with
         | context [match _ with _ => _ end] => fail
         | _ => destruct e eqn:?
         end
     end).

Ltac credit_step Hc := rewrite ?credit_snoc, ?Hc; cbn [mbind option_bind spend].

Section Discipline.
Context {E : Type} `{!FlowEnv E} (w : Wiring).

Abbreviation logOf r := (snd (snd r)).

Lemma collectPin_credit (s : E) log c n :
  credit log = Some c → charges c = S n →
  ∃ c', credit (logOf (collectPin (S := E * list Call) (s, log))) = Some c' ∧ charges c' = n ∧
    resolved c' = resolved c ∧ pins c' = (if snd (fst (collectPin (S := E * list Call) (s, log))) then S (pins c) else pins c).
Proof.
  intros Hc Hn. unfold collectPin. cbn.
  destruct (requestPin (setPhase AwaitingConsent s)) as [[st secret] s'].
  destruct st, secret; cbn; credit_step Hc; rewrite Hn; cbn; eauto.
Qed.
Lemma obtainPin_credit (charge : bool) (s : E) log c :
  credit log = Some c → (charge = false → charges c ≠ O) →
  ∃ c', credit (logOf (obtainPin (S := E * list Call) w charge (s, log))) = Some c' ∧ resolved c' = resolved c ∧
    (fst (obtainPin (S := E * list Call) w charge (s, log)) = None → pins c' ≠ O).
Proof.
  intros Hc Hcharge. unfold obtainPin.
  assert (∀ s log c n, credit log = Some c → charges c = S n → ∃ c',
    let r := collectPin (S := E * list Call) (s, log) in
    credit (logOf r) = Some c' ∧ resolved c' = resolved c ∧ (snd (fst r) = true → pins c' ≠ O)) as Hcollect.
  { intros s0 log0 c0 n H0 Hn. destruct (collectPin_credit s0 log0 c0 n H0 Hn) as (c' & ? & _ & ? & Hp).
    exists c'. split_and!; [done..|]. intros Hs. rewrite Hp, Hs. done. }
  assert (∀ s log c, credit log = Some c → charges c ≠ O → ∃ c',
    let r := (let '(status, secret, s) := collectPin (S := E * list Call) (s, log) in
      match status, secret with
      | PromptCancelled, _ => (Some makeCancelled, s)
      | PromptOk, true => (None, s)
      | _, _ => (Some (makeError FCardError), s)
      end) in credit (logOf r) = Some c' ∧ resolved c' = resolved c ∧ (fst r = None → pins c' ≠ O)) as Hrest.
  { intros s0 log0 c0 H0 Hn. destruct (charges c0) as [|n] eqn:En; [done|].
    destruct (Hcollect s0 log0 c0 n H0 En) as (c' & H1 & H2 & H3). exists c'.
    destruct (collectPin (s0, log0)) as [[[] []] [s1 log1]]; cbn in *; auto. }
  destruct charge; [|by apply (Hrest s log c); auto].
  unfold promptAllowed. destruct (hasAllowPrompt w); [|cbn; by eauto].
  cbn. destruct (allowPrompt s) as [[] s1]; cbn.
  - destruct (Hrest s1 (log ++ [CAllow true]) (mkCredit (S (charges c)) (pins c) (verified c) (resolved c) (markable c)))
      as (c' & H); [by credit_step Hc|done|]. exists c'. exact H.
  - eexists. credit_step Hc. done.
Qed.

Lemma finishOp_credit r (s : E) log : is_Some (credit log) → is_Some (credit (logOf (finishOp (S := E * list Call) r (s, log)))).
Proof.
  intros [c Hc]. unfold finishOp. destruct (bool_decide (mapStatus (status r) = FAuthFailed)); cbn;
    destruct (bool_decide (mapStatus (status r) = FOk)); cbn; credit_step Hc; eauto.
Qed.

Lemma mapStatus_ok st : mapStatus st = FOk ↔ st = Ok_.
Proof. by destruct st. Qed.

(** The use of the key with a PIN in hand, and what follows it. *)
Lemma useWithPin_credit (s : E) log c :
  credit log = Some c → resolved c = true → pins c ≠ O →
  is_Some (credit (logOf (let '(result, s) := terminal true (s, log) in finishOp (S := E * list Call) result (markAfter w result s)))).
Proof.
  intros Hc Hr Hp. cbn. destruct (terminal true s) as [r s1]. unfold markAfter.
  destruct (pins c) as [|n] eqn:En; [done|].
  destruct (bool_decide (mapStatus (status r) = FOk) && negb (alwaysAuthenticate r) && hasMark w) eqn:Em;
    apply finishOp_credit; cbn; credit_step Hc; rewrite Hr, En; cbn; [|by eauto].
  apply andb_true_iff in Em as [[Hok ?]%andb_true_iff _]. apply bool_decide_eq_true, mapStatus_ok in Hok.
  rewrite bool_decide_eq_true_2 by done. cbn. rewrite H. eauto.
Qed.

Lemma retryWithPin_credit (channelLost : bool) (s : E) log c :
  credit log = Some c → resolved c = true → is_Some (credit (logOf (retryWithPin (S := E * list Call) w channelLost (s, log)))).
Proof.
  intros Hc Hr. unfold retryWithPin.
  assert (∀ s log c, credit log = Some c → resolved c = true →
    is_Some (credit (logOf (let '(done, s) := obtainPin (S := E * list Call) w true (s, log) in
      match done with
      | Some r => (r, s)
      | None =>
          let '(cancelled, s) := isCancelled s in
          if cancelled then (makeCancelled, s)
          else let '(result, s) := terminal true s in finishOp result (markAfter w result s)
      end)))) as Hobtain.
  { intros s0 log0 c0 H0 Hr0. destruct (obtainPin_credit true s0 log0 c0 H0) as (c' & H1 & H2 & H3); [done|].
    destruct (obtainPin w true (s0, log0)) as [[r|] [s1 log1]]; cbn in *; [by eauto|].
    destruct (isCancelled s1) as [[] s2]; cbn [logOf snd]; [credit_step H1; eauto|].
    apply (useWithPin_credit s2 (log1 ++ [CCancelled false]) c'); [by credit_step H1|congruence|by apply H3]. }
  set (s1 := if channelLost && hasClear w then clearPinVerified (s, log) else (s, log)).
  assert (∃ c1, credit (snd s1) = Some c1 ∧ resolved c1 = true) as (c1 & Hc1 & Hr1).
  { unfold s1. destruct (channelLost && hasClear w); cbn; [credit_step Hc|]; eauto. }
  clearbody s1. destruct s1 as [s1 log1]. cbn [snd] in Hc1. cbn [isCancelled Recorded].
  destruct (isCancelled s1) as [[] s2]; cbn [snd]; [credit_step Hc1; eauto|].
  assert (credit (log1 ++ [CCancelled false]) = Some c1) as Hc2 by by credit_step Hc1.
  destruct channelLost; cbn [bool_decide negb orb]; [|by apply (Hobtain s2 _ c1)].
  unfold preflightOr. destruct (hasPreflight w); [|cbn; by eauto].
  cbn [runPreflight Recorded]. destruct (runPreflight s2) as [[st key] s3].
  destruct (negb (bool_decide (st = Ok_)) || negb key) eqn:E1.
  { cbn [snd]. credit_step Hc1. eauto. }
  apply orb_false_iff in E1 as [E1%negb_false_iff E2%negb_false_iff].
  eapply (Hobtain s3); [by credit_step Hc1|]. cbn. by rewrite E1, E2.
Qed.

Lemma useKey_credit (alreadyVerified : bool) (s : E) log c :
  credit log = Some c → resolved c = true → verified c = alreadyVerified →
  (alreadyVerified = false → charges c ≠ O) →
  is_Some (credit (logOf (useKey (S := E * list Call) w alreadyVerified (s, log)))).
Proof.
  intros Hc Hr Hv Hn. unfold useKey. destruct alreadyVerified; cbn [negb andb].
  - cbn. destruct (isCancelled _) as [[] s1]; cbn; [credit_step Hc; eauto|].
    destruct (terminal false s1) as [r s2].
    assert (∃ c', credit (((log ++ [CPhase Signing]) ++ [CCancelled false]) ++ [CTerminal false r]) = Some c' ∧
      resolved c' = true) as (c' & Hc' & Hr') by (credit_step Hc; rewrite Hr, Hv; cbn; eauto).
    destruct (_ || _); [by apply (retryWithPin_credit _ s2 _ c')|]. apply finishOp_credit. eauto.
  - destruct (obtainPin_credit false s log c Hc Hn) as (c' & H1 & H2 & H3); [done..|].
    destruct (obtainPin w false (s, log)) as [[r|] [s1 log1]]; cbn [fst snd] in *; [by eauto|].
    cbn [isCancelled Recorded]. destruct (isCancelled s1) as [[] s2]; cbn [snd]; [credit_step H1; eauto|].
    apply (useWithPin_credit s2 (log1 ++ [CCancelled false]) c'); [by credit_step H1|congruence|by apply H3].
Qed.

Lemma runOp_credit op (s : E) : is_Some (credit (logOf (runOp (S := E * list Call) w op (s, [])))).
Proof.
  unfold runOp.
  set (v := if hasIsPinVerified w then isPinVerified (s, []) else (false, (s, []))).
  assert (∃ c, credit (logOf v) = Some c ∧ verified c = fst v ∧ charges c = O) as (c & Hc & Hv & Hn).
  { unfold v. destruct (hasIsPinVerified w); cbn; [|by eexists].
    destruct (isPinVerified s) as [b s1]. cbn. by eexists. }
  clearbody v. destruct v as [alreadyVerified [s1 log1]]. cbn [fst snd] in *.
  set (a := if alreadyVerified then (true, (s1, log1)) else promptAllowed w (s1, log1)).
  assert (∃ c, credit (logOf a) = Some c ∧ verified c = alreadyVerified ∧
    (fst a = true → alreadyVerified = false → charges c ≠ O)) as (c1 & Hc1 & Hv1 & Hn1).
  { unfold a, promptAllowed. destruct alreadyVerified; [by eauto|]. destruct (hasAllowPrompt w); cbn; [|by eauto].
    destruct (allowPrompt s1) as [[] s2]; cbn; credit_step Hc; eauto. }
  clear Hn Hc c Hv. clearbody a. destruct a as [[] [s2 log2]]; cbn [fst snd negb] in *; [|by eauto].
  cbn [openSession Recorded]. destruct (openSession s2) as [[] s3]; cbn [snd]; [|credit_step Hc1; eauto..].
  cbn [isCancelled Recorded]. destruct (isCancelled s3) as [[] s4]; cbn [snd]; [credit_step Hc1; eauto|].
  unfold preflightOr. destruct (hasPreflight w).
  2: { change (bool_decide (CardError = Ok_)) with false. cbn [negb orb snd]. credit_step Hc1. eauto. }
  cbn [runPreflight Recorded]. destruct (runPreflight s4) as [[st key] s5].
  destruct (negb (bool_decide (st = Ok_)) || negb key) eqn:E1; [cbn [snd]; credit_step Hc1; eauto|].
  destruct (hasOp w op); cbn [negb]; [|cbn [snd]; credit_step Hc1; eauto].
  apply orb_false_iff in E1 as [E1%negb_false_iff E2%negb_false_iff].
  eapply useKey_credit; [by credit_step Hc1|cbn; by rewrite E1, E2|done|by apply Hn1].
Qed.

(** ** How much a run asks for *)

Lemma count_snoc p l x : count p (l ++ [x]) = (count p l + if p x then 1 else 0)%nat.
Proof. unfold count. rewrite List.filter_app, length_app. cbn. by destruct (p x). Qed.

#[local] Arguments count : simpl never.

(** What a part of the flow adds to the log: [a] prompts and [b] uses at most, no
    prompt where it ends rate limited, and where it ends well the bytes of a use. *)
Definition adds (a b : nat) (log : list Call) (r : FlowResult * (E * list Call)) : Prop :=
  (count isPrompt (logOf r) ≤ count isPrompt log + a)%nat ∧ (count isUse (logOf r) ≤ count isUse log + b)%nat ∧
  (outcome (fst r) = FRateLimited → count isPrompt (logOf r) = count isPrompt log) ∧
  (outcome (fst r) = FOk → ∃ withPin u, CTerminal withPin u ∈ logOf r ∧ status u = Ok_ ∧ resultBytes (fst r) = bytes u).

Lemma obtainPin_adds charge (s : E) log :
  let r := obtainPin (S := E * list Call) w charge (s, log) in
  match fst r with
  | Some res => adds 1 0 log (res, snd r) ∧ outcome res ≠ FOk
  | None => (count isPrompt (logOf r) ≤ count isPrompt log + 1)%nat ∧ count isUse (logOf r) = count isUse log
  end.
Proof.
  cbv zeta. unfold obtainPin, promptAllowed, collectPin, adds.
  destruct charge; [destruct (hasAllowPrompt w)|]; cbn;
    repeat match goal with
    | |- context [allowPrompt ?s] => destruct (allowPrompt s) as [[] ?]; cbn
    | |- context [requestPin ?s] => destruct (requestPin s) as [[[] []] ?]; cbn
    end; rewrite ?count_snoc; cbn; split_and?; try done; try lia.
Qed.
Lemma count_nil p : count p [] = O.
Proof. done. Qed.

Lemma adds_from a b log log' r :
  count isPrompt log' = count isPrompt log → count isUse log' = count isUse log → adds a b log' r → adds a b log r.
Proof. intros H1 H2. unfold adds. by rewrite H1, H2. Qed.

Lemma adds_stop log r (s : E * list Call) :
  count isPrompt (snd s) = count isPrompt log → count isUse (snd s) = count isUse log → outcome r ≠ FOk →
  adds 0 0 log (r, s).
Proof. unfold adds. cbn. intros -> -> ?. split_and!; lia || done. Qed.

Lemma adds_mono a b a' b' log r : (a ≤ a')%nat → (b ≤ b')%nat → adds a b log r → adds a' b' log r.
Proof. unfold adds. intros ?? (?&?&?&?). split_and!; lia || done. Qed.

(** A use of the key and the end of the run. *)
Lemma use_adds (withPin mark : bool) (s : E) log :
  let '(result, s) := terminal withPin (s, log) in
  let r := finishOp (S := E * list Call) result (if mark then markAfter w result s else s) in
  (count isPrompt (logOf r) = count isPrompt log) ∧ (count isUse (logOf r) = S (count isUse log)) ∧
  outcome (fst r) ≠ FRateLimited ∧
  (outcome (fst r) = FOk → CTerminal withPin result ∈ logOf r ∧ status result = Ok_ ∧ resultBytes (fst r) = bytes result).
Proof.
  cbn. destruct (terminal withPin s) as [u s1]. unfold finishOp, markAfter.
  assert (bool_decide (mapStatus (status u) = FAuthFailed) = false ∨ bool_decide (mapStatus (status u) = FOk) = false) as Hor
    by (by destruct (status u); vm_compute; auto).
  destruct mark, (bool_decide_reflect (mapStatus (status u) = FOk)) as [Hok|Hok];
    destruct (alwaysAuthenticate u), (hasMark w); cbn [andb negb];
    destruct (bool_decide (mapStatus (status u) = FAuthFailed)); try (by destruct Hor);
    cbn [negb snd fst]; cbn; rewrite ?count_snoc; cbn; split_and!; try lia; try (by destruct (status u));
    intros; try done; (split; [rewrite ?elem_of_app, ?list_elem_of_singleton; auto|]); apply mapStatus_ok in Hok; done.
Qed.

Lemma use_ends (withPin mark : bool) (s : E) log a b r :
  r = (let '(result, s) := terminal withPin (s, log) in
       finishOp (S := E * list Call) result (if mark then markAfter w result s else s)) →
  ∀ log0, (count isPrompt log ≤ count isPrompt log0 + a)%nat → (S (count isUse log) ≤ count isUse log0 + b)%nat →
  adds a b log0 r.
Proof.
  intros -> log0 Ha Hb. pose proof (use_adds withPin mark s log) as H.
  destruct (terminal withPin (s, log)) as [u s1]. destruct H as (H1 & H2 & H3 & H4). unfold adds.
  rewrite H1, H2. split_and!; [lia|lia|done|]. intros Hok. destruct (H4 Hok) as (?&?&?). eauto.
Qed.

(** The PIN, then the use that presents it. *)
Lemma pinThenUse_adds (charge : bool) (s : E) log :
  adds 1 1 log
    (let '(done, s) := obtainPin (S := E * list Call) w charge (s, log) in
     match done with
     | Some r => (r, s)
     | None =>
         let '(cancelled, s) := isCancelled s in
         if cancelled then (makeCancelled, s)
         else let '(result, s) := terminal true s in finishOp result (markAfter w result s)
     end).
Proof.
  pose proof (obtainPin_adds charge s log) as H. cbv zeta in H.
  destruct (obtainPin w charge (s, log)) as [[res|] [s1 log1]]; cbn [fst snd] in *.
  { destruct H as [H _]. by eapply adds_mono; [..|exact H]; lia. }
  destruct H as [H1 H2]. cbn [isCancelled Recorded]. destruct (isCancelled s1) as [[] s2]; cbn [fst snd].
  - unfold adds. cbn [fst snd]. rewrite !count_snoc. cbn [isPrompt isUse]. split_and!; [lia|lia|done|done].
  - eapply (use_ends true true s2 (log1 ++ [CCancelled false])); [reflexivity| |];
      rewrite count_snoc; cbn [isPrompt isUse]; lia.
Qed.

Lemma retryWithPin_adds channelLost (s : E) log : adds 1 1 log (retryWithPin (S := E * list Call) w channelLost (s, log)).
Proof.
  unfold retryWithPin.
  set (s1 := if channelLost && hasClear w then clearPinVerified (s, log) else (s, log)).
  assert (count isPrompt (snd s1) = count isPrompt log ∧ count isUse (snd s1) = count isUse log) as [H1 H2].
  { unfold s1. destruct (channelLost && hasClear w); cbn; rewrite ?count_snoc; cbn; lia. }
  clearbody s1. destruct s1 as [s1 log1]. cbn [snd] in *. cbn [isCancelled Recorded].
  destruct (isCancelled s1) as [[] s2].
  { eapply adds_mono, adds_stop; cbn [snd]; rewrite ?count_snoc; cbn; lia || done. }
  destruct channelLost.
  - unfold preflightOr. destruct (hasPreflight w).
    + cbn [runPreflight Recorded]. destruct (runPreflight s2) as [[st key] s3].
      destruct (negb (bool_decide (st = Ok_)) || negb key).
      * eapply adds_mono, adds_stop; cbn [snd]; rewrite ?count_snoc; cbn; try lia. by destruct st.
      * eapply adds_from; [..|apply (pinThenUse_adds true s3)]; rewrite !count_snoc; cbn; lia.
    + eapply adds_mono, adds_stop; cbn [snd]; rewrite ?count_snoc; cbn; lia || done.
  - eapply adds_from; [..|apply (pinThenUse_adds true s2)]; rewrite !count_snoc; cbn; lia.
Qed.

Lemma useKey_adds alreadyVerified (s : E) log : adds 1 2 log (useKey (S := E * list Call) w alreadyVerified (s, log)).
Proof.
  unfold useKey. destruct alreadyVerified; cbn [negb andb].
  - cbn [setPhase isCancelled Recorded]. destruct (isCancelled _) as [[] s1].
    { eapply adds_mono, adds_stop; cbn [snd]; rewrite ?count_snoc; cbn; lia || done. }
    pose proof (use_ends false false s1 ((log ++ [CPhase Signing]) ++ [CCancelled false]) 1 2 _ eq_refl log) as Huse.
    cbn [terminal Recorded] in *. destruct (terminal false s1) as [r s2].
    destruct (_ || _).
    + pose proof (retryWithPin_adds (negb (bool_decide (status r = ConsentRequired)) &&
        bool_decide (mapStatus (status r) = FCardError)) s2
        (((log ++ [CPhase Signing]) ++ [CCancelled false]) ++ [CTerminal false r])) as H.
      unfold adds in H |- *. rewrite !count_snoc in H. cbn [isPrompt isUse] in H.
      destruct H as (?&?&Hrate&?). split_and!; [lia|lia| |done]. intros Hr. specialize (Hrate Hr). lia.
    + apply Huse; rewrite !count_snoc; cbn; lia.
  - eapply adds_mono; [| |apply pinThenUse_adds]; lia.
Qed.

Lemma runOp_adds op (s : E) : adds 1 2 [] (runOp (S := E * list Call) w op (s, [])).
Proof.
  unfold runOp.
  set (v := if hasIsPinVerified w then isPinVerified (s, []) else (false, (s, []))).
  assert (count isPrompt (logOf v) = O ∧ count isUse (logOf v) = O) as [H1 H2].
  { unfold v. destruct (hasIsPinVerified w); cbn; [|done]. by destruct (isPinVerified s). }
  clearbody v. destruct v as [alreadyVerified [s1 log1]]. cbn [fst snd] in *.
  set (a := if alreadyVerified then (true, (s1, log1)) else promptAllowed w (s1, log1)).
  assert (count isPrompt (logOf a) = O ∧ count isUse (logOf a) = O) as [H3 H4].
  { unfold a, promptAllowed. destruct alreadyVerified; [done|]. destruct (hasAllowPrompt w); cbn; [|done].
    destruct (allowPrompt s1); cbn. rewrite !count_snoc. cbn. lia. }
  clearbody a. destruct a as [allowed [s2 log2]]. cbn [fst snd] in *.
  destruct allowed; cbn [negb]; [|eapply adds_mono, adds_stop; cbn [snd]; lia || done].
  cbn [openSession Recorded]. destruct (openSession s2) as [[] s3];
    [|eapply adds_mono, adds_stop; cbn [snd]; rewrite ?count_snoc; cbn; rewrite ?count_nil; lia || done..].
  cbn [isCancelled Recorded]. destruct (isCancelled s3) as [[] s4];
    [eapply adds_mono, adds_stop; cbn [snd]; rewrite ?count_snoc; cbn; rewrite ?count_nil; lia || done|].
  set (p := preflightOr w _).
  assert (count isPrompt (logOf p) = O ∧ count isUse (logOf p) = O) as [H5 H6].
  { unfold p, preflightOr. destruct (hasPreflight w); [cbn; destruct (runPreflight s4) as [[??]?]|]; cbn;
      rewrite ?count_snoc; cbn; lia. }
  clearbody p. destruct p as [[st key] [s5 log5]]. cbn [fst snd] in *.
  destruct (negb (bool_decide (st = Ok_)) || negb key);
    [eapply adds_mono, adds_stop; cbn [snd]; try lia; [done|done|by destruct st]|].
  destruct (negb (hasOp w op)); [eapply adds_mono, adds_stop; cbn [snd]; lia || done|].
  eapply adds_from; [..|apply useKey_adds]; done.
Qed.
End Discipline.

(** ** What a request must satisfy *)

(** The header's table of what each mechanism takes. *)
Definition fits (key : Selection) (mechanism : Mechanism) (input : list Z) : Prop :=
  is_Some (keyFID key) ∧
  match mechanism with
  | RsaPkcs1Sign => keyType key = Key.Rsa ∧ 1 ≤ zlen input ≤ fieldLength key - 11 ∧ paceCard key = false
  | Sha256RsaPkcs1Sign => keyType key = Key.Rsa ∧ 1 ≤ zlen input ∧ paceCard key = true
  | EcdsaSign => keyType key = Key.Ec ∧ zlen input ∈ [32; 48; 64]
  | RsaPkcs1Decrypt => keyType key = Key.Rsa ∧ permitsDecrypt key = true ∧ zlen input = fieldLength key
  | EcdhDerive =>
      keyType key = Key.Ec ∧ canDerive key = true ∧ zlen input = 1 + 2 * fieldLength key ∧
      head input = Some 0x04 ∧ onCurve key input = true
  end.

Lemma isEmpty_false l : isEmpty l = false ↔ 1 ≤ zlen l.
Proof. destruct l; cbn; [done|]. split; [lia|done]. Qed.

Lemma ecdsaMechanism_spec n : is_Some (ecdsaMechanismForDigest n) ↔ n ∈ [32; 48; 64].
Proof.
  unfold ecdsaMechanismForDigest. rewrite !elem_of_cons, elem_of_nil.
  destruct (Z.eqb_spec n 32), (Z.eqb_spec n 48), (Z.eqb_spec n 64); split; try done; try (by intros [? [=]]); try tauto; eauto.
Qed.

Ltac decide_bools :=
  repeat match goal with
  | H : (_ || _)%bool = false |- _ => apply orb_false_iff in H as [? ?]
  | H : negb _ = false |- _ => apply negb_false_iff in H
  | H : bool_decide _ = true |- _ => apply bool_decide_eq_true in H
  | H : (_ =? _) = true |- _ => apply Z.eqb_eq in H
  | H : (_ <? _) = false |- _ => apply Z.ltb_ge in H
  | H : isEmpty _ = false |- _ => apply isEmpty_false in H
  end.

Lemma preflight_fits key m input : preflight (Some key) m input = (Ok_, Some key) ↔ fits key m input.
Proof.
  unfold preflight, fits. destruct (keyFID key) as [fid|]; [|split; [done|by intros [[? [=]] _]]].
  split.
  - destruct m; intros H; repeat case_match; try done; decide_bools; split; try done;
      split_and?; try done; try lia; by apply ecdsaMechanism_spec.
  - intros [_ H]. destruct m; destruct_and?; repeat match goal with
    | H : keyType key = _ |- _ => rewrite (bool_decide_eq_true_2 _ H); clear H
    | H : _ = true |- _ => rewrite H; clear H
    | H : _ = false |- _ => rewrite H; clear H
    end; cbn [negb orb].
    + rewrite (proj2 (isEmpty_false input)) by lia. cbn. by rewrite (proj2 (Z.ltb_ge _ _)) by lia.
    + by rewrite bool_decide_eq_true_2 by by apply ecdsaMechanism_spec.
    + by rewrite (proj2 (Z.eqb_eq _ _)).
    + rewrite (proj2 (Z.eqb_eq (zlen input) _)) by done. by rewrite bool_decide_eq_true_2.
    + by rewrite (proj2 (isEmpty_false input)) by lia.
Qed.

(** ** The PIN's lifetime *)

Section Lifetime.
Context {Pin : Type} (pinEmpty : Pin → bool).

(** What a raw operation may leave with the plugin: nothing, or after a success with
    an ordinary key the PIN that served it, or what was there when the key was not
    touched. *)
Definition lifetimeOk (key : Selection) (pin deposit : option Pin) (r : RawCryptoResult * option Pin) : Prop :=
  snd r = None ∨
  (status (fst r) = Ok_ ∧ perOperation key = false ∧ snd r = (match pin with Some p => Some p | None => deposit end)) ∨
  (snd r = deposit ∧
   (status (fst r) = KeyNotFound ∨ status (fst r) = InvalidInput ∨ status (fst r) = ConsentRequired)).

Lemma underPin_lifetime key pin deposit (operation : option Pin → RawCryptoResult) :
  lifetimeOk key pin deposit (underTheOperationsPin pinEmpty deposit pin (perOperation key) operation).
Proof.
  unfold underTheOperationsPin, lifetimeOk, erasePinFrom.
  destruct pin as [p|]; [destruct (pinEmpty p); [by left|]|]; destruct (perOperation key); cbn; try (by left).
  all: case_bool_decide; [right; left; done|by left].
Qed.
End Lifetime.

(** ** Properties *)

(** C4: however the card, the prompter, the budget and the cancel token answer, the
    calls of a run keep the discipline: every PIN prompt was paid for out of the
    caller's budget, the key is used only after a preflight resolved it, and only
    with a PIN just given or under a lease that was verified; and the lease is
    marked verified only right after a success that presented the PIN with a key
    the card does not mark for consent per operation. *)
Theorem flow_consent {E : Type} `{!FlowEnv E} (w : Wiring) (mechanism : Mechanism) (s : E) :
  is_Some (credit (snd (snd (run (S := E * list Call) w mechanism (s, []))))).
Proof. unfold run. destruct mechanism; apply runOp_credit. Qed.

(** A run raises at most one PIN prompt and uses the key at most twice, raises no
    prompt when it ends rate limited, and a result it reports as good is the result
    of a use of the key that succeeded. *)
Theorem flow_bounded {E : Type} `{!FlowEnv E} (w : Wiring) (mechanism : Mechanism) (s : E) :
  let r := run (S := E * list Call) w mechanism (s, []) in
  let log := snd (snd r) in
  (count isPrompt log ≤ 1)%nat ∧ (count isUse log ≤ 2)%nat ∧
  (outcome (fst r) = FRateLimited → count isPrompt log = O) ∧
  (outcome (fst r) = FOk → ∃ withPin u, CTerminal withPin u ∈ log ∧ status u = Ok_ ∧ resultBytes (fst r) = bytes u).
Proof. cbv zeta. unfold run. destruct mechanism; apply runOp_adds. Qed.

(** The preflight lets through exactly the requests the key takes: the family,
    the length, the peer's point and the card's kind as the contract lists them. *)
Theorem preflight_exact (key : Selection) (mechanism : Mechanism) (input : list Z) :
  (fst (preflight (Some key) mechanism input) = Ok_ ↔ fits key mechanism input) ∧
  (fst (preflight (Some key) mechanism input) ≠ Ok_ → snd (preflight (Some key) mechanism input) = None).
Proof.
  assert (∀ r, r = preflight (Some key) mechanism input → fst r = Ok_ ∧ snd r = Some key ∨ fst r ≠ Ok_ ∧ snd r = None) as Hsh.
  { intros r ->. unfold preflight. repeat case_match; auto. }
  destruct (Hsh _ eq_refl) as [[H1 H2]|[H1 H2]].
  - split; [|done]. rewrite <- preflight_fits. split; [|by intros ->].
    intros _. by rewrite (surjective_pairing (preflight _ _ _)), H1, H2.
  - split; [|done]. rewrite <- preflight_fits. split; [done|by intros ->].
Qed.

(** After a signature or a decryption the plugin keeps a PIN only if the
    operation succeeded with a key the card does not mark for consent per operation,
    or the key was not touched and the PIN was there before; a key the card marks
    is never used without a PIN for this operation. *)
Theorem pin_lifetime {Pin : Type} (pinEmpty : Pin → bool) (key : Selection) (mechanism : Mechanism) (input : list Z)
    (pin deposit : option Pin) (plugin : Plugin) :
  lifetimeOk key pin deposit (signRaw pinEmpty key mechanism input pin deposit plugin) ∧
  lifetimeOk key pin deposit (decryptRaw pinEmpty key mechanism pin deposit plugin) ∧
  (perOperation key = true → pin = None →
     status (fst (signRaw pinEmpty key mechanism input pin deposit plugin)) ≠ Ok_ ∧
     status (fst (decryptRaw pinEmpty key mechanism pin deposit plugin)) ≠ Ok_).
Proof.
  assert (∀ s, s = KeyNotFound ∨ s = InvalidInput ∨ s = ConsentRequired → lifetimeOk key pin deposit (mkResult s [] true, deposit)
    ∧ lifetimeOk key pin deposit (err s, deposit)) as Hleft by (intros s Hs; split; right; right; done).
  split_and!.
  - unfold signRaw. destruct (keyFID key); [|apply Hleft; auto].
    destruct (negb _); [apply Hleft; auto|].
    pose proof (underPin_lifetime pinEmpty key pin deposit) as H.
    destruct (perOperation key), pin; try apply H. apply Hleft; auto.
  - unfold decryptRaw, decipherWithKey. destruct (keyFID key); [|apply Hleft; auto].
    destruct (negb _); [apply Hleft; auto|].
    pose proof (underPin_lifetime pinEmpty key pin deposit) as H.
    destruct (perOperation key), pin; try apply H. apply Hleft; auto.
  - intros Hp ->. unfold signRaw, decryptRaw, decipherWithKey. rewrite Hp. by destruct (keyFID key); repeat case_match.
Qed.

Definition sampleSelection (perOp : bool) : Selection :=
  mkSelection (Some 5) Key.Ec 256 false true perOp false (λ _, true).

Lemma pin_lifetime_witness :
  status (fst (signRaw (λ p, (p =? 0)) (sampleSelection true) EcdsaSign (replicate 32 7) None (Some 1234)
    (λ _, (PluginOk, [1; 2])))) ≠ Ok_.
Proof.
  apply (pin_lifetime (λ p, (p =? 0)) (sampleSelection true) EcdsaSign (replicate 32 7) None (Some 1234)
    (λ _, (PluginOk, [1; 2]))); reflexivity.
Defined.

(** A key agreement the plugin answers with a secret of the wrong length is
    reported as a card error, yet the PIN given for it stays deposited: the result
    is judged after the PIN was kept. *)
Theorem derive_refusal_keeps_pin {Pin : Type} (pinEmpty : Pin → bool) (key : Selection) (pin : Pin)
    (deposit : option Pin) (secret : list Z) :
  is_Some (keyFID key) → perOperation key = false → pinEmpty pin = false → zlen secret ≠ fieldLength key →
  deriveRaw pinEmpty key EcdhDerive (Some pin) deposit (λ _, (PluginOk, secret)) = (mkResult CardError [] false, Some pin).
Proof.
  intros [fid Hfid] Hper Hpin Hlen. unfold deriveRaw, decipherWithKey, underTheOperationsPin.
  rewrite Hfid, Hper, Hpin. cbv beta iota zeta delta [bool_decide decide_rel mapDecipherOutcome status bytes negb andb].
  cbn -[zlen fieldLength Z.eqb]. rewrite (proj2 (Z.eqb_neq (zlen secret) (fieldLength key)) Hlen).
  by rewrite orb_true_r.
Qed.

Lemma derive_refusal_keeps_pin_witness :
  deriveRaw (λ p, p =? 0) (sampleSelection false) EcdhDerive (Some 1234) None (λ _, (PluginOk, [1; 2; 3])) =
  (mkResult CardError [] false, Some 1234).
Proof. by apply (derive_refusal_keeps_pin (λ p, p =? 0) (sampleSelection false) 1234 None [1; 2; 3]). Defined.

End RawCrypto.
