(* ===== verification/Cryptoki.v ===== *)
(** * The PKCS#11 entry points

    Models [src/pkcs11/Module.cpp], the [C_...] functions over the library's one mutex,
    and the interface [AgentClient.h] they talk to the agent through. A call is a
    program ([Prog]): its critical sections, each an atomic step on the library's state,
    and between them the requests it makes of the agent with the mutex released. Any
    number of calls run at once, one step at a time in any order ([cstep]); what the
    agent answers is arbitrary. Requests made with the mutex held ([certDer],
    [publicKey], [logout]) and the clock are answers of the step ([Env]).

    Exceptions are not modelled: no step runs out of memory. *)
From Stdlib Require Import Ascii.
From stdpp Require Import sorting.
From S2P Require Import Prelude Vocabulary Text Der Token DerivedKeys Sessions RawCrypto.
Import Vocabulary Text Der Ck Token DerivedKeys Sessions.
Local Open Scope Z_scope.

Module Cryptoki.

(** ** What the agent answers *)

Inductive Status :=
| Ok_ | UserNotLoggedIn | NotAuthorized | AuthFailed | Cancelled | KeyNotFound | UnknownCard | NotSupported
| RateLimited | Communication | DeviceRemoved | GeneralError | InvalidInput.

#[export] Instance Status_eq_dec : EqDecision Status.
Proof. solve_decision. Defined.

Record BytesResult := mkBytes { status : Status; bytes : list Z }.

Inductive CertPublicKey :=
| RsaPublicKey (modulus exponent : list Z)
| EcPublicKey (crv : string) (x y : list Z).

Record Env := mkEnv {
  certDer : string → string → BytesResult;
  publicKey : string → string → Key.KeyType → result Status CertPublicKey;
  now : Z }.

(** ** The library's state *)

(** [logouts] are the readers [client->logout] was called for: its answer is ignored. *)
Record Library := mkLibrary { state : SessionState; certDers : gmap string (list Z); logouts : list string }.

Record Globals := mkGlobals {
  g_lib : option Library; g_rpcInFlight : Z; g_snapshotsStarted : Z; g_snapshotPublished : Z }.

Definition setLib (l : option Library) (g : Globals) : Globals :=
  mkGlobals l (g_rpcInFlight g) (g_snapshotsStarted g) (g_snapshotPublished g).
Definition setInFlight (n : Z) (g : Globals) : Globals :=
  mkGlobals (g_lib g) n (g_snapshotsStarted g) (g_snapshotPublished g).
Definition setState (st : SessionState) (lib : Library) : Library := mkLibrary st (certDers lib) (logouts lib).
Definition setDers (m : gmap string (list Z)) (lib : Library) : Library := mkLibrary (state lib) m (logouts lib).
Definition askLogout (reader : string) (lib : Library) : Library :=
  mkLibrary (state lib) (certDers lib) (logouts lib ++ [reader]).

(** ** Calls as programs *)

(** What a call returns besides its [CK_RV]: what it writes through its pointers. *)
Inductive Out :=
| ONothing
| OCount (n : Z) | OList (l : list Z)
| OSlotInfo (description manufacturer : list Z) (flags : Z)
| OTokenInfo (label manufacturer model serial : list Z) (flags : Z)
| OMechanismInfo (minKeySize maxKeySize flags : Z)
| OSessionInfo (slotID st flags : Z)
| OHandle (h : Z)
| OAttributes (l : list CK_ATTRIBUTE)
| OBytes (l : list Z).

(** A request for bytes, made with the mutex released. *)
Inductive BytesRequest :=
| SignRaw (reader certId : string) (mechanism : RawCrypto.Mechanism) (input : list Z)
| Decrypt (reader certId : string) (ciphertext : list Z)
| Derive (reader certId : string) (peerPoint : list Z).

Inductive Prog :=
| Done (rv : CK_RV) (out : Out)
| Locked (f : Env → Globals → Globals * Prog)
| AskSnapshot (k : list ReaderState → Prog)
| AskLogin (reader : string) (k : Status → Prog)
| AskLoginActive (reader : string) (k : option bool → Prog)
| AskBytes (q : BytesRequest) (k : BytesResult → Prog).

Definition fails (rv : CK_RV) (g : Globals) : Globals * Prog := (g, Done rv ONothing).

(** The session of a handle. *)
Definition sessionOf (h : Z) (lib : Library) : option Session := session h (state lib).

Definition modifySession (h : Z) (f : Session → Session) (st : SessionState) : SessionState :=
  match session h st with
  | Some s => let s := f s in updateSession h (find s) (sign s) (decrypt s) (rpcInFlight s) st
  | None => st
  end.
Definition onSession (h : Z) (f : Session → Session) (lib : Library) : Library :=
  setState (modifySession h f (state lib)) lib.

Definition withFind (c : FindCursor) (s : Session) : Session :=
  mkSession (slot s) (flags s) c (sign s) (decrypt s) (rpcInFlight s).
Definition withSign (c : SignCursor) (s : Session) : Session :=
  mkSession (slot s) (flags s) (find s) c (decrypt s) (rpcInFlight s).
Definition withDecrypt (c : DecryptCursor) (s : Session) : Session :=
  mkSession (slot s) (flags s) (find s) (sign s) c (rpcInFlight s).
Definition withRpc (b : bool) (s : Session) : Session :=
  mkSession (slot s) (flags s) (find s) (sign s) (decrypt s) b.

(** ** [RpcInFlightGuard] *)

(** The constructor, under the mutex; [None] is a guard without a session. *)
Definition arm (h : option Z) (g : Globals) : Globals :=
  let g := match h, g_lib g with
           | Some h, Some lib => setLib (Some (onSession h (withRpc true) lib)) g
           | _, _ => g
           end in
  setInFlight (g_rpcInFlight g + 1) g.

(** The destructor takes the mutex again. *)
Definition disarm (h : option Z) (k : Prog) : Prog :=
  Locked (λ _ g,
    let g := match h, g_lib g with
             | Some h, Some lib => setLib (Some (onSession h (withRpc false) lib)) g
             | _, _ => g
             end in
    (setInFlight (g_rpcInFlight g - 1) g, k)).

(** ** Refreshing the model *)

(** Called under the mutex; [k] goes on under it, with the library if there still is one. *)
Definition refreshModel (k : option Library → Env → Globals → Globals * Prog) (g : Globals) : Globals * Prog :=
  let ticket := u64 (g_snapshotsStarted g + 1) in
  let g := mkGlobals (g_lib g) (g_rpcInFlight g) ticket (g_snapshotPublished g) in
  (arm None g,
   AskSnapshot (λ snapshot,
     disarm None (Locked (λ e g,
       match g_lib g with
       | None => k None e g
       | Some lib =>
           if g_snapshotPublished g <? ticket then
             let lib := setState (setModel (build snapshot) (state lib)) lib in
             k (Some lib) e (mkGlobals (Some lib) (g_rpcInFlight g) (g_snapshotsStarted g) ticket)
           else k (Some lib) e g
       end)))).

Definition ckrFromStatus (s : Status) (invalidInputRv : CK_RV) : CK_RV :=
  match s with
  | Ok_ => CKR_OK
  | UserNotLoggedIn => CKR_USER_NOT_LOGGED_IN
  | NotAuthorized => CKR_FUNCTION_FAILED
  | AuthFailed => CKR_PIN_INCORRECT
  | Cancelled => CKR_FUNCTION_CANCELED
  | KeyNotFound => CKR_KEY_HANDLE_INVALID
  | UnknownCard => CKR_TOKEN_NOT_PRESENT
  | NotSupported => CKR_FUNCTION_NOT_SUPPORTED
  | RateLimited => CKR_FUNCTION_REJECTED
  | Communication => CKR_DEVICE_ERROR
  | DeviceRemoved => CKR_DEVICE_REMOVED
  | InvalidInput => invalidInputRv
  | GeneralError => CKR_GENERAL_ERROR
  end.

Definition dropLoginOnLapsedLease (s : Status) (h : Z) (k : Prog) : Prog :=
  if decide (s = UserNotLoggedIn) then
    Locked (λ _ g,
      match g_lib g with
      | None => (g, k)
      | Some lib =>
          match sessionOf h lib with
          | Some se => (setLib (Some (setState (endLogin (slot se) (state lib)) lib)) g, k)
          | None => (g, k)
          end
      end)
  else k.

Definition signatureLength (ty : Key.KeyType) (bits : Z) : Z :=
  let n := u64 (bits + 7) / 8 in
  match ty with Key.Rsa => n | Key.Ec => u64 (2 * n) | Key.Other => 0 end.

Definition agentSignMechanism (m : Z) : RawCrypto.Mechanism :=
  if m =? CKM_ECDSA then RawCrypto.EcdsaSign
  else if m =? CKM_SHA256_RSA_PKCS then RawCrypto.Sha256RsaPkcs1Sign
  else RawCrypto.RsaPkcs1Sign.

Definition slotHasMechanism (s : Slot) (m : Z) : bool := existsb (Z.eqb m) (s_mechanisms s).

(** ** General purpose *)

(** [CK_C_INITIALIZE_ARGS]: whether the reserved pointer is set, whether the caller
    brings mutexes, and whether it allows the system's. *)
Record InitArgs := mkInit { reserved : bool; customMutex : bool; osLockingOk : bool }.

Definition C_Initialize (args : option InitArgs) : Prog :=
  Locked (λ _ g,
    match g_lib g with
    | Some _ => fails CKR_CRYPTOKI_ALREADY_INITIALIZED g
    | None =>
        match args with
        | Some a =>
            if reserved a then fails CKR_ARGUMENTS_BAD g
            else if customMutex a && negb (osLockingOk a) then fails CKR_CANT_LOCK g
            else (setLib (Some (mkLibrary emptyState ∅ [])) g, Done CKR_OK ONothing)
        | None => (setLib (Some (mkLibrary emptyState ∅ [])) g, Done CKR_OK ONothing)
        end
    end).

(** The wait ends at once when nothing is in flight, else under the mutex again: when
    the count has drained, or when the time is up. *)
Definition C_Finalize (reservedSet : bool) : Prog :=
  Locked (λ _ g,
    match g_lib g with
    | None => fails CKR_CRYPTOKI_NOT_INITIALIZED g
    | Some _ =>
        if reservedSet then fails CKR_ARGUMENTS_BAD g
        else if g_rpcInFlight g =? 0 then (setLib None g, Done CKR_OK ONothing)
        else (g, Locked (λ _ g,
          if g_rpcInFlight g =? 0 then (setLib None g, Done CKR_OK ONothing) else fails CKR_FUNCTION_FAILED g))
    end).

(** [CK_INFO]'s two strings; the versions and flags are constants. *)
Definition C_GetInfo (infoSet : bool) : Prog :=
  if negb infoSet then Done CKR_ARGUMENTS_BAD ONothing
  else Done CKR_OK (OSlotInfo (padField 32 (bytesOf "LibreSCRS agent-proxy PKCS#11")) (padField 32 (bytesOf "LibreSCRS")) 0).

(** ** Slots and tokens *)

(** The two calls that return a list: the count alone, a buffer too small, or the list. *)
Definition giveList (buffer : option Z) (l : list Z) (g : Globals) : Globals * Prog :=
  match buffer with
  | None => (g, Done CKR_OK (OCount (zlen l)))
  | Some room => if room <? zlen l then (g, Done CKR_BUFFER_TOO_SMALL (OCount (zlen l))) else (g, Done CKR_OK (OList l))
  end.

(** [count] is [None] when [pulCount] is null, else whether there is a list and the
    count it comes with. *)
Definition C_GetSlotList (tokenPresent : bool) (count : option (option Z)) : Prog :=
  Locked (λ _ g,
    match g_lib g, count with
    | None, _ => fails CKR_CRYPTOKI_NOT_INITIALIZED g
    | Some _, None => fails CKR_ARGUMENTS_BAD g
    | Some _, Some buffer =>
        refreshModel (λ lib _ g,
          match lib with
          | None => fails CKR_CRYPTOKI_NOT_INITIALIZED g
          | Some lib => giveList buffer (slotIds tokenPresent (state lib)) g
          end) g
    end).

(** The common prefix of the calls about one slot. *)
Definition onSlot (infoSet : bool) (slotID : Z) (k : Slot → Globals → Globals * Prog) : Prog :=
  Locked (λ _ g,
    match g_lib g with
    | None => fails CKR_CRYPTOKI_NOT_INITIALIZED g
    | Some _ =>
        if negb infoSet then fails CKR_ARGUMENTS_BAD g
        else
          refreshModel (λ lib _ g,
            match lib with
            | None => fails CKR_CRYPTOKI_NOT_INITIALIZED g
            | Some lib =>
                match slotById slotID (state lib) with None => fails CKR_SLOT_ID_INVALID g | Some s => k s g end
            end) g
    end).

Definition C_GetSlotInfo (slotID : Z) (infoSet : bool) : Prog :=
  onSlot infoSet slotID (λ s g,
    (g, Done CKR_OK (OSlotInfo
      (padField 64 (bytesOf (if String.eqb (s_readerName s) "" then s_readerPath s else s_readerName s)))
      (padField 32 (bytesOf "LibreSCRS"))
      (Z.lor (Z.lor 0x2 0x4) (if s_tokenPresent s then 0x1 else 0))))).

Definition C_GetTokenInfo (slotID : Z) (infoSet : bool) : Prog :=
  onSlot infoSet slotID (λ s g,
    if negb (s_tokenPresent s) then fails CKR_TOKEN_NOT_PRESENT g
    else
      (g, Done CKR_OK (OTokenInfo
        (padField 32 (bytesOf (if String.eqb (s_tokenLabel s) "" then "LibreSCRS Token" else s_tokenLabel s)))
        (padField 32 (bytesOf "LibreSCRS")) (padField 16 (bytesOf "agent-proxy")) (padField 16 (bytesOf (s_tokenSerial s)))
        (Z.lor (Z.lor (Z.lor 0x400 0x8) 0x4) 0x100)))).

Definition C_GetMechanismList (slotID : Z) (count : option (option Z)) : Prog :=
  onSlot (bool_decide (is_Some count)) slotID (λ s g, giveList (default None count) (s_mechanisms s) g).

Definition C_GetMechanismInfo (slotID type : Z) (infoSet : bool) : Prog :=
  onSlot infoSet slotID (λ s g,
    if negb (slotHasMechanism s type) then fails CKR_MECHANISM_INVALID g
    else
      let ec := Z.lor (Z.lor 0x100000 0x800000) 0x1000000 in
      (g, Done CKR_OK
        (if type =? CKM_ECDSA then OMechanismInfo 256 521 (Z.lor (Z.lor 0x1 0x800) ec)
         else if type =? CKM_ECDH1_DERIVE then OMechanismInfo 256 521 (Z.lor (Z.lor 0x1 0x80000) ec)
         else if type =? CKM_SHA256_RSA_PKCS then OMechanismInfo 2048 4096 (Z.lor 0x1 0x800)
         else OMechanismInfo 2048 4096 (Z.lor (Z.lor 0x1 0x800) 0x200)))).

(** ** Sessions *)

Definition CKF_RW_SESSION : Z := 2.
Definition CKF_SERIAL_SESSION : Z := 4.

Definition C_OpenSession (slotID fl : Z) (sessionSet : bool) : Prog :=
  Locked (λ _ g,
    match g_lib g with
    | None => fails CKR_CRYPTOKI_NOT_INITIALIZED g
    | Some _ =>
        if negb sessionSet then fails CKR_ARGUMENTS_BAD g
        else if Z.land fl CKF_SERIAL_SESSION =? 0 then fails CKR_SESSION_PARALLEL_NOT_SUPPORTED g
        else
          refreshModel (λ lib _ g,
            match lib with
            | None => fails CKR_CRYPTOKI_NOT_INITIALIZED g
            | Some lib =>
                match slotById slotID (state lib) with
                | None => fails CKR_SLOT_ID_INVALID g
                | Some s =>
                    if negb (s_tokenPresent s) then fails CKR_TOKEN_NOT_PRESENT g
                    else
                      let '(h, st) := openSession slotID fl (state lib) in
                      (setLib (Some (setState st lib)) g, Done CKR_OK (OHandle h))
                end
            end) g
    end).

Definition C_CloseSession (h : Z) : Prog :=
  Locked (λ _ g,
    match g_lib g with
    | None => fails CKR_CRYPTOKI_NOT_INITIALIZED g
    | Some lib =>
        match sessionOf h lib with
        | None => fails CKR_SESSION_HANDLE_INVALID g
        | Some s =>
            let lib := setState (snd (closeSession h (state lib))) lib in
            let lib := if negb (slotHasSessions (slot s) (state lib)) then
                         match slotById (slot s) (state lib) with Some sl => askLogout (s_readerPath sl) lib | None => lib end
                       else lib in
            (setLib (Some lib) g, Done CKR_OK ONothing)
        end
    end).

Definition C_CloseAllSessions (slotID : Z) : Prog :=
  Locked (λ _ g,
    match g_lib g with
    | None => fails CKR_CRYPTOKI_NOT_INITIALIZED g
    | Some lib =>
        let lib := setState (closeAllSessions slotID (state lib)) lib in
        let lib := match slotById slotID (state lib) with Some sl => askLogout (s_readerPath sl) lib | None => lib end in
        (setLib (Some lib) g, Done CKR_OK ONothing)
    end).

(** The second critical section of [C_GetSessionInfo]; [guard] is its optional guard. *)
Definition sessionInfo (h slotID gen : Z) (active : option bool) (guard : bool) : Prog :=
  let finish rv out := if guard then disarm None (Done rv out) else Done rv out in
  Locked (λ _ g,
    match g_lib g with
    | None => (g, finish CKR_CRYPTOKI_NOT_INITIALIZED ONothing)
    | Some lib =>
        let lib := if bool_decide (active = Some false) && isLoggedIn slotID (state lib) &&
                      (loginGeneration slotID (state lib) =? gen)
                   then setState (endLogin slotID (state lib)) lib else lib in
        let g := setLib (Some lib) g in
        match sessionOf h lib with
        | None => (g, finish CKR_SESSION_HANDLE_INVALID ONothing)
        | Some s =>
            let rw := negb (Z.land (flags s) CKF_RW_SESSION =? 0) in
            (g, finish CKR_OK (OSessionInfo (slot s)
                  (if isLoggedIn (slot s) (state lib) then (if rw then 3 else 1) else (if rw then 2 else 0)) (flags s)))
        end
    end).

Definition C_GetSessionInfo (h : Z) (infoSet : bool) : Prog :=
  Locked (λ e g,
    match g_lib g with
    | None => fails CKR_CRYPTOKI_NOT_INITIALIZED g
    | Some lib =>
        if negb infoSet then fails CKR_ARGUMENTS_BAD g
        else
          match sessionOf h lib with
          | None => fails CKR_SESSION_HANDLE_INVALID g
          | Some s =>
              match slotById (slot s) (state lib) with
              | Some sl =>
                  if loginCheckDue (slot s) (now e) (state lib) then
                    let gen := loginGeneration (slot s) (state lib) in
                    let g := setLib (Some (setState (markLoginChecked (slot s) (now e) (state lib)) lib)) g in
                    (arm None g,
                     if String.eqb (s_readerPath sl) "" then sessionInfo h (slot s) gen None true
                     else AskLoginActive (s_readerPath sl) (λ active, sessionInfo h (slot s) gen active true))
                  else (g, sessionInfo h (slot s) 0 None false)
              | None => (g, sessionInfo h (slot s) 0 None false)
              end
          end
    end).

Definition CKU_USER : Z := 1.
Definition CKU_CONTEXT_SPECIFIC : Z := 2.

(** The application's PIN is not an argument: the code never reads it. *)
Definition C_Login (h userType : Z) : Prog :=
  Locked (λ _ g,
    match g_lib g with
    | None => fails CKR_CRYPTOKI_NOT_INITIALIZED g
    | Some lib =>
        if negb (userType =? CKU_USER) && negb (userType =? CKU_CONTEXT_SPECIFIC) then fails CKR_USER_TYPE_INVALID g
        else
          match sessionOf h lib with
          | None => fails CKR_SESSION_HANDLE_INVALID g
          | Some s =>
              if rpcInFlight s then fails CKR_OPERATION_ACTIVE g
              else if (userType =? CKU_USER) && isLoggedIn (slot s) (state lib) then fails CKR_USER_ALREADY_LOGGED_IN g
              else
                match slotById (slot s) (state lib) with
                | None => fails CKR_TOKEN_NOT_PRESENT g
                | Some sl =>
                    if negb (s_tokenPresent sl) then fails CKR_TOKEN_NOT_PRESENT g
                    else if bool_decide (s_objects sl = []) then fails CKR_KEY_HANDLE_INVALID g
                    else
                      (arm (Some h) g,
                       AskLogin (s_readerPath sl) (λ res,
                         Locked (λ e g,
                           let g := match g_lib g with
                                    | Some lib =>
                                        if decide (res = Ok_) then
                                          match sessionOf h lib with
                                          | Some s => setLib (Some (setState (setLoggedIn (slot s) (now e) (state lib)) lib)) g
                                          | None => g
                                          end
                                        else g
                                    | None => g
                                    end in
                           (g, disarm (Some h) (Done (if decide (res = Ok_) then CKR_OK else ckrFromStatus res CKR_GENERAL_ERROR)
                                                  ONothing)))))
                end
          end
    end).

Definition C_Logout (h : Z) : Prog :=
  Locked (λ _ g,
    match g_lib g with
    | None => fails CKR_CRYPTOKI_NOT_INITIALIZED g
    | Some lib =>
        match sessionOf h lib with
        | None => fails CKR_SESSION_HANDLE_INVALID g
        | Some s =>
            let lib := match slotById (slot s) (state lib) with Some sl => askLogout (s_readerPath sl) lib | None => lib end in
            (setLib (Some (setState (endLogin (slot s) (state lib)) lib)) g, Done CKR_OK ONothing)
        end
    end).

(** ** Objects *)

Definition C_DestroyObject (h hObject : Z) : Prog :=
  Locked (λ _ g,
    match g_lib g with
    | None => fails CKR_CRYPTOKI_NOT_INITIALIZED g
    | Some lib =>
        match sessionOf h lib with
        | None => fails CKR_SESSION_HANDLE_INVALID g
        | Some s =>
            if isDerivedHandle hObject then
              match derivedKey h hObject (state lib) with
              | None => fails CKR_OBJECT_HANDLE_INVALID g
              | Some _ => (setLib (Some (setState (snd (destroyDerivedKey hObject (state lib))) lib)) g, Done CKR_OK ONothing)
              end
            else
              match resolveObject (slot s) hObject (state lib) with
              | Some _ => fails CKR_ACTION_PROHIBITED g
              | None => fails CKR_OBJECT_HANDLE_INVALID g
              end
        end
    end).

(** The certificate's DER: from the agent the first time, then as kept. *)
Definition certDerOf (e : Env) (sl : Slot) (obj : Object) (ders : gmap string (list Z)) :
    BytesResult * gmap string (list Z) :=
  match ders !! o_certId obj with
  | Some der => (mkBytes Ok_ der, ders)
  | None =>
      let der := certDer e (s_readerPath sl) (o_certId obj) in
      (der, if decide (status der = Ok_) then <[o_certId obj := bytes der]> ders else ders)
  end.

Definition isKeyObject (obj : Object) : bool := (o_cls obj =? CKO_PUBLIC_KEY) || (o_cls obj =? CKO_PRIVATE_KEY).
Definition isPrivate (obj : Object) : bool := o_cls obj =? CKO_PRIVATE_KEY.

(** [fetchPubKeyOr], with what the arm does with the key. *)
Definition withPublicKey (e : Env) (sl : Slot) (obj : Object) (attr : CK_ATTRIBUTE)
    (k : CertPublicKey → CK_RV * CK_ATTRIBUTE) : CK_RV * CK_ATTRIBUTE :=
  match publicKey e (s_readerPath sl) (o_certId obj) (o_keyType obj) with
  | Ok key => k key
  | Err s => (if decide (s = KeyNotFound) then CKR_KEY_HANDLE_INVALID else CKR_ATTRIBUTE_TYPE_INVALID, attr)
  end.

(** Every attribute but those served from the certificate. *)
Definition serveModelAttribute (e : Env) (sl : Slot) (obj : Object) (attr : CK_ATTRIBUTE) : CK_RV * CK_ATTRIBUTE :=
  let invalid := (CKR_ATTRIBUTE_TYPE_INVALID, attr) in
  let flag (b : bool) := give attr [if b then CK_TRUE else CK_FALSE] in
  match type attr with
  | CKA_CLASS => give attr (leBytes 8 (o_cls obj))
  | CKA_ID => give attr (o_ckaId obj)
  | CKA_LABEL => give attr (bytesOf (o_label obj))
  | CKA_TOKEN => flag true
  | CKA_PRIVATE => flag (isPrivate obj)
  | CKA_KEY_TYPE =>
      if isKeyObject obj then give attr (leBytes 8 (if decide (o_keyType obj = Key.Ec) then CKK_EC else CKK_RSA)) else invalid
  | CKA_CERTIFICATE_TYPE => if o_cls obj =? CKO_CERTIFICATE then give attr (leBytes 8 0) else invalid
  | CKA_SIGN => if negb (isPrivate obj) then invalid else flag (o_sign obj)
  | CKA_DECRYPT => if negb (isPrivate obj) then invalid else flag (o_decrypt obj)
  | CKA_DERIVE =>
      if o_cls obj =? CKO_PUBLIC_KEY then flag false else if negb (isPrivate obj) then invalid else flag (o_derive obj)
  | CKA_UNWRAP => if negb (isPrivate obj) then invalid else flag false
  | CKA_EC_PARAMS =>
      if negb (isKeyObject obj) || negb (bool_decide (o_keyType obj = Key.Ec)) then invalid
      else if bool_decide (ecParamsDerFor (o_keyBits obj) = []) then invalid else give attr (ecParamsDerFor (o_keyBits obj))
  | CKA_EC_POINT =>
      if negb (o_cls obj =? CKO_PUBLIC_KEY) || negb (bool_decide (o_keyType obj = Key.Ec)) then invalid
      else
        withPublicKey e sl obj attr (λ key,
          match key with
          | EcPublicKey crv x y =>
              if negb (isPointOfKey (o_keyBits obj) crv x y) then invalid
              else if bool_decide (ecPointOctetString x y = []) then invalid else give attr (ecPointOctetString x y)
          | RsaPublicKey _ _ => invalid
          end)
  | CKA_EXTRACTABLE => if negb (isPrivate obj) then invalid else flag false
  | CKA_SENSITIVE => if negb (isPrivate obj) then invalid else flag true
  | CKA_ALWAYS_AUTHENTICATE => if negb (isPrivate obj) then invalid else flag (o_alwaysAuthenticate obj)
  | CKA_MODULUS =>
      if negb (isKeyObject obj) || negb (bool_decide (o_keyType obj = Key.Rsa)) then invalid
      else
        withPublicKey e sl obj attr (λ key,
          match key with RsaPublicKey modulus _ => give attr modulus | EcPublicKey _ _ _ => invalid end)
  | CKA_PUBLIC_EXPONENT =>
      if negb (isKeyObject obj) || negb (bool_decide (o_keyType obj = Key.Rsa)) then invalid
      else
        withPublicKey e sl obj attr (λ key,
          match key with RsaPublicKey _ exponent => give attr exponent | EcPublicKey _ _ _ => invalid end)
  | CKA_MODULUS_BITS =>
      if negb (o_cls obj =? CKO_PUBLIC_KEY) || negb (bool_decide (o_keyType obj = Key.Rsa)) || (o_keyBits obj =? 0) then invalid
      else give attr (leBytes 8 (o_keyBits obj))
  | _ => invalid
  end.

Definition certFieldOf (ty : CK_ATTRIBUTE_TYPE) : option CertField :=
  match ty with
  | CKA_SERIAL_NUMBER => Some FSerialNumber
  | CKA_ISSUER => Some FIssuer
  | CKA_SUBJECT => Some FSubject
  | _ => None
  end.

Definition serveAttribute (e : Env) (sl : Slot) (obj : Object) (attr : CK_ATTRIBUTE) (ders : gmap string (list Z)) :
    CK_RV * CK_ATTRIBUTE * gmap string (list Z) :=
  let fromDer (k : list Z → CK_RV * CK_ATTRIBUTE) :=
    if negb (o_cls obj =? CKO_CERTIFICATE) then (CKR_ATTRIBUTE_TYPE_INVALID, attr, ders)
    else
      let '(der, ders) := certDerOf e sl obj ders in
      if decide (status der = Ok_) then (k (bytes der), ders) else (ckrFromStatus (status der) CKR_GENERAL_ERROR, attr, ders) in
  match type attr, certFieldOf (type attr) with
  | CKA_VALUE, _ => fromDer (λ der, give attr der)
  | _, Some field =>
      fromDer (λ der,
        match certificateField der field with Some f => give attr f | None => (CKR_ATTRIBUTE_TYPE_INVALID, attr) end)
  | _, None => (serveModelAttribute e sl obj attr, ders)
  end.

(** The loops of [C_GetAttributeValue]: every attribute is served, the last failure is
    the answer. *)
Fixpoint serveAll {A} (serve : CK_ATTRIBUTE → A → CK_RV * CK_ATTRIBUTE * A) (l : list CK_ATTRIBUTE) (overall : CK_RV) (a : A) :
    CK_RV * list CK_ATTRIBUTE * A :=
  match l with
  | [] => (overall, [], a)
  | attr :: l =>
      let '(rv, attr, a) := serve attr a in
      let attr := if decide (rv = CKR_ATTRIBUTE_TYPE_INVALID) then mkAttr (type attr) (pValue attr) CK_UNAVAILABLE_INFORMATION
                  else attr in
      let '(overall, l, a) := serveAll serve l (if decide (rv = CKR_OK) then overall else rv) a in
      (overall, attr :: l, a)
  end.

Definition C_GetAttributeValue (h hObject : Z) (tmpl : option (list CK_ATTRIBUTE)) (count : Z) : Prog :=
  Locked (λ e g,
    match g_lib g, tmpl with
    | None, _ => fails CKR_CRYPTOKI_NOT_INITIALIZED g
    | Some _, None => fails CKR_ARGUMENTS_BAD g
    | Some lib, Some attrs =>
        match sessionOf h lib with
        | None => fails CKR_SESSION_HANDLE_INVALID g
        | Some s =>
            match slotById (slot s) (state lib) with
            | None => fails CKR_SESSION_HANDLE_INVALID g
            | Some sl =>
                let asked := take (Z.to_nat count) attrs in
                if isDerivedHandle hObject then
                  match derivedKey h hObject (state lib) with
                  | None => fails CKR_OBJECT_HANDLE_INVALID g
                  | Some key =>
                      let '(overall, served, _) := serveAll (λ a u, (serveDerivedKeyAttribute key a, u)) asked CKR_OK tt in
                      (g, Done overall (OAttributes served))
                  end
                else
                  match resolveObject (slot s) hObject (state lib) with
                  | None => fails CKR_OBJECT_HANDLE_INVALID g
                  | Some obj =>
                      let '(overall, served, ders) := serveAll (serveAttribute e sl obj) asked CKR_OK (certDers lib) in
                      (setLib (Some (setDers ders lib)) g, Done overall (OAttributes served))
                  end
            end
        end
    end).

(** ** Searches *)

(** Whether a certificate's name differs from the wanted one: its size first, then its
    bytes, each as [C_GetAttributeValue] serves it. *)
Definition nameDiffers (e : Env) (sl : Slot) (obj : option Object) (want : CK_ATTRIBUTE) (ders : gmap string (list Z)) :
    bool * gmap string (list Z) :=
  match certFieldOf (type want), pValue want, obj with
  | None, _, _ | _, None, _ => (false, ders)
  | Some _, Some _, None => (true, ders)
  | Some _, Some buf, Some obj =>
      let '(rv, probe, ders) := serveAttribute e sl obj (mkAttr (type want) None 0) ders in
      if negb (bool_decide (rv = CKR_OK)) || negb (ulValueLen probe =? ulValueLen want) then (true, ders)
      else
        let '(rv, probe, ders) :=
          serveAttribute e sl obj (mkAttr (type want) (Some (replicate (Z.to_nat (ulValueLen probe)) 0)) (ulValueLen probe)) ders in
        let have := default [] (pValue probe) in
        (negb (bool_decide (rv = CKR_OK)) || negb (bool_decide (have = take (length have) buf)), ders)
  end.

(** Stops at the first attribute that differs, as the lambda returns there. *)
Fixpoint anyDiffers (e : Env) (sl : Slot) (obj : option Object) (wants : list CK_ATTRIBUTE) (ders : gmap string (list Z)) :
    bool * gmap string (list Z) :=
  match wants with
  | [] => (false, ders)
  | want :: wants =>
      let '(differs, ders) := nameDiffers e sl obj want ders in
      if differs then (true, ders) else anyDiffers e sl obj wants ders
  end.

Fixpoint eraseDiffering (e : Env) (sl : Slot) (object : Z → option Object) (wants : list CK_ATTRIBUTE) (matches : list Z)
    (ders : gmap string (list Z)) : list Z * gmap string (list Z) :=
  match matches with
  | [] => ([], ders)
  | h :: matches =>
      let '(differs, ders) := anyDiffers e sl (object h) wants ders in
      let '(rest, ders) := eraseDiffering e sl object wants matches ders in
      (if differs then rest else h :: rest, ders)
  end.

Definition C_FindObjectsInit (h : Z) (tmpl : option (list CK_ATTRIBUTE)) (count : Z) : Prog :=
  Locked (λ e g,
    match g_lib g with
    | None => fails CKR_CRYPTOKI_NOT_INITIALIZED g
    | Some lib =>
        match sessionOf h lib with
        | None => fails CKR_SESSION_HANDLE_INVALID g
        | Some s =>
            if find_active (find s) then fails CKR_OPERATION_ACTIVE g
            else
              let found := findMatches h (slot s) tmpl count (state lib) in
              let '(matches, ders) :=
                match slotById (slot s) (state lib), tmpl with
                | Some sl, Some attrs =>
                    eraseDiffering e sl (λ o, if isDerivedHandle o then None else resolveObject (slot s) o (state lib))
                      (take (Z.to_nat count) attrs) found (certDers lib)
                | _, _ => (found, certDers lib)
                end in
              let lib := onSession h (withFind (mkFind true matches 0)) (setDers ders lib) in
              (setLib (Some lib) g, Done CKR_OK ONothing)
        end
    end).

Definition C_FindObjects (h : Z) (buffersSet : bool) (maxCount : Z) : Prog :=
  Locked (λ _ g,
    match g_lib g with
    | None => fails CKR_CRYPTOKI_NOT_INITIALIZED g
    | Some lib =>
        if negb buffersSet then fails CKR_ARGUMENTS_BAD g
        else
          match sessionOf h lib with
          | None => fails CKR_SESSION_HANDLE_INVALID g
          | Some s =>
              if negb (find_active (find s)) then fails CKR_OPERATION_NOT_INITIALIZED g
              else
                let got := take (Z.to_nat maxCount) (drop (find_next (find s)) (find_matches (find s))) in
                let next := (find_next (find s) + length got)%nat in
                (setLib (Some (onSession h (withFind (mkFind true (find_matches (find s)) next)) lib)) g, Done CKR_OK (OList got))
          end
    end).

Definition C_FindObjectsFinal (h : Z) : Prog :=
  Locked (λ _ g,
    match g_lib g with
    | None => fails CKR_CRYPTOKI_NOT_INITIALIZED g
    | Some lib =>
        match sessionOf h lib with
        | None => fails CKR_SESSION_HANDLE_INVALID g
        | Some s =>
            if negb (find_active (find s)) then fails CKR_OPERATION_NOT_INITIALIZED g
            else (setLib (Some (onSession h (withFind noFind) lib)) g, Done CKR_OK ONothing)
        end
    end).

(** ** Decryption and signing *)

(** The private key of a handle, or the error of [C_DecryptInit] and [C_SignInit]. *)
Definition privateKeyOf (s hKey : Z) (st : SessionState) : option Object :=
  match resolveObject s hKey st with
  | Some obj => if isPrivate obj then Some obj else None
  | None => None
  end.

(** [mechanism] is [None] when [pMechanism] is null. *)
Definition C_DecryptInit (h : Z) (mechanism : option Z) (hKey : Z) : Prog :=
  Locked (λ _ g,
    match g_lib g, mechanism with
    | None, _ => fails CKR_CRYPTOKI_NOT_INITIALIZED g
    | Some _, None => fails CKR_ARGUMENTS_BAD g
    | Some lib, Some mech =>
        match sessionOf h lib with
        | None => fails CKR_SESSION_HANDLE_INVALID g
        | Some s =>
            if decrypt_active (decrypt s) then fails CKR_OPERATION_ACTIVE g
            else
              match slotById (slot s) (state lib) with
              | None => fails CKR_SESSION_HANDLE_INVALID g
              | Some sl =>
                  if negb (mech =? CKM_RSA_PKCS) || negb (slotHasMechanism sl CKM_RSA_PKCS) then fails CKR_MECHANISM_INVALID g
                  else
                    match privateKeyOf (slot s) hKey (state lib) with
                    | None => fails CKR_KEY_HANDLE_INVALID g
                    | Some obj =>
                        if negb (bool_decide (o_keyType obj = Key.Rsa)) then fails CKR_KEY_TYPE_INCONSISTENT g
                        else if negb (o_decrypt obj) then fails CKR_KEY_FUNCTION_NOT_PERMITTED g
                        else
                          let c := mkDecrypt true (s_readerPath sl) (o_certId obj) (o_keyBits obj) [] in
                          (setLib (Some (onSession h (withDecrypt c) lib)) g, Done CKR_OK ONothing)
                    end
              end
        end
    end).

(** [clearCursorIf(true)]: a critical section of its own. *)
Definition clearing (h : Z) (f : Session → Session) (k : Prog) : Prog :=
  Locked (λ _ g,
    match g_lib g with
    | None => (g, k)
    | Some lib => (setLib (Some (onSession h f lib)) g, k)
    end).

(** The way out of a call that holds a guard. *)
Definition leave (h : Z) (rv : CK_RV) (out : Out) : Prog := disarm (Some h) (Done rv out).

(** What is done with the agent's bytes: the answer to a length question, a buffer too
    small, or the bytes. Only the last ends the operation. *)
Definition deliver (h : Z) (clear : Session → Session) (buffer : option Z) (l : list Z) : Prog :=
  match buffer with
  | None => leave h CKR_OK (OCount (zlen l))
  | Some room =>
      if room <? zlen l then leave h CKR_BUFFER_TOO_SMALL (OCount (zlen l))
      else clearing h clear (leave h CKR_OK (OBytes l))
  end.

(** [out] is [None] when [pulDataLen] is null, else the buffer's room if there is a
    buffer; [input] is [None] for the accumulated ciphertext. *)
Definition doDecrypt (h : Z) (input : option (list Z)) (out : option (option Z)) : Prog :=
  match out with
  | None => Done CKR_ARGUMENTS_BAD ONothing
  | Some buffer =>
      Locked (λ _ g,
        match g_lib g with
        | None => fails CKR_CRYPTOKI_NOT_INITIALIZED g
        | Some lib =>
            match sessionOf h lib with
            | None => fails CKR_SESSION_HANDLE_INVALID g
            | Some s =>
                let c := decrypt s in
                if negb (decrypt_active c) then fails CKR_OPERATION_NOT_INITIALIZED g
                else if rpcInFlight s then fails CKR_OPERATION_ACTIVE g
                else
                  let ct := default (decrypt_accumulated c) input in
                  (arm (Some h) g,
                   if bool_decide (buffer = None) && negb (decrypt_keyBits c =? 0)
                   then leave h CKR_OK (OCount (u32 (decrypt_keyBits c + 7) / 8))
                   else AskBytes (Decrypt (decrypt_reader c) (decrypt_certId c) ct) (λ res,
                     if decide (status res = Ok_) then deliver h (withDecrypt noDecrypt) buffer (bytes res)
                     else clearing h (withDecrypt noDecrypt)
                            (dropLoginOnLapsedLease (status res) h
                               (leave h (ckrFromStatus (status res) CKR_ENCRYPTED_DATA_LEN_RANGE) ONothing))))
            end
        end)
  end.

Definition C_Decrypt (h : Z) (ct : list Z) (out : option (option Z)) : Prog := doDecrypt h (Some ct) out.

(** [part] is [None] when [pEncryptedPart] is null. *)
Definition C_DecryptUpdate (h : Z) (part : option (list Z)) : Prog :=
  Locked (λ _ g,
    match g_lib g with
    | None => fails CKR_CRYPTOKI_NOT_INITIALIZED g
    | Some lib =>
        match sessionOf h lib with
        | None => fails CKR_SESSION_HANDLE_INVALID g
        | Some s =>
            let '(mkDecrypt active reader certId keyBits acc) := decrypt s in
            if negb active then fails CKR_OPERATION_NOT_INITIALIZED g
            else if rpcInFlight s then fails CKR_OPERATION_ACTIVE g
            else
              let c := mkDecrypt active reader certId keyBits (acc ++ default [] part) in
              (setLib (Some (onSession h (withDecrypt c) lib)) g, Done CKR_OK (OCount 0))
        end
    end).

Definition C_DecryptFinal (h : Z) (out : option (option Z)) : Prog := doDecrypt h None out.

Definition C_SignInit (h : Z) (mechanism : option Z) (hKey : Z) : Prog :=
  Locked (λ _ g,
    match g_lib g, mechanism with
    | None, _ => fails CKR_CRYPTOKI_NOT_INITIALIZED g
    | Some _, None => fails CKR_ARGUMENTS_BAD g
    | Some lib, Some mech =>
        match sessionOf h lib with
        | None => fails CKR_SESSION_HANDLE_INVALID g
        | Some s =>
            if sign_active (sign s) then fails CKR_OPERATION_ACTIVE g
            else
              match slotById (slot s) (state lib) with
              | None => fails CKR_SESSION_HANDLE_INVALID g
              | Some sl =>
                  if negb ((mech =? CKM_RSA_PKCS) || (mech =? CKM_SHA256_RSA_PKCS) || (mech =? CKM_ECDSA)) ||
                     negb (slotHasMechanism sl mech) then fails CKR_MECHANISM_INVALID g
                  else
                    match privateKeyOf (slot s) hKey (state lib) with
                    | None => fails CKR_KEY_HANDLE_INVALID g
                    | Some obj =>
                        if xorb (mech =? CKM_ECDSA) (bool_decide (o_keyType obj = Key.Ec)) then fails CKR_KEY_TYPE_INCONSISTENT g
                        else if negb (o_sign obj) then fails CKR_KEY_FUNCTION_NOT_PERMITTED g
                        else
                          let c := mkSign true (s_readerPath sl) (o_certId obj) (o_keyBits obj) mech (o_keyType obj) [] in
                          (setLib (Some (onSession h (withSign c) lib)) g, Done CKR_OK ONothing)
                    end
              end
        end
    end).

(** The length question of [doSign] the model answers. *)
Definition lengthQuestion (sigLen : Z) (buffer : option Z) : bool :=
  negb (sigLen =? 0) && match buffer with None => true | Some room => room <? sigLen end.

Definition doSign (h : Z) (input : option (list Z)) (out : option (option Z)) : Prog :=
  match out with
  | None => Done CKR_ARGUMENTS_BAD ONothing
  | Some buffer =>
      Locked (λ _ g,
        match g_lib g with
        | None => fails CKR_CRYPTOKI_NOT_INITIALIZED g
        | Some lib =>
            match sessionOf h lib with
            | None => fails CKR_SESSION_HANDLE_INVALID g
            | Some s =>
                let c := sign s in
                if negb (sign_active c) then fails CKR_OPERATION_NOT_INITIALIZED g
                else if rpcInFlight s then fails CKR_OPERATION_ACTIVE g
                else
                  let data := default (sign_accumulated c) input in
                  let ecdsa := sign_mechanism c =? CKM_ECDSA in
                  let sigLen := signatureLength (sign_keyType c) (sign_keyBits c) in
                  (arm (Some h) g,
                   if ecdsa && negb ((zlen data =? 32) || (zlen data =? 48) || (zlen data =? 64))
                   then clearing h (withSign noSign) (leave h CKR_DATA_LEN_RANGE ONothing)
                   else if lengthQuestion sigLen buffer
                   then leave h (if bool_decide (buffer = None) then CKR_OK else CKR_BUFFER_TOO_SMALL) (OCount sigLen)
                   else AskBytes (SignRaw (sign_reader c) (sign_certId c) (agentSignMechanism (sign_mechanism c)) data) (λ res,
                     if negb (bool_decide (status res = Ok_)) then
                       clearing h (withSign noSign)
                         (dropLoginOnLapsedLease (status res) h (leave h (ckrFromStatus (status res) CKR_DATA_LEN_RANGE) ONothing))
                     else if ecdsa && negb (zlen (bytes res) =? sigLen)
                     then clearing h (withSign noSign) (leave h CKR_DEVICE_ERROR ONothing)
                     else deliver h (withSign noSign) buffer (bytes res)))
            end
        end)
  end.

Definition C_Sign (h : Z) (data : list Z) (out : option (option Z)) : Prog := doSign h (Some data) out.

Definition C_SignUpdate (h : Z) (part : list Z) : Prog :=
  Locked (λ _ g,
    match g_lib g with
    | None => fails CKR_CRYPTOKI_NOT_INITIALIZED g
    | Some lib =>
        match sessionOf h lib with
        | None => fails CKR_SESSION_HANDLE_INVALID g
        | Some s =>
            let '(mkSign active reader certId keyBits mech keyType acc) := sign s in
            if negb active then fails CKR_OPERATION_NOT_INITIALIZED g
            else
              let c := mkSign active reader certId keyBits mech keyType (acc ++ part) in
              (setLib (Some (onSession h (withSign c) lib)) g, Done CKR_OK ONothing)
        end
    end).

Definition C_SignFinal (h : Z) (out : option (option Z)) : Prog := doSign h None out.

(** ** Key derivation *)

(** [CK_ECDH1_DERIVE_PARAMS], as far as it is read. *)
Record DeriveParams := mkParams { kdf : Z; sharedDataLen : Z; publicData : option (list Z) }.
Definition CKD_NULL : Z := 1.

(** The last critical section: the key is kept only for the card and the login it was
    derived with. *)
Definition keepDerivedKey (h slotId : Z) (tokenSerial : string) (wanted : DerivedKeyTemplate) (value : list Z) : Prog :=
  Locked (λ _ g,
    match g_lib g with
    | None => (g, leave h CKR_CRYPTOKI_NOT_INITIALIZED ONothing)
    | Some lib =>
        match sessionOf h lib with
        | None => (g, leave h CKR_SESSION_HANDLE_INVALID ONothing)
        | Some s =>
            if match slotById slotId (state lib) with
               | Some sl => negb (s_tokenPresent sl) || negb (String.eqb (s_tokenSerial sl) tokenSerial)
               | None => true
               end
            then (g, leave h CKR_DEVICE_REMOVED ONothing)
            else if negb (isLoggedIn (slot s) (state lib)) then (g, leave h CKR_USER_NOT_LOGGED_IN ONothing)
            else
              let '(hKey, st) := addDerivedKey (mkKey slotId h wanted value) (state lib) in
              (setLib (Some (setState st lib)) g, leave h CKR_OK (OHandle hKey))
        end
    end).

(** [mechanism] is [None] when a pointer is null; its parameters are [None] when they are
    absent or not of their size. *)
Definition C_DeriveKey (h : Z) (mechanism : option (Z * option DeriveParams)) (hBaseKey : Z)
    (tmpl : option (list CK_ATTRIBUTE)) (count : Z) (hKeySet : bool) : Prog :=
  Locked (λ _ g,
    match g_lib g, mechanism with
    | None, _ => fails CKR_CRYPTOKI_NOT_INITIALIZED g
    | Some _, None => fails CKR_ARGUMENTS_BAD g
    | Some lib, Some (mech, parameter) =>
        if negb hKeySet then fails CKR_ARGUMENTS_BAD g else
        match sessionOf h lib with
        | None => fails CKR_SESSION_HANDLE_INVALID g
        | Some s =>
            if rpcInFlight s then fails CKR_OPERATION_ACTIVE g else
            match slotById (slot s) (state lib) with
            | None => fails CKR_SESSION_HANDLE_INVALID g
            | Some sl =>
                if negb (mech =? CKM_ECDH1_DERIVE) || negb (slotHasMechanism sl CKM_ECDH1_DERIVE) then fails CKR_MECHANISM_INVALID g
                else if negb (isLoggedIn (slot s) (state lib)) then fails CKR_USER_NOT_LOGGED_IN g
                else
                match parameter with
                | None => fails CKR_MECHANISM_PARAM_INVALID g
                | Some params =>
                    if negb (kdf params =? CKD_NULL) || negb (sharedDataLen params =? 0) then fails CKR_MECHANISM_PARAM_INVALID g else
                    match privateKeyOf (slot s) hBaseKey (state lib) with
                    | None => fails CKR_KEY_HANDLE_INVALID g
                    | Some base =>
                        if negb (bool_decide (o_keyType base = Key.Ec)) then fails CKR_KEY_TYPE_INCONSISTENT g
                        else if negb (o_derive base) then fails CKR_KEY_FUNCTION_NOT_PERMITTED g
                        else
                        match publicData params ≫= λ d, peerPointFromPublicData d (o_keyBits base) with
                        | None => fails CKR_MECHANISM_PARAM_INVALID g
                        | Some point =>
                            match parseDerivedKeyTemplate tmpl count with
                            | Err rv => fails rv g
                            | Ok wanted =>
                                if match t_valueLen wanted with Some n => u64 (o_keyBits base + 7) / 8 <? n | None => false end
                                then fails CKR_TEMPLATE_INCONSISTENT g
                                else
                                  (arm (Some h) g,
                                   AskBytes (Derive (s_readerPath sl) (o_certId base) point) (λ res,
                                     if negb (bool_decide (status res = Ok_)) then
                                       dropLoginOnLapsedLease (status res) h
                                         (leave h (ckrFromStatus (status res) CKR_MECHANISM_PARAM_INVALID) ONothing)
                                     else
                                       match derivedKeyValue (bytes res) wanted with
                                       | Err rv => leave h rv ONothing
                                       | Ok value => keepDerivedKey h (slot s) (s_tokenSerial sl) wanted value
                                       end))
                            end
                        end
                    end
                end
            end
        end
    end).

(** ** Every call *)

(** The functions of the table that answer [CKR_FUNCTION_NOT_SUPPORTED]. *)
Inductive Unsupported :=
| C_InitToken | C_InitPIN | C_SetPIN | C_GetOperationState | C_SetOperationState | C_CreateObject | C_CopyObject
| C_GetObjectSize | C_SetAttributeValue | C_EncryptInit | C_Encrypt | C_EncryptUpdate | C_EncryptFinal | C_DigestInit
| C_Digest | C_DigestUpdate | C_DigestKey | C_DigestFinal | C_SignRecoverInit | C_SignRecover | C_VerifyInit | C_Verify
| C_VerifyUpdate | C_VerifyFinal | C_VerifyRecoverInit | C_VerifyRecover | C_DigestEncryptUpdate | C_DecryptDigestUpdate
| C_SignEncryptUpdate | C_DecryptVerifyUpdate | C_GenerateKey | C_GenerateKeyPair | C_WrapKey | C_UnwrapKey | C_SeedRandom
| C_GenerateRandom | C_GetFunctionStatus | C_CancelFunction | C_WaitForSlotEvent.

Inductive Call :=
| Initialize (args : option InitArgs) | Finalize (reservedSet : bool) | GetInfo (infoSet : bool)
| GetSlotList (tokenPresent : bool) (count : option (option Z)) | GetSlotInfo (slotID : Z) (infoSet : bool)
| GetTokenInfo (slotID : Z) (infoSet : bool) | GetMechanismList (slotID : Z) (count : option (option Z))
| GetMechanismInfo (slotID type : Z) (infoSet : bool) | OpenSession (slotID fl : Z) (sessionSet : bool)
| CloseSession (h : Z) | CloseAllSessions (slotID : Z) | GetSessionInfo (h : Z) (infoSet : bool)
| Login (h userType : Z) | Logout (h : Z) | DestroyObject (h hObject : Z)
| GetAttributeValue (h hObject : Z) (tmpl : option (list CK_ATTRIBUTE)) (count : Z)
| FindObjectsInit (h : Z) (tmpl : option (list CK_ATTRIBUTE)) (count : Z)
| FindObjects (h : Z) (buffersSet : bool) (maxCount : Z) | FindObjectsFinal (h : Z)
| DecryptInit (h : Z) (mechanism : option Z) (hKey : Z) | CDecrypt (h : Z) (ct : list Z) (out : option (option Z))
| DecryptUpdate (h : Z) (part : option (list Z)) | DecryptFinal (h : Z) (out : option (option Z))
| SignInit (h : Z) (mechanism : option Z) (hKey : Z) | CSign (h : Z) (data : list Z) (out : option (option Z))
| SignUpdate (h : Z) (part : list Z) | SignFinal (h : Z) (out : option (option Z))
| DeriveKey (h : Z) (mechanism : option (Z * option DeriveParams)) (hBaseKey : Z) (tmpl : option (list CK_ATTRIBUTE))
    (count : Z) (hKeySet : bool)
| NotSupportedCall (f : Unsupported).

Definition program (c : Call) : Prog :=
  match c with
  | Initialize args => C_Initialize args
  | Finalize r => C_Finalize r
  | GetInfo i => C_GetInfo i
  | GetSlotList present count => C_GetSlotList present count
  | GetSlotInfo s i => C_GetSlotInfo s i
  | GetTokenInfo s i => C_GetTokenInfo s i
  | GetMechanismList s count => C_GetMechanismList s count
  | GetMechanismInfo s type i => C_GetMechanismInfo s type i
  | OpenSession s fl i => C_OpenSession s fl i
  | CloseSession h => C_CloseSession h
  | CloseAllSessions s => C_CloseAllSessions s
  | GetSessionInfo h i => C_GetSessionInfo h i
  | Login h u => C_Login h u
  | Logout h => C_Logout h
  | DestroyObject h o => C_DestroyObject h o
  | GetAttributeValue h o t n => C_GetAttributeValue h o t n
  | FindObjectsInit h t n => C_FindObjectsInit h t n
  | FindObjects h b n => C_FindObjects h b n
  | FindObjectsFinal h => C_FindObjectsFinal h
  | DecryptInit h m k => C_DecryptInit h m k
  | CDecrypt h ct out => C_Decrypt h ct out
  | DecryptUpdate h p => C_DecryptUpdate h p
  | DecryptFinal h out => C_DecryptFinal h out
  | SignInit h m k => C_SignInit h m k
  | CSign h d out => C_Sign h d out
  | SignUpdate h p => C_SignUpdate h p
  | SignFinal h out => C_SignFinal h out
  | DeriveKey h m k t n b => C_DeriveKey h m k t n b
  | NotSupportedCall _ => Done CKR_FUNCTION_NOT_SUPPORTED ONothing
  end.

(** ** Threads *)

(** A call under way: its last request for bytes with the agent's answer, and what is left. *)
Record Thread := mkThread { t_call : Call; t_answer : option (BytesRequest * BytesResult); t_prog : Prog }.
Record Config := mkConfig { c_globals : Globals; c_threads : gmap nat Thread }.

Definition start : Config := mkConfig (mkGlobals None 0 0 0) ∅.

(** What a snapshot is: a bounded number of readers, key sizes of 32 bits. *)
Definition snapshotOk (l : list ReaderState) : Prop :=
  zlen l < 2 ^ 30 ∧ Forall (λ r, Forall (λ c, 0 ≤ keyBits c < 2 ^ 32) (certs r)) l.

(** One thread goes one step; the mutex makes a critical section one step. *)
Inductive tstep : Globals → Thread → Globals → Thread → Prop :=
| t_locked g c a f e g' p : f e g = (g', p) → tstep g (mkThread c a (Locked f)) g' (mkThread c a p)
| t_snapshot g c a k l : snapshotOk l → tstep g (mkThread c a (AskSnapshot k)) g (mkThread c a (k l))
| t_login g c a r k s : tstep g (mkThread c a (AskLogin r k)) g (mkThread c a (k s))
| t_loginActive g c a r k b : tstep g (mkThread c a (AskLoginActive r k)) g (mkThread c a (k b))
| t_bytes g c a q k res : tstep g (mkThread c a (AskBytes q k)) g (mkThread c (Some (q, res)) (k res)).

Inductive cstep : Config → Config → Prop :=
| c_call g ts i c : ts !! i = None → cstep (mkConfig g ts) (mkConfig g (<[i := mkThread c None (program c)]> ts))
| c_thread g ts i t g' t' : ts !! i = Some t → tstep g t g' t' → cstep (mkConfig g ts) (mkConfig g' (<[i := t']> ts))
| c_return g ts i c a rv out :
    ts !! i = Some (mkThread c a (Done rv out)) → cstep (mkConfig g ts) (mkConfig g (delete i ts)).

(** The counters of handles and slot ids do not wrap. *)
Definition roomy (g : Globals) : Prop :=
  g_snapshotsStarted g < 2 ^ 63 ∧
  match g_lib g with
  | None => True
  | Some lib =>
      m_nextSlotId (state lib) < 2 ^ 30 ∧ m_nextSession (state lib) < 2 ^ 63 ∧ m_nextDerived (state lib) < 2 ^ 62
  end.

Inductive creach : Config → Prop :=
| cr_start : creach start
| cr_step c c' : creach c → cstep c c' → roomy (c_globals c') → creach c'.

End Cryptoki.
