(* ===== verification/CryptokiSafety.v ===== *)
(** * The PKCS#11 entry points under concurrency

    Theorems about the calls of [Cryptoki.v], any number of them at once in any order
    and with any answers of the agent. An invariant [J] ties the library's state to the
    guards the threads hold; every call is shown to keep it at each of its steps
    ([safe]), so it holds of every reachable configuration. *)
From Stdlib Require Import Ascii.
From S2P Require Import Prelude Vocabulary Text Der Token DerivedKeys Sessions RawCrypto Cryptoki.
Import Vocabulary Text Der Ck Token DerivedKeys Sessions Cryptoki.
Local Open Scope Z_scope.

Module CryptokiSafety.

(** ** The invariant *)

(** A guard a thread holds: for no session, or for a session with its slot. *)
Abbreviation Hold := (option (Z * Z)).

(** What [ObjectModel::build] leaves in the slots. *)
Definition keyOk (ty : Key.KeyType) (bits : Z) : Prop :=
  match ty with
  | Key.Rsa => 0 < bits < 2 ^ 32
  | Key.Ec => bits = 256 ∨ bits = 384 ∨ bits = 521
  | Key.Other => False
  end.
Definition slotOk (s : Slot) : Prop := ∀ o, o ∈ s_objects s → isPrivate o = true → keyOk (o_keyType o) (o_keyBits o).

Definition signOk (c : SignCursor) : Prop :=
  sign_active c = true →
  keyOk (sign_keyType c) (sign_keyBits c) ∧ (sign_mechanism c = CKM_ECDSA ↔ sign_keyType c = Key.Ec) ∧
  (sign_mechanism c = CKM_RSA_PKCS ∨ sign_mechanism c = CKM_SHA256_RSA_PKCS ∨ sign_mechanism c = CKM_ECDSA).
Definition decryptOk (c : DecryptCursor) : Prop := decrypt_active c = true → 0 < decrypt_keyBits c < 2 ^ 32.

Record stOk (st : SessionState) (holds : gmap nat Hold) : Prop := {
  ok_wf : wf st;
  ok_flag : ∀ h s, session h st = Some s → rpcInFlight s = true ↔ ∃ i sl, holds !! i = Some (Some (h, sl));
  ok_once : ∀ i j h sl sl', holds !! i = Some (Some (h, sl)) → holds !! j = Some (Some (h, sl')) → i = j;
  ok_hold : ∀ i h sl, holds !! i = Some (Some (h, sl)) →
    h < m_nextSession st ∧ ∀ s, session h st = Some s → slot s = sl;
  ok_cursors : ∀ h s, session h st = Some s → signOk (sign s) ∧ decryptOk (decrypt s);
  ok_slots : ∀ s, s ∈ m_slots st → slotOk s }.

Record J (g : Globals) (holds : gmap nat Hold) : Prop := {
  j_count : g_rpcInFlight g = Z.of_nat (size holds);
  j_alive : ∀ i x, holds !! i = Some x → is_Some (g_lib g);
  j_lib : ∀ lib, g_lib g = Some lib → stOk (state lib) holds }.

Definition roomyS (st : SessionState) : Prop :=
  m_nextSlotId st < 2 ^ 31 ∧ m_nextSession st < 2 ^ 63 ∧ m_nextDerived st < 2 ^ 62.
Definition roomyJ (g : Globals) : Prop := ∀ lib, g_lib g = Some lib → roomyS (state lib).

Lemma roomy_J g : roomy g → roomyJ g.
Proof. intros [_ H] lib E. rewrite E in H. unfold roomyS. lia. Qed.

(** ** Changes of the state that keep it *)

Definition opOk (op : Op) (st : SessionState) : Prop :=
  match op with
  | OSetModel model => m_nextSlotId st + zlen model < 2 ^ 31 ∧ Forall slotOk model
  | OAddDerivedKey key =>
      ∃ s, m_sessions st !! k_creator key = Some s ∧ slot s = k_slot key ∧ isLoggedIn (k_slot key) st = true
  | OSession h f s d rpc => signOk s ∧ decryptOk d ∧ ∀ se, session h st = Some se → rpc = rpcInFlight se
  | _ => True
  end.

Lemma opOk_allowed op st : roomyS st → opOk op st → allowed op st.
Proof. intros (?&?&?) Hop. unfold allowed. destruct op; cbn in *; split_and!; done || lia. Qed.

(** The sessions after an operation: those before, a new one, or one with new cursors. *)
Lemma run_sessions op st h s :
  wf st → m_nextSession st < 2 ^ 63 → allowed op st → session h (run op st) = Some s →
  match op with
  | OOpenSession s' f => session h st = Some s ∨ h = m_nextSession st ∧ s = mkSession s' f noFind noSign noDecrypt false
  | OSession h' f sg d rpc => ∃ s', session h st = Some s' ∧
      s = if decide (h = h') then mkSession (slot s') (flags s') f sg d rpc else s'
  | _ => session h st = Some s
  end.
Proof.
  intros Hw Hn (Hb & _) Hs. unfold session in *. destruct op; cbn [run] in *; try done.
  - by destruct (setModel_spec model st Hw Hb) as (_ & _ & _ & _ & <- & _).
  - cbn in Hs. rewrite lookup_insert_Some in Hs. naive_solver.
  - unfold closeSession in Hs. set (st1 := destroyDerivedKeysOfSession h0 st) in *. change (m_sessions st1) with (m_sessions st) in *.
    destruct (m_sessions st !! h0) as [se|]; cbn [snd] in Hs; [|done].
    destruct (negb _); [destruct (endLogin_frame (slot se) (setSessions (delete h0 (m_sessions st)) st1)) as (_ & _ & _ & _ & E & _);
      rewrite E in Hs|]; cbn in Hs; by apply lookup_delete_Some in Hs as [_ ?].
  - unfold closeAllSessions in Hs. cbn [setSessions m_sessions] in Hs. apply map_lookup_filter_Some in Hs as [Hs _].
    by destruct (endLogin_frame s0 st) as (_ & _ & _ & _ & <- & _).
  - by destruct (endLogin_frame s0 st) as (_ & _ & _ & _ & <- & _).
  - unfold markLoginChecked in Hs. by case_match.
  - cbn in Hs. destruct (decide (h0 = h)) as [->|Hne].
    + rewrite lookup_alter_eq in Hs. apply fmap_Some in Hs as (s' & ? & ->). exists s'. by rewrite decide_True.
    + rewrite lookup_alter_ne in Hs by done. exists s. by rewrite decide_False.
Qed.

Lemma run_nextSession op st : wf st → m_nextSession st < 2 ^ 63 → allowed op st → m_nextSession st ≤ m_nextSession (run op st).
Proof.
  intros Hw Hn (Hb & _). destruct (wf_counters _ Hw) as (_ & ? & _). destruct op; cbn [run]; try done.
  - by destruct (setModel_spec model st Hw Hb) as (_ & _ & _ & _ & _ & -> & _).
  - cbn. unfold u64. rewrite wrap_small by lia. lia.
  - unfold closeSession. set (st1 := destroyDerivedKeysOfSession h st). destruct (m_sessions st1 !! h) as [se|]; cbn [snd]; [|done].
    destruct (negb _); [|done]. by destruct (endLogin_frame (slot se) (setSessions (delete h (m_sessions st1)) st1)) as (_ & _ & _ & _ & _ & -> & _).
  - unfold closeAllSessions. cbn [setSessions m_nextSession]. by destruct (endLogin_frame s st) as (_ & _ & _ & _ & _ & -> & _).
  - by destruct (endLogin_frame s st) as (_ & _ & _ & _ & _ & -> & _).
  - unfold markLoginChecked. by case_match.
Qed.

Lemma run_slots op st : wf st → allowed op st → opOk op st → (∀ s, s ∈ m_slots st → slotOk s) → ∀ s, s ∈ m_slots (run op st) → slotOk s.
Proof.
  intros Hw Ha Hop Hs. pose proof (run_frame op st) as Hf. destruct op; try (destruct Hf as (-> & _); done).
  destruct Ha as (Hb & _). cbn [run]. destruct (setModel_spec model st Hw Hb) as (_ & _ & _ & -> & _).
  destruct Hop as [_ Hop]. rewrite Forall_forall in Hop. intros s Hin. by apply Hop.
Qed.

Lemma stOk_run op st holds : stOk st holds → roomyS st → opOk op st → stOk (run op st) holds.
Proof.
  intros [Hw Hf Ho Hh Hc Hs] Hr Hop. assert (Ha := opOk_allowed op st Hr Hop). assert (Hn : m_nextSession st < 2 ^ 63) by apply Hr.
  assert (Hse := λ h s, run_sessions op st h s Hw Hn Ha). assert (Hle := run_nextSession op st Hw Hn Ha). split.
  - by apply run_wf.
  - intros h s H%Hse. destruct op; try (by apply Hf).
    + destruct H as [H|[-> ->]]; [by apply Hf|]. cbn. split; [done|]. intros (i & sl & (? & _)%Hh). lia.
    + destruct H as (s' & Hs' & ->). rewrite <- (Hf h s' Hs'). destruct Hop as (_ & _ & Hop). case_decide; [subst|done].
      cbn. by rewrite (Hop s' Hs').
  - done.
  - intros i h sl H. destruct (Hh i h sl H) as [Hlt Hsl]. split; [lia|]. intros s H'%Hse.
    destruct op; try (by apply Hsl).
    + destruct H' as [?|[-> ->]]; [by apply Hsl|]. lia.
    + destruct H' as (s' & Hs' & ->). case_decide; cbn; by apply Hsl.
  - intros h s H%Hse. destruct op; try (by apply (Hc h)).
    + destruct H as [?|[-> ->]]; [by apply (Hc h)|]. split; by intros ?.
    + destruct H as (s' & Hs' & ->). destruct Hop as (? & ? & _). case_decide; [done|]. by apply (Hc h).
  - by apply run_slots.
Qed.

(** ** Guards *)

Definition upd (i : nat) (hold : option Hold) (holds : gmap nat Hold) : gmap nat Hold := partial_alter (λ _, hold) i holds.

Lemma upd_same i holds : upd i (holds !! i) holds = holds.
Proof. apply partial_alter_self. Qed.

Lemma modifySession_run h f st s :
  session h st = Some s →
  modifySession h f st = run (OSession h (find (f s)) (sign (f s)) (decrypt (f s)) (rpcInFlight (f s))) st.
Proof. intros E. unfold modifySession. by rewrite E. Qed.

Lemma modifySession_none h f st : session h st = None → modifySession h f st = st.
Proof. intros E. unfold modifySession. by rewrite E. Qed.

(** A session's flag set or cleared. *)
Lemma session_withRpc b h h' st :
  session h' (modifySession h (withRpc b) st) =
  if decide (h' = h) then withRpc b <$> session h st else session h' st.
Proof.
  unfold modifySession. destruct (session h st) as [s|] eqn:E; cbn [fmap option_fmap option_map].
  - unfold session, updateSession in *. cbn. case_decide; [subst; rewrite lookup_alter_eq, E; by destruct s|by rewrite lookup_alter_ne].
  - case_decide; [by subst|done].
Qed.

Lemma wf_withRpc b h st : wf st → roomyS st → wf (modifySession h (withRpc b) st).
Proof.
  intros Hw (?&?&?). unfold modifySession. destruct (session h st) as [s|]; [|done].
  apply (run_wf (OSession h (find s) (sign s) (decrypt s) b)); [done|]. unfold allowed. split_and!; done || lia.
Qed.

Lemma withRpc_frame b h st :
  m_nextSession (modifySession h (withRpc b) st) = m_nextSession st ∧ m_slots (modifySession h (withRpc b) st) = m_slots st.
Proof. unfold modifySession. by destruct (session h st). Qed.

Lemma stOk_arm st holds i h s :
  stOk st holds → roomyS st → session h st = Some s → rpcInFlight s = false → holds !! i = None →
  stOk (modifySession h (withRpc true) st) (<[i := Some (h, slot s)]> holds).
Proof.
  intros [Hw Hf Ho Hh Hc Hs] Hr Hse Hoff Hi. destruct (withRpc_frame true h st) as [En Es].
  assert (Hnone : ∀ j sl, holds !! j = Some (Some (h, sl)) → False).
  { intros j sl Hj. assert (rpcInFlight s = true) by (apply (Hf h s Hse); eauto). congruence. }
  split.
  - by apply wf_withRpc.
  - intros h' s'. rewrite session_withRpc. case_decide as Eh; [subst h'; rewrite Hse|].
    + intros [= <-]. cbn. split; [|done]. intros _. exists i, (slot s). by rewrite lookup_insert_eq.
    + intros Hs'. rewrite (Hf h' s' Hs'). split; intros (j & sl & Hj); exists j, sl.
      * rewrite lookup_insert_ne; [done|]. intros <-. congruence.
      * apply lookup_insert_Some in Hj as [[_ ?]|[_ ?]]; [by simplify_eq|done].
  - intros a b h' sl sl'. rewrite !lookup_insert_Some.
    intros [[<- [= <- <-]]|[? Ha]] [[<- E]|[? Hb]]; try done; [by apply Hnone in Hb| |by eapply Ho].
    simplify_eq. by apply Hnone in Ha.
  - intros j h' sl. rewrite En, lookup_insert_Some, session_withRpc.
    assert (h < m_nextSession st) by (apply (wf_sessions _ Hw) in Hse; lia).
    intros [[<- [= <- <-]]|[? Hj]].
    + split; [done|]. rewrite decide_True by done. rewrite Hse. by intros s' [= <-].
    + destruct (Hh j h' sl Hj) as [? Hsl]. split; [done|]. case_decide; [subst|done]. by apply Hnone in Hj.
  - intros h' s'. rewrite session_withRpc. case_decide; [subst h'; rewrite Hse; intros [= <-]|]; [exact (Hc h s Hse)|by apply (Hc h')].
  - by rewrite Es.
Qed.

Lemma stOk_armNone st holds i : stOk st holds → holds !! i = None → stOk st (<[i := None]> holds).
Proof.
  intros [Hw Hf Ho Hh Hc Hs] Hi. assert (Hin : ∀ j h sl, <[i := None]> holds !! j = Some (Some (h, sl)) ↔ holds !! j = Some (Some (h, sl))).
  { intros j h sl. rewrite lookup_insert_Some. split; [naive_solver|]. intros. right. split; [congruence|done]. }
  split; try done.
  - intros h s Hs'. rewrite (Hf h s Hs'). by setoid_rewrite Hin.
  - intros a b h sl sl'. rewrite !Hin. apply Ho.
  - intros j h sl. rewrite Hin. apply Hh.
Qed.

Lemma stOk_disarm st holds i x :
  stOk st holds → roomyS st → holds !! i = Some x →
  stOk (match x with Some (h, _) => modifySession h (withRpc false) st | None => st end) (delete i holds).
Proof.
  intros [Hw Hf Ho Hh Hc Hs] Hr Hi. destruct x as [[h sl]|].
  - destruct (withRpc_frame false h st) as [En Es]. split.
    + by apply wf_withRpc.
    + intros h' s'. rewrite session_withRpc. setoid_rewrite lookup_delete_Some. case_decide as Eh; [subst h'|].
      * intros (s & Hse & ->)%fmap_Some. cbn. split; [done|]. intros (j & sl' & Hne & Hj). by destruct Hne; eapply Ho.
      * intros Hs'. rewrite (Hf h' s' Hs'). split; [|naive_solver]. intros (j & sl' & Hj). exists j, sl'. split; [|done].
        intros <-. congruence.
    + intros a b h' s1 s2 [_ ?]%lookup_delete_Some [_ ?]%lookup_delete_Some. by eapply Ho.
    + intros j h' sl' [_ Hj]%lookup_delete_Some. rewrite En, session_withRpc. destruct (Hh j h' sl' Hj) as [? Hsl].
      split; [done|]. case_decide; [subst|done]. intros s (s' & Hs' & ->)%fmap_Some. by apply Hsl in Hs'.
    + intros h' s'. rewrite session_withRpc. case_decide; [|by apply (Hc h')]. intros (s & Hse & ->)%fmap_Some. exact (Hc h s Hse).
    + by rewrite Es.
  - split; try done.
    + intros h s Hs'. rewrite (Hf h s Hs'). setoid_rewrite lookup_delete_Some. split; [|naive_solver].
      intros (j & sl & Hj). exists j, sl. split; [|done]. intros <-. congruence.
    + intros a b h s1 s2 [_ ?]%lookup_delete_Some [_ ?]%lookup_delete_Some. by eapply Ho.
    + intros j h sl [_ Hj]%lookup_delete_Some. by eapply Hh.
Qed.

(** A critical section that leaves the guards alone keeps [J] when it keeps [stOk]. *)
Lemma J_lib g holds lib : J g holds → is_Some (g_lib g) → stOk (state lib) holds → J (setLib (Some lib) g) holds.
Proof. intros [Hc Ha Hl] Hsome Hok. split; cbn; try done. by intros lib' [= <-]. Qed.

Lemma J_run op g holds lib lib' :
  J g holds → roomyJ g → g_lib g = Some lib → opOk op (state lib) → state lib' = run op (state lib) →
  J (setLib (Some lib') g) holds.
Proof.
  intros HJ Hr E Hop Es. apply J_lib; [done|by eexists|]. rewrite Es. apply stOk_run; [by eapply j_lib|by apply Hr|done].
Qed.

Lemma J_arm g holds i h :
  J g holds → roomyJ g → is_Some (g_lib g) → holds !! i = None →
  match h with
  | None => J (arm None g) (<[i := None]> holds)
  | Some h => ∀ lib s, g_lib g = Some lib → session h (state lib) = Some s → rpcInFlight s = false →
      J (arm (Some h) g) (<[i := Some (h, slot s)]> holds)
  end.
Proof.
  intros [Hc Ha Hl] Hr Hsome Hi. destruct h as [h|].
  - intros lib s E Hs Hoff. split.
    + unfold arm. rewrite E. cbn. rewrite map_size_insert_None by done. lia.
    + intros. unfold arm. rewrite E. cbn. by eexists.
    + unfold arm. rewrite E. cbn. intros lib' [= <-]. cbn. apply stOk_arm; auto.
  - split; cbn.
    + rewrite map_size_insert_None by done. lia.
    + done.
    + intros lib E. apply stOk_armNone; auto.
Qed.

(** ** Safe programs *)

(** The session a call works on, and the room of the buffer it has for bytes. *)
Definition callSession (c : Call) : option Z :=
  match c with
  | Login h _ | CDecrypt h _ _ | DecryptFinal h _ | CSign h _ _ | SignFinal h _ | DeriveKey h _ _ _ _ _ => Some h
  | _ => None
  end.
Definition callBuffer (c : Call) : option Z :=
  match c with
  | CDecrypt _ _ (Some b) | DecryptFinal _ (Some b) | CSign _ _ (Some b) | SignFinal _ (Some b) => b
  | _ => None
  end.

(** The requests a call may make: a signature over its data, a decryption of its
    ciphertext, each with a buffer for the answer; a derivation with a point. *)
Definition requestOk (c : Call) (q : BytesRequest) : Prop :=
  match q with
  | SignRaw _ _ m input =>
      is_Some (callBuffer c) ∧ match c with CSign _ data _ => input = data | SignFinal _ _ => True | _ => False end ∧
      (m = RawCrypto.EcdsaSign → zlen input = 32 ∨ zlen input = 48 ∨ zlen input = 64)
  | Decrypt _ _ ct =>
      is_Some (callBuffer c) ∧ match c with CDecrypt _ data _ => ct = data | DecryptFinal _ _ => True | _ => False end
  | Derive _ _ point => match c with DeriveKey _ _ _ _ _ _ => head point = Some 0x04 | _ => False end
  end.

(** What an answer to the caller with bytes is. *)
Definition answerOk (c : Call) (ans : option (BytesRequest * BytesResult)) (rv : CK_RV) (out : Out) : Prop :=
  match out with
  | OBytes l =>
      rv = CKR_OK ∧ ∃ q room, ans = Some (q, mkBytes Ok_ l) ∧ requestOk c q ∧ callBuffer c = Some room ∧ zlen l ≤ room ∧
      match q with
      | SignRaw _ _ RawCrypto.EcdsaSign _ => zlen l = 64 ∨ zlen l = 96 ∨ zlen l = 132
      | Derive _ _ _ => False
      | _ => True
      end
  | _ => True
  end.

Inductive safe (c : Call) (i : nat) : option Hold → option (BytesRequest * BytesResult) → Prog → Prop :=
| safe_done ans rv out : answerOk c ans rv out → safe c i None ans (Done rv out)
| safe_locked hold ans f :
    (∀ e g holds, roomy g → J g holds → holds !! i = hold →
       ∃ hold', J (fst (f e g)) (upd i hold' holds) ∧ safe c i hold' ans (snd (f e g))) →
    safe c i hold ans (Locked f)
| safe_snapshot x ans k : (∀ l, snapshotOk l → safe c i (Some x) ans (k l)) → safe c i (Some x) ans (AskSnapshot k)
| safe_login h sl ans r k :
    callSession c = Some h → (∀ s, safe c i (Some (Some (h, sl))) ans (k s)) → safe c i (Some (Some (h, sl))) ans (AskLogin r k)
| safe_active x ans r k : (∀ b, safe c i (Some x) ans (k b)) → safe c i (Some x) ans (AskLoginActive r k)
| safe_bytes h sl ans q k :
    callSession c = Some h → requestOk c q → (∀ res, safe c i (Some (Some (h, sl))) (Some (q, res)) (k res)) →
    safe c i (Some (Some (h, sl))) ans (AskBytes q k).

(** What a critical section leaves. *)
Definition leaves (c : Call) (i : nat) (ans : option (BytesRequest * BytesResult)) (holds : gmap nat Hold) (r : Globals * Prog) : Prop :=
  ∃ hold', J (fst r) (upd i hold' holds) ∧ safe c i hold' ans (snd r).

Section Sections.
Context (c : Call) (i : nat).

Lemma leaves_keep hold ans holds g p : J g holds → holds !! i = hold → safe c i hold ans p → leaves c i ans holds (g, p).
Proof. intros HJ <- Hp. exists (holds !! i). by rewrite upd_same. Qed.

Lemma leaves_fails ans holds rv g : J g holds → holds !! i = None → leaves c i ans holds (fails rv g).
Proof. intros HJ E. by eapply leaves_keep; [| |apply safe_done]. Qed.

Lemma leaves_run op hold ans holds g lib lib' p :
  J g holds → roomyJ g → g_lib g = Some lib → opOk op (state lib) → state lib' = run op (state lib) → holds !! i = hold →
  safe c i hold ans p → leaves c i ans holds (setLib (Some lib') g, p).
Proof. intros. eapply leaves_keep; [|done..]. by eapply J_run. Qed.

Lemma leaves_same hold ans holds g lib lib' p :
  J g holds → g_lib g = Some lib → state lib' = state lib → holds !! i = hold → safe c i hold ans p →
  leaves c i ans holds (setLib (Some lib') g, p).
Proof.
  intros HJ E Es ??. eapply leaves_keep; [|done..]. apply J_lib; [done|by eexists|]. rewrite Es. by apply (j_lib _ _ HJ).
Qed.

Lemma leaves_session f h s hold ans holds g lib lib' p :
  J g holds → roomyJ g → g_lib g = Some lib → state lib' = modifySession h f (state lib) → sessionOf h lib = Some s →
  signOk (sign (f s)) → decryptOk (decrypt (f s)) → rpcInFlight (f s) = rpcInFlight s → holds !! i = hold →
  safe c i hold ans p → leaves c i ans holds (setLib (Some lib') g, p).
Proof.
  intros HJ Hr E Es Hs ????Hp. eapply (leaves_run (OSession h (find (f s)) (sign (f s)) (decrypt (f s)) (rpcInFlight (f s))));
    try done; [|rewrite Es; by apply modifySession_run].
  split_and!; [done|done|]. unfold sessionOf in Hs. intros se Hse. congruence.
Qed.

Lemma leaves_arm h s ans holds g lib p :
  J g holds → roomyJ g → g_lib g = Some lib → sessionOf h lib = Some s → rpcInFlight s = false → holds !! i = None →
  safe c i (Some (Some (h, slot s))) ans p → leaves c i ans holds (arm (Some h) g, p).
Proof.
  intros HJ Hr E Hs Hoff Hi Hp. eexists. split; [|exact Hp]. by eapply (J_arm g holds i (Some h)).
Qed.

Lemma leaves_armNone ans holds g p :
  J g holds → is_Some (g_lib g) → holds !! i = None → safe c i (Some None) ans p → leaves c i ans holds (arm None g, p).
Proof.
  intros [Hc Ha Hl] Hsome Hi Hp. exists (Some None). split; [|exact Hp]. change (upd i (Some None) holds) with (<[i := None]> holds).
  split; cbn; [rewrite map_size_insert_None by done; lia|done|]. intros lib E. apply stOk_armNone; auto.
Qed.

Lemma safe_disarm x ans k : safe c i None ans k → safe c i (Some x) ans (disarm (fst <$> x) k).
Proof.
  intros Hk. apply safe_locked. intros e g holds Hr HJ Hi. exists None. split; [|done].
  change (upd i None holds) with (delete i holds). destruct HJ as [Hc Ha Hl].
  destruct (Ha i x Hi) as [lib E]. pose proof (stOk_disarm _ _ _ _ (Hl lib E) (roomy_J g Hr lib E) Hi) as Hok.
  assert (Hsz : size holds = S (size (delete i holds))).
  { assert (size holds ≠ 0%nat) by (apply map_size_ne_0_lookup; eauto). rewrite map_size_delete_Some by eauto. lia. }
  destruct x as [[h sl]|]; cbn; rewrite ?E; split; cbn; rewrite ?E; try done; try lia; by intros lib' [= <-].
Qed.

Lemma safe_leave h sl ans rv out : answerOk c ans rv out → safe c i (Some (Some (h, sl))) ans (leave h rv out).
Proof. intros. apply (safe_disarm (Some (h, sl))). by apply safe_done. Qed.

End Sections.

(** ** Every call is safe *)

Lemma build_slotOk l : snapshotOk l → Forall slotOk (build l).
Proof.
  intros [_ Hl]. unfold build. rewrite Forall_fmap. eapply Forall_impl; [exact Hl|]. intros r Hr o Ho Hp. cbn in Ho.
  destruct (slotOf_card r) as [E _]. rewrite E in Ho. destruct (hasCard r); [|by apply not_elem_of_nil in Ho].
  apply elem_of_objects in Ho as (cert & Hin & Hs & ->); [|by apply Z.eqb_eq]. rewrite Forall_forall in Hr. specialize (Hr cert Hin).
  unfold surfaces in Hs. unfold keyOk, privateOf. cbn [o_keyType o_keyBits].
  destruct (bool_decide (is_Some (Key.nistCurveByBits (keyBits cert)))) eqn:Ec, (keyBits cert =? 0) eqn:Ez, (keyType cert);
    vm_compute in Hs; repeat case_match; try done; bool_hyps; try lia.
  all: destruct Ec as [cv E']; apply List.find_some in E' as [Hin' Hb%Z.eqb_eq]; rewrite <- Hb; cbn in Hin'; naive_solver.
Qed.

Section Calls.
Context (c : Call) (i : nat).

Lemma safe_section hold ans f :
  (∀ e g holds, roomy g → J g holds → holds !! i = hold → leaves c i ans holds (f e g)) → safe c i hold ans (Locked f).
Proof. apply safe_locked. Qed.

(** The refresh, with what the call does under the mutex once it is back. *)
Lemma leaves_refresh ans holds g k :
  J g holds → roomy g → is_Some (g_lib g) → holds !! i = None →
  (∀ e g holds lib, J g holds → roomyJ g → g_lib g = lib → holds !! i = None → leaves c i ans holds (k lib e g)) →
  leaves c i ans holds (refreshModel k g).
Proof.
  intros HJ Hr Hsome Hi Hk. set (ticket := u64 (g_snapshotsStarted g + 1)).
  unfold refreshModel. fold ticket. apply leaves_armNone; [by destruct HJ; split|done|done|].
  apply safe_snapshot. intros l Hl. apply (safe_disarm c i None). apply safe_section. clear HJ Hr Hsome Hi holds.
  intros e g' holds Hr HJ Hi. destruct (g_lib g') as [lib|] eqn:E; [|by apply Hk; [|apply roomy_J| |]].
  destruct (Z.ltb_spec (g_snapshotPublished g') ticket); [|by apply Hk; [|apply roomy_J| |]].
  assert (Hr' := roomy_J g' Hr lib E).
  assert (Hop : opOk (OSetModel (build l)) (state lib)).
  { split; [|by apply build_slotOk]. unfold build. rewrite length_map. destruct Hr as [_ Hr]. rewrite E in Hr. destruct Hl. lia. }
  assert (Hok := stOk_run _ _ _ (j_lib _ _ HJ lib E) Hr' Hop). apply Hk; [|intros lib' [= <-]|done|done].
  - destruct HJ as [Hc Ha _]. split; cbn; try done. by intros lib' [= <-].
  - cbn. destruct (setModel_spec (build l) (state lib)) as (_ & _ & _ & _ & _ & En & Ed & _ & _ & Hs);
      [by eapply ok_wf, (j_lib _ _ HJ)|apply Hop|]. unfold roomyS. rewrite En, Ed. destruct Hr' as (_ & ? & ?). done.
Qed.

Lemma safe_dropLogin hold ans s h k : safe c i hold ans k → safe c i hold ans (dropLoginOnLapsedLease s h k).
Proof.
  intros Hk. unfold dropLoginOnLapsedLease. case_decide; [|done]. apply safe_section. intros e g holds Hr HJ Hi.
  destruct (g_lib g) as [lib|] eqn:E; [|by eapply leaves_keep]. destruct (sessionOf h lib) as [se|] eqn:Es; [|by eapply leaves_keep].
  by eapply (leaves_run c i (OEndLogin (slot se))); [|apply roomy_J| | | | |].
Qed.

(** A change of a session's cursors, whether the session is still there or not. *)
Definition cursorChange (f : Session → Session) : Prop :=
  ∀ s, signOk (sign s) → decryptOk (decrypt s) →
    signOk (sign (f s)) ∧ decryptOk (decrypt (f s)) ∧ rpcInFlight (f s) = rpcInFlight s.

Lemma change_find cur : cursorChange (withFind cur).
Proof. by intros s ??. Qed.
Lemma change_sign cur : signOk cur → cursorChange (withSign cur).
Proof. by intros ? s ??. Qed.
Lemma change_decrypt cur : decryptOk cur → cursorChange (withDecrypt cur).
Proof. by intros ? s ??. Qed.
Lemma change_noSign : cursorChange (withSign noSign).
Proof. by apply change_sign; intros ?. Qed.
Lemma change_noDecrypt : cursorChange (withDecrypt noDecrypt).
Proof. by apply change_decrypt; intros ?. Qed.

Lemma leaves_change f h hold ans holds g lib lib' p :
  J g holds → roomyJ g → g_lib g = Some lib → state lib' = modifySession h f (state lib) → cursorChange f → holds !! i = hold →
  safe c i hold ans p → leaves c i ans holds (setLib (Some lib') g, p).
Proof.
  intros HJ Hr E Es Hf Hi Hp. destruct (session h (state lib)) as [s|] eqn:Hs.
  - destruct (ok_cursors _ _ (j_lib _ _ HJ lib E) h s Hs) as [H1 H2]. destruct (Hf s H1 H2) as (? & ? & ?).
    by eapply leaves_session.
  - rewrite modifySession_none in Es by done. by eapply leaves_same.
Qed.

Lemma safe_clearing f h hold ans k : cursorChange f → safe c i hold ans k → safe c i hold ans (clearing h f k).
Proof.
  intros Hf Hk. apply safe_section. intros e g holds Hr HJ Hi. destruct (g_lib g) as [lib|] eqn:E; [|by eapply leaves_keep].
  by eapply leaves_change; [|apply roomy_J| | | | |].
Qed.

Lemma safe_deliver h sl f buffer q l :
  cursorChange f → requestOk c q → callBuffer c = buffer →
  match q with
  | SignRaw _ _ RawCrypto.EcdsaSign _ => zlen l = 64 ∨ zlen l = 96 ∨ zlen l = 132
  | Derive _ _ _ => False
  | _ => True
  end → safe c i (Some (Some (h, sl))) (Some (q, mkBytes Ok_ l)) (deliver h f buffer l).
Proof.
  intros Hf Hq Hb Hw. unfold deliver. destruct buffer as [room|]; [|by apply safe_leave].
  destruct (Z.ltb_spec room (zlen l)); [by apply safe_leave|]. apply safe_clearing; [done|]. apply safe_leave.
  cbn. split; [done|]. exists q, room. done.
Qed.

End Calls.

(** The cases of a critical section that ends the call with an error. *)
Ltac refusals := repeat case_match; try (by apply leaves_fails).

Section Entries.
Context (i : nat).

Lemma safe_refused cl rv : safe cl i None None (Done rv ONothing).
Proof. by apply safe_done. Qed.

Lemma safe_Initialize args : safe (Initialize args) i None None (C_Initialize args).
Proof.
  apply safe_section. intros e g holds Hr HJ Hi. destruct (g_lib g) eqn:E; [by apply leaves_fails|].
  assert (Hnone : ∀ j x, holds !! j = Some x → False).
  { intros j x Hj. destruct (j_alive _ _ HJ j x Hj). congruence. }
  assert (HJ' : J (setLib (Some (mkLibrary emptyState ∅ [])) g) holds).
  { destruct HJ as [Hc _ _]. split; cbn; try done. intros lib [= <-]. cbn.
    split; try (intros; exfalso; by eauto); cbn; try done. intros s Hs. by apply not_elem_of_nil in Hs. }
  refusals; by eapply leaves_keep; [| |apply safe_done].
Qed.

Lemma safe_Finalize r : safe (Finalize r) i None None (C_Finalize r).
Proof.
  assert (Hreset : ∀ g holds, J g holds → holds !! i = None → g_rpcInFlight g = 0 →
            leaves (Finalize r) i None holds (setLib None g, Done CKR_OK ONothing)).
  { intros g holds [Hc Ha _] Hi E. assert (holds = ∅) as -> by (apply map_size_empty_inv; lia).
    eapply leaves_keep; [|done|by apply safe_done]. split; cbn; done. }
  apply safe_section. intros e g holds Hr HJ Hi. destruct (g_lib g) eqn:E; [|by apply leaves_fails].
  destruct r; [by apply leaves_fails|]. destruct (Z.eqb_spec (g_rpcInFlight g) 0); [by apply Hreset|].
  eapply leaves_keep; [done|done|]. apply safe_section. clear dependent g holds. intros e' g holds Hr HJ Hi.
  destruct (Z.eqb_spec (g_rpcInFlight g) 0); [by apply Hreset|by apply leaves_fails].
Qed.

Lemma leaves_giveList cl b l g holds : J g holds → holds !! i = None → leaves cl i None holds (giveList b l g).
Proof. intros. unfold giveList. repeat case_match; by eapply leaves_keep; [| |apply safe_done]. Qed.

Lemma safe_GetSlotList p n : safe (GetSlotList p n) i None None (C_GetSlotList p n).
Proof.
  apply safe_section. intros e g holds Hr HJ Hi. destruct (g_lib g) eqn:E, n; try by apply leaves_fails.
  apply leaves_refresh; [done|done|by rewrite E|done|]. intros e' g' holds' [lib|] HJ' Hr' E' Hi'; [|by apply leaves_fails].
  by apply leaves_giveList.
Qed.

Lemma safe_onSlot cl b s k :
  (∀ sl g holds, J g holds → holds !! i = None → leaves cl i None holds (k sl g)) → safe cl i None None (onSlot b s k).
Proof.
  intros Hk. apply safe_section. intros e g holds Hr HJ Hi. destruct (g_lib g) eqn:E; [|by apply leaves_fails].
  destruct (negb b); [by apply leaves_fails|]. apply leaves_refresh; [done|done|by rewrite E|done|].
  intros e' g' holds' lib HJ' Hr' E' Hi'. refusals. by apply Hk.
Qed.

Lemma safe_slot_calls s b n ty :
  safe (GetSlotInfo s b) i None None (C_GetSlotInfo s b) ∧ safe (GetTokenInfo s b) i None None (C_GetTokenInfo s b) ∧
  safe (GetMechanismList s n) i None None (C_GetMechanismList s n) ∧
  safe (GetMechanismInfo s ty b) i None None (C_GetMechanismInfo s ty b).
Proof.
  split_and!; apply safe_onSlot; intros sl g holds HJ Hi; [| |by apply leaves_giveList|]; refusals;
    (eapply leaves_keep; [done|done|apply safe_done]); by repeat case_match.
Qed.

Lemma safe_OpenSession s fl b : safe (OpenSession s fl b) i None None (C_OpenSession s fl b).
Proof.
  apply safe_section. intros e g holds Hr HJ Hi. destruct (g_lib g) eqn:E; [|by apply leaves_fails].
  destruct (negb b); [by apply leaves_fails|]. destruct (_ =? _); [by apply leaves_fails|].
  apply leaves_refresh; [done|done|by rewrite E|done|]. intros e' g' holds' lib HJ' Hr' E' Hi'.
  destruct lib as [lib|]; [|by apply leaves_fails]. destruct (slotById s (state lib)) as [sl|]; [|by apply leaves_fails].
  destruct (negb _); [by apply leaves_fails|].
  by eapply (leaves_run _ i (OOpenSession s fl)); [| | | | | |apply safe_done].
Qed.

Lemma safe_CloseSession h : safe (CloseSession h) i None None (C_CloseSession h).
Proof.
  apply safe_section. intros e g holds Hr HJ Hi. destruct (g_lib g) as [lib|] eqn:E; [|by apply leaves_fails].
  destruct (sessionOf h lib) as [s|]; [|by apply leaves_fails].
  eapply (leaves_run _ i (OCloseSession h)); [done|by apply roomy_J|done|done| |done|by apply safe_done]. by repeat case_match.
Qed.

Lemma safe_CloseAllSessions s : safe (CloseAllSessions s) i None None (C_CloseAllSessions s).
Proof.
  apply safe_section. intros e g holds Hr HJ Hi. destruct (g_lib g) as [lib|] eqn:E; [|by apply leaves_fails].
  eapply (leaves_run _ i (OCloseAllSessions s)); [done|by apply roomy_J|done|done| |done|by apply safe_done]. by repeat case_match.
Qed.

Lemma safe_sessionInfo cl h s gen active (guard : bool) :
  safe cl i (if guard then Some None else None) None (sessionInfo h s gen active guard).
Proof.
  set (hold := if guard then Some None else None). unfold sessionInfo. apply safe_section. intros e g holds Hr HJ Hi.
  assert (Hfin : ∀ rv a b d, safe cl i hold None (if guard then disarm None (Done rv (OSessionInfo a b d)) else Done rv (OSessionInfo a b d)) ∧
      safe cl i hold None (if guard then disarm None (Done rv ONothing) else Done rv ONothing)).
  { intros. subst hold. destruct guard; [split; apply (safe_disarm cl i None)|split]; by apply safe_done. }
  destruct (g_lib g) as [lib|] eqn:E; [|eapply leaves_keep; [done|done|by eapply (Hfin _ 0 0 0)]].
  destruct (_ && _ && _).
  - refusals; eapply (leaves_run cl i (OEndLogin s)); try done; try (by apply roomy_J); try eapply (Hfin _ 0 0 0); apply Hfin.
  - refusals; eapply leaves_same; try done; try eapply (Hfin _ 0 0 0); apply Hfin.
Qed.

Lemma safe_GetSessionInfo h b : safe (GetSessionInfo h b) i None None (C_GetSessionInfo h b).
Proof.
  apply safe_section. intros e g holds Hr HJ Hi. destruct (g_lib g) as [lib|] eqn:E; [|by apply leaves_fails].
  destruct (negb b); [by apply leaves_fails|]. destruct (sessionOf h lib) as [s|]; [|by apply leaves_fails].
  assert (Hno : ∀ gen, leaves (GetSessionInfo h b) i None holds (g, sessionInfo h (slot s) gen None false)).
  { intros gen. eapply leaves_keep; [done|done|]. apply (safe_sessionInfo _ _ _ _ _ false). }
  destruct (slotById _ _) as [sl|]; [|by apply Hno]. destruct (loginCheckDue _ _ _); [|by apply Hno].
  apply leaves_armNone; [|done|done|].
  - by eapply (J_run (OMarkLoginChecked (slot s) (now e))); [|apply roomy_J| | |].
  - destruct (String.eqb _ _); [|apply safe_active; intros a]; apply (safe_sessionInfo _ _ _ _ _ true).
Qed.

Lemma safe_Login h u : safe (Login h u) i None None (C_Login h u).
Proof.
  apply safe_section. intros e g holds Hr HJ Hi. destruct (g_lib g) as [lib|] eqn:E; [|by apply leaves_fails].
  destruct (_ && _); [by apply leaves_fails|]. destruct (sessionOf h lib) as [s|] eqn:Es; [|by apply leaves_fails].
  destruct (rpcInFlight s) eqn:Ef; [by apply leaves_fails|]. destruct (_ && _); [by apply leaves_fails|].
  destruct (slotById _ _) as [sl|]; [|by apply leaves_fails]. destruct (negb _); [by apply leaves_fails|].
  destruct (bool_decide _); [by apply leaves_fails|]. eapply leaves_arm; [done|by apply roomy_J|done|done|done|done|].
  apply safe_login; [done|]. intros res. apply safe_section. clear dependent g holds lib e. intros e g holds Hr HJ Hi.
  assert (Hend : ∀ rv, safe (Login h u) i (Some (Some (h, slot s))) None (disarm (Some h) (Done rv ONothing))).
  { intros rv. apply (safe_leave _ i). done. }
  destruct (g_lib g) as [lib|] eqn:E; [|by eapply leaves_keep]. destruct (decide (res = Ok_)); [|by eapply leaves_keep].
  destruct (sessionOf h lib) as [s'|]; [|by eapply leaves_keep].
  by eapply (leaves_run _ i (OSetLoggedIn (slot s') (now e))); [|apply roomy_J| | | | |].
Qed.

Lemma safe_Logout h : safe (Logout h) i None None (C_Logout h).
Proof.
  apply safe_section. intros e g holds Hr HJ Hi. destruct (g_lib g) as [lib|] eqn:E; [|by apply leaves_fails].
  destruct (sessionOf h lib) as [s|]; [|by apply leaves_fails].
  eapply (leaves_run _ i (OEndLogin (slot s))); [done|by apply roomy_J|done|done| |done|by apply safe_done]. by repeat case_match.
Qed.

Lemma safe_DestroyObject h o : safe (DestroyObject h o) i None None (C_DestroyObject h o).
Proof.
  apply safe_section. intros e g holds Hr HJ Hi. refusals.
  by eapply (leaves_run _ i (ODestroyDerivedKey o)); [|apply roomy_J| | | | |apply safe_done].
Qed.

Lemma safe_GetAttributeValue h o t n : safe (GetAttributeValue h o t n) i None None (C_GetAttributeValue h o t n).
Proof.
  apply safe_section. intros e g holds Hr HJ Hi. destruct (g_lib g) as [lib|] eqn:E; [|by apply leaves_fails].
  destruct t as [attrs|]; [|by apply leaves_fails]. refusals.
  - cbv zeta. match goal with |- context [serveAll ?f ?l ?rv ?a] => destruct (serveAll f l rv a) as [[overall served] u] end.
    by eapply leaves_keep; [| |apply safe_done].
  - cbv zeta. match goal with |- context [serveAll ?f ?l ?rv ?a] => destruct (serveAll f l rv a) as [[overall served] ders] end.
    by eapply leaves_same; [| | | |apply safe_done].
Qed.

Lemma safe_FindObjectsInit h t n : safe (FindObjectsInit h t n) i None None (C_FindObjectsInit h t n).
Proof.
  apply safe_section. intros e g holds Hr HJ Hi. destruct (g_lib g) as [lib|] eqn:E; [|by apply leaves_fails].
  destruct (sessionOf h lib) as [s|] eqn:Es; [|by apply leaves_fails]. destruct (find_active _); [by apply leaves_fails|].
  cbv zeta. match goal with |- context [let '(matches, ders) := ?x in _] => destruct x as [matches ders] end.
  by eapply leaves_change; [|apply roomy_J| | |apply change_find| |apply safe_done].
Qed.

Lemma safe_FindObjects h b n : safe (FindObjects h b n) i None None (C_FindObjects h b n).
Proof.
  apply safe_section. intros e g holds Hr HJ Hi. refusals.
  by eapply leaves_change; [|apply roomy_J| | |apply change_find| |apply safe_done].
Qed.

Lemma safe_FindObjectsFinal h : safe (FindObjectsFinal h) i None None (C_FindObjectsFinal h).
Proof.
  apply safe_section. intros e g holds Hr HJ Hi. refusals.
  by eapply leaves_change; [|apply roomy_J| | |apply change_find| |apply safe_done].
Qed.

Lemma privateKey_ok st holds s k obj : stOk st holds → privateKeyOf s k st = Some obj → keyOk (o_keyType obj) (o_keyBits obj).
Proof.
  intros Hok E. unfold privateKeyOf, resolveObject in E. repeat case_match; simplify_eq.
  match goal with H : _ ≫= _ = Some obj |- _ => apply bind_Some in H as (sl & Hsl & Ho) end.
  apply bind_Some in Hsl as (idx & _ & Hsl). eapply (ok_slots _ _ Hok); [by eapply list_elem_of_lookup_2| |done].
  by eapply list_elem_of_lookup_2.
Qed.

Lemma safe_DecryptInit h m k : safe (DecryptInit h m k) i None None (C_DecryptInit h m k).
Proof.
  apply safe_section. intros e g holds Hr HJ Hi. destruct (g_lib g) as [lib|] eqn:E; [|by apply leaves_fails]. refusals.
  eapply leaves_change; [done|by apply roomy_J|done|done|apply change_decrypt|done|by apply safe_done].
  intros _. cbn. bool_hyps. match goal with H : privateKeyOf _ _ _ = Some ?o, H' : o_keyType ?o = _ |- _ =>
    apply (privateKey_ok _ _ _ _ _ (j_lib _ _ HJ lib E)) in H; by rewrite H' in H end.
Qed.

Lemma safe_DecryptUpdate h p : safe (DecryptUpdate h p) i None None (C_DecryptUpdate h p).
Proof.
  apply safe_section. intros e g holds Hr HJ Hi. destruct (g_lib g) as [lib|] eqn:E; [|by apply leaves_fails].
  destruct (sessionOf h lib) as [s|] eqn:Es; [|by apply leaves_fails].
  destruct (ok_cursors _ _ (j_lib _ _ HJ lib E) h s Es) as [_ Hd]. destruct (decrypt s) as [a r ci kb acc] eqn:Ed. refusals.
  by eapply leaves_change; [|apply roomy_J| | |apply change_decrypt| |apply safe_done].
Qed.

Lemma safe_doDecrypt cl h input out :
  match out with
  | None => True
  | Some buffer => callSession cl = Some h ∧ callBuffer cl = buffer ∧
      ∀ r ci acc, is_Some buffer → requestOk cl (Decrypt r ci (default acc input))
  end → safe cl i None None (doDecrypt h input out).
Proof.
  destruct out as [buffer|]; [|intros _; by apply safe_done]. intros (Hs & Hb & Hq). apply safe_section. intros e g holds Hr HJ Hi.
  destruct (g_lib g) as [lib|] eqn:E; [|by apply leaves_fails]. destruct (sessionOf h lib) as [s|] eqn:Es; [|by apply leaves_fails].
  destruct (ok_cursors _ _ (j_lib _ _ HJ lib E) h s Es) as [_ Hd]. cbv zeta.
  destruct (decrypt_active (decrypt s)) eqn:Ea; [|by apply leaves_fails]. destruct (rpcInFlight s) eqn:Ef; [by apply leaves_fails|].
  specialize (Hd Ea). cbn [negb]. eapply leaves_arm; [done|by apply roomy_J|done|done|done|done|].
  destruct (bool_decide (buffer = None) && _) eqn:Eq; [by apply safe_leave|].
  assert (is_Some buffer) as Hbuf.
  { destruct buffer; [by eexists|]. rewrite bool_decide_eq_true_2 in Eq by done. bool_hyps. lia. }
  apply safe_bytes; [done|by apply Hq|]. intros [st l]. cbn [status bytes]. case_decide as Est.
  - subst st. apply safe_deliver; [apply change_noDecrypt|by apply Hq|done|done].
  - apply safe_clearing; [apply change_noDecrypt|]. apply safe_dropLogin. by apply safe_leave.
Qed.

Lemma safe_SignInit h m k : safe (SignInit h m k) i None None (C_SignInit h m k).
Proof.
  apply safe_section. intros e g holds Hr HJ Hi. destruct (g_lib g) as [lib|] eqn:E; [|by apply leaves_fails].
  destruct m as [mech|]; [|by apply leaves_fails]. refusals.
  eapply leaves_change; [done|by apply roomy_J|done|done|apply change_sign|done|by apply safe_done].
  intros _. cbn. match goal with H : privateKeyOf _ _ _ = Some ?o |- _ => apply (privateKey_ok _ _ _ _ _ (j_lib _ _ HJ lib E)) in H end.
  bool_hyps. destruct (Z.eqb_spec mech CKM_ECDSA); case_bool_decide; try done; split_and!; try done; lia.
Qed.

Lemma safe_SignUpdate h p : safe (SignUpdate h p) i None None (C_SignUpdate h p).
Proof.
  apply safe_section. intros e g holds Hr HJ Hi. destruct (g_lib g) as [lib|] eqn:E; [|by apply leaves_fails].
  destruct (sessionOf h lib) as [s|] eqn:Es; [|by apply leaves_fails].
  destruct (ok_cursors _ _ (j_lib _ _ HJ lib E) h s Es) as [Hd _]. destruct (sign s) as [a r ci kb m kt acc] eqn:Ed. refusals.
  by eapply leaves_change; [|apply roomy_J| | |apply change_sign| |apply safe_done].
Qed.

(** What the cursor of an operation says of the agent's request. *)
Lemma signOk_length cur : signOk cur → sign_active cur = true →
  let len := signatureLength (sign_keyType cur) (sign_keyBits cur) in
  0 < len ∧
  (agentSignMechanism (sign_mechanism cur) = RawCrypto.EcdsaSign ↔ sign_mechanism cur = CKM_ECDSA) ∧
  (sign_mechanism cur = CKM_ECDSA → len = 64 ∨ len = 96 ∨ len = 132).
Proof.
  intros Hok Ha. destruct (Hok Ha) as (Hk & Hm & H3). unfold agentSignMechanism, signatureLength, u64 in *.
  split_and!.
  - destruct (sign_keyType cur); cbn in Hk; [|destruct Hk as [->|[->| ->]]; by vm_compute|done].
    rewrite wrap_small by lia. apply Z.div_str_pos. lia.
  - destruct H3 as [->|[->| ->]]; by vm_compute.
  - intros E%Hm. rewrite E in *. destruct Hk as [->|[->| ->]]; vm_compute; auto.
Qed.

Lemma safe_doSign cl h input out :
  match out with
  | None => True
  | Some buffer => callSession cl = Some h ∧ callBuffer cl = buffer ∧
      ∀ r ci m acc, let data := default acc input in is_Some buffer →
        (m = RawCrypto.EcdsaSign → zlen data = 32 ∨ zlen data = 48 ∨ zlen data = 64) → requestOk cl (SignRaw r ci m data)
  end → safe cl i None None (doSign h input out).
Proof.
  destruct out as [buffer|]; [|intros _; by apply safe_done]. intros (Hs & Hb & Hq). apply safe_section. intros e g holds Hr HJ Hi.
  destruct (g_lib g) as [lib|] eqn:E; [|by apply leaves_fails]. destruct (sessionOf h lib) as [s|] eqn:Es; [|by apply leaves_fails].
  destruct (ok_cursors _ _ (j_lib _ _ HJ lib E) h s Es) as [Hd _]. cbv zeta.
  destruct (sign_active (sign s)) eqn:Ea; [|by apply leaves_fails]. destruct (rpcInFlight s) eqn:Ef; [by apply leaves_fails|].
  destruct (signOk_length _ Hd Ea) as (Hpos & Hec & Hw). cbn [negb]. eapply leaves_arm; [done|by apply roomy_J|done|done|done|done|].
  clear Hd Ea Ef. destruct (sign s) as [a r ci kb m kt acc].
  cbn [sign_active sign_reader sign_certId sign_keyBits sign_mechanism sign_keyType sign_accumulated] in *. set (len := signatureLength kt kb) in *.
  destruct (_ && _) eqn:Elen; [apply safe_clearing; [apply change_noSign|by apply safe_leave]|].
  destruct (lengthQuestion len buffer) eqn:El; [by apply safe_leave|]. unfold lengthQuestion in El.
  assert (is_Some buffer) as Hbuf.
  { destruct buffer; [by eexists|]. rewrite andb_true_r in El. bool_hyps. lia. }
  assert (Hreq : requestOk cl (SignRaw r ci (agentSignMechanism m) (default acc input))).
  { apply Hq; [done|]. intros ->%Hec. cbn in Elen. bool_hyps. lia. }
  apply safe_bytes; [done|done|]. intros [st l]. cbn [status bytes].
  case_bool_decide as Est; cbn [negb].
  - subst st. destruct ((m =? CKM_ECDSA) && negb (zlen l =? len)) eqn:Ew; [apply safe_clearing; [apply change_noSign|by apply safe_leave]|].
    apply safe_deliver; [apply change_noSign|done|done|]. destruct (agentSignMechanism m) eqn:Em; try done.
    rewrite (proj1 Hec eq_refl), Z.eqb_refl in Ew. cbn [andb] in Ew. bool_hyps. rewrite Ew. apply Hw, Hec, eq_refl.
  - apply safe_clearing; [apply change_noSign|]. apply safe_dropLogin. by apply safe_leave.
Qed.

Lemma safe_keepDerivedKey cl h sl serial wanted value q :
  safe cl i (Some (Some (h, sl))) (Some q) (keepDerivedKey h sl serial wanted value).
Proof.
  apply safe_section. intros e g holds Hr HJ Hi.
  assert (Hend : ∀ rv, leaves cl i (Some q) holds (g, leave h rv ONothing)).
  { intros rv. eapply leaves_keep; [done|done|by apply safe_leave]. }
  destruct (g_lib g) as [lib|] eqn:E; [|by apply Hend]. destruct (sessionOf h lib) as [s|] eqn:Es; [|by apply Hend].
  destruct (match slotById _ _ with Some _ => _ | None => _ end); [by apply Hend|].
  destruct (isLoggedIn (slot s) (state lib)) eqn:El; [|by apply Hend]. cbn [negb].
  destruct (addDerivedKey (mkKey sl h wanted value) (state lib)) as [hKey st'] eqn:Ek.
  destruct (ok_hold _ _ (j_lib _ _ HJ lib E) _ _ _ Hi) as [_ Hsl].
  eapply (leaves_run _ i (OAddDerivedKey (mkKey sl h wanted value))); [done|by apply roomy_J|done| | |done|by apply safe_leave].
  - exists s. cbn. rewrite <- (Hsl s Es). done.
  - cbn [state setState]. cbn [run]. by rewrite Ek.
Qed.

Lemma safe_DeriveKey h m k t n b : safe (DeriveKey h m k t n b) i None None (C_DeriveKey h m k t n b).
Proof.
  apply safe_section. intros e g holds Hr HJ Hi. destruct (g_lib g) as [lib|] eqn:E; [|by apply leaves_fails].
  destruct m as [[mech parameter]|]; [|by apply leaves_fails]. destruct (negb b); [by apply leaves_fails|].
  destruct (sessionOf h lib) as [s|] eqn:Es; [|by apply leaves_fails]. destruct (rpcInFlight s) eqn:Ef; [by apply leaves_fails|].
  destruct (slotById (slot s) (state lib)) as [sl|] eqn:Esl; [|by apply leaves_fails].
  destruct (_ || _); [by apply leaves_fails|]. destruct (negb _); [by apply leaves_fails|].
  destruct parameter as [params|]; [|by apply leaves_fails]. destruct (_ || _); [by apply leaves_fails|].
  destruct (privateKeyOf _ _ _) as [base|] eqn:Eb; [|by apply leaves_fails].
  apply (privateKey_ok _ _ _ _ _ (j_lib _ _ HJ lib E)) in Eb.
  destruct (negb (bool_decide _)) eqn:Ety; [by apply leaves_fails|]. destruct (negb (o_derive base)); [by apply leaves_fails|].
  destruct (publicData params ≫= _) as [point|] eqn:Ep; [|by apply leaves_fails].
  destruct (parseDerivedKeyTemplate t n) as [wanted|rv]; [|by apply leaves_fails].
  destruct (match t_valueLen wanted with Some _ => _ | None => _ end); [by apply leaves_fails|].
  eapply leaves_arm; [done|by apply roomy_J|done|done|done|done|].
  apply safe_bytes; [done| |].
  - apply bind_Some in Ep as (d & _ & Hp). cbn. bool_hyps. rewrite Ety in Eb. cbn in Eb.
    apply (proj1 (peerPoint_iff d (o_keyBits base) point ltac:(lia))) in Hp. by apply Hp.
  - intros [st l]. cbn [status bytes]. destruct (bool_decide (st = Ok_)); cbn [negb].
    + destruct (derivedKeyValue l wanted) as [value|rv]; [apply safe_keepDerivedKey|by apply safe_leave].
    + apply safe_dropLogin. by apply safe_leave.
Qed.

Lemma safe_program cl : safe cl i None None (program cl).
Proof.
  destruct cl; cbn [program];
    auto using safe_Initialize, safe_Finalize, safe_GetSlotList, safe_OpenSession, safe_CloseSession, safe_CloseAllSessions,
      safe_GetSessionInfo, safe_Login, safe_Logout, safe_DestroyObject, safe_GetAttributeValue, safe_FindObjectsInit,
      safe_FindObjects, safe_FindObjectsFinal, safe_DecryptInit, safe_DecryptUpdate, safe_SignInit, safe_SignUpdate,
      safe_DeriveKey, safe_refused.
  - unfold C_GetInfo. destruct (negb infoSet); by apply safe_done.
  - by apply (safe_slot_calls slotID infoSet None 0).
  - by apply (safe_slot_calls slotID infoSet None 0).
  - by apply (safe_slot_calls slotID false count 0).
  - by apply safe_slot_calls; exact None.
  - apply safe_doDecrypt. destruct out as [[room|]|]; [| |done]; cbn; (split_and!; [done|done|by intros _ _ ? [? ?]]).
  - apply safe_doDecrypt. destruct out as [[room|]|]; [| |done]; cbn; (split_and!; [done|done|by intros _ _ ? [? ?]]).
  - apply safe_doSign. destruct out as [[room|]|]; [| |done]; cbn; (split_and!; [done|done|by intros _ _ ? ? [? ?]]).
  - apply safe_doSign. destruct out as [[room|]|]; [| |done]; cbn; (split_and!; [done|done|by intros _ _ ? ? [? ?]]).
Qed.

End Entries.

(** ** Reachable configurations *)

(** Every thread is safe with the guard it holds, and the guards account for the state. *)
Definition Inv (cfg : Config) (holds : gmap nat Hold) : Prop :=
  J (c_globals cfg) holds ∧
  (∀ i x, holds !! i = Some x → is_Some (c_threads cfg !! i)) ∧
  (∀ i t, c_threads cfg !! i = Some t → safe (t_call t) i (holds !! i) (t_answer t) (t_prog t)).

Lemma lookup_upd i j hold holds : upd i hold holds !! j = if decide (i = j) then hold else holds !! j.
Proof. unfold upd. case_decide; [subst; apply lookup_partial_alter_eq|by apply lookup_partial_alter_ne]. Qed.

(** A step that leaves the guards alone. *)
Local Ltac kept :=
  match goal with H : Some _ = ?m !! ?i |- ∃ _, J _ (upd ?i _ ?m) ∧ _ =>
    exists (m !! i); rewrite upd_same; split; [done|]; rewrite <- H; auto end.

Lemma tstep_safe g t g' t' holds i :
  tstep g t g' t' → roomy g → J g holds → safe (t_call t) i (holds !! i) (t_answer t) (t_prog t) →
  ∃ hold', J g' (upd i hold' holds) ∧ safe (t_call t') i hold' (t_answer t') (t_prog t').
Proof.
  intros Hstep Hr HJ Hs. destruct Hstep as [g c a f e g' p E|g c a k l Hl|g c a r k s|g c a r k b|g c a q k res]; cbn in *;
    inversion Hs; subst.
  - match goal with H : ∀ e g holds, roomy g → _ |- _ => destruct (H e g holds Hr HJ eq_refl) as (hold' & HJ' & Hs') end.
    exists hold'. by rewrite E in HJ', Hs'.
  - kept.
  - kept.
  - kept.
  - kept.
Qed.

Lemma creach_inv cfg : creach cfg → roomy (c_globals cfg) ∧ ∃ holds, Inv cfg holds.
Proof.
  induction 1 as [|cfg cfg' _ (Hr & holds & HJ & Hdom & Hsafe) Hstep Hr'].
  - split; [done|]. exists ∅. split_and!; [by split|done|done].
  - split; [done|]. destruct Hstep as [g ts i c Hi|g ts i t g' t' Hi Ht|g ts i c a rv out Hi]; cbn in *.
    + assert (holds !! i = None) as Hn.
      { apply eq_None_not_Some. intros [x Hx]. destruct (Hdom i x Hx). congruence. }
      exists holds. split_and!; cbn; [done| |].
      * intros j x Hj%Hdom. destruct (decide (i = j)) as [->|]; [by rewrite lookup_insert_eq|by rewrite lookup_insert_ne].
      * intros j t. rewrite lookup_insert_Some. intros [[<- <-]|[_ ?]]; [rewrite Hn; apply safe_program|by apply Hsafe].
    + destruct (tstep_safe _ _ _ _ _ _ Ht Hr HJ (Hsafe i t Hi)) as (hold' & HJ' & Hs'). exists (upd i hold' holds).
      split_and!; cbn; [done| |].
      * intros j x. rewrite lookup_upd. destruct (decide (i = j)) as [->|]; [by rewrite lookup_insert_eq|].
        rewrite lookup_insert_ne by done. apply Hdom.
      * intros j t''. rewrite lookup_upd. destruct (decide (i = j)) as [->|]; [rewrite lookup_insert_eq; by intros [= <-]|].
        rewrite lookup_insert_ne by done. apply Hsafe.
    + exists holds. assert (holds !! i = None) as Hn by (specialize (Hsafe i _ Hi); by inversion Hsafe).
      split_and!; cbn; [done| |].
      * intros j x Hj. destruct (decide (i = j)) as [->|]; [congruence|]. rewrite lookup_delete_ne by done. by eapply Hdom.
      * intros j t [_ ?]%lookup_delete_Some. by apply Hsafe.
Qed.

(** A thread that waits for the agent, and one that waits on behalf of a session. *)
Definition asking (t : Thread) : bool :=
  match t_prog t with AskSnapshot _ | AskLogin _ _ | AskLoginActive _ _ | AskBytes _ _ => true | _ => false end.
Definition working (t : Thread) : bool :=
  match t_prog t with AskLogin _ _ | AskBytes _ _ => true | _ => false end.

Lemma safe_asking t i hold : safe (t_call t) i hold (t_answer t) (t_prog t) → asking t = true → is_Some hold.
Proof. intros Hs. unfold asking. by inversion Hs. Qed.

Lemma safe_working t i hold :
  safe (t_call t) i hold (t_answer t) (t_prog t) → working t = true → ∃ h sl, callSession (t_call t) = Some h ∧ hold = Some (Some (h, sl)).
Proof. intros Hs. unfold working. inversion Hs; try done; eauto. Qed.

(** ** Concrete runs *)

Inductive Event :=
| ECall (i : nat) (c : Call) | ELock (i : nat) (e : Env) | ESnapshot (i : nat) (l : list ReaderState)
| ELogin (i : nat) (s : Status) | EActive (i : nat) (b : option bool) | EBytes (i : nat) (res : BytesResult) | EReturn (i : nat).

Definition snapshotOkb (l : list ReaderState) : bool :=
  (zlen l <? 2 ^ 30) && forallb (λ r, forallb (λ c, (0 <=? keyBits c) && (keyBits c <? 2 ^ 32)) (certs r)) l.
Definition roomyb (g : Globals) : bool :=
  (g_snapshotsStarted g <? 2 ^ 63) &&
  match g_lib g with
  | None => true
  | Some lib =>
      (m_nextSlotId (state lib) <? 2 ^ 30) && (m_nextSession (state lib) <? 2 ^ 63) && (m_nextDerived (state lib) <? 2 ^ 62)
  end.

Definition threadStep (ev : Event) (g : Globals) (t : Thread) : option (Globals * Thread) :=
  let '(mkThread c a p) := t in
  match ev, p with
  | ELock _ e, Locked f => Some (fst (f e g), mkThread c a (snd (f e g)))
  | ESnapshot _ l, AskSnapshot k => if snapshotOkb l then Some (g, mkThread c a (k l)) else None
  | ELogin _ s, AskLogin _ k => Some (g, mkThread c a (k s))
  | EActive _ b, AskLoginActive _ k => Some (g, mkThread c a (k b))
  | EBytes _ res, AskBytes q k => Some (g, mkThread c (Some (q, res)) (k res))
  | _, _ => None
  end.

Definition eventStep (ev : Event) (cfg : Config) : option Config :=
  let '(mkConfig g ts) := cfg in
  match ev with
  | ECall i c => match ts !! i with None => Some (mkConfig g (<[i := mkThread c None (program c)]> ts)) | Some _ => None end
  | EReturn i => match ts !! i with Some (mkThread _ _ (Done _ _)) => Some (mkConfig g (delete i ts)) | _ => None end
  | ELock i _ | ESnapshot i _ | ELogin i _ | EActive i _ | EBytes i _ =>
      match ts !! i with
      | Some t => match threadStep ev g t with Some (g', t') => Some (mkConfig g' (<[i := t']> ts)) | None => None end
      | None => None
      end
  end.

Fixpoint play (evs : list Event) (cfg : Config) : option Config :=
  match evs with
  | [] => Some cfg
  | ev :: evs =>
      match eventStep ev cfg with
      | Some cfg => if roomyb (c_globals cfg) then play evs cfg else None
      | None => None
      end
  end.

Lemma snapshotOkb_ok l : snapshotOkb l = true → snapshotOk l.
Proof.
  unfold snapshotOkb, snapshotOk. intros [H1 H2]%andb_true_iff. split; [lia|]. apply Forall_forall. intros r Hr%list_elem_of_In.
  rewrite forallb_forall in H2. specialize (H2 r Hr). apply Forall_forall. intros c Hc%list_elem_of_In.
  rewrite forallb_forall in H2. specialize (H2 c Hc). bool_hyps. lia.
Qed.

Lemma roomyb_ok g : roomyb g = true → roomy g.
Proof. unfold roomyb, roomy. intros H. bool_hyps. split; [lia|]. destruct (g_lib g); [|done]. bool_hyps. lia. Qed.

Lemma threadStep_ok ev g t g' t' : threadStep ev g t = Some (g', t') → tstep g t g' t'.
Proof.
  destruct t as [c a p]. unfold threadStep. destruct ev, p; try done; intros H; try (injection H as <- <-; constructor).
  - injection H as <- <-. apply t_locked with e. by destruct (f e g).
  - case_match; [|done]. injection H as <- <-. constructor. by apply snapshotOkb_ok.
Qed.

Lemma eventStep_ok ev cfg cfg' : eventStep ev cfg = Some cfg' → cstep cfg cfg'.
Proof.
  destruct cfg as [g ts]. unfold eventStep. destruct ev;
    try (destruct (ts !! i) as [t|] eqn:Ei; [|done]; destruct (threadStep _ g t) as [[g' t']|] eqn:Et; [|done];
         intros [= <-]; eapply c_thread; [done|by eapply threadStep_ok]).
  - case_match; [done|]. intros [= <-]. by constructor.
  - destruct (ts !! i) as [[c a p]|] eqn:Ei; [|done]. destruct p; try done. intros [= <-]. by eapply c_return.
Qed.

Lemma play_reach evs cfg cfg' : creach cfg → play evs cfg = Some cfg' → creach cfg'.
Proof.
  revert cfg. induction evs as [|ev evs IH]; intros cfg Hc; cbn; [by intros [= <-]|].
  destruct (eventStep ev cfg) as [cfg1|] eqn:E; [|done]. destruct (roomyb (c_globals cfg1)) eqn:Er; [|done].
  apply IH. eapply cr_step; [done|by eapply eventStep_ok|by apply roomyb_ok].
Qed.

Definition quiet : Env := mkEnv (λ _ _, mkBytes GeneralError []) (λ _ _ _, Err GeneralError) 0.
Definition signer : CertEntry :=
  mkCert "c" "Ana" "Ana" [1] true true false false false true Key.Ec 256.
Definition reader : ReaderState := mkReader "obj/1" "Reader" true "Ana" "7" [signer].

(** A library with a reader, a session on it and the user logged in; then a second session. *)
Definition setup : list Event :=
  [ECall 0 (Initialize None); ELock 0 quiet; EReturn 0;
   ECall 0 (OpenSession 0 4 true); ELock 0 quiet; ESnapshot 0 [reader]; ELock 0 quiet; ELock 0 quiet; EReturn 0;
   ECall 0 (Login 1 CKU_USER); ELock 0 quiet; ELogin 0 Ok_; ELock 0 quiet; ELock 0 quiet; EReturn 0;
   ECall 0 (OpenSession 0 4 true); ELock 0 quiet; ESnapshot 0 [reader]; ELock 0 quiet; ELock 0 quiet; EReturn 0].

(** A signature asked for on the first session, a key agreement on the second. *)
Definition peer : list Z := 0x04 :: replicate 64 9.
Definition bothAsking : list Event :=
  setup ++
  [ECall 0 (SignInit 1 (Some CKM_ECDSA) 3); ELock 0 quiet; EReturn 0;
   ECall 0 (CSign 1 (replicate 32 7) (Some (Some 64))); ELock 0 quiet;
   ECall 1 (DeriveKey 2 (Some (CKM_ECDH1_DERIVE, Some (mkParams CKD_NULL 0 (Some peer)))) 3 None 0 true); ELock 1 quiet].

Definition played (evs : list Event) : Config := default start (play evs start).

Definition plays (evs : list Event) : bool := match play evs start with Some _ => true | None => false end.

Lemma played_reach evs : plays evs = true → creach (played evs).
Proof.
  unfold played, plays. destruct (play evs start) as [cfg|] eqn:E; [|done]. intros _.
  by apply (play_reach evs start); [constructor|].
Qed.

(** What a run has come to in a thread. *)
Definition requestOf (t : Thread) : option BytesRequest := match t_prog t with AskBytes q _ => Some q | _ => None end.
Definition returned (t : Thread) : option (CK_RV * Out) := match t_prog t with Done rv out => Some (rv, out) | _ => None end.

Lemma thread_at {A} (f : Thread → A) cfg i x : f <$> c_threads cfg !! i = Some x → ∃ t, c_threads cfg !! i = Some t ∧ f t = x.
Proof. intros (t & ? & ->)%fmap_Some. eauto. Qed.

Lemma request_at cfg i c q :
  (λ t, (t_call t, requestOf t)) <$> c_threads cfg !! i = Some (c, Some q) →
  ∃ t k, c_threads cfg !! i = Some t ∧ t_call t = c ∧ t_prog t = AskBytes q k.
Proof.
  intros (t & Ht & [= <- Eq])%thread_at. exists t. unfold requestOf in Eq. destruct (t_prog t); try done. injection Eq as <-. eauto.
Qed.

Lemma return_at cfg i c a r :
  (λ t, (t_call t, t_answer t, returned t)) <$> c_threads cfg !! i = Some (c, a, Some r) →
  ∃ t, c_threads cfg !! i = Some t ∧ t_call t = c ∧ t_answer t = a ∧ t_prog t = Done (fst r) (snd r).
Proof.
  intros (t & Ht & [= <- <- Er])%thread_at. exists t. unfold returned in Er. destruct (t_prog t); try done. by injection Er as <-.
Qed.

(** ** Calls and the agent *)

(** C5: however the application's threads interleave, [C_Finalize] included, a thread
    that is waiting for the agent finds the library still there: the in-flight count is
    at least the number of such threads and never negative, so the library is destroyed
    under none of them. Once no call is under way the count is zero and no session is
    left marked busy, so the library can be finalized and every session used again. *)
Theorem rpc_library_alive (cfg : Config) (Hc : creach cfg) :
  let g := c_globals cfg in
  (∀ i t, c_threads cfg !! i = Some t → asking t = true → is_Some (g_lib g)) ∧
  Z.of_nat (size (filter (λ e, asking (snd e) = true) (c_threads cfg))) ≤ g_rpcInFlight g ≤ Z.of_nat (size (c_threads cfg)) ∧
  (c_threads cfg = ∅ → g_rpcInFlight g = 0 ∧
     ∀ lib h s, g_lib g = Some lib → sessionOf h lib = Some s → rpcInFlight s = false).
Proof.
  destruct (creach_inv cfg Hc) as (_ & holds & HJ & Hdom & Hsafe). cbv zeta. split_and!.
  - intros i t Hi Ha. destruct (safe_asking t i (holds !! i)) as [x Hx]; [by apply Hsafe|done|]. by eapply (j_alive _ _ HJ).
  - rewrite (j_count _ _ HJ), <- !size_dom. apply inj_le, subseteq_size. intros i (t & [Hi Ha]%map_lookup_filter_Some)%elem_of_dom.
    apply elem_of_dom. eapply safe_asking; [by apply Hsafe|done].
  - rewrite (j_count _ _ HJ), <- !size_dom. apply inj_le, subseteq_size. intros i [x Hx]%elem_of_dom. apply elem_of_dom. by eapply Hdom.
  - intros E. assert (holds = ∅) as ->.
    { apply map_empty. intros i. apply eq_None_not_Some. intros [x Hx]. destruct (Hdom i x Hx) as [t Ht]. by rewrite E in Ht. }
    split; [by rewrite (j_count _ _ HJ)|]. intros lib h s El Es. apply not_true_iff_false.
    rewrite (ok_flag _ _ (j_lib _ _ HJ lib El) h s Es). by intros (i & sl & ?).
Qed.

(** C12: no session is ever worked on by two calls at once: whatever runs concurrently,
    two threads that wait for the agent on behalf of a session (a login, a signature, a
    decryption, a key agreement) wait on behalf of different sessions. *)
Theorem session_rpc_exclusive (cfg : Config) (i j : nat) (t u : Thread) (Hc : creach cfg)
    (Hi : c_threads cfg !! i = Some t) (Hj : c_threads cfg !! j = Some u) (Ht : working t = true) (Hu : working u = true) :
  (∃ h, callSession (t_call t) = Some h) ∧ (callSession (t_call t) = callSession (t_call u) ↔ i = j).
Proof.
  destruct (creach_inv cfg Hc) as (_ & holds & HJ & Hdom & Hsafe).
  destruct (safe_working t i _ (Hsafe i t Hi) Ht) as (h & sl & Et & Eh).
  destruct (safe_working u j _ (Hsafe j u Hj) Hu) as (h' & sl' & Eu & Eh'). split; [by eexists|]. split.
  - rewrite Et, Eu. intros [= <-]. destruct (j_alive _ _ HJ i _ Eh) as [lib El]. by eapply (ok_once _ _ (j_lib _ _ HJ lib El)).
  - intros <-. congruence.
Qed.


(** C15: the bytes a call hands its caller are the agent's: they come with [CKR_OK] only,
    they are the whole answer to the request this very call made, they fit the buffer
    the caller named, and an ECDSA signature has the width of one of the three curves. *)
Theorem crypto_output_genuine (cfg : Config) (i : nat) (t : Thread) (rv : CK_RV) (out : Out)
    (Hc : creach cfg) (Hi : c_threads cfg !! i = Some t) (Hd : t_prog t = Done rv out) :
  answerOk (t_call t) (t_answer t) rv out.
Proof.
  destruct (creach_inv cfg Hc) as (_ & holds & HJ & Hdom & Hsafe). specialize (Hsafe i t Hi). rewrite Hd in Hsafe.
  by inversion Hsafe.
Qed.

(** The witnesses: both threads of [bothAsking], then the signature delivered. *)
Example rpc_library_alive_witness :
  size (c_threads (played bothAsking)) = 2%nat ∧ 2 ≤ g_rpcInFlight (c_globals (played bothAsking)) ≤ 2.
Proof.
  split; [by vm_compute|]. assert (plays bothAsking = true) as Hp by by vm_compute.
  destruct (rpc_library_alive (played bothAsking) (played_reach _ Hp)) as (_ & H & _).
  assert (size (filter (λ e, asking (snd e) = true) (c_threads (played bothAsking))) = 2%nat) as E1 by by vm_compute.
  assert (size (c_threads (played bothAsking)) = 2%nat) as E2 by by vm_compute. rewrite E1, E2 in H. exact H.
Defined.

Example session_rpc_exclusive_witness :
  ∃ t u, c_threads (played bothAsking) !! 0%nat = Some t ∧ c_threads (played bothAsking) !! 1%nat = Some u ∧
    callSession (t_call t) ≠ callSession (t_call u).
Proof.
  assert (plays bothAsking = true) as Hp by by vm_compute.
  destruct (thread_at working (played bothAsking) 0 true) as (t & Ht & Hwt); [by vm_compute|].
  destruct (thread_at working (played bothAsking) 1 true) as (u & Hu & Hwu); [by vm_compute|].
  exists t, u. split; [done|]. split; [done|]. intros E. enough (0%nat = 1%nat) by done. revert E.
  by apply (session_rpc_exclusive (played bothAsking) 0 1 t u (played_reach _ Hp)).
Defined.


Definition delivered : list Event := bothAsking ++ [EBytes 0 (mkBytes Ok_ (replicate 64 3)); ELock 0 quiet; ELock 0 quiet].

Example crypto_output_genuine_witness :
  answerOk (CSign 1 (replicate 32 7) (Some (Some 64)))
    (Some (SignRaw "obj/1" "c" RawCrypto.EcdsaSign (replicate 32 7), mkBytes Ok_ (replicate 64 3))) CKR_OK (OBytes (replicate 64 3)).
Proof.
  assert (plays delivered = true) as Hp by by vm_compute.
  destruct (return_at (played delivered) 0 (CSign 1 (replicate 32 7) (Some (Some 64)))
    (Some (SignRaw "obj/1" "c" RawCrypto.EcdsaSign (replicate 32 7), mkBytes Ok_ (replicate 64 3)))
    (CKR_OK, OBytes (replicate 64 3))) as (t & Ht & Ec & Ea & Ep); [by vm_compute|].
  rewrite <- Ec, <- Ea. exact (crypto_output_genuine (played delivered) 0 t _ _ (played_reach _ Hp) Ht Ep).
Defined.

End CryptokiSafety.
