(* ===== verification/CryptokiSecrecy.v ===== *)
(** * The values of protected derived keys stay in the module

    A key agreed on with [CKA_SENSITIVE] set, or [CKA_EXTRACTABLE] not, may not leave the
    module. Two runs of the same calls that differ only in the secrets the agent answers
    such key agreements with are compared step by step ([psim], [csim]): no interleaving
    of calls, with whatever arguments, shows the application or the agent a difference. *)
From Stdlib Require Import Ascii.
From stdpp Require Import sorting.
From S2P Require Import Prelude Vocabulary Text Der Token DerivedKeys Sessions RawCrypto Cryptoki CryptokiSafety.
Import Vocabulary Text Der Ck Token DerivedKeys Sessions Cryptoki CryptokiSafety.
Local Open Scope Z_scope.

Module CryptokiSecrecy.

(** ** States that differ in protected values *)

Definition protected (t : DerivedKeyTemplate) : bool := t_sensitive t || negb (t_extractable t).

(** Two values the module may not tell apart. *)
Definition alike (hidden : bool) (v v' : list Z) : Prop := if hidden then length v = length v' else v = v'.

Definition keySim (k k' : DerivedKey) : Prop :=
  k_slot k = k_slot k' ∧ k_creator k = k_creator k' ∧ k_attributes k = k_attributes k' ∧
  alike (protected (k_attributes k)) (k_value k) (k_value k').
Definition keysSim (m m' : gmap Z DerivedKey) : Prop := ∀ h, option_Forall2 keySim (m !! h) (m' !! h).

Definition stSim (st st' : SessionState) : Prop := ∃ d, st' = setDerived d st ∧ keysSim (m_derived st) d.

Definition other (d : gmap Z DerivedKey) (lib : Library) : Library := setState (setDerived d (state lib)) lib.
Definition gSim (g g' : Globals) : Prop :=
  ∃ d, g' = setLib (other d <$> g_lib g) g ∧ ∀ lib, g_lib g = Some lib → keysSim (m_derived (state lib)) d.

Lemma keysSim_filter (P P' : Z * DerivedKey → Prop) `{!∀ x, Decision (P x), !∀ x, Decision (P' x)} m m' :
  (∀ h k k', keySim k k' → P (h, k) ↔ P' (h, k')) → keysSim m m' → keysSim (filter P m) (filter P' m').
Proof.
  intros HP Hm h. specialize (Hm h). destruct (m !! h) as [k|] eqn:E, (m' !! h) as [k'|] eqn:E'; try by inversion Hm.
  - inversion_clear Hm as [?? Hk|]. destruct (decide (P (h, k))) as [Hp|Hp].
    + rewrite (proj2 (map_lookup_filter_Some P m h k)) by done.
      rewrite (proj2 (map_lookup_filter_Some P' m' h k')) by (split; [done|by apply (HP h k k' Hk)]). by constructor.
    + rewrite (proj2 (map_lookup_filter_None P m h)) by (right; intros x; congruence).
      rewrite (proj2 (map_lookup_filter_None P' m' h)); [constructor|]. right. intros x Hx Hp'. apply Hp, (HP h k k' Hk). congruence.
  - rewrite (proj2 (map_lookup_filter_None P m h)) by auto. rewrite (proj2 (map_lookup_filter_None P' m' h)) by auto. constructor.
Qed.

Lemma keysSim_insert h k k' m m' : keySim k k' → keysSim m m' → keysSim (<[h := k]> m) (<[h := k']> m').
Proof.
  intros Hk Hm h'. destruct (decide (h = h')) as [<-|]; [rewrite !lookup_insert_eq; by constructor|by rewrite !lookup_insert_ne].
Qed.

Lemma keysSim_delete h m m' : keysSim m m' → keysSim (delete h m) (delete h m').
Proof.
  intros Hm h'. destruct (decide (h = h')) as [<-|]; [rewrite !lookup_delete_eq; constructor|by rewrite !lookup_delete_ne].
Qed.

Lemma keysSim_keys m m' : keysSim m m' → sortedKeys m = sortedKeys m'.
Proof.
  intros Hm. apply (Sorted_unique (≤)); [apply sortedKeys_sorted..|].
  apply NoDup_Permutation; [apply sortedKeys_sorted..|]. intros h. rewrite !elem_of_sortedKeys. specialize (Hm h).
  inversion Hm; by rewrite ?is_Some_alt.
Qed.

(** ** Reading such states *)

Lemma derivedKey_sim sess h st st' : stSim st st' → option_Forall2 keySim (derivedKey sess h st) (derivedKey sess h st').
Proof.
  intros (d & -> & Hd). unfold derivedKey. cbn [setDerived m_sessions m_derived]. specialize (Hd h).
  destruct (m_sessions st !! sess) as [s|]; [|constructor]. inversion Hd as [k k' Hk|]; [|constructor].
  change (isLoggedIn (slot s) (setDerived d st)) with (isLoggedIn (slot s) st).
  destruct Hk as (Hs & Hk). rewrite <- Hs. case_match; [constructor|]. constructor. by split.
Qed.

Lemma findMatches_sim sess s tmpl n st st' : stSim st st' → findMatches sess s tmpl n st = findMatches sess s tmpl n st'.
Proof.
  intros Hst. assert (Hd := λ h, derivedKey_sim sess h st st' Hst). destruct Hst as (d & -> & Hk). unfold findMatches.
  change (slotById s (setDerived d st)) with (slotById s st). destruct (slotById s st) as [sl|]; [|done]. f_equal.
  cbn [setDerived m_derived]. rewrite <- (keysSim_keys _ _ Hk). apply List.filter_ext. intros h. specialize (Hd h).
  inversion Hd as [k k' (_ & _ & Ha & _)|]; [|done]. unfold derivedKeyMatches, derivedKeyMatch. by rewrite Ha.
Qed.

Lemma serve_sim k k' attr : keySim k k' → serveDerivedKeyAttribute k attr = serveDerivedKeyAttribute k' attr.
Proof.
  destruct k as [s c t v], k' as [s' c' t' v']. intros (Hs & Hc & Ht & Hv). cbn in *. subst s' c' t'.
  unfold alike in Hv. destruct (protected t) eqn:Ep; [|by subst].
  apply (serve_hides (mkKey s c t v') v attr); [done|by cbn].
Qed.

(** ** Operations on such states *)

Definition opSim (op op' : Op) : Prop :=
  match op, op' with OAddDerivedKey k, OAddDerivedKey k' => keySim k k' | _, _ => op = op' end.

Lemma endLogin_sim s st st' : stSim st st' → stSim (endLogin s st) (endLogin s st').
Proof.
  intros (d & -> & Hd). exists (filter (λ e, k_slot (snd e) ≠ s) d). split.
  - unfold endLogin. cbn [setDerived m_logins]. by destruct (m_logins st !! s).
  - destruct (endLogin_frame s st) as (_ & _ & _ & _ & _ & _ & _ & ->). apply keysSim_filter; [|done].
    intros h k k' (Hs & _). cbn. by rewrite Hs.
Qed.

Lemma foldl_sim {A} (f : SessionState → A → SessionState) l st st' :
  (∀ st st' x, stSim st st' → stSim (f st x) (f st' x)) → stSim st st' → stSim (foldl f st l) (foldl f st' l).
Proof. intros Hf. revert st st'. induction l as [|x l IH]; intros st st' Hst; cbn; [done|]. apply IH, Hf, Hst. Qed.

Lemma placeSlots_sim l : ∀ i d st, placeSlots (setDerived d st) i l = setDerived d (placeSlots st i l).
Proof.
  induction l as [|s l IH]; intros i d st; cbn [placeSlots]; [done|]. rewrite <- IH. f_equal. destruct st. cbn. by case_match.
Qed.

Lemma placeSlots_derived l : ∀ i st, m_derived (placeSlots st i l) = m_derived st.
Proof. induction l as [|s l IH]; intros i st; cbn [placeSlots]; [done|]. rewrite IH. destruct st. cbn. by case_match. Qed.

Lemma setModel_sim model st st' : stSim st st' → stSim (setModel model st) (setModel model st').
Proof.
  intros (d & -> & Hd). unfold setModel.
  change (map (λ id, (id, match slotById id (setDerived d st) with Some s => shownSerial s | None => "" end)) (sortedKeys (m_slotIndex (setDerived d st))))
    with (map (λ id, (id, match slotById id st with Some s => shownSerial s | None => "" end)) (sortedKeys (m_slotIndex st))).
  apply foldl_sim.
  - intros s1 s2 [id serial] Hs. cbn [fst snd]. assert (slotById id s2 = slotById id s1) as -> by by destruct Hs as (? & -> & _).
    case_match; [by apply endLogin_sim|done].
  - match goal with |- stSim ?a _ => exists d; split; [|rewrite placeSlots_derived; exact Hd] end. by rewrite <- placeSlots_sim.
Qed.

Lemma run_sim op op' st st' : opSim op op' → stSim st st' → stSim (run op st) (run op' st').
Proof.
  intros Hop Hst. destruct op, op'; try done; cbn in Hop; simplify_eq; cbn [run]; try (by apply endLogin_sim); try (by apply setModel_sim);
    destruct Hst as (d & -> & Hd).
  - by exists d.
  - unfold closeSession. cbn [destroyDerivedKeysOfSession setDerived m_sessions m_derived].
    assert (Hf : keysSim (filter (λ e, k_creator (snd e) ≠ h0) (m_derived st)) (filter (λ e, k_creator (snd e) ≠ h0) d)).
    { apply keysSim_filter; [|done]. intros h k k' (_ & Hc & _). cbn. by rewrite Hc. }
    destruct (m_sessions st !! h0) as [se|]; cbn [snd]; [|by eexists].
    match goal with |- stSim (if ?a then _ else ?x) (if ?b then _ else ?y) =>
      change b with a; assert (stSim x y) as Hxy; [by eexists|destruct a; [by apply endLogin_sim|done]] end.
  - unfold closeAllSessions. destruct (endLogin_sim s0 st (setDerived d st)) as (d' & E & Hd'); [by eexists|].
    rewrite E. by exists d'.
  - by exists d.
  - unfold markLoginChecked. cbn [setDerived m_logins]. destruct (m_logins st !! s0); by exists d.
  - cbn. specialize (Hd (Z.lor kDerivedHandleBit (m_nextDerived st))) as Hh. eexists. split; [reflexivity|]. cbn.
    inversion Hh; [done|]. by apply keysSim_insert.
  - exists (delete h0 d). split; [done|]. by apply keysSim_delete.
  - by exists d.
Qed.

(** ** Programs that cannot tell *)

(** The answers that may differ: those to a key agreement for a protected key. *)
Definition hiddenCall (c : Call) : bool :=
  match c with
  | DeriveKey _ _ _ tmpl count _ => match parseDerivedKeyTemplate tmpl count with Ok t => protected t | Err _ => false end
  | _ => false
  end.
Definition twin (c : Call) (res res' : BytesResult) : Prop :=
  status res = status res' ∧ alike (hiddenCall c) (bytes res) (bytes res').

Inductive psim (c : Call) : Prog → Prog → Prop :=
| ps_done rv out : psim c (Done rv out) (Done rv out)
| ps_locked f f' :
    (∀ e g g', gSim g g' → gSim (fst (f e g)) (fst (f' e g')) ∧ psim c (snd (f e g)) (snd (f' e g'))) →
    psim c (Locked f) (Locked f')
| ps_snapshot k k' : (∀ l, psim c (k l) (k' l)) → psim c (AskSnapshot k) (AskSnapshot k')
| ps_login r k k' : (∀ s, psim c (k s) (k' s)) → psim c (AskLogin r k) (AskLogin r k')
| ps_active r k k' : (∀ b, psim c (k b) (k' b)) → psim c (AskLoginActive r k) (AskLoginActive r k')
| ps_bytes q k k' : (∀ res res', twin c res res' → psim c (k res) (k' res')) → psim c (AskBytes q k) (AskBytes q k').

Definition ssec (c : Call) (r r' : Globals * Prog) : Prop := gSim (fst r) (fst r') ∧ psim c (snd r) (snd r').

Lemma gSim_cases g g' : gSim g g' →
  (g_lib g = None ∧ g_lib g' = None) ∨
  (∃ lib d, g_lib g = Some lib ∧ g_lib g' = Some (other d lib) ∧ stSim (state lib) (setDerived d (state lib))).
Proof.
  intros (d & -> & Hd). destruct (g_lib g) as [lib|] eqn:E; [right|left; by cbn].
  exists lib, d. split_and!; [done|done|]. exists d. auto.
Qed.

Lemma gSim_lib g g' lib lib' :
  gSim g g' → stSim (state lib) (state lib') → certDers lib = certDers lib' → logouts lib = logouts lib' →
  gSim (setLib (Some lib) g) (setLib (Some lib') g').
Proof.
  intros (d & -> & _) (d' & E & Hd') Hc Hl. exists d'. cbn. split; [|by intros ? [= <-]].
  destruct lib as [st ds ls], lib' as [st' ds' ls']. cbn in *. by subst.
Qed.

Lemma gSim_counts g g' : gSim g g' →
  g_rpcInFlight g = g_rpcInFlight g' ∧ g_snapshotsStarted g = g_snapshotsStarted g' ∧ g_snapshotPublished g = g_snapshotPublished g'.
Proof. by intros (d & -> & _). Qed.

Lemma gSim_inFlight g g' n : gSim g g' → gSim (setInFlight n g) (setInFlight n g').
Proof. intros (d & -> & Hd). exists d. by split. Qed.

Lemma gSim_reset g g' : gSim g g' → gSim (setLib None g) (setLib None g').
Proof. intros (d & -> & Hd). exists d. by split. Qed.

Lemma modifySession_sim h f d st : stSim st (setDerived d st) → stSim (modifySession h f st) (modifySession h f (setDerived d st)).
Proof.
  intros Hst. unfold modifySession. change (session h (setDerived d st)) with (session h st). destruct (session h st); [|done].
  match goal with |- stSim (updateSession h ?a ?b ?c ?e st) _ => by apply (run_sim (OSession h a b c e) (OSession h a b c e)) end.
Qed.

Lemma gSim_onSession h f g g' :
  gSim g g' →
  gSim (match g_lib g with Some lib => setLib (Some (onSession h f lib)) g | None => g end)
       (match g_lib g' with Some lib => setLib (Some (onSession h f lib)) g' | None => g' end).
Proof.
  intros Hg. destruct (gSim_cases g g' Hg) as [[E E']|(lib & d & E & E' & Hd)]; rewrite E, E'; [done|].
  apply gSim_lib; [done|by apply modifySession_sim|done|done].
Qed.

Lemma gSim_arm h g g' : gSim g g' → gSim (arm h g) (arm h g').
Proof.
  intros Hg. unfold arm. destruct h as [h|].
  - pose proof (gSim_onSession h (withRpc true) g g' Hg) as Hg'. destruct (gSim_counts _ _ Hg') as (-> & _). by apply gSim_inFlight.
  - destruct (gSim_counts _ _ Hg) as (-> & _). by apply gSim_inFlight.
Qed.

Section Programs.
Context (c : Call).

Lemma ps_section f f' : (∀ e g g', gSim g g' → ssec c (f e g) (f' e g')) → psim c (Locked f) (Locked f').
Proof. apply ps_locked. Qed.
Lemma ssec_keep g g' p p' : gSim g g' → psim c p p' → ssec c (g, p) (g', p').
Proof. by split. Qed.
Lemma ssec_done g g' rv out : gSim g g' → ssec c (g, Done rv out) (g', Done rv out).
Proof. intros. apply ssec_keep; [done|constructor]. Qed.
Lemma ssec_fails g g' rv : gSim g g' → ssec c (fails rv g) (fails rv g').
Proof. apply ssec_done. Qed.

Lemma ps_disarm h p p' : psim c p p' → psim c (disarm h p) (disarm h p').
Proof.
  intros Hp. apply ps_section. intros e g g' Hg. apply ssec_keep; [|done]. destruct h as [h|].
  - pose proof (gSim_onSession h (withRpc false) g g' Hg) as Hg'. destruct (gSim_counts _ _ Hg') as (-> & _). by apply gSim_inFlight.
  - destruct (gSim_counts _ _ Hg) as (-> & _). by apply gSim_inFlight.
Qed.

Lemma ps_leave h rv out : psim c (leave h rv out) (leave h rv out).
Proof. apply ps_disarm. constructor. Qed.

Lemma ps_clearing h f p p' : psim c p p' → psim c (clearing h f p) (clearing h f p').
Proof.
  intros Hp. apply ps_section. intros e g g' Hg. pose proof (gSim_onSession h f g g' Hg) as Hg'.
  destruct (gSim_cases g g' Hg) as [[E E']|(lib & d & E & E' & Hd)]; rewrite E, E' in *; by apply ssec_keep.
Qed.

Lemma ps_dropLogin s h p p' : psim c p p' → psim c (dropLoginOnLapsedLease s h p) (dropLoginOnLapsedLease s h p').
Proof.
  intros Hp. unfold dropLoginOnLapsedLease. case_decide; [|done]. apply ps_section. intros e g g' Hg.
  destruct (gSim_cases g g' Hg) as [[E E']|(lib & d & E & E' & Hd)]; rewrite E, E'; [by apply ssec_keep|].
  change (sessionOf h (other d lib)) with (sessionOf h lib). destruct (sessionOf h lib); [|by apply ssec_keep].
  apply ssec_keep; [|done]. apply gSim_lib; [done|by apply endLogin_sim|done|done].
Qed.

Lemma ps_deliver h f b l : psim c (deliver h f b l) (deliver h f b l).
Proof. unfold deliver. repeat case_match; try apply ps_leave. apply ps_clearing, ps_leave. Qed.

Lemma ssec_refresh k k' g g' :
  (∀ e g g' lib d, gSim g g' → g_lib g = Some lib → g_lib g' = Some (other d lib) → stSim (state lib) (setDerived d (state lib)) →
     ssec c (k (Some lib) e g) (k' (Some (other d lib)) e g')) →
  (∀ e g g', gSim g g' → ssec c (k None e g) (k' None e g')) →
  gSim g g' → ssec c (refreshModel k g) (refreshModel k' g').
Proof.
  intros Hk Hn Hg. destruct (gSim_counts _ _ Hg) as (_ & Es & _). unfold refreshModel. rewrite <- Es.
  apply ssec_keep; [apply gSim_arm; destruct Hg as (d & -> & Hd); exists d; by split|].
  constructor. intros l. apply ps_disarm, ps_section. clear Hg. intros e g1 g1' Hg. destruct (gSim_counts _ _ Hg) as (_ & _ & Ep).
  destruct (gSim_cases _ _ Hg) as [[E E']|(lib & d & E & E' & Hd)]; rewrite E, E'; [by apply Hn|]. rewrite <- Ep.
  destruct (_ <? _); [|by apply Hk].
  destruct (setModel_sim (build l) _ _ Hd) as (d' & Ed & Hd'). 
  assert (setState (setModel (build l) (state (other d lib))) (other d lib) = other d' (setState (setModel (build l) (state lib)) lib)) as ->.
  { unfold other, setState. cbn. by rewrite Ed. }
  apply Hk; [|done|done|by exists d']. destruct Hg as (d0 & -> & _). exists d'. split; [done|]. by intros ? [= <-].
Qed.

End Programs.

(** What is read of the library, but for derived keys, is the same. *)
Lemma state_other d lib : state (other d lib) = setDerived d (state lib).
Proof. done. Qed.
Lemma sessionOf_other h d lib : sessionOf h (other d lib) = sessionOf h lib.
Proof. done. Qed.
Lemma certDers_other d lib : certDers (other d lib) = certDers lib.
Proof. done. Qed.
Lemma slotById_derived i d st : slotById i (setDerived d st) = slotById i st.
Proof. done. Qed.
Lemma slotIds_derived b d st : slotIds b (setDerived d st) = slotIds b st.
Proof. done. Qed.
Lemma slotHasSessions_derived s d st : slotHasSessions s (setDerived d st) = slotHasSessions s st.
Proof. done. Qed.
Lemma isLoggedIn_derived s d st : isLoggedIn s (setDerived d st) = isLoggedIn s st.
Proof. done. Qed.
Lemma loginGeneration_derived s d st : loginGeneration s (setDerived d st) = loginGeneration s st.
Proof. done. Qed.
Lemma loginCheckDue_derived s n d st : loginCheckDue s n (setDerived d st) = loginCheckDue s n st.
Proof. done. Qed.
Lemma resolveObject_derived s h d st : resolveObject s h (setDerived d st) = resolveObject s h st.
Proof. done. Qed.
Lemma privateKeyOf_derived s h d st : privateKeyOf s h (setDerived d st) = privateKeyOf s h st.
Proof. done. Qed.

Create Rewrite HintDb reads.
Hint Rewrite state_other sessionOf_other certDers_other slotById_derived slotIds_derived slotHasSessions_derived isLoggedIn_derived
  loginGeneration_derived loginCheckDue_derived resolveObject_derived privateKeyOf_derived : reads.

(** Into a critical section of a call, with the library there. *)
Ltac enter :=
  apply ps_section; intros e g g' Hg; cbn beta;
  destruct (gSim_cases g g' Hg) as [[E E']|(lib & d & E & E' & Hd)]; rewrite E, E'; [try by apply ssec_fails|];
  autorewrite with reads.
(** The library changed by an operation of its state. *)
Ltac changed op :=
  apply ssec_done, gSim_lib; [done|by apply (run_sim op op)|done|done].
Ltac refuse := repeat (case_match; autorewrite with reads; try (by apply ssec_fails)).

Lemma ps_Initialize args : psim (Initialize args) (C_Initialize args) (C_Initialize args).
Proof.
  enter; [|by apply ssec_fails]. assert (gSim (setLib (Some (mkLibrary emptyState ∅ [])) g) (setLib (Some (mkLibrary emptyState ∅ [])) g')).
  { apply gSim_lib; [done| |done|done]. exists ∅. split; [done|]. intros h. cbn. rewrite lookup_empty. constructor. }
  refuse; by apply ssec_done.
Qed.

Lemma ps_Finalize r : psim (Finalize r) (C_Finalize r) (C_Finalize r).
Proof.
  enter. destruct (gSim_counts g g' Hg) as (<- & _). refuse; [by apply ssec_done, gSim_reset|].
  apply ssec_keep; [done|]. apply ps_section. clear dependent g g' lib e. intros e g g' Hg. destruct (gSim_counts g g' Hg) as (<- & _).
  refuse. by apply ssec_done, gSim_reset.
Qed.

Lemma ssec_giveList c b l g g' : gSim g g' → ssec c (giveList b l g) (giveList b l g').
Proof. intros. unfold giveList. repeat case_match; by apply ssec_done. Qed.

Lemma ps_GetSlotList p n : psim (GetSlotList p n) (C_GetSlotList p n) (C_GetSlotList p n).
Proof.
  enter. destruct n as [b|]; [|by apply ssec_fails]. apply ssec_refresh; [|intros; by apply ssec_fails|done].
  intros. autorewrite with reads. by apply ssec_giveList.
Qed.

Lemma ps_onSlot c b s k : (∀ sl g g', gSim g g' → ssec c (k sl g) (k sl g')) → psim c (onSlot b s k) (onSlot b s k).
Proof.
  intros Hk. enter. refuse. apply ssec_refresh; [|intros; by apply ssec_fails|done]. intros. autorewrite with reads. refuse. by apply Hk.
Qed.

Lemma ps_OpenSession s fl b : psim (OpenSession s fl b) (C_OpenSession s fl b) (C_OpenSession s fl b).
Proof.
  enter. refuse. apply ssec_refresh; [|intros; by apply ssec_fails|done]. intros. autorewrite with reads. unfold openSession.
  cbv beta iota zeta. refuse. changed (OOpenSession s fl).
Qed.

Lemma keySim_refl k : keySim k k.
Proof. split_and!; try done. unfold alike. by case_match. Qed.

Lemma other_of lib lib' : stSim (state lib) (state lib') → certDers lib = certDers lib' → logouts lib = logouts lib' → ∃ d, lib' = other d lib.
Proof. intros (d & E & _) ??. exists d. destruct lib, lib'. cbn in *. by subst. Qed.

Lemma ps_sessionInfo c h s gen a gd : psim c (sessionInfo h s gen a gd) (sessionInfo h s gen a gd).
Proof.
  assert (Hend : ∀ rv out, psim c (if gd then disarm None (Done rv out) else Done rv out) (if gd then disarm None (Done rv out) else Done rv out)).
  { intros. destruct gd; [apply ps_disarm|]; constructor. }
  unfold sessionInfo. enter; [by apply ssec_keep|].
  match goal with |- context [setState (endLogin s (state lib)) lib] => idtac end.
  set (b := bool_decide (a = Some false) && isLoggedIn s (state lib) && (loginGeneration s (state lib) =? gen)).
  set (l := if b then setState (endLogin s (state lib)) lib else lib).
  set (l' := if b then setState (endLogin s (setDerived d (state lib))) (other d lib) else other d lib).
  assert (Hst : stSim (state l) (state l')) by (subst l l'; destruct b; [by apply endLogin_sim|done]).
  assert (Hg' : gSim (setLib (Some l) g) (setLib (Some l') g')) by (apply gSim_lib; [done|done|subst l l'; by destruct b..]).
  destruct (other_of l l' Hst) as (d' & El); [subst l l'; by destruct b..|]. cbv zeta. rewrite El in *. autorewrite with reads.
  destruct (sessionOf h l); by apply ssec_keep.
Qed.

Lemma ps_GetSessionInfo h b : psim (GetSessionInfo h b) (C_GetSessionInfo h b) (C_GetSessionInfo h b).
Proof.
  enter. refuse; try (apply ssec_keep; [done|apply ps_sessionInfo]);
    (apply ssec_keep; [apply gSim_arm, gSim_lib; [done| |done|done]|]).
  - by apply (run_sim (OMarkLoginChecked (slot s) (now e)) (OMarkLoginChecked (slot s) (now e))).
  - apply ps_sessionInfo.
  - by apply (run_sim (OMarkLoginChecked (slot s) (now e)) (OMarkLoginChecked (slot s) (now e))).
  - constructor. intros a. apply ps_sessionInfo.
Qed.

Lemma ps_Login h u : psim (Login h u) (C_Login h u) (C_Login h u).
Proof.
  enter. refuse. apply ssec_keep; [by apply gSim_arm|]. constructor. intros res. apply ps_section. clear dependent g g' lib e.
  intros e g g' Hg. apply ssec_keep; [|apply ps_disarm; constructor].
  destruct (gSim_cases g g' Hg) as [[E E']|(lib & d' & E & E' & Hd)]; rewrite E, E'; [done|]. autorewrite with reads.
  case_decide; [|done]. destruct (sessionOf h lib) as [s'|]; [|done].
  apply gSim_lib; [done| |done|done]. by apply (run_sim (OSetLoggedIn (slot s') (now e)) (OSetLoggedIn (slot s') (now e))).
Qed.

Lemma ps_DestroyObject h o : psim (DestroyObject h o) (C_DestroyObject h o) (C_DestroyObject h o).
Proof.
  enter. destruct (sessionOf h lib) as [s|]; [|by apply ssec_fails]. destruct (isDerivedHandle o).
  - pose proof (derivedKey_sim h o _ _ Hd) as Hk. inversion Hk; [|by apply ssec_fails]. changed (ODestroyDerivedKey o).
  - autorewrite with reads. refuse.
Qed.

(** A library with an operation applied on both sides, and the log-out that may follow. *)
Lemma run_other op d lib :
  stSim (state lib) (setDerived d (state lib)) →
  ∃ d', setState (run op (setDerived d (state lib))) (other d lib) = other d' (setState (run op (state lib)) lib) ∧
    stSim (run op (state lib)) (setDerived d' (run op (state lib))).
Proof.
  intros Hd. destruct (run_sim op op _ _ ltac:(by destruct op; cbn; auto using keySim_refl) Hd) as (d' & E & Hd'). exists d'. rewrite E.
  split; [done|by exists d'].
Qed.

Lemma ps_closing_calls h s :
  psim (CloseSession h) (C_CloseSession h) (C_CloseSession h) ∧
  psim (CloseAllSessions s) (C_CloseAllSessions s) (C_CloseAllSessions s) ∧ psim (Logout h) (C_Logout h) (C_Logout h).
Proof.
  split_and!; enter.
  - destruct (sessionOf h lib) as [se|]; [|by apply ssec_fails]. destruct (run_other (OCloseSession h) d lib Hd) as (d' & E1 & Hd').
    cbn [run] in E1, Hd'. rewrite E1. cbv zeta. autorewrite with reads. apply ssec_done, gSim_lib; [done|..]; by repeat case_match.
  - destruct (run_other (OCloseAllSessions s) d lib Hd) as (d' & E1 & Hd').
    cbn [run] in E1, Hd'. rewrite E1. cbv zeta. autorewrite with reads. apply ssec_done, gSim_lib; [done|..]; by repeat case_match.
  - destruct (sessionOf h lib) as [se|]; [|by apply ssec_fails]. autorewrite with reads.
    apply ssec_done, gSim_lib; [done|..]; repeat case_match; try done; by apply endLogin_sim.
Qed.

Lemma serveAll_ext {A} (f f' : CK_ATTRIBUTE → A → CK_RV * CK_ATTRIBUTE * A) l rv a :
  (∀ x a, f x a = f' x a) → serveAll f l rv a = serveAll f' l rv a.
Proof.
  intros Hf. revert rv a. induction l as [|x l IH]; intros rv a; cbn [serveAll]; [done|]. rewrite Hf.
  destruct (f' x a) as [[rv' x'] a']. by rewrite IH.
Qed.

Lemma ps_GetAttributeValue h o t n : psim (GetAttributeValue h o t n) (C_GetAttributeValue h o t n) (C_GetAttributeValue h o t n).
Proof.
  enter. destruct t as [attrs|]; [|by apply ssec_fails]. destruct (sessionOf h lib) as [s|]; [|by apply ssec_fails].
  autorewrite with reads. destruct (slotById (slot s) (state lib)) as [sl|]; [|by apply ssec_fails]. cbv zeta.
  destruct (isDerivedHandle o).
  - pose proof (derivedKey_sim h o _ _ Hd) as Hk. inversion Hk as [k k' Hkk E1 E2|]; [|by apply ssec_fails].
    rewrite (serveAll_ext (λ a u, (serveDerivedKeyAttribute k' a, u)) (λ a u, (serveDerivedKeyAttribute k a, u)))
      by (intros; by rewrite (serve_sim k k')).
    match goal with |- context [serveAll ?f ?l ?rv ?a] => destruct (serveAll f l rv a) as [[overall served] u] end. by apply ssec_done.
  - autorewrite with reads. destruct (resolveObject (slot s) o (state lib)) as [obj|]; [|by apply ssec_fails].
    match goal with |- context [serveAll ?f ?l ?rv ?a] => destruct (serveAll f l rv a) as [[overall served] ders] end.
    by apply ssec_done, gSim_lib.
Qed.

(** A change of a session's cursors on both sides. *)
Lemma ssec_session c h f d lib lib1 lib1' g g' rv out :
  gSim g g' → stSim (state lib) (setDerived d (state lib)) → state lib1 = modifySession h f (state lib) →
  state lib1' = modifySession h f (setDerived d (state lib)) → certDers lib1 = certDers lib1' → logouts lib1 = logouts lib1' →
  ssec c (setLib (Some lib1) g, Done rv out) (setLib (Some lib1') g', Done rv out).
Proof. intros Hg Hd E1 E2 ??. apply ssec_done, gSim_lib; [done| |done|done]. rewrite E1, E2. by apply modifySession_sim. Qed.

Lemma ps_find_calls h t n b :
  psim (FindObjectsInit h t n) (C_FindObjectsInit h t n) (C_FindObjectsInit h t n) ∧
  psim (FindObjects h b n) (C_FindObjects h b n) (C_FindObjects h b n) ∧
  psim (FindObjectsFinal h) (C_FindObjectsFinal h) (C_FindObjectsFinal h).
Proof.
  split_and!; enter.
  - destruct (sessionOf h lib) as [s|]; [|by apply ssec_fails]. destruct (find_active (find s)); [by apply ssec_fails|].
    cbv zeta. autorewrite with reads. rewrite <- (findMatches_sim h (slot s) t n _ _ Hd).
    change (λ o, if isDerivedHandle o then None else resolveObject (slot s) o (setDerived d (state lib)))
      with (λ o, if isDerivedHandle o then None else resolveObject (slot s) o (state lib)).
    match goal with |- ssec _ (let '(_, _) := ?x in _) _ => destruct x as [matches ders] end.
    by eapply ssec_session.
  - refuse. by eapply ssec_session.
  - refuse. by eapply ssec_session.
Qed.

Lemma ps_cursor_calls h m k p pd :
  psim (DecryptInit h m k) (C_DecryptInit h m k) (C_DecryptInit h m k) ∧
  psim (DecryptUpdate h pd) (C_DecryptUpdate h pd) (C_DecryptUpdate h pd) ∧
  psim (SignInit h m k) (C_SignInit h m k) (C_SignInit h m k) ∧ psim (SignUpdate h p) (C_SignUpdate h p) (C_SignUpdate h p).
Proof. split_and!; enter; refuse; by eapply ssec_session. Qed.

Lemma ps_doDecrypt c h i o : hiddenCall c = false → psim c (doDecrypt h i o) (doDecrypt h i o).
Proof.
  intros Hc. unfold doDecrypt. destruct o as [b|]; [|constructor]. enter. destruct (sessionOf h lib) as [s|]; [|by apply ssec_fails]. cbv zeta.
  destruct (negb (decrypt_active _)); [by apply ssec_fails|]. destruct (rpcInFlight s); [by apply ssec_fails|].
  apply ssec_keep; [by apply gSim_arm|]. case_match; [apply ps_leave|]. constructor. intros [s1 l] [s2 l'] [Hs Hl].
  cbn in Hs, Hl. rewrite Hc in Hl. cbn in Hl. subst s2 l'. cbn. case_decide; [apply ps_deliver|].
  apply ps_clearing, ps_dropLogin, ps_leave.
Qed.

Lemma ps_doSign c h i o : hiddenCall c = false → psim c (doSign h i o) (doSign h i o).
Proof.
  intros Hc. unfold doSign. destruct o as [b|]; [|constructor]. enter. destruct (sessionOf h lib) as [s|]; [|by apply ssec_fails]. cbv zeta.
  destruct (negb (sign_active _)); [by apply ssec_fails|]. destruct (rpcInFlight s); [by apply ssec_fails|].
  apply ssec_keep; [by apply gSim_arm|]. case_match; [apply ps_clearing, ps_leave|]. case_match; [apply ps_leave|].
  constructor. intros [s1 l] [s2 l'] [Hs Hl]. cbn in Hs, Hl. rewrite Hc in Hl. cbn in Hl. subst s2 l'. cbn [status bytes].
  case_match; [apply ps_clearing, ps_dropLogin, ps_leave|]. case_match; [apply ps_clearing, ps_leave|apply ps_deliver].
Qed.

(** The value picked out of two secrets of one length. *)
Lemma derivedKeyValue_sim z z' t :
  length z = length z' →
  match derivedKeyValue z t, derivedKeyValue z' t with
  | Ok v, Ok v' => length v = length v'
  | Err rv, Err rv' => rv = rv'
  | _, _ => False
  end.
Proof.
  intros Hl. unfold derivedKeyValue. rewrite Hl. repeat case_match; simplify_eq; try done. rewrite !length_drop. lia.
Qed.

Lemma ps_keepDerivedKey c h s serial t v v' :
  alike (protected t) v v' → psim c (keepDerivedKey h s serial t v) (keepDerivedKey h s serial t v').
Proof.
  intros Hv. assert (Hend : ∀ g g' rv, gSim g g' → ssec c (g, leave h rv ONothing) (g', leave h rv ONothing)).
  { intros. apply ssec_keep; [done|apply ps_leave]. }
  unfold keepDerivedKey. enter; [by apply Hend|]. destruct (sessionOf h lib) as [se|]; [|by apply Hend]. autorewrite with reads.
  destruct (match slotById _ _ with Some _ => _ | None => _ end); [by apply Hend|].
  destruct (negb (isLoggedIn (slot se) (state lib))); [by apply Hend|].
  pose proof (run_sim (OAddDerivedKey (mkKey s h t v)) (OAddDerivedKey (mkKey s h t v')) _ _ ltac:(by split_and!) Hd) as Hst.
  cbn [run] in Hst. unfold addDerivedKey in *. cbn [snd] in Hst. cbn [setDerived m_nextDerived] in *.
  apply ssec_keep; [|apply ps_leave]. by apply gSim_lib.
Qed.

Lemma ps_DeriveKey h m k t n b : psim (DeriveKey h m k t n b) (C_DeriveKey h m k t n b) (C_DeriveKey h m k t n b).
Proof.
  enter. destruct m as [[mech parameter]|]; [|by apply ssec_fails]. destruct (negb b); [by apply ssec_fails|].
  destruct (sessionOf h lib) as [s|]; [|by apply ssec_fails]. destruct (rpcInFlight s); [by apply ssec_fails|].
  autorewrite with reads. destruct (slotById (slot s) (state lib)) as [sl|]; [|by apply ssec_fails].
  destruct (_ || _); [by apply ssec_fails|]. autorewrite with reads. destruct (negb _); [by apply ssec_fails|].
  destruct parameter as [params|]; [|by apply ssec_fails]. destruct (_ || _); [by apply ssec_fails|]. autorewrite with reads.
  destruct (privateKeyOf _ _ _) as [base|]; [|by apply ssec_fails].
  destruct (negb (bool_decide _)); [by apply ssec_fails|]. destruct (negb (o_derive base)); [by apply ssec_fails|].
  destruct (publicData params ≫= _) as [point|]; [|by apply ssec_fails].
  destruct (parseDerivedKeyTemplate t n) as [wanted|rv] eqn:Et; [|by apply ssec_fails].
  destruct (match t_valueLen wanted with Some _ => _ | None => _ end); [by apply ssec_fails|].
  apply ssec_keep; [by apply gSim_arm|]. constructor. intros [s1 l] [s2 l'] [Hs Hl]. cbn in Hs, Hl. subst s2. cbn [status bytes].
  destruct (bool_decide (s1 = Ok_)); cbn [negb]; [|apply ps_dropLogin, ps_leave]. rewrite Et in Hl.
  assert (length l = length l') as Hlen by (unfold alike in Hl; destruct (protected wanted); by subst).
  pose proof (derivedKeyValue_sim l l' wanted Hlen) as Hval.
  destruct (protected wanted) eqn:Ep; [|cbn in Hl; subst l'].
  - destruct (derivedKeyValue l wanted), (derivedKeyValue l' wanted); try done; [|subst; apply ps_leave].
    apply ps_keepDerivedKey. by rewrite Ep.
  - destruct (derivedKeyValue l wanted); [|apply ps_leave]. apply ps_keepDerivedKey. by rewrite Ep.
Qed.

Lemma ps_program c : psim c (program c) (program c).
Proof.
  destruct c; cbn [program];
    auto using ps_Initialize, ps_Finalize, ps_GetSlotList, ps_OpenSession, ps_GetSessionInfo, ps_Login, ps_DestroyObject,
      ps_GetAttributeValue, ps_DeriveKey; try (by apply ps_closing_calls; exact 0);
    try (by apply ps_doDecrypt); try (by apply ps_doSign); try (by constructor).
  - unfold C_GetInfo. case_match; constructor.
  - apply ps_onSlot. intros. by apply ssec_done.
  - apply ps_onSlot. intros. refuse; by apply ssec_done.
  - apply ps_onSlot. intros. by apply ssec_giveList.
  - apply ps_onSlot. intros. refuse; by apply ssec_done.
  - by apply (ps_find_calls h tmpl count true).
  - by apply (ps_find_calls h None maxCount).
  - by apply (ps_find_calls h None 0 true).
  - by apply (ps_cursor_calls h mechanism hKey [] None).
  - by apply (ps_cursor_calls h None 0 [] part).
  - by apply (ps_cursor_calls h mechanism hKey [] None).
  - by apply (ps_cursor_calls h None 0 part None).
Qed.

(** ** Runs that differ in secrets *)

(** A run in which the secret of every key agreement for a protected key is exchanged. *)
Definition exchanged (σ : list Z → list Z) (ev : Event) (cfg : Config) : Event :=
  match ev with
  | EBytes i res =>
      match c_threads cfg !! i with
      | Some t => if hiddenCall (t_call t) then EBytes i (mkBytes (status res) (σ (bytes res))) else ev
      | None => ev
      end
  | _ => ev
  end.

(** What the application is handed, and what the agent is asked for, in every thread. *)
Definition shown (t : Thread) : Call * option (CK_RV * Out) * option BytesRequest := (t_call t, returned t, requestOf t).
Definition visible (cfg : Config) : gmap nat (Call * option (CK_RV * Out) * option BytesRequest) := shown <$> c_threads cfg.

(** The two runs, side by side. *)
Fixpoint playBoth (σ : list Z → list Z) (evs : list Event) (cfg cfg' : Config) : option (Config * Config) :=
  match evs with
  | [] => Some (cfg, cfg')
  | ev :: evs =>
      match eventStep ev cfg, eventStep (exchanged σ ev cfg') cfg' with
      | Some cfg, Some cfg' => playBoth σ evs cfg cfg'
      | None, None => playBoth σ evs cfg cfg'
      | _, _ => None
      end
  end.

Definition tSim (t t' : Thread) : Prop := t_call t = t_call t' ∧ psim (t_call t) (t_prog t) (t_prog t').
Definition cSim (cfg cfg' : Config) : Prop :=
  gSim (c_globals cfg) (c_globals cfg') ∧ ∀ i, option_Forall2 tSim (c_threads cfg !! i) (c_threads cfg' !! i).

Lemma tSim_shown t t' : tSim t t' → shown t = shown t'.
Proof. intros [Hc Hp]. unfold shown, returned, requestOf. rewrite Hc. by inversion Hp. Qed.

Lemma cSim_visible cfg cfg' : cSim cfg cfg' → visible cfg = visible cfg'.
Proof.
  intros [_ Ht]. apply map_eq. intros i. unfold visible. rewrite !lookup_fmap. specialize (Ht i).
  inversion Ht as [t t' H|]; [|done]. cbn. by rewrite (tSim_shown t t').
Qed.

Lemma threads_insert i t t' (ts ts' : gmap nat Thread) :
  (∀ i, option_Forall2 tSim (ts !! i) (ts' !! i)) → tSim t t' →
  ∀ j, option_Forall2 tSim (<[i := t]> ts !! j) (<[i := t']> ts' !! j).
Proof.
  intros Hts Ht j. destruct (decide (i = j)) as [<-|]; [rewrite !lookup_insert_eq; by constructor|by rewrite !lookup_insert_ne].
Qed.

(** The step of one thread, on both sides. *)
Lemma threadStep_sim σ ev g g' t t' :
  (∀ l, length (σ l) = length l) → gSim g g' → tSim t t' →
  let ev' := match ev with EBytes i res => if hiddenCall (t_call t') then EBytes i (mkBytes (status res) (σ (bytes res))) else ev | _ => ev end in
  match threadStep ev g t, threadStep ev' g' t' with
  | Some (g1, t1), Some (g1', t1') => gSim g1 g1' ∧ tSim t1 t1'
  | None, None => True
  | _, _ => False
  end.
Proof.
  intros Hσ Hg [Hc Hp]. destruct t as [c a p], t' as [c' a' p']. cbn [t_call t_prog] in *. subst c'. cbv zeta.
  destruct Hp as [rv out|f f' Hf|k k' Hk|r k k' Hk|r k k' Hk|q k k' Hk]; destruct ev; cbn; try done;
    try (destruct (hiddenCall c); done).
  - specialize (Hf e g g' Hg) as [??]. by split.
  - destruct (snapshotOkb l); [|done]. split; [done|]. split; [done|apply Hk].
  - split; [done|]. split; [done|apply Hk].
  - split; [done|]. split; [done|apply Hk].
  - destruct (hiddenCall c) eqn:Eh; cbn; (split; [done|]; split; [done|]); apply Hk; split; cbn; rewrite ?Eh; cbn; auto.
Qed.

(** The thread an event is a step of. *)
Definition threadOf (ev : Event) : option nat :=
  match ev with ELock i _ | ESnapshot i _ | ELogin i _ | EActive i _ | EBytes i _ => Some i | _ => None end.

Lemma eventStep_thread ev i g ts :
  threadOf ev = Some i →
  eventStep ev (mkConfig g ts) =
  match ts !! i with
  | Some t => match threadStep ev g t with Some (g', t') => Some (mkConfig g' (<[i := t']> ts)) | None => None end
  | None => None
  end.
Proof. destruct ev; try done; by intros [= ->]. Qed.

Lemma eventStep_sim σ ev cfg cfg' :
  (∀ l, length (σ l) = length l) → cSim cfg cfg' →
  match eventStep ev cfg, eventStep (exchanged σ ev cfg') cfg' with
  | Some cfg1, Some cfg1' => cSim cfg1 cfg1'
  | None, None => True
  | _, _ => False
  end.
Proof.
  intros Hσ [Hg Ht]. destruct cfg as [g ts], cfg' as [g' ts']. cbn [c_globals c_threads] in *. destruct (threadOf ev) as [i|] eqn:Ev.
  - rewrite (eventStep_thread ev i) by done. specialize (Ht i) as Hi. inversion Hi as [t t' H E1 E2|E1 E2].
    + pose proof (threadStep_sim σ ev g g' t t' Hσ Hg H) as Hs. cbv zeta in Hs.
      set (ev' := match ev with EBytes _ _ => _ | _ => _ end) in Hs.
      assert (exchanged σ ev (mkConfig g' ts') = ev' ∧ threadOf ev' = Some i) as [-> Ev'].
      { subst ev'. destruct ev; try discriminate Ev; injection Ev as ->; cbn; try done. rewrite <- E2. by destruct (hiddenCall (t_call t')). }
      rewrite (eventStep_thread ev' i), <- E2 by done.
      destruct (threadStep ev g t) as [[g1 t1]|], (threadStep ev' g' t') as [[g1' t1']|]; try done.
      split; [apply Hs|]. apply threads_insert; [done|apply Hs].
    + assert (exchanged σ ev (mkConfig g' ts') = ev) as -> by (destruct ev; try discriminate Ev; injection Ev as ->; cbn; by rewrite <- ?E2).
      by rewrite (eventStep_thread ev i), <- E2 by done.
  - destruct ev as [i c| | | | | |i]; try done; cbn; specialize (Ht i) as Hi; inversion Hi as [t t' H E1 E2|E1 E2]; try done.
    + split; [done|]. cbn. apply threads_insert; [done|]. split; [done|apply ps_program].
    + destruct t as [c a p], t' as [c' a' p'], H as [Hc Hp]. cbn in Hp. destruct Hp; try done. split; [done|]. cbn. intros j.
      destruct (decide (i = j)) as [<-|]; [rewrite !lookup_delete_eq; constructor|by rewrite !lookup_delete_ne].
Qed.

Lemma playBoth_sim σ evs cfg cfg' :
  (∀ l, length (σ l) = length l) → cSim cfg cfg' → ∃ c1 c1', playBoth σ evs cfg cfg' = Some (c1, c1') ∧ cSim c1 c1'.
Proof.
  intros Hσ. revert cfg cfg'. induction evs as [|ev evs IH]; intros cfg cfg' Hc; cbn [playBoth]; [eauto|].
  pose proof (eventStep_sim σ ev cfg cfg' Hσ Hc). destruct (eventStep ev cfg), (eventStep _ cfg'); by auto.
Qed.

(** C8: the value of a derived key that is sensitive or not extractable stays in the
    module. Take any run, of any calls with any arguments in any number of threads, and
    run it again with every secret the agent answers such key agreements with exchanged
    for another of the same length: both runs take the same steps, every call is handed
    the same results and the agent is sent the same requests. *)
Theorem protected_values_hidden (σ : list Z → list Z) (evs : list Event) (Hσ : ∀ l, length (σ l) = length l) :
  ∃ cfg cfg', playBoth σ evs start start = Some (cfg, cfg') ∧ visible cfg = visible cfg'.
Proof.
  destruct (playBoth_sim σ evs start start Hσ) as (c1 & c1' & E & Hc).
  - split; [|intros i; constructor]. exists ∅. by split.
  - exists c1, c1'. split; [done|by apply cSim_visible].
Qed.

(** A key agreed on, found again and asked for its value. *)
Definition agreement : list Event :=
  bothAsking ++
  [EBytes 1 (mkBytes Ok_ (replicate 32 5)); ELock 1 quiet; ELock 1 quiet; EReturn 1;
   ECall 1 (GetAttributeValue 2 (2 ^ 63 + 1) (Some [mkAttr CKA_VALUE (Some (replicate 32 0)) 32]) 1); ELock 1 quiet].

Example protected_values_hidden_witness :
  visible (played agreement) !! 1%nat =
    Some (GetAttributeValue 2 (2 ^ 63 + 1) (Some [mkAttr CKA_VALUE (Some (replicate 32 0)) 32]) 1,
      Some (CKR_ATTRIBUTE_SENSITIVE, OAttributes [mkAttr CKA_VALUE (Some (replicate 32 0)) (2 ^ 64 - 1)]), None) ∧
  ∃ cfg cfg', playBoth (map (λ b, 255 - b)) agreement start start = Some (cfg, cfg') ∧ visible cfg = visible cfg'.
Proof.
  split; [by vm_compute|]. apply protected_values_hidden. intros l. apply length_map.
Defined.

End CryptokiSecrecy.
