(* ===== verification/CryptokiCalls.v ===== *)
(** * What the PKCS#11 entry points do

    Theorems about single calls of [Cryptoki.v] and sequences of them: every call
    returns after a bounded number of steps whatever runs beside it, a search is
    enumerated exactly, an operation in parts is the operation in one call, a lapsed
    login ends for the whole token, and the keys a token offers can be used. Where no
    other thread matters a call is run alone ([alone]). Two races of the code are shown
    as runs at the end. *)
From Stdlib Require Import Ascii.
From S2P Require Import Prelude Vocabulary Text Der Token DerivedKeys Sessions RawCrypto Cryptoki CryptokiSafety.
Import Vocabulary Text Der Ck Token DerivedKeys Sessions Cryptoki CryptokiSafety.
Local Open Scope Z_scope.

Module CryptokiCalls.

(** ** Every call returns *)

(** At most [n] more steps, whatever happens to the library in between and whatever the
    agent answers. *)
Fixpoint within (n : nat) (p : Prog) : Prop :=
  match p, n with
  | Done _ _, _ => True
  | _, O => False
  | Locked f, S n => ∀ e g, within n (snd (f e g))
  | AskSnapshot k, S n => ∀ l, within n (k l)
  | AskLogin _ k, S n => ∀ s, within n (k s)
  | AskLoginActive _ k, S n => ∀ b, within n (k b)
  | AskBytes _ k, S n => ∀ res, within n (k res)
  end.

(** A program can always go on until it is done: no step waits for another thread. *)
Definition canStep (g : Globals) (p : Prog) : Prop :=
  (∃ rv out, p = Done rv out) ∨ ∀ c a, ∃ g' t', tstep g (mkThread c a p) g' t'.

Lemma canStep_all g p : canStep g p.
Proof.
  destruct p; [left; eauto|right..]; intros c a.
  - destruct (f (mkEnv (λ _ _, mkBytes GeneralError []) (λ _ _ _, Err GeneralError) 0) g) as [g' p'] eqn:E. eexists _, _. by eapply t_locked.
  - eexists _, _. apply (t_snapshot _ _ _ _ []). split; [done|constructor].
  - eexists _, _. apply (t_login _ _ _ _ _ Ok_).
  - eexists _, _. apply (t_loginActive _ _ _ _ _ None).
  - eexists _, _. apply (t_bytes _ _ _ _ _ (mkBytes Ok_ [])).
Qed.

Lemma within_mono n m p : (n ≤ m)%nat → within n p → within m p.
Proof.
  revert m p. induction n as [|n IH]; intros m p Hle; destruct p; try done; destruct m as [|m]; try done; try lia;
    cbn; intros H *; apply IH; auto with lia.
Qed.

Lemma within_fails n rv g : within n (snd (fails rv g)).
Proof. by destruct n. Qed.
Lemma within_done n rv out : within n (Done rv out).
Proof. by destruct n. Qed.
Lemma within_disarm n h p : within n p → within (S n) (disarm h p).
Proof. by intros H e g. Qed.
Lemma within_leave n h rv out : within (S n) (leave h rv out).
Proof. apply within_disarm, within_done. Qed.
Lemma within_clearing n h f p : within n p → within (S n) (clearing h f p).
Proof. intros H e g. cbn. by destruct (g_lib g). Qed.
Lemma within_drop n s h p : within n p → within (S n) (dropLoginOnLapsedLease s h p).
Proof.
  intros H. unfold dropLoginOnLapsedLease. case_decide; [|by apply (within_mono n); [lia|]].
  intros e g. cbn. repeat case_match; done.
Qed.
Lemma within_deliver n h f b l : within (S (S n)) (deliver h f b l).
Proof.
  unfold deliver. repeat case_match; try apply within_leave. apply within_clearing, within_leave.
Qed.
Lemma within_refresh n k g : (∀ lib e g, within n (snd (k lib e g))) → within (S (S (S n))) (snd (refreshModel k g)).
Proof. intros H l e g' e' g''. cbn. repeat case_match; apply H. Qed.

Create HintDb within.
#[local] Hint Resolve within_fails within_done within_leave within_clearing within_drop within_deliver within_disarm : within.
Ltac sections := intros; repeat case_match; cbn [snd]; auto with within.

Lemma within_onSlot b s k : (∀ sl g, within 0 (snd (k sl g))) → within 5 (onSlot b s k).
Proof.
  intros Hk e g. cbn [snd]. repeat case_match; auto with within. apply (within_mono 3); [lia|]. apply within_refresh. sections.
Qed.

Lemma within_slot_calls c :
  match c with
  | GetSlotList _ _ | GetSlotInfo _ _ | GetTokenInfo _ _ | GetMechanismList _ _ | GetMechanismInfo _ _ _ | OpenSession _ _ _ =>
      within 5 (program c)
  | _ => True
  end.
Proof.
  assert (Hlist : ∀ b l g, within 0 (snd (giveList b l g))) by (intros; unfold giveList; sections).
  destruct c; try done; cbn [program].
  - intros e g. cbn [snd]. sections. apply (within_mono 3); [lia|]. apply within_refresh. intros [lib|] e' g'; auto with within.
  - apply within_onSlot. sections.
  - apply within_onSlot. sections.
  - apply within_onSlot. auto.
  - apply within_onSlot. sections.
  - intros e g. cbn [snd]. sections. apply (within_mono 3); [lia|]. apply within_refresh. sections.
Qed.

Lemma within_session_calls c :
  match c with
  | GetSessionInfo _ _ | Login _ _ | CDecrypt _ _ _ | DecryptFinal _ _ | CSign _ _ _ | SignFinal _ _ | DeriveKey _ _ _ _ _ _ =>
      within 5 (program c)
  | _ => True
  end.
Proof.
  assert (Hinfo : ∀ h s gen a b, within 3 (sessionInfo h s gen a b)).
  { intros h s gen a b e g. unfold sessionInfo. cbn [snd]. sections. }
  assert (Hinit : ∀ n h serial w v sl, within (S (S n)) (keepDerivedKey h sl serial w v)).
  { intros n h serial w v sl e g. unfold keepDerivedKey, addDerivedKey. cbn [snd]. sections. }
  assert (Hdec : ∀ h i o, within 5 (doDecrypt h i o)).
  { intros h i [b|]; [|done]. intros e g. cbv zeta. sections. intros res. sections. }
  assert (Hsign : ∀ h i o, within 5 (doSign h i o)).
  { intros h i [b|]; [|done]. intros e g. cbv zeta. sections. intros res. sections. }
  destruct c; try done; cbn [program]; try apply Hdec; try apply Hsign.
  - intros e g. sections; try (apply (within_mono 3); [lia|]; apply Hinfo). intros a. apply Hinfo.
  - intros e g. sections. intros res e' g'. cbn [snd]. auto with within.
  - intros e g. sections; intros res; sections; apply Hinit.
Qed.

Lemma within_short_calls c :
  match c with
  | Initialize _ | Finalize _ | GetInfo _ | CloseSession _ | CloseAllSessions _ | Logout _ | DestroyObject _ _ | FindObjectsInit _ _ _
  | GetAttributeValue _ _ _ _ | FindObjects _ _ _ | FindObjectsFinal _ | DecryptInit _ _ _ | DecryptUpdate _ _ | SignInit _ _ _
  | SignUpdate _ _ | NotSupportedCall _ => within 5 (program c)
  | _ => True
  end.
Proof.
  destruct c; try done; cbn [program]; try (intros e g; sections).
  - intros e' g'. sections.
  - unfold C_GetInfo. sections.
  - match goal with |- context [serveAll ?f ?l ?rv ?a] => destruct (serveAll f l rv a) as [[? ?] ?] end. apply within_done.
  - match goal with |- context [serveAll ?f ?l ?rv ?a] => destruct (serveAll f l rv a) as [[? ?] ?] end. apply within_done.
  - match goal with |- context [eraseDiffering ?a ?b ?x ?d ?f ?m] => destruct (eraseDiffering a b x d f m) end. apply within_done.
Qed.

Lemma within_program c : within 5 (program c).
Proof. pose proof (within_slot_calls c). pose proof (within_session_calls c). pose proof (within_short_calls c). by destruct c. Qed.

(** Steps of one thread; between two of them the other threads may do anything. *)
Inductive chain : nat → Thread → Thread → Prop :=
| chain_start t : chain 0 t t
| chain_step n g t g' t' t'' : tstep g t g' t' → chain n t' t'' → chain (S n) t t''.

Lemma within_tstep n g t g' t' : within (S n) (t_prog t) → tstep g t g' t' → within n (t_prog t').
Proof. intros H Hs. destruct Hs; cbn in *; [specialize (H e g); by rewrite H0 in H|auto..]. Qed.

Lemma within_chain n m t t' : within n (t_prog t) → chain m t t' → (m ≤ n)%nat.
Proof.
  intros Hw Hc. revert n Hw. induction Hc as [|m g t g' t' t'' Hs _ IH]; intros n Hw; [lia|].
  destruct n as [|n]; [|apply within_tstep with (1 := Hw) in Hs; apply IH in Hs; lia].
  by destruct Hs.
Qed.



(** ** A call run alone *)

Record Answers := mkAnswers {
  a_snapshot : list ReaderState; a_login : string → Status; a_active : string → option bool;
  a_bytes : BytesRequest → BytesResult }.

Fixpoint alone (e : Env) (a : Answers) (p : Prog) (g : Globals) : Globals * (CK_RV * Out) :=
  match p with
  | Done rv out => (g, (rv, out))
  | Locked f => match f e g with (g', p') => alone e a p' g' end
  | AskSnapshot k => alone e a (k (a_snapshot a)) g
  | AskLogin r k => alone e a (k (a_login a r)) g
  | AskLoginActive r k => alone e a (k (a_active a r)) g
  | AskBytes q k => alone e a (k (a_bytes a q)) g
  end.

Fixpoint aloneAll (e : Env) (a : Answers) (cs : list Call) (g : Globals) : Globals * list (CK_RV * Out) :=
  match cs with
  | [] => (g, [])
  | c :: cs =>
      let '(g, r) := alone e a (program c) g in
      let '(g, rs) := aloneAll e a cs g in
      (g, r :: rs)
  end.

(** ** Searches *)

(** The library with one session's cursors changed. *)
Definition withSession (h : Z) (s : Session) (g : Globals) (lib : Library) : Globals :=
  setLib (Some (onSession h (λ _, s) lib)) g.

Lemma session_modify h f st s : session h st = Some s → slot (f s) = slot s → flags (f s) = flags s →
  session h (modifySession h f st) = Some (f s).
Proof.
  intros E Hs Hf. unfold modifySession. rewrite E. unfold session, updateSession in *. cbn. rewrite lookup_alter_eq, E. cbn.
  rewrite <- Hs, <- Hf. by destruct (f s).
Qed.

Lemma find_step e a h n g lib s :
  g_lib g = Some lib → sessionOf h lib = Some s → find_active (find s) = true →
  let got := take (Z.to_nat n) (drop (find_next (find s)) (find_matches (find s))) in
  let s' := withFind (mkFind true (find_matches (find s)) (find_next (find s) + length got)) s in
  ∃ lib', alone e a (program (FindObjects h true n)) g = (setLib (Some lib') g, (CKR_OK, OList got)) ∧ sessionOf h lib' = Some s'.
Proof.
  intros E Es Ea got s'. cbn [program C_FindObjects alone]. rewrite E. cbn [negb]. rewrite Es, Ea. cbn [negb].
  eexists. split; [reflexivity|]. unfold sessionOf, onSession. cbn [state setState]. by apply session_modify.
Qed.

(** The handles a list of answers carries. *)
Definition handlesOf (rs : list (CK_RV * Out)) : list Z :=
  concat (map (λ r, match snd r with OList l => l | _ => [] end) rs).

Lemma find_all e a h ns : ∀ g lib s,
  g_lib g = Some lib → sessionOf h lib = Some s → find_active (find s) = true →
  let '(g', rs) := aloneAll e a (map (FindObjects h true) ns) g in
  Forall (λ r, fst r = CKR_OK) rs ∧
  handlesOf rs = take (list_sum (map Z.to_nat ns)) (drop (find_next (find s)) (find_matches (find s))) ∧
  ∃ lib' c, g_lib g' = Some lib' ∧ sessionOf h lib' = Some (withFind c s) ∧ find_active c = true.
Proof.
  induction ns as [|n ns IH]; intros g lib s E Es Ea; cbn [map aloneAll].
  { split_and!; [done|cbn; by rewrite take_0|]. exists lib, (find s). split_and!; [done|by destruct s|done]. }
  destruct (find_step e a h n g lib s E Es Ea) as (lib' & E1 & Es'). rewrite E1.
  specialize (IH (setLib (Some lib') g) lib' _ eq_refl Es' eq_refl). destruct (aloneAll _ _ _ _) as [g' rs].
  destruct IH as (Hall & Hh & Hend). split_and!; [by constructor| |done]. cbn [handlesOf map concat snd]. unfold handlesOf in Hh. rewrite Hh. cbn.
  set (l := drop (find_next (find s)) (find_matches (find s))).
  rewrite <- drop_drop. fold l. rewrite <- take_take_drop. f_equal. f_equal. rewrite length_take.
  destruct (decide (Z.to_nat n ≤ length l)%nat); [by rewrite Nat.min_l|]. rewrite Nat.min_r by lia.
  by rewrite drop_all, drop_ge by lia.
Qed.

(** The certificate an object's names are compared with: as kept, or as the agent gives it. *)
Definition derOf (e : Env) (sl : Slot) (ders : gmap string (list Z)) (obj : Object) : BytesResult :=
  match ders !! o_certId obj with Some der => mkBytes Ok_ der | None => certDer e (s_readerPath sl) (o_certId obj) end.

Definition nameOf (e : Env) (sl : Slot) (ders : gmap string (list Z)) (obj : Object) (f : CertField) : option (list Z) :=
  if (o_cls obj =? CKO_CERTIFICATE) && bool_decide (status (derOf e sl ders obj) = Ok_)
  then certificateField (bytes (derOf e sl ders obj)) f else None.

(** What a search by subject, issuer or serial number asks of an object. *)
Definition namesAs (e : Env) (sl : Slot) (ders : gmap string (list Z)) (obj : option Object) (want : CK_ATTRIBUTE) : bool :=
  match certFieldOf (type want), pValue want with
  | Some f, Some buf =>
      match obj ≫= λ o, nameOf e sl ders o f with
      | Some name => (zlen name =? ulValueLen want) && bool_decide (name = take (length name) buf)
      | None => false
      end
  | _, _ => true
  end.

Lemma certDerOf_spec e sl obj ders :
  let '(der, ders') := certDerOf e sl obj ders in
  der = derOf e sl ders obj ∧ ∀ o, derOf e sl ders' o = derOf e sl ders o.
Proof.
  unfold certDerOf, derOf. destruct (ders !! o_certId obj) as [der|] eqn:E; [done|]. split; [done|]. intros o.
  case_decide as Hs; [|done]. destruct (decide (o_certId obj = o_certId o)) as [Eo|]; [|by rewrite lookup_insert_ne].
  rewrite <- Eo, lookup_insert_eq, E. destruct (certDer e (s_readerPath sl) (o_certId obj)). cbn in *. by subst.
Qed.

Lemma ckrFromStatus_ok s : ckrFromStatus s CKR_GENERAL_ERROR = CKR_OK → s = Ok_.
Proof. by destruct s. Qed.

(** How a name is served: sized, or written when it fits. *)
Lemma serve_name e sl obj attr ders f :
  certFieldOf (type attr) = Some f →
  let '(rv, attr', ders') := serveAttribute e sl obj attr ders in
  (∀ o, derOf e sl ders' o = derOf e sl ders o) ∧
  match nameOf e sl ders obj f with
  | Some name => (rv, attr') = give attr name
  | None => rv ≠ CKR_OK
  end.
Proof.
  intros Hf. unfold serveAttribute, nameOf. rewrite Hf.
  destruct (type attr); cbn in Hf; try done.
  all: destruct (o_cls obj =? CKO_CERTIFICATE); cbn [negb andb]; [|done].
  all: pose proof (certDerOf_spec e sl obj ders) as Hd; destruct (certDerOf e sl obj ders) as [der ders'], Hd as [<- Hd].
  all: destruct (decide (status der = Ok_)) as [Hs|Hs]; [rewrite bool_decide_eq_true_2 by done|rewrite bool_decide_eq_false_2 by done].
  all: try (split; [done|]; by intros ?%ckrFromStatus_ok).
  all: injection Hf as <-; destruct (certificateField _ _) as [name|]; [by destruct (give attr name)|done].
Qed.

Lemma nameDiffers_spec e sl obj want ders :
  let '(differs, ders') := nameDiffers e sl obj want ders in
  (∀ o, derOf e sl ders' o = derOf e sl ders o) ∧ differs = negb (namesAs e sl ders obj want).
Proof.
  unfold nameDiffers, namesAs. destruct (certFieldOf (type want)) as [f|] eqn:Hf; [|done]. destruct (pValue want) as [buf|]; [|done].
  destruct obj as [obj|]; [|done]. cbn [mbind option_bind].
  pose proof (serve_name e sl obj (mkAttr (type want) None 0) ders f Hf) as H1.
  destruct (serveAttribute e sl obj (mkAttr (type want) None 0) ders) as [[rv probe] ders1], H1 as [Hd1 H1].
  destruct (nameOf e sl ders obj f) as [name|] eqn:En.
  - injection H1 as -> ->. rewrite bool_decide_eq_true_2 by done. cbn [negb orb ulValueLen].
    destruct (zlen name =? ulValueLen want) eqn:El; [|done]. cbn [negb].
    match goal with |- context [serveAttribute e sl obj ?p ders1] => set (probe2 := p) end.
    pose proof (serve_name e sl obj probe2 ders1 f Hf) as H2.
    assert (nameOf e sl ders1 obj f = Some name) as En1 by (unfold nameOf; rewrite Hd1; exact En). rewrite En1 in H2.
    destruct (serveAttribute e sl obj probe2 ders1) as [[rv2 probe2'] ders2], H2 as [Hd2 H2].
    split; [intros o; by rewrite Hd2|]. unfold give in H2. cbn [pValue ulValueLen probe2] in H2. rewrite Z.ltb_irrefl in H2.
    injection H2 as -> ->. rewrite bool_decide_eq_true_2 by done. cbn [negb orb andb default pValue].
    rewrite drop_ge, app_nil_r by (rewrite length_replicate; lia). done.
  - rewrite bool_decide_eq_false_2 by done. done.
Qed.

Lemma namesAll_ders e sl obj wants ders ders' :
  (∀ o, derOf e sl ders' o = derOf e sl ders o) → forallb (namesAs e sl ders' obj) wants = forallb (namesAs e sl ders obj) wants.
Proof.
  intros Hd. induction wants as [|w wants IH]; cbn; [done|]. rewrite IH. f_equal. unfold namesAs, nameOf.
  destruct (certFieldOf (type w)), (pValue w); try done. destruct obj; [|done]. cbn. by rewrite Hd.
Qed.

Lemma anyDiffers_spec e sl obj wants : ∀ ders,
  let '(differs, ders') := anyDiffers e sl obj wants ders in
  (∀ o, derOf e sl ders' o = derOf e sl ders o) ∧ differs = negb (forallb (namesAs e sl ders obj) wants).
Proof.
  induction wants as [|want wants IH]; intros ders; cbn [anyDiffers forallb]; [done|].
  pose proof (nameDiffers_spec e sl obj want ders) as H1. destruct (nameDiffers e sl obj want ders) as [differs ders1], H1 as [Hd1 ->].
  destruct (namesAs e sl ders obj want) eqn:En; cbn [negb andb]; [|done].
  specialize (IH ders1). destruct (anyDiffers e sl obj wants ders1) as [differs ders2], IH as [Hd2 ->].
  split; [intros o; by rewrite Hd2|]. by rewrite (namesAll_ders e sl obj wants ders ders1).
Qed.

Lemma eraseDiffering_spec e sl object wants matches : ∀ ders,
  let '(rest, ders') := eraseDiffering e sl object wants matches ders in
  (∀ o, derOf e sl ders' o = derOf e sl ders o) ∧ rest = List.filter (λ h, forallb (namesAs e sl ders (object h)) wants) matches.
Proof.
  induction matches as [|h matches IH]; intros ders; cbn [eraseDiffering List.filter]; [done|].
  pose proof (anyDiffers_spec e sl (object h) wants ders) as H1. destruct (anyDiffers e sl (object h) wants ders) as [differs ders1], H1 as [Hd1 ->].
  specialize (IH ders1). destruct (eraseDiffering e sl object wants matches ders1) as [rest ders2], IH as [Hd2 ->].
  split; [intros o; by rewrite Hd2|].
  assert (List.filter (λ h, forallb (namesAs e sl ders1 (object h)) wants) matches =
          List.filter (λ h, forallb (namesAs e sl ders (object h)) wants) matches) as ->; [|by destruct (forallb _ _)].
  apply List.filter_ext. intros h'. by apply namesAll_ders.
Qed.

Lemma aloneAll_app e a cs cs' g :
  aloneAll e a (cs ++ cs') g =
  let '(g1, rs) := aloneAll e a cs g in let '(g2, rs') := aloneAll e a cs' g1 in (g2, rs ++ rs').
Proof.
  revert g. induction cs as [|c cs IH]; intros g; cbn [app aloneAll]; [by destruct (aloneAll e a cs' g)|].
  destruct (alone e a (program c) g) as [g1 r]. rewrite IH. destruct (aloneAll e a cs g1) as [g2 rs].
  by destruct (aloneAll e a cs' g2).
Qed.

(** The objects a search selects: those [findMatches] finds, and among them those whose
    certificate has the names the template gives. *)
Definition selected (e : Env) (h : Z) (tmpl : option (list CK_ATTRIBUTE)) (count : Z) (lib : Library) (s : Session) (sl : Slot) : list Z :=
  List.filter (λ o, forallb (namesAs e sl (certDers lib) (if isDerivedHandle o then None else resolveObject (slot s) o (state lib)))
                     (take (Z.to_nat count) (default [] tmpl)))
    (findMatches h (slot s) tmpl count (state lib)).

Lemma find_init e a h tmpl count g lib s sl :
  g_lib g = Some lib → sessionOf h lib = Some s → slotById (slot s) (state lib) = Some sl → find_active (find s) = false →
  ∃ lib', alone e a (program (FindObjectsInit h tmpl count)) g = (setLib (Some lib') g, (CKR_OK, ONothing)) ∧
    sessionOf h lib' = Some (withFind (mkFind true (selected e h tmpl count lib s sl) 0) s).
Proof.
  intros E Es Esl Ea. cbn [program C_FindObjectsInit alone]. rewrite E, Es, Ea, Esl. unfold selected. cbv zeta.
  destruct tmpl as [attrs|]; cbn [default].
  - match goal with |- context [eraseDiffering e sl ?o ?w ?m ?d] => pose proof (eraseDiffering_spec e sl o w m d) as Hs;
      destruct (eraseDiffering e sl o w m d) as [rest ders], Hs as [_ ->] end.
    eexists. split; [reflexivity|]. unfold sessionOf, onSession. cbn [state setState setDers]. by apply session_modify.
  - eexists. split; [reflexivity|]. unfold sessionOf, onSession. cbn [state setState setDers].
    rewrite (session_modify _ _ _ s) by done. repeat f_equal. rewrite take_nil. cbn. by rewrite List.filter_true.
Qed.

(** A search is enumerated exactly. [C_FindObjectsInit], any number of
    [C_FindObjects] with whatever counts, and [C_FindObjectsFinal] all succeed; the
    handles they return are, in order and without repetition, the selected ones as far
    as the counts reach; and afterwards the session can search again. What is selected
    by subject, issuer or serial number is what has exactly that field in its
    certificate. *)
Theorem search_enumerated (e : Env) (a : Answers) (h : Z) (tmpl : option (list CK_ATTRIBUTE)) (count : Z) (ns : list Z)
    (g : Globals) (lib : Library) (s : Session) (sl : Slot) (E : g_lib g = Some lib) (Es : sessionOf h lib = Some s)
    (Esl : slotById (slot s) (state lib) = Some sl) (Ea : find_active (find s) = false) :
  let '(g', rs) := aloneAll e a ([FindObjectsInit h tmpl count] ++ map (FindObjects h true) ns ++ [FindObjectsFinal h]) g in
  Forall (λ r, fst r = CKR_OK) rs ∧
  handlesOf rs = take (list_sum (map Z.to_nat ns)) (selected e h tmpl count lib s sl) ∧
  ∃ lib', g_lib g' = Some lib' ∧ sessionOf h lib' = Some (withFind noFind s).
Proof.
  rewrite aloneAll_app. cbn [aloneAll]. destruct (find_init e a h tmpl count g lib s sl E Es Esl Ea) as (lib1 & E1 & Es1). rewrite E1, aloneAll_app.
  pose proof (find_all e a h ns (setLib (Some lib1) g) lib1 _ eq_refl Es1 eq_refl) as Hall.
  destruct (aloneAll e a (map (FindObjects h true) ns) _) as [g2 rs], Hall as (Hok & Hh & lib2 & cur & E2 & Es2 & Ea2).
  cbn [aloneAll program C_FindObjectsFinal alone]. rewrite E2, Es2. cbn [find withFind]. rewrite Ea2. cbn [negb alone]. split_and!.
  - constructor; [done|]. apply Forall_app. split; [done|by repeat constructor].
  - unfold handlesOf in *. rewrite map_app, concat_app. cbn [map concat snd app]. rewrite map_app, concat_app, Hh. cbn. by rewrite app_nil_r.
  - eexists. split; [reflexivity|]. unfold sessionOf, onSession. cbn [state setState].
    by rewrite (session_modify _ _ _ (withFind cur s)).
Qed.

(** ** Operations in parts *)

(** The programs that end with one result whatever the library's state is. *)
Definition ends (e : Env) (a : Answers) (p : Prog) (r : CK_RV * Out) : Prop := ∀ g, snd (alone e a p g) = r.

Section Ends.
Context (e : Env) (a : Answers).

Lemma ends_leave h rv out : ends e a (leave h rv out) (rv, out).
Proof. by intros g. Qed.
Lemma ends_clearing h f p r : ends e a p r → ends e a (clearing h f p) r.
Proof. intros Hp g. cbn. destruct (g_lib g); apply Hp. Qed.
Lemma ends_dropLogin s h p r : ends e a p r → ends e a (dropLoginOnLapsedLease s h p) r.
Proof.
  intros Hp g. unfold dropLoginOnLapsedLease. case_decide; [|apply Hp]. cbn. destruct (g_lib g) as [lib|]; [|apply Hp].
  destruct (sessionOf h lib); apply Hp.
Qed.

(** What [deliver] hands the caller. *)
Definition delivery (buffer : option Z) (l : list Z) : CK_RV * Out :=
  match buffer with
  | None => (CKR_OK, OCount (zlen l))
  | Some room => if room <? zlen l then (CKR_BUFFER_TOO_SMALL, OCount (zlen l)) else (CKR_OK, OBytes l)
  end.
Lemma ends_deliver h f buffer l : ends e a (deliver h f buffer l) (delivery buffer l).
Proof.
  unfold deliver, delivery. repeat case_match; try apply ends_leave. apply ends_clearing, ends_leave.
Qed.

(** The result of a signature and of a decryption, from the cursor and the data. *)
Definition signed (c : SignCursor) (data : list Z) (buffer : option Z) : CK_RV * Out :=
  let ecdsa := sign_mechanism c =? CKM_ECDSA in
  let sigLen := signatureLength (sign_keyType c) (sign_keyBits c) in
  if ecdsa && negb ((zlen data =? 32) || (zlen data =? 48) || (zlen data =? 64)) then (CKR_DATA_LEN_RANGE, ONothing)
  else if lengthQuestion sigLen buffer then ((if bool_decide (buffer = None) then CKR_OK else CKR_BUFFER_TOO_SMALL), OCount sigLen)
  else
    let res := a_bytes a (SignRaw (sign_reader c) (sign_certId c) (agentSignMechanism (sign_mechanism c)) data) in
    if negb (bool_decide (status res = Ok_)) then (ckrFromStatus (status res) CKR_DATA_LEN_RANGE, ONothing)
    else if ecdsa && negb (zlen (bytes res) =? sigLen) then (CKR_DEVICE_ERROR, ONothing)
    else delivery buffer (bytes res).

Definition decrypted (c : DecryptCursor) (ct : list Z) (buffer : option Z) : CK_RV * Out :=
  if bool_decide (buffer = None) && negb (decrypt_keyBits c =? 0) then (CKR_OK, OCount (u32 (decrypt_keyBits c + 7) / 8))
  else
    let res := a_bytes a (Decrypt (decrypt_reader c) (decrypt_certId c) ct) in
    if decide (status res = Ok_) then delivery buffer (bytes res)
    else (ckrFromStatus (status res) CKR_ENCRYPTED_DATA_LEN_RANGE, ONothing).

Lemma alone_doSign h input buffer g lib s :
  g_lib g = Some lib → sessionOf h lib = Some s → sign_active (sign s) = true → rpcInFlight s = false →
  snd (alone e a (doSign h input (Some buffer)) g) = signed (sign s) (default (sign_accumulated (sign s)) input) buffer.
Proof.
  intros E Es Ea Ef. cbn [doSign alone]. rewrite E, Es. cbv zeta. rewrite Ea, Ef. cbn [negb]. unfold signed. cbv zeta.
  case_match; [apply ends_clearing, ends_leave|]. case_match; [apply ends_leave|]. cbn [alone].
  case_match; [apply ends_clearing, ends_dropLogin, ends_leave|]. case_match; [apply ends_clearing, ends_leave|apply ends_deliver].
Qed.

Lemma alone_doDecrypt h input buffer g lib s :
  g_lib g = Some lib → sessionOf h lib = Some s → decrypt_active (decrypt s) = true → rpcInFlight s = false →
  snd (alone e a (doDecrypt h input (Some buffer)) g) = decrypted (decrypt s) (default (decrypt_accumulated (decrypt s)) input) buffer.
Proof.
  intros E Es Ea Ef. cbn [doDecrypt alone]. rewrite E, Es. cbv zeta. rewrite Ea, Ef. cbn [negb]. unfold decrypted. cbv zeta.
  case_match; [apply ends_leave|]. cbn [alone]. case_decide; [apply ends_deliver|apply ends_clearing, ends_dropLogin, ends_leave].
Qed.

Definition gather (c : SignCursor) (more : list Z) : SignCursor :=
  mkSign (sign_active c) (sign_reader c) (sign_certId c) (sign_keyBits c) (sign_mechanism c) (sign_keyType c) (sign_accumulated c ++ more).
Definition collect (c : DecryptCursor) (more : list Z) : DecryptCursor :=
  mkDecrypt (decrypt_active c) (decrypt_reader c) (decrypt_certId c) (decrypt_keyBits c) (decrypt_accumulated c ++ more).

Lemma sign_updates h parts : ∀ g lib s,
  g_lib g = Some lib → sessionOf h lib = Some s → sign_active (sign s) = true →
  let '(g', rs) := aloneAll e a (map (SignUpdate h) parts) g in
  Forall (λ r, fst r = CKR_OK) rs ∧ ∃ lib', g_lib g' = Some lib' ∧ sessionOf h lib' = Some (withSign (gather (sign s) (concat parts)) s).
Proof.
  induction parts as [|p parts IH]; intros g lib s E Es Ea; cbn [map aloneAll concat].
  { split; [done|]. exists lib. split; [done|]. rewrite Es. unfold gather. rewrite app_nil_r. by destruct s as [? ? ? []]. }
  cbn [program C_SignUpdate alone]. rewrite E, Es. destruct (sign s) as [act r ci kb m kt acc] eqn:Ec. cbn in Ea. subst act. cbn [negb alone].
  set (s1 := withSign (mkSign true r ci kb m kt (acc ++ p)) s).
  match goal with |- context [setLib (Some ?l) g] => specialize (IH (setLib (Some l) g) l s1 eq_refl) end.
  destruct (aloneAll _ _ _ _) as [g2 rs]. destruct IH as (Hok & lib2 & E2 & Es2); [|done|].
  - unfold sessionOf, onSession. cbn [state setState]. by rewrite (session_modify _ _ _ s).
  - split; [by constructor|]. exists lib2. split; [done|]. rewrite Es2. unfold gather, s1. cbn. by rewrite app_assoc.
Qed.

Lemma decrypt_updates h parts : ∀ g lib s,
  g_lib g = Some lib → sessionOf h lib = Some s → decrypt_active (decrypt s) = true → rpcInFlight s = false →
  let '(g', rs) := aloneAll e a (map (λ p, DecryptUpdate h (Some p)) parts) g in
  Forall (λ r, fst r = CKR_OK) rs ∧ ∃ lib', g_lib g' = Some lib' ∧ sessionOf h lib' = Some (withDecrypt (collect (decrypt s) (concat parts)) s).
Proof.
  induction parts as [|p parts IH]; intros g lib s E Es Ea Ef; cbn [map aloneAll concat].
  { split; [done|]. exists lib. split; [done|]. rewrite Es. unfold collect. rewrite app_nil_r. by destruct s as [? ? ? ? []]. }
  cbn [program C_DecryptUpdate alone]. rewrite E, Es. destruct (decrypt s) as [act r ci kb acc] eqn:Ec. cbn in Ea. subst act.
  cbn [negb alone]. rewrite Ef. cbn [alone].
  set (s1 := withDecrypt (mkDecrypt true r ci kb (acc ++ p)) s).
  match goal with |- context [setLib (Some ?l) g] => specialize (IH (setLib (Some l) g) l s1 eq_refl) end.
  destruct (aloneAll _ _ _ _) as [g2 rs]. destruct IH as (Hok & lib2 & E2 & Es2); [|done|done|].
  - unfold sessionOf, onSession. cbn [state setState]. by rewrite (session_modify _ _ _ s).
  - split; [by constructor|]. exists lib2. split; [done|]. rewrite Es2. unfold collect, s1. cbn. by rewrite app_assoc.
Qed.

End Ends.

(** An operation in parts is the operation in one call. On a session with a fresh
    operation, the updates all succeed, and the final call returns exactly what the
    single call returns for the parts put together, whatever the agent answers to which
    request: a signature over the concatenation, or its decryption, a length, or the
    same error. *)
Theorem parts_as_one (e : Env) (a : Answers) (h : Z) (parts : list (list Z)) (out : option (option Z)) (g : Globals)
    (lib : Library) (s : Session) (E : g_lib g = Some lib) (Es : sessionOf h lib = Some s) (Ef : rpcInFlight s = false) :
  (sign_active (sign s) = true → sign_accumulated (sign s) = [] →
   let '(g', rs) := aloneAll e a (map (SignUpdate h) parts) g in
   Forall (λ r, fst r = CKR_OK) rs ∧
   snd (alone e a (program (SignFinal h out)) g') = snd (alone e a (program (CSign h (concat parts) out)) g)) ∧
  (decrypt_active (decrypt s) = true → decrypt_accumulated (decrypt s) = [] →
   let '(g', rs) := aloneAll e a (map (λ p, DecryptUpdate h (Some p)) parts) g in
   Forall (λ r, fst r = CKR_OK) rs ∧
   snd (alone e a (program (DecryptFinal h out)) g') = snd (alone e a (program (CDecrypt h (concat parts) out)) g)).
Proof.
  split; intros Ha Hacc.
  - pose proof (sign_updates e a h parts g lib s E Es Ha) as H. destruct (aloneAll _ _ _ _) as [g' rs], H as (Hok & lib' & E' & Es').
    split; [done|]. destruct out as [buffer|]; [|done]. cbn [program]. unfold C_SignFinal, C_Sign.
    rewrite (alone_doSign e a h (Some (concat parts)) buffer g lib s) by done.
    rewrite (alone_doSign e a h None buffer g' lib' _ E' Es') by done. cbn. by rewrite Hacc.
  - pose proof (decrypt_updates e a h parts g lib s E Es Ha Ef) as H. destruct (aloneAll _ _ _ _) as [g' rs], H as (Hok & lib' & E' & Es').
    split; [done|]. destruct out as [buffer|]; [|done]. cbn [program]. unfold C_DecryptFinal, C_Decrypt.
    rewrite (alone_doDecrypt e a h (Some (concat parts)) buffer g lib s) by done.
    rewrite (alone_doDecrypt e a h None buffer g' lib' _ E' Es') by done. cbn. by rewrite Hacc.
Qed.

(** ** A lapsed login *)

(** Slot [x] is logged out of, and session [h] of it idle. *)
Definition loggedOut (h x : Z) (g : Globals) : Prop :=
  ∃ lib s, g_lib g = Some lib ∧ sessionOf h lib = Some s ∧ slot s = x ∧ rpcInFlight s = false ∧
    isLoggedIn x (state lib) = false ∧ (∀ k key, m_derived (state lib) !! k = Some key → k_slot key ≠ x).

Lemma leave_lapsed e a h rv g lib s :
  g_lib g = Some lib → sessionOf h lib = Some s →
  let '(g', r) := alone e a (dropLoginOnLapsedLease UserNotLoggedIn h (leave h rv ONothing)) g in
  r = (rv, ONothing) ∧ loggedOut h (slot s) g' ∧ g_rpcInFlight g' = g_rpcInFlight g - 1.
Proof.
  intros E Es. unfold dropLoginOnLapsedLease. rewrite decide_True by done. cbn. rewrite E, Es. cbn. split; [done|]. split; [|done].
  destruct (endLogin_frame (slot s) (state lib)) as (_ & _ & _ & _ & Hse & _ & _ & Hd).
  assert (Es' : session h (endLogin (slot s) (state lib)) = Some s) by (unfold session; by rewrite Hse).
  eexists _, (withRpc false s). split; [reflexivity|]. cbn. split_and!; [by apply session_modify|done|done| |].
  - unfold modifySession. rewrite Es'. unfold updateSession.
    change (isLoggedIn (slot s) (endLogin (slot s) (state lib)) = false). rewrite isLoggedIn_endLogin. by rewrite decide_True.
  - intros k key. unfold modifySession. rewrite Es'. unfold updateSession. cbn [setSessions m_derived]. rewrite Hd. by intros [_ ?]%map_lookup_filter_Some.
Qed.

Lemma clearing_lapsed e a h f rv g lib s :
  (∀ s, slot (f s) = slot s ∧ flags (f s) = flags s) → g_lib g = Some lib → sessionOf h lib = Some s →
  let '(g', r) := alone e a (clearing h f (dropLoginOnLapsedLease UserNotLoggedIn h (leave h rv ONothing))) g in
  r = (rv, ONothing) ∧ loggedOut h (slot s) g' ∧ g_rpcInFlight g' = g_rpcInFlight g - 1.
Proof.
  intros Hf E Es. cbn [clearing alone]. rewrite E.
  assert (Es' : sessionOf h (onSession h f lib) = Some (f s)) by (unfold sessionOf, onSession; cbn; by apply session_modify; [|apply Hf..]).
  pose proof (leave_lapsed e a h rv (setLib (Some (onSession h f lib)) g) _ _ eq_refl Es') as H. destruct (alone _ _ _ _) as [g' r].
  by rewrite (proj1 (Hf s)) in H.
Qed.

Lemma arm_session h g lib s :
  g_lib g = Some lib → sessionOf h lib = Some s →
  ∃ lib', g_lib (arm (Some h) g) = Some lib' ∧ sessionOf h lib' = Some (withRpc true s) ∧ g_rpcInFlight (arm (Some h) g) = g_rpcInFlight g + 1.
Proof.
  intros E Es. unfold arm. rewrite E. eexists. split; [reflexivity|]. split; [|done]. unfold sessionOf, onSession. cbn. by apply session_modify.
Qed.

Lemma parseAttribute_err t at_ rv : parseAttribute t at_ = Err rv → rv ≠ CKR_USER_NOT_LOGGED_IN.
Proof. destruct t. unfold parseAttribute. intros H. repeat case_match; by simplify_eq. Qed.

Lemma parse_err tmpl n rv : parseDerivedKeyTemplate tmpl n = Err rv → rv ≠ CKR_USER_NOT_LOGGED_IN.
Proof.
  assert (Hl : ∀ l t rv, parseAttributes t l = Err rv → rv ≠ CKR_USER_NOT_LOGGED_IN).
  { induction l as [|x l IH]; intros t rv'; cbn [parseAttributes]; [done|].
    destruct (parseAttribute t x) as [t'|rv1] eqn:Ex; cbn; [apply IH|intros [= <-]; by eapply parseAttribute_err]. }
  unfold parseDerivedKeyTemplate. case_match; [by intros [= <-]|].
  destruct (parseAttributes _ _) as [t|rv1] eqn:Ep; cbn; [|intros [= <-]; by eapply Hl].
  intros H'. repeat case_match; by simplify_eq.
Qed.

(** The calls that use a key. *)
Definition usesKey (c : Call) : option Z :=
  match c with
  | CSign h _ _ | SignFinal h _ | CDecrypt h _ _ | DecryptFinal h _ | DeriveKey h _ _ _ _ _ => Some h
  | _ => None
  end.

(** The outcome of [lapsed] below, for one program. *)
Definition lapses (e : Env) (a : Answers) (h x : Z) (n : Z) (r : Globals * (CK_RV * Out)) : Prop :=
  fst (snd r) = CKR_USER_NOT_LOGGED_IN → loggedOut h x (fst r) ∧ g_rpcInFlight (fst r) = n.

Lemma lapses_other e a h x n g rv out : rv ≠ CKR_USER_NOT_LOGGED_IN → lapses e a h x n (g, (rv, out)).
Proof. by intros ? ?. Qed.

Lemma lapses_ends e a h x n p rv out g : ends e a p (rv, out) → rv ≠ CKR_USER_NOT_LOGGED_IN → lapses e a h x n (alone e a p g).
Proof. intros He Hn. specialize (He g). destruct (alone e a p g) as [g' r]. cbn in He. subst r. by apply lapses_other. Qed.

Section Lapsed.
Context (e : Env) (a : Answers) (Ha : ∀ q, status (a_bytes a q) = UserNotLoggedIn).
Context (h : Z) (g : Globals) (lib : Library) (s : Session).
Context (E : g_lib g = Some lib) (Es : sessionOf h lib = Some s).

Lemma lapses_clearing f rv :
  (∀ s, slot (f s) = slot s ∧ flags (f s) = flags s) →
  lapses e a h (slot s) (g_rpcInFlight g)
    (alone e a (clearing h f (dropLoginOnLapsedLease UserNotLoggedIn h (leave h rv ONothing))) (arm (Some h) g)).
Proof.
  intros Hf _. destruct (arm_session h g lib s E Es) as (lib' & E' & Es' & En).
  pose proof (clearing_lapsed e a h f rv _ lib' _ Hf E' Es') as H. destruct (alone _ _ _ _) as [g' r]. destruct H as (-> & H & Hn).
  split; [done|]. cbn. lia.
Qed.

Lemma lapses_sign input out : lapses e a h (slot s) (g_rpcInFlight g) (alone e a (doSign h input out) g).
Proof.
  destruct out as [buffer|]; [|by apply lapses_other]. cbn [doSign alone]. rewrite E, Es. cbv zeta.
  destruct (negb _); [by apply lapses_other|]. destruct (rpcInFlight s); [by apply lapses_other|].
  case_match; [by eapply lapses_ends; [apply ends_clearing, ends_leave|]|].
  case_match; [eapply lapses_ends; [apply ends_leave|by case_match]|]. cbn [alone].
  rewrite Ha. rewrite bool_decide_eq_false_2 by done. cbn [negb]. by apply lapses_clearing.
Qed.

Lemma lapses_decrypt input out : lapses e a h (slot s) (g_rpcInFlight g) (alone e a (doDecrypt h input out) g).
Proof.
  destruct out as [buffer|]; [|by apply lapses_other]. cbn [doDecrypt alone]. rewrite E, Es. cbv zeta.
  destruct (negb _); [by apply lapses_other|]. destruct (rpcInFlight s); [by apply lapses_other|].
  case_match; [by eapply lapses_ends; [apply ends_leave|]|]. cbn [alone]. rewrite Ha, decide_False by done. by apply lapses_clearing.
Qed.

Lemma lapses_derive m k t n b :
  wf (state lib) → lapses e a h (slot s) (g_rpcInFlight g) (alone e a (C_DeriveKey h m k t n b) g).
Proof.
  intros Hw. cbn [C_DeriveKey alone]. rewrite E. destruct m as [[mech parameter]|]; [|by apply lapses_other].
  destruct (negb b); [by apply lapses_other|]. rewrite Es. destruct (rpcInFlight s) eqn:Ef; [by apply lapses_other|].
  destruct (slotById _ _) as [sl|]; [|by apply lapses_other]. destruct (_ || _); [by apply lapses_other|].
  destruct (isLoggedIn (slot s) (state lib)) eqn:El; cbn [negb]; cycle 1.
  { intros _. cbn. split; [|done]. exists lib, s. split_and!; try done. intros k' key Hk Hs.
    destruct (wf_derived _ Hw _ _ Hk) as (_ & _ & Hl). by rewrite Hs, El in Hl. }
  destruct parameter as [params|]; [|by apply lapses_other]. destruct (_ || _); [by apply lapses_other|].
  destruct (privateKeyOf _ _ _) as [base|]; [|by apply lapses_other]. destruct (negb (bool_decide _)); [by apply lapses_other|].
  destruct (negb (o_derive base)); [by apply lapses_other|]. destruct (publicData params ≫= _) as [point|]; [|by apply lapses_other].
  destruct (parseDerivedKeyTemplate t n) as [wanted|rv] eqn:Ep; [|by apply lapses_other, (parse_err t n)].
  destruct (match t_valueLen wanted with Some _ => _ | None => _ end); [by apply lapses_other|]. cbn [alone].
  rewrite Ha, bool_decide_eq_false_2 by done. cbn [negb]. intros _.
  destruct (arm_session h g lib s E Es) as (lib' & E' & Es' & En).
  pose proof (leave_lapsed e a h (ckrFromStatus UserNotLoggedIn CKR_MECHANISM_PARAM_INVALID) _ lib' _ E' Es') as H.
  destruct (alone _ _ _ _) as [g' r]. destruct H as (-> & H & Hn). split; [done|]. cbn. lia.
Qed.

End Lapsed.

(** When the agent says the login is gone, it is gone for the whole token. A
    signature, decryption or key agreement that ends in [CKR_USER_NOT_LOGGED_IN] leaves
    the token logged out of for every session, none of its derived keys left, the
    session idle and the count of requests in flight as it was. *)
Theorem lapsed_login_ends (e : Env) (a : Answers) (c : Call) (h : Z) (g : Globals) (lib : Library) (s : Session)
    (Ha : ∀ q, status (a_bytes a q) = UserNotLoggedIn) (Hc : usesKey c = Some h) (E : g_lib g = Some lib)
    (Hst : reach (state lib)) (Es : sessionOf h lib = Some s)
    (Hrv : fst (snd (alone e a (program c) g)) = CKR_USER_NOT_LOGGED_IN) :
  loggedOut h (slot s) (fst (alone e a (program c) g)) ∧
  g_rpcInFlight (fst (alone e a (program c) g)) = g_rpcInFlight g.
Proof.
  revert Hrv. change (lapses e a h (slot s) (g_rpcInFlight g) (alone e a (program c) g)).
  destruct c; try done; injection Hc as ->; cbn [program]; unfold C_Sign, C_SignFinal, C_Decrypt, C_DecryptFinal;
    eauto using lapses_sign, lapses_decrypt, lapses_derive, reach_wf.
Qed.

(** ** Keys and their mechanisms *)

Definition accepted (e : Env) (a : Answers) (c : Call) (g : Globals) : Prop := snd (alone e a (program c) g) = (CKR_OK, ONothing).

Lemma mechanism_member sl m : slotHasMechanism sl m = true ↔ advertised sl m.
Proof.
  unfold slotHasMechanism, advertised. rewrite existsb_exists. split.
  - intros (x & Hx & ->%Z.eqb_eq). by apply list_elem_of_In.
  - intros Hm%list_elem_of_In. exists m. by rewrite Z.eqb_refl.
Qed.

Section Init.
Context (e : Env) (a : Answers) (h hKey : Z) (g : Globals) (lib : Library) (s : Session) (sl : Slot).
Context (E : g_lib g = Some lib) (Es : sessionOf h lib = Some s) (Esl : slotById (slot s) (state lib) = Some sl).

Lemma signInit_iff m :
  sign_active (sign s) = false →
  accepted e a (SignInit h (Some m) hKey) g ↔
  ∃ obj, privateKeyOf (slot s) hKey (state lib) = Some obj ∧ advertised sl m ∧ o_sign obj = true ∧
    (m = CKM_RSA_PKCS ∨ m = CKM_SHA256_RSA_PKCS ∨ m = CKM_ECDSA) ∧ (m = CKM_ECDSA ↔ o_keyType obj = Key.Ec).
Proof.
  intros Ea. unfold accepted. cbn [program C_SignInit alone]. rewrite E, Es, Ea, Esl. setoid_rewrite <- mechanism_member.
  destruct (privateKeyOf (slot s) hKey (state lib)) as [obj|]; cycle 1.
  { split; [by destruct (_ || _)|by intros (? & ? & _)]. }
  destruct (slotHasMechanism sl m); cbn [negb]; rewrite ?orb_true_r, ?orb_false_r; cycle 1.
  { split; [done|]. by intros (? & _ & ? & _). }
  split.
  - destruct (negb _) eqn:Em; [done|]. destruct (xorb _ _) eqn:Ex; [done|]. destruct (negb (o_sign obj)) eqn:Eo; [done|]. intros _.
    exists obj. bool_hyps. destruct (Z.eqb_spec m CKM_ECDSA); case_bool_decide; try done; split_and!; try done; lia.
  - intros (obj' & [= <-] & _ & Ho & H3 & Hf). rewrite Ho. cbn [negb].
    assert ((m =? CKM_RSA_PKCS) || (m =? CKM_SHA256_RSA_PKCS) || (m =? CKM_ECDSA) = true) as -> by (destruct H3 as [->|[->| ->]]; done).
    cbn [negb]. destruct (Z.eqb_spec m CKM_ECDSA) as [Em|Em]; case_bool_decide as Eb; try done; exfalso; naive_solver.
Qed.

Lemma decryptInit_iff m :
  decrypt_active (decrypt s) = false →
  accepted e a (DecryptInit h (Some m) hKey) g ↔
  ∃ obj, privateKeyOf (slot s) hKey (state lib) = Some obj ∧ advertised sl m ∧ decryptsWith m obj.
Proof.
  intros Ea. unfold accepted, decryptsWith. cbn [program C_DecryptInit alone]. rewrite E, Es, Ea, Esl. setoid_rewrite <- mechanism_member.
  destruct (privateKeyOf (slot s) hKey (state lib)) as [obj|]; cycle 1.
  { split; [by destruct (_ || _)|by intros (? & ? & _)]. }
  split.
  - destruct (_ || _) eqn:Em; [done|]. destruct (negb (bool_decide _)) eqn:Ek; [done|]. destruct (negb (o_decrypt obj)) eqn:Eo; [done|].
    intros _. exists obj. bool_hyps. by subst.
  - intros (obj' & [= <-] & Hm & -> & -> & ->). by rewrite Hm.
Qed.

End Init.

(** What a token offers can be used. For a card whose certificates a transport
    reported, every private key a search shows with [CKA_SIGN] or [CKA_DECRYPT] has an
    advertised mechanism that [C_SignInit] or [C_DecryptInit] accepts with the handle the
    search returned. Conversely, an operation is accepted only for a private key of the
    token that permits it, with an advertised mechanism of the key's own family. *)
Theorem offered_keys_usable (e : Env) (a : Answers) (h : Z) (g : Globals) (lib : Library) (s : Session) (preAuth : Z) (r : ReaderState)
    (E : g_lib g = Some lib) (Hst : reach (state lib)) (Es : sessionOf h lib = Some s)
    (Esl : slotById (slot s) (state lib) = Some (slotOf r)) (Hr : reported preAuth r)
    (Hl : zlen (s_objects (slotOf r)) < 2 ^ 32 - 1)
    (Hsign : sign_active (sign s) = false) (Hdec : decrypt_active (decrypt s) = false) :
  (∀ i obj, s_objects (slotOf r) !! i = Some obj → isPrivate obj = true →
     (o_sign obj = true → ∃ m, advertised (slotOf r) m ∧ accepted e a (SignInit h (Some m) (encodeHandle (slot s) i)) g) ∧
     (o_decrypt obj = true → ∃ m, advertised (slotOf r) m ∧ accepted e a (DecryptInit h (Some m) (encodeHandle (slot s) i)) g)) ∧
  (∀ m hKey, accepted e a (SignInit h (Some m) hKey) g →
     ∃ obj, obj ∈ s_objects (slotOf r) ∧ isPrivate obj = true ∧ advertised (slotOf r) m ∧ signsWith m obj) ∧
  (∀ m hKey, accepted e a (DecryptInit h (Some m) hKey) g →
     ∃ obj, obj ∈ s_objects (slotOf r) ∧ isPrivate obj = true ∧ advertised (slotOf r) m ∧ decryptsWith m obj).
Proof.
  assert (Hw := reach_wf _ Hst).
  assert (Hpriv : ∀ hKey obj, privateKeyOf (slot s) hKey (state lib) = Some obj → obj ∈ s_objects (slotOf r) ∧ isPrivate obj = true).
  { intros hKey obj Ho. unfold privateKeyOf, resolveObject in Ho. rewrite Esl in Ho. cbn [mbind option_bind] in Ho.
    repeat case_match; simplify_eq. split; [by eapply list_elem_of_lookup_2|done]. }
  assert (Hcert : ∀ obj, obj ∈ s_objects (slotOf r) → isPrivate obj = true →
    hasCard r = true ∧ ∃ cert, cert ∈ certs r ∧ surfaces cert = true ∧ obj = privateOf cert).
  { intros obj Hin Hp. destruct (slotOf_card r) as [Eo _]. rewrite Eo in Hin. destruct (hasCard r); [|by apply not_elem_of_nil in Hin].
    split; [done|]. apply elem_of_objects; [done|by apply Z.eqb_eq]. }
  split_and!.
  - intros i obj Hi Hp. destruct (handles_resolve _ _ _ _ _ Hw Esl Hl Hi) as [Hres _].
    assert (Hk : privateKeyOf (slot s) (encodeHandle (slot s) i) (state lib) = Some obj) by (unfold privateKeyOf; by rewrite Hres, Hp).
    destruct (Hcert obj) as (Hcard & cert & Hin & Hs & ->); [by eapply list_elem_of_lookup_2|done|].
    destruct (slotOf_card r) as [_ Em]. rewrite Hcard in Em. unfold advertised. rewrite Em. split; intros Ho.
    + destruct (Token.sign_mechanism _ _ Hin Hs Ho) as (m & Hm & Hw'). exists m. split; [done|].
      eapply signInit_iff; [done..|]. exists (privateOf cert). unfold advertised. rewrite Em. split_and!; [done..| |].
      * destruct Hw' as [_ [[-> _]|[? _]]]; naive_solver.
      * destruct Hw' as [_ [[-> ?]|[[->| ->] Hrsa]]]; [done|by rewrite Hrsa..].
    + destruct (Token.decrypt_mechanism _ _ _ Hr Hin Hs Ho) as (m & Hm & Hw'). exists m. split; [done|].
      eapply decryptInit_iff; [done..|]. exists (privateOf cert). unfold advertised. by rewrite Em.
  - intros m hKey (obj & Hk & Hm & Ho & H3 & Hf)%(signInit_iff e a h hKey g lib s (slotOf r) E Es Esl m Hsign).
    destruct (Hpriv _ _ Hk) as [Hin Hp]. exists obj. split_and!; [done..|]. split; [done|].
    destruct (Hcert obj Hin Hp) as (_ & cert & _ & Hs & ->). unfold surfaces in Hs. cbn in *.
    destruct (keyType cert); [right|left|]; naive_solver.
  - intros m hKey (obj & Hk & Hm & Ho)%(decryptInit_iff e a h hKey g lib s (slotOf r) E Es Esl m Hdec).
    destruct (Hpriv _ _ Hk) as [Hin Hp]. exists obj. done.
Qed.

(** ** Witnesses *)

(** A card with an RSA and an EC certificate, a session on it, the user logged in. *)
Definition cardReader : ReaderState :=
  mkReader "obj/1" "Reader" true "Ana" "7"
    (omap (λ c, certEntryFrom c PreReadAuth_None)
       [mkNeutral "a" [1] Key.Rsa 2048 true false 4 false "Ana"; mkNeutral "b" [2] Key.Ec 256 true true 4 true ""]).
Definition cardState : SessionState :=
  foldl (λ st op, run op st) emptyState [OSetModel (build [cardReader]); OOpenSession 0 4; OSetLoggedIn 0 10].
Definition cardLib (sg : SignCursor) : Library := onSession 1 (withSign sg) (mkLibrary cardState ∅ []).
Definition cardGlobals (sg : SignCursor) : Globals := mkGlobals (Some (cardLib sg)) 0 0 0.
Definition cardSession (sg : SignCursor) : Session := mkSession 0 4 noFind sg noDecrypt false.

Lemma cardState_reach sg : reach (state (cardLib sg)).
Proof.
  assert (Hr : reach cardState).
  { unfold cardState. cbn [foldl].
    repeat (apply reach_step; [|repeat (split; [vm_compute; reflexivity|]); try exact I; eexists; split_and!; vm_compute; reflexivity]).
    apply reach_empty. }
  apply (reach_step cardState (OSession 1 noFind sg noDecrypt false) Hr). repeat (split; [vm_compute; reflexivity|]). exact I.
Qed.

(** The agent with both certificates, and answers that grant everything. *)
Definition certificates : Env :=
  mkEnv (λ _ id, mkBytes Ok_ (encodeCertificate (mkTbs None [7] [6; 1; 42] [49; 0] [5; 0] (if String.eqb id "a" then [49; 0] else [49; 1; 0]) [48; 0]) [3; 0]))
    (λ _ _ _, Err GeneralError) 10.
Definition granting : Answers := mkAnswers [cardReader] (λ _, Ok_) (λ _, Some true) (λ _, mkBytes Ok_ (replicate 256 9)).
Definition lapsedAnswers : Answers := mkAnswers [cardReader] (λ _, Ok_) (λ _, Some true) (λ _, mkBytes UserNotLoggedIn []).

Definition rsaCursor : SignCursor := mkSign true "obj/1" "a" 2048 CKM_RSA_PKCS Key.Rsa [].

Example search_enumerated_witness :
  selected certificates 1 (Some [mkAttr CKA_SUBJECT (Some [48; 3; 49; 1; 0]) 5]) 1 (cardLib noSign) (cardSession noSign) (slotOf cardReader) = [4] ∧
  let '(_, rs) := aloneAll certificates granting
    ([FindObjectsInit 1 (Some [mkAttr CKA_SUBJECT (Some [48; 3; 49; 1; 0]) 5]) 1] ++ map (FindObjects 1 true) [1; 1] ++ [FindObjectsFinal 1])
    (cardGlobals noSign) in handlesOf rs = [4].
Proof.
  split; [by vm_compute|].
  pose proof (search_enumerated certificates granting 1 (Some [mkAttr CKA_SUBJECT (Some [48; 3; 49; 1; 0]) 5]) 1 [1; 1] (cardGlobals noSign)
    (cardLib noSign) (cardSession noSign) (slotOf cardReader) eq_refl ltac:(by vm_compute) ltac:(by vm_compute) eq_refl) as H.
  destruct (aloneAll _ _ _ _) as [g rs]. destruct H as (_ & -> & _). by vm_compute.
Defined.

Example parts_as_one_witness :
  snd (alone certificates granting (program (CSign 1 [1; 2; 3] (Some (Some 256)))) (cardGlobals rsaCursor)) = (CKR_OK, OBytes (replicate 256 9)) ∧
  let '(g, rs) := aloneAll certificates granting (map (SignUpdate 1) [[1]; [2; 3]]) (cardGlobals rsaCursor) in
  snd (alone certificates granting (program (SignFinal 1 (Some (Some 256)))) g) = (CKR_OK, OBytes (replicate 256 9)).
Proof.
  split; [by vm_compute|].
  destruct (parts_as_one certificates granting 1 [[1]; [2; 3]] (Some (Some 256)) (cardGlobals rsaCursor) (cardLib rsaCursor)
    (cardSession rsaCursor) eq_refl ltac:(by vm_compute) eq_refl) as [H _].
  specialize (H eq_refl eq_refl). destruct (aloneAll _ _ _ _) as [g rs]. destruct H as (_ & ->). by vm_compute.
Defined.

Example lapsed_login_ends_witness :
  isLoggedIn 0 cardState = true ∧
  loggedOut 1 0 (fst (alone certificates lapsedAnswers (program (CSign 1 [1; 2; 3] (Some (Some 256)))) (cardGlobals rsaCursor))).
Proof.
  split; [by vm_compute|].
  by apply (lapsed_login_ends certificates lapsedAnswers (CSign 1 [1; 2; 3] (Some (Some 256))) 1 (cardGlobals rsaCursor) (cardLib rsaCursor)
    (cardSession rsaCursor)); [|..|apply cardState_reach| |]; vm_compute.
Defined.

Example offered_keys_usable_witness :
  ∃ m, advertised (slotOf cardReader) m ∧ accepted certificates granting (DecryptInit 1 (Some m) (encodeHandle 0 2)) (cardGlobals noSign).
Proof.
  destruct (offered_keys_usable certificates granting 1 (cardGlobals noSign) (cardLib noSign) (cardSession noSign) PreReadAuth_None cardReader)
    as (H & _); [done|apply cardState_reach|by vm_compute|by vm_compute|by eexists|by vm_compute|done|done|].
  eapply (H 2%nat); by vm_compute.
Defined.

(** ** Two races *)

(** What the library says of slot 0: logged in to or not, and the card it shows. *)
Definition slotView (cfg : Config) : option (bool * string) :=
  match g_lib (c_globals cfg) with
  | Some lib => (λ sl, (isLoggedIn 0 (state lib), s_tokenSerial sl)) <$> slotById 0 (state lib)
  | None => None
  end.

Definition otherReader : ReaderState := mkReader "obj/1" "Reader" true "Eva" "8" [signer].

(** Thread 0 has asked for a login to card 7; thread 1 then learns that card 8 is there. *)
Definition loginAsked : list Event :=
  [ECall 0 (Initialize None); ELock 0 quiet; EReturn 0;
   ECall 0 (OpenSession 0 4 true); ELock 0 quiet; ESnapshot 0 [reader]; ELock 0 quiet; ELock 0 quiet; EReturn 0;
   ECall 0 (Login 1 CKU_USER); ELock 0 quiet].
Definition cardChanged : list Event :=
  loginAsked ++
  [ECall 1 (GetSlotList true (Some None)); ELock 1 quiet; ESnapshot 1 [otherReader]; ELock 1 quiet; ELock 1 quiet; EReturn 1].
Definition loginAnswered : list Event := cardChanged ++ [ELogin 0 Ok_; ELock 0 quiet; ELock 0 quiet].

(** The answer to a login asked for while one card was there is recorded for the card
    that is there when it arrives: [C_Login], unlike [C_DeriveKey], does not check that
    the slot still shows the card it logged in to. *)
Theorem login_recorded_for_another_card :
  plays loginAnswered = true ∧
  slotView (played loginAsked) = Some (false, "7") ∧ slotView (played cardChanged) = Some (false, "8") ∧
  slotView (played loginAnswered) = Some (true, "8") ∧
  returned <$> c_threads (played loginAnswered) !! 0%nat = Some (Some (CKR_OK, ONothing)).
Proof. by vm_compute. Qed.

(** The sign operation of session 1. *)
Definition signCursor (cfg : Config) : option SignCursor :=
  match g_lib (c_globals cfg) with Some lib => sign <$> sessionOf 1 lib | None => None end.

Definition finalAsked : list Event :=
  setup ++
  [ECall 0 (SignInit 1 (Some CKM_ECDSA) 3); ELock 0 quiet; EReturn 0; ECall 0 (SignUpdate 1 (replicate 32 7)); ELock 0 quiet; EReturn 0;
   ECall 0 (SignFinal 1 (Some (Some 64))); ELock 0 quiet].
Definition lateUpdate : list Event := finalAsked ++ [ECall 1 (SignUpdate 1 [1; 2; 3]); ELock 1 quiet].
Definition finalAnswered : list Event := lateUpdate ++ [EBytes 0 (mkBytes Ok_ (replicate 64 3)); ELock 0 quiet; ELock 0 quiet].

(** Bytes given to [C_SignUpdate] while [C_SignFinal] waits for the agent are accepted
    with [CKR_OK] and dropped: they are in no signature. [C_DecryptUpdate] refuses the
    same with [CKR_OPERATION_ACTIVE]. *)
Theorem update_lost_during_final :
  plays finalAnswered = true ∧
  requestOf <$> c_threads (played finalAsked) !! 0%nat = Some (Some (SignRaw "obj/1" "c" RawCrypto.EcdsaSign (replicate 32 7))) ∧
  returned <$> c_threads (played lateUpdate) !! 1%nat = Some (Some (CKR_OK, ONothing)) ∧
  returned <$> c_threads (played finalAnswered) !! 0%nat = Some (Some (CKR_OK, OBytes (replicate 64 3))) ∧
  signCursor (played finalAnswered) = Some noSign.
Proof. by vm_compute. Qed.

End CryptokiCalls.
