(* ===== verification/Broker.v ===== *)
(** * The PKCS#11 broker

    Models [src/pkcs11/Pkcs11Broker.cpp], the seams [src/AgentCore.cpp] wires into it
    and the error tables of [src/value/SyncErrorTaxonomy.cpp]: the gates a caller
    passes before the card's key is used. The code runs on several threads (the bus
    dispatches requests, the authority answers later, a worker per reader runs the
    card operations), so the broker is a state with the continuations it has handed
    out, and an event is one of them being called. The leases and the PIN budget are
    those of [Leases] and [RateLimiter]; a job's calls are those of the flow of
    [RawCrypto]. What [resolveCardKey] answers and the clock's reading are arguments. *)
From S2P Require Import Prelude RateLimiter Leases Vocabulary RawCrypto.
Local Open Scope Z_scope.

Module Broker.
Import Leases Vocabulary RawCrypto.

(** ** Outcomes and their wire errors *)

Inductive CryptoOutcome :=
| CryptoOk | CryptoCancelled | CryptoKeyNotFound | CryptoAuthFailed | CryptoNotSupported
| CryptoCardError | CryptoUnknownCard | CryptoUserNotLoggedIn | CryptoRateLimited | CryptoInvalidInput.

#[export] Instance CryptoOutcome_eq_dec : EqDecision CryptoOutcome.
Proof. solve_decision. Defined.

Record CryptoResult := mkCryptoResult { cryptoOutcome : CryptoOutcome; cryptoBytes : list Z }.

Inductive LoginOutcome :=
| LoginOk | LoginCancelled | LoginNotAuthorizedByCard | LoginCardError | LoginUnknownCard
| LoginNotAuthorized.

Inductive AuthorizationOutcome := Granted | Denied | Undecided.

#[export] Instance AuthorizationOutcome_eq_dec : EqDecision AuthorizationOutcome.
Proof. solve_decision. Defined.

Inductive EntryError :=
| UnknownVerb | UnknownOption | UnknownCredential | InvalidCombination | AmbiguousCredential.

Definition cryptoToSyncError (o : CryptoOutcome) : Sync.SyncError :=
  match o with
  | CryptoCancelled => Sync.Cancelled
  | CryptoKeyNotFound => Sync.KeyNotFound
  | CryptoAuthFailed => Sync.AuthFailed
  | CryptoNotSupported => Sync.NotSupported
  | CryptoUnknownCard => Sync.UnknownCard
  | CryptoUserNotLoggedIn => Sync.UserNotLoggedIn
  | CryptoRateLimited => Sync.RateLimited
  | CryptoInvalidInput => Sync.InvalidRequest
  | CryptoOk | CryptoCardError => Sync.CommunicationError
  end.

Definition loginToSyncError (o : LoginOutcome) : Sync.SyncError :=
  match o with
  | LoginCancelled => Sync.Cancelled
  | LoginNotAuthorizedByCard => Sync.AuthFailed
  | LoginUnknownCard => Sync.UnknownCard
  | LoginNotAuthorized => Sync.NotAuthorized
  | LoginOk | LoginCardError => Sync.CommunicationError
  end.

Definition entryToSyncError (e : EntryError) : Sync.SyncError :=
  match e with
  | UnknownCredential => Sync.UnknownCredential
  | UnknownVerb | UnknownOption | InvalidCombination | AmbiguousCredential => Sync.InvalidRequest
  end.

(** ** Requests *)

Record Caller := mkCaller { busName : string; label : string }.

Definition kEcdhKdfNull : Z := 1.

Inductive MechanismParams :=
| MechParamsEmpty
| MechParamsEcdh (peerPublicPoint : list Z) (kdf : Z) (sharedData : list Z).

(** The crypto operations the host wired. *)
Record Deps := mkDeps { hasSignRaw : bool; hasDecrypt : bool; hasDerive : bool }.

(** A crypto operation handed to a worker: the arguments of the seam, the lease key
    its [LeasePinState] is bound to, the calls the flow made so far and the result
    its completion was called with. *)
Record Job := mkJob {
  jobReader : string; jobCertId : string; jobMechanism : Mechanism; jobParams : MechanismParams;
  jobInput : list Z; jobRequester : string; jobKey : LeaseKey;
  jobCalls : list Call; jobResult : option CryptoResult }.

(** A request's reply; a dropped one fails closed when its closure is destroyed. *)
Inductive Reply :=
| CryptoReplied (bytes : list Z)
| CryptoFailed (o : CryptoOutcome)
| LoginReplied (idleSecs : Z)
| LoginFailed (o : LoginOutcome)
| Dropped.

Record State := mkState {
  lease : LeaseManager;
  m_rateLimiter : gmap string RateLimiter.CallerState;
  shutdown : bool;
  authorizing : list (string * Caller);   (** the [authorizeAsync] completions not yet called *)
  opening : list LeaseKey;                (** the login seam's completions not yet called *)
  jobs : list Job }.

Definition setLease (st : State) (l : LeaseManager) : State :=
  mkState l (m_rateLimiter st) (shutdown st) (authorizing st) (opening st) (jobs st).
Definition setLimiter (st : State) (r : gmap string RateLimiter.CallerState) : State :=
  mkState (lease st) r (shutdown st) (authorizing st) (opening st) (jobs st).
Definition setAuthorizing (st : State) (l : list (string * Caller)) : State :=
  mkState (lease st) (m_rateLimiter st) (shutdown st) l (opening st) (jobs st).
Definition setOpening (st : State) (l : list LeaseKey) : State :=
  mkState (lease st) (m_rateLimiter st) (shutdown st) (authorizing st) l (jobs st).
Definition setJobs (st : State) (l : list Job) : State :=
  mkState (lease st) (m_rateLimiter st) (shutdown st) (authorizing st) (opening st) l.
Definition setShutdown (st : State) : State :=
  mkState (lease st) (m_rateLimiter st) true (authorizing st) (opening st) (jobs st).

(** What an event shows: the authority's yes for a caller and the card it resolved
    to, an operation on the leases, a job handed to a worker at a time, a call of a
    job's flow, a reply. *)
Inductive Label :=
| LAuthorized (key : LeaseKey)
| LLease (op : LeaseOp)
| LStart (j : nat) (key : LeaseKey) (mechanism : Mechanism) (now : Z)
| LCall (j : nat) (key : LeaseKey) (call : Call)
| LReply (r : Reply).

(** ** Public data *)

Definition certDer (cardKey : option Z) (der : option (list Z)) : Reply :=
  match cardKey with
  | None => CryptoFailed CryptoUnknownCard
  | Some _ =>
      match der with
      | None => CryptoFailed CryptoKeyNotFound
      | Some der => CryptoReplied der
      end
  end.

(** Whatever a certificate's public key is made of. *)
Definition publicKey {PublicKey : Type} (cardKey : option Z) (pk : result CryptoOutcome PublicKey) :
    result CryptoOutcome PublicKey :=
  match cardKey with
  | None => Err CryptoUnknownCard
  | Some _ => pk
  end.

(** ** Login *)

Definition login (reader : string) (caller : Caller) (st : State) : State :=
  setAuthorizing st (authorizing st ++ [(reader, caller)]).

Definition continueLogin (cardKey : option Z) (caller : Caller) (st : State) : State * list Label :=
  match cardKey with
  | None => (st, [LReply (LoginFailed LoginUnknownCard)])
  | Some card =>
      let key := mkLeaseKey (busName caller) card in
      (setOpening st (opening st ++ [key]), [LAuthorized key])
  end.

(** The completion [login] passes to [authorizeAsync]. *)
Definition authorized (i : nat) (outcome : AuthorizationOutcome) (cardKey : option Z) (st : State) :
    option (State * list Label) :=
  match authorizing st !! i with
  | None => None
  | Some (_, caller) =>
      let st := setAuthorizing st (delete i (authorizing st)) in
      Some (if negb (bool_decide (outcome = Granted)) then (st, [LReply (LoginFailed LoginNotAuthorized)])
            else if shutdown st then (st, [LReply Dropped])
            else continueLogin cardKey caller st)
  end.

(** The completion [continueLogin] passes to the login seam. *)
Definition loginDone (i : nat) (outcome : LoginOutcome) (now : Z) (st : State) :
    option (State * list Label) :=
  match opening st !! i with
  | None => None
  | Some key =>
      let st := setOpening st (delete i (opening st)) in
      Some match outcome with
      | LoginCancelled => (st, [LReply (LoginFailed LoginCancelled)])
      | LoginNotAuthorizedByCard => (st, [LReply (LoginFailed LoginNotAuthorizedByCard)])
      | LoginCardError => (st, [LReply (LoginFailed LoginCardError)])
      | LoginUnknownCard | LoginNotAuthorized => (st, [LReply (LoginFailed LoginCardError)])
      | LoginOk =>
          (setLease st (grant key now (lease st)),
           [LLease (OpGrant key now); LReply (LoginReplied (u32 (idleTimeout (m_config (lease st)))))])
      end
  end.

Definition logout (cardKey : option Z) (caller : Caller) (st : State) : State * list Label :=
  match cardKey with
  | None => (st, [])
  | Some card =>
      let key := mkLeaseKey (busName caller) card in
      (setLease st (revoke key (lease st)), [LLease (OpRevoke key)])
  end.

Definition loginActive (cardKey : option Z) (caller : Caller) (now : Z) (st : State) :
    bool * (State * list Label) :=
  match cardKey with
  | None => (false, (st, []))
  | Some card =>
      let key := mkLeaseKey (busName caller) card in
      let '(active, l) := isActive key now (lease st) in
      (active, (setLease st l, [LLease (OpIsActive key now)]))
  end.

(** ** Crypto operations *)

Definition runCrypto (allowedMechanisms : list Mechanism) (seam : bool) (mechanism : Mechanism)
    (params : MechanismParams) (reader certId : string) (bytes : list Z) (caller : Caller)
    (cardKey : option Z) (now : Z) (st : State) : State * list Label :=
  if negb (bool_decide (mechanism ∈ allowedMechanisms)) then (st, [LReply (CryptoFailed CryptoNotSupported)])
  else if negb seam then (st, [LReply (CryptoFailed CryptoNotSupported)])
  else
    match cardKey with
    | None => (st, [LReply (CryptoFailed CryptoUnknownCard)])
    | Some card =>
        let key := mkLeaseKey (busName caller) card in
        let '(live, l) := touch key now (lease st) in
        let st := setLease st l in
        if negb live then (st, [LLease (OpTouch key now); LReply (CryptoFailed CryptoUserNotLoggedIn)])
        else
          (setJobs st (jobs st ++
             [mkJob reader certId mechanism params bytes (label caller) key [] None]),
           [LLease (OpTouch key now); LStart (length (jobs st)) key mechanism now])
    end.

Definition signRaw (d : Deps) (reader certId : string) (mechanism : Mechanism) (params : MechanismParams)
    (input : list Z) (caller : Caller) (cardKey : option Z) (now : Z) (st : State) : State * list Label :=
  runCrypto [RsaPkcs1Sign; Sha256RsaPkcs1Sign; EcdsaSign] (hasSignRaw d) mechanism params reader certId
    input caller cardKey now st.

Definition decrypt (d : Deps) (reader certId : string) (mechanism : Mechanism) (params : MechanismParams)
    (ciphertext : list Z) (caller : Caller) (cardKey : option Z) (now : Z) (st : State) : State * list Label :=
  runCrypto [RsaPkcs1Decrypt] (hasDecrypt d) mechanism params reader certId ciphertext caller cardKey now st.

Definition derive (d : Deps) (reader certId : string) (params : MechanismParams) (caller : Caller)
    (cardKey : option Z) (now : Z) (st : State) : State * list Label :=
  match params with
  | MechParamsEcdh peer kdf shared =>
      if negb (kdf =? kEcdhKdfNull) || negb (isEmpty shared)
      then (st, [LReply (CryptoFailed CryptoNotSupported)])
      else runCrypto [EcdhDerive] (hasDerive d) EcdhDerive params reader certId peer caller cardKey now st
  | MechParamsEmpty => (st, [LReply (CryptoFailed CryptoNotSupported)])
  end.

(** The [LeasePinState] bound to a key: the answer a call of the flow gets and what it
    does to the leases and the budget. Calls of the flow's other collaborators leave
    the broker alone. *)
Definition pinState (key : LeaseKey) (call : Call) (now : Z) (st : State) : option (State * list LeaseOp) :=
  match call with
  | CVerified b => if Bool.eqb b (Leases.isPinVerified key (lease st)) then Some (st, []) else None
  | CMark => Some (setLease st (Leases.markPinVerified key (lease st)), [OpMark key])
  | CClear => Some (setLease st (Leases.clearPinVerified key (lease st)), [OpClear key])
  | CAllow b =>
      let '(ok, r) := RateLimiter.allow (caller key) now (m_rateLimiter st) in
      if Bool.eqb b ok then Some (setLimiter st r, []) else None
  | _ => Some (st, [])
  end.

(** A call of job [j]'s flow. *)
Definition worker (j : nat) (call : Call) (now : Z) (st : State) : option (State * list Label) :=
  job ← jobs st !! j;
  match jobResult job with
  | Some _ => None
  | None =>
      '(st, ops) ← pinState (jobKey job) call now st;
      Some (setJobs st (<[j := mkJob (jobReader job) (jobCertId job) (jobMechanism job) (jobParams job)
                                 (jobInput job) (jobRequester job) (jobKey job)
                                 (jobCalls job ++ [call]) None]> (jobs st)),
            LCall j (jobKey job) call :: map LLease ops)
  end.

(** The completion [runCrypto] passes to the seam. *)
Definition cryptoDone (j : nat) (result : CryptoResult) (st : State) : option (State * list Label) :=
  job ← jobs st !! j;
  match jobResult job with
  | Some _ => None
  | None =>
      let st := setJobs st (<[j := mkJob (jobReader job) (jobCertId job) (jobMechanism job) (jobParams job)
                                     (jobInput job) (jobRequester job) (jobKey job)
                                     (jobCalls job) (Some result)]> (jobs st)) in
      Some match cryptoOutcome result with
      | CryptoOk => (st, [LReply (CryptoReplied (cryptoBytes result))])
      | CryptoAuthFailed =>
          if shutdown st then (st, [LReply Dropped])
          else (setLease st (revoke (jobKey job) (lease st)),
                [LLease (OpRevoke (jobKey job)); LReply (CryptoFailed CryptoAuthFailed)])
      | o => (st, [LReply (CryptoFailed o)])
      end
  end.

Definition onCardRemoved (c : Z) (st : State) : State * list Label :=
  (setLease st (revokeCard c (lease st)), [LLease (OpRevokeCard c)]).

Definition onClientDisconnected (c : string) (st : State) : State * list Label :=
  (setLease st (revokeCaller c (lease st)), [LLease (OpRevokeCaller c)]).

(** ** The seams of the agent *)

(** [None]: the completion is not called. The arguments are whether the reader has a
    card, whether its worker took the closure, the shutdown token and whether the
    card session was acquired. *)
Definition loginSeam (readerCard queued cancelled acquired : bool) : option LoginOutcome :=
  if negb readerCard then Some LoginCardError
  else if negb queued then Some LoginCardError
  else if cancelled then None
  else Some (if acquired then LoginOk else LoginCardError).

(** [runRawCrypto] wires every collaborator of the flow. *)
Definition agentWiring : Wiring := mkWiring true true true true true (λ _, true).

Definition toCryptoOutcome (o : Outcome) : CryptoOutcome :=
  match o with
  | FOk => CryptoOk
  | FCancelled => CryptoCancelled
  | FKeyNotFound => CryptoKeyNotFound
  | FAuthFailed => CryptoAuthFailed
  | FNotSupported => CryptoNotSupported
  | FCardError => CryptoCardError
  | FRateLimited => CryptoRateLimited
  | FInvalidInput => CryptoInvalidInput
  end.

Definition runRawCrypto {E : Type} `{!FlowEnv E} (mechanism : Mechanism) (s : E) : CryptoResult * E :=
  let '(r, s) := run agentWiring mechanism s in
  (mkCryptoResult (toCryptoOutcome (outcome r)) (resultBytes r), s).

(** What [runRawCryptoOnWorker] calls the completion with; [None]: it does not. *)
Definition runRawCryptoOnWorker (readerCard queued cancelled : bool) (result : CryptoResult) :
    option CryptoResult :=
  if negb readerCard then Some (mkCryptoResult CryptoCardError [])
  else if negb queued then Some (mkCryptoResult CryptoCardError [])
  else if cancelled then None
  else Some result.

(** ** Events *)

Inductive Event :=
| ELogin (reader : string) (caller : Caller)
| EAuthorized (i : nat) (outcome : AuthorizationOutcome) (cardKey : option Z)
| ELoginDone (i : nat) (outcome : LoginOutcome) (now : Z)
| ELogout (cardKey : option Z) (caller : Caller)
| ELoginActive (cardKey : option Z) (caller : Caller) (now : Z)
| ESignRaw (reader certId : string) (mechanism : Mechanism) (params : MechanismParams) (input : list Z)
    (caller : Caller) (cardKey : option Z) (now : Z)
| EDecrypt (reader certId : string) (mechanism : Mechanism) (params : MechanismParams) (ciphertext : list Z)
    (caller : Caller) (cardKey : option Z) (now : Z)
| EDerive (reader certId : string) (params : MechanismParams) (caller : Caller) (cardKey : option Z) (now : Z)
| EWorker (j : nat) (call : Call) (now : Z)
| ECryptoDone (j : nat) (result : CryptoResult)
| ECardRemoved (c : Z)
| EClientDisconnected (c : string)
| EShutdown.

(** [None]: the event does not happen in this state. *)
Definition step (d : Deps) (st : State) (ev : Event) : option (State * list Label) :=
  match ev with
  | ELogin reader caller => Some (login reader caller st, [])
  | EAuthorized i outcome cardKey => authorized i outcome cardKey st
  | ELoginDone i outcome now => loginDone i outcome now st
  | ELogout cardKey caller => Some (logout cardKey caller st)
  | ELoginActive cardKey caller now => Some (snd (loginActive cardKey caller now st))
  | ESignRaw reader certId m p input caller cardKey now =>
      Some (signRaw d reader certId m p input caller cardKey now st)
  | EDecrypt reader certId m p input caller cardKey now =>
      Some (decrypt d reader certId m p input caller cardKey now st)
  | EDerive reader certId p caller cardKey now => Some (derive d reader certId p caller cardKey now st)
  | EWorker j call now => worker j call now st
  | ECryptoDone j result => cryptoDone j result st
  | ECardRemoved c => Some (onCardRemoved c st)
  | EClientDisconnected c => Some (onClientDisconnected c st)
  | EShutdown => Some (setShutdown st, [])
  end.

Fixpoint steps (d : Deps) (st : State) (evs : list Event) : option (State * list Label) :=
  match evs with
  | [] => Some (st, [])
  | ev :: evs =>
      '(st, ls) ← step d st ev;
      '(st, rest) ← steps d st evs;
      Some (st, ls ++ rest)
  end.

(** [AgentCore::revokeLeases], on a screen lock and on suspend: the registered cards'
    leases go one after the other. *)
Definition revokeLeases (cards : list Z) : list Event := map ECardRemoved cards.

Definition initial (c : LeaseConfig) : State := mkState (emptyManager c) ∅ false [] [] [].

(** A state the broker can be in, with everything shown on the way to it. *)
Inductive reach (c : LeaseConfig) (d : Deps) : State → list Label → Prop :=
| reach_initial : reach c d (initial c) []
| reach_step st tr ev st' ls :
    reach c d st tr → step d st ev = Some (st', ls) → reach c d st' (tr ++ ls).

Lemma reach_steps c d st tr evs st' ls :
  reach c d st tr → steps d st evs = Some (st', ls) → reach c d st' (tr ++ ls).
Proof.
  revert st tr ls. induction evs as [|ev evs IH]; intros st tr ls Hr; cbn.
  { intros [= -> <-]. by rewrite app_nil_r. }
  destruct (step d st ev) as [[st1 ls1]|] eqn:E; cbn; [|done].
  destruct (steps d st1 evs) as [[st2 ls2]|] eqn:E2; cbn; [|done].
  intros [= -> <-]. rewrite (assoc_L (++)). eapply IH; [by eapply reach_step|done].
Qed.

(** ** What a trace says about the state *)

Definition leaseOp (l : Label) : option LeaseOp := match l with LLease op => Some op | _ => None end.
Definition leaseOps (tr : list Label) : list LeaseOp := omap leaseOp tr.

Definition callOf (j : nat) (l : Label) : option Call :=
  match l with
  | LCall i _ call => if bool_decide (i = j) then Some call else None
  | _ => None
  end.
Definition callsOf (j : nat) (tr : list Label) : list Call := omap (callOf j) tr.

#[local] Arguments leaseOps : simpl never.
#[local] Arguments callsOf : simpl never.

(** Unfolds one event to its branches. *)
Ltac break_step H :=
  unfold step, login, authorized, continueLogin, loginDone, logout, loginActive, signRaw, decrypt, derive,
    runCrypto, worker, cryptoDone, pinState, onCardRemoved, onClientDisconnected in H;
  cbn in H;
  repeat (progress (simplify_eq/=; try (apply bind_Some in H as (?&?&H)); repeat case_match)).

Lemma step_lease d st ev st' ls :
  step d st ev = Some (st', ls) → lease st' = execs (lease st) (leaseOps ls).
Proof.
  intros H. destruct ev; break_step H; try done.
  all: unfold leaseOps; cbn;
    repeat match goal with E : touch _ _ _ = _ |- _ => rewrite E
                         | E : isActive _ _ _ = _ |- _ => rewrite E end; done.
Qed.

Lemma step_opening d st ev st' ls key :
  step d st ev = Some (st', ls) → key ∈ opening st' → key ∈ opening st ∨ LAuthorized key ∈ ls.
Proof.
  intros H. destruct ev; break_step H; try (by left).
  all: try (intros Hin; left; by eapply elem_of_sublist; [|apply sublist_delete]).
  rewrite elem_of_app, list_elem_of_singleton. intros [?| ->]; [by left|right; by left].
Qed.

(** The jobs of the next state: the old ones with the event's calls, perhaps a new one. *)
Lemma step_jobs d st ev st' ls j job' :
  step d st ev = Some (st', ls) → jobs st' !! j = Some job' →
  (∃ job, jobs st !! j = Some job ∧ jobKey job' = jobKey job ∧ jobMechanism job' = jobMechanism job ∧
     jobCalls job' = jobCalls job ++ callsOf j ls) ∨
  j = length (jobs st) ∧ jobCalls job' = [] ∧ callsOf j ls = [].
Proof.
  intros H. destruct ev; break_step H; try (by intros; left; exists job'; unfold callsOf; cbn; rewrite app_nil_r).
  all: try (rewrite lookup_app_Some, list_lookup_singleton_Some; intros [?|(? & ? & <-)];
    [left; exists job'; unfold callsOf; cbn; by rewrite app_nil_r|right; split_and!; [lia|done|done]]).
  all: rewrite list_lookup_insert_Some; intros [(<- & <- & _)|[Hne ?]]; left;
    [eexists; split; [done|]; unfold callsOf; cbn; rewrite ?bool_decide_eq_true_2 by done; by rewrite ?app_nil_r
    |exists job'; unfold callsOf; cbn; rewrite ?bool_decide_eq_false_2 by done; by rewrite ?app_nil_r].
Qed.

Lemma insert_kept (l : list Job) i x y j job :
  l !! i = Some x → jobKey y = jobKey x → l !! j = Some job →
  ∃ job', <[i := y]> l !! j = Some job' ∧ jobKey job' = jobKey job.
Proof.
  intros Hi Hk Hj. destruct (decide (i = j)) as [->|Hne].
  - exists y. split; [apply list_lookup_insert_eq; by eapply lookup_lt_Some|by simplify_eq].
  - exists job. by rewrite list_lookup_insert_ne.
Qed.

Lemma step_jobs_kept d st ev st' ls j job :
  step d st ev = Some (st', ls) → jobs st !! j = Some job →
  ∃ job', jobs st' !! j = Some job' ∧ jobKey job' = jobKey job.
Proof.
  intros H Hj. destruct ev; break_step H; try by eauto.
  all: try by (exists job; split; [by apply lookup_app_l_Some|done]).
  all: by eapply insert_kept.
Qed.

Lemma step_calls d st ev st' ls j key call :
  step d st ev = Some (st', ls) → LCall j key call ∈ ls →
  ∃ job, jobs st !! j = Some job ∧ jobKey job = key.
Proof.
  intros H. destruct ev; break_step H; rewrite ?list_elem_of_In; cbn; intros Hin;
    repeat match goal with H : _ ∨ _ |- _ => destruct H | H : False |- _ => destruct H end;
    simplify_eq; eauto.
Qed.

(** ** Why a label may be there *)

Section Trace.
Context (c : LeaseConfig) (d : Deps).

Definition leasesAfter (tr : list Label) : LeaseManager := execs (emptyManager c) (leaseOps tr).

(** What went before a label: a grant was authorized, a mark is the flow's own, a job
    starts on a live lease, a flow is told a PIN counts as verified only if it does. *)
Definition justified (pre : list Label) (l : Label) : Prop :=
  match l with
  | LLease (OpGrant key _) => LAuthorized key ∈ pre
  | LLease (OpMark key) => ∃ j pre', pre = pre' ++ [LCall j key CMark]
  | LStart _ key _ now =>
      ∃ pre', pre = pre' ++ [LLease (OpTouch key now)] ∧ fst (isActive key now (leasesAfter pre')) = true
  | LCall _ key (CVerified true) => Leases.isPinVerified key (leasesAfter pre) = true
  | _ => True
  end.

Fixpoint allJustified (pre ls : list Label) : Prop :=
  match ls with
  | [] => True
  | l :: ls => justified pre l ∧ allJustified (pre ++ [l]) ls
  end.

Lemma allJustified_app pre l1 l2 :
  allJustified pre (l1 ++ l2) ↔ allJustified pre l1 ∧ allJustified (pre ++ l1) l2.
Proof.
  revert pre. induction l1 as [|l l1 IH]; intros pre; cbn; [rewrite app_nil_r; tauto|].
  rewrite IH, <-(assoc_L (++)). cbn. tauto.
Qed.

Lemma allJustified_at pre l post : allJustified [] (pre ++ l :: post) → justified pre l.
Proof. rewrite allJustified_app. by intros (_ & ? & _). Qed.

Record inv (st : State) (tr : list Label) : Prop := {
  inv_lease : lease st = leasesAfter tr;
  inv_opening : ∀ key, key ∈ opening st → LAuthorized key ∈ tr;
  inv_jobs : ∀ j job, jobs st !! j = Some job → jobCalls job = callsOf j tr;
  inv_calls : ∀ j key call, LCall j key call ∈ tr → ∃ job, jobs st !! j = Some job ∧ jobKey job = key;
  inv_justified : allJustified [] tr }.

Lemma touch_isActive key now m : fst (touch key now m) = fst (isActive key now m).
Proof. unfold touch, isActive. by repeat case_match. Qed.

Lemma step_justified st tr ev st' ls :
  inv st tr → step d st ev = Some (st', ls) → allJustified tr ls.
Proof.
  intros [Hl Ho Hj Hc _] H. destruct ev; break_step H; cbn; try (by auto).
  all: split_and!; try done.
  all: try (apply Ho; by eapply list_elem_of_lookup_2).
  all: try (exists tr; split; [done|]; rewrite <-Hl, <-touch_isActive;
    rename select (touch _ _ _ = _) into E; rewrite E; by bool_hyps).
  - rewrite <-Hl. by destruct (Leases.isPinVerified _ _).
  - by exists j, tr.
Qed.

Lemma leaseOps_app tr ls : leaseOps (tr ++ ls) = leaseOps tr ++ leaseOps ls.
Proof. apply omap_app. Qed.
Lemma callsOf_app j tr ls : callsOf j (tr ++ ls) = callsOf j tr ++ callsOf j ls.
Proof. apply omap_app. Qed.

Lemma callsOf_elem j tr call : call ∈ callsOf j tr → ∃ key, LCall j key call ∈ tr.
Proof.
  unfold callsOf. rewrite list_elem_of_omap. intros (l & Hl & Hc).
  destruct l; cbn in Hc; repeat case_match; simplify_eq. bool_hyps. subst. eauto.
Qed.

Lemma inv_reach st tr : reach c d st tr → inv st tr.
Proof.
  induction 1 as [|st tr ev st' ls Hr IH Hs].
  { split; cbn; try done; try (by intros ? ?%not_elem_of_nil). intros ? ? ? ?%not_elem_of_nil; done. }
  pose proof (step_justified _ _ _ _ _ IH Hs) as Hju. destruct IH as [Hl Ho Hj Hc Hju0].
  split.
  - unfold leasesAfter, execs. rewrite leaseOps_app, foldl_app, (step_lease _ _ _ _ _ Hs), Hl. done.
  - intros key Hk. rewrite elem_of_app. destruct (step_opening _ _ _ _ _ _ Hs Hk) as [?|?]; auto.
  - intros j job' Hj'. rewrite callsOf_app.
    destruct (step_jobs _ _ _ _ _ _ _ Hs Hj') as [(job & Hjob & _ & _ & ->)|(-> & -> & ->)].
    { by rewrite (Hj _ _ Hjob). }
    rewrite app_nil_r. destruct (callsOf _ tr) as [|x l] eqn:E; [done|].
    destruct (callsOf_elem (length (jobs st)) tr x) as (key & Hin); [rewrite E; left|].
    destruct (Hc _ _ _ Hin) as (job & Hjob & _). apply lookup_lt_Some in Hjob. lia.
  - intros j key call [Hin|Hin]%elem_of_app.
    + destruct (Hc _ _ _ Hin) as (job & Hjob & <-). by eapply step_jobs_kept.
    + destruct (step_calls _ _ _ _ _ _ _ _ Hs Hin) as (job & Hjob & <-). by eapply step_jobs_kept.
  - rewrite allJustified_app. done.
Qed.

(** A piece of the lease history, found in the trace. *)
Lemma leaseOps_split tr a op b :
  leaseOps tr = a ++ op :: b →
  ∃ t1 t2, tr = t1 ++ LLease op :: t2 ∧ leaseOps t1 = a ∧ leaseOps t2 = b.
Proof.
  revert a. induction tr as [|l tr IH]; intros a; unfold leaseOps; cbn; [by destruct a|].
  destruct l as [key|o|j key m now|j key call|r]; cbn; try (intros H; destruct (IH _ H) as (t1 & t2 & -> & <- & <-);
    by eexists (_ :: t1), t2).
  destruct a as [|x a]; cbn; intros [= -> H].
  - by exists [], tr.
  - destruct (IH _ H) as (t1 & t2 & -> & <- & <-). by exists (LLease x :: t1), t2.
Qed.
End Trace.
(** ** The calls of one job *)

Lemma credit_prefix a b : is_Some (credit (a ++ b)) → is_Some (credit a).
Proof.
  induction b as [|x b IH] using rev_ind; [by rewrite app_nil_r|].
  rewrite (assoc_L (++)), credit_snoc. intros [k Hk]. apply IH.
  apply bind_Some in Hk as (k' & -> & _). by eexists.
Qed.

(** A right the flow has stems from a call that gave it. *)
Lemma credit_origin cs k :
  credit cs = Some k →
  (verified k = true → CVerified true ∈ cs) ∧
  (markable k = true → ∃ r, CTerminal true r ∈ cs ∧ status r = Ok_ ∧ alwaysAuthenticate r = false).
Proof.
  revert k. induction cs as [|x cs IH] using rev_ind; intros k; [by intros [= <-]|].
  rewrite credit_snoc. intros (k0 & E & Hs)%bind_Some. destruct (IH _ E) as [IHv IHm].
  assert (Hv : verified k0 = true → CVerified true ∈ cs ++ [x]) by (intros; apply elem_of_app; auto).
  assert (Hm : markable k0 = true →
    ∃ r, CTerminal true r ∈ cs ++ [x] ∧ status r = Ok_ ∧ alwaysAuthenticate r = false).
  { intros (r & ? & ?)%IHm. exists r. split; [apply elem_of_app; auto|done]. }
  destruct x; cbn in Hs; repeat case_match; simplify_eq/=; split; auto; try done.
  - intros ->. apply elem_of_app. right. by left.
  - intros Hr. bool_hyps. eexists. split; [apply elem_of_app; right; by left|done].
Qed.

(** The job's calls are those of a run of the flow, up to where it is, and its result
    is the run's; or its worker was never reached. *)
Definition followsFlow (job : Job) : Prop :=
  (∃ (E : Type) (env : FlowEnv E) (s : E),
     let '(r, (_, log)) := runRawCrypto (E := E * list Call) (jobMechanism job) (s, []) in
     jobResult job = None ∧ jobCalls job `prefix_of` log ∨ jobResult job = Some r ∧ jobCalls job = log) ∨
  jobCalls job = [] ∧ (jobResult job = None ∨ jobResult job = Some (mkCryptoResult CryptoCardError [])).

Lemma followsFlow_credit job : followsFlow job → is_Some (credit (jobCalls job)).
Proof.
  intros [(E & env & s & H)|(-> & _)]; [|by eexists].
  assert (Hr : is_Some (credit (snd (snd (run (S := E * list Call) agentWiring (jobMechanism job) (s, [])))))).
  { unfold run. destruct (jobMechanism job); apply runOp_credit. }
  unfold runRawCrypto in H. destruct (run agentWiring (jobMechanism job) (s, [])) as [r [s' log]]. cbn in Hr.
  destruct H as [(_ & [b Hb])|(_ & ->)]; [|done]. rewrite Hb in Hr. by eapply credit_prefix.
Qed.

Section Uses.
Context (c : LeaseConfig) (d : Deps) (st : State) (tr : list Label) (Hreach : reach c d st tr).

(** An earlier call of the same job. *)
Lemma earlier_call pre j key call post call' :
  tr = pre ++ LCall j key call :: post → call' ∈ callsOf j pre → LCall j key call' ∈ pre.
Proof.
  intros Htr (key' & Hin)%callsOf_elem. destruct (inv_reach _ _ _ _ Hreach) as [_ _ _ Hc _].
  destruct (Hc j key call) as (job & Hj & <-); [rewrite Htr; apply elem_of_app; right; left|].
  destruct (Hc j key' call') as (job' & Hj' & <-); [rewrite Htr; apply elem_of_app; by left|].
  by simplify_eq.
Qed.

Lemma flow_credit pre j key call post :
  (∀ j job, jobs st !! j = Some job → followsFlow job) → tr = pre ++ LCall j key call :: post →
  is_Some (credit (callsOf j pre ++ [call])).
Proof.
  intros Hf Htr. destruct (inv_reach _ _ _ _ Hreach) as [_ _ Hj Hc _].
  destruct (Hc j key call) as (job & Hjob & _); [rewrite Htr; apply elem_of_app; right; left|].
  specialize (Hj _ _ Hjob). apply Hf, followsFlow_credit in Hjob. rewrite Hj, Htr in Hjob.
  unfold callsOf in Hjob. rewrite omap_app in Hjob. cbn in Hjob. rewrite bool_decide_eq_true_2 in Hjob by done.
  rewrite (cons_middle _ _ (omap _ post)), (assoc_L (++)) in Hjob. by eapply credit_prefix.
Qed.

Lemma label_justified pre l post : tr = pre ++ l :: post → justified c pre l.
Proof. intros Htr. eapply allJustified_at. rewrite <-Htr. by eapply inv_justified, inv_reach. Qed.

(** The operations on the leases since [pre], up to [l]. *)
Lemma grant_found pre l post a key g b :
  tr = pre ++ l :: post → leaseOps pre = a ++ OpGrant key g :: b →
  ∃ p1 p2, pre = p1 ++ LLease (OpGrant key g) :: p2 ∧ LAuthorized key ∈ p1 ∧
    leaseOps p1 = a ∧ leaseOps p2 = b.
Proof.
  intros Htr (p1 & p2 & -> & <- & <-)%leaseOps_split. exists p1, p2. split_and!; try done.
  rewrite <-(assoc_L (++)) in Htr. cbn in Htr. apply (label_justified _ _ _ Htr).
Qed.

(** A mark of the history, with the use of the key that earned it. *)
Lemma mark_earned pre key post :
  (∀ j job, jobs st !! j = Some job → followsFlow job) → tr = pre ++ LLease (OpMark key) :: post →
  ∃ j r, LCall j key (CTerminal true r) ∈ pre ∧ status r = Ok_ ∧ alwaysAuthenticate r = false ∧
    last pre = Some (LCall j key CMark).
Proof.
  intros Hf Htr. destruct (label_justified _ _ _ Htr) as (j & pre' & ->).
  rewrite <-(assoc_L (++)) in Htr. cbn in Htr.
  destruct (flow_credit _ _ _ _ _ Hf Htr) as [k Hk].
  rewrite credit_snoc in Hk. apply bind_Some in Hk as (k0 & Hk0 & Hs).
  assert (Hm : markable k0 = true) by (cbn in Hs; by case_match).
  apply credit_origin in Hk0 as [_ Hin]. destruct (Hin Hm) as (r & Hr & Hok & Hal).
  exists j, r. rewrite last_snoc. split_and!; try done. apply elem_of_app. left. by eapply earlier_call.
Qed.
End Uses.


(** The worker of a card's reader runs one closure after the other: a job of [key] that
    made a call before a login of [key] was granted makes none after it. *)
Definition serialized (key : LeaseKey) (tr : list Label) : Prop :=
  ∀ a b t j call g, tr = a ++ LCall j key call :: b ++ LLease (OpGrant key g) :: t →
    ∀ call', LCall j key call' ∉ t.


(** ** Replies *)

Lemma step_result_kept d st ev st' ls j job r :
  step d st ev = Some (st', ls) → jobs st !! j = Some job → jobResult job = Some r →
  jobs st' !! j = Some job.
Proof.
  intros H Hj Hr. destruct ev; break_step H; try done.
  all: try (by apply lookup_app_l_Some).
  all: rewrite list_lookup_insert_ne; [done|intros ->; simplify_eq].
Qed.

Lemma step_replied d st ev st' ls b :
  step d st ev = Some (st', ls) → LReply (CryptoReplied b) ∈ ls →
  ∃ j job, jobs st' !! j = Some job ∧ jobResult job = Some (mkCryptoResult CryptoOk b).
Proof.
  intros H. destruct ev; break_step H; rewrite ?list_elem_of_In; cbn; intros Hin;
    repeat match goal with H : _ ∨ _ |- _ => destruct H | H : False |- _ => destruct H end;
    simplify_eq.
  destruct result as [o bs]. simplify_eq/=. eexists j, _.
  split; [apply list_lookup_insert_eq; by eapply lookup_lt_Some|done].
Qed.

Lemma reach_replied c d st tr b :
  reach c d st tr → LReply (CryptoReplied b) ∈ tr →
  ∃ j job, jobs st !! j = Some job ∧ jobResult job = Some (mkCryptoResult CryptoOk b).
Proof.
  induction 1 as [|st tr ev st' ls Hr IH Hs]; [by intros ?%not_elem_of_nil|].
  intros [Hin|Hin]%elem_of_app; [|by eapply step_replied].
  destruct (IH Hin) as (j & job & Hj & Hres). exists j, job. split; [by eapply step_result_kept|done].
Qed.

Lemma job_in_trace c d st tr j job call :
  reach c d st tr → jobs st !! j = Some job → call ∈ jobCalls job → LCall j (jobKey job) call ∈ tr.
Proof.
  intros Hr Hj Hin. destruct (inv_reach _ _ _ _ Hr) as [_ _ Hjc Hc _]. rewrite (Hjc _ _ Hj) in Hin.
  apply callsOf_elem in Hin as (key & Hin). destruct (Hc _ _ _ Hin) as (job' & Hj' & <-). by simplify_eq.
Qed.

(** A client gets bytes back from a crypto request only if the card produced them:
    they are the result of a use of the key that succeeded, made by the flow of a job
    the broker had started. *)
Theorem crypto_reply_genuine (c : LeaseConfig) (d : Deps) (st : State) (tr : list Label) (b : list Z) :
  reach c d st tr → (∀ j job, jobs st !! j = Some job → followsFlow job) →
  LReply (CryptoReplied b) ∈ tr →
  ∃ j job withPin u, jobs st !! j = Some job ∧ LCall j (jobKey job) (CTerminal withPin u) ∈ tr ∧
    status u = Ok_ ∧ bytes u = b.
Proof.
  intros Hr Hf Hin. destruct (reach_replied _ _ _ _ _ Hr Hin) as (j & job & Hj & Hres).
  destruct (Hf _ _ Hj) as [(E & env & s & H)|(_ & [?|?])]; [|by simplify_eq..].
  assert (Ha : adds 1 2 [] (run (S := E * list Call) agentWiring (jobMechanism job) (s, []))).
  { unfold run. destruct (jobMechanism job); apply runOp_adds. }
  unfold runRawCrypto in H. destruct (run agentWiring (jobMechanism job) (s, [])) as [r [s' log]].
  destruct Ha as (_ & _ & _ & Hok). cbn in Hok.
  destruct H as [(? & _)|(Hr1 & Hlog)]; [by simplify_eq|]. rewrite Hres in Hr1. simplify_eq.
  destruct Hok as (withPin & u & Hu & Hst & Hb); [by destruct (outcome r)|].
  exists j, job, withPin, u. split_and!; try done.
  by eapply job_in_trace.
Qed.

(** ** Screen lock *)

Lemma revokeLeases_spec d cards st :
  ∃ st' ls, steps d st (revokeLeases cards) = Some (st', ls) ∧
    ∀ key, m_leases (lease st') !! key =
      if bool_decide (card key ∈ cards) then None else m_leases (lease st) !! key.
Proof.
  unfold revokeLeases. revert st. induction cards as [|x cards IH]; intros st.
  { by exists st, []. }
  cbn [map steps step onCardRemoved mbind option_bind].
  destruct (IH (setLease st (revokeCard x (lease st)))) as (st' & ls & -> & H). cbn.
  eexists _, _. split; [done|]. intros key. rewrite H. cbn.
  rewrite lookup_filter_keys. repeat case_bool_decide; rewrite ?elem_of_cons in *; try tauto;
    case_decide; try done; exfalso; tauto.
Qed.

(** After a screen lock or a suspend no caller has a login left on a registered
    card: until it logs in again every signing request for that card is refused with
    [UserNotLoggedIn], and the logins on other cards are as they were. *)
Theorem quiesce_ends_logins (d : Deps) (st : State) (cards : list Z) :
  ∃ st' ls, steps d st (revokeLeases cards) = Some (st', ls) ∧
    (∀ key, card key ∉ cards → m_leases (lease st') !! key = m_leases (lease st) !! key) ∧
    ∀ reader certId m params input caller cardKey now, cardKey ∈ cards → hasSignRaw d = true →
      m ∈ [RsaPkcs1Sign; Sha256RsaPkcs1Sign; EcdsaSign] →
      ∃ st2 ops, signRaw d reader certId m params input caller (Some cardKey) now st' =
        (st2, ops ++ [LReply (CryptoFailed CryptoUserNotLoggedIn)]) ∧ jobs st2 = jobs st'.
Proof.
  destruct (revokeLeases_spec d cards st) as (st' & ls & Hs & H). exists st', ls. split; [done|]. split.
  { intros key Hk. by rewrite H, bool_decide_eq_false_2. }
  intros reader certId m params input caller cardKey now Hc Hw Hm.
  unfold signRaw, runCrypto, touch. rewrite bool_decide_eq_true_2 by done. rewrite Hw. cbn.
  rewrite H. cbn. rewrite bool_decide_eq_true_2 by done. cbn.
  by eexists _, [_].
Qed.

(** ** A replayed environment *)

(** Answers the flow's questions from a script. *)
Definition next {A : Type} (f : Call → option A) (a : A) (s : list Call) : A * list Call :=
  match s with
  | [] => (a, [])
  | call :: s => (default a (f call), s)
  end.

#[local] Instance Replay : FlowEnv (list Call) := {|
  isPinVerified := next (λ x, match x with CVerified b => Some b | _ => None end) false;
  allowPrompt := next (λ x, match x with CAllow b => Some b | _ => None end) false;
  openSession := next (λ x, match x with COpen o => Some o | _ => None end) OpenFailed;
  isCancelled := next (λ x, match x with CCancelled b => Some b | _ => None end) true;
  runPreflight := next (λ x, match x with CPreflight st key => Some (st, key) | _ => None end) (CardError, false);
  requestPin := next (λ x, match x with CPrompt st secret => Some (st, secret) | _ => None end) (PromptError, false);
  terminal _ := next (λ x, match x with CTerminal _ r => Some r | _ => None end) (err CardError);
  markPinVerified := tail;
  clearPinVerified := tail;
  setPhase _ := tail;
  invalidateSecrets := tail |}.

Definition signature : RawCryptoResult := mkResult Ok_ [1; 2; 3] false.

(** A signature with the PIN, up to the card's answer, and one without. *)
Definition callsWithPin : list Call :=
  [CVerified false; CAllow true; COpen OpenOk; CCancelled false; CPreflight Ok_ true;
   CPhase AwaitingConsent; CPrompt PromptOk true; CPhase Authenticating; CPhase Signing;
   CCancelled false; CTerminal true signature].
Definition callsWithoutPin : list Call :=
  [CVerified true; COpen OpenOk; CCancelled false; CPreflight Ok_ true; CPhase Signing;
   CCancelled false; CTerminal false signature].

Definition someone : Caller := mkCaller ":1.7" "app".
Definition someKey : LeaseKey := mkLeaseKey ":1.7" 4.
Definition allWired : Deps := mkDeps true true true.

Definition loginAt (t : Z) : list Event :=
  [ELogin "r" someone; EAuthorized 0 Granted (Some 4); ELoginDone 0 LoginOk t].
Definition signAt (t : Z) : Event :=
  ESignRaw "r" "c" EcdsaSign MechParamsEmpty [] someone (Some 4) t.
Definition work (j : nat) (t : Z) (calls : list Call) : list Event := map (λ call, EWorker j call t) calls.

(** One signature with its PIN, then one without. *)
Definition twoSignatures : list Event :=
  loginAt 10 ++ signAt 20 :: work 0 30 (callsWithPin ++ [CMark]) ++
  ECryptoDone 0 (mkCryptoResult CryptoOk [1; 2; 3]) :: signAt 40 :: work 1 50 callsWithoutPin.

Definition ran (evs : list Event) : State * list Label :=
  default (initial defaultLeaseConfig, []) (steps allWired (initial defaultLeaseConfig) evs).

Lemma job_follows (script : list Call) (mechanism : Mechanism) (job : Job) :
  jobMechanism job = mechanism →
  (let '(r, (_, log)) := runRawCrypto (E := list Call * list Call) mechanism (script, []) in
   jobResult job = None ∧ jobCalls job `prefix_of` log ∨ jobResult job = Some r ∧ jobCalls job = log) →
  followsFlow job.
Proof. intros <- H. left. by exists (list Call), Replay, script. Qed.

Lemma ran_reach evs :
  bool_decide (is_Some (steps allWired (initial defaultLeaseConfig) evs)) = true →
  reach defaultLeaseConfig allWired (fst (ran evs)) (snd (ran evs)).
Proof.
  intros [[st tr] H]%bool_decide_eq_true. unfold ran. rewrite H. cbn.
  by eapply (reach_steps _ _ _ []); [constructor|].
Qed.

Lemma two_reach : reach defaultLeaseConfig allWired (fst (ran twoSignatures)) (snd (ran twoSignatures)).
Proof. apply ran_reach. by vm_compute. Qed.

Definition someJob : list Call → option CryptoResult → Job :=
  mkJob "r" "c" EcdsaSign MechParamsEmpty [] "app" someKey.

Lemma two_jobs : jobs (fst (ran twoSignatures)) =
  [someJob (callsWithPin ++ [CMark]) (Some (mkCryptoResult CryptoOk [1; 2; 3])); someJob callsWithoutPin None].
Proof. by vm_compute. Qed.

Lemma two_follow j job : jobs (fst (ran twoSignatures)) !! j = Some job → followsFlow job.
Proof.
  rewrite two_jobs. destruct j as [|[|j]]; cbn; [intros [= <-]..|done].
  - apply (job_follows (callsWithPin ++ [CMark]) EcdsaSign); [done|]. by vm_compute; right.
  - apply (job_follows callsWithoutPin EcdsaSign); [done|]. vm_compute. left. split; [done|]. by eexists [].
Qed.



Lemma crypto_reply_genuine_witness :
  ∃ j job withPin u, jobs (fst (ran twoSignatures)) !! j = Some job ∧
    LCall j (jobKey job) (CTerminal withPin u) ∈ snd (ran twoSignatures) ∧ status u = Ok_ ∧ bytes u = [1; 2; 3].
Proof.
  apply (crypto_reply_genuine defaultLeaseConfig allWired); [exact two_reach|exact two_follow|].
  apply (list_elem_of_lookup_2 _ 18). reflexivity.
Defined.

Lemma quiesce_ends_logins_witness :
  m_leases (lease (fst (ran twoSignatures))) !! someKey ≠ None ∧
  ∃ st', ∀ t, ∃ st2 ops, signRaw allWired "r" "c" EcdsaSign MechParamsEmpty [] someone (Some 4) t st' =
    (st2, ops ++ [LReply (CryptoFailed CryptoUserNotLoggedIn)]) ∧ jobs st2 = jobs st'.
Proof.
  split; [by vm_compute|].
  destruct (quiesce_ends_logins allWired (fst (ran twoSignatures)) [4]) as (st' & ls & _ & _ & H).
  exists st'. intros t. apply H; [left|reflexivity|right; right; left].
Defined.

End Broker.
