(* ===== verification/Operations.v ===== *)
(** * One operation and its watchdog

    Models [src/operations/OperationBase.cpp]: what the worker thread, the watchdog's
    timer threads and any number of cancelling or draining threads do to one operation.
    A program ([Prog]) is a sequence of atomic accesses, so the theorems are about every
    interleaving of them. [doWork] is any list of calls a subclass makes. A timer's wait
    may end at any moment, so the notifications of its condition variable have no
    counterpart, and [m_watchdogMutex], which orders only them, has none either. A null
    state and the failure to start a thread are not modelled. *)
From S2P Require Import Prelude Vocabulary.
Import Vocabulary Vocabulary.Err.
Local Open Scope Z_scope.

Module Operations.

Inductive OperationPhase :=
| Created | Connecting | AwaitingConsent | Authenticating | Reading | Signing | Timestamping | Done.

#[export] Instance OperationPhase_eq_dec : EqDecision OperationPhase.
Proof. solve_decision. Defined.

(** [OperationStatus] is its number ([Vocabulary.Status]). *)
Abbreviation OperationStatus := Z (only parsing).

(** The arguments of [finish]. *)
Record Terminal := mkTerminal { status : OperationStatus; code : ErrorCode; msgKey : string; msgFallback : string }.

#[export] Instance Terminal_eq_dec : EqDecision Terminal.
Proof. solve_decision. Defined.

Definition timedOut : Terminal :=
  mkTerminal Status.Error WatchdogTimeout "op.watchdog_timeout" "Operation exceeded the watchdog timeout".
Definition cardRemoved : Terminal := mkTerminal Status.Error CardRemoved "op.card_removed" "Card removed".
Definition internalError (what : string) : Terminal := mkTerminal Status.Error CommunicationError "op.internal" what.

(** What leaves through the channel, and the call of [m_prompterCancelCallback]. *)
Inductive Emitted := PropertiesChanged | GroupEmitted | ResultEmitted | Finished (t : Terminal) | PromptDismissed.

Record OperationState := mkState {
  phase : OperationPhase; watchdogTimeoutSec : Z; cancelled : bool; completed : bool;
  terminalStatus : OperationStatus; terminalErrorCode : ErrorCode }.

(** The stop state of a [std::jthread] and whether the thread has returned. *)
Record Timer := mkTimer { t_stop : bool; t_exited : bool }.

(** [m_watchdog] is the thread it holds, if joinable, by its number in [timers]. *)
Record Watchdog := mkWatchdog {
  m_watchdogArmed : bool; m_watchdogFired : bool; m_watchdogArmAttempts : Z; m_watchdog : option nat; timers : list Timer }.

(** [std::once_flag]. *)
Inductive Once := NotCalled | Running | Returned.

#[export] Instance Once_eq_dec : EqDecision Once.
Proof. solve_decision. Defined.

(** [channel] and [callback]: whether the operation was given one. [shutdown] is the
    agent-wide token, false also where it cannot be cancelled. *)
Record Operation := mkOperation {
  m_state : OperationState; watch : Watchdog; m_finishOnce : Once; m_finished : bool;
  m_token : bool; shutdown : bool; channel : bool; callback : bool; emitted : list Emitted }.

Definition onState (f : OperationState → OperationState) (o : Operation) : Operation :=
  mkOperation (f (m_state o)) (watch o) (m_finishOnce o) (m_finished o) (m_token o) (shutdown o) (channel o) (callback o) (emitted o).
Definition onWatch (f : Watchdog → Watchdog) (o : Operation) : Operation :=
  mkOperation (m_state o) (f (watch o)) (m_finishOnce o) (m_finished o) (m_token o) (shutdown o) (channel o) (callback o) (emitted o).
Definition setOnce (x : Once) (o : Operation) : Operation :=
  mkOperation (m_state o) (watch o) x (m_finished o) (m_token o) (shutdown o) (channel o) (callback o) (emitted o).
Definition setFinished (o : Operation) : Operation :=
  mkOperation (m_state o) (watch o) (m_finishOnce o) true (m_token o) (shutdown o) (channel o) (callback o) (emitted o).
Definition tripToken (o : Operation) : Operation :=
  mkOperation (m_state o) (watch o) (m_finishOnce o) (m_finished o) true (shutdown o) (channel o) (callback o) (emitted o).
Definition setShutdown (o : Operation) : Operation :=
  mkOperation (m_state o) (watch o) (m_finishOnce o) (m_finished o) (m_token o) true (channel o) (callback o) (emitted o).
Definition emit (b : bool) (e : Emitted) (o : Operation) : Operation :=
  if b then mkOperation (m_state o) (watch o) (m_finishOnce o) (m_finished o) (m_token o) (shutdown o) (channel o) (callback o) (emitted o ++ [e])
  else o.

Definition setPhaseValue (p : OperationPhase) (s : OperationState) : OperationState :=
  mkState p (watchdogTimeoutSec s) (cancelled s) (completed s) (terminalStatus s) (terminalErrorCode s).
Definition setCancelled (s : OperationState) : OperationState :=
  mkState (phase s) (watchdogTimeoutSec s) true (completed s) (terminalStatus s) (terminalErrorCode s).
Definition setStatus (x : OperationStatus) (s : OperationState) : OperationState :=
  mkState (phase s) (watchdogTimeoutSec s) (cancelled s) (completed s) x (terminalErrorCode s).
Definition setCode (x : ErrorCode) (s : OperationState) : OperationState :=
  mkState (phase s) (watchdogTimeoutSec s) (cancelled s) (completed s) (terminalStatus s) x.
Definition setCompleted (s : OperationState) : OperationState :=
  mkState (phase s) (watchdogTimeoutSec s) (cancelled s) true (terminalStatus s) (terminalErrorCode s).

Definition setArmed (b : bool) (w : Watchdog) : Watchdog :=
  mkWatchdog b (m_watchdogFired w) (m_watchdogArmAttempts w) (m_watchdog w) (timers w).
Definition setFired (w : Watchdog) : Watchdog :=
  mkWatchdog (m_watchdogArmed w) true (m_watchdogArmAttempts w) (m_watchdog w) (timers w).
Definition countArm (w : Watchdog) : Watchdog :=
  mkWatchdog (m_watchdogArmed w) (m_watchdogFired w) (u32 (m_watchdogArmAttempts w + 1)) (m_watchdog w) (timers w).
Definition setThread (t : option nat) (w : Watchdog) : Watchdog :=
  mkWatchdog (m_watchdogArmed w) (m_watchdogFired w) (m_watchdogArmAttempts w) t (timers w).
Definition onTimer (t : nat) (f : Timer → Timer) (w : Watchdog) : Watchdog :=
  mkWatchdog (m_watchdogArmed w) (m_watchdogFired w) (m_watchdogArmAttempts w) (m_watchdog w) (alter f t (timers w)).
Definition addTimer (w : Watchdog) : Watchdog :=
  mkWatchdog (m_watchdogArmed w) (m_watchdogFired w) (m_watchdogArmAttempts w) (m_watchdog w) (timers w ++ [mkTimer false false]).

Definition exited (t : nat) (o : Operation) : bool :=
  match timers (watch o) !! t with Some x => t_exited x | None => true end.
Definition stopped (t : nat) (o : Operation) : bool :=
  match timers (watch o) !! t with Some x => t_stop x | None => false end.

(** ** Programs *)

(** The calls of a [doWork]; an exception ends it. *)
Inductive WorkAct := APhase (p : OperationPhase) | AGroup | AResult | AFinish (t : Terminal) | AThrow (what : string).

(** [Step f] is one atomic access, blocked where [f] is [None]; [StartTimer] makes the
    timer's thread and goes on with its number; [Work] is the rest of a [doWork]. *)
Inductive Prog :=
| Exit
| Step (f : Operation → option (Operation * Prog))
| StartTimer (k : nat → Prog)
| Work (todo : list WorkAct).

Definition read {A : Type} (f : Operation → A) (k : A → Prog) : Prog := Step (λ o, Some (o, k (f o))).
Definition write (f : Operation → Operation) (k : Prog) : Prog := Step (λ o, Some (f o, k)).

(** [request_stop] and [join]. *)
Definition stopAndJoin (t : nat) (k : Prog) : Prog :=
  write (onWatch (onTimer t (λ x, mkTimer true (t_exited x))))
    (Step (λ o, if exited t o then Some (onWatch (setThread None) o, k) else None)).

Definition requestCancel (k : Prog) : Prog :=
  read (λ o, phase (m_state o)) (λ previousPhase,
    write (onState setCancelled)
      (write tripToken
         (if decide (previousPhase = AwaitingConsent) then write (λ o, emit (callback o) PromptDismissed o) k else k))).

Definition requestShutdownCancel (k : Prog) : Prog := write (onState setCancelled) (write tripToken k).

(** The assignment to [m_watchdog] joins the thread it held. *)
Definition armWatchdogIfNeeded (newPhase : OperationPhase) (k : Prog) : Prog :=
  if bool_decide (newPhase ≠ Authenticating) && bool_decide (newPhase ≠ Reading) then k
  else
    write (onWatch countArm)
      (Step (λ o,
         if m_watchdogArmed (watch o) then Some (o, k)
         else Some (onWatch (setArmed true) o,
           read (λ o, watchdogTimeoutSec (m_state o)) (λ timeoutSec,
             if timeoutSec =? 0 then k
             else StartTimer (λ t,
               read (λ o, m_watchdog (watch o)) (λ held,
                 let assign := write (onWatch (setThread (Some t))) k in
                 match held with Some t' => stopAndJoin t' assign | None => assign end)))))).

Definition disarmWatchdog (k : Prog) : Prog :=
  Step (λ o,
    if negb (m_watchdogArmed (watch o)) then Some (o, k)
    else Some (onWatch (setArmed false) o,
      read (λ o, m_watchdog (watch o)) (λ held, match held with Some t => stopAndJoin t k | None => k end))).

Definition setPhase (p : OperationPhase) (k : Prog) : Prog :=
  Step (λ o,
    let previous := phase (m_state o) in
    Some (onState (setPhaseValue p) o,
      if decide (previous = p) then k
      else
        write (λ o, emit (channel o) PropertiesChanged o)
          (if decide (p = AwaitingConsent) then disarmWatchdog k else armWatchdogIfNeeded p k))).

Definition finish (t : Terminal) (k : Prog) : Prog :=
  Step (λ o,
    match m_finishOnce o with
    | Returned => Some (o, k)
    | Running => None
    | NotCalled =>
        Some (setOnce Running o,
          read (λ o, m_watchdogFired (watch o)) (λ fired,
            let t := if fired then timedOut else t in
            setPhase Done
              (write (onState (setStatus (status t)))
                 (write (onState (setCode (code t)))
                    (write (onState setCompleted)
                       (write (λ o, emit (channel o && negb (shutdown o)) (Finished t) o)
                          (write setFinished (write (setOnce Returned) k))))))))
    end).

Definition finishWatchdogTimeout (k : Prog) : Prog := write (onWatch setFired) (requestCancel (finish timedOut k)).
Definition finishCardRemoved (k : Prog) : Prog := requestCancel (finish cardRemoved k).

(** The body of the timer's thread. *)
Definition timer (t : nat) : Prog :=
  let exit := write (onWatch (onTimer t (λ x, mkTimer (t_stop x) true))) Exit in
  Step (λ o, Some (o, if stopped t o || m_finished o then exit else finishWatchdogTimeout exit)).

Definition quiesce (k : Prog) : Prog :=
  read (λ o, m_watchdog (watch o)) (λ held, match held with Some t => stopAndJoin t k | None => k end).

Definition groupReady (k : Prog) : Prog := write (λ o, emit (channel o) GroupEmitted o) k.

(** [runOnWorker] over the rest of the [doWork], and what the worker does after it. *)
Definition runOnWorker (todo : list WorkAct) : Prog :=
  match todo with
  | [] => quiesce Exit
  | APhase p :: todo => setPhase p (Work todo)
  | AGroup :: todo => groupReady (Work todo)
  | AResult :: todo => write (λ o, emit (channel o) ResultEmitted o) (Work todo)
  | AFinish t :: todo => finish t (Work todo)
  | AThrow what :: _ => finish (internalError what) (Work [])
  end.

(** The calls other threads make. *)
Inductive Caller := CallCancel | CallCardRemoved | CallShutdown.

Definition callerProg (c : Caller) : Prog :=
  match c with
  | CallCancel => requestCancel Exit
  | CallCardRemoved => finishCardRemoved Exit
  | CallShutdown => write setShutdown (requestShutdownCancel Exit)
  end.

(** ** Threads *)

Inductive Tid := TWorker | TTimer (t : nat) | TCaller (n : nat).

#[export] Instance Tid_eq_dec : EqDecision Tid.
Proof. solve_decision. Defined.
#[export] Instance Tid_countable : Countable Tid.
Proof.
  refine (inj_countable' (λ x, match x with TWorker => None | TTimer t => Some (inl t) | TCaller n => Some (inr n) end)
    (λ x, match x with None => TWorker | Some (inl t) => TTimer t | Some (inr n) => TCaller n end) _).
  by intros [].
Defined.

Record Config := mkConfig { c_op : Operation; c_threads : gmap Tid Prog }.

Definition start (timeoutSec : Z) (hasChannel hasCallback : bool) (script : list WorkAct) : Config :=
  mkConfig
    (mkOperation (mkState Created timeoutSec false false Status.Ok_ None_) (mkWatchdog false false 0 None [])
       NotCalled false false false hasChannel hasCallback [])
    {[TWorker := Work script]}.

(** One access of a thread. *)
Definition tstep (i : Tid) (p : Prog) (cfg : Config) : option Config :=
  let o := c_op cfg in
  match p with
  | Exit => None
  | Step f => match f o with Some (o', p') => Some (mkConfig o' (<[i := p']> (c_threads cfg))) | None => None end
  | StartTimer k =>
      let t := length (timers (watch o)) in
      Some (mkConfig (onWatch addTimer o) (<[TTimer t := timer t]> (<[i := k t]> (c_threads cfg))))
  | Work todo => Some (mkConfig o (<[i := runOnWorker todo]> (c_threads cfg)))
  end.

Inductive cstep : Config → Config → Prop :=
| step_thread cfg i p cfg' : c_threads cfg !! i = Some p → tstep i p cfg = Some cfg' → cstep cfg cfg'
| step_caller cfg n c :
    c_threads cfg !! TCaller n = None → cstep cfg (mkConfig (c_op cfg) (<[TCaller n := callerProg c]> (c_threads cfg))).

Inductive reach : Config → Prop :=
| reach_start timeoutSec hasChannel hasCallback script : reach (start timeoutSec hasChannel hasCallback script)
| reach_step cfg cfg' : reach cfg → cstep cfg cfg' → reach cfg'.

(** ** What a thread may do

    The accesses of a thread as transitions of the operation and two pieces of ghost
    state: which thread is inside [finish]'s [call_once] and how far, and where the
    worker is between a phase change and its watchdog. *)

Inductive Body :=
| BEntered | BLoaded (t : Terminal) | BStatus (t : Terminal) | BCode (t : Terminal)
| BCompleted (t : Terminal) | BEmitted (t : Terminal) | BFlagged (t : Terminal).

(** [WJoin t e]: joining timer [t], the last act of the worker if [e]. *)
Inductive Stage :=
| WIdle | WConsent | WArming | WArmed | WAssign (t : nat) | WDisarm | WJoin (t : nat) (e : bool) | WGone.

Record Ghost := mkGhost { body : option (Tid * Body); work : Stage }.

Definition finishedEmits (o : Operation) : list Terminal :=
  omap (λ e, match e with Finished t => Some t | _ => None end) (emitted o).

Definition mirrors (t : Terminal) (o : Operation) : Prop :=
  terminalStatus (m_state o) = status t ∧ terminalErrorCode (m_state o) = code t.

Definition announced (t : Terminal) (o : Operation) : Prop :=
  finishedEmits o = [t] ∨ finishedEmits o = [] ∧ (channel o = false ∨ shutdown o = true).

Definition quiet (o : Operation) : Prop := completed (m_state o) = false ∧ m_finished o = false ∧ finishedEmits o = [].

Definition bodyOk (b : Body) (o : Operation) : Prop :=
  match b with
  | BEntered | BLoaded _ => quiet o
  | BStatus t => quiet o ∧ terminalStatus (m_state o) = status t
  | BCode t => quiet o ∧ mirrors t o
  | BCompleted t => completed (m_state o) = true ∧ m_finished o = false ∧ mirrors t o ∧ finishedEmits o = []
  | BEmitted t => completed (m_state o) = true ∧ m_finished o = false ∧ mirrors t o ∧ announced t o
  | BFlagged t => completed (m_state o) = true ∧ m_finished o = true ∧ mirrors t o ∧ announced t o
  end.

Definition live (k : nat) (o : Operation) : Prop := exited k o = false.

Record J (o : Operation) (g : Ghost) : Prop := mkJ {
  j_once : match m_finishOnce o, body g with
           | NotCalled, None => quiet o
           | Running, Some (_, b) => bodyOk b o
           | Returned, None => ∃ t, bodyOk (BFlagged t) o
           | _, _ => False
           end;
  j_live : ∀ k, live k o →
    (m_watchdog (watch o) = Some k ∨ work g = WAssign k) ∧
    (m_watchdogArmed (watch o) = true ∨ work g = WDisarm ∨ ∃ e, work g = WJoin k e);
  j_thread : ∀ k, m_watchdog (watch o) = Some k → (k < length (timers (watch o)))%nat;
  j_stage : match work g with
            | WArmed => m_watchdogArmed (watch o) = true ∧ ∀ k, ¬ live k o
            | WAssign t =>
                m_watchdogArmed (watch o) = true ∧ m_watchdog (watch o) ≠ Some t ∧ (t < length (timers (watch o)))%nat ∧
                ∀ k, live k o → k = t
            | WJoin t _ => m_watchdog (watch o) = Some t
            | WGone => m_watchdog (watch o) = None
            | _ => True
            end;
  j_phase : phase (m_state o) = AwaitingConsent →
    match work g with
    | WIdle => ∀ k, ¬ live k o
    | WArming | WArmed | WAssign _ => False
    | _ => True
    end }.

(** An access that touches nothing the invariant speaks of; the watchdog may be latched. *)
Record plain (o o' : Operation) : Prop := mkPlain {
  p_once : m_finishOnce o' = m_finishOnce o;
  p_finished : m_finished o' = m_finished o;
  p_completed : completed (m_state o') = completed (m_state o);
  p_status : terminalStatus (m_state o') = terminalStatus (m_state o);
  p_code : terminalErrorCode (m_state o') = terminalErrorCode (m_state o);
  p_phase : phase (m_state o') = phase (m_state o);
  p_armed : m_watchdogArmed (watch o') = m_watchdogArmed (watch o);
  p_thread : m_watchdog (watch o') = m_watchdog (watch o);
  p_exited : t_exited <$> timers (watch o') = t_exited <$> timers (watch o);
  p_emits : finishedEmits o' = finishedEmits o;
  p_channel : channel o' = channel o;
  p_shutdown : shutdown o = true → shutdown o' = true;
  p_fired : m_watchdogFired (watch o) = true → m_watchdogFired (watch o') = true }.

Definition stageOf (p : OperationPhase) : Stage :=
  match p with AwaitingConsent => WConsent | Authenticating | Reading => WArming | _ => WIdle end.

(** The next stage of [finish]'s body and what it does. *)
Inductive bodyStep (o : Operation) : Body → Operation → Body → Prop :=
| b_load t : (m_watchdogFired (watch o) = true → t = timedOut) → bodyStep o BEntered o (BLoaded t)
| b_status t : bodyStep o (BLoaded t) (onState (setStatus (status t)) o) (BStatus t)
| b_code t : bodyStep o (BStatus t) (onState (setCode (code t)) o) (BCode t)
| b_completed t : bodyStep o (BCode t) (onState setCompleted o) (BCompleted t)
| b_emit t : bodyStep o (BCompleted t) (emit (channel o && negb (shutdown o)) (Finished t) o) (BEmitted t)
| b_flag t : bodyStep o (BEmitted t) (setFinished o) (BFlagged t).

Inductive workStep (o : Operation) : Stage → Operation → Stage → Prop :=
| w_phase p :
    workStep o WIdle (onState (setPhaseValue p) o) (if decide (phase (m_state o) = p) then WIdle else stageOf p)
| w_noneed w : w = WArming ∨ w = WArmed ∨ w = WConsent ∧ m_watchdogArmed (watch o) = false → workStep o w o WIdle
| w_arm : m_watchdogArmed (watch o) = false → workStep o WArming (onWatch (setArmed true) o) WArmed
| w_old t : workStep o (WAssign t) (onWatch (setThread None) o) (WAssign t)
| w_assign t : workStep o (WAssign t) (onWatch (setThread (Some t)) o) WIdle
| w_disarm : workStep o WConsent (onWatch (setArmed false) o) WDisarm
| w_unheld : m_watchdog (watch o) = None → workStep o WDisarm o WIdle
| w_join k : m_watchdog (watch o) = Some k → workStep o WDisarm o (WJoin k false)
| w_last k : m_watchdog (watch o) = Some k → workStep o WIdle o (WJoin k true)
| w_joined k e : exited k o = true → workStep o (WJoin k e) (onWatch (setThread None) o) (if e then WGone else WIdle)
| w_gone : m_watchdog (watch o) = None → workStep o WIdle o WGone.

Inductive gstep (i : Tid) (o : Operation) (g : Ghost) : Operation → Ghost → Prop :=
| g_plain o' : plain o o' → gstep i o g o' g
| g_done : gstep i o g (onState (setPhaseValue Done) o) g
| g_enter : m_finishOnce o = NotCalled → gstep i o g (setOnce Running o) (mkGhost (Some (i, BEntered)) (work g))
| g_body b o' b' : body g = Some (i, b) → bodyStep o b o' b' → gstep i o g o' (mkGhost (Some (i, b')) (work g))
| g_return t : body g = Some (i, BFlagged t) → gstep i o g (setOnce Returned o) (mkGhost None (work g))
| g_work o' w : i = TWorker → workStep o (work g) o' w → gstep i o g o' (mkGhost (body g) w)
| g_exit t : i = TTimer t → gstep i o g (onWatch (onTimer t (λ x, mkTimer (t_stop x) true)) o) g.

(** ** The invariant *)

Lemma exited_list (k : nat) (o : Operation) : exited k o = default true ((t_exited <$> timers (watch o)) !! k).
Proof. unfold exited. rewrite list_lookup_fmap. by destruct (timers (watch o) !! k). Qed.

Lemma exited_same (k : nat) (o o' : Operation) :
  t_exited <$> timers (watch o') = t_exited <$> timers (watch o) → exited k o' = exited k o.
Proof. intros E. by rewrite !exited_list, E. Qed.

Lemma exited_length (o o' : Operation) :
  t_exited <$> timers (watch o') = t_exited <$> timers (watch o) → length (timers (watch o')) = length (timers (watch o)).
Proof. intros E. apply (f_equal length) in E. by rewrite !length_fmap in E. Qed.

Lemma exited_alter (k t : nat) (f : Timer → Timer) (o : Operation) :
  (∀ x, t_exited x = true → t_exited (f x) = true) → exited k o = true → exited k (onWatch (onTimer t f) o) = true.
Proof.
  intros Hf. unfold exited. cbn. destruct (decide (k = t)) as [->|]; [|by rewrite list_lookup_alter_ne].
  rewrite list_lookup_alter_eq. destruct (timers (watch o) !! t); cbn; auto.
Qed.

Lemma exited_add (k : nat) (o : Operation) :
  exited k (onWatch addTimer o) = if decide (k = length (timers (watch o))) then false else exited k o.
Proof.
  unfold exited. cbn. case_decide as E; [subst; by rewrite list_lookup_middle|].
  destruct (decide (k < length (timers (watch o)))%nat).
  - by rewrite lookup_app_l.
  - rewrite !lookup_ge_None_2; [done|lia|]. rewrite length_app. cbn. lia.
Qed.

Lemma bodyOk_plain (b : Body) (o o' : Operation) : plain o o' → bodyOk b o → bodyOk b o'.
Proof.
  intros [? Ef Ec Es Ed ? ? ? ? Ee Eh Hs _]. destruct b; unfold bodyOk, quiet, mirrors, announced;
    rewrite ?Ef, ?Ec, ?Es, ?Ed, ?Ee, ?Eh; naive_solver.
Qed.

Lemma J_plain (o o' : Operation) (g : Ghost) : plain o o' → J o g → J o' g.
Proof.
  intros Hp [H1 H2 H3 H4 H5]. assert (Hx : ∀ k, live k o' ↔ live k o).
  { intros k. unfold live. by rewrite (exited_same k o o' (p_exited _ _ Hp)). }
  destruct (Hp) as [Eo _ _ _ _ Ep Ea Et Ex _ _ _ _]. split.
  - rewrite Eo. destruct (m_finishOnce o), (body g) as [[??]|]; try done; [|by eapply bodyOk_plain|].
    + eapply (bodyOk_plain BEntered); eauto.
    + destruct H1 as [t H1]. exists t. by eapply bodyOk_plain.
  - intros k Hk%Hx. rewrite Et, Ea. by apply H2.
  - intros k. rewrite Et, (exited_length o o' Ex). apply H3.
  - rewrite ?Ea, ?Et. destruct (work g); try done; [destruct H4; split; [done|]; intros k ?%Hx; naive_solver|].
    destruct H4 as (?&?&?&H4). split_and!; try done; [by rewrite (exited_length o o' Ex)|]. intros k ?%Hx. auto.
  - rewrite Ep. intros E. specialize (H5 E). destruct (work g); try done. intros k ?%Hx. naive_solver.
Qed.

(** The facts of [J] but the phase carry over a change of phase. *)
Lemma J_phase (p : OperationPhase) (o : Operation) (b : option (Tid * Body)) (w w' : Stage) :
  J o (mkGhost b w) → w = w' ∨ w = WIdle ∧ (w' = WConsent ∨ w' = WArming) →
  (p = AwaitingConsent → match w' with WIdle => ∀ k, ¬ live k o | WArming | WArmed | WAssign _ => False | _ => True end) →
  J (onState (setPhaseValue p) o) (mkGhost b w').
Proof.
  intros [H1 H2 H3 H4 H5] Hw Hp. split; cbn in *.
  - destruct (m_finishOnce o), b as [[? b]|]; try done; by destruct b.
  - intros k Hk. destruct (H2 k Hk) as [Ha Hb]. destruct Hw as [->|[-> _]]; [done|]. naive_solver.
  - done.
  - destruct Hw as [->|[-> [->| ->]]]; done.
  - intros E. specialize (Hp E). by destruct w'.
Qed.

Lemma J_enter (o : Operation) (g : Ghost) (i : Tid) :
  m_finishOnce o = NotCalled → J o g → J (setOnce Running o) (mkGhost (Some (i, BEntered)) (work g)).
Proof.
  intros E [H1 H2 H3 H4 H5]. split; cbn in *; try done. rewrite E in H1. by destruct (body g).
Qed.

Lemma finishedEmits_emit (b : bool) (e : Emitted) (o : Operation) :
  finishedEmits (emit b e o) = finishedEmits o ++ match e with Finished t => if b then [t] else [] | _ => [] end.
Proof. unfold finishedEmits, emit. destruct b; cbn; [|destruct e; by rewrite app_nil_r]. rewrite omap_app. by destruct e. Qed.

Lemma emit_fields (b : bool) (e : Emitted) (o : Operation) :
  m_state (emit b e o) = m_state o ∧ watch (emit b e o) = watch o ∧ m_finishOnce (emit b e o) = m_finishOnce o ∧
  m_finished (emit b e o) = m_finished o ∧ channel (emit b e o) = channel o ∧ shutdown (emit b e o) = shutdown o.
Proof. by destruct b. Qed.

(** The body changes nothing outside the outcome. *)
Lemma bodyStep_frame (o o' : Operation) (b b' : Body) :
  bodyStep o b o' b' → watch o' = watch o ∧ phase (m_state o') = phase (m_state o) ∧ m_finishOnce o' = m_finishOnce o.
Proof. intros []; try done. unfold emit. by destruct (channel o && negb (shutdown o)). Qed.

Lemma bodyStep_ok (o o' : Operation) (b b' : Body) : bodyStep o b o' b' → bodyOk b o → bodyOk b' o'.
Proof.
  intros Hb H; destruct Hb; cbn in *; unfold quiet, mirrors, announced in *; cbn in *; try naive_solver.
  destruct (emit_fields (channel o && negb (shutdown o)) (Finished t) o) as (-> & _ & _ & -> & -> & ->).
  rewrite finishedEmits_emit. destruct H as (?&?&?&->). destruct (channel o), (shutdown o); cbn; naive_solver.
Qed.

Lemma J_body (o o' : Operation) (g : Ghost) (i : Tid) (b b' : Body) :
  body g = Some (i, b) → bodyStep o b o' b' → J o g → J o' (mkGhost (Some (i, b')) (work g)).
Proof.
  intros Eb Hb [H1 H2 H3 H4 H5]. destruct (bodyStep_frame _ _ _ _ Hb) as (Ew & Ep & Eo).
  assert (Hx : ∀ k, exited k o' = exited k o) by (intros; unfold exited; by rewrite Ew).
  split; unfold live in *; cbn [body work].
  - rewrite Eo. rewrite Eb in H1. destruct (m_finishOnce o); try done. by eapply bodyStep_ok.
  - intros k. rewrite Hx, Ew. apply H2.
  - rewrite Ew. done.
  - rewrite Ew. destruct (work g); try setoid_rewrite Hx; done.
  - rewrite Ep. destruct (work g); try setoid_rewrite Hx; done.
Qed.

Lemma J_return (o : Operation) (g : Ghost) (i : Tid) (t : Terminal) :
  body g = Some (i, BFlagged t) → J o g → J (setOnce Returned o) (mkGhost None (work g)).
Proof. intros Eb [H1 H2 H3 H4 H5]. split; cbn in *; try done. rewrite Eb in H1. destruct (m_finishOnce o); try done. by exists t. Qed.

Lemma J_exit (o : Operation) (g : Ghost) (t : nat) :
  J o g → J (onWatch (onTimer t (λ x, mkTimer (t_stop x) true)) o) g.
Proof.
  intros [H1 H2 H3 H4 H5]. set (o' := onWatch _ o).
  assert (Hx : ∀ k, live k o' → live k o).
  { intros k. unfold live. intros E. apply not_true_iff_false. intros E'. apply not_true_iff_false in E. apply E.
    by apply exited_alter. }
  split; cbn; try done.
  - intros k ?%Hx. by apply H2.
  - intros k ?%H3. by rewrite length_alter.
  - destruct (work g); try done; [destruct H4; split; [done|]; intros k ?%Hx; naive_solver|].
    destruct H4 as (?&?&?&H4). split_and!; try done; [by rewrite length_alter|]. intros k ?%Hx. auto.
  - intros E. specialize (H5 E). destruct (work g); try done. intros k ?%Hx. naive_solver.
Qed.

Lemma J_work (o o' : Operation) (b : option (Tid * Body)) (w w' : Stage) :
  workStep o w o' w' → J o (mkGhost b w) → J o' (mkGhost b w').
Proof.
  intros Hw HJ. destruct Hw as [p|w Hw|Ha|t|t| |Hn|k Hk|k Hk|k e Hk|Hn].
  - eapply J_phase; [done| |]; case_decide as E; subst; [by left| |intros E'; by apply (j_phase _ _ HJ)|by intros ->].
    destruct p; cbn; auto.
  - destruct HJ as [H1 H2 H3 H4 H5]. split; cbn in *; try done.
    + intros k Hk. destruct (H2 k Hk) as [Ha Hb]. destruct Hw as [->|[->|[-> Hw]]]; naive_solver.
    + intros E k Hk. specialize (H5 E). destruct (H2 k Hk) as [Ha Hb]. destruct Hw as [->|[->|[-> Hw]]]; [done|done|]. naive_solver congruence.
  - destruct HJ as [H1 H2 H3 H4 H5]. assert (Hno : ∀ k, ¬ live k o).
    { intros k Hk. destruct (H2 k Hk) as [_ Hb]. cbn in Hb. naive_solver congruence. }
    split; cbn in *; try done. intros k Hk. by destruct (Hno k).
  - destruct HJ as [H1 H2 H3 (Ha & Hn & Hl & H4) H5]. split; cbn in *; try done. intros k' Hk'. split; [|by left]. right. by rewrite (H4 k').
  - destruct HJ as [H1 H2 H3 (Ha & Hn & Hl & H4) H5]. split; cbn in *; try done.
    + intros k Hk. rewrite (H4 k Hk). auto.
    + by intros k [= ->].
  - destruct HJ as [H1 H2 H3 H4 H5]. split; cbn in *; try done. intros k Hk. destruct (H2 k Hk) as [[|] ?]; [by auto|done].
  - destruct HJ as [H1 H2 H3 H4 H5]. assert (Hno : ∀ k, ¬ live k o).
    { intros k Hk. destruct (H2 k Hk) as [Hb _]. cbn in Hb. naive_solver congruence. }
    split; cbn in *; try done. intros k Hk. by destruct (Hno k).
  - destruct HJ as [H1 H2 H3 H4 H5]. split; cbn in *; try done. intros k' Hk'. destruct (H2 k' Hk') as [[E|] ?]; [|done].
    assert (k' = k) as -> by congruence. split; [by left|]. right. right. by eexists.
  - destruct HJ as [H1 H2 H3 H4 H5]. split; cbn in *; try done. intros k' Hk'. destruct (H2 k' Hk') as [[E|] ?]; [|done].
    assert (k' = k) as -> by congruence. split; [by left|]. right. right. by eexists.
  - destruct HJ as [H1 H2 H3 H4 H5]. cbn in H4. assert (Hno : ∀ k, ¬ live k o).
    { intros k' Hk'. destruct (H2 k' Hk') as [Hb _]. cbn in Hb. unfold live in Hk'. naive_solver congruence. }
    destruct e; split; cbn in *; try done; intros k' Hk'; by destruct (Hno k').
  - destruct HJ as [H1 H2 H3 H4 H5]. split; cbn in *; try done. intros k Hk. destruct (H2 k Hk) as [Hb _]. naive_solver congruence.
Qed.

(** [std::jthread]'s constructor starts a timer. *)
Lemma J_startTimer (o : Operation) (g : Ghost) :
  J o g → work g = WArmed → J (onWatch addTimer o) (mkGhost (body g) (WAssign (length (timers (watch o))))).
Proof.
  intros [H1 H2 H3 H4 H5] Hw. rewrite Hw in *. destruct H4 as (Ha & H4). split; cbn -[exited] in *; try done.
  - intros k Hk. unfold live in Hk. rewrite exited_add in Hk. case_decide; [subst|by destruct (H4 k)]. auto.
  - intros k Hk%H3. rewrite length_app. lia.
  - split_and!; [done|intros Hk%H3; lia|rewrite length_app; cbn; lia|]. intros k Hk. unfold live in Hk. rewrite exited_add in Hk.
    case_decide; [done|by destruct (H4 k)].
Qed.

Lemma J_step (i : Tid) (o o' : Operation) (g g' : Ghost) : gstep i o g o' g' → J o g → J o' g'.
Proof.
  intros Hs HJ. destruct Hs.
  - by eapply J_plain.
  - destruct g. eapply J_phase; [done|by left|done].
  - by eapply J_enter.
  - by eapply J_body.
  - by eapply J_return.
  - destruct g. by eapply J_work.
  - by eapply J_exit.
Qed.

(** ** Programs keep to the transitions *)

(** What a thread knows of the ghost state: its own stages. *)
Record Local := mkLocal { l_body : option Body; l_work : Stage }.

Definition bodyOf (i : Tid) (b : option (Tid * Body)) : option Body :=
  match b with Some (j, x) => if decide (j = i) then Some x else None | None => None end.

Definition mine (i : Tid) (o : Operation) (g : Ghost) : Local :=
  mkLocal (bodyOf i (body g))
    (match i with TWorker => work g | TTimer t => if exited t o then WGone else WIdle | TCaller _ => WIdle end).

(** Why a thread waits: for the thread in [finish], or for the timer it joins. *)
Definition blocked (l : Local) (o : Operation) : Prop :=
  l_body l = None ∧ (m_finishOnce o = Running ∨ ∃ t e, l_work l = WJoin t e ∧ live t o).

Inductive safe (i : Tid) : Local → Prog → Prop :=
| safe_exit l : l_body l = None → (∃ n, i = TCaller n) ∨ l_work l = WGone → safe i l Exit
| safe_step l f :
    (∀ o g o' p, J o g → mine i o g = l → f o = Some (o', p) → ∃ g', gstep i o g o' g' ∧ safe i (mine i o' g') p) →
    (∀ o g, J o g → mine i o g = l → f o = None → blocked l o) → safe i l (Step f)
| safe_start k : i = TWorker → (∀ t, safe i (mkLocal None (WAssign t)) (k t)) → safe i (mkLocal None WArmed) (StartTimer k)
| safe_work todo : i = TWorker → safe i (mkLocal None WIdle) (Work todo).

Lemma mine_same (i : Tid) (o o' : Operation) (g : Ghost) :
  t_exited <$> timers (watch o') = t_exited <$> timers (watch o) → mine i o' g = mine i o g.
Proof. intros E. unfold mine. destruct i; try done. by rewrite (exited_same _ o o' E). Qed.

Lemma mine_body (i : Tid) (o : Operation) (g : Ghost) (b : option (Tid * Body)) :
  mine i o (mkGhost b (work g)) = mkLocal (bodyOf i b) (l_work (mine i o g)).
Proof. done. Qed.

Lemma bodyOf_mine (i : Tid) (o : Operation) (g : Ghost) (b : Body) :
  l_body (mine i o g) = Some b → body g = Some (i, b).
Proof. unfold mine, bodyOf. cbn. destruct (body g) as [[j x]|]; [|done]. case_decide; naive_solver. Qed.

Lemma plain_emit (b : bool) (e : Emitted) (o : Operation) :
  match e with Finished _ => False | _ => True end → plain o (emit b e o).
Proof.
  intros He. destruct (emit_fields b e o) as (Es & Ew & Eo & Ef & Eh & Ed). pose proof (finishedEmits_emit b e o) as Ee.
  split; rewrite ?Es, ?Ew, ?Eo, ?Ef, ?Eh, ?Ed, ?Ee; try done. destruct e; try done; apply app_nil_r.
Qed.

Section Programs.
Context (i : Tid).

Lemma safe_write (l : Local) (f : Operation → Operation) (k : Prog) :
  (∀ o, plain o (f o)) → safe i l k → safe i l (write f k).
Proof.
  intros Hf Hk. apply safe_step; [|done]. intros o g o' p _ Hm [= <- <-]. exists g. split; [by apply g_plain|].
  by rewrite (mine_same i o), Hm by apply Hf.
Qed.

Lemma safe_read {A : Type} (l : Local) (f : Operation → A) (k : A → Prog) :
  (∀ x, safe i l (k x)) → safe i l (read f k).
Proof.
  intros Hk. apply safe_step; [|done]. intros o g o' p _ Hm [= <- <-]. exists g. split; [by apply g_plain|]. by rewrite Hm.
Qed.

(** One access inside [finish]'s body. *)
Lemma safe_body (b b' : Body) (w : Stage) (f : Operation → Operation) (k : Prog) :
  (∀ o, bodyStep o b (f o) b') → safe i (mkLocal (Some b') w) k → safe i (mkLocal (Some b) w) (write f k).
Proof.
  intros Hf Hk. apply safe_step; [|done]. intros o g o' p _ Hm [= <- <-].
  exists (mkGhost (Some (i, b')) (work g)). assert (body g = Some (i, b)) as Eb by (apply (bodyOf_mine i o); by rewrite Hm).
  split; [by eapply g_body|]. destruct (bodyStep_frame _ _ _ _ (Hf o)) as (Ew & _).
  rewrite (mine_same i o) by by rewrite Ew. rewrite mine_body, Hm. cbn. by rewrite decide_True.
Qed.

Lemma safe_cancel (l : Local) (k : Prog) : safe i l k → safe i l (requestCancel k).
Proof.
  intros Hk. apply safe_read. intros ph. apply safe_write; [done|]. apply safe_write; [done|].
  case_decide; [|done]. apply safe_write; [|done]. intros o. by apply plain_emit.
Qed.

(** The phase [Done], which only [finish] sets. *)
Lemma safe_setDone (l : Local) (k : Prog) : safe i l k → safe i l (setPhase Done k).
Proof.
  intros Hk. apply safe_step; [|done]. intros o g o' p _ Hm [= <- <-]. exists g. split; [by apply g_done|].
  rewrite (mine_same i o), Hm by done. case_decide; [done|]. apply safe_write; [|done]. intros o'. by apply plain_emit.
Qed.

Lemma safe_finishBody (t : Terminal) (w : Stage) (k : Prog) :
  safe i (mkLocal None w) k →
  safe i (mkLocal (Some (BLoaded t)) w)
    (setPhase Done
       (write (onState (setStatus (status t)))
          (write (onState (setCode (code t)))
             (write (onState setCompleted)
                (write (λ o, emit (channel o && negb (shutdown o)) (Finished t) o)
                   (write setFinished (write (setOnce Returned) k))))))).
Proof.
  intros Hk. apply safe_setDone. eapply safe_body; [intros; apply b_status|]. eapply safe_body; [intros; apply b_code|].
  eapply safe_body; [intros; apply b_completed|]. eapply safe_body; [intros; apply b_emit|].
  eapply safe_body; [intros; apply b_flag|]. apply safe_step; [|done]. intros o g o' p _ Hm [= <- <-].
  exists (mkGhost None (work g)). split; [eapply g_return, (bodyOf_mine i o); by rewrite Hm|].
  rewrite (mine_same i o) by done. by rewrite mine_body, Hm.
Qed.

Lemma safe_finish (t : Terminal) (w : Stage) (k : Prog) :
  safe i (mkLocal None w) k → safe i (mkLocal None w) (finish t k).
Proof.
  intros Hk. apply safe_step.
  - intros o g o' p HJ Hm. destruct (m_finishOnce o) eqn:Eo; [|done|].
    + intros [= <- <-]. exists (mkGhost (Some (i, BEntered)) (work g)). split; [by apply g_enter|].
      rewrite (mine_same i o) by done. rewrite mine_body, Hm. cbn [bodyOf l_work]. rewrite decide_True by done.
      apply safe_step; [|done]. clear -Hk. intros o g o' p HJ Hm [= <- <-].
      set (t' := if m_watchdogFired (watch o) then timedOut else t). exists (mkGhost (Some (i, BLoaded t')) (work g)).
      split; [eapply g_body; [apply (bodyOf_mine i o); by rewrite Hm|]; apply b_load; unfold t'; by intros ->|].
      rewrite mine_body, Hm. cbn [bodyOf l_work]. rewrite decide_True by done. by apply safe_finishBody.
    + intros [= <- <-]. exists g. split; [by apply g_plain|]. by rewrite Hm.
  - intros o g HJ Hm E. split; [done|]. left. by destruct (m_finishOnce o).
Qed.

End Programs.

Lemma plain_stop (t : nat) (o : Operation) : plain o (onWatch (onTimer t (λ x, mkTimer true (t_exited x))) o).
Proof.
  split; try done. cbn. apply list_eq. intros k. rewrite !list_lookup_fmap. destruct (decide (k = t)) as [->|].
  - rewrite list_lookup_alter_eq. by destruct (timers (watch o) !! t).
  - by rewrite list_lookup_alter_ne.
Qed.

(** ** The worker's programs *)

Lemma safe_workStep (w w' : Stage) (f : Operation → Operation) (k : Prog) :
  (∀ o g, J o g → work g = w → workStep o w (f o) w') →
  safe TWorker (mkLocal None w') k → safe TWorker (mkLocal None w) (write f k).
Proof.
  intros Hf Hk. apply safe_step; [|done]. intros o g o' p HJ Hm [= <- <-]. injection Hm as Hb Hw.
  exists (mkGhost (body g) w'). split; [apply g_work; [done|]; rewrite Hw; by eapply Hf|].
  unfold mine. cbn. by rewrite Hb.
Qed.

Lemma safe_join (t : nat) (e : bool) (k : Prog) :
  safe TWorker (mkLocal None (if e then WGone else WIdle)) k → safe TWorker (mkLocal None (WJoin t e)) (stopAndJoin t k).
Proof.
  intros Hk. apply safe_write; [apply plain_stop|]. apply safe_step.
  - intros o g o' p HJ Hm. destruct (exited t o) eqn:E; [|done]. intros [= <- <-]. injection Hm as Hb Hw.
    exists (mkGhost (body g) (if e then WGone else WIdle)). split; [apply g_work; [done|]; rewrite Hw; by apply w_joined|].
    unfold mine. cbn. by rewrite Hb.
  - intros o g HJ Hm E. split; [done|]. right. exists t, e. split; [done|]. unfold live. by destruct (exited t o).
Qed.

(** Joining the thread [m_watchdog] holds, which no longer runs. *)
Lemma safe_joinOld (t t' : nat) (k : Prog) :
  t' ≠ t → safe TWorker (mkLocal None (WAssign t)) k → safe TWorker (mkLocal None (WAssign t)) (stopAndJoin t' k).
Proof.
  intros Ht Hk. apply safe_write; [apply plain_stop|]. apply safe_step.
  - intros o g o' p HJ Hm. destruct (exited t' o) eqn:E; [|done]. intros [= <- <-]. injection Hm as Hb Hw.
    exists (mkGhost (body g) (WAssign t)). split; [apply g_work; [done|]; rewrite Hw; by apply w_old|].
    unfold mine. cbn. by rewrite Hb.
  - intros o g HJ Hm E. injection Hm as Hb Hw. pose proof (j_stage _ _ HJ) as Hs. rewrite Hw in Hs.
    destruct Hs as (_ & _ & _ & Hs). destruct Ht. apply Hs. unfold live. by destruct (exited t' o).
Qed.

Lemma safe_quiesce (k : Prog) : safe TWorker (mkLocal None WGone) k → safe TWorker (mkLocal None WIdle) (quiesce k).
Proof.
  intros Hk. apply safe_step; [|done]. intros o g o' p HJ Hm [= <- <-]. injection Hm as Hb Hw.
  destruct (m_watchdog (watch o)) as [t|] eqn:E.
  - exists (mkGhost (body g) (WJoin t true)). split; [apply g_work; [done|]; rewrite Hw; by apply w_last|].
    unfold mine. cbn. rewrite Hb. by apply (safe_join t true).
  - exists (mkGhost (body g) WGone). split; [apply g_work; [done|]; rewrite Hw; by apply w_gone|].
    unfold mine. cbn. by rewrite Hb.
Qed.

Lemma sound_disarm (k : Prog) : safe TWorker (mkLocal None WIdle) k → safe TWorker (mkLocal None WConsent) (disarmWatchdog k).
Proof.
  intros Hk. apply safe_step; [|intros o g _ _; by case_match]. intros o g o' p HJ Hm. injection Hm as Hb Hw.
  destruct (m_watchdogArmed (watch o)) eqn:Ea; intros [= <- <-].
  - exists (mkGhost (body g) WDisarm). split; [apply g_work; [done|]; rewrite Hw; by apply w_disarm|].
    unfold mine. cbn. rewrite Hb. clear -Hk. apply safe_step; [|done]. intros o g o' p HJ Hm [= <- <-]. injection Hm as Hb Hw.
    destruct (m_watchdog (watch o)) as [t|] eqn:E.
    + exists (mkGhost (body g) (WJoin t false)). split; [apply g_work; [done|]; rewrite Hw; by apply w_join|].
      unfold mine. cbn. rewrite Hb. by apply (safe_join t false).
    + exists (mkGhost (body g) WIdle). split; [apply g_work; [done|]; rewrite Hw; by apply w_unheld|]. unfold mine. cbn. by rewrite Hb.
  - exists (mkGhost (body g) WIdle). split; [apply g_work; [done|]; rewrite Hw; apply w_noneed; auto|]. unfold mine. cbn. by rewrite Hb.
Qed.

Lemma safe_assign (t : nat) (k : Prog) :
  safe TWorker (mkLocal None WIdle) k →
  safe TWorker (mkLocal None (WAssign t))
    (read (λ o, m_watchdog (watch o)) (λ held,
       let assign := write (onWatch (setThread (Some t))) k in
       match held with Some t' => stopAndJoin t' assign | None => assign end)).
Proof.
  intros Hk. assert (Ha : safe TWorker (mkLocal None (WAssign t)) (write (onWatch (setThread (Some t))) k))
    by (eapply safe_workStep; [intros; apply w_assign|done]).
  apply safe_step; [|done]. intros o g o' p HJ Hm [= <- <-]. exists g. split; [by apply g_plain|]. rewrite Hm.
  destruct (m_watchdog (watch o)) as [t'|] eqn:E; [|done]. apply safe_joinOld; [|done]. injection Hm as Hb Hw.
  pose proof (j_stage _ _ HJ) as Hs. rewrite Hw in Hs. destruct Hs as (_ & Hs & _). congruence.
Qed.

Lemma safe_arm (p : OperationPhase) (k : Prog) :
  safe TWorker (mkLocal None WIdle) k → safe TWorker (mkLocal None (stageOf p)) (armWatchdogIfNeeded p k) ∨ p = AwaitingConsent.
Proof.
  intros Hk. destruct (decide (p = Authenticating ∨ p = Reading)) as [Hp|Hp]; [left|destruct p; naive_solver].
  replace (armWatchdogIfNeeded p k) with (armWatchdogIfNeeded Reading k) by by destruct Hp as [->| ->].
  replace (stageOf p) with WArming by by destruct Hp as [->| ->].
  apply safe_write; [done|]. apply safe_step; [|intros o g _ _; by case_match]. intros o g o' q HJ Hm. injection Hm as Hb Hw.
  destruct (m_watchdogArmed (watch o)) eqn:Ea; intros [= <- <-].
  - exists (mkGhost (body g) WIdle). split; [apply g_work; [done|]; rewrite Hw; apply w_noneed; auto|]. unfold mine. cbn. by rewrite Hb.
  - exists (mkGhost (body g) WArmed). split; [apply g_work; [done|]; rewrite Hw; by apply w_arm|].
    unfold mine. cbn. rewrite Hb. clear -Hk. apply safe_step; [|done]. intros o g o' p HJ Hm [= <- <-]. injection Hm as Hb Hw.
    destruct (Z.eqb_spec (watchdogTimeoutSec (m_state o)) 0).
    + exists (mkGhost (body g) WIdle). split; [apply g_work; [done|]; rewrite Hw; apply w_noneed; auto|]. unfold mine. cbn. by rewrite Hb.
    + exists g. split; [by apply g_plain|]. unfold mine. rewrite Hb, Hw. apply safe_start; [done|]. intros t. by apply safe_assign.
Qed.

Lemma safe_setPhase (p : OperationPhase) (k : Prog) :
  safe TWorker (mkLocal None WIdle) k → safe TWorker (mkLocal None WIdle) (setPhase p k).
Proof.
  intros Hk. apply safe_step; [|done]. intros o g o' q HJ Hm [= <- <-]. injection Hm as Hb Hw.
  eexists (mkGhost (body g) _). split; [apply g_work; [done|]; rewrite Hw; apply w_phase|].
  unfold mine. cbn. rewrite Hb. case_decide as E; [done|]. apply safe_write; [intros; by apply plain_emit|].
  case_decide as Ep; [subst; by apply sound_disarm|]. by destruct (safe_arm p k Hk).
Qed.

Lemma safe_runOnWorker (todo : list WorkAct) : safe TWorker (mkLocal None WIdle) (runOnWorker todo).
Proof.
  assert (Hw : ∀ todo, safe TWorker (mkLocal None WIdle) (Work todo)) by (intros; by apply safe_work).
  destruct todo as [|[] todo]; cbn.
  - apply safe_quiesce, safe_exit; auto.
  - by apply safe_setPhase.
  - apply safe_write; [intros; by apply plain_emit|done].
  - apply safe_write; [intros; by apply plain_emit|done].
  - by apply safe_finish.
  - by apply safe_finish.
Qed.

Lemma safe_timer (t : nat) : safe (TTimer t) (mkLocal None WIdle) (timer t).
Proof.
  assert (Hx : safe (TTimer t) (mkLocal None WIdle) (write (onWatch (onTimer t (λ x, mkTimer (t_stop x) true))) Exit)).
  { apply safe_step; [|done]. intros o g o' p HJ Hm [= <- <-]. injection Hm as Hb Hw. exists g.
    split; [by apply g_exit|]. apply safe_exit; [done|]. right. cbn [mine l_work].
    assert (exited t (onWatch (onTimer t (λ x, mkTimer (t_stop x) true)) o) = true) as ->; [|done].
    unfold exited. cbn. rewrite list_lookup_alter_eq. by destruct (timers (watch o) !! t). }
  apply (safe_read _ _ (λ o, stopped t o || m_finished o) (λ b, if b then _ else finishWatchdogTimeout _)). intros b.
  destruct b; [done|]. apply safe_write; [done|]. by apply safe_cancel, safe_finish.
Qed.

Lemma safe_caller (n : nat) (c : Caller) : safe (TCaller n) (mkLocal None WIdle) (callerProg c).
Proof.
  assert (He : safe (TCaller n) (mkLocal None WIdle) Exit) by (apply safe_exit; eauto).
  destruct c; cbn; [by apply safe_cancel|by apply safe_cancel, safe_finish|].
  apply safe_write; [done|]. apply safe_write; [done|]. by apply safe_write.
Qed.

(** ** Reachable configurations *)

Record InvAt (cfg : Config) (g : Ghost) : Prop := mkInv {
  inv_J : J (c_op cfg) g;
  inv_safe : ∀ i p, c_threads cfg !! i = Some p → safe i (mine i (c_op cfg) g) p;
  inv_worker : is_Some (c_threads cfg !! TWorker);
  inv_timers : ∀ t, is_Some (c_threads cfg !! TTimer t) ↔ (t < length (timers (watch (c_op cfg))))%nat;
  inv_body : ∀ i b, body g = Some (i, b) → is_Some (c_threads cfg !! i) }.

Lemma inv_start (timeoutSec : Z) (hasChannel hasCallback : bool) (script : list WorkAct) :
  InvAt (start timeoutSec hasChannel hasCallback script) (mkGhost None WIdle).
Proof.
  split; cbn; try done.
  - intros i p. rewrite lookup_singleton_Some. intros [<- <-]. by apply safe_work.
  - intros t. split; [|by intros ?%Nat.nlt_0_r]. rewrite lookup_singleton_ne by done. by intros [].
Qed.

(** A thread's transition as the others see it. *)
Lemma gstep_others (i j : Tid) (o o' : Operation) (g g' : Ghost) :
  gstep i o g o' g' → J o g → i ≠ j → mine j o' g' = mine j o g.
Proof.
  intros Hs HJ Hij. destruct Hs as [o' Hp| |Ho|b o' b' Hb Hs|t Hb|o' w -> Hw|t ->].
  - by apply mine_same, p_exited.
  - by apply mine_same.
  - rewrite (mine_same j o) by done. rewrite mine_body. pose proof (j_once _ _ HJ) as H1. rewrite Ho in H1.
    unfold mine. destruct (body g) as [[]|]; [done|]. cbn. by rewrite decide_False.
  - destruct (bodyStep_frame _ _ _ _ Hs) as (Ew & _). rewrite (mine_same j o) by by rewrite Ew. rewrite mine_body. unfold mine.
    rewrite Hb. cbn. by rewrite !decide_False.
  - rewrite (mine_same j o) by done. rewrite mine_body. unfold mine. rewrite Hb. cbn. by rewrite decide_False.
  - destruct j as [|t|n]; [done| |done]. unfold mine. cbn. f_equal.
    assert (exited t o' = exited t o) as ->; [|done]. by destruct Hw.
  - destruct j as [|t'|n]; try done. unfold mine. assert (t ≠ t') by congruence. f_equal. unfold exited. cbn.
    by rewrite list_lookup_alter_ne.
Qed.

Lemma gstep_length (i : Tid) (o o' : Operation) (g g' : Ghost) :
  gstep i o g o' g' → length (timers (watch o')) = length (timers (watch o)).
Proof.
  intros Hs. destruct Hs as [o' Hp| | |b o' b' Hb Hs| |o' w _ Hs|t _]; try done.
  - by apply exited_length, p_exited.
  - destruct (bodyStep_frame _ _ _ _ Hs) as (-> & _). done.
  - by destruct Hs.
  - cbn. apply length_alter.
Qed.

Lemma safe_start_inv (i : Tid) (l : Local) (k : nat → Prog) :
  safe i l (StartTimer k) → i = TWorker ∧ l = mkLocal None WArmed ∧ ∀ t, safe i (mkLocal None (WAssign t)) (k t).
Proof. by inversion 1. Qed.

Lemma safe_work_inv (i : Tid) (l : Local) (todo : list WorkAct) : safe i l (Work todo) → i = TWorker ∧ l = mkLocal None WIdle.
Proof. by inversion 1. Qed.

Lemma inv_thread (cfg : Config) (g : Ghost) (i : Tid) (p : Prog) (cfg' : Config) :
  InvAt cfg g → c_threads cfg !! i = Some p → tstep i p cfg = Some cfg' →
  ∃ g', InvAt cfg' g' ∧
    (gstep i (c_op cfg) g (c_op cfg') g' ∨
     c_op cfg' = onWatch addTimer (c_op cfg) ∧ work g = WArmed ∧ g' = mkGhost (body g) (WAssign (length (timers (watch (c_op cfg)))))).
Proof.
  intros [HJ Hsafe Hw Ht Hb] Hi Hstep. pose proof (Hsafe i p Hi) as Hp. destruct p as [|f|k|todo]; cbn in Hstep; [done| | |].
  - destruct (f (c_op cfg)) as [[o' p']|] eqn:Ef; [|done]. injection Hstep as <-. inversion Hp as [|l f' Hf _ El| |]; subst.
    destruct (Hf _ _ _ _ HJ eq_refl Ef) as (g' & Hg & Hp'). exists g'. split; [|by left]. split; cbn.
    + by eapply J_step.
    + intros j q Hj. rewrite lookup_insert_Some in Hj. destruct Hj as [[<- <-]|[Hij Hj]]; [done|].
      rewrite (gstep_others i j _ _ _ _ Hg HJ Hij). by apply Hsafe.
    + apply lookup_insert_is_Some'. by right.
    + intros t. rewrite lookup_insert_is_Some', (gstep_length _ _ _ _ _ Hg), <- Ht. naive_solver.
    + intros j b Ej. apply lookup_insert_is_Some'. destruct Hg; cbn in Ej; naive_solver.
  - injection Hstep as <-. apply safe_start_inv in Hp as (-> & El & Hk). set (t := length (timers (watch (c_op cfg)))).
    destruct (c_threads cfg !! TTimer t) eqn:En; [pose proof (proj1 (Ht t) ltac:(by eexists)); subst t; lia|].
    injection El as Hbody Hwork. exists (mkGhost (body g) (WAssign t)). split; [|by right]. split; cbn.
    + by apply J_startTimer.
    + intros j q Hj. rewrite !lookup_insert_Some in Hj.
      destruct Hj as [[<- <-]|[Hne [[<- <-]|[Hij Hj]]]].
      * assert (mine (TTimer t) (onWatch addTimer (c_op cfg)) (mkGhost (body g) (WAssign t)) = mkLocal None WIdle) as ->;
          [|by apply safe_timer]. unfold mine. rewrite exited_add, decide_True by done. f_equal. cbn.
        destruct (body g) as [[j b]|] eqn:Eb; [|done]. cbn. rewrite decide_False; [done|]. intros ->. destruct (Hb _ _ eq_refl). congruence.
      * assert (mine TWorker (onWatch addTimer (c_op cfg)) (mkGhost (body g) (WAssign t)) = mkLocal None (WAssign t)) as ->; [|done].
        unfold mine. cbn. by rewrite Hbody.
      * assert (mine j (onWatch addTimer (c_op cfg)) (mkGhost (body g) (WAssign t)) = mine j (c_op cfg) g) as ->; [|by apply Hsafe].
        unfold mine. destruct j as [|t'|]; [done| |done]. rewrite exited_add, decide_False; [done|]. fold t. intros ->. by destruct Hne.
    + rewrite !lookup_insert_is_Some'. auto.
    + intros t'. rewrite !lookup_insert_is_Some', length_app, Ht. cbn. fold t. split; [naive_solver lia|].
      intros. destruct (decide (t' = t)) as [->|]; [by left|]. right. right. lia.
    + intros j b Ej. rewrite !lookup_insert_is_Some'. naive_solver.
  - injection Hstep as <-. apply safe_work_inv in Hp as (-> & El). exists g. split; [|left; by apply g_plain]. split; cbn; try done.
    + intros j q Hj. rewrite lookup_insert_Some in Hj. destruct Hj as [[<- <-]|[Hij Hj]]; [|by apply Hsafe].
      rewrite El. apply safe_runOnWorker.
    + apply lookup_insert_is_Some'. by right.
    + intros t. rewrite lookup_insert_is_Some', <- Ht. naive_solver.
    + intros j b Ej. apply lookup_insert_is_Some'. right. by eapply Hb.
Qed.

Lemma inv_caller (cfg : Config) (g : Ghost) (n : nat) (c : Caller) :
  InvAt cfg g → c_threads cfg !! TCaller n = None → InvAt (mkConfig (c_op cfg) (<[TCaller n := callerProg c]> (c_threads cfg))) g.
Proof.
  intros [HJ Hsafe Hw Ht Hb] Hn. split; cbn; try done.
  - intros j q. rewrite lookup_insert_Some. intros [[<- <-]|[Hne Hj]]; [|by apply Hsafe].
    assert (mine (TCaller n) (c_op cfg) g = mkLocal None WIdle) as ->; [|apply safe_caller].
    unfold mine. f_equal. destruct (body g) as [[j b]|] eqn:Eb; [|done]. cbn. rewrite decide_False; [done|]. intros ->.
    destruct (Hb _ _ eq_refl). congruence.
  - by rewrite lookup_insert_ne.
  - intros t. by rewrite lookup_insert_ne.
  - intros j b Ej. apply lookup_insert_is_Some'. right. by eapply Hb.
Qed.

(** Every step is a transition of the ghost system, or leaves the operation alone. *)
Lemma inv_cstep (cfg cfg' : Config) (g : Ghost) :
  InvAt cfg g → cstep cfg cfg' →
  ∃ g', InvAt cfg' g' ∧
    ((∃ i, gstep i (c_op cfg) g (c_op cfg') g') ∨ c_op cfg' = onWatch addTimer (c_op cfg) ∧ body g' = body g).
Proof.
  intros Hinv Hs. destruct Hs as [cfg i p cfg' Hi Hst|cfg n c Hn].
  - destruct (inv_thread _ _ _ _ _ Hinv Hi Hst) as (g' & Hg & [?|(?&?&->)]); exists g' + eexists; eauto.
  - exists g. split; [by apply inv_caller|]. left. exists TWorker. by apply g_plain.
Qed.

Lemma reach_inv (cfg : Config) : reach cfg → ∃ g, InvAt cfg g.
Proof.
  induction 1 as [????|cfg cfg' _ [g Hg] Hs]; [eexists; apply inv_start|]. destruct (inv_cstep _ _ _ Hg Hs) as (g' & ? & _). by exists g'.
Qed.

(** ** The outcome *)

Lemma body_outcome (o : Operation) (g : Ghost) :
  J o g → (quiet o ∧ ∀ i b, body g = Some (i, b) → match b with BEntered | BLoaded _ | BStatus _ | BCode _ => True | _ => False end) ∨
  ∃ t, completed (m_state o) = true ∧ mirrors t o ∧ (announced t o ∨ m_finished o = false ∧ finishedEmits o = []).
Proof.
  intros [H1 _ _ _ _]. destruct (m_finishOnce o), (body g) as [[i b]|]; try done.
  - left. by split.
  - destruct b; cbn in H1; try (left; split; [naive_solver|by intros ?? [= -> <-]]); right; naive_solver.
  - destruct H1 as [t H1]. right. exists t. cbn in H1. naive_solver.
Qed.

(** C9: one verdict per operation. However the worker, the watchdog, cancelling and
    draining threads interleave, [Finished] leaves at most once, never before the
    terminal mirrors are readable and never with another outcome than they show; and
    an operation that reports itself finished has sent it, unless it has no channel or
    the agent is shutting down. *)
Theorem outcome_published_once (cfg : Config) (Hr : reach cfg) :
  let o := c_op cfg in
  (length (finishedEmits o) ≤ 1)%nat ∧
  (∀ t, t ∈ finishedEmits o → completed (m_state o) = true ∧ mirrors t o) ∧
  (m_finished o = true → completed (m_state o) = true ∧ (finishedEmits o = [] → channel o = false ∨ shutdown o = true)).
Proof.
  destruct (reach_inv cfg Hr) as [g Hg]. cbv zeta. destruct (body_outcome _ _ (inv_J _ _ Hg)) as [[(Ec & Ef & Ee) _]|(t & Ec & Hm & Ha)].
  - rewrite Ee, Ef. split_and!; [cbn; lia|by intros ? ?%not_elem_of_nil|done].
  - destruct Ha as [[->|[-> Hc]]|[-> ->]]; split_and!; cbn; try lia; try done; try by intros ? ?%not_elem_of_nil.
    by intros t' ->%list_elem_of_singleton.
Qed.

(** A published outcome: what later transitions keep. *)
Lemma completed_stays (i : Tid) (o o' : Operation) (g g' : Ghost) (t : Terminal) :
  gstep i o g o' g' → J o g → completed (m_state o) = true → mirrors t o → completed (m_state o') = true ∧ mirrors t o'.
Proof.
  intros Hs HJ Hc Hm. destruct Hs as [o' Hp| | |b o' b' Hb Hs| |o' w _ Hs|]; try done.
  - unfold mirrors. by rewrite (p_completed _ _ Hp), (p_status _ _ Hp), (p_code _ _ Hp).
  - pose proof (j_once _ _ HJ) as H1. rewrite Hb in H1. destruct (m_finishOnce o); try done.
    assert (Hq : ∀ o, quiet o → completed (m_state o) = true → False) by (unfold quiet; naive_solver congruence).
    destruct Hs; cbn in H1; try done; try (exfalso; naive_solver).
    unfold mirrors. by destruct (emit_fields (channel o && negb (shutdown o)) (Finished t0) o) as (-> & _).
  - by destruct Hs.
Qed.

(** The watchdog was first: whoever publishes the outcome, it is the timeout. *)
Definition verdict (o : Operation) (g : Ghost) : Prop :=
  m_watchdogFired (watch o) = true ∧
  match body g with
  | Some (_, BEntered) => True
  | Some (_, BLoaded t) | Some (_, BStatus t) | Some (_, BCode t) => t = timedOut
  | Some (_, BCompleted _) | Some (_, BEmitted _) | Some (_, BFlagged _) => mirrors timedOut o
  | None => m_finishOnce o = NotCalled ∨ mirrors timedOut o
  end.

Lemma verdict_stays (i : Tid) (o o' : Operation) (g g' : Ghost) : gstep i o g o' g' → J o g → verdict o g → verdict o' g'.
Proof.
  intros Hs HJ [Hf Hv]. pose proof (j_once _ _ HJ) as H1. destruct Hs as [o' Hp| |Ho|b o' b' Hb Hs|t Hb|o' w _ Hs|].
  - unfold verdict, mirrors in *. rewrite (p_status _ _ Hp), (p_code _ _ Hp), (p_once _ _ Hp). split; [by apply (p_fired _ _ Hp)|done].
  - done.
  - done.
  - unfold verdict in *. destruct (bodyStep_frame _ _ _ _ Hs) as (-> & _). split; [done|]. rewrite Hb in Hv, H1. cbn [body].
    destruct (m_finishOnce o); try done.
    destruct Hs; subst; try done; [by auto|by destruct H1 as [_ H1]|]. unfold mirrors.
    by destruct (emit_fields (channel o && negb (shutdown o)) (Finished t) o) as (-> & _).
  - unfold verdict in *. rewrite Hb in Hv. split; [done|by right].
  - unfold verdict, mirrors in *. cbn [body]. assert (Hm : watch o' = watch o ∨ m_watchdogFired (watch o') = m_watchdogFired (watch o))
      by (destruct Hs; auto). assert (terminalStatus (m_state o') = terminalStatus (m_state o) ∧
      terminalErrorCode (m_state o') = terminalErrorCode (m_state o) ∧ m_finishOnce o' = m_finishOnce o) as (-> & -> & ->) by by destruct Hs.
    split; [by destruct Hm as [->| ->]|done].
  - done.
Qed.

(** An outcome is final, and the watchdog outranks the others: once [Completed] can
    be read, the status and the error code never change; and if the watchdog had latched
    its verdict before any thread entered [finish], the outcome is the timeout, also
    where the cancelled work reaches [finish] first. *)
Theorem outcome_final (cfg cfg' : Config) (Hr : reach cfg) (Hs : rtc cstep cfg cfg') :
  let o := c_op cfg in let o' := c_op cfg' in
  (completed (m_state o) = true → completed (m_state o') = true ∧
     terminalStatus (m_state o') = terminalStatus (m_state o) ∧ terminalErrorCode (m_state o') = terminalErrorCode (m_state o)) ∧
  (m_watchdogFired (watch o) = true → m_finishOnce o = NotCalled → completed (m_state o') = true → mirrors timedOut o').
Proof.
  destruct (reach_inv cfg Hr) as [g Hg]. cbv zeta. split.
  - intros Hc. enough (completed (m_state (c_op cfg')) = true ∧ mirrors (mkTerminal (terminalStatus (m_state (c_op cfg)))
      (terminalErrorCode (m_state (c_op cfg))) "" "") (c_op cfg')) as (? & ? & ?) by done.
    assert (mirrors (mkTerminal (terminalStatus (m_state (c_op cfg))) (terminalErrorCode (m_state (c_op cfg))) "" "") (c_op cfg)) as Hm by done.
    revert g Hg Hc Hm. generalize (mkTerminal (terminalStatus (m_state (c_op cfg))) (terminalErrorCode (m_state (c_op cfg))) "" "").
    clear Hr. intros t. induction Hs as [cfg|cfg cfg1 cfg2 H1 _ IH]; intros g Hg Hc Hm; [done|].
    destruct (inv_cstep _ _ _ Hg H1) as (g' & Hg' & [[i Hi]|[E _]]); [|rewrite E in IH; eauto].
    destruct (completed_stays _ _ _ _ _ _ Hi (inv_J _ _ Hg) Hc Hm). eauto.
  - intros Hf Ho. assert (verdict (c_op cfg) g) as Hv.
    { split; [done|]. pose proof (j_once _ _ (inv_J _ _ Hg)) as H1. rewrite Ho in H1. destruct (body g) as [[]|]; [done|by left]. }
    clear Hr Hf Ho. revert g Hg Hv. induction Hs as [cfg|cfg cfg1 cfg2 H1 _ IH]; intros g Hg Hv.
    + intros Hc. destruct Hv as [_ Hv]. pose proof (j_once _ _ (inv_J _ _ Hg)) as H1. destruct (body g) as [[i b]|].
      * destruct (m_finishOnce (c_op cfg)); try done. destruct b; cbn in H1; unfold quiet in H1; try done; naive_solver congruence.
      * destruct Hv as [Hv|]; [|done]. rewrite Hv in H1. unfold quiet in H1. naive_solver congruence.
    + destruct (inv_cstep _ _ _ Hg H1) as (g' & Hg' & [[i Hi]|[E Eb]]).
      * apply (IH g'); [done|]. by eapply verdict_stays; [|apply inv_J|].
      * apply (IH g'); [done|]. unfold verdict, mirrors in *. by rewrite E, Eb.
Qed.

(** The watchdog times the machine only. There is never a second timer beside a
    running one; while the worker waits for a person, no timer runs; and once the worker
    is done with the operation, none is left to touch it. *)
Theorem watchdog_times_machine (cfg : Config) (Hr : reach cfg) :
  let o := c_op cfg in
  (∀ t t', exited t o = false → exited t' o = false → t = t') ∧
  (∀ todo t, c_threads cfg !! TWorker = Some (Work todo) → phase (m_state o) = AwaitingConsent → exited t o = true) ∧
  (∀ t, c_threads cfg !! TWorker = Some Exit → exited t o = true).
Proof.
  destruct (reach_inv cfg Hr) as [g [HJ Hsafe _ _ _]]. cbv zeta. split_and!.
  - intros t t' Ht Ht'. destruct (j_live _ _ HJ t Ht) as [H1 _], (j_live _ _ HJ t' Ht') as [H2 _]. pose proof (j_stage _ _ HJ) as H3.
    destruct H1 as [H1|H1], H2 as [H2|H2]; try congruence.
    + rewrite H2 in H3. destruct H3 as (_ & _ & _ & H3). by apply H3.
    + rewrite H1 in H3. destruct H3 as (_ & _ & _ & H3). symmetry. by apply H3.
  - intros todo t Hw Hp. apply not_false_iff_true. intros Ht. destruct (safe_work_inv _ _ _ (Hsafe _ _ Hw)) as [_ Hm].
    injection Hm as _ Hm. pose proof (j_phase _ _ HJ Hp) as H. rewrite Hm in H. by apply (H t).
  - intros t Hw. apply not_false_iff_true. intros Ht. pose proof (Hsafe _ _ Hw) as Hs. inversion Hs as [l _ [[n ?]|Hl] El| | |]; [done|].
    subst. pose proof (j_stage _ _ HJ) as H3. cbn in Hl. rewrite Hl in H3. destruct (j_live _ _ HJ t Ht) as [[|] _]; congruence.
Qed.

(** ** No deadlock *)

Definition isExit (p : Prog) : bool := match p with Exit => true | _ => false end.

Definition canStep (cfg : Config) : Prop := ∃ i p cfg', c_threads cfg !! i = Some p ∧ tstep i p cfg = Some cfg'.

(** A thread that has not returned can go on, or waits for a reason. *)
Lemma thread_waits (cfg : Config) (g : Ghost) (i : Tid) (p : Prog) :
  InvAt cfg g → c_threads cfg !! i = Some p → p = Exit ∨ canStep cfg ∨ blocked (mine i (c_op cfg) g) (c_op cfg).
Proof.
  intros [HJ Hsafe _ _ _] Hi. destruct p as [|f|k|todo]; [by left|right..].
  - destruct (f (c_op cfg)) as [[o' p']|] eqn:Ef; [left; exists i; do 2 eexists; split; [done|]; cbn; by rewrite Ef|].
    right. pose proof (Hsafe _ _ Hi) as Hs. inversion Hs as [|l f' _ Hb| |]; subst. by eapply Hb.
  - left. exists i. by do 2 eexists.
  - left. exists i. by do 2 eexists.
Qed.

(** The thread in [finish] never waits. *)
Lemma finisher_runs (cfg : Config) (g : Ghost) : InvAt cfg g → m_finishOnce (c_op cfg) = Running → canStep cfg.
Proof.
  intros Hinv Ho. pose proof (j_once _ _ (inv_J _ _ Hinv)) as H1. rewrite Ho in H1. destruct (body g) as [[i b]|] eqn:Eb; [|done].
  destruct (inv_body _ _ Hinv _ _ Eb) as [p Hp]. assert (Hm : l_body (mine i (c_op cfg) g) = Some b).
  { unfold mine. rewrite Eb. cbn. by rewrite decide_True. }
  destruct (thread_waits _ _ _ _ Hinv Hp) as [->|[|[? _]]]; [|done|congruence].
  pose proof (inv_safe _ _ Hinv _ _ Hp) as Hs. inversion Hs; congruence.
Qed.


(** ** Runs *)

Inductive Event := ERun (i : Tid) | ECall (n : nat) (c : Caller).

Definition eventStep (e : Event) (cfg : Config) : option Config :=
  match e with
  | ERun i => match c_threads cfg !! i with Some p => tstep i p cfg | None => None end
  | ECall n c =>
      match c_threads cfg !! TCaller n with
      | None => Some (mkConfig (c_op cfg) (<[TCaller n := callerProg c]> (c_threads cfg)))
      | Some _ => None
      end
  end.

(** The configuration after the events; an event that cannot happen is left out. *)
Definition after (evs : list Event) (cfg : Config) : Config := foldl (λ cfg e, default cfg (eventStep e cfg)) cfg evs.

Lemma after_steps (evs : list Event) (cfg : Config) : rtc cstep cfg (after evs cfg).
Proof.
  revert cfg. induction evs as [|e evs IH]; intros cfg; [done|]. cbn. destruct (eventStep e cfg) as [cfg'|] eqn:E; cbn; [|apply IH].
  eapply rtc_l; [|apply IH]. destruct e as [i|n c]; cbn in E; case_match eqn:Et; try done; [by eapply step_thread|].
  injection E as <-. by apply step_caller.
Qed.

Lemma after_reach (evs : list Event) (cfg : Config) : reach cfg → reach (after evs cfg).
Proof. intros Hr. generalize (after_steps evs cfg). induction 1; [done|]. eauto using reach_step. Qed.

Definition cancelledWork : Terminal := mkTerminal Status.Cancelled None_ "op.cancelled" "Cancelled".

(** The watchdog fires while the work runs and, cancelled by it, finishes first. *)
Definition hung : Config :=
  after (replicate 9 (ERun TWorker) ++ replicate 2 (ERun (TTimer 0))) (start 60 true true [APhase Authenticating; AFinish cancelledWork]).
Definition woken : Config := after (replicate 20 (ERun TWorker)) hung.

Lemma hung_reach : reach hung.
Proof. apply after_reach, reach_start. Qed.

Example outcome_published_once_witness : completed (m_state (c_op woken)) = true ∧ mirrors timedOut (c_op woken).
Proof.
  assert (reach woken) as Hr by apply after_reach, hung_reach.
  destruct (outcome_published_once woken Hr) as (_ & H & _). apply H. vm_compute. left.
Defined.

Example outcome_final_witness : mirrors timedOut (c_op woken).
Proof. by apply (outcome_final hung woken hung_reach (after_steps _ _)); vm_compute. Defined.

Definition asking : Config :=
  after (replicate 15 (ERun TWorker) ++ [ERun (TTimer 0); ERun (TTimer 0); ERun TWorker])
    (start 60 true true [APhase Reading; APhase AwaitingConsent; AFinish cancelledWork]).

Lemma asking_reach : reach asking.
Proof. apply after_reach, reach_start. Qed.

Definition todoOf (i : Tid) (cfg : Config) : option (list WorkAct) :=
  match c_threads cfg !! i with Some (Work todo) => Some todo | _ => None end.

Lemma todoOf_Some (i : Tid) (cfg : Config) (todo : list WorkAct) : todoOf i cfg = Some todo → c_threads cfg !! i = Some (Work todo).
Proof. unfold todoOf. by destruct (c_threads cfg !! i) as [[]|]; intros [= ->]. Qed.

(** The worker has disarmed and joined the timer it had started. *)
Example watchdog_times_machine_witness : length (timers (watch (c_op asking))) = 1%nat ∧ exited 0 (c_op asking) = true.
Proof.
  split; [by vm_compute|]. destruct (watchdog_times_machine asking asking_reach) as (_ & H & _).
  apply (H [AFinish cancelledWork]); [by apply todoOf_Some; vm_compute|by vm_compute].
Defined.

Definition returned (i : Tid) (cfg : Config) : bool :=
  match c_threads cfg !! i with Some p => isExit p | None => false end.


(** The phase [Done] is not the last a client sees: the work the watchdog gave up on
    goes on and sets the phases it comes to. *)
Definition overrun : Config :=
  after (replicate 9 (ERun TWorker) ++ replicate 20 (ERun (TTimer 0)) ++ replicate 3 (ERun TWorker))
    (start 60 true true [APhase Authenticating; APhase Reading; AFinish cancelledWork]).

Example phase_leaves_done :
  reach overrun ∧ completed (m_state (c_op overrun)) = true ∧ phase (m_state (c_op overrun)) = Reading ∧
  emitted (c_op overrun) = [PropertiesChanged; PropertiesChanged; Finished timedOut; PropertiesChanged].
Proof. split; [apply after_reach, reach_start|]. by vm_compute. Qed.

End Operations.
