(* ===== verification/Holder.v ===== *)
(** * The card session of a reader

    Models [src/operations/CardSessionHolder.cpp] and the routing helpers of
    [operations/CardPluginRouting.h] it uses: one connection per reader, reused by the
    reader's operations, closed or parked without secrets when idle. The card library,
    the plugins, the session factory, the resolver and the clock are the class [CardLib]
    over a state of their own; a call that throws gives [None]. A connection is closed
    when the holder lets go of it: the copies an operation was handed are gone by then,
    as the holder is used by the reader's worker between operations. *)
From S2P Require Import Prelude.
Local Open Scope Z_scope.

Module Holder.

(** Sessions and plugins by number; a candidate may be a null pointer. A pre-read
    authentication method is a number, [PreReadAuthMethod::None] is [None]. *)
Abbreviation CandidateList := (list (option Z)) (only parsing).
Abbreviation PreReadAuthMethod := (option Z) (only parsing).

Inductive OpenError := OpenFailed (kind : Z) | ResolutionThrew.

Class CardLib (W : Type) := {
  m_factory : string → W → option (result OpenError Z) * W;
  m_resolver : Z → W → option CandidateList * W;
  m_clock : W → option Z * W;
  closeSession : Z → W → W;
  clearCredentials : Z → Z → W → W;
  clearCachedPaceCredentials : Z → W → W;
  clearActiveChannel : Z → W → W;
  hasLiveSecureChannel : Z → W → bool;
  pluginPreReadAuth : Z → Z → W → option PreReadAuthMethod * W;
  capabilities : Z → Z }.

(** In milliseconds, as the clock. *)
Definition kIdleClose : Z := 45000.

Record CardSessionHolder := mkHolder {
  m_readerName : string; m_session : option Z; m_candidates : CandidateList;
  m_preReadAuth : option PreReadAuthMethod; m_lastUsed : Z; m_hold : option Z }.

Record CardResolution := mkResolution { r_candidates : CandidateList; r_capabilities : Z; r_preReadAuth : PreReadAuthMethod }.

Definition unionCapabilities `{CardLib W} (cands : CandidateList) : Z :=
  foldl (λ u c, match c with Some p => u32 (Z.lor u (capabilities p)) | None => u end) 0 cands.

Section Operations.
Context {W : Type} `{!CardLib W}.

(** A holder and the state of the library. *)
Abbreviation S := (CardSessionHolder * W)%type.

(** What [acquire] does: it throws, fails, or hands out the session. *)
Inductive Acquired := AcquireThrew | AcquireFailed (e : OpenError) | AcquiredCard (session : Z) (candidates : CandidateList).

(** The end of [acquire]: the stamp, and the session with its candidates. *)
Definition handOut (session : Z) (s : S) : Acquired * S :=
  let '(h, w) := s in
  match m_clock w with
  | (Some now, w) =>
      (AcquiredCard session (m_candidates h),
       (mkHolder (m_readerName h) (m_session h) (m_candidates h) (m_preReadAuth h) now (m_hold h), w))
  | (None, w) => (AcquireThrew, (h, w))
  end.

(** A promoted or new session is resolved before it is kept. *)
Definition resolveAndHandOut (session : Z) (s : S) : Acquired * S :=
  let '(h, w) := s in
  match m_resolver session w with
  | (None, w) => (AcquireThrew, (h, closeSession session w))
  | (Some candidates, w) =>
      handOut session (mkHolder (m_readerName h) (Some session) candidates (m_preReadAuth h) (m_lastUsed h) (m_hold h), w)
  end.

Definition acquire (s : S) : Acquired * S :=
  let '(h, w) := s in
  match m_session h with
  | Some session => handOut session s
  | None =>
      match m_hold h with
      | Some session =>
          resolveAndHandOut session (mkHolder (m_readerName h) None (m_candidates h) (m_preReadAuth h) (m_lastUsed h) None, w)
      | None =>
          match m_factory (m_readerName h) w with
          | (None, w) => (AcquireThrew, (h, w))
          | (Some (Err e), w) => (AcquireFailed e, (h, w))
          | (Some (Ok session), w) => resolveAndHandOut session (h, w)
          end
      end
  end.

Definition eraseCredentials (s : S) : S :=
  let '(h, w) := s in
  let w := match m_session h with
           | Some session => foldl (λ w c, match c with Some p => clearCredentials p session w | None => w end) w (m_candidates h)
           | None => w
           end in
  (mkHolder (m_readerName h) (m_session h) [] None (m_lastUsed h) (m_hold h), w).

Definition invalidate (s : S) : S :=
  let '(h, w) := eraseCredentials s in
  let w := match m_session h with Some session => closeSession session w | None => w end in
  let w := match m_hold h with Some session => closeSession session w | None => w end in
  (mkHolder (m_readerName h) None (m_candidates h) (m_preReadAuth h) (m_lastUsed h) None, w).

(** The first method a candidate reports; [None] when a plugin throws. *)
Fixpoint strongest (session : Z) (cands : CandidateList) (w : W) : option PreReadAuthMethod * W :=
  match cands with
  | [] => (Some None, w)
  | None :: cands => strongest session cands w
  | Some p :: cands =>
      match pluginPreReadAuth p session w with
      | (None, w) => (None, w)
      | (Some None, w) => strongest session cands w
      | (Some (Some m), w) => (Some (Some m), w)
      end
  end.

Definition preReadAuth (s : S) : PreReadAuthMethod * S :=
  match m_preReadAuth (fst s) with
  | Some m => (m, s)
  | None =>
      match acquire s with
      | (AcquiredCard session candidates, (h, w)) =>
          match strongest session candidates w with
          | (Some method, w) =>
              (method, (mkHolder (m_readerName h) (m_session h) (m_candidates h) (Some method) (m_lastUsed h) (m_hold h), w))
          | (None, w) => (None, (h, w))
          end
      | (_, s) => (None, s)
      end
  end.

Definition fullResolution (s : S) : result OpenError CardResolution * S :=
  match acquire s with
  | (AcquireThrew, s) => (Err ResolutionThrew, s)
  | (AcquireFailed e, s) => (Err e, s)
  | (AcquiredCard _ [], s) => (Ok (mkResolution [] 0 None), invalidate s)
  | (AcquiredCard _ candidates, s) =>
      let '(m, s) := preReadAuth s in
      (Ok (mkResolution candidates (unionCapabilities candidates) m), s)
  end.

Definition acquireHold (s : S) : S :=
  let '(h, w) := s in
  match m_hold h, m_session h with
  | None, None =>
      match m_factory (m_readerName h) w with
      | (Some (Ok session), w) =>
          (mkHolder (m_readerName h) None (m_candidates h) (m_preReadAuth h) (m_lastUsed h) (Some session), w)
      | (_, w) => (h, w)
      end
  | _, _ => s
  end.

Definition releaseHold (s : S) : S :=
  let '(h, w) := s in
  (mkHolder (m_readerName h) (m_session h) (m_candidates h) (m_preReadAuth h) (m_lastUsed h) None,
   match m_hold h with Some session => closeSession session w | None => w end).

(** Called with a session. *)
Definition demote (session : Z) (s : S) : S :=
  if hasLiveSecureChannel session (snd s) then invalidate s
  else
    let '(h, w) := eraseCredentials s in
    (mkHolder (m_readerName h) None (m_candidates h) (m_preReadAuth h) (m_lastUsed h) (Some session),
     clearActiveChannel session (clearCachedPaceCredentials session w)).

Definition sweep (holdWanted : bool) (s : S) : S :=
  let '(h, w) := s in
  match m_clock w with
  | (None, w) => (h, w)
  | (Some now, w) =>
      match m_session h with
      | Some session =>
          if now - m_lastUsed h <? kIdleClose then (h, w)
          else if holdWanted then demote session (h, w)
          else invalidate (h, w)
      | None => if holdWanted then acquireHold (h, w) else (h, w)
      end
  end.

End Operations.

(** ** What the library promises *)

(** What a session can leave behind: what a plugin keeps for it, the PACE secrets it
    caches, its secure channel. *)
Inductive Secret := PluginState (plugin session : Z) | PaceCache (session : Z) | SecureChannel (session : Z).

Definition sessionOf (x : Secret) : Z := match x with PluginState _ s | PaceCache s | SecureChannel s => s end.

(** [opened] are the open connections to the reader. Opening gives a new session that
    nothing is known of; a closed session takes its own secrets with it; probing a card
    deposits nothing. *)
Class CardLaws (W : Type) `{!CardLib W} := {
  opened : W → gset Z;
  carries : W → Secret → Prop;
  factory_ok : ∀ r w, match m_factory r w with
    | (Some (Ok s), w') => (s ∉ opened w) ∧ opened w' = {[s]} ∪ opened w ∧ (∀ x, carries w' x → carries w x ∧ sessionOf x ≠ s)
    | (_, w') => opened w' = opened w ∧ ∀ x, carries w' x → carries w x
    end;
  resolver_ok : ∀ s w, opened (snd (m_resolver s w)) = opened w ∧ ∀ x, carries (snd (m_resolver s w)) x → carries w x;
  clock_ok : ∀ w, opened (snd (m_clock w)) = opened w ∧ ∀ x, carries (snd (m_clock w)) x → carries w x;
  auth_ok : ∀ p s w, opened (snd (pluginPreReadAuth p s w)) = opened w ∧ ∀ x, carries (snd (pluginPreReadAuth p s w)) x → carries w x;
  close_ok : ∀ s w, opened (closeSession s w) = opened w ∖ {[s]} ∧
    ∀ x, carries (closeSession s w) x → carries w x ∧ x ≠ PaceCache s ∧ x ≠ SecureChannel s;
  clear_ok : ∀ p s w, opened (clearCredentials p s w) = opened w ∧ ∀ x, carries (clearCredentials p s w) x → carries w x ∧ x ≠ PluginState p s;
  pace_ok : ∀ s w, opened (clearCachedPaceCredentials s w) = opened w ∧ ∀ x, carries (clearCachedPaceCredentials s w) x → carries w x ∧ x ≠ PaceCache s;
  channel_ok : ∀ s w, opened (clearActiveChannel s w) = opened w ∧ ∀ x, carries (clearActiveChannel s w) x → carries w x ∧ x ≠ SecureChannel s }.

Section Discipline.
Context {W : Type} `{!CardLib W} `{!CardLaws W}.
Implicit Types s : (CardSessionHolder * W)%type.

(** What an operation does with the session it was handed: it may leave secrets of it
    in the session and in the candidates, and opens nothing itself. *)
Definition uses (h : CardSessionHolder) (w w' : W) : Prop :=
  is_Some (m_session h) ∧ opened w' = opened w ∧
  ∀ x, carries w' x → carries w x ∨
    m_session h = Some (sessionOf x) ∧ match x with PluginState p _ => Some p ∈ m_candidates h | _ => True end.

(** The holder's methods and the operations in between, in any order. *)
Inductive reach (r : string) : CardSessionHolder * W → Prop :=
| reach_start w : opened w = ∅ → (∀ x, ¬ carries w x) → reach r (mkHolder r None [] None 0 None, w)
| reach_acquire s : reach r s → reach r (snd (acquire s))
| reach_resolution s : reach r s → reach r (snd (fullResolution s))
| reach_invalidate s : reach r s → reach r (invalidate s)
| reach_acquireHold s : reach r s → reach r (acquireHold s)
| reach_releaseHold s : reach r s → reach r (releaseHold s)
| reach_sweep b s : reach r s → reach r (sweep b s)
| reach_use h w w' : reach r (h, w) → uses h w w' → reach r (h, w').

(** The connections the holder has, and where the secrets are. *)
Definition held (h : CardSessionHolder) : gset Z :=
  match m_session h, m_hold h with
  | Some s, _ => {[s]}
  | None, Some s => {[s]}
  | None, None => ∅
  end.

Definition ok (s : CardSessionHolder * W) : Prop :=
  let '(h, w) := s in
  (m_session h = None ∨ m_hold h = None) ∧ opened w = held h ∧
  ∀ x, carries w x → m_session h = Some (sessionOf x) ∧ match x with PluginState p _ => Some p ∈ m_candidates h | _ => True end.

(** A call of the library that opens nothing and leaves nothing. *)
Lemma ok_world (h : CardSessionHolder) (w w' : W) :
  opened w' = opened w → (∀ x, carries w' x → carries w x) → ok (h, w) → ok (h, w').
Proof. intros Eo Hc (H1 & H2 & H3). split_and!; [done|by rewrite Eo|auto]. Qed.

(** [invalidate] closes what is held and leaves no secret. *)
Lemma erase_clears (session : Z) (cands : CandidateList) (w : W) :
  let w' := foldl (λ w c, match c with Some p => clearCredentials p session w | None => w end) w cands in
  opened w' = opened w ∧ ∀ x, carries w' x → carries w x ∧ ∀ p, Some p ∈ cands → x ≠ PluginState p session.
Proof.
  revert w. induction cands as [|c cands IH]; intros w; cbn; [split; [done|]; intros x Hx; split; [done|]; by intros p ?%not_elem_of_nil|].
  destruct (IH (match c with Some p => clearCredentials p session w | None => w end)) as [E1 H1]. split.
  - rewrite E1. destruct c; [apply clear_ok|done].
  - intros x Hx. apply H1 in Hx as [Hx Hp]. split.
    + destruct c; [by apply clear_ok in Hx as [? _]|done].
    + intros p [<-|Hin]%elem_of_cons; [by apply clear_ok in Hx as [_ ?]|by apply Hp].
Qed.

Definition bare (s : CardSessionHolder * W) : Prop := m_session (fst s) = None ∧ ∀ x, ¬ carries (snd s) x.

Lemma invalidate_spec s : ok s → ok (invalidate s) ∧ bare (invalidate s) ∧ m_hold (fst (invalidate s)) = None.
Proof.
  destruct s as [h w]. intros (H1 & H2 & H3). unfold invalidate, eraseCredentials, bare. cbn.
  destruct (m_session h) as [session|] eqn:Es.
  - destruct H1 as [|Eh]; [done|]. rewrite Eh. destruct (erase_clears session (m_candidates h) w) as [E1 Hc]. set (w1 := foldl _ w _) in *.
    destruct (close_ok session w1) as [E2 Hk].
    assert (Hno : ∀ x, ¬ carries (closeSession session w1) x).
    { intros x (Hx & Hp & Hn)%Hk. apply Hc in Hx as [Hx Hq]. destruct (H3 x Hx) as [[= Ex] Hin]. destruct x; cbn in Ex; subst; try done.
      by apply (Hq plugin). }
    split_and!; try done; cbn; [by left| |by intros x ?%Hno]. rewrite E2, E1, H2. unfold held. rewrite Es. cbn. set_solver.
  - assert (Hno : ∀ x, ¬ carries w x) by (intros x ?%H3; naive_solver). unfold held in H2. rewrite Es in H2.
    destruct (m_hold h) as [hold|].
    + destruct (close_ok hold w) as [E2 Hk]. assert (Hno' : ∀ x, ¬ carries (closeSession hold w) x) by (intros x [? _]%Hk; naive_solver).
      split_and!; try done; cbn; [by left| |by intros x ?%Hno']. rewrite E2, H2. cbn. set_solver.
    + split_and!; try done. by intros x ?%Hno.
Qed.

(** A new session in an empty holder. *)
Lemma ok_session (h : CardSessionHolder) (session : Z) (cands : CandidateList) (w : W) :
  opened w = {[session]} → (∀ x, ¬ carries w x) →
  ok (mkHolder (m_readerName h) (Some session) cands (m_preReadAuth h) (m_lastUsed h) None, w).
Proof. intros Eo Hn. split_and!; [by right|done|by intros x ?%Hn]. Qed.

Lemma ok_none (h : CardSessionHolder) (w : W) : ok (h, w) → m_session h = None → ∀ x, ¬ carries w x.
Proof. intros (_ & _ & H) E x Hx%H. rewrite E in Hx. naive_solver. Qed.

(** [acquire] hands out the session the holder keeps, with its candidates. *)
Definition handsOut (r : Acquired * (CardSessionHolder * W)) : Prop :=
  ok (snd r) ∧ match fst r with
               | AcquiredCard session cands => m_session (fst (snd r)) = Some session ∧ m_candidates (fst (snd r)) = cands
               | _ => True
               end.

Lemma handOut_spec (session : Z) (h : CardSessionHolder) (w : W) :
  m_session h = Some session → ok (h, w) → handsOut (handOut session (h, w)).
Proof.
  intros Es Hok. unfold handOut. destruct (clock_ok w) as [Eo Hc]. destruct (m_clock w) as [[now|] w']; cbn in Eo, Hc; (split; [|done]).
  - destruct (ok_world h w w' Eo Hc Hok) as (H1 & H2 & H3). by split_and!.
  - by eapply ok_world.
Qed.

Lemma resolveAndHandOut_spec (session : Z) (h : CardSessionHolder) (w : W) :
  m_session h = None → m_hold h = None → opened w = {[session]} → (∀ x, ¬ carries w x) →
  handsOut (resolveAndHandOut session (h, w)).
Proof.
  intros Es Eh Eo Hn. unfold resolveAndHandOut. destruct (resolver_ok session w) as [Eo' Hc'].
  destruct (m_resolver session w) as [[cands|] w']; cbn in Eo', Hc'.
  - rewrite Eh. apply handOut_spec; [done|]. apply ok_session; [by rewrite Eo'|]. by intros x ?%Hc'%Hn.
  - destruct (close_ok session w') as [E2 Hk]. split; [|done]. split_and!; [by left| |by intros x [?%Hc'%Hn _]%Hk].
    rewrite E2, Eo', Eo. unfold held. rewrite Eh, Es. set_solver.
Qed.

Lemma acquire_spec s : ok s → handsOut (acquire s).
Proof.
  destruct s as [h w]. intros Hok. unfold acquire. destruct (m_session h) as [session|] eqn:Es; [by apply handOut_spec|].
  pose proof (ok_none _ _ Hok Es) as Hn. pose proof (Hok) as (H1 & H2 & H3). unfold held in H2. rewrite Es in H2.
  destruct (m_hold h) as [hold|] eqn:Eh; [by apply resolveAndHandOut_spec|].
  pose proof (factory_ok (m_readerName h) w) as Hf. destruct (m_factory (m_readerName h) w) as [[[session|e]|] w']; cbn.
  - destruct Hf as (_ & Eo & Hc). apply resolveAndHandOut_spec; [done|done|rewrite Eo, H2; set_solver|].
    intros x [Hx _]%Hc. by apply (Hn x).
  - destruct Hf as (Eo & Hc). split; [|done]. by eapply ok_world.
  - destruct Hf as (Eo & Hc). split; [|done]. by eapply ok_world.
Qed.

Lemma strongest_frame (session : Z) (cands : CandidateList) (w : W) :
  opened (snd (strongest session cands w)) = opened w ∧ ∀ x, carries (snd (strongest session cands w)) x → carries w x.
Proof.
  revert w. induction cands as [|[p|] cands IH]; intros w; cbn; [done| |done]. destruct (auth_ok p session w) as [E H].
  destruct (pluginPreReadAuth p session w) as [[[m|]|] w']; cbn in *; [done| |done].
  destruct (IH w') as [E' H']. split; [by rewrite E'|auto].
Qed.

Lemma preReadAuth_ok s : ok s → ok (snd (preReadAuth s)).
Proof.
  intros Hok. unfold preReadAuth. destruct (m_preReadAuth (fst s)); [done|]. destruct (acquire_spec s Hok) as [Ha _].
  destruct (acquire s) as [[|e|session cands] [h w]]; try done. cbn in Ha. destruct (strongest_frame session cands w) as [E H].
  destruct (strongest session cands w) as [[m|] w']; cbn in *; [|by eapply ok_world].
  destruct (ok_world h w w' E H Ha) as (H1 & H2 & H3). by split_and!.
Qed.

Lemma fullResolution_ok s : ok s → ok (snd (fullResolution s)).
Proof.
  intros Hok. unfold fullResolution. destruct (acquire_spec s Hok) as [Ha _]. destruct (acquire s) as [[|e|session [|c cands]] s']; try done; cbn in Ha.
  - cbn. by apply invalidate_spec.
  - pose proof (preReadAuth_ok s' Ha) as Hp. by destruct (preReadAuth s').
Qed.

Lemma acquireHold_ok s : ok s → ok (acquireHold s).
Proof.
  destruct s as [h w]. intros Hok. unfold acquireHold. destruct (m_hold h) as [|] eqn:Eh, (m_session h) as [|] eqn:Es; try done.
  pose proof (ok_none _ _ Hok Es) as Hn. pose proof (Hok) as (_ & H2 & _). unfold held in H2. rewrite Es, Eh in H2.
  pose proof (factory_ok (m_readerName h) w) as Hf. destruct (m_factory (m_readerName h) w) as [[[session|e]|] w'].
  - destruct Hf as (_ & Eo & Hc). split_and!; cbn; [by left|rewrite Eo, H2; cbn; set_solver|]. intros x [Hx _]%Hc. by destruct (Hn x).
  - destruct Hf as (Eo & Hc). by eapply ok_world.
  - destruct Hf as (Eo & Hc). by eapply ok_world.
Qed.

Lemma releaseHold_ok s : ok s → ok (releaseHold s).
Proof.
  destruct s as [h w]. intros (H1 & H2 & H3). unfold releaseHold. destruct (m_hold h) as [hold|] eqn:Eh; [|by split_and!; [right|unfold held in *; rewrite Eh in H2|]].
  destruct H1 as [Es|]; [|done]. destruct (close_ok hold w) as [E Hk]. unfold held in H2. rewrite Es, Eh in H2. split_and!; cbn.
  - by right.
  - rewrite E, H2. unfold held. cbn. rewrite Es. set_solver.
  - intros x [Hx _]%Hk. by apply H3.
Qed.

(** [demote] leaves no secret, parked or closed. *)
Lemma demote_spec (session : Z) (h : CardSessionHolder) (w : W) :
  m_session h = Some session → ok (h, w) → ok (demote session (h, w)) ∧ bare (demote session (h, w)).
Proof.
  intros Es Hok. unfold demote. cbn [snd]. destruct (hasLiveSecureChannel session w); [by destruct (invalidate_spec _ Hok) as (?&?&?)|].
  destruct Hok as (H1 & H2 & H3). unfold eraseCredentials. rewrite Es. destruct (erase_clears session (m_candidates h) w) as [E1 Hc].
  set (w1 := foldl _ w _) in *. destruct (pace_ok session w1) as [E2 H4]. destruct (channel_ok session (clearCachedPaceCredentials session w1)) as [E3 H5].
  assert (Hno : ∀ x, ¬ carries (clearActiveChannel session (clearCachedPaceCredentials session w1)) x).
  { intros x [Hx Hn]%H5. apply H4 in Hx as [Hx Hp]. apply Hc in Hx as [Hx Hq]. destruct (H3 x Hx) as [Ex Hin]. rewrite Es in Ex. injection Ex as ->.
    destruct x; try done. by apply (Hq plugin). }
  split; [|done]. split_and!; cbn; [by left| |by intros x ?%Hno]. rewrite E3, E2, E1, H2. unfold held. by rewrite Es.
Qed.

Lemma sweep_ok (b : bool) s : ok s → ok (sweep b s).
Proof.
  destruct s as [h w]. intros Hok. unfold sweep. destruct (clock_ok w) as [E H]. destruct (m_clock w) as [[now|] w']; cbn in E, H;
    pose proof (ok_world h w w' E H Hok) as Hok'; [|done]. destruct (m_session h) as [session|] eqn:Es.
  - destruct (now - m_lastUsed h <? kIdleClose); [done|]. destruct b; [by apply demote_spec|by apply invalidate_spec].
  - destruct b; [by apply acquireHold_ok|done].
Qed.

Lemma reach_ok (r : string) s : reach r s → ok s.
Proof.
  induction 1 as [w Eo Hn|s _ IH|s _ IH|s _ IH|s _ IH|s _ IH|b s _ IH|h w w' _ IH (Hs & Eo & Hc)].
  - split_and!; [by left|done|by intros x ?%Hn].
  - by apply acquire_spec.
  - by apply fullResolution_ok.
  - by apply invalidate_spec.
  - by apply acquireHold_ok.
  - by apply releaseHold_ok.
  - by apply sweep_ok.
  - destruct IH as (H1 & H2 & H3). split_and!; [done|by rewrite Eo|]. intros x [Hx|Hx]%Hc; [by apply H3|done].
Qed.

(** A reader has one connection. Whatever order the holder's methods and the
    operations come in, the session in use and the power hold are never both there, and
    the open connections to the reader are exactly the one the holder keeps, or none. *)
Theorem one_connection (r : string) (h : CardSessionHolder) (w : W) (Hr : reach r (h, w)) :
  (m_session h = None ∨ m_hold h = None) ∧ opened w = held h ∧ (size (opened w) ≤ 1)%nat.
Proof.
  destruct (reach_ok r _ Hr) as (H1 & H2 & _). split_and!; [done|done|]. rewrite H2. unfold held.
  destruct (m_session h), (m_hold h); rewrite ?size_singleton, ?size_empty; lia.
Qed.

(** C6: secrets stay with a session in use. A PIN or an access code a plugin keeps, a
    PACE secret or a secure channel belongs to the session handed out last, so there is
    none while the reader is parked or closed; a sweep that finds the session idle for
    [kIdleClose], and a card removal, leave none at all; a sweep before leaves the
    session as it is. *)
Theorem secrets_end_with_use (r : string) (h : CardSessionHolder) (w : W) (Hr : reach r (h, w)) :
  (∀ x, carries w x → m_session h = Some (sessionOf x)) ∧
  (∀ x, ¬ carries (snd (invalidate (h, w))) x) ∧
  (∀ b now, fst (m_clock w) = Some now →
     if now - m_lastUsed h <? kIdleClose then is_Some (m_session h) → fst (sweep b (h, w)) = h
     else ∀ x, ¬ carries (snd (sweep b (h, w))) x).
Proof.
  pose proof (reach_ok r _ Hr) as Hok. split_and!.
  - intros x Hx. by apply Hok.
  - by destruct (invalidate_spec _ Hok) as (_ & [_ H] & _).
  - intros b now En. unfold sweep. destruct (clock_ok w) as [E H]. destruct (m_clock w) as [[now'|] w']; cbn in E, H, En; [|done].
    injection En as ->. pose proof (ok_world h w w' E H Hok) as Hok'. destruct (now - m_lastUsed h <? kIdleClose) eqn:Ei.
    + intros [session Es]. by rewrite Es.
    + destruct (m_session h) as [session|] eqn:Es.
      * destruct b; [by destruct (demote_spec session h w' Es Hok') as [_ [_ ?]]|by destruct (invalidate_spec _ Hok') as (_ & [_ ?] & _)].
      * pose proof (ok_none _ _ Hok' Es). destruct b; [|done]. apply (ok_none (fst (acquireHold (h, w')))).
        -- rewrite <- surjective_pairing. by apply acquireHold_ok.
        -- unfold acquireHold. rewrite Es. destruct (m_hold h), (m_factory (m_readerName h) w') as [[[]|] ?]; done.
Qed.

End Discipline.

(** ** A small library

    Sessions are numbered as they are opened, plugin 7 serves every card, and the clock
    is 50 seconds further at every reading. *)

Record Sim := mkSim { sim_next : Z; sim_open : gset Z; sim_secrets : list Secret; sim_time : Z }.

#[export] Instance Secret_eq_dec : EqDecision Secret.
Proof. solve_decision. Defined.

Definition forget (P : Secret → bool) (w : Sim) : Sim :=
  mkSim (sim_next w) (sim_open w) (filter (λ x, P x = false) (sim_secrets w)) (sim_time w).

#[export] Instance Sim_lib : CardLib Sim := {
  m_factory _ w :=
    if decide (sim_next w ∈ sim_open w) then (Some (Err (OpenFailed 0)), w)
    else (Some (Ok (sim_next w)),
      mkSim (sim_next w + 1) ({[sim_next w]} ∪ sim_open w) (filter (λ x, sessionOf x ≠ sim_next w) (sim_secrets w)) (sim_time w));
  m_resolver _ w := (Some [Some 7], w);
  m_clock w := (Some (sim_time w), mkSim (sim_next w) (sim_open w) (sim_secrets w) (sim_time w + 50000));
  closeSession s w :=
    let w := forget (λ x, bool_decide (x = PaceCache s ∨ x = SecureChannel s)) w in
    mkSim (sim_next w) (sim_open w ∖ {[s]}) (sim_secrets w) (sim_time w);
  clearCredentials p s := forget (λ x, bool_decide (x = PluginState p s));
  clearCachedPaceCredentials s := forget (λ x, bool_decide (x = PaceCache s));
  clearActiveChannel s := forget (λ x, bool_decide (x = SecureChannel s));
  hasLiveSecureChannel s w := bool_decide (SecureChannel s ∈ sim_secrets w);
  pluginPreReadAuth _ _ w := (Some None, w);
  capabilities _ := 1 }.

#[export] Instance Sim_laws : CardLaws Sim.
Proof.
  refine {| opened := sim_open; carries w x := x ∈ sim_secrets w |}; try done.
  - intros r w. cbn. case_decide; [done|]. cbn. split_and!; try done. intros x. rewrite list_elem_of_filter. tauto.
  - intros s w. split; [done|]. cbn. intros x. rewrite list_elem_of_filter, bool_decide_eq_false. tauto.
  - intros p s w. split; [done|]. cbn. intros x. rewrite list_elem_of_filter, bool_decide_eq_false. tauto.
  - intros s w. split; [done|]. cbn. intros x. rewrite list_elem_of_filter, bool_decide_eq_false. tauto.
  - intros s w. split; [done|]. cbn. intros x. rewrite list_elem_of_filter, bool_decide_eq_false. tauto.
Defined.

Definition fresh : CardSessionHolder * Sim := (mkHolder "r" None [] None 0 None, mkSim 1 ∅ [] 0).

(** An operation is handed the session and leaves a PIN with the plugin. *)
Definition signing : CardSessionHolder * Sim :=
  (fst (snd (acquire fresh)),
   let w := snd (snd (acquire fresh)) in mkSim (sim_next w) (sim_open w) [PluginState 7 1] (sim_time w)).

Lemma fresh_reach : reach "r" fresh.
Proof. apply reach_start; [done|]. cbn. intros x. apply not_elem_of_nil. Qed.

Lemma signing_reach : reach "r" signing.
Proof.
  apply (reach_use "r" (fst (snd (acquire fresh))) (snd (snd (acquire fresh)))).
  - rewrite <- surjective_pairing. apply reach_acquire, fresh_reach.
  - split; [by eexists|]. split; [done|]. cbn. intros x ->%list_elem_of_singleton. right. cbn. split; [done|left].
Qed.

Example one_connection_witness : held (fst signing) = {[1]} ∧ (size (opened (snd signing)) ≤ 1)%nat.
Proof. split; [by vm_compute|]. apply (one_connection "r" (fst signing) (snd signing)). apply signing_reach. Defined.

Example secrets_end_with_use_witness :
  carries (snd signing) (PluginState 7 1) ∧ ¬ carries (snd (sweep true signing)) (PluginState 7 1) ∧ m_hold (fst (sweep true signing)) = Some 1.
Proof.
  split; [cbn; left|]. split; [|by vm_compute].
  destruct (secrets_end_with_use "r" (fst signing) (snd signing) signing_reach) as (_ & _ & H).
  specialize (H true 50000 ltac:(by vm_compute)). replace (50000 - m_lastUsed (fst signing) <? kIdleClose) with false in H by by vm_compute.
  apply H.
Defined.

End Holder.
