(* ===== verification/Scheduler.v ===== *)
(** * The operation scheduler

    Models [src/operations/OperationManager.cpp] with its header: one worker thread per
    reader over a queue of operations, the tables by which an operation is cancelled,
    the removal of a reader while its worker may be stuck, and the grace in which a
    finished operation stays reachable. A step is one critical section or one access of
    a thread, so the theorems are about every interleaving.

    Operations live in a [heap] by reference, as the tables and the workers hold raw
    pointers to them, and a reference is never given out again ([m_next]): reading through a pointer whose operation is gone is recorded in
    [faults]. What an operation does itself is in [Operations]; here it is cancelled, and
    finished once. A worker's [doWork] ends with a finished operation. A worker object is
    reclaimed when nothing refers to it and its thread has returned, which is what its
    [std::shared_ptr] and its [std::jthread] do; the thread that drops the last reference
    waits for it, here the reclaiming is a step of its own. Exceptions thrown by the
    builder of an operation, the destructor of the manager and the entry points for tests
    are not modelled. *)
From S2P Require Import Prelude Vocabulary.
Import Vocabulary Vocabulary.Err.
Local Open Scope Z_scope.

Module Scheduler.

Definition kMaxQueuedOpsPerReader : Z := 32.
(** The grace of [cleanupLoop], in milliseconds. *)
Definition kGrace : Z := 5000.

Record Op := mkOp { o_id : Z; o_cancelled : bool; o_finished : option ErrorCode; o_ran : bool }.

(** How an operation ended: refused by a full queue, destroyed after its end, or
    destroyed with the queue of a worker nobody serves any more. *)
Inductive Fate := Refused | Ended | WithWorker.

Inductive HolderCall := HInvalidate | HAcquireHold | HReleaseHold | HSweep (hold : bool).

(** What the teardown loops do, one access at a time. *)
Inductive Cmd := CForgetId (id : Z) | CForgetSender (id : Z) | CFinishRemoved (p : nat) | CDestroy (p : nat).

(** Where a worker's thread is in [workerLoop]. *)
Inductive WorkerPc := WWait | WRun (p : nat) | WClear (p : nat) | WCheck (p : nat) | WKeep (p : nat) | WDrain | WExited.

(** [w_stop] is the stop state of the thread, [w_calls] the calls of the holder. *)
Record ReaderWorker := mkWorker {
  w_reader : Z; queue : list nat; inFlight : option nat; abandoned : bool;
  pendingInvalidate : bool; hold : bool; holdDirty : bool;
  w_stop : bool; w_calls : list HolderCall; w_todo : list Cmd; w_pc : WorkerPc }.

Record OperationManager := mkManager {
  m_counter : Z; m_workers : gmap Z nat; m_zombies : list nat; workers : gmap nat ReaderWorker;
  m_byId : gmap Z nat; m_senderToOps : gmap string (gset Z); m_opToSender : gmap Z string;
  m_finished : list (nat * Z);
  heap : gmap nat Op; gone : gmap nat (Op * Fate); faults : list (bool * nat); m_next : nat }.

Definition setCounter (c : Z) (m : OperationManager) : OperationManager :=
  mkManager c (m_workers m) (m_zombies m) (workers m) (m_byId m) (m_senderToOps m) (m_opToSender m) (m_finished m) (heap m) (gone m) (faults m) (m_next m).
Definition setRegistry (x : gmap Z nat) (m : OperationManager) : OperationManager :=
  mkManager (m_counter m) x (m_zombies m) (workers m) (m_byId m) (m_senderToOps m) (m_opToSender m) (m_finished m) (heap m) (gone m) (faults m) (m_next m).
Definition setZombies (x : list nat) (m : OperationManager) : OperationManager :=
  mkManager (m_counter m) (m_workers m) x (workers m) (m_byId m) (m_senderToOps m) (m_opToSender m) (m_finished m) (heap m) (gone m) (faults m) (m_next m).
Definition setWorkers (x : gmap nat ReaderWorker) (m : OperationManager) : OperationManager :=
  mkManager (m_counter m) (m_workers m) (m_zombies m) x (m_byId m) (m_senderToOps m) (m_opToSender m) (m_finished m) (heap m) (gone m) (faults m) (m_next m).
Definition setById (x : gmap Z nat) (m : OperationManager) : OperationManager :=
  mkManager (m_counter m) (m_workers m) (m_zombies m) (workers m) x (m_senderToOps m) (m_opToSender m) (m_finished m) (heap m) (gone m) (faults m) (m_next m).
Definition setSenders (x : gmap string (gset Z)) (y : gmap Z string) (m : OperationManager) : OperationManager :=
  mkManager (m_counter m) (m_workers m) (m_zombies m) (workers m) (m_byId m) x y (m_finished m) (heap m) (gone m) (faults m) (m_next m).
Definition setFinishedList (x : list (nat * Z)) (m : OperationManager) : OperationManager :=
  mkManager (m_counter m) (m_workers m) (m_zombies m) (workers m) (m_byId m) (m_senderToOps m) (m_opToSender m) x (heap m) (gone m) (faults m) (m_next m).
Definition setHeap (x : gmap nat Op) (m : OperationManager) : OperationManager :=
  mkManager (m_counter m) (m_workers m) (m_zombies m) (workers m) (m_byId m) (m_senderToOps m) (m_opToSender m) (m_finished m) x (gone m) (faults m) (m_next m).
Definition setGone (x : gmap nat (Op * Fate)) (m : OperationManager) : OperationManager :=
  mkManager (m_counter m) (m_workers m) (m_zombies m) (workers m) (m_byId m) (m_senderToOps m) (m_opToSender m) (m_finished m) (heap m) x (faults m) (m_next m).
Definition addFault (viaTable : bool) (p : nat) (m : OperationManager) : OperationManager :=
  mkManager (m_counter m) (m_workers m) (m_zombies m) (workers m) (m_byId m) (m_senderToOps m) (m_opToSender m) (m_finished m) (heap m) (gone m)
    (faults m ++ [(viaTable, p)]) (m_next m).
Definition setNext (n : nat) (m : OperationManager) : OperationManager :=
  mkManager (m_counter m) (m_workers m) (m_zombies m) (workers m) (m_byId m) (m_senderToOps m) (m_opToSender m) (m_finished m) (heap m) (gone m) (faults m) n.

Definition onWorker (w : nat) (f : ReaderWorker → ReaderWorker) (m : OperationManager) : OperationManager :=
  setWorkers (alter f w (workers m)) m.
Definition onOp (p : nat) (f : Op → Op) (m : OperationManager) : OperationManager := setHeap (alter f p (heap m)) m.

Definition setQueue (q : list nat) (x : ReaderWorker) : ReaderWorker :=
  mkWorker (w_reader x) q (inFlight x) (abandoned x) (pendingInvalidate x) (hold x) (holdDirty x) (w_stop x) (w_calls x) (w_todo x) (w_pc x).
Definition setInFlight (p : option nat) (x : ReaderWorker) : ReaderWorker :=
  mkWorker (w_reader x) (queue x) p (abandoned x) (pendingInvalidate x) (hold x) (holdDirty x) (w_stop x) (w_calls x) (w_todo x) (w_pc x).
Definition setAbandoned (x : ReaderWorker) : ReaderWorker :=
  mkWorker (w_reader x) (queue x) (inFlight x) true (pendingInvalidate x) (hold x) (holdDirty x) (w_stop x) (w_calls x) (w_todo x) (w_pc x).
Definition setFlags (inv h dirty : bool) (x : ReaderWorker) : ReaderWorker :=
  mkWorker (w_reader x) (queue x) (inFlight x) (abandoned x) inv h dirty (w_stop x) (w_calls x) (w_todo x) (w_pc x).
Definition requestStop (x : ReaderWorker) : ReaderWorker :=
  mkWorker (w_reader x) (queue x) (inFlight x) (abandoned x) (pendingInvalidate x) (hold x) (holdDirty x) true (w_calls x) (w_todo x) (w_pc x).
Definition callHolder (c : HolderCall) (x : ReaderWorker) : ReaderWorker :=
  mkWorker (w_reader x) (queue x) (inFlight x) (abandoned x) (pendingInvalidate x) (hold x) (holdDirty x) (w_stop x) (w_calls x ++ [c]) (w_todo x) (w_pc x).
Definition goTo (todo : list Cmd) (pc : WorkerPc) (x : ReaderWorker) : ReaderWorker :=
  mkWorker (w_reader x) (queue x) (inFlight x) (abandoned x) (pendingInvalidate x) (hold x) (holdDirty x) (w_stop x) (w_calls x) todo pc.

Definition setId (id : Z) (o : Op) : Op := mkOp id (o_cancelled o) (o_finished o) (o_ran o).
Definition requestCancel (o : Op) : Op := mkOp (o_id o) true (o_finished o) (o_ran o).
Definition finish (c : ErrorCode) (o : Op) : Op :=
  mkOp (o_id o) (o_cancelled o) (Some (default c (o_finished o))) (o_ran o).
Definition finishCardRemoved (o : Op) : Op := finish CardRemoved (requestCancel o).
Definition setRan (o : Op) : Op := mkOp (o_id o) (o_cancelled o) (o_finished o) true.

(** Through a raw pointer. *)
Definition cancelAt (viaTable : bool) (p : nat) (m : OperationManager) : OperationManager :=
  match heap m !! p with Some _ => onOp p requestCancel m | None => addFault viaTable p m end.

Definition destroy (fate : Fate) (p : nat) (m : OperationManager) : OperationManager :=
  match heap m !! p with
  | Some o => setGone (<[p := (o, fate)]> (gone m)) (setHeap (delete p (heap m)) m)
  | None => m
  end.

(** ** The tables *)

Definition recordSender (id : Z) (sender : string) (m : OperationManager) : OperationManager :=
  setSenders (<[sender := {[id]} ∪ default ∅ (m_senderToOps m !! sender)]> (m_senderToOps m)) (<[id := sender]> (m_opToSender m)) m.

(** The second half of [forgetOpById], under the senders' mutex. *)
Definition forgetSender (id : Z) (m : OperationManager) : OperationManager :=
  match m_opToSender m !! id with
  | None => m
  | Some sender =>
      let senders :=
        match m_senderToOps m !! sender with
        | None => m_senderToOps m
        | Some ids =>
            let ids := ids ∖ {[id]} in
            if decide (ids = ∅) then delete sender (m_senderToOps m) else <[sender := ids]> (m_senderToOps m)
        end in
      setSenders senders (delete id (m_opToSender m)) m
  end.

Definition forgetOpById (id : Z) : list Cmd := if id =? 0 then [] else [CForgetId id; CForgetSender id].

Definition exec (c : Cmd) (m : OperationManager) : OperationManager :=
  match c with
  | CForgetId id => setById (delete id (m_byId m)) m
  | CForgetSender id => forgetSender id m
  | CFinishRemoved p => onOp p finishCardRemoved m
  | CDestroy p => destroy Ended p m
  end.

Definition idOf (m : OperationManager) (p : nat) : Z := match heap m !! p with Some o => o_id o | None => 0 end.

(** The teardown of operations taken out of a queue: scrub, finish, destroy. *)
Definition doom (m : OperationManager) (doomed : list nat) : list Cmd :=
  concat (map (λ p, forgetOpById (idOf m p)) doomed) ++ map CFinishRemoved doomed ++ map CDestroy doomed.

(** ** The calls *)

Inductive CallPc :=
| PId (reader : Z) (caller : string) | PWorker (reader : Z) (caller : string) (id : Z) | PCheck (caller : string) (id : Z) (w : nat)
| PBuild (caller : string) (id : Z) (w : nat) | PSender (caller : string) (id : Z) (w p : nat) | PTrack (id : Z) (w p : nat)
| PPush (id : Z) (w p : nat)
| EWorker (reader : Z) | EPush (w : nat)
| RFind (reader : Z) | RStop (w : nat) | RTake (w : nat) | RGrace (w p : nat) | RDecide (w p : nat) | RForget (w p : nat)
| RHook (w p : nat) | RDetach (w p : nat) | RPark (w : nat)
| Cancel (id : Z) | Disconnect (client : string) | CancelIds (ids : list Z)
| Invalidate (reader : Z) | SetHold (reader : Z) (h : bool)
| Sweep
| Returned (result : option Z).

(** What the code cannot know: the clock, whether a timeout or a return happens, and
    the code an operation finishes with. *)
Record Env := mkEnv { now : Z; choice : bool; code : ErrorCode }.

(** Makes the worker of a reader if there is none. *)
Definition workerFor (reader : Z) (m : OperationManager) : nat * OperationManager :=
  match m_workers m !! reader with
  | Some w => (w, m)
  | None =>
      let w := m_next m in
      let worker := mkWorker reader [] None false false false false false [] [] WWait in
      (w, setNext (S w) (setRegistry (<[reader := w]> (m_workers m)) (setWorkers (<[w := worker]> (workers m)) m)))
  end.

Definition newOp (m : OperationManager) : nat * OperationManager :=
  let p := m_next m in (p, setNext (S p) (setHeap (<[p := mkOp 0 false None false]> (heap m)) m)).

(** What a call leaves: the manager, the accesses still to make, where it goes on. *)
Abbreviation Next := (OperationManager * list Cmd * CallPc)%type.

Definition publish (pc : CallPc) (m : OperationManager) : option Next :=
  match pc with
  | PId reader caller => let id := u64 (m_counter m + 1) in Some (setCounter id m, [], PWorker reader caller id)
  | PWorker reader caller id => let '(w, m) := workerFor reader m in Some (m, [], PCheck caller id w)
  | PCheck caller id w =>
      match workers m !! w with
      | Some x => Some (m, [], if kMaxQueuedOpsPerReader <=? zlen (queue x) then Returned None else PBuild caller id w)
      | None => None
      end
  | PBuild caller id w =>
      let '(p, m) := newOp m in
      Some (m, [], if decide (caller = ""%string) then PTrack id w p else PSender caller id w p)
  | PSender caller id w p => Some (recordSender id caller m, [], PTrack id w p)
  | PTrack id w p =>
      Some (setById (match m_byId m !! id with Some _ => m_byId m | None => <[id := p]> (m_byId m) end) (onOp p (setId id) m),
            [], PPush id w p)
  | PPush id w p => Some (onWorker w (λ x, setQueue (queue x ++ [p]) x) m, [], Returned (Some id))
  | _ => None
  end.

Definition enqueueOnReaderWorker (pc : CallPc) (m : OperationManager) : option Next :=
  match pc with
  | EWorker reader => let '(w, m) := workerFor reader m in Some (m, [], EPush w)
  | EPush w =>
      let '(p, m) := newOp m in
      match workers m !! w with
      | Some x =>
          if kMaxQueuedOpsPerReader <=? zlen (queue x) then Some (destroy Refused p m, [], Returned None)
          else Some (onWorker w (λ x, setQueue (queue x ++ [p]) x) m, [], Returned (Some 0))
      | None => None
      end
  | _ => None
  end.

Definition cancel (id : Z) (m : OperationManager) : OperationManager :=
  match m_byId m !! id with Some p => cancelAt true p m | None => m end.

Definition dispatchClientDisconnect (pc : CallPc) (m : OperationManager) : option Next :=
  match pc with
  | Disconnect client =>
      match m_senderToOps m !! client with
      | None => Some (m, [], Returned None)
      | Some doomed =>
          Some (setSenders (delete client (m_senderToOps m)) (filter (λ e, fst e ∉ doomed) (m_opToSender m)) m,
                [], CancelIds (elements doomed))
      end
  | CancelIds [] => Some (m, [], Returned None)
  | CancelIds (id :: ids) => Some (cancel id m, [], CancelIds ids)
  | _ => None
  end.

Definition invalidateReaderSession (reader : Z) (m : OperationManager) : OperationManager :=
  match m_workers m !! reader with
  | Some w => onWorker w (λ x, setFlags true (hold x) (holdDirty x) x) m
  | None => m
  end.

Definition setReaderHold (reader : Z) (h : bool) (m : OperationManager) : OperationManager :=
  match m_workers m !! reader with
  | Some w => onWorker w (λ x, setFlags (pendingInvalidate x) h true x) m
  | None => m
  end.

(** [removeReader], which hands its worker to [abandonOrJoin]. *)
Definition removeReader (reader : Z) (m : OperationManager) : Next :=
  match m_workers m !! reader with
  | None => (m, [], Returned None)
  | Some w => (setRegistry (delete reader (m_workers m)) m, [], RStop w)
  end.

(** [choice]: the deadline of the grace has passed. *)
Definition abandonOrJoin (e : Env) (pc : CallPc) (m : OperationManager) : option Next :=
  match pc with
  | RStop w => Some (onWorker w requestStop m, [], RTake w)
  | RTake w =>
      match workers m !! w with
      | Some x =>
          let todo := doom m (queue x) in
          let m := onWorker w (setQueue []) m in
          Some (match inFlight x with
                | Some p => (cancelAt false p m, todo, RGrace w p)
                | None => (m, todo, Returned None)
                end)
      | None => None
      end
  | RGrace w p =>
      match workers m !! w with
      | Some x => Some (m, [], if choice e || bool_decide (inFlight x = None) then RDecide w p else RGrace w p)
      | None => None
      end
  | RDecide w p =>
      match workers m !! w with
      | Some x => Some (m, [], if decide (inFlight x = None) then Returned None else RForget w p)
      | None => None
      end
  | RForget w p =>
      Some (match heap m !! p with
            | Some o => (m, forgetOpById (o_id o), RHook w p)
            | None => (addFault false p m, [], RHook w p)
            end)
  | RHook w p => Some (match heap m !! p with Some _ => m | None => addFault false p m end, [], RDetach w p)
  | RDetach w p => Some (onWorker w setAbandoned m, [], RPark w)
  | RPark w => Some (setZombies (m_zombies m ++ [w]) m, [], Returned None)
  | _ => None
  end.

(** The records at the front that are older than the grace. *)
Fixpoint agedOut (t : Z) (l : list (nat * Z)) : list nat * list (nat * Z) :=
  match l with
  | (p, at_) :: rest => if kGrace <=? t - at_ then let '(out, rest) := agedOut t rest in (p :: out, rest) else ([], l)
  | [] => ([], [])
  end.

Definition sweepFinished (e : Env) (m : OperationManager) : Next :=
  let '(expired, rest) := agedOut (now e) (m_finished m) in
  (setFinishedList rest m, concat (map (λ p, forgetOpById (idOf m p)) expired) ++ map CDestroy expired, Returned None).

Definition callStep (e : Env) (pc : CallPc) (m : OperationManager) : option Next :=
  match pc with
  | PId _ _ | PWorker _ _ _ | PCheck _ _ _ | PBuild _ _ _ | PSender _ _ _ _ | PTrack _ _ _ | PPush _ _ _ => publish pc m
  | EWorker _ | EPush _ => enqueueOnReaderWorker pc m
  | Disconnect _ | CancelIds _ => dispatchClientDisconnect pc m
  | Cancel id => Some (cancel id m, [], Returned None)
  | Invalidate reader => Some (invalidateReaderSession reader m, [], Returned None)
  | SetHold reader h => Some (setReaderHold reader h m, [], Returned None)
  | RFind reader => Some (removeReader reader m)
  | RStop _ | RTake _ | RGrace _ _ | RDecide _ _ | RForget _ _ | RHook _ _ | RDetach _ _ | RPark _ => abandonOrJoin e pc m
  | Sweep => Some (sweepFinished e m)
  | Returned _ => None
  end.

(** ** The worker's thread *)

(** [choice] in [doWork]: it returns, which it does when the operation is finished;
    otherwise the operation is finished, by the work or by its watchdog. *)
Definition workerLoop (e : Env) (w : nat) (m : OperationManager) : option OperationManager :=
  match workers m !! w with
  | None => None
  | Some x =>
      match w_pc x with
      | WWait =>
          Some (if w_stop x then onWorker w (goTo [] WDrain) m
                else if pendingInvalidate x then onWorker w (callHolder HInvalidate ∘ setFlags false (hold x) (holdDirty x)) m
                else if holdDirty x then
                  onWorker w (callHolder (if hold x then HAcquireHold else HReleaseHold) ∘ setFlags (pendingInvalidate x) (hold x) false) m
                else
                  match queue x with
                  | [] => onWorker w (callHolder (HSweep (hold x))) m
                  | p :: rest => onOp p setRan (onWorker w (goTo [] (WRun p) ∘ setInFlight (Some p) ∘ setQueue rest) m)
                  end)
      | WRun p =>
          if choice e then
            match heap m !! p ≫= o_finished with Some _ => Some (onWorker w (goTo [] (WClear p)) m) | None => None end
          else Some (onOp p (finish (code e)) m)
      | WClear p => Some (onWorker w (goTo [] (WCheck p) ∘ setInFlight None) m)
      | WCheck p => Some (if abandoned x then onWorker w (goTo [CDestroy p] WExited) m else onWorker w (goTo [] (WKeep p)) m)
      | WKeep p => Some (setFinishedList (m_finished m ++ [(p, now e)]) (onWorker w (goTo [] WWait) m))
      | WDrain => Some (onWorker w (goTo (doom m (queue x)) WExited ∘ setQueue []) m)
      | WExited => None
      end
  end.

(** ** Configurations *)

Record Config := mkConfig { mgr : OperationManager; calls : gmap nat (list Cmd * CallPc) }.

(** The worker a call holds on to. *)
Definition callWorker (pc : CallPc) : option nat :=
  match pc with
  | PCheck _ _ w | PBuild _ _ w | PSender _ _ w _ | PTrack _ w _ | PPush _ w _ | EPush w
  | RStop w | RTake w | RGrace w _ | RDecide w _ | RForget w _ | RHook w _ | RDetach w _ | RPark w => Some w
  | _ => None
  end.

Definition referenced (w : nat) (cfg : Config) : Prop :=
  (∃ r, m_workers (mgr cfg) !! r = Some w) ∨ w ∈ m_zombies (mgr cfg) ∨
  ∃ i todo pc, calls cfg !! i = Some (todo, pc) ∧ callWorker pc = Some w.

(** The destructor of a worker takes what is left in its queue with it. *)
Definition reclaim (w : nat) (m : OperationManager) : OperationManager :=
  match workers m !! w with
  | Some x => foldl (λ m p, destroy WithWorker p m) (setWorkers (delete w (workers m)) m) (queue x)
  | None => m
  end.

Definition entry (pc : CallPc) : Prop :=
  match pc with
  | PId _ _ | EWorker _ | RFind _ | Cancel _ | Disconnect _ | Invalidate _ | SetHold _ _ | Sweep => True
  | _ => False
  end.

Inductive cstep : Config → Config → Prop :=
| step_enter cfg i pc : calls cfg !! i = None → entry pc → cstep cfg (mkConfig (mgr cfg) (<[i := ([], pc)]> (calls cfg)))
| step_cmd cfg i c todo pc :
    calls cfg !! i = Some (c :: todo, pc) → cstep cfg (mkConfig (exec c (mgr cfg)) (<[i := (todo, pc)]> (calls cfg)))
| step_call cfg i pc e m todo pc' :
    calls cfg !! i = Some ([], pc) → m_counter (mgr cfg) + 1 < 2 ^ 64 → callStep e pc (mgr cfg) = Some (m, todo, pc') →
    cstep cfg (mkConfig m (<[i := (todo, pc')]> (calls cfg)))
| step_worker_cmd cfg w x c todo :
    workers (mgr cfg) !! w = Some x → w_todo x = c :: todo →
    cstep cfg (mkConfig (onWorker w (goTo todo (w_pc x)) (exec c (mgr cfg))) (calls cfg))
| step_worker cfg w x e m :
    workers (mgr cfg) !! w = Some x → w_todo x = [] → workerLoop e w (mgr cfg) = Some m → cstep cfg (mkConfig m (calls cfg))
| step_reclaim cfg w x :
    workers (mgr cfg) !! w = Some x → w_todo x = [] → w_pc x = WExited → ¬ referenced w cfg →
    cstep cfg (mkConfig (reclaim w (mgr cfg)) (calls cfg)).

Definition start : Config := mkConfig (mkManager 0 ∅ [] ∅ ∅ ∅ ∅ [] ∅ ∅ [] 1) ∅.

Inductive reach : Config → Prop :=
| reach_start : reach start
| reach_step cfg cfg' : reach cfg → cstep cfg cfg' → reach cfg'.

End Scheduler.
