(* ===== verification/Ownership.v ===== *)
(** * Who owns an operation

    The invariant of [Scheduler.v]: every live operation has exactly one owner, a table
    entry leads to a live operation or to one that went with its worker, and an operation
    is destroyed only after its end and after its entries were erased. The lemmas say what
    a step may change without breaking the invariant; [SchedulerSafety.v] applies them to
    the steps. *)
From S2P Require Import Prelude Vocabulary Scheduler.
Import Vocabulary Vocabulary.Err Scheduler.
Local Open Scope Z_scope.

Module Ownership.


(** ** Ownership

    Every live operation has one owner: a call that builds it or tears it down, a queue,
    a worker's thread, or the list of the finished. *)

Inductive Place := Nowhere | AtCall (i : nat) | AtQueue (w : nat) | AtWorker (w : nat) | AtKept.

#[export] Instance Place_eq_dec : EqDecision Place.
Proof. solve_decision. Defined.

Definition cmdOps (todo : list Cmd) : list nat := omap (λ c, match c with CDestroy p => Some p | _ => None end) todo.

Definition pcOps (pc : CallPc) : list nat :=
  match pc with PSender _ _ _ p | PTrack _ _ p | PPush _ _ p => [p] | _ => [] end.

Definition running (pc : WorkerPc) : list nat :=
  match pc with WRun p | WClear p | WCheck p | WKeep p => [p] | _ => [] end.

(** The identity a [publish] has drawn and not yet given to its operation. *)
Definition pendingId (pc : CallPc) : option Z :=
  match pc with
  | PWorker _ _ id | PCheck _ id _ | PBuild _ id _ | PSender _ id _ _ | PTrack id _ _ => Some id
  | _ => None
  end.

Definition dormant (o : Op) : Prop := o_finished o = None ∧ o_ran o = false.

(** Never run, and not finished but by the removal of its reader. *)
Definition idle (o : Op) : Prop := o_ran o = false ∧ (o_finished o = None ∨ o_finished o = Some CardRemoved).

(** At its end: finished, and as [CardRemoved] if it never ran. *)
Definition ended (o : Op) : Prop := ∃ c, o_finished o = Some c ∧ (o_ran o = false → c = CardRemoved).

Definition untracked (m : OperationManager) (o : Op) : Prop := o_id o = 0 ∨ m_byId m !! o_id o = None.

(** An operation is destroyed after its table entry was erased and after its end; [F]
    and [R] are the entries and the operations the commands before see to. *)
Fixpoint okCmds (m : OperationManager) (F : list Z) (R : list nat) (todo : list Cmd) : Prop :=
  match todo with
  | [] => True
  | CForgetId id :: todo => okCmds m (id :: F) R todo
  | CForgetSender _ :: todo => okCmds m F R todo
  | CFinishRemoved p :: todo => p ∈ cmdOps todo ∧ (∀ o, heap m !! p = Some o → idle o) ∧ okCmds m F (p :: R) todo
  | CDestroy p :: todo =>
      (∀ o, heap m !! p = Some o → (o_id o ∈ F ∨ untracked m o) ∧ (p ∈ R ∧ idle o ∨ ended o)) ∧ okCmds m F R todo
  end.

(** What a list of operations looks like at a place. *)
Definition placed (own : nat → Place) (l : Place) (ps : list nat) : Prop :=
  NoDup ps ∧ ∀ p, p ∈ ps → own p = l.

(** The operation the remover saw in flight: still there, or it went the usual way. *)
Definition seen (m : OperationManager) (p : nat) : Prop :=
  (∃ o, heap m !! p = Some o ∧ o_ran o = true) ∨ ∃ o, gone m !! p = Some (o, Ended).

Definition stoppedOn (m : OperationManager) (w p : nat) : Prop :=
  ∃ x, workers m !! w = Some x ∧ w_stop x = true ∧ ∀ q, q ∈ running (w_pc x) → q = p.

Definition forgets (todo : list Cmd) : list Z := omap (λ c, match c with CForgetId id => Some id | _ => None end) todo.

Definition pcOk (m : OperationManager) (todo : list Cmd) (pc : CallPc) : Prop :=
  match pc with
  | PSender _ _ _ p | PTrack _ _ p => ∃ o, heap m !! p = Some o ∧ dormant o ∧ o_id o = 0
  | PPush _ _ p => ∃ o, heap m !! p = Some o ∧ dormant o
  | RTake w => ∃ x, workers m !! w = Some x ∧ w_stop x = true
  | RGrace w p | RDecide w p | RForget w p => seen m p ∧ stoppedOn m w p
  | RHook w p | RDetach w p =>
      seen m p ∧ stoppedOn m w p ∧ ∀ o, heap m !! p = Some o → o_id o ∈ forgets todo ∨ untracked m o
  | _ => True
  end.

Record CallOk (m : OperationManager) (own : nat → Place) (i : nat) (todo : list Cmd) (pc : CallPc) : Prop := mkCallOk {
  c_own : placed own (AtCall i) (cmdOps todo ++ pcOps pc);
  c_cmds : okCmds m [] [] todo;
  c_pc : pcOk m todo pc;
  c_worker : ∀ w, callWorker pc = Some w → is_Some (workers m !! w) }.

Definition inFlightOf (pc : WorkerPc) : option nat := match pc with WRun p | WClear p => Some p | _ => None end.

Record WorkerOk (m : OperationManager) (own : nat → Place) (w : nat) (x : ReaderWorker) : Prop := mkWorkerOk {
  w_queued : placed own (AtQueue w) (queue x);
  w_dormant : ∀ p o, p ∈ queue x → heap m !! p = Some o → dormant o;
  w_own : placed own (AtWorker w) (cmdOps (w_todo x) ++ running (w_pc x));
  w_cmds : okCmds m [] [] (w_todo x);
  w_flight : inFlight x = inFlightOf (w_pc x);
  w_ran : ∀ p o, p ∈ running (w_pc x) → heap m !! p = Some o →
    o_ran o = true ∧ match w_pc x with WClear _ | WCheck _ | WKeep _ => is_Some (o_finished o) | _ => True end;
  w_abandoned : abandoned x = true → w_stop x = true ∧
    ∀ (p : nat) o, match w_pc x with WRun q | WClear q | WCheck q => p = q | _ => False end → heap m !! p = Some o → untracked m o }.

Definition known (m : OperationManager) (p : nat) (o : Op) : Prop :=
  heap m !! p = Some o ∨ ∃ f, gone m !! p = Some (o, f).

Record Global (m : OperationManager) (cs : gmap nat (list Cmd * CallPc)) (own : nat → Place) : Prop := mkGlobal {
  g_free : ∀ p, own p = Nowhere ↔ heap m !! p = None;
  g_next : ∀ p, (m_next m ≤ p)%nat → heap m !! p = None ∧ gone m !! p = None ∧ workers m !! p = None;
  g_gone : ∀ p o f, gone m !! p = Some (o, f) → heap m !! p = None ∧
    match f with Ended => ended o | WithWorker => dormant o | Refused => dormant o ∧ o_id o = 0 end;
  g_counter : 0 ≤ m_counter m;
  g_id : ∀ p o, known m p o → 0 ≤ o_id o ≤ m_counter m;
  g_uniq : ∀ p q o o', known m p o → known m q o' → o_id o = o_id o' → o_id o ≠ 0 → p = q;
  g_pending : ∀ i todo pc id, cs !! i = Some (todo, pc) → pendingId pc = Some id →
    0 < id ≤ m_counter m ∧ (∀ p o, known m p o → o_id o ≠ id) ∧
    ∀ j todo' pc', cs !! j = Some (todo', pc') → pendingId pc' = Some id → i = j;
  g_byId : ∀ id p, m_byId m !! id = Some p → ∃ o, o_id o = id ∧ id ≠ 0 ∧ (heap m !! p = Some o ∨ gone m !! p = Some (o, WithWorker));
  g_kept : placed own AtKept (map fst (m_finished m)) ∧
    ∀ p o, p ∈ map fst (m_finished m) → heap m !! p = Some o → is_Some (o_finished o) ∧ o_ran o = true;
  g_registry : ∀ r w, m_workers m !! r = Some w → is_Some (workers m !! w);
  g_faults : ∀ (b : bool) (p : nat), (b, p) ∈ faults m → ∃ o, gone m !! p = Some (o, if b then WithWorker else Ended) }.

Record Inv (cfg : Config) (own : nat → Place) : Prop := mkInv {
  i_global : Global (mgr cfg) (calls cfg) own;
  i_call : ∀ i todo pc, calls cfg !! i = Some (todo, pc) → CallOk (mgr cfg) own i todo pc;
  i_worker : ∀ w x, workers (mgr cfg) !! w = Some x → WorkerOk (mgr cfg) own w x }.

(** ** What a step leaves alone *)

Definition same (o o' : Op) : Prop := o_id o' = o_id o ∧ o_finished o' = o_finished o ∧ o_ran o' = o_ran o.

(** The operations at a place are as before, up to their cancel flag. *)
Record frame (m m' : OperationManager) (own own' : nat → Place) (l : Place) : Prop := mkFrame {
  fr_own : ∀ p, own p = l → own' p = l;
  fr_live : ∀ p o, own p = l → heap m !! p = Some o → is_Some (heap m' !! p);
  fr_heap : ∀ p o', own p = l → heap m' !! p = Some o' →
    ∃ o, heap m !! p = Some o ∧ same o o' ∧ (untracked m o → untracked m' o) }.

(** The workers in [P] and the operations that ran go on in the same way. *)
Record steady (P : nat → Prop) (m m' : OperationManager) : Prop := mkSteady {
  s_ran : ∀ p o, heap m !! p = Some o → o_ran o = true →
    (∃ o', heap m' !! p = Some o' ∧ o_ran o' = true ∧ o_id o' = o_id o ∧ (untracked m o → untracked m' o)) ∨
    (heap m' !! p = None ∧ ∃ o', gone m' !! p = Some (o', Ended));
  s_gone : ∀ p x, gone m !! p = Some x → gone m' !! p = Some x ∧ heap m' !! p = None;
  s_worker : ∀ w x, P w → workers m !! w = Some x → ∃ x', workers m' !! w = Some x' ∧
    (w_stop x = true → w_stop x' = true ∧ ∀ q, q ∈ running (w_pc x') → q ∈ running (w_pc x)) }.

Lemma untracked_id (m : OperationManager) (o o' : Op) : o_id o' = o_id o → untracked m o → untracked m o'.
Proof. unfold untracked. by intros ->. Qed.

Lemma same_dormant (o o' : Op) : same o o' → dormant o → dormant o'.
Proof. intros (_ & E1 & E2). unfold dormant. by rewrite E1, E2. Qed.

Lemma same_idle (o o' : Op) : same o o' → idle o → idle o'.
Proof. intros (_ & E1 & E2). unfold idle. by rewrite E1, E2. Qed.

Lemma same_ended (o o' : Op) : same o o' → ended o → ended o'.
Proof. intros (_ & E1 & E2). unfold ended. by rewrite E1, E2. Qed.

Lemma same_sym (o o' : Op) : same o o' → same o' o.
Proof. unfold same. naive_solver. Qed.

Section Frames.
Context (m m' : OperationManager) (own own' : nat → Place).

Lemma okCmds_frame (l : Place) (F : list Z) (R : list nat) (todo : list Cmd) :
  frame m m' own own' l → (∀ p, p ∈ cmdOps todo → own p = l) → okCmds m F R todo → okCmds m' F R todo.
Proof.
  intros Hf. revert F R. induction todo as [|[id|id|p|p] todo IH]; intros F R Hp; cbn; try (by apply IH); [done| |].
  { intros (H1 & H2 & H3). split_and!; [done| |by apply IH]. intros o' Ho'.
    destruct (fr_heap _ _ _ _ _ Hf p o') as (o & E & Hs & _); [by apply Hp|done|]. apply (same_idle o); auto. }
  intros [H1 H2]. split; [|apply IH; [|done]; intros q Hq; apply Hp; by right].
  intros o' Ho. destruct (fr_heap _ _ _ _ _ Hf p o') as (o & E & Hs & Hu); [apply Hp; by left|done|].
  destruct (H1 o E) as [Ha Hb]. destruct Hs as (Ei & Hs). split.
  - rewrite Ei. destruct Ha; [by left|right]. eapply untracked_id; [done|auto].
  - destruct Hb as [[? Hd]|He]; [left; split; [done|]; by apply (same_idle o)|right; by apply (same_ended o)].
Qed.

Lemma placed_frame (l : Place) (ps : list nat) : frame m m' own own' l → placed own l ps → placed own' l ps.
Proof. intros Hf [H1 H2]. split; [done|]. intros p Hp. apply (fr_own _ _ _ _ _ Hf). auto. Qed.

Lemma seen_steady (P : nat → Prop) (p : nat) : steady P m m' → seen m p → seen m' p.
Proof.
  intros Hs [(o & Ho & Hr)|[o Ho]]; [|right; exists o; by apply (s_gone _ _ _ Hs)].
  destruct (s_ran _ _ _ Hs p o Ho Hr) as [(o' & ? & ? & _)|(_ & o' & ?)]; [left|right]; eauto.
Qed.

Lemma stoppedOn_steady (P : nat → Prop) (w p : nat) : steady P m m' → P w → stoppedOn m w p → stoppedOn m' w p.
Proof.
  intros Hs HP (x & Hx & Hst & Hq). destruct (s_worker _ _ _ Hs w x HP Hx) as (x' & Hx' & H). destruct (H Hst) as [? Hsub].
  exists x'. split_and!; auto.
Qed.

Lemma forgot_steady (P : nat → Prop) (p : nat) (F : list Z) :
  steady P m m' → seen m p → (∀ o, heap m !! p = Some o → o_id o ∈ F ∨ untracked m o) →
  ∀ o, heap m' !! p = Some o → o_id o ∈ F ∨ untracked m' o.
Proof.
  intros Hs Hp Hu o' Ho'. destruct Hp as [(o & Ho & Hr)|[o Ho]].
  - destruct (s_ran _ _ _ Hs p o Ho Hr) as [(o1 & E1 & _ & Ei & Hk)|[E1 _]]; [|congruence]. replace o1 with o' in * by congruence.
    rewrite Ei. destruct (Hu o Ho); [by left|right]. eapply untracked_id; [done|auto].
  - destruct (s_gone _ _ _ Hs p _ Ho). congruence.
Qed.

Lemma CallOk_frame (P : nat → Prop) (i : nat) (todo : list Cmd) (pc : CallPc) :
  frame m m' own own' (AtCall i) → steady P m m' → (∀ w, callWorker pc = Some w → P w) →
  CallOk m own i todo pc → CallOk m' own' i todo pc.
Proof.
  intros Hf Hs HP [H1 H2 H3 H4]. split.
  - by apply placed_frame.
  - eapply okCmds_frame; [done| |done]. intros p Hp. apply H1, elem_of_app. by left.
  - assert (Hown : ∀ p, p ∈ pcOps pc → own p = AtCall i) by (intros p Hp; apply H1, elem_of_app; by right).
    assert (Hop : ∀ p (Q : Op → Prop), p ∈ pcOps pc → (∀ o o', same o o' → Q o → Q o') →
      (∃ o, heap m !! p = Some o ∧ Q o) → ∃ o, heap m' !! p = Some o ∧ Q o).
    { intros p Q Hp HQ (o & Ho & Hq). destruct (fr_live _ _ _ _ _ Hf p o (Hown p Hp) Ho) as [o' Ho']. exists o'. split; [done|].
      destruct (fr_heap _ _ _ _ _ Hf p o' (Hown p Hp) Ho') as (o1 & E & Hsa & _). replace o1 with o in * by congruence. by apply (HQ o). }
    destruct pc; cbn in *; try done.
    + apply (Hop p); [left| |done]. intros o o' Hsa [??]. split; [by apply (same_dormant o)|]. by rewrite (proj1 Hsa).
    + apply (Hop p); [left| |done]. intros o o' Hsa [??]. split; [by apply (same_dormant o)|]. by rewrite (proj1 Hsa).
    + apply (Hop p); [left| |done]. intros o o' Hsa ?. by apply (same_dormant o).
    + destruct H3 as (x & Hx & Hst). destruct (s_worker _ _ _ Hs w x (HP w eq_refl) Hx) as (x' & Hx' & H). exists x'. naive_solver.
    + destruct H3. split; [by eapply seen_steady|]. eapply stoppedOn_steady; eauto.
    + destruct H3. split; [by eapply seen_steady|]. eapply stoppedOn_steady; eauto.
    + destruct H3. split; [by eapply seen_steady|]. eapply stoppedOn_steady; eauto.
    + destruct H3 as (?&?&?). split_and!; [by eapply seen_steady|eapply stoppedOn_steady; eauto|by eapply forgot_steady].
    + destruct H3 as (?&?&?). split_and!; [by eapply seen_steady|eapply stoppedOn_steady; eauto|by eapply forgot_steady].
  - intros w Hw. destruct (H4 w Hw) as [x Hx]. destruct (s_worker _ _ _ Hs w x (HP w Hw) Hx) as (x' & Hx' & _). eauto.
Qed.

Lemma WorkerOk_frame (w : nat) (x : ReaderWorker) :
  frame m m' own own' (AtQueue w) → frame m m' own own' (AtWorker w) → WorkerOk m own w x → WorkerOk m' own' w x.
Proof.
  intros Hq Hw [H1 H2 H3 H4 H5 H6 H7]. split; try done.
  - by apply placed_frame.
  - intros p o' Hp Ho'. destruct (fr_heap _ _ _ _ _ Hq p o') as (o & Ho & Hs & _); [by apply H1|done|]. apply (same_dormant o); eauto.
  - by apply placed_frame.
  - eapply okCmds_frame; [done| |done]. intros p Hp. apply H3, elem_of_app. by left.
  - intros p o' Hp Ho'. destruct (fr_heap _ _ _ _ _ Hw p o') as (o & Ho & Hs & _); [apply H3, elem_of_app; by right|done|].
    destruct Hs as (_ & -> & ->). eauto.
  - intros Ha. destruct (H7 Ha) as [Hst Hu]. split; [done|]. intros p o' Hp Ho'.
    destruct (fr_heap _ _ _ _ _ Hw p o') as (o & Ho & Hs & Hk); [|done|].
    + apply H3, elem_of_app. right. destruct (w_pc x); try done; subst; left.
    + apply (untracked_id m' o); [apply Hs|]. eauto.
Qed.

End Frames.

(** A step of call [i] that leaves the places but its own and [l2] alone. *)
Lemma Inv_call (cfg : Config) (own own' : nat → Place) (i : nat) (todo todo' : list Cmd) (pc pc' : CallPc) (m' : OperationManager) (l2 : Place) :
  Inv cfg own → calls cfg !! i = Some (todo, pc) →
  Global m' (<[i := (todo', pc')]> (calls cfg)) own' → CallOk m' own' i todo' pc' → steady (λ _, True) (mgr cfg) m' →
  (∀ l, l ≠ AtCall i → l ≠ l2 → l ≠ Nowhere → frame (mgr cfg) m' own own' l) → (∀ j, l2 ≠ AtCall j) →
  (∀ w x, workers m' !! w = Some x →
     workers (mgr cfg) !! w = Some x ∧ l2 ≠ AtQueue w ∧ l2 ≠ AtWorker w ∨ WorkerOk m' own' w x) →
  Inv (mkConfig m' (<[i := (todo', pc')]> (calls cfg))) own'.
Proof.
  intros [HG HC HW] Hi HG' HC' Hs Hf Hl2 HW'. split; cbn; [done| |].
  - intros j todo1 pc1. rewrite lookup_insert_Some. intros [[<- [= <- <-]]|[Hij Hj]]; [done|].
    eapply CallOk_frame; [|done|done|by apply HC]. apply Hf; [congruence|done|done].
  - intros w x Hx. destruct (HW' w x Hx) as [(Hx' & H1 & H2)|]; [|done].
    eapply WorkerOk_frame; [| |by apply HW]; apply Hf; done.
Qed.

(** A step of worker [w]. *)
Lemma Inv_worker (cfg : Config) (own own' : nat → Place) (w : nat) (x' : ReaderWorker) (m' : OperationManager) (l2 : Place) :
  Inv cfg own → workers m' = <[w := x']> (workers (mgr cfg)) →
  Global m' (calls cfg) own' → WorkerOk m' own' w x' → steady (λ _, True) (mgr cfg) m' →
  (∀ l, l ≠ AtQueue w → l ≠ AtWorker w → l ≠ l2 → l ≠ Nowhere → frame (mgr cfg) m' own own' l) →
  l2 = Nowhere ∨ l2 = AtKept →
  Inv (mkConfig m' (calls cfg)) own'.
Proof.
  intros [HG HC HW] Ew HG' HW' Hs Hf Hl2. split; cbn; [done| |].
  - intros j todo1 pc1 Hj. eapply CallOk_frame; [|done|done|by apply HC]. apply Hf; try done. by destruct Hl2 as [->| ->].
  - intros w1 x1. rewrite Ew, lookup_insert_Some. intros [[<- <-]|[Hne Hx]]; [done|].
    eapply WorkerOk_frame; [| |by apply HW]; apply Hf; try congruence; by destruct Hl2 as [->| ->].
Qed.


(** ** Changes that move no operation *)

(** An operation keeps its identity; it may be finished or start to run. *)
Definition evolves (o o' : Op) : Prop :=
  o_id o' = o_id o ∧ (is_Some (o_finished o) → is_Some (o_finished o')) ∧ (o_ran o = true → o_ran o' = true).

Definition pendingFrom (cs cs' : gmap nat (list Cmd * CallPc)) : Prop :=
  ∀ i todo pc id, cs' !! i = Some (todo, pc) → pendingId pc = Some id →
    ∃ todo0 pc0, cs !! i = Some (todo0, pc0) ∧ pendingId pc0 = Some id.

Lemma pendingFrom_refl cs : pendingFrom cs cs.
Proof. intros i todo pc id ??. eauto. Qed.

Lemma pendingFrom_insert cs i todo pc todo' pc' :
  cs !! i = Some (todo, pc) → pendingId pc' = None ∨ pendingId pc' = pendingId pc → pendingFrom cs (<[i := (todo', pc')]> cs).
Proof.
  intros Hi Hp j todo1 pc1 id. rewrite lookup_insert_Some. intros [[<- [= <- <-]]|[_ Hj]] Hid; [|eauto].
  destruct Hp as [Hp|Hp]; [congruence|]. exists todo, pc. split; [done|congruence].
Qed.

(** The registry, the tables and the workers may change; the operations only evolve. *)
Lemma Global_weak (m m' : OperationManager) (cs cs' : gmap nat (list Cmd * CallPc)) (own : nat → Place) :
  Global m cs own → (∀ p, option_Forall2 evolves (heap m !! p) (heap m' !! p)) → gone m' = gone m →
  m_finished m' = m_finished m → faults m' = faults m → m_counter m' = m_counter m → (m_next m ≤ m_next m')%nat →
  (∀ w, (m_next m' ≤ w)%nat → workers m' !! w = None) →
  (∀ id p, m_byId m' !! id = Some p → m_byId m !! id = Some p) →
  (∀ r w, m_workers m' !! r = Some w → is_Some (workers m' !! w)) → pendingFrom cs cs' → Global m' cs' own.
Proof.
  intros [G1 G2 G3 G4 G5 G6 G7 G8 G9 G10 G11] Hh Eg Ef Efa Ec En Hw Hb Hr Hp.
  assert (Hn : ∀ p, heap m' !! p = None ↔ heap m !! p = None) by (intros p; destruct (Hh p); naive_solver).
  assert (Ho : ∀ p o', heap m' !! p = Some o' → ∃ o, heap m !! p = Some o ∧ evolves o o').
  { intros p o' E. specialize (Hh p). rewrite E in Hh. inversion Hh; subst; eauto. }
  assert (Ho' : ∀ p o, heap m !! p = Some o → ∃ o', heap m' !! p = Some o' ∧ evolves o o').
  { intros p o E. specialize (Hh p). rewrite E in Hh. inversion Hh; subst; eauto. }
  assert (Hk : ∀ p o', known m' p o' → ∃ o, known m p o ∧ o_id o' = o_id o).
  { intros p o' [(o & ? & ?)%Ho|[f E]]; [exists o; split; [by left|]; by destruct H0|]. exists o'. split; [|done]. right. exists f. congruence. }
  split.
  - intros p. rewrite Hn. apply G1.
  - intros p Hp'. rewrite Hn, Eg. split_and!; [by apply G2; lia..|by apply Hw].
  - intros p o f. rewrite Eg, Hn. apply G3.
  - congruence.
  - intros p o' (o & Hko & ->)%Hk. rewrite Ec. by eapply G5.
  - intros p q o1 o2 (o & Hko & E1)%Hk (o' & Hko' & E2)%Hk. rewrite E1, E2. eauto.
  - intros i todo pc id Hi Hid. destruct (Hp _ _ _ _ Hi Hid) as (t0 & p0 & Hi0 & Hid0). destruct (G7 _ _ _ _ Hi0 Hid0) as (H1 & H2 & H3).
    rewrite Ec. split_and!; [lia|lia|intros p o' (o & Hko & ->)%Hk; eauto|]. intros j t1 p1 Hj Hjd.
    destruct (Hp _ _ _ _ Hj Hjd) as (t2 & p2 & Hj0 & Hjd0). eauto.
  - intros id p (o & E & Hz & Hl)%Hb%G8. destruct Hl as [Hl|Hl].
    + destruct (Ho' p o Hl) as (o' & ? & (Ei & _)). exists o'. rewrite Ei. auto.
    + exists o. rewrite Eg. auto.
  - rewrite Ef. destruct G9 as [H1 H2]. split; [done|]. intros p o' Hin (o & E & (_ & Hf & Hr'))%Ho. destruct (H2 p o Hin E). auto.
  - done.
  - rewrite Efa, Eg. done.
Qed.

Lemma frame_weak (m m' : OperationManager) (own : nat → Place) (l : Place) :
  (∀ p, own p = l → option_Forall2 same (heap m !! p) (heap m' !! p)) →
  (∀ id p, m_byId m' !! id = Some p → m_byId m !! id = Some p) → frame m m' own own l.
Proof.
  intros Hh Hb. split; [done| |].
  - intros p o Hp Ho. specialize (Hh p Hp). rewrite Ho in Hh. inversion Hh; subst; eauto.
  - intros p o' Hp Ho'. specialize (Hh p Hp). rewrite Ho' in Hh. inversion Hh as [o ? Hs E1 E2|]; subst. exists o. split_and!; [done|done|].
    intros [|Hu]; [by left|right]. destruct (m_byId m' !! o_id o) as [q|] eqn:E; [|done]. apply Hb in E. congruence.
Qed.

Lemma steady_weak (P : nat → Prop) (m m' : OperationManager) :
  (∀ p, option_Forall2 evolves (heap m !! p) (heap m' !! p)) → (∀ p x, gone m !! p = Some x → gone m' !! p = Some x ∧ heap m !! p = None) →
  (∀ id p, m_byId m' !! id = Some p → m_byId m !! id = Some p) →
  (∀ w x, P w → workers m !! w = Some x → ∃ x', workers m' !! w = Some x' ∧
    (w_stop x = true → w_stop x' = true ∧ ∀ q, q ∈ running (w_pc x') → q ∈ running (w_pc x))) → steady P m m'.
Proof.
  intros Hh Hg Hb Hw. split; [| |done].
  - intros p o Ho Hr. left. specialize (Hh p). rewrite Ho in Hh. inversion Hh as [? o' (Hi & _ & Hr') E1 E2|]; subst. exists o'. split_and!; auto.
    intros [|Hu]; [by left|right]. destruct (m_byId m' !! o_id o) as [q|] eqn:E; [|done]. apply Hb in E. congruence.
  - intros p x Hx. destruct (Hg p x Hx) as [? E]. split; [done|]. specialize (Hh p). rewrite E in Hh. by inversion Hh.
Qed.

Lemma heap_evolves (m : OperationManager) p : option_Forall2 evolves (heap m !! p) (heap m !! p).
Proof. destruct (heap m !! p); constructor. by split_and!. Qed.

Lemma heap_same (m : OperationManager) p : option_Forall2 same (heap m !! p) (heap m !! p).
Proof. destruct (heap m !! p); constructor. by split_and!. Qed.

Lemma alter_evolves (m : OperationManager) (q : nat) (f : Op → Op) (Hf : ∀ o, evolves o (f o)) p :
  option_Forall2 evolves (heap m !! p) (heap (onOp q f m) !! p).
Proof.
  cbn. destruct (decide (p = q)) as [->|]; [|rewrite lookup_alter_ne by done; apply heap_evolves].
  rewrite lookup_alter_eq. destruct (heap m !! q); constructor. auto.
Qed.

Lemma alter_same (m : OperationManager) (q : nat) (f : Op → Op) p :
  (p = q → ∀ o, same o (f o)) → option_Forall2 same (heap m !! p) (heap (onOp q f m) !! p).
Proof.
  intros Hf. cbn. destruct (decide (p = q)) as [->|]; [|rewrite lookup_alter_ne by done; apply heap_same].
  rewrite lookup_alter_eq. destruct (heap m !! q); constructor. auto.
Qed.

Lemma cancel_same (o : Op) : same o (requestCancel o).
Proof. by split_and!. Qed.

Lemma cancel_evolves (o : Op) : evolves o (requestCancel o).
Proof. by split_and!. Qed.

Lemma finish_evolves (c : ErrorCode) (o : Op) : evolves o (finish c o).
Proof. by split_and!. Qed.

(** The record of a worker with other flags. *)
Lemma WorkerOk_flags (m : OperationManager) (own : nat → Place) (w : nat) (x x' : ReaderWorker) :
  WorkerOk m own w x → queue x' = queue x → inFlight x' = inFlight x → abandoned x' = abandoned x → w_todo x' = w_todo x → w_pc x' = w_pc x →
  (w_stop x = true → w_stop x' = true) → WorkerOk m own w x'.
Proof. intros [H1 H2 H3 H4 H5 H6 H7] E1 E2 E3 E4 E5 E6. split; rewrite ?E1, ?E2, ?E3, ?E4, ?E5; try done. naive_solver. Qed.

(** The workers, with the record of one changed. *)
Lemma worker_altered (m : OperationManager) (w w' : nat) (f : ReaderWorker → ReaderWorker) x' :
  workers (onWorker w f m) !! w' = Some x' →
  (w' ≠ w ∧ workers m !! w' = Some x') ∨ (w' = w ∧ ∃ x, workers m !! w = Some x ∧ x' = f x).
Proof.
  cbn. destruct (decide (w' = w)) as [->|Hne]; [|rewrite lookup_alter_ne by done; by left].
  rewrite lookup_alter_eq. destruct (workers m !! w) as [x|]; [|done]. cbn. intros [= <-]. right. eauto.
Qed.

Lemma workers_altered_some (m : OperationManager) (w w' : nat) (f : ReaderWorker → ReaderWorker) :
  is_Some (workers (onWorker w f m) !! w') ↔ is_Some (workers m !! w').
Proof. cbn. destruct (decide (w' = w)) as [->|]; [by rewrite lookup_alter_eq, fmap_is_Some|by rewrite lookup_alter_ne]. Qed.

Lemma workers_altered_none (m : OperationManager) (w w' : nat) (f : ReaderWorker → ReaderWorker) :
  workers m !! w' = None → workers (onWorker w f m) !! w' = None.
Proof. rewrite !eq_None_not_Some. by rewrite workers_altered_some. Qed.

(** The stop flag stays, and a stopped worker takes up nothing new. *)
Definition calm (f : ReaderWorker → ReaderWorker) : Prop :=
  ∀ x, w_stop x = true → w_stop (f x) = true ∧ ∀ q, q ∈ running (w_pc (f x)) → q ∈ running (w_pc x).

Lemma steady_altered (P : nat → Prop) (m : OperationManager) (w : nat) (f : ReaderWorker → ReaderWorker) (w' : nat) (x : ReaderWorker) :
  calm f → P w' → workers m !! w' = Some x → ∃ x', workers (onWorker w f m) !! w' = Some x' ∧
    (w_stop x = true → w_stop x' = true ∧ ∀ q, q ∈ running (w_pc x') → q ∈ running (w_pc x)).
Proof.
  intros Hf _ Hx. cbn. destruct (decide (w' = w)) as [->|].
  - exists (f x). rewrite lookup_alter_eq, Hx. split; [done|apply Hf].
  - exists x. rewrite lookup_alter_ne by done. auto.
Qed.


(** ** The calls *)

Section Calls.
Context (cfg : Config) (own : nat → Place) (i : nat) (todo : list Cmd) (pc : CallPc).
Context (HI : Inv cfg own) (Hi : calls cfg !! i = Some (todo, pc)).

Let m := mgr cfg.
Let HG : Global m (calls cfg) own := i_global _ _ HI.
Let HC : CallOk m own i todo pc := i_call _ _ HI _ _ _ Hi.

Lemma evolves_same p m' : option_Forall2 same (heap m !! p) (heap m' !! p) → option_Forall2 evolves (heap m !! p) (heap m' !! p).
Proof using Type. intros H. destruct H as [o o' (E1 & E2 & E3)|]; constructor. unfold evolves. rewrite E1, E2, E3. done. Qed.

Lemma Inv_call_weak (todo' : list Cmd) (pc' : CallPc) (m' : OperationManager) :
  (∀ p, option_Forall2 same (heap m !! p) (heap m' !! p)) → gone m' = gone m → m_finished m' = m_finished m → faults m' = faults m →
  m_counter m' = m_counter m → (m_next m ≤ m_next m')%nat → (∀ w, (m_next m' ≤ w)%nat → workers m' !! w = None) →
  (∀ id p, m_byId m' !! id = Some p → m_byId m !! id = Some p) →
  (∀ r w, m_workers m' !! r = Some w → is_Some (workers m' !! w)) → pendingId pc' = None ∨ pendingId pc' = pendingId pc →
  (∀ w x, True → workers m !! w = Some x → ∃ x', workers m' !! w = Some x' ∧
    (w_stop x = true → w_stop x' = true ∧ ∀ q, q ∈ running (w_pc x') → q ∈ running (w_pc x))) →
  (∀ w x, workers m' !! w = Some x → workers m !! w = Some x ∨ WorkerOk m' own w x) →
  CallOk m' own i todo' pc' → Inv (mkConfig m' (<[i := (todo', pc')]> (calls cfg))) own.
Proof using HI Hi.
  intros Hh Eg Ef Efa Ec En Hw Hb Hr Hp Hst HWo HCo.
  assert (He : ∀ p, option_Forall2 evolves (heap m !! p) (heap m' !! p)) by (intros p; by apply evolves_same).
  eapply (Inv_call cfg own own i todo todo' pc pc' m' Nowhere); try done.
  - eapply (Global_weak m); try done. by eapply pendingFrom_insert.
  - apply steady_weak; try done. intros p [o f] Hx. rewrite Eg. split; [done|]. by apply (g_gone _ _ _ HG p o f).
  - intros l _ _ _. by apply frame_weak.
  - intros w x Hx. destruct (HWo w x Hx); [left|by right]. done.
Qed.

(** The manager stays as it is. *)
Lemma Inv_call_same (todo' : list Cmd) (pc' : CallPc) :
  pendingId pc' = None ∨ pendingId pc' = pendingId pc → CallOk m own i todo' pc' → Inv (mkConfig m (<[i := (todo', pc')]> (calls cfg))) own.
Proof using HI Hi.
  intros Hp HCo. apply Inv_call_weak; try done.
  - intros p. apply (heap_same m).
  - intros w. apply HG.
  - apply HG.
  - intros w x _ Hx. exists x. auto.
  - by left.
Qed.

(** The record of one worker changes. *)
Lemma Inv_call_onWorker (w : nat) (f : ReaderWorker → ReaderWorker) (pc' : CallPc) (todo' : list Cmd) :
  calm f → (∀ x, workers m !! w = Some x → WorkerOk (onWorker w f m) own w (f x)) →
  pendingId pc' = None ∨ pendingId pc' = pendingId pc → CallOk (onWorker w f m) own i todo' pc' →
  Inv (mkConfig (onWorker w f m) (<[i := (todo', pc')]> (calls cfg))) own.
Proof using HI Hi.
  intros Hf Hx Hp HCo. apply Inv_call_weak; try done.
  - intros p. apply (heap_same m).
  - intros w' Hw'. apply workers_altered_none. by apply HG.
  - intros r w' E. apply workers_altered_some. by eapply g_registry.
  - intros w' x' _ E. eapply (steady_altered (λ _, True)); eauto.
  - intros w' x' [[? ?]|(-> & x & E & ->)]%worker_altered; [by left|right; auto].
Qed.

Lemma placed_nil (l : Place) : placed own l [].
Proof using Type. split; [constructor|]. by intros p ?%not_elem_of_nil. Qed.

Lemma CallOk_idle (m' : OperationManager) (own' : nat → Place) (pc' : CallPc) :
  pcOps pc' = [] → pcOk m' [] pc' → (∀ w, callWorker pc' = Some w → is_Some (workers m' !! w)) → CallOk m' own' i [] pc'.
Proof using Type. intros E ??. split; cbn; try done. rewrite E. split; [constructor|]. by intros p ?%not_elem_of_nil. Qed.

Lemma onWorker_heap (w : nat) (f : ReaderWorker → ReaderWorker) (m0 : OperationManager) : heap (onWorker w f m0) = heap m0 ∧ m_byId (onWorker w f m0) = m_byId m0 ∧ gone (onWorker w f m0) = gone m0.
Proof using Type. done. Qed.

(** ** Changes of flags and tables *)

Lemma Inv_flags (w : nat) (f : ReaderWorker → ReaderWorker) (pc' : CallPc) :
  (∀ x, queue (f x) = queue x ∧ inFlight (f x) = inFlight x ∧ abandoned (f x) = abandoned x ∧ w_todo (f x) = w_todo x ∧ w_pc (f x) = w_pc x ∧
        (w_stop x = true → w_stop (f x) = true)) →
  pcOps pc' = [] → pendingId pc' = None → pcOk (onWorker w f m) [] pc' → (∀ w, callWorker pc' = Some w → is_Some (workers m !! w)) →
  Inv (mkConfig (onWorker w f m) (<[i := ([], pc')]> (calls cfg))) own.
Proof using HI Hi.
  intros Hf Ho Hp Hpc Hw. apply Inv_call_onWorker; [|intros x Hx|by left|].
  - intros x Hs. destruct (Hf x) as (_ & _ & _ & _ & -> & H). auto.
  - destruct (Hf x) as (? & ? & ? & ? & ? & ?). eapply (WorkerOk_flags _ _ _ x); try done.
    eapply (WorkerOk_frame m); [| |by apply (i_worker _ _ HI)]; apply frame_weak; try done; intros p _; apply (heap_same m).
  - apply CallOk_idle; try done. intros w' Hw'. apply workers_altered_some. auto.
Qed.

Lemma Inv_cancel (p : nat) (b : bool) (pc' : CallPc) (todo' : list Cmd) :
  (is_Some (heap m !! p) ∨ ∃ o, gone m !! p = Some (o, if b then WithWorker else Ended)) →
  pendingId pc' = None ∨ pendingId pc' = pendingId pc → CallOk (cancelAt b p m) own i todo' pc' →
  Inv (mkConfig (cancelAt b p m) (<[i := (todo', pc')]> (calls cfg))) own.
Proof using HI Hi.
  unfold cancelAt. destruct (heap m !! p) as [o|] eqn:E; intros Hp Hpe HCo.
  - apply Inv_call_weak; try done.
    + intros q. apply alter_same. intros _. apply cancel_same.
    + intros w. apply HG.
    + apply HG.
    + intros w x _ Hx. exists x. auto.
    + by left.
  - destruct Hp as [[? ?]|[o Ho]]; [done|].
    eapply (Inv_call cfg own own i todo todo' pc pc' _ Nowhere); try done.
    + destruct HG as [G1 G2 G3 G4 G5 G6 G7 G8 G9 G10 G11].
      destruct (Global_weak m m _ (<[i:=(todo',pc')]> (calls cfg)) own HG) as [A1 A2 A3 A4 A5 A6 A7 A8 A9 A10 A11]; try done;
        [intros q; apply (heap_evolves m)|intros w; apply G2|by eapply pendingFrom_insert|].
      split; try done. intros b' p'. cbn. rewrite elem_of_app, elem_of_cons. intros [?|[[= -> ->]|?%not_elem_of_nil]]; [by apply G11| |done]. eauto.
    + apply steady_weak; try done; [intros q; apply (heap_evolves m)| |].
      * intros q [o' f'] Hx. split; [done|]. by apply (g_gone _ _ _ HG q o' f').
      * intros w x _ Hx. exists x. auto.
    + intros l _ _ _. apply frame_weak; [|done]. intros q _. apply (heap_same m).
    + intros w x Hx. by left.
Qed.

End Calls.


(** ** Moving operations *)

Definition moved (ps : list nat) (l : Place) (own : nat → Place) (p : nat) : Place := if decide (p ∈ ps) then l else own p.

Lemma moved_in (ps : list nat) (l : Place) (own : nat → Place) (p : nat) : p ∈ ps → moved ps l own p = l.
Proof. intros. unfold moved. by rewrite decide_True. Qed.

Lemma moved_out (ps : list nat) (l : Place) (own : nat → Place) (p : nat) : p ∉ ps → moved ps l own p = own p.
Proof. intros. unfold moved. by rewrite decide_False. Qed.

Lemma Global_own (m : OperationManager) (cs : gmap nat (list Cmd * CallPc)) (own own' : nat → Place) :
  Global m cs own → (∀ p, own' p = Nowhere ↔ own p = Nowhere) → placed own' AtKept (map fst (m_finished m)) → Global m cs own'.
Proof. intros [G1 G2 G3 G4 G5 G6 G7 G8 [_ G9] G10 G11] Ho Hk. split; try done. intros p. by rewrite Ho. Qed.

Lemma frame_moved (m m' : OperationManager) (own : nat → Place) (ps : list nat) (A B L : Place) :
  (∀ p, p ∈ ps → own p = A) → L ≠ A → frame m m' own own L → frame m m' own (moved ps B own) L.
Proof.
  intros Hp HL [H1 H2 H3]. split; [|done|done]. intros p E. rewrite moved_out; [done|]. intros Hin%Hp. congruence.
Qed.

(** Between two places that are neither the kept ones nor nowhere. *)
Lemma Global_moved (m : OperationManager) (cs : gmap nat (list Cmd * CallPc)) (own : nat → Place) (ps : list nat) (A B : Place) :
  Global m cs own → (∀ p, p ∈ ps → own p = A) → A ≠ Nowhere → A ≠ AtKept → B ≠ Nowhere → Global m cs (moved ps B own).
Proof.
  intros HG Hp HA HA' HB. eapply Global_own; [done| |].
  - intros p. unfold moved. case_decide as E; [|done]. rewrite (Hp p E). naive_solver.
  - destruct HG as [_ _ _ _ _ _ _ _ [[Hn Hk] _] _ _]. split; [done|]. intros p Hin. rewrite moved_out; [by apply Hk|].
    intros E%Hp. rewrite (Hk p Hin) in E. done.
Qed.

Lemma placed_moved (own : nat → Place) (ps qs : list nat) (A B : Place) :
  placed own A ps → placed own B qs → A ≠ B → placed (moved ps B own) B (qs ++ ps).
Proof.
  intros [N1 H1] [N2 H2] HAB. split.
  - apply NoDup_app. split_and!; [done| |done]. intros p ?%H2 ?%H1. congruence.
  - intros p [Hp|Hp]%elem_of_app; [|by apply moved_in]. rewrite moved_out; [by apply H2|]. intros E%H1. rewrite (H2 p Hp) in E. done.
Qed.

(** ** Commands *)

Lemma cmdOps_app (l l' : list Cmd) : cmdOps (l ++ l') = cmdOps l ++ cmdOps l'.
Proof. apply omap_app. Qed.

Lemma cmdOps_forgets (f : nat → Z) (ps : list nat) : cmdOps (concat (map (λ p, forgetOpById (f p)) ps)) = [].
Proof. induction ps as [|p ps IH]; [done|]. cbn. rewrite cmdOps_app, IH. unfold forgetOpById. by destruct (f p =? 0). Qed.

Lemma cmdOps_finishes (ps : list nat) : cmdOps (map CFinishRemoved ps) = [].
Proof. by induction ps. Qed.

Lemma cmdOps_destroys (ps : list nat) : cmdOps (map CDestroy ps) = ps.
Proof. induction ps as [|p ps IH]; [done|]. cbn. f_equal. exact IH. Qed.

Lemma cmdOps_doom (m : OperationManager) (ps : list nat) : cmdOps (doom m ps) = ps.
Proof. unfold doom. by rewrite !cmdOps_app, cmdOps_forgets, cmdOps_finishes, cmdOps_destroys. Qed.

Lemma okCmds_mono (m : OperationManager) (F F' : list Z) (R R' : list nat) (todo : list Cmd) :
  F ⊆ F' → R ⊆ R' → okCmds m F R todo → okCmds m F' R' todo.
Proof.
  revert F F' R R'. induction todo as [|[id|id|p|p] todo IH]; intros F F' R R' HF HR; cbn; [done|apply IH; [set_solver|done]|by apply IH| |].
  - intros (?&?&H). split_and!; try done. eapply IH; [done| |done]. set_solver.
  - intros [H1 H2]. split; [|by eapply IH]. intros o Ho. destruct (H1 o Ho) as [Ha Hb]. split; [naive_solver|]. naive_solver.
Qed.

Lemma okCmds_forgets (m : OperationManager) (f : nat → Z) (ps : list nat) (F : list Z) (R : list nat) (rest : list Cmd) :
  okCmds m (filter (λ id, id ≠ 0) (map f ps) ++ F) R rest → okCmds m F R (concat (map (λ p, forgetOpById (f p)) ps) ++ rest).
Proof.
  revert F. induction ps as [|p ps IH]; intros F; [done|]. cbn [map concat]. unfold forgetOpById at 1. destruct (Z.eqb_spec (f p) 0) as [E|E]; cbn [app okCmds].
  - rewrite filter_cons_False by naive_solver. apply IH.
  - rewrite filter_cons_True by done. intros H. apply IH. eapply okCmds_mono; [|done|exact H]. set_solver.
Qed.

Lemma okCmds_finishes (m : OperationManager) (ps : list nat) (F : list Z) (R : list nat) (rest : list Cmd) :
  (∀ p o, p ∈ ps → heap m !! p = Some o → idle o) → (∀ p, p ∈ ps → p ∈ cmdOps rest) →
  okCmds m F (ps ++ R) rest → okCmds m F R (map CFinishRemoved ps ++ rest).
Proof.
  intros Hi Hr. revert R. induction ps as [|p ps IH]; intros R H; [done|]. cbn. split_and!.
  - rewrite cmdOps_app, cmdOps_finishes. apply Hr. left.
  - intros o Ho. eapply Hi; [left|done].
  - apply IH; [intros q o Hq; apply Hi; by right|intros q Hq; apply Hr; by right|]. eapply okCmds_mono; [done| |exact H]. set_solver.
Qed.

Lemma okCmds_destroys (m : OperationManager) (ps : list nat) (F : list Z) (R : list nat) :
  (∀ p o, p ∈ ps → heap m !! p = Some o → (o_id o ∈ F ∨ untracked m o) ∧ (p ∈ R ∧ idle o ∨ ended o)) → okCmds m F R (map CDestroy ps).
Proof.
  intros H. induction ps as [|p ps IH]; [done|]. cbn. split; [intros o; apply H; left|]. apply IH. intros q o Hq. apply H. by right.
Qed.

Lemma dormant_idle (o : Op) : dormant o → idle o.
Proof. intros [??]. by split; [|left]. Qed.

(** The teardown of dormant operations, in a manager whose operations are the same. *)
Lemma okCmds_doom (m m' : OperationManager) (ps : list nat) :
  (∀ p o', p ∈ ps → heap m' !! p = Some o' → dormant o' ∧ idOf m p = o_id o') → okCmds m' [] [] (doom m ps).
Proof.
  intros H. unfold doom. apply okCmds_forgets, okCmds_finishes.
  - intros p o Hp Ho. apply dormant_idle. by destruct (H p o Hp Ho).
  - intros p Hp. by rewrite cmdOps_destroys.
  - apply okCmds_destroys. intros p o Hp Ho. destruct (H p o Hp Ho) as [Hd E]. split.
    + destruct (decide (o_id o = 0)) as [Hz|Hz]; [right; by left|left]. rewrite elem_of_app, list_elem_of_filter. left. split; [done|].
      apply list_elem_of_fmap. exists p. auto.
    + left. split; [set_solver|by apply dormant_idle].
Qed.

(** The teardown of operations that have ended. *)
Lemma okCmds_expire (m m' : OperationManager) (ps : list nat) :
  (∀ p o', p ∈ ps → heap m' !! p = Some o' → ended o' ∧ idOf m p = o_id o') →
  okCmds m' [] [] (concat (map (λ p, forgetOpById (idOf m p)) ps) ++ map CDestroy ps).
Proof.
  intros H. apply okCmds_forgets, okCmds_destroys. intros p o Hp Ho. destruct (H p o Hp Ho) as [Hd E]. split; [|by right].
  destruct (decide (o_id o = 0)) as [Hz|Hz]; [right; by left|left]. rewrite elem_of_app, list_elem_of_filter. left. split; [done|].
  apply list_elem_of_fmap. exists p. auto.
Qed.


Lemma known_destroy (m : OperationManager) (p : nat) (o : Op) (f : Fate) q o' :
  heap m !! p = Some o → known (destroy f p m) q o' → known m q o'.
Proof.
  intros Ho. unfold destroy. rewrite Ho. intros [H|[f' H]]; cbn in H.
  - left. rewrite lookup_delete_Some in H. tauto.
  - rewrite lookup_insert_Some in H. destruct H as [[<- [= <- <-]]|[_ H]]; [by left|right; eauto].
Qed.

(** An operation that no table leads to is destroyed. *)
Lemma Global_destroy (m : OperationManager) (cs : gmap nat (list Cmd * CallPc)) (own : nat → Place) (p : nat) (o : Op) (f : Fate) :
  Global m cs own → heap m !! p = Some o → own p ≠ AtKept →
  match f with Ended => ended o | WithWorker => dormant o | Refused => dormant o ∧ o_id o = 0 end → untracked m o ∨ f = WithWorker →
  Global (destroy f p m) cs (moved [p] Nowhere own).
Proof.
  intros [G1 G2 G3 G4 G5 G6 G7 G8 G9 G10 G11] Ho Hk Hf Hu. pose proof (λ q o', known_destroy m p o f q o' Ho) as Hkn.
  assert (p < m_next m)%nat as Hlt.
  { destruct (decide (p < m_next m)%nat); [done|]. destruct (G2 p) as (? & _); [lia|congruence]. }
  unfold destroy in *. rewrite Ho in *. split; cbn.
  - intros q. unfold moved. case_decide as E.
    + apply list_elem_of_singleton in E as ->. by rewrite lookup_delete_eq.
    + rewrite lookup_delete_ne by set_solver. apply G1.
  - intros q Hq. destruct (G2 q Hq) as (H1 & H2 & H3). rewrite lookup_delete_ne, lookup_insert_ne by lia. done.
  - intros q o' f'. rewrite lookup_insert_Some. intros [[<- [= <- <-]]|[Hne H]]; [by rewrite lookup_delete_eq|].
    rewrite lookup_delete_ne by done. by apply G3.
  - done.
  - intros q o' H%Hkn. by eapply G5.
  - intros q q' o1 o2 H1%Hkn H2%Hkn. by eapply G6.
  - intros i todo pc id Hi Hid. destruct (G7 _ _ _ _ Hi Hid) as (? & H2 & ?). split_and!; try done; try lia. intros q o' Hq%Hkn. eauto.
  - intros id q Hb. destruct (G8 id q Hb) as (o' & E & Hz & Hl). exists o'. split_and!; [done|done|]. destruct (decide (q = p)) as [->|Hne].
    + destruct Hl as [Hl|Hl]; [|apply G3 in Hl; destruct Hl; congruence]. replace o' with o in * by congruence. right.
      rewrite lookup_insert_eq. destruct Hu as [[Hu|Hu]| ->]; [congruence|congruence|done].
    + rewrite lookup_delete_ne, lookup_insert_ne by done. done.
  - destruct G9 as [[Hn Hp] H9]. split.
    + split; [done|]. intros q Hq. rewrite moved_out; [by apply Hp|]. intros ->%list_elem_of_singleton. by apply Hk, Hp.
    + intros q o' Hq. rewrite lookup_delete_Some. intros [_ ?]. by eapply H9.
  - done.
  - intros b q Hq. destruct (G11 b q Hq) as [o' H]. exists o'. rewrite lookup_insert_ne; [done|]. intros <-. apply G3 in H. destruct H. congruence.
Qed.

(** One command of the thread at [L], whose other operations are [rest]. *)
Definition executes (m m' : OperationManager) (cs : gmap nat (list Cmd * CallPc)) (own : nat → Place) (L : Place) (todo : list Cmd) (rest : list nat) : Prop :=
  ∃ own', Global m' cs own' ∧ steady (λ _, True) m m' ∧ (∀ l, l ≠ L → l ≠ Nowhere → frame m m' own own' l) ∧
    okCmds m' [] [] todo ∧ placed own' L (cmdOps todo ++ rest) ∧ (∀ p, p ∈ rest → heap m' !! p = heap m !! p) ∧
    workers m' = workers m ∧ ∀ id p, m_byId m' !! id = Some p → m_byId m !! id = Some p.

Lemma okCmds_forgotten (m : OperationManager) (id : Z) (F : list Z) (R : list nat) (l : list Cmd) :
  okCmds m (id :: F) R l → okCmds (setById (delete id (m_byId m)) m) F R l.
Proof.
  revert F R. induction l as [|[id'|id'|p|p] l IH]; intros F R; cbn; [done| |apply IH| |].
  - intros H. apply IH. eapply okCmds_mono; [|done|exact H]. set_solver.
  - intros (?&?&?). split_and!; auto.
  - intros [H1 H2]. split; [|by apply IH]. intros o Ho. destruct (H1 o Ho) as [Ha Hb]. split; [|done]. unfold untracked. cbn.
    rewrite lookup_delete_None. rewrite elem_of_cons in Ha. destruct Ha as [[->|?]|[?|?]]; auto.
Qed.

Lemma finishCardRemoved_ended (o : Op) : idle o → ended (finishCardRemoved o) ∧ idle (finishCardRemoved o).
Proof. intros [Hr [Hf|Hf]]; unfold ended, idle, finishCardRemoved, finish; cbn; rewrite Hf; cbn; (split; [by exists CardRemoved|auto]). Qed.

Lemma okCmds_finished (m : OperationManager) (p : nat) (F : list Z) (R : list nat) (l : list Cmd) :
  (∀ o, heap m !! p = Some o → idle o) → okCmds m F (p :: R) l → okCmds (onOp p finishCardRemoved m) F R l.
Proof.
  intros Hd. assert (Hh : ∀ q o', heap (onOp p finishCardRemoved m) !! q = Some o' → ∃ o, heap m !! q = Some o ∧ (q ≠ p ∧ o' = o ∨ q = p ∧ o' = finishCardRemoved o)).
  { intros q o'. cbn. destruct (decide (q = p)) as [->|]; [rewrite lookup_alter_eq|rewrite lookup_alter_ne by done; eauto].
    destruct (heap m !! p) as [o|]; [|done]. cbn. intros [= <-]. eauto. }
  revert F R. induction l as [|[id'|id'|q|q] l IH]; intros F R; cbn [okCmds]; [done|apply IH|apply IH| |].
  - intros (H1 & H2 & H3). split_and!; [done| |].
    + intros o' (o & Ho & [[_ ->]|[-> ->]])%Hh; [auto|]. by apply finishCardRemoved_ended, H2.
    + apply IH. eapply okCmds_mono; [done| |exact H3]. set_solver.
  - intros [H1 H2]. split; [|by apply IH]. intros o' (o & Ho & [[Hne ->]|[-> ->]])%Hh; destruct (H1 o Ho) as [Ha Hb].
    + split; [done|]. destruct Hb as [[Hin ?]|?]; [left|by right]. split; [set_solver|done].
    + split; [done|]. right. by apply finishCardRemoved_ended, Hd.
Qed.

Lemma okCmds_sub (m m' : OperationManager) (F : list Z) (R : list nat) (l : list Cmd) :
  (∀ q o, heap m' !! q = Some o → heap m !! q = Some o) → m_byId m' = m_byId m → okCmds m F R l → okCmds m' F R l.
Proof.
  intros Hh Hb. revert F R. induction l as [|[id'|id'|q|q] l IH]; intros F R; cbn [okCmds]; [done|apply IH|apply IH| |].
  - intros (H1 & H2 & H3). split_and!; auto.
  - intros [H1 H2]. split; [|by apply IH]. intros o Ho%Hh. unfold untracked. rewrite Hb. by apply H1.
Qed.

Lemma frame_destroy (m : OperationManager) (own : nat → Place) (f : Fate) (p : nat) (l : Place) : own p ≠ l → frame m (destroy f p m) own (moved [p] Nowhere own) l.
Proof.
  intros Hl. assert (Hh : ∀ q, own q = l → heap (destroy f p m) !! q = heap m !! q ∧ q ≠ p).
  { intros q <-. assert (q ≠ p) by congruence. unfold destroy. destruct (heap m !! p); cbn; [rewrite lookup_delete_ne by done|]; done. }
  split.
  - intros q Hq. rewrite moved_out; [done|]. apply Hh in Hq. set_solver.
  - intros q o Hq Ho. destruct (Hh q Hq) as [-> _]. eauto.
  - intros q o Hq. destruct (Hh q Hq) as [-> _]. intros Ho. exists o. split_and!; try done. unfold untracked, destroy. by destruct (heap m !! p).
Qed.

Section Commands.
Context (m : OperationManager) (cs : gmap nat (list Cmd * CallPc)) (own : nat → Place) (L : Place) (todo : list Cmd) (rest : list nat).
Context (HG : Global m cs own) (HL : L ≠ Nowhere) (HK : L ≠ AtKept).

Lemma gone_dead (p : nat) x : gone m !! p = Some x → heap m !! p = None.
Proof. destruct x as [o f]. intros H. by apply (g_gone _ _ _ HG p o f). Qed.

Lemma executes_weak (m' : OperationManager) :
  (∀ p, option_Forall2 evolves (heap m !! p) (heap m' !! p)) → (∀ p, own p ≠ L → heap m' !! p = heap m !! p) →
  gone m' = gone m → m_finished m' = m_finished m → faults m' = faults m → m_counter m' = m_counter m → m_next m' = m_next m →
  workers m' = workers m → m_workers m' = m_workers m → (∀ id p, m_byId m' !! id = Some p → m_byId m !! id = Some p) →
  okCmds m' [] [] todo → placed own L (cmdOps todo ++ rest) → (∀ p, p ∈ rest → heap m' !! p = heap m !! p) →
  executes m m' cs own L todo rest.
Proof.
  intros Hh Hs Eg Ef Efa Ec En Ew Er Hb Ho Hp Hre. exists own. split_and!; try done.
  - eapply (Global_weak m); try done; [lia|intros w; rewrite Ew, En; apply HG|rewrite Er, Ew; apply HG|apply pendingFrom_refl].
  - apply steady_weak; try done; [intros p x Hx; rewrite Eg; split; [done|by eapply gone_dead]|].
    intros w x _ Hx. exists x. rewrite Ew. auto.
  - intros l Hl _. apply frame_weak; [|done]. intros p <-. rewrite Hs by done. apply heap_same.
Qed.

Lemma executes_forgetId (id : Z) :
  placed own L (cmdOps todo ++ rest) → okCmds m [] [] (CForgetId id :: todo) → executes m (exec (CForgetId id) m) cs own L todo rest.
Proof.
  intros Hp Hc. apply executes_weak; try done.
  - intros; apply (heap_evolves m).
  - intros id' p. cbn. rewrite lookup_delete_Some. tauto.
  - by apply okCmds_forgotten.
Qed.

Lemma executes_forgetSender (id : Z) :
  placed own L (cmdOps todo ++ rest) → okCmds m [] [] (CForgetSender id :: todo) → executes m (exec (CForgetSender id) m) cs own L todo rest.
Proof.
  intros Hp Hc. cbn in *. unfold forgetSender. destruct (m_opToSender m !! id) as [sender|].
  - apply executes_weak; try done; [intros; apply (heap_evolves m)|]. eapply (okCmds_frame m _ own own L); [|intros p ?; apply Hp, elem_of_app; by left|done].
    apply frame_weak; [|done]. intros; apply (heap_same m).
  - apply executes_weak; try done. intros; apply (heap_evolves m).
Qed.

Lemma executes_finish (p : nat) :
  placed own L (cmdOps todo ++ rest) → okCmds m [] [] (CFinishRemoved p :: todo) → executes m (exec (CFinishRemoved p) m) cs own L todo rest.
Proof.
  intros [Hn Hp] (Hin & Hd & Hc). assert (own p = L) as Ep by (apply Hp, elem_of_app; by left). apply executes_weak; try done.
  - apply alter_evolves. intros o. apply (finish_evolves CardRemoved (requestCancel o)).
  - intros q Hq. cbn. rewrite lookup_alter_ne; [done|congruence].
  - by apply okCmds_finished.
  - intros q Hq. cbn. rewrite lookup_alter_ne; [done|]. intros <-. apply NoDup_app in Hn as (_ & Hn & _). by eapply Hn.
Qed.

Lemma executes_destroy (p : nat) :
  placed own L (p :: cmdOps todo ++ rest) → okCmds m [] [] (CDestroy p :: todo) → executes m (exec (CDestroy p) m) cs own L todo rest.
Proof.
  intros [[Hnp Hn]%NoDup_cons Hp] [Hc1 Hc2]. assert (own p = L) as Ep by (apply Hp; left).
  destruct (heap m !! p) as [o|] eqn:Ho; [|apply (g_free _ _ _ HG) in Ho; congruence]. destruct (Hc1 o eq_refl) as [Hu He].
  assert (Hfr : ∀ l, l ≠ L → frame m (destroy Ended p m) own (moved [p] Nowhere own) l) by (intros; apply frame_destroy; congruence).
  exists (moved [p] Nowhere own). cbn [exec]. split_and!.
  - eapply Global_destroy; [done|done|congruence| |left].
    + by destruct He as [[?%not_elem_of_nil _]|].
    + by destruct Hu as [?%not_elem_of_nil|].
  - unfold destroy. rewrite Ho. split; cbn.
    + intros q o' Hq Hr. destruct (decide (q = p)) as [->|Hne]; [right|left; exists o'; by rewrite lookup_delete_ne].
      rewrite lookup_delete_eq, lookup_insert_eq. eauto.
    + intros q x Hq. pose proof (gone_dead q x Hq). rewrite lookup_delete_ne, lookup_insert_ne by congruence. done.
    + intros w x _ Hx. exists x. auto.
  - auto.
  - eapply okCmds_sub; [| |exact Hc2]; unfold destroy; rewrite Ho; [|done]. intros q o'. cbn. rewrite lookup_delete_Some. tauto.
  - split; [done|]. intros q Hq. rewrite moved_out; [apply Hp; by right|]. intros ->%list_elem_of_singleton. done.
  - intros q Hq. unfold destroy. rewrite Ho. cbn. rewrite lookup_delete_ne; [done|]. intros <-. apply Hnp, elem_of_app. by right.
  - unfold destroy. by rewrite Ho.
  - unfold destroy. by rewrite Ho.
Qed.

End Commands.

Lemma exec_spec (m : OperationManager) (cs : gmap nat (list Cmd * CallPc)) (own : nat → Place) (L : Place) (c : Cmd) (todo : list Cmd) (rest : list nat) :
  Global m cs own → L ≠ Nowhere → L ≠ AtKept → placed own L (cmdOps (c :: todo) ++ rest) → okCmds m [] [] (c :: todo) →
  executes m (exec c m) cs own L todo rest.
Proof.
  intros HG HL HK Hp Hc. destruct c as [id|id|p|p].
  - by apply executes_forgetId.
  - by apply executes_forgetSender.
  - by apply executes_finish.
  - by apply executes_destroy.
Qed.

Lemma untracked_sub (m m' : OperationManager) (o : Op) :
  (∀ id p, m_byId m' !! id = Some p → m_byId m !! id = Some p) → untracked m o → untracked m' o.
Proof. intros Hb [|Hu]; [by left|right]. destruct (m_byId m' !! o_id o) as [q|] eqn:E; [|done]. apply Hb in E. congruence. Qed.

Lemma forgot_cmd (P : nat → Prop) (m : OperationManager) (p : nat) (c : Cmd) (todo : list Cmd) :
  steady P m (exec c m) → seen m p → (∀ o, heap m !! p = Some o → o_id o ∈ forgets (c :: todo) ∨ untracked m o) →
  ∀ o, heap (exec c m) !! p = Some o → o_id o ∈ forgets todo ∨ untracked (exec c m) o.
Proof.
  intros Hs Hp Hu o Ho. destruct (forgot_steady _ _ P p _ Hs Hp Hu o Ho) as [Hin|?]; [|by right].
  destruct c; try (by left). cbn in Hin. apply elem_of_cons in Hin as [E|?]; [|by left]. right. right. rewrite E. cbn. apply lookup_delete_eq.
Qed.

Lemma Inv_callCmd (cfg : Config) (own : nat → Place) (i : nat) (c : Cmd) (todo : list Cmd) (pc : CallPc) :
  Inv cfg own → calls cfg !! i = Some (c :: todo, pc) →
  ∃ own', Inv (mkConfig (exec c (mgr cfg)) (<[i := (todo, pc)]> (calls cfg))) own'.
Proof.
  intros HI Hi. pose proof (i_global _ _ HI) as HG. destruct (i_call _ _ HI _ _ _ Hi) as [H1 H2 H3 H4].
  destruct (exec_spec _ _ _ (AtCall i) c todo (pcOps pc) HG ltac:(done) ltac:(done) H1 H2) as (own' & HG' & Hs & Hf & Hc & Hp & Hh & Ew & Hb).
  exists own'. eapply (Inv_call cfg own own' i _ todo pc pc _ Nowhere HI Hi); try done.
  - eapply Global_weak; [exact HG'|intros; apply heap_evolves|try done..].
    + intros w. apply HG'.
    + apply HG'.
    + eapply pendingFrom_insert; eauto.
  - split; [done|done| |by rewrite Ew]. destruct pc; cbn in *; try done.
    + rewrite (Hh p) by left. done.
    + rewrite (Hh p) by left. done.
    + rewrite (Hh p) by left. done.
    + by rewrite Ew.
    + destruct H3. split; [by eapply seen_steady|by eapply stoppedOn_steady].
    + destruct H3. split; [by eapply seen_steady|by eapply stoppedOn_steady].
    + destruct H3. split; [by eapply seen_steady|by eapply stoppedOn_steady].
    + destruct H3 as (?&?&Hu). split_and!; [by eapply seen_steady|by eapply stoppedOn_steady|by eapply forgot_cmd].
    + destruct H3 as (?&?&Hu). split_and!; [by eapply seen_steady|by eapply stoppedOn_steady|by eapply forgot_cmd].
  - intros l ? _ ?. by apply Hf.
  - intros w x. rewrite Ew. by left.
Qed.

Lemma Inv_workerCmd (cfg : Config) (own : nat → Place) (w : nat) (x : ReaderWorker) (c : Cmd) (todo : list Cmd) :
  Inv cfg own → workers (mgr cfg) !! w = Some x → w_todo x = c :: todo →
  ∃ own', Inv (mkConfig (onWorker w (goTo todo (w_pc x)) (exec c (mgr cfg))) (calls cfg)) own'.
Proof.
  intros HI Hx Et. pose proof (i_global _ _ HI) as HG. destruct (i_worker _ _ HI _ _ Hx) as [H1 H2 H3 H4 H5 H6 H7]. rewrite Et in *.
  destruct (exec_spec _ _ _ (AtWorker w) c todo (running (w_pc x)) HG ltac:(done) ltac:(done) H3 H4) as (own' & HG' & Hs & Hf & Hc & Hp & Hh & Ew & Hb).
  exists own'. set (m' := exec c (mgr cfg)) in *. set (x' := goTo todo (w_pc x) x).
  assert (Ew' : workers (onWorker w (goTo todo (w_pc x)) m') = <[w := x']> (workers (mgr cfg))).
  { cbn. rewrite Ew. apply map_eq. intros w'. destruct (decide (w' = w)) as [->|].
    - by rewrite lookup_alter_eq, lookup_insert_eq, Hx.
    - by rewrite lookup_alter_ne, lookup_insert_ne. }
  eapply (Inv_worker cfg own own' w x' _ Nowhere HI Ew'); [| | | |by left].
  - eapply Global_weak; [exact HG'|intros; apply (heap_evolves m')|try done..].
    + intros w' Hw'. apply workers_altered_none. by apply HG'.
    + intros r w' Hr. apply workers_altered_some. by eapply g_registry.
    + apply pendingFrom_refl.
  - split; cbn [queue w_todo w_pc goTo x' inFlight abandoned w_stop].
    + eapply (placed_frame _ _ _ _ _ _ (Hf (AtQueue w) ltac:(done) ltac:(done))); done.
    + intros p o' Hq Ho'. destruct (fr_heap _ _ _ _ _ (Hf (AtQueue w) ltac:(done) ltac:(done)) p o') as (o & Ho & Hsa & _); [by apply H1|done|].
      apply (same_dormant o); eauto.
    + done.
    + by eapply okCmds_sub; [| |exact Hc].
    + done.
    + intros p o Hr Ho. cbn in Ho. rewrite (Hh p Hr) in Ho. by eapply H6.
    + intros Ha. destruct (H7 Ha) as [Hst Hu]. split; [done|]. intros p o Hq Ho. cbn in Ho. rewrite (Hh p) in Ho.
      * apply (untracked_sub (mgr cfg)); [done|]. by eapply Hu.
      * destruct (w_pc x); try done; subst; left.
  - destruct Hs as [S1 S2 S3]. split; [done|done|]. intros w' x0 _ Hw'. rewrite Ew'. destruct (decide (w' = w)) as [->|].
    + exists x'. rewrite lookup_insert_eq. split; [done|]. replace x0 with x in * by congruence. auto.
    + exists x0. rewrite lookup_insert_ne by done. auto.
  - intros l ? ? _ ?. destruct (Hf l ltac:(done) ltac:(done)) as [F1 F2 F3]. by split.
Qed.

End Ownership.
