(* ===== verification/SchedulerSafety.v ===== *)
(** * Safety of the operation scheduler

    The steps of [Scheduler.v] keep the invariant of [Ownership.v], so it holds of every
    reachable configuration: the calls, the workers' threads and the reclaiming of a
    worker, interleaved in any order. *)
From S2P Require Import Prelude Vocabulary Scheduler Ownership.
Import Vocabulary Vocabulary.Err Scheduler Ownership.
Local Open Scope Z_scope.

Module SchedulerSafety.


(** ** Steps in two parts *)

Lemma same_trans (o1 o2 o3 : Op) : same o1 o2 → same o2 o3 → same o1 o3.
Proof. unfold same. intros (->&->&->) (->&->&->). done. Qed.

Lemma frame_trans (m m1 m2 : OperationManager) (own own1 own2 : nat → Place) (l : Place) :
  frame m m1 own own1 l → frame m1 m2 own1 own2 l → frame m m2 own own2 l.
Proof.
  intros [A1 A2 A3] [B1 B2 B3]. split.
  - auto.
  - intros p o Hp Ho. destruct (A2 p o Hp Ho) as [o1 Ho1]. eauto.
  - intros p o2 Hp Ho2. destruct (B3 p o2 (A1 p Hp) Ho2) as (o1 & Ho1 & Hs2 & Hu2). destruct (A3 p o1 Hp Ho1) as (o & Ho & Hs1 & Hu1).
    exists o. split_and!; [done|by eapply same_trans|]. intros Hu%Hu1. apply (untracked_id m2 o1); [symmetry; apply Hs1|]. apply Hu2.
    by apply (untracked_id m1 o); [apply Hs1|].
Qed.

Lemma steady_trans (P : nat → Prop) (m m1 m2 : OperationManager) : steady P m m1 → steady P m1 m2 → steady P m m2.
Proof.
  intros [A1 A2 A3] [B1 B2 B3]. split.
  - intros p o Ho Hr. destruct (A1 p o Ho Hr) as [(o1 & Ho1 & Hr1 & Ei1 & Hu1)|(Hn & o1 & Hg)].
    + destruct (B1 p o1 Ho1 Hr1) as [(o2 & Ho2 & Hr2 & Ei2 & Hu2)|?]; [left|by right]. exists o2. split_and!; [done|done|congruence|].
      intros Hu%Hu1. apply (untracked_id m2 o1); [done|]. apply Hu2. by apply (untracked_id m1 o).
    + right. destruct (B2 p _ Hg). eauto.
  - intros p y Hy. destruct (A2 p y Hy) as [Hy1 _]. by apply B2.
  - intros w y Hw Hy. destruct (A3 w y Hw Hy) as (y1 & Hy1 & H1). destruct (B3 w y1 Hw Hy1) as (y2 & Hy2 & H2).
    exists y2. split; [done|]. intros Hs. destruct (H1 Hs) as [Hs1 Hq1]. destruct (H2 Hs1). auto.
Qed.

Lemma steady_refl (P : nat → Prop) (m : OperationManager) (cs : gmap nat (list Cmd * CallPc)) (own : nat → Place) : Global m cs own → steady P m m.
Proof.
  intros HG. apply steady_weak; try done; [intros; apply heap_evolves|intros p [o f] H; split; [done|by apply (g_gone _ _ _ HG p o f)]|].
  intros w x _ Hx. exists x. auto.
Qed.

Lemma frame_refl (m : OperationManager) (own : nat → Place) (l : Place) : frame m m own own l.
Proof. apply frame_weak; [|done]. intros; apply heap_same. Qed.

(** The manager with a new operation, owned by [B]. *)
Lemma Global_new (m : OperationManager) (cs : gmap nat (list Cmd * CallPc)) (own : nat → Place) (B : Place) :
  Global m cs own → B ≠ Nowhere → B ≠ AtKept → Global (snd (newOp m)) cs (moved [m_next m] B own).
Proof.
  intros [G1 G2 G3 G4 G5 G6 G7 G8 G9 G10 G11] HB HB'. destruct (G2 (m_next m) ltac:(lia)) as (Hn & Hg & Hw).
  assert (Hk : ∀ p o, known (snd (newOp m)) p o → known m p o ∨ p = m_next m ∧ o_id o = 0).
  { intros p o [H|H]; cbn in H; [|left; by right]. rewrite lookup_insert_Some in H. destruct H as [[<- <-]|[_ H]]; [by right|left; by left]. }
  assert (Hkn : ∀ o, ¬ known m (m_next m) o) by (intros o [?|[f ?]]; congruence).
  split; cbn.
  - intros p. unfold moved. destruct (decide (p = m_next m)) as [->|Hne].
    + rewrite decide_True by set_solver. rewrite lookup_insert_eq. naive_solver.
    + rewrite decide_False by set_solver. rewrite lookup_insert_ne by done. apply G1.
  - intros p Hp. destruct (G2 p) as (?&?&?); [lia|]. rewrite lookup_insert_ne by lia. done.
  - intros p o f H. destruct (G3 p o f H). rewrite lookup_insert_ne; [done|]. intros <-. congruence.
  - done.
  - intros p o [H|[-> ->]]%Hk; [by eapply G5|lia].
  - intros p q o o' [H1|[-> E1]]%Hk [H2|[-> E2]]%Hk E Hz; [by eapply G6|congruence|congruence|done].
  - intros i todo pc id Hi Hid. destruct (G7 _ _ _ _ Hi Hid) as (Ha & H2 & Hb). split_and!; try done; try lia.
    intros p o [Hq|[-> ->]]%Hk; [eauto|lia].
  - intros id p (o & E & Hz & Hl)%G8. exists o. split_and!; [done|done|]. destruct Hl as [Hl|Hl]; [left|by right].
    rewrite lookup_insert_ne; [done|]. intros <-. congruence.
  - destruct G9 as [[N H9] H9']. assert (Hnk : m_next m ∉ map fst (m_finished m)).
    { intros Hin%H9. assert (own (m_next m) = Nowhere) by by apply G1. congruence. }
    split; [split; [done|]; intros p Hp; rewrite moved_out; [by apply H9|set_solver]|].
    intros p o Hp. rewrite lookup_insert_ne; [by apply H9'|set_solver].
  - done.
  - done.
Qed.

Lemma frame_new (m : OperationManager) (cs : gmap nat (list Cmd * CallPc)) (own : nat → Place) (B l : Place) :
  Global m cs own → l ≠ Nowhere → frame m (snd (newOp m)) own (moved [m_next m] B own) l.
Proof.
  intros HG Hl. destruct (g_next _ _ _ HG (m_next m) ltac:(lia)) as (Hn & _ & _). apply (g_free _ _ _ HG) in Hn.
  assert (Hne : ∀ p, own p = l → p ≠ m_next m) by (intros p ? ->; congruence). split; cbn.
  - intros p Hp. rewrite moved_out; [done|]. apply Hne in Hp. set_solver.
  - intros p o Hp Ho. rewrite lookup_insert_ne by (symmetry; auto). eauto.
  - intros p o Hp. rewrite lookup_insert_ne by (symmetry; auto). intros Ho. exists o. by split_and!.
Qed.

Lemma steady_new (P : nat → Prop) (m : OperationManager) (cs : gmap nat (list Cmd * CallPc)) (own : nat → Place) :
  Global m cs own → steady P m (snd (newOp m)).
Proof.
  intros HG. destruct (g_next _ _ _ HG (m_next m) ltac:(lia)) as (Hn & Hg & _). split; cbn.
  - intros p o Ho Hr. left. exists o. rewrite lookup_insert_ne by congruence. by split_and!.
  - intros p [o f] Hp. split; [done|]. rewrite lookup_insert_ne by congruence. by apply (g_gone _ _ _ HG p o f).
  - intros w x _ Hx. exists x. auto.
Qed.

(** Other call states around the same manager. *)
Lemma Global_calls (m : OperationManager) (cs cs' : gmap nat (list Cmd * CallPc)) (own : nat → Place) :
  Global m cs own → pendingFrom cs cs' → Global m cs' own.
Proof.
  intros HG Hp. eapply (Global_weak m); try done; [intros; apply heap_evolves|intros w; apply HG|apply HG].
Qed.

Section MoreCalls.
Context (m : OperationManager) (cs : gmap nat (list Cmd * CallPc)) (own : nat → Place) (i : nat) (pc : CallPc).
Context (HI : Inv (mkConfig m cs) own) (Hi : cs !! i = Some ([], pc)).

Let HG : Global m cs own := i_global _ _ HI.
Let HC : CallOk m own i [] pc := i_call _ _ HI _ _ _ Hi.

Lemma Inv_fault (p : nat) (pc' : CallPc) :
  (∃ o, gone m !! p = Some (o, Ended)) → pendingId pc' = None → CallOk (addFault false p m) own i [] pc' →
  Inv (mkConfig (addFault false p m) (<[i := ([], pc')]> cs)) own.
Proof.
  intros [o Ho] Hp HCo. assert (heap m !! p = None) as E by by apply (g_gone _ _ _ HG p o Ended).
  replace (addFault false p m) with (cancelAt false p m) in * by (unfold cancelAt; by rewrite E).
  apply (Inv_cancel (mkConfig m cs) own i [] pc HI Hi); eauto.
Qed.

Lemma Inv_counter (reader : Z) (caller : string) :
  pc = PId reader caller → m_counter m + 1 < 2 ^ 64 →
  Inv (mkConfig (setCounter (u64 (m_counter m + 1)) m) (<[i := ([], PWorker reader caller (u64 (m_counter m + 1)))]> cs)) own.
Proof.
  intros -> Hlt. pose proof (g_counter _ _ _ HG) as Hc0. unfold u64. rewrite wrap_small by lia.
  eapply (Inv_call (mkConfig m cs) own own i [] [] _ _ _ Nowhere HI Hi); try done.
  - destruct HG as [G1 G2 G3 G4 G5 G6 G7 G8 G9 G10 G11]. split; try done; cbn; [lia| |].
    + intros p o H. destruct (G5 p o H). lia.
    + intros j todo pc' id. rewrite lookup_insert_Some. intros [[<- [= <- <-]]|[Hne Hj]].
      * intros [= <-]. split_and!; [lia|lia| |].
        -- intros p o H. destruct (G5 p o H). lia.
        -- intros j todo' pc'. rewrite lookup_insert_Some. intros [[<- _]|[_ Hj]]; [done|]. intros Hid.
           destruct (G7 _ _ _ _ Hj Hid) as (? & _). lia.
      * intros Hid. destruct (G7 _ _ _ _ Hj Hid) as (H1 & H2 & H3). split_and!; [lia|lia|done|].
        intros j' todo' pc''. rewrite lookup_insert_Some. intros [[<- [= <- <-]]|[_ Hj']]; [|by eapply H3]. cbn. intros [= <-]. lia.
  - by apply CallOk_idle.
  - apply steady_weak; try done; [intros; apply (heap_evolves m)| |intros w x _ Hx; exists x; auto].
    intros p [o f] H. split; [done|by apply (g_gone _ _ _ HG p o f)].
  - intros l _ _ _. apply frame_weak; [|done]. intros; apply (heap_same m).
  - by left.
Qed.

Lemma Inv_workerFor (reader : Z) (pc' : CallPc) :
  pcOps pc' = [] → (∀ m', pcOk m' [] pc') → pendingId pc' = None ∨ pendingId pc' = pendingId pc →
  callWorker pc' = Some (fst (workerFor reader m)) →
  Inv (mkConfig (snd (workerFor reader m)) (<[i := ([], pc')]> cs)) own.
Proof.
  intros Ho Hpc Hp. unfold workerFor. destruct (m_workers m !! reader) as [w|] eqn:E; cbn; intros Hw.
  - apply (Inv_call_same (mkConfig m cs) own i [] pc HI Hi); [done|]. apply CallOk_idle; [done|done|]. rewrite Hw. intros ? [= <-]. by eapply (g_registry _ _ _ HG).
  - destruct (g_next _ _ _ HG (m_next m) ltac:(lia)) as (Hn & _ & Hnw). apply (Inv_call_weak (mkConfig m cs) own i [] pc HI Hi); try done; cbn.
    + intros; apply (heap_same m).
    + apply Nat.le_succ_diag_r.
    + intros w Hlt. rewrite lookup_insert_ne by lia. by apply HG; lia.
    + intros r w. rewrite lookup_insert_Some. intros [[_ <-]|[_ H]]; [rewrite lookup_insert_eq; by eexists|].
      destruct (g_registry _ _ _ HG r w H) as [x Hx]. apply lookup_insert_is_Some'. right. by exists x.
    + intros w x _ Hx. exists x. rewrite lookup_insert_ne by congruence. auto.
    + intros w x. rewrite lookup_insert_Some. intros [[<- <-]|[_ H]]; [right|by left].
      split; cbn; try done; (split; [constructor|by intros ? ?%not_elem_of_nil]) || by intros ?? ?%not_elem_of_nil.
    + apply CallOk_idle; [done|done|]. rewrite Hw. intros ? [= <-]. cbn. rewrite lookup_insert_eq. by eexists.
Qed.

Lemma Inv_build (id : Z) (w : nat) (pc' : CallPc) :
  pendingId pc = Some id → callWorker pc = Some w → pendingId pc' = Some id → callWorker pc' = Some w → pcOps pc' = [m_next m] →
  (∀ m' o, heap m' !! m_next m = Some o → dormant o → o_id o = 0 → pcOk m' [] pc') →
  ∃ own', Inv (mkConfig (snd (newOp m)) (<[i := ([], pc')]> cs)) own'.
Proof.
  intros Hp Hw Hp' Hw' Ho Hpc. exists (moved [m_next m] (AtCall i) own).
  eapply (Inv_call (mkConfig m cs) own _ i [] [] pc pc' _ Nowhere HI Hi); try done.
  - eapply Global_calls; [by apply Global_new|]. eapply pendingFrom_insert; [done|]. right. congruence.
  - split; cbn.
    + rewrite Ho. split; [apply NoDup_singleton|]. intros p Hin. by apply moved_in.
    + done.
    + eapply (Hpc _ (mkOp 0 false None false)); [|done..]. cbn. apply lookup_insert_eq.
    + rewrite Hw'. intros ? [= <-]. by apply (c_worker _ _ _ _ _ HC).
  - by eapply steady_new.
  - intros l ? _ ?. by eapply frame_new.
  - by left.
Qed.

Lemma Inv_track (id : Z) (w p : nat) :
  pc = PTrack id w p →
  Inv (mkConfig (setById (match m_byId m !! id with Some _ => m_byId m | None => <[id := p]> (m_byId m) end) (onOp p (setId id) m))
                (<[i := ([], PPush id w p)]> cs)) own.
Proof.
  intros ->. destruct HC as [[_ Hown] _ (o & Ho & Hd & Hz) Hw]. cbn in Hown. specialize (Hown p ltac:(left)).
  destruct (g_pending _ _ _ HG _ _ _ id Hi eq_refl) as (Hid & Hfresh & Huni).
  assert (m_byId m !! id = None) as Eb.
  { destruct (m_byId m !! id) as [q|] eqn:E; [|done]. destruct (g_byId _ _ _ HG id q E) as (o' & E' & _ & Hl).
    destruct (Hfresh q o'); [|done]. destruct Hl; [by left|right; eauto]. }
  rewrite Eb. set (m' := setById _ _).
  assert (Hh : ∀ q o', heap m' !! q = Some o' → q ≠ p ∧ heap m !! q = Some o' ∨ q = p ∧ o' = setId id o).
  { intros q o'. cbn. destruct (decide (q = p)) as [->|]; [rewrite lookup_alter_eq|rewrite lookup_alter_ne by done; by left].
    rewrite Ho. cbn. intros [= <-]. by right. }
  assert (Hk : ∀ q o', known m' q o' → known m q o' ∨ q = p ∧ o' = setId id o).
  { intros q o' [[[_ H]|[-> ->]]%Hh|H]; [left; by left|by right|left; by right]. }
  assert (Hkp : ∀ o', ¬ (∃ f, gone m !! p = Some (o', f))).
  { intros o' [f H]. destruct (g_gone _ _ _ HG p o' f H). congruence. }
  assert (Hu : ∀ q o', q ≠ p → heap m !! q = Some o' → untracked m o' → untracked m' o').
  { intros q o' Hne Hq [|Hu]; [by left|right]. cbn. rewrite lookup_insert_ne; [done|]. intros E. apply (Hfresh q o'); [by left|done]. }
  eapply (Inv_call (mkConfig m cs) own own i [] [] _ _ m' Nowhere HI Hi); try done.
  - destruct HG as [G1 G2 G3 G4 G5 G6 G7 G8 G9 G10 G11]. split; try done.
    + intros q. rewrite G1. cbn. destruct (decide (q = p)) as [->|]; [|by rewrite lookup_alter_ne]. rewrite lookup_alter_eq. rewrite Ho. done.
    + intros q Hq. destruct (G2 q Hq) as (H1 & H2 & H3). split_and!; [|done|done]. cbn. rewrite lookup_alter_ne; [done|]. intros <-. congruence.
    + intros q o' f H. destruct (G3 q o' f H) as [H1 H2]. split; [|done]. cbn. rewrite lookup_alter_ne; [done|]. intros <-. congruence.
    + intros q o' [H|[-> ->]]%Hk; [by eapply G5|]. cbn. lia.
    + intros q q' o1 o2 [H1|[-> ->]]%Hk [H2|[-> ->]]%Hk E Hnz; [by eapply G6| | |done]; cbn in *.
      * by destruct (Hfresh q o1).
      * by destruct (Hfresh q' o2).
    + intros j todo pc' id' Hj Hid'. rewrite lookup_insert_Some in Hj. destruct Hj as [[<- [= <- <-]]|[Hne Hj]]; [done|].
      destruct (G7 _ _ _ _ Hj Hid') as (H1 & H2 & H3). split_and!; [lia|cbn; lia| |].
      * intros q o' [H|[-> ->]]%Hk; [by eapply H2|]. cbn. intros ->. apply Hne. by eapply (Huni j).
      * intros j' todo' pc''. rewrite lookup_insert_Some. intros [[<- [= <- <-]]|[_ Hj']]; [done|]. by eapply H3.
    + intros id' q. cbn. rewrite lookup_insert_Some. intros [[<- <-]|[Hne H]].
      * exists (setId id o). split_and!; [done|lia|]. left. rewrite lookup_alter_eq. by rewrite Ho.
      * destruct (G8 id' q H) as (o' & E & Hnz & Hl). exists o'. split_and!; [done|done|]. destruct Hl as [Hl|Hl]; [left|by right].
        rewrite lookup_alter_ne; [done|]. intros <-. congruence.
    + destruct G9 as [H1 H2]. split; [done|]. intros q o' Hq [[_ H]|[-> ->]]%Hh; [by eapply H2|]. destruct H1 as [_ H1]. specialize (H1 p Hq). congruence.
  - split; cbn; try done; [split; [apply NoDup_singleton|by intros q ->%list_elem_of_singleton]|].
    exists (setId id o). split; [rewrite lookup_alter_eq; by rewrite Ho|done].
  - split.
    + cbn [mgr]. intros q o' Hq Hr. left. destruct (decide (q = p)) as [->|Hne]; [replace o' with o in * by congruence; destruct Hd; congruence|].
      exists o'. split_and!; [|done|done|by eauto]. cbn. by rewrite lookup_alter_ne.
    + intros q [o' f] H. split; [done|]. destruct (g_gone _ _ _ HG q o' f H) as [H1 _]. cbn. rewrite lookup_alter_ne; [done|]. intros <-.
      by eapply Hkp; eexists.
    + intros w' x _ Hx. exists x. auto.
  - intros l Hl _ _. split; [done| |].
    + intros q o' Hq H. cbn. rewrite lookup_alter_ne by congruence. by exists o'.
    + intros q o' Hq [[Hne H]|[-> _]]%Hh; [|congruence]. exists o'. split_and!; [done|by split_and!|by eauto].
  - by left.
Qed.

End MoreCalls.


(** A worker with another queue. *)
Lemma WorkerOk_requeue (m m' : OperationManager) (own own' : nat → Place) (w : nat) (x : ReaderWorker) (q : list nat) :
  WorkerOk m own w x → frame m m' own own' (AtWorker w) → placed own' (AtQueue w) q →
  (∀ p o, p ∈ q → heap m' !! p = Some o → dormant o) → WorkerOk m' own' w (setQueue q x).
Proof.
  intros [H1 H2 H3 H4 H5 H6 H7] Hw Hq Hd. split; cbn; try done.
  - by eapply placed_frame.
  - eapply okCmds_frame; [done| |done]. intros p Hp. apply H3, elem_of_app. by left.
  - intros p o' Hp Ho'. destruct (fr_heap _ _ _ _ _ Hw p o') as (o & Ho & Hs & _); [apply H3, elem_of_app; by right|done|].
    destruct Hs as (_ & -> & ->). eauto.
  - intros Ha. destruct (H7 Ha) as [Hst Hu]. split; [done|]. intros p o' Hp Ho'.
    destruct (fr_heap _ _ _ _ _ Hw p o') as (o & Ho & Hs & Hk); [|done|].
    + apply H3, elem_of_app. right. destruct (w_pc x); try done; subst; left.
    + apply (untracked_id m' o); [apply Hs|]. eauto.
Qed.

Lemma onWorker_lookup (m : OperationManager) (w : nat) (f : ReaderWorker → ReaderWorker) (x : ReaderWorker) :
  workers m !! w = Some x → workers (onWorker w f m) = <[w := f x]> (workers m).
Proof.
  intros Hx. cbn. apply map_eq. intros w'. destruct (decide (w' = w)) as [->|].
  - by rewrite lookup_alter_eq, lookup_insert_eq, Hx.
  - by rewrite lookup_alter_ne, lookup_insert_ne.
Qed.

(** Only the record of a worker changes. *)
Lemma Global_onWorker (m : OperationManager) (cs : gmap nat (list Cmd * CallPc)) (own : nat → Place) (w : nat) (f : ReaderWorker → ReaderWorker) :
  Global m cs own → Global (onWorker w f m) cs own.
Proof.
  intros HG. eapply (Global_weak m); try done.
  - intros; apply (heap_evolves m).
  - intros w' Hw'. apply workers_altered_none. by apply HG.
  - intros r w' Hr. apply workers_altered_some. by eapply g_registry.
  - apply pendingFrom_refl.
Qed.

Lemma frame_onWorker (m : OperationManager) (own : nat → Place) (w : nat) (f : ReaderWorker → ReaderWorker) (l : Place) :
  frame m (onWorker w f m) own own l.
Proof. apply frame_weak; [|done]. intros; apply (heap_same m). Qed.

Lemma steady_onWorker (m : OperationManager) (cs : gmap nat (list Cmd * CallPc)) (own : nat → Place) (w : nat) (f : ReaderWorker → ReaderWorker) :
  Global m cs own → calm f → steady (λ _, True) m (onWorker w f m).
Proof.
  intros HG Hf. apply steady_weak; try done; [intros; apply (heap_evolves m)| |].
  - intros p [o f'] H. split; [done|by apply (g_gone _ _ _ HG p o f')].
  - intros w' x _ Hx. by eapply (steady_altered (λ _, True)).
Qed.

Lemma calm_queue (q : list nat) : calm (setQueue q).
Proof. intros x Hs. done. Qed.

Lemma calm_push (p : nat) : calm (λ x, setQueue (queue x ++ [p]) x).
Proof. intros x Hs. done. Qed.

Lemma pending_done (m : OperationManager) (cs : gmap nat (list Cmd * CallPc)) (own : nat → Place) (i : nat) (t : list Cmd * CallPc) (todo' : list Cmd) (pc' : CallPc) :
  cs !! i = Some t → pendingId pc' = None → Global m cs own → Global m (<[i := (todo', pc')]> cs) own.
Proof. destruct t. intros Hi Hp HG'. eapply Global_calls; [done|]. eapply pendingFrom_insert; [done|by left]. Qed.

Section Queues.
Context (m : OperationManager) (cs : gmap nat (list Cmd * CallPc)) (own : nat → Place) (i : nat) (pc : CallPc).
Context (HI : Inv (mkConfig m cs) own) (Hi : cs !! i = Some ([], pc)).

Let HG : Global m cs own := i_global _ _ HI.
Let HC : CallOk m own i [] pc := i_call _ _ HI _ _ _ Hi.

(** An operation [p] of the call, or a new one, goes to the queue of [w]. *)
Lemma Inv_push (m1 : OperationManager) (own1 : nat → Place) (w p : nat) (x : ReaderWorker) (pc' : CallPc) :
  Global m1 cs own1 → steady (λ _, True) m m1 → (∀ l, l ≠ AtCall i → l ≠ Nowhere → frame m m1 own own1 l) → workers m1 = workers m →
  workers m !! w = Some x → own1 p = AtCall i → (∃ o, heap m1 !! p = Some o ∧ dormant o) →
  pcOps pc' = [] → pendingId pc' = None → callWorker pc' = None → pcOk (onWorker w (λ x, setQueue (queue x ++ [p]) x) m1) [] pc' →
  Inv (mkConfig (onWorker w (λ x, setQueue (queue x ++ [p]) x) m1) (<[i := ([], pc')]> cs)) (moved [p] (AtQueue w) own1).
Proof.
  intros HG1 Hs1 Hf1 Ew Hx Hp (o & Ho & Hd) Hpo Hpe Hcw Hpc. pose proof (i_worker _ _ HI _ _ Hx) as HW. cbn in HW.
  assert (Hps : ∀ q, q ∈ [p] → own1 q = AtCall i) by by intros q ->%list_elem_of_singleton.
  eapply (Inv_call (mkConfig m cs) own _ i [] [] pc pc' _ (AtQueue w) HI Hi).
  - eapply pending_done; [done|done|]. eapply Global_moved; [by apply Global_onWorker|done..].
  - apply CallOk_idle; [done|done|]. by rewrite Hcw.
  - eapply steady_trans; [done|]. eapply steady_onWorker; [done|apply calm_push].
  - intros l Hl Hq Hn. eapply frame_trans; [by apply Hf1|]. eapply frame_moved; [done|done|apply frame_onWorker].
  - done.
  - intros w' x'. rewrite (onWorker_lookup _ _ _ x) by by rewrite Ew. rewrite Ew, lookup_insert_Some. intros [[<- <-]|[Hne Hx']]; [right|left; naive_solver].
    assert (Hfq : frame m m1 own own1 (AtQueue w)) by by apply Hf1.
    apply (WorkerOk_requeue m _ own); [done| | |].
    + eapply frame_trans; [by apply Hf1|]. eapply frame_moved; [done|done|apply frame_onWorker].
    + apply placed_moved with (A := AtCall i); [|by eapply placed_frame; [|apply HW]|done]. split; [apply NoDup_singleton|done].
    + intros q o' [Hq|Hq%list_elem_of_singleton]%elem_of_app Ho'; cbn in Ho'.
      * destruct (fr_heap _ _ _ _ _ Hfq q o') as (o1 & Ho1 & Hsa & _); [by apply HW|done|]. eapply same_dormant; [done|]. by eapply (w_dormant _ _ _ _ HW).
      * subst. congruence.
Qed.

Lemma Inv_take (w : nat) (x : ReaderWorker) :
  pc = RTake w → workers m !! w = Some x →
  ∃ own', Inv (match inFlight x with
               | Some p => mkConfig (cancelAt false p (onWorker w (setQueue []) m)) (<[i := (doom m (queue x), RGrace w p)]> cs)
               | None => mkConfig (onWorker w (setQueue []) m) (<[i := (doom m (queue x), Returned None)]> cs)
               end) own'.
Proof.
  intros -> Hx. pose proof (i_worker _ _ HI _ _ Hx) as HW. cbn in HW. exists (moved (queue x) (AtCall i) own).
  set (m1 := onWorker w (setQueue []) m).
  assert (Hstop : w_stop x = true) by (destruct (c_pc _ _ _ _ _ HC) as (x' & Hx' & Hs); congruence).
  assert (Hown : ∀ p, p ∈ queue x → own p = AtQueue w) by apply HW.
  assert (HG1 : Global m1 cs (moved (queue x) (AtCall i) own)) by (eapply Global_moved; [by apply Global_onWorker|done..]).
  assert (Hs1 : steady (λ _, True) m m1) by (eapply steady_onWorker; [done|apply calm_queue]).
  assert (Hf1 : ∀ l, l ≠ AtQueue w → frame m m1 own (moved (queue x) (AtCall i) own) l).
  { intros l Hl. eapply frame_moved; [done|done|apply frame_onWorker]. }
  assert (Hpl : placed (moved (queue x) (AtCall i) own) (AtCall i) (cmdOps (doom m (queue x)) ++ [])).
  { rewrite cmdOps_doom, app_nil_r. split; [apply HW|]. intros p Hp. by apply moved_in. }
  assert (Hx1 : workers m1 = <[w := setQueue [] x]> (workers m)) by by apply onWorker_lookup.
  assert (HWs : ∀ m2, heap m2 = heap m1 ∨ (∃ p, heap m2 = heap (onOp p requestCancel m1)) → m_byId m2 = m_byId m1 → workers m2 = workers m1 →
    ∀ w' x', workers m2 !! w' = Some x' →
     workers m !! w' = Some x' ∧ AtQueue w ≠ AtQueue w' ∧ AtQueue w ≠ AtWorker w' ∨ WorkerOk m2 (moved (queue x) (AtCall i) own) w' x').
  { intros m2 Hh Hb Ew w' x'. rewrite Ew, Hx1, lookup_insert_Some. intros [[<- <-]|[Hne Hx']]; [right|left; naive_solver].
    apply (WorkerOk_requeue m _ own); [done| |split; [constructor|by intros ? ?%not_elem_of_nil]|by intros ?? ?%not_elem_of_nil].
    eapply frame_trans; [by apply Hf1|]. apply frame_weak; [|by rewrite Hb]. intros p _. destruct Hh as [->|[q ->]]; [apply heap_same|].
    apply alter_same. intros _. apply cancel_same. }
  destruct (inFlight x) as [p|] eqn:Ep.
  - assert (Hr : p ∈ running (w_pc x)).
    { rewrite (w_flight _ _ _ _ HW) in Ep. destruct (w_pc x); try done; injection Ep as ->; left. }
    assert (Hpw : own p = AtWorker w) by (apply (w_own _ _ _ _ HW), elem_of_app; by right).
    destruct (heap m !! p) as [o|] eqn:Ho; [|apply (g_free _ _ _ HG) in Ho; congruence].
    assert (cancelAt false p m1 = onOp p requestCancel m1) as -> by (unfold cancelAt; cbn; by rewrite Ho).
    assert (Hcan : ∀ q, option_Forall2 same (heap m1 !! q) (heap (onOp p requestCancel m1) !! q)).
    { intros q. apply alter_same. intros _. apply cancel_same. }
    assert (Hs2 : steady (λ _, True) m (onOp p requestCancel m1)).
    { eapply steady_trans; [done|]. apply steady_weak; try done.
      - apply alter_evolves, cancel_evolves.
      - intros q [o' f'] H. split; [done|by apply (g_gone _ _ _ HG1 q o' f')].
      - intros w' x' _ H. exists x'. auto. }
    eapply (Inv_call (mkConfig m cs) own _ i [] _ _ _ _ (AtQueue w) HI Hi); [|split|..].
    + eapply pending_done; [done|done|]. eapply (Global_weak m1); try done; [apply alter_evolves, cancel_evolves|apply HG1|apply HG1|apply pendingFrom_refl].
    + done.
    + apply okCmds_doom. intros q o' Hq Ho'. specialize (Hcan q). rewrite Ho' in Hcan.
      change (heap m1 !! q) with (heap m !! q) in Hcan. destruct (heap m !! q) as [o1|] eqn:E1; inversion Hcan as [? ? Hsa|]; subst.
      split; [eapply same_dormant; [done|]; by eapply (w_dormant _ _ _ _ HW)|]. unfold idOf. rewrite E1. symmetry. apply Hsa.
    + split.
      * left. exists (requestCancel o). cbn. rewrite lookup_alter_eq, Ho. split; [done|]. cbn. by destruct (w_ran _ _ _ _ HW p o Hr Ho).
      * exists (setQueue [] x). cbn [workers onOp setHeap]. change (workers m1 !! w = Some (setQueue [] x) ∧ w_stop x = true ∧ ∀ q, q ∈ running (w_pc x) → q = p).
        rewrite Hx1, lookup_insert_eq. split_and!; try done. intros q Hq. destruct (w_pc x); cbn in *; set_solver.
    + intros w' [= <-]. change (is_Some (workers m1 !! w)). rewrite Hx1, lookup_insert_eq. by eexists.
    + done.
    + intros l Hl Hq Hn. eapply frame_trans; [by apply Hf1|]. apply frame_weak; [|done]. intros q _. apply Hcan.
    + done.
    + apply HWs; eauto.
  - eapply (Inv_call (mkConfig m cs) own _ i [] _ _ _ _ (AtQueue w) HI Hi); [|split|..]; try done.
    + by eapply pending_done.
    + apply okCmds_doom. intros q o' Hq Ho'. change (heap m !! q = Some o') in Ho'. split; [by eapply (w_dormant _ _ _ _ HW)|]. unfold idOf. by rewrite Ho'.
    + intros l Hl Hq Hn. by apply Hf1.
    + apply HWs; eauto.
Qed.

End Queues.


Lemma agedOut_split (t : Z) (l : list (nat * Z)) : map fst l = fst (agedOut t l) ++ map fst (snd (agedOut t l)).
Proof.
  induction l as [|[p at_] l IH]; [done|]. cbn. destruct (kGrace <=? t - at_); [|done]. destruct (agedOut t l) as [out rest] eqn:E. cbn in *. by rewrite IH.
Qed.

Lemma working_running (pc : WorkerPc) (p : nat) :
  match pc with WRun q | WClear q | WCheck q => p = q | _ => False end → p ∈ running pc.
Proof. destruct pc; cbn; try done; intros ->; left. Qed.

Section LastCalls.
Context (m : OperationManager) (cs : gmap nat (list Cmd * CallPc)) (own : nat → Place) (i : nat) (pc : CallPc).
Context (HI : Inv (mkConfig m cs) own) (Hi : cs !! i = Some ([], pc)).

Let HG : Global m cs own := i_global _ _ HI.
Let HC : CallOk m own i [] pc := i_call _ _ HI _ _ _ Hi.

Lemma Inv_detach (w p : nat) :
  pc = RDetach w p → Inv (mkConfig (onWorker w setAbandoned m) (<[i := ([], RPark w)]> cs)) own.
Proof.
  intros E. pose proof (c_pc _ _ _ _ _ HC) as Hpc. rewrite E in Hpc. destruct Hpc as (Hseen & (x & Hx & Hst & Hq) & Hu).
  apply (Inv_call_onWorker (mkConfig m cs) own i [] pc HI Hi); [by intros y Hy| |by left|].
  - cbn [mgr]. intros x' Hx'. replace x' with x in * by congruence. destruct (i_worker _ _ HI _ _ Hx) as [H1 H2 H3 H4 H5 H6 H7]. cbn in *.
    assert (Hf : ∀ l, frame m (onWorker w setAbandoned m) own own l) by (intros; apply frame_onWorker). split; try done.
    + eapply okCmds_frame; [apply (Hf (AtWorker w))| |done]. intros q ?. apply H3, elem_of_app. by left.
    + intros _. split; [done|]. intros q o Hr Ho. cbn in *. apply working_running, Hq in Hr as ->.
      destruct (Hu o Ho) as [?%not_elem_of_nil|?]; done.
  - apply CallOk_idle; [done|done|]. intros w' [= <-]. apply workers_altered_some. cbn. by exists x.
Qed.

Lemma Inv_refused (w : nat) :
  ∃ own', Inv (mkConfig (destroy Refused (m_next m) (snd (newOp m))) (<[i := ([], Returned None)]> cs)) own'.
Proof.
  set (p := m_next m). set (m1 := snd (newOp m)). set (own1 := moved [p] (AtCall i) own).
  assert (Ho : heap m1 !! p = Some (mkOp 0 false None false)) by (cbn; apply lookup_insert_eq).
  assert (Hp : own1 p = AtCall i) by by apply moved_in, list_elem_of_singleton.
  assert (HG1 : Global m1 cs own1) by by apply Global_new.
  exists (moved [p] Nowhere own1). eapply (Inv_call (mkConfig m cs) own _ i [] [] pc _ _ Nowhere HI Hi); try done.
  - eapply pending_done; [done|done|]. eapply Global_destroy; [done|done|congruence|done|left; by left].
  - by apply CallOk_idle.
  - apply (steady_trans _ m m1); [by eapply steady_new|]. unfold destroy. rewrite Ho. split.
    + intros q o Hq Hr. left. exists o. assert (q ≠ p) by (intros ->; rewrite Ho in Hq; by injection Hq as <-).
      split_and!; try done. cbn -[m1]. by rewrite lookup_delete_ne.
    + intros q [o f] Hq. destruct (g_gone _ _ _ HG1 q o f Hq). cbn -[m1]. rewrite lookup_insert_ne, lookup_delete_ne by congruence. done.
    + intros w' x _ Hx. exists x. auto.
  - intros l Hl _ Hn. apply (frame_trans m m1 _ own own1); [by eapply frame_new|]. apply frame_destroy. congruence.
  - intros w' x. unfold destroy. rewrite Ho. cbn. by left.
Qed.

Lemma Inv_sweep (t : Z) :
  ∃ own', Inv (mkConfig (setFinishedList (snd (agedOut t (m_finished m))) m)
    (<[i := (concat (map (λ p, forgetOpById (idOf m p)) (fst (agedOut t (m_finished m)))) ++ map CDestroy (fst (agedOut t (m_finished m))), Returned None)]> cs)) own'.
Proof.
  destruct (agedOut t (m_finished m)) as [out rest] eqn:E. pose proof (agedOut_split t (m_finished m)) as Hs. rewrite E in Hs. cbn in *.
  exists (moved out (AtCall i) own). destruct (g_kept _ _ _ HG) as [[Hnd Hown] Hk]. rewrite Hs in Hnd, Hown, Hk.
  apply NoDup_app in Hnd as (N1 & Ndis & N2).
  assert (Hout : ∀ p, p ∈ out → own p = AtKept) by (intros; apply Hown, elem_of_app; by left).
  set (m' := setFinishedList rest m).
  assert (Hf : ∀ l, l ≠ AtKept → frame m m' own (moved out (AtCall i) own) l).
  { intros l Hl. eapply frame_moved; [done|done|]. apply frame_weak; [|done]. intros; apply (heap_same m). }
  eapply (Inv_call (mkConfig m cs) own _ i [] _ pc _ _ AtKept HI Hi); try done.
  - eapply pending_done; [done|done|]. destruct HG as [G1 G2 G3 G4 G5 G6 G7 G8 G9 G10 G11]. split; try done.
    + intros p. unfold moved. case_decide as Hin; [|apply G1]. split; [done|]. intros Hn%G1. rewrite (Hout p Hin) in Hn. done.
    + cbn. split.
      * split; [done|]. intros p Hp. rewrite moved_out; [apply Hown, elem_of_app; by right|]. intros Hin. by eapply Ndis.
      * intros p o Hp. apply Hk, elem_of_app. by right.
  - split; cbn; try done.
    + rewrite app_nil_r, cmdOps_app, cmdOps_forgets, cmdOps_destroys. split; [done|]. intros p Hp. by apply moved_in.
    + apply okCmds_expire. intros p o Hp Ho. cbn in Ho. destruct (Hk p o) as [[c Hc] Hr]; [apply elem_of_app; by left|done|].
      split; [exists c; split; [done|congruence]|]. unfold idOf. by rewrite Ho.
  - apply steady_weak; try done; [intros; apply (heap_evolves m)| |intros w x _ Hx; exists x; auto].
    intros p [o f] H. split; [done|by apply (g_gone _ _ _ HG p o f)].
  - intros l _ Hl _. by apply Hf.
  - intros w x Hx. by left.
Qed.

(** Where the manager changes nothing the invariant speaks of. *)
Lemma Inv_tables (m' : OperationManager) (pc' : CallPc) (todo' : list Cmd) :
  heap m' = heap m → gone m' = gone m → m_finished m' = m_finished m → faults m' = faults m → m_counter m' = m_counter m → m_next m' = m_next m →
  m_byId m' = m_byId m → workers m' = workers m → m_workers m' ⊆ m_workers m → pendingId pc' = None ∨ pendingId pc' = pendingId pc →
  CallOk m' own i todo' pc' → Inv (mkConfig m' (<[i := (todo', pc')]> cs)) own.
Proof.
  intros Eh Eg Ef Efa Ec En Eb Ew Er Hp HCo. apply (Inv_call_weak (mkConfig m cs) own i [] pc HI Hi); try done; cbn [mgr].
  - intros p. rewrite Eh. apply heap_same.
  - rewrite En. apply Nat.le_refl.
  - intros w Hw. rewrite Ew. apply HG. by rewrite <- En.
  - by rewrite Eb.
  - intros r w Hr. rewrite Ew. eapply (g_registry _ _ _ HG r). by eapply lookup_weaken.
  - intros w x _ Hx. exists x. rewrite Ew. auto.
  - rewrite Ew. by left.
Qed.

End LastCalls.


Section CallSteps.
Context (m : OperationManager) (cs : gmap nat (list Cmd * CallPc)) (own : nat → Place) (i : nat) (pc : CallPc).
Context (HI : Inv (mkConfig m cs) own) (Hi : cs !! i = Some ([], pc)).

Let HG : Global m cs own := i_global _ _ HI.
Let HC : CallOk m own i [] pc := i_call _ _ HI _ _ _ Hi.

Lemma Inv_same (pc' : CallPc) :
  pcOps pc' = [] → pcOk m [] pc' → (∀ w, callWorker pc' = Some w → is_Some (workers m !! w)) →
  pendingId pc' = None ∨ pendingId pc' = pendingId pc → Inv (mkConfig m (<[i := ([], pc')]> cs)) own.
Proof. intros. apply (Inv_call_same (mkConfig m cs) own i [] pc HI Hi); [done|]. by apply CallOk_idle. Qed.

Lemma Inv_cancelId (id : Z) (pc' : CallPc) :
  pcOps pc' = [] → (∀ m', pcOk m' [] pc') → callWorker pc' = None → pendingId pc' = None → Inv (mkConfig (cancel id m) (<[i := ([], pc')]> cs)) own.
Proof.
  intros Ho Hpc Hw Hp. unfold cancel. destruct (m_byId m !! id) as [p|] eqn:E.
  - apply (Inv_cancel (mkConfig m cs) own i [] pc HI Hi); [|by left|apply CallOk_idle; [done|done|by rewrite Hw]].
    destruct (g_byId _ _ _ HG id p E) as (o & _ & _ & [Hl|Hl]); [left; by exists o|right; by exists o].
  - apply Inv_same; [done|done|by rewrite Hw|by left].
Qed.

End CallSteps.

Lemma publish_inv (m : OperationManager) (cs : gmap nat (list Cmd * CallPc)) (own : nat → Place) (i : nat) (pc : CallPc) m' todo' pc' :
  Inv (mkConfig m cs) own → cs !! i = Some ([], pc) → m_counter m + 1 < 2 ^ 64 → publish pc m = Some (m', todo', pc') → ∃ own', Inv (mkConfig m' (<[i := (todo', pc')]> cs)) own'.
Proof.
  intros HI Hi Hlt. pose proof (i_call _ _ HI _ _ _ Hi : CallOk m own i [] pc) as [H1 _ H3 H4]. destruct pc as [r c|r c id|c id w|c id w|c id w p|id w p|id w p| | | | | | | | | | | | | | | | | |] eqn:Epc; try done; cbn.
  - intros [= <- <- <-]. exists own. by eapply (Inv_counter m cs own i _ HI Hi).
  - pose proof (Inv_workerFor m cs own i _ HI Hi r (PCheck c id (fst (workerFor r m)))) as H. destruct (workerFor r m) as [w m1]. intros [= <- <- <-].
    exists own. apply H; try done. by right.
  - destruct (workers m !! w) as [x|] eqn:Hx; [|done]. intros [= <- <- <-]. exists own.
    destruct (kMaxQueuedOpsPerReader <=? zlen (queue x)); apply (Inv_same m cs own i _ HI Hi); try done; [by left|by right].
  - intros [= <- <- <-]. destruct (decide (c = ""%string)).
    + eapply (Inv_build m cs own i _ HI Hi id w); try done. cbn. eauto.
    + eapply (Inv_build m cs own i _ HI Hi id w); try done. cbn. eauto.
  - intros [= <- <- <-]. exists own. apply (Inv_tables m cs own i _ HI Hi); try done; by right.
  - intros [= <- <- <-]. exists own. by eapply (Inv_track m cs own i _ HI Hi).
  - intros [= <- <- <-]. cbn in H1, H3, H4. destruct (H4 w eq_refl) as [x Hx]. eexists.
    eapply (Inv_push m cs own i _ HI Hi m own w p x); try done;
      [apply (i_global _ _ HI)|eapply steady_refl, (i_global _ _ HI)|intros; apply frame_refl|apply H1; left].
Qed.

Lemma enqueue_inv (m : OperationManager) (cs : gmap nat (list Cmd * CallPc)) (own : nat → Place) (i : nat) (pc : CallPc) m' todo' pc' :
  Inv (mkConfig m cs) own → cs !! i = Some ([], pc) → enqueueOnReaderWorker pc m = Some (m', todo', pc') → ∃ own', Inv (mkConfig m' (<[i := (todo', pc')]> cs)) own'.
Proof.
  intros HI Hi. pose proof (i_global _ _ HI) as HG. cbn in HG. pose proof (i_call _ _ HI _ _ _ Hi : CallOk m own i [] pc) as HC.
  destruct pc as [| | | | | | |r|w| | | | | | | | | | | | | | | |] eqn:Epc; try done; cbn [enqueueOnReaderWorker].
  - pose proof (Inv_workerFor m cs own i _ HI Hi r (EPush (fst (workerFor r m)))) as H. destruct (workerFor r m) as [w m1]. intros [= <- <- <-].
    exists own. apply H; try done. by left.
  - pose proof HC as [_ _ _ H4]. destruct (H4 w eq_refl) as [x Hx]. unfold newOp at 1. change (workers (snd (newOp m)) !! w = Some x) in Hx.
    set (m1 := snd (newOp m)) in *. change (setNext _ _) with m1. rewrite Hx. destruct (kMaxQueuedOpsPerReader <=? zlen (queue x)); intros [= <- <- <-].
    + by eapply (Inv_refused m cs own i _ HI Hi).
    + eexists. eapply (Inv_push m cs own i _ HI Hi m1 (moved [m_next m] (AtCall i) own) w _ x); try done.
      * by apply Global_new.
      * by eapply steady_new.
      * intros l _ Hl. by eapply frame_new.
      * by apply moved_in, list_elem_of_singleton.
      * exists (mkOp 0 false None false). split; [apply lookup_insert_eq|done].
Qed.

Lemma disconnect_inv (m : OperationManager) (cs : gmap nat (list Cmd * CallPc)) (own : nat → Place) (i : nat) (pc : CallPc) m' todo' pc' :
  Inv (mkConfig m cs) own → cs !! i = Some ([], pc) → dispatchClientDisconnect pc m = Some (m', todo', pc') → ∃ own', Inv (mkConfig m' (<[i := (todo', pc')]> cs)) own'.
Proof.
  intros HI Hi H. exists own. destruct pc as [| | | | | | | | | | | | | | | | | | |client|ids| | | |]; try done; cbn in H.
  - destruct (m_senderToOps m !! client); injection H as <- <- <-.
    + apply (Inv_tables m cs own i _ HI Hi); try done; [by left|]. by apply CallOk_idle.
    + apply (Inv_same m cs own i _ HI Hi); try done. by left.
  - destruct ids as [|id ids]; injection H as <- <- <-; [apply (Inv_same m cs own i _ HI Hi); try done; by left|]. by apply (Inv_cancelId m cs own i _ HI Hi).
Qed.

Lemma remove_inv (m : OperationManager) (cs : gmap nat (list Cmd * CallPc)) (own : nat → Place) (i : nat) (pc : CallPc) (e : Env) m' todo' pc' :
  Inv (mkConfig m cs) own → cs !! i = Some ([], pc) → abandonOrJoin e pc m = Some (m', todo', pc') → ∃ own', Inv (mkConfig m' (<[i := (todo', pc')]> cs)) own'.
Proof.
  intros HI Hi H. pose proof (i_call _ _ HI _ _ _ Hi : CallOk m own i [] pc) as [_ _ H3 H4].
  destruct pc as [| | | | | | | | | |w|w|w p|w p|w p|w p|w p|w| | | | | | |] eqn:Epc; try done; cbn in H.
  - injection H as <- <- <-. exists own. destruct (H4 w eq_refl) as [x Hx].
    apply (Inv_flags (mkConfig m cs) own i [] _ HI Hi); try done; cbn.
    exists (requestStop x). rewrite lookup_alter_eq, Hx. done.
  - destruct (workers m !! w) as [x|] eqn:Hx; [|done]. destruct (Inv_take m cs own i _ HI Hi w x eq_refl Hx) as [own' HI'].
    exists own'. destruct (inFlight x); injection H as <- <- <-; done.
  - destruct (workers m !! w) as [x|] eqn:Hx; [|done]. injection H as <- <- <-. exists own.
    destruct (choice e || bool_decide (inFlight x = None)); apply (Inv_same m cs own i _ HI Hi); try done; by left.
  - destruct (workers m !! w) as [x|] eqn:Hx; [|done]. injection H as <- <- <-. exists own.
    case_decide; apply (Inv_same m cs own i _ HI Hi); try done; by left.
  - exists own. destruct H3 as [Hs Hst]. destruct (heap m !! p) as [o|] eqn:Ho; injection H as <- <- <-.
    + apply (Inv_call_same (mkConfig m cs) own i [] _ HI Hi); [by left|]. split; cbn; try done.
      * unfold forgetOpById. destruct (o_id o =? 0); (split; [constructor|by intros ? ?%not_elem_of_nil]).
      * unfold forgetOpById. by destruct (o_id o =? 0).
      * split_and!; try done. intros o' Ho'. replace o' with o by congruence. unfold forgetOpById.
        destruct (Z.eqb_spec (o_id o) 0); [right; by left|left]. cbn. left.
    + assert (Hg : ∃ o, gone m !! p = Some (o, Ended)) by (destruct Hs as [(o & ? & _)|]; [congruence|done]).
      apply (Inv_fault m cs own i _ HI Hi); try done. apply CallOk_idle; [done| |done]. split_and!; [by right|done|]. intros o' Ho'. cbn in Ho'. congruence.
  - exists own. destruct H3 as (Hs & Hst & Hu). injection H as <- <- <-. destruct (heap m !! p) as [o|] eqn:Ho.
    + apply (Inv_same m cs own i _ HI Hi); try done; [|by left]. split_and!; [done|done|]. intros o' Ho'. apply Hu. congruence.
    + assert (Hg : ∃ o, gone m !! p = Some (o, Ended)) by (destruct Hs as [(o & ? & _)|]; [congruence|done]).
      apply (Inv_fault m cs own i _ HI Hi); try done. apply CallOk_idle; [done| |done]. split_and!; [by right|done|]. intros o' Ho'. cbn in Ho'. congruence.
  - injection H as <- <- <-. exists own. by eapply (Inv_detach m cs own i _ HI Hi).
  - injection H as <- <- <-. exists own. apply (Inv_tables m cs own i _ HI Hi); try done; [by left|]. by apply CallOk_idle.
Qed.

Lemma callStep_inv (m : OperationManager) (cs : gmap nat (list Cmd * CallPc)) (own : nat → Place) (i : nat) (pc : CallPc) (e : Env) m' todo' pc' :
  Inv (mkConfig m cs) own → cs !! i = Some ([], pc) → m_counter m + 1 < 2 ^ 64 → callStep e pc m = Some (m', todo', pc') →
  ∃ own', Inv (mkConfig m' (<[i := (todo', pc')]> cs)) own'.
Proof.
  intros HI Hi Hlt H. pose proof (i_global _ _ HI : Global m cs own) as HG. destruct pc; cbn [callStep] in H;
    try (by eapply publish_inv); try (by eapply enqueue_inv); try (by eapply disconnect_inv); try (by eapply remove_inv); try done.
  - injection H as H. exists own. unfold removeReader in H. destruct (m_workers m !! reader) as [w|] eqn:E; injection H as <- <- <-.
    + apply (Inv_tables m cs own i _ HI Hi); try done; [apply delete_subseteq|by left|]. apply CallOk_idle; [done|done|]. intros w' [= <-]. exact (g_registry _ _ _ HG reader w E).
    + apply (Inv_same m cs own i _ HI Hi); try done. by left.
  - injection H as <- <- <-. exists own. by apply (Inv_cancelId m cs own i _ HI Hi).
  - injection H as <- <- <-. exists own. unfold invalidateReaderSession. destruct (m_workers m !! reader) as [w|].
    + by apply (Inv_flags (mkConfig m cs) own i [] _ HI Hi).
    + apply (Inv_same m cs own i _ HI Hi); try done. by left.
  - injection H as <- <- <-. exists own. unfold setReaderHold. destruct (m_workers m !! reader) as [w|].
    + by apply (Inv_flags (mkConfig m cs) own i [] _ HI Hi).
    + apply (Inv_same m cs own i _ HI Hi); try done. by left.
  - injection H as H. unfold sweepFinished in H. pose proof (Inv_sweep m cs own i _ HI Hi (now e)) as [own' HI'].
    destruct (agedOut (now e) (m_finished m)) as [out rest]. injection H as <- <- <-. by exists own'.
Qed.

(** ** The worker's steps *)

Section WorkerSteps.
Context (m : OperationManager) (cs : gmap nat (list Cmd * CallPc)) (own : nat → Place) (w : nat) (x : ReaderWorker).
Context (HI : Inv (mkConfig m cs) own) (Hx : workers m !! w = Some x) (Ht : w_todo x = []).

Let HG : Global m cs own := i_global _ _ HI.
Let HW : WorkerOk m own w x := i_worker _ _ HI _ _ Hx.

(** A worker that is to stop takes up nothing new. *)
Definition calmAt (x' : ReaderWorker) : Prop :=
  w_stop x = true → w_stop x' = true ∧ ∀ q, q ∈ running (w_pc x') → q ∈ running (w_pc x).

Lemma calm_workers (x' : ReaderWorker) (m' : OperationManager) :
  calmAt x' → workers m' = <[w := x']> (workers m) →
  ∀ w1 x1, True → workers m !! w1 = Some x1 → ∃ x2, workers m' !! w1 = Some x2 ∧
    (w_stop x1 = true → w_stop x2 = true ∧ ∀ q, q ∈ running (w_pc x2) → q ∈ running (w_pc x1)).
Proof using Hx.
  intros Hc Ew w1 x1 _ Hx1. rewrite Ew. destruct (decide (w1 = w)) as [->|].
  - exists x'. rewrite lookup_insert_eq. split; [done|]. by replace x1 with x by congruence.
  - exists x1. rewrite lookup_insert_ne by done. auto.
Qed.

Lemma registered_workers (x' : ReaderWorker) (m' : OperationManager) :
  workers m' = <[w := x']> (workers m) → m_next m' = m_next m → m_workers m' = m_workers m →
  (∀ w1, (m_next m' ≤ w1)%nat → workers m' !! w1 = None) ∧ (∀ r w1, m_workers m' !! r = Some w1 → is_Some (workers m' !! w1)).
Proof using HI Hx.
  intros Ew En Er. rewrite Ew, En, Er. split.
  - intros w1 Hw1. destruct (g_next _ _ _ HG w1 Hw1) as (_ & _ & Hn). rewrite lookup_insert_ne; [done|]. intros ->. congruence.
  - intros r w1 Hr. apply lookup_insert_is_Some'. right. by eapply g_registry.
Qed.

(** The worker's own operations may evolve, its record changes. *)
Lemma Inv_evolve (m' : OperationManager) (x' : ReaderWorker) :
  workers m' = <[w := x']> (workers m) → (∀ p, option_Forall2 evolves (heap m !! p) (heap m' !! p)) →
  (∀ p, own p ≠ AtWorker w → heap m' !! p = heap m !! p) → gone m' = gone m → m_finished m' = m_finished m → faults m' = faults m →
  m_counter m' = m_counter m → m_next m' = m_next m → m_byId m' = m_byId m → m_workers m' = m_workers m →
  calmAt x' → WorkerOk m' own w x' → Inv (mkConfig m' cs) own.
Proof using HI Hx.
  intros Ew He Hh Eg Ef Efa Ec En Eb Er Hc HWo. destruct (registered_workers x' m' Ew En Er) as [Hn Hr].
  eapply (Inv_worker (mkConfig m cs) own own w x' m' Nowhere HI Ew); [|done| | |by left].
  - eapply (Global_weak m); try done; [lia|by rewrite Eb|apply pendingFrom_refl].
  - apply steady_weak; [done| |by rewrite Eb|by eapply calm_workers].
    intros p [o f] H. cbn in H. rewrite Eg. split; [done|by apply (g_gone _ _ _ HG p o f)].
  - cbn. intros l _ Hl _ _. apply frame_weak; [|by rewrite Eb]. intros p Hp. rewrite Hh by congruence. apply heap_same.
Qed.

Lemma Inv_own (f : ReaderWorker → ReaderWorker) : calmAt (f x) → WorkerOk (onWorker w f m) own w (f x) → Inv (mkConfig (onWorker w f m) cs) own.
Proof using HI Hx. intros Hc HWo. apply (Inv_evolve _ (f x)); try done; [by apply onWorker_lookup|]. intros; apply (heap_evolves m). Qed.

Lemma WorkerOk_here (f : ReaderWorker → ReaderWorker) : WorkerOk (onWorker w f m) own w x.
Proof using HI Hx. eapply WorkerOk_frame; [apply frame_onWorker|apply frame_onWorker|exact HW]. Qed.

Lemma Inv_workerFlags (f : ReaderWorker → ReaderWorker) :
  queue (f x) = queue x → inFlight (f x) = inFlight x → abandoned (f x) = abandoned x → w_todo (f x) = w_todo x → w_pc (f x) = w_pc x →
  w_stop (f x) = w_stop x → Inv (mkConfig (onWorker w f m) cs) own.
Proof using HI Hx.
  intros E1 E2 E3 E4 E5 E6. apply Inv_own; [unfold calmAt; by rewrite E5, E6|].
  apply (WorkerOk_flags _ _ _ x); try done; [apply WorkerOk_here|by rewrite E6].
Qed.

Definition working (pc : WorkerPc) : option nat := match pc with WRun p | WClear p | WCheck p => Some p | _ => None end.

(** The thread goes on with the operation it has. *)
Lemma Inv_goTo (pc' : WorkerPc) (f : ReaderWorker → ReaderWorker) :
  f x = setInFlight (inFlightOf pc') (goTo [] pc' x) → running pc' = running (w_pc x) → (∀ p, working pc' = Some p → working (w_pc x) = Some p) →
  (∀ p o, p ∈ running pc' → heap m !! p = Some o → match pc' with WClear _ | WCheck _ | WKeep _ => is_Some (o_finished o) | _ => True end) →
  Inv (mkConfig (onWorker w f m) cs) own.
Proof using HI Hx Ht.
  intros Ex Er Hwk Hr. apply Inv_own; rewrite Ex; [unfold calmAt; cbn; by rewrite Er|].
  destruct (WorkerOk_here f) as [H1 H2 H3 H4 H5 H6 H7]. rewrite Ht in *. split; cbn -[onWorker] in *; try done.
  - by rewrite Er.
  - intros p o Hp Ho. split; [|by eapply Hr]. rewrite Er in Hp. by eapply (H6 p o).
  - intros Ha. destruct (H7 Ha) as [? Hu]. split; [done|]. intros p o Hp. apply Hu.
    assert (working pc' = Some p) as E%Hwk by (destruct pc'; try done; cbn; congruence). destruct (w_pc x); try done; cbn in E; congruence.
Qed.

Lemma Inv_finish (p : nat) (c : ErrorCode) : w_pc x = WRun p → Inv (mkConfig (onOp p (finish c) m) cs) own.
Proof using HI Hx Ht.
  intros Ep. destruct HW as [H1 H2 H3 H4 H5 H6 H7]. rewrite Ht, Ep in *. cbn in H3.
  assert (Hp : own p = AtWorker w) by (apply H3; left).
  assert (Hh : ∀ q, own q ≠ AtWorker w → heap (onOp p (finish c) m) !! q = heap m !! q).
  { intros q Hq. cbn. rewrite lookup_alter_ne; [done|congruence]. }
  apply (Inv_evolve _ x); try done.
  - cbn. by rewrite insert_id.
  - apply alter_evolves, finish_evolves.
  - split; rewrite ?Ht, ?Ep; try done.
    + intros q o Hq Ho. rewrite Hh in Ho; [by eapply H2|]. destruct H1 as [_ H1]. by rewrite (H1 q Hq).
    + intros q o ->%list_elem_of_singleton. cbn. rewrite lookup_alter_eq. destruct (heap m !! p) as [o1|] eqn:E1; [|done]. cbn. intros [= <-].
      split; [|done]. destruct (H6 p o1) as [? _]; [left|done|done].
    + intros Ha. destruct (H7 Ha) as [Hst Hu]. split; [done|]. intros q o ->. cbn. rewrite lookup_alter_eq.
      destruct (heap m !! p) as [o1|] eqn:E1; [|done]. cbn. intros [= <-]. by apply (Hu p o1).
Qed.

(** The front of the queue goes to the thread. *)
Lemma Inv_pop (p : nat) (rest : list nat) :
  w_pc x = WWait → queue x = p :: rest → w_stop x = false →
  Inv (mkConfig (onOp p setRan (onWorker w (goTo [] (WRun p) ∘ setInFlight (Some p) ∘ setQueue rest) m)) cs) (moved [p] (AtWorker w) own).
Proof using HI Hx Ht.
  intros Ep Eq Hst. destruct HW as [[Hn Hq] H2 _ _ _ _ H7]. rewrite Eq in *. apply NoDup_cons in Hn as [Hnp Hn].
  assert (Hp : own p = AtQueue w) by (apply Hq; left).
  assert (Hps : ∀ q, q ∈ [p] → own q = AtQueue w) by by intros q ->%list_elem_of_singleton.
  set (f := goTo [] (WRun p) ∘ setInFlight (Some p) ∘ setQueue rest). set (m' := onOp p setRan (onWorker w f m)).
  assert (Ew : workers m' = <[w := f x]> (workers m)) by by apply (onWorker_lookup m).
  assert (He : ∀ q, option_Forall2 evolves (heap m !! q) (heap m' !! q)) by (intros q; apply (alter_evolves (onWorker w f m)); by intros []).
  destruct (registered_workers (f x) m' Ew eq_refl eq_refl) as [Hnw Hr].
  eapply (Inv_worker (mkConfig m cs) own _ w (f x) m' Nowhere HI Ew); [| | | |by left].
  - eapply Global_moved; [|done..]. eapply (Global_weak m); try done. apply pendingFrom_refl.
  - split; cbn [f compose goTo setInFlight setQueue queue w_todo w_pc inFlight abandoned w_stop]; try done.
    + split; [done|]. intros q Hin. rewrite moved_out; [apply Hq; by right|]. by intros ->%list_elem_of_singleton.
    + intros q o Hin. cbn. rewrite lookup_alter_ne by (intros ->; done). apply H2. by right.
    + split; [apply NoDup_singleton|]. intros q Hin. by apply moved_in.
    + intros q o ->%list_elem_of_singleton. cbn. rewrite lookup_alter_eq. destruct (heap m !! p); [|done]. cbn. by intros [= <-].
    + intros Ha. destruct (H7 Ha). congruence.
  - apply steady_weak; [done| |done|by eapply calm_workers; [unfold calmAt; rewrite Hst|]].
    intros q [o f'] H. split; [done|by apply (g_gone _ _ _ HG q o f')].
  - intros l Hl _ _ _. eapply frame_moved; [done|done|]. apply frame_weak; [|done]. intros q E. apply (alter_same (onWorker w f m)). intros ->. congruence.
Qed.

(** What is left of the queue is torn down by the thread as it ends. *)
Lemma Inv_drain : w_pc x = WDrain → Inv (mkConfig (onWorker w (goTo (doom m (queue x)) WExited ∘ setQueue []) m) cs) (moved (queue x) (AtWorker w) own).
Proof using HI Hx Ht.
  intros Ep. destruct HW as [[Hn Hq] H2 H3 _ _ _ H7]. set (f := goTo (doom m (queue x)) WExited ∘ setQueue []).
  assert (Ew : workers (onWorker w f m) = <[w := f x]> (workers m)) by by apply onWorker_lookup.
  eapply (Inv_worker (mkConfig m cs) own _ w (f x) _ Nowhere HI Ew); [| | | |by left].
  - eapply Global_moved; [by apply Global_onWorker|done..].
  - split; cbn [f compose goTo setQueue queue w_todo w_pc inFlight abandoned w_stop]; try done.
    + split; [constructor|by intros ? ?%not_elem_of_nil].
    + by intros ?? ?%not_elem_of_nil.
    + rewrite cmdOps_doom. cbn. rewrite app_nil_r. split; [done|]. intros q Hin. by apply moved_in.
    + apply okCmds_doom. intros q o Hin Ho. cbn in Ho. split; [by eapply H2|]. unfold idOf. by rewrite Ho.
    + rewrite (w_flight _ _ _ _ HW), Ep. done.
    + by intros ?? ?%not_elem_of_nil.
    + intros Ha. destruct (H7 Ha). split; [done|]. done.
  - apply steady_weak; [intros; apply (heap_evolves m)| |done|].
    + intros q [o f'] H. split; [done|by apply (g_gone _ _ _ HG q o f')].
    + eapply calm_workers; [|done]. intros Hs. split; [done|]. by intros ? ?%not_elem_of_nil.
  - intros l Hl _ _ _. eapply frame_moved; [done|done|]. apply frame_onWorker.
Qed.

(** A finished operation of an abandoned worker is destroyed by its thread. *)
Lemma Inv_abandon (p : nat) : w_pc x = WCheck p → abandoned x = true → Inv (mkConfig (onWorker w (goTo [CDestroy p] WExited) m) cs) own.
Proof using HI Hx Ht.
  intros Ep Ha. apply Inv_own; [intros Hs; split; [done|by intros ? ?%not_elem_of_nil]|].
  destruct (WorkerOk_here (goTo [CDestroy p] WExited)) as [H1 H2 H3 H4 H5 H6 H7]. rewrite Ht, Ep in *. split; cbn -[onWorker] in *; try done.
  - split; [|done]. intros o Ho. destruct (H6 p o ltac:(left) Ho) as [Hr [c Hc]]. destruct (H7 Ha) as [_ Hu]. split.
    + right. by apply (Hu p).
    + right. exists c. split; [done|congruence].
  - by intros ?? ?%not_elem_of_nil.
  - intros _. by destruct (H7 Ha).
Qed.

Lemma Inv_keep (p : nat) (t : Z) :
  w_pc x = WKeep p → Inv (mkConfig (setFinishedList (m_finished m ++ [(p, t)]) (onWorker w (goTo [] WWait) m)) cs) (moved [p] AtKept own).
Proof using HI Hx Ht.
  intros Ep. destruct HW as [H1 H2 H3 H4 H5 H6 H7]. rewrite Ht, Ep in *. cbn in H3, H5.
  assert (Hp : own p = AtWorker w) by (apply H3; left).
  assert (Hps : ∀ q, q ∈ [p] → own q = AtWorker w) by by intros q ->%list_elem_of_singleton.
  set (f := goTo [] WWait). set (m' := setFinishedList _ _).
  assert (Ew : workers m' = <[w := f x]> (workers m)) by by apply (onWorker_lookup m).
  eapply (Inv_worker (mkConfig m cs) own _ w (f x) m' AtKept HI Ew); [| | | |by right].
  - pose proof (Global_onWorker m cs own w f HG) as [G1 G2 G3 G4 G5 G6 G7 G8 [Gk Gf] G10 G11]. split; try done.
    + intros q. unfold moved. case_decide as E; [|apply G1]. split; [done|]. intros Hn%G1. rewrite (Hps q E) in Hn. done.
    + cbn. rewrite map_app. cbn. split.
      * apply (placed_moved own [p] _ (AtWorker w)); [split; [apply NoDup_singleton|done]|done|done].
      * intros q o [Hq|Hq%list_elem_of_singleton]%elem_of_app Ho; [by eapply Gf|subst]. destruct (H6 p o) as [? ?]; [left|done|done].
  - assert (Hf : ∀ l, l ≠ AtWorker w → frame m m' own (moved [p] AtKept own) l).
    { intros l Hl. eapply frame_moved; [done|done|]. apply frame_weak; [|done]. intros; apply (heap_same m). }
    split; cbn [f goTo queue w_todo w_pc inFlight abandoned w_stop]; try done.
    + by eapply placed_frame; [apply Hf|].
    + split; [constructor|by intros ? ?%not_elem_of_nil].
    + by intros ?? ?%not_elem_of_nil.
  - apply steady_weak; [intros; apply (heap_evolves m)| |done|].
    + intros q [o f'] H. split; [done|by apply (g_gone _ _ _ HG q o f')].
    + eapply calm_workers; [|done]. intros Hs. split; [done|]. by intros ? ?%not_elem_of_nil.
  - intros l _ Hl _ _. eapply frame_moved; [done|done|]. apply frame_weak; [|done]. intros; apply (heap_same m).
Qed.

End WorkerSteps.

Lemma worker_inv (m : OperationManager) (cs : gmap nat (list Cmd * CallPc)) (own : nat → Place) (w : nat) (x : ReaderWorker) (e : Env) m' :
  Inv (mkConfig m cs) own → workers m !! w = Some x → w_todo x = [] → workerLoop e w m = Some m' → ∃ own', Inv (mkConfig m' cs) own'.
Proof.
  intros HI Hx Ht H. unfold workerLoop in H. rewrite Hx in H. pose proof (i_worker _ _ HI _ _ Hx : WorkerOk m own w x) as HW.
  pose proof (w_flight _ _ _ _ HW) as Hfl. destruct (w_pc x) as [|p|p|p|p| |] eqn:Ep; cbn in Hfl.
  - injection H as <-. destruct (w_stop x) eqn:Es.
    { exists own. apply (Inv_goTo m cs own w x HI Hx Ht WDrain); rewrite ?Ep; try done. by destruct x; cbn in *; subst. }
    destruct (pendingInvalidate x); [exists own; by apply (Inv_workerFlags m cs own w x HI Hx)|].
    destruct (holdDirty x); [exists own; by apply (Inv_workerFlags m cs own w x HI Hx)|].
    destruct (queue x) as [|p rest] eqn:Eq; [exists own; by apply (Inv_workerFlags m cs own w x HI Hx)|].
    eexists. by apply (Inv_pop m cs own w x HI Hx Ht).
  - destruct (choice e); [|injection H as <-; exists own; by eapply (Inv_finish m cs own w x HI Hx Ht)].
    destruct (heap m !! p) as [o|] eqn:Eo; [cbn in H|done]. destruct (o_finished o) as [c|] eqn:Ec; [|done]. injection H as <-. exists own.
    apply (Inv_goTo m cs own w x HI Hx Ht (WClear p)); rewrite ?Ep; try done; [by destruct x; cbn in *; subst|].
    intros q o' ->%list_elem_of_singleton Ho'. replace o' with o by congruence. by rewrite Ec.
  - injection H as <-. exists own. apply (Inv_goTo m cs own w x HI Hx Ht (WCheck p)); rewrite ?Ep; try done.
    intros q o Hq Ho. pose proof (w_ran _ _ _ _ HW q o) as H. rewrite Ep in H. by apply H.
  - injection H as <-. exists own. destruct (abandoned x) eqn:Ea; [by apply (Inv_abandon m cs own w x HI Hx Ht)|].
    apply (Inv_goTo m cs own w x HI Hx Ht (WKeep p)); rewrite ?Ep; try done; [by destruct x; cbn in *; subst|].
    intros q o Hq Ho. pose proof (w_ran _ _ _ _ HW q o) as H. rewrite Ep in H. by apply H.
  - injection H as <-. eexists. by apply (Inv_keep m cs own w x HI Hx Ht).
  - injection H as <-. eexists. by apply (Inv_drain m cs own w x HI Hx Ht).
  - done.
Qed.

(** ** Reclaiming a worker *)

(** An operation that never ran is destroyed. *)
Lemma steady_destroy (m : OperationManager) (cs : gmap nat (list Cmd * CallPc)) (own : nat → Place) (f : Fate) (p : nat) (o : Op) :
  Global m cs own → heap m !! p = Some o → o_ran o = false → steady (λ _, True) m (destroy f p m).
Proof.
  intros HG Ho Hr. unfold destroy. rewrite Ho. split; cbn.
  - intros q o' Hq Hr'. left. exists o'. assert (q ≠ p) by congruence. by rewrite lookup_delete_ne.
  - intros q [o' f'] Hq. destruct (g_gone _ _ _ HG q o' f' Hq). rewrite lookup_insert_ne, lookup_delete_ne by congruence. done.
  - intros w x _ Hx. exists x. auto.
Qed.

(** A queue is destroyed with its worker. *)
Lemma destroy_queue (cs : gmap nat (list Cmd * CallPc)) (w : nat) (ps : list nat) (m : OperationManager) (own : nat → Place) :
  Global m cs own → placed own (AtQueue w) ps → (∀ p o, p ∈ ps → heap m !! p = Some o → dormant o) →
  let m' := foldl (λ m p, destroy WithWorker p m) m ps in
  ∃ own', Global m' cs own' ∧ steady (λ _, True) m m' ∧ (∀ l, l ≠ AtQueue w → l ≠ Nowhere → frame m m' own own' l) ∧ workers m' = workers m.
Proof.
  revert m own. induction ps as [|p ps IH]; cbn; intros m own HG [Hn Hp] Hd.
  { exists own. split_and!; [done|by eapply steady_refl|intros; apply frame_refl|done]. }
  apply NoDup_cons in Hn as [Hnp Hn]. assert (own p = AtQueue w) as Ep by (apply Hp; left).
  destruct (heap m !! p) as [o|] eqn:Ho; [|apply (g_free _ _ _ HG) in Ho; congruence].
  assert (Hdo : dormant o) by (eapply Hd; [left|done]).
  destruct (IH (destroy WithWorker p m) (moved [p] Nowhere own)) as (own' & HG' & Hs & Hf & Ew).
  - eapply Global_destroy; [done|done|congruence|done|by right].
  - split; [done|]. intros q Hq. rewrite moved_out; [apply Hp; by right|]. by intros ->%list_elem_of_singleton.
  - intros q o' Hq. unfold destroy. rewrite Ho. cbn. rewrite lookup_delete_Some. intros [_ ?]. eapply Hd; [by right|done].
  - exists own'. split_and!; [done| | |by rewrite Ew; unfold destroy; rewrite Ho].
    + eapply steady_trans; [|done]. eapply steady_destroy; [done|done|apply Hdo].
    + intros l Hl Hl'. eapply frame_trans; [|by apply Hf]. apply frame_destroy. congruence.
Qed.

Lemma reclaim_inv (m : OperationManager) (cs : gmap nat (list Cmd * CallPc)) (own : nat → Place) (w : nat) (x : ReaderWorker) :
  Inv (mkConfig m cs) own → workers m !! w = Some x → ¬ referenced w (mkConfig m cs) → ∃ own', Inv (mkConfig (reclaim w m) cs) own'.
Proof.
  intros [HG HC HW] Hx Hu. unfold reclaim. rewrite Hx. set (m1 := setWorkers (delete w (workers m)) m). cbn in HG, HC, HW.
  assert (HG1 : Global m1 cs own).
  { eapply (Global_weak m); try done; [intros; apply (heap_evolves m)| | |apply pendingFrom_refl].
    - intros w' Hw'. cbn. apply lookup_delete_None. right. by apply HG.
    - intros r w' Hr. cbn. rewrite lookup_delete_ne; [by eapply (g_registry _ _ _ HG)|]. intros <-. apply Hu. left. by exists r. }
  destruct (destroy_queue cs w (queue x) m1 own) as (own' & HG' & Hs & Hf & Ew); [done|by apply HW|by apply (w_dormant _ _ _ _ (HW w x Hx))|].
  assert (Hf1 : ∀ l, frame m m1 own own l) by (intros; apply frame_weak; [intros; apply (heap_same m)|done]).
  assert (Hf' : ∀ l, l ≠ AtQueue w → l ≠ Nowhere → frame m (foldl (λ m p, destroy WithWorker p m) m1 (queue x)) own own' l).
  { intros l Hl Hl'. eapply frame_trans; [by apply Hf1|by apply Hf]. }
  exists own'. split; cbn; [done| |].
  - intros j todo pc Hj. eapply (CallOk_frame m _ own own' (λ w', w' ≠ w)); [by apply Hf'| | |by apply HC].
    + destruct Hs as [S1 S2 S3]. split; [done|done|]. intros w' x' Hne Hx'. apply S3; [done|]. cbn. by rewrite lookup_delete_ne.
    + intros w' Hw' ->. apply Hu. right. right. by exists j, todo, pc.
  - intros w' x'. rewrite Ew. cbn. rewrite lookup_delete_Some. intros [Hne Hx']. eapply (WorkerOk_frame m); [apply Hf'; congruence|by apply Hf'|by apply HW].
Qed.

(** ** Every reachable configuration *)

Lemma enter_inv (m : OperationManager) (cs : gmap nat (list Cmd * CallPc)) (own : nat → Place) (i : nat) (pc : CallPc) :
  Inv (mkConfig m cs) own → cs !! i = None → entry pc → Inv (mkConfig m (<[i := ([], pc)]> cs)) own.
Proof.
  intros [HG HC HW] Hi He. cbn in *. split; cbn; [| |done].
  - eapply Global_calls; [done|]. intros j todo pc' id. rewrite lookup_insert_Some. intros [[<- [= <- <-]]|[_ Hj]] Hid; [by destruct pc|eauto].
  - intros j todo pc'. rewrite lookup_insert_Some. intros [[<- [= <- <-]]|[_ Hj]]; [|by apply HC]. by apply CallOk_idle; destruct pc.
Qed.

Lemma start_inv : Inv start (λ _, Nowhere).
Proof.
  assert (Hk : ∀ p o, ¬ known (mgr start) p o) by by intros p o [H|[f H]].
  split; cbn; [split; cbn; try done| |].
  - intros p o H. by destruct (Hk p o).
  - intros p q o o' H. by destruct (Hk p o).
  - split; [apply placed_nil|]. by intros ?? ?%not_elem_of_nil.
  - by intros ?? ?%not_elem_of_nil.
  - done.
  - done.
Qed.

Lemma cstep_inv (cfg cfg' : Config) (own : nat → Place) : Inv cfg own → cstep cfg cfg' → ∃ own', Inv cfg' own'.
Proof.
  destruct cfg as [m cs]. intros HI Hs. inversion Hs; subst; cbn [mgr calls] in *.
  - exists own. by apply enter_inv.
  - by eapply (Inv_callCmd (mkConfig m cs)).
  - by eapply callStep_inv.
  - by eapply (Inv_workerCmd (mkConfig m cs)).
  - by eapply worker_inv.
  - by eapply reclaim_inv.
Qed.

Lemma reachable_inv (cfg : Config) : reach cfg → ∃ own, Inv cfg own.
Proof.
  induction 1 as [|cfg cfg' _ [own HI] Hs]; [exists (λ _, Nowhere); apply start_inv|]. by eapply cstep_inv.
Qed.

End SchedulerSafety.
