(* ===== verification/SchedulerHolds.v ===== *)
(** * What the operation scheduler promises

    Read off the invariant of [Ownership.v], which [SchedulerSafety.v] shows of every
    reachable configuration of [Scheduler.v]: every live operation is held by exactly one
    call, queue, thread or list; the tables lead to live operations, but for one race
    that is exhibited; an operation that is gone has ended; and no call is ever blocked. *)
From S2P Require Import Prelude Vocabulary Scheduler Ownership SchedulerSafety.
Import Vocabulary Vocabulary.Err Scheduler Ownership SchedulerSafety.
Local Open Scope Z_scope.

Module SchedulerHolds.

(** ** Every live operation is held *)

(** Who holds an operation: a call, a queue, a worker's thread or the list of the finished. *)
Definition holds (cfg : Config) (l : Place) (p : nat) : Prop :=
  match l with
  | Nowhere => False
  | AtCall i => ∃ todo pc, calls cfg !! i = Some (todo, pc) ∧ p ∈ cmdOps todo ++ pcOps pc
  | AtQueue w => ∃ x, workers (mgr cfg) !! w = Some x ∧ p ∈ queue x
  | AtWorker w => ∃ x, workers (mgr cfg) !! w = Some x ∧ p ∈ cmdOps (w_todo x) ++ running (w_pc x)
  | AtKept => p ∈ map fst (m_finished (mgr cfg))
  end.

Definition held (cfg : Config) (p : nat) : Prop := ∃ l, holds cfg l p.

Definition complete (cfg : Config) : Prop := ∀ p, is_Some (heap (mgr cfg) !! p) → held cfg p.

Lemma held_call (cfg : Config) (i : nat) todo pc p : calls cfg !! i = Some (todo, pc) → p ∈ cmdOps todo ++ pcOps pc → held cfg p.
Proof. intros. exists (AtCall i). cbn. eauto. Qed.

Lemma held_queue (cfg : Config) (w : nat) x p : workers (mgr cfg) !! w = Some x → p ∈ queue x → held cfg p.
Proof. intros. exists (AtQueue w). cbn. eauto. Qed.

Lemma held_worker (cfg : Config) (w : nat) x p : workers (mgr cfg) !! w = Some x → p ∈ cmdOps (w_todo x) ++ running (w_pc x) → held cfg p.
Proof. intros. exists (AtWorker w). cbn. eauto. Qed.

(** Call [i] goes on; the operations it had are accounted for, and so are those of the
    workers. *)
Lemma complete_call (m m' : OperationManager) (cs : gmap nat (list Cmd * CallPc)) (i : nat) todo pc todo' pc' :
  complete (mkConfig m cs) → cs !! i = Some (todo, pc) →
  let cfg' := mkConfig m' (<[i := (todo', pc')]> cs) in
  (∀ p, is_Some (heap m' !! p) → is_Some (heap m !! p) ∨ held cfg' p) →
  (∀ p, p ∈ cmdOps todo ++ pcOps pc → is_Some (heap m' !! p) → held cfg' p) →
  (∀ w x p, workers m !! w = Some x → p ∈ queue x → held cfg' p) →
  (∀ w x p, workers m !! w = Some x → p ∈ cmdOps (w_todo x) ++ running (w_pc x) → held cfg' p) →
  (∀ p, p ∈ map fst (m_finished m) → held cfg' p) → complete cfg'.
Proof.
  intros HC Hi cfg' Hh H1 H2 H3 H4 p Hp. destruct (Hh p Hp) as [Ho|]; [|done]. destruct (HC p Ho) as [[|j|w|w|] Hl]; cbn in Hl; [done| | | |auto].
  - destruct Hl as (todo1 & pc1 & Hj & Hin). destruct (decide (j = i)) as [->|Hne]; [rewrite Hi in Hj; injection Hj as <- <-; auto|].
    apply (held_call cfg' j todo1 pc1); [|done]. cbn. by rewrite lookup_insert_ne.
  - destruct Hl as (x & Hx & Hin). eauto.
  - destruct Hl as (x & Hx & Hin). eauto.
Qed.

(** The workers hold what they held. *)
Definition keeps (m m' : OperationManager) : Prop :=
  ∀ w x, workers m !! w = Some x → ∃ x', workers m' !! w = Some x' ∧ queue x ⊆ queue x' ∧ w_todo x' = w_todo x ∧ w_pc x' = w_pc x.

Lemma keeps_same (m m' : OperationManager) : workers m' = workers m → keeps m m'.
Proof. intros E w x Hx. exists x. rewrite E. auto. Qed.

Lemma keeps_onWorker (m m' : OperationManager) (w : nat) (f : ReaderWorker → ReaderWorker) :
  (∀ x, queue x ⊆ queue (f x) ∧ w_todo (f x) = w_todo x ∧ w_pc (f x) = w_pc x) → workers m' = alter f w (workers m) → keeps m m'.
Proof.
  intros Hf E w' x Hx. rewrite E. destruct (decide (w' = w)) as [->|].
  - exists (f x). rewrite lookup_alter_eq, Hx. split; [done|apply Hf].
  - exists x. rewrite lookup_alter_ne by done. auto.
Qed.

(** A step of a call that moves operations only out of its own hands. *)
Lemma complete_keeps (m m' : OperationManager) (cs : gmap nat (list Cmd * CallPc)) (i : nat) todo pc todo' pc' :
  complete (mkConfig m cs) → cs !! i = Some (todo, pc) → keeps m m' →
  let cfg' := mkConfig m' (<[i := (todo', pc')]> cs) in
  (∀ p, is_Some (heap m' !! p) → is_Some (heap m !! p) ∨ held cfg' p) →
  (∀ p, p ∈ cmdOps todo ++ pcOps pc → is_Some (heap m' !! p) → p ∈ cmdOps todo' ++ pcOps pc' ∨ held cfg' p) →
  (∀ p, p ∈ map fst (m_finished m) → p ∈ map fst (m_finished m') ∨ p ∈ cmdOps todo' ++ pcOps pc') → complete cfg'.
Proof.
  intros HC Hi Hk cfg' Hh H1 H2. assert (Hi' : calls cfg' !! i = Some (todo', pc')) by (cbn; by rewrite lookup_insert_eq).
  eapply complete_call; [done|done|done|..].
  - intros p Hp Ho. destruct (H1 p Hp Ho); [by eapply held_call|done].
  - intros w x p Hx Hin. destruct (Hk w x Hx) as (x' & Hx' & Hq & _). by eapply held_queue; [|apply Hq].
  - intros w x p Hx Hin. destruct (Hk w x Hx) as (x' & Hx' & _ & E1 & E2). by eapply held_worker; [|rewrite E1, E2].
  - intros p Hp. destruct (H2 p Hp); [by exists AtKept|by eapply held_call].
Qed.

Lemma complete_same (m m' : OperationManager) (cs : gmap nat (list Cmd * CallPc)) (i : nat) pc todo' pc' :
  complete (mkConfig m cs) → cs !! i = Some ([], pc) → keeps m m' → (∀ p, is_Some (heap m' !! p) → is_Some (heap m !! p)) →
  m_finished m' = m_finished m → pcOps pc ⊆ pcOps pc' → complete (mkConfig m' (<[i := (todo', pc')]> cs)).
Proof.
  intros HC Hi Hk Hh Ef Hs. eapply complete_keeps; [done|done|done|auto| |rewrite Ef; auto].
  intros p Hp _. left. apply elem_of_app. right. by apply Hs.
Qed.

Lemma onOp_live (m : OperationManager) (q : nat) (f : Op → Op) p : is_Some (heap (onOp q f m) !! p) ↔ is_Some (heap m !! p).
Proof. cbn. destruct (decide (p = q)) as [->|]; [by rewrite lookup_alter_eq, fmap_is_Some|by rewrite lookup_alter_ne]. Qed.

Lemma cancelAt_live (m : OperationManager) (b : bool) (q p : nat) : is_Some (heap (cancelAt b q m) !! p) → is_Some (heap m !! p).
Proof. unfold cancelAt. destruct (heap m !! q); [by rewrite onOp_live|done]. Qed.

Lemma cancelAt_rest (m : OperationManager) (b : bool) (q : nat) : workers (cancelAt b q m) = workers m ∧ m_finished (cancelAt b q m) = m_finished m.
Proof. unfold cancelAt. by destruct (heap m !! q). Qed.

Lemma workerFor_rest (r : Z) (m : OperationManager) cs own :
  Global m cs own → keeps m (snd (workerFor r m)) ∧ heap (snd (workerFor r m)) = heap m ∧ m_finished (snd (workerFor r m)) = m_finished m.
Proof.
  intros HG. unfold workerFor. destruct (m_workers m !! r); [by split; [apply keeps_same|]|]. split_and!; [|done|done].
  intros w x Hx. exists x. cbn. rewrite lookup_insert_ne; [auto|]. intros <-. destruct (g_next _ _ _ HG (m_next m)) as (_ & _ & ?); [lia|congruence].
Qed.

Lemma exec_rest (c : Cmd) (m : OperationManager) :
  workers (exec c m) = workers m ∧ m_finished (exec c m) = m_finished m ∧
  ∀ p, is_Some (heap (exec c m) !! p) → is_Some (heap m !! p) ∧ c ≠ CDestroy p.
Proof.
  destruct c as [id|id|q|q]; cbn [exec]; [done| | |].
  - unfold forgetSender. by destruct (m_opToSender m !! id).
  - split_and!; [done|done|]. intros p H%onOp_live. done.
  - unfold destroy. destruct (heap m !! q) as [o|] eqn:E.
    + split_and!; [done|done|]. intros p. cbn. intros [o' H]. rewrite lookup_delete_Some in H. destruct H as [Hne H]. split; [by exists o'|congruence].
    + split_and!; [done|done|]. intros p [o' H]. split; [by exists o'|congruence].
Qed.

Lemma cmdOps_cons (c : Cmd) (todo : list Cmd) (p : nat) (rest : list nat) :
  p ∈ cmdOps (c :: todo) ++ rest → c = CDestroy p ∨ p ∈ cmdOps todo ++ rest.
Proof. destruct c; try (by right). cbn. rewrite elem_of_cons. intros [->|?]; [by left|by right]. Qed.

(** ** The calls lose nothing *)

Section CompleteCalls.
Context (m : OperationManager) (cs : gmap nat (list Cmd * CallPc)) (own : nat → Place) (i : nat).
Context (HI : Inv (mkConfig m cs) own) (HC : complete (mkConfig m cs)).

Let HG : Global m cs own := i_global _ _ HI.

Lemma complete_cmd (c : Cmd) todo pc : cs !! i = Some (c :: todo, pc) → complete (mkConfig (exec c m) (<[i := (todo, pc)]> cs)).
Proof using All.
  intros Hi. destruct (exec_rest c m) as (Ew & Ef & Hh). eapply complete_keeps; [done|done|by apply keeps_same| | |rewrite Ef; auto].
  - intros p Hp. left. by apply Hh.
  - intros p [->|Hp]%cmdOps_cons Ho; [by destruct (Hh p Ho)|by left].
Qed.

(** A new operation joins a queue, or the call's own one does. *)
Lemma complete_push (m1 : OperationManager) (w p : nat) pc pc' :
  cs !! i = Some ([], pc) → is_Some (workers m !! w) → workers m1 = workers m → m_finished m1 = m_finished m →
  (∀ q, is_Some (heap m1 !! q) → q = p ∨ is_Some (heap m !! q)) → pcOps pc ⊆ [p] →
  complete (mkConfig (onWorker w (λ x, setQueue (queue x ++ [p]) x) m1) (<[i := ([], pc')]> cs)).
Proof using All.
  intros Hi [x Hx] Ew Ef Hh Hs. set (f := λ x, setQueue (queue x ++ [p]) x). set (cfg' := mkConfig _ _).
  assert (Hheld : held cfg' p).
  { apply (held_queue cfg' w (f x)); [|cbn; apply elem_of_app; right; left]. cbn. by rewrite Ew, lookup_alter_eq, Hx. }
  eapply complete_keeps; [done|done| | | |].
  - apply (keeps_onWorker _ _ w f); [|cbn; by rewrite Ew]. intros y. split; [|done]. cbn. set_solver.
  - intros q Hq. cbn in Hq. destruct (Hh q Hq) as [->|]; [by right|by left].
  - intros q Hq _. right. cbn in Hq. apply Hs, list_elem_of_singleton in Hq as ->. done.
  - cbn. rewrite Ef. auto.
Qed.

Lemma publish_complete pc m' todo' pc' :
  cs !! i = Some ([], pc) → publish pc m = Some (m', todo', pc') → complete (mkConfig m' (<[i := (todo', pc')]> cs)).
Proof using All.
  intros Hi. pose proof (i_call _ _ HI _ _ _ Hi : CallOk m own i [] pc) as [_ _ _ H4].
  destruct pc as [r c|r c id|c id w|c id w|c id w p|id w p|id w p| | | | | | | | | | | | | | | | | |]; try done; cbn [publish].
  - intros [= <- <- <-]. eapply complete_same; [done|done|by apply keeps_same|done|done|done].
  - destruct (workerFor_rest r m cs own HG) as (Hk & Eh & Ef). destruct (workerFor r m) as [w m1]. intros [= <- <- <-]. cbn in *.
    eapply complete_same; [done|done|done|by rewrite Eh|done|done].
  - destruct (workers m !! w) as [x|] eqn:Hx; [|done]. intros [= <- <- <-].
    destruct (kMaxQueuedOpsPerReader <=? zlen (queue x)); (eapply complete_same; [done|done|by apply keeps_same|done|done|done]).
  - intros [= <- <- <-]. eapply complete_keeps; [done|done|by apply keeps_same| |by cbn; intros ? ?%not_elem_of_nil|auto].
    intros p. cbn. destruct (decide (p = m_next m)) as [->|Hne]; [|rewrite lookup_insert_ne by done; by left]. intros _. right.
    eapply (held_call _ i); [cbn; apply lookup_insert_eq|]. destruct (decide (c = ""%string)); cbn; left.
  - intros [= <- <- <-]. eapply complete_same; [done|done|by apply keeps_same|done|done|done].
  - intros [= <- <- <-]. eapply complete_same; [done|done|by apply keeps_same| |done|done]. intros q. apply (onOp_live m).
  - intros [= <- <- <-]. eapply complete_push; [done|by apply H4|done|done|by right|done].
Qed.

Lemma enqueue_complete pc m' todo' pc' :
  cs !! i = Some ([], pc) → enqueueOnReaderWorker pc m = Some (m', todo', pc') → complete (mkConfig m' (<[i := (todo', pc')]> cs)).
Proof using All.
  intros Hi. destruct pc as [| | | | | | |r|w| | | | | | | | | | | | | | | |]; try done; cbn [enqueueOnReaderWorker].
  - destruct (workerFor_rest r m cs own HG) as (Hk & Eh & Ef). destruct (workerFor r m) as [w m1]. intros [= <- <- <-]. cbn in *.
    eapply complete_same; [done|done|done|by rewrite Eh|done|done].
  - unfold newOp at 1. set (m1 := snd (newOp m)). change (setNext _ _) with m1. change (workers m1) with (workers m).
    assert (Hh : ∀ q, is_Some (heap m1 !! q) → q = m_next m ∨ is_Some (heap m !! q)).
    { intros q. cbn. destruct (decide (q = m_next m)) as [->|Hne]; [by left|rewrite lookup_insert_ne by done; by right]. }
    destruct (workers m !! w) as [x|] eqn:Hx; [|done]. destruct (kMaxQueuedOpsPerReader <=? zlen (queue x)); intros [= <- <- <-].
    + destruct (exec_rest (CDestroy (m_next m)) m1) as (Ew & Ef & Hd). unfold destroy. replace (heap m1 !! m_next m) with (Some (mkOp 0 false None false)) by (cbn; by rewrite lookup_insert_eq).
      eapply complete_same; [done|done|by apply keeps_same| |done|done]. intros q. cbn -[m1]. intros [o [Hne Ho]%lookup_delete_Some]. destruct (Hh q); [by exists o|congruence|done].
    + eapply complete_push; [done|by exists x|done|done|done|apply list_subseteq_nil].
Qed.

Lemma take_complete w x :
  cs !! i = Some ([], RTake w) → workers m !! w = Some x →
  ∀ m' pc', (∀ p, is_Some (heap m' !! p) → is_Some (heap m !! p)) → workers m' = workers (onWorker w (setQueue []) m) → m_finished m' = m_finished m →
  complete (mkConfig m' (<[i := (doom m (queue x), pc')]> cs)).
Proof using All.
  intros Hi Hx m' pc' Hh Ew Ef. set (cfg' := mkConfig _ _).
  assert (Hi' : calls cfg' !! i = Some (doom m (queue x), pc')) by (cbn; by rewrite lookup_insert_eq).
  eapply complete_call; [done|done|by auto|by intros ? ?%not_elem_of_nil|..].
  - intros w' x' p Hx' Hp. destruct (decide (w' = w)) as [->|Hne].
    + replace x' with x in * by congruence. eapply held_call; [done|]. rewrite cmdOps_doom. apply elem_of_app. by left.
    + apply (held_queue cfg' w' x'); [|done]. cbn. rewrite Ew. cbn. by rewrite lookup_alter_ne.
  - intros w' x' p Hx' Hp. destruct (decide (w' = w)) as [->|Hne].
    + apply (held_worker cfg' w (setQueue [] x')); [|done]. cbn. rewrite Ew. cbn. by rewrite lookup_alter_eq, Hx'.
    + apply (held_worker cfg' w' x'); [|done]. cbn. rewrite Ew. cbn. by rewrite lookup_alter_ne.
  - intros p Hp. exists AtKept. cbn. by rewrite Ef.
Qed.

Lemma remove_complete e pc m' todo' pc' :
  cs !! i = Some ([], pc) → abandonOrJoin e pc m = Some (m', todo', pc') → complete (mkConfig m' (<[i := (todo', pc')]> cs)).
Proof using All.
  intros Hi. destruct pc as [| | | | | | | | | |w|w|w p|w p|w p|w p|w p|w| | | | | | |]; try done; cbn [abandonOrJoin]; intros H.
  - injection H as <- <- <-. eapply complete_same; [done|done|by eapply (keeps_onWorker _ _ w requestStop)|done|done|done].
  - destruct (workers m !! w) as [x|] eqn:Hx; [|done]. destruct (inFlight x) as [p|]; injection H as <- <- <-; eapply take_complete; try done.
    + intros q. apply cancelAt_live.
    + apply cancelAt_rest.
    + by destruct (cancelAt_rest (onWorker w (setQueue []) m) false p) as [_ ->].
  - destruct (workers m !! w) as [x|]; [|done]. injection H as <- <- <-.
    destruct (choice e || bool_decide (inFlight x = None)); (eapply complete_same; [done|done|by apply keeps_same|done|done|done]).
  - destruct (workers m !! w) as [x|]; [|done]. injection H as <- <- <-.
    case_decide; (eapply complete_same; [done|done|by apply keeps_same|done|done|done]).
  - destruct (heap m !! p); injection H as <- <- <-; (eapply complete_same; [done|done|by apply keeps_same|done|done|done]).
  - destruct (heap m !! p); injection H as <- <- <-; (eapply complete_same; [done|done|by apply keeps_same|done|done|done]).
  - injection H as <- <- <-. eapply complete_same; [done|done|by eapply (keeps_onWorker _ _ w setAbandoned)|done|done|done].
  - injection H as <- <- <-. eapply complete_same; [done|done|by apply keeps_same|done|done|done].
Qed.

Lemma cancel_complete id pc todo' pc' :
  cs !! i = Some ([], pc) → pcOps pc = [] → complete (mkConfig (cancel id m) (<[i := (todo', pc')]> cs)).
Proof using All.
  intros Hi Hp. unfold cancel. destruct (m_byId m !! id) as [p|].
  - destruct (cancelAt_rest m true p) as [Ew Ef]. eapply complete_same; [done|done|by apply keeps_same|intros q; apply cancelAt_live|done|rewrite Hp; apply list_subseteq_nil].
  - eapply complete_same; [done|done|by apply keeps_same|done|done|rewrite Hp; apply list_subseteq_nil].
Qed.

Lemma flags_complete r pc pc' (f : ReaderWorker → ReaderWorker) :
  cs !! i = Some ([], pc) → pcOps pc = [] → (∀ x, queue (f x) = queue x ∧ w_todo (f x) = w_todo x ∧ w_pc (f x) = w_pc x) →
  complete (mkConfig (match m_workers m !! r with Some w => onWorker w f m | None => m end) (<[i := ([], pc')]> cs)).
Proof using All.
  intros Hi Hp Hf. destruct (m_workers m !! r) as [w|].
  - eapply complete_same; [done|done|eapply keeps_onWorker; [|done]|done|done|rewrite Hp; apply list_subseteq_nil]. intros x. destruct (Hf x) as (-> & -> & ->). done.
  - eapply complete_same; [done|done|by apply keeps_same|done|done|rewrite Hp; apply list_subseteq_nil].
Qed.

Lemma sweep_complete e :
  cs !! i = Some ([], Sweep) → let '(m', todo', pc') := sweepFinished e m in complete (mkConfig m' (<[i := (todo', pc')]> cs)).
Proof using All.
  intros Hi. unfold sweepFinished. pose proof (agedOut_split (now e) (m_finished m)) as Hs. destruct (agedOut (now e) (m_finished m)) as [out rest]. cbn in Hs.
  eapply complete_keeps; [done|done|by apply keeps_same|by left|by intros ? ?%not_elem_of_nil|]. intros p Hp. cbn. rewrite Hs in Hp.
  rewrite app_nil_r, cmdOps_app, cmdOps_forgets, cmdOps_destroys. apply elem_of_app in Hp as [?|?]; auto.
Qed.

Lemma call_complete e pc m' todo' pc' :
  cs !! i = Some ([], pc) → callStep e pc m = Some (m', todo', pc') → complete (mkConfig m' (<[i := (todo', pc')]> cs)).
Proof using All.
  intros Hi H. destruct pc; cbn [callStep] in H;
    try (by eapply publish_complete); try (by eapply enqueue_complete); try (by eapply remove_complete); try done.
  - injection H as H. unfold removeReader in H. destruct (m_workers m !! reader); injection H as <- <- <-;
      (eapply complete_same; [done|done|by apply keeps_same|done|done|done]).
  - injection H as <- <- <-. by eapply cancel_complete.
  - cbn in H. destruct (m_senderToOps m !! client); injection H as <- <- <-; (eapply complete_same; [done|done|by apply keeps_same|done|done|done]).
  - cbn in H. destruct ids; injection H as <- <- <-; [eapply complete_same; [done|done|by apply keeps_same|done|done|done]|by eapply cancel_complete].
  - injection H as <- <- <-. by eapply flags_complete.
  - injection H as <- <- <-. by eapply flags_complete.
  - injection H as H. pose proof (sweep_complete e Hi) as Hs. by rewrite H in Hs.
Qed.

End CompleteCalls.

(** ** The workers lose nothing *)

Section CompleteWorkers.
Context (m : OperationManager) (cs : gmap nat (list Cmd * CallPc)) (w : nat) (x : ReaderWorker).
Context (HC : complete (mkConfig m cs)) (Hx : workers m !! w = Some x).

(** Worker [w] goes on; what its queue and its thread had is accounted for. *)
Lemma complete_worker (m' : OperationManager) (x' : ReaderWorker) :
  let cfg' := mkConfig m' cs in
  workers m' = <[w := x']> (workers m) → (∀ p, is_Some (heap m' !! p) → is_Some (heap m !! p)) → map fst (m_finished m) ⊆ map fst (m_finished m') →
  (∀ p, p ∈ queue x → held cfg' p) → (∀ p, p ∈ cmdOps (w_todo x) ++ running (w_pc x) → is_Some (heap m' !! p) → held cfg' p) → complete cfg'.
Proof using All.
  intros cfg' Ew Hh Hf H1 H2 p Hp. destruct (HC p (Hh p Hp)) as [[|j|v|v|] Hl]; cbn in Hl; [done| | | |exists AtKept; by apply Hf].
  - destruct Hl as (todo1 & pc1 & Hj & Hin). by eapply (held_call cfg').
  - destruct Hl as (y & Hy & Hin). destruct (decide (v = w)) as [->|Hne]; [apply H1; congruence|].
    apply (held_queue cfg' v y); [|done]. cbn. rewrite Ew. by rewrite lookup_insert_ne.
  - destruct Hl as (y & Hy & Hin). destruct (decide (v = w)) as [->|Hne]; [apply H2; [congruence|done]|].
    apply (held_worker cfg' v y); [|done]. cbn. rewrite Ew. by rewrite lookup_insert_ne.
Qed.

(** ... where it keeps its queue and its operations. *)
Lemma complete_own (f : ReaderWorker → ReaderWorker) :
  queue (f x) = queue x → cmdOps (w_todo (f x)) ++ running (w_pc (f x)) = cmdOps (w_todo x) ++ running (w_pc x) →
  complete (mkConfig (onWorker w f m) cs).
Proof using All.
  intros Eq Er. pose proof (onWorker_lookup m w f x Hx) as Ew.
  assert (Hx' : workers (mgr (mkConfig (onWorker w f m) cs)) !! w = Some (f x)) by (cbn [mgr]; rewrite Ew; apply lookup_insert_eq).
  eapply complete_worker; [done|done|done| |].
  - intros p Hp. eapply held_queue; [done|congruence].
  - intros p Hp _. eapply held_worker; [done|congruence].
Qed.

Lemma complete_workerCmd c todo : w_todo x = c :: todo → complete (mkConfig (onWorker w (goTo todo (w_pc x)) (exec c m)) cs).
Proof using All.
  intros Et. destruct (exec_rest c m) as (Ew & Ef & Hh). set (f := goTo todo (w_pc x)).
  assert (Ew' : workers (onWorker w f (exec c m)) = <[w := f x]> (workers m)) by (rewrite <- Ew; apply onWorker_lookup; by rewrite Ew).
  assert (Hx' : workers (onWorker w f (exec c m)) !! w = Some (f x)) by (rewrite Ew'; apply lookup_insert_eq).
  eapply complete_worker; [done|intros p Hp; by apply Hh|by cbn; rewrite Ef| |].
  - intros p Hp. by eapply held_queue.
  - intros p Hp Ho. rewrite Et in Hp. destruct (cmdOps_cons _ _ _ _ Hp) as [->|?]; [by destruct (Hh p Ho)|]. by eapply held_worker.
Qed.

Lemma pop_complete p rest :
  w_todo x = [] → w_pc x = WWait → queue x = p :: rest →
  complete (mkConfig (onOp p setRan (onWorker w (goTo [] (WRun p) ∘ setInFlight (Some p) ∘ setQueue rest) m)) cs).
Proof using All.
  intros Et Ep Eq. set (f := goTo [] (WRun p) ∘ setInFlight (Some p) ∘ setQueue rest). set (m' := onOp p setRan (onWorker w f m)).
  assert (Ew : workers m' = <[w := f x]> (workers m)) by by apply (onWorker_lookup m).
  assert (Hx' : workers m' !! w = Some (f x)) by (rewrite Ew; apply lookup_insert_eq).
  eapply complete_worker; [done|intros q; apply (onOp_live (onWorker w f m))|done| |].
  - rewrite Eq. intros q [->|Hq]%elem_of_cons; [eapply held_worker; [done|left]|by eapply held_queue].
  - rewrite Et, Ep. by intros q ?%not_elem_of_nil.
Qed.

Lemma doom_complete : w_todo x = [] → w_pc x = WDrain → complete (mkConfig (onWorker w (goTo (doom m (queue x)) WExited ∘ setQueue []) m) cs).
Proof using All.
  intros Et Ep. set (f := goTo (doom m (queue x)) WExited ∘ setQueue []).
  assert (Ew : workers (onWorker w f m) = <[w := f x]> (workers m)) by by apply onWorker_lookup.
  assert (Hx' : workers (onWorker w f m) !! w = Some (f x)) by (rewrite Ew; apply lookup_insert_eq).
  eapply complete_worker; [done|done|done| |].
  - intros q Hq. eapply held_worker; [done|]. cbn. rewrite cmdOps_doom. by rewrite app_nil_r.
  - rewrite Et, Ep. by intros q ?%not_elem_of_nil.
Qed.

Lemma keep_complete p t :
  w_todo x = [] → w_pc x = WKeep p → complete (mkConfig (setFinishedList (m_finished m ++ [(p, t)]) (onWorker w (goTo [] WWait) m)) cs).
Proof using All.
  intros Et Ep. set (f := goTo [] WWait). set (m' := setFinishedList _ _).
  assert (Ew : workers m' = <[w := f x]> (workers m)) by by apply (onWorker_lookup m).
  assert (Hx' : workers m' !! w = Some (f x)) by (rewrite Ew; apply lookup_insert_eq).
  eapply complete_worker; [done|done|cbn; rewrite map_app; set_solver| |].
  - intros q Hq. by eapply held_queue.
  - rewrite Et, Ep. cbn. intros q ->%list_elem_of_singleton _. exists AtKept. cbn. rewrite map_app. apply elem_of_app. right. left.
Qed.

Lemma loop_complete e m' : w_todo x = [] → workerLoop e w m = Some m' → complete (mkConfig m' cs).
Proof using All.
  intros Et H. unfold workerLoop in H. rewrite Hx in H. destruct (w_pc x) as [|p|p|p|p| |] eqn:Ep.
  - injection H as <-. destruct (w_stop x); [apply complete_own; [done|by rewrite Et, Ep]|].
    destruct (pendingInvalidate x); [by apply complete_own|]. destruct (holdDirty x); [by apply complete_own|].
    destruct (queue x) as [|p rest] eqn:Eq; [by apply complete_own|by apply pop_complete].
  - destruct (choice e).
    + destruct (heap m !! p) as [o|]; [cbn in H|done]. destruct (o_finished o); [|done]. injection H as <-.
      apply complete_own; [done|by rewrite Et, Ep].
    + injection H as <-. intros q Hq. destruct (HC q) as [[|j|v|v|] Hl]; [by apply (onOp_live m) in Hq|by exists Nowhere|by exists (AtCall j)|by exists (AtQueue v)|by exists (AtWorker v)|by exists AtKept].
  - injection H as <-. apply complete_own; [done|by rewrite Et, Ep].
  - injection H as <-. destruct (abandoned x); (apply complete_own; [done|by rewrite Et, Ep]).
  - injection H as <-. by apply keep_complete.
  - injection H as <-. by apply doom_complete.
  - done.
Qed.

Lemma reclaim_complete own : Inv (mkConfig m cs) own → w_todo x = [] → w_pc x = WExited → complete (mkConfig (reclaim w m) cs).
Proof using All.
  intros HI Et Ep. unfold reclaim. rewrite Hx. pose proof (i_worker _ _ HI _ _ Hx) as HW. cbn in HW.
  assert (Hgo : ∀ ps m1, let m2 := foldl (λ m p, destroy WithWorker p m) m1 ps in workers m2 = workers m1 ∧ m_finished m2 = m_finished m1 ∧
    ∀ p, is_Some (heap m2 !! p) → is_Some (heap m1 !! p) ∧ p ∉ ps).
  { induction ps as [|q ps IH]; intros m1; cbn; [split_and!; try done; intros p ?; split; [done|apply not_elem_of_nil]|].
    destruct (IH (destroy WithWorker q m1)) as (E1 & E2 & E3). unfold destroy in *. destruct (heap m1 !! q) as [o|] eqn:Eq.
    - split_and!; [done|done|]. intros p Hp. destruct (E3 p Hp) as [[o' Ho] Hn]. cbn in Ho. rewrite lookup_delete_Some in Ho. destruct Ho as [Hne Ho]. split; [by exists o'|set_solver].
    - split_and!; [done|done|]. intros p Hp. destruct (E3 p Hp) as [[o' Ho] Hn]. split; [by exists o'|]. apply not_elem_of_cons. split; [congruence|done]. }
  destruct (Hgo (queue x) (setWorkers (delete w (workers m)) m)) as (Ew & Ef & Hh). clear Hgo. set (m2 := foldl _ _ _) in *. cbn in Ew, Ef, Hh.
  intros p Hp. destruct (Hh p Hp) as [Ho Hn]. destruct (HC p Ho) as [[|j|v|v|] Hl]; cbn in Hl; [done|by exists (AtCall j)| | |exists AtKept; cbn; by rewrite Ef].
  - destruct Hl as (y & Hy & Hin). assert (v ≠ w) by (intros ->; apply Hn; congruence). exists (AtQueue v), y. cbn. rewrite Ew. by rewrite lookup_delete_ne.
  - destruct Hl as (y & Hy & Hin). assert (v ≠ w). { intros ->. rewrite Hx in Hy. injection Hy as <-. rewrite Et, Ep in Hin. by apply not_elem_of_nil in Hin. }
    exists (AtWorker v), y. cbn. rewrite Ew. by rewrite lookup_delete_ne.
Qed.

End CompleteWorkers.

Lemma cstep_complete (cfg cfg' : Config) (own : nat → Place) : Inv cfg own → complete cfg → cstep cfg cfg' → complete cfg'.
Proof.
  destruct cfg as [m cs]. intros HI HC Hs. inversion Hs as [c i pc Hi He|c i cm todo pc Hi|c i pc e m' todo pc' Hi Hlt Hcs|c w x cm todo Hx Ht|c w x e m' Hx Ht Hl|c w x Hx Ht Hp Hr];
    subst; cbn [mgr calls] in *.
  - intros p Hp. destruct (HC p Hp) as [[|j|v|v|] Hl]; [done| |by exists (AtQueue v)|by exists (AtWorker v)|by exists AtKept].
    destruct Hl as (t & pc1 & Hj & Hin). exists (AtCall j), t, pc1. cbn in *. rewrite lookup_insert_ne; [done|congruence].
  - by eapply complete_cmd.
  - by eapply call_complete.
  - by eapply complete_workerCmd.
  - by eapply loop_complete.
  - by eapply reclaim_complete.
Qed.

Lemma reach_complete (cfg : Config) : reach cfg → complete cfg.
Proof.
  induction 1 as [|cfg cfg' Hr IH Hs]; [by intros p [o Ho]|]. destruct (reachable_inv cfg Hr) as [own HI]. by eapply cstep_complete.
Qed.

(** ** Runs *)

(** One step of a given run; the configurations it goes through are reachable. *)
Inductive Event := Enter (i : nat) (pc : CallPc) | Go (i : nat) (e : Env) | Turn (w : nat) (e : Env) | Reclaim (w : nat).

Definition isEntry (pc : CallPc) : bool :=
  match pc with
  | PId _ _ | EWorker _ | RFind _ | Cancel _ | Disconnect _ | Invalidate _ | SetHold _ _ | Sweep => true
  | _ => false
  end.

Definition isReferenced (w : nat) (cfg : Config) : bool :=
  existsb (λ kv, Nat.eqb (snd kv) w) (map_to_list (m_workers (mgr cfg))) || existsb (Nat.eqb w) (m_zombies (mgr cfg)) ||
  existsb (λ kv, match callWorker (snd (snd kv)) with Some v => Nat.eqb v w | None => false end) (map_to_list (calls cfg)).

Definition after1 (cfg : Config) (ev : Event) : option Config :=
  match ev with
  | Enter i pc =>
      match calls cfg !! i with
      | None => if isEntry pc then Some (mkConfig (mgr cfg) (<[i := ([], pc)]> (calls cfg))) else None
      | Some _ => None
      end
  | Go i e =>
      match calls cfg !! i with
      | Some (c :: todo, pc) => Some (mkConfig (exec c (mgr cfg)) (<[i := (todo, pc)]> (calls cfg)))
      | Some ([], pc) =>
          if m_counter (mgr cfg) + 1 <? 2 ^ 64 then
            '(m, todo, pc') ← callStep e pc (mgr cfg); Some (mkConfig m (<[i := (todo, pc')]> (calls cfg)))
          else None
      | None => None
      end
  | Turn w e =>
      match workers (mgr cfg) !! w with
      | Some x =>
          match w_todo x with
          | c :: todo => Some (mkConfig (onWorker w (goTo todo (w_pc x)) (exec c (mgr cfg))) (calls cfg))
          | [] => m ← workerLoop e w (mgr cfg); Some (mkConfig m (calls cfg))
          end
      | None => None
      end
  | Reclaim w =>
      match workers (mgr cfg) !! w with
      | Some x =>
          match w_todo x, w_pc x with
          | [], WExited => if isReferenced w cfg then None else Some (mkConfig (reclaim w (mgr cfg)) (calls cfg))
          | _, _ => None
          end
      | None => None
      end
  end.

Fixpoint after (cfg : Config) (evs : list Event) : option Config :=
  match evs with [] => Some cfg | ev :: evs => cfg' ← after1 cfg ev; after cfg' evs end.

Lemma isReferenced_spec (w : nat) (cfg : Config) : isReferenced w cfg = false → ¬ referenced w cfg.
Proof.
  unfold isReferenced. rewrite !orb_false_iff. intros [[H1 H2] H3] [[r Hr]|[Hz|(i & todo & pc & Hi & Hw)]].
  - assert (existsb (λ kv : Z * nat, Nat.eqb (snd kv) w) (map_to_list (m_workers (mgr cfg))) = true); [|congruence].
    apply existsb_exists. exists (r, w). split; [apply list_elem_of_In; by apply elem_of_map_to_list|]. cbn. by apply Nat.eqb_eq.
  - assert (existsb (Nat.eqb w) (m_zombies (mgr cfg)) = true); [|congruence].
    apply existsb_exists. exists w. split; [by apply list_elem_of_In|by apply Nat.eqb_eq].
  - match type of H3 with ?b = false => assert (b = true); [|congruence] end.
    apply existsb_exists. exists (i, (todo, pc)). split; [apply list_elem_of_In; by apply elem_of_map_to_list|]. cbn. rewrite Hw. by apply Nat.eqb_eq.
Qed.

Lemma after1_step (cfg cfg' : Config) (ev : Event) : after1 cfg ev = Some cfg' → cstep cfg cfg'.
Proof.
  destruct ev as [i pc|i e|w e|w]; cbn.
  - destruct (calls cfg !! i) eqn:E; [done|]. destruct (isEntry pc) eqn:Ee; [|done]. intros [= <-]. apply step_enter; [done|by destruct pc].
  - destruct (calls cfg !! i) as [[[|c todo] pc]|] eqn:E; [| |done].
    + destruct (Z.ltb_spec (m_counter (mgr cfg) + 1) (2 ^ 64)) as [Hlt|]; [|done].
      destruct (callStep e pc (mgr cfg)) as [[[m todo] pc']|] eqn:Ec; [|done]. cbn. intros [= <-]. by eapply step_call.
    + intros [= <-]. by apply step_cmd.
  - destruct (workers (mgr cfg) !! w) as [x|] eqn:E; [|done]. destruct (w_todo x) as [|c todo] eqn:Et.
    + destruct (workerLoop e w (mgr cfg)) as [m|] eqn:Ew; [|done]. cbn. intros [= <-]. by eapply step_worker.
    + intros [= <-]. by eapply step_worker_cmd.
  - destruct (workers (mgr cfg) !! w) as [x|] eqn:E; [|done]. destruct (w_todo x) eqn:Et; [|done]. destruct (w_pc x) eqn:Ep; try done.
    destruct (isReferenced w cfg) eqn:Er; [done|]. intros [= <-]. eapply step_reclaim; try done. by apply isReferenced_spec.
Qed.

Lemma after_reachable (evs : list Event) (cfg cfg' : Config) : reach cfg → after cfg evs = Some cfg' → reach cfg'.
Proof.
  revert cfg. induction evs as [|ev evs IH]; cbn; intros cfg Hr; [by intros [= <-]|].
  destruct (after1 cfg ev) as [cfg1|] eqn:E; [|done]. cbn. apply IH. eapply reach_step; [done|by eapply after1_step].
Qed.

(** A run that ends in a configuration of which [b] holds. *)
Lemma run_reach (evs : list Event) (b : Config → bool) :
  match after start evs with Some cfg => b cfg | None => false end = true → ∃ cfg, reach cfg ∧ b cfg = true.
Proof. destruct (after start evs) as [cfg|] eqn:E; [|done]. intros H. exists cfg. split; [by eapply after_reachable; [apply reach_start|]|done]. Qed.

Definition quiet : Env := mkEnv 0 false 0.

(** A client publishes and its operation runs; a second one waits in the queue. *)
Definition served : list Event :=
  [Enter 0 (PId 1 "a")] ++ repeat (Go 0 quiet) 7 ++ [Turn 1 quiet] ++ [Enter 1 (PId 1 "b")] ++ repeat (Go 1 quiet) 7.

(** The reader is removed while a client is between the check of the queue and the push:
    the operation joins the queue of a worker that has gone, and the table still leads
    to it when the client cancels. *)
Definition racing : list Event :=
  [Enter 0 (PId 1 "a")] ++ repeat (Go 0 quiet) 6 ++ [Enter 1 (RFind 1)] ++ repeat (Go 1 quiet) 3 ++ repeat (Turn 1 quiet) 2 ++
  [Go 0 quiet; Reclaim 1; Enter 2 (Cancel 1); Go 2 quiet].

(** ** Theorems *)

(** C17: Every live operation is held by exactly one call, queue, worker's thread or list
    of the finished, and what is held is live: nothing is destroyed twice, used after it
    was destroyed by its holder, or lost. *)
Theorem one_holder (cfg : Config) (p : nat) :
  reach cfg → (is_Some (heap (mgr cfg) !! p) ↔ held cfg p) ∧ ∀ l l', holds cfg l p → holds cfg l' p → l = l'.
Proof.
  intros Hr. destruct (reachable_inv cfg Hr) as [own HI].
  assert (Hown : ∀ l, holds cfg l p → own p = l ∧ l ≠ Nowhere).
  { intros [|i|w|w|] Hl; cbn in Hl; [done|..|].
    - destruct Hl as (todo & pc & Hi & Hin). split; [by apply (c_own _ _ _ _ _ (i_call _ _ HI _ _ _ Hi))|done].
    - destruct Hl as (x & Hx & Hin). split; [by apply (w_queued _ _ _ _ (i_worker _ _ HI _ _ Hx))|done].
    - destruct Hl as (x & Hx & Hin). split; [by apply (w_own _ _ _ _ (i_worker _ _ HI _ _ Hx))|done].
    - destruct (g_kept _ _ _ (i_global _ _ HI)) as [[_ Hk] _]. split; [by apply Hk|done]. }
  split; [split|].
  - by apply reach_complete.
  - intros [l [El Hn]%Hown]. destruct (heap (mgr cfg) !! p) as [o|] eqn:E; [by exists o|]. apply (g_free _ _ _ (i_global _ _ HI)) in E. congruence.
  - intros l l' [E _]%Hown [E' _]%Hown. congruence.
Qed.

(** Operations are tracked soundly. The table leads from an identity to the live
    operation that has it, or to one that was destroyed with the queue of its worker;
    and an operation is read after it was destroyed only through such an entry, or by the
    removal of its reader after it had ended. *)
Theorem tables_sound (cfg : Config) :
  reach cfg →
  (∀ id p, m_byId (mgr cfg) !! id = Some p →
     ∃ o, o_id o = id ∧ id ≠ 0 ∧ (heap (mgr cfg) !! p = Some o ∨ gone (mgr cfg) !! p = Some (o, WithWorker))) ∧
  (∀ p q o o', heap (mgr cfg) !! p = Some o → heap (mgr cfg) !! q = Some o' → o_id o = o_id o' → o_id o ≠ 0 → p = q) ∧
  (∀ viaTable p, (viaTable, p) ∈ faults (mgr cfg) → ∃ o, gone (mgr cfg) !! p = Some (o, if viaTable : bool then WithWorker else Ended)).
Proof.
  intros Hr. destruct (reachable_inv cfg Hr) as [own [HG _ _]]. split_and!; [by apply HG| |by apply HG].
  intros p q o o' Hp Hq. apply (g_uniq _ _ _ HG); by left.
Qed.

(** An operation is destroyed only at its end: it was finished, and as removed if it
    never ran; or it was never published; or it never ran and went with its worker. *)
Theorem operation_fates (cfg : Config) (p : nat) (o : Op) (f : Fate) :
  reach cfg → gone (mgr cfg) !! p = Some (o, f) →
  heap (mgr cfg) !! p = None ∧
  match f with
  | Ended => ∃ c, o_finished o = Some c ∧ (o_ran o = false → c = CardRemoved)
  | Refused => o_id o = 0 ∧ o_ran o = false
  | WithWorker => o_ran o = false ∧ o_finished o = None
  end.
Proof.
  intros Hr Hg. destruct (reachable_inv cfg Hr) as [own [HG _ _]]. destruct (g_gone _ _ _ HG p o f Hg) as [Hh Hf]. split; [done|].
  destruct f; [by destruct Hf as [[? ?] ?]|done|by destruct Hf].
Qed.

(** No call of the scheduler waits for a worker: whatever the workers do, be it stuck
    in a card, a call that has not returned can take its next step. *)
Theorem manager_calls_proceed (cfg : Config) (i : nat) (todo : list Cmd) (pc : CallPc) (e : Env) :
  reach cfg → calls cfg !! i = Some (todo, pc) → m_counter (mgr cfg) + 1 < 2 ^ 64 → (∀ r, pc ≠ Returned r) ∨ todo ≠ [] →
  ∃ m' todo' pc', cstep cfg (mkConfig m' (<[i := (todo', pc')]> (calls cfg))).
Proof.
  intros Hr Hi Hlt Hpc. destruct todo as [|c todo]; [|by eexists _, _, _; eapply step_cmd].
  destruct Hpc as [Hpc|]; [|done]. destruct (reachable_inv cfg Hr) as [own HI].
  assert (∃ r, callStep e pc (mgr cfg) = Some r) as [[[m' todo'] pc'] E]; [|by eexists _, _, _; eapply step_call].
  pose proof (c_worker _ _ _ _ _ (i_call _ _ HI _ _ _ Hi)) as Hw.
  destruct pc; cbn [callStep publish enqueueOnReaderWorker dispatchClientDisconnect abandonOrJoin callWorker] in *;
    try (destruct (Hw w eq_refl) as [x Hx]); try (by eexists); try (rewrite Hx; by eexists).
  - destruct (workerFor reader (mgr cfg)). by eexists.
  - destruct (workerFor reader (mgr cfg)). by eexists.
  - unfold newOp. cbn [workers setNext setHeap]. rewrite Hx. case_match; by eexists.
  - by destruct (m_senderToOps (mgr cfg) !! client); eexists.
  - by destruct ids; eexists.
  - by destruct (Hpc result).
Qed.

(** A client's cancel can read an operation that was destroyed: its reader was removed
    between the check of the queue and the push of [publish]. *)
Example cancel_after_removal : ∃ cfg p, reach cfg ∧ (true, p) ∈ faults (mgr cfg).
Proof.
  destruct (run_reach racing (λ cfg, bool_decide (faults (mgr cfg) = [(true, 2%nat)]))) as (cfg & Hr & H); [by vm_compute|].
  apply bool_decide_eq_true in H. exists cfg, 2%nat. split; [done|]. rewrite H. left.
Qed.

(** ** Witnesses *)

(** ... and then ends, is kept and is swept. *)
Definition swept : list Event :=
  served ++ [Turn 1 quiet; Turn 1 (mkEnv 0 true 0)] ++ repeat (Turn 1 quiet) 3 ++ [Enter 2 Sweep; Go 2 (mkEnv 6000 false 0)] ++ repeat (Go 2 quiet) 3.

Lemma one_holder_witness : ∃ cfg, reach cfg ∧ held cfg 2 ∧ held cfg 3 ∧ ∀ l l', holds cfg l 3 → holds cfg l' 3 → l = l'.
Proof.
  destruct (run_reach served (λ cfg, bool_decide (is_Some (heap (mgr cfg) !! 2%nat)) && bool_decide (is_Some (heap (mgr cfg) !! 3%nat)))) as (cfg & Hr & H); [by vm_compute|].
  apply andb_true_iff in H as [H1 H2]. apply bool_decide_eq_true in H1, H2. exists cfg. split; [done|].
  split; [by apply (one_holder cfg 2 Hr)|]. split; [by apply (one_holder cfg 3 Hr)|by apply (one_holder cfg 3 Hr)].
Defined.

Lemma tables_sound_witness : ∃ cfg, reach cfg ∧ ∃ o, o_id o = 2 ∧ (heap (mgr cfg) !! 3%nat = Some o ∨ gone (mgr cfg) !! 3%nat = Some (o, WithWorker)).
Proof.
  destruct (run_reach served (λ cfg, bool_decide (m_byId (mgr cfg) !! 2 = Some 3%nat))) as (cfg & Hr & H); [by vm_compute|].
  apply bool_decide_eq_true in H. exists cfg. split; [done|]. destruct (proj1 (tables_sound cfg Hr) 2 3%nat H) as (o & ? & _ & ?). by exists o.
Defined.

Lemma operation_fates_witness : ∃ cfg o, reach cfg ∧ gone (mgr cfg) !! 2%nat = Some (o, Ended) ∧ is_Some (o_finished o).
Proof.
  destruct (run_reach swept (λ cfg, match gone (mgr cfg) !! 2%nat with Some (_, Ended) => true | _ => false end)) as (cfg & Hr & H); [by vm_compute|].
  destruct (gone (mgr cfg) !! 2%nat) as [[o f]|] eqn:Eg; [|done]. destruct f; try done. exists cfg, o. split; [done|split; [done|]].
  destruct (operation_fates cfg 2 o Ended Hr Eg) as (_ & c & Hc & _). by exists c.
Defined.

Lemma manager_calls_proceed_witness : ∃ cfg m' todo' pc', reach cfg ∧ cstep cfg (mkConfig m' (<[3%nat := (todo', pc')]> (calls cfg))).
Proof.
  destruct (run_reach (served ++ [Enter 3 (RFind 1); Go 3 quiet])
    (λ cfg, bool_decide (m_counter (mgr cfg) = 2) && match calls cfg !! 3%nat with Some ([], RStop _) => true | _ => false end)) as (cfg & Hr & H); [by vm_compute|].
  apply andb_true_iff in H as [H1 H2]. apply bool_decide_eq_true in H1.
  destruct (calls cfg !! 3%nat) as [[todo pc]|] eqn:Ec; [|done]. destruct todo; [|done]. destruct pc; try done. exists cfg.
  destruct (manager_calls_proceed cfg 3 [] (RStop w) quiet Hr Ec) as (m' & todo' & pc' & Hs); [by rewrite H1|by left|]. by exists m', todo', pc'.
Defined.

End SchedulerHolds.
