(* ===== verification/Prompts.v ===== *)
(** * The prompt gate

    Models [src/operations/PromptSerializer.cpp]: at most one dialog per card, first
    come first served, with waiters that can be cancelled. The code holds its mutex
    except while it waits, so a step is one critical section: entering the queue,
    waking up (for whatever reason, [m_cv] notifies everyone), leaving after the
    prompt. [callers] are the threads inside [serialize], by their ticket; the cancel
    token's answer is an argument of the wake-up. Tickets are [std::uint64_t]. *)
From stdpp Require Import sorting.
From S2P Require Import Prelude.
Local Open Scope Z_scope.

Module Prompts.

Record Gate := mkGate { waiters : list Z; held : bool }.

Record Serializer := mkSerializer { m_nextTicket : Z; m_gates : gmap string Gate }.

(** [m_gates[key]]: a missing gate is made empty. *)
Definition gateAt (key : string) (s : Serializer) : Gate := default (mkGate [] false) (m_gates s !! key).

(** [acquire] up to its wait: draw a ticket and queue it. *)
Definition enqueue (key : string) (s : Serializer) : Z * Serializer :=
  let myTicket := m_nextTicket s in
  let gate := gateAt key s in
  (myTicket, mkSerializer (u64 (myTicket + 1))
               (<[key := mkGate (waiters gate ++ [myTicket]) (held gate)]> (m_gates s))).

Definition atHead (key : string) (myTicket : Z) (s : Serializer) : bool :=
  match m_gates s !! key with
  | None => false
  | Some g => match waiters g with [] => false | t :: _ => t =? myTicket end
  end.

Definition slotFree (key : string) (s : Serializer) : bool :=
  match m_gates s !! key with
  | None => true
  | Some g => negb (held g)
  end.

(** [std::find] and [erase]. *)
Fixpoint eraseFirst (t : Z) (l : list Z) : list Z :=
  match l with
  | [] => []
  | x :: l => if x =? t then l else x :: eraseFirst t l
  end.

Definition isNil {A} (l : list A) : bool := match l with [] => true | _ => false end.

Definition surrender (key : string) (myTicket : Z) (s : Serializer) : Serializer :=
  match m_gates s !! key with
  | None => s
  | Some g =>
      let left := eraseFirst myTicket (waiters g) in
      mkSerializer (m_nextTicket s)
        (if isNil left && negb (held g) then delete key (m_gates s)
         else <[key := mkGate left (held g)]> (m_gates s))
  end.

(** [acquire] from its wait on; [None] parks again, otherwise its answer. *)
Definition wake (key : string) (myTicket : Z) (cancelled : bool) (s : Serializer) :
    option (bool * Serializer) :=
  if negb (cancelled || (slotFree key s && atHead key myTicket s)) then None
  else if cancelled then Some (false, surrender key myTicket s)
  else
    let mine := gateAt key s in
    Some (true, mkSerializer (m_nextTicket s) (<[key := mkGate (tail (waiters mine)) true]> (m_gates s))).

Definition release (key : string) (s : Serializer) : Serializer :=
  match m_gates s !! key with
  | None => s
  | Some g =>
      mkSerializer (m_nextTicket s)
        (if isNil (waiters g) then delete key (m_gates s)
         else <[key := mkGate (waiters g) false]> (m_gates s))
  end.

Definition hasPendingPrompt (s : Serializer) : bool :=
  existsb (λ kv : string * Gate, held kv.2 || negb (isNil (waiters kv.2))) (map_to_list (m_gates s)).

(** ** The threads inside [serialize] *)

Inductive Phase := Waiting | Prompting.

Record State := mkState { gates : Serializer; callers : gmap Z (string * Phase) }.

Inductive Event :=
| Enter (key : string)                (** a thread calls [serialize] *)
| Wake (t : Z) (cancelled : bool)     (** a queued thread evaluates its wait *)
| Leave (t : Z).                      (** [doPrompt] is over, the guard releases *)

Definition step (st : State) (ev : Event) : option State :=
  match ev with
  | Enter key =>
      let '(t, s) := enqueue key (gates st) in
      Some (mkState s (<[t := (key, Waiting)]> (callers st)))
  | Wake t cancelled =>
      match callers st !! t with
      | Some (key, Waiting) =>
          match wake key t cancelled (gates st) with
          | None => Some st
          | Some (true, s) => Some (mkState s (<[t := (key, Prompting)]> (callers st)))
          | Some (false, s) => Some (mkState s (delete t (callers st)))
          end
      | _ => None
      end
  | Leave t =>
      match callers st !! t with
      | Some (key, Prompting) => Some (mkState (release key (gates st)) (delete t (callers st)))
      | _ => None
      end
  end.

Fixpoint steps (st : State) (evs : list Event) : option State :=
  match evs with
  | [] => Some st
  | ev :: evs => st ← step st ev; steps st evs
  end.

Definition initial : State := mkState (mkSerializer 0 ∅) ∅.

Definition isEnter (ev : Event) : bool := match ev with Enter _ => true | _ => false end.
Definition entered (evs : list Event) : Z := zlen (List.filter isEnter evs).

(** ** The gate invariant *)

Definition ascending (l : list Z) : Prop := StronglySorted Z.lt l.

(** [s] and the threads agree: a gate is there exactly while someone uses it, its
    queue holds the waiting tickets in the order they were drawn, and its slot is
    held by one thread at most. *)
Record inv (n : Z) (st : State) : Prop := {
  inv_next : m_nextTicket (gates st) = n;
  inv_below : ∀ t p, callers st !! t = Some p → 0 ≤ t < n;
  inv_used : ∀ key g, m_gates (gates st) !! key = Some g → held g = true ∨ waiters g ≠ [];
  inv_order : ∀ key, ascending (waiters (gateAt key (gates st)));
  inv_waiting : ∀ key t, t ∈ waiters (gateAt key (gates st)) ↔ callers st !! t = Some (key, Waiting);
  inv_held : ∀ key, held (gateAt key (gates st)) = true ↔ ∃ t, callers st !! t = Some (key, Prompting);
  inv_one : ∀ key t1 t2, callers st !! t1 = Some (key, Prompting) →
    callers st !! t2 = Some (key, Prompting) → t1 = t2 }.

Lemma gateAt_insert s n key g key' :
  gateAt key' (mkSerializer n (<[key := g]> (m_gates s))) = if bool_decide (key' = key) then g else gateAt key' s.
Proof.
  unfold gateAt. cbn. destruct (bool_decide_reflect (key' = key)) as [->|Hne].
  - by rewrite lookup_insert_eq.
  - by rewrite lookup_insert_ne by done.
Qed.

Lemma gateAt_delete s n key key' :
  gateAt key' (mkSerializer n (delete key (m_gates s))) =
    if bool_decide (key' = key) then mkGate [] false else gateAt key' s.
Proof.
  unfold gateAt. cbn. destruct (bool_decide_reflect (key' = key)) as [->|Hne].
  - by rewrite lookup_delete_eq.
  - by rewrite lookup_delete_ne by done.
Qed.

Lemma isNil_true {A} (l : list A) : isNil l = true → l = [].
Proof. by destruct l. Qed.

Lemma gateAt_surrender key t s key' :
  gateAt key' (surrender key t s) =
    if bool_decide (key' = key) then mkGate (eraseFirst t (waiters (gateAt key s))) (held (gateAt key s))
    else gateAt key' s.
Proof.
  unfold surrender. destruct (m_gates s !! key) as [g|] eqn:E.
  - assert (gateAt key s = g) as -> by (unfold gateAt; by rewrite E).
    case_match; [rewrite gateAt_delete|by rewrite gateAt_insert].
    case_bool_decide; [|done]. bool_hyps. rename select (isNil _ = true) into Hn. apply isNil_true in Hn.
    by rewrite Hn; f_equal.
  - case_bool_decide; [|done]. subst. unfold gateAt. by rewrite E.
Qed.

Lemma gateAt_release key s key' :
  gateAt key' (release key s) =
    if bool_decide (key' = key) then mkGate (waiters (gateAt key s)) false else gateAt key' s.
Proof.
  unfold release. destruct (m_gates s !! key) as [g|] eqn:E.
  - assert (gateAt key s = g) as -> by (unfold gateAt; by rewrite E).
    case_match; [rewrite gateAt_delete|by rewrite gateAt_insert].
    case_bool_decide; [|done]. rename select (isNil _ = true) into Hn. apply isNil_true in Hn. by rewrite Hn.
  - case_bool_decide; [|done]. subst. unfold gateAt. by rewrite E.
Qed.

Lemma admitted_head key t s :
  slotFree key s = true → atHead key t s = true →
  held (gateAt key s) = false ∧ ∃ l, waiters (gateAt key s) = t :: l.
Proof.
  unfold slotFree, atHead, gateAt. destruct (m_gates s !! key) as [[w h]|]; cbn; [|done].
  intros. destruct w as [|x w]; [done|]. bool_hyps. subst. eauto.
Qed.

Lemma elem_of_eraseFirst t l x : ascending l → x ∈ eraseFirst t l ↔ x ∈ l ∧ x ≠ t.
Proof.
  induction 1 as [|y l Hs IH Hy]; cbn; [by rewrite elem_of_nil; tauto|].
  rewrite Forall_forall in Hy.
  destruct (Z.eqb_spec y t) as [->|Hne]; rewrite ?elem_of_cons, ?IH.
  - split; [intros Hx; split; [by right|]|intros [[?|?] ?]; done].
    intros ->. specialize (Hy _ Hx). lia.
  - split; [intros [->|[? ?]]; auto|intros [[?|?] ?]; auto].
Qed.

Lemma ascending_eraseFirst t l : ascending l → ascending (eraseFirst t l).
Proof.
  induction 1 as [|y l Hs IH Hy]; cbn; [constructor|]. destruct (y =? t); [done|].
  constructor; [done|]. rewrite Forall_forall in *. intros x Hx. apply Hy.
  apply elem_of_eraseFirst in Hx; [by destruct Hx|done].
Qed.

(** ** Every step keeps it *)

Definition used (s : Serializer) : Prop :=
  ∀ key g, m_gates s !! key = Some g → held g = true ∨ waiters g ≠ [].

Lemma used_insert s n key g : used s → held g = true ∨ waiters g ≠ [] → used (mkSerializer n (<[key := g]> (m_gates s))).
Proof.
  intros Hu Hg key' g'. cbn. rewrite lookup_insert_Some. intros [[_ <-]|[_ ?]]; [done|by eapply Hu].
Qed.

Lemma used_delete s n key : used s → used (mkSerializer n (delete key (m_gates s))).
Proof. intros Hu key' g'. cbn. rewrite lookup_delete_Some. intros [_ ?]. by eapply Hu. Qed.

Lemma used_surrender key t s : used s → used (surrender key t s).
Proof.
  intros Hu. unfold surrender. destruct (m_gates s !! key) as [g|]; [|done].
  case_match eqn:E; [by apply used_delete|apply used_insert; [done|]]. cbn.
  apply andb_false_iff in E as [E|E]; [right; intros Hn; by rewrite Hn in E|left; by bool_hyps].
Qed.

Lemma used_release key s : used s → used (release key s).
Proof.
  intros Hu. unfold release. destruct (m_gates s !! key) as [g|]; [|done].
  case_match eqn:E; [by apply used_delete|apply used_insert; [done|]]. right. cbn. intros Hn. by rewrite Hn in E.
Qed.

Lemma queue_snoc l t : ascending l → (∀ x, x ∈ l → x < t) → ascending (l ++ [t]).
Proof.
  induction 1 as [|y l Hs IH Hy]; intros Hlt; cbn; [repeat constructor|].
  constructor; [apply IH; intros; apply Hlt; by right|].
  apply Forall_app. split; [done|]. constructor; [apply Hlt; by left|done].
Qed.

Section Preserve.
Context (n : Z) (st : State) (Hinv : inv n st).

Lemma waiting_below key t : t ∈ waiters (gateAt key (gates st)) → 0 ≤ t < n.
Proof. intros Ht%(inv_waiting _ _ Hinv). by eapply inv_below. Qed.

Lemma inv_enter key :
  0 ≤ n → n + 1 < 2 ^ 64 →
  let '(t, s) := enqueue key (gates st) in inv (n + 1) (mkState s (<[t := (key, Waiting)]> (callers st))).
Proof.
  pose proof waiting_below as Hwb. destruct Hinv as [Hn Hb Hu Ho Hw Hh H1].
  intros H0 Hlt. unfold enqueue. rewrite Hn.
  assert (Hfresh : callers st !! n = None).
  { destruct (callers st !! n) as [p|] eqn:E; [|done]. apply Hb in E. lia. }
  split; cbn [gates callers m_nextTicket].
  - unfold u64. apply wrap_small. lia.
  - intros t p. rewrite lookup_insert_Some. intros [[<- _]|[_ ?%Hb]]; lia.
  - apply used_insert; [done|]. right. cbn. by destruct (waiters _).
  - intros key'. rewrite gateAt_insert. case_bool_decide; [|done]. cbn.
    apply queue_snoc; [done|]. intros x Hx. apply Hwb in Hx. lia.
  - intros key' t. rewrite gateAt_insert, lookup_insert_Some. case_bool_decide as Hk; cbn.
    + subst key'. rewrite elem_of_app, list_elem_of_singleton, Hw.
      split; [intros [?| ->]|intros [[<- _]|[_ ?]]]; auto. right. split; [|done]. by intros ->; simplify_eq.
    + rewrite Hw. split; [intros E; right; split; [|done]; by intros ->; simplify_eq|].
      intros [[_ [=]]|[_ ?]]; [by subst|done].
  - intros key'. rewrite gateAt_insert. transitivity (held (gateAt key' (gates st)) = true).
    { case_bool_decide; [by subst|done]. }
    rewrite Hh. f_equiv; intros t. rewrite lookup_insert_Some.
    split; [intros E; right; split; [|done]; by intros ->; simplify_eq|by intros [[_ [=]]|[_ ?]]].
  - intros key' t1 t2. rewrite !lookup_insert_Some. intros [[_ [=]]|[_ ?]] [[_ [=]]|[_ ?]]. by eapply H1.
Qed.

Lemma inv_surrender t key :
  callers st !! t = Some (key, Waiting) → inv n (mkState (surrender key t (gates st)) (delete t (callers st))).
Proof.
  destruct Hinv as [Hn Hb Hu Ho Hw Hh H1]. intros Ht. split; cbn [gates callers].
  - unfold surrender. by case_match.
  - intros t' p. rewrite lookup_delete_Some. intros [_ ?]. by eapply Hb.
  - by apply used_surrender.
  - intros key'. rewrite gateAt_surrender. case_bool_decide; [by apply ascending_eraseFirst|done].
  - intros key' t'. rewrite gateAt_surrender, lookup_delete_Some. case_bool_decide as Hk; cbn.
    + subst. rewrite elem_of_eraseFirst, Hw by done. split; intros [? ?]; auto.
    + rewrite Hw. split; [intros E; split; [by intros ->; simplify_eq|done]|by intros [_ ?]].
  - intros key'. rewrite gateAt_surrender. transitivity (held (gateAt key' (gates st)) = true).
    { case_bool_decide; [by subst|done]. }
    rewrite Hh. f_equiv; intros t'. rewrite lookup_delete_Some.
    split; [intros E; split; [by intros ->; simplify_eq|done]|by intros [_ ?]].
  - intros key' t1 t2. rewrite !lookup_delete_Some. intros [_ ?] [_ ?]. by eapply H1.
Qed.

Lemma inv_take t key :
  callers st !! t = Some (key, Waiting) → slotFree key (gates st) = true → atHead key t (gates st) = true →
  inv n (mkState (mkSerializer (m_nextTicket (gates st))
           (<[key := mkGate (tail (waiters (gateAt key (gates st)))) true]> (m_gates (gates st))))
         (<[t := (key, Prompting)]> (callers st))).
Proof.
  destruct Hinv as [Hn Hb Hu Ho Hw Hh H1]. intros Ht Hfree Hhead.
  destruct (admitted_head _ _ _ Hfree Hhead) as (Hidle & l & Hl). rewrite Hl. cbn [tail].
  assert (Hnone : ∀ t', callers st !! t' ≠ Some (key, Prompting)).
  { intros t' E. assert (held (gateAt key (gates st)) = true) by (apply Hh; by eexists). congruence. }
  assert (Hasc : ascending (t :: l)) by (by rewrite <-Hl). apply StronglySorted_inv in Hasc as [Hasc Hlt].
  rewrite Forall_forall in Hlt.
  split; cbn [gates callers m_nextTicket]; [done| | | | | |].
  - intros t' p. rewrite lookup_insert_Some. intros [[<- _]|[_ ?]]; by eapply Hb.
  - apply used_insert; [done|by left].
  - intros key'. rewrite gateAt_insert. by case_bool_decide.
  - intros key' t'. rewrite gateAt_insert, lookup_insert_Some. case_bool_decide as Hk; cbn.
    + subst. specialize (Hw key t'). rewrite Hl, elem_of_cons in Hw. split.
      * intros Hin. right. split; [intros ->; specialize (Hlt _ Hin); lia|]. apply Hw. by right.
      * intros [[_ [=]]|[Hne E]]. apply Hw in E as [?|?]; [by subst|done].
    + rewrite Hw. split; [intros E; right; split; [by intros ->; simplify_eq|done]|by intros [[_ [=]]|[_ ?]]].
  - intros key'. rewrite gateAt_insert. case_bool_decide as Hk; cbn.
    + subst. split; [intros _; exists t; by rewrite lookup_insert_eq|done].
    + rewrite Hh. f_equiv; intros t'. rewrite lookup_insert_Some.
      split; [intros E; right; split; [by intros ->; simplify_eq|done]|].
      intros [[_ [=]]|[_ ?]]; [by subst|done].
  - intros key' t1 t2. rewrite !lookup_insert_Some.
    intros [[? ?]|[? ?]] [[? ?]|[? ?]]; simplify_eq; try done; try (by exfalso; eapply Hnone).
    by eapply H1.
Qed.

Lemma inv_release t key :
  callers st !! t = Some (key, Prompting) → inv n (mkState (release key (gates st)) (delete t (callers st))).
Proof.
  destruct Hinv as [Hn Hb Hu Ho Hw Hh H1]. intros Ht. split; cbn [gates callers].
  - unfold release. by case_match.
  - intros t' p. rewrite lookup_delete_Some. intros [_ ?]. by eapply Hb.
  - by apply used_release.
  - intros key'. rewrite gateAt_release. case_bool_decide; [apply Ho|done].
  - intros key' t'. rewrite gateAt_release, lookup_delete_Some.
    transitivity (t' ∈ waiters (gateAt key' (gates st))); [case_bool_decide; [by subst|done]|].
    rewrite Hw. split; [intros E; split; [by intros ->; simplify_eq|done]|by intros [_ ?]].
  - intros key'. rewrite gateAt_release. setoid_rewrite lookup_delete_Some. case_bool_decide as Hk; cbn.
    + subst. split; [done|]. intros (t' & Hne & E). by rewrite (H1 _ _ _ Ht E) in Hne.
    + rewrite Hh. f_equiv; intros t'. split; [intros E; split; [by intros ->; simplify_eq|done]|by intros [_ ?]].
  - intros key' t1 t2. rewrite !lookup_delete_Some. intros [_ ?] [_ ?]. by eapply H1.
Qed.
End Preserve.

Lemma inv_initial : inv 0 initial.
Proof.
  split; unfold initial, gateAt; cbn; intros *; rewrite ?lookup_empty; cbn; try done.
  - constructor.
  - by rewrite elem_of_nil.
  - split; [done|by intros [? ?]].
Qed.

(** The wake-up of a queued caller, by its outcome. *)
Lemma step_wake st t cancelled key :
  callers st !! t = Some (key, Waiting) →
  step st (Wake t cancelled) = Some (
    if cancelled then mkState (surrender key t (gates st)) (delete t (callers st))
    else if slotFree key (gates st) && atHead key t (gates st) then
      mkState (mkSerializer (m_nextTicket (gates st))
                 (<[key := mkGate (tail (waiters (gateAt key (gates st)))) true]> (m_gates (gates st))))
              (<[t := (key, Prompting)]> (callers st))
    else st).
Proof.
  intros Ht. cbn. rewrite Ht. unfold wake.
  destruct cancelled; cbn; [done|]. by destruct (slotFree _ _ && atHead _ _ _).
Qed.

Lemma inv_step n st ev st' :
  inv n st → 0 ≤ n → step st ev = Some st' →
  let n' := n + (if isEnter ev then 1 else 0) in n' < 2 ^ 64 → inv n' st'.
Proof.
  intros Hi H0 Hs. destruct ev as [key|t cancelled|t]; cbn [isEnter]; cbv zeta; rewrite ?Z.add_0_r; intros Hlt.
  - cbn in Hs. simplify_eq. by apply (inv_enter n st Hi key).
  - destruct (callers st !! t) as [[key []]|] eqn:Ht; [|by cbn in Hs; rewrite Ht in Hs..].
    rewrite (step_wake _ _ _ _ Ht) in Hs. simplify_eq.
    destruct cancelled; [by apply inv_surrender|]. destruct (_ && _) eqn:E; [|done].
    bool_hyps. by apply inv_take.
  - cbn in Hs. destruct (callers st !! t) as [[key []]|] eqn:Ht; try done. simplify_eq. by apply inv_release.
Qed.

Lemma inv_steps n st evs st' :
  inv n st → 0 ≤ n → steps st evs = Some st' → n + entered evs < 2 ^ 64 → inv (n + entered evs) st'.
Proof.
  unfold entered. revert n st. induction evs as [|ev evs IH]; intros n st Hi H0; cbn.
  { intros [= <-]. by rewrite Z.add_0_r. }
  destruct (step st ev) as [st1|] eqn:Hs; cbn; [|done]. intros Hss Hlt.
  assert (Hi1 := inv_step _ _ _ _ Hi H0 Hs). cbv zeta in Hi1.
  destruct (isEnter ev); cbn in *.
  - replace (n + _) with ((n + 1) + zlen (List.filter isEnter evs)) in * by lia.
    apply (IH _ st1); [apply Hi1; lia|lia|done|lia].
  - apply (IH _ st1); [|lia|done|lia]. rewrite Z.add_0_r in Hi1. apply Hi1. lia.
Qed.

Lemma inv_reached evs st : steps initial evs = Some st → entered evs < 2 ^ 64 → inv (entered evs) st.
Proof. intros. by apply (inv_steps 0 initial); [apply inv_initial| | |]. Qed.

(** C23: one dialog per card, first come first served: at any time at most one caller
    of a key is prompting, and a caller that starts to prompt is the one that has
    waited longest for that key, with nobody prompting for it. *)
Theorem prompts_exclusive (evs : list Event) (st : State) (key : string) :
  steps initial evs = Some st → entered evs < 2 ^ 64 →
  (∀ t1 t2, callers st !! t1 = Some (key, Prompting) → callers st !! t2 = Some (key, Prompting) → t1 = t2) ∧
  (∀ t st', callers st !! t = Some (key, Waiting) → step st (Wake t false) = Some st' →
     callers st' !! t = Some (key, Prompting) →
     (∀ t', callers st !! t' ≠ Some (key, Prompting)) ∧
     (∀ t', callers st !! t' = Some (key, Waiting) → t ≤ t')).
Proof.
  intros Hs Hlt. pose proof (inv_reached _ _ Hs Hlt) as [_ _ _ Ho Hw Hh H1]. split; [by apply H1|].
  intros t st' Ht Hstep Ht'. rewrite (step_wake _ _ _ _ Ht) in Hstep.
  destruct (_ && _) eqn:E; simplify_eq; bool_hyps.
  destruct (admitted_head key t (gates st)) as (Hidle & l & Hl); [done..|]. split.
  - intros t' Et'. assert (held (gateAt key (gates st)) = true) by (apply Hh; by eexists). congruence.
  - intros t' Et'. apply Hw in Et'. specialize (Ho key). rewrite Hl in Et', Ho.
    apply StronglySorted_inv in Ho as [_ Ho]. rewrite Forall_forall in Ho.
    apply elem_of_cons in Et' as [->|Hin]; [lia|]. specialize (Ho _ Hin). lia.
Qed.

(** Nobody waits for nothing: if callers wait for a key, either one is prompting for
    that very key and can leave, or the first of them starts to prompt as soon as it
    wakes up; and a cancelled caller leaves the queue whenever it wakes up, without
    prompting and without changing anyone else's turn. *)
Theorem prompts_progress (evs : list Event) (st : State) (key : string) (t : Z) :
  steps initial evs = Some st → entered evs < 2 ^ 64 → callers st !! t = Some (key, Waiting) →
  ((∃ h, callers st !! h = Some (key, Prompting) ∧ is_Some (step st (Leave h))) ∨
   (∃ h st', callers st !! h = Some (key, Waiting) ∧ step st (Wake h false) = Some st' ∧
      callers st' !! h = Some (key, Prompting))) ∧
  ∃ st', step st (Wake t true) = Some st' ∧ callers st' = delete t (callers st) ∧
    ∀ key' h, h ≠ t → (h ∈ waiters (gateAt key' (gates st')) ↔ h ∈ waiters (gateAt key' (gates st))).
Proof.
  intros Hs Hlt Ht. pose proof (inv_reached _ _ Hs Hlt) as [_ _ _ Ho Hw Hh H1]. split.
  - destruct (held (gateAt key (gates st))) eqn:E.
    { apply Hh in E as [h Eh]. left. exists h. split; [done|]. cbn. rewrite Eh. by eexists. }
    right. apply Hw in Ht. destruct (waiters (gateAt key (gates st))) as [|h l] eqn:El; [by apply not_elem_of_nil in Ht|].
    assert (Eh : callers st !! h = Some (key, Waiting)) by (apply Hw; rewrite El; by left).
    exists h. eexists. split; [done|]. rewrite (step_wake _ _ _ _ Eh). split; [done|].
    unfold gateAt in E, El. unfold slotFree, atHead.
    destruct (m_gates (gates st) !! key) as [g|]; cbn in E, El; [|done].
    rewrite E, El, Z.eqb_refl. cbn. by rewrite lookup_insert_eq.
  - eexists. rewrite (step_wake _ _ _ _ Ht). split_and!; [done|done|]. cbn. intros key' h Hne.
    rewrite gateAt_surrender. case_bool_decide; [subst|done]. cbn. rewrite elem_of_eraseFirst by done. tauto.
Qed.

Lemma pending_iff s : used s → hasPendingPrompt s = true ↔ m_gates s ≠ ∅.
Proof.
  intros Hu. unfold hasPendingPrompt. rewrite existsb_exists. split.
  - intros ([key g] & Hin & _) E. rewrite E, map_to_list_empty in Hin. done.
  - intros Hne. apply map_choose in Hne as (key & g & E). exists (key, g). split.
    + apply list_elem_of_In. by apply elem_of_map_to_list.
    + cbn. destruct (Hu _ _ E) as [->|Hw]; [done|]. destruct (waiters g); [done|]. cbn. apply orb_true_r.
Qed.

(** The shutdown drain asks the right question: [hasPendingPrompt] is true exactly
    while some caller is prompting or queued, and once they are gone no gate is left
    behind, however many cards were prompted for. *)
Theorem pending_exact (evs : list Event) (st : State) :
  steps initial evs = Some st → entered evs < 2 ^ 64 →
  (hasPendingPrompt (gates st) = true ↔ callers st ≠ ∅) ∧ (callers st = ∅ → m_gates (gates st) = ∅).
Proof.
  intros Hs Hlt. pose proof (inv_reached _ _ Hs Hlt) as [_ _ Hu _ Hw Hh _].
  assert (Hempty : callers st = ∅ → m_gates (gates st) = ∅).
  { intros E. apply map_empty. intros key. destruct (m_gates (gates st) !! key) as [g|] eqn:Eg; [|done].
    specialize (Hw key). specialize (Hh key). unfold gateAt in Hw, Hh. rewrite Eg, E in Hw, Hh. cbn in *.
    destruct (Hu _ _ Eg) as [Hheld|Hwait]; [apply Hh in Hheld as [? ?%lookup_empty_Some]; done|].
    destruct (waiters g) as [|x l]; [done|]. specialize (Hw x). rewrite lookup_empty in Hw.
    assert (Hx : x ∈ x :: l) by left. by apply Hw in Hx. }
  split; [|done]. rewrite pending_iff by done. split; [intros H E; by apply H, Hempty|].
  intros Hc E. apply map_choose in Hc as (t & [key []] & Et).
  - apply Hw in Et. unfold gateAt in Et. rewrite E, lookup_empty in Et. by apply not_elem_of_nil in Et.
  - assert (Hheld : held (gateAt key (gates st)) = true) by (apply Hh; by eexists).
    unfold gateAt in Hheld. by rewrite E, lookup_empty in Hheld.
Qed.

(** Four callers for one card, one for another; the second is cancelled. *)
Definition sampleRun : list Event :=
  [Enter "a"; Enter "a"; Wake 0 false; Enter "b"; Enter "a"; Enter "a"; Wake 1 false; Wake 2 false; Wake 1 true; Leave 0].
Definition sampleState : State := default initial (steps initial sampleRun).

Lemma prompts_exclusive_witness : callers sampleState !! 4 = Some ("a", Waiting) ∧ 3 ≤ 4.
Proof.
  assert (H : callers sampleState !! 4 = Some ("a", Waiting)) by (vm_compute; reflexivity).
  split; [exact H|]. revert H.
  apply (proj2 (proj2 (prompts_exclusive sampleRun sampleState "a" ltac:(vm_compute; reflexivity) ltac:(vm_compute; reflexivity))
    3 (default initial (step sampleState (Wake 3 false))) ltac:(vm_compute; reflexivity) ltac:(vm_compute; reflexivity)
    ltac:(vm_compute; reflexivity))).
Defined.

Lemma prompts_progress_witness : ∃ st', step sampleState (Wake 3 true) = Some st' ∧
  callers st' = delete 3 (callers sampleState).
Proof.
  destruct (prompts_progress sampleRun sampleState "a" 3) as (_ & st' & Hs & Hc & _); [vm_compute; reflexivity..|].
  exists st'. split; assumption.
Defined.

Lemma pending_exact_witness : hasPendingPrompt (gates sampleState) = true.
Proof. apply (pending_exact sampleRun sampleState); [vm_compute; reflexivity..|]. by vm_compute. Defined.

(** ** The prompts on screen *)

(** [m_livePrompts]: the card of every prompt raised and not yet answered. The guard of
    a registration is its id; there is none for an empty id. *)
Definition registerLivePrompt (cardKey promptId : string) (live : gmap string string) :
    option string * gmap string string :=
  if String.eqb promptId "" then (None, live) else (Some promptId, <[promptId := cardKey]> live).

Definition forgetLivePrompt (promptId : string) (live : gmap string string) : gmap string string :=
  delete promptId live.

(** The order of [std::map]'s keys. *)
Definition inOrder (ids : list string) : list string := merge_sort (λ a b, Is_true (String.leb a b)) ids.

Definition liveIdsFor (cardKey : string) (live : gmap string string) : list string :=
  inOrder (map fst (List.filter (λ p : string * string, String.eqb p.2 cardKey) (map_to_list live))).

Definition liveIds (live : gmap string string) : list string := inOrder (map fst (map_to_list live)).

(** The ids a cancelled operation addresses are those raised for its card. *)
Lemma elem_of_liveIdsFor cardKey live id : id ∈ liveIdsFor cardKey live ↔ live !! id = Some cardKey.
Proof.
  unfold liveIdsFor, inOrder. rewrite (merge_sort_Permutation _), list_elem_of_In, in_map_iff. split.
  - intros ([id' key] & <- & Hin). apply filter_In in Hin as [Hin E]. cbn in *.
    apply String.eqb_eq in E as ->. by apply elem_of_map_to_list, list_elem_of_In.
  - intros E. exists (id, cardKey). split; [done|]. apply filter_In. split; [|apply String.eqb_refl].
    by apply list_elem_of_In, elem_of_map_to_list.
Qed.

End Prompts.
