(* ===== verification/ReaderLabels.v ===== *)
(** * Reader labels

    Models [src/value/ReaderLabels.cpp]: what a person is shown as a reader's name. A
    raw PC/SC name is taken apart, its model and interface are read off it, and labels
    two readers would share get a suffix. The text functions work on the characters of
    a [std::string], with the [<cctype>] classes of the C locale; the two sets the code
    keeps per serial and per label are [gset]s. *)
From Stdlib Require Import Ascii.
From stdpp Require Import pretty.
From S2P Require Import Prelude Vocabulary.
Local Open Scope Z_scope.

Module ReaderLabels.
Import Vocabulary.

#[global] Instance ReaderInterface_eq_dec : EqDecision Iface.ReaderInterface.
Proof. solve_decision. Defined.

#[global] Instance ReaderInterface_countable : Countable Iface.ReaderInterface.
Proof.
  refine (inj_countable' (λ i, match i with Iface.Unknown => 0 | Iface.Contact => 1 | Iface.Contactless => 2 end : Z)
    (λ z, if z =? 0 then Iface.Unknown else if z =? 1 then Iface.Contact else Iface.Contactless) _).
  by intros [].
Defined.

(** ** Characters *)

Definition text := list Ascii.ascii.
Definition chars (s : string) : text := String.list_ascii_of_string s.
Definition str (t : text) : string := String.string_of_list_ascii t.

Definition code (c : Ascii.ascii) : Z := Z.of_N (Ascii.N_of_ascii c).
Definition within (lo hi : Z) (c : Ascii.ascii) : bool := (lo <=? code c) && (code c <=? hi).

Definition isDigitAscii : Ascii.ascii → bool := within 48 57.
Definition isUpper : Ascii.ascii → bool := within 65 90.
Definition isLower : Ascii.ascii → bool := within 97 122.
Definition isAlnumAscii (c : Ascii.ascii) : bool := isDigitAscii c || isUpper c || isLower c.
Definition isSpace (c : Ascii.ascii) : bool := within 9 13 c || within 32 32 c.
Definition isXdigit (c : Ascii.ascii) : bool := isDigitAscii c || within 65 70 c || within 97 102 c.

Definition lowerAscii (c : Ascii.ascii) : Ascii.ascii :=
  if isUpper c then Ascii.ascii_of_N (Z.to_N (code c + 32)) else c.

Definition equalsIgnoringCase (a b : text) : bool :=
  bool_decide (length a = length b) &&
  forallb (λ '(x, y), Ascii.eqb (lowerAscii x) (lowerAscii y)) (combine a b).

(** [s.substr(at, n)] *)
Definition substr (s : text) (at_ n : nat) : text := take n (drop at_ s).
Definition charAt (s : text) (i : nat) (p : Ascii.ascii → bool) : bool :=
  match s !! i with Some c => p c | None => false end.
Definition isChar (c : Ascii.ascii) : Ascii.ascii → bool := Ascii.eqb c.

Fixpoint skipSpace (s : text) : text :=
  match s with
  | c :: s' => if isSpace c then skipSpace s' else s
  | [] => []
  end.

Definition trimmed (s : text) : text := rev (skipSpace (rev (skipSpace s))).

Definition squashed (s : text) : text :=
  trimmed (foldl (λ out c,
    if isSpace c then
      match last out with
      | None => out
      | Some b => if isChar " " b then out else out ++ [" "%char]
      end
    else out ++ [c]) [] s).

(** ** The parts of a PC/SC name *)

Definition stripSlotPair (s : text) : text :=
  let n := length s in
  let hex2 at_ := charAt s at_ isXdigit && charAt s (at_ + 1) isXdigit in
  if bool_decide (6 ≤ n)%nat && charAt s (n - 6) (isChar " ") && charAt s (n - 3) (isChar " ") && hex2 (n - 5)%nat && hex2 (n - 2)%nat
  then trimmed (take (n - 6) s) else s.

Record PcscName := mkPcscName { base : text; serial : text }.

(** The first and the last place of a character. *)
Fixpoint findFrom (c : Ascii.ascii) (at_ : nat) (s : text) : option nat :=
  match s with
  | [] => None
  | x :: s => if isChar c x then Some at_ else findFrom c (S at_) s
  end.
Definition rfind (c : Ascii.ascii) (s : text) : option nat :=
  i ← findFrom c 0 (rev s); Some (length s - 1 - i)%nat.

Definition splitPcscName (raw : text) : PcscName :=
  let base0 := stripSlotPair (trimmed raw) in
  let '(b, s) :=
    match last base0 with
    | Some c =>
        if isChar ")" c then
          match rfind "(" base0 with
          | Some open => (trimmed (take open base0), trimmed (substr base0 (open + 1) (length base0 - open - 2)))
          | None => (base0, [])
          end
        else (base0, [])
    | None => (base0, [])
    end in
  mkPcscName (stripSlotPair b) s.

(** The places where a word of length [n] fits into [s]. *)
Definition places (s : text) (n : nat) : list nat := seq 0 (S (length s) - n).

Definition containsWord (s word : text) : bool :=
  existsb (λ at_, equalsIgnoringCase (substr s at_ (length word)) word &&
    (bool_decide (at_ = 0)%nat || negb (charAt s (at_ - 1) isAlnumAscii)) &&
    (bool_decide (at_ + length word = length s)%nat || negb (charAt s (at_ + length word) isAlnumAscii)))
    (places s (length word)).

Definition containsClMarker (s : text) : bool :=
  existsb (λ at_, equalsIgnoringCase (substr s at_ 2) (chars "cl") &&
    (bool_decide (at_ = 0)%nat || negb (charAt s (at_ - 1) isAlnumAscii) || charAt s (at_ - 1) isDigitAscii) &&
    (bool_decide (at_ + 2 = length s)%nat || negb (charAt s (at_ + 2) isAlnumAscii)))
    (places s 2).

Definition carriesContactlessMarker (b : text) : bool :=
  containsWord b (chars "contactless") || containsWord b (chars "picc") || containsWord b (chars "nfc") ||
  containsClMarker b.

Definition kWords : list text :=
  map chars ["smart card reader"; "smartcard reader"; "smart card"; "smartcard"; "reader"; "ccid"; "usb";
             "interface"; "contactless"; "picc"].

(** Whether [model] ends in the word, with something and a space in front of it. *)
Definition endsInWord (model word : text) : bool :=
  let n := length model in let w := length word in
  bool_decide (w < n)%nat && charAt model (n - w - 1) (isChar " ") && equalsIgnoringCase (drop (n - w) model) word.

(** [None]: nothing was dropped. *)
Definition dropTrailingWord (model : text) : option text :=
  let n := length model in
  match List.find (endsInWord model) kWords with
  | Some word => Some (trimmed (take (n - length word) model))
  | None =>
      if bool_decide (2 < n)%nat && equalsIgnoringCase (drop (n - 2) model) (chars "cl") &&
         charAt model (n - 3) (λ c, isChar " " c || isDigitAscii c)
      then Some (trimmed (take (n - 2) model)) else None
  end.

(** The loop of [shortModel]: every round makes the model shorter. *)
Fixpoint dropTrailingWords (fuel : nat) (model : text) : text :=
  match fuel with
  | O => model
  | S fuel => match dropTrailingWord model with None => model | Some model => dropTrailingWords fuel model end
  end.

Definition shortModel (s : text) : text := let m := squashed s in dropTrailingWords (S (length m)) m.

Definition modelOf (b : text) : text :=
  match findFrom "[" 0 b with
  | None => shortModel b
  | Some open =>
      match findFrom "]" open (drop open b) with
      | None => shortModel b
      | Some close =>
          let product := shortModel (substr b (open + 1) (close - open - 1)) in
          let prefix := shortModel (take open b) in
          let productNamesAModel :=
            bool_decide (product ≠ []) && (existsb isDigitAscii product || existsb (isChar " ") product) in
          if productNamesAModel || bool_decide (prefix = []) then product else prefix
      end
  end.

(** ** Identities *)

Record ReaderIdentity := mkIdentity { model : string; iface : Iface.ReaderInterface; full : string }.

#[global] Instance ReaderIdentity_eq_dec : EqDecision ReaderIdentity.
Proof. solve_decision. Defined.

Definition noIdentity : ReaderIdentity := mkIdentity "" Iface.Unknown "".

Definition Label : Type := string * Iface.ReaderInterface.
Definition labelOf (id : ReaderIdentity) : Label := (model id, iface id).

(** Adds to the set at a key. *)
Definition addTo {K} `{Countable K} (k : K) (x : string) (m : gmap K (gset string)) : gmap K (gset string) :=
  <[k := {[x]} ∪ default ∅ (m !! k)]> m.

Definition slotsPerUnit (rawNames : list string) : gmap string (gset string) :=
  foldl (λ m raw, let s := serial (splitPcscName (chars raw)) in
           if bool_decide (s = []) then m else addTo (str s) raw m) ∅ rawNames.

(** The body of the second loop: a name's identity before collisions are settled. *)
Definition identify (slots : gmap string (gset string)) (raw : string) : ReaderIdentity :=
  let name := splitPcscName (chars raw) in
  let m := modelOf (base name) in
  let contactless := carriesContactlessMarker (base name) in
  let dualInterfaceUnit :=
    negb (bool_decide (serial name = [])) && bool_decide (1 < size (default ∅ (slots !! str (serial name))))%nat in
  mkIdentity (if bool_decide (m = []) then raw else str m)
    (if contactless then Iface.Contactless else if dualInterfaceUnit then Iface.Contact else Iface.Unknown) raw.

Definition namesPerLabel (slots : gmap string (gset string)) (rawNames : list string) : gmap Label (gset string) :=
  foldl (λ m raw, addTo (labelOf (identify slots raw)) raw m) ∅ rawNames.

Definition suffixed (b suffix : string) : string := b +:+ " (" +:+ suffix +:+ ")".

(** The loop that looks for a free label; [taken] is finite, so it ends. *)
Fixpoint freeLabel (fuel : nat) (taken : gset Label) (b : string) (i : Iface.ReaderInterface)
    (candidate : string) (position : N) : string :=
  if bool_decide ((candidate, i) ∈ taken) then
    match fuel with
    | O => candidate
    | S fuel => freeLabel fuel taken b i (suffixed b (pretty position)) (position + 1)
    end
  else candidate.

(** The last four characters of a serial. *)
Definition tail4 (s : text) : text := drop (length s - Nat.min (length s) 4) s.

Record Settling := mkSettling { out : list ReaderIdentity; taken : gset Label; settled : gmap string string }.

(** The body of the last loop, for the name at index [i]. *)
Definition settle (slots : gmap string (gset string)) (perLabel : gmap Label (gset string))
    (st : Settling) (entry : nat * string) : Settling :=
  let '(i, raw) := entry in
  let id := identify slots raw in
  match settled st !! raw with
  | Some m => mkSettling (out st ++ [mkIdentity m (iface id) (full id)]) (taken st) (settled st)
  | None =>
      if bool_decide (size (default ∅ (perLabel !! labelOf id)) ≤ 1)%nat
      then mkSettling (out st ++ [id]) (taken st) (settled st)
      else
        let s := serial (splitPcscName (chars raw)) in
        let '(candidate, position) :=
          if bool_decide (s = [])
          then (suffixed (model id) (pretty (N.of_nat (i + 1))), N.of_nat (i + 2))
          else (suffixed (model id) (str (tail4 s)), N.of_nat (i + 1)) in
        let m := freeLabel (S (size (taken st))) (taken st) (model id) (iface id) candidate position in
        mkSettling (out st ++ [mkIdentity m (iface id) (full id)])
          ({[(m, iface id)]} ∪ taken st) (<[raw := m]> (settled st))
  end.

Definition readerIdentities (rawNames : list string) : list ReaderIdentity :=
  let slots := slotsPerUnit rawNames in
  let perLabel := namesPerLabel slots rawNames in
  let taken0 : gset Label := list_to_set (map (λ raw, labelOf (identify slots raw)) rawNames) in
  out (foldl (settle slots perLabel) (mkSettling [] taken0 ∅) (imap pair rawNames)).

Record PresenceRoster := mkRoster { readerNames : list string; cardKeys : list string }.

Definition identityForCardIn (roster : PresenceRoster) (cardKey : string) : ReaderIdentity :=
  if String.eqb cardKey "" then noIdentity
  else
    match list_find (cardKey =.) (cardKeys roster) with
    | None => noIdentity
    | Some (index, _) => default noIdentity (readerIdentities (readerNames roster) !! index)
    end.

Definition isContactSlotOfDualInterfaceUnit (roster : PresenceRoster) (cardKey : string) : bool :=
  bool_decide (iface (identityForCardIn roster cardKey) = Iface.Contact).

(** ** Sets per key *)

Lemma elem_of_addTo {K} `{Countable K} (k k' : K) (x y : string) (m : gmap K (gset string)) :
  x ∈ default ∅ (addTo k y m !! k') ↔ k' = k ∧ x = y ∨ x ∈ default ∅ (m !! k').
Proof.
  unfold addTo. destruct (decide (k' = k)) as [->|Hne].
  - rewrite lookup_insert_eq. cbn. rewrite elem_of_union, elem_of_singleton. tauto.
  - rewrite lookup_insert_ne by done. tauto.
Qed.

Lemma elem_of_namesPerLabel slots rawNames lab x :
  x ∈ default ∅ (namesPerLabel slots rawNames !! lab) ↔ x ∈ rawNames ∧ labelOf (identify slots x) = lab.
Proof.
  unfold namesPerLabel. induction rawNames as [|y l IH] using rev_ind.
  { cbn [foldl]. rewrite lookup_empty. cbn. rewrite elem_of_empty, elem_of_nil. tauto. }
  rewrite foldl_snoc. rewrite elem_of_addTo, IH, elem_of_app, list_elem_of_singleton. split.
  - intros [[-> ->]|[? ?]]; auto.
  - intros [[?| ->] <-]; auto.
Qed.

Lemma elem_of_slotsPerUnit rawNames u x :
  x ∈ default ∅ (slotsPerUnit rawNames !! u) ↔
  x ∈ rawNames ∧ serial (splitPcscName (chars x)) ≠ [] ∧ str (serial (splitPcscName (chars x))) = u.
Proof.
  unfold slotsPerUnit. induction rawNames as [|y l IH] using rev_ind.
  { cbn [foldl]. rewrite lookup_empty. cbn. rewrite elem_of_empty, elem_of_nil. tauto. }
  rewrite foldl_snoc, elem_of_app, list_elem_of_singleton. case_bool_decide as Hs.
  - rewrite IH. split; [tauto|]. intros ([?| ->] & ? & ?); [tauto|done].
  - rewrite elem_of_addTo, IH. split; [intros [[-> ->]|?]; tauto|]. intros ([?| ->] & ? & <-); auto.
Qed.

(** A set with at most one element, and one with two. *)
Lemma two_in_set (X : gset string) x y : x ∈ X → y ∈ X → x ≠ y → (1 < size X)%nat.
Proof.
  intros Hx Hy Hne. assert (Hsub : {[x]} ∪ {[y]} ⊆ X).
  { by intros z [->%elem_of_singleton| ->%elem_of_singleton]%elem_of_union. }
  apply subseteq_size in Hsub. rewrite size_union, !size_singleton in Hsub; [lia|].
  by intros z ->%elem_of_singleton ?%elem_of_singleton.
Qed.

(** ** A free label is found *)

Lemma to_list_app (a b : string) : String.list_ascii_of_string (a +:+ b) = String.list_ascii_of_string a ++ String.list_ascii_of_string b.
Proof. induction a as [|c a IH]; [done|]. unfold String.append. cbn. f_equal. apply IH. Qed.

Lemma append_inj_r (s1 s2 b : string) : s1 +:+ b = s2 +:+ b → s1 = s2.
Proof.
  intros E. apply (f_equal String.list_ascii_of_string) in E. rewrite !to_list_app in E. simplify_list_eq.
  rewrite <-(String.string_of_list_ascii_of_string s1), <-(String.string_of_list_ascii_of_string s2). by f_equal.
Qed.

Lemma suffixed_inj b p q : suffixed b (pretty p) = suffixed b (pretty q) → p = q :> N.
Proof. unfold suffixed. intros E%(inj _)%(inj _)%append_inj_r. by apply (inj pretty) in E. Qed.

(** The labels the loop tries, from a position on. *)
Definition tries (b : string) (i : Iface.ReaderInterface) (position : N) (n : nat) : gset Label :=
  list_to_set (map (λ k, (suffixed b (pretty (position + N.of_nat k)%N), i)) (seq 0 n)).

Lemma size_tries b i position n : size (tries b i position n) = n.
Proof.
  unfold tries. rewrite size_list_to_set; [by rewrite length_map, length_seq|].
  apply NoDup_fmap_2_strong; [|apply NoDup_seq]. intros k1 k2 _ _ [= E].
  apply suffixed_inj in E. lia.
Qed.

Lemma freeLabel_taken fuel tk b i candidate position :
  (freeLabel fuel tk b i candidate position, i) ∈ tk → tries b i position fuel ⊆ tk.
Proof.
  revert candidate position. induction fuel as [|fuel IH]; intros candidate position; cbn [freeLabel].
  { intros _. apply empty_subseteq. }
  case_bool_decide; [|done]. intros Hin. pose proof (IH _ _ Hin) as Hsub.
  intros l Hl. unfold tries in Hl. rewrite elem_of_list_to_set, list_elem_of_fmap in Hl.
  destruct Hl as (k & -> & Hk). apply elem_of_seq in Hk.
  destruct k as [|k].
  - rewrite N.add_0_r. destruct fuel as [|fuel]; cbn in Hin; case_bool_decide; done.
  - apply Hsub. unfold tries. rewrite elem_of_list_to_set, list_elem_of_fmap. exists k. split; [|apply elem_of_seq; lia].
    do 3 f_equal. lia.
Qed.

Lemma freeLabel_free tk b i candidate position : (freeLabel (S (size tk)) tk b i candidate position, i) ∉ tk.
Proof.
  intros Hin%freeLabel_taken%subseteq_size. rewrite size_tries in Hin. lia.
Qed.

Lemma suffixed_nonempty b suffix : suffixed b suffix ≠ "".
Proof. unfold suffixed. by destruct b. Qed.

Lemma freeLabel_nonempty fuel tk b i candidate position :
  candidate ≠ "" → freeLabel fuel tk b i candidate position ≠ "".
Proof.
  revert candidate position. induction fuel as [|fuel IH]; intros candidate position Hc; cbn [freeLabel];
    case_bool_decide; [done..|apply IH, suffixed_nonempty|done].
Qed.

(** ** Settling the collisions *)

#[local] Arguments identify : simpl never.
#[local] Arguments freeLabel : simpl never.

Section Settle.
Context (rawNames : list string).

Let slots := slotsPerUnit rawNames.
Let perLabel := namesPerLabel slots rawNames.
Let label0 (raw : string) : Label := labelOf (identify slots raw).
Let taken0 : gset Label := list_to_set (map label0 rawNames).

Definition collides (raw : string) : Prop := (1 < size (default ∅ (perLabel !! label0 raw)))%nat.

(** A name's identity under the suffixes settled so far. *)
Definition relabelled (st : Settling) (raw : string) : ReaderIdentity :=
  let id := identify slots raw in mkIdentity (default (model id) (settled st !! raw)) (iface id) (full id).

(** After the names [done_]: those that collide have a label of their own, which no
    name had to begin with and no other settled name has. *)
Record settling (done_ : list string) (st : Settling) : Prop := {
  s_out : out st = map (relabelled st) done_;
  s_dom : ∀ raw, is_Some (settled st !! raw) ↔ raw ∈ done_ ∧ collides raw;
  s_taken : taken0 ⊆ taken st;
  s_label : ∀ raw m, settled st !! raw = Some m →
    (m, iface (identify slots raw)) ∈ taken st ∧ (m, iface (identify slots raw)) ∉ taken0;
  s_name : ∀ raw m, settled st !! raw = Some m → m ≠ "";
  s_inj : ∀ r1 r2 m, settled st !! r1 = Some m → settled st !! r2 = Some m →
    iface (identify slots r1) = iface (identify slots r2) → r1 = r2 }.

Lemma settling_initial : settling [] (mkSettling [] taken0 ∅).
Proof.
  split; cbn; try done.
  intros raw. rewrite lookup_empty, elem_of_nil. split; [by intros [? [=]]|tauto].
Qed.

Lemma settling_settle done_ st i raw :
  settling done_ st → settling (done_ ++ [raw]) (settle slots perLabel st (i, raw)).
Proof.
  intros [Hout Hdom Htk Hlab Hname Hinj]. unfold settle.
  destruct (settled st !! raw) as [m|] eqn:Eraw; [|case_bool_decide as Hsz].
  - assert (Hc : raw ∈ done_ ∧ collides raw) by (apply Hdom; by eexists).
    split; cbn [out taken settled]; try done.
    + rewrite Hout, map_app. f_equal. cbn. unfold relabelled. cbn. by rewrite Eraw.
    + intros r. rewrite Hdom, elem_of_app, list_elem_of_singleton. split; [tauto|]. by intros [[?| ->] ?].
  - split; cbn [out taken settled]; try done.
    + rewrite Hout, map_app. f_equal. cbn. unfold relabelled. cbn [settled]. rewrite Eraw. by destruct (identify slots raw).
    + intros r. rewrite Hdom, elem_of_app, list_elem_of_singleton. split; [tauto|].
      intros [[?| ->] Hc]; [done|]. unfold collides, label0 in Hc. lia.
  - set (first := if bool_decide (serial (splitPcscName (chars raw)) = []) then _ else _).
    assert (Hfirst : fst first ≠ "") by (unfold first; case_bool_decide; apply suffixed_nonempty).
    destruct first as [candidate position]. cbn in Hfirst. set (m := freeLabel _ _ _ _ _ _). pose proof (freeLabel_free (taken st) (model (identify slots raw))
      (iface (identify slots raw)) candidate position) as Hfree. fold m in Hfree.
    assert (Hnew : raw ∉ done_).
    { intros Hin. assert (is_Some (settled st !! raw)) as [? ?] by (apply Hdom; split; [done|unfold collides, label0; lia]).
      congruence. }
    split; cbn [out taken settled].
    + rewrite Hout, map_app. f_equal; cbn; unfold relabelled; cbn [settled].
      * apply map_ext_in. intros r Hr%list_elem_of_In. rewrite lookup_insert_ne; [done|]. by intros ->.
      * by rewrite lookup_insert_eq.
    + intros r. rewrite elem_of_app, list_elem_of_singleton. destruct (decide (r = raw)) as [->|Hne].
      * rewrite lookup_insert_eq. split; [|by eexists]. intros _. split; [by right|unfold collides, label0; lia].
      * rewrite lookup_insert_ne, Hdom by done. tauto.
    + intros x Hx. apply elem_of_union. right. by apply Htk.
    + intros r mr. rewrite lookup_insert_Some. intros [[<- <-]|[Hne Hr]].
      * split; [apply elem_of_union; left; by apply elem_of_singleton|]. intros Hin. by apply Hfree, Htk.
      * destruct (Hlab _ _ Hr). split; [apply elem_of_union; by right|done].
    + intros r mr. rewrite lookup_insert_Some. intros [[_ <-]|[_ ?]]; [by apply freeLabel_nonempty|by eapply Hname].
    + intros r1 r2 mr. rewrite !lookup_insert_Some. intros [[<- <-]|[Hne1 H1]] [[<- E]|[Hne2 H2]] Hi; try done.
      * exfalso. apply Hlab in H2 as [H2 _]. rewrite <-Hi in H2. done.
      * exfalso. subst mr. apply Hlab in H1 as [H1 _]. rewrite Hi in H1. done.
      * by eapply Hinj.
Qed.

Lemma settling_foldl done_ st l i :
  settling done_ st →
  settling (done_ ++ l) (foldl (settle slots perLabel) st (imap (λ k raw, ((i + k)%nat, raw)) l)).
Proof.
  revert done_ st i. induction l as [|raw l IH]; intros done_ st i Hs; cbn; [by rewrite app_nil_r|].
  rewrite (cons_middle raw), (assoc_L (++)).
  replace (imap ((λ k r, ((i + k)%nat, r)) ∘ S) l) with (imap (λ k r, ((S i + k)%nat, r)) l)
    by (apply imap_ext; intros; cbn; f_equal; lia).
  apply IH. by apply settling_settle.
Qed.

Lemma readerIdentities_spec :
  ∃ st, settling rawNames st ∧ readerIdentities rawNames = map (relabelled st) rawNames.
Proof.
  eexists. pose proof (settling_foldl [] _ rawNames 0 settling_initial) as Hs. split; [exact Hs|].
  destruct Hs as [Hout _ _ _ _ _]. exact Hout.
Qed.

Lemma label0_taken raw : raw ∈ rawNames → label0 raw ∈ taken0.
Proof. intros Hin. apply elem_of_list_to_set, list_elem_of_fmap. by exists raw. Qed.

(** Distinct names never share a label. *)
Lemma relabelled_distinct st r1 r2 :
  settling rawNames st → r1 ∈ rawNames → r2 ∈ rawNames → r1 ≠ r2 →
  labelOf (relabelled st r1) ≠ labelOf (relabelled st r2).
Proof.
  intros [Hout Hdom Htk Hlab Hname Hinj] H1 H2 Hne E. unfold relabelled, labelOf in E. cbn in E.
  pose proof (label0_taken _ H1) as T1. pose proof (label0_taken _ H2) as T2.
  unfold label0, labelOf in T1, T2.
  destruct (settled st !! r1) as [m1|] eqn:E1, (settled st !! r2) as [m2|] eqn:E2; cbn in E;
    apply pair_equal_spec in E as [Em Ei].
  - subst. by eapply Hne, Hinj.
  - apply Hlab in E1 as [_ E1]. apply E1. by rewrite Em, Ei.
  - apply Hlab in E2 as [_ E2]. apply E2. by rewrite <-Em, <-Ei.
  - assert (is_Some (settled st !! r1)) as [? ?]; [|congruence]. apply Hdom. split; [done|].
    apply (two_in_set _ r1 r2); [..|done]; apply elem_of_namesPerLabel; split; try done.
    unfold label0, labelOf. by rewrite Em, Ei.
Qed.
End Settle.

Lemma relabelled_nonempty rawNames st raw :
  settling rawNames rawNames st → raw ≠ "" → model (relabelled rawNames st raw) ≠ "".
Proof.
  intros Hs Hraw. unfold relabelled. cbn. destruct (settled st !! raw) as [m|] eqn:E; cbn; [by eapply s_name|].
  unfold identify. cbn. case_bool_decide as Hm; [done|]. by destruct (modelOf _).
Qed.

(** Labels tell readers apart: the identities come in the order of the names and
    carry them, one name listed twice has one identity, two different names never have
    the same model and interface, whatever names the drivers chose, and only a reader
    without a name has an empty model. *)
Theorem labels_distinct (rawNames : list string) (i j : nat) (r1 r2 : string) :
  rawNames !! i = Some r1 → rawNames !! j = Some r2 →
  ∃ id1 id2, readerIdentities rawNames !! i = Some id1 ∧ readerIdentities rawNames !! j = Some id2 ∧
    full id1 = r1 ∧ full id2 = r2 ∧ (r1 = r2 → id1 = id2) ∧ (r1 ≠ r2 → labelOf id1 ≠ labelOf id2) ∧
    (r1 ≠ "" → model id1 ≠ "").
Proof.
  intros H1 H2. destruct (readerIdentities_spec rawNames) as (st & Hs & ->).
  exists (relabelled rawNames st r1), (relabelled rawNames st r2).
  rewrite !list_lookup_fmap, H1, H2. split_and!; try done; [by intros ->| |by apply relabelled_nonempty].
  intros Hne. eapply relabelled_distinct; try done; by eapply list_elem_of_lookup_2.
Qed.

Lemma twin_of_size rawNames raw :
  (1 < size (default ∅ (slotsPerUnit rawNames !! str (serial (splitPcscName (chars raw))))))%nat →
  ∃ twin, twin ∈ rawNames ∧ twin ≠ raw ∧ serial (splitPcscName (chars twin)) = serial (splitPcscName (chars raw)).
Proof.
  set (X := default ∅ _). intros Hsz. assert (Hne : X ∖ {[raw]} ≠ ∅).
  { intros E. assert (Hsub : X ⊆ {[raw]}).
    { intros x Hx. apply elem_of_singleton. destruct (decide (x = raw)) as [|Hx']; [done|].
      assert (x ∈ X ∖ {[raw]}) as Hin by (apply elem_of_difference; by rewrite elem_of_singleton).
      rewrite E in Hin. by apply not_elem_of_empty in Hin. }
    apply subseteq_size in Hsub. rewrite size_singleton in Hsub. lia. }
  apply set_choose_L in Hne as (twin & [Hin Hnot]%elem_of_difference).
  apply elem_of_slotsPerUnit in Hin as (Hin & _ & Hs). exists twin. split_and!; [done| |].
  - intros ->. by apply Hnot, elem_of_singleton.
  - apply (f_equal chars) in Hs. unfold chars, str in Hs.
    by rewrite !String.list_ascii_of_string_of_list_ascii in Hs.
Qed.

(** A reader is called the contact slot of a unit exactly when its name carries no
    contactless marker and another name of the roster has the same serial: a single
    reader, however often it is listed, never is. *)
Theorem contact_iff_twin (rawNames : list string) (i : nat) (raw : string) (id : ReaderIdentity) :
  rawNames !! i = Some raw → readerIdentities rawNames !! i = Some id →
  iface id = Iface.Contact ↔
    carriesContactlessMarker (base (splitPcscName (chars raw))) = false ∧
    serial (splitPcscName (chars raw)) ≠ [] ∧
    ∃ twin, twin ∈ rawNames ∧ twin ≠ raw ∧ serial (splitPcscName (chars twin)) = serial (splitPcscName (chars raw)).
Proof.
  intros Hi Hid. destruct (readerIdentities_spec rawNames) as (st & _ & E). rewrite E, list_lookup_fmap, Hi in Hid.
  injection Hid as <-. change (iface (identify (slotsPerUnit rawNames) raw) = Iface.Contact ↔
    carriesContactlessMarker (base (splitPcscName (chars raw))) = false ∧
    serial (splitPcscName (chars raw)) ≠ [] ∧
    ∃ twin, twin ∈ rawNames ∧ twin ≠ raw ∧ serial (splitPcscName (chars twin)) = serial (splitPcscName (chars raw))).
  apply list_elem_of_lookup_2 in Hi. unfold identify. cbn [iface].
  destruct (carriesContactlessMarker _); [split; [done|by intros [[=] _]]|].
  case_bool_decide as Hser; cbn [negb andb]; [split; [done|by intros (_ & ? & _)]|].
  case_bool_decide as Hsz; split; try done.
  - intros _. split_and!; try done. by apply twin_of_size.
  - intros (_ & _ & twin & Hin & Hne & Ht). exfalso. apply Hsz.
    apply (two_in_set _ twin raw); [..|done]; apply elem_of_slotsPerUnit; rewrite ?Ht; done.
Qed.

(** Two readers of one unit and a third that only looks like the first. *)
Definition sampleNames : list string :=
  ["HID Global OMNIKEY 5422 Smartcard Reader [OMNIKEY 5422 Smartcard Reader] (ABCD) 00 00";
   "HID Global OMNIKEY 5422 Smartcard Reader [OMNIKEY 5422CL Smartcard Reader] (ABCD) 01 00";
   "Gemalto USB SmartCard Reader 00 00"; "Gemalto USB SmartCard Reader 01 00"].

Lemma sample_identities : map labelOf (readerIdentities sampleNames) =
  [("OMNIKEY 5422", Iface.Contact); ("OMNIKEY 5422", Iface.Contactless);
   ("Gemalto (3)", Iface.Unknown); ("Gemalto (4)", Iface.Unknown)].
Proof. by vm_compute. Qed.

Lemma labels_distinct_witness : ∃ id1 id2,
  readerIdentities sampleNames !! 2%nat = Some id1 ∧ readerIdentities sampleNames !! 3%nat = Some id2 ∧ labelOf id1 ≠ labelOf id2.
Proof.
  destruct (labels_distinct sampleNames 2 3 "Gemalto USB SmartCard Reader 00 00" "Gemalto USB SmartCard Reader 01 00")
    as (id1 & id2 & H1 & H2 & _ & _ & _ & H & _); [reflexivity..|].
  exists id1, id2. split; [exact H1|split; [exact H2|by apply H]].
Defined.

Lemma contact_iff_twin_witness : ∃ twin, twin ∈ sampleNames ∧ twin ≠ (sampleNames !!! 0%nat).
Proof.
  destruct (contact_iff_twin sampleNames 0 (sampleNames !!! 0%nat)
    (mkIdentity "OMNIKEY 5422" Iface.Contact (sampleNames !!! 0%nat))) as [H _]; [reflexivity|by vm_compute|].
  destruct (H eq_refl) as (_ & _ & twin & Hin & Hne & _). by exists twin.
Defined.

(** ** The loop of [shortModel] ends *)

Lemma length_skipSpace s : (length (skipSpace s) ≤ length s)%nat.
Proof. induction s as [|c s IH]; cbn; [done|]. destruct (isSpace c); cbn; lia. Qed.

Lemma length_trimmed s : (length (trimmed s) ≤ length s)%nat.
Proof.
  unfold trimmed. rewrite length_rev. etransitivity; [apply length_skipSpace|]. rewrite length_rev. apply length_skipSpace.
Qed.

Lemma dropTrailingWord_shorter m m' : dropTrailingWord m = Some m' → (length m' < length m)%nat.
Proof.
  unfold dropTrailingWord. destruct (List.find _ kWords) as [word|] eqn:E.
  - intros [= <-]. eapply Nat.le_lt_trans; [apply length_trimmed|]. rewrite length_take.
    apply find_some in E as [Hin Hends]. unfold endsInWord in Hends. bool_hyps.
    assert (0 < length word)%nat; [|lia].
    repeat (destruct Hin as [<-|Hin]; [cbn; lia|]). done.
  - case_match eqn:Eg; [|done]. intros [= <-]. bool_hyps.
    eapply Nat.le_lt_trans; [apply length_trimmed|]. rewrite length_take. lia.
Qed.

(** The fuel is enough: nothing is left to drop. *)
Lemma shortModel_complete s : dropTrailingWord (shortModel s) = None.
Proof.
  unfold shortModel. generalize (squashed s) as m. intros m.
  assert (H : ∀ fuel m, (length m < fuel)%nat → dropTrailingWord (dropTrailingWords fuel m) = None); [|apply H; lia].
  induction fuel as [|fuel IH]; intros m' Hlt; [lia|]. cbn.
  destruct (dropTrailingWord m') as [m''|] eqn:E; [|done]. apply IH. apply dropTrailingWord_shorter in E. lia.
Qed.

End ReaderLabels.
