(* ===== verification/Mrz.v ===== *)
(** * The MRZ a person types

    Models [cache/MrzPayload.h]: the three lines of document number and dates, each with
    its check digit, that a dialog hands over, and what is taken from them. *)
From Stdlib Require Import Ascii.
From S2P Require Import Prelude.
Local Open Scope Z_scope.

Module MrzPayload.

Abbreviation text := (list ascii).

Record MrzParts := mkParts { mrzInfo : text; documentNumber : text; dateOfBirth : text; dateOfExpiry : text }.

Definition code (c : ascii) : Z := Z.of_N (N_of_ascii c).
Definition isDigit (c : ascii) : bool := (48 <=? code c) && (code c <=? 57).
Definition isUpper (c : ascii) : bool := (65 <=? code c) && (code c <=? 90).
Definition isFiller (c : ascii) : bool := code c =? 60.

(** The loop of [mrzCheckDigit] from position [i], [None] for the result [-1]. *)
Fixpoint checkSum (field : text) (i : nat) (sum : Z) : option Z :=
  match field with
  | [] => Some sum
  | c :: rest =>
      let weight := match (i mod 3)%nat with 0%nat => 7 | 1%nat => 3 | _ => 1 end in
      if isDigit c then checkSum rest (S i) (sum + (code c - 48) * weight)
      else if isUpper c then checkSum rest (S i) (sum + (code c - 65 + 10) * weight)
      else if isFiller c then checkSum rest (S i) (sum + 0 * weight)
      else None
  end.

Definition mrzCheckDigit (field : text) : Z :=
  match checkSum field 0 0 with Some sum => sum `mod` 10 | None => -1 end.

Definition isDocNumberField (f : text) : bool :=
  (zlen f =? 10) && forallb (λ c, isUpper c || isDigit c || isFiller c) (take 9 f) &&
  match f !! 9%nat with Some c => isDigit c | None => false end.

Definition isDateField (f : text) : bool := (zlen f =? 7) && forallb isDigit f.

Definition checkDigitVerifies (field : text) : bool :=
  let recomputed := mrzCheckDigit (take (length field - 1) field) in
  if recomputed <? 0 then false
  else match last field with Some c => code c =? 48 + recomputed | None => false end.

(** [v.find('\n')]: the text before the first newline and the text after it. *)
Definition newline : ascii := "010".

Fixpoint splitLine (v : text) : option (text * text) :=
  match v with
  | [] => None
  | c :: rest =>
      if Ascii.eqb c newline then Some ([], rest)
      else '(line, after) ← splitLine rest; Some (c :: line, after)
  end.

Definition parseMrzPayload (v : text) : option MrzParts :=
  '(f1, rest) ← splitLine v;
  '(f2, f3) ← splitLine rest;
  match splitLine f3 with
  | Some _ => None
  | None =>
      if negb (isDocNumberField f1) || negb (isDateField f2) || negb (isDateField f3) then None
      else if negb (checkDigitVerifies f1) || negb (checkDigitVerifies f2) || negb (checkDigitVerifies f3) then None
      else Some (mkParts (f1 ++ f2 ++ f3) (take 9 f1) (take 6 f2) (take 6 f3))
  end.

(** *** What is accepted, said without the parser

    A document number of nine characters and two dates of six digits. ICAO Doc 9303 gives
    each a check digit: values 0-9 for digits, 10-35 for letters, 0 for the filler,
    weighted 7, 3, 1, summed modulo ten. *)
Definition charValue (c : ascii) : Z :=
  if isDigit c then code c - 48 else if isUpper c then code c - 55 else 0.

Definition weights : list Z := [7; 3; 1; 7; 3; 1; 7; 3; 1].

Definition checkDigit (field : text) : ascii :=
  ascii_of_N (Z.to_N (48 + foldr Z.add 0 (zip_with Z.mul (map charValue field) weights) `mod` 10)).

Record Document (doc dob doe : text) : Prop := mkDocument {
  doc_length : length doc = 9%nat; dob_length : length dob = 6%nat; doe_length : length doe = 6%nat;
  doc_chars : Forall (λ c, isUpper c || isDigit c || isFiller c) doc;
  dob_digits : Forall isDigit dob; doe_digits : Forall isDigit doe }.

Definition withDigit (field : text) : text := field ++ [checkDigit field].

(** The three lines a person types, and the MRZ information the channel keys are made of. *)
Definition typed (doc dob doe : text) : text :=
  withDigit doc ++ [newline] ++ withDigit dob ++ [newline] ++ withDigit doe.
Definition information (doc dob doe : text) : text := withDigit doc ++ withDigit dob ++ withDigit doe.

Lemma checkSum_weights f i sum : Forall (λ c, isUpper c || isDigit c || isFiller c) f → (length f + i ≤ 9)%nat →
  checkSum f i sum = Some (sum + foldr Z.add 0 (zip_with Z.mul (map charValue f) (drop i weights))).
Proof.
  revert i sum. induction f as [|c f IH]; intros i sum Hf Hi; cbn [checkSum map zip_with foldr]; [f_equal; lia|].
  apply Forall_cons in Hf as [Hc Hf]. cbn in Hi.
  assert (Hd : ∃ w, drop i weights = w :: drop (S i) weights ∧
    w = match (i mod 3)%nat with 0%nat => 7 | 1%nat => 3 | _ => 1 end).
  { do 9 (destruct i as [|i]; [by eexists|]). lia. }
  destruct Hd as (w&->&<-). cbn [zip_with foldr]. unfold charValue at 1.
  destruct (isDigit c) eqn:Hdig; [|destruct (isUpper c) eqn:Hup; [|destruct (isFiller c)]];
    [rewrite IH by (done || lia); f_equal; lia.. |]. done.
Qed.

Abbreviation mrzChar := (λ c, isUpper c || isDigit c || isFiller c).

Lemma mrzCheckDigit_spec f : Forall mrzChar f → (length f ≤ 9)%nat → 0 ≤ mrzCheckDigit f < 10 ∧ code (checkDigit f) = 48 + mrzCheckDigit f.
Proof.
  intros Hf Hl. unfold mrzCheckDigit, checkDigit. rewrite checkSum_weights by (done || lia). rewrite drop_0, Z.add_0_l.
  set (m := foldr _ _ _). assert (Hm : 0 ≤ m `mod` 10 < 10) by (apply Z.mod_pos_bound; lia).
  split; [done|]. unfold code. rewrite N_ascii_embedding by lia. lia.
Qed.

Lemma code_inj c d : code c = code d → c = d.
Proof. unfold code. intros E%N2Z.inj. by rewrite <- (ascii_N_embedding c), E, ascii_N_embedding. Qed.

(** The guard on a field and its check digit: a body with its digit. *)
Lemma checkDigitVerifies_app body c : Forall mrzChar body → (length body ≤ 9)%nat →
  checkDigitVerifies (body ++ [c]) = true ↔ c = checkDigit body.
Proof.
  intros Hf Hl. unfold checkDigitVerifies. rewrite length_app, Nat.add_sub, take_app_length, last_snoc.
  destruct (mrzCheckDigit_spec body Hf Hl) as [Hr Hc]. rewrite (proj2 (Z.ltb_ge _ _)) by lia.
  rewrite Z.eqb_eq, <- Hc. split; [apply code_inj | by intros ->].
Qed.

Lemma isDigit_mrzChar c : isDigit c → isUpper c || isDigit c || isFiller c.
Proof. intros Hc%Is_true_true. rewrite Hc. by rewrite orb_true_r. Qed.

Lemma checkDigit_isDigit f : Forall mrzChar f → (length f ≤ 9)%nat → isDigit (checkDigit f).
Proof.
  intros Hf Hl. destruct (mrzCheckDigit_spec f Hf Hl) as [Hr Hc]. unfold isDigit. rewrite Hc.
  apply Is_true_true, andb_true_iff. rewrite !Z.leb_le. lia.
Qed.

Lemma forallb_Forall_iff {A} (p : A → bool) l : forallb p l = true ↔ Forall p l.
Proof. rewrite forallb_forall, Forall_forall. split; intros H x Hx; [apply Is_true_true, H, list_elem_of_In, Hx | apply Is_true_true, H, list_elem_of_In, Hx]. Qed.

Lemma docField_spec f : isDocNumberField f = true ∧ checkDigitVerifies f = true ↔
  ∃ doc, length doc = 9%nat ∧ Forall mrzChar doc ∧ f = withDigit doc.
Proof.
  unfold isDocNumberField. split.
  - intros [[[Hl Hc]%andb_true_iff Hd]%andb_true_iff Hv]. bool_hyps. rewrite forallb_Forall_iff in Hc.
    destruct (f !! 9%nat) as [c|] eqn:Hf; [|done]. assert (E : f = take 9 f ++ [c]).
    { rewrite <- (take_drop 9 f) at 1. f_equal. apply list_elem_of_split_length in Hf as (l1&l2&->&E).
      rewrite length_app in Hl. cbn in Hl. rewrite drop_app_length' by done. destruct l2; [done | cbn in Hl; lia]. }
    exists (take 9 f). assert (length (take 9 f) = 9%nat) by (rewrite length_take; lia). split_and!; [done..|].
    rewrite E in Hv. apply checkDigitVerifies_app in Hv; [|done | lia]. unfold withDigit. congruence.
  - intros (doc&Hl&Hc&->). unfold withDigit. split; [|by apply checkDigitVerifies_app; [..|]; [|lia|]].
    rewrite length_app, Hl, take_app_length' by done. cbn [length Nat.add]. rewrite lookup_app_r, Hl by lia. cbn.
    apply andb_true_iff. split; [by apply forallb_Forall_iff|]. apply Is_true_true, checkDigit_isDigit; [done | lia].
Qed.

Lemma dateField_spec f : isDateField f = true ∧ checkDigitVerifies f = true ↔
  ∃ date, length date = 6%nat ∧ Forall isDigit date ∧ f = withDigit date.
Proof.
  unfold isDateField. split.
  - intros [[Hl Hc]%andb_true_iff Hv]. bool_hyps. rewrite forallb_Forall_iff in Hc.
    destruct (decide (f = [])) as [->|Hne]; [done|]. destruct (exists_last Hne) as (date&c&->).
    rewrite length_app in Hl. cbn in Hl. apply Forall_app in Hc as [Hc _].
    exists date. split_and!; [lia | done|]. apply checkDigitVerifies_app in Hv; [by subst| |lia].
    eapply Forall_impl; [exact Hc|]. apply isDigit_mrzChar.
  - intros (date&Hl&Hc&->). unfold withDigit.
    assert (Forall mrzChar date) by (eapply Forall_impl; [exact Hc|]; apply isDigit_mrzChar).
    split; [|by apply checkDigitVerifies_app; [..|]; [|lia|]].
    rewrite length_app, Hl. cbn. apply forallb_Forall_iff, Forall_app. split; [done|]. repeat constructor.
    apply checkDigit_isDigit; [done | lia].
Qed.

Lemma splitLine_Some v line after : splitLine v = Some (line, after) ↔ v = line ++ newline :: after ∧ newline ∉ line.
Proof.
  revert line. induction v as [|c v IH]; intros line; cbn [splitLine].
  - split; [done|]. intros [E _]. by destruct line.
  - destruct (Ascii.eqb_spec c newline) as [->|Hc].
    + split; [intros [= <- <-]; split; [done | by intros ?%elem_of_nil]|].
      intros [E Hn]. destruct line as [|d line]; [by injection E as ->|].
      injection E as E _. destruct Hn. rewrite <- E. by left.
    + split.
      * intros ([l a]&Hs&[= <- <-])%bind_Some. apply IH in Hs as [-> Hn]. split; [done|]. by intros [?|?]%elem_of_cons.
      * intros [E Hn]. destruct line as [|d line]; [by injection E as ->|]. injection E as <- ->.
        apply bind_Some. exists (line, after). split; [|done]. apply IH. split; [done|].
        intros ?. apply Hn. by right.
Qed.

Lemma splitLine_None v : newline ∉ v → splitLine v = None.
Proof.
  intros Hn. destruct (splitLine v) as [[line after]|] eqn:E; [|done]. apply splitLine_Some in E as [-> _].
  destruct Hn. apply elem_of_app. right. by left.
Qed.

Lemma mrzChars_newline f : Forall mrzChar f → newline ∉ f.
Proof. intros Hf Hn. eapply Forall_forall in Hf; [|exact Hn]. vm_compute in Hf. done. Qed.

Lemma withDigit_newline f : Forall mrzChar f → (length f ≤ 9)%nat → newline ∉ withDigit f.
Proof.
  intros Hf Hl. apply mrzChars_newline, Forall_app. split; [done|]. repeat constructor.
  apply isDigit_mrzChar, checkDigit_isDigit; done.
Qed.

(** C37: the parser accepts exactly the three typed lines of a document number and two
    dates with their right check digits, and takes from them the number, the dates and
    the MRZ information built from the same three: the two ways a channel can be keyed
    never differ. *)
Theorem mrz_payload_exact v p : parseMrzPayload v = Some p ↔
  ∃ doc dob doe, Document doc dob doe ∧ v = typed doc dob doe ∧ p = mkParts (information doc dob doe) doc dob doe.
Proof.
  unfold parseMrzPayload. split.
  - intros ([f1 rest]&H1&([f2 f3]&H2&H3)%bind_Some)%bind_Some.
    apply splitLine_Some in H1 as [-> _]. apply splitLine_Some in H2 as [-> _].
    destruct (splitLine f3); [done|]. destruct (_ || _)%bool eqn:Hg in H3; [done|].
    destruct (_ || _)%bool eqn:Hv in H3; [done|]. bool_hyps. injection H3 as <-.
    destruct (proj1 (docField_spec f1)) as (doc&Hl1&Hc1&->); [done|].
    destruct (proj1 (dateField_spec f2)) as (dob&Hl2&Hc2&->); [done|].
    destruct (proj1 (dateField_spec f3)) as (doe&Hl3&Hc3&->); [done|].
    exists doc, dob, doe. split; [by constructor|]. split; [done|].
    unfold information. f_equal; unfold withDigit; by rewrite take_app_length'.
  - intros (doc&dob&doe&[Hl1 Hl2 Hl3 Hc1 Hc2 Hc3]&->&->).
    assert (Hc2' : Forall mrzChar dob) by (eapply Forall_impl; [exact Hc2|]; apply isDigit_mrzChar).
    assert (Hc3' : Forall mrzChar doe) by (eapply Forall_impl; [exact Hc3|]; apply isDigit_mrzChar).
    apply bind_Some. exists (withDigit doc, withDigit dob ++ [newline] ++ withDigit doe).
    split; [apply splitLine_Some; split; [done | apply withDigit_newline; [done | lia]]|].
    apply bind_Some. exists (withDigit dob, withDigit doe).
    split; [apply splitLine_Some; split; [done | apply withDigit_newline; [done | lia]]|].
    rewrite splitLine_None by (apply withDigit_newline; [done | lia]).
    destruct (proj2 (docField_spec (withDigit doc))) as [-> ->]; [eauto|].
    destruct (proj2 (dateField_spec (withDigit dob))) as [-> ->]; [eauto|].
    destruct (proj2 (dateField_spec (withDigit doe))) as [-> ->]; [eauto|].
    cbn [negb orb]. unfold information. do 2 f_equal; unfold withDigit; by rewrite take_app_length'.
Qed.

(** The specimen of ICAO Doc 9303. *)
Example mrz_specimen : parseMrzPayload (String.list_ascii_of_string
  (String.concat (String newline EmptyString) ["L898902C<3"; "6908061"; "9406236"])) =
  Some (mkParts (String.list_ascii_of_string "L898902C<369080619406236") (String.list_ascii_of_string "L898902C<")
    (String.list_ascii_of_string "690806") (String.list_ascii_of_string "940623")).
Proof. vm_compute. reflexivity. Qed.

End MrzPayload.
