(* ===== verification/Credentials.v ===== *)
(** * Collecting a card's secrets

    Models how an operation gets a CAN, an MRZ or a PIN:
    [CredentialCache::requestCredential], [operations/SerializingPrompter.h],
    [operations/PromptContext.h], [operations/PromptPolicy.h] and the providers and guards
    of [operations/FlowPrelude.cpp]. The card library calls an operation's provider back
    whenever a secure channel needs a secret; the provider answers from the cache or
    raises a dialog.

    An operation is a program in a state monad ([M]). Before each of its accesses to an
    object it shares, other threads may act ([interleave]): what they do, and what the
    dialogs answer, is a script that the theorems quantify over. What the operation does
    to a person or a card is logged. *)
From Stdlib Require Import Ascii.
From stdpp Require Import gmap strings pretty.
From S2P Require Import Prelude Vocabulary Caches Operations ReaderLabels Mrz.
Import Vocabulary.
Local Open Scope Z_scope.

Module Credentials.
Import CredentialCache.

(** ** What is asked, and what comes back *)

(** [Auth::PaceSecretKind], and the part of [Auth::AuthRequirement] that is used: what
    the secret is for, which kind a channel needs, the key of the reason given, and the
    length bounds of its fields. *)
Inductive PaceSecretKind := KCan | KMrz | KPin | KPuk.
Inductive Purpose := Signing | OtherPurpose.

#[export] Instance PaceSecretKind_eq_dec : EqDecision PaceSecretKind.
Proof. solve_decision. Defined.

Record AuthRequirement := mkRequirement {
  purpose : Purpose; paceKind : option PaceSecretKind; reason : option string;
  fields : list (option Z * option Z) }.

(** [Auth::CredentialResult]. *)
Inductive ErrorText := genericComm | preReadAuthFailed | noText.
Inductive CredentialResult := ROk (entries : list (string * Secret)) | RCancelled | RError (text : ErrorText).

Inductive PromptKind := PPin | PCan | PMrz | PChangePin.

#[export] Instance PromptKind_eq_dec : EqDecision PromptKind.
Proof. solve_decision. Defined.

Definition kindToken (k : PromptKind) : string :=
  match k with PPin => "pin" | PCan => "can" | PMrz => "mrz" | PChangePin => "change_pin" end.

Definition kindFromToken (token : string) : option PromptKind :=
  List.find (λ k, String.eqb token (kindToken k)) [PPin; PCan; PMrz; PChangePin].

(** In milliseconds. *)
Definition deadlineFor (k : PromptKind) : Z :=
  match k with PPin => 60000 | PCan => 120000 | PMrz => 300000 | PChangePin => 180000 end.

Definition kLongestDeadline : Z := 300000.
Definition kMaxPaceAttempts : Z := 3.

Definition deadlineForWireKind (kind : string) : Z :=
  match kindFromToken kind with Some k => u32 (deadlineFor k) | None => 0 end.

Record PromptOptions := mkOptions {
  description : string; requester : string; artifact : string; cardLabel : string; pinLabel : string;
  minLength : Z; maxLength : Z; artifacts : list string; attempt : Z; lastError : string;
  altKinds : list string; promptId : string; promptReader : ReaderLabels.ReaderIdentity;
  deadlineMs : Z; altDeadlineMs : Z }.

Definition noReader : ReaderLabels.ReaderIdentity := ReaderLabels.mkIdentity EmptyString Iface.Unknown EmptyString.

Definition plainOptions (requester artifact : string) : PromptOptions :=
  mkOptions EmptyString requester artifact EmptyString EmptyString 0 0 [] 0 EmptyString [] EmptyString noReader 0 0.

Inductive PromptStatus := SOk | SCancelled | SError | STimeout | SHelperTooOld.

#[export] Instance PromptStatus_eq_dec : EqDecision PromptStatus.
Proof. solve_decision. Defined.

Record PromptResult := mkPrompt { status : PromptStatus; secret : option Secret; chosenKind : option PaceSecretKind }.

Record PinChangePromptResult := mkPinChange {
  pcStatus : PromptStatus; current : option Secret; newPin : option Secret }.

(** The result of a prompt that nobody answered. *)
Definition dismissed : PromptResult := mkPrompt SCancelled None None.
Definition dismissedChange : PinChangePromptResult := mkPinChange SCancelled None None.

Definition dismissIfEmpty (r : PromptResult) : PromptResult :=
  match status r, secret r with
  | SOk, Some EmptyString => dismissed
  | _, _ => r
  end.

Definition dismissIfEmptyChange (r : PinChangePromptResult) : PinChangePromptResult :=
  match pcStatus r, current r, newPin r with
  | SOk, Some EmptyString, _ | SOk, _, Some EmptyString => dismissedChange
  | _, _, _ => r
  end.

(** [CredentialCache::applyRetryContext]. *)
Definition applyRetryContext (a : AttemptContext) (o : PromptOptions) : PromptOptions :=
  if attempts a =? 0 then o
  else mkOptions (description o) (requester o) (artifact o) (cardLabel o) (pinLabel o) (minLength o) (maxLength o)
    (artifacts o) (u32 (attempts a + 1)) (lastErrorKey a) (altKinds o) (promptId o) (promptReader o) (deadlineMs o)
    (altDeadlineMs o).

(** [stampPrompt], the id minted and the reader looked up. *)
Definition stampPrompt (o : PromptOptions) (id : string) (reader : ReaderLabels.ReaderIdentity) (kind : PromptKind) :
  PromptOptions :=
  mkOptions (description o) (requester o) (artifact o) (cardLabel o) (pinLabel o) (minLength o) (maxLength o)
    (artifacts o) (attempt o) (lastError o) (altKinds o) id reader (u32 (deadlineFor kind))
    (foldl (λ alternative offered, Z.max alternative (deadlineForWireKind offered)) 0 (altKinds o)).

(** ** What an operation does to a person and to a card *)

(** A card plugin, by what it is asked: its id and its capabilities. *)
Inductive Capability := IdentityData | PKI | PinManagement | EmrtdCrypto.
Record CardPlugin := mkPlugin { pluginId : string; hasCapability : Capability → bool }.

(** A list of shared pointers, any of which may be null. *)
Definition CandidateList := list (option CardPlugin).

(** A [float] is its bit pattern. *)
Record VisualParams := mkVisualParams {
  vp_page : Z; vp_x : Z; vp_y : Z; vp_width : Z; vp_height : Z; vp_text : string }.

Record SignParams := mkSignParams {
  sp_certId : string; sp_inputDocument : list Z; sp_format : string; sp_level : string; sp_packaging : string;
  sp_allowExpired : bool; sp_displayName : string; sp_reason : string; sp_location : string; sp_tsaUrl : string;
  sp_visual : option VisualParams }.

Inductive Event :=
| EPhase (p : Operations.OperationPhase)
| EWindow (kind : PromptKind) (o : PromptOptions) (r : PromptResult)
| EChangeWindow (o : PromptOptions) (r : PinChangePromptResult)
| EServe (req : AuthRequirement) (r : CredentialResult)
| ERejected
| ERefused (kind : RefusalKind)
| EEvicted
| ECache (kind : PaceSecretKind) (v : Secret)
| EOffer (v : Secret)
| EInstall | EUninstall
| ERead (cands : CandidateList)
| EReadCerts (cands : CandidateList)
| ETokenInfo (cands : CandidateList)
| EList (cands : CandidateList)
| EChangePin (cands : CandidateList) (label : string) (old new : Secret)
| EActivateKey (cands : CandidateList) (pin : Secret)
| ESign (params : SignParams) (cands : CandidateList)
| EDeposit (parts : MrzPayload.MrzParts)
| EGroup (g : ReadCache.GroupSnapshot)
| ECardType (t : string)
| EClearPace
| EErasePin.

(** ** The state of an operation

    The objects it shares with other threads: the caches, its cancellation token, and the
    agent's counter of prompt ids. *)
Record World := mkWorld {
  cache : Cache; token : bool; minted : Z; snapshots : SnapshotCache.Cache; reads : ReadCache.Cache }.

(** The objects of its own: the retry context, the flags that its provider sets for it,
    the sink for an MRZ typed instead of a CAN, the PIN of a batch, and whether its
    provider is the session's. *)
Record Flags := mkFlags {
  prompterFailed : bool; userCancelled : bool; entryExpired : bool; helperTooOld : bool; markedWrong : bool }.
Record MrzChoiceSink := mkSink { payload : option Secret; taken : bool }.
Record Own := mkOwn {
  tries : option AttemptContext; flags : Flags; sink : MrzChoiceSink; batchPin : option Secret; pinWiped : bool;
  installed : bool }.

Inductive Other :=
| OPutCan (k : string) (v : Secret) | OPutMrz (k : string) (v : Secret)
| OInvalidate (k : string) | OClear | OMarkWrong (k : string)
| ONoteNothing (k : string) (b : bool) | ORefuse (k : string) (kind : RefusalKind)
| OCancel | OMint.

(** What other threads do before each access, and what the dialogs answer. *)
Record Script := mkScript {
  others : list (list Other); answers : list PromptResult; pinAnswers : list PinChangePromptResult }.

(** The log has the latest event first. *)
Record Flow := mkFlow { world : World; own : Own; script : Script; log : list Event }.

Definition onWorld (f : World → World) (s : Flow) : Flow := mkFlow (f (world s)) (own s) (script s) (log s).
Definition onOwn (f : Own → Own) (s : Flow) : Flow := mkFlow (world s) (f (own s)) (script s) (log s).
Definition onScript (f : Script → Script) (s : Flow) : Flow := mkFlow (world s) (own s) (f (script s)) (log s).

Definition onCache (f : Cache → Cache) (w : World) : World :=
  mkWorld (f (cache w)) (token w) (minted w) (snapshots w) (reads w).
Definition setToken (b : bool) (w : World) : World := mkWorld (cache w) b (minted w) (snapshots w) (reads w).
Definition setMinted (n : Z) (w : World) : World := mkWorld (cache w) (token w) n (snapshots w) (reads w).
Definition onSnapshots (f : SnapshotCache.Cache → SnapshotCache.Cache) (w : World) : World :=
  mkWorld (cache w) (token w) (minted w) (f (snapshots w)) (reads w).
Definition onReads (f : ReadCache.Cache → ReadCache.Cache) (w : World) : World :=
  mkWorld (cache w) (token w) (minted w) (snapshots w) (f (reads w)).

Definition setTries (t : option AttemptContext) (o : Own) : Own :=
  mkOwn t (flags o) (sink o) (batchPin o) (pinWiped o) (installed o).
Definition onFlags (f : Flags → Flags) (o : Own) : Own :=
  mkOwn (tries o) (f (flags o)) (sink o) (batchPin o) (pinWiped o) (installed o).
Definition setSink (s : MrzChoiceSink) (o : Own) : Own :=
  mkOwn (tries o) (flags o) s (batchPin o) (pinWiped o) (installed o).
Definition setPin (p : option Secret) (w : bool) (o : Own) : Own :=
  mkOwn (tries o) (flags o) (sink o) p w (installed o).
Definition setInstalled (b : bool) (o : Own) : Own :=
  mkOwn (tries o) (flags o) (sink o) (batchPin o) (pinWiped o) b.

Definition setPrompterFailed (b : bool) (f : Flags) : Flags :=
  mkFlags b (userCancelled f) (entryExpired f) (helperTooOld f) (markedWrong f).
Definition setUserCancelled (b : bool) (f : Flags) : Flags :=
  mkFlags (prompterFailed f) b (entryExpired f) (helperTooOld f) (markedWrong f).
Definition setEntryExpired (b : bool) (f : Flags) : Flags :=
  mkFlags (prompterFailed f) (userCancelled f) b (helperTooOld f) (markedWrong f).
Definition setHelperTooOld (b : bool) (f : Flags) : Flags :=
  mkFlags (prompterFailed f) (userCancelled f) (entryExpired f) b (markedWrong f).
Definition setMarkedWrong (b : bool) (f : Flags) : Flags :=
  mkFlags (prompterFailed f) (userCancelled f) (entryExpired f) (helperTooOld f) b.

(** ** Programs *)

Definition M (A : Type) : Type := Flow → A * Flow.

#[export] Instance M_ret : MRet M := λ A a s, (a, s).
#[export] Instance M_bind : MBind M := λ A B k m s, let '(a, s) := m s in k a s.

Definition gets {A} (f : Flow → A) : M A := λ s, (f s, s).
Definition modify (f : Flow → Flow) : M unit := λ s, (tt, f s).
Definition emit (e : Event) : M unit := modify (λ s, mkFlow (world s) (own s) (script s) (e :: log s)).

Definition when (b : bool) (m : M unit) : M unit := if b then m else mret tt.

Definition act (o : Other) (w : World) : World :=
  match o with
  | OPutCan k v => onCache (putCan k v) w
  | OPutMrz k v => onCache (putMrz k v) w
  | OInvalidate k => onCache (invalidate k) w
  | OClear => onCache clear w
  | OMarkWrong k => onCache (markCredentialWrong k) w
  | ONoteNothing k b => onCache (noteLastPromptYieldedNothing k b) w
  | ORefuse k kind => onCache (noteRefusal k kind) w
  | OCancel => setToken true w
  | OMint => setMinted (u64 (minted w + 1)) w
  end.

(** The other threads' turn. *)
Definition interleave : M unit := λ s,
  match others (script s) with
  | [] => (tt, s)
  | batch :: rest =>
      (tt, onWorld (λ w, foldl (flip act) w batch) (onScript (λ c, mkScript rest (answers c) (pinAnswers c)) s))
  end.

(** One access to a shared object. *)
Definition look {A} (f : World → A) : M A := interleave;; gets (f ∘ world).
Definition update {A} (f : World → A * World) : M A :=
  interleave;; ((λ s, let '(a, w) := f (world s) in (a, mkFlow w (own s) (script s) (log s))) : M A).
Definition change (f : World → World) : M unit := update (λ w, (tt, f w)).

Definition isCancelled : M bool := look token.
Definition setPhase (p : Operations.OperationPhase) : M unit := emit (EPhase p).
Definition flag (f : Flags → Flags) : M unit := modify (onOwn (onFlags f)).

(** ** The prompter behind the gate ([SerializingPrompter])

    [PromptSerializer::acquire] gives the card's slot, unless the operation is cancelled
    when its turn comes. *)

(** What an operation is given: its card, who asked and for what, the nonce of the agent's
    run, the serializer's [readerIdentityFor], and the card library's key of the reason
    that a secret was rejected. *)
Class Deps := {
  cardKey : string; depsRequester : string; depsArtifact : string;
  runNonce : string; readerIdentityFor : string → ReaderLabels.ReaderIdentity;
  preReadAuthFailedKey : string }.

Section Operation.
Context {D : Deps}.

Definition acquire : M bool := c ← isCancelled; mret (negb c).

Definition mint : M string :=
  n ← update (λ w, let n := u64 (minted w + 1) in (n, setMinted n w));
  mret (runNonce +:+ ":" +:+ pretty (Z.to_N n)).

Definition stamp (o : PromptOptions) (kind : PromptKind) : M PromptOptions :=
  id ← mint; mret (stampPrompt o id (readerIdentityFor cardKey) kind).

(** The dialog: its answer is the next of the script. *)
Definition showWindow (kind : PromptKind) (o : PromptOptions) : M PromptResult :=
  r ← gets (λ s, default (mkPrompt SError None None) (head (answers (script s))));
  modify (onScript (λ c, mkScript (others c) (tail (answers c)) (pinAnswers c)));;
  emit (EWindow kind o r);;
  mret r.

Definition showChangeWindow (o : PromptOptions) : M PinChangePromptResult :=
  r ← gets (λ s, default (mkPinChange SError None None) (head (pinAnswers (script s))));
  modify (onScript (λ c, mkScript (others c) (answers c) (tail (pinAnswers c))));;
  emit (EChangeWindow o r);;
  mret r.

(** The check that [requestCredential] and the gate share. *)
Definition stillWanted : M bool :=
  a ← gets (tries ∘ own);
  look (stillWantedFor cardKey a ∘ cache).

Definition raise (kind : PromptKind) (o : PromptOptions) : M PromptResult :=
  o ← stamp o kind; r ← showWindow kind o; mret (dismissIfEmpty r).

Definition requestPin (o : PromptOptions) : M PromptResult :=
  granted ← acquire;
  if granted : bool then raise PPin o else mret dismissed.

(** [requestCan], [requestMrz]. *)
Definition requestGated (kind : PromptKind) (o : PromptOptions) : M PromptResult :=
  granted ← acquire;
  if negb granted then mret dismissed
  else
    wanted ← stillWanted;
    if negb wanted then mret dismissed else raise kind o.

Definition requestPinChange (o : PromptOptions) : M PinChangePromptResult :=
  granted ← acquire;
  if negb granted then mret dismissedChange
  else o ← stamp o PChangePin; r ← showChangeWindow o; mret (dismissIfEmptyChange r).

(** ** From the cache, or from a dialog ([CredentialCache::requestCredential])

    Which of the optional out-parameters the caller passes. *)
Record Wiring := mkWiring {
  w_userCancelled : bool; w_markedWrong : bool; w_entryExpired : bool; w_helperTooOld : bool }.

Definition text (s : Secret) : MrzPayload.text := String.list_ascii_of_string s.
Definition untext (t : MrzPayload.text) : Secret := String.string_of_list_ascii t.

Definition buildCanResult (v : Secret) : option CredentialResult :=
  if existsb (Ascii.eqb MrzPayload.newline) (text v) then None else Some (ROk [(kindToken PCan, v)]).

Definition buildMrzResult (v : Secret) : option CredentialResult :=
  parts ← MrzPayload.parseMrzPayload (text v);
  Some (ROk [(kindToken PMrz, untext (MrzPayload.mrzInfo parts));
             ("documentNumber"%string, untext (MrzPayload.documentNumber parts));
             ("dateOfBirth"%string, untext (MrzPayload.dateOfBirth parts));
             ("dateOfExpiry"%string, untext (MrzPayload.dateOfExpiry parts))]).

(** The two kinds that are cached, and what their branches bind: the slot of the cache, the
    prompter's method and the builder. *)
Inductive Cached := CCan | CMrz.

#[export] Instance Cached_eq_dec : EqDecision Cached.
Proof. solve_decision. Defined.

Definition paceOf (c : Cached) : PaceSecretKind := match c with CCan => KCan | CMrz => KMrz end.
Definition getter (c : Cached) : string → Cache → option Secret := match c with CCan => getCan | CMrz => getMrz end.
Definition putter (c : Cached) : string → Secret → Cache → Cache := match c with CCan => putCan | CMrz => putMrz end.
Definition promptFn (c : Cached) : PromptKind := match c with CCan => PCan | CMrz => PMrz end.
Definition resultBuilder (c : Cached) : Secret → option CredentialResult :=
  match c with CCan => buildCanResult | CMrz => buildMrzResult end.

(** Why the earlier window of this card closed. *)
Definition silenced (w : Wiring) : M CredentialResult :=
  kind ← look (lastRefusalKindFor cardKey ∘ cache);
  if decide (kind = Cancelled) then when (w_userCancelled w) (flag (setUserCancelled true));; mret RCancelled
  else when (w_entryExpired w) (flag (setEntryExpired true));; mret (RError genericComm).

Definition answered (p : PromptResult) : bool :=
  match status p, secret p with SOk, Some _ => true | _, _ => false end.

(** A window closed empty: the card's entry says so. *)
Definition refused (kind : RefusalKind) : M unit :=
  change (onCache (noteLastPromptYieldedNothing cardKey true));;
  change (onCache (noteRefusal cardKey kind));;
  emit (ERefused kind).

Definition evict : M unit := change (onCache (invalidate cardKey));; emit EEvicted.

Definition store (c : Cached) (v : Secret) : M unit :=
  change (onCache (putter c cardKey v));; emit (ECache (paceOf c) v).

(** A prompt that came back with nothing of its own. *)
Definition unanswered (w : Wiring) (p : PromptResult) : M CredentialResult :=
  match status p with
  | SCancelled =>
      when (w_userCancelled w) (flag (setUserCancelled true));;
      refused Cancelled;;
      mret RCancelled
  | SError => flag (setPrompterFailed true);; mret (RError genericComm)
  | STimeout =>
      when (w_entryExpired w) (flag (setEntryExpired true));;
      refused Timeout;;
      mret (RError genericComm)
  | SHelperTooOld => when (w_helperTooOld w) (flag (setHelperTooOld true));; mret (RError genericComm)
  | SOk => mret (RError genericComm)
  end.

(** [MrzChoiceSink::offer], [take], [reset]. *)
Definition offer (v : Secret) : M unit := modify (onOwn (setSink (mkSink (Some v) true)));; emit (EOffer v).
Definition takeChoice : M (option Secret) :=
  p ← gets (payload ∘ sink ∘ own);
  modify (onOwn (setSink (mkSink None false)));;
  mret p.
Definition resetChoice : M unit := modify (onOwn (setSink (mkSink None false))).

(** A secret was typed: of another kind than asked, malformed, or to be used and kept. *)
Definition collected (c : Cached) (w : Wiring) (mrzChoice : bool) (p : PromptResult) (v : Secret) : M CredentialResult :=
  when (w_entryExpired w) (flag (setEntryExpired false));;
  change (onCache (noteLastPromptYieldedNothing cardKey false));;
  if match chosenKind p with Some k => negb (bool_decide (k = paceOf c)) | None => false end then
    if mrzChoice && bool_decide (paceOf c = KCan) && bool_decide (chosenKind p = Some KMrz)
    then offer v;; mret RCancelled
    else flag (setPrompterFailed true);; mret (RError genericComm)
  else
    match resultBuilder c v with
    | None => mret (RError genericComm)
    | Some result => store c v;; mret result
    end.

Definition prompted (c : Cached) (w : Wiring) (mrzChoice : bool) (o : PromptOptions) : M CredentialResult :=
  a ← gets (tries ∘ own);
  if match a with Some a => kMaxPaceAttempts <=? attempts a | None => false end then mret (RError preReadAuthFailed)
  else
    p ← requestGated (promptFn c) (match a with Some a => applyRetryContext a o | None => o end);
    stale ← if answered p then mret false else (wanted ← stillWanted; mret (negb wanted));
    if stale : bool then silenced w
    else match status p, secret p with
         | SOk, Some v => collected c w mrzChoice p v
         | _, _ => unanswered w p
         end.

Definition cacheOrPrompt (c : Cached) (w : Wiring) (mrzChoice : bool) (o : PromptOptions) : M CredentialResult :=
  cached ← look (getter c cardKey ∘ cache);
  match cached with
  | Some v =>
      match resultBuilder c v with
      | Some result => mret result
      | None => evict;; mret (RError genericComm)
      end
  | None =>
      wanted ← stillWanted;
      if negb wanted then silenced w else prompted c w mrzChoice o
  end.

Definition requestCredential (req : AuthRequirement) (w : Wiring) (mrzChoice : bool) (o : PromptOptions) :
  M CredentialResult :=
  match paceKind req with
  | Some KCan => cacheOrPrompt CCan w mrzChoice o
  | Some KMrz => cacheOrPrompt CMrz w mrzChoice o
  | _ => mret (RError genericComm)
  end.

(** ** The provider of the reading flows ([FlowPrelude]) *)

Definition isCardRejectionSignal (req : AuthRequirement) : M bool :=
  if bool_decide (reason req = Some preReadAuthFailedKey)
  then nothing ← look (lastPromptYieldedNothingFor cardKey ∘ cache); mret (negb nothing)
  else mret false.

Definition noteRejectedSecret (a : AttemptContext) : M unit :=
  change (onCache (markCredentialWrong cardKey));;
  modify (onOwn (setTries (Some (recordRejection preReadAuthFailedKey a))));;
  emit ERejected.

(** What the provider does on the signal, with or without a retry context. *)
Definition markRejected : M unit :=
  a ← gets (tries ∘ own);
  match a with
  | Some a => noteRejectedSecret a
  | None => change (onCache (markCredentialWrong cardKey));; emit ERejected
  end.

Definition withAltKinds (o : PromptOptions) : PromptOptions :=
  mkOptions (description o) (requester o) (artifact o) (cardLabel o) (pinLabel o) (minLength o) (maxLength o)
    (artifacts o) (attempt o) (lastError o) [kindToken PMrz] (promptId o) (promptReader o) (deadlineMs o)
    (altDeadlineMs o).

(** [mrzChoice] says whether a sink was passed. *)
Definition readProvider (w : Wiring) (offerMrzAlternative mrzChoice : bool) (o : PromptOptions)
  (req : AuthRequirement) : M CredentialResult :=
  setPhase Operations.AwaitingConsent;;
  markedNow ← isCardRejectionSignal req;
  when markedNow markRejected;;
  let offeringAlternative := offerMrzAlternative && mrzChoice && bool_decide (paceKind req = Some KCan) in
  cached ← if offeringAlternative then look (getMrz cardKey ∘ cache) else mret None;
  result ← match cached with
    | Some v => offer v;; mret RCancelled
    | None => requestCredential req w offeringAlternative (if offeringAlternative then withAltKinds o else o)
    end;
  when (w_markedWrong w) (match result with
    | ROk _ => flag (setMarkedWrong false)
    | _ => when markedNow (flag (setMarkedWrong true))
    end);;
  setPhase Operations.Authenticating;;
  emit (EServe req result);;
  mret result.

(** ** Sessions *)

Inductive OpenErrorKind := ReaderUnavailable | NoCardPresent | ProtocolError | SessionRefused.

Definition mapOpenError (k : OpenErrorKind) : Err.ErrorCode :=
  match k with
  | ReaderUnavailable => Err.CommunicationError
  | NoCardPresent => Err.CardRemoved
  | ProtocolError => Err.CommunicationError
  | SessionRefused => Err.CommunicationError
  end.

Inductive OpenOutcome :=
| OpenOk (candidates : CandidateList)
| OpenCancelled
| OpenFailed (code : Err.ErrorCode) (msgFallback : string).

(** [acquired] is what the session holder answers. *)
Definition openSession (acquired : (OpenErrorKind * string) + CandidateList) : M OpenOutcome :=
  c ← isCancelled;
  if c : bool then mret OpenCancelled
  else match acquired with
       | inl (kind, message) => mret (OpenFailed (mapOpenError kind) message)
       | inr candidates =>
           c ← isCancelled;
           if c : bool then mret OpenCancelled else mret (OpenOk candidates)
       end.

Definition openFailureOutcome (code : Err.ErrorCode) : Cred.CredentialOutcome :=
  if code =? Err.CardRemoved then Cred.CardRemoved else Cred.Unspecified.

(** [installScopedReadProvider] and the end of its guard's scope. *)
Definition install : M unit := modify (onOwn (setInstalled true));; emit EInstall.
Definition uninstall : M unit := modify (onOwn (setInstalled false));; emit EUninstall.

Definition scoped {A} (m : M A) : M A := install;; a ← m; uninstall;; mret a.

(** The card library at work: it calls the provider back and streams what it reads. *)
Inductive SeamStep := Ask (req : AuthRequirement) | Emit (g : ReadCache.GroupSnapshot).

Fixpoint walk (provider : AuthRequirement → M CredentialResult) (steps : list SeamStep) : M unit :=
  match steps with
  | [] => mret tt
  | Ask req :: steps => provider req;; walk provider steps
  | Emit g :: steps => emit (EGroup g);; walk provider steps
  end.

End Operation.
End Credentials.
