(* ===== verification/Flows.v ===== *)
(** * The flows of an operation

    Models the flows of [src/operations/]: reading a card's identity
    ([IdentityReadFlow.cpp]), certificates ([CertReadFlow.cpp]) and token information
    ([TokenInfoReadFlow.cpp]), listing its PINs ([CredentialListFlow.cpp]), signing one
    document ([SignFlow.cpp]) and several ([BatchSignFlow.cpp]), changing a PIN
    ([PinChangeFlow.cpp]) and activating a key ([KeyActivationFlow.cpp]), with the routing
    of [CardPluginRouting.h]. A flow opens the reader's session, puts its provider on it
    and calls the card library through a seam ([Seams.h]); the seam's behaviour, the
    secrets it asks for and what it answers, is an argument. *)
From stdpp Require Import gmap strings pretty.
From S2P Require Import Prelude Vocabulary Caches Operations Broker ReaderLabels Mrz Credentials.
Import Vocabulary Credentials.
Local Open Scope Z_scope.

Module Flows.

(** ** Which plugins are asked ([CardPluginRouting.h]) *)

Definition filterByCapability (cands : CandidateList) (required : Capability) : CandidateList :=
  List.filter (λ c, match c with Some p => hasCapability p required | None => false end) cands.

Definition identityCandidates (c : CandidateList) : CandidateList := filterByCapability c IdentityData.
Definition pkiCandidates (c : CandidateList) : CandidateList := filterByCapability c PKI.

Definition signingCandidates (cands : CandidateList) : CandidateList :=
  List.filter (λ c, match c with Some p => hasCapability p PKI && hasCapability p PinManagement | None => false end) cands.

(** The [std::find_if] and [std::rotate] of [prioritizeCandidate]. *)
Fixpoint rotateTo (found : option CardPlugin → bool) (before : CandidateList) (cands : CandidateList) : CandidateList :=
  match cands with
  | [] => before
  | c :: rest => if found c then c :: before ++ rest else rotateTo found (before ++ [c]) rest
  end.

Definition prioritizeCandidate (cands : CandidateList) (id : string) : CandidateList :=
  if String.eqb id EmptyString then cands
  else rotateTo (λ c, match c with Some p => String.eqb (pluginId p) id | None => false end) [] cands.

Definition offersMrzAlternative (candidates : CandidateList) : bool :=
  existsb (λ c, match c with Some p => hasCapability p EmrtdCrypto | None => false end) candidates.

(** ** Results *)

Inductive Outcome := FOk | FCancelled | FError | FInvalidRequest.

Record Result (A : Type) := mkResult {
  outcome : Outcome; code : Err.ErrorCode; value : option A; candidates : CandidateList;
  msgKey : string; msgFallback : string }.
Arguments mkResult {A}. Arguments outcome {A}. Arguments code {A}. Arguments value {A}.
Arguments candidates {A}. Arguments msgKey {A}. Arguments msgFallback {A}.

Definition makeError {A} (code : Err.ErrorCode) (msgKey msgFallback : string) : Result A :=
  mkResult FError code None [] msgKey msgFallback.
Definition makeCancelled {A} : Result A :=
  mkResult FCancelled Err.None_ None [] "op.cancelled" "Operation cancelled".
Definition makeOk {A} (a : A) (cands : CandidateList) (fallback : string) : Result A :=
  mkResult FOk Err.None_ (Some a) cands "op.ok" fallback.

Definition makeExpired {A} : Result A :=
  makeError Err.EntryExpired "op.entry_expired" "The entry window closed before a code was entered.".
Definition makeTooOld {A} : Result A :=
  makeError Err.CapabilityMissing "op.helper_too_old" "The credential window helper is out of date; restart your session.".

(** [SeamStatus] and its code. *)
Inductive SeamStatus := StOk | StAuthFailed | StUnsupportedCard | StCommunicationError | StCancelled.

#[export] Instance SeamStatus_eq_dec : EqDecision SeamStatus.
Proof. solve_decision. Defined.

Definition mapReadStatus (s : SeamStatus) : Err.ErrorCode :=
  match s with
  | StOk => Err.None_
  | StAuthFailed => Err.AuthFailed
  | StUnsupportedCard => Err.UnsupportedCard
  | StCommunicationError => Err.CommunicationError
  | StCancelled => Err.None_
  end.

Record ReadOutcome := mkReadOutcome {
  ro_status : SeamStatus; ro_snapshot : option ReadCache.CardReadSnapshot; ro_msgFallback : string }.

Record CertReadOutcome := mkCertReadOutcome {
  co_status : SeamStatus; co_certs : list ReadCache.CertSnapshot; co_msgFallback : string; co_derBytes : list (list Z) }.

Section Flow.
Context {D : Deps}.
Context (acquired : (OpenErrorKind * string) + CandidateList).

Abbreviation plain := (plainOptions depsRequester depsArtifact).

(** The flags and the retry context that a run starts with. *)
Definition noFlags : Flags := mkFlags false false false false false.

Definition freshRun : M unit :=
  g ← look (CredentialCache.refusalGenerationFor cardKey ∘ cache);
  modify (onOwn (λ o, mkOwn (Some (CredentialCache.newAttempts g)) noFlags (sink o) (batchPin o) (pinWiped o) (installed o))).

Definition theFlags : M Flags := gets (flags ∘ own).

(** The session is open: run the rest with its candidates. *)
Definition opened {A} (k : CandidateList → M (Result A)) : M (Result A) :=
  o ← openSession acquired;
  match o with
  | OpenCancelled => mret makeCancelled
  | OpenFailed code fallback => mret (makeError code "op.open_failed" fallback)
  | OpenOk candidates => k candidates
  end.

(** A read that failed: what the two reading flows do and report. *)
Definition readFailed {A} (s : SeamStatus) (fallback : string) : M (Result A) :=
  when (bool_decide (s = StAuthFailed)) (
    f ← theFlags;
    a ← gets (tries ∘ own);
    when (negb (entryExpired f || userCancelled f) && negb (markedWrong f))
      (match a with Some a => noteRejectedSecret a | None => mret tt end);;
    emit EClearPace);;
  f ← theFlags;
  mret (if helperTooOld f then makeTooOld
        else if negb (prompterFailed f) && userCancelled f then makeCancelled
        else if negb (prompterFailed f) && entryExpired f then makeExpired
        else makeError (if prompterFailed f then Err.PrompterError else mapReadStatus s) "op.read_failed" fallback).

(** ** Identity ([IdentityReadFlow]) *)
Section Identity.
Context (reader : nat → list SeamStep * ReadOutcome).
Context (depositMrz : CandidateList → MrzPayload.MrzParts → bool) (onCardType : bool).

Definition readOnce (n : nat) (idCands : CandidateList) : M ReadOutcome :=
  setPhase Operations.Authenticating;;
  setPhase Operations.Reading;;
  emit (ERead idCands);;
  walk (readProvider (mkWiring true true true true) (offersMrzAlternative idCands) true plain) (reader n).1;;
  mret (reader n).2.

(** The second read, with the MRZ chosen in the dialog: a result, or the second outcome. *)
Definition renegotiate (idCands : CandidateList) (out : ReadOutcome) :
  M (Result ReadCache.CardReadSnapshot + ReadOutcome) :=
  chosen ← takeChoice;
  match chosen with
  | None => mret (inr out)
  | Some v =>
      match MrzPayload.parseMrzPayload (text v) with
      | None =>
          let mapped := mapReadStatus (ro_status out) in
          mret (inl (makeError (if mapped =? Err.None_ then Err.PrompterError else mapped) "op.read_failed" (ro_msgFallback out)))
      | Some parts =>
          store CMrz v;;
          emit (EDeposit parts);;
          if negb (depositMrz idCands parts) then
            mret (inl (makeError Err.CapabilityMissing "op.read_failed"
              "No installed card driver can accept the entered document data for this card."))
          else
            c ← isCancelled;
            if c : bool then mret (inl makeCancelled)
            else out ← readOnce 1 idCands; mret (inr out)
      end
  end.

Definition readConcluded (candidates : CandidateList) (out : ReadOutcome) : M (Result ReadCache.CardReadSnapshot) :=
  c ← if decide (ro_status out = StCancelled) then mret true else isCancelled;
  if c : bool then mret makeCancelled
  else match ro_status out, ro_snapshot out with
       | StOk, Some s =>
           when (onCardType && negb (String.eqb (ReadCache.crs_cardType s) EmptyString))
             (emit (ECardType (ReadCache.crs_cardType s)));;
           mret (makeOk s candidates "Read completed")
       | st, _ => readFailed st (ro_msgFallback out)
       end.

Definition identityRun (candidates : CandidateList) : M (Result ReadCache.CardReadSnapshot) :=
  let idCands := identityCandidates candidates in
  c ← isCancelled;
  if c : bool then mret makeCancelled
  else
    out ← readOnce 0 idCands;
    c ← isCancelled;
    if c : bool then mret makeCancelled
    else
      t ← gets (taken ∘ sink ∘ own);
      r ← if t : bool then renegotiate idCands out else mret (inr out);
      match r with
      | inl result => mret result
      | inr out => readConcluded candidates out
      end.

Definition identityRead : M (Result ReadCache.CardReadSnapshot) :=
  opened (λ candidates,
    freshRun;;
    r ← scoped (identityRun candidates);
    resetChoice;;
    mret r).

End Identity.

(** ** Certificates ([CertReadFlow]) *)
Section Certificates.
Context (certReader : list SeamStep * CertReadOutcome).
Context (verify : list Z → Z * list string).

Definition securityTokenLabel (token : string) : string :=
  if String.eqb token "trusted" then "Trusted"
  else if String.eqb token "untrusted-root" then "Untrusted Root"
  else if String.eqb token "broken-chain" then "Broken Chain"
  else if String.eqb token "invalid" then "Invalid"
  else if String.eqb token "expired" then "Expired"
  else if String.eqb token "revoked" then "Revoked"
  else if String.eqb token "offline-unverified" then "Offline (Unverified)"
  else token.

Definition makeSecurityGroup (tokens : list string) : ReadCache.GroupSnapshot :=
  ReadCache.mkGroup "security" "cert.group.security" "Security"
    (map (λ t, ReadCache.mkField t ("cert.security." +:+ t) (securityTokenLabel t) ReadCache.Text t []) tokens).

(** A [TrustVerdict] is its status and its tokens. *)
Definition applyTrustVerdict (c : ReadCache.CertSnapshot) (verdict : Z * list string) : ReadCache.CertSnapshot :=
  ReadCache.mkCert (ReadCache.certId c) (ReadCache.signingCapable c) (ReadCache.keyUsageBits c) (ReadCache.ekuOids c)
    (ReadCache.chainSubjectCns c) verdict.1 (ReadCache.alwaysAuthenticate c) (ReadCache.keyId c) (ReadCache.keyType c)
    (ReadCache.keyBits c) (ReadCache.canDerive c) verdict.2
    (ReadCache.certFields c ++ match verdict.2 with [] => [] | _ => [makeSecurityGroup verdict.2] end).

(** The loop over the certificates that have a DER. *)
Fixpoint verifyAll (certs : list ReadCache.CertSnapshot) (ders : list (list Z)) : list ReadCache.CertSnapshot :=
  match certs, ders with
  | c :: certs, d :: ders => applyTrustVerdict c (verify d) :: verifyAll certs ders
  | _, _ => certs
  end.

Definition certRun (candidates : CandidateList) : M (Result (list ReadCache.CertSnapshot)) :=
  c ← isCancelled;
  if c : bool then mret makeCancelled
  else
    setPhase Operations.Authenticating;;
    setPhase Operations.Reading;;
    emit (EReadCerts (pkiCandidates candidates));;
    walk (readProvider (mkWiring true true true true) false false plain) certReader.1;;
    let out := certReader.2 in
    c ← if decide (co_status out = StCancelled) then mret true else isCancelled;
    if c : bool then mret makeCancelled
    else match co_status out with
         | StOk => mret (makeOk (verifyAll (co_certs out) (co_derBytes out)) candidates "Read completed")
         | st => readFailed st (co_msgFallback out)
         end.

Definition certRead : M (Result (list ReadCache.CertSnapshot)) :=
  opened (λ candidates, freshRun;; scoped (certRun candidates)).

End Certificates.

(** ** Token information ([TokenInfoReadFlow]) *)
Section TokenInfo.
Context (reader : list SeamStep * ReadCache.GroupSnapshot).

Definition tokenInfoRun (candidates : CandidateList) : M (Result ReadCache.CardReadSnapshot) :=
  c ← isCancelled;
  if c : bool then mret makeCancelled
  else
    setPhase Operations.Authenticating;;
    setPhase Operations.Reading;;
    emit (ETokenInfo (pkiCandidates candidates));;
    walk (readProvider (mkWiring true false true true) false false plain) reader.1;;
    c ← isCancelled;
    if c : bool then mret makeCancelled
    else
      f ← theFlags;
      mret (if helperTooOld f then makeTooOld
            else if prompterFailed f then makeError Err.PrompterError "op.read_failed" "prompter unavailable"
            else if userCancelled f then makeCancelled
            else if entryExpired f then makeExpired
            else makeOk (ReadCache.mkRead EmptyString [reader.2]) candidates "Read completed").

Definition tokenInfoRead : M (Result ReadCache.CardReadSnapshot) :=
  opened (λ candidates, freshRun;; scoped (tokenInfoRun candidates)).

End TokenInfo.

(** ** The PINs of a card ([CredentialListFlow]) *)
Section CredentialList.
Context (list_ : list SeamStep * (list Records.PinStatusEntry * string)) (now : Z).

Definition listRun (candidates : CandidateList) : M (Result Records.CredentialSnapshot) :=
  c ← isCancelled;
  if c : bool then mret makeCancelled
  else
    setPhase Operations.Authenticating;;
    setPhase Operations.Reading;;
    emit (EList (filterByCapability candidates PinManagement));;
    walk (readProvider (mkWiring true false true true) false false plain) list_.1;;
    let '(entries, plugin) := list_.2 in
    c ← isCancelled;
    if c : bool then mret makeCancelled
    else
      f ← theFlags;
      let empty := bool_decide (entries = []) in
      if userCancelled f then mret makeCancelled
      else if helperTooOld f then mret makeTooOld
      else if empty && prompterFailed f
      then mret (makeError Err.PrompterError "op.read_failed" "Credential prompt unavailable")
      else if empty && entryExpired f then mret makeExpired
      else match mapM Records.toCredentialRecord entries with
           | None => mret (makeError Err.ParseError "op.read_failed" "Malformed credential metadata")
           | Some records =>
               let snapshot := Records.mkSnapshot (Records.disambiguateCredentialIds records) 0 plugin in
               version ← update (λ w, let '(v, c) := SnapshotCache.put cardKey snapshot now (snapshots w) in
                                      (v, onSnapshots (λ _, c) w));
               mret (makeOk (Records.mkSnapshot (Records.records snapshot) version plugin) candidates "Read completed")
           end.

Definition credentialList : M (Result Records.CredentialSnapshot) :=
  opened (λ candidates, freshRun;; scoped (listRun candidates)).

End CredentialList.

(** ** Signing ([SignFlow], [BatchSignFlow]) *)

Inductive SignStatus :=
| SgOk | SgKeyNotFound | SgKeyAmbiguous | SgCertExpiredBlocked | SgChainIncomplete | SgTsaUnreachable | SgAuthFailed
| SgCardBlocked | SgCommunicationError | SgCancelled | SgSigningEngineError | SgEngineUnavailable | SgInvalidDocument.

#[export] Instance SignStatus_eq_dec : EqDecision SignStatus.
Proof. solve_decision. Defined.

Record SignOutcome := mkSignOutcome {
  so_status : SignStatus; so_signedDocumentBytes : list Z; so_resolvedFormat : string; so_resolvedLevel : string;
  so_tsaUsed : bool; so_chainComplete : bool; so_msgFallback : string }.

Definition mapSignStatus (s : SignStatus) : Err.ErrorCode :=
  match s with
  | SgOk => Err.None_
  | SgKeyNotFound => Err.KeyNotFound
  | SgKeyAmbiguous => Err.KeyAmbiguous
  | SgCertExpiredBlocked => Err.CertExpiredBlocked
  | SgChainIncomplete => Err.ChainIncomplete
  | SgTsaUnreachable => Err.TsaUnreachable
  | SgAuthFailed => Err.AuthFailed
  | SgCardBlocked => Err.CredentialBlocked
  | SgCommunicationError => Err.CommunicationError
  | SgCancelled => Err.None_
  | SgSigningEngineError => Err.SigningEngineError
  | SgEngineUnavailable => Err.EngineUnavailable
  | SgInvalidDocument => Err.InvalidDocument
  end.

Definition isQualifiedSignLevel (level : string) : bool :=
  String.eqb level "b-t" || String.eqb level "b-lt" || String.eqb level "b-lta".

Definition withLengths (req : AuthRequirement) (o : PromptOptions) : PromptOptions :=
  match Credentials.fields req with
  | [] => o
  | (mn, mx) :: _ =>
      mkOptions (description o) (requester o) (artifact o) (cardLabel o) (pinLabel o)
        (match mn with Some n => u32 n | None => Credentials.minLength o end)
        (match mx with Some n => u32 n | None => Credentials.maxLength o end) (artifacts o) (attempt o) (lastError o)
        (altKinds o) (promptId o) (promptReader o) (deadlineMs o) (altDeadlineMs o)
  end.

Definition withDocuments (summary : string) (names : list string) (o : PromptOptions) : PromptOptions :=
  mkOptions summary (requester o) (artifact o) (cardLabel o) (pinLabel o) (Credentials.minLength o)
    (Credentials.maxLength o) names (attempt o) (lastError o) (altKinds o) (promptId o) (promptReader o)
    (deadlineMs o) (altDeadlineMs o).

(** The signing PIN: asked for every time, never cached. What is done with the PIN before
    the machine's phases start again is [keep]. *)
Definition pinProvider (keep : Secret → M unit) (o : PromptOptions) (req : AuthRequirement) : M CredentialResult :=
  setPhase Operations.AwaitingConsent;;
  p ← requestPin (withLengths req o);
  match status p, secret p with
  | SOk, Some v =>
      keep v;;
      setPhase Operations.Authenticating;;
      setPhase Operations.Signing;;
      mret (ROk [(kindToken PPin, v)])
  | SCancelled, _ => mret RCancelled
  | st, _ =>
      when (bool_decide (st = SError)) (flag (setPrompterFailed true));;
      when (bool_decide (st = STimeout)) (flag (setEntryExpired true));;
      when (bool_decide (st = SHelperTooOld)) (flag (setHelperTooOld true));;
      mret (RError noText)
  end.

(** The secret of the channel, cached like that of a read. *)
Definition channelProvider (o : PromptOptions) (req : AuthRequirement) : M CredentialResult :=
  setPhase Operations.AwaitingConsent;;
  rejected ← isCardRejectionSignal req;
  when rejected markRejected;;
  requestCredential req (mkWiring false false true true) false o.

Definition served (provider : AuthRequirement → M CredentialResult) (req : AuthRequirement) : M CredentialResult :=
  r ← provider req; emit (EServe req r);; mret r.

Definition signProvider (displayName : string) (req : AuthRequirement) : M CredentialResult :=
  let o := withDocuments displayName [] (plainOptions depsRequester "signature") in
  served (λ req, match purpose req with
                 | Credentials.Signing => pinProvider (λ _, mret tt) o req
                 | OtherPurpose => channelProvider o req
                 end) req.

(** What a finished document is. *)
Record Signed := mkSigned {
  signedBytes : list Z; resolvedFormat : string; resolvedLevel : string; tsaUsed : bool; chainComplete : bool }.

Definition signedOf (out : SignOutcome) : Signed :=
  mkSigned (so_signedDocumentBytes out) (so_resolvedFormat out) (so_resolvedLevel out) (so_tsaUsed out) (so_chainComplete out).

Section Sign.
Context (signer : SignParams → list SeamStep * SignOutcome) (params : SignParams).

Definition signRun (candidates : CandidateList) : M (Result Signed) :=
  c ← isCancelled;
  if c : bool then mret makeCancelled
  else
    setPhase Operations.Reading;;
    emit (ESign params (signingCandidates candidates));;
    walk (signProvider (sp_displayName params)) (signer params).1;;
    let out := (signer params).2 in
    c ← if decide (so_status out = SgCancelled) then mret true else isCancelled;
    if c : bool then mret makeCancelled
    else
      when (bool_decide (so_status out = SgAuthFailed) || bool_decide (so_status out = SgCardBlocked))
        (evict;; emit EClearPace);;
      match so_status out with
      | SgOk =>
          when (isQualifiedSignLevel (so_resolvedLevel out)) (setPhase Operations.Timestamping);;
          mret (makeOk (signedOf out) candidates "Signature produced")
      | st =>
          f ← theFlags;
          mret (if helperTooOld f then makeTooOld
                else if negb (prompterFailed f) && entryExpired f then makeExpired
                else makeError (if prompterFailed f then Err.PrompterError else mapSignStatus st) "op.sign_failed"
                       (so_msgFallback out))
      end.

Definition sign : M (Result Signed) :=
  opened (λ candidates, freshRun;; scoped (signRun candidates)).

End Sign.

(** *** A batch *)
Section Batch.
Context (signer : nat → SignParams → list SeamStep * SignOutcome) (params : SignParams).

(** The documents' display names and bytes. *)
Context (documents : list (string * list Z)).

Definition isValidBatchDocumentCount (count : nat) : bool := (1 <=? count)%nat && (count <=? 12)%nat.

Record BatchSignRow := mkRow { row_displayName : string; row_signed : Signed; row_code : Err.ErrorCode }.

Definition unsigned : Signed := mkSigned [] EmptyString EmptyString false false.

Definition mapRowStatus (s : SignStatus) : Err.ErrorCode :=
  match s with
  | SgAuthFailed => Err.CredentialWrong
  | SgCardBlocked => Err.CredentialBlocked
  | s => mapSignStatus s
  end.

Definition isHaltingStatus (s : SignStatus) : bool :=
  bool_decide (s = SgAuthFailed) || bool_decide (s = SgCardBlocked).

Definition summarizeBatch (names : list string) : string :=
  let out := pretty (N.of_nat (length names)) +:+ (if (length names =? 1)%nat then " document" else " documents") in
  let shown := take 3 names in
  match shown with
  | [] => out
  | _ => out +:+ ": " +:+ String.concat ", " shown +:+
         (if (length shown <? length names)%nat
          then " (+" +:+ pretty (N.of_nat (length names - length shown)) +:+ " more)" else "")
  end.

Definition batchProvider (req : AuthRequirement) : M CredentialResult :=
  let names := map fst documents in
  let o := plainOptions depsRequester "signature-batch" in
  served (λ req, match purpose req with
    | Credentials.Signing =>
        held ← gets (batchPin ∘ own);
        match held with
        | Some v => mret (ROk [(kindToken PPin, v)])
        | None => pinProvider (λ v, s ← gets (pinWiped ∘ own); modify (onOwn (setPin (Some v) s)))
                    (withDocuments (summarizeBatch names) names o) req
        end
    | OtherPurpose => channelProvider o req
    end) req.

(** The loop's variables besides the rows: how many were signed, the last code, and the
    code the batch halted with. *)
Record BatchState := mkBatch { successCount : nat; lastCode : Err.ErrorCode; halted : option Err.ErrorCode }.

(** Why a document was not signed: the code, and whether the batch halts. *)
Definition classify (st : SignStatus) : M (Err.ErrorCode * bool) :=
  f ← theFlags;
  if helperTooOld f then mret (Err.CapabilityMissing, true)
  else if prompterFailed f then mret (Err.PrompterError, true)
  else if entryExpired f then mret (Err.EntryExpired, true)
  else if isHaltingStatus st then
    evict;;
    emit EClearPace;;
    mret (mapRowStatus st, true)
  else mret (mapRowStatus st, false).

(** One document: [None] ends the batch as cancelled. *)
Definition signOne (signCands : CandidateList) (i : nat) (doc : string * list Z) (b : BatchState) :
  M (option (BatchSignRow * BatchState)) :=
  match halted b with
  | Some haltCode => mret (Some (mkRow doc.1 unsigned haltCode, mkBatch (successCount b) haltCode (Some haltCode)))
  | None =>
      c ← isCancelled;
      if c : bool then mret None
      else
        let p := mkSignParams (sp_certId params) doc.2 (sp_format params) (sp_level params) (sp_packaging params)
          (sp_allowExpired params) doc.1 (sp_reason params) (sp_location params) (sp_tsaUrl params) (sp_visual params) in
        emit (ESign p signCands);;
        walk batchProvider (signer i p).1;;
        let out := (signer i p).2 in
        c ← if decide (so_status out = SgCancelled) then mret true else isCancelled;
        if c : bool then mret None
        else match so_status out with
             | SgOk =>
                 when (isQualifiedSignLevel (so_resolvedLevel out)) (setPhase Operations.Timestamping);;
                 mret (Some (mkRow doc.1 (signedOf out) Err.None_, mkBatch (S (successCount b)) Err.None_ None))
             | st =>
                 '(code, halts) ← classify st;
                 mret (Some (mkRow doc.1 unsigned code,
                   mkBatch (successCount b) code (if halts : bool then Some code else None)))
             end
  end.

Fixpoint signDocuments (signCands : CandidateList) (i : nat) (docs : list (string * list Z)) (b : BatchState) :
  M (option (list BatchSignRow * BatchState)) :=
  match docs with
  | [] => mret (Some ([], b))
  | doc :: docs =>
      r ← signOne signCands i doc b;
      match r with
      | None => mret None
      | Some (row, b) =>
          rest ← signDocuments signCands (S i) docs b;
          mret ('(rows, b) ← rest; Some (row :: rows, b))
      end
  end.

Definition batchRun (candidates : CandidateList) : M (Result (list BatchSignRow)) :=
  c ← isCancelled;
  if c : bool then mret makeCancelled
  else
    r ← signDocuments (signingCandidates candidates) 0 documents (mkBatch 0 Err.None_ None);
    mret match r with
    | None => makeCancelled
    | Some (rows, b) =>
        if (0 <? successCount b)%nat then mkResult FOk Err.None_ (Some rows) [] "op.ok" "Batch signature produced"
        else mkResult FError (lastCode b) (Some rows) [] "op.sign_failed" "No document in the batch was signed"
    end.

(** [BatchPinHolder::wipe], run by a scope guard on every way out. *)
Definition wipePin : M unit := modify (onOwn (setPin None true)).

Definition batchSign : M (Result (list BatchSignRow)) :=
  r ← (if negb (isValidBatchDocumentCount (length documents))
       then mret (mkResult FInvalidRequest Err.None_ None [] "op.invalid_request" "Batch document count must be between 1 and 12")
       else opened (λ candidates, freshRun;; scoped (batchRun candidates)));
  wipePin;;
  mret r.

End Batch.

(** ** Changing a PIN ([PinChangeFlow]) and activating a key ([KeyActivationFlow]) *)

(** [Plugin::PINResult]. *)
Record PINResult := mkPINResult {
  pr_outcome : Records.PINResultOutcome; pr_retriesLeft : option Z; pr_blocked : bool }.

Record CredentialOpResult := mkOpResult {
  op_outcome : Cred.CredentialOutcome; op_retriesLeft : option Z; op_blocked : bool }.

Definition resultWith (o : Cred.CredentialOutcome) : CredentialOpResult := mkOpResult o None false.

Definition mapPinResult (lm : PINResult) : CredentialOpResult :=
  mkOpResult (Records.toCredentialOutcome (pr_outcome lm)) (pr_retriesLeft lm) (pr_blocked lm).

Record PinManageRequest := mkPinManage { pm_pinId : string; pm_verb : string; pm_activateKey : bool }.

Definition isKnownVerb (verb : string) : bool :=
  String.eqb verb "change" || String.eqb verb "unblock" || String.eqb verb "activate_pin".

(** The position of the addressed record, which the code keeps as a pointer. *)
Definition findRecord (snapshot : option Records.CredentialSnapshot) (pinId : string) :
  option (nat * Records.CredentialRecord) :=
  s ← snapshot; list_find (λ r, Records.id r = pinId) (Records.records s).

Definition validatePinManageRequest (r : PinManageRequest) (snapshot : option Records.CredentialSnapshot) :
  result Broker.EntryError unit :=
  if negb (isKnownVerb (pm_verb r)) then Err Broker.UnknownVerb
  else if pm_activateKey r && negb (String.eqb (pm_verb r) "activate_pin") then Err Broker.InvalidCombination
  else match findRecord snapshot (pm_pinId r), snapshot with
       | Some (i, record), Some s =>
           if existsb (λ '(j, other), negb (j =? i)%nat && String.eqb (Records.label other) (Records.label record))
                (imap pair (Records.records s))
           then Err Broker.AmbiguousCredential else Ok tt
       | _, _ => Err Broker.UnknownCredential
       end.

(** The post-mutation rule: what was cached of a card that was reached is dropped. *)
Definition dropReads : M unit :=
  change (onSnapshots (SnapshotCache.invalidate cardKey));;
  change (onReads (ReadCache.invalidate cardKey)).

Definition bounded (o : PromptOptions) (record : Records.CredentialRecord) (positive : bool) : PromptOptions :=
  let bound l old := match l with Some n => if positive && (n <=? 0) then old else u32 n | None => old end in
  mkOptions (description o) (requester o) (artifact o) (cardLabel o) (pinLabel o)
    (bound (Records.minLength record) (Credentials.minLength o)) (bound (Records.maxLength record) (Credentials.maxLength o))
    (artifacts o) (attempt o) (lastError o) (altKinds o) (promptId o) (promptReader o) (deadlineMs o) (altDeadlineMs o).

Definition withLabels (card pin : string) (o : PromptOptions) : PromptOptions :=
  mkOptions (description o) (requester o) (artifact o) card pin (Credentials.minLength o) (Credentials.maxLength o)
    (artifacts o) (attempt o) (lastError o) (altKinds o) (promptId o) (promptReader o) (deadlineMs o) (altDeadlineMs o).

(** The flags of the channel prompts other than a failed prompter are not wired here. *)
Abbreviation mutationProvider := (readProvider (mkWiring false false false false) false false plain).

Section PinChange.
Context (changePIN : CandidateList → string → Secret → Secret → list SeamStep * PINResult).
Context (readerName : string) (snapshot : option Records.CredentialSnapshot) (request : PinManageRequest).

(** The result, and whether the card was reached. *)
Definition changeRun (record : Records.CredentialRecord) (listPluginId : string) (candidates : CandidateList) :
  M (CredentialOpResult * bool) :=
  let pinCandidates := prioritizeCandidate (filterByCapability candidates PinManagement) listPluginId in
  c ← isCancelled;
  if c : bool then mret (resultWith Cred.UserCancelled, false)
  else
    setPhase Operations.AwaitingConsent;;
    p ← requestPinChange (bounded (withLabels readerName (Records.label record) plain) record false);
    match pcStatus p, current p, newPin p with
    | SCancelled, _, _ => mret (resultWith Cred.UserCancelled, false)
    | STimeout, _, _ => mret (resultWith Cred.EntryExpired, false)
    | SOk, Some old, Some new =>
        setPhase Operations.Authenticating;;
        emit (EChangePin pinCandidates (Records.label record) old new);;
        let seam := changePIN pinCandidates (Records.label record) old new in
        walk mutationProvider seam.1;;
        when (match pr_outcome seam.2 with Records.PinOk => true | _ => false end) (emit EErasePin);;
        mret (mapPinResult seam.2, true)
    | _, _, _ => mret (resultWith Cred.MissingFields, false)
    end.

Definition runPinManage : M CredentialOpResult :=
  '(result, reachedCard) ←
    match findRecord snapshot (pm_pinId request), snapshot with
    | Some (_, record), Some s =>
        if (String.eqb (pm_verb request) "unblock" && negb (Records.unblockable record)) ||
           (String.eqb (pm_verb request) "activate_pin" && negb (Records.activatable record)) ||
           (String.eqb (pm_verb request) "change" && negb (Records.canChange record)) ||
           negb (String.eqb (pm_verb request) "change")
        then mret (resultWith Cred.Unsupported, false)
        else
          o ← openSession acquired;
          match o with
          | OpenCancelled => mret (resultWith Cred.UserCancelled, false)
          | OpenFailed code _ => mret (resultWith (openFailureOutcome code), false)
          | OpenOk candidates => freshRun;; scoped (changeRun record (Records.listPluginId s) candidates)
          end
    | _, _ => mret (resultWith Cred.Unspecified, false)
    end;
  when reachedCard dropReads;;
  mret result.

End PinChange.

Section KeyActivation.
Context (activateSigningKey : CandidateList → Secret → list SeamStep * PINResult).
Context (record : Records.CredentialRecord) (listPluginId : string).

Definition activationRun (candidates : CandidateList) : M (CredentialOpResult * bool) :=
  let signCands := prioritizeCandidate (signingCandidates candidates) listPluginId in
  c ← isCancelled;
  if c : bool then mret (resultWith Cred.UserCancelled, false)
  else
    setPhase Operations.AwaitingConsent;;
    p ← requestPin (bounded plain record true);
    match status p, secret p with
    | SCancelled, _ => mret (resultWith Cred.UserCancelled, false)
    | STimeout, _ => mret (resultWith Cred.EntryExpired, false)
    | SOk, Some pin =>
        setPhase Operations.Authenticating;;
        emit (EActivateKey signCands pin);;
        let seam := activateSigningKey signCands pin in
        walk mutationProvider seam.1;;
        mret (mapPinResult seam.2, true)
    | _, _ => mret (resultWith Cred.MissingFields, false)
    end.

Definition runKeyActivation : M CredentialOpResult :=
  '(result, reachedCard) ←
    (if negb (Records.keyActivatable record) then mret (resultWith Cred.Unsupported, false)
     else
       c ← isCancelled;
       if c : bool then mret (resultWith Cred.UserCancelled, false)
       else
         o ← openSession acquired;
         match o with
         | OpenCancelled => mret (resultWith Cred.UserCancelled, false)
         | OpenFailed code _ => mret (resultWith (openFailureOutcome code), false)
         | OpenOk candidates => freshRun;; scoped (activationRun candidates)
         end);
  when reachedCard dropReads;;
  mret result.

End KeyActivation.

End Flow.
End Flows.
