(* ===== verification/FlowSafety.v ===== *)
(** * What a flow hands to the card

    A logic for the programs of [Credentials] and [Flows] ([wp]), and the discipline their
    logs keep: a secret that the card library gets was typed for this card and this kind,
    in this operation or an earlier one, and has not been rejected since. *)
From stdpp Require Import gmap strings pretty.
From S2P Require Import Prelude Vocabulary Caches Operations ReaderLabels Mrz Credentials Flows.
Import Vocabulary Credentials Flows.
Local Open Scope Z_scope.

(** ** Weakest preconditions *)
Module FlowLogic.

Create HintDb keeps discriminated.

Definition wp {A} (m : M A) (Q : A → Flow → Prop) (s : Flow) : Prop := Q (m s).1 (m s).2.

(** What the other threads may have done before an access. *)
Definition env (s s' : Flow) : Prop :=
  s' = s ∨ ∃ batch rest, others (script s) = batch :: rest ∧
    s' = mkFlow (foldl (flip act) (world s) batch) (own s) (mkScript rest (answers (script s)) (pinAnswers (script s))) (log s).

Lemma wp_ret {A} (Q : A → Flow → Prop) (a : A) s : Q a s → wp (mret a) Q s.
Proof. done. Qed.

Lemma wp_bind {A B} (m : M A) (k : A → M B) (R : B → Flow → Prop) s : wp m (λ a s', wp (k a) R s') s → wp (m ≫= k) R s.
Proof. unfold wp, mbind, M_bind. by destruct (m s). Qed.

Lemma wp_gets {A} (Q : A → Flow → Prop) (f : Flow → A) s : Q (f s) s → wp (gets f) Q s.
Proof. done. Qed.

Lemma wp_interleave (K : unit → Flow → Prop) s : (∀ s', env s s' → K tt s') → wp interleave K s.
Proof.
  intros H. unfold wp, interleave. destruct (others (script s)) as [|batch rest] eqn:E; apply H; [by left|].
  right. exists batch, rest. split; [done|]. unfold onWorld, onScript. by destruct s as [w o [] l].
Qed.

Lemma wp_look {A} (Q : A → Flow → Prop) (f : World → A) s : (∀ s', env s s' → Q (f (world s')) s') → wp (look f) Q s.
Proof. intros H. apply wp_bind, wp_interleave. exact H. Qed.

Lemma wp_update {A} (Q : A → Flow → Prop) (f : World → A * World) s :
  (∀ s', env s s' → Q (f (world s')).1 (mkFlow (f (world s')).2 (own s') (script s') (log s'))) → wp (update f) Q s.
Proof.
  intros H. apply wp_bind, wp_interleave. intros s' Hs'. specialize (H s' Hs'). unfold wp. cbn.
  by destruct (f (world s')).
Qed.

Lemma wp_mono {A} (Q Q' : A → Flow → Prop) (m : M A) s : wp m Q s → (∀ a s', Q a s' → Q' a s') → wp m Q' s.
Proof. intros H HQ. by apply HQ. Qed.

Lemma wp_modify (Q : unit → Flow → Prop) f s : Q tt (f s) → wp (modify f) Q s.
Proof. done. Qed.

Lemma wp_emit (Q : unit → Flow → Prop) e s :
  Q tt (mkFlow (world s) (own s) (script s) (e :: log s)) → wp (emit e) Q s.
Proof. done. Qed.

Lemma wp_change (Q : unit → Flow → Prop) f s :
  (∀ s', env s s' → Q tt (mkFlow (f (world s')) (own s') (script s') (log s'))) → wp (change f) Q s.
Proof. intros H. by apply wp_update. Qed.

Lemma wp_when (Q : unit → Flow → Prop) (b : bool) m s :
  (b = true → wp m Q s) → (b = false → Q tt s) → wp (when b m) Q s.
Proof. destruct b; intros H1 H2; [by apply H1 | by apply H2]. Qed.

(** A program that keeps an invariant. *)
Definition keeps (I : Flow → Prop) {A} (m : M A) : Prop := ∀ s, I s → wp m (λ _, I) s.

(** An invariant that the other threads respect. *)
Definition stable (I : Flow → Prop) : Prop := ∀ s s', I s → env s s' → I s'.

Section Keeps.
Context (I : Flow → Prop) (HI : stable I).

Lemma keeps_ret {A} (a : A) : keeps I (mret a).
Proof. by intros s Hs. Qed.

Lemma keeps_bind {A B} (m : M A) (k : A → M B) : keeps I m → (∀ a, keeps I (k a)) → keeps I (m ≫= k).
Proof. intros Hm Hk s Hs. apply wp_bind. eapply wp_mono; [by apply Hm|]. intros a s' Hs'. by apply Hk. Qed.

Lemma keeps_gets {A} (f : Flow → A) : keeps I (gets f).
Proof. by intros s Hs. Qed.

Lemma keeps_look {A} (f : World → A) : keeps I (look f).
Proof using HI. intros s Hs. apply wp_look. intros s' Hs'. by eapply HI. Qed.

Lemma keeps_when b m : keeps I m → keeps I (when b m).
Proof. intros Hm s Hs. by apply wp_when; intros ?; [apply Hm|]. Qed.

Lemma keeps_change f : (∀ s, I s → I (mkFlow (f (world s)) (own s) (script s) (log s))) → keeps I (change f).
Proof using HI. intros Hf s Hs. apply wp_change. intros s' Hs'. apply Hf. by eapply HI. Qed.

Lemma keeps_update {A} (f : World → A * World) :
  (∀ s, I s → I (mkFlow (f (world s)).2 (own s) (script s) (log s))) → keeps I (update f).
Proof using HI. intros Hf s Hs. apply wp_update. intros s' Hs'. apply Hf. by eapply HI. Qed.

Lemma keeps_modify f : (∀ s, I s → I (f s)) → keeps I (modify f).
Proof. intros Hf s Hs. by apply Hf. Qed.

Lemma keeps_emit e : (∀ s, I s → I (mkFlow (world s) (own s) (script s) (e :: log s))) → keeps I (emit e).
Proof. intros Hf s Hs. by apply Hf. Qed.

Lemma keeps_walk provider steps :
  (∀ req, keeps I (provider req)) → (∀ g, keeps I (emit (EGroup g))) → keeps I (walk provider steps).
Proof.
  intros Hp Hg. induction steps as [|[req|g] steps IH]; cbn [walk]; [apply keeps_ret|..];
    apply keeps_bind; auto.
Qed.

(** The same with a fact about the result. *)
Definition keepsR {A} (R : A → Prop) (m : M A) : Prop := ∀ s, I s → wp m (λ a s', I s' ∧ R a) s.

Lemma keepsR_ret {A} (R : A → Prop) (a : A) : R a → keepsR R (mret a).
Proof. by intros Ha s Hs. Qed.

Lemma keepsR_bind {A B} (R : B → Prop) (m : M A) (k : A → M B) :
  keeps I m → (∀ a, keepsR R (k a)) → keepsR R (m ≫= k).
Proof. intros Hm Hk s Hs. apply wp_bind. eapply wp_mono; [by apply Hm|]. intros a s' Hs'. by apply Hk. Qed.

End Keeps.

End FlowLogic.

(** ** The discipline of a log *)
Module FlowSafety.
Import CredentialCache FlowLogic.

Section Safety.
Context {D : Deps}.

(** What was cached for the card when the operation started. *)
Context (init : Cached → option Secret).

(** The secret of a kind that has been stored and not been rejected or evicted since. *)
Fixpoint current (c : Cached) (l : list Event) : option Secret :=
  match l with
  | [] => init c
  | ECache k v :: l => if decide (k = paceOf c) then Some v else current c l
  | ERejected :: _ | EEvicted :: _ => None
  | _ :: l => current c l
  end.

(** A dialog of this operation was answered with this secret, which is not empty. *)
Definition typedIn (kind : PromptKind) (chosen : option PaceSecretKind → Prop) (v : Secret) (l : list Event) : Prop :=
  ∃ o r, EWindow kind o r ∈ l ∧ status r = SOk ∧ secret r = Some v ∧ v ≠ EmptyString ∧ chosen (chosenKind r).

(** Typed as the kind that was asked for, or as an MRZ where a CAN was. *)
Definition collectedAs (c : Cached) : Secret → list Event → Prop :=
  typedIn (promptFn c) (λ k, k = None ∨ k = Some (paceOf c)).
Definition switched : Secret → list Event → Prop := typedIn PCan (λ k, k = Some KMrz).
Definition typedPin : Secret → list Event → Prop := typedIn PPin (λ _, True).

(** What an event needs of the events before it. *)
Definition okEvent (e : Event) (l : list Event) : Prop :=
  match e with
  | EServe req (ROk entries) =>
      (∃ v, purpose req = Credentials.Signing ∧ entries = [(kindToken PPin, v)] ∧ typedPin v l) ∨
      (∃ c v, paceKind req = Some (paceOf c) ∧ resultBuilder c v = Some (ROk entries) ∧ current c l = Some v)
  | ECache k v => (∃ c, k = paceOf c ∧ collectedAs c v l) ∨ k = KMrz ∧ EOffer v ∈ l
  | EOffer v => switched v l ∨ current CMrz l = Some v
  | EDeposit parts => ∃ v, MrzPayload.parseMrzPayload (text v) = Some parts ∧ EOffer v ∈ l ∧ current CMrz l = Some v
  | EChangePin _ _ old new => ∃ o r, EChangeWindow o r ∈ l ∧ pcStatus r = SOk ∧ Credentials.current r = Some old ∧
      newPin r = Some new ∧ old ≠ EmptyString ∧ new ≠ EmptyString
  | EActivateKey _ pin => typedPin pin l
  | _ => True
  end.

Fixpoint disciplined (l : list Event) : Prop :=
  match l with [] => True | e :: l => okEvent e l ∧ disciplined l end.

(** The other threads put no secret for this card; they may do anything else. *)
Definition putsNothing (o : Other) : Prop :=
  match o with OPutCan k _ | OPutMrz k _ => k ≠ cardKey | _ => True end.
Definition noPuts (c : Script) : Prop := Forall (Forall putsNothing) (others c).

(** The invariant, with any further fact about the log that stays true as it grows. *)
Class Mono (P : list Event → Prop) := mono : ∀ e l, P l → P (e :: l).

Definition Safe (P : list Event → Prop) (s : Flow) : Prop :=
  P (log s) ∧
  disciplined (log s) ∧
  (∀ c v, getter c cardKey (cache (world s)) = Some v → current c (log s) = Some v) ∧
  (∀ v, payload (sink (own s)) = Some v → EOffer v ∈ log s) ∧
  (∀ v, batchPin (own s) = Some v → typedPin v (log s)) ∧
  noPuts (script s).

Lemma typedIn_cons kind P v e l : typedIn kind P v l → typedIn kind P v (e :: l).
Proof. intros (o&r&?&?). exists o, r. split; [by right | done]. Qed.

(** *** The cache *)

Lemma onEntry_lookup f k k' m : onEntry f k m !! k' =
  if decide (k = k') then Some (f (default emptyEntry (m !! k))) else m !! k'.
Proof. unfold onEntry. case_decide; [subst; apply lookup_insert_eq | by apply lookup_insert_ne]. Qed.

(** A secret is found in the entry. *)
Lemma getter_entry c k (m : Cache) : getter c k m = m !! k ≫= (match c with CCan => can | CMrz => mrz end).
Proof. by destruct c. Qed.

Lemma getter_onEntry c f k k' m : (∀ e, can (f e) = can e) → (∀ e, mrz (f e) = mrz e) →
  getter c k (onEntry f k' m) = getter c k m.
Proof.
  intros Hc Hm. rewrite !getter_entry, onEntry_lookup. case_decide; [subst|done].
  destruct (m !! k) as [e|], c; cbn; by rewrite ?Hc, ?Hm.
Qed.

Lemma getter_put c c' k k' v m : getter c k (putter c' k' v m) =
  if decide (k' = k ∧ c' = c) then Some v else getter c k m.
Proof.
  destruct c', c; cbn; unfold getCan, getMrz, putCan, putMrz; rewrite onEntry_lookup;
    repeat case_decide; try (destruct_and!; congruence); subst; cbn; try done; try naive_solver; by destruct (m !! k).
Qed.

Lemma getter_note c k k' b m : getter c k (noteLastPromptYieldedNothing k' b m) = getter c k m.
Proof.
  unfold noteLastPromptYieldedNothing. destruct b; cbn [negb]; [by apply getter_onEntry|]. cbv zeta.
  destruct (m !! k') as [e|] eqn:E; [|done]. rewrite !getter_entry.
  destruct (decide (k' = k)) as [<-|]; [rewrite lookup_insert_eq, E; by destruct c | by rewrite lookup_insert_ne].
Qed.

Lemma getter_refusal c k k' kind m : getter c k (noteRefusal k' kind m) = getter c k m.
Proof. by apply getter_onEntry. Qed.

Lemma getter_mark c k k' m : getter c k (markCredentialWrong k' m) = if decide (k' = k) then None else getter c k m.
Proof.
  unfold markCredentialWrong. rewrite !getter_entry, onEntry_lookup. case_decide; [by destruct c | done].
Qed.

Lemma getter_invalidate c k k' m : getter c k (invalidate k' m) = if decide (k' = k) then None else getter c k m.
Proof.
  unfold invalidate. rewrite !getter_entry.
  case_decide; [subst; by rewrite lookup_delete_eq | by rewrite lookup_delete_ne].
Qed.

Lemma act_getter c o w v : putsNothing o → getter c cardKey (cache (act o w)) = Some v →
  getter c cardKey (cache w) = Some v.
Proof.
  destruct o as [k u|k u|k| |k|k b|k kind| |]; cbn; intros Ho; try done.
  - rewrite (getter_put c CCan). case_decide; [by destruct_and!|done].
  - rewrite (getter_put c CMrz). case_decide; [by destruct_and!|done].
  - rewrite getter_invalidate. by case_decide.
  - by destruct c.
  - rewrite getter_mark. by case_decide.
  - by rewrite getter_note.
  - by rewrite getter_refusal.
Qed.

Lemma Safe_stable P : stable (Safe P).
Proof.
  intros s s' (H0&H1&H2&H3&H4&H5) [->|(batch&rest&E&->)]; [done|]. unfold noPuts in H5. rewrite E in H5.
  apply Forall_cons in H5 as [Hb Hr]. split_and!; cbn; [done..| |done|done|done].
  intros c v Hv. apply H2. clear -Hb Hv. revert Hv. generalize (world s). induction Hb as [|o b Ho Hb IH]; intros w; cbn; [done|].
  intros Hv%IH. by eapply act_getter.
Qed.

(** *** The programs keep it *)

(** Events that need nothing and change nothing. *)
Definition plainEvent (e : Event) : bool :=
  match e with
  | EServe _ (ROk _) | ECache _ _ | EOffer _ | EDeposit _ | EChangePin _ _ _ _ | EActivateKey _ _ | ERejected | EEvicted => false
  | _ => true
  end.

Lemma current_plain c e l : plainEvent e = true → current c (e :: l) = current c l.
Proof. by destruct e. Qed.

Section Frame.
Context (P : list Event → Prop) `{!Mono P}.

Lemma Safe_event e s : (∀ c, current c (e :: log s) = current c (log s)) → okEvent e (log s) → Safe P s →
  Safe P (mkFlow (world s) (own s) (script s) (e :: log s)).
Proof.
  intros Hc He (H0&H1&H2&H3&H4&H5). split_and!; cbn [log world own script disciplined]; [by apply mono|done|..|done].
  - intros c v Hv. rewrite Hc. by apply H2.
  - intros v Hv. right. by apply H3.
  - intros v Hv. by apply typedIn_cons, H4.
Qed.

Lemma Safe_log e s : plainEvent e = true → Safe P s → Safe P (mkFlow (world s) (own s) (script s) (e :: log s)).
Proof.
  intros He Hs. apply Safe_event; [|by destruct e as [| | |? []| | | | | | | | | | | | | | | | | | |]|done].
  intros c. by apply current_plain.
Qed.

Lemma Safe_plain e : plainEvent e = true → keeps (Safe P) (emit e).
Proof. intros He. apply keeps_emit. intros s Hs. by apply Safe_log. Qed.

Lemma Safe_own f : (∀ o, sink (f o) = sink o) → (∀ o, batchPin (f o) = batchPin o) → keeps (Safe P) (modify (onOwn f)).
Proof.
  intros Hs Hp. apply keeps_modify. intros s (H0&H1&H2&H3&H4&H5). split_and!; cbn; [done..|by rewrite Hs|by rewrite Hp|done].
Qed.

Lemma Safe_change f : (∀ w c v, getter c cardKey (cache (f w)) = Some v → getter c cardKey (cache w) = Some v) →
  keeps (Safe P) (change f).
Proof.
  intros Hf. apply keeps_change; [apply Safe_stable|]. intros s (H0&H1&H2&H3&H4&H5). split_and!; cbn; auto.
Qed.

Lemma Safe_mint : keeps (Safe P) mint.
Proof.
  apply keeps_bind; [|intros; apply keeps_ret]. apply keeps_update; [apply Safe_stable|]. by intros s (H0&H1&H2&H3&H4&H5).
Qed.

Lemma Safe_script f : (∀ c, others (f c) = others c) → keeps (Safe P) (modify (onScript f)).
Proof.
  intros Hf. apply keeps_modify. intros s (H0&H1&H2&H3&H4&H5). split_and!; cbn; [done..|]. unfold noPuts. by rewrite Hf.
Qed.

End Frame.

#[local] Hint Resolve Safe_stable Safe_plain Safe_mint keeps_ret keeps_gets keeps_look : keeps.

Ltac keep1 :=
  match goal with
  | |- keeps _ (mret _) => apply keeps_ret
  | |- keeps _ (gets _) => apply keeps_gets
  | |- keeps _ (look _) => apply keeps_look; apply Safe_stable
  | |- keeps _ isCancelled => apply keeps_look; apply Safe_stable
  | |- keeps _ (_ ≫= _) => apply keeps_bind; [|intros ?]
  | |- keeps _ (when _ _) => apply keeps_when
  | |- keeps _ (emit _) => apply Safe_plain; reflexivity
  | |- keeps _ (setPhase _) => apply Safe_plain; reflexivity
  | |- keeps _ (flag _) => apply Safe_own; intros; reflexivity
  | |- keeps _ (if ?b then _ else _) => destruct b eqn:?
  | |- keeps _ (match ?x with _ => _ end) => destruct x eqn:?
  | |- keepsR _ _ (mret _) => apply keepsR_ret; try done
  | |- keepsR _ _ (_ ≫= _) => apply keepsR_bind; [|intros ?]
  | |- keepsR _ _ (if ?b then _ else _) => destruct b eqn:?
  | |- keepsR _ _ (match ?x with _ => _ end) => destruct x eqn:?
  end.
Ltac keep := repeat first [progress (eauto with keeps) | keep1].

Lemma dismissIfEmpty_ok r v : status (dismissIfEmpty r) = SOk → secret (dismissIfEmpty r) = Some v →
  dismissIfEmpty r = r ∧ v ≠ EmptyString.
Proof.
  destruct r as [st sec k]. unfold dismissIfEmpty. cbn. destruct st; try done. destruct sec as [[|a t]|]; cbn; try done.
  intros _ [= <-]. by split.
Qed.

Section Programs.
Context (P : list Event → Prop) `{!Mono P}.

Lemma Safe_stillWanted : keeps (Safe P) stillWanted.
Proof. unfold stillWanted. keep. Qed.

Definition notOk (r : CredentialResult) : Prop := ∀ entries, r ≠ ROk entries.

Lemma Safe_silenced w : keepsR (Safe P) notOk (silenced w).
Proof. unfold silenced. keep. Qed.

Lemma Safe_refused kind : keeps (Safe P) (refused kind).
Proof.
  unfold refused. keep; apply Safe_change; intros w c v; cbn [onCache cache];
    [by rewrite getter_note | by rewrite getter_refusal].
Qed.
#[local] Hint Resolve Safe_stillWanted Safe_silenced Safe_refused : keeps.

Lemma Safe_unanswered w p : keepsR (Safe P) notOk (unanswered w p).
Proof. unfold unanswered. keep. Qed.

#[local] Hint Resolve Safe_unanswered : keeps.

(** A window leaves its answer in the log. *)
Lemma wp_raise kind o s : Safe P s → wp (raise kind o) (λ p s', Safe P s' ∧
  (∀ v, status p = SOk → secret p = Some v → typedIn kind (λ k, k = chosenKind p) v (log s'))) s.
Proof.
  intros Hs. unfold raise, stamp. apply wp_bind, wp_bind. eapply wp_mono; [apply (Safe_mint P s Hs)|].
  intros id s1 H1. apply wp_ret. set (o' := stampPrompt _ _ _ _). apply wp_bind. unfold showWindow.
  apply wp_bind, wp_gets. set (r := default _ _). apply wp_bind.
  eapply wp_mono; [apply (Safe_script P (λ c, mkScript (others c) (tail (answers c)) (pinAnswers c))); [done|exact H1]|].
  intros [] s2 H2. apply wp_bind, wp_emit, wp_ret, wp_ret. split; [by apply (Safe_plain P (EWindow kind o' r))|].
  intros v Hst Hv. destruct (dismissIfEmpty_ok r v Hst Hv) as [E Hne]. rewrite E in *.
  exists o', r. split; [by left | done].
Qed.

Lemma wp_requestGated kind o s : Safe P s → wp (requestGated kind o) (λ p s', Safe P s' ∧
  (∀ v, status p = SOk → secret p = Some v → typedIn kind (λ k, k = chosenKind p) v (log s'))) s.
Proof.
  intros Hs. unfold requestGated, acquire. apply wp_bind, wp_bind, wp_look. intros s1 H1%(Safe_stable P _ _ Hs).
  apply wp_ret. destruct (token _); cbn [negb]; [by apply wp_ret|].
  apply wp_bind. eapply wp_mono; [apply (Safe_stillWanted s1 H1)|]. intros wanted s2 H2.
  destruct wanted; cbn [negb]; [by apply wp_raise | by apply wp_ret].
Qed.

Lemma wp_requestPin o s : Safe P s → wp (requestPin o) (λ p s', Safe P s' ∧
  (∀ v, status p = SOk → secret p = Some v → typedPin v (log s'))) s.
Proof.
  intros Hs. unfold requestPin, acquire. apply wp_bind, wp_bind, wp_look. intros s1 H1%(Safe_stable P _ _ Hs).
  apply wp_ret. destruct (token _); cbn [negb]; [by apply wp_ret|].
  eapply wp_mono; [by apply wp_raise|]. intros p s2 [H2 Hp]. split; [done|]. intros v Hst Hv.
  destruct (Hp v Hst Hv) as (o'&r&?&?&?&?&?). by exists o', r.
Qed.

(** Storing a secret that was typed as its kind, or parked. *)
Lemma wp_store c v s : Safe P s → collectedAs c v (log s) ∨ c = CMrz ∧ EOffer v ∈ log s →
  wp (store c v) (λ _ s', Safe P s' ∧ current c (log s') = Some v ∧ ∃ e, log s' = e :: log s) s.
Proof.
  intros Hs Hv. unfold store. apply wp_bind, wp_change. intros s1 He. assert (El : log s1 = log s)
    by (by destruct He as [->|(?&?&?&->)]).
  apply (Safe_stable P _ _ Hs) in He. apply wp_emit. cbn [log current]. rewrite El.
  split; [|split; [by rewrite decide_True | by eexists]].
  destruct He as (H0&H1&H2&H3&H4&H5). rewrite El in *. split_and!; cbn [log world own script disciplined cache onCache]; [by apply mono|..|done].
  - split; [|done]. destruct Hv as [Hv|[-> Hv]]; [left; by exists c | by right].
  - intros c' v'. rewrite getter_put. cbn [current]. destruct (decide (cardKey = cardKey ∧ c = c')) as [[_ <-]|Hn].
    + intros [= <-]. by rewrite decide_True.
    + intros Hg%H2. rewrite decide_False; [done|]. intros E. apply Hn. by destruct c, c'.
  - intros v' Hv'. right. by apply H3.
  - intros v' Hv'. by apply typedIn_cons, H4.
Qed.

End Programs.

#[local] Hint Resolve Safe_stillWanted Safe_silenced Safe_refused Safe_unanswered : keeps.

#[export] Instance Mono_and P Q : Mono P → Mono Q → Mono (λ l, P l ∧ Q l).
Proof. intros HP HQ e l [??]. split; by apply mono. Qed.

#[export] Instance Mono_typedIn kind C v : Mono (typedIn kind C v).
Proof. intros e l. apply typedIn_cons. Qed.

#[export] Instance Mono_elem (e : Event) : Mono (λ l, e ∈ l).
Proof. intros e' l. by right. Qed.

Lemma Safe_weaken P Q s : (∀ l, P l → Q l) → Safe P s → Safe Q s.
Proof. intros HPQ (H0&H). split; [by apply HPQ | done]. Qed.

Lemma Safe_strengthen P Q s : Safe P s → Q (log s) → Safe (λ l, P l ∧ Q l) s.
Proof. intros (H0&H) HQ. by split. Qed.

(** What an answer needs of the log: the current secret of the kind asked for. *)
Definition servable (c : Cached) (r : CredentialResult) (l : list Event) : Prop :=
  match r with ROk entries => ∃ v, resultBuilder c v = Some (ROk entries) ∧ current c l = Some v | _ => True end.

Lemma servable_built c v r l : resultBuilder c v = Some r → current c l = Some v → servable c r l.
Proof. intros Hb Hc. destruct r; [|done..]. by exists v. Qed.

Section Providers.
Context (P : list Event → Prop) `{!Mono P}.

Lemma wp_offer v s : Safe P s → switched v (log s) ∨ current CMrz (log s) = Some v → wp (offer v) (λ _, Safe P) s.
Proof.
  intros (H0&H1&H2&H3&H4&H5) Hv. unfold offer. apply wp_bind, wp_modify, wp_emit.
  split_and!; cbn [log world own script disciplined onOwn setSink sink payload batchPin]; [by apply mono|done|..|done].
  - intros c v' Hv'. cbn. by apply H2.
  - intros v' [= <-]. by left.
  - intros v' Hv'. by apply typedIn_cons, H4.
Qed.

Lemma wp_collected c w mc p v s : Safe P s → typedIn (promptFn c) (λ k, k = chosenKind p) v (log s) →
  wp (collected c w mc p v) (λ r s', Safe P s' ∧ servable c r (log s')) s.
Proof.
  intros Hs Ht. apply (Safe_strengthen _ _ _ Hs) in Ht. clear Hs. revert Ht.
  set (P' := λ l, P l ∧ typedIn (promptFn c) (λ k, k = chosenKind p) v l). intros Hs. unfold collected.
  apply wp_bind. eapply wp_mono; [refine ((_ : keeps (Safe P') _) s Hs); keep|]. intros [] s1 H1.
  apply wp_bind. eapply wp_mono; [refine ((_ : keeps (Safe P') _) s1 H1)|].
  { apply Safe_change. intros w' c' v'. cbn [onCache cache]. by rewrite getter_note. }
  intros [] s2 H2. assert (Hs2 : Safe P s2) by (eapply Safe_weaken; [|exact H2]; by intros l [??]).
  destruct H2 as [[_ (o&r&Hin&Hst&Hsec&Hne&Hk)] _].
  destruct (chosenKind p) as [k|] eqn:Ek; [destruct (bool_decide_reflect (k = paceOf c)) as [->|Hkc]|]; cbn [negb].
  2: { destruct (_ && _)%bool eqn:Hsw.
    - bool_hyps. destruct c; [|done]. injection H0 as ->. apply wp_bind. eapply wp_mono; [apply wp_offer; [exact Hs2|]|].
      { left. by exists o, r. }
      intros [] s3 H3. apply wp_ret. by split.
    - apply wp_bind. eapply wp_mono; [refine ((_ : keeps (Safe P) _) s2 Hs2); keep|]. intros [] s3 H3. apply wp_ret. by split. }
  all: destruct (resultBuilder c v) as [res|] eqn:Hb; [|by apply wp_ret].
  all: apply wp_bind; eapply wp_mono; [apply wp_store; [done|exact Hs2|left; exists o, r; split_and!; [done..|rewrite Hk; auto]]|];
    intros [] s3 (H3&Hc&_); apply wp_ret; split; [done | by eapply servable_built].
Qed.

Lemma wp_prompted c w mc o s : Safe P s →
  wp (prompted c w mc o) (λ r s', Safe P s' ∧ servable c r (log s')) s.
Proof.
  intros Hs. unfold prompted. apply wp_bind, wp_gets. destruct (match _ with Some _ => _ | None => _ end); [by apply wp_ret|].
  apply wp_bind. eapply wp_mono; [by apply wp_requestGated|]. intros p s1 [H1 Hp].
  destruct (answered p) eqn:Ha.
  - apply wp_bind, wp_ret. destruct p as [st sec k]. cbn in *. destruct st; try done. destruct sec as [v|]; [|done].
    apply wp_collected; [done|]. by apply Hp.
  - apply wp_bind, wp_bind. eapply wp_mono; [apply (Safe_stillWanted P s1 H1)|]. intros wanted s2 H2. apply wp_ret.
    assert (Hno : ∀ m, keepsR (Safe P) notOk m → wp m (λ r s', Safe P s' ∧ servable c r (log s')) s2).
    { intros m Hm. eapply wp_mono; [by apply Hm|]. intros r s' [Hs' Hr]. split; [done|].
      destruct r; [by destruct (Hr entries)|done..]. }
    destruct wanted; cbn [negb]; [|by apply Hno, Safe_silenced].
    unfold answered in Ha. destruct (status p); try (by apply Hno, Safe_unanswered).
    destruct (secret p); [done | by apply Hno, Safe_unanswered].
Qed.

Lemma wp_evict s : Safe P s → wp evict (λ _, Safe P) s.
Proof.
  intros Hs. unfold evict. apply wp_bind, wp_change. intros s1 (H0&H1&H2&H3&H4&H5)%(Safe_stable _ _ _ Hs). apply wp_emit.
  split_and!; cbn [log world own script disciplined cache onCache]; [by apply mono|done|..|done].
  - intros c v. rewrite getter_invalidate. by rewrite decide_True.
  - intros v Hv. right. by apply H3.
  - intros v Hv. by apply typedIn_cons, H4.
Qed.

Lemma wp_cacheOrPrompt c w mc o s : Safe P s →
  wp (cacheOrPrompt c w mc o) (λ r s', Safe P s' ∧ servable c r (log s')) s.
Proof.
  intros Hs. unfold cacheOrPrompt. apply wp_bind, wp_look. intros s1 H1%(Safe_stable _ _ _ Hs). cbn [compose].
  destruct (getter c cardKey (cache (world s1))) as [v|] eqn:Hg.
  - destruct (resultBuilder c v) as [r|] eqn:Hb.
    + apply wp_ret. split; [done|]. eapply servable_built; [done|]. by apply H1.
    + apply wp_bind. eapply wp_mono; [by apply wp_evict|]. intros [] s2 H2. apply wp_ret. by split.
  - apply wp_bind. eapply wp_mono; [apply (Safe_stillWanted P s1 H1)|]. intros wanted s2 H2.
    destruct wanted; cbn [negb]; [by apply wp_prompted|]. eapply wp_mono; [by apply Safe_silenced|].
    intros r s' [Hs' Hr]. split; [done|]. destruct r; [by destruct (Hr entries)|done..].
Qed.

(** What [requestCredential] and the providers answer with. *)
Definition answersTo (req : AuthRequirement) (r : CredentialResult) (l : list Event) : Prop :=
  match r with
  | ROk entries => ∃ c v, paceKind req = Some (paceOf c) ∧ resultBuilder c v = Some (ROk entries) ∧ current c l = Some v
  | _ => True
  end.

Lemma wp_requestCredential req w mc o s : Safe P s →
  wp (requestCredential req w mc o) (λ r s', Safe P s' ∧ answersTo req r (log s')) s.
Proof.
  intros Hs. unfold requestCredential. destruct (paceKind req) as [[]|] eqn:Hk; try (by apply wp_ret);
    (eapply wp_mono; [by apply wp_cacheOrPrompt|]); intros r s' [Hs' Hr]; (split; [done|]); destruct r; try done;
    destruct Hr as (v&?&?); [by exists CCan, v | by exists CMrz, v].
Qed.

Lemma wp_markWrong f s : Safe P s → (∀ o, sink (f o) = sink o) → (∀ o, batchPin (f o) = batchPin o) →
  wp (change (onCache (markCredentialWrong cardKey));; modify (onOwn f);; emit ERejected) (λ _, Safe P) s.
Proof.
  intros Hs Hf1 Hf2. apply wp_bind, wp_change. intros s1 (H0&H1&H2&H3&H4&H5)%(Safe_stable _ _ _ Hs).
  apply wp_bind, wp_modify, wp_emit.
  split_and!; cbn [log world own script disciplined cache onCache onOwn]; [by apply mono|done|..|done].
  - intros c v. rewrite getter_mark. by rewrite decide_True.
  - intros v. rewrite Hf1. intros Hv. right. by apply H3.
  - intros v. rewrite Hf2. intros Hv. by apply typedIn_cons, H4.
Qed.

Lemma Safe_noteRejectedSecret a : keeps (Safe P) (noteRejectedSecret a).
Proof. intros s Hs. by apply wp_markWrong. Qed.

Lemma Safe_markRejected : keeps (Safe P) markRejected.
Proof.
  unfold markRejected. apply keeps_bind; [apply keeps_gets|].
  intros [a|] s Hs; [by apply Safe_noteRejectedSecret|]. exact (wp_markWrong (λ o, o) s Hs (λ _, eq_refl) (λ _, eq_refl)).
Qed.

Lemma Safe_isCardRejectionSignal req : keeps (Safe P) (isCardRejectionSignal req).
Proof. unfold isCardRejectionSignal. keep. Qed.

(** An answer is logged. *)
Lemma wp_serve req r s : Safe P s →
  answersTo req r (log s) ∨ (∃ v, purpose req = Credentials.Signing ∧ r = ROk [(kindToken PPin, v)] ∧ typedPin v (log s)) →
  wp (emit (EServe req r)) (λ _, Safe P) s.
Proof.
  intros Hs Hr. apply wp_emit. apply Safe_event; [done..| |done]. destruct r as [es| |]; [|done..].
  destruct Hr as [(c&v&?&?&?)|(v&?&[= ->]&?)]; [right; by exists c, v | left; by exists v].
Qed.

Lemma answersTo_plain req r e l : plainEvent e = true → answersTo req r l → answersTo req r (e :: l).
Proof. intros He. destruct r; [|done..]. intros (c&v&?&?&?). exists c, v. by rewrite current_plain. Qed.

Lemma wp_readResult req w markedNow r s : Safe P s → answersTo req r (log s) →
  wp (when (w_markedWrong w) (match r with
        | ROk _ => flag (setMarkedWrong false) | _ => when markedNow (flag (setMarkedWrong true)) end);;
      setPhase Operations.Authenticating;; emit (EServe req r);; mret r) (λ _, Safe P) s.
Proof.
  intros Hs Hr. apply wp_bind.
  assert (Hlog : wp (when (w_markedWrong w) (match r with
        | ROk _ => flag (setMarkedWrong false) | _ => when markedNow (flag (setMarkedWrong true)) end))
        (λ _ s', Safe P s' ∧ log s' = log s) s).
  { destruct Hs as (?&?&?&?&?&?). by destruct (w_markedWrong w), r, markedNow. }
  eapply wp_mono; [exact Hlog|]. intros [] s1 [H1 El]. apply wp_bind.
  apply wp_emit. apply wp_bind. eapply wp_mono; [apply wp_serve; [by apply (Safe_plain P (EPhase _))|]|].
  - left. apply answersTo_plain; [done|]. by rewrite El.
  - intros [] s2 H2. by apply wp_ret.
Qed.

Lemma Safe_readProvider w om mc o req : keeps (Safe P) (readProvider w om mc o req).
Proof.
  unfold readProvider. do 3 (apply keeps_bind; [first [by apply Safe_plain | by apply Safe_isCardRejectionSignal |
    by apply keeps_when, Safe_markRejected]|intros ?]).
  intros s Hs. apply wp_bind. destruct (om && mc && _)%bool.
  - apply wp_look. intros s1 H1%(Safe_stable _ _ _ Hs). cbn [compose].
    destruct (getMrz cardKey (cache (world s1))) as [v|] eqn:Hg.
    + apply wp_bind, wp_bind. eapply wp_mono; [apply wp_offer; [exact H1|]|].
      { right. by apply H1. }
      intros [] s2 H2. apply wp_ret. exact (wp_readResult req w _ RCancelled s2 H2 I).
    + apply wp_bind. eapply wp_mono; [by apply wp_requestCredential|]. intros r s2 [H2 Hr]. exact (wp_readResult req w _ r s2 H2 Hr).
  - apply wp_ret, wp_bind. eapply wp_mono; [by apply wp_requestCredential|]. intros r s2 [H2 Hr]. exact (wp_readResult req w _ r s2 H2 Hr).
Qed.

(** The signing PIN and the channel's secret. *)
Lemma wp_pinProvider keep_ o req s : Safe P s →
  (∀ v s', Safe P s' → typedPin v (log s') → wp (keep_ v) (λ _ s'', Safe P s'' ∧ typedPin v (log s'')) s') →
  wp (pinProvider keep_ o req) (λ r s', Safe P s' ∧
    (notOk r ∨ ∃ v, r = ROk [(kindToken PPin, v)] ∧ typedPin v (log s'))) s.
Proof.
  intros Hs Hkeep. unfold pinProvider. apply wp_bind, wp_emit, wp_bind.
  eapply wp_mono; [by apply wp_requestPin, Safe_log|]. intros p s1 [H1 Hp].
  assert (Hflags : ∀ st, wp (when (bool_decide (st = SError)) (flag (setPrompterFailed true));;
      when (bool_decide (st = STimeout)) (flag (setEntryExpired true));;
      when (bool_decide (st = SHelperTooOld)) (flag (setHelperTooOld true));;
      mret (RError noText)) (λ r s', Safe P s' ∧
    (notOk r ∨ ∃ v, r = ROk [(kindToken PPin, v)] ∧ typedPin v (log s'))) s1).
  { intros st. eapply wp_mono; [refine ((_ : keepsR (Safe P) notOk _) s1 H1); keep|]. intros r s' [??]. auto. }
  destruct (status p) eqn:Est; try apply Hflags.
  - destruct (secret p) as [v|] eqn:Esec; [|apply Hflags]. apply wp_bind.
    eapply wp_mono; [apply Hkeep; [exact H1 | by apply Hp]|]. intros [] s2 [H2 Ht].
    apply wp_bind, wp_emit, wp_bind, wp_emit, wp_ret. split.
    + by apply Safe_log, Safe_log.
    + right. exists v. split; [done|]. by do 2 apply typedIn_cons.
  - apply wp_ret. split; [done|]. by left.
Qed.

Lemma wp_channelProvider o req s : Safe P s →
  wp (channelProvider o req) (λ r s', Safe P s' ∧ answersTo req r (log s')) s.
Proof.
  intros Hs. unfold channelProvider. apply wp_bind, wp_emit.
  assert (H1 : Safe P (mkFlow (world s) (own s) (script s) (EPhase Operations.AwaitingConsent :: log s)))
    by (by apply Safe_log).
  apply wp_bind. eapply wp_mono; [by apply Safe_isCardRejectionSignal|]. intros rej s2 H2.
  apply wp_bind. eapply wp_mono; [by apply keeps_when, H2; apply Safe_markRejected|]. intros [] s3 H3.
  by apply wp_requestCredential.
Qed.

(** What the signing providers answer with. *)
Definition signingAnswer (req : AuthRequirement) (r : CredentialResult) (l : list Event) : Prop :=
  answersTo req r l ∨ ∃ v, purpose req = Credentials.Signing ∧ r = ROk [(kindToken PPin, v)] ∧ typedPin v l.

Lemma Safe_served provider req :
  (∀ s, Safe P s → wp (provider req) (λ r s', Safe P s' ∧ signingAnswer req r (log s')) s) →
  keeps (Safe P) (served provider req).
Proof.
  intros Hp s Hs. unfold served. apply wp_bind. eapply wp_mono; [by apply Hp|]. intros r s1 [H1 Hr].
  apply wp_bind. eapply wp_mono; [by apply wp_serve|]. intros [] s2 H2. by apply wp_ret.
Qed.

(** A PIN that was asked for, or nothing. *)
Lemma wp_signingPin keep_ o req s : purpose req = Credentials.Signing → Safe P s →
  (∀ v s', Safe P s' → typedPin v (log s') → wp (keep_ v) (λ _ s'', Safe P s'' ∧ typedPin v (log s'')) s') →
  wp (pinProvider keep_ o req) (λ r s', Safe P s' ∧ signingAnswer req r (log s')) s.
Proof.
  intros Hq Hs Hk. eapply wp_mono; [by apply wp_pinProvider|]. intros r s' [H' [Hr|(v&?&?)]]; (split; [done|]).
  - left. destruct r; [by destruct (Hr entries)|done..].
  - right. by exists v.
Qed.

Lemma Safe_signProvider name req : keeps (Safe P) (signProvider name req).
Proof.
  apply Safe_served. intros s Hs. destruct (purpose req) eqn:Hq.
  - apply wp_signingPin; [done..|]. intros v s' Hs' Hv. by apply wp_ret.
  - eapply wp_mono; [by apply wp_channelProvider|]. intros r s' [??]. split; [done | by left].
Qed.

Lemma Safe_batchProvider documents req : keeps (Safe P) (batchProvider documents req).
Proof.
  apply Safe_served. intros s Hs. destruct (purpose req) eqn:Hq.
  - apply wp_bind, wp_gets. cbn [compose]. destruct (batchPin (own s)) as [v|] eqn:Hpin.
    + apply wp_ret. split; [done|]. right. exists v. split_and!; [done..|]. by apply Hs.
    + apply wp_signingPin; [done..|]. intros v s' Hs' Hv. apply wp_bind, wp_gets, wp_modify.
      split; [|done]. destruct Hs' as (H0&H1&H2&H3&H4&H5). split_and!; try done. by intros v' [= <-].
  - eapply wp_mono; [by apply wp_channelProvider|]. intros r s' [??]. split; [done | by left].
Qed.

End Providers.

#[local] Hint Resolve Safe_noteRejectedSecret Safe_markRejected Safe_readProvider Safe_signProvider Safe_batchProvider : keeps.

(** ** The flows keep it *)
Section Runs.
Context (P : list Event → Prop) `{!Mono P}.
Context (acquired : (OpenErrorKind * string) + CandidateList).

Lemma Safe_walk provider steps : (∀ req, keeps (Safe P) (provider req)) → keeps (Safe P) (walk provider steps).
Proof. intros Hp. apply keeps_walk; [done|]. intros g. by apply Safe_plain. Qed.

Lemma Safe_openSession : keeps (Safe P) (openSession acquired).
Proof. unfold openSession. keep. Qed.

Lemma Safe_freshRun : keeps (Safe P) freshRun.
Proof. unfold freshRun. keep. by apply Safe_own. Qed.

Lemma Safe_scoped {A} (m : M A) : keeps (Safe P) m → keeps (Safe P) (scoped m).
Proof. intros Hm. unfold scoped, install, uninstall. keep; by apply Safe_own. Qed.

#[local] Hint Resolve Safe_openSession Safe_freshRun Safe_scoped : keeps.

Lemma Safe_opened {A} (k : CandidateList → M (Result A)) : (∀ c, keeps (Safe P) (k c)) → keeps (Safe P) (opened acquired k).
Proof. intros Hk. unfold opened. keep. Qed.

Lemma Safe_readFailed {A} st fallback : keeps (Safe P) (readFailed (A := A) st fallback).
Proof. unfold readFailed, theFlags. keep. Qed.

Lemma Safe_evict : keeps (Safe P) evict.
Proof. intros s Hs. by apply wp_evict. Qed.

Lemma Safe_resetChoice : keeps (Safe P) resetChoice.
Proof. apply keeps_modify. by intros s (H0&H1&H2&H3&H4&H5). Qed.

#[local] Hint Resolve @Safe_opened @Safe_readFailed Safe_evict Safe_resetChoice Safe_walk : keeps.

Ltac run1 :=
  match goal with
  | |- keeps _ (opened _ _) => apply Safe_opened; intros ?
  | |- keeps _ (scoped _) => apply Safe_scoped
  | |- keeps _ (walk _ _) => apply Safe_walk; intros ?
  end.
Ltac run := repeat first [progress (eauto with keeps) | keep1 | run1].

Lemma Safe_readOnce reader n cands : keeps (Safe P) (readOnce reader n cands).
Proof. unfold readOnce. run. Qed.

#[local] Hint Resolve Safe_readOnce : keeps.

(** The MRZ from the sink is stored and deposited. *)
Lemma Safe_renegotiate reader deposit cands out : keeps (Safe P) (renegotiate reader deposit cands out).
Proof.
  intros s Hs. unfold renegotiate, takeChoice. apply wp_bind, wp_bind, wp_gets, wp_bind, wp_modify, wp_ret. cbn [compose].
  destruct (payload (sink (own s))) as [v|] eqn:Hv; [|apply wp_ret; by apply (Safe_resetChoice s Hs)].
  assert (Ho : EOffer v ∈ log s) by (by apply Hs). 
  assert (H1 : Safe P (onOwn (setSink (mkSink None false)) s)) by exact (Safe_resetChoice s Hs). revert H1.
  generalize (onOwn (setSink (mkSink None false)) s) (eq_refl : log (onOwn (setSink (mkSink None false)) s) = log s).
  intros s1 El H1. destruct (MrzPayload.parseMrzPayload (text v)) as [parts|] eqn:Hp; [|by apply wp_ret].
  apply wp_bind. eapply wp_mono; [apply (wp_store P CMrz v); [exact H1|right; split; [done | by rewrite El]]|].
  intros [] s2 (H2&Hc&e&Els). apply wp_bind, wp_emit.
  assert (H3 : Safe P (mkFlow (world s2) (own s2) (script s2) (EDeposit parts :: log s2))).
  { apply Safe_event; [done|done| |done]. exists v. split_and!; [done| |done]. rewrite Els, El. by right. }
  revert H3. generalize (mkFlow (world s2) (own s2) (script s2) (EDeposit parts :: log s2)). intros s3 H3.
  refine ((_ : keeps (Safe P) _) s3 H3). keep.
Qed.
#[local] Hint Resolve Safe_renegotiate : keeps.

Lemma Safe_identityRead reader deposit onType : keeps (Safe P) (identityRead acquired reader deposit onType).
Proof. unfold identityRead, identityRun, readConcluded. run. Qed.

Lemma Safe_certRead reader verify : keeps (Safe P) (certRead acquired reader verify).
Proof. unfold certRead, certRun. run. Qed.

Lemma Safe_tokenInfoRead reader : keeps (Safe P) (tokenInfoRead acquired reader).
Proof. unfold tokenInfoRead, tokenInfoRun, theFlags. run. Qed.

Lemma Safe_credentialList list_ now : keeps (Safe P) (credentialList acquired list_ now).
Proof.
  unfold credentialList, listRun, theFlags. run. apply keeps_update; [apply Safe_stable|]. intros s' (H0&H1&H2&H3&H4&H5).
  unfold SnapshotCache.put. cbn. done.
Qed.

Lemma Safe_sign signer params : keeps (Safe P) (sign acquired signer params).
Proof. unfold sign, signRun, theFlags. run. Qed.

Lemma Safe_signDocuments signer params documents cands i docs b :
  keeps (Safe P) (signDocuments signer params documents cands i docs b).
Proof.
  revert i b. induction docs as [|doc docs IH]; intros i b; cbn [signDocuments]; [apply keeps_ret|].
  unfold signOne, classify, theFlags. run.
Qed.
#[local] Hint Resolve Safe_signDocuments : keeps.

Lemma Safe_batchSign signer params documents : keeps (Safe P) (batchSign acquired signer params documents).
Proof.
  unfold batchSign, batchRun. run. apply keeps_modify. by intros s (H0&H1&H2&H3&H4&H5).
Qed.

Lemma Safe_dropReads : keeps (Safe P) dropReads.
Proof. unfold dropReads. run; by apply Safe_change. Qed.

Lemma dismissIfEmptyChange_ok r v v' : pcStatus (dismissIfEmptyChange r) = SOk →
  Credentials.current (dismissIfEmptyChange r) = Some v → newPin (dismissIfEmptyChange r) = Some v' →
  dismissIfEmptyChange r = r ∧ v ≠ EmptyString ∧ v' ≠ EmptyString.
Proof.
  destruct r as [st cur new]. unfold dismissIfEmptyChange. cbn.
  destruct st; try done; destruct cur as [[]|], new as [[]|]; cbn; try done; intros _ [= <-] [= <-]; done.
Qed.

Lemma wp_requestPinChange o s : Safe P s → wp (requestPinChange o) (λ p s', Safe P s' ∧
  (∀ v v', pcStatus p = SOk → Credentials.current p = Some v → newPin p = Some v' →
     ∃ o r, EChangeWindow o r ∈ log s' ∧ pcStatus r = SOk ∧ Credentials.current r = Some v ∧ newPin r = Some v' ∧
       v ≠ EmptyString ∧ v' ≠ EmptyString)) s.
Proof.
  intros Hs. unfold requestPinChange, acquire, stamp. apply wp_bind, wp_bind, wp_look.
  intros s1 H1%(Safe_stable P _ _ Hs). apply wp_ret. destruct (token _); cbn [negb]; [by apply wp_ret|].
  apply wp_bind, wp_bind. eapply wp_mono; [apply (Safe_mint P s1 H1)|]. intros id s2 H2. apply wp_ret, wp_bind.
  set (o' := stampPrompt _ _ _ _). unfold showChangeWindow. apply wp_bind, wp_gets. set (r := default _ _). apply wp_bind.
  eapply wp_mono; [apply (Safe_script P (λ c, mkScript (others c) (answers c) (tail (pinAnswers c)))); [done|exact H2]|].
  intros [] s3 H3. apply wp_bind, wp_emit, wp_ret, wp_ret. split; [by apply (Safe_log P (EChangeWindow o' r))|].
  intros v v' Hst Hv Hv'. destruct (dismissIfEmptyChange_ok r v v' Hst Hv Hv') as (E&?&?). rewrite E in *.
  exists o', r. split_and!; try done. by left.
Qed.

Lemma Safe_changeRun change_ name record plugin cands : keeps (Safe P) (changeRun change_ name record plugin cands).
Proof.
  unfold changeRun. apply keeps_bind; [keep|]. intros []; [apply keeps_ret|]. apply keeps_bind; [by apply Safe_plain|].
  intros [] s Hs. apply wp_bind. eapply wp_mono; [by apply wp_requestPinChange|].
  intros p s1 [H1 Hp]. destruct (pcStatus p) eqn:Est; try (by apply wp_ret).
  destruct (Credentials.current p) as [old|]; [|by apply wp_ret]. destruct (newPin p) as [new|]; [|by apply wp_ret].
  destruct (Hp old new eq_refl eq_refl eq_refl) as (o'&r&Hw). apply wp_bind, wp_emit, wp_bind, wp_emit.
  set (s2 := mkFlow _ _ _ _). assert (H2 : Safe P s2).
  { apply (Safe_event P (EChangePin _ _ old new) (mkFlow (world s1) (own s1) (script s1) (EPhase _ :: log s1))); [done| |by apply Safe_log].
    exists o', r. destruct Hw as (?&?). split; [by right | done]. }
  refine ((_ : keeps (Safe P) _) s2 H2). run.
Qed.

Lemma Safe_activationRun activate record plugin cands : keeps (Safe P) (activationRun activate record plugin cands).
Proof.
  unfold activationRun. apply keeps_bind; [keep|]. intros []; [apply keeps_ret|]. apply keeps_bind; [by apply Safe_plain|].
  intros [] s Hs. apply wp_bind. eapply wp_mono; [by apply wp_requestPin|].
  intros p s1 [H1 Hp]. destruct (status p) eqn:Est; try (by apply wp_ret).
  destruct (secret p) as [pin|]; [|by apply wp_ret]. apply wp_bind, wp_emit, wp_bind, wp_emit.
  set (s2 := mkFlow _ _ _ _). assert (H2 : Safe P s2).
  { apply (Safe_event P (EActivateKey _ pin) (mkFlow (world s1) (own s1) (script s1) (EPhase _ :: log s1))); [done| |by apply Safe_log].
    by apply typedIn_cons, Hp. }
  refine ((_ : keeps (Safe P) _) s2 H2). run.
Qed.
#[local] Hint Resolve Safe_dropReads Safe_changeRun Safe_activationRun : keeps.

Lemma Safe_runPinManage change_ name snapshot request : keeps (Safe P) (runPinManage acquired change_ name snapshot request).
Proof. unfold runPinManage. run. Qed.

Lemma Safe_runKeyActivation activate record plugin : keeps (Safe P) (runKeyActivation acquired activate record plugin).
Proof. unfold runKeyActivation. run. Qed.

End Runs.

End Safety.

(** A run of any of the flows. *)
Inductive runs `{D : Deps} (s : Flow) : Flow → Prop :=
| runs_identity acquired reader deposit onType : runs s (identityRead acquired reader deposit onType s).2
| runs_certs acquired reader verify : runs s (certRead acquired reader verify s).2
| runs_tokenInfo acquired reader : runs s (tokenInfoRead acquired reader s).2
| runs_list acquired list_ now : runs s (credentialList acquired list_ now s).2
| runs_sign acquired signer params : runs s (sign acquired signer params s).2
| runs_batch acquired signer params documents : runs s (batchSign acquired signer params documents s).2
| runs_change acquired change_ name snapshot request : runs s (runPinManage acquired change_ name snapshot request s).2
| runs_activate acquired activate record plugin : runs s (runKeyActivation acquired activate record plugin s).2.

(** An operation that has not started. *)
Definition fresh (s : Flow) : Prop := log s = [] ∧ payload (sink (own s)) = None ∧ batchPin (own s) = None.


(** An identity read of a card whose holder mistypes the CAN once. *)
Definition sampleDeps : Deps := Build_Deps "card-1" "client" "identity" "run" (λ _, noReader) "pre_read_auth_failed".

Definition sampleState (answers : list PromptResult) : Flow :=
  mkFlow (mkWorld ∅ false 0 SnapshotCache.emptyCache ReadCache.emptyCache)
    (mkOwn None noFlags (mkSink None false) None false false) (mkScript [] answers []) [].

Definition askCan (reason : option string) : SeamStep := Ask (mkRequirement OtherPurpose (Some KCan) reason []).

Definition sampleReader (n : nat) : list SeamStep * ReadOutcome :=
  ([askCan None; askCan (Some "pre_read_auth_failed"%string)],
   mkReadOutcome StOk (Some ReadCacheFacts.sampleRead) EmptyString).

Definition sampleStart : Flow :=
  sampleState [mkPrompt SOk (Some "123456"%string) None; mkPrompt SOk (Some "123465"%string) None].
Definition sampleRun : Flow := (identityRead (D := sampleDeps) (inr []) sampleReader (λ _ _, true) false sampleStart).2.


End FlowSafety.
