(* ===== verification/FlowAsking.v ===== *)
(** * How often a person is asked

    While no other thread touches the card's entry, an operation asks for a CAN or an MRZ
    within bounds: not after a dialog that was dismissed or ran out, not while a secret is
    at hand, at most three times with an answer that can be used, and with a truthful
    count of the rejections so far. *)
From stdpp Require Import gmap strings pretty.
From S2P Require Import Prelude Vocabulary Caches Operations ReaderLabels Mrz Credentials Flows FlowSafety.
Import Vocabulary Credentials Flows.
Local Open Scope Z_scope.

Module FlowAsking.
Import CredentialCache FlowLogic FlowSafety.

(** ** What a log says *)

Definition count (p : Event → bool) (l : list Event) : Z := zlen (List.filter p l).

Definition isRejected (e : Event) : bool := match e with ERejected => true | _ => false end.
Definition isRefused (e : Event) : bool := match e with ERefused _ => true | _ => false end.
Definition isEvicted (e : Event) : bool := match e with EEvicted => true | _ => false end.

(** A dialog for a kind of secret. *)
Definition isWindow (c : Cached) (e : Event) : bool :=
  match e with EWindow k _ _ => bool_decide (k = promptFn c) | _ => false end.

(** Its holder dismissed it, left it empty, or let it run out. *)
Definition isEmptyWindow (e : Event) : bool :=
  match e with
  | EWindow k _ r => (bool_decide (k = PCan) || bool_decide (k = PMrz)) &&
      match status (dismissIfEmpty r) with SCancelled | STimeout => true | _ => false end
  | _ => false
  end.

(** Its answer is a secret of the kind asked for, and well-formed. *)
Definition isUsable (c : Cached) (e : Event) : bool :=
  match e with
  | EWindow k _ r =>
      bool_decide (k = promptFn c) &&
      match status (dismissIfEmpty r), secret (dismissIfEmpty r) with
      | SOk, Some v =>
          match chosenKind r with Some k => bool_decide (k = paceOf c) | None => true end &&
          match resultBuilder c v with Some _ => true | None => false end
      | _, _ => false
      end
  | _ => false
  end.

Section Asking.
Context {D : Deps} (init : Cached → option Secret).

Abbreviation current := (current init).
Abbreviation rejections := (count isRejected).
Abbreviation refusals := (count isRefused).
Abbreviation empties := (count isEmptyWindow).
Abbreviation usables c := (count (isUsable c)).

(** What a dialog for a CAN or MRZ needs of the events before it: none was dismissed, there
    is no secret to use, the rejections leave a try, and the dialog tells them. *)
Definition askedWell (e : Event) (l : list Event) : Prop :=
  match e with
  | EWindow k o _ => ∀ c, k = promptFn c →
      empties l = 0 ∧ current c l = None ∧ u32 (rejections l) < kMaxPaceAttempts ∧
      attempt o = (if u32 (rejections l) =? 0 then 0 else u32 (rejections l) + 1) ∧
      (u32 (rejections l) ≠ 0 → lastError o = preReadAuthFailedKey)
  | _ => True
  end.

Fixpoint allAskedWell (l : list Event) : Prop :=
  match l with [] => True | e :: l => askedWell e l ∧ allAskedWell l end.

(** What is claimed of a log. *)
Definition bounded (l : list Event) : Prop :=
  allAskedWell l ∧ empties l ≤ 1 ∧ (∀ c, rejections l < 2 ^ 32 → usables c l ≤ kMaxPaceAttempts).

(** *** Counting *)

Lemma count_cons p e l : count p (e :: l) = (if p e then 1 else 0) + count p l.
Proof. unfold count. cbn. destruct (p e); cbn [length]; lia. Qed.

Lemma count_nonneg p l : 0 ≤ count p l.
Proof. unfold count. lia. Qed.

(** Events that none of this is about. *)
Definition quietEvent (e : Event) : bool :=
  match e with
  | EWindow PPin _ _ | EWindow PChangePin _ _ => true
  | EWindow _ _ _ | ERejected | ERefused _ | EEvicted | ECache _ _ => false
  | _ => true
  end.

Lemma quiet_counts e : quietEvent e = true → isRejected e = false ∧ isRefused e = false ∧ isEvicted e = false ∧
  isEmptyWindow e = false ∧ (∀ c, isUsable c e = false) ∧ (∀ l, askedWell e l) ∧ ∀ c l, current c (e :: l) = current c l.
Proof.
  destruct e as [|k o r| | | | | | | | | | | | | | | | | | | | |]; try done; [|intros _; split_and!; first [done | by intros []]..].
  destruct k; try done; intros _; split_and!; first [done | by intros [] | by intros ? []].
Qed.

Lemma bounded_neutral e l : isRejected e = false → isEmptyWindow e = false → (∀ c, isUsable c e = false) → askedWell e l →
  bounded l → bounded (e :: l).
Proof.
  intros E1 E4 E5 E6 (H1&H2&H3). split_and!; [by split|by rewrite count_cons, E4|].
  intros c. rewrite !count_cons, E1, (E5 c), !Z.add_0_l. apply H3.
Qed.

Lemma bounded_quiet e l : quietEvent e = true → bounded l → bounded (e :: l).
Proof. intros (E1&_&_&E4&E5&E6&_)%quiet_counts. by apply bounded_neutral. Qed.

(** ** The invariant

    While the other threads leave the card's entry alone, the log says what is in it: the
    secrets of the two slots and the refusal generation, from [g0] on; and the retry
    context counts the rejections. *)
Context (g0 : Z).

Definition Inv (slots : Cached → option Secret) (gen : Z) (t : option AttemptContext) (l : list Event) : Prop :=
  bounded l ∧ count isEvicted l = 0 ∧
  (∀ c, slots c = current c l) ∧ gen = g0 + refusals l ∧
  (∃ a, t = Some a ∧ attempts a = u32 (rejections l) ∧ generationAtDispatch a = g0 ∧
     (u32 (rejections l) ≠ 0 → lastErrorKey a = preReadAuthFailedKey)) ∧
  (∀ c, usables c l ≤ rejections l + match current c l with Some _ => 1 | None => 0 end) ∧
  empties l ≤ refusals l ≤ 1 ∧
  (∀ c v, current c l = Some v → is_Some (resultBuilder c v)).

Lemma Inv_quiet e slots gen t l : quietEvent e = true → Inv slots gen t l → Inv slots gen t (e :: l).
Proof.
  intros He (H1&H2&H3&H4&H5&H6&H7&H8). destruct (quiet_counts e He) as (E1&E2&E3&E4&E5&E6&E7).
  split_and!; rewrite ?count_cons, ?E1, ?E2, ?E3, ?E4, ?Z.add_0_l; try done; try lia.
  - by apply bounded_quiet.
  - intros c. by rewrite E7.
  - intros c. rewrite E7, ?count_cons, (E5 c), ?Z.add_0_l. apply H6.
  - intros c. rewrite E7. apply H8.
Qed.

(** A rejection. *)
Lemma Inv_reject slots gen a l : Inv slots gen (Some a) l →
  Inv (λ _, None) gen (Some (recordRejection preReadAuthFailedKey a)) (ERejected :: l).
Proof.
  intros ((B1&B2&B3)&H2&H3&H4&(a'&[= <-]&Ha&Hg&Hl)&H6&H7&H8).
  split_and!; rewrite ?count_cons; cbn [isRejected isRefused isEvicted isEmptyWindow FlowSafety.current]; rewrite ?Z.add_0_l; try done; try lia.
  - split_and!; [by split|by rewrite count_cons|]. intros c. rewrite ?count_cons. cbn [isRejected isUsable]. rewrite ?Z.add_0_l.
    intros Hr. apply B3. pose proof (count_nonneg isRejected l). lia.
  - eexists. split; [done|]. cbn. rewrite Ha. split_and!; [|done|done].
    unfold u32, wrap. rewrite Z.add_mod_idemp_l by done. f_equal. lia.
  - intros c. rewrite ?count_cons. cbn [isRejected isUsable]. rewrite ?Z.add_0_l. specialize (H6 c). destruct (current c l); lia.
Qed.

(** A secret goes into its slot without a dialog. *)
Lemma Inv_store slots slots' gen t l c v : Inv slots gen t l → is_Some (resultBuilder c v) →
  (∀ c', slots' c' = if decide (c = c') then Some v else slots c') → Inv slots' gen t (ECache (paceOf c) v :: l).
Proof.
  intros ((B1&B2&B3)&H2&H3&H4&H5&H6&H7&H8) Hv Hs.
  assert (Hc : ∀ c', current c' (ECache (paceOf c) v :: l) = if decide (c = c') then Some v else current c' l).
  { intros c'. cbn. by destruct c, c'. }
  split_and!; rewrite ?count_cons; cbn [isRejected isRefused isEvicted isEmptyWindow]; rewrite ?Z.add_0_l; try done; try lia.
  - intros c'. rewrite Hs, Hc, H3. done.
  - intros c'. rewrite Hc, ?count_cons. cbn [isRejected isUsable]. rewrite ?Z.add_0_l. specialize (H6 c').
    case_decide; destruct (current c' l); lia.
  - intros c' v'. rewrite Hc. case_decide; [subst; by intros [= <-] | apply H8].
Qed.

(** A dialog that may be raised. *)
Definition mayAsk (c : Cached) (o : PromptOptions) (l : list Event) : Prop :=
  refusals l = 0 ∧ current c l = None ∧ u32 (rejections l) < kMaxPaceAttempts ∧
  attempt o = (if u32 (rejections l) =? 0 then 0 else u32 (rejections l) + 1) ∧
  (u32 (rejections l) ≠ 0 → lastError o = preReadAuthFailedKey).

Lemma bounded_window c o r slots gen t l : Inv slots gen t l → mayAsk c o l → bounded (EWindow (promptFn c) o r :: l).
Proof.
  intros ((B1&B2&B3)&H2&H3&H4&H5&H6&H7&H8) (M1&M2&M3&M4&M5).
  pose proof (count_nonneg isEmptyWindow l) as Hn. split_and!.
  - split; [|done]. intros c' Ec. assert (c' = c) as -> by (by destruct c, c'). split_and!; try done. lia.
  - rewrite count_cons. destruct (isEmptyWindow _); lia.
  - intros c'. rewrite !count_cons. cbn [isRejected]. rewrite ?Z.add_0_l. intros Hr. destruct (isUsable c' _) eqn:Hu; [|by apply B3].
    assert (c' = c) as ->. { cbn in Hu. bool_hyps. by destruct c, c'. }
    specialize (H6 c). rewrite M2 in H6. unfold u32, wrap in M3. pose proof (count_nonneg isRejected l).
    rewrite Z.mod_small in M3 by lia. unfold kMaxPaceAttempts in *. lia.
Qed.

(** A dialog whose answer is kept, one that closed empty, one that gave nothing else. *)
Lemma Inv_usable c o r v slots slots' gen t l : Inv slots gen t l → mayAsk c o l → is_Some (resultBuilder c v) →
  isEmptyWindow (EWindow (promptFn c) o r) = false →
  (∀ c', slots' c' = if decide (c = c') then Some v else slots c') →
  Inv slots' gen t (ECache (paceOf c) v :: EWindow (promptFn c) o r :: l).
Proof.
  intros HI HM Hv Hne Hs. pose proof (bounded_window c o r _ _ _ _ HI HM) as HB.
  destruct HI as (B&H2&H3&H4&H5&H6&H7&H8), HM as (M1&M2&M3&M4&M5).
  assert (Hc : ∀ c', current c' (ECache (paceOf c) v :: EWindow (promptFn c) o r :: l) = if decide (c = c') then Some v else current c' l).
  { intros c'. cbn. by destruct c, c'. }
  split_and!; rewrite ?count_cons, ?Hne; cbn [isRejected isRefused isEvicted isEmptyWindow]; rewrite ?Z.add_0_l; try done; try lia.
  - by apply bounded_neutral.
  - intros c'. rewrite Hs, Hc, H3. done.
  - intros c'. rewrite Hc, ?count_cons. cbn [isRejected]. rewrite ?Z.add_0_l. specialize (H6 c').
    change (isUsable c' (ECache (paceOf c) v)) with false. case_decide as Ec; [subst c'; rewrite M2 in H6; destruct (isUsable c _); lia|].
    destruct (isUsable c' _) eqn:Hu; [|destruct (current c' l); lia].
    cbn in Hu. bool_hyps. by destruct c, c'.
  - intros c' v'. rewrite Hc. case_decide; [subst; by intros [= <-] | apply H8].
Qed.

Lemma Inv_nothing c o r slots gen t l : Inv slots gen t l → mayAsk c o l →
  isEmptyWindow (EWindow (promptFn c) o r) = false → isUsable c (EWindow (promptFn c) o r) = false →
  Inv slots gen t (EWindow (promptFn c) o r :: l).
Proof.
  intros HI HM Hne Hnu. pose proof (bounded_window c o r _ _ _ _ HI HM) as HB. destruct HI as (B&H2&H3&H4&H5&H6&H7&H8).
  split_and!; rewrite ?count_cons, ?Hne; cbn [isRejected isRefused isEvicted]; rewrite ?Z.add_0_l; try done; try lia.
  intros c'. rewrite count_cons. destruct (isUsable c' _) eqn:Hu; [|apply H6].
  assert (c' = c) as -> by (cbn in Hu; bool_hyps; by destruct c, c'). congruence.
Qed.

Lemma Inv_refusal kind slots gen t l : Inv slots gen t l → refusals l = 0 → Inv slots (gen + 1) t (ERefused kind :: l).
Proof.
  intros (B&H2&H3&H4&H5&H6&H7&H8) Hr. pose proof (count_nonneg isEmptyWindow l).
  split_and!; rewrite ?count_cons; cbn [isRejected isRefused isEvicted isEmptyWindow]; rewrite ?Z.add_0_l; try done; try lia.
  by apply bounded_neutral.
Qed.

Lemma Inv_emptied c o r kind slots gen t l : Inv slots gen t l → mayAsk c o l →
  isEmptyWindow (EWindow (promptFn c) o r) = true → Inv slots (gen + 1) t (ERefused kind :: EWindow (promptFn c) o r :: l).
Proof.
  intros HI HM He. pose proof (bounded_window c o r _ _ _ _ HI HM) as HB. destruct HI as (B&H2&H3&H4&H5&H6&H7&H8).
  destruct HM as (M1&_). pose proof (count_nonneg isEmptyWindow l).
  assert (Hnu : ∀ c', isUsable c' (EWindow (promptFn c) o r) = false).
  { intros c'. cbn in He |- *. bool_hyps. destruct (status (dismissIfEmpty r)); try done; apply andb_false_r. }
  split_and!; rewrite ?count_cons, ?He; cbn [isRejected isRefused isEvicted isEmptyWindow]; rewrite ?Z.add_0_l; try done; try lia.
  - by apply bounded_neutral.
  - intros c'. rewrite ?count_cons, Hnu. apply H6.
Qed.

(** ** The other threads *)

Definition leavesCard (o : Other) : Prop :=
  match o with
  | OPutCan k _ | OPutMrz k _ | OInvalidate k | OMarkWrong k | ONoteNothing k _ | ORefuse k _ => k ≠ cardKey
  | OClear => False
  | OCancel | OMint => True
  end.
Definition undisturbed (c : Script) : Prop := Forall (Forall leavesCard) (others c).

Definition Calm (s : Flow) : Prop :=
  Inv (λ c, getter c cardKey (cache (world s))) (refusalGenerationFor cardKey (cache (world s))) (tries (own s)) (log s) ∧
  undisturbed (script s).

Lemma act_entry o w : leavesCard o → cache (act o w) !! cardKey = cache w !! cardKey.
Proof.
  destruct o as [k u|k u|k| |k|k b|k kind| |]; cbn [leavesCard act cache onCache setToken setMinted]; intros Ho; try done.
  - unfold putCan. rewrite onEntry_lookup. by case_decide.
  - unfold putMrz. rewrite onEntry_lookup. by case_decide.
  - unfold invalidate. by rewrite lookup_delete_ne.
  - unfold markCredentialWrong. rewrite onEntry_lookup. by case_decide.
  - unfold noteLastPromptYieldedNothing. destruct b; cbn [negb]; [rewrite onEntry_lookup; by case_decide|]. cbv zeta.
    destruct (cache w !! k); [by rewrite lookup_insert_ne | done].
  - unfold noteRefusal. rewrite onEntry_lookup. by case_decide.
Qed.

(** What [Calm] is about. *)
Definition View (slots : Cached → option Secret) (gen : Z) (t : option AttemptContext) (l : list Event) (s : Flow) : Prop :=
  (∀ c, getter c cardKey (cache (world s)) = slots c) ∧ refusalGenerationFor cardKey (cache (world s)) = gen ∧
  tries (own s) = t ∧ log s = l ∧ undisturbed (script s).

Lemma View_Calm slots gen t l s : View slots gen t l s → Inv slots gen t l → Calm s.
Proof.
  intros (E1&<-&<-&<-&Hu) (?&?&H3&H4&?&?&[??]&?). split; [|done]. split_and!; try done. intros c. by rewrite E1.
Qed.

Lemma Calm_View s : Calm s → ∃ slots gen t l, View slots gen t l s ∧ Inv slots gen t l.
Proof. intros [HI Hu]. by eexists _, _, _, _. Qed.

Lemma View_stable slots gen t l : stable (View slots gen t l).
Proof.
  intros s s' (E1&E2&E3&E4&Hu) [->|(batch&rest&E&->)]; [done|]. unfold undisturbed in Hu. rewrite E in Hu.
  apply Forall_cons in Hu as [Hb Hr].
  assert (Ec : cache (foldl (flip act) (world s) batch) !! cardKey = cache (world s) !! cardKey).
  { clear -Hb. generalize (world s). induction Hb as [|o b Ho Hb IH]; intros w; cbn; [done|]. by rewrite IH, act_entry. }
  split_and!; cbn; try done.
  - intros c. rewrite <- E1, !getter_entry. by rewrite Ec.
  - rewrite <- E2. unfold refusalGenerationFor. by rewrite Ec.
Qed.

Lemma Calm_stable : stable Calm.
Proof. intros s s' (sl&g&t&l&HV&HI)%Calm_View He. eapply View_Calm; [|exact HI]. by eapply View_stable. Qed.

(** *** Steps *)

Section Steps.
Context (slots : Cached → option Secret) (gen : Z) (t : option AttemptContext) (l : list Event).

Lemma View_event e s : View slots gen t l s → View slots gen t (e :: l) (mkFlow (world s) (own s) (script s) (e :: log s)).
Proof. by intros (?&?&?&<-&?). Qed.

Lemma View_own f s : (∀ o, tries (f o) = tries o) → View slots gen t l s → View slots gen t l (onOwn f s).
Proof. intros Hf (?&?&?&?&?). split_and!; try done. cbn. by rewrite Hf. Qed.

Lemma View_script f s : (∀ c, others (f c) = others c) → View slots gen t l s → View slots gen t l (onScript f s).
Proof. intros Hf (?&?&?&?&?). split_and!; try done. unfold undisturbed. cbn. by rewrite Hf. Qed.

Lemma View_change slots' gen' f : (∀ w, (∀ c, getter c cardKey (cache w) = slots c) → refusalGenerationFor cardKey (cache w) = gen →
    (∀ c, getter c cardKey (cache (f w)) = slots' c) ∧ refusalGenerationFor cardKey (cache (f w)) = gen') →
  ∀ s, View slots gen t l s → wp (change f) (λ _, View slots' gen' t l) s.
Proof.
  intros Hf s Hs. apply wp_change. intros s' (E1&E2&E3&E4&Hu)%(View_stable _ _ _ _ _ _ Hs).
  destruct (Hf _ E1 E2). by split_and!.
Qed.

Lemma View_note b s : View slots gen t l s → wp (change (onCache (noteLastPromptYieldedNothing cardKey b))) (λ _, View slots gen t l) s.
Proof.
  apply View_change. intros w E1 E2. cbn [onCache cache]. split; [intros c; by rewrite getter_note|].
  rewrite <- E2. unfold refusalGenerationFor, noteLastPromptYieldedNothing. destruct b; cbn [negb]; cbv zeta.
  - rewrite onEntry_lookup, decide_True by done. by destruct (cache w !! cardKey).
  - destruct (cache w !! cardKey) eqn:E; [by rewrite lookup_insert_eq | by rewrite E].
Qed.

Lemma View_refusal kind s : View slots gen t l s →
  wp (change (onCache (noteRefusal cardKey kind))) (λ _, View slots (u64 (gen + 1)) t l) s.
Proof.
  apply View_change. intros w E1 E2. cbn [onCache cache]. split; [intros c; by rewrite getter_refusal|].
  rewrite <- E2. unfold refusalGenerationFor, noteRefusal. rewrite onEntry_lookup, decide_True by done.
  by destruct (cache w !! cardKey).
Qed.

Lemma View_put c v s : View slots gen t l s → wp (change (onCache (putter c cardKey v)))
  (λ _, View (λ c', if decide (c = c') then Some v else slots c') gen t l) s.
Proof.
  apply View_change. intros w E1 E2. cbn [onCache cache]. split.
  - intros c'. rewrite getter_put, E1. by repeat case_decide; naive_solver.
  - rewrite <- E2. unfold refusalGenerationFor. destruct c; cbn; unfold putCan, putMrz;
      rewrite onEntry_lookup, decide_True by done; by destruct (cache w !! cardKey).
Qed.

Lemma View_mark s : View slots gen t l s → wp (change (onCache (markCredentialWrong cardKey))) (λ _, View (λ _, None) gen t l) s.
Proof.
  apply View_change. intros w E1 E2. cbn [onCache cache]. split; [intros c; by rewrite getter_mark, decide_True|].
  rewrite <- E2. unfold refusalGenerationFor, markCredentialWrong. rewrite onEntry_lookup, decide_True by done.
  by destruct (cache w !! cardKey).
Qed.

Lemma View_mint s : View slots gen t l s → wp mint (λ _, View slots gen t l) s.
Proof. intros Hs. apply wp_bind, wp_update. intros s' Hs'%(View_stable _ _ _ _ _ _ Hs). by apply wp_ret. Qed.

Lemma View_stillWanted s : View slots gen t l s → wp stillWanted (λ b s', View slots gen t l s' ∧
  b = match t with None => true | Some a => gen <=? generationAtDispatch a end) s.
Proof.
  intros Hs. assert (Et : tries (own s) = t) by apply Hs. unfold stillWanted. apply wp_bind, wp_gets, wp_look.
  intros s' Hs'%(View_stable _ _ _ _ _ _ Hs). split; [done|]. cbn. rewrite Et. unfold stillWantedFor. destruct t; [|done].
  by destruct Hs' as (_&->&_).
Qed.

End Steps.

(** ** The programs

    The refusals of the card so far are few enough to be counted. *)
Context (Hg0 : 0 ≤ g0 < 2 ^ 64 - 1).

Lemma Calm_quiet e : quietEvent e = true → keeps Calm (emit e).
Proof using Type.
  intros He. apply keeps_emit. intros s (sl&g&t&l&HV&HI)%Calm_View. eapply View_Calm; [by apply View_event | by apply Inv_quiet].
Qed.

Lemma Calm_own f : (∀ o, tries (f o) = tries o) → keeps Calm (modify (onOwn f)).
Proof using Type.
  intros Hf. apply keeps_modify. intros s (sl&g&t&l&HV&HI)%Calm_View. eapply View_Calm; [by apply View_own | done].
Qed.

Lemma Calm_script f : (∀ c, others (f c) = others c) → keeps Calm (modify (onScript f)).
Proof using Type.
  intros Hf. apply keeps_modify. intros s (sl&g&t&l&HV&HI)%Calm_View. eapply View_Calm; [by apply View_script | done].
Qed.

Lemma Calm_update {A} (f : World → A * World) : (∀ w, cache (f w).2 = cache w) → keeps Calm (update f).
Proof using Type.
  intros Hf. apply keeps_update; [apply Calm_stable|]. intros s [HI Hu]. split; [|done]. cbn. by rewrite Hf.
Qed.

Lemma Calm_change f : (∀ w, cache (f w) = cache w) → keeps Calm (change f).
Proof using Type. intros Hf. by apply Calm_update. Qed.

Lemma Calm_note b : keeps Calm (change (onCache (noteLastPromptYieldedNothing cardKey b))).
Proof using Type.
  intros s (sl&g&t&l&HV&HI)%Calm_View. eapply wp_mono; [by apply View_note|]. intros [] s' HV'. by eapply View_Calm.
Qed.

#[local] Hint Resolve Calm_stable Calm_quiet Calm_note keeps_ret keeps_gets keeps_look : keeps.

Ltac keep1 :=
  match goal with
  | |- keeps _ (mret _) => apply keeps_ret
  | |- keeps _ (gets _) => apply keeps_gets
  | |- keeps _ (look _) => apply keeps_look; apply Calm_stable
  | |- keeps _ isCancelled => apply keeps_look; apply Calm_stable
  | |- keeps _ (_ ≫= _) => apply keeps_bind; [|intros ?]
  | |- keeps _ (when _ _) => apply keeps_when
  | |- keeps _ (emit _) => apply Calm_quiet; reflexivity
  | |- keeps _ (setPhase _) => apply Calm_quiet; reflexivity
  | |- keeps _ (flag _) => apply Calm_own; intros; reflexivity
  | |- keeps _ (if ?b then _ else _) => destruct b eqn:?
  | |- keeps _ (match ?x with _ => _ end) => destruct x eqn:?
  end.
Ltac keep := repeat first [progress (eauto with keeps) | keep1].

Lemma Calm_silenced w : keeps Calm (silenced w).
Proof using Type. unfold silenced. keep. Qed.

Lemma Calm_offer v : keeps Calm (offer v).
Proof using Type. unfold offer. keep. by apply Calm_own. Qed.

#[local] Hint Resolve Calm_silenced Calm_offer : keeps.

(** The check before a dialog says that nothing was refused. *)
Lemma wanted_unrefused slots gen t l : Inv slots gen t l →
  match t with None => true | Some a => gen <=? generationAtDispatch a end = bool_decide (refusals l = 0).
Proof using Type.
  intros (_&_&_&->&(a&->&_&->&_)&_). pose proof (count_nonneg isRefused l).
  case_bool_decide as E; [apply Z.leb_le | apply Z.leb_gt]; lia.
Qed.

Section Dialog.
Context (slots : Cached → option Secret) (gen : Z) (t : option AttemptContext) (l : list Event).
Context (HI : Inv slots gen t l).

Lemma wp_stillWanted s : View slots gen t l s →
  wp stillWanted (λ b s', View slots gen t l s' ∧ b = bool_decide (refusals l = 0)) s.
Proof using HI.
  intros Hs. eapply wp_mono; [by apply View_stillWanted|]. intros b s' [? ->]. split; [done|]. by eapply wanted_unrefused.
Qed.

Lemma View_requestGated c o s : View slots gen t l s → (refusals l = 0 → mayAsk c o l) →
  wp (requestGated (promptFn c) o) (λ p s', p = dismissed ∧ View slots gen t l s' ∨
    ∃ o' r, p = dismissIfEmpty r ∧ mayAsk c o' l ∧ View slots gen t (EWindow (promptFn c) o' r :: l) s') s.
Proof using HI.
  intros Hs Ho. unfold requestGated, acquire, isCancelled. apply wp_bind, wp_bind, wp_look.
  intros s1 H1%(View_stable _ _ _ _ _ _ Hs). apply wp_ret. rewrite negb_involutive.
  destruct (token (world s1)); [apply wp_ret; by left|]. apply wp_bind. eapply wp_mono; [by apply wp_stillWanted|].
  intros b s2 [H2 ->]. case_bool_decide as Hr; cbn [negb]; [|apply wp_ret; by left]. unfold raise, stamp.
  apply wp_bind, wp_bind. eapply wp_mono; [by apply View_mint|]. intros id s3 H3. apply wp_ret, wp_bind.
  unfold showWindow. apply wp_bind, wp_gets, wp_bind, wp_modify, wp_bind, wp_emit, wp_ret, wp_ret. right.
  eexists _, _. split_and!; [done| |apply View_event, View_script; [done|exact H3]].
  destruct (Ho Hr) as (?&?&?&?&?). by split_and!.
Qed.

Lemma wp_refused kind l' s : View slots gen t l' s → Inv slots (gen + 1) t (ERefused kind :: l') → wp (refused kind) (λ _, Calm) s.
Proof using Hg0.
  intros Hs HI'. unfold refused. apply wp_bind. eapply wp_mono; [by apply View_note|]. intros [] s1 H1.
  apply wp_bind. eapply wp_mono; [by apply View_refusal|]. intros [] s2 H2. apply wp_emit.
  eapply View_Calm; [by apply View_event|]. replace (u64 (gen + 1)) with (gen + 1); [done|].
  destruct HI' as (_&_&_&Eg&_&_&HR&_). pose proof (count_nonneg isRefused (ERefused kind :: l')).
  unfold u64, wrap. rewrite Z.mod_small; lia.
Qed.

Lemma wp_flagged b f l' (Q : unit → Flow → Prop) s : View slots gen t l' s → (∀ s', View slots gen t l' s' → Q tt s') →
  wp (when b (flag f)) Q s.
Proof using Type. intros Hs HQ. apply wp_when; intros _; [apply wp_modify|]; apply HQ; [by apply View_own | done]. Qed.

(** No dialog was raised, but nobody had refused. *)
Lemma wp_unasked w s : View slots gen t l s → refusals l = 0 → wp (unanswered w dismissed) (λ _, Calm) s.
Proof using HI Hg0.
  intros Hs Hr. unfold unanswered, dismissed. cbn [status]. apply wp_bind. apply (wp_flagged _ _ l); [done|]. intros s1 H1.
  apply wp_bind. eapply wp_mono; [eapply wp_refused; [exact H1|by apply Inv_refusal]|]. intros [] s2 H2. by apply wp_ret.
Qed.

(** A dialog came back with nothing to use. *)
Lemma wp_unanswered c o r w s : View slots gen t (EWindow (promptFn c) o r :: l) s → mayAsk c o l →
  answered (dismissIfEmpty r) = false → wp (unanswered w (dismissIfEmpty r)) (λ _, Calm) s.
Proof using HI Hg0.
  intros Hs HM Ha. unfold unanswered, answered in *. set (l' := EWindow (promptFn c) o r :: l) in *.
  assert (He : ∀ kind s, View slots gen t l' s → isEmptyWindow (EWindow (promptFn c) o r) = true → wp (refused kind) (λ _, Calm) s).
  { intros kind s' Hs' ?. eapply wp_refused; [exact Hs' | by apply Inv_emptied]. }
  assert (Hn : ∀ s, View slots gen t l' s → isEmptyWindow (EWindow (promptFn c) o r) = false →
    isUsable c (EWindow (promptFn c) o r) = false → Calm s).
  { intros s' Hs' ??. eapply View_Calm; [exact Hs' | by apply Inv_nothing]. }
  assert (Hc : bool_decide (promptFn c = PCan) || bool_decide (promptFn c = PMrz) = true) by (by destruct c).
  cbn [isEmptyWindow isUsable] in He, Hn. rewrite Hc in He, Hn. rewrite bool_decide_eq_true_2 in Hn by done. cbn [andb] in He, Hn.
  destruct (status (dismissIfEmpty r)).
  - destruct (secret (dismissIfEmpty r)); [done|]. by apply wp_ret, Hn.
  - apply wp_bind. apply (wp_flagged _ _ l'); [done|]. intros s1 H1. apply wp_bind. eapply wp_mono; [by apply He|].
    intros [] s2 H2. by apply wp_ret.
  - apply wp_bind. apply (wp_flagged true _ l'); [done|]. intros s1 H1. by apply wp_ret, Hn.
  - apply wp_bind. apply (wp_flagged _ _ l'); [done|]. intros s1 H1. apply wp_bind. eapply wp_mono; [by apply He|].
    intros [] s2 H2. by apply wp_ret.
  - apply wp_bind. apply (wp_flagged _ _ l'); [done|]. intros s1 H1. by apply wp_ret, Hn.
Qed.

Lemma View_collected c o r w choice v s : View slots gen t (EWindow (promptFn c) o r :: l) s → mayAsk c o l →
  status (dismissIfEmpty r) = SOk → secret (dismissIfEmpty r) = Some v →
  wp (collected c w choice (dismissIfEmpty r) v) (λ _, Calm) s.
Proof using HI.
  intros Hs HM Hst Hv. destruct (dismissIfEmpty_ok _ _ Hst Hv) as [Er _]. unfold collected.
  set (l' := EWindow (promptFn c) o r :: l) in *. apply wp_bind. apply (wp_flagged _ _ l'); [done|]. intros s1 H1.
  apply wp_bind. eapply wp_mono; [by apply View_note|]. intros [] s2 H2.
  assert (He : isEmptyWindow (EWindow (promptFn c) o r) = false).
  { cbn. rewrite Hst. apply andb_false_r. }
  assert (Hn : ∀ s, View slots gen t l' s → isUsable c (EWindow (promptFn c) o r) = false → Calm s).
  { intros s' Hs' ?. eapply View_Calm; [exact Hs' | by apply Inv_nothing]. }
  cbn [isUsable] in Hn. rewrite bool_decide_eq_true_2, Hst, Hv in Hn by done. rewrite Er in *.
  destruct (match chosenKind r with Some k => negb (bool_decide (k = paceOf c)) | None => false end) eqn:Ek.
  - assert (Hs2 : Calm s2). { apply Hn; [done|]. destruct (chosenKind r); [|done]. apply negb_true_iff in Ek. by rewrite Ek. }
    destruct (choice && _ && _); apply wp_bind.
    + eapply wp_mono; [by apply Calm_offer|]. intros [] s3 H3. by apply wp_ret.
    + apply wp_modify, wp_ret. revert s2 Hs2 H2. by refine (λ s2 Hs2 _, Calm_own _ _ s2 Hs2).
  - destruct (resultBuilder c v) eqn:Eb; [|apply wp_ret, Hn; [done|cbn; apply andb_false_r]].
    apply wp_bind. unfold store. apply wp_bind. eapply wp_mono; [by apply View_put|]. intros [] s3 H3. apply wp_emit, wp_ret.
    eapply View_Calm; [by apply View_event|]. by eapply Inv_usable.
Qed.

End Dialog.

Lemma retry_mayAsk slots gen a l c o : Inv slots gen (Some a) l → slots c = None → attempts a < kMaxPaceAttempts →
  attempt o = 0 → refusals l = 0 → mayAsk c (applyRetryContext a o) l.
Proof using Type.
  intros (_&_&H3&_&(a'&[= <-]&Ha&_&Hl)&_) Hc Hlt Ho Hr. unfold mayAsk, applyRetryContext.
  rewrite <- H3. split_and!; [done|done|by rewrite <- Ha|..]; rewrite <- Ha in *; destruct (attempts a =? 0) eqn:E; cbn; try done.
  - unfold u32 at 1. unfold wrap. apply Z.mod_small. unfold kMaxPaceAttempts, u32, wrap in *.
    rewrite Ha. pose proof (Z.mod_pos_bound (rejections l) (2 ^ 32)). lia.
  - lia.
Qed.

Lemma Calm_prompted c w choice o s : Calm s → getter c cardKey (cache (world s)) = None → attempt o = 0 →
  wp (prompted c w choice o) (λ _, Calm) s.
Proof using Hg0.
  intros (sl&g&t&l&HV&HI)%Calm_View Hc Ho. assert (Hsl : sl c = None) by (by rewrite <- (proj1 HV c)).
  assert (Et : tries (own s) = t) by apply HV. assert (∃ a, t = Some a) as [a ->] by (by destruct HI as (_&_&_&_&(a&?&_)&_); exists a).
  unfold prompted. apply wp_bind, wp_gets. cbn. rewrite Et. destruct (kMaxPaceAttempts <=? attempts a) eqn:Hle.
  { apply wp_ret. by eapply View_Calm. }
  apply Z.leb_gt in Hle. apply wp_bind. eapply wp_mono.
  { eapply View_requestGated; [exact HI|exact HV|]. by apply (retry_mayAsk sl g). }
  intros p s1 [[-> H1]|(o'&r&->&HM&H1)].
  - apply wp_bind, wp_bind. eapply wp_mono; [by eapply wp_stillWanted|]. intros b s2 [H2 ->]. apply wp_ret.
    case_bool_decide as Hr; cbn [negb]; [by eapply wp_unasked|]. apply Calm_silenced. by eapply View_Calm.
  - destruct (answered (dismissIfEmpty r)) eqn:Ha.
    + apply wp_bind, wp_ret. unfold answered in Ha. destruct (status (dismissIfEmpty r)) eqn:Est, (secret (dismissIfEmpty r)) eqn:Ese; try done.
      by eapply View_collected.
    + apply wp_bind, wp_bind. eapply wp_mono; [by apply View_stillWanted|]. intros b s2 [H2 ->]. apply wp_ret.
      rewrite (wanted_unrefused _ _ _ _ HI), bool_decide_eq_true_2 by apply HM. cbn [negb]. unfold answered in Ha.
      pose proof (wp_unanswered _ _ _ _ HI c o' r w s2 H2 HM) as Hw. unfold answered in Hw. specialize (Hw Ha).
      by destruct (status (dismissIfEmpty r)), (secret (dismissIfEmpty r)).
Qed.

Lemma Calm_cacheOrPrompt c w choice o : attempt o = 0 → keeps Calm (cacheOrPrompt c w choice o).
Proof using Hg0.
  intros Ho s Hs. unfold cacheOrPrompt. apply wp_bind, wp_look. intros s1 H1%(Calm_stable _ _ Hs). cbn.
  destruct (Calm_View _ H1) as (sl&g&t&l&HV&HI). destruct (getter c cardKey (cache (world s1))) as [v|] eqn:Ev.
  - assert (Hv : current c l = Some v) by (by rewrite <- (proj1 (proj2 (proj2 HI)) c), <- (proj1 HV c)).
    assert (is_Some (resultBuilder c v)) as [res ->] by (by apply HI). by apply wp_ret.
  - apply wp_bind. eapply wp_mono; [by eapply wp_stillWanted|]. intros b s2 [H2 ->].
    assert (Hc2 : Calm s2) by (by eapply View_Calm). case_bool_decide; cbn [negb]; [|by apply Calm_silenced].
    apply Calm_prompted; [done| |done]. by rewrite (proj1 H2 c), <- (proj1 HV c).
Qed.

Lemma Calm_requestCredential req w choice o : attempt o = 0 → keeps Calm (requestCredential req w choice o).
Proof using Hg0. intros Ho. unfold requestCredential. keep; by apply Calm_cacheOrPrompt. Qed.

(** *** The providers *)

Lemma wp_noteRejectedSecret a s : Calm s → tries (own s) = Some a → wp (noteRejectedSecret a) (λ _, Calm) s.
Proof using Type.
  intros (sl&g&t&l&HV&HI)%Calm_View Ea. assert (t = Some a) as -> by (rewrite <- Ea; symmetry; apply HV).
  unfold noteRejectedSecret. apply wp_bind. eapply wp_mono; [by eapply View_mark|]. intros [] s1 H1.
  apply wp_bind, wp_modify, wp_emit. eapply View_Calm; [|by eapply Inv_reject].
  destruct H1 as (?&?&?&<-&?). by split_and!.
Qed.

Lemma Calm_noteRejected s a : Calm s → tries (own s) = a →
  wp (match a with Some a => noteRejectedSecret a | None => mret tt end) (λ _, Calm) s.
Proof using Type. intros Hs Ha. destruct a; [by apply wp_noteRejectedSecret | by apply wp_ret]. Qed.

Lemma Calm_markRejected : keeps Calm markRejected.
Proof using Type.
  intros s Hs. apply wp_bind, wp_gets. cbn [compose]. destruct (tries (own s)) eqn:Ea; [by apply wp_noteRejectedSecret|].
  destruct Hs as [(_&_&_&_&(a&E&_)&_) _]. congruence.
Qed.

Lemma Calm_isCardRejectionSignal req : keeps Calm (isCardRejectionSignal req).
Proof using Type. unfold isCardRejectionSignal. keep. Qed.

#[local] Hint Resolve Calm_markRejected Calm_isCardRejectionSignal : keeps.

Lemma Calm_readProvider w om mc o req : attempt o = 0 → keeps Calm (readProvider w om mc o req).
Proof using Hg0.
  intros Ho. unfold readProvider. do 4 (apply keeps_bind; [keep|intros ?]).
  apply keeps_bind; [|intros r; keep]. keep. apply Calm_requestCredential. by destruct (om && mc && _)%bool.
Qed.

Lemma Calm_raisePin o : keeps Calm (raise PPin o).
Proof using Type.
  unfold raise, stamp, mint, showWindow. keep; [by apply Calm_update | by apply Calm_script].
Qed.

Lemma Calm_requestPin o : keeps Calm (requestPin o).
Proof using Type. unfold requestPin, acquire. keep. by apply Calm_raisePin. Qed.

Lemma Calm_requestPinChange o : keeps Calm (requestPinChange o).
Proof using Type.
  unfold requestPinChange, acquire, stamp, mint, showChangeWindow. keep; [by apply Calm_update | by apply Calm_script].
Qed.

#[local] Hint Resolve Calm_requestPin Calm_requestPinChange : keeps.

Lemma Calm_pinProvider keep_ o req : (∀ v, keeps Calm (keep_ v)) → keeps Calm (pinProvider keep_ o req).
Proof using Type. intros Hk. unfold pinProvider. keep. Qed.

Lemma Calm_channelProvider o req : attempt o = 0 → keeps Calm (channelProvider o req).
Proof using Hg0. intros Ho. unfold channelProvider. keep. by apply Calm_requestCredential. Qed.

Lemma Calm_signProvider name req : keeps Calm (signProvider name req).
Proof using Hg0.
  unfold signProvider, served. keep; [apply Calm_pinProvider; intros v; keep | by apply Calm_channelProvider].
Qed.

Lemma Calm_batchProvider documents req : keeps Calm (batchProvider documents req).
Proof using Hg0.
  unfold batchProvider, served. keep; [apply Calm_pinProvider; intros v; keep; by apply Calm_own | by apply Calm_channelProvider].
Qed.

Lemma Calm_walk provider steps : (∀ req, keeps Calm (provider req)) → keeps Calm (walk provider steps).
Proof using Type. intros Hp. apply keeps_walk; [done|]. intros g. by apply Calm_quiet. Qed.

(** ** The flows

    What is claimed holds of every prefix of a run; [Calm] until the card's entry is
    evicted, after which nobody is asked. *)
Definition Done (s : Flow) : Prop := bounded (log s).

Lemma Calm_Done s : Calm s → Done s.
Proof using Type. by intros [[? _] _]. Qed.

Lemma Done_stable : stable Done.
Proof using Type. by intros s s' Hs [->|(?&?&?&->)]. Qed.

Lemma Done_quiet e : quietEvent e = true → keeps Done (emit e).
Proof using Type. intros He. apply keeps_emit. intros s Hs. by apply bounded_quiet. Qed.

Lemma Done_evict : keeps Done evict.
Proof using Type.
  apply keeps_bind; [apply keeps_change; [apply Done_stable|done]|]. intros []. apply keeps_emit. intros s Hs.
  by apply bounded_neutral.
Qed.

Lemma Done_own f : keeps Done (modify (onOwn f)).
Proof using Type. by apply keeps_modify. Qed.

Lemma keeps_Done {A} (m : M A) s : keeps Calm m → Calm s → wp m (λ _, Done) s.
Proof using Type. intros Hm Hs. eapply wp_mono; [by apply Hm|]. intros a s'. apply Calm_Done. Qed.

#[local] Hint Resolve Calm_readProvider Calm_signProvider Calm_batchProvider : keeps.

(** The start of a run: what was cached is well-formed. *)
Context (Hinit : ∀ c v, init c = Some v → is_Some (resultBuilder c v)).

Definition Starting (s : Flow) : Prop := ∃ t, View init g0 t [] s.

Lemma Starting_stable : stable Starting.
Proof using Type. intros s s' [t HV] He. exists t. by eapply View_stable. Qed.

Lemma Starting_Done s : Starting s → Done s.
Proof using Type. intros (t&_&_&_&El&_). unfold Done. rewrite El. split_and!; [done|done|]. by intros []. Qed.

Lemma wp_freshRun s : Starting s → wp freshRun (λ _, Calm) s.
Proof using Hinit.
  intros Hs. unfold freshRun. apply wp_bind, wp_look. intros s1 [t (H1&H2&H3&H4&H5)]%(Starting_stable _ _ Hs).
  apply wp_modify. cbn [compose]. rewrite H2. eapply (View_Calm init g0 (Some (newAttempts g0)) []); [by split_and!|].
  split_and!; try first [done | by intros [] | by eexists]; [symmetry; apply Z.add_0_r|]. intros c. cbn. by destruct (init c).
Qed.

Section Runs.
Context (acquired : (OpenErrorKind * string) + CandidateList).

Lemma wp_openSession s : Starting s → wp (openSession acquired) (λ _, Starting) s.
Proof using Type.
  intros Hs. refine ((_ : keeps Starting _) s Hs). pose proof Starting_stable. unfold openSession, isCancelled.
  apply keeps_bind; [by apply keeps_look|]. intros []; [apply keeps_ret|]. destruct acquired as [[]|]; [apply keeps_ret|].
  apply keeps_bind; [by apply keeps_look|]. intros []; apply keeps_ret.
Qed.

(** A run that was set up and cleaned up. *)
Lemma wp_scoped {A} (m : M A) s : (∀ s, Calm s → wp m (λ _, Done) s) → Calm s → wp (scoped m) (λ _, Done) s.
Proof using Type.
  intros Hm Hs. unfold scoped. apply wp_bind. eapply wp_mono.
  { refine ((_ : keeps Calm install) s Hs). unfold install. keep. by apply Calm_own. }
  intros [] s1 H1. apply wp_bind. eapply wp_mono; [by apply Hm|]. intros a s2 H2.
  refine ((_ : keeps Done _) s2 H2). unfold uninstall.
  repeat apply keeps_bind; [apply Done_own| |]; intros []; [by apply Done_quiet | apply keeps_ret].
Qed.

Lemma wp_started {A} (m : M A) s : (∀ s, Calm s → wp m (λ _, Done) s) → Starting s → wp (freshRun;; scoped m) (λ _, Done) s.
Proof using Hinit.
  intros Hm Hs. apply wp_bind. eapply wp_mono; [by apply wp_freshRun|]. intros [] s1 H1. by apply wp_scoped.
Qed.

Lemma wp_opened {A} (k : CandidateList → M (Result A)) s : (∀ c s, Starting s → wp (k c) (λ _, Done) s) → Starting s →
  wp (opened acquired k) (λ _, Done) s.
Proof using Type.
  intros Hk Hs. unfold opened. apply wp_bind. eapply wp_mono; [by apply wp_openSession|].
  intros [cands| |code msg] s1 H1; [by apply Hk|..]; by apply wp_ret, Starting_Done.
Qed.

Lemma Calm_readFailed {A} st fallback : keeps Calm (readFailed (A := A) st fallback).
Proof using Type.
  unfold readFailed, theFlags. apply keeps_bind; [|intros []; keep]. apply keeps_when.
  intros s Hs. apply wp_bind, wp_gets, wp_bind, wp_gets, wp_bind. cbn [compose].
  eapply wp_mono; [apply wp_when; intros _; [by apply Calm_noteRejected | exact Hs]|]. intros [] s1 H1. by apply Calm_quiet.
Qed.

#[local] Hint Resolve @Calm_readFailed Calm_walk : keeps.

Ltac run := repeat first [progress (eauto with keeps) | keep1 | apply Calm_walk; intros ? | by apply Calm_readProvider].

Lemma Calm_readOnce reader n cands : keeps Calm (readOnce reader n cands).
Proof using Hg0. unfold readOnce. run. Qed.

#[local] Hint Resolve Calm_readOnce : keeps.

Lemma Calm_renegotiate reader deposit cands out : keeps Calm (renegotiate reader deposit cands out).
Proof using Hg0.
  unfold renegotiate. apply keeps_bind; [unfold takeChoice; run; by apply Calm_own|]. intros [v|]; [|run].
  destruct (MrzPayload.parseMrzPayload (text v)) as [parts|] eqn:Hp; [|run]. apply keeps_bind; [|intros []; run].
  intros s (sl&g&t&l&HV&HI)%Calm_View. unfold store. apply wp_bind. eapply wp_mono; [by apply View_put|]. intros [] s1 H1.
  apply wp_emit. eapply View_Calm; [by apply View_event|]. eapply Inv_store; [exact HI| |done].
  cbn. unfold buildMrzResult. by rewrite Hp.
Qed.
#[local] Hint Resolve Calm_renegotiate : keeps.

Lemma Done_identityRead reader deposit onType s : Starting s → wp (identityRead acquired reader deposit onType) (λ _, Done) s.
Proof using Hg0 Hinit.
  apply wp_opened. intros cands s1 H1. apply wp_bind. eapply wp_mono; [by apply wp_freshRun|]. intros [] s2 H2. apply wp_bind.
  eapply wp_mono; [apply wp_scoped; [|exact H2]|].
  - intros s3. apply keeps_Done. unfold identityRun, readConcluded. run.
  - intros r s4 H4. by apply wp_bind, wp_modify, wp_ret.
Qed.

Lemma Done_certRead reader verify s : Starting s → wp (certRead acquired reader verify) (λ _, Done) s.
Proof using Hg0 Hinit.
  apply wp_opened. intros cands s1. apply wp_started. intros s2. apply keeps_Done. unfold certRun. run.
Qed.

Lemma Done_tokenInfoRead reader s : Starting s → wp (tokenInfoRead acquired reader) (λ _, Done) s.
Proof using Hg0 Hinit.
  apply wp_opened. intros cands s1. apply wp_started. intros s2. apply keeps_Done. unfold tokenInfoRun, theFlags. run.
Qed.

Lemma Done_credentialList list_ now s : Starting s → wp (credentialList acquired list_ now) (λ _, Done) s.
Proof using Hg0 Hinit.
  apply wp_opened. intros cands s1. apply wp_started. intros s2. apply keeps_Done. unfold listRun, theFlags. run.
  by apply Calm_update.
Qed.

(** Signing: the card's entry may be evicted once the card has been asked to sign. *)

Ltac done1 :=
  match goal with
  | |- keeps _ (mret _) => apply keeps_ret
  | |- keeps _ (gets _) => apply keeps_gets
  | |- keeps _ theFlags => apply keeps_gets
  | |- keeps _ (look _) => apply keeps_look, Done_stable
  | |- keeps _ isCancelled => apply keeps_look, Done_stable
  | |- keeps _ (_ ≫= _) => apply keeps_bind; [|intros ?]
  | |- keeps _ (when _ _) => apply keeps_when
  | |- keeps _ (emit _) => apply Done_quiet; reflexivity
  | |- keeps _ (setPhase _) => apply Done_quiet; reflexivity
  | |- keeps _ evict => apply Done_evict
  | |- keeps _ (if ?b then _ else _) => destruct b
  | |- keeps _ (match ?x with _ => _ end) => destruct x
  end.
Ltac finish := repeat done1.

Lemma Done_sign signer params s : Starting s → wp (sign acquired signer params) (λ _, Done) s.
Proof using Hg0 Hinit.
  apply wp_opened. intros cands s1. apply wp_started. intros s2 H2. unfold signRun, isCancelled at 1. apply wp_bind, wp_look.
  intros s3 H3%(Calm_stable _ _ H2). destruct (token (world s3)); [by apply wp_ret, Calm_Done|].
  do 3 (apply wp_bind; eapply wp_mono; [first [by apply Calm_quiet | apply Calm_walk; [apply Calm_signProvider|done]]|];
    clear H3 s3; intros [] s3 H3).
  refine ((_ : keeps Done _) s3 (Calm_Done _ H3)). finish.
Qed.

(** A batch goes on while the card's entry has not been evicted. *)
Definition goesOn (r : option (BatchSignRow * BatchState)) (s : Flow) : Prop :=
  Done s ∧ ∀ row b, r = Some (row, b) → halted b = None → Calm s.

Lemma Done_classify st s : Calm s → wp (classify st) (λ r s', Done s' ∧ (r.2 = false → Calm s')) s.
Proof using Type.
  intros Hs. pose proof (Calm_Done _ Hs) as Hd. unfold classify, theFlags. apply wp_bind, wp_gets. cbn [compose].
  repeat match goal with |- wp (if ?b then mret _ else _) _ _ => destruct b; [by apply wp_ret|] end.
  destruct (isHaltingStatus st); [|by apply wp_ret].
  apply wp_bind. eapply wp_mono; [by apply Done_evict|]. intros [] s1 H1. apply wp_bind.
  eapply wp_mono; [by apply Done_quiet|]. intros [] s2 H2. by apply wp_ret.
Qed.

Lemma Done_signOne signer params documents cands i doc b s : Done s → (halted b = None → Calm s) →
  wp (signOne signer params documents cands i doc b) goesOn s.
Proof using Hg0.
  intros Hd Hc. unfold signOne. destruct (halted b) as [code|]; [apply wp_ret; split; [done|by intros ?? [= <- <-]]|].
  specialize (Hc eq_refl). unfold isCancelled at 1. apply wp_bind, wp_look. intros s1 H1%(Calm_stable _ _ Hc).
  destruct (token (world s1)); [apply wp_ret; by split; [apply Calm_Done|]|]. cbv zeta.
  do 2 (apply wp_bind; eapply wp_mono; [first [by apply Calm_quiet | apply Calm_walk; [apply Calm_batchProvider|done]]|];
    clear H1 s1; intros [] s1 H1).
  apply wp_bind. eapply wp_mono.
  { refine ((_ : keeps Calm _) s1 H1). keep. }
  intros c s2 H2. assert (Hend : goesOn None s2) by (by split; [apply Calm_Done|]).
  destruct c; [by apply wp_ret|].
  destruct (so_status (signer i _).2); try (apply wp_bind; eapply wp_mono; [by apply Done_classify|];
    intros [code halts] s3 [H3 H3']; apply wp_ret; split; [done|]; intros row b' [= <- <-] Hh; apply H3'; by destruct halts).
  apply wp_bind. eapply wp_mono; [refine ((_ : keeps Calm _) s2 H2); keep|]. intros [] s3 H3. apply wp_ret.
  by split; [apply Calm_Done|].
Qed.

Lemma Done_signDocuments signer params documents cands docs : ∀ i b s, Done s → (halted b = None → Calm s) →
  wp (signDocuments signer params documents cands i docs b) (λ _, Done) s.
Proof using Hg0.
  induction docs as [|doc docs IH]; intros i b s Hd Hc; cbn [signDocuments]; [by apply wp_ret|].
  apply wp_bind. eapply wp_mono; [by apply Done_signOne|]. intros [[row b']|] s1 [H1 H1']; [|by apply wp_ret].
  apply wp_bind. eapply wp_mono; [apply IH; [done|by eapply H1']|]. intros r s2 H2. by apply wp_ret.
Qed.

Lemma Done_batchSign signer params documents s : Starting s → wp (batchSign acquired signer params documents) (λ _, Done) s.
Proof using Hg0 Hinit.
  intros Hs. unfold batchSign. apply wp_bind. eapply (wp_mono (λ _, Done)).
  - destruct (isValidBatchDocumentCount _); [|by apply wp_ret, Starting_Done]. revert s Hs. intros s. apply wp_opened.
    intros cands s1. apply wp_started. intros s2 H2. unfold batchRun, isCancelled. apply wp_bind, wp_look.
    intros s3 H3%(Calm_stable _ _ H2). destruct (token (world s3)); [by apply wp_ret, Calm_Done|]. apply wp_bind.
    eapply wp_mono; [apply Done_signDocuments; [by apply Calm_Done|done]|]. intros r s4 H4. by apply wp_ret.
  - intros r s1 H1. by apply wp_bind, wp_modify, wp_ret.
Qed.

(** The flows on PINs. *)
Lemma Done_dropReads : keeps Done dropReads.
Proof using Type. apply keeps_bind; [|intros []]; by apply keeps_change; [apply Done_stable|]. Qed.

Lemma wp_settled (m : M (CredentialOpResult * bool)) s : wp m (λ _, Done) s →
  wp ('(result, reachedCard) ← m; when reachedCard dropReads;; mret result) (λ _, Done) s.
Proof using Type.
  intros Hm. apply wp_bind. eapply wp_mono; [exact Hm|]. intros [r reached] s1 H1. apply wp_bind.
  eapply wp_mono; [by apply keeps_when; [apply Done_dropReads|]|]. intros [] s2 H2. by apply wp_ret.
Qed.

Lemma Done_runPinManage change_ name snapshot request s : Starting s →
  wp (runPinManage acquired change_ name snapshot request) (λ _, Done) s.
Proof using Hg0 Hinit.
  intros Hs. apply wp_settled. pose proof (Starting_Done _ Hs). destruct (findRecord _ _) as [[i record]|]; [|by apply wp_ret].
  destruct snapshot as [snap|]; [|by apply wp_ret]. destruct (_ || negb _)%bool; [by apply wp_ret|].
  apply wp_bind. eapply wp_mono; [by apply wp_openSession|]. intros [cands| |code msg] s1 H1; [|by apply wp_ret, Starting_Done..].
  apply wp_started; [|done]. intros s2. apply keeps_Done. unfold changeRun. run.
Qed.

Lemma Done_runKeyActivation activate record plugin s : Starting s →
  wp (runKeyActivation acquired activate record plugin) (λ _, Done) s.
Proof using Hg0 Hinit.
  intros Hs. apply wp_settled. pose proof (Starting_Done _ Hs). destruct (negb _); [by apply wp_ret|].
  unfold isCancelled. apply wp_bind, wp_look. intros s1 H1%(Starting_stable _ _ Hs). destruct (token (world s1)).
  { by apply wp_ret, Starting_Done. }
  apply wp_bind. eapply wp_mono; [by apply wp_openSession|]. intros [cands| |code msg] s2 H2; [|by apply wp_ret, Starting_Done..].
  apply wp_started; [|done]. intros s3. apply keeps_Done. unfold activationRun. run.
Qed.

End Runs.

End Asking.

(** C14: while no other thread changes the card's entry, every run of every flow spares its
    holder: after a dialog for a CAN or an MRZ that was dismissed, left empty or ran out
    there is no further one; none is raised while a secret that was not rejected is at
    hand, nor after three rejections; each dialog says which try it is, and from the
    second on that the last secret was rejected; and at most three dialogs of a kind are
    answered with a well-formed secret. *)
Theorem asking_bounded `{D : Deps} s s' (init := λ c, getter c cardKey (cache (world s))) :
  runs s s' → log s = [] → undisturbed (script s) →
  (∀ c v, init c = Some v → is_Some (resultBuilder c v)) →
  0 ≤ refusalGenerationFor cardKey (cache (world s)) < 2 ^ 64 - 1 →
  bounded init (log s').
Proof.
  intros Hr El Hu Hi Hg. assert (Hs : Starting init (refusalGenerationFor cardKey (cache (world s))) s).
  { exists (tries (own s)). by split_and!. }
  destruct Hr; [eapply Done_identityRead | eapply Done_certRead | eapply Done_tokenInfoRead | eapply Done_credentialList
    | eapply Done_sign | eapply Done_batchSign | eapply Done_runPinManage | eapply Done_runKeyActivation]; eauto.
Qed.

Lemma asking_bounded_witness :
  map (λ e, match e with EWindow _ o _ => attempt o | _ => 0 end)
    (List.filter (λ e, isWindow CCan e) (log sampleRun)) = [2; 0] ∧
  bounded (D := sampleDeps) (λ c, getter c "card-1" (cache (world sampleStart))) (log sampleRun).
Proof.
  split; [vm_compute; reflexivity|].
  refine (asking_bounded (D := sampleDeps) sampleStart sampleRun _ _ _ _ _).
  - apply runs_identity.
  - reflexivity.
  - constructor.
  - by intros [].
  - by vm_compute.
Defined.

End FlowAsking.
