(* ===== verification/FlowConduct.v ===== *)
(** * How a flow conducts itself

    A flow's provider is the card session's only while the flow works with the card, a
    dialog is raised only while the operation shows that it waits for a person, and a
    finished flow holds no secret. A batch signs its documents in order with one PIN, and
    stops before it costs the card another try; a flow that changes a card drops what was
    cached of it. *)
From stdpp Require Import gmap strings pretty.
From S2P Require Import Prelude Vocabulary Caches Operations ReaderLabels Mrz Credentials Flows FlowSafety.
Import Vocabulary Credentials Flows.
Local Open Scope Z_scope.

Module FlowConduct.
Import FlowLogic FlowSafety.

(** ** Phases and the provider's scope *)

(** The phase that the operation shows. *)
Fixpoint phaseOf (l : list Event) : option Operations.OperationPhase :=
  match l with [] => None | EPhase p :: _ => Some p | _ :: l => phaseOf l end.

(** Whether the flow's provider is the session's. *)
Fixpoint provides (l : list Event) : bool :=
  match l with [] => false | EInstall :: _ => true | EUninstall :: _ => false | _ :: l => provides l end.

(** What an event needs of the events before it. *)
Definition inPlace (e : Event) (l : list Event) : Prop :=
  match e with
  | EWindow _ _ _ | EChangeWindow _ _ => provides l = true ∧ phaseOf l = Some Operations.AwaitingConsent
  | EServe _ _ | EDeposit _ | EGroup _ | ERead _ | EReadCerts _ | ETokenInfo _ | EList _ | EChangePin _ _ _ _
  | EActivateKey _ _ | ESign _ _ => provides l = true
  | EInstall => provides l = false
  | _ => True
  end.

Fixpoint allInPlace (l : list Event) : Prop :=
  match l with [] => True | e :: l => inPlace e l ∧ allInPlace l end.

Section Scope.
Context {D : Deps}.

(** The secrets that a flow may hold for itself: an MRZ that was chosen for a CAN, the PIN
    of a batch. *)
Context (noMrz noPin : bool).
Definition holdsNo (o : Own) : Prop :=
  (noMrz = true → payload (sink o) = None) ∧ (noPin = true → batchPin o = None).

(** The flow is at work, or it waits for a person. *)
Definition AtWork (s : Flow) : Prop :=
  allInPlace (log s) ∧ provides (log s) = true ∧ installed (own s) = true ∧ holdsNo (own s).
Definition Waits (s : Flow) : Prop := AtWork s ∧ phaseOf (log s) = Some Operations.AwaitingConsent.

Lemma AtWork_stable : stable AtWork.
Proof. by intros s s' Hs [->|(?&?&?&->)]. Qed.

Lemma Waits_stable : stable Waits.
Proof. by intros s s' Hs [->|(?&?&?&->)]. Qed.

(** Events of work; those that leave the phase as it is. *)
Definition workEvent (e : Event) : bool :=
  match e with EWindow _ _ _ | EChangeWindow _ _ | EInstall | EUninstall => false | _ => true end.
Definition waitEvent (e : Event) : bool := match e with EPhase _ | EInstall | EUninstall => false | _ => true end.

Lemma AtWork_emit e : workEvent e = true → keeps AtWork (emit e).
Proof.
  intros He. apply keeps_emit. intros s (H1&H2&H3&H4). split; [|split; [|done]]; cbn [log]; [split; [|done]|]; by destruct e.
Qed.

Lemma Waits_emit e : waitEvent e = true → keeps Waits (emit e).
Proof.
  intros He. apply keeps_emit. intros s ((H1&H2&H3&H5)&H4).
  split; [split; [|split; [|done]]|]; cbn [log]; [split; [|done]|..]; by destruct e.
Qed.

(** An update of the flow's own state. *)
Definition ownOk (f : Own → Own) : Prop := ∀ o, installed (f o) = installed o ∧ (holdsNo o → holdsNo (f o)).

Lemma AtWork_own f : ownOk f → keeps AtWork (modify (onOwn f)).
Proof.
  intros Hf. apply keeps_modify. intros s (H1&H2&H3&H4). destruct (Hf (own s)) as [E Ho].
  exact (conj H1 (conj H2 (conj (eq_trans E H3) (Ho H4)))).
Qed.

Lemma Waits_own f : ownOk f → keeps Waits (modify (onOwn f)).
Proof. intros Hf. apply keeps_modify. intros s [H1 H2]. split; [by apply (AtWork_own f Hf)|done]. Qed.

Lemma flag_ok f : ownOk (onFlags f).
Proof. by intros o. Qed.
Lemma sinkReset_ok t : ownOk (setSink (mkSink None t)).
Proof. intros o. split; [done|]. intros [H1 H2]. by split. Qed.
Lemma offer_ok v t : noMrz = false → ownOk (setSink (mkSink (Some v) t)).
Proof. intros E o. split; [done|]. intros [H1 H2]. split; [congruence|done]. Qed.

Lemma AtWork_update {A} (f : World → A * World) : keeps AtWork (update f).
Proof. apply keeps_update; [apply AtWork_stable | done]. Qed.

Lemma Waits_update {A} (f : World → A * World) : keeps Waits (update f).
Proof. apply keeps_update; [apply Waits_stable | done]. Qed.

Lemma Waits_script f : keeps Waits (modify (onScript f)).
Proof. by apply keeps_modify. Qed.

Ltac wait1 :=
  match goal with
  | |- keeps _ (mret _) => apply keeps_ret
  | |- keeps _ (gets _) => apply keeps_gets
  | |- keeps _ (look _) => apply keeps_look; apply Waits_stable
  | |- keeps _ (update _) => apply Waits_update
  | |- keeps _ (change _) => apply Waits_update
  | |- keeps _ (_ ≫= _) => apply keeps_bind; [|intros ?]
  | |- keeps _ (when _ _) => apply keeps_when
  | |- keeps _ (emit _) => apply Waits_emit; reflexivity
  | |- keeps _ (flag _) => apply Waits_own, flag_ok
  | |- keeps _ (modify (onScript _)) => apply Waits_script
  | |- keeps _ (if ?b then _ else _) => destruct b eqn:?
  | |- keeps _ (match ?x with _ => _ end) => destruct x eqn:?
  end.
Ltac wait := repeat first [progress (eauto with keeps) | wait1].

Lemma Waits_raise kind o : keeps Waits (raise kind o).
Proof. unfold raise, stamp, mint, showWindow. wait. Qed.
Lemma Waits_stillWanted : keeps Waits stillWanted.
Proof. unfold stillWanted. wait. Qed.
#[local] Hint Resolve Waits_raise Waits_stillWanted : keeps.

Lemma Waits_requestPin o : keeps Waits (requestPin o).
Proof. unfold requestPin, acquire, isCancelled. wait. Qed.
Lemma Waits_requestGated kind o : keeps Waits (requestGated kind o).
Proof. unfold requestGated, acquire, isCancelled. wait. Qed.
Lemma Waits_requestPinChange o : keeps Waits (requestPinChange o).
Proof. unfold requestPinChange, acquire, isCancelled, stamp, mint, showChangeWindow. wait. Qed.
Lemma Waits_silenced w : keeps Waits (silenced w).
Proof. unfold silenced. wait. Qed.
Lemma Waits_unanswered w p : keeps Waits (unanswered w p).
Proof. unfold unanswered, refused. wait. Qed.
Lemma Waits_offer v : noMrz = false → keeps Waits (offer v).
Proof. intros E. unfold offer. wait. by apply Waits_own, offer_ok. Qed.
Lemma Waits_collected c w choice p v : (choice = true → noMrz = false) → keeps Waits (collected c w choice p v).
Proof. intros Hc. unfold collected, store. wait. apply Waits_offer, Hc. by destruct choice. Qed.
#[local] Hint Resolve Waits_requestPin Waits_requestGated Waits_requestPinChange Waits_silenced Waits_unanswered
  Waits_offer Waits_collected : keeps.

Lemma Waits_requestCredential req w choice o : (choice = true → noMrz = false) → keeps Waits (requestCredential req w choice o).
Proof. intros Hc. unfold requestCredential, cacheOrPrompt, prompted, evict. wait. Qed.
Lemma Waits_isCardRejectionSignal req : keeps Waits (isCardRejectionSignal req).
Proof. unfold isCardRejectionSignal. wait. Qed.
Lemma Waits_markRejected : keeps Waits markRejected.
Proof. unfold markRejected, noteRejectedSecret. wait; by apply Waits_own. Qed.
#[local] Hint Resolve Waits_requestCredential Waits_isCardRejectionSignal Waits_markRejected : keeps.

(** From waiting back to work. *)
Definition resumes {A} (m : M A) : Prop := ∀ s, Waits s → wp m (λ _, AtWork) s.

Lemma resumes_bind {A B} (m : M A) (k : A → M B) : keeps Waits m → (∀ a, resumes (k a)) → resumes (m ≫= k).
Proof. intros Hm Hk s Hs. apply wp_bind. eapply wp_mono; [by apply Hm|]. intros a s' Hs'. by apply Hk. Qed.

Lemma resumes_work {A} (m : M A) : keeps AtWork m → resumes m.
Proof. intros Hm s [Hs _]. by apply Hm. Qed.

Lemma AtWork_asks {A} (k : () → M A) : resumes (k ()) → keeps AtWork (setPhase Operations.AwaitingConsent ≫= k).
Proof.
  intros Hk s (H1&H2&H3&H4). apply wp_bind, wp_emit, Hk.
  exact (conj (conj (conj I H1) (conj H2 (conj H3 H4))) eq_refl).
Qed.

Ltac work1 :=
  match goal with
  | |- keeps _ (mret _) => apply keeps_ret
  | |- keeps _ (gets _) => apply keeps_gets
  | |- keeps _ theFlags => apply keeps_gets
  | |- keeps _ (look _) => apply keeps_look; apply AtWork_stable
  | |- keeps _ isCancelled => apply keeps_look; apply AtWork_stable
  | |- keeps _ (update _) => apply AtWork_update
  | |- keeps _ (change _) => apply AtWork_update
  | |- keeps _ (_ ≫= _) => apply keeps_bind; [|intros ?]
  | |- keeps _ (when _ _) => apply keeps_when
  | |- keeps _ (emit _) => apply AtWork_emit; reflexivity
  | |- keeps _ (setPhase _) => apply AtWork_emit; reflexivity
  | |- keeps _ (flag _) => apply AtWork_own, flag_ok
  | |- keeps _ (if ?b then _ else _) => destruct b eqn:?
  | |- keeps _ (match ?x with _ => _ end) => destruct x eqn:?
  end.
Ltac work := repeat first [progress (eauto with keeps) | work1].

Lemma AtWork_readProvider w om mc o req : (mc = true → noMrz = false) → keeps AtWork (readProvider w om mc o req).
Proof.
  intros Hc. unfold readProvider. apply AtWork_asks. apply resumes_bind; [wait|intros marked].
  apply resumes_bind; [wait|intros []].
  assert (Hend : ∀ r : CredentialResult, resumes (when (w_markedWrong w) (match r with
      | ROk _ => flag (setMarkedWrong false) | _ => when marked (flag (setMarkedWrong true)) end);;
      setPhase Operations.Authenticating;; emit (EServe req r);; mret r)).
  { intros r. apply resumes_work. work. }
  destruct (om && mc && _) eqn:Ho.
  - assert (noMrz = false) by (apply Hc; by destruct om, mc).
    apply resumes_bind; [wait|intros cached]. apply resumes_bind; [wait|exact Hend].
  - intros s Hs. apply wp_bind, wp_ret. revert s Hs. apply resumes_bind; [by apply Waits_requestCredential|exact Hend].
Qed.

Lemma AtWork_pinProvider keep_ o req : (∀ v, keeps Waits (keep_ v)) → keeps AtWork (pinProvider keep_ o req).
Proof.
  intros Hk. unfold pinProvider. apply AtWork_asks. apply resumes_bind; [wait|intros p].
  assert (Hflags : ∀ st, resumes (when (bool_decide (st = SError)) (flag (setPrompterFailed true));;
      when (bool_decide (st = STimeout)) (flag (setEntryExpired true));;
      when (bool_decide (st = SHelperTooOld)) (flag (setHelperTooOld true));;
      mret (RError noText))) by (intros st; apply resumes_work; work).
  destruct (status p); try apply Hflags; [|apply resumes_work; work].
  destruct (secret p); [|apply Hflags]. apply resumes_bind; [done|]. intros []. apply resumes_work. work.
Qed.

Lemma AtWork_channelProvider o req : keeps AtWork (channelProvider o req).
Proof.
  unfold channelProvider. apply AtWork_asks. intros s Hs. eapply wp_mono; [refine ((_ : keeps Waits _) s Hs); wait|].
  - by apply Waits_requestCredential.
  - by intros r s' [? _].
Qed.

Lemma AtWork_signProvider name req : keeps AtWork (signProvider name req).
Proof.
  unfold signProvider, served. work; [apply AtWork_pinProvider; intros v; wait | apply AtWork_channelProvider].
Qed.

Lemma AtWork_batchProvider documents req : noPin = false → keeps AtWork (batchProvider documents req).
Proof.
  intros E. unfold batchProvider, served. work; [|apply AtWork_channelProvider]. apply AtWork_pinProvider. intros v. wait.
  apply Waits_own. intros o. split; [done|]. intros [? _]. by split; [|congruence].
Qed.

Lemma AtWork_walk provider steps : (∀ req, keeps AtWork (provider req)) → keeps AtWork (walk provider steps).
Proof. intros Hp. apply keeps_walk; [done|]. intros g. by apply AtWork_emit. Qed.

#[local] Hint Resolve AtWork_readProvider AtWork_signProvider AtWork_batchProvider : keeps.

(** ** The flows *)

(** Before the session is the flow's, and after. *)
Definition Idle (s : Flow) : Prop :=
  allInPlace (log s) ∧ provides (log s) = false ∧ installed (own s) = false ∧ holdsNo (own s).

Lemma Idle_stable : stable Idle.
Proof. by intros s s' Hs [->|(?&?&?&->)]. Qed.

Lemma Idle_scoped {A} (m : M A) : keeps AtWork m → keeps Idle (scoped m).
Proof.
  intros Hm s (H1&H2&H3&H4). unfold scoped, install, uninstall. apply wp_bind, wp_bind, wp_modify, wp_emit, wp_bind.
  eapply wp_mono; [apply Hm|].
  - exact (conj (conj H2 H1) (conj eq_refl (conj eq_refl H4))).
  - intros a s1 (G1&G2&G3&G4). apply wp_bind, wp_bind, wp_modify, wp_emit, wp_ret.
    exact (conj (conj I G1) (conj eq_refl (conj eq_refl G4))).
Qed.

Lemma Idle_freshRun : keeps Idle freshRun.
Proof. apply keeps_bind; [apply keeps_look, Idle_stable|]. intros g. by apply keeps_modify. Qed.

Section Runs.
Context (acquired : (OpenErrorKind * string) + CandidateList).

Lemma Idle_openSession : keeps Idle (openSession acquired).
Proof.
  unfold openSession, isCancelled. pose proof Idle_stable. apply keeps_bind; [by apply keeps_look|].
  intros []; [apply keeps_ret|]. destruct acquired as [[]|]; [apply keeps_ret|].
  apply keeps_bind; [by apply keeps_look|]. intros []; apply keeps_ret.
Qed.

Lemma Idle_opened {A} (k : CandidateList → M (Result A)) : (∀ c, keeps Idle (k c)) → keeps Idle (opened acquired k).
Proof.
  intros Hk. apply keeps_bind; [apply Idle_openSession|]. intros [cands| |code msg]; [apply Hk|apply keeps_ret..].
Qed.

Lemma Idle_started {A} (m : M A) : keeps AtWork m → keeps Idle (freshRun;; scoped m).
Proof. intros Hm. apply keeps_bind; [apply Idle_freshRun|]. intros []. by apply Idle_scoped. Qed.

Lemma AtWork_readFailed {A} st fallback : keeps AtWork (readFailed (A := A) st fallback).
Proof. unfold readFailed, theFlags, noteRejectedSecret. work; by apply AtWork_own. Qed.
#[local] Hint Resolve @AtWork_readFailed : keeps.

Ltac run := repeat first [progress (eauto with keeps) | work1 | apply AtWork_walk; intros ? | by apply AtWork_readProvider].

Lemma AtWork_readOnce reader n cands : noMrz = false → keeps AtWork (readOnce reader n cands).
Proof. intros E. unfold readOnce. run. Qed.

Lemma AtWork_identityRun reader deposit onType cands : noMrz = false → keeps AtWork (identityRun reader deposit onType cands).
Proof.
  intros E. pose proof AtWork_readOnce. unfold identityRun, readConcluded, renegotiate, takeChoice, store. run.
  apply AtWork_own, sinkReset_ok.
Qed.

Lemma Idle_certRead reader verify : keeps Idle (certRead acquired reader verify).
Proof. apply Idle_opened. intros c. apply Idle_started. unfold certRun. run. Qed.

Lemma Idle_tokenInfoRead reader : keeps Idle (tokenInfoRead acquired reader).
Proof. apply Idle_opened. intros c. apply Idle_started. unfold tokenInfoRun. run. Qed.

Lemma Idle_credentialList list_ now : keeps Idle (credentialList acquired list_ now).
Proof. apply Idle_opened. intros c. apply Idle_started. unfold listRun. run. Qed.

Lemma Idle_sign signer params : keeps Idle (sign acquired signer params).
Proof. apply Idle_opened. intros c. apply Idle_started. unfold signRun, evict. run. Qed.

Lemma AtWork_batchRun signer params documents cands : noPin = false → keeps AtWork (batchRun signer params documents cands).
Proof.
  intros E. unfold batchRun. run. generalize 0%nat, (mkBatch 0 Err.None_ None). generalize documents at 2 as docs.
  induction docs as [|doc docs IH]; intros i b; cbn [signDocuments]; [apply keeps_ret|]. unfold signOne, classify, evict. run.
Qed.

Lemma Idle_settled (m : M (CredentialOpResult * bool)) : keeps Idle m →
  keeps Idle ('(result, reachedCard) ← m; when reachedCard dropReads;; mret result).
Proof.
  intros Hm. apply keeps_bind; [done|]. intros [r reached]. apply keeps_bind; [|intros; apply keeps_ret].
  apply keeps_when, keeps_bind; [|intros []]; by apply keeps_change; [apply Idle_stable|].
Qed.

Lemma AtWork_changeRun change_ name record plugin cands : keeps AtWork (changeRun change_ name record plugin cands).
Proof.
  unfold changeRun. apply keeps_bind; [run|]. intros []; [apply keeps_ret|]. apply AtWork_asks.
  apply resumes_bind; [wait|intros p]. apply resumes_work. run.
Qed.

Lemma AtWork_activationRun activate record plugin cands : keeps AtWork (activationRun activate record plugin cands).
Proof.
  unfold activationRun. apply keeps_bind; [run|]. intros []; [apply keeps_ret|]. apply AtWork_asks.
  apply resumes_bind; [wait|intros p]. apply resumes_work. run.
Qed.

Lemma Idle_runPinManage change_ name snapshot request : keeps Idle (runPinManage acquired change_ name snapshot request).
Proof.
  apply Idle_settled. destruct (findRecord _ _) as [[i record]|], snapshot as [snap|]; try apply keeps_ret.
  destruct (_ || negb _)%bool; [apply keeps_ret|]. apply keeps_bind; [apply Idle_openSession|].
  intros [cands| |code msg]; [|apply keeps_ret..]. apply Idle_started, AtWork_changeRun.
Qed.

Lemma Idle_runKeyActivation activate record plugin : keeps Idle (runKeyActivation acquired activate record plugin).
Proof.
  apply Idle_settled. destruct (negb _); [apply keeps_ret|]. apply keeps_bind; [apply keeps_look, Idle_stable|].
  intros []; [apply keeps_ret|]. apply keeps_bind; [apply Idle_openSession|].
  intros [cands| |code msg]; [|apply keeps_ret..]. apply Idle_started, AtWork_activationRun.
Qed.

End Runs.

End Scope.

Section Ends.
Context {D : Deps}.

Lemma Idle_weaken p p' b b' s : (p' = true → p = true) → (b' = true → b = true) → Idle p b s → Idle p' b' s.
Proof. intros Hp Hb (H1&H2&H3&H4&H5). split_and!; try done. split; auto. Qed.

Lemma Idle_identityRead acquired reader deposit onType s : Idle true true s →
  wp (identityRead acquired reader deposit onType) (λ _, Idle true true) s.
Proof.
  intros Hs. unfold identityRead, opened. apply wp_bind. eapply wp_mono; [by apply Idle_openSession|].
  intros [cands| |code msg] s1 H1; [|by apply wp_ret..]. apply (Idle_weaken true false true true) in H1; [|done..].
  apply wp_bind. eapply wp_mono; [by apply Idle_freshRun|]. intros [] s2 H2. apply wp_bind.
  eapply wp_mono; [apply Idle_scoped; [by apply AtWork_identityRun|exact H2]|]. intros r s3 (G1&G2&G3&_&G5).
  apply wp_bind, wp_modify, wp_ret. by split_and!.
Qed.

Lemma Idle_batchSign acquired signer params documents s : Idle true true s →
  wp (batchSign acquired signer params documents) (λ _, Idle true true) s.
Proof.
  intros Hs. apply (Idle_weaken true true true false) in Hs; [|done..]. unfold batchSign. apply wp_bind.
  eapply wp_mono.
  - refine ((_ : keeps (Idle true false) _) s Hs). destruct (negb _); [apply keeps_ret|]. apply Idle_opened. intros c.
    apply Idle_started. by apply AtWork_batchRun.
  - intros r s1 (G1&G2&G3&G4&_). apply wp_bind, wp_modify, wp_ret. by split_and!.
Qed.

End Ends.

(** C32: every run of every flow keeps its place. The card library works with the card,
    calls back and is answered only while the flow's provider is the session's; a dialog
    is raised only then, and only in the phase in which the watchdog does not run; and
    when the flow has ended, in whatever way, the provider is the session's no more and
    the flow holds neither an MRZ nor a PIN. *)
Theorem flow_in_place `{D : Deps} s s' : runs s s' → fresh s → installed (own s) = false →
  allInPlace (log s') ∧ provides (log s') = false ∧ installed (own s') = false ∧
  payload (sink (own s')) = None ∧ batchPin (own s') = None.
Proof.
  intros Hr (El&Ep&Eb) Hi. assert (Hs : Idle true true s) by (by split_and!; rewrite ?El).
  cut (Idle true true s'); [intros (?&?&?&Hp&Hb); split_and!; auto|].
  destruct Hr; [by apply Idle_identityRead | by apply Idle_certRead | by apply Idle_tokenInfoRead | by apply Idle_credentialList
    | by apply Idle_sign | by apply Idle_batchSign | by apply Idle_runPinManage | by apply Idle_runKeyActivation].
Qed.

Lemma flow_in_place_witness :
  length (List.filter (λ e, match e with EWindow _ _ _ => true | _ => false end) (log sampleRun)) = 2%nat ∧
  allInPlace (log sampleRun).
Proof.
  split; [vm_compute; reflexivity|].
  refine (proj1 (flow_in_place (D := sampleDeps) sampleStart sampleRun _ _ _)).
  - apply runs_identity.
  - by split_and!.
  - reflexivity.
Defined.

(** ** Changing a card *)

(** A command that may have changed the card. *)
Definition isChange (e : Event) : bool := match e with EChangePin _ _ _ _ | EActivateKey _ _ => true | _ => false end.
Definition changes (l : list Event) : list Event := List.filter isChange l.

Section Changes.
Context {D : Deps}.

(** What was cached of the card, and what was done to it. *)
Context (known : SnapshotCache.Cache * ReadCache.Cache).

Definition Same (done_ : list Event) (s : Flow) : Prop :=
  changes (log s) = done_ ∧ (snapshots (world s), reads (world s)) = known.

Lemma Same_stable done_ : stable (Same done_).
Proof.
  intros s s' [H1 H2] [->|(batch&rest&E&->)]; [done|]. split; [done|]. cbn. rewrite <- H2. clear.
  generalize (world s). induction batch as [|o b IH]; intros w; cbn; [done|]. rewrite IH. by destruct o.
Qed.

Context (done_ : list Event).

Lemma Same_emit e : isChange e = false → keeps (Same done_) (emit e).
Proof. intros He. apply keeps_emit. intros s [H1 H2]. split; [|done]. unfold changes in *. cbn. by rewrite He. Qed.

Lemma Same_update {A} (f : World → A * World) :
  (∀ w, snapshots (f w).2 = snapshots w) → (∀ w, reads (f w).2 = reads w) → keeps (Same done_) (update f).
Proof.
  intros E1 E2. apply keeps_update; [apply Same_stable|]. intros s [H1 H2]. split; [done|]. cbn. by rewrite E1, E2.
Qed.

Lemma Same_own f : keeps (Same done_) (modify (onOwn f)).
Proof. by apply keeps_modify. Qed.

Lemma Same_script f : keeps (Same done_) (modify (onScript f)).
Proof. by apply keeps_modify. Qed.

Ltac same1 :=
  match goal with
  | |- keeps _ (mret _) => apply keeps_ret
  | |- keeps _ (gets _) => apply keeps_gets
  | |- keeps _ (look _) => apply keeps_look; apply Same_stable
  | |- keeps _ isCancelled => apply keeps_look; apply Same_stable
  | |- keeps _ (update _) => apply Same_update; intros; reflexivity
  | |- keeps _ (change _) => apply Same_update; intros; reflexivity
  | |- keeps _ (_ ≫= _) => apply keeps_bind; [|intros ?]
  | |- keeps _ (when _ _) => apply keeps_when
  | |- keeps _ (emit _) => apply Same_emit; reflexivity
  | |- keeps _ (setPhase _) => apply Same_emit; reflexivity
  | |- keeps _ (flag _) => apply Same_own
  | |- keeps _ (modify (onOwn _)) => apply Same_own
  | |- keeps _ (modify (onScript _)) => apply Same_script
  | |- keeps _ (if ?b then _ else _) => destruct b
  | |- keeps _ (match ?x with _ => _ end) => destruct x
  end.
Ltac same := repeat first [progress (eauto with keeps) | same1].

Lemma Same_requestPin o : keeps (Same done_) (requestPin o).
Proof. unfold requestPin, acquire, raise, stamp, mint, showWindow. same. Qed.

Lemma Same_requestPinChange o : keeps (Same done_) (requestPinChange o).
Proof. unfold requestPinChange, acquire, stamp, mint, showChangeWindow. same. Qed.

Lemma Same_prompted c w choice o : keeps (Same done_) (prompted c w choice o).
Proof.
  unfold prompted, requestGated, acquire, raise, stamp, mint, showWindow, stillWanted, silenced, collected, unanswered,
    refused, offer, store. same.
Qed.
#[local] Hint Resolve Same_prompted : keeps.

Lemma Same_readProvider w om mc o req : keeps (Same done_) (readProvider w om mc o req).
Proof.
  unfold readProvider, isCardRejectionSignal, markRejected, noteRejectedSecret, requestCredential, cacheOrPrompt,
    stillWanted, silenced, offer, evict. same.
Qed.

Lemma Same_walk provider steps : (∀ req, keeps (Same done_) (provider req)) → keeps (Same done_) (walk provider steps).
Proof. intros Hp. apply keeps_walk; [done|]. intros g. by apply Same_emit. Qed.

End Changes.

(** What became of the card, from a state in which nothing was done to it: it was not
    reached, and what is cached of it is as it was; or one command reached it, whose
    result is reported, and nothing is cached of it any more. *)
Definition unreached `{D : Deps} (s : Flow) (r : CredentialOpResult) (s' : Flow) : Prop :=
  changes (log s') = [] ∧ (snapshots (world s'), reads (world s')) = (snapshots (world s), reads (world s)) ∧
  op_outcome r ≠ Cred.Ok_ ∧ op_retriesLeft r = None ∧ op_blocked r = false.

Definition reached `{D : Deps} (e : Event) (said : PINResult) (r : CredentialOpResult) (s' : Flow) : Prop :=
  changes (log s') = [e] ∧ r = mapPinResult said ∧
  SnapshotCache.entries (snapshots (world s')) !! cardKey = None ∧ ReadCache.entries (reads (world s')) !! cardKey = None.

Section Outcomes.
Context {D : Deps} (s0 : Flow).
Abbreviation known := (snapshots (world s0), reads (world s0)).

(** The same while the flow has not settled. *)
Definition settles (spec : Event → PINResult → Prop) (x : CredentialOpResult * bool) (s : Flow) : Prop :=
  if x.2 then ∃ e said, Same known [e] s ∧ spec e said ∧ x.1 = mapPinResult said
  else Same known [] s ∧ op_outcome x.1 ≠ Cred.Ok_ ∧ op_retriesLeft x.1 = None ∧ op_blocked x.1 = false.

Lemma untouched_settles spec o s : Same known [] s → o ≠ Cred.Ok_ → wp (mret (resultWith o, false)) (settles spec) s.
Proof. intros Hs Ho. apply wp_ret. by split_and!. Qed.

Lemma dropReads_none s : wp dropReads (λ _ s', changes (log s') = changes (log s) ∧
  SnapshotCache.entries (snapshots (world s')) !! cardKey = None ∧ ReadCache.entries (reads (world s')) !! cardKey = None) s.
Proof.
  unfold dropReads. apply wp_bind, wp_change. intros s1 E1. apply wp_change. intros s2 E2.
  set (k1 := snapshots (world s1)) in *. 
  assert (L1 : log s1 = log s) by (by destruct E1 as [->|(?&?&_&->)]).
  assert (H2 : Same (SnapshotCache.invalidate cardKey k1, reads (world s1)) (changes (log s)) s2).
  { eapply (Same_stable (SnapshotCache.invalidate cardKey k1, reads (world s1))); [|exact E2]. split; [by cbn; rewrite L1 | done]. }
  destruct H2 as [H2 [= E3 E4]]. cbn. rewrite E3. split_and!; [done|..].
  - unfold SnapshotCache.invalidate. destruct (SnapshotCache.entries k1 !! cardKey) eqn:E; [apply lookup_delete_eq | done].
  - unfold ReadCache.invalidate. destruct (ReadCache.entries (reads (world s2)) !! cardKey) eqn:E; [apply lookup_delete_eq | done].
Qed.

Lemma wp_settle spec (m : M (CredentialOpResult * bool)) s : wp m (settles spec) s →
  wp ('(result, reachedCard) ← m; when reachedCard dropReads;; mret result)
    (λ r s', unreached s0 r s' ∨ ∃ e said, spec e said ∧ reached e said r s') s.
Proof.
  intros Hm. apply wp_bind. eapply wp_mono; [exact Hm|]. intros [r []] s1 Hs1; cbn in Hs1.
  - destruct Hs1 as (e&said&[H1 H2]&He&->). apply wp_bind. eapply wp_mono; [apply dropReads_none|].
    intros [] s2 (G1&G2&G3). apply wp_ret. right. exists e, said. split; [done|]. split_and!; try done. congruence.
  - destruct Hs1 as ([H1 H2]&H3&H4&H5). apply wp_bind, wp_ret, wp_ret. left. by split_and!.
Qed.

(** The session's setup and cleanup. *)
Lemma wp_scopedChange spec (m : M (CredentialOpResult * bool)) s : (∀ s, Same known [] s → wp m (settles spec) s) →
  Same known [] s → wp (freshRun;; scoped m) (settles spec) s.
Proof.
  intros Hm Hs. unfold freshRun, scoped, install, uninstall. apply wp_bind, wp_bind, wp_look.
  intros s1 H1%(Same_stable _ _ _ _ Hs). apply wp_modify, wp_bind, wp_bind, wp_modify, wp_emit, wp_bind.
  eapply wp_mono; [apply Hm; exact H1|]. intros [r b] s2 H2. apply wp_bind, wp_bind, wp_modify, wp_emit, wp_ret.
  destruct b; [|exact H2]. destruct H2 as (e&said&H2). exists e, said. exact H2.
Qed.

Lemma wp_openChange spec acquired (k : CandidateList → M (CredentialOpResult * bool)) s :
  (∀ c s, Same known [] s → wp (k c) (settles spec) s) → Same known [] s →
  wp (o ← openSession acquired;
      match o with
      | OpenCancelled => mret (resultWith Cred.UserCancelled, false)
      | OpenFailed code _ => mret (resultWith (openFailureOutcome code), false)
      | OpenOk candidates => k candidates
      end) (settles spec) s.
Proof.
  intros Hk Hs. apply wp_bind. eapply wp_mono.
  { refine ((_ : keeps (Same known []) (openSession acquired)) s Hs). pose proof (Same_stable known []).
    unfold openSession, isCancelled. apply keeps_bind; [by apply keeps_look|]. intros []; [apply keeps_ret|].
    destruct acquired as [[]|]; [apply keeps_ret|]. apply keeps_bind; [by apply keeps_look|]. intros []; apply keeps_ret. }
  intros [cands| |code msg] s1 H1; [by apply Hk|..]; apply untouched_settles; try done.
  unfold openFailureOutcome. by destruct (code =? _).
Qed.

(** A command reaches the card, which may ask for the channel's secret meanwhile. *)
Lemma wp_command spec e steps (k : M (CredentialOpResult * bool)) s : isChange e = true →
  (∀ s, Same known [e] s → wp k (settles spec) s) → Same known [] s →
  wp (setPhase Operations.Authenticating;; emit e;;
      walk (readProvider (mkWiring false false false false) false false (plainOptions depsRequester depsArtifact)) steps;; k)
    (settles spec) s.
Proof.
  intros He Hk [H1 H1']. apply wp_bind, wp_emit, wp_bind, wp_emit, wp_bind.
  eapply wp_mono; [apply (Same_walk known [e]); [intros req; apply Same_readProvider|]|].
  - split; [|done]. unfold changes in *. cbn. by rewrite He, H1.
  - intros [] s2 H2. by apply Hk.
Qed.

End Outcomes.

Definition changeSpec (change_ : CandidateList → string → Secret → Secret → list SeamStep * PINResult)
  (snapshot : option Records.CredentialSnapshot) (request : PinManageRequest) (e : Event) (said : PINResult) : Prop :=
  ∃ i record cands old new, findRecord snapshot (pm_pinId request) = Some (i, record) ∧ Records.canChange record = true ∧
    pm_verb request = "change"%string ∧ e = EChangePin cands (Records.label record) old new ∧
    said = (change_ cands (Records.label record) old new).2.

Definition activateSpec (activate : CandidateList → Secret → list SeamStep * PINResult) (record : Records.CredentialRecord) (e : Event) (said : PINResult) : Prop :=
  ∃ cands pin, Records.keyActivatable record = true ∧ e = EActivateKey cands pin ∧ said = (activate cands pin).2.

Lemma wp_changeRun `{D : Deps} s0 spec change_ name record plugin cands s :
  (∀ cands old new, spec (EChangePin cands (Records.label record) old new) (change_ cands (Records.label record) old new).2) →
  Same (snapshots (world s0), reads (world s0)) [] s → wp (changeRun change_ name record plugin cands) (settles s0 spec) s.
Proof.
  intros Hspec Hs. unfold changeRun, isCancelled. apply wp_bind, wp_look. intros s1 H1%(Same_stable _ _ _ _ Hs).
  destruct (token (world s1)); [by apply untouched_settles|]. apply wp_bind, wp_emit, wp_bind.
  eapply wp_mono; [by apply Same_requestPinChange|]. intros p s2 H2.
  destruct (pcStatus p); try (by apply untouched_settles).
  destruct (Credentials.current p) as [old|]; [|by apply untouched_settles].
  destruct (newPin p) as [new|]; [|by apply untouched_settles].
  apply wp_command; [done| |done]. intros s3 H3. apply wp_bind.
  eapply wp_mono; [by apply keeps_when; [apply Same_emit|]|]. intros [] s4 H4. apply wp_ret. by eexists _, _.
Qed.

Lemma wp_activationRun `{D : Deps} s0 spec activate record plugin cands s :
  (∀ cands pin, spec (EActivateKey cands pin) (activate cands pin).2) →
  Same (snapshots (world s0), reads (world s0)) [] s → wp (activationRun activate record plugin cands) (settles s0 spec) s.
Proof.
  intros Hspec Hs. unfold activationRun, isCancelled. apply wp_bind, wp_look. intros s1 H1%(Same_stable _ _ _ _ Hs).
  destruct (token (world s1)); [by apply untouched_settles|]. apply wp_bind, wp_emit, wp_bind.
  eapply wp_mono; [by apply Same_requestPin|]. intros p s2 H2.
  destruct (status p); try (by apply untouched_settles). destruct (secret p) as [pin|]; [|by apply untouched_settles].
  apply wp_command; [done| |done]. intros s3 H3. apply wp_ret. by eexists _, _.
Qed.

(** A PIN change and a key activation either leave the card alone, and then what is
    cached of it stays and they do not report success; or they send it one command, for the
    record that was asked for and only if the card allows it, report what the card said,
    and have dropped everything cached of the card when they return. *)
Theorem change_drops_reads `{D : Deps} s : changes (log s) = [] →
  (∀ acquired change_ name snapshot request, wp (runPinManage acquired change_ name snapshot request)
     (λ r s', unreached s r s' ∨ ∃ e said, changeSpec change_ snapshot request e said ∧ reached e said r s') s) ∧
  (∀ acquired activate record plugin, wp (runKeyActivation acquired activate record plugin)
     (λ r s', unreached s r s' ∨ ∃ e said, activateSpec activate record e said ∧ reached e said r s') s).
Proof.
  intros El. assert (Hs : Same (snapshots (world s), reads (world s)) [] s) by done. split; intros; apply wp_settle.
  - destruct (findRecord snapshot (pm_pinId request)) as [[i record]|] eqn:Ef, snapshot as [snap|]; try (by apply untouched_settles).
    destruct (_ || negb _)%bool eqn:Ev; [by apply untouched_settles|]. apply orb_false_iff in Ev as [Ev Ev4].
    apply orb_false_iff in Ev as [_ Ev3]. apply negb_false_iff in Ev4. rewrite Ev4 in Ev3.
    apply (wp_openChange s _ acquired (λ c, freshRun;; scoped (changeRun change_ name record (Records.listPluginId snap) c))); [|done].
    intros c s1. apply wp_scopedChange. intros s2. apply wp_changeRun. intros cands old new.
    exists i, record, cands, old, new. split_and!; try done; [by apply negb_false_iff | by apply String.eqb_eq].
  - destruct (negb _) eqn:Ek; [by apply untouched_settles|]. apply wp_bind, wp_look. intros s1 H1%(Same_stable _ _ _ _ Hs). cbn.
    destruct (token (world s1)); [by apply untouched_settles|].
    apply (wp_openChange s _ acquired (λ c, freshRun;; scoped (activationRun activate record plugin c))); [|done].
    intros c s2. apply wp_scopedChange. intros s3. apply wp_activationRun. intros cands pin.
    exists cands, pin. split_and!; try done. by apply negb_false_iff.
Qed.

(** A PIN is changed on a card of which the PINs were listed before. *)
Definition sampleListing : list Records.CredentialRecord :=
  default [] (mapM Records.toCredentialRecord [RecordsFacts.samplePin "PIN" Records.UserPin 0x81]).

Definition samplePinStart : Flow :=
  mkFlow (mkWorld ∅ false 0 (SnapshotCache.put "card-1" (Records.mkSnapshot sampleListing 0 "p") 5 SnapshotCache.emptyCache).2
            ReadCache.emptyCache)
    (mkOwn None noFlags (mkSink None false) None false false)
    (mkScript [] [] [mkPinChange SOk (Some "1234"%string) (Some "5678"%string)]) [].

Definition sampleChange (cands : CandidateList) (label : string) (old new : Secret) : list SeamStep * PINResult :=
  ([], mkPINResult Records.PinOk None false).

Definition sampleRequest : PinManageRequest := mkPinManage "user:0x81" "change" false.

Definition samplePinRun : CredentialOpResult * Flow :=
  runPinManage (D := sampleDeps) (inr []) sampleChange "reader" (Some (Records.mkSnapshot sampleListing 0 "p")) sampleRequest
    samplePinStart.

Lemma change_drops_reads_witness :
  op_outcome samplePinRun.1 = Cred.Ok_ ∧ SnapshotCache.entries (snapshots (world samplePinStart)) !! "card-1"%string ≠ None ∧
  SnapshotCache.entries (snapshots (world samplePinRun.2)) !! "card-1"%string = None.
Proof.
  split; [by vm_compute|]. split; [by vm_compute|].
  destruct (proj1 (change_drops_reads (D := sampleDeps) samplePinStart eq_refl) (inr []) sampleChange "reader"%string
    (Some (Records.mkSnapshot sampleListing 0 "p")) sampleRequest) as [H|(e&said&_&H)].
  - destruct H as (H&_). vm_compute in H. discriminate H.
  - exact (proj1 (proj2 (proj2 H))).
Defined.

(** ** What the flows do besides

    The card library asks for the channel's CAN and then for the PIN; the CAN is cached. *)
Definition signSteps : list SeamStep :=
  [askCan None; Ask (mkRequirement Credentials.Signing None None [])].

Definition signedOutcome : SignOutcome := mkSignOutcome SgOk [1] "pades" "b-b" false true EmptyString.

Definition cachedStart (answers : list PromptResult) : Flow :=
  onWorld (onCache (CredentialCache.putCan "card-1" "123456")) (sampleState answers).

Definition signSample (answers : list PromptResult) : list Event :=
  log (sign (D := sampleDeps) (inr []) (λ _, (signSteps, signedOutcome))
    (mkSignParams "cert" [] "pades" "b-b" "enveloped" false EmptyString EmptyString EmptyString EmptyString None)
    (cachedStart answers)).2.

(** The phases in which the card library got its answers, latest first. *)
Fixpoint servedIn (l : list Event) : list (option Operations.OperationPhase) :=
  match l with [] => [] | EServe _ _ :: l => phaseOf l :: servedIn l | _ :: l => servedIn l end.

(** A signing flow that serves the channel's secret from the cache goes back to the card in
    the phase in which it would wait for a person, and in which no watchdog runs. *)
Example channel_secret_unwatched :
  servedIn (signSample [mkPrompt SOk (Some "1234"%string) None]) = [Some Operations.Signing; Some Operations.AwaitingConsent].
Proof. by vm_compute. Qed.

(** A prompter that breaks and a card that asks again with its rejection reason make a
    rejection of a secret that nobody typed. *)
Example broken_prompter_counts_as_rejection :
  let l := log (identityRead (D := sampleDeps) (inr []) sampleReader (λ _ _, true) false
    (sampleState [mkPrompt SError None None; mkPrompt SError None None])).2 in
  existsb (λ e, match e with ERejected => true | _ => false end) l = true ∧
  existsb (λ e, match e with ECache _ _ => true | _ => false end) l = false.
Proof. by vm_compute. Qed.

(** A card whose holder refused twice before the operation: one eviction by another thread
    after they refuse once more makes the operation ask them three times again. *)
Definition refusedStart : Flow :=
  let s := sampleState (replicate 6 (mkPrompt SCancelled None None)) in
  mkFlow (onCache (λ c, CredentialCache.noteRefusal "card-1" CredentialCache.Cancelled
                          (CredentialCache.noteRefusal "card-1" CredentialCache.Cancelled c)) (world s))
    (own s) (mkScript (replicate 14 [] ++ [[OInvalidate "card-1"]]) (answers (script s)) []) [].

Definition refusedAgain : list Event :=
  log (certRead (D := sampleDeps) (inr []) (replicate 8 (askCan None), mkCertReadOutcome StCommunicationError [] EmptyString [])
    (λ _, (0, [])) refusedStart).2.

Example asked_again_after_invalidate :
  length (List.filter (λ e, match e with EWindow _ _ _ => true | _ => false end) refusedAgain) = 4%nat.
Proof. vm_compute. reflexivity. Qed.

End FlowConduct.
