(* ===== verification/FlowBatch.v ===== *)
(** * Signing a batch

    A batch signs its documents in order with one PIN, stops at the first failure that
    costs the card a try, and gives every document its row. *)
From stdpp Require Import gmap strings pretty.
From S2P Require Import Prelude Vocabulary Caches Operations ReaderLabels Mrz Credentials Flows FlowSafety.
Import Vocabulary Credentials Flows.
Local Open Scope Z_scope.

Module FlowBatch.
Import FlowLogic FlowSafety.

(** ** What a log says *)

(** The signatures asked of the card, in their order. *)
Fixpoint signsOf (l : list Event) : list SignParams :=
  match l with [] => [] | ESign p _ :: l => signsOf l ++ [p] | _ :: l => signsOf l end.

(** A dialog for a PIN that was answered. *)
Definition pinAnswer (e : Event) : bool :=
  match e with EWindow PPin _ r => answered (dismissIfEmpty r) | _ => false end.
Definition pins (l : list Event) : nat := length (List.filter pinAnswer l).

Section Batch.
Context {D : Deps}.
Context (signer : nat → SignParams → list SeamStep * SignOutcome) (params : SignParams) (documents : list (string * list Z)).

(** What the card is asked for a document, and what comes of it. *)
Definition paramsFor (doc : string * list Z) : SignParams :=
  mkSignParams (sp_certId params) doc.2 (sp_format params) (sp_level params) (sp_packaging params)
    (sp_allowExpired params) doc.1 (sp_reason params) (sp_location params) (sp_tsaUrl params) (sp_visual params).

Definition outcomeOf (i : nat) (doc : string * list Z) : SignOutcome := (signer i (paramsFor doc)).2.

(** A failure after which the batch must not go on. *)
Definition mayGoOn (st : SignStatus) : Prop := isHaltingStatus st = false ∧ st ≠ SgCancelled.

(** The row of the document at position [i], of which [n] were handed to the card. *)
Definition rowOk (n i : nat) (doc : string * list Z) (row : BatchSignRow) : Prop :=
  row_displayName row = doc.1 ∧
  (row_code row = Err.None_ ↔ (i < n)%nat ∧ so_status (outcomeOf i doc) = SgOk) ∧
  row_signed row = if row_code row =? Err.None_ then signedOf (outcomeOf i doc) else unsigned.

Fixpoint rowsOk (n i : nat) (docs : list (string * list Z)) (rows : list BatchSignRow) : Prop :=
  match docs, rows with
  | [], [] => True
  | doc :: docs, row :: rows => rowOk n i doc row ∧ rowsOk n (S i) docs rows
  | _, _ => False
  end.

Definition signedRows (rows : list BatchSignRow) : nat := length (List.filter (λ r, row_code r =? Err.None_) rows).

(** ** The invariant *)
Definition Pinned (sg : list SignParams) (s : Flow) : Prop :=
  signsOf (log s) = sg ∧ (pins (log s) = 0%nat ∨ pins (log s) = 1%nat ∧ batchPin (own s) ≠ None).

Lemma Pinned_stable sg : stable (Pinned sg).
Proof. by intros s s' Hs [->|(?&?&?&->)]. Qed.

Definition otherEvent (e : Event) : bool := match e with ESign _ _ => false | e => negb (pinAnswer e) end.

Lemma Pinned_emit sg e : otherEvent e = true → keeps (Pinned sg) (emit e).
Proof.
  intros He. apply keeps_emit. intros s [H1 H2]. unfold Pinned, pins in *. cbn [log own List.filter].
  assert (pinAnswer e = false) as ->. { destruct e; cbn in *; try done. by apply negb_true_iff in He. }
  split; [|done]. by destruct e.
Qed.

Lemma Pinned_own sg f : (∀ o, batchPin o ≠ None → batchPin (f o) ≠ None) → keeps (Pinned sg) (modify (onOwn f)).
Proof. intros Hf. apply keeps_modify. intros s [H1 [H2|[H2 H3]]]; (split; [done|]); [by left|right; split; [done|by apply Hf]]. Qed.

Lemma Pinned_update sg {A} (f : World → A * World) : keeps (Pinned sg) (update f).
Proof. apply keeps_update; [apply Pinned_stable | done]. Qed.

Lemma Pinned_script sg f : keeps (Pinned sg) (modify (onScript f)).
Proof. by apply keeps_modify. Qed.

Ltac pin1 :=
  match goal with
  | |- keeps _ (mret _) => apply keeps_ret
  | |- keeps _ (gets _) => apply keeps_gets
  | |- keeps _ theFlags => apply keeps_gets
  | |- keeps _ (look _) => apply keeps_look; apply Pinned_stable
  | |- keeps _ isCancelled => apply keeps_look; apply Pinned_stable
  | |- keeps _ (update _) => apply Pinned_update
  | |- keeps _ (change _) => apply Pinned_update
  | |- keeps _ (_ ≫= _) => apply keeps_bind; [|intros ?]
  | |- keeps _ (when _ _) => apply keeps_when
  | |- keeps _ (emit _) => apply Pinned_emit; first [reflexivity | by (match goal with c : Cached |- _ => destruct c end)]
  | |- keeps _ (setPhase _) => apply Pinned_emit; reflexivity
  | |- keeps _ (flag _) => apply Pinned_own; intros ? H; exact H
  | |- keeps _ (modify (onOwn _)) => apply Pinned_own; intros ? H; exact H
  | |- keeps _ (modify (onScript _)) => apply Pinned_script
  | |- keeps _ (if ?b then _ else _) => destruct b
  | |- keeps _ (match ?x with _ => _ end) => destruct x
  end.
Ltac pin := repeat first [progress (eauto with keeps) | pin1].

Lemma Pinned_prompted sg c w choice o : keeps (Pinned sg) (prompted c w choice o).
Proof.
  unfold prompted, requestGated, acquire, raise, stamp, mint, showWindow, stillWanted, silenced, collected, unanswered,
    refused, offer, store. pin.
Qed.
#[local] Hint Resolve Pinned_prompted : keeps.

Lemma Pinned_channelProvider sg o req : keeps (Pinned sg) (channelProvider o req).
Proof.
  unfold channelProvider, isCardRejectionSignal, markRejected, noteRejectedSecret, requestCredential, cacheOrPrompt,
    stillWanted, silenced, evict. pin.
Qed.

(** A PIN is asked for only while none is held. *)
Lemma wp_askPin sg o s : signsOf (log s) = sg → pins (log s) = 0%nat → wp (requestPin o) (λ p s',
  signsOf (log s') = sg ∧ pins (log s') = if answered p then 1%nat else 0%nat) s.
Proof.
  intros H1 H2. unfold requestPin, acquire, isCancelled. apply wp_bind, wp_bind, wp_look. intros s1 E1.
  assert (L1 : log s1 = log s) by (by destruct E1 as [->|(?&?&_&->)]). apply wp_ret.
  destruct (token (world s1)); cbn [negb]; [apply wp_ret; by rewrite L1|].
  unfold raise, stamp, mint, showWindow. apply wp_bind, wp_bind, wp_bind, wp_update. intros s2 E2.
  assert (L2 : log s2 = log s) by (by destruct E2 as [->|(?&?&_&->)]). apply wp_ret, wp_ret, wp_bind.
  apply wp_bind, wp_gets, wp_bind, wp_modify, wp_bind, wp_emit, wp_ret, wp_ret. cbn [log signsOf onScript world own script].
  rewrite L2. split; [done|]. unfold pins in *. cbn [List.filter pinAnswer].
  match goal with |- context [answered ?x] => destruct (answered x) end; cbn [length]; by rewrite H2.
Qed.

Lemma Pinned_batchProvider sg req : keeps (Pinned sg) (batchProvider documents req).
Proof.
  unfold batchProvider, served. apply keeps_bind; [|intros r; pin]. destruct (purpose req); [|apply Pinned_channelProvider].
  intros s Hs. apply wp_bind, wp_gets. cbn [compose]. destruct (batchPin (own s)) eqn:Eb; [by apply wp_ret|].
  destruct Hs as [H1 [H2|[_ H2]]]; [|done]. unfold pinProvider. apply wp_bind, wp_emit, wp_bind.
  eapply wp_mono; [apply wp_askPin; cbn; [exact H1 | exact H2]|]. intros p s1 [G1 G2].
  assert (Hflags : ∀ st, answered p = false → wp (when (bool_decide (st = SError)) (flag (setPrompterFailed true));;
      when (bool_decide (st = STimeout)) (flag (setEntryExpired true));;
      when (bool_decide (st = SHelperTooOld)) (flag (setHelperTooOld true));;
      mret (RError noText)) (λ _, Pinned sg) s1).
  { intros st Ha. rewrite Ha in G2. refine ((_ : keeps (Pinned sg) _) s1 _); [pin|]. split; [done | by left]. }
  unfold answered in *. destruct (status p); try (by apply Hflags).
  - destruct (secret p) as [v|]; [|by apply Hflags]. apply wp_bind, wp_bind, wp_gets, wp_modify, wp_bind, wp_emit, wp_bind, wp_emit, wp_ret.
    split; [done|]. right. split; [exact G2|done].
  - apply wp_ret. split; [done|]. by left.
Qed.

Lemma Pinned_walk sg steps : keeps (Pinned sg) (walk (batchProvider documents) steps).
Proof. apply keeps_walk; [apply Pinned_batchProvider|]. intros g. by apply Pinned_emit. Qed.

(** ** The documents *)

(** The first [n] documents were handed to the card; all of them, or all but the last, let
    the batch go on. *)
Definition handed (n : nat) (s : Flow) : Prop :=
  Pinned (map paramsFor (take n documents)) s ∧ (n ≤ length documents)%nat.
Definition Going (n : nat) (s : Flow) : Prop :=
  handed n s ∧ ∀ j doc, documents !! j = Some doc → (j < n)%nat → mayGoOn (so_status (outcomeOf j doc)).
Definition Stopped (n : nat) (s : Flow) : Prop :=
  handed n s ∧ ∀ j doc, documents !! j = Some doc → (S j < n)%nat → mayGoOn (so_status (outcomeOf j doc)).

Lemma Going_Stopped n s : Going n s → Stopped n s.
Proof. intros [? H]. split; [done|]. intros j doc Hd Hj. apply (H j doc); [done|lia]. Qed.

Lemma Going_keeps {A} n (m : M A) : (∀ sg, keeps (Pinned sg) m) → keeps (Going n) m.
Proof. intros Hm s [[H1 H2] H3]. eapply wp_mono; [by apply Hm|]. intros a s' ?. by split. Qed.

Lemma Stopped_keeps {A} n (m : M A) : (∀ sg, keeps (Pinned sg) m) → keeps (Stopped n) m.
Proof. intros Hm s [[H1 H2] H3]. eapply wp_mono; [by apply Hm|]. intros a s' ?. by split. Qed.

(** The next document is handed to the card. *)
Lemma wp_hand n doc cands s : Going n s → documents !! n = Some doc → wp (emit (ESign (paramsFor doc) cands)) (λ _, Stopped (S n)) s.
Proof.
  intros [[[H1 H2] _] H3] Hd. apply wp_emit. split; [split|].
  - split; [|done]. cbn. rewrite H1, (take_S_r _ _ _ Hd), map_app. done.
  - apply lookup_lt_Some in Hd. lia.
  - intros j d Hj Hlt. apply (H3 j d); [done|lia].
Qed.

Lemma mapRowStatus_error st : st ≠ SgOk → st ≠ SgCancelled → mapRowStatus st ≠ Err.None_.
Proof. by destruct st. Qed.

Lemma wp_classify n st s : st ≠ SgOk → st ≠ SgCancelled → Stopped n s → wp (classify st) (λ r s', Stopped n s' ∧
  r.1 ≠ Err.None_ ∧ (r.2 = false → isHaltingStatus st = false)) s.
Proof.
  intros Hok Hc Hs. unfold classify, theFlags. apply wp_bind, wp_gets. cbn [compose].
  repeat match goal with |- wp (if ?b then mret _ else _) _ _ => destruct b; [by apply wp_ret|] end.
  pose proof (mapRowStatus_error st Hok Hc). destruct (isHaltingStatus st); [|by apply wp_ret].
  apply wp_bind. eapply wp_mono; [refine ((_ : keeps (Stopped n) evict) s Hs); apply Stopped_keeps; intros sg; unfold evict; pin|].
  intros [] s1 H1. apply wp_bind.
  eapply wp_mono; [refine ((_ : keeps (Stopped n) _) s1 H1); apply Stopped_keeps; intros sg; pin|].
  intros [] s2 H2. by apply wp_ret.
Qed.

(** The batch may go on after the last document. *)
Lemma Stopped_Going i doc s : documents !! i = Some doc → mayGoOn (so_status (outcomeOf i doc)) → Stopped (S i) s → Going (S i) s.
Proof.
  intros Hd Hg [H1 H2]. split; [done|]. intros j d Hj Hlt. destruct (decide (j = i)) as [->|]; [by simplify_eq|].
  apply (H2 j d); [done|lia].
Qed.

(** What one document leaves behind. *)
Definition signedOne (i : nat) (doc : string * list Z) (b : BatchState) (r : option (BatchSignRow * BatchState)) (s : Flow) : Prop :=
  match r with
  | None => ∃ n, (i ≤ n)%nat ∧ Stopped n s
  | Some (row, b') =>
      rowOk (S i) i doc row ∧ successCount b' = (successCount b + signedRows [row])%nat ∧ Stopped (S i) s ∧
      match halted b' with None => Going (S i) s | Some c => c ≠ Err.None_ end
  end.

Lemma wp_signOne cands i doc b s : Going i s → documents !! i = Some doc → halted b = None →
  wp (signOne signer params documents cands i doc b) (signedOne i doc b) s.
Proof.
  intros Hs Hd Hb. unfold signOne. rewrite Hb. apply wp_bind. eapply wp_mono.
  { refine ((_ : keeps (Going i) isCancelled) s Hs). apply Going_keeps. intros sg. pin. }
  intros c s1 H1. destruct c; [apply wp_ret; exists i; split; [done|by apply Going_Stopped]|]. cbv zeta.
  change (mkSignParams _ _ _ _ _ _ _ _ _ _ _) with (paramsFor doc).
  apply wp_bind. eapply wp_mono; [by apply wp_hand|]. intros [] s2 H2. apply wp_bind.
  eapply wp_mono; [apply (Stopped_keeps (S i)); [intros sg; apply Pinned_walk|exact H2]|]. intros [] s3 H3.
  change (signer i (paramsFor doc)).2 with (outcomeOf i doc). apply wp_bind. eapply (wp_mono (λ c s, Stopped (S i) s ∧
    (c = false → so_status (outcomeOf i doc) ≠ SgCancelled))).
  { case_decide; [by apply wp_ret|]. eapply wp_mono; [|intros c s4 H4; split; [exact H4|done]].
    refine ((_ : keeps (Stopped (S i)) isCancelled) s3 H3). apply Stopped_keeps. intros sg. pin. }
  intros c s4 [H4 Hc]. destruct c; [apply wp_ret; exists (S i); by split; [lia|]|]. specialize (Hc eq_refl).
  assert (Hfail : ∀ st, so_status (outcomeOf i doc) = st → st ≠ SgOk → wp ('(code, halts) ← classify st;
      mret (Some (mkRow doc.1 unsigned code, mkBatch (successCount b) code (if halts : bool then Some code else None))))
      (signedOne i doc b) s4).
  { intros st Est Hst. apply wp_bind. eapply wp_mono; [apply (wp_classify (S i)); [done|congruence|done]|].
    intros [code halts] s5 (H5&Hcode&Hh). cbn in Hcode, Hh. apply wp_ret. unfold signedOne, rowOk, signedRows. cbn.
    rewrite (proj2 (Z.eqb_neq _ _) Hcode), Est.
    split; [split; [done|split; [|done]]|split; [cbn; lia|split; [done|]]].
    { split; [done|]. by intros [_ ?]. }
    destruct halts; [done|]. apply (Stopped_Going i doc); [done| |done]. split; [rewrite Est; by apply Hh|done]. }
  destruct (so_status (outcomeOf i doc)) eqn:Est; try (by apply Hfail). clear Hfail.
  apply wp_bind. eapply wp_mono; [refine ((_ : keeps (Stopped (S i)) _) s4 H4); apply Stopped_keeps; intros sg; pin|].
  intros [] s5 H5. apply wp_ret. unfold signedOne, rowOk, signedRows. cbn.
  split; [split; [done|split; [|done]]|split; [cbn; lia|split; [done|]]].
  - split; [intros _; split; [lia|done]|done].
  - apply (Stopped_Going i doc); [done| |done]. by rewrite Est.
Qed.

Lemma signedRows_cons row rows : signedRows (row :: rows) = (signedRows [row] + signedRows rows)%nat.
Proof. unfold signedRows. cbn. by destruct (_ =? _). Qed.

(** A row says the same however many documents were handed over after it. *)
Lemma rowOk_later i n doc row : (S i ≤ n)%nat → rowOk (S i) i doc row → rowOk n i doc row.
Proof. intros Hn (?&E&?). split_and!; try done. rewrite E. intuition lia. Qed.

(** Before a document: the batch goes on, or it has halted. *)
Definition ready (i n : nat) (b : BatchState) (s : Flow) : Prop :=
  match halted b with
  | None => Going i s ∧ n = i
  | Some c => Stopped n s ∧ (n ≤ i)%nat ∧ c ≠ Err.None_
  end.

Definition signedAll (i n : nat) (docs : list (string * list Z)) (b : BatchState) (r : option (list BatchSignRow * BatchState)) (s : Flow) : Prop :=
  ∃ n', (n ≤ n')%nat ∧ (is_Some (halted b) → n' = n) ∧ Stopped n' s ∧
    ∀ rows b', r = Some (rows, b') → rowsOk n' i docs rows ∧ successCount b' = (successCount b + signedRows rows)%nat.

Lemma wp_signDocuments cands docs : ∀ i n b s, drop i documents = docs → ready i n b s →
  wp (signDocuments signer params documents cands i docs b) (signedAll i n docs b) s.
Proof.
  induction docs as [|doc docs IH]; intros i n b s Hd Hs; cbn [signDocuments].
  { apply wp_ret. exists n. unfold ready in Hs. split_and!; [done|done| |].
    - destruct (halted b); [by destruct Hs|]. destruct Hs as [? ->]. by apply Going_Stopped.
    - intros rows b' [= <- <-]. split; [done|]. cbn. lia. }
  assert (Hi : documents !! i = Some doc) by (by rewrite <- (Nat.add_0_r i), <- lookup_drop, Hd).
  assert (Hd' : drop (S i) documents = docs) by (rewrite <- (Nat.add_1_r i), <- drop_drop, Hd; done).
  unfold ready in Hs. apply wp_bind. destruct (halted b) as [c|] eqn:Eb.
  - destruct Hs as (Hs&Hn&Hc). unfold signOne. rewrite Eb. apply wp_ret, wp_bind.
    eapply wp_mono; [apply (IH (S i) n); [done|]; unfold ready; cbn; split_and!; [done|lia|done]|].
    intros r s1 (n'&Hn'&E&H1&Hr). cbn in E. rewrite E in * by done. apply wp_ret. exists n. split_and!; [done|done|done|].
    intros rows b'. destruct r as [[rows1 b1]|]; [|done]. cbn. intros [= <- <-]. destruct (Hr rows1 b1 eq_refl) as [G1 G2].
    rewrite signedRows_cons, G2. unfold rowOk, signedRows at 2. cbn. rewrite (proj2 (Z.eqb_neq _ _) Hc). split; [|cbn; lia].
    split; [|done]. split_and!; [done|lia|done].
  - destruct Hs as [Hs ->]. eapply wp_mono; [by apply wp_signOne|]. intros [[row b1]|] s1; cbn [signedOne].
    + intros (Hrow&Hcount&H1&Hb1). apply wp_bind. eapply wp_mono; [apply (IH (S i) (S i)); [done|]; unfold ready|].
      { destruct (halted b1); [|done]. split_and!; [done|lia|done]. }
      intros r s2 (n'&Hn'&E&H2&Hr). apply wp_ret. exists n'. split_and!; [lia|intros [??]; congruence|done|].
      intros rows b'. destruct r as [[rows1 b2]|]; [|done]. cbn. intros [= <- <-]. destruct (Hr rows1 b2 eq_refl) as [G1 G2].
      rewrite signedRows_cons, G2, Hcount. split; [split; [by apply rowOk_later|done]|lia].
    + intros (n'&Hn'&H1). apply wp_ret. exists n'. split_and!; [done|intros [??]; congruence|done|done].
Qed.

(** What a batch that was not refused reports. *)
Definition reports (r : Result (list BatchSignRow)) (s : Flow) : Prop :=
  (∃ n, Stopped n s ∧ ∀ rows, value r = Some rows → rowsOk n 0 documents rows) ∧
  (outcome r = FOk ↔ ∃ rows, value r = Some rows ∧ (0 < signedRows rows)%nat).

Lemma reports_nothing r s : Going 0 s → outcome r ≠ FOk → value r = None → reports r s.
Proof.
  intros Hs Ho Hv. split; [exists 0%nat; split; [by apply Going_Stopped|congruence]|]. split; [done|].
  intros (rows&?&_). congruence.
Qed.

Lemma wp_batchRun cands s : Going 0 s → wp (batchRun signer params documents cands) reports s.
Proof.
  intros Hs. unfold batchRun. apply wp_bind.
  eapply wp_mono; [apply (Going_keeps 0); [intros sg; pin|exact Hs]|]. intros c s1 H1.
  destruct c; [apply wp_ret; by apply reports_nothing|]. apply wp_bind.
  eapply wp_mono; [apply (wp_signDocuments _ documents 0 0 (mkBatch 0 Err.None_ None)); [apply drop_0|by split]|].
  intros r s2 (n&_&_&H2&Hr). apply wp_ret. destruct r as [[rows b]|].
  - destruct (Hr rows b eq_refl) as [G1 G2]. cbn in G2. unfold reports. rewrite G2.
    destruct (0 <? signedRows rows)%nat eqn:E; cbn [value outcome]; (split; [exists n; split; [done|by intros ? [= <-]]|]).
    + split; [|done]. intros _. exists rows. split; [done|]. by apply Nat.ltb_lt.
    + split; [done|]. intros (?&[= <-]&?). apply Nat.ltb_ge in E. lia.
  - split; [exists n; split; [done|by intros]|]. split; [done|]. by intros (?&?&_).
Qed.

End Batch.


(** Three documents, the second of which is signed with a PIN that the card rejects. *)
Definition sampleSigner (i : nat) (p : SignParams) : list SeamStep * SignOutcome :=
  ([Ask (mkRequirement Credentials.Signing None None [])],
   if (i =? 1)%nat then mkSignOutcome SgAuthFailed [] EmptyString EmptyString false false EmptyString
   else mkSignOutcome SgOk [1; 2] "pades" "b-b" false true EmptyString).

Definition sampleParams : SignParams :=
  mkSignParams "cert" [] "pades" "b-b" "enveloped" false EmptyString EmptyString EmptyString EmptyString None.

Definition sampleDocuments : list (string * list Z) := [("a", [1]); ("b", [2]); ("c", [3])]%string.

Definition sampleBatch : Result (list BatchSignRow) * Flow :=
  batchSign (D := sampleDeps) (inr []) sampleSigner sampleParams sampleDocuments
    (sampleState [mkPrompt SOk (Some "1234"%string) None]).


End FlowBatch.
