(* ===== verification/Presence.v ===== *)
(** * Readers and cards

    Models [src/presence]: the registry of what the agent publishes
    ([ObjectRegistry.cpp]), the model that mints the ids ([PresenceModel.cpp]), the
    tracker whose callback scrubs a removed card's secrets ([CardKeyTracker.cpp]) and
    the bridge that feeds them the monitor's events ([MonitorBridge.cpp]). The calls of
    the registry's observers and of the tracker's callback are logged in order. What
    the plugin service says of an ATR is an argument. Ids are [std::uint64_t], 0 is
    none. *)
From S2P Require Import Prelude Vocabulary ReaderLabels.
Local Open Scope Z_scope.

Module Presence.
Import Vocabulary ReaderLabels.

(** [toHex]: the NUL character stands for no separator. *)
Definition hexDigit (upper : bool) (n : Z) : Ascii.ascii :=
  default Ascii.zero (chars (if upper then "0123456789ABCDEF" else "0123456789abcdef") !! Z.to_nat n).
Definition toHex (bytes : list Z) (separator : Ascii.ascii) (upper : bool) : string :=
  str (concat (imap (λ i b,
    (if negb (Ascii.eqb separator Ascii.zero) && negb (Nat.eqb i 0) then [separator] else []) ++
    [hexDigit upper (Z.land (Z.shiftr b 4) 15); hexDigit upper (Z.land b 15)]) bytes)).

(** ** What is published *)

Record ReaderState := mkReader {
  rId : Z; rName : string; hasCard : bool; rCard : Z; rModel : string; rIface : Iface.ReaderInterface }.

(** [PreReadAuthMethod], the alternatives its wire mirror [PreReadAuth] lists. *)
Inductive PreReadAuthMethod := PreReadAuthNone | PreReadAuthMrz | PreReadAuthCan.

Record CardState := mkCard {
  cId : Z; cReader : Z; capabilities : Z; preReadAuth : PreReadAuthMethod; cardType : string; atrHex : string }.

Record PropertyDelta := mkDelta { dHasCard : bool; dCard : Z }.

(** A call of an observer. *)
Inductive Notice :=
| AddedReader (r : ReaderState)
| AddedCard (c : CardState)
| Removed (id : Z)
| Changed (reader : Z) (delta : PropertyDelta)
| Relabelled (r : ReaderState).

Record ObjectRegistry := mkRegistry {
  m_readers : list ReaderState; m_cards : list CardState; notices : list Notice }.

(** ** The registry *)

Definition contains (id : Z) (g : ObjectRegistry) : bool :=
  existsb (λ r, rId r =? id) (m_readers g) || existsb (λ c, cId c =? id) (m_cards g).

(** [std::find] by id. *)
Definition readerById (id : Z) (rs : list ReaderState) : option ReaderState := List.find (λ r, rId r =? id) rs.

(** One reader's new label; the id is there if it changed. *)
Definition relabelReader (r : ReaderState) (identity : ReaderIdentity) : ReaderState * option Z :=
  if bool_decide (rModel r ≠ model identity) || bool_decide (rIface r ≠ iface identity)
  then (mkReader (rId r) (rName r) (hasCard r) (rCard r) (model identity) (iface identity), Some (rId r))
  else (r, None).

Definition relabel (rs : list ReaderState) : list ReaderState * list Z :=
  let l := zip_with relabelReader rs (readerIdentities (map rName rs)) in
  (map fst l, omap snd l).

Definition announceRelabels (ids : list Z) (except : Z) (g : ObjectRegistry) : ObjectRegistry :=
  mkRegistry (m_readers g) (m_cards g)
    (notices g ++ omap (λ id, if id =? except then None else Relabelled <$> readerById id (m_readers g)) ids).

Definition addReader (r : ReaderState) (g : ObjectRegistry) : ObjectRegistry :=
  if contains (rId r) g then g
  else
    let '(rs, relabelled) :=
      relabel (m_readers g ++ [mkReader (rId r) (rName r) (hasCard r) (rCard r) "" Iface.Unknown]) in
    let added := match readerById (rId r) rs with Some r => [AddedReader r] | None => [] end in
    announceRelabels relabelled (rId r) (mkRegistry rs (m_cards g) (notices g ++ added)).

Definition addCard (c : CardState) (g : ObjectRegistry) : ObjectRegistry :=
  if contains (cId c) g then g
  else mkRegistry (m_readers g) (m_cards g ++ [c]) (notices g ++ [AddedCard c]).

(** [find_if] and [erase]; [None] if there is none. *)
Fixpoint eraseIf {A} (p : A → bool) (l : list A) : option (list A) :=
  match l with
  | [] => None
  | x :: l => if p x then Some l else (x ::.) <$> eraseIf p l
  end.

Definition remove (id : Z) (g : ObjectRegistry) : ObjectRegistry :=
  match eraseIf (λ r, rId r =? id) (m_readers g) with
  | Some rs =>
      let '(rs, relabelled) := relabel rs in
      announceRelabels relabelled id (mkRegistry rs (m_cards g) (notices g ++ [Removed id]))
  | None =>
      match eraseIf (λ c, cId c =? id) (m_cards g) with
      | Some cs => mkRegistry (m_readers g) cs (notices g ++ [Removed id])
      | None => g
      end
  end.

(** The first reader of an id, updated in place. *)
Fixpoint setPresence (id : Z) (d : PropertyDelta) (rs : list ReaderState) : list ReaderState :=
  match rs with
  | [] => []
  | r :: rs =>
      if rId r =? id then mkReader (rId r) (rName r) (dHasCard d) (dCard d) (rModel r) (rIface r) :: rs
      else r :: setPresence id d rs
  end.

Definition update (reader : Z) (d : PropertyDelta) (g : ObjectRegistry) : ObjectRegistry :=
  if reader =? 0 then g
  else
    match readerById reader (m_readers g) with
    | None => g
    | Some r =>
        if Bool.eqb (hasCard r) (dHasCard d) && (rCard r =? dCard d) then g
        else mkRegistry (setPresence reader d (m_readers g)) (m_cards g) (notices g ++ [Changed reader d])
    end.

(** ** The presence model *)

Record PresenceModel := mkModel {
  m_registry : ObjectRegistry; m_readerIds : gmap string Z; m_cardIds : gmap string Z; m_nextId : Z }.

Section Model.
(** The capabilities of the plugin that declares an ATR, 0 if none does. *)
Context (resolve : list Z → Z).

Definition readerIdFor (name : string) (m : PresenceModel) : Z := default 0 (m_readerIds m !! name).
Definition cardIdFor (readerName : string) (m : PresenceModel) : Z := default 0 (m_cardIds m !! readerName).

Definition onReaderAdded (readerName : string) (m : PresenceModel) : PresenceModel :=
  match m_readerIds m !! readerName with
  | Some _ => m
  | None =>
      let id := u64 (m_nextId m + 1) in
      mkModel (addReader (mkReader id readerName false 0 "" Iface.Unknown) (m_registry m))
        (<[readerName := id]> (m_readerIds m)) (m_cardIds m) id
  end.

Definition onCardRemoved (readerName : string) (m : PresenceModel) : PresenceModel :=
  match m_cardIds m !! readerName with
  | None => m
  | Some id =>
      mkModel (update (readerIdFor readerName m) (mkDelta false 0) (remove id (m_registry m)))
        (m_readerIds m) (delete readerName (m_cardIds m)) (m_nextId m)
  end.

Definition onReaderRemoved (readerName : string) (m : PresenceModel) : PresenceModel :=
  let m := onCardRemoved readerName m in
  match m_readerIds m !! readerName with
  | None => m
  | Some id => mkModel (remove id (m_registry m)) (delete readerName (m_readerIds m)) (m_cardIds m) (m_nextId m)
  end.

Definition onCardInserted (readerName : string) (atr : list Z) (m : PresenceModel) : PresenceModel :=
  let m := match m_readerIds m !! readerName with None => onReaderAdded readerName m | Some _ => m end in
  let m := match m_cardIds m !! readerName with Some _ => onCardRemoved readerName m | None => m end in
  let cardId := u64 (m_nextId m + 1) in
  let readerId := default 0 (m_readerIds m !! readerName) in
  let card := mkCard cardId readerId (resolve atr) PreReadAuthNone "" (toHex atr Ascii.zero true) in
  mkModel (update readerId (mkDelta true cardId) (addCard card (m_registry m)))
    (m_readerIds m) (<[readerName := cardId]> (m_cardIds m)) cardId.

(** ** The tracker *)

(** The map, and the calls of the removal callback. *)
Record CardKeyTracker := mkTracker { m_readerToCardKey : gmap string Z; dropped : list (Z * string) }.

Definition trackRemoved (readerName : string) (t : CardKeyTracker) : CardKeyTracker :=
  match m_readerToCardKey t !! readerName with
  | None => t
  | Some id => mkTracker (delete readerName (m_readerToCardKey t)) (dropped t ++ [(id, readerName)])
  end.

Definition trackInserted (readerName : string) (cardId : Z) (t : CardKeyTracker) : CardKeyTracker :=
  let t := match m_readerToCardKey t !! readerName with Some _ => trackRemoved readerName t | None => t end in
  mkTracker (<[readerName := cardId]> (m_readerToCardKey t)) (dropped t).

Definition trackReaderRemoved (readerName : string) (t : CardKeyTracker) : CardKeyTracker :=
  trackRemoved readerName t.

(** ** The bridge *)

Inductive MonitorEvent :=
| ReaderAdded (readerName : string)
| ReaderRemoved (readerName : string)
| CardInserted (readerName : string) (atr : option (list Z))
| CardRemoved (readerName : string)
| MonitorError.

Definition dispatch (w : PresenceModel * CardKeyTracker) (ev : MonitorEvent) : PresenceModel * CardKeyTracker :=
  let '(m, t) := w in
  match ev with
  | ReaderAdded name => (onReaderAdded name m, t)
  | ReaderRemoved name => (onReaderRemoved name m, trackReaderRemoved name t)
  | CardInserted name atr =>
      let m := onCardInserted name (default [] atr) m in
      (m, trackInserted name (cardIdFor name m) t)
  | CardRemoved name => (onCardRemoved name m, trackRemoved name t)
  | MonitorError => (m, t)
  end.

Definition nothing : PresenceModel * CardKeyTracker :=
  (mkModel (mkRegistry [] [] []) ∅ ∅ 0, mkTracker ∅ []).

Definition after (evs : list MonitorEvent) : PresenceModel * CardKeyTracker := foldl dispatch nothing evs.
End Model.

(** ** The lists of the registry *)

(** What a relabelling leaves alone. *)
Definition shape (r : ReaderState) : Z * string * bool * Z := (rId r, rName r, hasCard r, rCard r).
Definition rLabel (r : ReaderState) : Label := (rModel r, rIface r).

Lemma relabelReader_spec r id :
  shape (fst (relabelReader r id)) = shape r ∧ rLabel (fst (relabelReader r id)) = labelOf id.
Proof.
  unfold relabelReader. destruct (_ || _) eqn:E; cbn; [done|]. split; [done|]. bool_hyps.
  unfold rLabel, labelOf. f_equal; by apply dec_stable.
Qed.

Lemma length_readerIdentities names : length (readerIdentities names) = length names.
Proof. destruct (readerIdentities_spec names) as (st & _ & ->). apply length_map. Qed.

Lemma zip_relabel rs ids :
  length ids = length rs →
  map shape (map fst (zip_with relabelReader rs ids)) = map shape rs ∧
  map rLabel (map fst (zip_with relabelReader rs ids)) = map labelOf ids.
Proof.
  revert ids. induction rs as [|r rs IH]; intros [|id ids]; cbn; try done. intros [= Hl].
  destruct (relabelReader_spec r id) as [-> ->]. by destruct (IH ids Hl) as [-> ->].
Qed.

Lemma relabel_spec rs :
  map shape (fst (relabel rs)) = map shape rs ∧
  map rLabel (fst (relabel rs)) = map labelOf (readerIdentities (map rName rs)).
Proof. apply zip_relabel. by rewrite length_readerIdentities, length_map. Qed.

(** A list with the shapes of another, for what depends on the shape only. *)
Lemma map_shape {A} (f : Z * string * bool * Z → A) rs rs' :
  map shape rs = map shape rs' → map (f ∘ shape) rs = map (f ∘ shape) rs'.
Proof. intros E. by rewrite <-!(map_map shape f), E. Qed.

Lemma shape_ids rs rs' : map shape rs = map shape rs' → map rId rs = map rId rs'.
Proof. apply (map_shape (λ p, p.1.1.1)). Qed.
Lemma shape_names rs rs' : map shape rs = map shape rs' → map rName rs = map rName rs'.
Proof. apply (map_shape (λ p, p.1.1.2)). Qed.

Lemma shape_elem rs rs' r : map shape rs = map shape rs' → r ∈ rs → ∃ r', r' ∈ rs' ∧ shape r' = shape r.
Proof.
  intros E Hr. assert (Hin : shape r ∈ map shape rs') by (rewrite <-E; apply list_elem_of_fmap; eauto).
  apply list_elem_of_fmap in Hin as (r' & ? & ?). eauto.
Qed.

Section ById.
Context {A : Type} (key : A → Z).

Lemma eraseIf_none id l : (∀ x, x ∈ l → key x ≠ id) → eraseIf (λ x, key x =? id) l = None.
Proof.
  induction l as [|x l IH]; intros H; cbn; [done|].
  destruct (Z.eqb_spec (key x) id) as [E|_]; [by destruct (H x ltac:(left))|].
  rewrite IH; [done|]. intros y Hy. apply H. by right.
Qed.

Lemma eraseIf_some id x l :
  NoDup (map key l) → x ∈ l → key x = id →
  ∃ l', eraseIf (λ x, key x =? id) l = Some l' ∧ NoDup (map key l') ∧ (∀ y, y ∈ l' ↔ y ∈ l ∧ key y ≠ id).
Proof.
  intros Hnd Hx <-. induction l as [|y l IH]; [by apply not_elem_of_nil in Hx|]. cbn.
  cbn in Hnd. apply NoDup_cons in Hnd as [Hy Hnd].
  destruct (Z.eqb_spec (key y) (key x)) as [E|Hne].
  - exists l. split_and!; try done. intros z. rewrite elem_of_cons. split.
    + intros Hz. split; [by right|]. intros Hk. apply Hy. rewrite E, <-Hk. apply list_elem_of_fmap. eauto.
    + intros [[->|?] ?]; done.
  - apply elem_of_cons in Hx as [->|Hx]; [done|]. destruct (IH Hnd Hx) as (l' & -> & Hnd' & Hl'). cbn.
    exists (y :: l'). split_and!; [done| |].
    + cbn. apply NoDup_cons. split; [|done]. intros Hin. apply Hy. apply list_elem_of_fmap in Hin as (z & -> & Hz).
      apply Hl' in Hz as [Hz _]. apply list_elem_of_fmap. eauto.
    + intros z. rewrite !elem_of_cons, Hl'. split; [intros [->|[? ?]]; auto|intros [[?|?] ?]; auto].
Qed.
End ById.

Lemma NoDup_key {A} (key : A → Z) (l : list A) x y : NoDup (map key l) → x ∈ l → y ∈ l → key x = key y → x = y.
Proof.
  intros Hnd Hx Hy E. apply list_elem_of_lookup in Hx as [i Hi]. apply list_elem_of_lookup in Hy as [j Hj].
  assert (i = j) as ->; [|by simplify_eq].
  eapply (NoDup_lookup (map key l)); [done| |]; rewrite list_lookup_fmap; [by rewrite Hi|rewrite Hj; cbn; by f_equal].
Qed.

Definition withPresence (d : PropertyDelta) (r : ReaderState) : ReaderState :=
  mkReader (rId r) (rName r) (dHasCard d) (dCard d) (rModel r) (rIface r).

Lemma setPresence_map id d rs :
  NoDup (map rId rs) → setPresence id d rs = map (λ r, if rId r =? id then withPresence d r else r) rs.
Proof.
  induction rs as [|r rs IH]; cbn; [done|]. intros [Hr Hnd]%NoDup_cons. destruct (Z.eqb_spec (rId r) id) as [<-|Hne].
  - f_equal. symmetry. rewrite <-(map_id rs) at 2. apply map_ext_in. intros r' Hr'%list_elem_of_In.
    case_match eqn:E; [|done]. exfalso. apply Hr. bool_hyps. rewrite <-E. apply list_elem_of_fmap. eauto.
  - by rewrite IH.
Qed.

Lemma readers_update reader d g :
  NoDup (map rId (m_readers g)) → reader ≠ 0 →
  m_readers (update reader d g) = map (λ r, if rId r =? reader then withPresence d r else r) (m_readers g) ∧
  m_cards (update reader d g) = m_cards g.
Proof.
  intros Hnd H0. unfold update. rewrite (proj2 (Z.eqb_neq _ _)) by done.
  destruct (readerById reader (m_readers g)) as [r|] eqn:E; [case_match eqn:Eq|]; cbn; (split; [|done]).
  - apply find_some in E as [Hr%list_elem_of_In Hid]. bool_hyps. apply Bool.eqb_prop in H.
    symmetry. rewrite <-(map_id (m_readers g)) at 2. apply map_ext_in. intros r' Hr'%list_elem_of_In.
    destruct (Z.eqb_spec (rId r') reader) as [E'|]; [|done].
    assert (r' = r) as -> by (eapply (NoDup_key rId); [done..|congruence]). unfold withPresence. destruct r; cbn in *. congruence.
  - by apply setPresence_map.
  - symmetry. rewrite <-(map_id (m_readers g)) at 2. apply map_ext_in. intros r' Hr'.
    pose proof (find_none _ _ E _ Hr') as Hn. cbn in Hn. by rewrite Hn.
Qed.

(** ** What is published follows the maps *)

Definition presence (o : option Z) : bool * Z := match o with Some c => (true, c) | None => (false, 0) end.

Record published (rids cids : gmap string Z) (g : ObjectRegistry) : Prop := {
  p_ids : NoDup (map rId (m_readers g));
  p_reader : ∀ r, r ∈ m_readers g → rids !! rName r = Some (rId r);
  p_readers : ∀ name id, rids !! name = Some id → ∃ r, r ∈ m_readers g ∧ rName r = name;
  p_presence : ∀ r, r ∈ m_readers g → (hasCard r, rCard r) = presence (cids !! rName r);
  p_cardIds : NoDup (map cId (m_cards g));
  p_card : ∀ c, c ∈ m_cards g → ∃ name, cids !! name = Some (cId c) ∧ rids !! name = Some (cReader c);
  p_cards : ∀ name id, cids !! name = Some id → ∃ c, c ∈ m_cards g ∧ cId c = id;
  p_labels : map rLabel (m_readers g) = map labelOf (readerIdentities (map rName (m_readers g))) }.

(** The ids in use: different from each other and from 0, none above the last minted. *)
Record minted (rids cids : gmap string Z) (last : Z) : Prop := {
  i_reader : ∀ name id, rids !! name = Some id → 0 < id ≤ last;
  i_card : ∀ name id, cids !! name = Some id → 0 < id ≤ last;
  i_readers : ∀ a b id, rids !! a = Some id → rids !! b = Some id → a = b;
  i_cards : ∀ a b id, cids !! a = Some id → cids !! b = Some id → a = b;
  i_apart : ∀ a b id, rids !! a = Some id → cids !! b ≠ Some id;
  i_placed : ∀ name id, cids !! name = Some id → is_Some (rids !! name) }.

Lemma contains_fresh rids cids last g id :
  published rids cids g → minted rids cids last → last < id → contains id g = false.
Proof.
  intros Hp Hm Hlt. unfold contains. apply orb_false_iff. split; apply not_true_iff_false; rewrite existsb_exists.
  - intros (r & Hr%list_elem_of_In & E). bool_hyps. apply (p_reader _ _ _ Hp), (i_reader _ _ _ Hm) in Hr. lia.
  - intros (c & Hc%list_elem_of_In & E). bool_hyps.
    apply (p_card _ _ _ Hp) in Hc as (name & Hc & _). apply (i_card _ _ _ Hm) in Hc. lia.
Qed.

(** The readers after a relabelling of [rs]. *)
Lemma published_relabel rids cids g rs cs log :
  NoDup (map rId rs) → (∀ r, r ∈ rs → rids !! rName r = Some (rId r) ∧ (hasCard r, rCard r) = presence (cids !! rName r)) →
  (∀ name id, rids !! name = Some id → ∃ r, r ∈ rs ∧ rName r = name) →
  NoDup (map cId cs) → (∀ c, c ∈ cs → ∃ name, cids !! name = Some (cId c) ∧ rids !! name = Some (cReader c)) →
  (∀ name id, cids !! name = Some id → ∃ c, c ∈ cs ∧ cId c = id) →
  m_readers g = fst (relabel rs) → m_cards g = cs → notices g = log → published rids cids g.
Proof.
  intros Hnd Hr Hall Hcnd Hc Hcall Eg <- _. destruct (relabel_spec rs) as [Hs Hl]. rewrite <-Eg in Hs, Hl.
  split; try done.
  - by rewrite (shape_ids _ _ Hs).
  - intros r Hin. destruct (shape_elem _ _ _ Hs Hin) as (r' & Hin' & E). unfold shape in E. simplify_eq.
    destruct (Hr _ Hin') as [? _]. congruence.
  - intros name id Hn. destruct (Hall _ _ Hn) as (r & Hin & <-).
    destruct (shape_elem _ _ _ (eq_sym Hs) Hin) as (r' & Hin' & E). exists r'. unfold shape in E. by simplify_eq.
  - intros r Hin. destruct (shape_elem _ _ _ Hs Hin) as (r' & Hin' & E). unfold shape in E.
    destruct (Hr _ Hin') as [_ Hp]. congruence.
  - by rewrite Hl, (shape_names _ _ Hs).
Qed.

Lemma published_addReader rids cids last g name id :
  published rids cids g → minted rids cids last → rids !! name = None → last < id →
  published (<[name := id]> rids) cids (addReader (mkReader id name false 0 "" Iface.Unknown) g).
Proof.
  intros Hp Hm Hname Hid. unfold addReader. cbn [rId rName hasCard rCard].
  rewrite (contains_fresh _ _ _ _ _ Hp Hm Hid). set (rs := m_readers g ++ [mkReader id name false 0 "" Iface.Unknown]).
  destruct (relabel rs) as [rs' ids] eqn:E.
  assert (Hold : ∀ r, r ∈ m_readers g → rName r ≠ name).
  { intros r Hr En. apply (p_reader _ _ _ Hp) in Hr. congruence. }
  eapply (published_relabel _ _ _ rs (m_cards g)).
  - unfold rs. rewrite map_app. apply NoDup_app. split_and!; [apply Hp| |apply NoDup_singleton].
    intros x Hx ->%list_elem_of_singleton. apply list_elem_of_fmap in Hx as (r & Ex & Hr). cbn in Ex. subst.
    apply (p_reader _ _ _ Hp), (i_reader _ _ _ Hm) in Hr. lia.
  - intros r [Hr| ->%list_elem_of_singleton]%elem_of_app; cbn.
    + rewrite lookup_insert_ne by (intros En; by eapply Hold). split; [by apply Hp|by apply Hp].
    + rewrite lookup_insert_eq. split; [done|]. destruct (cids !! name) as [c|] eqn:Ec; [|done].
      apply (i_placed _ _ _ Hm) in Ec as [? ?]. congruence.
  - intros name' id' [[<- <-]|[Hne Hn]]%lookup_insert_Some.
    + eexists. split; [apply elem_of_app; right; by left|done].
    + destruct (p_readers _ _ _ Hp _ _ Hn) as (r & ? & ?). exists r. split; [apply elem_of_app; by left|done].
  - apply Hp.
  - intros c Hc. destruct (p_card _ _ _ Hp _ Hc) as (n & ? & Hn). exists n. split; [done|].
    rewrite lookup_insert_ne; [done|]. intros <-. congruence.
  - apply Hp.
  - by rewrite E.
  - done.
  - done.
Qed.

Lemma published_removeReader rids cids last g name id :
  published rids cids g → minted rids cids last → rids !! name = Some id → cids !! name = None →
  published (delete name rids) cids (remove id g).
Proof.
  intros Hp Hm Hname Hcard. destruct (p_readers _ _ _ Hp _ _ Hname) as (r & Hr & Hrn).
  assert (Hrid : rId r = id) by (apply (p_reader _ _ _ Hp) in Hr; congruence).
  destruct (eraseIf_some rId id r (m_readers g)) as (rs & Ers & Hnd & Hrs); [apply Hp|done|done|].
  unfold remove. rewrite Ers. destruct (relabel rs) as [rs' ids] eqn:E.
  assert (Hne : ∀ r', r' ∈ rs → rName r' ≠ name).
  { intros r' [Hr' Hd]%Hrs En. apply Hd. apply (p_reader _ _ _ Hp) in Hr'. congruence. }
  eapply (published_relabel _ _ _ rs (m_cards g)); try apply Hp; try done.
  - intros r' Hr'. specialize (Hne _ Hr'). apply Hrs in Hr' as [Hr' _].
    rewrite lookup_delete_ne by done. split; by apply Hp.
  - intros n i [Hn Hi]%lookup_delete_Some. destruct (p_readers _ _ _ Hp _ _ Hi) as (r' & Hr' & <-).
    exists r'. split; [|done]. apply Hrs. split; [done|]. intros Hd. apply Hn.
    apply (p_reader _ _ _ Hp) in Hr'. eapply (i_readers _ _ _ Hm); [done|]. congruence.
  - intros c Hc. destruct (p_card _ _ _ Hp _ Hc) as (n & Hn & Hrn'). exists n. split; [done|].
    rewrite lookup_delete_ne; [done|]. intros <-. congruence.
  - by rewrite E.
Qed.

(** A card's arrival or departure at the reader of [name]. *)
Lemma published_presence rids cids cids' last g g' name rid d :
  published rids cids g → minted rids cids last → rids !! name = Some rid →
  presence (cids' !! name) = (dHasCard d, dCard d) → (∀ n, n ≠ name → cids' !! n = cids !! n) →
  m_readers g' = m_readers g →
  NoDup (map cId (m_cards g')) →
  (∀ c, c ∈ m_cards g' → ∃ n, cids' !! n = Some (cId c) ∧ rids !! n = Some (cReader c)) →
  (∀ n id, cids' !! n = Some id → ∃ c, c ∈ m_cards g' ∧ cId c = id) →
  published rids cids' (update rid d g').
Proof.
  intros Hp Hm Hname Hpres Hother Eg Hcnd Hc Hcall.
  assert (H0 : rid ≠ 0) by (apply (i_reader _ _ _ Hm) in Hname; lia).
  destruct (readers_update rid d g') as [Hr Ec]; [rewrite Eg; apply Hp|done|]. rewrite Eg in Hr.
  assert (Hkeep : ∀ {A} (f : ReaderState → A), (∀ r, f (withPresence d r) = f r) →
    map f (m_readers (update rid d g')) = map f (m_readers g)).
  { intros A f Hf. rewrite Hr, map_map. apply map_ext. intros r. by case_match. }
  assert (Hin : ∀ r', r' ∈ m_readers (update rid d g') → ∃ r, r ∈ m_readers g ∧
    r' = if rId r =? rid then withPresence d r else r).
  { intros r'. rewrite Hr. intros (r & -> & ?)%list_elem_of_fmap. eauto. }
  split; rewrite ?Ec; try done.
  - rewrite Hkeep by done. apply Hp.
  - intros r' (r & H & ->)%Hin. apply (p_reader _ _ _ Hp) in H. by case_match.
  - intros n id Hn. destruct (p_readers _ _ _ Hp _ _ Hn) as (r & H & <-).
    exists (if rId r =? rid then withPresence d r else r). split; [|by case_match].
    rewrite Hr. apply list_elem_of_fmap. eauto.
  - intros r' (r & H & ->)%Hin. pose proof (p_reader _ _ _ Hp _ H) as Hid.
    destruct (Z.eqb_spec (rId r) rid) as [E|Hne]; cbn.
    + rewrite E in Hid. by rewrite (i_readers _ _ _ Hm _ _ _ Hid Hname).
    + rewrite Hother; [by apply Hp|]. intros En. congruence.
  - rewrite (Hkeep _ rLabel) by done. rewrite (Hkeep _ rName) by done. apply Hp.
Qed.

(** ** The model keeps it *)

Section Keeps.
Context (resolve : list Z → Z).

Record good (n : Z) (m : PresenceModel) : Prop := {
  g_published : published (m_readerIds m) (m_cardIds m) (m_registry m);
  g_minted : minted (m_readerIds m) (m_cardIds m) (m_nextId m);
  g_next : 0 ≤ m_nextId m ≤ n }.

Lemma good_weaken n n' m : good n m → n ≤ n' → good n' m.
Proof. intros [? ? ?] ?. split; [done..|lia]. Qed.

Lemma minted_reader rids cids last name id :
  minted rids cids last → rids !! name = None → last < id → 0 < id → minted (<[name := id]> rids) cids id.
Proof.
  intros [Hr Hc Hri Hci Ha Hp] Hn Hlt H0. split; try done.
  - intros a i [[<- <-]|[_ ?%Hr]]%lookup_insert_Some; lia.
  - intros a i ?%Hc. lia.
  - intros a b i [[<- <-]|[? Ea]]%lookup_insert_Some [[<- E]|[? Eb]]%lookup_insert_Some; try done.
    + apply Hr in Eb. lia.
    + subst. apply Hr in Ea. lia.
    + by eapply Hri.
  - intros a b i [[<- <-]|[? Ea]]%lookup_insert_Some Eb; [apply Hc in Eb; lia|by eapply Ha].
  - intros a i Ea. destruct (decide (a = name)) as [->|?]; [by rewrite lookup_insert_eq|].
    rewrite lookup_insert_ne by done. by eapply Hp.
Qed.

Lemma minted_card rids cids last name id :
  minted rids cids last → is_Some (rids !! name) → last < id → 0 < id → minted rids (<[name := id]> cids) id.
Proof.
  intros [Hr Hc Hri Hci Ha Hp] Hn Hlt H0. split; try done.
  - intros a i ?%Hr. lia.
  - intros a i [[<- <-]|[_ ?%Hc]]%lookup_insert_Some; lia.
  - intros a b i [[<- <-]|[? Ea]]%lookup_insert_Some [[<- E]|[? Eb]]%lookup_insert_Some; try done.
    + apply Hc in Eb. lia.
    + subst. apply Hc in Ea. lia.
    + by eapply Hci.
  - intros a b i Ea [[<- <-]|[? Eb]]%lookup_insert_Some; [apply Hr in Ea; lia|by eapply Ha].
  - intros a i [[<- <-]|[? Ea]]%lookup_insert_Some; [done|by eapply Hp].
Qed.

Lemma minted_less rids cids rids' cids' last :
  minted rids cids last → rids' ⊆ rids → cids' ⊆ cids → (∀ name id, cids' !! name = Some id → is_Some (rids' !! name)) →
  minted rids' cids' last.
Proof.
  intros [Hr Hc Hri Hci Ha _] Hs1 Hs2 Hp. split; try done.
  - intros a i E. by eapply Hr, (lookup_weaken rids').
  - intros a i E. by eapply Hc, (lookup_weaken cids').
  - intros a b i E1 E2. eapply Hri; by apply (lookup_weaken rids').
  - intros a b i E1 E2. eapply Hci; by apply (lookup_weaken cids').
  - intros a b i E1 E2. eapply Ha; [by apply (lookup_weaken rids')|by apply (lookup_weaken cids')].
Qed.

Lemma good_onReaderAdded n m name : good n m → n + 1 < 2 ^ 64 → good (n + 1) (onReaderAdded name m).
Proof.
  intros [Hp Hm Hn] Hlt. unfold onReaderAdded. destruct (m_readerIds m !! name) eqn:E; [split; [done..|lia]|].
  unfold u64. rewrite wrap_small by lia. split; cbn; [| |lia].
  - eapply published_addReader; [done..|lia].
  - eapply minted_reader; [done..|lia|lia].
Qed.

Lemma good_onCardRemoved n m name : good n m → good n (onCardRemoved name m).
Proof.
  intros [Hp Hm Hn]. unfold onCardRemoved. destruct (m_cardIds m !! name) as [cid|] eqn:E; [|by split].
  destruct (i_placed _ _ _ Hm _ _ E) as [rid Er]. unfold readerIdFor. rewrite Er. cbn [default].
  assert (Hnr : ∀ r, r ∈ m_readers (m_registry m) → rId r ≠ cid).
  { intros r Hr Eid. apply (p_reader _ _ _ Hp) in Hr. rewrite Eid in Hr. by eapply (i_apart _ _ _ Hm). }
  destruct (p_cards _ _ _ Hp _ _ E) as (c & Hc & Hcid).
  destruct (eraseIf_some cId cid c (m_cards (m_registry m))) as (cs & Ecs & Hnd & Hcs); [apply Hp|done|done|].
  assert (Hrm : remove cid (m_registry m) = mkRegistry (m_readers (m_registry m)) cs (notices (m_registry m) ++ [Removed cid])).
  { unfold remove. by rewrite (eraseIf_none rId), Ecs by done. }
  split; cbn; [|eapply minted_less; [done|done|apply delete_subseteq|]|done].
  - rewrite Hrm. eapply (published_presence _ (m_cardIds m) _ _ _ _ name rid); try done.
    + by rewrite lookup_delete_eq.
    + intros a Ha. by rewrite lookup_delete_ne.
    + intros c' [Hc' Hne]%Hcs. destruct (p_card _ _ _ Hp _ Hc') as (a & Ea & Era). exists a. split; [|done].
      rewrite lookup_delete_ne; [done|]. intros <-. congruence.
    + intros a i [Hne Ea]%lookup_delete_Some. destruct (p_cards _ _ _ Hp _ _ Ea) as (c' & Hc' & <-).
      exists c'. split; [|done]. apply Hcs. split; [done|]. intros Ei. apply Hne.
      eapply (i_cards _ _ _ Hm); [done|]. by rewrite <-Ei.
  - intros a i [_ Ea]%lookup_delete_Some. by eapply (i_placed _ _ _ Hm).
Qed.

Lemma cardIds_removed m name : m_cardIds (onCardRemoved name m) = delete name (m_cardIds m).
Proof.
  unfold onCardRemoved. destruct (m_cardIds m !! name) eqn:E; cbn; [done|]. by rewrite delete_id.
Qed.

Lemma good_onReaderRemoved n m name : good n m → good n (onReaderRemoved name m).
Proof.
  intros Hg%(good_onCardRemoved _ _ name). unfold onReaderRemoved. cbv zeta.
  pose proof (cardIds_removed m name) as Ec. destruct Hg as [Hp Hm Hn].
  destruct (m_readerIds (onCardRemoved name m) !! name) as [id|] eqn:E; [|by split].
  assert (Hnone : m_cardIds (onCardRemoved name m) !! name = None) by (by rewrite Ec, lookup_delete_eq).
  split; cbn; [by eapply published_removeReader|eapply minted_less; [done|apply delete_subseteq|done|]|done].
  intros a i Ea. rewrite lookup_delete_ne; [by eapply (i_placed _ _ _ Hm)|]. intros <-. congruence.
Qed.

(** The model right before it mints the card. *)
Definition ready (name : string) (m : PresenceModel) : PresenceModel :=
  let m := match m_readerIds m !! name with None => onReaderAdded name m | Some _ => m end in
  match m_cardIds m !! name with Some _ => onCardRemoved name m | None => m end.

Lemma good_ready n m name : good n m → n + 1 < 2 ^ 64 →
  good (n + 1) (ready name m) ∧ is_Some (m_readerIds (ready name m) !! name) ∧ m_cardIds (ready name m) = delete name (m_cardIds m).
Proof.
  intros Hg Hlt. unfold ready. cbv zeta.
  set (m1 := match m_readerIds m !! name with None => _ | Some _ => _ end).
  assert (H1 : good (n + 1) m1 ∧ is_Some (m_readerIds m1 !! name) ∧ m_cardIds m1 = m_cardIds m).
  { unfold m1. destruct (m_readerIds m !! name) eqn:E.
    - split_and!; [eapply good_weaken; [done|lia]|by eexists|done].
    - split_and!; [by apply good_onReaderAdded| |]; unfold onReaderAdded; rewrite E; cbn; [|done].
      rewrite lookup_insert_eq. by eexists. }
  destruct H1 as (Hg1 & Hr & Ec). destruct (m_cardIds m1 !! name) as [cid|] eqn:E.
  - split_and!; [by apply good_onCardRemoved| |by rewrite cardIds_removed, Ec].
    unfold onCardRemoved. by rewrite E.
  - split_and!; [done|done|]. rewrite <-Ec. by rewrite delete_id.
Qed.

Lemma good_onCardInserted n m name atr :
  good n m → n + 2 < 2 ^ 64 →
  good (n + 2) (onCardInserted resolve name atr m) ∧
  m_cardIds (onCardInserted resolve name atr m) = <[name := m_nextId (ready name m) + 1]> (delete name (m_cardIds m)).
Proof.
  intros Hg Hlt. destruct (good_ready n m name Hg) as ([Hp Hm Hn] & [rid Er] & Ec); [lia|].
  assert (Hcid : u64 (m_nextId (ready name m) + 1) = m_nextId (ready name m) + 1) by (apply wrap_small; lia).
  set (cid := m_nextId (ready name m) + 1) in *.
  assert (E : onCardInserted resolve name atr m =
    mkModel (update rid (mkDelta true cid) (addCard (mkCard cid rid (resolve atr) PreReadAuthNone "" (toHex atr Ascii.zero true))
                                              (m_registry (ready name m))))
      (m_readerIds (ready name m)) (<[name := cid]> (m_cardIds (ready name m))) cid).
  { transitivity (let m := ready name m in
      let cardId := u64 (m_nextId m + 1) in let readerId := default 0 (m_readerIds m !! name) in
      mkModel (update readerId (mkDelta true cardId)
                 (addCard (mkCard cardId readerId (resolve atr) PreReadAuthNone "" (toHex atr Ascii.zero true)) (m_registry m)))
        (m_readerIds m) (<[name := cardId]> (m_cardIds m)) cardId); [done|].
    cbv zeta. fold cid. by rewrite Hcid, Er. }
  rewrite E. split; [|cbn; by rewrite Ec].
  assert (Hnone : m_cardIds (ready name m) !! name = None) by (by rewrite Ec, lookup_delete_eq).
  unfold addCard. cbn [cId]. rewrite (contains_fresh _ _ _ _ cid Hp Hm) by lia.
  split; cbn [m_registry m_readerIds m_cardIds m_nextId]; [|eapply minted_card; [done|by eexists|lia|lia]|lia].
  eapply (published_presence _ (m_cardIds (ready name m)) _ _ _ _ name rid); try done; cbn [m_readers m_cards].
  - by rewrite lookup_insert_eq.
  - intros a Ha. by rewrite lookup_insert_ne.
  - rewrite map_app. apply NoDup_app. split_and!; [apply Hp| |apply NoDup_singleton].
    intros x Hx ->%list_elem_of_singleton. apply list_elem_of_fmap in Hx as (c & Ex & Hc). cbn in Ex.
    destruct (p_card _ _ _ Hp _ Hc) as (a & Ea & _). apply (i_card _ _ _ Hm) in Ea. lia.
  - intros c [Hc| ->%list_elem_of_singleton]%elem_of_app; [|exists name; by rewrite lookup_insert_eq].
    destruct (p_card _ _ _ Hp _ Hc) as (a & Ea & ?). exists a. rewrite lookup_insert_ne; [done|]. intros <-. congruence.
  - intros a i [[<- <-]|[Hne Ea]]%lookup_insert_Some.
    + eexists. split; [apply elem_of_app; right; by left|done].
    + destruct (p_cards _ _ _ Hp _ _ Ea) as (c & ? & ?). exists c. split; [apply elem_of_app; by left|done].
Qed.
End Keeps.

(** ** Every card that goes is reported *)

(** The cards announced to the observers, in order. *)
Definition cardSeen (x : Notice) : option Z := match x with AddedCard c => Some (cId c) | _ => None end.
Definition cardsSeen (g : ObjectRegistry) : list Z := omap cardSeen (notices g).

Lemma cardsSeen_announce ids except g : cardsSeen (announceRelabels ids except g) = cardsSeen g.
Proof.
  unfold cardsSeen, announceRelabels. cbn. rewrite omap_app. replace (omap cardSeen (omap _ ids)) with (@nil Z); [by rewrite app_nil_r|].
  induction ids as [|id ids IH]; cbn; [done|]. destruct (id =? except); [done|]. by destruct (readerById id _).
Qed.

Lemma cardsSeen_addReader r g : cardsSeen (addReader r g) = cardsSeen g.
Proof.
  unfold addReader. destruct (contains _ g); [done|]. destruct (relabel _) as [rs ids].
  rewrite cardsSeen_announce. unfold cardsSeen. cbn. rewrite omap_app. destruct (readerById _ rs); by rewrite app_nil_r.
Qed.

Lemma cardsSeen_remove id g : cardsSeen (remove id g) = cardsSeen g.
Proof.
  unfold remove. destruct (eraseIf _ _) as [rs|].
  - destruct (relabel rs). rewrite cardsSeen_announce. unfold cardsSeen. cbn. rewrite omap_app. by rewrite app_nil_r.
  - destruct (eraseIf _ _); [|done]. unfold cardsSeen. cbn. rewrite omap_app. by rewrite app_nil_r.
Qed.

Lemma cardsSeen_update id d g : cardsSeen (update id d g) = cardsSeen g.
Proof.
  unfold update. repeat case_match; try done. unfold cardsSeen. cbn. rewrite omap_app. by rewrite app_nil_r.
Qed.

Lemma cardsSeen_onCardRemoved name m : cardsSeen (m_registry (onCardRemoved name m)) = cardsSeen (m_registry m).
Proof. unfold onCardRemoved. case_match; [|done]. cbn. by rewrite cardsSeen_update, cardsSeen_remove. Qed.

Lemma cardsSeen_onReaderAdded name m : cardsSeen (m_registry (onReaderAdded name m)) = cardsSeen (m_registry m).
Proof. unfold onReaderAdded. case_match; [done|]. cbn. apply cardsSeen_addReader. Qed.

Lemma cardsSeen_onReaderRemoved name m : cardsSeen (m_registry (onReaderRemoved name m)) = cardsSeen (m_registry m).
Proof.
  unfold onReaderRemoved. cbv zeta. case_match; cbn; [rewrite cardsSeen_remove|]; apply cardsSeen_onCardRemoved.
Qed.

Lemma next_onCardRemoved name m : m_nextId (onCardRemoved name m) = m_nextId m.
Proof. unfold onCardRemoved. by case_match. Qed.

(** The cards a tracker holds and those it reported. *)
Definition tracked (t : CardKeyTracker) : list Z :=
  map snd (map_to_list (m_readerToCardKey t)) ++ map fst (dropped t).

Lemma tracked_removed name t :
  tracked (trackRemoved name t) ≡ₚ tracked t ∧ m_readerToCardKey (trackRemoved name t) = delete name (m_readerToCardKey t).
Proof.
  unfold trackRemoved, tracked. destruct (m_readerToCardKey t !! name) as [id|] eqn:E; cbn; [|by rewrite delete_id].
  split; [|done]. rewrite <-(map_to_list_delete (m_readerToCardKey t) name id) by done. cbn.
  rewrite map_app. cbn. rewrite (assoc_L (++)), (comm (++) _ [id]). done.
Qed.

Lemma tracked_inserted name id t :
  tracked (trackInserted name id t) ≡ₚ id :: tracked t ∧
  m_readerToCardKey (trackInserted name id t) = <[name := id]> (delete name (m_readerToCardKey t)).
Proof.
  unfold trackInserted. cbv zeta. set (t1 := match _ with Some _ => _ | None => _ end).
  assert (H1 : tracked t1 ≡ₚ tracked t ∧ m_readerToCardKey t1 = delete name (m_readerToCardKey t)).
  { unfold t1. destruct (m_readerToCardKey t !! name) eqn:E; [apply tracked_removed|by rewrite delete_id]. }
  destruct H1 as [<- E1]. split; [|cbn; by rewrite E1].
  unfold tracked. cbn. rewrite map_to_list_insert; [done|]. by rewrite E1, lookup_delete_eq.
Qed.

Section Reached.
Context (resolve : list Z → Z).

Record inv (n : Z) (w : PresenceModel * CardKeyTracker) : Prop := {
  v_good : good n (fst w);
  v_tracker : m_readerToCardKey (snd w) = m_cardIds (fst w);
  v_seen : cardsSeen (m_registry (fst w)) ≡ₚ tracked (snd w);
  v_nodup : NoDup (cardsSeen (m_registry (fst w)));
  v_below : ∀ id, id ∈ cardsSeen (m_registry (fst w)) → id ≤ m_nextId (fst w) }.

Lemma cardsSeen_ready name m :
  cardsSeen (m_registry (ready name m)) = cardsSeen (m_registry m) .
Proof.
  unfold ready. cbv zeta. set (m1 := match m_readerIds m !! name with None => _ | Some _ => _ end).
  assert (E1 : cardsSeen (m_registry m1) = cardsSeen (m_registry m)).
  { unfold m1. case_match; [done|apply cardsSeen_onReaderAdded]. }
  case_match; [by rewrite cardsSeen_onCardRemoved|done].
Qed.

Lemma next_ready n name m : good n m → n + 1 < 2 ^ 64 → m_nextId m ≤ m_nextId (ready name m).
Proof.
  intros [_ _ Hn] Hlt. unfold ready. cbv zeta. set (m1 := match m_readerIds m !! name with None => _ | Some _ => _ end).
  assert (E1 : m_nextId m ≤ m_nextId m1).
  { unfold m1. case_match eqn:E; [done|]. unfold onReaderAdded. rewrite E. cbn. unfold u64. rewrite wrap_small; lia. }
  case_match; [by rewrite next_onCardRemoved|done].
Qed.

Lemma inserted_seen n name atr m :
  good n m → n + 2 < 2 ^ 64 →
  cardsSeen (m_registry (onCardInserted resolve name atr m)) = cardsSeen (m_registry m) ++ [m_nextId (ready name m) + 1] ∧
  m_nextId (onCardInserted resolve name atr m) = m_nextId (ready name m) + 1.
Proof.
  intros Hg Hlt. destruct (good_ready n m name Hg) as ([Hp Hm Hn] & _ & _); [lia|].
  rewrite <-(cardsSeen_ready name m).
  assert (Hcid : u64 (m_nextId (ready name m) + 1) = m_nextId (ready name m) + 1) by (apply wrap_small; lia).
  split; [|done].
  transitivity (cardsSeen (addCard (mkCard (u64 (m_nextId (ready name m) + 1)) (default 0 (m_readerIds (ready name m) !! name))
    (resolve atr) PreReadAuthNone "" (toHex atr Ascii.zero true)) (m_registry (ready name m)))); [apply cardsSeen_update|].
  rewrite Hcid. unfold addCard. cbn [cId]. rewrite (contains_fresh _ _ _ _ _ Hp Hm) by lia.
  unfold cardsSeen. cbn. by rewrite omap_app.
Qed.

Lemma inv_dispatch n w ev : inv n w → n + 2 < 2 ^ 64 → inv (n + 2) (dispatch resolve w ev).
Proof.
  destruct w as [m t]. intros [Hg Ht Hs Hnd Hb] Hlt. cbn in *.
  destruct ev as [name|name|name atr|name|]; cbn [dispatch].
  - pose proof (good_onReaderAdded n m name Hg ltac:(lia)) as Hg'. split; cbn; rewrite ?cardsSeen_onReaderAdded; try done.
    + eapply good_weaken; [done|lia].
    + rewrite Ht. unfold onReaderAdded. by case_match.
    + intros id Hid. etransitivity; [by apply Hb|]. destruct Hg as [_ _ Hn]. unfold onReaderAdded.
      case_match; cbn; [done|]. unfold u64. rewrite wrap_small; lia.
  - destruct (tracked_removed name t) as [Hp Hm]. split; cbn; rewrite ?cardsSeen_onReaderRemoved; try done.
    + eapply good_weaken; [by apply good_onReaderRemoved|lia].
    + unfold trackReaderRemoved. rewrite Hm, Ht, <-cardIds_removed. unfold onReaderRemoved. by case_match.
    + unfold trackReaderRemoved. by rewrite Hp.
    + intros id Hid. unfold onReaderRemoved. cbv zeta. case_match; cbn; rewrite next_onCardRemoved; by apply Hb.
  - set (m' := onCardInserted resolve name (default [] atr) m).
    destruct (good_onCardInserted resolve n m name (default [] atr) Hg Hlt) as [Hg' Ec]. fold m' in Hg', Ec.
    destruct (inserted_seen n name (default [] atr) m Hg Hlt) as [Es En]. fold m' in Es, En.
    assert (Eid : cardIdFor name m' = m_nextId (ready name m) + 1) by (unfold cardIdFor; by rewrite Ec, lookup_insert_eq).
    pose proof (next_ready n name m Hg ltac:(lia)) as Hnext.
    destruct (tracked_inserted name (cardIdFor name m') t) as [Hp Hm]. rewrite Eid in Hp, Hm.
    split; cbn [fst snd]; rewrite ?Eid; try done.
    + by rewrite Hm, Ht, Ec.
    + rewrite Es, Hp, Hs. by rewrite (comm (++)).
    + rewrite Es. apply NoDup_app. split_and!; [done| |apply NoDup_singleton].
      intros x Hx%Hb ->%list_elem_of_singleton. lia.
    + intros id. rewrite Es, En, elem_of_app, list_elem_of_singleton. intros [?%Hb| ->]; lia.
  - destruct (tracked_removed name t) as [Hp Hm]. split; cbn; rewrite ?cardsSeen_onCardRemoved; try done.
    + eapply good_weaken; [by apply good_onCardRemoved|lia].
    + by rewrite Hm, Ht, cardIds_removed.
    + by rewrite Hp.
    + intros id Hid. rewrite next_onCardRemoved. by apply Hb.
  - split; cbn; try done. eapply good_weaken; [done|lia].
Qed.

Lemma inv_after evs : 2 * zlen evs < 2 ^ 64 → inv (2 * zlen evs) (after resolve evs).
Proof.
  unfold after. induction evs as [|ev evs IH] using rev_ind; cbn [length foldl].
  - intros _. split; [split; [split|split|]|..]; cbn; try done; try (by constructor);
      try (by intros ? ?%not_elem_of_nil); intros *; by rewrite lookup_empty.
  - rewrite length_app, foldl_snoc. cbn. intros Hlt.
    replace (2 * Z.of_nat (length evs + 1)) with (2 * zlen evs + 2) by lia.
    apply inv_dispatch; [apply IH|]; lia.
Qed.

(** What the agent publishes is one consistent picture after any sequence of monitor
    events: readers have different names and all ids differ, every reader has the label
    of the whole roster, a reader that shows a card shows a registered card of its own,
    a card's reader shows that card, and the tracker knows the card under that reader. *)
Theorem presence_consistent (evs : list MonitorEvent) :
  2 * zlen evs < 2 ^ 64 →
  let '(m, t) := after resolve evs in
  let g := m_registry m in
  NoDup (map rName (m_readers g)) ∧ NoDup (map rId (m_readers g) ++ map cId (m_cards g)) ∧
  map rLabel (m_readers g) = map labelOf (readerIdentities (map rName (m_readers g))) ∧
  (∀ r, r ∈ m_readers g → hasCard r = false ∧ rCard r = 0 ∨
     hasCard r = true ∧ ∃ c, c ∈ m_cards g ∧ cId c = rCard r ∧ cReader c = rId r) ∧
  (∀ c, c ∈ m_cards g → ∃ r, r ∈ m_readers g ∧ rId r = cReader c ∧ rCard r = cId c ∧
     m_readerToCardKey t !! rName r = Some (cId c)).
Proof.
  intros Hlt. pose proof (inv_after evs Hlt) as [[Hp Hm _] Ht _ _ _]. destruct (after resolve evs) as [m t]. cbn in *.
  assert (Hcard : ∀ c name, c ∈ m_cards (m_registry m) → m_cardIds m !! name = Some (cId c) →
    m_readerIds m !! name = Some (cReader c)).
  { intros c name Hc E. destruct (p_card _ _ _ Hp _ Hc) as (name' & E' & ?). by rewrite (i_cards _ _ _ Hm _ _ _ E E'). }
  split_and!.
  - apply (NoDup_fmap_2_strong rName).
    + intros r1 r2 H1 H2 E. eapply (NoDup_key rId); [apply Hp|done|done|].
      apply (p_reader _ _ _ Hp) in H1, H2. congruence.
    + eapply NoDup_fmap_1, Hp.
  - apply NoDup_app. split_and!; [apply Hp| |apply Hp]. intros x (r & -> & Hr)%list_elem_of_fmap (c & E & Hc)%list_elem_of_fmap.
    apply (p_reader _ _ _ Hp) in Hr. destruct (p_card _ _ _ Hp _ Hc) as (name & Ec & _).
    rewrite E in Hr. by eapply (i_apart _ _ _ Hm).
  - apply Hp.
  - intros r Hr. pose proof (p_presence _ _ _ Hp _ Hr) as Hpr.
    destruct (m_cardIds m !! rName r) as [cid|] eqn:E; injection Hpr as Hh Hc; [right|by left].
    split; [done|]. destruct (p_cards _ _ _ Hp _ _ E) as (c & Hin & <-). exists c. split_and!; [done|done|].
    apply (Hcard _ _ Hin) in E. rewrite (p_reader _ _ _ Hp _ Hr) in E. congruence.
  - intros c Hc. destruct (p_card _ _ _ Hp _ Hc) as (name & Ec & Er).
    destruct (p_readers _ _ _ Hp _ _ Er) as (r & Hr & <-). exists r. rewrite Ht.
    pose proof (p_presence _ _ _ Hp _ Hr) as Hpr. rewrite Ec in Hpr. injection Hpr as _ ->.
    pose proof (p_reader _ _ _ Hp _ Hr). split_and!; try done. congruence.
Qed.

(** C28: no card leaves unnoticed: every card ever announced is either still the card of
    some reader or was handed to the removal callback, which scrubs its secrets and
    ends its logins, exactly once; and no id is ever used for two cards. *)
Theorem removals_reported_once (evs : list MonitorEvent) :
  2 * zlen evs < 2 ^ 64 →
  let '(m, t) := after resolve evs in
  NoDup (cardsSeen (m_registry m)) ∧
  cardsSeen (m_registry m) ≡ₚ map snd (map_to_list (m_cardIds m)) ++ map fst (dropped t).
Proof.
  intros Hlt. pose proof (inv_after evs Hlt) as [_ Ht Hs Hnd _]. destruct (after resolve evs) as [m t]. cbn in *.
  split; [done|]. rewrite Hs. unfold tracked. by rewrite Ht.
Qed.
End Reached.

(** Two readers; the card of the first is replaced without a removal event, the second
    reader goes with its card. *)
Definition sampleEvents : list MonitorEvent :=
  [ReaderAdded "A 00 00"; ReaderAdded "B 00 00"; CardInserted "A 00 00" (Some [59]);
   CardInserted "B 00 00" None; CardInserted "A 00 00" (Some [63]); ReaderRemoved "B 00 00"].

Lemma presence_consistent_witness :
  map rName (m_readers (m_registry (fst (after (λ _, 1) sampleEvents)))) = ["A 00 00"] ∧
  NoDup (map rName (m_readers (m_registry (fst (after (λ _, 1) sampleEvents))))).
Proof.
  split; [by vm_compute|].
  assert (H : 2 * zlen sampleEvents < 2 ^ 64) by (vm_compute; reflexivity).
  pose proof (presence_consistent (λ _, 1) sampleEvents H) as Hp.
  destruct (after (λ _, 1) sampleEvents) as [m t]. exact (proj1 Hp).
Defined.

Lemma removals_reported_once_witness :
  map fst (dropped (snd (after (λ _, 1) sampleEvents))) = [3; 4] ∧
  NoDup (cardsSeen (m_registry (fst (after (λ _, 1) sampleEvents)))).
Proof.
  split; [by vm_compute|].
  assert (H : 2 * zlen sampleEvents < 2 ^ 64) by (vm_compute; reflexivity).
  pose proof (removals_reported_once (λ _, 1) sampleEvents H) as Hp.
  destruct (after (λ _, 1) sampleEvents) as [m t]. exact (proj1 Hp).
Defined.

End Presence.
