(* ===== verification/MasterLists.v ===== *)
(** * The master lists in a file

    Models the reader of [src/trust/CscaAnchorImport.cpp]: what a person hands in is one
    signed list, or a directory export (RFC 2849 LDIF) with the lists of many countries in
    base64. [masterListsIn] finds the signed objects that are worth verifying. Texts are
    lists of bytes. An export that is written by the grammar, folded anywhere, is read as
    exactly its signed objects, in their order. *)
From S2P Require Import Prelude Text Der.
Local Open Scope Z_scope.

Module MasterLists.
Import Der.

Abbreviation bytes := (list Z).

(** ** Characters *)
Definition cNewline : Z := 10.
Definition cReturn : Z := 13.
Definition cSpace : Z := 32.
Definition cTab : Z := 9.
Definition cHash : Z := 35.
Definition cColon : Z := 58.
Definition cEquals : Z := 61.

Definition between (lo hi c : Z) : bool := (lo <=? c) && (c <=? hi).
Definition isLower : Z → bool := between 97 122.
Definition isUpper : Z → bool := between 65 90.
Definition isDigit : Z → bool := between 48 57.

(** ** Signed objects *)

Definition kSignedDataOid : bytes := [0x06; 0x09; 0x2a; 0x86; 0x48; 0x86; 0xf7; 0x0d; 0x01; 0x07; 0x02].

(** The start of the object identifier, if the length covers the value exactly or is left
    open and closed by two zero octets. *)
Definition contentAt (value : bytes) : option nat :=
  if default 0 (value !! 1%nat) =? 0x80 then
    if negb (default 0 (value !! (length value - 1)%nat) =? 0) || negb (default 0 (value !! (length value - 2)%nat) =? 0)
    then None else Some 2%nat
  else
    len ← readDerLength value 1;
    if negb (1 + Z.of_nat (lengthOctets len) + length_ len =? zlen value) then None
    else Some (1 + lengthOctets len)%nat.

Definition isSignedObject (value : bytes) : bool :=
  if (length value <? 2 + length kSignedDataOid)%nat then false
  else if negb (default 0 (head value) =? 0x30) then false
  else match contentAt value with
       | None => false
       | Some header =>
           if (length value <? header + length kSignedDataOid)%nat then false
           else bool_decide (take (length kSignedDataOid) (drop header value) = kSignedDataOid)
       end.

(** ** Base64 *)

(** [-1] is [None]. *)
Definition digit (c : Z) : option Z :=
  if isUpper c then Some (c - 65)
  else if isLower c then Some (c - 97 + 26)
  else if isDigit c then Some (c - 48 + 52)
  else if c =? 43 then Some 62
  else if c =? 47 then Some 63
  else None.

(** The inner loop over the four characters of a group, from position [j]. *)
Fixpoint readGroup (final : bool) (j : nat) (group : bytes) (values : list Z) (padding : nat) : option (list Z * nat) :=
  match group with
  | [] => Some (values, padding)
  | c :: group =>
      if c =? cEquals then
        if negb final || (j <? 2)%nat then None else readGroup final (S j) group (values ++ [0]) (S padding)
      else if negb (padding =? 0)%nat then None
      else v ← digit c; readGroup final (S j) group (values ++ [v]) padding
  end.

Definition groupBytes (values : list Z) (padding : nat) : bytes :=
  let at_ j := default 0 (values !! j) in
  let triple := Z.lor (Z.lor (Z.lor (u32 (Z.shiftl (at_ 0%nat) 18)) (u32 (Z.shiftl (at_ 1%nat) 12)))
    (u32 (Z.shiftl (at_ 2%nat) 6))) (at_ 3%nat) in
  [Z.land (Z.shiftr triple 16) 0xFF] ++
  (if (padding <? 2)%nat then [Z.land (Z.shiftr triple 8) 0xFF] else []) ++
  (if (padding <? 1)%nat then [Z.land triple 0xFF] else []).

Fixpoint decodeGroups (encoded : bytes) : option bytes :=
  match encoded with
  | a :: b :: c :: d :: rest =>
      '(values, padding) ← readGroup (bool_decide (rest = [])) 0 [a; b; c; d] [] 0;
      more ← decodeGroups rest;
      Some (groupBytes values padding ++ more)
  | _ => Some []
  end.

Definition decodeBase64 (encoded : bytes) : option bytes :=
  if bool_decide (encoded = []) || negb (Nat.modulo (length encoded) 4 =? 0)%nat then None else decodeGroups encoded.

(** ** Directory exports *)

Definition isTypeStart (c : Z) : bool := isLower c || isUpper c || isDigit c.
Definition isTypeChar (c : Z) : bool := isTypeStart c || (c =? 45) || (c =? 46) || (c =? 59).

Record Ldif := mkLdif { sawDistinguishedName : bool; found : list bytes }.

Fixpoint trimFront (t : bytes) : bytes :=
  match t with
  | c :: rest => if (c =? cSpace) || (c =? cTab) then trimFront rest else t
  | [] => []
  end.

Definition isTrailing (c : Z) : bool := (c =? cSpace) || (c =? cTab) || (c =? cReturn).

Fixpoint trimBack (t : bytes) : bytes :=
  match t with
  | [] => []
  | c :: rest => match trimBack rest with [] => if isTrailing c then [] else [c] | rest => c :: rest end
  end.

(** One logical line; [None] if it is no line of an export. *)
Definition consider (line : bytes) (st : Ldif) : option Ldif :=
  match line with
  | [] => Some st
  | first :: _ =>
      if first =? cHash then Some st
      else match list_find (λ c, c = cColon) line with
           | None => None
           | Some (colon, _) =>
               if (colon <? 1)%nat || negb (isTypeStart first) || negb (forallb isTypeChar (take (colon - 1) (drop 1 line))) then None
               else
                 let dn := (colon =? 2)%nat &&
                   (let c := default 0 (line !! 0%nat) in (c =? 100) || (c =? 68)) &&
                   (let c := default 0 (line !! 1%nat) in (c =? 110) || (c =? 78)) in
                 let st := mkLdif (dn || sawDistinguishedName st) (found st) in
                 if negb (default 0 (line !! S colon) =? cColon) then Some st
                 else
                   match decodeBase64 (trimBack (trimFront (drop (S (S colon)) line))) with
                   | Some decoded =>
                       Some (if isSignedObject decoded then mkLdif (sawDistinguishedName st) (found st ++ [decoded]) else st)
                   | None => Some st
                   end
           end
  end.

(** The pieces between the separators. *)
Fixpoint splitOn (separator : Z) (b : bytes) : list bytes :=
  match b with
  | [] => [[]]
  | c :: rest =>
      match splitOn separator rest with
      | piece :: pieces => if c =? separator then [] :: piece :: pieces else (c :: piece) :: pieces
      | [] => []
      end
  end.

(** The physical lines: split at each newline; a return before it is dropped. *)
Definition physicalLines (b : bytes) : list bytes := splitOn cNewline b.

Definition dropReturn (line : bytes) : bytes :=
  match last line with Some c => if c =? cReturn then take (length line - 1) line else line | None => line end.

(** The loop over the physical lines, with the logical line so far. *)
Fixpoint unfoldLines (physical : list bytes) (logical : option bytes) (st : Ldif) : option Ldif :=
  match physical with
  | [] => match logical with Some line => consider line st | None => Some st end
  | p :: physical =>
      match p with
      | c :: more =>
          if c =? cSpace then unfoldLines physical (Some (default [] logical ++ more)) st
          else
            st ← match logical with Some line => consider line st | None => Some st end;
            unfoldLines physical (Some p) st
      | [] =>
          st ← match logical with Some line => consider line st | None => Some st end;
          unfoldLines physical (Some p) st
      end
  end.

Definition signedObjectsInLdif (b : bytes) : list bytes :=
  match unfoldLines (map dropReturn (physicalLines b)) None (mkLdif false []) with
  | Some st => if sawDistinguishedName st then found st else []
  | None => []
  end.

Definition masterListsIn (fileBytes : bytes) : list bytes :=
  if isSignedObject fileBytes then [fileBytes]
  else if existsb (Z.eqb 0) fileBytes then []
  else signedObjectsInLdif fileBytes.

(** ** What an export is

    The alphabet of RFC 4648 and the groups of its encoding. *)
Definition alphabet : bytes := Text.bytesOf "ABCDEFGHIJKLMNOPQRSTUVWXYZabcdefghijklmnopqrstuvwxyz0123456789+/".
Definition symbol (n : Z) : Z := default 0 (alphabet !! Z.to_nat n).

Fixpoint encodeBase64 (b : bytes) : bytes :=
  match b with
  | [] => []
  | [x] => [symbol (x / 4); symbol (x mod 4 * 16); cEquals; cEquals]
  | [x; y] => [symbol (x / 4); symbol (x mod 4 * 16 + y / 16); symbol (y mod 16 * 4); cEquals]
  | x :: y :: z :: rest =>
      [symbol (x / 4); symbol (x mod 4 * 16 + y / 16); symbol (y mod 16 * 4 + z / 64); symbol (z mod 64)] ++ encodeBase64 rest
  end.

(** The lines of RFC 2849: blank, a comment, or an attribute with a value as it is, a URL
    or in base64 after any number of spaces. *)
Inductive Line := LBlank | LComment (t : bytes) | LPlain (name t : bytes) | LBase64 (name : bytes) (fill : nat) (b : bytes).

Definition safe (t : bytes) : Prop := Forall (λ c, 0 < c < 128 ∧ c ≠ cNewline ∧ c ≠ cReturn) t.
Definition isName (n : bytes) : Prop := match n with c :: n => isTypeStart c ∧ Forall isTypeChar n | [] => False end.

Definition wellFormed (l : Line) : Prop :=
  match l with
  | LBlank => True
  | LComment t => safe t
  | LPlain n t => isName n ∧ safe t ∧ head t ≠ Some cColon
  | LBase64 n _ b => isName n ∧ Forall is_byte b
  end.

Definition logicalLine (l : Line) : bytes :=
  match l with
  | LBlank => []
  | LComment t => cHash :: t
  | LPlain n t => n ++ [cColon] ++ t
  | LBase64 n fill b => n ++ [cColon; cColon] ++ replicate fill cSpace ++ encodeBase64 b
  end.

(** A line folded into pieces, and how its lines end. *)
Record Folded := mkFolded { line : Line; pieces : list bytes; windows : bool }.

Definition folds (f : Folded) : Prop := wellFormed (line f) ∧ pieces f ≠ [] ∧ concat (pieces f) = logicalLine (line f).

Definition eol (f : Folded) : bytes := if windows f then [cReturn; cNewline] else [cNewline].

Definition printLine (f : Folded) : bytes :=
  match pieces f with
  | [] => []
  | p :: ps => p ++ concat (map (λ p, eol f ++ [cSpace] ++ p) ps) ++ eol f
  end.

Definition printFile (fs : list Folded) : bytes := concat (map printLine fs).

(** What the file is read as. *)
Definition namesEntry (l : Line) : bool :=
  match l with
  | LPlain [a; b] _ | LBase64 [a; b] _ _ => ((a =? 100) || (a =? 68)) && ((b =? 110) || (b =? 78))
  | _ => false
  end.
Definition signedValue (l : Line) : list bytes :=
  match l with LBase64 _ _ b => if isSignedObject b then [b] else [] | _ => [] end.

(** *** Base64 *)

Lemma symbol_digit n : 0 ≤ n < 64 → digit (symbol n) = Some n ∧ symbol n ≠ cEquals ∧ isTrailing (symbol n) = false ∧
  0 < symbol n < 128 ∧ symbol n ≠ cNewline ∧ symbol n ≠ cReturn.
Proof.
  intros Hn. assert (Hall : forallb (λ k, let n := Z.of_nat k in bool_decide (digit (symbol n) = Some n) &&
    negb (symbol n =? cEquals) && negb (isTrailing (symbol n)) && (0 <? symbol n) && (symbol n <? 128) &&
    negb (symbol n =? cNewline) && negb (symbol n =? cReturn)) (seq 0 64) = true) by (by vm_compute).
  rewrite forallb_forall in Hall. specialize (Hall (Z.to_nat n)). cbv zeta in Hall. rewrite Z2Nat.id in Hall by lia.
  assert (Hin : In (Z.to_nat n) (seq 0 64)) by (apply in_seq; lia). specialize (Hall Hin). bool_hyps. split_and!; done || lia.
Qed.

Lemma triple_sum v0 v1 v2 v3 : 0 ≤ v0 < 64 → 0 ≤ v1 < 64 → 0 ≤ v2 < 64 → 0 ≤ v3 < 64 →
  Z.lor (Z.lor (Z.lor (u32 (Z.shiftl v0 18)) (u32 (Z.shiftl v1 12))) (u32 (Z.shiftl v2 6))) v3 =
  v0 * 2 ^ 18 + v1 * 2 ^ 12 + v2 * 2 ^ 6 + v3.
Proof.
  intros. assert (E : ∀ v k, 0 ≤ v < 64 → 0 ≤ k ≤ 18 → u32 (Z.shiftl v k) = Z.shiftl v k).
  { intros v k Hv Hk. apply wrap_small. rewrite Z.shiftl_mul_pow2 by lia. pose proof (Z.pow_le_mono_r 2 k 18). 
    pose proof (Z.pow_pos_nonneg 2 k). nia. }
  rewrite !E by lia. rewrite (Z.lor_comm _ v3), (Z.lor_comm _ (Z.shiftl v2 6)), (Z.lor_comm (Z.shiftl v0 18)).
  rewrite (lor_shiftl (Z.shiftl v1 12) v0 18) by (rewrite ?Z.shiftl_mul_pow2; lia).
  replace (Z.shiftl v1 12 + v0 * 2 ^ 18) with (Z.shiftl (v1 + v0 * 64) 12) by (rewrite !Z.shiftl_mul_pow2; lia).
  rewrite (lor_shiftl (Z.shiftl v2 6) (v1 + v0 * 64) 12) by (rewrite ?Z.shiftl_mul_pow2; lia).
  replace (Z.shiftl v2 6 + (v1 + v0 * 64) * 2 ^ 12) with (Z.shiftl (v2 + v1 * 64 + v0 * 4096) 6) by (rewrite !Z.shiftl_mul_pow2; lia).
  rewrite (lor_shiftl v3) by lia. lia.
Qed.

(** The octets of 24 bits. *)
Lemma octets_of x y z : is_byte x → is_byte y → is_byte z →
  Z.land (Z.shiftr (x * 65536 + y * 256 + z) 16) 0xFF = x ∧ Z.land (Z.shiftr (x * 65536 + y * 256 + z) 8) 0xFF = y ∧
  Z.land (x * 65536 + y * 256 + z) 0xFF = z.
Proof.
  unfold is_byte. intros Hx Hy Hz. change 0xFF with (Z.ones 8). rewrite !Z.land_ones, !Z.shiftr_div_pow2 by lia.
  split_and!; Z.to_euclidean_division_equations; lia.
Qed.

Lemma symbol_bound x : is_byte x → 0 ≤ x / 4 < 64 ∧ 0 ≤ x mod 4 * 16 < 64 ∧ 0 ≤ x mod 64 < 64 ∧ 0 ≤ x mod 16 * 4 < 64.
Proof. unfold is_byte. intros. Z.to_euclidean_division_equations; lia. Qed.

Lemma symbol_bound2 x y : is_byte x → is_byte y → 0 ≤ x mod 4 * 16 + y / 16 < 64 ∧ 0 ≤ x mod 16 * 4 + y / 64 < 64.
Proof. unfold is_byte. intros. Z.to_euclidean_division_equations; lia. Qed.

(** A group of symbols, the last of which may be padding. *)
Lemma readGroup_symbols final j vs values : Forall (λ v, 0 ≤ v < 64) vs →
  readGroup final j (map symbol vs) values 0 = Some (values ++ vs, 0%nat).
Proof.
  intros Hvs. revert j values. induction Hvs as [|v vs Hv Hvs IH]; intros j values; cbn; [by rewrite app_nil_r|].
  destruct (symbol_digit v Hv) as (E1&E2&_). apply Z.eqb_neq in E2. rewrite E2, E1. cbn. rewrite IH. by rewrite <- app_assoc.
Qed.

Lemma groupBytes_ok x y z v0 v1 v2 v3 padding : is_byte x → is_byte y → is_byte z →
  0 ≤ v0 < 64 → 0 ≤ v1 < 64 → 0 ≤ v2 < 64 → 0 ≤ v3 < 64 → v0 * 2 ^ 18 + v1 * 2 ^ 12 + v2 * 2 ^ 6 + v3 = x * 65536 + y * 256 + z →
  groupBytes [v0; v1; v2; v3] padding = x :: (if (padding <? 2)%nat then [y] else []) ++ (if (padding <? 1)%nat then [z] else []).
Proof.
  intros Hx Hy Hz ???? E. unfold groupBytes. cbn [lookup list_lookup default from_option id]. cbv zeta. rewrite triple_sum, E by done.
  destruct (octets_of x y z Hx Hy Hz) as (->&->&->). done.
Qed.

#[local] Arguments groupBytes : simpl never.

Lemma decodeGroups_encode b : Forall is_byte b → decodeGroups (encodeBase64 b) = Some b.
Proof.
  remember (length b) as n eqn:Hn. revert b Hn. induction (lt_wf n) as [n _ IH]. intros b -> Hb.
  destruct b as [|x [|y [|z b]]]; [done|..]; cbn [encodeBase64 app decodeGroups].
  - apply Forall_cons in Hb as [Hx _]. destruct (symbol_bound x Hx) as (?&?&_).
    rewrite bool_decide_eq_true_2 by done.
    destruct (symbol_digit (x / 4)) as (E1&E1'&_); [done|]. destruct (symbol_digit (x mod 4 * 16)) as (E2&E2'&_); [done|].
    cbn. apply Z.eqb_neq in E1', E2'. rewrite E1', E1, E2'. cbn. rewrite E2. cbn. 
    rewrite (groupBytes_ok x 0 0); try done; try lia. unfold is_byte in *. Z.to_euclidean_division_equations; lia.
  - apply Forall_cons in Hb as [Hx [Hy _]%Forall_cons]. destruct (symbol_bound x Hx) as (?&_), (symbol_bound y Hy) as (_&_&_&?).
    destruct (symbol_bound2 x y Hx Hy) as [? _]. rewrite bool_decide_eq_true_2 by done.
    destruct (symbol_digit (x / 4)) as (E1&E1'&_); [done|]. destruct (symbol_digit (x mod 4 * 16 + y / 16)) as (E2&E2'&_); [done|].
    destruct (symbol_digit (y mod 16 * 4)) as (E3&E3'&_); [done|].
    cbn. apply Z.eqb_neq in E1', E2', E3'. rewrite E1', E1, E2'. cbn. rewrite E2. cbn. rewrite E3', E3. cbn.
    rewrite (groupBytes_ok x y 0); try done; try lia. unfold is_byte in *. Z.to_euclidean_division_equations; lia.
  - apply Forall_cons in Hb as [Hx [Hy [Hz Hb]%Forall_cons]%Forall_cons].
    destruct (symbol_bound x Hx) as (?&_), (symbol_bound z Hz) as (_&_&?&_).
    destruct (symbol_bound2 x y Hx Hy) as [? _], (symbol_bound2 y z Hy Hz) as [_ ?].
    change [symbol (x / 4); symbol (x mod 4 * 16 + y / 16); symbol (y mod 16 * 4 + z / 64); symbol (z mod 64)]
      with (map symbol [x / 4; x mod 4 * 16 + y / 16; y mod 16 * 4 + z / 64; z mod 64]).
    rewrite readGroup_symbols by (do 4 (constructor; [done|]); constructor). cbn [mbind option_bind]. rewrite (IH (length b)); [|cbn; lia|done|done].
    cbn [mbind option_bind]. rewrite app_nil_l, (groupBytes_ok x y z); try done.
    unfold is_byte in *. Z.to_euclidean_division_equations; lia.
Qed.

Lemma encodeBase64_length b : (length (encodeBase64 b) mod 4 = 0)%nat.
Proof.
  remember (length b) as n eqn:Hn. revert b Hn. induction (lt_wf n) as [n _ IH]. intros b ->.
  destruct b as [|x [|y [|z b]]]; [done..|]. cbn [encodeBase64]. rewrite length_app.
  change (length [_; _; _; _]) with 4%nat. rewrite <- Nat.Div0.add_mod_idemp_r, (IH (length b)); [done|cbn; lia|done].
Qed.

Lemma decode_encode_base64 b : b ≠ [] → Forall is_byte b → decodeBase64 (encodeBase64 b) = Some b.
Proof.
  intros Hne Hb. unfold decodeBase64. rewrite encodeBase64_length, decodeGroups_encode by done.
  rewrite bool_decide_eq_false_2; [done|]. by destruct b as [|x [|y [|z b]]].
Qed.

(** *** Lines *)

Lemma splitOn_ne sep b : splitOn sep b ≠ [].
Proof. induction b as [|c b IH]; [done|]. cbn. destruct (splitOn sep b); [done|]. by destruct (c =? sep). Qed.

Lemma splitOn_cons sep p rest : Forall (λ c, c ≠ sep) p → splitOn sep (p ++ sep :: rest) = p :: splitOn sep rest.
Proof.
  intros Hp. induction Hp as [|c p Hc Hp IH]; cbn [app splitOn].
  - destruct (splitOn sep rest) eqn:E; [by destruct (splitOn_ne sep rest)|]. by rewrite Z.eqb_refl.
  - rewrite IH. apply Z.eqb_neq in Hc. by rewrite Hc.
Qed.

Lemma splitOn_whole sep p : Forall (λ c, c ≠ sep) p → splitOn sep p = [p].
Proof. intros Hp. induction Hp as [|c p Hc Hp IH]; [done|]. cbn [splitOn]. rewrite IH. apply Z.eqb_neq in Hc. by rewrite Hc. Qed.

Lemma physicalLines_cons p rest : Forall (λ c, c ≠ cNewline) p → physicalLines (p ++ cNewline :: rest) = p :: physicalLines rest.
Proof. apply splitOn_cons. Qed.

Lemma dropReturn_safe p : Forall (λ c, c ≠ cReturn) p → dropReturn p = p.
Proof.
  intros Hp. unfold dropReturn. destruct (last p) as [c|] eqn:E; [|done]. apply last_Some_elem_of in E.
  rewrite Forall_forall in Hp. by rewrite (proj2 (Z.eqb_neq _ _) (Hp c E)).
Qed.

Lemma dropReturn_app p : dropReturn (p ++ [cReturn]) = p.
Proof. unfold dropReturn. rewrite last_snoc, length_app. cbn. rewrite Nat.add_sub. apply take_app_length. Qed.

(** The physical lines of a folded line. *)
Definition physicalOf (f : Folded) : list bytes :=
  match pieces f with [] => [] | p :: ps => p :: map (cons cSpace) ps end.

Lemma lines_eol f p rest : safe p →
  map dropReturn (physicalLines (p ++ eol f ++ rest)) = p :: map dropReturn (physicalLines rest).
Proof.
  intros Hp. assert (Hn : Forall (λ c, c ≠ cNewline) p) by (eapply Forall_impl; [exact Hp | by intros c (_&?&_)]).
  assert (Hr : Forall (λ c, c ≠ cReturn) p) by (eapply Forall_impl; [exact Hp | by intros c (_&_&?)]).
  unfold eol. destruct (windows f); cbn [app].
  - change (cReturn :: cNewline :: rest) with ([cReturn] ++ cNewline :: rest). rewrite app_assoc, physicalLines_cons; [|apply Forall_app; split; [done|by constructor]].
    cbn. by rewrite dropReturn_app.
  - rewrite physicalLines_cons by done. cbn. by rewrite dropReturn_safe.
Qed.

Lemma lines_printed f rest : pieces f ≠ [] → Forall safe (pieces f) →
  map dropReturn (physicalLines (printLine f ++ rest)) = physicalOf f ++ map dropReturn (physicalLines rest).
Proof.
  intros Hne Hs. unfold printLine, physicalOf. destruct (pieces f) as [|p ps]; [done|]. clear Hne.
  apply Forall_cons in Hs as [Hp Hps]. rewrite <- !app_assoc. revert p Hp.
  induction Hps as [|q ps Hq Hps IH]; intros p Hp; cbn [map concat app].
  - by rewrite lines_eol.
  - rewrite <- !app_assoc, lines_eol by done. cbn [app]. f_equal. specialize (IH (cSpace :: q)). cbn [app] in IH. rewrite IH; [done|].
    constructor; [done|exact Hq].
Qed.

Definition flush (logical : option bytes) (st : Ldif) : option Ldif :=
  match logical with Some l => consider l st | None => Some st end.

Lemma unfold_continued ps more l st :
  unfoldLines (map (cons cSpace) ps ++ more) (Some l) st = unfoldLines more (Some (l ++ concat ps)) st.
Proof.
  revert l. induction ps as [|p ps IH]; intros l; cbn; [by rewrite app_nil_r|]. rewrite IH. by rewrite app_assoc.
Qed.

Lemma unfold_first p more logical st : head p ≠ Some cSpace →
  unfoldLines (p :: more) logical st = flush logical st ≫= unfoldLines more (Some p).
Proof. intros Hp. destruct p as [|c p]; [done|]. cbn. destruct (c =? cSpace) eqn:E; [|done]. bool_hyps. by subst. Qed.

Lemma name_char c : isTypeChar c → c ≠ cColon ∧ c ≠ cHash ∧ 0 < c < 128 ∧ c ≠ cNewline ∧ c ≠ cReturn ∧ c ≠ cSpace.
Proof.
  unfold isTypeChar, isTypeStart, isLower, isUpper, isDigit, between, cColon, cHash, cNewline, cReturn, cSpace.
  intros H. apply Is_true_true in H. repeat (apply orb_true_iff in H as [H|H]); bool_hyps; lia.
Qed.

Lemma start_char c : isTypeStart c → isTypeChar c.
Proof. unfold isTypeChar. intros H. by destruct (isTypeStart c). Qed.

Lemma isName_chars n : isName n → Forall isTypeChar n.
Proof. destruct n as [|c n]; [done|]. intros [? ?]. constructor; [by apply start_char|done]. Qed.

Lemma encode_chars b : Forall is_byte b → Forall (λ c, isTrailing c = false ∧ 0 < c < 128 ∧ c ≠ cNewline ∧ c ≠ cReturn) (encodeBase64 b).
Proof.
  remember (length b) as n eqn:Hn. revert b Hn. induction (lt_wf n) as [n _ IH]. intros b -> Hb.
  assert (Hsym : ∀ v, 0 ≤ v < 64 → isTrailing (symbol v) = false ∧ 0 < symbol v < 128 ∧ symbol v ≠ cNewline ∧ symbol v ≠ cReturn)
    by (intros v Hv; by destruct (symbol_digit v Hv) as (_&_&?&?)).
  destruct b as [|x [|y [|z b]]]; [done|..]; cbn [encodeBase64 app].
  - apply Forall_cons in Hb as [Hx _]. destruct (symbol_bound x Hx) as (?&?&_).
    do 2 (constructor; [by apply Hsym|]). by do 2 (constructor; [done|]).
  - apply Forall_cons in Hb as [Hx [Hy _]%Forall_cons]. destruct (symbol_bound x Hx) as (?&_), (symbol_bound y Hy) as (_&_&_&?).
    destruct (symbol_bound2 x y Hx Hy) as [? _]. do 3 (constructor; [by apply Hsym|]). by constructor.
  - apply Forall_cons in Hb as [Hx [Hy [Hz Hb]%Forall_cons]%Forall_cons].
    destruct (symbol_bound x Hx) as (?&_), (symbol_bound z Hz) as (_&_&?&_).
    destruct (symbol_bound2 x y Hx Hy) as [? _], (symbol_bound2 y z Hy Hz) as [_ ?].
    do 4 (constructor; [by apply Hsym|]). apply (IH (length b)); [cbn; lia|done|done].
Qed.

Lemma logical_safe l : wellFormed l → safe (logicalLine l) ∧ head (logicalLine l) ≠ Some cSpace.
Proof.
  assert (Hn : ∀ n rest, isName n → safe rest → safe (n ++ rest) ∧ head (n ++ rest) ≠ Some cSpace).
  { intros n rest Hn Hr. split.
    - apply Forall_app. split; [|done]. eapply Forall_impl; [by apply isName_chars|]. intros c Hc. destruct (name_char c Hc) as (_&_&H1&H2&H3&_). exact (conj H1 (conj H2 H3)).
    - destruct n as [|c n]; [done|]. destruct Hn as [Hc _]. cbn. intros [= ->]. by destruct (name_char _ (start_char _ Hc)) as (_&_&_&_&_&?). }
  destruct l as [|t|n t|n fill b]; cbn [wellFormed logicalLine]; intros Hw.
  - by split; [constructor|].
  - split; [|done]. by constructor.
  - destruct Hw as (?&?&_). apply Hn; [done|]. by constructor.
  - destruct Hw as [? Hb]. apply Hn; [done|]. do 2 (constructor; [done|]). apply Forall_app. split.
    + apply Forall_replicate. done.
    + eapply Forall_impl; [by apply encode_chars|]. by intros c (_&?).
Qed.

(** *** Reading a line *)

Lemma trimFront_fill fill t : head t ≠ Some cSpace → head t ≠ Some cTab → trimFront (replicate fill cSpace ++ t) = t.
Proof.
  intros H1 H2. induction fill as [|fill IH]; cbn; [|done]. destruct t as [|c t]; [done|]. cbn.
  destruct (c =? cSpace) eqn:E1, (c =? cTab) eqn:E2; cbn; bool_hyps; subst; done.
Qed.

Lemma trimBack_none t : Forall (λ c, isTrailing c = false) t → trimBack t = t.
Proof. intros Ht. induction Ht as [|c t Hc Ht IH]; [done|]. cbn. rewrite IH. destruct t; [by rewrite Hc|done]. Qed.

Lemma find_colon n t : Forall isTypeChar n → list_find (λ c, c = cColon) (n ++ cColon :: t) = Some (length n, cColon).
Proof.
  intros Hn. apply list_find_Some. split_and!.
  - rewrite lookup_app_r by lia. by rewrite Nat.sub_diag.
  - done.
  - intros j c Hj Hlt. rewrite lookup_app_l in Hj by done. apply list_elem_of_lookup_2 in Hj. rewrite Forall_forall in Hn.
    by apply name_char, Hn.
Qed.

(** An attribute is read up to its value. *)
Lemma consider_attr n t st : isName n → consider (n ++ cColon :: t) st =
  let st := mkLdif (match n with [a; b] => ((a =? 100) || (a =? 68)) && ((b =? 110) || (b =? 78)) | _ => false end || sawDistinguishedName st)
              (found st) in
  match t with
  | c :: t => if c =? cColon then
      match decodeBase64 (trimBack (trimFront t)) with
      | Some d => Some (if isSignedObject d then mkLdif (sawDistinguishedName st) (found st ++ [d]) else st)
      | None => Some st
      end else Some st
  | [] => Some st
  end.
Proof.
  intros Hn. pose proof (isName_chars n Hn) as Hall. destruct n as [|c n]; [done|]. destruct Hn as [Hc Hn].
  destruct (name_char c (start_char c Hc)) as (_&Hh&_). apply Z.eqb_neq in Hh. unfold consider. cbn [app]. rewrite Hh.
  change (c :: n ++ cColon :: t) with ((c :: n) ++ cColon :: t). rewrite find_colon by done. cbn [length].
  apply Is_true_true in Hc. rewrite Hc. cbn [Nat.ltb Nat.leb orb negb].
  assert (forallb isTypeChar (take (S (length n) - 1) (drop 1 ((c :: n) ++ cColon :: t))) = true) as ->.
  { change (drop 1 ((c :: n) ++ cColon :: t)) with (n ++ cColon :: t).
    replace (S (length n) - 1)%nat with (length n) by lia. rewrite take_app_length.
    apply forallb_forall. intros x Hx. apply Is_true_true. rewrite Forall_forall in Hn. apply Hn. by apply list_elem_of_In. }
  cbn [negb].
  assert (E1 : ((c :: n) ++ cColon :: t) !! S (S (length n)) = head t).
  { rewrite lookup_app_r by (cbn; lia). cbn [length]. replace (S (S (length n)) - S (length n))%nat with 1%nat by lia. by destruct t. }
  assert (E2 : drop (S (S (S (length n)))) ((c :: n) ++ cColon :: t) = tail t).
  { rewrite drop_app_ge by (cbn; lia). cbn [length]. replace (S (S (S (length n))) - S (length n))%nat with 2%nat by lia. by destruct t. }
  rewrite E1, E2.
  assert (E3 : (S (length n) =? 2)%nat && (let c0 := default 0 (((c :: n) ++ cColon :: t) !! 0%nat) in (c0 =? 100) || (c0 =? 68)) &&
      (let c0 := default 0 (((c :: n) ++ cColon :: t) !! 1%nat) in (c0 =? 110) || (c0 =? 78)) =
    match c :: n with [a; b] => ((a =? 100) || (a =? 68)) && ((b =? 110) || (b =? 78)) | _ => false end).
  { by destruct n as [|b [|b' n]]. }
  cbv zeta in E3 |- *. rewrite E3. destruct t as [|x t]; [done|]. cbn [head default from_option tail id]. by destruct (x =? cColon).
Qed.

Lemma consider_line l st : wellFormed l →
  consider (logicalLine l) st = Some (mkLdif (namesEntry l || sawDistinguishedName st) (found st ++ signedValue l)).
Proof.
  destruct l as [|t|n t|n fill b]; cbn [wellFormed logicalLine signedValue namesEntry]; intros Hw; rewrite ?app_nil_r.
  - by destruct st.
  - by destruct st.
  - destruct Hw as (Hn&_&Ht). cbn [app]. rewrite consider_attr by done. cbv zeta.
    destruct t as [|c t]; [done|]. destruct (c =? cColon) eqn:E; [|done]. bool_hyps. by subst.
  - destruct Hw as [Hn Hb]. cbn [app]. rewrite consider_attr by done. cbv zeta. rewrite Z.eqb_refl.
    pose proof (encode_chars b Hb) as He. rewrite trimFront_fill; [..|]; cycle 1.
    { destruct (encodeBase64 b) as [|c e]; [done|]. apply Forall_cons in He as [[Hc _] _]. cbn. intros [= ->]. done. }
    { destruct (encodeBase64 b) as [|c e]; [done|]. apply Forall_cons in He as [[Hc _] _]. cbn. intros [= ->]. done. }
    rewrite trimBack_none by (eapply Forall_impl; [exact He | by intros c [? _]]).
    destruct (decide (b = [])) as [->|Hne]; [by rewrite app_nil_r|]. rewrite decode_encode_base64 by done.
    by destruct (isSignedObject b); rewrite ?app_nil_r.
Qed.

(** ** The export is read as what it is *)

Lemma unfold_file fs logical st : Forall folds fs → 
  unfoldLines (concat (map physicalOf fs) ++ [[]]) logical st =
  st ← flush logical st;
  Some (mkLdif (existsb (namesEntry ∘ line) fs || sawDistinguishedName st) (found st ++ concat (map (signedValue ∘ line) fs))).
Proof.
  intros Hf. revert logical st. induction Hf as [|f fs (Hw&Hne&Hc) Hf IH]; intros logical st; cbn [map concat existsb].
  - cbn [app]. rewrite unfold_first by done. destruct (flush logical st) as [[]|]; cbn; by rewrite ?app_nil_r.
  - unfold physicalOf. destruct (pieces f) as [|p ps] eqn:Ep; [done|]. rewrite <- app_assoc. cbn [app].
    destruct (logical_safe _ Hw) as [Hs Hh].
    rewrite unfold_first; cycle 1. { destruct p as [|c p]; [done|]. rewrite <- Hc in Hh. done. }
    destruct (flush logical st) as [st'|]; [|done]. cbn [mbind option_bind]. rewrite unfold_continued. rewrite IH.
    change (p ++ concat ps) with (concat (p :: ps)). rewrite Hc. cbn [flush]. rewrite consider_line by done.
    cbn [mbind option_bind sawDistinguishedName found]. cbn [compose]. rewrite <- app_assoc. do 2 f_equal.
    by destruct (namesEntry (line f)), (existsb (namesEntry ∘ line) fs).
Qed.

Lemma printFile_lines fs : Forall folds fs →
  map dropReturn (physicalLines (printFile fs)) = concat (map physicalOf fs) ++ [[]].
Proof.
  intros Hf. induction Hf as [|f fs (Hw&Hne&Hc) Hf IH]; [done|]. unfold printFile. cbn [map concat]. rewrite lines_printed; [|done|].
  - fold (printFile fs). rewrite IH. apply app_assoc.
  - destruct (logical_safe _ Hw) as [Hs _]. rewrite <- Hc in Hs. clear -Hs. induction (pieces f) as [|p ps IH]; [done|].
    cbn in Hs. apply Forall_app in Hs as [? ?]. constructor; auto.
Qed.

Lemma printFile_ascii fs : Forall folds fs → Forall (λ c, 0 < c < 128) (printFile fs).
Proof.
  intros Hf. apply Forall_concat, Forall_map. eapply Forall_impl; [exact Hf|]. intros f (Hw&_&Hc).
  destruct (logical_safe _ Hw) as [Hs _]. rewrite <- Hc in Hs.
  assert (He : Forall (λ c, 0 < c < 128) (eol f)) by (unfold eol, cReturn, cNewline; destruct (windows f); repeat constructor; lia).
  assert (Hp : ∀ ps, safe (concat ps) → Forall (λ c, 0 < c < 128) (concat (map (λ p, eol f ++ [cSpace] ++ p) ps))).
  { intros ps. induction ps as [|p ps IH]; cbn; intros H; [done|]. apply Forall_app in H as [Hp Hps].
    repeat apply Forall_app_2; [done| |by apply IH]. constructor; [done|]. eapply Forall_impl; [exact Hp | by intros c [? _]]. }
  unfold printLine. destruct (pieces f) as [|p ps]; [done|]. cbn in Hs. apply Forall_app in Hs as [Hs Hps].
  repeat apply Forall_app_2; [eapply Forall_impl; [exact Hs | by intros c [? _]] | by apply Hp | done].
Qed.

(** A signed object is no text. *)
Lemma text_unsigned b : Forall (λ c, 0 < c < 128) b → isSignedObject b = false.
Proof.
  intros Hb. unfold isSignedObject. destruct (_ <? _)%nat; [done|]. destruct (negb _); [done|].
  destruct (contentAt b) as [h|]; [|done]. destruct (_ <? _)%nat; [done|]. case_bool_decide as E; [|done].
  assert (H86 : 0x86 ∈ b).
  { rewrite <- (take_drop h b), <- (take_drop (length kSignedDataOid) (drop h b)), E.
    apply elem_of_app. right. apply elem_of_app. left. unfold kSignedDataOid. set_solver. }
  rewrite Forall_forall in Hb. specialize (Hb _ H86). lia.
Qed.

(** A directory export, written by the grammar of RFC 2849 with any folding of its
    lines, is read as its signed objects, in their order and each as it was encoded,
    whatever attributes carry them; without an entry that names itself it is read as
    nothing. *)
Theorem export_read_exact fs : Forall folds fs →
  masterListsIn (printFile fs) = if existsb (namesEntry ∘ line) fs then concat (map (signedValue ∘ line) fs) else [].
Proof.
  intros Hf. unfold masterListsIn. pose proof (printFile_ascii fs Hf) as Ha. rewrite text_unsigned by done.
  assert (existsb (Z.eqb 0) (printFile fs) = false) as ->.
  { apply not_true_is_false. intros (x&Hx&E)%existsb_exists. apply list_elem_of_In in Hx. rewrite Forall_forall in Ha.
    specialize (Ha x Hx). bool_hyps. lia. }
  unfold signedObjectsInLdif. rewrite printFile_lines, unfold_file by done. cbn. by rewrite orb_false_r.
Qed.

(** An entry, a value that is no signed object, and a list folded at its twentieth byte. *)
Definition sampleObject : bytes := 0x30 :: 0x0b :: kSignedDataOid.
Definition sampleExport : list Folded :=
  let list_ := LBase64 (Text.bytesOf "pkdMasterListContent;binary") 1 sampleObject in
  [mkFolded (LPlain (Text.bytesOf "DN") (Text.bytesOf " c=AA")) [Text.bytesOf "DN: c=AA"] false;
   mkFolded (LBase64 (Text.bytesOf "cn") 0 [200; 1]) [logicalLine (LBase64 (Text.bytesOf "cn") 0 [200; 1])] false;
   mkFolded list_ [take 20 (logicalLine list_); drop 20 (logicalLine list_)] true].

Lemma export_read_exact_witness : masterListsIn (printFile sampleExport) = [sampleObject].
Proof.
  rewrite (export_read_exact sampleExport); [by vm_compute|].
  repeat constructor; try (by vm_compute); try (by vm_compute; lia).
Defined.

End MasterLists.
