(* ===== verification/TextFiles.v ===== *)
(** * Text files

    What the state file of the anchors and the configuration file share: decimal numbers as
    [std::to_string] writes them, and lines as [std::getline] reads them. *)
From S2P Require Import Prelude Text MasterLists.
Local Open Scope Z_scope.

Module TextFiles.
Import MasterLists.

(** ** Numbers *)

Definition cMinus : Z := 45.

Definition decimalValue (t : bytes) : Z := foldl (λ n c, n * 10 + (c - 48)) 0 t.

Definition fitsInt64 (n : Z) : bool := (- 2 ^ 63 <=? n) && (n <? 2 ^ 63).

Definition wholeInteger (value : bytes) : option Z :=
  let negative := bool_decide (head value = Some cMinus) in
  let digits := if negative then tail value else value in
  if bool_decide (digits = []) || negb (forallb isDigit digits) then None
  else
    let parsed := if negative then - decimalValue digits else decimalValue digits in
    if fitsInt64 parsed then Some parsed else None.

(** [std::to_string]. *)
Fixpoint decimalDigits (fuel : nat) (n : Z) : bytes :=
  match fuel with
  | O => []
  | S fuel => if n <? 10 then [48 + n] else decimalDigits fuel (n / 10) ++ [48 + n mod 10]
  end.
Definition toString (n : Z) : bytes :=
  (if n <? 0 then [cMinus] else []) ++ decimalDigits (S (Z.to_nat (Z.log2 (Z.abs n)))) (Z.abs n).

(** ** Lines *)

(** [std::getline]: what follows the last separator is a piece only if it is not empty. *)
Definition getLines (separator : Z) (b : bytes) : list bytes :=
  let ls := splitOn separator b in
  if bool_decide (last ls = Some []) then take (length ls - 1) ls else ls.

Definition fileLines (b : bytes) : list bytes := getLines cNewline b.

(** ** The values of the C++ types *)

Definition int64 (n : Z) : Prop := - 2 ^ 63 ≤ n < 2 ^ 63.
Definition uint32 (n : Z) : Prop := 0 ≤ n < 2 ^ 32.

(** ** What is written is read *)

Lemma decimalValue_snoc t c : decimalValue (t ++ [c]) = decimalValue t * 10 + (c - 48).
Proof. unfold decimalValue. by rewrite foldl_app. Qed.

Lemma decimalDigits_value fuel n : 0 ≤ n < 10 ^ Z.of_nat fuel → decimalValue (decimalDigits fuel n) = n.
Proof.
  revert n. induction fuel as [|fuel IH]; intros n Hn; [cbn in Hn; cbn; lia|].
  cbn [decimalDigits]. case_match eqn:E; [cbn; lia|]. apply Z.ltb_ge in E.
  rewrite decimalValue_snoc, IH; [|rewrite Nat2Z.inj_succ, Z.pow_succ_r in Hn by lia; split; [apply Z.div_pos; lia|apply Z.div_lt_upper_bound; lia]].
  pose proof (Z.div_mod n 10). lia.
Qed.

Lemma decimalDigits_digits fuel n : 0 ≤ n → Forall (λ c, 48 ≤ c ≤ 57) (decimalDigits fuel n).
Proof.
  revert n. induction fuel as [|fuel IH]; intros n Hn; [constructor|]. cbn [decimalDigits]. case_match eqn:E.
  - apply Z.ltb_lt in E. constructor; [lia|constructor].
  - apply Forall_app; split; [apply IH, Z.div_pos; lia|]. pose proof (Z.mod_pos_bound n 10). constructor; [lia|constructor].
Qed.

Lemma decimalDigits_ne fuel n : decimalDigits (S fuel) n ≠ [].
Proof. cbn. case_match; [done|]. by destruct (decimalDigits fuel _). Qed.

(** The digits [toString] writes after the sign. *)
Definition magnitude (n : Z) : bytes := decimalDigits (S (Z.to_nat (Z.log2 (Z.abs n)))) (Z.abs n).

Lemma magnitude_value n : decimalValue (magnitude n) = Z.abs n.
Proof.
  apply decimalDigits_value. split; [lia|]. rewrite Nat2Z.inj_succ, Z2Nat.id by apply Z.log2_nonneg.
  destruct (Z.eq_dec (Z.abs n) 0) as [->|]; [done|].
  eapply Z.lt_le_trans; [apply (Z.log2_spec (Z.abs n)); lia|]. apply Z.pow_le_mono_l. lia.
Qed.

Lemma magnitude_digits n : Forall (λ c, 48 ≤ c ≤ 57) (magnitude n).
Proof. apply decimalDigits_digits. lia. Qed.

Lemma isDigit_iff c : isDigit c = true ↔ 48 ≤ c ≤ 57.
Proof. unfold isDigit, between. rewrite andb_true_iff, !Z.leb_le. lia. Qed.

Lemma digits_forallb t : Forall (λ c, 48 ≤ c ≤ 57) t → forallb isDigit t = true.
Proof. intros Ht. apply forallb_forall. intros c Hc. rewrite List.Forall_forall in Ht. by apply isDigit_iff, Ht. Qed.

Lemma digits_head t : Forall (λ c, 48 ≤ c ≤ 57) t → head t ≠ Some cMinus.
Proof. unfold cMinus. destruct t; [done|]. intros [? _]%Forall_cons [= ->]. lia. Qed.

Lemma toString_form n : toString n = (if n <? 0 then [cMinus] else []) ++ magnitude n.
Proof. done. Qed.

Lemma toString_chars n : Forall (λ c, c = cMinus ∨ 48 ≤ c ≤ 57) (toString n).
Proof.
  rewrite toString_form. apply Forall_app; split; [case_match; repeat constructor|].
  eapply Forall_impl; [apply magnitude_digits|]. auto.
Qed.

Lemma toString_plain n c : (c < cMinus) → Forall (λ d, d ≠ c) (toString n).
Proof. intros Hc. eapply Forall_impl; [apply toString_chars|]. unfold cMinus in *. cbn. lia. Qed.

Lemma decimalValue_acc t n : foldl (λ n c, n * 10 + (c - 48)) n t = n * 10 ^ zlen t + decimalValue t.
Proof.
  unfold decimalValue. revert n. induction t as [|c t IH]; intros n; [cbn; lia|]. cbn [foldl]. rewrite IH, (IH (0 * 10 + (c - 48))).
  cbn [length]. rewrite Nat2Z.inj_succ, Z.pow_succ_r by lia. lia.
Qed.

Lemma decimalValue_cons c t : decimalValue (c :: t) = (c - 48) * 10 ^ zlen t + decimalValue t.
Proof. unfold decimalValue at 1. cbn [foldl]. rewrite decimalValue_acc. lia. Qed.

Lemma decimalValue_bounds t : Forall (λ c, 48 ≤ c ≤ 57) t → 0 ≤ decimalValue t < 10 ^ zlen t.
Proof.
  intros Ht. induction Ht as [|c t Hc Ht IH]; [cbn; lia|]. rewrite decimalValue_cons. cbn [length].
  rewrite Nat2Z.inj_succ, Z.pow_succ_r by lia. nia.
Qed.

Lemma wholeInteger_toString n : int64 n → wholeInteger (toString n) = Some n.
Proof.
  intros Hn. rewrite toString_form. unfold wholeInteger. pose proof (magnitude_digits n) as Hd.
  pose proof (decimalDigits_ne (Z.to_nat (Z.log2 (Z.abs n))) (Z.abs n) : magnitude n ≠ []) as Hne.
  destruct (n <? 0) eqn:E; cbn [app head tail].
  - rewrite (bool_decide_eq_true_2 (Some cMinus = Some cMinus)) by done. rewrite bool_decide_eq_false_2, digits_forallb by done. cbn [orb negb].
    rewrite magnitude_value. apply Z.ltb_lt in E. replace (- Z.abs n) with n by lia.
    unfold fitsInt64. unfold int64 in Hn. by rewrite (proj2 (Z.leb_le _ _)), (proj2 (Z.ltb_lt _ _)) by lia.
  - rewrite (bool_decide_eq_false_2 (head (magnitude n) = Some cMinus)) by by apply digits_head. rewrite bool_decide_eq_false_2, digits_forallb by done. cbn [orb negb].
    rewrite magnitude_value. apply Z.ltb_ge in E. replace (Z.abs n) with n by lia.
    unfold fitsInt64. unfold int64 in Hn. by rewrite (proj2 (Z.leb_le _ _)), (proj2 (Z.ltb_lt _ _)) by lia.
Qed.

Lemma getLines_printed sep ls : Forall (Forall (λ c, c ≠ sep)) ls → getLines sep (concat (map (λ l, l ++ [sep]) ls)) = ls.
Proof.
  intros Hl. assert (splitOn sep (concat (map (λ l, l ++ [sep]) ls)) = ls ++ [[]]) as E.
  { induction Hl as [|l ls Hl _ IH]; [done|]. cbn [map concat]. rewrite <- app_assoc. cbn [app]. rewrite splitOn_cons, IH by done. done. }
  unfold getLines. rewrite E, last_snoc, bool_decide_eq_true_2 by done. rewrite length_app. cbn. rewrite Nat.add_sub. apply take_app_length.
Qed.

Lemma fileLines_printed ls : Forall (Forall (λ c, c ≠ cNewline)) ls → fileLines (concat (map (λ l, l ++ [cNewline]) ls)) = ls.
Proof. apply getLines_printed. Qed.

(** The first equals sign is the one after a key. *)
Lemma find_equals key value : Forall (λ c, c ≠ cEquals) key →
  list_find (λ c, c = cEquals) (key ++ [cEquals] ++ value) = Some (length key, cEquals) ∧
  take (length key) (key ++ [cEquals] ++ value) = key ∧ drop (S (length key)) (key ++ [cEquals] ++ value) = value.
Proof.
  intros Hk. split; [|split].
  - apply list_find_Some. split; [|split; [done|]].
    + rewrite lookup_app_r by done. by rewrite Nat.sub_diag.
    + intros j y Hj Hlt. rewrite lookup_app_l in Hj by done. rewrite Forall_forall in Hk. by eapply Hk, list_elem_of_lookup_2.
  - apply take_app_length.
  - change ([cEquals] ++ value) with (cEquals :: value). rewrite (drop_app_ge _ _ (S _)) by lia. by rewrite Nat.sub_succ_l, Nat.sub_diag by done.
Qed.

(** Pieces with separators between them. *)
Fixpoint joined (sep : Z) (ps : list bytes) : bytes :=
  match ps with [] => [] | [p] => p | p :: ps => p ++ [sep] ++ joined sep ps end.

Lemma splitOn_joined sep ps : ps ≠ [] → Forall (Forall (λ c, c ≠ sep)) ps → splitOn sep (joined sep ps) = ps.
Proof.
  intros Hne Hp. induction Hp as [|p ps Hp Hps IH]; [done|]. destruct ps as [|q ps]; [by apply splitOn_whole|].
  cbn [joined app]. rewrite splitOn_cons by done. f_equal. by apply IH.
Qed.

Lemma getLines_joined sep ps : ps ≠ [] → Forall (Forall (λ c, c ≠ sep)) ps → last ps ≠ Some [] → getLines sep (joined sep ps) = ps.
Proof. intros. unfold getLines. rewrite splitOn_joined by done. by rewrite bool_decide_eq_false_2. Qed.

End TextFiles.
