(* ===== verification/Storage.v ===== *)
(** * Programs over a disk

    What the anchor store and the configuration store share: programs of operations on a
    disk of which any may fail, or be the last of the process, having done nothing or a part
    of its work. [wp] gives what holds however a program ends, [works] what holds on a disk
    that works. *)
From S2P Require Import Prelude MasterLists.

Module Storage.
Import MasterLists.

(** How far a part of an operation got: bytes written, files removed. *)
Record Extent := mkExtent { written : nat; removed : list bytes }.
Inductive Fault := Works | Fails (extent : option Extent) | Dies (extent : option Extent).

Section Disk.
Context {Disk : Type}.

(** A result, unless the process ended; the faults to come; the disk. *)
Definition IO (A : Type) : Type := list Fault → Disk → option A * list Fault * Disk.

Definition done_ {A} (a : A) : IO A := λ faults d, (Some a, faults, d).
Definition andThen {A B} (m : IO A) (f : A → IO B) : IO B := λ faults d,
  match m faults d with
  | (Some a, faults, d) => f a faults d
  | (None, faults, d) => (None, faults, d)
  end.

Definition operation (whole : Disk → bool * Disk) (partial : Extent → Disk → Disk) : IO bool := λ faults d,
  let part e := match e with Some e => partial e d | None => d end in
  match head faults with
  | Some (Fails e) => (Some false, tail faults, part e)
  | Some (Dies e) => (None, tail faults, part e)
  | _ => let '(ok, d) := whole d in (Some ok, tail faults, d)
  end.

(** A question to the disk, which may go unanswered. *)
Definition query {A} (f : Disk → A) : IO (option A) := λ faults d,
  match head faults with
  | Some (Fails _) => (Some None, tail faults, d)
  | Some (Dies _) => (None, tail faults, d)
  | _ => (Some (Some (f d)), tail faults, d)
  end.

(** ** However it ends *)

Definition wp {A} (m : IO A) (Q : option A → Disk → Prop) (d : Disk) : Prop := ∀ faults, let '(r, _, d') := m faults d in Q r d'.

Lemma io_done {A} (a : A) Q d : Q (Some a) d → wp (done_ a) Q d.
Proof. by intros ? ?. Qed.

Lemma io_andThen {A B} (m : IO A) (f : A → IO B) Q d :
  wp m (λ r d', match r with Some a => wp (f a) Q d' | None => Q None d' end) d → wp (andThen m f) Q d.
Proof.
  intros Hm faults. unfold andThen. specialize (Hm faults). destruct (m faults d) as [[[a|] faults'] d']; [|done]. apply Hm.
Qed.

Lemma io_operation whole partial (Q : option bool → Disk → Prop) d :
  Q (Some (whole d).1) (whole d).2 → (∀ r, r ≠ Some true → Q r d ∧ ∀ e, Q r (partial e d)) → wp (operation whole partial) Q d.
Proof.
  intros Hw Hp faults. unfold operation.
  destruct faults as [|[|[e|]|[e|]] faults]; cbn [head tail]; try (by apply Hp); destruct (whole d); done.
Qed.

Lemma io_query {A} (f : Disk → A) (Q : option (option A) → Disk → Prop) d :
  Q (Some (Some (f d))) d → Q (Some None) d → Q None d → wp (query f) Q d.
Proof. intros H1 H2 H3 faults. unfold query. by destruct faults as [|[] faults]. Qed.

Lemma io_mono {A} (m : IO A) (Q Q' : option A → Disk → Prop) d : (∀ r d', Q r d' → Q' r d') → wp m Q d → wp m Q' d.
Proof. intros HQ Hm faults. specialize (Hm faults). destruct (m faults d) as [[r faults'] d']. by apply HQ. Qed.

(** Only the result matters. *)
Lemma io_andThen_value {A B} (m : IO A) (f : A → IO B) (P : A → Prop) (Q : B → Prop) d :
  wp m (λ r _, ∀ a, r = Some a → P a) d → (∀ a d, P a → wp (f a) (λ r _, ∀ b, r = Some b → Q b) d) →
  wp (andThen m f) (λ r _, ∀ b, r = Some b → Q b) d.
Proof. intros Hm Hf. apply io_andThen. eapply io_mono, Hm. intros [a|] d' H; [by apply Hf, H|done]. Qed.

(** ** On a disk that works *)

Definition works {A} (m : IO A) (Q : A → Disk → Prop) (d : Disk) : Prop := ∀ faults, Forall (eq Works) faults →
  match m faults d with (Some a, faults', d') => Forall (eq Works) faults' ∧ Q a d' | (None, _, _) => False end.

Lemma works_andThen {A B} (m : IO A) (f : A → IO B) Q d : works m (λ a d', works (f a) Q d') d → works (andThen m f) Q d.
Proof.
  intros Hm faults Hf. unfold andThen. specialize (Hm faults Hf). destruct (m faults d) as [[[a|] faults'] d']; [|done].
  destruct Hm as [Hf' Hm]. by apply Hm.
Qed.

Lemma works_operation whole partial (Q : bool → Disk → Prop) d : Q (whole d).1 (whole d).2 → works (operation whole partial) Q d.
Proof.
  intros HQ faults Hf. unfold operation. destruct Hf as [|f faults <- Hf]; cbn [head tail]; destruct (whole d); by repeat split.
Qed.

Lemma works_query {A} (f : Disk → A) (Q : option A → Disk → Prop) d : Q (Some (f d)) d → works (query f) Q d.
Proof. intros HQ faults Hf. unfold query. by destruct Hf as [|? ? <- Hf]. Qed.

Lemma works_done {A} (a : A) (Q : A → Disk → Prop) d : Q a d → works (done_ a) Q d.
Proof. by intros ? ? ?. Qed.

Lemma works_mono {A} (m : IO A) (Q Q' : A → Disk → Prop) d : works m Q d → (∀ a d', Q a d' → Q' a d') → works m Q' d.
Proof. intros Hm HQ f Hf. specialize (Hm f Hf). destruct (m f d) as [[[a|] f'] d']; [|done]. destruct Hm. auto. Qed.

(** ** On a disk that works until the process ends *)

Definition unfailing (f : Fault) : Prop := match f with Fails _ => False | _ => True end.

Definition untilEnd {A} (m : IO A) (Q : option A → Disk → Prop) (d : Disk) : Prop := ∀ faults, Forall unfailing faults →
  let '(r, faults', d') := m faults d in Forall unfailing faults' ∧ Q r d'.

Lemma untilEnd_done {A} (a : A) (Q : option A → Disk → Prop) d : Q (Some a) d → untilEnd (done_ a) Q d.
Proof. by intros ? ? ?. Qed.

Lemma untilEnd_andThen {A B} (m : IO A) (f : A → IO B) (Q : option B → Disk → Prop) d :
  untilEnd m (λ r d', match r with Some a => untilEnd (f a) Q d' | None => Q None d' end) d → untilEnd (andThen m f) Q d.
Proof.
  intros Hm faults Hf. unfold andThen. specialize (Hm faults Hf). destruct (m faults d) as [[[a|] faults'] d']; [|done].
  destruct Hm as [Hf' Hm]. by apply Hm.
Qed.

Lemma untilEnd_operation whole partial (Q : option bool → Disk → Prop) d :
  Q (Some (whole d).1) (whole d).2 → Q None d → (∀ e, Q None (partial e d)) → untilEnd (operation whole partial) Q d.
Proof.
  intros H1 H2 H3 faults Hf. unfold operation. destruct Hf as [|[|e|[e|]] faults Hf' Hf]; cbn [head tail]; try done; destruct (whole d); done.
Qed.

End Disk.
Arguments IO : clear implicits.
End Storage.
