(* ===== verification/AnchorStore.v ===== *)
(** * The store of country signing anchors

    Models [AnchorCache] of [src/trust/CscaAnchorImport.cpp]: the state file with the
    publishers that are followed, the directory of anchors, and how both are replaced on a
    disk that may refuse any operation, and under a process that may end at any point. A
    state that is written is read back; the anchors are read back in their order; and
    every way a replacement can end is listed. *)
From stdpp Require Import gmap sorting.
From S2P Require Import Prelude Vocabulary Text ReaderLabels Presence MasterLists TextFiles Storage.
Local Open Scope Z_scope.

Module AnchorStore.
Import MasterLists TextFiles Storage.

(** ** What is remembered *)

Definition kSignerFingerprintSize : nat := 32.
Abbreviation SignerFingerprint := bytes.

Inductive ImportRefusal :=
| NotAMasterList | Empty | Malformed | BadSignature | SignerChanged | Replayed | CacheNotWritable.

#[export] Instance ImportRefusal_eq_dec : EqDecision ImportRefusal.
Proof. solve_decision. Defined.

Record AcceptedSigner := mkSigner { fingerprint : SignerFingerprint; identityEstablished : bool; signedAt : option Z }.
Record RefusedList := mkRefused { reason : ImportRefusal; signer : option SignerFingerprint }.

Record AnchorState := mkState {
  present : bool; signers : list AcceptedSigner; anchorCount : Z; issuerCount : Z; listsOffered : Z;
  refusedLists : list RefusedList; acceptedAt : Z }.

Definition noState : AnchorState := mkState false [] 0 0 0 [] 0.

Definition recordFor (s : AnchorState) (f : SignerFingerprint) : option AcceptedSigner :=
  List.find (λ r, bool_decide (fingerprint r = f)) (signers s).

Definition replayRefusalActive (s : AnchorState) : bool :=
  negb (bool_decide (signers s = [])) && forallb (λ r, match signedAt r with Some _ => true | None => false end) (signers s).

Definition everyPublisherEstablished (s : AnchorState) : bool :=
  negb (bool_decide (signers s = [])) && forallb identityEstablished (signers s).

(** ** Numbers in text *)

Definition cPlus : Z := 43.
Definition cComma : Z := 44.

(** [strtoul] and [strtoll] in base ten: white space, a sign, and the digits there are. *)
Definition isSpace (c : Z) : bool := (c =? 32) || ((9 <=? c) && (c <=? 13)).

Fixpoint dropWhile (p : Z → bool) (t : bytes) : bytes :=
  match t with c :: rest => if p c then dropWhile p rest else t | [] => [] end.
Fixpoint takeWhile (p : Z → bool) (t : bytes) : bytes :=
  match t with c :: rest => if p c then c :: takeWhile p rest else [] | [] => [] end.

Definition strto (value : bytes) : bool * Z :=
  let t := dropWhile isSpace value in
  let signed := match t with c :: _ => (c =? cMinus) || (c =? cPlus) | [] => false end in
  (match t with c :: _ => c =? cMinus | [] => false end,
   decimalValue (takeWhile isDigit (if signed then tail t else t))).

Definition strtoul (value : bytes) : Z :=
  let '(negative, n) := strto value in
  if 2 ^ 64 <=? n then 2 ^ 64 - 1 else if negative then u64 (- n) else n.

Definition strtoll (value : bytes) : Z :=
  let '(negative, n) := strto value in
  if negative then Z.max (- 2 ^ 63) (- n) else Z.min (2 ^ 63 - 1) n.

(** ** Fingerprints, reasons and fields *)

Definition toHex (f : SignerFingerprint) : bytes := Text.bytesOf (Presence.toHex f Ascii.zero false).

Definition hexValue (c : Z) : option Z :=
  if isDigit c then Some (c - 48) else if between 97 102 c then Some (c - 97 + 10) else None.

Fixpoint hexPairs (hex : bytes) : option bytes :=
  match hex with
  | a :: b :: rest => x ← hexValue a; y ← hexValue b; more ← hexPairs rest; Some (u8 (x * 16 + y) :: more)
  | _ => Some []
  end.

Definition fingerprintFromHex (hex : bytes) : option SignerFingerprint :=
  if negb (length hex =? kSignerFingerprintSize * 2)%nat then None else hexPairs hex.

Definition kRefusalNames : list (ImportRefusal * bytes) :=
  [(NotAMasterList, Text.bytesOf "notAMasterList"); (Empty, Text.bytesOf "empty"); (Malformed, Text.bytesOf "malformed");
   (BadSignature, Text.bytesOf "badSignature"); (SignerChanged, Text.bytesOf "signerChanged");
   (Replayed, Text.bytesOf "replayed"); (CacheNotWritable, Text.bytesOf "cacheNotWritable")].

Definition refusalName (r : ImportRefusal) : bytes :=
  match List.find (λ e, bool_decide (e.1 = r)) kRefusalNames with Some e => e.2 | None => Text.bytesOf "notAMasterList" end.

Definition refusalFromName (name : bytes) : option ImportRefusal :=
  match List.find (λ e, bool_decide (name = e.2)) kRefusalNames with Some e => Some e.1 | None => None end.

Definition commaFields (value : bytes) : list bytes := splitOn cComma value.

(** ** Reading the state file *)

Record Reading := mkReading {
  out : AnchorState; unreadable : bool; legacySigner : option SignerFingerprint; legacyPinned : bool;
  legacySignedAt : option Z; legacySignedAtSeen : bool }.

Definition onOut (f : AnchorState → AnchorState) (r : Reading) : Reading :=
  mkReading (f (out r)) (unreadable r) (legacySigner r) (legacyPinned r) (legacySignedAt r) (legacySignedAtSeen r).
Definition spoil (r : Reading) : Reading :=
  mkReading (out r) true (legacySigner r) (legacyPinned r) (legacySignedAt r) (legacySignedAtSeen r).

Definition addSigner (s : AcceptedSigner) (a : AnchorState) : AnchorState :=
  mkState (present a) (signers a ++ [s]) (anchorCount a) (issuerCount a) (listsOffered a) (refusedLists a) (acceptedAt a).
Definition addRefused (l : RefusedList) (a : AnchorState) : AnchorState :=
  mkState (present a) (signers a) (anchorCount a) (issuerCount a) (listsOffered a) (refusedLists a ++ [l]) (acceptedAt a).

(** The line of a publisher. *)
Definition readPublisher (value : bytes) (r : Reading) : Reading :=
  let fields := commaFields value in
  if (length fields <? 2)%nat || (3 <? length fields)%nat then spoil r
  else
    let flag := default [] (fields !! 1%nat) in
    match fingerprintFromHex (default [] (fields !! 0%nat)) with
    | None => spoil r
    | Some f =>
        if negb (bool_decide (flag = Text.bytesOf "0")) && negb (bool_decide (flag = Text.bytesOf "1")) then spoil r
        else
          let established := bool_decide (flag = Text.bytesOf "1") in
          match fields !! 2%nat with
          | None => onOut (addSigner (mkSigner f established None)) r
          | Some date =>
              match wholeInteger date with
              | None => spoil r
              | Some d => onOut (addSigner (mkSigner f established (Some d))) r
              end
          end
    end.

(** The line of a list that was refused. *)
Definition readRefused (value : bytes) (r : Reading) : Reading :=
  let fields := commaFields value in
  if bool_decide (fields = []) || (2 <? length fields)%nat then spoil r
  else match refusalFromName (default [] (fields !! 0%nat)) with
       | None => spoil r
       | Some reason_ =>
           match fields !! 1%nat with
           | Some hex =>
               if bool_decide (hex = Text.bytesOf "-") then onOut (addRefused (mkRefused reason_ None)) r
               else match fingerprintFromHex hex with
                    | None => spoil r
                    | Some f => onOut (addRefused (mkRefused reason_ (Some f))) r
                    end
           | None => onOut (addRefused (mkRefused reason_ None)) r
           end
       end.

Definition readField (key value : bytes) (r : Reading) : Reading :=
  let keyIs name := bool_decide (key = Text.bytesOf name) in
  if keyIs "publisher"%string then readPublisher value r
  else if keyIs "refused"%string then readRefused value r
  else if keyIs "signer"%string then
    let f := fingerprintFromHex value in
    mkReading (out r) (match f with None => true | Some _ => unreadable r end) f (legacyPinned r) (legacySignedAt r) (legacySignedAtSeen r)
  else if keyIs "signerPinned"%string then
    mkReading (out r) (unreadable r) (legacySigner r) (bool_decide (value = Text.bytesOf "1")) (legacySignedAt r) (legacySignedAtSeen r)
  else if keyIs "anchors"%string then
    onOut (λ a, mkState (present a) (signers a) (u32 (strtoul value)) (issuerCount a) (listsOffered a) (refusedLists a) (acceptedAt a)) r
  else if keyIs "issuers"%string then
    onOut (λ a, mkState (present a) (signers a) (anchorCount a) (u32 (strtoul value)) (listsOffered a) (refusedLists a) (acceptedAt a)) r
  else if keyIs "offered"%string then
    onOut (λ a, mkState (present a) (signers a) (anchorCount a) (issuerCount a) (u32 (strtoul value)) (refusedLists a) (acceptedAt a)) r
  else if keyIs "acceptedAt"%string then
    onOut (λ a, mkState (present a) (signers a) (anchorCount a) (issuerCount a) (listsOffered a) (refusedLists a) (strtoll value)) r
  else if keyIs "signedAt"%string then
    let d := wholeInteger value in
    mkReading (out r) (match d with None => true | Some _ => unreadable r end) (legacySigner r) (legacyPinned r) d true
  else r.

Definition readLine (r : Reading) (line : bytes) : Reading :=
  match list_find (λ c, c = cEquals) line with
  | None => r
  | Some (eq, _) => readField (take eq line) (drop (S eq) line) r
  end.

(** The publisher of a file from before collections. *)
Definition withLegacy (r : Reading) : AnchorState :=
  match signers (out r), legacySigner r with
  | [], Some f =>
      let a := addSigner (mkSigner f (legacyPinned r) (if legacySignedAtSeen r then legacySignedAt r else None)) (out r) in
      mkState (present a) (signers a) (anchorCount a) (issuerCount a) 1 (refusedLists a) (acceptedAt a)
  | _, _ => out r
  end.

Definition parseState (file : bytes) : AnchorState :=
  let r := foldl readLine (mkReading noState false None false None false) (fileLines file) in
  let a := withLegacy r in
  if bool_decide (signers a = []) || unreadable r then noState
  else if listsOffered a <? zlen (signers a) + zlen (refusedLists a) then noState
  else mkState true (signers a) (anchorCount a) (issuerCount a) (listsOffered a) (refusedLists a) (acceptedAt a).

(** ** Writing it *)

Definition keyed (key : string) (value : bytes) : bytes := Text.bytesOf key ++ [cEquals] ++ value ++ [cNewline].

Definition printSigner (s : AcceptedSigner) : bytes :=
  keyed "publisher" (toHex (fingerprint s) ++ (if identityEstablished s then Text.bytesOf ",1" else Text.bytesOf ",0") ++
    match signedAt s with Some d => cComma :: toString d | None => [] end).

Definition printRefused (l : RefusedList) : bytes :=
  keyed "refused" (refusalName (reason l) ++ match signer l with Some f => cComma :: toHex f | None => Text.bytesOf ",-" end).

Definition printState (s : AnchorState) : bytes :=
  keyed "anchors" (toString (anchorCount s)) ++ keyed "issuers" (toString (issuerCount s)) ++
  keyed "offered" (toString (listsOffered s)) ++ keyed "acceptedAt" (toString (acceptedAt s)) ++
  concat (map printSigner (signers s)) ++ concat (map printRefused (refusedLists s)).

(** ** The disk

    The directory of the cache: the state file, the directory of anchors and the one they
    are staged in. *)

Abbreviation Dir := (gmap bytes bytes).
Record Disk := mkDisk { stateFile : option bytes; live : option Dir; staging : option Dir }.

Abbreviation IO := (Storage.IO Disk).

Definition setState (t : bytes) (d : Disk) : Disk := mkDisk (Some t) (live d) (staging d).
Definition setLive (l : option Dir) (d : Disk) : Disk := mkDisk (stateFile d) l (staging d).
Definition setStaging (s : option Dir) (d : Disk) : Disk := mkDisk (stateFile d) (live d) s.

Definition without (names : list bytes) (dir : Dir) : Dir := foldr delete dir names.

Definition createDirectories : IO bool := operation (λ d, (true, d)) (λ _ d, d).
Definition removeStaging : IO bool :=
  operation (λ d, (true, setStaging None d)) (λ e d, setStaging (without (removed e) <$> staging d) d).
Definition removeLive : IO bool :=
  operation (λ d, (true, setLive None d)) (λ e d, setLive (without (removed e) <$> live d) d).
Definition createStaging : IO bool :=
  operation (λ d, match staging d with None => (true, setStaging (Some ∅) d) | Some _ => (false, d) end)
    (λ _ d, match staging d with None => setStaging (Some ∅) d | Some _ => d end).
Definition writeStaged (name content : bytes) : IO bool :=
  operation (λ d, match staging d with
                  | None => (false, d)
                  | Some dir => (true, setStaging (Some (<[name := content]> dir)) d)
                  end)
    (λ e d, setStaging (<[name := take (written e) content]> <$> staging d) d).
(** A rename is done or not. *)
Definition renameStaging : IO bool :=
  operation (λ d, match staging d with None => (false, d) | Some dir => (true, mkDisk (stateFile d) (Some dir) None) end)
    (λ _ d, match staging d with None => d | Some dir => mkDisk (stateFile d) (Some dir) None end).
Definition writeState (content : bytes) : IO bool :=
  operation (λ d, (true, setState content d)) (λ e d, setState (take (written e) content) d).

(** ** The cache *)

Definition kAnchorSuffix : bytes := Text.bytesOf ".cer".

(** [snprintf] with [%06zu%s]. *)
Definition anchorName (i : nat) : bytes :=
  let digits := toString (Z.of_nat i) in repeat 48 (6 - length digits) ++ digits ++ kAnchorSuffix.

(** The extension starts at the last dot, unless the name starts there. *)
Definition hasSuffix (name : bytes) : bool :=
  (length kAnchorSuffix <? length name)%nat && bool_decide (drop (length name - length kAnchorSuffix) name = kAnchorSuffix).

Fixpoint lexLe (a b : bytes) : bool :=
  match a, b with
  | [], _ => true
  | _ :: _, [] => false
  | x :: a, y :: b => (x <? y) || ((x =? y) && lexLe a b)
  end.

Definition state (d : Disk) : AnchorState := match stateFile d with Some t => parseState t | None => noState end.

Definition nameLe (a b : bytes) : Prop := lexLe a b = true.
#[export] Instance nameLe_dec : RelDecision nameLe.
Proof. intros a b. unfold nameLe. apply _. Defined.

Definition anchorFiles (dir : Dir) : list bytes := filter (λ n, hasSuffix n = true) (map_to_list dir).*1.

Definition anchors (d : Disk) : list bytes :=
  match live d with
  | None => []
  | Some dir => omap (λ name, dir !! name) (merge_sort nameLe (anchorFiles dir))
  end.

Definition holdsAnchor (d : Disk) : bool :=
  match live d with None => false | Some dir => negb (bool_decide (anchorFiles dir = [])) end.

(** The outcome of an operation that failed: what is staged is dropped. *)
Definition abandon : IO bool := andThen removeStaging (λ _, done_ false).

Fixpoint writeAnchors (i : nat) (l : list bytes) : IO bool :=
  match l with
  | [] => done_ true
  | a :: l => andThen (writeStaged (anchorName i) a) (λ ok, if ok then writeAnchors (S i) l else abandon)
  end.

Definition replace (newAnchors : list bytes) (s : AnchorState) : IO bool :=
  andThen createDirectories (λ ok, if negb ok then done_ false else
  andThen removeStaging (λ ok, if negb ok then done_ false else
  andThen createStaging (λ ok, if negb ok then done_ false else
  andThen (writeAnchors 0 newAnchors) (λ ok, if negb ok then done_ false else
  andThen removeLive (λ ok, if negb ok then abandon else
  andThen renameStaging (λ ok, if negb ok then abandon else
  writeState (printState s))))))).

(** ** What a store writes *)

Definition byte_ (z : Z) : Prop := 0 ≤ z < 256.
Definition fingerprintOk (f : SignerFingerprint) : Prop := length f = kSignerFingerprintSize ∧ Forall byte_ f.
(** The values of the C++ types, with a publisher and a count that carries the records. *)
Definition storable (s : AnchorState) : Prop :=
  present s = true ∧ signers s ≠ [] ∧
  Forall (λ r, fingerprintOk (fingerprint r) ∧ ∀ d, signedAt r = Some d → int64 d) (signers s) ∧
  Forall (λ l, ∀ f, signer l = Some f → fingerprintOk f) (refusedLists s) ∧
  uint32 (anchorCount s) ∧ uint32 (issuerCount s) ∧ uint32 (listsOffered s) ∧ int64 (acceptedAt s) ∧
  zlen (signers s) + zlen (refusedLists s) ≤ listsOffered s.

(** ** Numbers *)

Lemma takeWhile_all p t : forallb p t = true → takeWhile p t = t.
Proof. induction t as [|c t IH]; [done|]. cbn. intros [-> H]%andb_true_iff. by rewrite IH. Qed.

Lemma strto_toString n : strto (toString n) = (n <? 0, Z.abs n).
Proof.
  rewrite toString_form. unfold strto. pose proof (magnitude_digits n) as Hd. pose proof (magnitude_value n) as Hv.
  destruct (n <? 0) eqn:E; cbn [app].
  - cbn [dropWhile]. replace (isSpace cMinus) with false by done. cbn [orb tail]. rewrite Z.eqb_refl. cbn [orb].
    by rewrite takeWhile_all, Hv by by apply digits_forallb.
  - destruct (magnitude n) as [|c t] eqn:Em; [by destruct (decimalDigits_ne (Z.to_nat (Z.log2 (Z.abs n))) (Z.abs n))|].
    apply Forall_cons in Hd as Hc. destruct Hc as [Hc _]. cbn [dropWhile].
    assert (isSpace c = false) as -> by (unfold isSpace; lia). cbn [orb].
    assert ((c =? cMinus) = false) as -> by (unfold cMinus; lia). assert ((c =? cPlus) = false) as -> by (unfold cPlus; lia).
    cbn [orb]. by rewrite takeWhile_all, Hv by by apply digits_forallb.
Qed.

Lemma strtoul_toString n : uint32 n → u32 (strtoul (toString n)) = n.
Proof.
  intros [? ?]. unfold strtoul. rewrite strto_toString. rewrite (proj2 (Z.ltb_ge n 0)) by lia. replace (Z.abs n) with n by lia.
  rewrite (proj2 (Z.leb_gt _ _)) by lia. unfold u32, wrap. rewrite Z.mod_small; lia.
Qed.

Lemma strtoll_toString n : int64 n → strtoll (toString n) = n.
Proof. intros [? ?]. unfold strtoll. rewrite strto_toString. destruct (n <? 0) eqn:E; lia. Qed.

(** ** Fields *)

Definition hexCode (n : Z) : Z := if n <? 10 then 48 + n else 87 + n.

Lemma hexDigit_code n : 0 ≤ n < 16 → Z.of_N (Ascii.N_of_ascii (Presence.hexDigit false n)) = hexCode n.
Proof.
  intros Hn. assert (n = 0 ∨ n = 1 ∨ n = 2 ∨ n = 3 ∨ n = 4 ∨ n = 5 ∨ n = 6 ∨ n = 7 ∨ n = 8 ∨ n = 9 ∨ n = 10 ∨ n = 11 ∨
    n = 12 ∨ n = 13 ∨ n = 14 ∨ n = 15) as Hc by lia.
  repeat destruct Hc as [->|Hc]; try done. by subst.
Qed.

Lemma hexValue_code n : 0 ≤ n < 16 → hexValue (hexCode n) = Some n.
Proof.
  intros Hn. unfold hexValue, hexCode. destruct (n <? 10) eqn:E.
  - rewrite (proj2 (isDigit_iff _)) by lia. f_equal. lia.
  - replace (isDigit (87 + n)) with false by (symmetry; unfold isDigit, between; lia).
    replace (between 97 102 (87 + n)) with true by (symmetry; unfold between; lia). f_equal. lia.
Qed.

Lemma nibbles b : byte_ b → 0 ≤ Z.land (Z.shiftr b 4) 15 < 16 ∧ 0 ≤ Z.land b 15 < 16 ∧ Z.land (Z.shiftr b 4) 15 * 16 + Z.land b 15 = b.
Proof.
  intros [? ?]. change 15 with (Z.ones 4). rewrite !Z.land_ones, Z.shiftr_div_pow2 by lia. change (2 ^ 4) with 16.
  Z.to_euclidean_division_equations. lia.
Qed.

Lemma toHex_codes f : Forall byte_ f →
  toHex f = concat (map (λ b, [hexCode (Z.land (Z.shiftr b 4) 15); hexCode (Z.land b 15)]) f).
Proof.
  intros Hf. unfold toHex, Presence.toHex, Text.bytesOf. rewrite (imap_ext _ (λ _ b, [Presence.hexDigit false (Z.land (Z.shiftr b 4) 15); Presence.hexDigit false (Z.land b 15)])) by done.
  rewrite (imap_const (λ b, [Presence.hexDigit false (Z.land (Z.shiftr b 4) 15); Presence.hexDigit false (Z.land b 15)])).
  unfold ReaderLabels.str. rewrite String.list_ascii_of_string_of_list_ascii.
  induction Hf as [|b f Hb Hf IH]; [done|]. cbn [fmap list_fmap concat map app]. destruct (nibbles b Hb) as (?&?&_).
  rewrite !hexDigit_code by done. do 2 f_equal. exact IH.
Qed.

Lemma hexPairs_toHex f : Forall byte_ f → hexPairs (toHex f) = Some f.
Proof.
  intros Hf. rewrite toHex_codes by done. induction Hf as [|b f Hb Hf IH]; [done|]. cbn [map concat app hexPairs].
  destruct (nibbles b Hb) as (?&?&E). rewrite !hexValue_code by done. cbn [mbind option_bind]. rewrite IH. cbn [mbind option_bind].
  rewrite E. unfold u8, wrap. rewrite Z.mod_small by (unfold byte_ in Hb; lia). done.
Qed.

Lemma fingerprintFromHex_toHex f : fingerprintOk f → fingerprintFromHex (toHex f) = Some f.
Proof.
  intros [Hl Hf]. unfold fingerprintFromHex. rewrite hexPairs_toHex by done. rewrite toHex_codes by done.
  rewrite <- Hl. replace (length (concat _)) with (length f * 2)%nat; [by rewrite Nat.eqb_refl|].
  clear. induction f as [|b f IH]; [done|]. cbn [map concat app length]. lia.
Qed.

Lemma toHex_chars f : Forall byte_ f → Forall (λ c, 48 ≤ c ≤ 57 ∨ 97 ≤ c ≤ 102) (toHex f).
Proof.
  intros Hf. rewrite toHex_codes by done. apply Forall_concat, Forall_map. eapply Forall_impl; [exact Hf|].
  intros b Hb. destruct (nibbles b Hb) as (?&?&_). unfold hexCode. do 2 (constructor; [case_match; lia|]). constructor.
Qed.

Lemma refusal_names r : refusalFromName (refusalName r) = Some r.
Proof. by destruct r. Qed.

Lemma refusalName_chars r : Forall (λ c, c ≠ cComma ∧ c ≠ cNewline) (refusalName r).
Proof. destruct r; vm_compute; repeat constructor; discriminate. Qed.

(** ** Lines *)

Definition fieldOf (key : string) (value : bytes) : bytes := Text.bytesOf key ++ [cEquals] ++ value.

Lemma keyed_field key value : keyed key value = fieldOf key value ++ [cNewline].
Proof. unfold keyed, fieldOf. by rewrite <- !app_assoc. Qed.

Lemma readLine_field key value r : Forall (λ c, c ≠ cEquals) (Text.bytesOf key) →
  readLine r (fieldOf key value) = readField (Text.bytesOf key) value r.
Proof.
  intros Hk. unfold readLine, fieldOf. destruct (find_equals (Text.bytesOf key) value Hk) as (->&->&->). done.
Qed.

(** ** The state file is read back *)

Definition signerField (s : AcceptedSigner) : bytes :=
  fieldOf "publisher" (toHex (fingerprint s) ++ (if identityEstablished s then Text.bytesOf ",1" else Text.bytesOf ",0") ++
    match signedAt s with Some d => cComma :: toString d | None => [] end).

Definition refusedField (l : RefusedList) : bytes :=
  fieldOf "refused" (refusalName (reason l) ++ match signer l with Some f => cComma :: toHex f | None => Text.bytesOf ",-" end).

Definition fieldsOf (s : AnchorState) : list bytes :=
  [fieldOf "anchors" (toString (anchorCount s)); fieldOf "issuers" (toString (issuerCount s));
   fieldOf "offered" (toString (listsOffered s)); fieldOf "acceptedAt" (toString (acceptedAt s))] ++
  map signerField (signers s) ++ map refusedField (refusedLists s).

Lemma printState_fields s : printState s = concat (map (λ l, l ++ [cNewline]) (fieldsOf s)).
Proof.
  unfold printState, fieldsOf. rewrite !map_app, !concat_app, !map_map, !keyed_field.
  rewrite (map_ext printSigner (λ x, signerField x ++ [cNewline])) by (intros x; apply keyed_field).
  rewrite (map_ext printRefused (λ x, refusedField x ++ [cNewline])) by (intros x; apply keyed_field).
  cbn [map concat]. rewrite app_nil_r. by rewrite <- !app_assoc.
Qed.

Lemma toHex_plain f c : Forall byte_ f → (c < 48) → Forall (λ d, d ≠ c) (toHex f).
Proof. intros Hf Hc. eapply Forall_impl; [by apply toHex_chars|]. cbn. lia. Qed.

Lemma read_signerField s r : fingerprintOk (fingerprint s) → (∀ d, signedAt s = Some d → int64 d) →
  readLine r (signerField s) = onOut (addSigner s) r.
Proof.
  intros Hf Hd. unfold signerField. rewrite readLine_field by (vm_compute; repeat constructor; discriminate).
  change (readPublisher (toHex (fingerprint s) ++ (if identityEstablished s then Text.bytesOf ",1" else Text.bytesOf ",0") ++
    match signedAt s with Some d => cComma :: toString d | None => [] end) r = onOut (addSigner s) r).
  pose proof (toHex_plain _ cComma (proj2 Hf) ltac:(done)) as Hp. destruct s as [f e d]. cbn [fingerprint identityEstablished signedAt] in *.
  set (flag := if e then 49 else 48). replace (if e then Text.bytesOf ",1" else Text.bytesOf ",0") with (cComma :: [flag]) by (by destruct e).
  assert (Forall (λ c, c ≠ cComma) [flag]) as Hflag by (destruct e; repeat constructor; discriminate).
  unfold readPublisher, commaFields. destruct d as [d|]; cbn [app].
  - rewrite (splitOn_cons cComma (toHex f)) by done. change (flag :: cComma :: toString d) with ([flag] ++ cComma :: toString d).
    rewrite (splitOn_cons cComma [flag]) by done. rewrite splitOn_whole by by apply toString_plain.
    cbn [length Nat.ltb Nat.leb orb lookup list_lookup default from_option id]. rewrite fingerprintFromHex_toHex, wholeInteger_toString by auto.
    by destruct e.
  - rewrite (splitOn_cons cComma (toHex f)) by done. rewrite splitOn_whole by done.
    cbn [length Nat.ltb Nat.leb orb lookup list_lookup default from_option id]. rewrite fingerprintFromHex_toHex by auto. by destruct e.
Qed.

Lemma read_refusedField l r : (∀ f, signer l = Some f → fingerprintOk f) →
  readLine r (refusedField l) = onOut (addRefused l) r.
Proof.
  intros Hf. unfold refusedField. rewrite readLine_field by (vm_compute; repeat constructor; discriminate).
  change (readRefused (refusalName (reason l) ++ match signer l with Some f => cComma :: toHex f | None => Text.bytesOf ",-" end) r = onOut (addRefused l) r).
  assert (Forall (λ c, c ≠ cComma) (refusalName (reason l))) as Hp by (eapply Forall_impl; [apply refusalName_chars|]; by intros ? []).
  destruct l as [why [f|]]; cbn [reason signer] in *; unfold readRefused, commaFields.
  - destruct (Hf f eq_refl) as [Hl Hb]. rewrite (splitOn_cons cComma (refusalName why)), splitOn_whole by (done || by apply toHex_plain).
    rewrite bool_decide_eq_false_2 by done. cbn [length Nat.ltb Nat.leb orb lookup list_lookup default from_option id]. rewrite refusal_names.
    rewrite fingerprintFromHex_toHex by auto. rewrite bool_decide_eq_false_2; [done|]. intros E.
    change (toHex f = [cMinus]) in E. pose proof (toHex_chars f Hb) as Hc. rewrite E in Hc. apply Forall_cons in Hc as [Hc _].
    unfold cMinus in Hc. lia.
  - change (Text.bytesOf ",-") with (cComma :: [cMinus]). rewrite (splitOn_cons cComma (refusalName why)) by done.
    cbn [splitOn]. change (cMinus =? cComma) with false. cbn [length Nat.ltb Nat.leb orb lookup list_lookup default from_option id].
    rewrite bool_decide_eq_false_2 by done. cbn [length Nat.ltb Nat.leb orb lookup list_lookup default from_option id].
    rewrite refusal_names. by rewrite bool_decide_eq_true_2 by done.
Qed.

Lemma read_signerFields l r :
  Forall (λ s, fingerprintOk (fingerprint s) ∧ ∀ d, signedAt s = Some d → int64 d) l →
  foldl readLine r (map signerField l) =
  onOut (λ a, mkState (present a) (signers a ++ l) (anchorCount a) (issuerCount a) (listsOffered a) (refusedLists a) (acceptedAt a)) r.
Proof.
  intros Hl. revert r. induction Hl as [|s l [Hf Hd] Hl IH]; intros r; cbn [map foldl].
  - unfold onOut. rewrite app_nil_r. by destruct r as [[] ? ? ? ? ?].
  - rewrite read_signerField, IH by done. unfold onOut, addSigner. cbn. by rewrite <- app_assoc.
Qed.

Lemma read_refusedFields l r : Forall (λ l, ∀ f, signer l = Some f → fingerprintOk f) l →
  foldl readLine r (map refusedField l) =
  onOut (λ a, mkState (present a) (signers a) (anchorCount a) (issuerCount a) (listsOffered a) (refusedLists a ++ l) (acceptedAt a)) r.
Proof.
  intros Hl. revert r. induction Hl as [|s l Hf Hl IH]; intros r; cbn [map foldl].
  - unfold onOut. rewrite app_nil_r. by destruct r as [[] ? ? ? ? ?].
  - rewrite read_refusedField, IH by done. unfold onOut, addRefused. cbn. by rewrite <- app_assoc.
Qed.

Lemma bytesOf_no_newline (key : string) value :
  forallb (λ c, negb (c =? cNewline)) (Text.bytesOf key) = true → Forall (λ c, c ≠ cNewline) value →
  Forall (λ c, c ≠ cNewline) (fieldOf key value).
Proof.
  intros Hk Hv. unfold fieldOf. apply Forall_app; split; [|constructor; [done|done]]. apply List.Forall_forall. intros c Hc.
  rewrite forallb_forall in Hk. specialize (Hk c Hc). apply negb_true_iff, Z.eqb_neq in Hk. done.
Qed.

Lemma fieldsOf_lines s : storable s → Forall (Forall (λ c, c ≠ cNewline)) (fieldsOf s).
Proof.
  intros (_&_&Hs&Hr&_). unfold fieldsOf. apply Forall_app; split; [|apply Forall_app; split].
  - repeat (constructor; [apply bytesOf_no_newline; [done|by apply toString_plain]|]). constructor.
  - apply Forall_map. eapply Forall_impl; [exact Hs|]. intros x [[_ Hf] Hd]. apply bytesOf_no_newline; [done|].
    apply Forall_app; split; [by apply toHex_plain|]. apply Forall_app; split; [destruct (identityEstablished x); repeat constructor; discriminate|].
    destruct (signedAt x); [constructor; [done|by apply toString_plain]|constructor].
  - apply Forall_map. eapply Forall_impl; [exact Hr|]. intros x Hf. apply bytesOf_no_newline; [done|].
    apply Forall_app; split; [eapply Forall_impl; [apply refusalName_chars|]; by intros ? []|].
    destruct (signer x) as [f|] eqn:Ex; [constructor; [done|apply toHex_plain; [by apply (Hf f Ex)|done]]|repeat constructor; discriminate].
Qed.

(** What the four counts leave. *)
Lemma read_counts s r : storable s →
  foldl readLine r [fieldOf "anchors" (toString (anchorCount s)); fieldOf "issuers" (toString (issuerCount s));
   fieldOf "offered" (toString (listsOffered s)); fieldOf "acceptedAt" (toString (acceptedAt s))] =
  onOut (λ a, mkState (present a) (signers a) (anchorCount s) (issuerCount s) (listsOffered s) (refusedLists a) (acceptedAt s)) r.
Proof.
  intros (_&_&_&_&Ha&Hi&Ho&Ht&_). cbn [foldl]. rewrite !readLine_field by (vm_compute; repeat constructor; discriminate).
  pose proof (strtoul_toString _ Ha) as Ea. pose proof (strtoul_toString _ Hi) as Ei. pose proof (strtoul_toString _ Ho) as Eo.
  pose proof (strtoll_toString _ Ht) as Et.
  unfold readField at 4. rewrite !bool_decide_eq_false_2 by done. rewrite bool_decide_eq_true_2 by done.
  unfold readField at 3. rewrite !bool_decide_eq_false_2 by done. rewrite bool_decide_eq_true_2 by done.
  unfold readField at 2. rewrite !bool_decide_eq_false_2 by done. rewrite bool_decide_eq_true_2 by done.
  unfold readField. rewrite !bool_decide_eq_false_2 by done. rewrite bool_decide_eq_true_2 by done.
  unfold onOut. cbn [out present signers anchorCount issuerCount listsOffered refusedLists acceptedAt unreadable legacySigner legacyPinned legacySignedAt legacySignedAtSeen].
  by rewrite Ea, Ei, Eo, Et.
Qed.

Lemma state_survives s : storable s → parseState (printState s) = s.
Proof.
  intros Hs. pose proof Hs as (Hp&Hne&Hf&Hr&_&_&_&_&Hle).
  unfold parseState. rewrite printState_fields, fileLines_printed by by apply fieldsOf_lines.
  unfold fieldsOf. rewrite !foldl_app. rewrite read_counts, read_signerFields, read_refusedFields by done.
  unfold withLegacy, onOut. cbn [out unreadable legacySigner signers present anchorCount issuerCount listsOffered refusedLists acceptedAt noState app].
  destruct (signers s) as [|x l] eqn:E; [done|]. cbn [signers present anchorCount issuerCount listsOffered refusedLists acceptedAt].
  rewrite bool_decide_eq_false_2 by done. cbn [orb]. rewrite (proj2 (Z.ltb_ge _ _)) by lia.
  rewrite <- E. destruct s. cbn in *. by subst.
Qed.

(** What the store remembers survives its file: a state with the values of its types, at
    least one publisher and a count that carries its records (which is every state that an
    import writes) is read back from the text [replace] writes for it, field by field: the
    fingerprints, whether they were compared, the dates (absent and the epoch told apart,
    negative ones included), the lists that were refused, and the counts. *)
Theorem state_survives_file s : storable s → parseState (printState s) = s.
Proof. apply state_survives. Qed.

(** A fingerprint of one byte, repeated. *)
Definition sampleFingerprint (b : Z) : SignerFingerprint := repeat b kSignerFingerprintSize.

Lemma sampleFingerprint_ok b : byte_ b → fingerprintOk (sampleFingerprint b).
Proof. intros Hb. split; [apply repeat_length|]. apply List.Forall_forall. by intros c ->%repeat_spec. Qed.

Definition sampleState : AnchorState :=
  mkState true [mkSigner (sampleFingerprint 0xA5) true (Some (-1)); mkSigner (sampleFingerprint 7) false None] 3 2 4
    [mkRefused SignerChanged (Some (sampleFingerprint 9)); mkRefused Malformed None] 1700000000.

Lemma sampleState_storable : storable sampleState.
Proof.
  assert (∀ b, 0 ≤ b < 256 → fingerprintOk (sampleFingerprint b)) as Hf by exact sampleFingerprint_ok.
  unfold storable, sampleState, int64, uint32. cbn [present signers anchorCount issuerCount listsOffered refusedLists acceptedAt].
  split; [done|]. split; [done|]. split; [|split; [|cbn; lia]].
  - do 2 (constructor; [split; [apply Hf; lia|intros d [= <-]; lia]|]). constructor.
  - do 2 (constructor; [intros f [= <-]; apply Hf; lia|]). constructor.
Qed.

Lemma state_survives_file_witness :
  storable sampleState ∧ parseState (printState sampleState) = sampleState ∧ length (printState sampleState) = 316%nat.
Proof.
  split; [apply sampleState_storable|]. split; [apply (state_survives_file _ sampleState_storable)|vm_compute; reflexivity].
Defined.

(** ** The names of the anchors *)

Lemma lexLe_refl a : lexLe a a = true.
Proof. induction a as [|x a IH]; [done|]. cbn. by rewrite Z.eqb_refl, IH, orb_true_r. Qed.

#[export] Instance nameLe_trans : Transitive nameLe.
Proof.
  intros a. unfold nameLe. induction a as [|x a IH]; intros [|y b] [|z c]; cbn; try done.
  intros [?|[? ?]%andb_true_iff]%orb_true_iff [?|[? ?]%andb_true_iff]%orb_true_iff; apply orb_true_iff; try (left; lia).
  right. apply andb_true_iff. split; [lia|by eapply IH].
Qed.

#[export] Instance nameLe_antisym : AntiSymm (=) nameLe.
Proof.
  intros a. unfold nameLe. induction a as [|x a IH]; intros [|y b]; cbn; try done.
  intros [?|[? ?]%andb_true_iff]%orb_true_iff [?|[? ?]%andb_true_iff]%orb_true_iff; try lia.
  f_equal; [lia|by apply IH].
Qed.

#[export] Instance nameLe_total : Total nameLe.
Proof.
  intros a. unfold nameLe. induction a as [|x a IH]; intros [|y b]; cbn; auto.
  destruct (Z.lt_trichotomy x y) as [?|[->|?]].
  - left. apply orb_true_iff. left. lia.
  - destruct (IH b) as [H|H]; [left|right]; apply orb_true_iff; right; rewrite Z.eqb_refl; done.
  - right. apply orb_true_iff. left. lia.
Qed.

Lemma lexLe_digits s t x : length s = length t → Forall (λ c, 48 ≤ c ≤ 57) s → Forall (λ c, 48 ≤ c ≤ 57) t →
  decimalValue s ≤ decimalValue t → lexLe (s ++ x) (t ++ x) = true.
Proof.
  revert t. induction s as [|a s IH]; intros [|b t] Hl Hs Ht Hv; try done; [apply lexLe_refl|].
  injection Hl as Hl. apply Forall_cons in Hs as [Ha Hs], Ht as [Hb Ht]. rewrite !decimalValue_cons in Hv.
  pose proof (decimalValue_bounds s Hs). pose proof (decimalValue_bounds t Ht). rewrite Hl in *. cbn.
  destruct (Z.lt_trichotomy a b) as [?|[->|?]].
  - apply orb_true_iff. left. lia.
  - rewrite Z.eqb_refl, IH by (done || lia). by rewrite orb_true_r.
  - nia.
Qed.

Definition nameDigits (i : nat) : bytes := repeat 48 (6 - length (toString (Z.of_nat i))) ++ toString (Z.of_nat i).

Lemma anchorName_digits i : anchorName i = nameDigits i ++ kAnchorSuffix.
Proof. unfold anchorName, nameDigits. by rewrite <- app_assoc. Qed.

Lemma toString_nat i : toString (Z.of_nat i) = magnitude (Z.of_nat i).
Proof. rewrite toString_form. by rewrite (proj2 (Z.ltb_ge _ _)) by lia. Qed.

Lemma nameDigits_digits i : Forall (λ c, 48 ≤ c ≤ 57) (nameDigits i).
Proof.
  unfold nameDigits. rewrite toString_nat. apply Forall_app; split; [|apply magnitude_digits].
  apply List.Forall_forall. intros c ->%repeat_spec. lia.
Qed.

Lemma nameDigits_value i : decimalValue (nameDigits i) = Z.of_nat i.
Proof.
  unfold nameDigits. rewrite toString_nat. unfold decimalValue. rewrite foldl_app.
  assert (∀ k, foldl (λ n c, n * 10 + (c - 48)) 0 (repeat 48 k) = 0) as -> by (intros k; induction k; [done|]; cbn in *; done).
  rewrite <- (Z.abs_eq (Z.of_nat i)) at 2 by lia. apply magnitude_value.
Qed.

Lemma decimalDigits_length fuel n k : 0 ≤ n < 10 ^ Z.of_nat (S k) → (length (decimalDigits fuel n) ≤ S k)%nat.
Proof.
  revert fuel n. induction k as [|k IH]; intros [|fuel] n Hn; cbn [decimalDigits length]; try lia.
  - rewrite (proj2 (Z.ltb_lt n 10)) by (cbn in Hn; lia). done.
  - case_match; [cbn; lia|]. rewrite length_app. cbn [length]. enough (length (decimalDigits fuel (n / 10)) ≤ S k)%nat by lia.
    apply IH. rewrite Nat2Z.inj_succ, Z.pow_succ_r in Hn by lia. split; [apply Z.div_pos; lia|apply Z.div_lt_upper_bound; lia].
Qed.

Lemma nameDigits_length i : Z.of_nat i < 1000000 → length (nameDigits i) = 6%nat.
Proof.
  intros Hi. unfold nameDigits. rewrite toString_nat, length_app, repeat_length.
  enough (length (magnitude (Z.of_nat i)) ≤ 6)%nat by lia. apply (decimalDigits_length _ _ 5). rewrite Z.abs_eq by lia. cbn. lia.
Qed.

#[export] Instance anchorName_inj : Inj (=) (=) anchorName.
Proof.
  intros i j. rewrite !anchorName_digits. intros E%app_inv_tail. apply Nat2Z.inj. rewrite <- !nameDigits_value. by rewrite E.
Qed.

Lemma anchorName_le i j : (i ≤ j)%nat → Z.of_nat j < 1000000 → nameLe (anchorName i) (anchorName j).
Proof.
  intros Hij Hj. unfold nameLe. rewrite !anchorName_digits. apply lexLe_digits; [|apply nameDigits_digits..|].
  - by rewrite !nameDigits_length by lia.
  - rewrite !nameDigits_value. lia.
Qed.

Lemma anchorName_suffix i : hasSuffix (anchorName i) = true.
Proof.
  rewrite anchorName_digits. unfold hasSuffix. rewrite length_app, Nat.add_sub, drop_app_length, bool_decide_eq_true_2, andb_true_r by done.
  apply Nat.ltb_lt. enough (0 < length (nameDigits i))%nat by lia. unfold nameDigits. rewrite length_app, repeat_length. lia.
Qed.

(** ** The anchors are read back *)

(** What staging holds when the anchors from the [i]th on are written. *)
Fixpoint storedFrom (i : nat) (l : list bytes) (dir : Dir) : Dir :=
  match l with [] => dir | a :: l => storedFrom (S i) l (<[anchorName i := a]> dir) end.
Definition stored (l : list bytes) : Dir := storedFrom 0 l ∅.

Lemma lookup_storedFrom l i dir k v : (∀ j, (i ≤ j)%nat → dir !! anchorName j = None) →
  storedFrom i l dir !! k = Some v ↔ dir !! k = Some v ∨ ∃ j, k = anchorName (i + j) ∧ l !! j = Some v.
Proof.
  revert i dir. induction l as [|a l IH]; intros i dir Hd; cbn [storedFrom].
  - split; [by left|]. by intros [?|(j&_&?)].
  - rewrite IH.
    + rewrite lookup_insert_Some. split.
      * intros [[[<- <-]|[Hne ?]]|(j&->&?)]; [right; exists 0%nat; by rewrite Nat.add_0_r|by left|].
        right. exists (S j). by rewrite Nat.add_succ_r.
      * intros [Hk|([|j]&->&Hj)].
        -- left. right. split; [|done]. intros <-. by rewrite Hd in Hk.
        -- left. left. cbn in Hj. rewrite Nat.add_0_r. by simplify_eq.
        -- right. exists j. by rewrite Nat.add_succ_r.
    + intros j Hj. rewrite lookup_insert_ne by (intros E%(inj anchorName); lia). apply Hd. lia.
Qed.

Lemma lookup_stored l k v : stored l !! k = Some v ↔ ∃ j, k = anchorName j ∧ l !! j = Some v.
Proof.
  unfold stored. rewrite lookup_storedFrom by (intros; apply lookup_empty). rewrite lookup_empty. naive_solver.
Qed.

Definition namesFor (l : list bytes) : list bytes := map anchorName (seq 0 (length l)).

Lemma anchorFiles_stored l : anchorFiles (stored l) ≡ₚ namesFor l.
Proof.
  unfold anchorFiles. apply NoDup_Permutation.
  - apply NoDup_filter, NoDup_fst_map_to_list.
  - apply (NoDup_fmap_2 anchorName), NoDup_seq.
  - intros k. rewrite list_elem_of_filter, list_elem_of_fmap. unfold namesFor. rewrite list_elem_of_In, in_map_iff. split.
    + intros (_&[k' v]&->&Hk%elem_of_map_to_list). cbn. apply lookup_stored in Hk as (j&->&Hj).
      exists j. split; [done|]. apply in_seq. apply lookup_lt_Some in Hj. lia.
    + intros (j&<-&Hj%in_seq). split; [apply anchorName_suffix|]. destruct (lookup_lt_is_Some_2 l j) as [v Hv]; [lia|].
      exists (anchorName j, v). split; [done|]. apply elem_of_map_to_list, lookup_stored. eauto.
Qed.

Lemma namesFor_sorted l : zlen l ≤ 1000000 → StronglySorted nameLe (namesFor l).
Proof.
  unfold namesFor. intros Hl. assert (∀ k n, Z.of_nat (k + n) ≤ 1000000 → StronglySorted nameLe (map anchorName (seq k n))) as Hs; [|by apply Hs].
  intros k n. revert k. induction n as [|n IH]; intros k Hk; cbn [seq map]; constructor; [apply IH; lia|].
  apply Forall_map, List.Forall_forall. intros j Hj%in_seq. apply anchorName_le; lia.
Qed.

Lemma omap_namesFor (l : list bytes) (look : bytes → option bytes) :
  (∀ j v, l !! j = Some v → look (anchorName j) = Some v) → omap look (namesFor l) = l.
Proof.
  unfold namesFor. intros Hlook.
  assert (∀ (k : nat) (t : list bytes), (∀ j v, t !! j = Some v → look (anchorName (k + j)) = Some v) → omap look (map anchorName (seq k (length t))) = t) as Ht; [|by apply Ht].
  intros k t. revert k. induction t as [|a t IH]; intros k Hk; [done|]. cbn [length seq map omap list_omap].
  rewrite (Hk 0%nat a eq_refl : look (anchorName (k + 0)) = _) || (rewrite <- (Nat.add_0_r k), (Hk 0%nat a eq_refl), Nat.add_0_r).
  f_equal. apply IH. intros j v Hj. specialize (Hk (S j) v Hj). by rewrite Nat.add_succ_r in Hk.
Qed.

Lemma anchors_stored d l : live d = Some (stored l) → zlen l ≤ 1000000 → anchors d = l.
Proof.
  intros Hd Hl. unfold anchors. rewrite Hd. replace (merge_sort nameLe (anchorFiles (stored l))) with (namesFor l).
  - apply omap_namesFor. intros j v Hj. apply lookup_stored. eauto.
  - apply (StronglySorted_unique nameLe); [by apply namesFor_sorted|apply StronglySorted_merge_sort; apply _|].
    by rewrite merge_sort_Permutation, anchorFiles_stored.
Qed.

Lemma elem_of_anchors d a : a ∈ anchors d ↔ ∃ dir name, live d = Some dir ∧ hasSuffix name = true ∧ dir !! name = Some a.
Proof.
  unfold anchors. destruct (live d) as [dir|]; [|split; [by intros ?%not_elem_of_nil|by intros (?&?&?&_)]].
  rewrite list_elem_of_omap. setoid_rewrite merge_sort_Permutation. unfold anchorFiles. split.
  - intros (name&[Hs _]%list_elem_of_filter&Hl). eauto.
  - intros (?&name&[= <-]&Hs&Hl). exists name. split; [|done]. apply list_elem_of_filter. split; [done|].
    apply list_elem_of_fmap. exists (name, a). split; [done|]. by apply elem_of_map_to_list.
Qed.

(** ** How a replacement ends *)

(** The ends: nothing that is read was touched; anchors were removed; the new anchors stand
    under the old state file, or under the beginning of the new one; all was replaced. *)
Inductive Ended (d : Disk) (l : list bytes) (s : AnchorState) : option bool → Disk → Prop :=
| EndedUntouched r d' : r ≠ Some true → stateFile d' = stateFile d → live d' = live d → Ended d l s r d'
| EndedRemoved r d' : r ≠ Some true → stateFile d' = stateFile d →
    (live d' = None ∨ ∃ names, live d' = without names <$> live d) → Ended d l s r d'
| EndedTorn r d' : r ≠ Some true →
    (stateFile d' = stateFile d ∨ ∃ n, stateFile d' = Some (take n (printState s))) → live d' = Some (stored l) → Ended d l s r d'
| EndedWhole d' : stateFile d' = Some (printState s) → live d' = Some (stored l) → Ended d l s (Some true) d'.

Lemma io_abandon Q d : (∀ r st, r ≠ Some true → Q r (setStaging st d)) → wp abandon Q d.
Proof.
  intros HQ. apply io_andThen, io_operation; [by apply io_done, HQ|].
  intros r Hr. assert (setStaging (staging d) d = d) as Ed by by destruct d.
  split; [|intros e]; destruct r as [b|]; try (apply io_done); try (by apply HQ); rewrite <- Ed; by apply HQ.
Qed.

Lemma io_writeAnchors l i dir d : staging d = Some dir →
  wp (writeAnchors i l) (λ r d', stateFile d' = stateFile d ∧ live d' = live d ∧ (r = Some true → staging d' = Some (storedFrom i l dir))) d.
Proof.
  revert i dir d. induction l as [|a l IH]; intros i dir d Hd; cbn [writeAnchors storedFrom]; [by apply io_done|].
  apply io_andThen, io_operation.
  - rewrite Hd. cbn [fst snd]. by apply (IH (S i) (<[anchorName i:=a]> dir) (setStaging _ d)).
  - intros [[]|] Hr; [done|..]; (split; [|intros e]); try done; by apply io_abandon.
Qed.

Lemma io_replace l s d : wp (replace l s) (Ended d l s) d.
Proof.
  unfold replace. apply io_andThen, io_operation; cbn [fst snd negb];
    [|intros [[]|] ?; (split; [|intros ?]); try done; cbn [negb]; try apply io_done; by apply EndedUntouched].
  apply io_andThen, io_operation; cbn [fst snd negb];
    [|intros [[]|] ?; (split; [|intros ?]); try done; cbn [negb]; try apply io_done; by apply EndedUntouched].
  apply io_andThen, io_operation; cbn [fst snd negb setStaging staging];
    [|intros [[]|] ?; (split; [|intros ?]); try done; cbn [negb]; try apply io_done; by apply EndedUntouched].
  apply io_andThen. eapply io_mono, (io_writeAnchors l 0 ∅); [|done]. intros r d1 (Hs&Hl&Hst).
  destruct r as [[]|]; cbn [negb]; [|by apply io_done, EndedUntouched|by apply EndedUntouched].
  specialize (Hst eq_refl). apply io_andThen, io_operation; cbn [fst snd negb].
  2:{ intros [[]|] ?; (split; [|intros e]); try done; cbn [negb]; try (apply io_abandon; intros r' st ?).
      all: apply EndedRemoved; [done|exact Hs|]; right; cbn in *; rewrite ?Hl; first [by exists (removed e) | exists []; by destruct (live d)]. }
  apply io_andThen, io_operation; cbn [fst snd negb setLive staging]; rewrite Hst; cbn [fst snd negb].
  2:{ intros [[]|] ?; (split; [|intros e]); try done; cbn [negb]; try (apply io_abandon; intros r' st ?).
      all: first [apply EndedRemoved; [done|exact Hs|by left] | apply EndedTorn; [done|by left|done]]. }
  apply io_operation; cbn [fst snd]; [by apply EndedWhole|].
  intros r Hr. split; [apply EndedTorn; [done|by left|done]|]. intros e. apply EndedTorn; [done| |done]. right. by exists (written e).
Qed.

Lemma works_writeAnchors l i dir d : staging d = Some dir →
  works (writeAnchors i l) (λ ok d', ok = true ∧ staging d' = Some (storedFrom i l dir)) d.
Proof.
  revert i dir d. induction l as [|a l IH]; intros i dir d Hd; cbn [writeAnchors storedFrom]; [by intros ? ?|].
  apply works_andThen, works_operation. rewrite Hd. cbn [fst snd]. by apply IH.
Qed.

Lemma works_replace l s d : works (replace l s) (λ ok _, ok = true) d.
Proof.
  unfold replace. do 3 (apply works_andThen, works_operation; cbn [fst snd negb setStaging staging]).
  apply works_andThen. intros faults Hf.
  pose proof (works_writeAnchors l 0 ∅ (setStaging (Some ∅) (setStaging None d)) eq_refl faults Hf) as Hw.
  destruct (writeAnchors 0 l faults _) as [[[ok|] faults'] d1]; [|done]. destruct Hw as (Hf'&->&Hd). split; [done|]. cbn [negb].
  do 2 (apply works_andThen, works_operation; cbn [fst snd negb setLive staging]; rewrite ?Hd; cbn [fst snd negb]).
  by apply works_operation.
Qed.

Lemma without_lookup names dir k v : without names dir !! k = Some v → dir !! k = Some v.
Proof. unfold without. induction names as [|n names IH]; [done|]. cbn. intros [_ ?]%lookup_delete_Some. by apply IH. Qed.

Lemma replacement_spec l s faults d : storable s → zlen l ≤ 1000000 →
  let '(r, _, d') := replace l s faults d in
  match r with
  | Some true => state d' = s ∧ anchors d' = l
  | _ => state d' = state d ∧ (∀ a, a ∈ anchors d' → a ∈ anchors d)
         ∨ anchors d' = l ∧ (state d' = state d ∨ ∃ n, stateFile d' = Some (take n (printState s)))
  end ∧ (Forall (eq Works) faults → r = Some true).
Proof.
  intros Hs Hl. pose proof (io_replace l s d faults) as Hw. pose proof (works_replace l s d faults) as Ho.
  destruct (replace l s faults d) as [[r faults'] d']. split.
  2:{ intros Hf. specialize (Ho Hf). destruct r as [ok|]; [|done]. by destruct Ho as [_ ->]. }
  destruct Hw as [r d' Hr Est El|r d' Hr Est El|r d' Hr Est El|d' Est El].
  - destruct r as [[]|]; [done|left; unfold state; rewrite Est; split; [done|]; intros a; rewrite !elem_of_anchors, El; done..].
  - assert (∀ a, a ∈ anchors d' → a ∈ anchors d) as Ha.
    { intros a. rewrite !elem_of_anchors. intros (dir&name&E&Hn&Hd). destruct El as [El|[names El]]; [congruence|].
      rewrite El in E. apply fmap_Some in E as (dir'&E&->). exists dir', name. eauto using without_lookup. }
    destruct r as [[]|]; [done|left; unfold state; rewrite Est; done..].
  - pose proof (anchors_stored d' l El Hl) as Ha.
    assert (state d' = state d ∨ ∃ n, stateFile d' = Some (take n (printState s))) as Hd.
    { destruct Est as [Est|?]; [left; unfold state; by rewrite Est|by right]. }
    destruct r as [[]|]; [done|by right..].
  - split; [|by apply anchors_stored]. unfold state. rewrite Est. by apply state_survives.
Qed.

(** C24: however a replacement of the store ends (any operation on the disk may fail, or the
    process may end in it, with a part of its work done), it either reports success with
    exactly the new state and the new anchors in their order, or one of two things is left:
    the old state over anchors that are all old ones, or all the new anchors under the old
    state file or a beginning of the new one. A set of anchors mixed from both imports is never
    left. On a disk that works it succeeds. *)
Theorem replacement_ends l s faults d : storable s → zlen l ≤ 1000000 →
  let '(r, _, d') := replace l s faults d in
  match r with
  | Some true => state d' = s ∧ anchors d' = l
  | _ => state d' = state d ∧ (∀ a, a ∈ anchors d' → a ∈ anchors d)
         ∨ anchors d' = l ∧ (state d' = state d ∨ ∃ n, stateFile d' = Some (take n (printState s)))
  end ∧ (Forall (eq Works) faults → r = Some true).
Proof. apply replacement_spec. Qed.

(** A store with one publisher and two anchors, and the import that replaces it. *)
Definition oldState : AnchorState :=
  mkState true [mkSigner (sampleFingerprint 1) true (Some 1700000000)] 2 1 1 [] 1700000100.
Definition newState : AnchorState :=
  mkState true [mkSigner (sampleFingerprint 1) true (Some 1800000000)] 3 1 1 [] 1800000100.
Definition oldDisk : Disk := mkDisk (Some (printState oldState)) (Some (stored [[1]; [2]])) None.

Lemma newState_storable : storable newState.
Proof.
  unfold storable, newState, int64, uint32. cbn [present signers anchorCount issuerCount listsOffered refusedLists acceptedAt].
  split; [done|]. split; [done|]. split; [|split; [constructor|cbn; lia]].
  constructor; [split; [apply sampleFingerprint_ok; unfold byte_; lia|intros d [= <-]; lia]|constructor].
Qed.

Lemma replacement_ends_witness :
  (let '(r, _, d') := replace [[1]; [3]; [4]] newState [] oldDisk in
   r = Some true ∧ state d' = newState ∧ anchors d' = [[1]; [3]; [4]]) ∧
  (let '(r, _, d') := replace [[1]; [3]; [4]] newState [Works; Works; Works; Works; Fails (Some (mkExtent 0 []))] oldDisk in
   r = Some false ∧ state d' = oldState ∧ anchors d' = [[1]; [2]]).
Proof.
  assert (zlen ([[1]; [3]; [4]] : list bytes) ≤ 1000000) as Hl by (cbn; lia).
  pose proof (replacement_ends [[1]; [3]; [4]] newState [] oldDisk newState_storable Hl) as Hw.
  split; [|vm_compute; done].
  destruct (replace _ _ _ _) as [[r fs] d']. destruct Hw as [Hw Hr]. specialize (Hr (Forall_nil_2 _)). subst r. by destruct Hw.
Defined.

(** ** Torn writes

    The process ends after the new anchors are in place and before the state file is: the
    old state is believed over anchors it never named. *)
Example old_state_over_new_anchors :
  let '(r, _, d') := replace [[1]; [3]; [4]] newState (repeat Works 8 ++ [Dies None]) oldDisk in
  r = None ∧ state d' = oldState ∧ present (state d') = true ∧ anchors d' = [[1]; [3]; [4]].
Proof. vm_compute. done. Qed.

(** The state file is cut inside the date of its publisher: the rest is a date, an older one,
    and a list that is older than either import is a newer one for the next. *)
Example cut_date_is_an_older_date :
  let '(r, _, d') := replace [[1]; [3]; [4]] newState (repeat Works 8 ++ [Dies (Some (mkExtent 133 []))]) oldDisk in
  r = None ∧ present (state d') = true ∧ map signedAt (signers (state d')) = [Some 1800].
Proof. vm_compute. done. Qed.

End AnchorStore.
