(* ===== verification/AnchorImport.v ===== *)
(** * Importing country signing anchors

    Models [importMasterList] of [src/trust/CscaAnchorImport.cpp]: the lists of a file are
    judged one by one against what the store remembers, signers that are not on record must
    be newer than the publishers they displace, and the union of what is left replaces the
    store. The cryptographic judgements are those of the middleware, an interface here. The
    theorems say whom an import follows, that the dates of a publisher only grow, that
    a refusal leaves the disk alone, and that the order of the lists does not matter. *)
From stdpp Require Import gmap sorting.
From S2P Require Import Prelude Text MasterLists TextFiles Storage AnchorStore.
Local Open Scope Z_scope.

Module AnchorImport.
Import MasterLists TextFiles Storage AnchorStore.

(** ** The trust interface of the middleware *)

Inductive MasterListError := ListNotAMasterList | ListEmpty | ListMalformed | ListBadSignature | ListSignerMismatch.

Record VerifiedMasterList := mkVerified {
  signerSpkiSha256 : SignerFingerprint; signerCertDer : bytes; listAnchors : list bytes; signingTimeEpochSeconds : option Z }.

(** Verification of a list, by any signer it has or by one that is given; whether a
    certificate chains to one of the anchors; the country of a certificate's subject, if it
    parses. *)
Class TrustApi := {
  parseAndVerifyMasterList : bytes → option SignerFingerprint → MasterListError + VerifiedMasterList;
  signerChainsToAnyAnchor : bytes → list bytes → bool;
  subjectCountry : bytes → option bytes }.

(** What the interface documents: a list that is verified against a signer is reported under
    it; fingerprints and dates are values of their types. *)
Class TrustLaws (api : TrustApi) : Prop := {
  pinned_signer l f v : parseAndVerifyMasterList l (Some f) = inr v → signerSpkiSha256 v = f;
  verified_values l p v : parseAndVerifyMasterList l p = inr v →
    fingerprintOk (signerSpkiSha256 v) ∧ ∀ t, signingTimeEpochSeconds v = Some t → int64 t }.

Definition refusalFor (e : MasterListError) : ImportRefusal :=
  match e with
  | ListNotAMasterList => NotAMasterList
  | ListEmpty => Empty
  | ListMalformed => Malformed
  | ListBadSignature => BadSignature
  | ListSignerMismatch => SignerChanged
  end.

Record ListRefusal := mkListRefusal {
  lr_reason : ImportRefusal; lr_signer : option SignerFingerprint; lr_seenSignedAt : option Z; lr_trustedSignedAt : option Z }.

Record Refusal := mkRefusal {
  reason : ImportRefusal; seenSigner : option SignerFingerprint; trustedSigner : option SignerFingerprint;
  seenSignedAt : option Z; trustedSignedAt : option Z; refusedOffered : Z }.

Section Import.
Context {api : TrustApi}.

Definition countIssuers (l : list bytes) : Z :=
  u32 (Z.of_nat (size (list_to_set (map (λ der, default [] (subjectCountry der)) l) : gset bytes))).

(** ** One list *)

Definition replayRefusal (prior : AnchorState) (incoming : VerifiedMasterList) : option ListRefusal :=
  match recordFor prior (signerSpkiSha256 incoming) with
  | None => None
  | Some record =>
      match signedAt record with
      | None => None
      | Some t =>
          let offered := signingTimeEpochSeconds incoming in
          if match offered with Some o => t <? o | None => false end then None
          else Some (mkListRefusal Replayed (Some (signerSpkiSha256 incoming)) offered (Some t))
      end
  end.

(** The loop over the records: the first that the list verifies against. *)
Fixpoint firstPinned (list_ : bytes) (records : list AcceptedSigner) : option VerifiedMasterList :=
  match records with
  | [] => None
  | record :: records =>
      match parseAndVerifyMasterList list_ (Some (fingerprint record)) with
      | inr pinned => Some pinned
      | inl _ => firstPinned list_ records
      end
  end.

Definition measured (prior : AnchorState) (v : VerifiedMasterList) : ListRefusal + VerifiedMasterList :=
  match replayRefusal prior v with Some refusal => inl refusal | None => inr v end.

Definition judge (prior : AnchorState) (vouching : list bytes) (list_ : bytes) : ListRefusal + VerifiedMasterList :=
  match parseAndVerifyMasterList list_ None with
  | inl e => inl (mkListRefusal (refusalFor e) None None None)
  | inr seen =>
      if negb (present prior) then measured prior seen
      else
        let chosen :=
          match recordFor prior (signerSpkiSha256 seen) with
          | Some _ => Some seen
          | None => firstPinned list_ (signers prior)
          end in
        match chosen with
        | Some v => measured prior v
        | None =>
            if negb (signerChainsToAnyAnchor (signerCertDer seen) vouching)
            then inl (mkListRefusal SignerChanged (Some (signerSpkiSha256 seen)) None None)
            else measured prior seen
        end
  end.

(** ** Pass one *)

Record Judged := mkJudged { admitted : list VerifiedMasterList; j_refused : list RefusedList; j_first : option ListRefusal }.

Definition firstOf (first : option ListRefusal) (refusal : ListRefusal) : option ListRefusal :=
  match first with Some _ => first | None => Some refusal end.

Definition judgeNext (prior : AnchorState) (vouching : list bytes) (j : Judged) (list_ : bytes) : Judged :=
  match judge prior vouching list_ with
  | inl refusal =>
      mkJudged (admitted j) (j_refused j ++ [mkRefused (lr_reason refusal) (lr_signer refusal)]) (firstOf (j_first j) refusal)
  | inr v => mkJudged (admitted j ++ [v]) (j_refused j) (j_first j)
  end.

Definition passOne (prior : AnchorState) (vouching : list bytes) (lists : list bytes) : Judged :=
  foldl (judgeNext prior vouching) (mkJudged [] [] None) lists.

(** The newest date among the publishers that are not in the file. *)
Definition displacedNext (admitted_ : list VerifiedMasterList) (displaced : option Z) (record : AcceptedSigner) : option Z :=
  match signedAt record with
  | None => displaced
  | Some t =>
      if existsb (λ v, bool_decide (signerSpkiSha256 v = fingerprint record)) admitted_ then displaced
      else match displaced with
           | None => Some t
           | Some d => if d <? t then Some t else displaced
           end
  end.

Definition displacedAt (prior : AnchorState) (admitted_ : list VerifiedMasterList) : option Z :=
  if present prior then foldl (displacedNext admitted_) None (signers prior) else None.

(** ** Pass two *)

Record Union := mkUnion {
  u_signers : list AcceptedSigner; u_anchors : list bytes; alreadyHeld : gset bytes;
  u_refused : list RefusedList; u_first : option ListRefusal }.

Definition belowBar (prior : AnchorState) (displaced : option Z) (v : VerifiedMasterList) : option ListRefusal :=
  match displaced, recordFor prior (signerSpkiSha256 v) with
  | Some d, None =>
      let offered := signingTimeEpochSeconds v in
      if match offered with Some o => o <=? d | None => true end
      then Some (mkListRefusal Replayed (Some (signerSpkiSha256 v)) offered (Some d)) else None
  | _, _ => None
  end.

Definition later (a b : option Z) : option Z :=
  match b with
  | Some tb => match a with Some ta => if ta <? tb then b else a | None => b end
  | None => a
  end.

(** The record of the publisher: the later date if it has one, else a new one at the end. *)
Fixpoint recordSigner (established : bool) (v : VerifiedMasterList) (records : list AcceptedSigner) : list AcceptedSigner :=
  match records with
  | [] => [mkSigner (signerSpkiSha256 v) established (signingTimeEpochSeconds v)]
  | r :: records =>
      if bool_decide (fingerprint r = signerSpkiSha256 v)
      then mkSigner (fingerprint r) (identityEstablished r) (later (signedAt r) (signingTimeEpochSeconds v)) :: records
      else r :: recordSigner established v records
  end.

Definition holdAnchor (h : list bytes * gset bytes) (anchor : bytes) : list bytes * gset bytes :=
  if bool_decide (anchor ∈ h.2) then h else (h.1 ++ [anchor], {[anchor]} ∪ h.2).

Definition uniteNext (prior : AnchorState) (displaced : option Z) (u : Union) (v : VerifiedMasterList) : Union :=
  match belowBar prior displaced v with
  | Some refusal =>
      mkUnion (u_signers u) (u_anchors u) (alreadyHeld u)
        (u_refused u ++ [mkRefused (lr_reason refusal) (lr_signer refusal)]) (firstOf (u_first u) refusal)
  | None =>
      let h := foldl holdAnchor (u_anchors u, alreadyHeld u) (listAnchors v) in
      mkUnion (recordSigner (present prior) v (u_signers u)) h.1 h.2 (u_refused u) (u_first u)
  end.

Definition passTwo (prior : AnchorState) (j : Judged) : Union :=
  foldl (uniteNext prior (displacedAt prior (admitted j))) (mkUnion [] [] ∅ (j_refused j) (j_first j)) (admitted j).

(** ** The import *)

Definition offeredLists (der : bytes) : list bytes := match masterListsIn der with [] => [der] | lists => lists end.

Definition onlyFollowed (prior : AnchorState) : option SignerFingerprint :=
  match signers prior with [r] => if present prior then Some (fingerprint r) else None | _ => None end.

Definition decideOn (prior : AnchorState) (vouching : list bytes) (lists : list bytes) : Union :=
  passTwo prior (passOne prior vouching lists).

Definition nextState (u : Union) (offered : Z) (now : Z) : AnchorState :=
  mkState true (u_signers u) (u32 (zlen (u_anchors u))) (countIssuers (u_anchors u)) (u32 offered) (u_refused u) now.

Definition importMasterList (der : bytes) (now : Z) : IO (Refusal + AnchorState) := λ faults d,
  let prior := state d in
  let vouching := if present prior then anchors d else [] in
  let lists := offeredLists der in
  let u := decideOn prior vouching lists in
  if bool_decide (u_signers u = []) then
    let first := default (mkListRefusal NotAMasterList None None None) (u_first u) in
    done_ (inl (mkRefusal (lr_reason first) (if (length lists =? 1)%nat then lr_signer first else None) (onlyFollowed prior)
      (lr_seenSignedAt first) (lr_trustedSignedAt first) (u32 (zlen lists)))) faults d
  else
    let next := nextState u (zlen lists) now in
    andThen (replace (u_anchors u) next) (λ ok,
      if negb ok then
        done_ (inl (mkRefusal CacheNotWritable (match signers next with [r] => Some (fingerprint r) | _ => None end)
          (onlyFollowed prior) None None (listsOffered next)))
      else done_ (inr next)) faults d.

(** [discardStaleAnchorReport]: whether the report in the configuration is to be reset. *)
Definition discardStaleAnchorReport (reported : bool) (d : Disk) : bool :=
  if negb reported then false
  else
    let anchorsHeld := holdsAnchor d in
    let signerHeld := present (state d) in
    negb (anchorsHeld && signerHeld).

(** ** What the passes compute *)

Definition verdictOk (prior : AnchorState) (vouching : list bytes) (l : bytes) : option VerifiedMasterList :=
  match judge prior vouching l with inr v => Some v | inl _ => None end.
Definition verdictRefused (prior : AnchorState) (vouching : list bytes) (l : bytes) : option RefusedList :=
  match judge prior vouching l with inl e => Some (mkRefused (lr_reason e) (lr_signer e)) | inr _ => None end.

Lemma judgeNext_fold prior vouching lists j :
  admitted (foldl (judgeNext prior vouching) j lists) = admitted j ++ omap (verdictOk prior vouching) lists ∧
  j_refused (foldl (judgeNext prior vouching) j lists) = j_refused j ++ omap (verdictRefused prior vouching) lists.
Proof.
  revert j. induction lists as [|l lists IH]; intros j; cbn [foldl omap list_omap]; [by rewrite !app_nil_r|].
  destruct (IH (judgeNext prior vouching j l)) as [-> ->]. unfold judgeNext, verdictOk, verdictRefused.
  destruct (judge prior vouching l); cbn; by rewrite <- ?app_assoc.
Qed.

Lemma passOne_admitted prior vouching lists : admitted (passOne prior vouching lists) = omap (verdictOk prior vouching) lists.
Proof. apply (judgeNext_fold prior vouching lists (mkJudged [] [] None)). Qed.

Lemma passOne_refused prior vouching lists : j_refused (passOne prior vouching lists) = omap (verdictRefused prior vouching) lists.
Proof. apply (judgeNext_fold prior vouching lists (mkJudged [] [] None)). Qed.

(** The lists that pass the bar, and the refusals of those that do not. *)
Definition clears (prior : AnchorState) (displaced : option Z) (v : VerifiedMasterList) : bool :=
  match belowBar prior displaced v with None => true | Some _ => false end.
Definition barRefused (prior : AnchorState) (displaced : option Z) (v : VerifiedMasterList) : option RefusedList :=
  match belowBar prior displaced v with Some e => Some (mkRefused (lr_reason e) (lr_signer e)) | None => None end.

Definition keptLists (prior : AnchorState) (vouching lists : list bytes) : list VerifiedMasterList :=
  let a := omap (verdictOk prior vouching) lists in filter (λ v, clears prior (displacedAt prior a) v = true) a.

Lemma uniteNext_fold prior displaced vs u :
  let kept := filter (λ v, clears prior displaced v = true) vs in
  let u' := foldl (uniteNext prior displaced) u vs in
  u_signers u' = foldl (λ rs v, recordSigner (present prior) v rs) (u_signers u) kept ∧
  (u_anchors u', alreadyHeld u') = foldl holdAnchor (u_anchors u, alreadyHeld u) (concat (map listAnchors kept)) ∧
  u_refused u' = u_refused u ++ omap (barRefused prior displaced) vs.
Proof.
  cbv zeta. revert u. induction vs as [|v vs IH]; intros u; [cbn; by rewrite app_nil_r|].
  cbn [foldl omap list_omap]. destruct (IH (uniteNext prior displaced u v)) as (->&->&->). clear IH.
  unfold uniteNext, barRefused. rewrite filter_cons.
  destruct (decide (clears prior displaced v = true)) as [H|H]; unfold clears in H; destruct (belowBar prior displaced v) as [e|]; try done.
  - cbn [foldl map concat u_signers u_anchors alreadyHeld u_refused]. rewrite foldl_app. by destruct (foldl holdAnchor _ (listAnchors v)).
  - cbn [u_signers u_anchors alreadyHeld u_refused]. by rewrite <- app_assoc.
Qed.

Lemma decideOn_signers prior vouching lists :
  u_signers (decideOn prior vouching lists) = foldl (λ rs v, recordSigner (present prior) v rs) [] (keptLists prior vouching lists).
Proof.
  unfold decideOn, passTwo, keptLists. rewrite <- passOne_admitted.
  apply (uniteNext_fold prior _ _ (mkUnion [] [] ∅ _ _)).
Qed.

Lemma decideOn_anchors prior vouching lists :
  u_anchors (decideOn prior vouching lists) = (foldl holdAnchor ([], ∅) (concat (map listAnchors (keptLists prior vouching lists)))).1.
Proof.
  unfold decideOn, passTwo, keptLists. rewrite <- passOne_admitted.
  destruct (uniteNext_fold prior (displacedAt prior (admitted (passOne prior vouching lists))) (admitted (passOne prior vouching lists))
    (mkUnion [] [] ∅ (j_refused (passOne prior vouching lists)) (j_first (passOne prior vouching lists)))) as (_&H&_).
  cbn [u_anchors alreadyHeld] in H. by rewrite <- H.
Qed.

Lemma decideOn_refused prior vouching lists :
  let a := omap (verdictOk prior vouching) lists in
  u_refused (decideOn prior vouching lists) = omap (verdictRefused prior vouching) lists ++ omap (barRefused prior (displacedAt prior a)) a.
Proof.
  cbv zeta. unfold decideOn, passTwo. rewrite <- passOne_admitted, <- passOne_refused.
  apply (uniteNext_fold prior _ _ (mkUnion [] [] ∅ _ _)).
Qed.

(** ** Records *)

Definition findRecord (f : SignerFingerprint) (rs : list AcceptedSigner) : option AcceptedSigner :=
  List.find (λ r, bool_decide (fingerprint r = f)) rs.

Lemma recordFor_find s f : recordFor s f = findRecord f (signers s).
Proof. done. Qed.

Lemma findRecord_Some f rs r : findRecord f rs = Some r → r ∈ rs ∧ fingerprint r = f.
Proof. intros [H1 H2]%List.find_some. apply bool_decide_eq_true in H2. split; [by apply list_elem_of_In|done]. Qed.

Lemma findRecord_None f rs : findRecord f rs = None → ∀ r, r ∈ rs → fingerprint r ≠ f.
Proof. intros H r Hr. apply list_elem_of_In in Hr. by pose proof (List.find_none _ _ H r Hr) as ?%bool_decide_eq_false. Qed.

Lemma findRecord_unique rs r : NoDup (map fingerprint rs) → findRecord (fingerprint r) rs = Some r ↔ r ∈ rs.
Proof.
  intros Hn. split; [by intros []%findRecord_Some|].
  induction rs as [|x rs IH]; [by intros ?%not_elem_of_nil|]. cbn [map] in Hn. apply NoDup_cons in Hn as [Hx Hn].
  intros [->|Hr]%elem_of_cons; cbn; [by rewrite bool_decide_eq_true_2|].
  rewrite bool_decide_eq_false_2; [by apply IH|]. intros E. apply Hx. rewrite E. by apply (list_elem_of_fmap_2 fingerprint).
Qed.

Lemma findRecord_recordSigner established v rs f :
  findRecord f (recordSigner established v rs) =
  if bool_decide (f = signerSpkiSha256 v) then
    Some (match findRecord f rs with
          | Some r => mkSigner f (identityEstablished r) (later (signedAt r) (signingTimeEpochSeconds v))
          | None => mkSigner f established (signingTimeEpochSeconds v)
          end)
  else findRecord f rs.
Proof.
  induction rs as [|x rs IH]; cbn [recordSigner].
  - cbn. destruct (decide (f = signerSpkiSha256 v)) as [->|Hne].
    + by rewrite !bool_decide_eq_true_2.
    + by rewrite !bool_decide_eq_false_2.
  - destruct (decide (fingerprint x = signerSpkiSha256 v)) as [Ex|Ex].
    + rewrite (bool_decide_eq_true_2 (fingerprint x = _)) by done. cbn. destruct (decide (f = signerSpkiSha256 v)) as [->|Hne].
      * rewrite !bool_decide_eq_true_2 by done. by rewrite Ex.
      * rewrite !bool_decide_eq_false_2 by congruence. done.
    + rewrite (bool_decide_eq_false_2 (fingerprint x = signerSpkiSha256 v)) by done. cbn. destruct (decide (fingerprint x = f)) as [<-|Hx].
      * rewrite (bool_decide_eq_true_2 (fingerprint x = fingerprint x)) by done. by rewrite bool_decide_eq_false_2.
      * rewrite (bool_decide_eq_false_2 (fingerprint x = f)) by done. exact IH.
Qed.

Lemma fingerprints_recordSigner established v rs :
  map fingerprint (recordSigner established v rs) =
  if bool_decide (signerSpkiSha256 v ∈ map fingerprint rs) then map fingerprint rs else map fingerprint rs ++ [signerSpkiSha256 v].
Proof.
  induction rs as [|x rs IH]; cbn [recordSigner map].
  - rewrite bool_decide_eq_false_2; [done|]. by intros ?%not_elem_of_nil.
  - destruct (decide (fingerprint x = signerSpkiSha256 v)) as [Ex|Ex].
    + rewrite (bool_decide_eq_true_2 (fingerprint x = _)) by done. cbn [map]. cbn [fingerprint]. rewrite bool_decide_eq_true_2; [done|]. rewrite Ex. by left.
    + rewrite (bool_decide_eq_false_2 (fingerprint x = _)) by done. cbn [map]. rewrite IH. destruct (decide (signerSpkiSha256 v ∈ map fingerprint rs)) as [H|H].
      * rewrite (bool_decide_eq_true_2 (signerSpkiSha256 v ∈ map fingerprint rs)) by done. rewrite bool_decide_eq_true_2; [done|by right].
      * rewrite (bool_decide_eq_false_2 (signerSpkiSha256 v ∈ map fingerprint rs)) by done. rewrite bool_decide_eq_false_2; [done|]. by intros [E|?]%elem_of_cons.
Qed.

Definition recordAll (established : bool) (vs : list VerifiedMasterList) : list AcceptedSigner :=
  foldl (λ rs v, recordSigner established v rs) [] vs.

(** The latest date of a publisher among the lists. *)
Definition latest (f : SignerFingerprint) (vs : list VerifiedMasterList) : option Z :=
  foldl (λ t v, if bool_decide (f = signerSpkiSha256 v) then later t (signingTimeEpochSeconds v) else t) None vs.

Lemma recordAll_snoc established vs v : recordAll established (vs ++ [v]) = recordSigner established v (recordAll established vs).
Proof. unfold recordAll. by rewrite foldl_app. Qed.

Lemma latest_snoc f vs v :
  latest f (vs ++ [v]) = if bool_decide (f = signerSpkiSha256 v) then later (latest f vs) (signingTimeEpochSeconds v) else latest f vs.
Proof. unfold latest. by rewrite foldl_app. Qed.

Lemma recordAll_nodup established vs : NoDup (map fingerprint (recordAll established vs)).
Proof.
  induction vs as [|v vs IH] using rev_ind; [constructor|]. rewrite recordAll_snoc, fingerprints_recordSigner.
  case_bool_decide as H; [done|]. apply NoDup_app. split; [done|]. split; [|apply NoDup_singleton]. by intros f Hf ->%list_elem_of_singleton.
Qed.

Lemma latest_absent f vs : f ∉ map signerSpkiSha256 vs → latest f vs = None.
Proof.
  induction vs as [|v vs IH] using rev_ind; [done|]. rewrite map_app, latest_snoc. cbn [map]. intros Hf.
  rewrite bool_decide_eq_false_2; [apply IH|]; set_solver.
Qed.

Lemma findRecord_recordAll established vs f :
  findRecord f (recordAll established vs) =
  if bool_decide (f ∈ map signerSpkiSha256 vs) then Some (mkSigner f established (latest f vs)) else None.
Proof.
  induction vs as [|v vs IH] using rev_ind; [done|].
  rewrite recordAll_snoc, findRecord_recordSigner, IH, latest_snoc, map_app. cbn [map]. clear IH.
  destruct (decide (f = signerSpkiSha256 v)) as [E|E].
  - rewrite (bool_decide_eq_true_2 (f = _)) by done. rewrite (bool_decide_eq_true_2 (f ∈ _ ++ _)) by set_solver.
    destruct (decide (f ∈ map signerSpkiSha256 vs)) as [H|H].
    + by rewrite (bool_decide_eq_true_2 (f ∈ _)).
    + rewrite (bool_decide_eq_false_2 (f ∈ _)) by done. rewrite latest_absent by done.
      by destruct (signingTimeEpochSeconds v).
  - rewrite (bool_decide_eq_false_2 (f = _)) by done. do 2 case_bool_decide; done || set_solver.
Qed.

Lemma elem_of_recordAll established vs r :
  r ∈ recordAll established vs ↔
  fingerprint r ∈ map signerSpkiSha256 vs ∧ identityEstablished r = established ∧ signedAt r = latest (fingerprint r) vs.
Proof.
  rewrite <- (findRecord_unique _ r (recordAll_nodup established vs)), findRecord_recordAll. case_bool_decide as H.
  - destruct r as [f e t]. cbn. split; [by intros [= <- <-]|]. by intros (_&->&->).
  - split; [done|]. by intros (?&_).
Qed.

Lemma later_spec a b t : later a b = Some t →
  (a = Some t ∨ b = Some t) ∧ (∀ u, a = Some u → u ≤ t) ∧ (∀ u, b = Some u → u ≤ t).
Proof.
  destruct a as [x|], b as [y|]; cbn; try case_match eqn:E; intros [= <-]; (split; [auto|]); split; intros u [= <-]; lia.
Qed.

Lemma later_None a b : later a b = None → a = None ∧ b = None.
Proof. destruct a, b; cbn; try case_match; done. Qed.

Lemma latest_None f vs v : latest f vs = None → v ∈ vs → signerSpkiSha256 v = f → signingTimeEpochSeconds v = None.
Proof.
  induction vs as [|x vs IH] using rev_ind; [by intros _ ?%not_elem_of_nil|]. rewrite latest_snoc. intros El Hv Hf.
  case_bool_decide as E.
  - apply later_None in El as [El Ex]. apply elem_of_app in Hv as [Hv|Hv%list_elem_of_singleton]; [by apply IH|by subst v].
  - apply elem_of_app in Hv as [Hv|Hv%list_elem_of_singleton]; [by apply IH|]. congruence.
Qed.

(** A date of the publisher that bounds its other ones. *)
Definition isLatest (f : SignerFingerprint) (vs : list VerifiedMasterList) (t : Z) : Prop :=
  (∃ v, v ∈ vs ∧ signerSpkiSha256 v = f ∧ signingTimeEpochSeconds v = Some t) ∧
  (∀ v u, v ∈ vs → signerSpkiSha256 v = f → signingTimeEpochSeconds v = Some u → u ≤ t).

Lemma latest_bound f vs t : latest f vs = Some t → isLatest f vs t.
Proof.
  revert t. induction vs as [|v vs IH] using rev_ind; intros t; [done|]. rewrite latest_snoc. case_bool_decide as E.
  - intros (H1&H2&H3)%later_spec. split.
    + destruct H1 as [H1|H1]; [destruct (IH _ H1) as [(v'&?&?&?) _]; exists v'|exists v]; set_solver.
    + intros v' u [Hv'|Hv'%list_elem_of_singleton]%elem_of_app Hf Hu; [|subst v'; auto].
      destruct (latest f vs) as [t'|] eqn:El; [|by rewrite (latest_None f vs v') in Hu].
      destruct (IH t' eq_refl) as [_ Hb]. specialize (Hb _ _ Hv' Hf Hu). specialize (H2 _ eq_refl). lia.
  - intros [H1 H2]%IH. split; [set_solver|]. intros v' u [?|Hv'%list_elem_of_singleton]%elem_of_app Hf Hu; [eauto|congruence].
Qed.

Lemma latest_Some f vs t : latest f vs = Some t ↔ isLatest f vs t.
Proof.
  split; [apply latest_bound|]. intros [(v&Hv&Hf&Ht) Hb]. destruct (latest f vs) as [t'|] eqn:E.
  - destruct (latest_bound f vs t' E) as [(v'&Hv'&Hf'&Ht') Hb']. f_equal. specialize (Hb _ _ Hv' Hf' Ht'). specialize (Hb' _ _ Hv Hf Ht). lia.
  - by rewrite (latest_None f vs v) in Ht.
Qed.

(** ** The order of the lists *)

Lemma latest_Permutation f vs vs' : vs ≡ₚ vs' → latest f vs = latest f vs'.
Proof.
  intros Hp. apply option_eq. intros t. rewrite !latest_Some. unfold isLatest. by setoid_rewrite Hp.
Qed.

Lemma recordAll_Permutation established vs vs' : vs ≡ₚ vs' → recordAll established vs ≡ₚ recordAll established vs'.
Proof.
  intros Hp. apply NoDup_Permutation.
  - eapply NoDup_fmap_1, recordAll_nodup.
  - eapply NoDup_fmap_1, recordAll_nodup.
  - intros r. rewrite !elem_of_recordAll, (latest_Permutation _ _ _ Hp). change (map signerSpkiSha256) with (fmap (M := list) signerSpkiSha256). by rewrite Hp.
Qed.

Lemma holdAnchor_fold l h : NoDup h.1 → (∀ a, a ∈ h.2 ↔ a ∈ h.1) →
  let h' := foldl holdAnchor h l in NoDup h'.1 ∧ (∀ a, a ∈ h'.2 ↔ a ∈ h'.1) ∧ ∀ a, a ∈ h'.1 ↔ a ∈ h.1 ∨ a ∈ l.
Proof.
  cbv zeta. revert h. induction l as [|a l IH]; intros h Hn Hh; cbn [foldl]; [set_solver|].
  unfold holdAnchor at 2 4 6 8. case_bool_decide as Ha.
  - destruct (IH h Hn Hh) as (?&?&E). split; [done|]. split; [done|]. set_solver.
  - destruct (IH (h.1 ++ [a], {[a]} ∪ h.2)) as (?&?&E); cbn [fst snd] in *.
    + apply NoDup_app. split; [done|]. split; [|apply NoDup_singleton]. set_solver.
    + set_solver.
    + split; [done|]. split; [done|]. intros b. rewrite E. set_solver.
Qed.

Lemma unionAnchors l : NoDup (foldl holdAnchor ([], ∅) l).1 ∧ ∀ a, a ∈ (foldl holdAnchor ([], ∅) l).1 ↔ a ∈ l.
Proof.
  destruct (holdAnchor_fold l ([], ∅)) as (?&_&E); [constructor|set_solver|]. split; [done|]. intros a. rewrite E. set_solver.
Qed.

Lemma displacedAt_Permutation prior a a' : a ≡ₚ a' → displacedAt prior a = displacedAt prior a'.
Proof.
  intros Hp. unfold displacedAt. destruct (present prior); [|done].
  assert (∀ d r, displacedNext a d r = displacedNext a' d r) as E.
  { intros d r. unfold displacedNext. replace (existsb _ a') with (existsb (λ v, bool_decide (signerSpkiSha256 v = fingerprint r)) a); [done|].
    apply eq_true_iff_eq. rewrite !existsb_exists. setoid_rewrite <- list_elem_of_In. by setoid_rewrite Hp. }
  generalize (None : option Z). induction (signers prior) as [|r rs IH]; intros d; [done|]. cbn. rewrite E. apply IH.
Qed.

Lemma keptLists_Permutation prior vouching lists lists' : lists ≡ₚ lists' →
  keptLists prior vouching lists ≡ₚ keptLists prior vouching lists'.
Proof.
  intros Hp. unfold keptLists. assert (omap (verdictOk prior vouching) lists ≡ₚ omap (verdictOk prior vouching) lists') as Ha by by rewrite Hp.
  by rewrite (displacedAt_Permutation _ _ _ Ha), Ha.
Qed.

(** C38: the outcome of an import does not depend on the order in which the file carries its
    lists: with the lists in any other order the same publishers are followed, with the same
    dates, the same anchors are held, and the same lists are refused for the same reasons. *)
Theorem import_order_free prior vouching lists lists' : lists ≡ₚ lists' →
  let u := decideOn prior vouching lists in let u' := decideOn prior vouching lists' in
  u_signers u ≡ₚ u_signers u' ∧ u_anchors u ≡ₚ u_anchors u' ∧ u_refused u ≡ₚ u_refused u'.
Proof.
  intros Hp. cbv zeta. pose proof (keptLists_Permutation prior vouching _ _ Hp) as Hk. split; [|split].
  - rewrite !decideOn_signers. by apply recordAll_Permutation.
  - rewrite !decideOn_anchors. destruct (unionAnchors (concat (map listAnchors (keptLists prior vouching lists)))) as [Hn He].
    destruct (unionAnchors (concat (map listAnchors (keptLists prior vouching lists')))) as [Hn' He'].
    apply NoDup_Permutation; [done|done|]. intros a. rewrite He, He', !list_elem_of_In, !in_concat. setoid_rewrite <- list_elem_of_In.
    change (map listAnchors) with (fmap (M := list) listAnchors). by setoid_rewrite Hk.
  - rewrite !decideOn_refused. assert (omap (verdictOk prior vouching) lists ≡ₚ omap (verdictOk prior vouching) lists') as Ha by by rewrite Hp.
    by rewrite (displacedAt_Permutation _ _ _ Ha), Ha, Hp.
Qed.

(** ** Who is followed *)

Definition vouchingAnchors (d : Disk) : list bytes := if present (state d) then anchors d else [].

(** A verification of the list, by the signer it names first or by one on record. *)
Definition verifiedBy (prior : AnchorState) (l : bytes) (v : VerifiedMasterList) : Prop :=
  parseAndVerifyMasterList l None = inr v ∨
  ∃ r, r ∈ signers prior ∧ parseAndVerifyMasterList l (Some (fingerprint r)) = inr v.

(** The publisher is on record, or its certificate chains to an anchor that was held. *)
Definition knownPublisher (prior : AnchorState) (vouching : list bytes) (v : VerifiedMasterList) : Prop :=
  is_Some (recordFor prior (signerSpkiSha256 v)) ∨ signerChainsToAnyAnchor (signerCertDer v) vouching = true.

Lemma parseState_absent t : present (parseState t) = false → parseState t = noState.
Proof. unfold parseState. case_match; [done|]. case_match; done. Qed.

Lemma state_absent d : present (state d) = false → state d = noState.
Proof. unfold state. destruct (stateFile d); [apply parseState_absent|done]. Qed.

Lemma measured_inr prior v w : measured prior v = inr w → w = v ∧ replayRefusal prior v = None.
Proof. unfold measured. destruct (replayRefusal prior v); [done|]. by intros [= ->]. Qed.

Lemma firstPinned_Some l rs v : firstPinned l rs = Some v → ∃ r, r ∈ rs ∧ parseAndVerifyMasterList l (Some (fingerprint r)) = inr v.
Proof.
  induction rs as [|r rs IH]; [done|]. cbn. destruct (parseAndVerifyMasterList l (Some (fingerprint r))) as [e|w] eqn:E.
  - intros (r'&?&?)%IH. exists r'. split; [by right|done].
  - intros [= ->]. exists r. split; [by left|done].
Qed.

Lemma findRecord_is_Some rs r : r ∈ rs → is_Some (findRecord (fingerprint r) rs).
Proof.
  intros Hr. destruct (findRecord (fingerprint r) rs) eqn:E; [eauto|]. by apply (findRecord_None _ _ E) in Hr.
Qed.

Context {laws : TrustLaws api}.

Lemma judge_inr prior vouching l v : judge prior vouching l = inr v →
  verifiedBy prior l v ∧ (present prior = true → knownPublisher prior vouching v) ∧ replayRefusal prior v = None.
Proof.
  unfold judge. destruct (parseAndVerifyMasterList l None) as [e|seen] eqn:E; [done|].
  destruct (present prior); cbn [negb]; [|intros [-> ?]%measured_inr; split; [by left|done]].
  destruct (recordFor prior (signerSpkiSha256 seen)) eqn:Er.
  { intros [-> ?]%measured_inr. split; [by left|]. split; [|done]. intros _. left. by rewrite Er. }
  destruct (firstPinned l (signers prior)) as [w|] eqn:Ef.
  - intros [-> ?]%measured_inr. apply firstPinned_Some in Ef as (r&Hr&Ep). split; [right; eauto|]. split; [|done].
    intros _. left. rewrite (pinned_signer _ _ _ Ep). by apply findRecord_is_Some.
  - destruct (signerChainsToAnyAnchor (signerCertDer seen) vouching) eqn:Ec; [|done]. cbn [negb].
    intros [-> ?]%measured_inr. split; [by left|]. split; [|done]. by right.
Qed.

Lemma elem_of_keptLists prior vouching lists v : v ∈ keptLists prior vouching lists ↔
  (∃ l, l ∈ lists ∧ judge prior vouching l = inr v) ∧
  clears prior (displacedAt prior (omap (verdictOk prior vouching) lists)) v = true.
Proof.
  unfold keptLists. cbv zeta. rewrite list_elem_of_filter, list_elem_of_omap. unfold verdictOk at 2. split.
  - intros (?&l&?&Hj). split; [|done]. exists l. split; [done|]. destruct (judge prior vouching l); [done|]. by injection Hj as ->.
  - intros [(l&?&Hj) ?]. split; [done|]. exists l. by rewrite Hj.
Qed.

Lemma import_accepted der now faults d s faults' d' :
  importMasterList der now faults d = (Some (inr s), faults', d') →
  let u := decideOn (state d) (vouchingAnchors d) (offeredLists der) in
  u_signers u ≠ [] ∧ s = nextState u (zlen (offeredLists der)) now ∧ replace (u_anchors u) s faults d = (Some true, faults', d').
Proof.
  unfold importMasterList. fold (vouchingAnchors d). cbv zeta. case_bool_decide as Hs; [done|]. unfold andThen.
  destruct (replace _ _ faults d) as [[[[]|] fs] d1] eqn:E; cbn; try done. intros [= <- <- <-]. done.
Qed.

Lemma import_anchors der now faults d s faults' d' :
  importMasterList der now faults d = (Some (inr s), faults', d') →
  live d' = Some (stored (u_anchors (decideOn (state d) (vouchingAnchors d) (offeredLists der)))) ∧ stateFile d' = Some (printState s).
Proof.
  intros (_&_&Hr)%import_accepted. pose proof (io_replace (u_anchors (decideOn (state d) (vouchingAnchors d) (offeredLists der))) s d faults) as Hw.
  rewrite Hr in Hw. by inversion Hw.
Qed.

(** What an import takes in: a list of the file that was verified, by a publisher that was
    known unless the store was empty. *)
Definition takenIn (d : Disk) (der : bytes) (v : VerifiedMasterList) : Prop :=
  (∃ l, l ∈ offeredLists der ∧ verifiedBy (state d) l v) ∧
  (present (state d) = true → knownPublisher (state d) (anchors d) v).

Lemma kept_takenIn d der v : v ∈ keptLists (state d) (vouchingAnchors d) (offeredLists der) → takenIn d der v.
Proof.
  intros [(l&Hl&(Hv&Hk&_)%judge_inr) _]%elem_of_keptLists. split; [eauto|]. intros Hp. specialize (Hk Hp).
  unfold vouchingAnchors in Hk. by rewrite Hp in Hk.
Qed.

(** C10: an import follows nobody it has no reason to follow. Every publisher on record after
    an import that was accepted signed a list of the file that was verified, and is either
    on record already or has a certificate that chains to an anchor held before the import;
    only an import into an empty store takes publishers without comparing them, and says
    so. Every anchor that is held comes from such a list. *)
Theorem import_follows_known der now faults d s faults' d' :
  importMasterList der now faults d = (Some (inr s), faults', d') →
  (∀ r, r ∈ signers s → identityEstablished r = present (state d) ∧ ∃ v, takenIn d der v ∧ signerSpkiSha256 v = fingerprint r) ∧
  (∀ a, a ∈ anchors d' → ∃ v, takenIn d der v ∧ a ∈ listAnchors v).
Proof.
  intros H. destruct (import_accepted _ _ _ _ _ _ _ H) as (_&->&_). destruct (import_anchors _ _ _ _ _ _ _ H) as [Hl _]. split.
  - intros r. cbn [nextState signers]. rewrite decideOn_signers. intros (Hf&He&_)%elem_of_recordAll. split; [done|].
    apply list_elem_of_fmap in Hf as (v&->&Hv). eauto using kept_takenIn.
  - intros a (dir&name&Ed&_&Hn)%elem_of_anchors. rewrite Hl in Ed. injection Ed as <-. apply lookup_stored in Hn as (j&_&Hj).
    apply list_elem_of_lookup_2 in Hj. rewrite decideOn_anchors in Hj. apply (proj1 (proj2 (unionAnchors _) a)) in Hj.
    apply list_elem_of_In, in_concat in Hj as (l&Hl'&Ha). apply in_map_iff in Hl' as (v&<-&Hv). exists v.
    apply list_elem_of_In in Hv, Ha. split; [by apply kept_takenIn|done].
Qed.

(** ** Dates *)

Lemma displaced_fold a rs dis r t : r ∈ rs → signedAt r = Some t → (∀ v, v ∈ a → signerSpkiSha256 v ≠ fingerprint r) →
  ∃ d, foldl (displacedNext a) dis rs = Some d ∧ t ≤ d.
Proof.
  intros Hr Ht Ha.
  assert (∀ rs dis d, dis = Some d → ∃ d', foldl (displacedNext a) dis rs = Some d' ∧ d ≤ d') as Hmono.
  { clear. induction rs as [|r rs IH]; intros dis d ->; cbn [foldl]; [exists d; split; [done|lia]|].
    assert (∃ d1, displacedNext a (Some d) r = Some d1 ∧ d ≤ d1) as (d1&E1&?).
    { unfold displacedNext. destruct (signedAt r) as [t|]; [|exists d; split; [done|lia]]. case_match; [exists d; split; [done|lia]|].
      case_match eqn:E; [exists t|exists d]; split; try done; lia. }
    destruct (IH _ d1 E1) as (d'&?&?). exists d'. split; [done|lia]. }
  revert dis. induction rs as [|x rs IH]; intros dis; [set_solver|]. cbn [foldl]. apply elem_of_cons in Hr as [->|Hr]; [|by apply IH].
  assert (∃ d1, displacedNext a dis x = Some d1 ∧ t ≤ d1) as (d1&E1&?).
  { unfold displacedNext. rewrite Ht. replace (existsb _ a) with false.
    - destruct dis as [d|]; [case_match eqn:E; [exists t|exists d]|exists t]; split; try done; lia.
    - symmetry. apply not_true_iff_false. intros (v&Hv&Hb)%existsb_exists. apply bool_decide_eq_true in Hb. by apply (Ha v); [apply list_elem_of_In|]. }
  destruct (Hmono rs _ d1 E1) as (d'&?&?). exists d'. split; [done|lia].
Qed.

Lemma replayRefusal_None prior v r t : replayRefusal prior v = None → recordFor prior (signerSpkiSha256 v) = Some r → signedAt r = Some t →
  ∃ o, signingTimeEpochSeconds v = Some o ∧ t < o.
Proof.
  unfold replayRefusal. intros H Hr Ht. rewrite Hr, Ht in H. destruct (signingTimeEpochSeconds v) as [o|]; [|done].
  destruct (t <? o) eqn:E; [|done]. exists o. split; [done|lia].
Qed.

Lemma clears_date prior d v : clears prior (Some d) v = true → recordFor prior (signerSpkiSha256 v) = None →
  ∃ o, signingTimeEpochSeconds v = Some o ∧ d < o.
Proof.
  unfold clears, belowBar. intros H Hr. rewrite Hr in H. destruct (signingTimeEpochSeconds v) as [o|]; [|done].
  destruct (o <=? d) eqn:E; [done|]. exists o. split; [done|lia].
Qed.

Lemma latest_above f vs v o : v ∈ vs → signerSpkiSha256 v = f → signingTimeEpochSeconds v = Some o → ∃ t, latest f vs = Some t ∧ o ≤ t.
Proof.
  intros Hv Hf Ho. destruct (latest f vs) as [t|] eqn:E; [|by rewrite (latest_None f vs v) in Ho].
  exists t. split; [done|]. apply latest_bound in E as [_ Hb]. eauto.
Qed.

(** A publisher that is on record and in the file stays on record. *)
Lemma recorded_kept prior vouching lists v : v ∈ omap (verdictOk prior vouching) lists → is_Some (recordFor prior (signerSpkiSha256 v)) →
  v ∈ keptLists prior vouching lists.
Proof.
  intros Hv [r Hr]. unfold keptLists. cbv zeta. apply list_elem_of_filter. split; [|done]. unfold clears, belowBar. rewrite Hr. by destruct (displacedAt _ _).
Qed.

Lemma nextState_record prior vouching lists off now v : v ∈ keptLists prior vouching lists →
  is_Some (recordFor (nextState (decideOn prior vouching lists) off now) (signerSpkiSha256 v)).
Proof.
  intros Hv. rewrite recordFor_find. cbn [nextState signers]. rewrite decideOn_signers. fold (recordAll (present prior) (keptLists prior vouching lists)).
  rewrite findRecord_recordAll, bool_decide_eq_true_2; [eauto|]. by apply (list_elem_of_fmap_2 signerSpkiSha256).
Qed.

(** C18: dates only grow. After an import that was accepted, a publisher that was on record
    with a date is on record with a strictly later one (a dated record is never replaced by
    an undated one), and a publisher that was not on record has a date strictly later than
    that of every publisher the import drops. *)
Theorem import_dates_grow der now faults d s faults' d' r :
  importMasterList der now faults d = (Some (inr s), faults', d') → r ∈ signers s →
  (∀ r0 t0, recordFor (state d) (fingerprint r) = Some r0 → signedAt r0 = Some t0 → ∃ t, signedAt r = Some t ∧ t0 < t) ∧
  (recordFor (state d) (fingerprint r) = None →
   ∀ r0 t0, r0 ∈ signers (state d) → signedAt r0 = Some t0 → recordFor s (fingerprint r0) = None → ∃ t, signedAt r = Some t ∧ t0 < t).
Proof.
  intros (_&->&_)%import_accepted. cbn [nextState signers]. rewrite decideOn_signers. intros (Hf&_&Ht)%elem_of_recordAll.
  apply list_elem_of_fmap in Hf as (v&Ef&Hv). pose proof Hv as [(l&Hl&Hj) Hc]%elem_of_keptLists. apply judge_inr in Hj as Hj'. destruct Hj' as (_&_&Hrr).
  split.
  - intros r0 t0 Hr0 Ht0. rewrite Ef in Hr0. destruct (replayRefusal_None _ _ _ _ Hrr Hr0 Ht0) as (o&Ho&?).
    destruct (latest_above (fingerprint r) _ v o Hv (eq_sym Ef) Ho) as (t&E&?). exists t. split; [congruence|lia].
  - intros Hn r0 t0 Hr0 Ht0 Hdrop. assert (present (state d) = true) as Hp.
    { destruct (present (state d)) eqn:Ep; [done|]. rewrite (state_absent d Ep) in Hr0. by apply not_elem_of_nil in Hr0. }
    destruct (displaced_fold (omap (verdictOk (state d) (vouchingAnchors d)) (offeredLists der)) (signers (state d)) None r0 t0 Hr0 Ht0) as (dis&Ed&?).
    { intros v' Hv' E. assert (is_Some (recordFor (state d) (signerSpkiSha256 v'))) as Hs by (rewrite E; by apply findRecord_is_Some).
      pose proof (recorded_kept _ _ _ _ Hv' Hs) as Hk. apply (nextState_record _ _ _ (zlen (offeredLists der)) now) in Hk.
      rewrite E in Hk. unfold nextState, decideOn in *. rewrite Hdrop in Hk. by destruct Hk. }
    unfold displacedAt in Hc. rewrite Hp, Ed in Hc. rewrite Ef in Hn. destruct (clears_date _ _ _ Hc Hn) as (o&Ho&?).
    destruct (latest_above (fingerprint r) _ v o Hv (eq_sym Ef) Ho) as (t&E&?). exists t. split; [congruence|lia].
Qed.

(** ** What the store holds *)

Lemma omap_split prior vouching lists :
  zlen (omap (verdictOk prior vouching) lists) + zlen (omap (verdictRefused prior vouching) lists) = zlen lists.
Proof.
  induction lists as [|l lists IH]; [done|]. cbn [omap list_omap]. unfold verdictOk at 1, verdictRefused at 1.
  destruct (judge prior vouching l); cbn [length] in *; lia.
Qed.

Lemma bar_split prior dis vs :
  zlen (filter (λ v, clears prior dis v = true) vs) + zlen (omap (barRefused prior dis) vs) = zlen vs.
Proof.
  induction vs as [|v vs IH]; [done|]. rewrite filter_cons. cbn [omap list_omap]. unfold barRefused at 1.
  destruct (decide (clears prior dis v = true)) as [H|H]; unfold clears in H; destruct (belowBar prior dis v); try done; cbn [length] in *; lia.
Qed.

Lemma lists_accounted prior vouching lists :
  zlen (keptLists prior vouching lists) + zlen (u_refused (decideOn prior vouching lists)) = zlen lists.
Proof.
  rewrite decideOn_refused, length_app. unfold keptLists. cbv zeta.
  pose proof (omap_split prior vouching lists).
  pose proof (bar_split prior (displacedAt prior (omap (verdictOk prior vouching) lists)) (omap (verdictOk prior vouching) lists)). lia.
Qed.

Lemma recordSigner_length established v rs : (length (recordSigner established v rs) ≤ S (length rs))%nat.
Proof. induction rs as [|r rs IH]; cbn [recordSigner]; [done|]. case_match; cbn [length]; lia. Qed.

Lemma recordAll_length established vs : (length (recordAll established vs) ≤ length vs)%nat.
Proof.
  induction vs as [|v vs IH] using rev_ind; [done|]. rewrite recordAll_snoc, length_app. cbn [length].
  pose proof (recordSigner_length established v (recordAll established vs)). lia.
Qed.

Lemma verifiedBy_values prior l v : verifiedBy prior l v → fingerprintOk (signerSpkiSha256 v) ∧ ∀ t, signingTimeEpochSeconds v = Some t → int64 t.
Proof. intros [H|(r&_&H)]; by apply verified_values in H. Qed.

Lemma measured_inl prior v e : measured prior v = inl e → lr_signer e = Some (signerSpkiSha256 v) ∧ lr_reason e = Replayed.
Proof.
  unfold measured. destruct (replayRefusal prior v) as [e'|] eqn:E; [|done]. intros [= <-]. unfold replayRefusal in E.
  destruct (recordFor prior (signerSpkiSha256 v)) as [r|]; [|done]. destruct (signedAt r) as [t|]; [|done].
  destruct (match signingTimeEpochSeconds v with Some o => t <? o | None => false end); [done|]. by injection E as <-.
Qed.

Lemma belowBar_Some prior dis v e : belowBar prior dis v = Some e → lr_signer e = Some (signerSpkiSha256 v) ∧ lr_reason e = Replayed.
Proof.
  unfold belowBar. destruct dis as [d|], (recordFor prior (signerSpkiSha256 v)); try done.
  destruct (match signingTimeEpochSeconds v with Some o => o <=? d | None => true end); [|done]. by intros [= <-].
Qed.

Lemma judge_inl_signer prior vouching l e f : judge prior vouching l = inl e → lr_signer e = Some f → fingerprintOk f.
Proof.
  unfold judge. destruct (parseAndVerifyMasterList l None) as [x|seen] eqn:E; [by intros [= <-]|]. pose proof (verified_values _ _ _ E) as [Hs _].
  destruct (present prior); cbn [negb]; [|intros [H _]%measured_inl; congruence].
  destruct (recordFor prior (signerSpkiSha256 seen)); [intros [H _]%measured_inl; congruence|].
  destruct (firstPinned l (signers prior)) as [w|] eqn:Ef.
  - apply firstPinned_Some in Ef as (r&_&Ew). pose proof (verified_values _ _ _ Ew) as [Hw _]. intros [H _]%measured_inl. congruence.
  - destruct (signerChainsToAnyAnchor (signerCertDer seen) vouching); cbn [negb]; [intros [H _]%measured_inl; congruence|intros [= <-] [= <-]; done].
Qed.

Lemma refused_values prior vouching lists x f : x ∈ u_refused (decideOn prior vouching lists) → signer x = Some f → fingerprintOk f.
Proof.
  rewrite decideOn_refused. intros [Hx|Hx]%elem_of_app; apply list_elem_of_omap in Hx as (y&Hy&Ex).
  - unfold verdictRefused in Ex. destruct (judge prior vouching y) as [e|] eqn:Ej; [|done]. injection Ex as <-. cbn. by apply (judge_inl_signer _ _ _ _ _ Ej).
  - apply list_elem_of_omap in Hy as (l&_&Hy). unfold verdictOk in Hy. destruct (judge prior vouching l) as [|w] eqn:Ej; [done|]. injection Hy as ->.
    apply judge_inr in Ej as (Hv&_). apply verifiedBy_values in Hv as [Hv _].
    unfold barRefused in Ex. destruct (belowBar _ _ y) as [e|] eqn:Eb; [|done]. injection Ex as <-. apply belowBar_Some in Eb as [Eb _].
    cbn. rewrite Eb. by intros [= <-].
Qed.

Lemma nextState_storable prior vouching lists now : u_signers (decideOn prior vouching lists) ≠ [] → int64 now → zlen lists < 2 ^ 32 →
  storable (nextState (decideOn prior vouching lists) (zlen lists) now).
Proof.
  intros Hs Hnow Hl. pose proof (lists_accounted prior vouching lists) as Hacc.
  assert (zlen (u_signers (decideOn prior vouching lists)) ≤ zlen (keptLists prior vouching lists)) as Hk.
  { rewrite decideOn_signers. pose proof (recordAll_length (present prior) (keptLists prior vouching lists)) as H. unfold recordAll in H. lia. }
  assert (∀ z, uint32 (u32 z)) as Hu by (intros z; unfold uint32, u32, wrap; apply Z.mod_pos_bound; lia).
  unfold storable. cbn [nextState present signers anchorCount issuerCount listsOffered refusedLists acceptedAt].
  split; [done|]. split; [done|]. split; [|split; [|split; [apply Hu|split; [apply Hu|split; [apply Hu|split; [done|]]]]]].
  - apply Forall_forall. intros r. rewrite decideOn_signers. intros (Hf&_&Ht)%elem_of_recordAll.
    assert (∀ v, v ∈ keptLists prior vouching lists → fingerprintOk (signerSpkiSha256 v) ∧ ∀ t, signingTimeEpochSeconds v = Some t → int64 t) as Hok.
    { intros v [(l&_&(Hv&_)%judge_inr) _]%elem_of_keptLists. by eapply verifiedBy_values. }
    apply list_elem_of_fmap in Hf as (v&->&Hv). split; [by apply Hok|]. intros t Et. rewrite Et in Ht. symmetry in Ht.
    apply latest_bound in Ht as [(w&Hw&_&Hwt) _]. by apply (Hok w Hw).
  - apply Forall_forall. intros x Hx f. by apply (refused_values _ _ _ _ _ Hx).
  - unfold u32, wrap. rewrite Z.mod_small by lia. lia.
Qed.

(** No list is refused for the sake of the disk. *)
Lemma judge_inl_reason prior vouching l e : judge prior vouching l = inl e → lr_reason e ≠ CacheNotWritable.
Proof.
  assert (∀ v, measured prior v = inl e → lr_reason e ≠ CacheNotWritable) as Hm.
  { by intros v [_ ->]%measured_inl. }
  unfold judge. destruct (parseAndVerifyMasterList l None) as [x|seen]; [intros [= <-]; by destruct x|].
  destruct (negb (present prior)); [apply Hm|]. destruct (match recordFor _ _ with Some _ => _ | None => _ end); [apply Hm|].
  destruct (negb (signerChainsToAnyAnchor _ _)); [by intros [= <-]|apply Hm].
Qed.

Lemma judgeNext_first prior vouching lists j : (∀ e, j_first j = Some e → lr_reason e ≠ CacheNotWritable) →
  ∀ e, j_first (foldl (judgeNext prior vouching) j lists) = Some e → lr_reason e ≠ CacheNotWritable.
Proof.
  revert j. induction lists as [|l lists IH]; intros j Hj; [done|]. cbn [foldl]. apply IH. unfold judgeNext.
  destruct (judge prior vouching l) eqn:E; [|done]. cbn. unfold firstOf. destruct (j_first j); [done|]. intros e [= <-]. by eapply judge_inl_reason.
Qed.

Lemma uniteNext_first prior dis vs u : (∀ e, u_first u = Some e → lr_reason e ≠ CacheNotWritable) →
  ∀ e, u_first (foldl (uniteNext prior dis) u vs) = Some e → lr_reason e ≠ CacheNotWritable.
Proof.
  revert u. induction vs as [|v vs IH]; intros u Hu; [done|]. cbn [foldl]. apply IH. unfold uniteNext.
  destruct (belowBar prior dis v) as [e|] eqn:E; [|done]. cbn. unfold firstOf. destruct (u_first u); [done|]. intros e' [= <-].
  by apply belowBar_Some in E as [_ ->].
Qed.

Lemma first_refusal_reason prior vouching lists :
  lr_reason (default (mkListRefusal NotAMasterList None None None) (u_first (decideOn prior vouching lists))) ≠ CacheNotWritable.
Proof.
  destruct (u_first (decideOn prior vouching lists)) as [e|] eqn:E; [|done]. cbn. revert e E.
  apply uniteNext_first, judgeNext_first. done.
Qed.

(** An import leaves in the store what it reports. When it is accepted, the state it
    returns is the state that the next import reads, the anchors held are the union of the
    lists that were taken in, each once, and every list of the
    file is accounted for: it was taken in or has a record among the refused ones. When
    every list is refused nothing on the disk was touched; and a working disk never makes
    an import fail. *)
Theorem import_reports_store der now faults d :
  int64 now → zlen (offeredLists der) < 2 ^ 32 →
  zlen (u_anchors (decideOn (state d) (vouchingAnchors d) (offeredLists der))) ≤ 1000000 →
  let kept := keptLists (state d) (vouchingAnchors d) (offeredLists der) in
  match importMasterList der now faults d with
  | (Some (inr s), _, d') =>
      state d' = s ∧ NoDup (anchors d') ∧ (∀ a, a ∈ anchors d' ↔ ∃ v, v ∈ kept ∧ a ∈ listAnchors v) ∧
      anchorCount s = zlen (anchors d') ∧ listsOffered s = zlen kept + zlen (refusedLists s) ∧ acceptedAt s = now
  | (Some (inl e), _, d') => (reason e ≠ CacheNotWritable → d' = d ∧ kept = []) ∧ (Forall (eq Works) faults → reason e ≠ CacheNotWritable)
  | (None, _, _) => ¬ Forall (eq Works) faults
  end.
Proof.
  intros Hnow Hoff Hlen. cbv zeta. unfold importMasterList. fold (vouchingAnchors d). cbv zeta. set (u := decideOn _ _ _) in *.
  assert (u_signers u = [] → keptLists (state d) (vouchingAnchors d) (offeredLists der) = []) as Hkept.
  { intros H. destruct (keptLists _ _ _) as [|v vs] eqn:E; [done|].
    destruct (nextState_record (state d) (vouchingAnchors d) (offeredLists der) 0 0 v) as [r Hr]; [rewrite E; by left|].
    rewrite recordFor_find in Hr. cbn [nextState signers] in Hr. fold u in Hr. by rewrite H in Hr. }
  case_bool_decide as Hs.
  - split; [by intros _; auto|]. intros _. cbn. apply first_refusal_reason.
  - assert (storable (nextState u (zlen (offeredLists der)) now)) as Hst by by apply nextState_storable.
    pose proof (replacement_spec (u_anchors u) _ faults d Hst Hlen) as Hr. unfold andThen.
    destruct (replace _ _ faults d) as [[[[]|] fs] d'] eqn:E; cbn [negb done_].
    + destruct Hr as [[Hs' Ha] _]. split; [done|]. rewrite Ha.
      destruct (unionAnchors (concat (map listAnchors (keptLists (state d) (vouchingAnchors d) (offeredLists der))))) as [Hn He].
      rewrite <- decideOn_anchors in Hn, He. fold u in Hn, He. split; [done|]. split; [|split; [|split; [|done]]].
      * intros a. rewrite He, list_elem_of_In, in_concat. setoid_rewrite in_map_iff. setoid_rewrite <- list_elem_of_In. naive_solver.
      * cbn [nextState anchorCount]. unfold u32, wrap. rewrite Z.mod_small; [done|]. lia.
      * cbn [nextState listsOffered refusedLists]. unfold u32, wrap. rewrite Z.mod_small by lia. symmetry. apply lists_accounted.
    + destruct Hr as [_ Hr]. split; [done|]. intros Hf. by specialize (Hr Hf).
    + destruct Hr as [_ Hr]. intros Hf. by specialize (Hr Hf).
Qed.

End Import.
(** ** Concrete imports

    A trust interface of plain numbers: a list is its signer, its date and its anchors; a
    signer chains to the anchor of its own number. *)
Definition plainFingerprint (s : Z) : SignerFingerprint := sampleFingerprint (u8 s).

Definition plainVerified (s t : Z) (l : list Z) : VerifiedMasterList :=
  mkVerified (plainFingerprint s) [s] (map (λ a, [a]) l) (Some t).

#[export] Instance plainApi : TrustApi := {
  parseAndVerifyMasterList l pin :=
    match l with
    | s :: t :: rest =>
        if negb (fitsInt64 t) then inl ListMalformed
        else match pin with
             | Some f => if bool_decide (f = plainFingerprint s) then inr (plainVerified s t rest) else inl ListSignerMismatch
             | None => inr (plainVerified s t rest)
             end
    | _ => inl ListNotAMasterList
    end;
  signerChainsToAnyAnchor cert held := bool_decide (cert ∈ held);
  subjectCountry a := Some a }.

#[export] Instance plainLaws : TrustLaws plainApi.
Proof.
  split.
  - intros [|s [|t l]] f v; cbn; try done. destruct (fitsInt64 t); [|done]. cbn. case_bool_decide as E; [|done]. by intros [= <-].
  - assert (∀ s t l, fitsInt64 t = true → fingerprintOk (signerSpkiSha256 (plainVerified s t l)) ∧
      ∀ u, signingTimeEpochSeconds (plainVerified s t l) = Some u → int64 u) as Hok.
    { intros s t l Ht. split; [apply sampleFingerprint_ok; unfold byte_, u8, wrap; apply Z.mod_pos_bound; lia|]. intros u [= <-].
      unfold fitsInt64 in Ht. unfold int64. lia. }
    intros [|s [|t l]] p v; cbn; try done. destruct (fitsInt64 t) eqn:Et; [|done]. cbn.
    destruct p as [f|]; [case_bool_decide; [|done]|]; intros [= <-]; by apply Hok.
Qed.

Definition emptyDisk : Disk := mkDisk None None None.
Definition afterFirst : Disk := (importMasterList [7; 100; 7; 8] 1000 [] emptyDisk).2.

(** A first list, and the list of the key the publisher rotated to. *)
Lemma import_follows_known_witness :
  match importMasterList [8; 101; 7; 8] 2000 [] afterFirst with
  | (Some (inr s), _, d') =>
      map identityEstablished (signers s) = [true] ∧
      (∀ a, a ∈ anchors d' → ∃ v, takenIn afterFirst [8; 101; 7; 8] v ∧ a ∈ listAnchors v)
  | _ => False
  end.
Proof.
  destruct (importMasterList [8; 101; 7; 8] 2000 [] afterFirst) as [[[[e|s]|] fs] d'] eqn:E.
  - vm_compute in E. discriminate.
  - destruct (import_follows_known _ _ _ _ _ _ _ E) as [_ Ha]. split; [|exact Ha]. vm_compute in E. by injection E as <- _ _.
  - vm_compute in E. discriminate.
Defined.

Lemma import_dates_grow_witness :
  match importMasterList [7; 101; 7; 8] 2000 [] afterFirst with
  | (Some (inr s), _, _) => ∀ r, r ∈ signers s → ∃ t, signedAt r = Some t ∧ 100 < t
  | _ => False
  end.
Proof.
  destruct (importMasterList [7; 101; 7; 8] 2000 [] afterFirst) as [[[[e|s]|] fs] d'] eqn:E.
  - vm_compute in E. discriminate.
  - intros r Hr. destruct (import_dates_grow _ _ _ _ _ _ _ r E Hr) as [Hd _].
    apply (Hd (mkSigner (plainFingerprint 7) false (Some 100))); [|done]. vm_compute in E. injection E as <- _ _.
    cbn [signers] in Hr. apply list_elem_of_singleton in Hr as ->. vm_compute. done.
  - vm_compute in E. discriminate.
Defined.

Lemma import_reports_store_witness :
  match importMasterList [7; 100; 7; 8] 1000 [] emptyDisk with
  | (Some (inr s), _, d') => state d' = s ∧ NoDup (anchors d') ∧ anchors d' = [[7]; [8]]
  | _ => False
  end.
Proof.
  assert (int64 1000) as Hn by (unfold int64; lia).
  assert (zlen (offeredLists [7; 100; 7; 8]) < 2 ^ 32) as Ho by (vm_compute; done).
  assert (zlen (u_anchors (decideOn (state emptyDisk) (vouchingAnchors emptyDisk) (offeredLists [7; 100; 7; 8]))) ≤ 1000000) as Hl by (vm_compute; done).
  pose proof (import_reports_store [7; 100; 7; 8] 1000 [] emptyDisk Hn Ho Hl) as H. cbv zeta in H.
  destruct (importMasterList [7; 100; 7; 8] 1000 [] emptyDisk) as [[[[e|s]|] fs] d'] eqn:E.
  - vm_compute in E. discriminate.
  - destruct H as (?&?&_). split; [done|]. split; [done|]. vm_compute in E. injection E as _ _ <-. vm_compute. done.
  - vm_compute in E. discriminate.
Defined.

Lemma import_order_free_witness :
  [[7; 100; 7]; [8; 50; 7; 8]] ≡ₚ [[8; 50; 7; 8]; [7; 100; 7]] ∧
  u_anchors (decideOn noState [] [[7; 100; 7]; [8; 50; 7; 8]]) ≡ₚ u_anchors (decideOn noState [] [[8; 50; 7; 8]; [7; 100; 7]]).
Proof.
  assert ([[7; 100; 7]; [8; 50; 7; 8]] ≡ₚ [[8; 50; 7; 8]; [7; 100; 7]]) as Hp by apply perm_swap.
  split; [exact Hp|]. apply (import_order_free noState [] _ _ Hp).
Defined.

(** A publisher that is missing from one import is forgotten, its date with it: when it is
    back beside the others, a list older than one that was accepted before is taken in. The
    bar for signers without a record does not apply, as that import displaces nobody. *)
Example forgotten_publisher_rolls_back :
  let lists1 := [[1; 20; 1; 2]; [2; 5; 1; 2]] in
  let s1 := nextState (decideOn noState [] lists1) 2 0 in
  let s2 := nextState (decideOn s1 [[1]; [2]] [[2; 6; 1; 2]]) 1 0 in
  let s3 := nextState (decideOn s2 [[1]; [2]] [[1; 10; 1; 2]; [2; 7; 1; 2]]) 2 0 in
  map signedAt (signers s1) = [Some 20; Some 5] ∧ map signedAt (signers s2) = [Some 6] ∧
  map signedAt (signers s3) = [Some 10; Some 7] ∧ refusedLists s3 = [] ∧ replayRefusalActive s2 = true.
Proof. vm_compute. done. Qed.

End AnchorImport.
