(* ===== verification/Config.v ===== *)
(** * The configuration store

    Models [config/ConfigStore.cpp] and the parts of [operations/SignatureParams.h] it
    uses: the settings of the agent, the text of their file, the calls that change them and
    the notices of a change. Texts are lists of bytes. The calls run over a disk on which any
    operation may fail. The theorems say that every setting is well formed whatever the
    file says, what a restart keeps, what a call changes, and how a write can end. *)
From S2P Require Import Prelude Text MasterLists TextFiles Storage.
Local Open Scope Z_scope.

(** ** Signing parameters *)
Module SignatureParams.
Import MasterLists.

Definition token (s : string) : bytes := Text.bytesOf s.

Definition kSignFormats : list bytes := map token ["pades"; "cades"; "xades"; "jades"; "asice"]%string.
Definition kSignLevels : list bytes := map token ["b-b"; "b-t"; "b-lt"; "b-lta"]%string.
Definition kPackagingModes : list bytes := map token ["enveloped"; "detached"]%string.

Definition isMemberOf (vocabulary : list bytes) (t : bytes) : bool := existsb (λ e, bool_decide (e = t)) vocabulary.
Definition isKnownFormat (f : bytes) : bool := isMemberOf kSignFormats f.
Definition isKnownLevel (l : bytes) : bool := isMemberOf kSignLevels l.
Definition isKnownPackaging (p : bytes) : bool := isMemberOf kPackagingModes p.

(** The text formats are told by the first byte that is not white space. *)
Definition isBlank (c : Z) : bool := (c =? 32) || (c =? 9) || (c =? 13) || (c =? 10).
Fixpoint skipBlank (t : bytes) : bytes := match t with c :: rest => if isBlank c then skipBlank rest else t | [] => [] end.

Definition sniffFormat (doc : bytes) : option bytes :=
  if bool_decide (take 4 doc = token "%PDF") then Some (token "pades")
  else if bool_decide (take 2 doc = token "PK") then Some (token "asice")
  else match skipBlank doc with
       | c :: _ =>
           if c =? 60 then Some (token "xades")
           else if c =? 123 then Some (token "jades")
           else if c =? 0x30 then Some (token "cades")
           else None
       | [] => None
       end.

Definition defaultPackagingFor (format : bytes) : bytes :=
  if bool_decide (format = token "pades") || bool_decide (format = token "asice") then token "enveloped" else token "detached".

Definition kDeferSentinel : bytes := token "auto".
Definition requestedOrDeferred (value : bytes) : option bytes :=
  if bool_decide (value = []) || bool_decide (value = kDeferSentinel) then None else Some value.

Definition resolveSignLevel (requested : option bytes) (configuredDefault : bytes) (hasTsa : bool) : bytes :=
  match requested with
  | Some l => l
  | None => if bool_decide (configuredDefault = token "b-b") && hasTsa then token "b-t" else configuredDefault
  end.

Definition cSlash : Z := 47.
Definition kHttps : bytes := token "https://".
Definition kHttp : bytes := token "http://".

Definition isValidTsaUrl (url : bytes) : bool :=
  if (length url <=? length kHttps)%nat || negb (bool_decide (take (length kHttps) url = kHttps)) then false
  else
    let rest := drop (length kHttps) url in
    let host := match list_find (λ c, c = cSlash) rest with Some (hostEnd, _) => take hostEnd rest | None => rest end in
    negb (bool_decide (host = [])).
End SignatureParams.

Module Config.
Import MasterLists TextFiles Storage SignatureParams.

(** ** Keys *)

Inductive Mutability := DbusMutable | DbusMutableTrust | FileOnly | ReadOnly.

#[export] Instance Mutability_eq_dec : EqDecision Mutability.
Proof. solve_decision. Defined.

Definition kDefaultLevel : bytes := token "DefaultLevel".
Definition kTsaUrls : bytes := token "TsaUrls".
Definition kLastTsaUrl : bytes := token "LastTsaUrl".
Definition kTslSources : bytes := token "TslSources".
Definition kTslCacheDir : bytes := token "TslCacheDir".
Definition kCscaCacheDir : bytes := token "CscaCacheDir".
Definition kCscaAnchorState : bytes := token "CscaAnchorState".
Definition kDefaultReason : bytes := token "DefaultReason".
Definition kDefaultLocation : bytes := token "DefaultLocation".
Definition kPkcs11IdleTimeoutSecs : bytes := token "Pkcs11IdleTimeoutSecs".
Definition kPkcs11MaxLifetimeSecs : bytes := token "Pkcs11MaxLifetimeSecs".

Definition kKeySpecs : list (bytes * Mutability) :=
  [(kDefaultLevel, DbusMutable); (kTsaUrls, DbusMutableTrust); (kLastTsaUrl, ReadOnly); (kTslSources, DbusMutableTrust);
   (kTslCacheDir, FileOnly); (kCscaCacheDir, FileOnly); (kCscaAnchorState, ReadOnly); (kDefaultReason, DbusMutable);
   (kDefaultLocation, DbusMutable); (kPkcs11IdleTimeoutSecs, FileOnly); (kPkcs11MaxLifetimeSecs, FileOnly)].

Definition keys : list bytes := map fst kKeySpecs.
Definition mutability (key : bytes) : option Mutability :=
  match List.find (λ spec, bool_decide (key = spec.1)) kKeySpecs with Some spec => Some spec.2 | None => None end.

(** ** Settings *)

Record TslSource := mkSource { url : bytes; isLotl : bool; eager : bool }.

#[export] Instance TslSource_eq_dec : EqDecision TslSource.
Proof. solve_decision. Defined.

Record CscaAnchorState := mkAnchors {
  anchors : Z; issuers : Z; replayRefusalActive : bool; signer : bytes; signerPinned : bool;
  acceptedAt : option Z; signedAt : option Z }.

#[export] Instance CscaAnchorState_eq_dec : EqDecision CscaAnchorState.
Proof. solve_decision. Defined.

Record Settings := mkSettings {
  defaultLevel : bytes; tsaUrls : list bytes; lastTsaUrl : bytes; tslSources : list TslSource; tslCacheDir : bytes;
  cscaCacheDir : bytes; cscaAnchorState : option CscaAnchorState; defaultReason : bytes; defaultLocation : bytes;
  pkcs11IdleTimeoutSecs : Z; pkcs11MaxLifetimeSecs : Z }.

Definition withLevel v (c : Settings) : Settings := mkSettings v (tsaUrls c) (lastTsaUrl c) (tslSources c) (tslCacheDir c)
  (cscaCacheDir c) (cscaAnchorState c) (defaultReason c) (defaultLocation c) (pkcs11IdleTimeoutSecs c) (pkcs11MaxLifetimeSecs c).
Definition withTsaUrls v (c : Settings) : Settings := mkSettings (defaultLevel c) v (lastTsaUrl c) (tslSources c) (tslCacheDir c)
  (cscaCacheDir c) (cscaAnchorState c) (defaultReason c) (defaultLocation c) (pkcs11IdleTimeoutSecs c) (pkcs11MaxLifetimeSecs c).
Definition withLastTsaUrl v (c : Settings) : Settings := mkSettings (defaultLevel c) (tsaUrls c) v (tslSources c) (tslCacheDir c)
  (cscaCacheDir c) (cscaAnchorState c) (defaultReason c) (defaultLocation c) (pkcs11IdleTimeoutSecs c) (pkcs11MaxLifetimeSecs c).
Definition withTslSources v (c : Settings) : Settings := mkSettings (defaultLevel c) (tsaUrls c) (lastTsaUrl c) v (tslCacheDir c)
  (cscaCacheDir c) (cscaAnchorState c) (defaultReason c) (defaultLocation c) (pkcs11IdleTimeoutSecs c) (pkcs11MaxLifetimeSecs c).
Definition withTslCacheDir v (c : Settings) : Settings := mkSettings (defaultLevel c) (tsaUrls c) (lastTsaUrl c) (tslSources c) v
  (cscaCacheDir c) (cscaAnchorState c) (defaultReason c) (defaultLocation c) (pkcs11IdleTimeoutSecs c) (pkcs11MaxLifetimeSecs c).
Definition withCscaCacheDir v (c : Settings) : Settings := mkSettings (defaultLevel c) (tsaUrls c) (lastTsaUrl c) (tslSources c) (tslCacheDir c)
  v (cscaAnchorState c) (defaultReason c) (defaultLocation c) (pkcs11IdleTimeoutSecs c) (pkcs11MaxLifetimeSecs c).
Definition withAnchorState v (c : Settings) : Settings := mkSettings (defaultLevel c) (tsaUrls c) (lastTsaUrl c) (tslSources c) (tslCacheDir c)
  (cscaCacheDir c) v (defaultReason c) (defaultLocation c) (pkcs11IdleTimeoutSecs c) (pkcs11MaxLifetimeSecs c).
Definition withReason v (c : Settings) : Settings := mkSettings (defaultLevel c) (tsaUrls c) (lastTsaUrl c) (tslSources c) (tslCacheDir c)
  (cscaCacheDir c) (cscaAnchorState c) v (defaultLocation c) (pkcs11IdleTimeoutSecs c) (pkcs11MaxLifetimeSecs c).
Definition withLocation v (c : Settings) : Settings := mkSettings (defaultLevel c) (tsaUrls c) (lastTsaUrl c) (tslSources c) (tslCacheDir c)
  (cscaCacheDir c) (cscaAnchorState c) (defaultReason c) v (pkcs11IdleTimeoutSecs c) (pkcs11MaxLifetimeSecs c).
Definition withIdle v (c : Settings) : Settings := mkSettings (defaultLevel c) (tsaUrls c) (lastTsaUrl c) (tslSources c) (tslCacheDir c)
  (cscaCacheDir c) (cscaAnchorState c) (defaultReason c) (defaultLocation c) v (pkcs11MaxLifetimeSecs c).
Definition withLifetime v (c : Settings) : Settings := mkSettings (defaultLevel c) (tsaUrls c) (lastTsaUrl c) (tslSources c) (tslCacheDir c)
  (cscaCacheDir c) (cscaAnchorState c) (defaultReason c) (defaultLocation c) (pkcs11IdleTimeoutSecs c) v.

(** ** Defaults *)

Definition kPkcs11IdleDefault : Z := 600.
Definition kPkcs11MaxLifetimeDefault : Z := 28800.
Definition kLevelDefault : bytes := token "b-b".
Definition kTslSubdir : bytes := token "tsl".
Definition kCscaSubdir : bytes := token "csca".

Definition kSeedTsaUrls : list bytes := map token ["https://timestamp.sectigo.com"; "https://timestamp.digicert.com"; "https://ts.ssl.com"]%string.
Definition kSeedTslSources : list (bytes * bool) :=
  [(token "https://www.mit.gov.rs/TrustedList/TSL-RS.xml", false); (token "https://ec.europa.eu/tools/lotl/eu-lotl.xml", true)].

Definition seededTsaUrls : list bytes := kSeedTsaUrls.
Definition seededTslSources : list TslSource := map (λ src, mkSource src.1 src.2 false) kSeedTslSources.

(** [std::filesystem::path::operator/] with a relative name. *)
Definition joinPath (root name : bytes) : bytes :=
  match last root with
  | None => name
  | Some c => if c =? cSlash then root ++ name else root ++ [cSlash] ++ name
  end.

Definition applyDefaults (root : bytes) : Settings :=
  mkSettings kLevelDefault [] [] [] (joinPath root kTslSubdir) (joinPath root kCscaSubdir) None [] []
    kPkcs11IdleDefault kPkcs11MaxLifetimeDefault.

(** ** Reading values *)

Fixpoint trimRight (s : bytes) : bytes :=
  match s with
  | [] => []
  | c :: rest => match trimRight rest with [] => if isBlank c then [] else [c] | rest => c :: rest end
  end.
Definition trim (s : bytes) : bytes := trimRight (skipBlank s).

(** [std::from_chars] on the whole text. *)
Definition parseU32 (s : bytes) : option Z :=
  if bool_decide (s = []) || negb (forallb isDigit s) then None
  else let n := decimalValue s in if n <? 2 ^ 32 then Some n else None.
Definition parseI64 (s : bytes) : option Z := wholeInteger s.

Definition isHttpUrl (u : bytes) (allowPlainHttp : bool) : bool :=
  let judged authority := match authority with c :: _ => negb (c =? cSlash) | [] => false end in
  if bool_decide (take (length kHttp) u = kHttp) then
    if negb allowPlainHttp then false else judged (drop (length kHttp) u)
  else if bool_decide (take (length kHttps) u = kHttps) then judged (drop (length kHttps) u)
  else false.

(** ** The report of the anchors *)

Definition cBar : Z := 124.
Definition boolText (b : bool) : bytes := if b then token "true" else token "false".
Definition subfield (name : string) (value : bytes) : bytes := token name ++ [cEquals] ++ value.

Definition encodeCscaAnchorState (s : CscaAnchorState) : bytes :=
  subfield "anchors" (toString (anchors s)) ++
  [cBar] ++ subfield "issuers" (toString (issuers s)) ++
  [cBar] ++ subfield "replayRefusalActive" (boolText (replayRefusalActive s)) ++
  (if bool_decide (signer s = []) then [] else [cBar] ++ subfield "signer" (signer s)) ++
  [cBar] ++ subfield "signerPinned" (boolText (signerPinned s)) ++
  match acceptedAt s with Some t => [cBar] ++ subfield "acceptedAt" (toString t) | None => [] end ++
  match signedAt s with Some t => [cBar] ++ subfield "signedAt" (toString t) | None => [] end.

(** A text split at its first equals sign, both parts trimmed. *)
Definition keyAndValue (t : bytes) : option (bytes * bytes) :=
  match list_find (λ c, c = cEquals) t with
  | Some (eq, _) => Some (trim (take eq t), trim (drop (S eq) t))
  | None => None
  end.

(** The report so far, and whether a known subfield was seen. *)
Definition parseSubfield (st : CscaAnchorState * bool) (field : bytes) : CscaAnchorState * bool :=
  let '(s, saw) := st in
  match keyAndValue field with
  | None => st
  | Some (name, raw) =>
      let named n := bool_decide (name = token n) in
      if named "anchors"%string then
        match parseU32 raw with
        | Some n => (mkAnchors n (issuers s) (replayRefusalActive s) (signer s) (signerPinned s) (acceptedAt s) (signedAt s), true)
        | None => st
        end
      else if named "issuers"%string then
        match parseU32 raw with
        | Some n => (mkAnchors (anchors s) n (replayRefusalActive s) (signer s) (signerPinned s) (acceptedAt s) (signedAt s), true)
        | None => st
        end
      else if named "replayRefusalActive"%string then
        (mkAnchors (anchors s) (issuers s) (bool_decide (raw = token "true")) (signer s) (signerPinned s) (acceptedAt s) (signedAt s), true)
      else if named "signer"%string then
        (mkAnchors (anchors s) (issuers s) (replayRefusalActive s) raw (signerPinned s) (acceptedAt s) (signedAt s), true)
      else if named "signerPinned"%string then
        (mkAnchors (anchors s) (issuers s) (replayRefusalActive s) (signer s) (bool_decide (raw = token "true")) (acceptedAt s) (signedAt s), true)
      else if named "acceptedAt"%string then
        match parseI64 raw with
        | Some n => (mkAnchors (anchors s) (issuers s) (replayRefusalActive s) (signer s) (signerPinned s) (Some n) (signedAt s), true)
        | None => st
        end
      else if named "signedAt"%string then
        match parseI64 raw with
        | Some n => (mkAnchors (anchors s) (issuers s) (replayRefusalActive s) (signer s) (signerPinned s) (acceptedAt s) (Some n), true)
        | None => st
        end
      else st
  end.

Definition parseCscaAnchorState (value : bytes) : option CscaAnchorState :=
  let '(s, saw) := foldl parseSubfield (mkAnchors 0 0 false [] false None None, false) (getLines cBar value) in
  if saw then Some s else None.

(** ** The file *)

Definition sourceFlag (src : TslSource) (field : bytes) : TslSource :=
  if bool_decide (field = token "lotl") then mkSource (url src) true (eager src)
  else if bool_decide (field = token "eager") then mkSource (url src) (isLotl src) true
  else src.

Definition parseSource (value : bytes) : TslSource :=
  match getLines cBar value with
  | [] => mkSource [] false false
  | first :: fields => foldl sourceFlag (mkSource first false false) fields
  end.

Definition loadKey (c : Settings) (key value : bytes) : Settings :=
  let named k := bool_decide (key = k) in
  if named kDefaultLevel then (if isKnownLevel value then withLevel value c else c)
  else if named (token "TsaUrl") then (if isHttpUrl value false then withTsaUrls (tsaUrls c ++ [value]) c else c)
  else if named kLastTsaUrl then withLastTsaUrl value c
  else if named (token "TslSource") then
    let src := parseSource value in
    if isHttpUrl (url src) false then withTslSources (tslSources c ++ [src]) c else c
  else if named kTslCacheDir then (if bool_decide (value = []) then c else withTslCacheDir value c)
  else if named kCscaCacheDir then (if bool_decide (value = []) then c else withCscaCacheDir value c)
  else if named kCscaAnchorState then withAnchorState (parseCscaAnchorState value) c
  else if named kDefaultReason then withReason value c
  else if named kDefaultLocation then withLocation value c
  else if named kPkcs11IdleTimeoutSecs then match parseU32 value with Some n => withIdle n c | None => c end
  else if named kPkcs11MaxLifetimeSecs then match parseU32 value with Some n => withLifetime n c | None => c end
  else c.

Definition loadLine (c : Settings) (line : bytes) : Settings :=
  let trimmed := trim line in
  if bool_decide (trimmed = []) || bool_decide (head trimmed = Some cHash) then c
  else match keyAndValue trimmed with
       | None => c
       | Some (key, value) => loadKey c key value
       end.

Definition loadText (t : bytes) (c : Settings) : Settings :=
  foldl loadLine (withTslSources [] (withTsaUrls [] c)) (fileLines t).

(** What [persist] writes. *)
Definition entry (key value : bytes) : bytes := key ++ token " = " ++ value ++ [cNewline].

Definition sourceText (s : TslSource) : bytes :=
  url s ++ (if isLotl s then token "|lotl" else []) ++ (if eager s then token "|eager" else []).

Definition printSettings (root : bytes) (c : Settings) : bytes :=
  token "# LibreSCRS agent signing configuration (auto-managed; Config1)" ++ [cNewline] ++
  (if bool_decide (defaultLevel c = kLevelDefault) then [] else entry kDefaultLevel (defaultLevel c)) ++
  concat (map (entry (token "TsaUrl")) (tsaUrls c)) ++
  (if bool_decide (lastTsaUrl c = []) then [] else entry kLastTsaUrl (lastTsaUrl c)) ++
  concat (map (λ s, entry (token "TslSource") (sourceText s)) (tslSources c)) ++
  (if bool_decide (tslCacheDir c = joinPath root kTslSubdir) then [] else entry kTslCacheDir (tslCacheDir c)) ++
  (if bool_decide (cscaCacheDir c = joinPath root kCscaSubdir) then [] else entry kCscaCacheDir (cscaCacheDir c)) ++
  match cscaAnchorState c with Some s => entry kCscaAnchorState (encodeCscaAnchorState s) | None => [] end ++
  (if bool_decide (defaultReason c = []) then [] else entry kDefaultReason (defaultReason c)) ++
  (if bool_decide (defaultLocation c = []) then [] else entry kDefaultLocation (defaultLocation c)) ++
  (if pkcs11IdleTimeoutSecs c =? kPkcs11IdleDefault then [] else entry kPkcs11IdleTimeoutSecs (toString (pkcs11IdleTimeoutSecs c))) ++
  (if pkcs11MaxLifetimeSecs c =? kPkcs11MaxLifetimeDefault then [] else entry kPkcs11MaxLifetimeSecs (toString (pkcs11MaxLifetimeSecs c))).
(** ** The disk

    The file, and the temporary one beside it. *)
Record ConfDisk := mkConf { confFile : option bytes; tempFile : option bytes }.
Abbreviation CIO := (Storage.IO ConfDisk).

Definition setTemp (t : option bytes) (d : ConfDisk) : ConfDisk := mkConf (confFile d) t.

Definition createConfigDir : CIO bool := operation (λ d, (true, d)) (λ _ d, d).
Definition makeTemp : CIO bool := operation (λ d, (true, setTemp (Some []) d)) (λ _ d, setTemp (Some []) d).
Definition setPermissions : CIO bool := operation (λ d, (true, d)) (λ _ d, d).
Definition openTemp : CIO bool := operation (λ d, (true, setTemp (Some []) d)) (λ _ d, d).
Definition writeTemp (t : bytes) : CIO bool :=
  operation (λ d, (true, setTemp (Some t) d)) (λ e d, setTemp (Some (take (written e) t)) d).
Definition removeTemp : CIO bool := operation (λ d, (true, setTemp None d)) (λ _ d, setTemp None d).
Definition renameTemp : CIO bool :=
  let done d := match tempFile d with Some t => mkConf (Some t) None | None => d end in
  operation (λ d, (true, done d)) (λ _ d, done d).

(** The result of the writes is not looked at before the rename. *)
Definition persist (root : bytes) (c : Settings) : CIO unit :=
  andThen createConfigDir (λ ok, if negb ok then done_ () else
  andThen makeTemp (λ ok, if negb ok then done_ () else
  andThen setPermissions (λ _,
  andThen openTemp (λ ok, if negb ok then andThen removeTemp (λ _, done_ ()) else
  andThen (writeTemp (printSettings root c)) (λ _,
  andThen renameTemp (λ ok, if negb ok then andThen removeTemp (λ _, done_ ()) else done_ ())))))).

Definition fileExists (d : ConfDisk) : bool := match confFile d with Some _ => true | None => false end.

Definition loadFromFile (c : Settings) : CIO Settings :=
  andThen (query fileExists) (λ ex,
    match ex with
    | Some true =>
        andThen (query confFile) (λ content,
          match content with
          | Some (Some t) => done_ (loadText t c)
          | _ => done_ c
          end)
    | _ => done_ c
    end).

(** [seedFirstRunDefaults]: the settings, and whether they were seeded. *)
Definition seedFirstRunDefaults (c : Settings) : CIO (bool * Settings) :=
  andThen (query fileExists) (λ ex,
    match ex with
    | Some false => done_ (true, withTslSources seededTslSources (withTsaUrls seededTsaUrls c))
    | _ => done_ (false, c)
    end).

(** ** The store *)

(** Who is told of a change: the one slot, or an observer. *)
Inductive Listener := Slot | Observer (id : Z).

Record Store := mkStore {
  settings : Settings; m_onChanged : bool; m_changeObservers : list Z; m_nextObserverId : Z; notices : list (Listener * bytes) }.

Definition construct (root : bytes) : CIO Store :=
  andThen (seedFirstRunDefaults (applyDefaults root)) (λ '(seeded, c),
  andThen (if seeded then persist root c else done_ ()) (λ _,
  andThen (loadFromFile c) (λ c,
  done_ (mkStore c false [] 1 [])))).

Inductive SetResult := SetOk | InvalidConfigValue | UnknownConfigKey | ReadOnlyConfig.

#[export] Instance SetResult_eq_dec : EqDecision SetResult.
Proof. solve_decision. Defined.

Definition fireChanged (key : bytes) (s : Store) : Store :=
  mkStore (settings s) (m_onChanged s) (m_changeObservers s) (m_nextObserverId s)
    (notices s ++ (if m_onChanged s then [(Slot, key)] else []) ++ map (λ id, (Observer id, key)) (m_changeObservers s)).

Definition withSettings (c : Settings) (s : Store) : Store :=
  mkStore c (m_onChanged s) (m_changeObservers s) (m_nextObserverId s) (notices s).

(** The end of every call that changes a setting. *)
Definition commit (root key : bytes) (c : Settings) (s : Store) : CIO (SetResult * Store) :=
  andThen (persist root c) (λ _, done_ (SetOk, fireChanged key (withSettings c s))).

Section Calls.
Variable root : bytes.

Definition setDefaultLevel (level : bytes) (s : Store) : CIO (SetResult * Store) :=
  if negb (isKnownLevel level) then done_ (InvalidConfigValue, s)
  else commit root kDefaultLevel (withLevel level (settings s)) s.

Definition setTsaUrls (urls : list bytes) (s : Store) : CIO (SetResult * Store) :=
  if negb (forallb (λ u, isHttpUrl u false) urls) then done_ (InvalidConfigValue, s)
  else commit root kTsaUrls (withTsaUrls urls (settings s)) s.

Definition setTslSources (sources : list TslSource) (s : Store) : CIO (SetResult * Store) :=
  if negb (forallb (λ x, isHttpUrl (url x) false) sources) then done_ (InvalidConfigValue, s)
  else commit root kTslSources (withTslSources sources (settings s)) s.

Definition setDefaultReason (reason : bytes) (s : Store) : CIO (SetResult * Store) :=
  commit root kDefaultReason (withReason reason (settings s)) s.

Definition setDefaultLocation (location : bytes) (s : Store) : CIO (SetResult * Store) :=
  commit root kDefaultLocation (withLocation location (settings s)) s.

Definition resetValue (key : bytes) (c : Settings) : Settings :=
  let named k := bool_decide (key = k) in
  if named kDefaultLevel then withLevel (token "b-b") c
  else if named kTsaUrls then withTsaUrls seededTsaUrls c
  else if named kTslSources then withTslSources seededTslSources c
  else if named kDefaultReason then withReason [] c
  else if named kDefaultLocation then withLocation [] c
  else if named kTslCacheDir then withTslCacheDir (joinPath root kTslSubdir) c
  else if named kCscaCacheDir then withCscaCacheDir (joinPath root kCscaSubdir) c
  else if named kPkcs11IdleTimeoutSecs then withIdle kPkcs11IdleDefault c
  else if named kPkcs11MaxLifetimeSecs then withLifetime kPkcs11MaxLifetimeDefault c
  else if named kLastTsaUrl then withLastTsaUrl [] c
  else if named kCscaAnchorState then withAnchorState None c
  else c.

Definition resetKey (key : bytes) (fromDbus : bool) (s : Store) : CIO (SetResult * Store) :=
  match mutability key with
  | None => done_ (UnknownConfigKey, s)
  | Some m =>
      if fromDbus && (bool_decide (m = FileOnly) || bool_decide (m = ReadOnly)) then done_ (ReadOnlyConfig, s)
      else commit root key (resetValue key (settings s)) s
  end.

Definition recordLastTsaUrl (u : bytes) (s : Store) : CIO Store :=
  if bool_decide (lastTsaUrl (settings s) = u) then done_ s
  else andThen (commit root kLastTsaUrl (withLastTsaUrl u (settings s)) s) (λ r, done_ r.2).

Definition recordCscaAnchorState (a : CscaAnchorState) (s : Store) : CIO Store :=
  if bool_decide (cscaAnchorState (settings s) = Some a) then done_ s
  else andThen (commit root kCscaAnchorState (withAnchorState (Some a) (settings s)) s) (λ r, done_ r.2).

End Calls.

Definition setOnChanged (s : Store) : Store :=
  mkStore (settings s) true (m_changeObservers s) (m_nextObserverId s) (notices s).

Definition addChangeObserver (s : Store) : Z * Store :=
  (m_nextObserverId s,
   mkStore (settings s) (m_onChanged s) (m_changeObservers s ++ [m_nextObserverId s]) (u64 (m_nextObserverId s + 1)) (notices s)).

Definition removeChangeObserver (id : Z) (s : Store) : Store :=
  if id =? 0 then s
  else mkStore (settings s) (m_onChanged s) (filter (λ o, o ≠ id) (m_changeObservers s)) (m_nextObserverId s) (notices s).

(** ** Sequences of calls *)

Inductive Call :=
| CSetLevel (level : bytes) | CSetTsaUrls (urls : list bytes) | CSetTslSources (sources : list TslSource)
| CSetReason (reason : bytes) | CSetLocation (location : bytes) | CReset (key : bytes) (fromDbus : bool)
| CRecordTsaUrl (u : bytes) | CRecordAnchors (a : CscaAnchorState)
| CSetOnChanged | CAddObserver | CRemoveObserver (id : Z).

(** The result where the call has one. *)
Definition perform (root : bytes) (call : Call) (s : Store) : CIO (option SetResult * Store) :=
  let reported m := andThen m (λ '(r, s), done_ (Some r, s)) in
  let silent m := andThen m (λ s, done_ (None, s)) in
  match call with
  | CSetLevel l => reported (setDefaultLevel root l s)
  | CSetTsaUrls l => reported (setTsaUrls root l s)
  | CSetTslSources l => reported (setTslSources root l s)
  | CSetReason t => reported (setDefaultReason root t s)
  | CSetLocation t => reported (setDefaultLocation root t s)
  | CReset k b => reported (resetKey root k b s)
  | CRecordTsaUrl u => silent (recordLastTsaUrl root u s)
  | CRecordAnchors a => silent (recordCscaAnchorState root a s)
  | CSetOnChanged => done_ (None, setOnChanged s)
  | CAddObserver => done_ (None, (addChangeObserver s).2)
  | CRemoveObserver id => done_ (None, removeChangeObserver id s)
  end.

Fixpoint performAll (root : bytes) (calls : list Call) (s : Store) : CIO Store :=
  match calls with
  | [] => done_ s
  | call :: calls => andThen (perform root call s) (λ r, performAll root calls r.2)
  end.

(** ** Well-formed settings *)

Definition https (u : bytes) : Prop := isHttpUrl u false = true.

Definition reportOk (a : CscaAnchorState) : Prop :=
  uint32 (anchors a) ∧ uint32 (issuers a) ∧ (∀ t, acceptedAt a = Some t → int64 t) ∧ (∀ t, signedAt a = Some t → int64 t).

Record WellFormed (c : Settings) : Prop := {
  wf_level : isKnownLevel (defaultLevel c) = true;
  wf_tsa : Forall https (tsaUrls c);
  wf_tsl : Forall (λ s, https (url s)) (tslSources c);
  wf_report : ∀ a, cscaAnchorState c = Some a → reportOk a;
  wf_idle : uint32 (pkcs11IdleTimeoutSecs c);
  wf_lifetime : uint32 (pkcs11MaxLifetimeSecs c) }.

Lemma parseU32_range s n : parseU32 s = Some n → uint32 n.
Proof.
  unfold parseU32. destruct (_ || _) eqn:E; [done|]. apply orb_false_iff in E as [_ E%negb_false_iff]. case_match eqn:El; [|done]. intros [= <-].
  assert (Forall (λ c, 48 ≤ c ≤ 57) s) as Hs.
  { apply List.Forall_forall. intros c Hc. rewrite forallb_forall in E. by apply isDigit_iff, E. }
  apply decimalValue_bounds in Hs. unfold uint32. lia.
Qed.

Lemma parseI64_range s n : parseI64 s = Some n → int64 n.
Proof.
  unfold parseI64, wholeInteger. cbv zeta. destruct (_ || _); [done|]. destruct (fitsInt64 _) eqn:E; [|done]. intros [= <-].
  unfold fitsInt64 in E. apply andb_true_iff in E as [? ?]. unfold int64. lia.
Qed.

Lemma parseSubfield_ok st field : reportOk st.1 → reportOk (parseSubfield st field).1.
Proof.
  destruct st as [s saw]. intros Hs. pose proof Hs as (H1&H2&H3&H4). unfold parseSubfield.
  destruct (keyAndValue field) as [[name raw]|]; [|done]. cbv zeta.
  repeat case_match; try done; cbn [fst].
  all: repeat match goal with H : parseU32 _ = Some _ |- _ => apply parseU32_range in H | H : parseI64 _ = Some _ |- _ => apply parseI64_range in H end.
  all: unfold reportOk; cbn; try (split_and!; done).
  all: split; [done|]; split; [done|]; split; try done; by intros t [= <-].
Qed.

Lemma parseCscaAnchorState_ok v a : parseCscaAnchorState v = Some a → reportOk a.
Proof.
  unfold parseCscaAnchorState.
  assert (∀ ps st, reportOk st.1 → reportOk (foldl parseSubfield st ps).1) as Hf.
  { induction ps as [|p ps IH]; intros st Hst; [done|]. cbn. by apply IH, parseSubfield_ok. }
  specialize (Hf (getLines cBar v) (mkAnchors 0 0 false [] false None None, false)).
  destruct (foldl parseSubfield _ _) as [s []]; [|done]. intros [= <-]. apply Hf. by repeat split.
Qed.

Ltac wf H := destruct H; constructor; cbn; try done.

Lemma loadKey_ok c key value : WellFormed c → WellFormed (loadKey c key value).
Proof.
  intros Hc. unfold loadKey. cbv zeta.
  case_bool_decide; [destruct (isKnownLevel value) eqn:?; [wf Hc|done]|].
  case_bool_decide; [destruct (isHttpUrl value false) eqn:?; [wf Hc; apply Forall_app; split; [done|by constructor]|done]|].
  case_bool_decide; [wf Hc|].
  case_bool_decide; [destruct (isHttpUrl (url (parseSource value)) false) eqn:?; [wf Hc; apply Forall_app; split; [done|by constructor]|done]|].
  do 2 (case_bool_decide; [case_bool_decide; [done|wf Hc]|]).
  case_bool_decide; [wf Hc; by intros a ?%parseCscaAnchorState_ok|].
  do 2 (case_bool_decide; [wf Hc|]).
  do 2 (case_bool_decide; [destruct (parseU32 value) eqn:?; [wf Hc; by eapply parseU32_range|done]|]). done.
Qed.

Lemma loadText_ok t c : WellFormed c → WellFormed (loadText t c).
Proof.
  intros Hc. unfold loadText. assert (∀ ls c, WellFormed c → WellFormed (foldl loadLine c ls)) as Hl.
  { induction ls as [|l ls IH]; intros c' Hc'; [done|]. cbn. apply IH. unfold loadLine. cbv zeta. case_match; [done|].
    destruct (keyAndValue (trim l)) as [[k v]|]; [by apply loadKey_ok|done]. }
  apply Hl. wf Hc.
Qed.

Lemma applyDefaults_ok root : WellFormed (applyDefaults root).
Proof. constructor; cbn; try done; unfold uint32, kPkcs11IdleDefault, kPkcs11MaxLifetimeDefault; lia. Qed.

Lemma seeds_ok : Forall https seededTsaUrls ∧ Forall (λ s, https (url s)) seededTslSources.
Proof. split; repeat (constructor; [vm_compute; done|]); constructor. Qed.

Lemma resetValue_ok root key c : WellFormed c → WellFormed (resetValue root key c).
Proof.
  destruct seeds_ok as [H1 H2]. intros Hc. unfold resetValue. cbv zeta.
  repeat (case_bool_decide; [wf Hc; unfold uint32, kPkcs11IdleDefault, kPkcs11MaxLifetimeDefault; lia|]). done.
Qed.

Lemma persist_any root c d (P : () → Prop) : P () → wp (persist root c) (λ r _, ∀ a, r = Some a → P a) d.
Proof. intros HP faults. destruct (persist root c faults d) as [[r ?] ?]. by intros [] _. Qed.

Lemma commit_ok root key c s d : WellFormed c →
  wp (commit root key c s) (λ r _, ∀ x, r = Some x → WellFormed (settings x.2)) d.
Proof.
  intros Hc. apply (io_andThen_value _ _ (λ _, True)); [by apply persist_any|]. intros a d' _. apply io_done. by intros x [= <-].
Qed.

(** What the arguments of a call satisfy by their types. *)
Definition typed (call : Call) : Prop := match call with CRecordAnchors a => reportOk a | _ => True end.

Lemma perform_ok root call s d : typed call → WellFormed (settings s) →
  wp (perform root call s) (λ r _, ∀ x, r = Some x → WellFormed (settings x.2)) d.
Proof.
  intros Ht Hs.
  assert (∀ m : CIO (SetResult * Store), wp m (λ r _, ∀ x, r = Some x → WellFormed (settings x.2)) d →
    wp (andThen m (λ '(r, s), done_ (Some r, s))) (λ r _, ∀ x, r = Some x → WellFormed (settings x.2)) d) as Hrep.
  { intros m Hm. apply (io_andThen_value _ _ (λ x, WellFormed (settings x.2))); [done|]. intros [r s'] d' H. apply io_done. by intros x [= <-]. }
  assert (∀ m : CIO Store, wp m (λ r _, ∀ x, r = Some x → WellFormed (settings x)) d →
    wp (andThen m (λ s, done_ (None : option SetResult, s))) (λ r _, ∀ x, r = Some x → WellFormed (settings x.2)) d) as Hsil.
  { intros m Hm. apply (io_andThen_value _ _ (λ x, WellFormed (settings x))); [done|]. intros s' d' H. apply io_done. by intros x [= <-]. }
  assert (∀ key c, WellFormed c → wp (andThen (commit root key c s) (λ r, done_ r.2)) (λ r _, ∀ x, r = Some x → WellFormed (settings x)) d) as Hrec.
  { intros key c Hc. apply (io_andThen_value _ _ (λ x, WellFormed (settings x.2))); [by apply commit_ok|]. intros x d' H. apply io_done. by intros y [= <-]. }
  destruct call; cbn [perform]; try (apply io_done; intros x [= <-]; cbn; first [done | unfold removeChangeObserver; by case_match]); (apply Hrep || apply Hsil).
  - unfold setDefaultLevel. destruct (isKnownLevel level) eqn:E; cbn [negb]; [apply commit_ok; wf Hs|apply io_done; by intros x [= <-]].
  - unfold setTsaUrls. destruct (forallb _ urls) eqn:E; cbn [negb]; [|apply io_done; by intros x [= <-]].
    apply commit_ok. wf Hs. apply List.Forall_forall. by rewrite forallb_forall in E.
  - unfold setTslSources. destruct (forallb _ sources) eqn:E; cbn [negb]; [|apply io_done; by intros x [= <-]].
    apply commit_ok. wf Hs. apply List.Forall_forall. by rewrite forallb_forall in E.
  - unfold setDefaultReason. apply commit_ok. wf Hs.
  - unfold setDefaultLocation. apply commit_ok. wf Hs.
  - unfold resetKey. destruct (mutability key); [|apply io_done; by intros x [= <-]]. case_match; [apply io_done; by intros x [= <-]|].
    by apply commit_ok, resetValue_ok.
  - unfold recordLastTsaUrl. case_bool_decide; [apply io_done; by intros x [= <-]|]. apply Hrec. wf Hs.
  - unfold recordCscaAnchorState. case_bool_decide; [apply io_done; by intros x [= <-]|]. apply Hrec. wf Hs. by intros a' [= <-].
Qed.

Lemma performAll_ok root calls s d : Forall typed calls → WellFormed (settings s) →
  wp (performAll root calls s) (λ r _, ∀ x, r = Some x → WellFormed (settings x)) d.
Proof.
  intros Ht. revert s d. induction Ht as [|call calls Hc Ht IH]; intros s d Hs; cbn [performAll]; [apply io_done; by intros x [= <-]|].
  apply (io_andThen_value _ _ (λ x, WellFormed (settings x.2))); [by apply perform_ok|]. intros x d' H. by apply IH.
Qed.

Lemma construct_ok root d : wp (construct root) (λ r _, ∀ s, r = Some s → WellFormed (settings s)) d.
Proof.
  destruct seeds_ok as [H1 H2]. pose proof (applyDefaults_ok root) as Hd.
  apply (io_andThen_value _ _ (λ x, WellFormed x.2)).
  - apply io_andThen, io_query; [case_match| |]; try (apply io_done); try (intros x [= <-]); cbn; first [done|wf Hd].
  - intros [seeded c] d' Hc. apply (io_andThen_value _ _ (λ _, True)); [destruct seeded; [by apply persist_any|by apply io_done]|]. intros [] d1 _.
    apply (io_andThen_value _ _ WellFormed); [|intros c' d2 Hc'; apply io_done; by intros s [= <-]].
    apply io_andThen, io_query; [destruct (fileExists d1)|apply io_done; by intros ? [= <-]|done]; [|apply io_done; by intros ? [= <-]].
    apply io_andThen, io_query; [destruct (confFile d1)|apply io_done; by intros ? [= <-]|done]; apply io_done; intros ? [= <-]; [by apply loadText_ok|done].
Qed.



(** ** What a call changes *)

Inductive Setting :=
| VText (t : bytes) | VTexts (l : list bytes) | VSources (l : list TslSource) | VNumber (n : Z) | VReport (a : option CscaAnchorState).

(** The value of a key. *)
Definition valueAt (key : bytes) (c : Settings) : option Setting :=
  let named k := bool_decide (key = k) in
  if named kDefaultLevel then Some (VText (defaultLevel c))
  else if named kTsaUrls then Some (VTexts (tsaUrls c))
  else if named kLastTsaUrl then Some (VText (lastTsaUrl c))
  else if named kTslSources then Some (VSources (tslSources c))
  else if named kTslCacheDir then Some (VText (tslCacheDir c))
  else if named kCscaCacheDir then Some (VText (cscaCacheDir c))
  else if named kCscaAnchorState then Some (VReport (cscaAnchorState c))
  else if named kDefaultReason then Some (VText (defaultReason c))
  else if named kDefaultLocation then Some (VText (defaultLocation c))
  else if named kPkcs11IdleTimeoutSecs then Some (VNumber (pkcs11IdleTimeoutSecs c))
  else if named kPkcs11MaxLifetimeSecs then Some (VNumber (pkcs11MaxLifetimeSecs c))
  else None.

Definition keyOf (call : Call) : option bytes :=
  match call with
  | CSetLevel _ => Some kDefaultLevel
  | CSetTsaUrls _ => Some kTsaUrls
  | CSetTslSources _ => Some kTslSources
  | CSetReason _ => Some kDefaultReason
  | CSetLocation _ => Some kDefaultLocation
  | CReset k _ => Some k
  | CRecordTsaUrl _ => Some kLastTsaUrl
  | CRecordAnchors _ => Some kCscaAnchorState
  | _ => None
  end.

(** The calls that a client reaches: the setters, and a reset over the bus. *)
Definition fromClient (call : Call) : bool :=
  match call with
  | CSetLevel _ | CSetTsaUrls _ | CSetTslSources _ | CSetReason _ | CSetLocation _ | CReset _ true => true
  | _ => false
  end.

Definition told (key : bytes) (s : Store) : list (Listener * bytes) :=
  (if m_onChanged s then [(Slot, key)] else []) ++ map (λ id, (Observer id, key)) (m_changeObservers s).

(** All settings but one are those before. *)
Definition onlyAt (key : bytes) (c c' : Settings) : Prop := ∀ k, k ≠ key → valueAt k c' = valueAt k c.

Ltac only_at := intros k Hk; unfold valueAt; cbv zeta; repeat (case_bool_decide; [first [done | congruence]|]); done.

Lemma onlyAt_level v c : onlyAt kDefaultLevel c (withLevel v c).
Proof. only_at. Qed.
Lemma onlyAt_tsa v c : onlyAt kTsaUrls c (withTsaUrls v c).
Proof. only_at. Qed.
Lemma onlyAt_last v c : onlyAt kLastTsaUrl c (withLastTsaUrl v c).
Proof. only_at. Qed.
Lemma onlyAt_tsl v c : onlyAt kTslSources c (withTslSources v c).
Proof. only_at. Qed.
Lemma onlyAt_report v c : onlyAt kCscaAnchorState c (withAnchorState v c).
Proof. only_at. Qed.
Lemma onlyAt_reason v c : onlyAt kDefaultReason c (withReason v c).
Proof. only_at. Qed.
Lemma onlyAt_location v c : onlyAt kDefaultLocation c (withLocation v c).
Proof. only_at. Qed.
#[local] Hint Resolve onlyAt_level onlyAt_tsa onlyAt_last onlyAt_tsl onlyAt_report onlyAt_reason onlyAt_location : core.

Lemma onlyAt_reset root key c : onlyAt key c (resetValue root key c).
Proof. unfold resetValue. cbv zeta. repeat (let E := fresh in case_bool_decide as E; [rewrite E; first [auto; fail | clear; only_at]|]). by intros k. Qed.

(** A call that is carried out: the one key changes and everybody is told. *)
Definition carriedOut (key : bytes) (s s' : Store) : Prop :=
  onlyAt key (settings s) (settings s') ∧ notices s' = notices s ++ told key s ∧
  m_changeObservers s' = m_changeObservers s ∧ m_onChanged s' = m_onChanged s.

Lemma commit_runs root key c s faults d x faults' d' : onlyAt key (settings s) c →
  commit root key c s faults d = (Some x, faults', d') → x.1 = SetOk ∧ carriedOut key s x.2.
Proof.
  intros Hc. unfold commit, andThen. destruct (persist root c faults d) as [[[u|] fs] d1]; [|done]. cbn. intros [= <- _ _]. done.
Qed.

(** What is left by a call with a result: it is carried out, or nothing happened. *)
Definition answered (key : bytes) (s : Store) (d : ConfDisk) (x : SetResult * Store) (d' : ConfDisk) : Prop :=
  x.1 = SetOk ∧ carriedOut key s x.2 ∨ x.1 ≠ SetOk ∧ x.2 = s ∧ d' = d.

Lemma setter_answers root key c s faults d (refusal : SetResult) (ok : bool) x faults' d' : refusal ≠ SetOk → onlyAt key (settings s) c →
  (if ok then done_ (refusal, s) else commit root key c s) faults d = (Some x, faults', d') → answered key s d x d'.
Proof.
  intros Hr Hc. destruct ok; [intros [= <- _ <-]; by right|]. intros H. left. by apply (commit_runs _ _ _ _ _ _ _ _ _ Hc H).
Qed.

Lemma call_answers root call key s faults d r s' faults' d' : keyOf call = Some key →
  perform root call s faults d = (Some (Some r, s'), faults', d') → answered key s d (r, s') d'.
Proof.
  intros Hk. assert (∀ m : CIO (SetResult * Store), andThen m (λ '(r, s), done_ (Some r, s)) faults d = (Some (Some r, s'), faults', d') →
    m faults d = (Some (r, s'), faults', d')) as Hrep.
  { intros m. unfold andThen. destruct (m faults d) as [[[[r1 s1]|] f1] d1]; [|done]. cbn. by intros [= <- <- <- <-]. }
  assert (∀ m : CIO Store, andThen m (λ s, done_ (None : option SetResult, s)) faults d ≠ (Some (Some r, s'), faults', d')) as Hsil.
  { intros m. unfold andThen. by destruct (m faults d) as [[[s1|] f1] d1]. }
  destruct call; cbn in Hk; simplify_eq; cbn [perform]; intros H; try (by destruct (Hsil _ H)); apply Hrep in H; clear Hrep Hsil.
  - eapply setter_answers; [| |exact H]; auto.
  - eapply setter_answers; [| |exact H]; auto.
  - eapply setter_answers; [| |exact H]; auto.
  - unfold setDefaultReason in H. apply commit_runs in H; [by left|auto].
  - unfold setDefaultLocation in H. apply commit_runs in H; [by left|auto].
  - unfold resetKey in H. destruct (mutability key); [|injection H as <- <- _ <-; by right].
    eapply setter_answers; [|apply onlyAt_reset|exact H]. done.
Qed.

Lemma record_runs root key c s faults d s' faults' d' : onlyAt key (settings s) c →
  andThen (commit root key c s) (λ r, done_ r.2) faults d = (Some s', faults', d') → carriedOut key s s'.
Proof.
  intros Hc. unfold andThen. destruct (commit root key c s faults d) as [[[x|] f1] d1] eqn:E; [|done]. intros [= <- _ _].
  by apply (commit_runs _ _ _ _ _ _ _ _ _ Hc E).
Qed.

Lemma silent_call root call key s faults d s' faults' d' : keyOf call = Some key →
  perform root call s faults d = (Some (None, s'), faults', d') →
  fromClient call = false ∧ (s' = s ∧ d' = d ∨ carriedOut key s s').
Proof.
  intros Hk. assert (∀ m : CIO (SetResult * Store), andThen m (λ '(r, s), done_ (Some r, s)) faults d ≠ (Some (None, s'), faults', d')) as Hrep.
  { intros m. unfold andThen. by destruct (m faults d) as [[[[r1 s1]|] f1] d1]. }
  assert (∀ m : CIO Store, andThen m (λ s, done_ (None : option SetResult, s)) faults d = (Some (None, s'), faults', d') →
    m faults d = (Some s', faults', d')) as Hsil.
  { intros m. unfold andThen. destruct (m faults d) as [[[s1|] f1] d1]; [|done]. cbn. by intros [= <- <- <-]. }
  destruct call; cbn in Hk; simplify_eq; cbn [perform]; intros H; try (by destruct (Hrep _ H)); apply Hsil in H; clear Hrep Hsil; (split; [done|]).
  - unfold recordLastTsaUrl in H. case_bool_decide; [injection H as <- _ <-; by left|]. right. eapply record_runs; [|exact H]. auto.
  - unfold recordCscaAnchorState in H. case_bool_decide; [injection H as <- _ <-; by left|]. right. eapply record_runs; [|exact H]. auto.
Qed.

(** The keys that only the file or the agent itself may change. *)
Definition guarded (key : bytes) : Prop := mutability key = Some FileOnly ∨ mutability key = Some ReadOnly.

(** A call changes the one setting it names. When a setter, a reset or a record is
    carried out, every other setting is as before and every listener is told the key once;
    when it is refused, or has nothing to change, nothing changed, on the disk neither. No
    setter and no reset that comes over the bus changes a setting that is reserved to the
    file or to the agent. *)
Theorem call_changes_its_key root call key s faults d r s' faults' d' : keyOf call = Some key →
  perform root call s faults d = (Some (r, s'), faults', d') →
  match r with
  | Some SetOk => onlyAt key (settings s) (settings s') ∧ notices s' = notices s ++ told key s
  | Some _ => s' = s ∧ d' = d
  | None => s' = s ∧ d' = d ∨ onlyAt key (settings s) (settings s') ∧ notices s' = notices s ++ told key s
  end ∧
  (fromClient call = true → ∀ k, guarded k → valueAt k (settings s') = valueAt k (settings s)).
Proof.
  intros Hk H. destruct r as [r|].
  - pose proof (call_answers _ _ _ _ _ _ _ _ _ _ Hk H) as Ha. split.
    + destruct Ha as [(E&Hc&Hn&_)|(?&?&?)]; cbn in *; [by subst r|]. by destruct r.
    + intros Hf k Hg. destruct Ha as [(Hr&(Hc&_))|(_&<-&_)]; [|done]. cbn in Hr. subst r. apply Hc. intros ->. clear Hc.
      destruct call as [| | | | |k0 []| | | | |]; cbn in Hk, Hf; simplify_eq; try (destruct Hg as [Hg|Hg]; vm_compute in Hg; discriminate).
      cbn [perform] in H. unfold resetKey, andThen in H. destruct Hg as [Hg|Hg]; rewrite Hg in H; cbn in H; discriminate.
  - destruct (silent_call _ _ _ _ _ _ _ _ _ Hk H) as (Hcl&[(->&->)|(Hc&Hn&_)]); rewrite Hcl; (split; [|done]); auto.
Qed.

Lemma call_changes_its_key_witness :
  let s := mkStore (applyDefaults (token "/c")) true [4] 5 [] in
  match perform (token "/c") (CSetReason (token "because")) s [] (mkConf None None) with
  | (Some (r, s'), _, d') =>
      r = Some SetOk ∧ onlyAt kDefaultReason (settings s) (settings s') ∧ notices s' = [(Slot, kDefaultReason); (Observer 4, kDefaultReason)] ∧
      confFile d' = Some (printSettings (token "/c") (settings s'))
  | (None, _, _) => False
  end.
Proof.
  cbv zeta. destruct (perform _ _ _ _ _) as [[[[r s']|] fs] d'] eqn:E; [|vm_compute in E; discriminate].
  destruct (call_changes_its_key _ (CSetReason (token "because")) kDefaultReason _ _ _ _ _ _ _ eq_refl E) as [Hc _].
  assert (r = Some SetOk) as -> by (vm_compute in E; by injection E as <- _ _ _).
  destruct Hc as [Ho _]. split; [done|]. split; [exact Ho|]. vm_compute in E. injection E as <- _ <-. vm_compute. done.
Defined.

(** ** How a write ends *)

(** Whatever the disk does, the file is the old one or a beginning of the new text. *)
Lemma persist_ends root c d :
  wp (persist root c) (λ _ d', confFile d' = confFile d ∨ ∃ n, confFile d' = Some (take n (printSettings root c))) d.
Proof.
  set (Q := λ (_ : option ()) (d' : ConfDisk), confFile d' = confFile d ∨ ∃ n, confFile d' = Some (take n (printSettings root c))).
  assert (∀ d', confFile d' = confFile d → wp (andThen removeTemp (λ _, done_ ())) Q d') as Hrm.
  { intros d' E. apply io_andThen, io_operation; [by apply io_done; left|]. intros r _. destruct r; split; intros; try apply io_done; by left. }
  assert (∀ d' n, tempFile d' = Some (take n (printSettings root c)) → confFile d' = confFile d →
    wp (andThen renameTemp (λ ok, if negb ok then andThen removeTemp (λ _, done_ ()) else done_ ())) Q d') as Hren.
  { intros d' n Et E. apply io_andThen, io_operation; cbn [fst snd negb]; rewrite ?Et; [apply io_done; right; by exists n|].
    intros [[]|] Hr; [done|..]; (split; [|intros _]); cbn [negb]; [by apply Hrm| |by left|right; by exists n].
    apply io_andThen, io_operation; [apply io_done; right; by exists n|]. intros r _. destruct r; split; intros; try apply io_done; right; by exists n. }
  unfold persist. apply io_andThen, io_operation; [cbn [fst snd negb]|intros [[]|] ?; (split; [|intros ?]); try done; cbn [negb]; try apply io_done; by left].
  apply io_andThen, io_operation; [cbn [fst snd negb]|intros [[]|] ?; (split; [|intros ?]); try done; cbn [negb]; try apply io_done; by left].
  set (d1 := setTemp (Some []) d).
  assert (wp (andThen openTemp (λ ok, if negb ok then andThen removeTemp (λ _, done_ ()) else
    andThen (writeTemp (printSettings root c)) (λ _,
    andThen renameTemp (λ ok, if negb ok then andThen removeTemp (λ _, done_ ()) else done_ ())))) Q d1) as Hopen.
  { apply io_andThen, io_operation; [cbn [fst snd negb]|intros [[]|] ?; (split; [|intros ?]); try done; cbn [negb]; try (by apply Hrm); by left].
    apply io_andThen, io_operation.
    - cbn [fst snd]. apply (Hren _ (length (printSettings root c))); [by rewrite take_ge|done].
    - intros [r|] _; (split; [|intros e]); try (by left); [by apply (Hren _ 0%nat)|by apply (Hren _ (written e))]. }
  apply io_andThen, io_operation; [exact Hopen|]. intros [r|] _; (split; [|intros e]); try (exact Hopen); by left.
Qed.

(** A process that ends in the middle leaves the old file or the whole new one. *)
Lemma persist_untilEnd root c d :
  untilEnd (persist root c) (λ _ d', confFile d' = confFile d ∨ confFile d' = Some (printSettings root c)) d.
Proof.
  unfold persist. do 2 (apply untilEnd_andThen, untilEnd_operation; cbn [fst snd negb]; [|by left|by left]).
  do 2 (apply untilEnd_andThen, untilEnd_operation; cbn [fst snd negb]; [|by left|by left]).
  apply untilEnd_andThen, untilEnd_operation; cbn [fst snd]; [|by left|by left].
  apply untilEnd_andThen, untilEnd_operation; cbn [fst snd negb setTemp tempFile]; [by apply untilEnd_done; right|by left|by right].
Qed.

Lemma persist_works root c d : works (persist root c) (λ _ d', d' = mkConf (Some (printSettings root c)) None) d.
Proof.
  unfold persist. do 6 (apply works_andThen, works_operation; cbn [fst snd negb setTemp tempFile]). by intros faults Hf.
Qed.

(** C39: the file of the settings is replaced as a whole by any call of which the disk does
    not refuse a part: if the process ends at any point, the file is the one before or the
    whole new one. When the disk refuses operations, it can also be a beginning of the new
    text, and nothing else. *)
Theorem config_write_ends root c faults d :
  let d' := (persist root c faults d).2 in
  (confFile d' = confFile d ∨ ∃ n, confFile d' = Some (take n (printSettings root c))) ∧
  (Forall unfailing faults → confFile d' = confFile d ∨ confFile d' = Some (printSettings root c)) ∧
  (Forall (eq Works) faults → confFile d' = Some (printSettings root c)).
Proof.
  cbv zeta. pose proof (persist_ends root c d faults) as H1. pose proof (persist_untilEnd root c d faults) as H2.
  pose proof (persist_works root c d faults) as H3.
  destruct (persist root c faults d) as [[r fs] d']. split; [done|]. split; [apply H2|]. intros Hf. specialize (H3 Hf).
  destruct r; [|done]. destruct H3 as [_ ->]. done.
Qed.

(** The disk is full while the text is written: the rename goes ahead, and the settings that
    were not written are gone at the next start. *)
Example full_disk_loses_settings :
  let c := withLifetime 60 (withReason (token "because") (applyDefaults (token "/c"))) in
  let d := mkConf (Some (printSettings (token "/c") c)) None in
  let '(_, _, d') := persist (token "/c") c [Works; Works; Works; Works; Fails (Some (mkExtent 70 []))] d in
  match loadFromFile (applyDefaults (token "/c")) [] d' with
  | (Some c', _, _) => pkcs11MaxLifetimeSecs c = 60 ∧ pkcs11MaxLifetimeSecs c' = 28800 ∧ defaultReason c' = []
  | _ => False
  end.
Proof. vm_compute. done. Qed.

(** A reason with a newline in it, which any client may set: at the next start a setting that
    is reserved to the file has the value the client chose. *)
Example reason_sets_reserved_key :
  let reason := token "x" ++ [cNewline] ++ token "Pkcs11MaxLifetimeSecs = 0" in
  let '(r, _, d') := andThen (construct (token "/c")) (perform (token "/c") (CSetReason reason)) [] (mkConf None None) in
  match r, construct (token "/c") [] d' with
  | Some (Some SetOk, s), (Some s', _, _) =>
      mutability kPkcs11MaxLifetimeSecs = Some FileOnly ∧ mutability kDefaultReason = Some DbusMutable ∧
      pkcs11MaxLifetimeSecs (settings s) = 28800 ∧ pkcs11MaxLifetimeSecs (settings s') = 0
  | _, _ => False
  end.
Proof. vm_compute. done. Qed.

(** ** What a restart keeps *)

(** A text of one line, without blanks around it. *)
Definition plainText (t : bytes) : Prop := Forall (λ c, c ≠ cNewline) t ∧ trim t = t.
Definition noBar (t : bytes) : Prop := Forall (λ c, c ≠ cBar) t.

Record Plain (root : bytes) (c : Settings) : Prop := {
  pl_wf : WellFormed c;
  pl_tsa : Forall plainText (tsaUrls c);
  pl_last : plainText (lastTsaUrl c);
  pl_tsl : Forall (λ s, plainText (url s) ∧ noBar (url s)) (tslSources c);
  pl_tslDir : tslCacheDir c = joinPath root kTslSubdir ∨ plainText (tslCacheDir c) ∧ tslCacheDir c ≠ [];
  pl_cscaDir : cscaCacheDir c = joinPath root kCscaSubdir ∨ plainText (cscaCacheDir c) ∧ cscaCacheDir c ≠ [];
  pl_report : ∀ a, cscaAnchorState c = Some a → plainText (signer a) ∧ noBar (signer a);
  pl_reason : plainText (defaultReason c);
  pl_location : plainText (defaultLocation c) }.

Lemma trimRight_app a b : trimRight b ≠ [] → trimRight (a ++ b) = a ++ trimRight b.
Proof.
  intros Hb. induction a as [|c a IH]; [done|]. cbn [app trimRight]. rewrite IH.
  destruct (a ++ trimRight b) eqn:E; [|done]. by apply app_eq_nil in E as [_ ?].
Qed.

Lemma skipBlank_head c t : isBlank c = false → skipBlank (c :: t) = c :: t.
Proof. cbn. by intros ->. Qed.

(** A text that begins and ends with something. *)
Lemma trim_solid c a b : isBlank c = false → trimRight b = b → b ≠ [] → trim ((c :: a) ++ b) = (c :: a) ++ b.
Proof.
  intros Hc Hb Hne. unfold trim. cbn [app]. rewrite skipBlank_head by done. change (c :: a ++ b) with ((c :: a) ++ b).
  rewrite trimRight_app; rewrite Hb; done.
Qed.

Lemma skipBlank_suffix t : ∃ a, t = a ++ skipBlank t ∧ Forall (λ c, isBlank c = true) a.
Proof.
  induction t as [|c t (a&E&Ha)]; [by exists []|]. cbn. destruct (isBlank c) eqn:Ec; [|by exists []].
  exists (c :: a). split; [cbn; by f_equal|by constructor].
Qed.

Lemma trim_length t : (length (trim t) ≤ length (skipBlank t))%nat.
Proof.
  unfold trim. induction (skipBlank t) as [|c u IH]; [done|]. cbn. destruct (trimRight u); [destruct (isBlank c); cbn; lia|cbn in *; lia].
Qed.

(** A trimmed text has no blanks to skip and none to cut. *)
Lemma trimmed_parts t : trim t = t → skipBlank t = t ∧ trimRight t = t.
Proof.
  intros Ht. assert (skipBlank t = t) as Hs.
  { destruct (skipBlank_suffix t) as (a&E&_). pose proof (trim_length t) as Hl. rewrite Ht in Hl.
    assert (length a = 0)%nat as Ha by (apply (f_equal length) in E; rewrite length_app in E; lia).
    destruct a; [exact (eq_sym E)|done]. }
  split; [done|]. unfold trim in Ht. by rewrite Hs in Ht.
Qed.

(** ** One entry *)

(** A key as it stands in the file. *)
Definition keyOk (key : bytes) : bool :=
  match key with
  | c :: _ => negb (isBlank c) && negb (c =? cHash) && forallb (λ c, negb (c =? cEquals) && negb (c =? cNewline)) key && bool_decide (trim (key ++ [32]) = key)
  | [] => false
  end.

Definition entryLine (key value : bytes) : bytes := key ++ token " = " ++ value.

Lemma keyOk_equals key : keyOk key = true → Forall (λ c, c ≠ cEquals) (key ++ [32]).
Proof.
  destruct key as [|c key]; [done|]. unfold keyOk. rewrite !andb_true_iff. intros [[[_ _] Hf] _].
  apply Forall_app. split; [|by constructor]. apply List.Forall_forall. intros x Hx. rewrite forallb_forall in Hf. specialize (Hf x Hx).
  apply andb_true_iff in Hf as [Hf _]. apply negb_true_iff in Hf. lia.
Qed.

Lemma loadLine_entry c key value : keyOk key = true → trim value = value → value ≠ [] → loadLine c (entryLine key value) = loadKey c key value.
Proof.
  intros Hk Hv Hne. destruct (trimmed_parts _ Hv) as [Hs Hr].
  assert (entryLine key value = (key ++ [32]) ++ [cEquals] ++ 32 :: value) as E by (unfold entryLine; by rewrite <- app_assoc).
  pose proof (keyOk_equals _ Hk) as Heq. destruct key as [|k key]; [done|]. unfold keyOk in Hk. rewrite !andb_true_iff in Hk.
  destruct Hk as [[[Hk1 Hk2] _] Hk3]. apply negb_true_iff in Hk1, Hk2. apply bool_decide_eq_true in Hk3.
  assert (trim (entryLine (k :: key) value) = entryLine (k :: key) value) as Et.
  { unfold entryLine. rewrite app_assoc, <- app_comm_cons. by apply trim_solid. }
  unfold loadLine. rewrite Et. cbv zeta. rewrite bool_decide_eq_false_2 by done.
  rewrite (bool_decide_eq_false_2 (head _ = _)) by (cbn; intros [= ?]; lia). cbn [orb].
  unfold keyAndValue. rewrite E. destruct (find_equals ((k :: key) ++ [32]) (32 :: value) Heq) as (->&->&->). rewrite Hk3.
  f_equal. unfold trim. cbn [skipBlank]. change (isBlank 32) with true. cbn iota. by rewrite Hs.
Qed.

(** ** The report *)

Definition reportPieces (a : CscaAnchorState) : list bytes :=
  [subfield "anchors" (toString (anchors a)); subfield "issuers" (toString (issuers a));
   subfield "replayRefusalActive" (boolText (replayRefusalActive a))] ++
  (if bool_decide (signer a = []) then [] else [subfield "signer" (signer a)]) ++
  [subfield "signerPinned" (boolText (signerPinned a))] ++
  match acceptedAt a with Some t => [subfield "acceptedAt" (toString t)] | None => [] end ++
  match signedAt a with Some t => [subfield "signedAt" (toString t)] | None => [] end.

Lemma joined_cons sep p ps : ps ≠ [] → joined sep (p :: ps) = p ++ [sep] ++ joined sep ps.
Proof. by destruct ps. Qed.

Lemma encode_pieces a : encodeCscaAnchorState a = joined cBar (reportPieces a).
Proof.
  unfold encodeCscaAnchorState, reportPieces. cbn [app]. do 2 (rewrite joined_cons by done). do 2 f_equal. f_equal.
  destruct (bool_decide (signer a = [])); cbn [app]; destruct (acceptedAt a), (signedAt a); cbn [joined app]; by rewrite ?app_nil_r, <- ?app_assoc.
Qed.

(** A text of digits and signs. *)
Lemma toString_trimmed n : trim (toString n) = toString n ∧ toString n ≠ [].
Proof.
  assert (∀ t, Forall (λ c, c = cMinus ∨ 48 ≤ c ≤ 57) t → trimRight t = t) as Hr.
  { induction 1 as [|c t Hc Ht IH]; [done|]. cbn. rewrite IH. destruct t; [|done].
    replace (isBlank c) with false; [done|]. unfold isBlank, cMinus in *. lia. }
  pose proof (toString_chars n) as Hc. pose proof (Hr _ Hc) as Ht. destruct (toString n) as [|c t] eqn:E.
  { rewrite toString_form in E. apply app_eq_nil in E as [_ E]. by apply decimalDigits_ne in E. }
  split; [|done]. unfold trim. rewrite skipBlank_head; [done|]. apply Forall_cons in Hc as [Hc _]. unfold isBlank, cMinus in *. lia.
Qed.

Lemma parseU32_toString n : uint32 n → parseU32 (toString n) = Some n.
Proof.
  intros [? ?]. unfold parseU32. rewrite toString_form, (proj2 (Z.ltb_ge n 0)) by lia. cbn [app].
  rewrite bool_decide_eq_false_2 by apply decimalDigits_ne. rewrite digits_forallb by apply magnitude_digits. cbn [orb negb].
  rewrite magnitude_value, Z.abs_eq by lia. by rewrite (proj2 (Z.ltb_lt _ _)) by lia.
Qed.

Lemma keyAndValue_subfield (name : string) raw : forallb (λ c, negb (c =? cEquals)) (token name) = true → trim (token name) = token name →
  trim raw = raw → keyAndValue (subfield name raw) = Some (token name, raw).
Proof.
  intros Hn Ht Hr. unfold keyAndValue, subfield. assert (Forall (λ c, c ≠ cEquals) (token name)) as He.
  { apply List.Forall_forall. intros c Hc. rewrite forallb_forall in Hn. specialize (Hn c Hc). apply negb_true_iff in Hn. lia. }
  destruct (find_equals (token name) raw He) as (->&->&->). by rewrite Ht, Hr.
Qed.

Ltac at_name := unfold parseSubfield; rewrite keyAndValue_subfield by done; cbv zeta;
  repeat rewrite bool_decide_eq_false_2 by (vm_compute; discriminate); rewrite bool_decide_eq_true_2 by done.

Lemma parse_pieces a : reportOk a → trim (signer a) = signer a →
  foldl parseSubfield (mkAnchors 0 0 false [] false None None, false) (reportPieces a) = (a, true).
Proof.
  intros (H1&H2&H3&H4) Hs. unfold reportPieces. cbn [foldl app].
  destruct (toString_trimmed (anchors a)) as [Ta _]. destruct (toString_trimmed (issuers a)) as [Ti _].
  assert (∀ b, trim (boolText b) = boolText b ∧ bool_decide (boolText b = token "true") = b) as Hb by by intros [].
  assert (∀ s saw, parseSubfield (s, saw) (subfield "anchors" (toString (anchors a))) =
    (mkAnchors (anchors a) (issuers s) (replayRefusalActive s) (signer s) (signerPinned s) (acceptedAt s) (signedAt s), true)) as ->.
  { intros s saw. at_name. by rewrite parseU32_toString. }
  assert (∀ s saw, parseSubfield (s, saw) (subfield "issuers" (toString (issuers a))) =
    (mkAnchors (anchors s) (issuers a) (replayRefusalActive s) (signer s) (signerPinned s) (acceptedAt s) (signedAt s), true)) as ->.
  { intros s saw. at_name. by rewrite parseU32_toString. }
  assert (∀ s saw, parseSubfield (s, saw) (subfield "replayRefusalActive" (boolText (replayRefusalActive a))) =
    (mkAnchors (anchors s) (issuers s) (replayRefusalActive a) (signer s) (signerPinned s) (acceptedAt s) (signedAt s), true)) as ->.
  { intros s saw. destruct (Hb (replayRefusalActive a)) as [? Eb]. at_name. by rewrite Eb. }
  cbn [anchors issuers replayRefusalActive signer signerPinned acceptedAt signedAt]. rewrite !foldl_app.
  assert (foldl parseSubfield (mkAnchors (anchors a) (issuers a) (replayRefusalActive a) [] false None None, true)
    (if bool_decide (signer a = []) then [] else [subfield "signer" (signer a)]) =
    (mkAnchors (anchors a) (issuers a) (replayRefusalActive a) (signer a) false None None, true)) as ->.
  { case_bool_decide as E; [by rewrite E|]. cbn [foldl]. by at_name. }
  cbn [foldl].
  assert (parseSubfield (mkAnchors (anchors a) (issuers a) (replayRefusalActive a) (signer a) false None None, true) (subfield "signerPinned" (boolText (signerPinned a))) =
    (mkAnchors (anchors a) (issuers a) (replayRefusalActive a) (signer a) (signerPinned a) None None, true)) as ->.
  { destruct (Hb (signerPinned a)) as [? Eb]. at_name. by rewrite Eb. }
  assert (∀ t s saw, int64 t → parseSubfield (s, saw) (subfield "acceptedAt" (toString t)) =
    (mkAnchors (anchors s) (issuers s) (replayRefusalActive s) (signer s) (signerPinned s) (Some t) (signedAt s), true)) as Hacc.
  { intros t s saw Ht. destruct (toString_trimmed t) as [? _]. at_name. unfold parseI64. by rewrite wholeInteger_toString. }
  assert (∀ t s saw, int64 t → parseSubfield (s, saw) (subfield "signedAt" (toString t)) =
    (mkAnchors (anchors s) (issuers s) (replayRefusalActive s) (signer s) (signerPinned s) (acceptedAt s) (Some t), true)) as Hsig.
  { intros t s saw Ht. destruct (toString_trimmed t) as [? _]. at_name. unfold parseI64. by rewrite wholeInteger_toString. }
  destruct a as [an is_ rr sg sp [ta|] [ts|]]; cbn [acceptedAt signedAt anchors issuers replayRefusalActive signer signerPinned foldl app] in *;
    rewrite ?Hacc, ?Hsig by auto; done.
Qed.

Lemma subfield_noBar (name : string) raw : forallb (λ c, negb (c =? cBar)) (token name) = true → noBar raw → noBar (subfield name raw).
Proof.
  intros Hn Hr. unfold subfield, noBar. apply Forall_app. split; [|by constructor]. apply List.Forall_forall. intros c Hc.
  rewrite forallb_forall in Hn. specialize (Hn c Hc). apply negb_true_iff in Hn. lia.
Qed.

Lemma toString_noBar n : noBar (toString n).
Proof. eapply Forall_impl; [apply toString_chars|]. unfold cBar, cMinus. cbn. lia. Qed.

Lemma boolText_noBar b : noBar (boolText b).
Proof. unfold noBar. destruct b; vm_compute; repeat constructor; discriminate. Qed.

Lemma parse_encode a : reportOk a → trim (signer a) = signer a → noBar (signer a) → parseCscaAnchorState (encodeCscaAnchorState a) = Some a.
Proof.
  intros Ha Hs Hb. unfold parseCscaAnchorState. rewrite encode_pieces, getLines_joined.
  - by rewrite parse_pieces.
  - done.
  - unfold reportPieces. pose proof toString_noBar. pose proof boolText_noBar.
    apply Forall_app. split; [do 3 (constructor; [by apply subfield_noBar|]); constructor|].
    apply Forall_app. split; [destruct (bool_decide _); [constructor|constructor; [by apply subfield_noBar|constructor]]|].
    apply Forall_app. split; [constructor; [by apply subfield_noBar|constructor]|].
    apply Forall_app. split; [destruct (acceptedAt a)|destruct (signedAt a)]; try (apply Forall_singleton; by apply subfield_noBar); constructor.
  - unfold reportPieces. destruct (signedAt a) as [t|]; [by rewrite !app_assoc, last_snoc|]. rewrite app_nil_r.
    destruct (acceptedAt a) as [t|]; [by rewrite !app_assoc, last_snoc|]. rewrite app_nil_r. by rewrite !app_assoc, last_snoc.
Qed.

Lemma trim_ends c a b : head (a ++ b) = Some c → isBlank c = false → trimRight b = b → b ≠ [] → trim (a ++ b) = a ++ b.
Proof.
  intros Hh Hc Hb Hne. unfold trim. destruct (a ++ b) as [|x l] eqn:E; [done|]. injection Hh as ->. rewrite skipBlank_head by done.
  rewrite <- E, trimRight_app; rewrite Hb; done.
Qed.

Lemma boolText_trimmed b : trimRight (boolText b) = boolText b ∧ boolText b ≠ [].
Proof. by destruct b. Qed.

Lemma encode_trimmed a : trim (encodeCscaAnchorState a) = encodeCscaAnchorState a.
Proof.
  unfold encodeCscaAnchorState, subfield. assert (∀ t, trimRight (toString t) = toString t ∧ toString t ≠ []) as Ht.
  { intros t. destruct (toString_trimmed t) as [H ?]. by destruct (trimmed_parts _ H). }
  destruct (signedAt a) as [t|].
  { rewrite !app_assoc. destruct (Ht t). by apply (trim_ends 97). }
  rewrite app_nil_r. destruct (acceptedAt a) as [t|].
  { rewrite !app_assoc. destruct (Ht t). by apply (trim_ends 97). }
  rewrite app_nil_r, !app_assoc. destruct (boolText_trimmed (signerPinned a)). by apply (trim_ends 97).
Qed.

Definition oneLine (t : bytes) : Prop := Forall (λ c, c ≠ cNewline) t.

Lemma token_oneLine (s : string) : forallb (λ c, negb (c =? cNewline)) (token s) = true → oneLine (token s).
Proof. intros H. apply List.Forall_forall. intros c Hc. rewrite forallb_forall in H. specialize (H c Hc). apply negb_true_iff in H. unfold cNewline in *. lia. Qed.

Lemma oneLine_app a b : oneLine a → oneLine b → oneLine (a ++ b).
Proof. intros. by apply Forall_app. Qed.

Lemma toString_oneLine n : oneLine (toString n).
Proof. by apply toString_plain. Qed.

#[local] Hint Resolve oneLine_app toString_oneLine : core.
#[local] Hint Extern 1 (oneLine (token _)) => (apply token_oneLine; reflexivity) : core.
#[local] Hint Extern 1 (oneLine [_]) => (apply Forall_singleton; discriminate) : core.
#[local] Hint Extern 1 (oneLine []) => (apply Forall_nil_2) : core.

Lemma encode_oneLine a : oneLine (signer a) → oneLine (encodeCscaAnchorState a).
Proof.
  intros Hs. unfold encodeCscaAnchorState, subfield. assert (∀ b, oneLine (boolText b)) as Hb by (intros []; unfold boolText; auto).
  assert (∀ t, oneLine (if bool_decide (signer a = []) then [] else t) ↔ (signer a ≠ [] → oneLine t)) as Hif.
  { intros t. case_bool_decide; [|tauto]. split; [done|]. intros _. constructor. }
  do 2 (apply oneLine_app; [apply oneLine_app; auto|apply oneLine_app; [auto|]]). apply oneLine_app; [apply oneLine_app; auto|].
  apply oneLine_app; [apply Hif; auto 10|]. apply oneLine_app; [auto|]. apply oneLine_app; [auto|].
  apply oneLine_app; [destruct (acceptedAt a)|destruct (signedAt a)]; auto 10.
Qed.

(** ** The whole file *)

Definition settingLines (root : bytes) (c : Settings) : list bytes :=
  [token "# LibreSCRS agent signing configuration (auto-managed; Config1)"] ++
  (if bool_decide (defaultLevel c = kLevelDefault) then [] else [entryLine kDefaultLevel (defaultLevel c)]) ++
  map (entryLine (token "TsaUrl")) (tsaUrls c) ++
  (if bool_decide (lastTsaUrl c = []) then [] else [entryLine kLastTsaUrl (lastTsaUrl c)]) ++
  map (λ s, entryLine (token "TslSource") (sourceText s)) (tslSources c) ++
  (if bool_decide (tslCacheDir c = joinPath root kTslSubdir) then [] else [entryLine kTslCacheDir (tslCacheDir c)]) ++
  (if bool_decide (cscaCacheDir c = joinPath root kCscaSubdir) then [] else [entryLine kCscaCacheDir (cscaCacheDir c)]) ++
  match cscaAnchorState c with Some s => [entryLine kCscaAnchorState (encodeCscaAnchorState s)] | None => [] end ++
  (if bool_decide (defaultReason c = []) then [] else [entryLine kDefaultReason (defaultReason c)]) ++
  (if bool_decide (defaultLocation c = []) then [] else [entryLine kDefaultLocation (defaultLocation c)]) ++
  (if pkcs11IdleTimeoutSecs c =? kPkcs11IdleDefault then [] else [entryLine kPkcs11IdleTimeoutSecs (toString (pkcs11IdleTimeoutSecs c))]) ++
  (if pkcs11MaxLifetimeSecs c =? kPkcs11MaxLifetimeDefault then [] else [entryLine kPkcs11MaxLifetimeSecs (toString (pkcs11MaxLifetimeSecs c))]).

Lemma entry_line key value : entry key value = entryLine key value ++ [cNewline].
Proof. unfold entry, entryLine. by rewrite <- !app_assoc. Qed.

Definition terminated (ls : list bytes) : bytes := concat (map (λ l, l ++ [cNewline]) ls).

Lemma terminated_app a b : terminated (a ++ b) = terminated a ++ terminated b.
Proof. unfold terminated. by rewrite map_app, concat_app. Qed.

Lemma terminated_if (b : bool) key value : terminated (if b then [] else [entryLine key value]) = if b then [] else entry key value.
Proof. destruct b; [done|]. unfold terminated. cbn. by rewrite app_nil_r, entry_line. Qed.

Lemma printSettings_lines root c : printSettings root c = terminated (settingLines root c).
Proof.
  unfold printSettings, settingLines. rewrite !terminated_app, !terminated_if.
  assert (∀ key l, terminated (map (entryLine key) l) = concat (map (entry key) l)) as E1.
  { intros key l. unfold terminated. rewrite map_map. apply (f_equal (@concat _)), map_ext. intros x. symmetry. apply entry_line. }
  assert (terminated (map (λ s, entryLine (token "TslSource") (sourceText s)) (tslSources c)) = concat (map (λ s, entry (token "TslSource") (sourceText s)) (tslSources c))) as E2.
  { unfold terminated. rewrite map_map. apply (f_equal (@concat _)), map_ext. intros x. symmetry. apply entry_line. }
  assert (∀ t, terminated [t] = t ++ [cNewline]) as E0 by (intros t; unfold terminated; cbn [map concat]; apply app_nil_r).
  assert (terminated match cscaAnchorState c with Some s => [entryLine kCscaAnchorState (encodeCscaAnchorState s)] | None => [] end =
    match cscaAnchorState c with Some s => entry kCscaAnchorState (encodeCscaAnchorState s) | None => [] end) as E3.
  { destruct (cscaAnchorState c); [|done]. rewrite E0. symmetry. apply entry_line. }
  rewrite E0, E1, E2, E3. by rewrite <- app_assoc.
Qed.

Lemma entryLine_oneLine (key : string) value : forallb (λ c, negb (c =? cNewline)) (token key) = true → oneLine value → oneLine (entryLine (token key) value).
Proof. intros. unfold entryLine. auto using token_oneLine. Qed.

Lemma sourceText_oneLine s : oneLine (url s) → oneLine (sourceText s).
Proof. intros. unfold sourceText. destruct (isLotl s), (eager s); auto. Qed.

Lemma level_plain l : isKnownLevel l = true → oneLine l ∧ trim l = l ∧ l ≠ [].
Proof.
  unfold isKnownLevel, isMemberOf. intros (x&Hx&E%bool_decide_eq_true)%existsb_exists. subst x. unfold kSignLevels in Hx. cbn in Hx.
  destruct Hx as [<-|[<-|[<-|[<-|[]]]]]; (split; [repeat constructor; discriminate|done]).
Qed.

Lemma settingLines_oneLine root c : Plain root c → Forall oneLine (settingLines root c).
Proof.
  intros [Hwf Htsa Hlast Htsl Htd Hcd Hrep Hre Hlo]. unfold settingLines.
  assert (∀ (b : bool) (key : string) v, forallb (λ c, negb (c =? cNewline)) (token key) = true → (b = false → oneLine v) →
    Forall oneLine (if b then [] else [entryLine (token key) v])) as Hopt.
  { intros [] key v Hk Hv; [constructor|]. apply Forall_singleton. by apply entryLine_oneLine, Hv. }
  apply Forall_app; split; [apply Forall_singleton; auto|].
  apply Forall_app; split; [apply Hopt; [done|intros _; by apply level_plain, (wf_level _ Hwf)]|].
  apply Forall_app; split; [apply Forall_map; eapply Forall_impl; [exact Htsa|]; intros u [Hu _]; by apply entryLine_oneLine|].
  apply Forall_app; split; [apply Hopt; [done|intros _; by apply Hlast]|].
  apply Forall_app; split; [apply Forall_map; eapply Forall_impl; [exact Htsl|]; intros u [[Hu _] _]; apply entryLine_oneLine; [done|by apply sourceText_oneLine]|].
  apply Forall_app; split; [apply Hopt; [done|intros ?%bool_decide_eq_false; by destruct Htd as [?|[[? _] _]]]|].
  apply Forall_app; split; [apply Hopt; [done|intros ?%bool_decide_eq_false; by destruct Hcd as [?|[[? _] _]]]|].
  apply Forall_app; split; [destruct (cscaAnchorState c) as [a|]; [|constructor]; apply Forall_singleton, entryLine_oneLine; [done|]; by apply encode_oneLine, (Hrep a)|].
  apply Forall_app; split; [apply Hopt; [done|intros _; by apply Hre]|].
  apply Forall_app; split; [apply Hopt; [done|intros _; by apply Hlo]|].
  apply Forall_app; split; apply Hopt; auto.
Qed.

(** The optional entry of one key. *)
Lemma load_opt (b : bool) key value c c' : keyOk key = true → (b = true → c' = c) →
  (b = false → trim value = value ∧ value ≠ [] ∧ loadKey c key value = c') →
  foldl loadLine c (if b then [] else [entryLine key value]) = c'.
Proof. intros Hk H1 H2. destruct b; [by rewrite H1|]. destruct (H2 eq_refl) as (?&?&<-). cbn [foldl]. by apply loadLine_entry. Qed.

Ltac at_key := unfold loadKey; cbv zeta; repeat rewrite bool_decide_eq_false_2 by (vm_compute; discriminate); rewrite bool_decide_eq_true_2 by reflexivity.

Lemma load_tsaUrls l c : Forall https l → Forall plainText l →
  foldl loadLine c (map (entryLine (token "TsaUrl")) l) = withTsaUrls (tsaUrls c ++ l) c.
Proof.
  intros Hh. revert c. induction Hh as [|u l Hu Hh IH]; intros c Hp; cbn [map foldl].
  - rewrite app_nil_r. by destruct c.
  - apply Forall_cons in Hp as [[_ Hp] Hps]. rewrite loadLine_entry; [|done|done|by intros ->].
    assert (loadKey c (token "TsaUrl") u = withTsaUrls (tsaUrls c ++ [u]) c) as -> by (at_key; unfold https in Hu; by rewrite Hu).
    rewrite IH by done. cbn. by rewrite <- app_assoc.
Qed.

Lemma https_head u : https u → ∃ t, u = 104 :: t.
Proof.
  unfold https, isHttpUrl. cbv zeta. case_bool_decide; [done|]. case_bool_decide as E; [|done]. intros _. destruct u as [|c t]; [done|].
  cbn in E. injection E as -> _. eauto.
Qed.

Lemma sourceText_joined s : sourceText s = joined cBar ([url s] ++ (if isLotl s then [token "lotl"] else []) ++ (if eager s then [token "eager"] else [])).
Proof. unfold sourceText. destruct (isLotl s), (eager s); cbn [app joined]; by rewrite ?app_nil_r. Qed.

Lemma parseSource_text s : https (url s) → noBar (url s) → parseSource (sourceText s) = s.
Proof.
  intros Hu Hb. destruct (https_head _ Hu) as (t&E). unfold parseSource. rewrite sourceText_joined, getLines_joined.
  - destruct s as [u [] []]; done.
  - done.
  - apply Forall_app; split; [by apply Forall_singleton|]. apply Forall_app; split; [destruct (isLotl s)|destruct (eager s)]; try constructor; try constructor; repeat constructor; discriminate.
  - rewrite E. destruct (isLotl s), (eager s); done.
Qed.

Lemma sourceText_trimmed s : https (url s) → trim (url s) = url s → trim (sourceText s) = sourceText s ∧ sourceText s ≠ [].
Proof.
  intros Hu Ht. destruct (https_head _ Hu) as (t&E). split; [|unfold sourceText; by rewrite E].
  unfold sourceText. destruct (eager s); [rewrite app_assoc; rewrite E; apply (trim_ends 104); by destruct (isLotl s)|]. rewrite app_nil_r.
  destruct (isLotl s); [rewrite E; by apply (trim_ends 104)|by rewrite app_nil_r].
Qed.

Lemma load_tslSources l c : Forall (λ s, https (url s)) l → Forall (λ s, plainText (url s) ∧ noBar (url s)) l →
  foldl loadLine c (map (λ s, entryLine (token "TslSource") (sourceText s)) l) = withTslSources (tslSources c ++ l) c.
Proof.
  intros Hh. revert c. induction Hh as [|s l Hu Hh IH]; intros c Hp; cbn [map foldl].
  - rewrite app_nil_r. by destruct c.
  - apply Forall_cons in Hp as [[[_ Hp] Hb] Hps]. destruct (sourceText_trimmed s Hu Hp). rewrite loadLine_entry by done.
    assert (loadKey c (token "TslSource") (sourceText s) = withTslSources (tslSources c ++ [s]) c) as ->.
    { at_key. rewrite parseSource_text by done. unfold https in Hu. by rewrite Hu. }
    rewrite IH by done. cbn. by rewrite <- app_assoc.
Qed.

Lemma load_settings root c : Plain root c → foldl loadLine (applyDefaults root) (settingLines root c) = c.
Proof.
  intros [Hwf Htsa [_ Hlast] Htsl Htd Hcd Hrep [_ Hre] [_ Hlo]]. unfold settingLines. rewrite !foldl_app.
  rewrite (eq_refl : foldl loadLine (applyDefaults root) [token "# LibreSCRS agent signing configuration (auto-managed; Config1)"] = applyDefaults root).
  erewrite (load_opt _ kDefaultLevel _ _ (withLevel (defaultLevel c) (applyDefaults root))); [|done| |].
  2: { intros E%bool_decide_eq_true. by rewrite E. }
  2: { intros _. destruct (level_plain _ (wf_level _ Hwf)) as (_&?&?). split; [done|]. split; [done|]. at_key. by rewrite (wf_level _ Hwf). }
  rewrite load_tsaUrls by (done || apply Hwf). cbn [tsaUrls withLevel applyDefaults app].
  set (s2 := withTsaUrls (tsaUrls c) _). erewrite (load_opt _ kLastTsaUrl _ _ (withLastTsaUrl (lastTsaUrl c) s2)); [|done| |].
  2: { intros E%bool_decide_eq_true. by rewrite E. }
  2: { intros ?%bool_decide_eq_false. split; [done|]. split; [done|]. by at_key. }
  rewrite load_tslSources by (done || apply Hwf). cbn [tslSources withLastTsaUrl s2 withTsaUrls withLevel applyDefaults app].
  set (s4 := withTslSources (tslSources c) _). erewrite (load_opt _ kTslCacheDir _ _ (withTslCacheDir (tslCacheDir c) s4)); [|done| |].
  2: { intros E%bool_decide_eq_true. by rewrite E. }
  2: { intros ?%bool_decide_eq_false. destruct Htd as [?|[[_ ?] ?]]; [done|]. split; [done|]. split; [done|]. at_key. by rewrite bool_decide_eq_false_2. }
  set (s5 := withTslCacheDir _ s4). erewrite (load_opt _ kCscaCacheDir _ _ (withCscaCacheDir (cscaCacheDir c) s5)); [|done| |].
  2: { intros E%bool_decide_eq_true. by rewrite E. }
  2: { intros ?%bool_decide_eq_false. destruct Hcd as [?|[[_ ?] ?]]; [done|]. split; [done|]. split; [done|]. at_key. by rewrite bool_decide_eq_false_2. }
  set (s6 := withCscaCacheDir _ s5).
  assert (foldl loadLine s6 match cscaAnchorState c with Some s => [entryLine kCscaAnchorState (encodeCscaAnchorState s)] | None => [] end =
    withAnchorState (cscaAnchorState c) s6) as ->.
  { destruct (cscaAnchorState c) as [a|] eqn:Ea; [|done]. cbn [foldl]. destruct (Hrep a eq_refl) as [[_ Hs] Hb].
    rewrite loadLine_entry; [|done|apply encode_trimmed|by destruct a]. at_key. rewrite parse_encode by (done || by apply (wf_report _ Hwf)). done. }
  set (s7 := withAnchorState _ s6). erewrite (load_opt _ kDefaultReason _ _ (withReason (defaultReason c) s7)); [|done| |].
  2: { intros E%bool_decide_eq_true. by rewrite E. }
  2: { intros ?%bool_decide_eq_false. split; [done|]. split; [done|]. by at_key. }
  set (s8 := withReason _ s7). erewrite (load_opt _ kDefaultLocation _ _ (withLocation (defaultLocation c) s8)); [|done| |].
  2: { intros E%bool_decide_eq_true. by rewrite E. }
  2: { intros ?%bool_decide_eq_false. split; [done|]. split; [done|]. by at_key. }
  set (s9 := withLocation _ s8). erewrite (load_opt _ kPkcs11IdleTimeoutSecs _ _ (withIdle (pkcs11IdleTimeoutSecs c) s9)); [|done| |].
  2: { intros E%Z.eqb_eq. by rewrite E. }
  2: { intros _. destruct (toString_trimmed (pkcs11IdleTimeoutSecs c)). split; [done|]. split; [done|]. at_key. by rewrite parseU32_toString by apply Hwf. }
  set (s10 := withIdle _ s9). erewrite (load_opt _ kPkcs11MaxLifetimeSecs _ _ (withLifetime (pkcs11MaxLifetimeSecs c) s10)); [|done| |].
  2: { intros E%Z.eqb_eq. by rewrite E. }
  2: { intros _. destruct (toString_trimmed (pkcs11MaxLifetimeSecs c)). split; [done|]. split; [done|]. at_key. by rewrite parseU32_toString by apply Hwf. }
  by destruct c.
Qed.

Lemma load_printed root c (x : list TslSource) (y : list bytes) : Plain root c →
  loadText (printSettings root c) (withTslSources x (withTsaUrls y (applyDefaults root))) = c.
Proof.
  intros Hc. unfold loadText. rewrite printSettings_lines. unfold terminated. rewrite fileLines_printed by by apply settingLines_oneLine.
  by apply load_settings.
Qed.

(** The arguments of the calls that survive a trip through the file. *)
Definition plainCall (call : Call) : Prop :=
  match call with
  | CSetTsaUrls l => Forall plainText l
  | CSetTslSources l => Forall (λ s, plainText (url s) ∧ noBar (url s)) l
  | CSetReason t | CSetLocation t | CRecordTsaUrl t => plainText t
  | CRecordAnchors a => reportOk a ∧ plainText (signer a) ∧ noBar (signer a)
  | _ => True
  end.

Definition Saved (root : bytes) (s : Store) (d : ConfDisk) : Prop :=
  Plain root (settings s) ∧ confFile d = Some (printSettings root (settings s)).

Lemma without_char x t : forallb (λ c, negb (c =? x)) t = true → Forall (λ c, c ≠ x) t.
Proof. intros H. apply List.Forall_forall. intros c Hc. rewrite forallb_forall in H. specialize (H c Hc). apply negb_true_iff in H. lia. Qed.

Lemma plainText_by t : forallb (λ c, negb (c =? cNewline)) t = true → trim t = t → plainText t.
Proof. split; [by apply without_char|done]. Qed.

Lemma plain_seeds : Forall plainText seededTsaUrls ∧ Forall (λ s, plainText (url s) ∧ noBar (url s)) seededTslSources.
Proof.
  split; [do 3 (constructor; [by apply plainText_by|]); constructor|].
  do 2 (constructor; [split; [by apply plainText_by|by apply without_char]|]). constructor.
Qed.

Lemma seeded_plain root : Plain root (withTslSources seededTslSources (withTsaUrls seededTsaUrls (applyDefaults root))).
Proof.
  destruct seeds_ok, plain_seeds. constructor; cbn; first [done | by left | split; [constructor|done]].
Qed.

Lemma construct_first root d : confFile d = None → works (construct root) (Saved root) d.
Proof.
  intros Hd. unfold construct, seedFirstRunDefaults. apply works_andThen, works_andThen, works_query. unfold fileExists. rewrite Hd.
  intros f1 Hf1. split; [done|]. apply works_andThen. intros f2 Hf2.
  pose proof (persist_works root (withTslSources seededTslSources (withTsaUrls seededTsaUrls (applyDefaults root))) d f2 Hf2) as Hp.
  destruct (persist _ _ f2 d) as [[[u|] f3] d1]; [|done]. destruct Hp as [Hf3 ->]. split; [done|].
  apply works_andThen. unfold loadFromFile. apply works_andThen, works_query. cbn [fileExists confFile].
  apply works_andThen, works_query. cbn [confFile]. rewrite load_printed by apply seeded_plain.
  intros f4 Hf4. split; [done|]. intros f5 Hf5. split; [done|]. split; [apply seeded_plain|done].
Qed.

Lemma construct_again root s d : Saved root s d → works (construct root) (λ s' d', settings s' = settings s ∧ d' = d) d.
Proof.
  intros [Hs Hd]. unfold construct, seedFirstRunDefaults. apply works_andThen, works_andThen, works_query. unfold fileExists. rewrite Hd.
  intros f1 Hf1. split; [done|]. apply works_andThen. intros f2 Hf2. split; [done|].
  apply works_andThen. unfold loadFromFile. apply works_andThen, works_query. unfold fileExists. rewrite Hd.
  apply works_andThen, works_query. rewrite Hd. intros f4 Hf4. split; [done|]. intros f5 Hf5. split; [done|]. split; [|done]. cbn [settings].
  by apply (load_printed root (settings s) [] []).
Qed.

Lemma commit_saved root key c s d : Plain root c → works (commit root key c s) (λ x d', Saved root x.2 d') d.
Proof.
  intros Hc. unfold commit. apply works_andThen. intros f Hf. pose proof (persist_works root c d f Hf) as Hp.
  destruct (persist root c f d) as [[[u|] f1] d1]; [|done]. destruct Hp as [? ->]. split; [done|]. intros f2 Hf2. split; [done|]. by split.
Qed.

Ltac pl H := destruct H; constructor; cbn; try done.

Lemma resetValue_plain root key c : Plain root c → Plain root (resetValue root key c).
Proof.
  destruct plain_seeds as [H1 H2]. intros Hc. pose proof (resetValue_ok root key c (pl_wf _ _ Hc)) as Hw. revert Hw. unfold resetValue. cbv zeta.
  repeat (case_bool_decide; [intros Hw; pl Hc; try (by left); by split|]). done.
Qed.

Lemma perform_saved root call s d : plainCall call → Saved root s d → works (perform root call s) (λ x d', Saved root x.2 d') d.
Proof.
  intros Hp Hs. pose proof Hs as [Hc Hd]. pose proof (pl_wf _ _ Hc) as Hwf.
  assert (∀ m : CIO (SetResult * Store), works m (λ x d', Saved root x.2 d') d →
    works (andThen m (λ '(r, s), done_ (Some r, s))) (λ x d', Saved root x.2 d') d) as Hrep.
  { intros m Hm. apply works_andThen. eapply works_mono; [exact Hm|]. intros [r s'] d' H. by apply works_done. }
  assert (∀ m : CIO Store, works m (Saved root) d → works (andThen m (λ s, done_ (None : option SetResult, s))) (λ x d', Saved root x.2 d') d) as Hsil.
  { intros m Hm. apply works_andThen. eapply works_mono; [exact Hm|]. intros s' d' H. by apply works_done. }
  assert (∀ key c, Plain root c → works (andThen (commit root key c s) (λ r, done_ r.2)) (Saved root) d) as Hrec.
  { intros key c Hc'. apply works_andThen. eapply works_mono; [by apply commit_saved|]. intros x d' H. by apply works_done. }
  destruct call; cbn [perform plainCall] in *; try (apply works_done; first [exact Hs | unfold removeChangeObserver; by destruct (id =? 0)]); (apply Hrep || apply Hsil).
  - unfold setDefaultLevel. destruct (isKnownLevel level) eqn:E; cbn [negb]; [|by apply works_done]. apply commit_saved. pl Hc. wf Hwf.
  - unfold setTsaUrls. destruct (forallb _ urls) eqn:E; cbn [negb]; [|by apply works_done]. apply commit_saved. pl Hc. wf Hwf.
    apply List.Forall_forall. by rewrite forallb_forall in E.
  - unfold setTslSources. destruct (forallb _ sources) eqn:E; cbn [negb]; [|by apply works_done]. apply commit_saved. pl Hc. wf Hwf.
    apply List.Forall_forall. by rewrite forallb_forall in E.
  - unfold setDefaultReason. apply commit_saved. pl Hc. wf Hwf.
  - unfold setDefaultLocation. apply commit_saved. pl Hc. wf Hwf.
  - unfold resetKey. destruct (mutability key); [|by apply works_done]. destruct (_ && _); [by apply works_done|]. by apply commit_saved, resetValue_plain.
  - unfold recordLastTsaUrl. case_bool_decide; [by apply works_done|]. apply Hrec. pl Hc. wf Hwf.
  - unfold recordCscaAnchorState. case_bool_decide; [by apply works_done|]. apply Hrec. destruct Hp as (Ha&Hsg&Hb). pl Hc; [wf Hwf|]; by intros a' [= <-].
Qed.

Lemma performAll_saved root calls s d : Forall plainCall calls → Saved root s d → works (performAll root calls s) (Saved root) d.
Proof.
  intros Hp. revert s d. induction Hp as [|call calls Hc Hp IH]; intros s d Hs; cbn [performAll]; [by apply works_done|].
  apply works_andThen. eapply works_mono; [by apply perform_saved|]. intros x d' H. by apply IH.
Qed.

(** C33: the settings survive a restart. After the first start of an installation and any
    calls whose texts are plain (one line, no blanks around, no separator in an address),
    on a disk that works, starting again over the same file gives the same settings and
    leaves the file as it is. *)
Theorem restart_keeps_settings root calls faults d : confFile d = None → Forall plainCall calls → Forall (eq Works) faults →
  match andThen (construct root) (performAll root calls) faults d with
  | (Some s, faults', d') =>
      match construct root faults' d' with
      | (Some s', _, d'') => settings s' = settings s ∧ d'' = d'
      | (None, _, _) => False
      end
  | (None, _, _) => False
  end.
Proof.
  intros Hd Hp Hf.
  assert (works (andThen (construct root) (performAll root calls)) (Saved root) d) as Hw.
  { apply works_andThen. eapply works_mono; [by apply construct_first|]. intros s d' Hs. by apply performAll_saved. }
  specialize (Hw faults Hf). destruct (andThen _ _ faults d) as [[[s|] f1] d1]; [|done]. destruct Hw as [Hf1 Hs].
  pose proof (construct_again root s d1 Hs f1 Hf1) as Ha. destruct (construct root f1 d1) as [[[s'|] f2] d2]; [|done]. by destruct Ha as [_ ?].
Qed.

Lemma restart_keeps_settings_witness :
  let calls := [CSetReason (token "because"); CReset kTsaUrls true; CRecordTsaUrl (token "https://ts.ssl.com"); CSetLevel (token "b-lt")] in
  match andThen (construct (token "/c")) (performAll (token "/c") calls) [] (mkConf None None) with
  | (Some s, faults', d') =>
      match construct (token "/c") faults' d' with
      | (Some s', _, d'') => settings s' = settings s ∧ d'' = d'
      | (None, _, _) => False
      end
  | (None, _, _) => False
  end.
Proof.
  apply (restart_keeps_settings (token "/c") [CSetReason (token "because"); CReset kTsaUrls true; CRecordTsaUrl (token "https://ts.ssl.com"); CSetLevel (token "b-lt")] [] (mkConf None None) eq_refl).
  - do 4 (constructor; [first [exact I | apply plainText_by; reflexivity]|]). constructor.
  - constructor.
Defined.

(** The two rules for an address agree: what is taken from a request is what is taken from
    the configuration. *)
Lemma tsa_url_rules_agree u : isValidTsaUrl u = isHttpUrl u false.
Proof.
  unfold isValidTsaUrl, isHttpUrl. cbv zeta. destruct (decide (take (length kHttps) u = kHttps)) as [E|E].
  - pose proof (take_drop (length kHttps) u) as Eu. rewrite E in Eu. revert Eu. generalize (drop (length kHttps) u). intros r <-. clear E.
    rewrite (bool_decide_eq_true_2 (take (length kHttps) (kHttps ++ r) = kHttps)) by done.
    rewrite (bool_decide_eq_false_2 (take (length kHttp) (kHttps ++ r) = kHttp)) by (vm_compute; discriminate).
    rewrite length_app. destruct r as [|c r].
    + by rewrite Nat.add_0_r, Nat.leb_refl.
    + rewrite (proj2 (Nat.leb_gt _ _)) by (cbn [length]; lia). cbn [orb negb list_find].
      destruct (decide (c = cSlash)) as [->|Hc]; [done|]. rewrite (proj2 (Z.eqb_neq _ _) Hc). cbn [negb].
      destruct (list_find _ r) as [[i ?]|]; done.
  - rewrite (bool_decide_eq_false_2 (take (length kHttps) u = kHttps)) by done. cbn [negb]. rewrite orb_true_r. by case_bool_decide.
Qed.

End Config.
