(* ===== verification/AgentSocket.v ===== *)
(** * The PKCS#11 module's connection to the agent

    Models [src/pkcs11/SocketAgentClient.cpp]: the calls of [AgentClient.h] over one
    connection of framed requests and replies. What is at the other end is a class
    ([AgentPeer]): it decides whether it is reached, whether the check of it passes, and
    which frames arrive after each request before it falls silent. What the client does with
    the connection is logged ([Action]). A call holds the client's lock from start to end
    and is one step; the two that never wait are told whether the lock was taken.

    The theorems say that the log follows a protocol, whatever the peer does; that an answer
    is the peer's own answer to that question; that an agent that decodes requests and builds
    replies with [Messages.v] is heard as if it were called directly; what a snapshot
    reports; and that a public key, once answered, does not change. *)
From stdpp Require Import gmap strings.
From S2P Require Import Prelude Framing Cbor Vocabulary Fields Messages ClientCodec RawCrypto Token Cryptoki.
Import Framing Cbor Vocabulary Fields Messages ClientCodec.
Local Open Scope Z_scope.

Module AgentSocket.
#[local] Existing Instance RawCrypto.Mechanism_eq_dec.

Abbreviation Status := Cryptoki.Status.
Abbreviation BytesResult := Cryptoki.BytesResult.
Abbreviation CertPublicKey := Cryptoki.CertPublicKey.

(** ** Refusals *)

Definition mapWireError (e : Sync.SyncError) : Status :=
  match e with
  | Sync.UserNotLoggedIn => Cryptoki.UserNotLoggedIn
  | Sync.NotAuthorized => Cryptoki.NotAuthorized
  | Sync.AuthFailed => Cryptoki.AuthFailed
  | Sync.Cancelled => Cryptoki.Cancelled
  | Sync.KeyNotFound => Cryptoki.KeyNotFound
  | Sync.UnknownCard => Cryptoki.UnknownCard
  | Sync.NotSupported | Sync.UnsupportedOnThisCard => Cryptoki.NotSupported
  | Sync.RateLimited => Cryptoki.RateLimited
  | Sync.CommunicationError => Cryptoki.Communication
  | Sync.InvalidRequest => Cryptoki.InvalidInput
  | _ => Cryptoki.GeneralError
  end.

Definition statusOf (info : ErrInfo) : Status :=
  match ei_code info with
  | inr sync => mapWireError sync
  | inl _ => Cryptoki.GeneralError
  end.

(** ** The other end *)

(** [p_socket] is [::socket], [p_connect] [::connect], [p_check] the check of the peer
    ([None] when it throws), [p_timeout] one [setsockopt] of a deadline. [p_send] is
    [sendFrame]: [None] when it fails, and else the frames that arrive from then on, up to
    the next request that is sent or the silence that makes [recvFrame] fail. *)
Class AgentPeer (P : Type) := {
  p_socket : P → bool * P;
  p_connect : string → P → bool * P;
  p_check : P → option bool * P;
  p_timeout : Z → P → bool * P;
  p_send : list Z → P → option (list Frame) * P }.

(** ** State *)

Record SocketTimeouts := mkTimeouts { publicDataSecs : Z; interactiveSecs : Z; loginStateSecs : Z }.
Definition kInteractiveTimeoutSecs : Z := 600.
Definition kPublicDataTimeoutSecs : Z := 60.
Definition kLoginStateTimeoutSecs : Z := 2.
Definition defaultTimeouts : SocketTimeouts :=
  mkTimeouts kPublicDataTimeoutSecs kInteractiveTimeoutSecs kLoginStateTimeoutSecs.

(** What a client is made with. [sunPathSize] is the platform's [sizeof(addr.sun_path)]. *)
Record Setup := mkSetup { path : string; budgets : SocketTimeouts; hasPeerCheck : bool; sunPathSize : nat }.

(** [fd] is the connection, with the frames that are still to be read from it. *)
Record Impl := mkImpl {
  fd : option (list Frame); handshakeOk : bool; features : list string; nextRequestId : Z;
  keyCache : gmap string CertPublicKey; cachedSnapshot : list Token.ReaderState; haveSnapshot : bool }.

Definition setFd v i := mkImpl v (handshakeOk i) (features i) (nextRequestId i) (keyCache i) (cachedSnapshot i) (haveSnapshot i).
Definition setHandshake v i := mkImpl (fd i) v (features i) (nextRequestId i) (keyCache i) (cachedSnapshot i) (haveSnapshot i).
Definition setFeatures v i := mkImpl (fd i) (handshakeOk i) v (nextRequestId i) (keyCache i) (cachedSnapshot i) (haveSnapshot i).
Definition setNext v i := mkImpl (fd i) (handshakeOk i) (features i) v (keyCache i) (cachedSnapshot i) (haveSnapshot i).
Definition setKeys v i := mkImpl (fd i) (handshakeOk i) (features i) (nextRequestId i) v (cachedSnapshot i) (haveSnapshot i).
Definition setSnapshot v i := mkImpl (fd i) (handshakeOk i) (features i) (nextRequestId i) (keyCache i) v true.

(** What the client does with the connection. *)
Inductive Action :=
| Opened
| Checked (accepted : bool)
| Budget (secs : Z) (ok : bool)
| Sent (id : Z) (r : Request) (ok : bool)
| Received (f : option Frame)
| Closed.

Section Client.
Context {ctx : Type} `{!Qcbor ctx} {P : Type} `{!AgentPeer P}.
Variable setup : Setup.

Record World := mkWorld { impl : Impl; peer : P; log : list Action }.
Definition M (A : Type) : Type := World → A * World.

#[export] Instance client_ret : MRet M := λ A a w, (a, w).
#[export] Instance client_bind : MBind M := λ A B k m w, let '(a, w) := m w in k a w.

Definition emit (a : Action) : M unit := λ w, ((), mkWorld (impl w) (peer w) (log w ++ [a])).
Definition change (f : Impl → Impl) : M unit := λ w, ((), mkWorld (f (impl w)) (peer w) (log w)).
Definition reads {A} (f : Impl → A) : M A := λ w, (f (impl w), w).
Definition asks {A} (f : P → A * P) : M A := λ w, let '(a, p) := f (peer w) in (a, mkWorld (impl w) p (log w)).

(** ** The connection *)

Definition closeSocket : M unit :=
  open ← reads fd;
  match open with
  | Some _ => emit Closed;; change (setFd None)
  | None => mret ()
  end;;
  change (setHandshake false).

Definition setTimeout (secs : Z) : M bool :=
  r ← asks (p_timeout secs);
  s ← asks (p_timeout secs);
  emit (Budget secs (r && s));;
  mret (r && s).

(** [recvFrame] on the frames that are still to be read. *)
Definition taken (f : Frame) (inbox : list Frame) : M unit :=
  emit (Received (Some f));; change (setFd (Some inbox)).
Definition silence : M unit := emit (Received None);; closeSocket.

(** The frames of [call] after the request with this id. *)
Fixpoint awaitReply (id : Z) (inbox : list Frame) : M (option ReplyVariant) :=
  match inbox with
  | [] => silence;; mret None
  | f :: inbox =>
      taken f inbox;;
      match Framing.fds f with
      | _ :: _ => closeSocket;; mret None
      | [] =>
          match parseReply (Framing.body f) 0 with
          | Some decoded =>
              if requestId decoded =? id then mret (Some (replyArm decoded)) else awaitReply id inbox
          | None =>
              match parseEvent (Framing.body f) 0 with
              | Some _ => awaitReply id inbox
              | None => closeSocket;; mret None
              end
          end
      end
  end.

Definition sendFrame (request : Request) (id : Z) : M bool :=
  arriving ← asks (p_send (encodeRequest request id));
  match arriving with
  | None => emit (Sent id request false);; mret false
  | Some frames =>
      emit (Sent id request true);;
      change (λ i, setFd (match fd i with Some inbox => Some (inbox ++ frames) | None => None end) i);;
      mret true
  end.

Definition call (request : Request) (timeoutSecs : Z) : M (option ReplyVariant) :=
  open ← reads fd;
  match open with
  | None => mret None
  | Some _ =>
      ok ← setTimeout timeoutSecs;
      if negb ok then mret None
      else
        id ← reads nextRequestId;
        change (setNext (u64 (id + 1)));;
        sent ← sendFrame request id;
        if negb sent then closeSocket;; mret None
        else
          inbox ← reads fd;
          awaitReply id (default [] inbox)
  end.

(** [peerCheck], where there is one: an exception is a refusal. *)
Definition checkPeer : M bool :=
  if hasPeerCheck setup then
    verdict ← asks p_check;
    emit (Checked (default false verdict));;
    mret (default false verdict)
  else mret true.

Definition connect : M bool :=
  open ← reads fd;
  match open with
  | Some _ => reads handshakeOk
  | None =>
      s ← asks p_socket;
      if negb s then mret false
      else if String.eqb (path setup) "" || (sunPathSize setup <=? String.length (path setup))%nat then mret false
      else
        reached ← asks (p_connect (path setup));
        if negb reached then mret false
        else
          emit Opened;;
          accepted ← checkPeer;
          if negb accepted then emit Closed;; mret false
          else
            change (setFd (Some []));;
            setTimeout (publicDataSecs (budgets setup));;
            reply ← call (Hello kProtocolVersion true) (publicDataSecs (budgets setup));
            match reply with
            | Some (KnownReply (HelloAck _ offered)) =>
                change (setFeatures offered);;
                change (setHandshake true);;
                mret true
            | _ => closeSocket;; mret false
            end
  end.
(** ** Reading certificates *)

(** The frames of an operation until it has finished; [out] is its result so far. *)
Fixpoint awaitCertificates (opId : Z) (out : list CertInfo) (inbox : list Frame) : M (list CertInfo) :=
  match inbox with
  | [] => silence;; mret out
  | f :: inbox =>
      taken f inbox;;
      match Framing.fds f with
      | _ :: _ => closeSocket;; mret []
      | [] =>
          match parseEvent (Framing.body f) 0 with
          | None =>
              match parseReply (Framing.body f) 0 with
              | Some _ => awaitCertificates opId out inbox
              | None => closeSocket;; mret []
              end
          | Some (KnownEvent (OpResultReady op result)) =>
              if negb (op =? opId) then awaitCertificates opId out inbox
              else
                match result with
                | CertListResult certs => awaitCertificates opId certs inbox
                | _ => awaitCertificates opId out inbox
                end
          | Some (KnownEvent (OpFinished op status _ _ _)) =>
              if negb (op =? opId) then awaitCertificates opId out inbox
              else if negb (status =? Vocabulary.Status.Ok_) then mret []
              else mret out
          | Some _ => awaitCertificates opId out inbox
          end
      end
  end.

Definition readCertificates (card : string) : M (list CertInfo) :=
  started ← call (ReadCertificates card) (publicDataSecs (budgets setup));
  match started with
  | Some (KnownReply (OpStarted op)) =>
      inbox ← reads fd;
      awaitCertificates op [] (default [] inbox)
  | _ => mret []
  end.

(** ** The calls *)

Definition neutralCert (e : CertInfo) : Token.NeutralCert :=
  Token.mkNeutral (ci_certId e) (ci_keyId e) (ci_keyType e) (ci_keyBits e) (ci_signingCapable e) (ci_canDerive e)
    (ci_keyUsageBits e) (ci_alwaysAuthenticate e)
    match ci_fields e !! "subject"%string with
    | Some sg => match sg !! "cn"%string with Some cn => cf_value cn | None => ""%string end
    | None => ""%string
    end.

(** [cardsByHandle.find], of a map in which the first card of a handle stays. *)
Definition preAuthOf (cards : list CardState) (card : string) : Z :=
  match List.find (λ c, String.eqb (cs_handle c) card) cards with
  | Some c => cs_preAuth c
  | None => Token.PreReadAuth_None
  end.

(** One reader of the state. *)
Definition readReader (cards : list CardState) (r : ReaderState) : M Token.ReaderState :=
  match (if rs_hasCard r then rs_card r else None) with
  | None => mret (Token.mkReader (rs_handle r) (rs_name r) (rs_hasCard r) "" "" [])
  | Some card =>
      found ← readCertificates card;
      let certs := omap (λ e, Token.certEntryFrom (neutralCert e) (preAuthOf cards card)) found in
      mret (Token.mkReader (rs_handle r) (rs_name r) (rs_hasCard r) (Token.tokenLabelFor certs (rs_name r))
        (Token.tokenSerialFor card) certs)
  end.

Fixpoint readReaders (cards : list CardState) (readers : list ReaderState) : M (list Token.ReaderState) :=
  match readers with
  | [] => mret []
  | r :: readers =>
      reader ← readReader cards r;
      rest ← readReaders cards readers;
      mret (reader :: rest)
  end.

(** [busy]: another call holds the lock. *)
Definition snapshot (busy : bool) : M (list Token.ReaderState) :=
  if busy then reads cachedSnapshot
  else
    connected ← connect;
    if negb connected then mret []
    else
      stateReply ← call GetState (publicDataSecs (budgets setup));
      match stateReply with
      | Some (KnownReply (StateReply readers cards)) =>
          snap ← readReaders cards readers;
          change (setSnapshot snap);;
          mret snap
      | _ => mret []
      end.

(** [connect], [call] and the reading of the reply that most calls share: without an answer
    the agent is gone, a refusal is mapped, and [k] reads the rest. *)
Definition question {A} (request : Request) (secs : Z) (failed : Status → A) (k : ReplyVariant → A) : M A :=
  connected ← connect;
  if negb connected then mret (failed Cryptoki.DeviceRemoved)
  else
    reply ← call request secs;
    mret match reply with
         | None => failed Cryptoki.DeviceRemoved
         | Some (KnownReply (Error err)) => failed (statusOf err)
         | Some reply => k reply
         end.

Definition noBytes (s : Status) : BytesResult := Cryptoki.mkBytes s [].

Definition certDer (reader certId : string) : M BytesResult :=
  question (GetCertDer reader certId) (publicDataSecs (budgets setup)) noBytes (λ reply,
    match reply with
    | KnownReply (CertDerReply der) => Cryptoki.mkBytes Cryptoki.Ok_ der
    | _ => noBytes Cryptoki.GeneralError
    end).

Definition familyOf (k : CertPublicKey) : Key.KeyType :=
  match k with Cryptoki.EcPublicKey _ _ _ => Key.Ec | Cryptoki.RsaPublicKey _ _ => Key.Rsa end.

Definition keyOf (keyType : Key.KeyType) (reply : ReplyVariant) : result Status CertPublicKey :=
  match reply with
  | KnownReply (PublicKey (RsaPublicKey n e)) =>
      if bool_decide (keyType = Key.Rsa) then Ok (Cryptoki.RsaPublicKey n e) else Err Cryptoki.NotSupported
  | KnownReply (PublicKey (EcPublicKey crv x y)) =>
      if bool_decide (keyType = Key.Ec) then Ok (Cryptoki.EcPublicKey crv x y) else Err Cryptoki.NotSupported
  | _ => Err Cryptoki.GeneralError
  end.

Definition publicKey (reader certId : string) (keyType : Key.KeyType) : M (result Status CertPublicKey) :=
  keys ← reads keyCache;
  match keys !! certId with
  | Some hit => mret (if negb (bool_decide (familyOf hit = keyType)) then Err Cryptoki.NotSupported else Ok hit)
  | None =>
      answer ← question (PkPublicKey reader certId) (publicDataSecs (budgets setup)) Err (keyOf keyType);
      match answer with
      | Ok key => change (setKeys (<[certId := key]> keys))
      | Err _ => mret ()
      end;;
      mret answer
  end.

Definition login (reader : string) : M (Status * Z) :=
  question (PkLogin reader) (interactiveSecs (budgets setup)) (λ s, (s, 0)) (λ reply,
    match reply with
    | KnownReply AckReply => (Cryptoki.Ok_, 0)
    | _ => (Cryptoki.GeneralError, 0)
    end).

Definition logout (reader : string) : M Status :=
  question (PkLogout reader) (interactiveSecs (budgets setup)) id (λ reply,
    match reply with
    | KnownReply AckReply => Cryptoki.Ok_
    | _ => Cryptoki.GeneralError
    end).

Definition kLoginStateFeature : string := "login-state".

Definition loginActive (busy : bool) (reader : string) : M (option bool) :=
  if busy then mret None
  else
    connected ← connect;
    if negb connected then mret None
    else
      offered ← reads features;
      if negb (existsb (String.eqb kLoginStateFeature) offered) then mret None
      else
        reply ← call (PkLoginState reader) (loginStateSecs (budgets setup));
        mret match reply with
             | Some (KnownReply (LoginStateReply active)) => Some active
             | _ => None
             end.

Definition signRaw (reader certId : string) (mechanism : RawCrypto.Mechanism) (input : list Z) : M BytesResult :=
  let token := RawCrypto.mechanismToken mechanism in
  if negb (bool_decide (RawCrypto.signMechanismFromToken token = Some mechanism)) then mret (noBytes Cryptoki.NotSupported)
  else
    question (PkSignRaw reader certId token input) (interactiveSecs (budgets setup)) noBytes (λ reply,
      match reply with
      | KnownReply (RawSignatureReply sig) => Cryptoki.mkBytes Cryptoki.Ok_ sig
      | _ => noBytes Cryptoki.GeneralError
      end).

Definition decrypt (reader certId : string) (ciphertext : list Z) : M BytesResult :=
  question (PkDecrypt reader certId (RawCrypto.mechanismToken RawCrypto.RsaPkcs1Decrypt) ciphertext)
    (interactiveSecs (budgets setup)) noBytes (λ reply,
    match reply with
    | KnownReply (RawSignatureReply plain) => Cryptoki.mkBytes Cryptoki.Ok_ plain
    | _ => noBytes Cryptoki.GeneralError
    end).

Definition derive (reader certId : string) (peerPoint : list Z) : M BytesResult :=
  question (PkDerive reader certId peerPoint) (interactiveSecs (budgets setup)) noBytes (λ reply,
    match reply with
    | KnownReply (DerivedSecretReply secret) => Cryptoki.mkBytes Cryptoki.Ok_ secret
    | _ => noBytes Cryptoki.GeneralError
    end).

End Client.

Arguments World : clear implicits.
Arguments M : clear implicits.

(** ** Sequences of calls *)

Inductive Call :=
| CSnapshot (busy : bool)
| CCertDer (reader certId : string)
| CPublicKey (reader certId : string) (keyType : Key.KeyType)
| CLogin (reader : string)
| CLogout (reader : string)
| CLoginActive (busy : bool) (reader : string)
| CSignRaw (reader certId : string) (mechanism : RawCrypto.Mechanism) (input : list Z)
| CDecrypt (reader certId : string) (ciphertext : list Z)
| CDerive (reader certId : string) (peerPoint : list Z).

Inductive Answer :=
| ASnapshot (readers : list Token.ReaderState)
| ABytes (b : BytesResult)
| AKey (k : result Status CertPublicKey)
| ALogin (s : Status) (idleTimeoutSecs : Z)
| AStatus (s : Status)
| AActive (active : option bool).

Section Sequences.
Context {ctx : Type} `{!Qcbor ctx} {P : Type} `{!AgentPeer P}.
Variable setup : Setup.

Definition answering {A} (f : A → Answer) (m : M P A) : M P Answer := λ w, let '(a, w) := m w in (f a, w).

Definition perform (c : Call) : M P Answer :=
  match c with
  | CSnapshot busy => answering ASnapshot (snapshot setup busy)
  | CCertDer reader certId => answering ABytes (certDer setup reader certId)
  | CPublicKey reader certId keyType => answering AKey (publicKey setup reader certId keyType)
  | CLogin reader => answering (λ '(s, idle), ALogin s idle) (login setup reader)
  | CLogout reader => answering AStatus (logout setup reader)
  | CLoginActive busy reader => answering AActive (loginActive setup busy reader)
  | CSignRaw reader certId mechanism input => answering ABytes (signRaw setup reader certId mechanism input)
  | CDecrypt reader certId ciphertext => answering ABytes (decrypt setup reader certId ciphertext)
  | CDerive reader certId peerPoint => answering ABytes (derive setup reader certId peerPoint)
  end.

Fixpoint performAll (calls : list Call) (w : World P) : World P :=
  match calls with
  | [] => w
  | c :: calls => performAll calls (perform c w).2
  end.

Definition initial : Impl := mkImpl None false [] 1 ∅ [] false.

(** [SocketAgentClient::SocketAgentClient]. *)
Definition construct (p : P) : World P := (connect setup (mkWorld initial p [])).2.

Definition connected (w : World P) : bool :=
  match fd (impl w) with Some _ => handshakeOk (impl w) | None => false end.
End Sequences.

(** ** The protocol of a connection *)

Inductive Link :=
| Down
| Unchecked
| Trusted
| Asked (id : Z)
| Ready (offered : list string)
| Waiting (offered : list string) (id : Z) (r : Request)
| Reading (offered : list string) (op : Z)
| Broken.

(** [budget] is the deadline that stands on the connection, [nextId] the next request's id. *)
Record Proto := mkProto { link : Link; budget : option Z; nextId : Z }.
Definition toLink l p := mkProto l (budget p) (nextId p).

(** What the client may ask, and the deadline it asks under. *)
Definition deadline (b : SocketTimeouts) (r : Request) : option Z :=
  match r with
  | Hello _ _ | GetState | ReadCertificates _ | GetCertDer _ _ | PkPublicKey _ _ => Some (publicDataSecs b)
  | PkLogin _ | PkLogout _ | PkSignRaw _ _ _ _ | PkDecrypt _ _ _ _ | PkDerive _ _ _ => Some (interactiveSecs b)
  | PkLoginState _ => Some (loginStateSecs b)
  | _ => None
  end.

Definition permitted (offered : list string) (r : Request) : bool :=
  match r with
  | Hello _ _ => false
  | PkLoginState _ => existsb (String.eqb kLoginStateFeature) offered
  | _ => true
  end.

Definition isGreeting (r : Request) : bool :=
  match r with Hello proto wantsEvents => (proto =? kProtocolVersion) && wantsEvents | _ => false end.

Section Protocol.
Context {ctx : Type} `{!Qcbor ctx}.
Variable setup : Setup.

(** The answer to the open question has come. *)
Definition heard (l : Link) (arm : ReplyVariant) : Link :=
  match l with
  | Asked _ => match arm with KnownReply (HelloAck _ offered) => Ready offered | _ => Broken end
  | Waiting offered _ (ReadCertificates _) =>
      match arm with KnownReply (OpStarted op) => Reading offered op | _ => Ready offered end
  | Waiting offered _ _ => Ready offered
  | l => l
  end.

Definition questionOf (l : Link) : option Z :=
  match l with Asked id => Some id | Waiting _ id _ => Some id | _ => None end.

(** A frame has come: a descriptor, or bytes that are neither reply nor event, break the
    connection; only the reply to the open question, or the end of the operation, ends the
    waiting. *)
Definition hears (l : Link) (f : Frame) : Link :=
  if negb (bool_decide (Framing.fds f = [])) then Broken
  else
    match l with
    | Reading offered op =>
        match parseEvent (Framing.body f) 0 with
        | Some (KnownEvent (OpFinished op' _ _ _ _)) => if op' =? op then Ready offered else l
        | Some _ => l
        | None => match parseReply (Framing.body f) 0 with Some _ => l | None => Broken end
        end
    | _ =>
        match parseReply (Framing.body f) 0 with
        | Some d => if bool_decide (questionOf l = Some (requestId d)) then heard l (replyArm d) else l
        | None => match parseEvent (Framing.body f) 0 with Some _ => l | None => Broken end
        end
    end.

Definition listens (l : Link) : bool :=
  match l with Asked _ | Waiting _ _ _ | Reading _ _ => true | _ => false end.

(** One action; [None] when the protocol does not allow it. *)
Definition follow (p : Proto) (a : Action) : option Proto :=
  match a with
  | Opened =>
      match link p with
      | Down => Some (mkProto (if hasPeerCheck setup then Unchecked else Trusted) None (nextId p))
      | _ => None
      end
  | Checked accepted =>
      match link p with Unchecked => Some (toLink (if accepted then Trusted else Broken) p) | _ => None end
  | Budget secs ok =>
      match link p with
      | Trusted | Ready _ => Some (mkProto (link p) (if ok then Some secs else None) (nextId p))
      | _ => None
      end
  | Sent id r ok =>
      if negb ((id =? nextId p) && bool_decide (budget p = deadline (budgets setup) r) && negb (bool_decide (budget p = None)))
      then None
      else
        let p := mkProto (link p) (budget p) (u64 (id + 1)) in
        match link p with
        | Trusted => if isGreeting r then Some (toLink (if ok then Asked id else Broken) p) else None
        | Ready offered => if permitted offered r then Some (toLink (if ok then Waiting offered id r else Broken) p) else None
        | _ => None
        end
  | Received None => if listens (link p) then Some (toLink Broken p) else None
  | Received (Some f) => if listens (link p) then Some (toLink (hears (link p) f) p) else None
  | Closed => match link p with Down => None | _ => Some (toLink Down p) end
  end.

Definition runs (l : list Action) : option Proto :=
  foldl (λ p a, p ← p; follow p a) (Some (mkProto Down None 1)) l.
End Protocol.

(** ** A logic of the client's programs

    [wp m Q i p]: from the client's state [i] and the state [p] of the protocol, [m] keeps to
    the protocol whatever the peer does, and ends in [Q]. *)
Section Conduct.
Context {ctx : Type} `{!Qcbor ctx} {P : Type} `{!AgentPeer P}.
Variable setup : Setup.

Definition cwp {A} (m : M P A) (Q : A → Impl → Proto → Prop) (i : Impl) (p : Proto) : Prop :=
  ∀ peer log', runs setup log' = Some p →
    ∃ p', runs setup (log (m (mkWorld i peer log')).2) = Some p' ∧ Q (m (mkWorld i peer log')).1 (impl (m (mkWorld i peer log')).2) p'.

Lemma runs_snoc l a : runs setup (l ++ [a]) = (p ← runs setup l; follow setup p a).
Proof. unfold runs. by rewrite foldl_snoc. Qed.

Lemma cwp_ret {A} (a : A) (Q : A → Impl → Proto → Prop) i p : Q a i p → cwp (mret a) Q i p.
Proof. intros HQ peer log' Hl. by exists p. Qed.

Lemma cwp_bind {A B} (m : M P A) (k : A → M P B) Q i p : cwp m (λ a, cwp (k a) Q) i p → cwp (m ≫= k) Q i p.
Proof.
  intros H peer log' Hl. specialize (H peer log' Hl) as (p' & Hp' & H). unfold mbind, client_bind.
  destruct (m (mkWorld i peer log')) as [a [i' peer' log'']]. by apply (H peer' log'').
Qed.

Lemma cwp_mono {A} (m : M P A) (Q Q' : A → Impl → Proto → Prop) i p :
  (∀ a i p, Q a i p → Q' a i p) → cwp m Q i p → cwp m Q' i p.
Proof. intros HQ H peer log' Hl. specialize (H peer log' Hl) as (p' & Hp' & H). eauto. Qed.

Lemma cwp_emit a (Q : () → Impl → Proto → Prop) i p p' : follow setup p a = Some p' → Q () i p' → cwp (emit a) Q i p.
Proof. intros Hf HQ peer log' Hl. exists p'. unfold emit. cbn [log impl fst snd]. by rewrite runs_snoc, Hl. Qed.

Lemma cwp_change f (Q : () → Impl → Proto → Prop) i p : Q () (f i) p → cwp (change f) Q i p.
Proof. intros HQ peer log' Hl. by exists p. Qed.

Lemma cwp_reads {A} (f : Impl → A) Q i p : Q (f i) i p → cwp (reads f) Q i p.
Proof. intros HQ peer log' Hl. by exists p. Qed.

Lemma cwp_asks {A} (f : P → A * P) (Q : A → Impl → Proto → Prop) i p : (∀ a, Q a i p) → cwp (asks f) Q i p.
Proof. intros HQ peer log' Hl. exists p. unfold asks. cbn. by destruct (f peer). Qed.

Ltac cwp_step :=
  lazymatch goal with
  | |- cwp (mret _) _ _ _ => apply cwp_ret
  | |- cwp (_ ≫= _) _ _ _ => apply cwp_bind
  | |- cwp (change _) _ _ _ => apply cwp_change
  | |- cwp (reads _) _ _ _ => apply cwp_reads
  | |- cwp (asks _) _ _ _ => apply cwp_asks; intros
  end.
Ltac cwp_steps := repeat (cwp_step; cbn beta).

(** What no program on the connection touches. *)
Definition sameCaches (i i' : Impl) : Prop :=
  keyCache i' = keyCache i ∧ cachedSnapshot i' = cachedSnapshot i ∧ haveSnapshot i' = haveSnapshot i.

(** The connection is down. *)
Definition isDown (i : Impl) (p : Proto) : Prop :=
  fd i = None ∧ handshakeOk i = false ∧ link p = Down ∧ nextId p = nextRequestId i.

(** It is open, with this state of the protocol. *)
Definition isOpen (l : Link) (i : Impl) (p : Proto) : Prop :=
  fd i ≠ None ∧ link p = l ∧ nextId p = nextRequestId i.

(** Between two calls. *)
Definition between (i : Impl) (p : Proto) : Prop :=
  isDown i p ∨ isOpen (Ready (features i)) i p ∧ handshakeOk i = true.

Lemma closeSocket_ok l (Q : () → Impl → Proto → Prop) i p :
  isOpen l i p → l ≠ Down → (∀ i' p', isDown i' p' → sameCaches i i' → features i' = features i → Q () i' p') →
  cwp closeSocket Q i p.
Proof.
  intros (Hfd & Hl & Hn) Hd HQ. unfold closeSocket. cwp_steps. destruct (fd i) as [inbox|]; [|done]. cwp_steps.
  eapply cwp_emit; [cbn; rewrite Hl; by destruct l|]. cwp_steps. by apply HQ.
Qed.

Lemma setTimeout_ok secs l (Q : bool → Impl → Proto → Prop) i p :
  isOpen l i p → (l = Trusted ∨ ∃ o, l = Ready o) →
  (∀ (ok : bool) p', isOpen l i p' → budget p' = (if ok then Some secs else None) → Q ok i p') →
  cwp (setTimeout secs) Q i p.
Proof.
  intros (Hfd & Hl & Hn) Ht HQ. unfold setTimeout. cwp_steps.
  eapply cwp_emit; [cbn; rewrite Hl; by destruct Ht as [->|[o ->]]|]. cwp_steps. by apply HQ.
Qed.

Lemma silence_ok l (Q : () → Impl → Proto → Prop) i p :
  isOpen l i p → listens l = true → (∀ i' p', isDown i' p' → sameCaches i i' → features i' = features i → Q () i' p') →
  cwp silence Q i p.
Proof.
  intros (Hfd & Hl & Hn) Ht HQ. unfold silence. cwp_steps. eapply cwp_emit; [cbn; by rewrite Hl, Ht|].
  by eapply (closeSocket_ok Broken).
Qed.

Lemma taken_ok f inbox l (Q : () → Impl → Proto → Prop) i p :
  isOpen l i p → listens l = true → (∀ p', isOpen (hears l f) (setFd (Some inbox) i) p' → Q () (setFd (Some inbox) i) p') →
  cwp (taken f inbox) Q i p.
Proof.
  intros (Hfd & Hl & Hn) Ht HQ. unfold taken. cwp_steps. eapply cwp_emit; [cbn; by rewrite Hl, Ht|]. cwp_steps. by apply HQ.
Qed.

(** [awaitReply]: the connection is down and there is no answer, or the question is answered. *)
Lemma awaitReply_ok id inbox l (Q : option ReplyVariant → Impl → Proto → Prop) i p :
  isOpen l i p → listens l = true → questionOf l = Some id →
  (∀ i' p', isDown i' p' → sameCaches i i' → features i' = features i → Q None i' p') →
  (∀ arm i' p', isOpen (heard l arm) i' p' → sameCaches i i' → features i' = features i → handshakeOk i' = handshakeOk i →
     Q (Some arm) i' p') →
  cwp (awaitReply id inbox) Q i p.
Proof.
  revert i p. induction inbox as [|f inbox IH]; intros i p Hi Hl Hq Hdown Hup; cbn [awaitReply].
  { cwp_steps. eapply silence_ok; [done|done|]. intros. cwp_steps. by apply Hdown. }
  cwp_steps. eapply taken_ok; [done|done|]. intros p' Hp'. unfold hears in Hp'.
  destruct (Framing.fds f) as [|d ds]; [rewrite bool_decide_true in Hp' by done|rewrite bool_decide_false in Hp' by done];
    cbn [negb] in Hp'; last first.
  { cwp_steps. eapply (closeSocket_ok Broken); [done|done|]. intros. cwp_steps. by apply Hdown. }
  assert (hears_as : isOpen (match parseReply (Framing.body f) 0 with
    | Some d => if requestId d =? id then heard l (replyArm d) else l
    | None => match parseEvent (Framing.body f) 0 with Some _ => l | None => Broken end
    end) (setFd (Some inbox) i) p').
  { destruct l; try done; cbn in Hq; injection Hq as ->; destruct (parseReply (Framing.body f) 0) as [d|]; try done;
      cbn [questionOf] in Hp'; by destruct (Z.eqb_spec (requestId d) id) as [<-|Hne];
      [rewrite bool_decide_true in Hp' by done|rewrite bool_decide_false in Hp' by congruence]. }
  destruct (parseReply (Framing.body f) 0) as [d|].
  - destruct (requestId d =? id); [cwp_steps; by apply Hup|by apply IH].
  - destruct (parseEvent (Framing.body f) 0); [by apply IH|].
    cwp_steps. eapply (closeSocket_ok Broken); [done|done|]. intros. cwp_steps. by apply Hdown.
Qed.

(** The state of the protocol in which this request may be sent, and the one it leads to. *)
Definition maySend (l : Link) (r : Request) : Prop :=
  (l = Trusted ∧ isGreeting r = true) ∨ (∃ o, l = Ready o ∧ permitted o r = true).
Definition asked (l : Link) (id : Z) (r : Request) : Link :=
  match l with Ready o => Waiting o id r | _ => Asked id end.

Lemma call_ok r secs l (Q : option ReplyVariant → Impl → Proto → Prop) i p :
  isOpen l i p → maySend l r → deadline (budgets setup) r = Some secs →
  (∀ i' p', isDown i' p' → sameCaches i i' → features i' = features i → Q None i' p') →
  (∀ p', isOpen l i p' → Q None i p') →
  (∀ id arm i' p', isOpen (heard (asked l id r) arm) i' p' → sameCaches i i' → features i' = features i →
     handshakeOk i' = handshakeOk i → Q (Some arm) i' p') →
  cwp (call r secs) Q i p.
Proof.
  intros Hi Hm Hd Hdown Hsame Hup. unfold call. cwp_steps. destruct Hi as (Hfd & Hl & Hn).
  destruct (fd i) as [inbox|] eqn:Ei; [|done]. cwp_steps.
  eapply setTimeout_ok; [by split; [rewrite Ei|]| by destruct Hm as [[-> _]|(o & -> & _)]; eauto|].
  intros ok p1 Hp1 Hb. destruct ok; cbn [negb]; cycle 1.
  { cwp_steps. by apply Hsame. }
  destruct Hp1 as (_ & Hl1 & Hn1). cwp_steps. unfold sendFrame. cwp_steps.
  assert (∀ ok : bool, follow setup p1 (Sent (nextRequestId i) r ok) =
    Some (mkProto (if ok then asked l (nextRequestId i) r else Broken) (Some secs) (u64 (nextRequestId i + 1)))) as Hf.
  { intros ok. cbn [follow]. rewrite Hn1, Z.eqb_refl, Hb, Hd, bool_decide_true by done. cbn [andb negb]. cbn [link].
    rewrite Hl1. destruct Hm as [[-> ->]|(o & -> & ->)]; by destruct ok. }
  destruct a as [frames|].
  - cwp_steps. eapply cwp_emit; [apply Hf|]. cwp_steps. cbn [negb]. cwp_steps. cbn [fd setFd setNext]. rewrite Ei. cbn [default].
    eapply (awaitReply_ok _ _ (asked l (nextRequestId i) r)); [done|by destruct Hm as [[-> _]|(o & -> & _)]..| |].
    + intros i' p' ? (?&?&?) ?. by apply Hdown.
    + intros arm i' p' ? (?&?&?) ? ?. by eapply Hup.
  - cwp_steps. eapply cwp_emit; [apply Hf|]. cwp_steps. cbn [negb]. cwp_steps.
    eapply (closeSocket_ok Broken); [|done|].
    { split; [cbn; by rewrite Ei|done]. }
    intros i' p' ? (?&?&?) ?. cwp_steps. by apply Hdown.
Qed.

Lemma checkPeer_ok (Q : bool → Impl → Proto → Prop) i p :
  link p = (if hasPeerCheck setup then Unchecked else Trusted) →
  (∀ (ok : bool) p', link p' = (if ok then Trusted else Broken) → nextId p' = nextId p → Q ok i p') →
  cwp (checkPeer setup) Q i p.
Proof.
  intros Hl HQ. unfold checkPeer. destruct (hasPeerCheck setup); cwp_steps; [|by apply HQ].
  eapply cwp_emit; [cbn; by rewrite Hl|]. cwp_steps. apply HQ; [|done]. by destruct (default false a).
Qed.

Lemma sameCaches_trans i i' i'' : sameCaches i i' → sameCaches i' i'' → sameCaches i i''.
Proof. intros (?&?&?) (?&?&?). repeat split; congruence. Qed.

Lemma connect_ok (Q : bool → Impl → Proto → Prop) i p :
  between i p →
  (∀ i' p', isDown i' p' → sameCaches i i' → Q false i' p') →
  (∀ i' p', isOpen (Ready (features i')) i' p' → handshakeOk i' = true → sameCaches i i' → Q true i' p') →
  cwp (connect setup) Q i p.
Proof.
  intros [(Hfd & Hh & Hl & Hn)|[(Hfd & Hl & Hn) Hh]] Hdown Hup; unfold connect; cwp_steps; last first.
  { destruct (fd i) as [inbox|] eqn:Ei; [|done]. cwp_steps. rewrite Hh. apply Hup; [|done|done]. split; [by rewrite Ei|done]. }
  rewrite Hfd. cwp_steps. destruct a; cbn [negb]; [|cwp_steps; by apply Hdown].
  destruct (_ || _); [cwp_steps; by apply Hdown|]. cwp_steps. destruct a; cbn [negb]; [|cwp_steps; by apply Hdown].
  cwp_steps. eapply cwp_emit; [cbn; by rewrite Hl|]. cwp_steps. apply checkPeer_ok; [done|]. intros ok p1 Hl1 Hn1. cbn in Hn1.
  destruct ok; cbn [negb]; cycle 1.
  { cwp_steps. eapply cwp_emit; [cbn; by rewrite Hl1|]. cwp_steps. apply Hdown; [|done]. split_and!; try done. cbn. congruence. }
  cwp_steps. eapply (setTimeout_ok _ Trusted); [|by left|]. { split_and!; [done|done|cbn; congruence]. }
  intros ok p2 Hp2 _. cwp_steps. eapply (call_ok _ _ Trusted); [done|by left|done| | |].
  - intros i' p' Hi' Hs Hf. cwp_steps. unfold closeSocket. cwp_steps. destruct Hi' as (Hfd' & ? & ? & ?). rewrite Hfd'. cwp_steps.
    apply Hdown; [by repeat split|done].
  - intros p' Hp'. cwp_steps. eapply (closeSocket_ok Trusted); [done|done|]. intros. cwp_steps. by apply Hdown.
  - intros id arm i' p' Hp' Hs Hf _. cbn [asked heard] in Hp'.
    assert (Hrefused : link p' = Broken → cwp (closeSocket;; mret false) Q i' p').
    { intros Hb. cwp_steps. eapply (closeSocket_ok Broken); [|done|].
      - destruct Hp' as (?&?&?). by repeat split.
      - intros i2 p2' ? Hs2 ?. cwp_steps. apply Hdown; [done|]. by apply (sameCaches_trans _ i'). }
    destruct arm as [[]|]; try (apply Hrefused, Hp').
    cwp_steps. by apply Hup.
Qed.

Lemma call_between r secs (Q : option ReplyVariant → Impl → Proto → Prop) i p :
  between i p → permitted (features i) r = true → deadline (budgets setup) r = Some secs →
  (∀ i' p', between i' p' → sameCaches i i' → Q None i' p') →
  (∀ id arm i' p', isOpen (heard (Waiting (features i') id r) arm) i' p' → handshakeOk i' = true → sameCaches i i' →
     Q (Some arm) i' p') →
  cwp (call r secs) Q i p.
Proof.
  intros [Hi|[Hi Hh]] Hp Hd HNone HSome.
  { unfold call. cwp_steps. pose proof Hi as (-> & _). cwp_steps. apply HNone; [by left|done]. }
  eapply (call_ok _ _ (Ready (features i))); [done|by right; eauto|done| | |].
  - intros. apply HNone; [by left|done].
  - intros. apply HNone; [by right|done].
  - intros id arm i' p' Ho ? Hf ?. eapply HSome; [|congruence|done]. cbn [asked] in Ho. by rewrite <-Hf in Ho.
Qed.

(** A request other than for an operation leaves the connection ready for the next. *)
Lemma call_plain r secs (Q : option ReplyVariant → Impl → Proto → Prop) i p :
  between i p → permitted (features i) r = true → deadline (budgets setup) r = Some secs →
  match r with ReadCertificates _ => False | _ => True end →
  (∀ reply i' p', between i' p' → sameCaches i i' → Q reply i' p') →
  cwp (call r secs) Q i p.
Proof.
  intros Hi Hp Hd Hr HQ. eapply call_between; [done|done|done|by eauto|]. intros id arm i' p' Ho Hh Hs. apply HQ; [|done].
  right. split; [|done]. by destruct r.
Qed.

Lemma awaitCertificates_ok op out inbox (Q : list CertInfo → Impl → Proto → Prop) i p :
  isOpen (Reading (features i) op) i p → handshakeOk i = true →
  (∀ certs i' p', between i' p' → sameCaches i i' → Q certs i' p') →
  cwp (awaitCertificates op out inbox) Q i p.
Proof.
  revert out i p. induction inbox as [|f inbox IH]; intros out i p Hi Hh HQ; cbn [awaitCertificates].
  { cwp_steps. eapply silence_ok; [done|done|]. intros. cwp_steps. apply HQ; [by left|done]. }
  cwp_steps. eapply taken_ok; [done|done|]. intros p' Hp'. unfold hears in Hp'.
  destruct (Framing.fds f) as [|d ds]; [rewrite bool_decide_true in Hp' by done|rewrite bool_decide_false in Hp' by done];
    cbn [negb] in Hp'; last first.
  { cwp_steps. eapply (closeSocket_ok Broken); [done|done|]. intros. cwp_steps. apply HQ; [by left|done]. }
  destruct (parseEvent (Framing.body f) 0) as [[[]|]|] eqn:Ee; try (by apply IH).
  - destruct (_ =? op); cbn [negb]; [|by apply IH]. by destruct result; apply IH.
  - destruct (_ =? op); cbn [negb]; [|by apply IH]. destruct (_ =? _); cbn [negb]; cwp_steps; (apply HQ; [by right|done]).
  - destruct (parseReply (Framing.body f) 0); [by apply IH|].
    cwp_steps. eapply (closeSocket_ok Broken); [done|done|]. intros. cwp_steps. apply HQ; [by left|done].
Qed.

Lemma readCertificates_ok card (Q : list CertInfo → Impl → Proto → Prop) i p :
  between i p → (∀ certs i' p', between i' p' → sameCaches i i' → Q certs i' p') → cwp (readCertificates setup card) Q i p.
Proof.
  intros Hi HQ. unfold readCertificates. cwp_steps. eapply call_between; [done|done|done| |].
  { intros. cwp_steps. by apply HQ. }
  intros id arm i' p' Ho Hh Hs. cbn [heard] in Ho.
  destruct arm as [[]|]; try (cwp_steps; apply HQ; [by right|done]).
  cwp_steps. eapply awaitCertificates_ok; [done|done|]. intros certs i2 p2 ? ?. apply HQ; [done|]. by apply (sameCaches_trans _ i').
Qed.

(** What the model of the module takes from a transport: the certificates of a reader come
    from one card. *)
Definition sound (r : Token.ReaderState) : Prop :=
  ∃ preAuth, Token.reported preAuth r ∧ (Token.hasCard r = false → Token.certs r = []).

Lemma readReader_ok cards r (Q : Token.ReaderState → Impl → Proto → Prop) i p :
  between i p →
  (∀ reader i' p', between i' p' → sameCaches i i' → sound reader → Token.readerPath reader = rs_handle r → Q reader i' p') →
  cwp (readReader setup cards r) Q i p.
Proof.
  intros Hi HQ. unfold readReader. destruct (if rs_hasCard r then rs_card r else None) as [card|] eqn:Ec; cwp_steps.
  - apply readCertificates_ok; [done|]. intros found i' p' ? ?. cwp_steps. apply HQ; [done|done| |done].
    exists (preAuthOf cards card). split; [|by cbn; destruct (rs_hasCard r)].
    exists (map neutralCert found). cbn. clear. induction found as [|e found IH]; [done|]. cbn. by rewrite IH.
  - apply HQ; [done|done| |done]. exists 0. split; [by exists []|done].
Qed.

Lemma readReaders_ok cards readers (Q : list Token.ReaderState → Impl → Proto → Prop) i p :
  between i p →
  (∀ snap i' p', between i' p' → sameCaches i i' → Forall sound snap → map Token.readerPath snap = map rs_handle readers →
     Q snap i' p') →
  cwp (readReaders setup cards readers) Q i p.
Proof.
  revert i p Q. induction readers as [|r readers IH]; intros i p Q Hi HQ; cbn [readReaders]; cwp_steps; [by apply HQ|].
  apply readReader_ok; [done|]. intros reader i' p' Hi' Hs Hr Hp. cwp_steps. apply IH; [done|]. intros snap i2 p2 Hi2 Hs2 Hsnap Hps.
  cwp_steps. apply HQ; [done|by apply (sameCaches_trans _ i')|by constructor|]. cbn. congruence.
Qed.

(** What every call keeps: keys that were answered stay, snapshots are sound. *)
Definition grown (i i' : Impl) : Prop :=
  keyCache i ⊆ keyCache i' ∧ (Forall sound (cachedSnapshot i) → Forall sound (cachedSnapshot i')).

Lemma sameCaches_grown i i' : sameCaches i i' → grown i i'.
Proof. intros (Hk & Hc & _). split; by rewrite ?Hk, ?Hc. Qed.

Definition kept (i : Impl) (i' : Impl) (p' : Proto) : Prop := between i' p' ∧ grown i i'.

Lemma question_ok {A} r secs (failed : Status → A) k (Q : A → Impl → Proto → Prop) i p :
  between i p → match r with Hello _ _ | ReadCertificates _ | PkLoginState _ => False | _ => True end →
  deadline (budgets setup) r = Some secs →
  (∀ a i' p', between i' p' → sameCaches i i' → Q a i' p') →
  cwp (question setup r secs failed k) Q i p.
Proof.
  intros Hi Hr Hd HQ. unfold question. cwp_steps. apply connect_ok; [done| |].
  - intros i' p' ? ?. cbn [negb]. cwp_steps. apply HQ; [by left|done].
  - intros i' p' ? ? ?. cbn [negb]. cwp_steps. apply call_plain; [by right|by destruct r|done|by destruct r|].
    intros reply i2 p2 ? ?. cwp_steps. apply HQ; [done|by apply (sameCaches_trans _ i')].
Qed.

Lemma cwp_answering {A} (f : A → Answer) (m : M P A) (Q : Answer → Impl → Proto → Prop) i p :
  cwp m (λ a, Q (f a)) i p → cwp (answering f m) Q i p.
Proof.
  intros H peer log' Hl. specialize (H peer log' Hl) as (p' & ? & ?). exists p'. unfold answering.
  by destruct (m (mkWorld i peer log')) as [a w].
Qed.

Lemma publicKey_ok reader certId ty (Q : result Status CertPublicKey → Impl → Proto → Prop) i p :
  between i p → (∀ a i' p', kept i i' p' → (∀ k, a = Ok k → keyCache i' !! certId = Some k) → Q a i' p') →
  cwp (publicKey setup reader certId ty) Q i p.
Proof.
  intros Hi HQ. unfold publicKey. cwp_steps. destruct (keyCache i !! certId) as [hit|] eqn:Ek; cwp_steps.
  - apply HQ; [by split|]. intros k. destruct (negb _); [done|]. by intros [= ->].
  - apply question_ok; [done|done|done|]. intros a i' p' Hi' Hs. pose proof Hs as (Hk & Hc & _).
    destruct a as [key|s]; cwp_steps; (apply HQ; [|]).
    + split; [done|]. split; [|cbn; by rewrite Hc]. cbn. by apply insert_subseteq.
    + intros k [= <-]. cbn. apply lookup_insert_eq.
    + split; [done|]. by apply sameCaches_grown.
    + done.
Qed.

Lemma snapshot_ok busy (Q : list Token.ReaderState → Impl → Proto → Prop) i p :
  between i p → (∀ a i' p', kept i i' p' → (Forall sound (cachedSnapshot i) → Forall sound a) → Q a i' p') →
  cwp (snapshot setup busy) Q i p.
Proof.
  intros Hi HQ. unfold snapshot. destruct busy; cwp_steps; [by apply HQ; [split|]|]. apply connect_ok; [done| |].
  { intros i' p' ? ?. cbn [negb]. cwp_steps. apply HQ; [split; [by left|by apply sameCaches_grown]|]. done. }
  intros i' p' ? ? Hs. cbn [negb]. cwp_steps. apply call_plain; [by right|done..|]. intros reply i2 p2 Hi2 Hs2.
  assert (grown i i2) as Hg by by apply sameCaches_grown, (sameCaches_trans _ i').
  assert (cwp (mret []) Q i2 p2) as Hempty. { cwp_steps. by apply HQ. }
  destruct reply as [[[]|]|]; try done. cwp_steps. apply readReaders_ok; [done|]. intros snap i3 p3 Hi3 Hs3 Hsnap _. cwp_steps.
  pose proof (sameCaches_trans _ _ _ (sameCaches_trans _ _ _ Hs Hs2) Hs3) as (Hk & _). apply HQ; [|done].
  split; [done|]. split; [cbn; by rewrite Hk|done].
Qed.

Lemma loginActive_ok busy reader (Q : option bool → Impl → Proto → Prop) i p :
  between i p → (∀ a i' p', kept i i' p' → Q a i' p') → cwp (loginActive setup busy reader) Q i p.
Proof.
  intros Hi HQ. unfold loginActive. destruct busy; cwp_steps; [by apply HQ; split|]. apply connect_ok; [done| |].
  { intros i' p' ? ?. cbn [negb]. cwp_steps. apply HQ. split; [by left|by apply sameCaches_grown]. }
  intros i' p' ? ? Hs. cbn [negb]. cwp_steps. destruct (existsb _ _) eqn:Ee; cbn [negb]; cwp_steps.
  - apply call_plain; [by right|done..|]. intros reply i2 p2 ? ?. cwp_steps. apply HQ. split; [done|].
    by apply sameCaches_grown, (sameCaches_trans _ i').
  - apply HQ. split; [by right|by apply sameCaches_grown].
Qed.

Definition soundAnswer (a : Answer) : Prop := match a with ASnapshot snap => Forall sound snap | _ => True end.

Lemma perform_keeps c i p :
  between i p → cwp (perform setup c) (λ a i' p', kept i i' p' ∧ (Forall sound (cachedSnapshot i) → soundAnswer a)) i p.
Proof.
  intros Hi. destruct c; cbn [perform]; apply cwp_answering.
  2,7,8,9: try (unfold signRaw; cbv zeta; destruct (negb _); [cwp_steps; by split|]);
    apply question_ok; [done..|]; intros; split; [split; [done|by apply sameCaches_grown]|done].
  - apply snapshot_ok; [done|]. intros. by split.
  - apply publicKey_ok; [done|]. intros. by split.
  - apply question_ok; [done..|]. intros [] i' p' ? ?. split; [split; [done|by apply sameCaches_grown]|done].
  - apply question_ok; [done..|]. intros. split; [split; [done|by apply sameCaches_grown]|done].
  - apply loginActive_ok; [done|]. intros. by split.
Qed.

(** The state after any calls. *)
Definition reachable (w : World P) : Prop :=
  ∃ p, runs setup (log w) = Some p ∧ between (impl w) p ∧ Forall sound (cachedSnapshot (impl w)).

Lemma perform_reachable c w : reachable w →
  reachable (perform setup c w).2 ∧ soundAnswer (perform setup c w).1 ∧ keyCache (impl w) ⊆ keyCache (impl (perform setup c w).2).
Proof.
  intros (p & Hr & Hb & Hs). destruct w as [i peer' log']. cbn in *.
  destruct (perform_keeps c i p Hb peer' log' Hr) as (p' & Hr' & [Hb' [Hk Hs']] & Ha).
  split; [by exists p'; eauto|]. split; [by apply Ha|done].
Qed.

Lemma construct_reachable p : reachable (construct setup p).
Proof.
  assert (between initial (mkProto Down None 1)) as Hb by by left.
  unfold construct.
  destruct (connect_ok (λ _ i' p', between i' p' ∧ sameCaches initial i') initial (mkProto Down None 1) Hb) with p (@nil Action)
    as (p' & Hr & Hb' & _ & Hc & _).
  - intros. split; [by left|done].
  - intros. split; [by right|done].
  - done.
  - exists p'. split; [done|]. split; [done|]. rewrite Hc. constructor.
Qed.

Lemma performAll_reachable calls w : reachable w →
  reachable (performAll setup calls w) ∧ keyCache (impl w) ⊆ keyCache (impl (performAll setup calls w)).
Proof.
  revert w. induction calls as [|c calls IH]; intros w Hw; cbn [performAll]; [done|].
  destruct (perform_reachable c w Hw) as (Hw' & _ & Hk). destruct (IH _ Hw') as [? Hk']. split; [done|]. by etrans.
Qed.
End Conduct.

(** ** Whose answer it is *)
Section Answers.
Context {ctx : Type} `{!Qcbor ctx} {P : Type} `{!AgentPeer P}.
Variable setup : Setup.

(** A frame that is passed over while the reply to this id is awaited. *)
Definition foreign (id : Z) (f : Frame) : Prop :=
  Framing.fds f = [] ∧
  match parseReply (Framing.body f) 0 with
  | Some d => requestId d ≠ id
  | None => ∃ e, parseEvent (Framing.body f) 0 = Some e
  end.

Definition ownReply (id : Z) (arm : ReplyVariant) (f : Frame) : Prop :=
  Framing.fds f = [] ∧ parseReply (Framing.body f) 0 = Some (mkDecodedReply id arm).

Definition hearing (l : list Frame) : list Action := map (λ f, Received (Some f)) l.

(** From [w] to [w'] the client sent [r] and then received this answer to it, passing over
    what is not one. *)
Definition answeredBy (r : Request) (arm : ReplyVariant) (w w' : World P) : Prop :=
  ∃ before id skipped f,
    log w' = log w ++ before ++ [Sent id r true] ++ hearing skipped ++ [Received (Some f)] ∧
    Forall (foreign id) skipped ∧ ownReply id arm f.

Lemma awaitReply_answer id inbox (w : World P) arm w' :
  awaitReply id inbox w = (Some arm, w') →
  ∃ skipped f, log w' = log w ++ hearing skipped ++ [Received (Some f)] ∧ Forall (foreign id) skipped ∧ ownReply id arm f.
Proof.
  revert w. induction inbox as [|f inbox IH]; intros w; cbn [awaitReply]; cbv [mbind client_bind mret client_ret].
  { by destruct (silence w). }
  destruct (taken f inbox w) as [[] w1] eqn:Et. injection Et as <-.
  destruct (Framing.fds f) as [|d ds] eqn:Ef; [|by destruct (closeSocket _)].
  destruct (parseReply (Framing.body f) 0) as [d|] eqn:Er.
  - destruct (Z.eqb_spec (requestId d) id) as [<-|Hne].
    + intros [= <- <-]. exists [], f. split; [done|]. split; [constructor|]. split; [done|]. by destruct d.
    + intros (skipped & g & Hl & Hs & Hg)%IH. exists (f :: skipped), g. split; [by rewrite Hl; cbn; rewrite <-app_assoc|].
      split; [|done]. constructor; [|done]. split; [done|]. by rewrite Er.
  - destruct (parseEvent (Framing.body f) 0) as [e|] eqn:Ee; [|by destruct (closeSocket _)].
    intros (skipped & g & Hl & Hs & Hg)%IH. exists (f :: skipped), g. split; [by rewrite Hl; cbn; rewrite <-app_assoc|].
    split; [|done]. constructor; [|done]. split; [done|]. rewrite Er. eauto.
Qed.

Lemma call_answer r secs (w : World P) arm w' : call r secs w = (Some arm, w') → answeredBy r arm w w'.
Proof.
  unfold call. cbv [mbind client_bind mret client_ret reads]. destruct (fd (impl w)) as [inbox|]; [|done].
  unfold setTimeout. cbv [mbind client_bind mret client_ret asks]. destruct (p_timeout secs (peer w)) as [ok1 p1]. cbn [peer impl log].
  destruct (p_timeout secs p1) as [ok2 p2]. cbn. destruct (ok1 && ok2); cbn [negb]; [|done].
  unfold sendFrame. cbv [mbind client_bind mret client_ret asks change emit]. cbn [peer impl log].
  destruct (p_send _ p2) as [[frames|] p3]; cbn [negb impl log peer]; [|by destruct (closeSocket _)].
  intros (skipped & f & Hl & Hs & Hf)%awaitReply_answer. cbn [log] in Hl.
  exists [Budget secs true], (nextRequestId (impl w)), skipped, f. split; [|done]. by rewrite Hl, <-!app_assoc.
Qed.

(** Programs only add to the log. *)
Definition extends {A} (m : M P A) : Prop := ∀ w, ∃ l, log (m w).2 = log w ++ l.

Lemma extends_ret {A} (a : A) : extends (mret a).
Proof. intros w. exists []. by rewrite app_nil_r. Qed.
Lemma extends_bind {A B} (m : M P A) (k : A → M P B) : extends m → (∀ a, extends (k a)) → extends (m ≫= k).
Proof.
  intros Hm Hk w. cbv [mbind client_bind]. destruct (Hm w) as [l1 H1]. destruct (m w) as [a w1]. destruct (Hk a w1) as [l2 H2].
  exists (l1 ++ l2). cbn in H1. by rewrite H2, H1, app_assoc.
Qed.
Lemma extends_emit a : extends (emit a).
Proof. intros w. by exists [a]. Qed.
Lemma extends_change f : extends (change f).
Proof. intros w. exists []. by rewrite app_nil_r. Qed.
Lemma extends_reads {A} (f : Impl → A) : extends (reads f).
Proof. intros w. exists []. by rewrite app_nil_r. Qed.
Lemma extends_asks {A} (f : P → A * P) : extends (asks f).
Proof. intros w. exists []. unfold asks. destruct (f (peer w)). by rewrite app_nil_r. Qed.

Ltac extending :=
  repeat first [progress intros | apply extends_bind | apply extends_ret | apply extends_emit | apply extends_change
               | apply extends_reads | apply extends_asks
               | match goal with |- extends (match ?x with _ => _ end) => destruct x end].

Lemma extends_close : extends closeSocket.
Proof. unfold closeSocket. extending. Qed.
Lemma extends_await id inbox : extends (awaitReply id inbox).
Proof.
  induction inbox as [|f inbox IH]; cbn [awaitReply]; unfold silence, taken; extending; try done; apply extends_close.
Qed.
Lemma extends_call r secs : extends (call r secs).
Proof. unfold call, setTimeout, sendFrame. extending; first [apply extends_close|apply extends_await]. Qed.
Lemma extends_connect : extends (connect setup).
Proof. unfold connect, checkPeer, setTimeout. extending; first [apply extends_close|apply extends_call|apply extends_await]. Qed.

Lemma answeredBy_after r arm (w w1 w' : World P) l : log w1 = log w ++ l → answeredBy r arm w1 w' → answeredBy r arm w w'.
Proof.
  intros Hl (before & id & skipped & f & Hw & ? & ?). exists (l ++ before), id, skipped, f. split; [|done].
  by rewrite Hw, Hl, <-!app_assoc.
Qed.

Lemma question_answer {A} r secs (failed : Status → A) k (w : World P) a w' :
  question setup r secs failed k w = (a, w') →
  (∃ s, a = failed s ∧ s ≠ Cryptoki.Ok_) ∨ (∃ arm, a = k arm ∧ answeredBy r arm w w' ∧ ∀ e, arm ≠ KnownReply (Error e)).
Proof.
  unfold question. cbv [mbind client_bind mret client_ret]. destruct (extends_connect w) as [l Hl].
  destruct (connect setup w) as [ok w1]. cbn in Hl. destruct ok; cbn [negb]; [|intros [= <- <-]; left; eauto].
  destruct (call r secs w1) as [[arm|] w2] eqn:Ec; [|intros [= <- <-]; left; eauto].
  intros [= <- <-]. apply call_answer, (answeredBy_after _ _ w) with (l := l) in Ec; [|done].
  destruct arm as [[]|]; try (right; eexists; split; [reflexivity|]; by split).
  left. eexists. split; [done|]. unfold statusOf. by destruct (ei_code info) as [|[]].
Qed.

(** What the answer of a call says the agent said, and to which question. *)
Definition evidence (c : Call) (a : Answer) : option (Request * Reply) :=
  match c, a with
  | CCertDer reader certId, ABytes (Cryptoki.mkBytes Cryptoki.Ok_ der) => Some (GetCertDer reader certId, CertDerReply der)
  | CPublicKey reader certId _, AKey (Ok (Cryptoki.RsaPublicKey n e)) =>
      Some (PkPublicKey reader certId, PublicKey (RsaPublicKey n e))
  | CPublicKey reader certId _, AKey (Ok (Cryptoki.EcPublicKey crv x y)) =>
      Some (PkPublicKey reader certId, PublicKey (EcPublicKey crv x y))
  | CLogin reader, ALogin Cryptoki.Ok_ _ => Some (PkLogin reader, AckReply)
  | CLogout reader, AStatus Cryptoki.Ok_ => Some (PkLogout reader, AckReply)
  | CLoginActive _ reader, AActive (Some active) => Some (PkLoginState reader, LoginStateReply active)
  | CSignRaw reader certId mechanism input, ABytes (Cryptoki.mkBytes Cryptoki.Ok_ sig) =>
      Some (PkSignRaw reader certId (RawCrypto.mechanismToken mechanism) input, RawSignatureReply sig)
  | CDecrypt reader certId ciphertext, ABytes (Cryptoki.mkBytes Cryptoki.Ok_ plain) =>
      Some (PkDecrypt reader certId (RawCrypto.mechanismToken RawCrypto.RsaPkcs1Decrypt) ciphertext, RawSignatureReply plain)
  | CDerive reader certId peerPoint, ABytes (Cryptoki.mkBytes Cryptoki.Ok_ secret) =>
      Some (PkDerive reader certId peerPoint, DerivedSecretReply secret)
  | _, _ => None
  end.

(** The key is answered from the cache. *)
Definition fromCache (c : Call) (w : World P) : bool :=
  match c with
  | CPublicKey _ certId _ => match keyCache (impl w) !! certId with Some _ => true | None => false end
  | _ => false
  end.

Lemma loginActive_answer busy reader (w : World P) active w' :
  loginActive setup busy reader w = (Some active, w') → answeredBy (PkLoginState reader) (KnownReply (LoginStateReply active)) w w'.
Proof.
  unfold loginActive. destruct busy; [done|]. cbv [mbind client_bind mret client_ret reads]. destruct (extends_connect w) as [l Hl].
  destruct (connect setup w) as [ok w1]. cbn in Hl. destruct ok; cbn [negb]; [|done]. destruct (existsb _ _); cbn [negb]; [|done].
  destruct (call _ _ w1) as [[[[]|]|] w2] eqn:Ec; try done. intros [= <- <-].
  by apply call_answer, (answeredBy_after _ _ w) with (l := l) in Ec.
Qed.

Ltac by_question H :=
  apply question_answer in H as [(s & -> & ?)|([[]|] & -> & ? & ?)]; cbn [evidence noBytes]; try done;
  [by destruct s|by intros [= <- <-]].

Lemma evidence_found c (w : World P) a w' r reply :
  perform setup c w = (a, w') → fromCache c w = false → evidence c a = Some (r, reply) → answeredBy r (KnownReply reply) w w'.
Proof.
  destruct c; cbn [perform fromCache]; unfold answering;
    match goal with |- context [let '(_, _) := ?m w in _] => destruct (m w) as [b w1] eqn:H end.
  - by intros [= <- <-].
  - intros [= <- <-] _. by_question H.
  - intros [= <- <-] Hk. unfold publicKey in H. cbv [mbind client_bind mret client_ret reads change] in H.
    destruct (keyCache (impl w) !! certId); [done|]. destruct (question _ _ _ _ _ w) as [ans w2] eqn:Hq.
    apply question_answer in Hq as [(s & -> & ?)|(arm & -> & Hans & ?)].
    { by injection H as <- <-. }
    destruct arm as [[]|]; cbn [keyOf] in H; try (by injection H as <- <-).
    destruct key; case_bool_decide; injection H as <- <-; cbn; try done; by intros [= <- <-].
  - destruct b as [s idle]. intros [= <- <-] _. apply question_answer in H as [(s' & [= -> ->] & ?)|([[]|] & [= -> ->] & ? & ?)]; cbn; try done.
    + by destruct s'.
    + by intros [= <- <-].
  - intros [= <- <-] _. by_question H.
  - intros [= <- <-] _. destruct b as [active|]; [|done]. intros [= <- <-]. by apply loginActive_answer in H.
  - intros [= <- <-] _. unfold signRaw in H. cbv zeta in H. destruct (negb _).
    { injection H as <- <-. done. }
    by_question H.
  - intros [= <- <-] _. by_question H.
  - intros [= <- <-] _. by_question H.
Qed.
End Answers.

(** ** An agent that speaks the protocol

    It decodes what it is sent with [parseRequest] and answers with [makeReply]; before and
    after an answer it may send events. *)
Section Honest.
Context {ctx : Type} `{!Qcbor ctx}.

Record Agent := mkAgent { serve : Request → Reply; before : list Event; after : list Event }.

Definition eventFrame (e : Event) : Frame := mkFrame (encode (eventToCbor e)) [].
Definition replyFrame (id : Z) (r : Reply) : Frame := mkFrame (encode (makeReply id r)) [].

Definition answerTo (bytes : list Z) (a : Agent) : option (list Frame) * Agent :=
  match parseRequest bytes with
  | Ok env => (Some (map eventFrame (before a) ++ [replyFrame (req env) (serve a (Messages.body env))] ++ map eventFrame (after a)), a)
  | Err _ => (Some [], a)
  end.

#[export] Instance agent_peer : AgentPeer Agent := {
  p_socket a := (true, a);
  p_connect _ a := (true, a);
  p_check a := (Some true, a);
  p_timeout _ a := (true, a);
  p_send := answerTo }.

(** Messages the encodings can carry. *)
Definition requestFits (id : Z) (r : Request) : Prop :=
  isU64 id = true ∧ requestInRange r = true ∧ (depthOf (toCbor (mkEnvelope id r)) ≤ kMaxCborDepth)%nat ∧
  (itemCount (toCbor (mkEnvelope id r)) ≤ kMaxCborItems)%nat ∧ carried (encodeValue (toCbor (mkEnvelope id r))).
Definition replyFits (id : Z) (r : Reply) : Prop :=
  isU64 id = true ∧ replyOk 0 r = true ∧ replyWellFormed r ∧ (depthOf (makeReply id r) ≤ kMaxCborDepth)%nat ∧
  (itemCount (makeReply id r) ≤ kMaxCborItems)%nat ∧ carried (encodeValue (makeReply id r)).
Definition eventFits (e : Event) : Prop :=
  eventOk 0 e = true ∧ eventWellFormed e ∧ (depthOf (eventToCbor e) ≤ kMaxCborDepth)%nat ∧
  (itemCount (eventToCbor e) ≤ kMaxCborItems)%nat ∧ carried (encodeValue (eventToCbor e)).

Lemma request_parses id r : requestFits id r → parseRequest (encodeRequest r id) = Ok (mkEnvelope id r).
Proof.
  intros (Hid & Hr & Hd & Hn & Hc). unfold parseRequest, encodeRequest.
  rewrite carried_decodes by (done || by apply wellFormed_toCbor). by apply parseDecoded_toCbor.
Qed.
Lemma reply_parses id r : replyFits id r → ownReply id (KnownReply r) (replyFrame id r).
Proof.
  intros (Hid & Hr & Hwf & Hd & Hn & Hc). split; [done|]. unfold replyFrame, parseReply. cbn [Framing.body].
  rewrite carried_decodes by (done || by apply wellFormed_makeReply). by apply parseReplyTree_makeReply.
Qed.

(** An event is not taken for a reply. *)
Lemma event_is_no_reply e : (parseReplyTree 0 (eventToCbor e)).1 = None.
Proof. by destruct e. Qed.

Lemma event_foreign id e : eventFits e → foreign id (eventFrame e).
Proof.
  intros (He & Hwf & Hd & Hn & Hc). split; [done|]. unfold eventFrame, parseReply, parseEvent. cbn [Framing.body].
  rewrite carried_decodes by (done || by apply wellFormed_event). rewrite event_is_no_reply, parseEventTree_event by done. eauto.
Qed.

(** The client is connected to this agent, and what is still to be read are events. *)
Definition listening (a : Agent) (w : World Agent) : Prop :=
  peer w = a ∧ handshakeOk (impl w) = true ∧ ∃ late, fd (impl w) = Some (map eventFrame late) ∧ Forall eventFits late.

Lemma awaitReply_skips {P} `{!AgentPeer P} id skipped f arm rest (w : World P) :
  Forall (foreign id) skipped → ownReply id arm f →
  ∃ l, awaitReply id (skipped ++ f :: rest) w = (Some arm, mkWorld (setFd (Some rest) (impl w)) (peer w) l).
Proof.
  intros Hs [Hf Hr]. revert w. induction Hs as [|g skipped [Hg Hg'] Hs IH]; intros w; cbn [app awaitReply];
    cbv [mbind client_bind mret client_ret]; cbn.
  - rewrite Hf, Hr. cbn. rewrite Z.eqb_refl. eauto.
  - rewrite Hg. destruct (parseReply (Framing.body g) 0) as [d|].
    + destruct (Z.eqb_spec (requestId d) id); [done|]. destruct (IH (taken g (skipped ++ f :: rest) w).2) as [l Hl].
      exists l. exact Hl.
    + destruct Hg' as [e ->]. destruct (IH (taken g (skipped ++ f :: rest) w).2) as [l Hl]. exists l. exact Hl.
Qed.

(** A question is answered with what the agent serves. *)
Lemma call_served a r secs inbox late (w : World Agent) :
  peer w = a → fd (impl w) = Some inbox → inbox = map eventFrame late → Forall eventFits late →
  Forall eventFits (before a) → Forall eventFits (after a) →
  requestFits (nextRequestId (impl w)) r → replyFits (nextRequestId (impl w)) (serve a r) →
  ∃ l, call r secs w = (Some (KnownReply (serve a r)),
    mkWorld (setFd (Some (map eventFrame (after a))) (setNext (u64 (nextRequestId (impl w) + 1)) (impl w))) a l).
Proof.
  intros Hp Hfd -> Hlate Hb Ha Hreq Hrep. destruct w as [i p lg]. cbn in *. subst p.
  unfold call. cbv [mbind client_bind mret client_ret reads]. cbn [impl]. rewrite Hfd.
  unfold setTimeout. cbv [mbind client_bind mret client_ret asks emit]. cbn.
  unfold sendFrame. cbv [mbind client_bind mret client_ret asks emit change]. cbn [p_send agent_peer peer impl log].
  unfold answerTo. rewrite request_parses by done. cbn [req Messages.body]. cbn [negb impl fd setFd setNext]. rewrite Hfd. cbn [default].
  match goal with |- context [awaitReply ?id ?inbox ?w0] =>
    destruct (awaitReply_skips id (map eventFrame (late ++ before a)) (replyFrame id (serve a r))
      (KnownReply (serve a r)) (map eventFrame (after a)) w0) as [l Hl] end.
  - apply Forall_map, Forall_app_2; (eapply Forall_impl; [done|]; intros; by apply event_foreign).
  - by apply reply_parses.
  - exists l. rewrite map_app, <-app_assoc in Hl. exact Hl.
Qed.

Variable setup : Setup.

Lemma connect_listening a (w : World Agent) : listening a w → connect setup w = (true, w).
Proof. intros (_ & Hh & late & Hf & _). unfold connect. cbv [mbind client_bind reads]. by rewrite Hf, Hh. Qed.

(** What a call has to ask the agent. *)
Definition requestOf (c : Call) : option Request :=
  match c with
  | CCertDer reader certId => Some (GetCertDer reader certId)
  | CPublicKey reader certId _ => Some (PkPublicKey reader certId)
  | CLogin reader => Some (PkLogin reader)
  | CLogout reader => Some (PkLogout reader)
  | CLoginActive _ reader => Some (PkLoginState reader)
  | CSignRaw reader certId mechanism input => Some (PkSignRaw reader certId (RawCrypto.mechanismToken mechanism) input)
  | CDecrypt reader certId ciphertext => Some (PkDecrypt reader certId (RawCrypto.mechanismToken RawCrypto.RsaPkcs1Decrypt) ciphertext)
  | CDerive reader certId peerPoint => Some (PkDerive reader certId peerPoint)
  | CSnapshot _ => None
  end.

(** What [AgentClient.h] promises for a reply of the agent: the value of the right arm, the
    agent's refusal in the module's words, or a general error. *)
Definition contract (c : Call) (reply : Reply) : Answer :=
  match c, reply with
  | (CCertDer _ _ | CSignRaw _ _ _ _ | CDecrypt _ _ _ | CDerive _ _ _), Error e => ABytes (noBytes (statusOf e))
  | CPublicKey _ _ _, Error e => AKey (Err (statusOf e))
  | CLogin _, Error e => ALogin (statusOf e) 0
  | CLogout _, Error e => AStatus (statusOf e)
  | CCertDer _ _, CertDerReply der => ABytes (Cryptoki.mkBytes Cryptoki.Ok_ der)
  | (CSignRaw _ _ _ _ | CDecrypt _ _ _), RawSignatureReply sig => ABytes (Cryptoki.mkBytes Cryptoki.Ok_ sig)
  | CDerive _ _ _, DerivedSecretReply z => ABytes (Cryptoki.mkBytes Cryptoki.Ok_ z)
  | CPublicKey _ _ Key.Rsa, PublicKey (RsaPublicKey n e) => AKey (Ok (Cryptoki.RsaPublicKey n e))
  | CPublicKey _ _ Key.Ec, PublicKey (EcPublicKey crv x y) => AKey (Ok (Cryptoki.EcPublicKey crv x y))
  | CPublicKey _ _ _, PublicKey _ => AKey (Err Cryptoki.NotSupported)
  | CLogin _, AckReply => ALogin Cryptoki.Ok_ 0
  | CLogout _, AckReply => AStatus Cryptoki.Ok_
  | CLoginActive _ _, LoginStateReply active => AActive (Some active)
  | CPublicKey _ _ _, _ => AKey (Err Cryptoki.GeneralError)
  | CLogin _, _ => ALogin Cryptoki.GeneralError 0
  | CLogout _, _ => AStatus Cryptoki.GeneralError
  | CLoginActive _ _, _ => AActive None
  | CSnapshot _, _ => ASnapshot []
  | (CCertDer _ _ | CSignRaw _ _ _ _ | CDecrypt _ _ _ | CDerive _ _ _), _ => ABytes (noBytes Cryptoki.GeneralError)
  end.

(** The call goes to the agent. *)
Definition goesOut (c : Call) (w : World Agent) : Prop :=
  match c with
  | CSnapshot _ => False
  | CPublicKey _ certId _ => keyCache (impl w) !! certId = None
  | CLoginActive busy _ => busy = false ∧ existsb (String.eqb kLoginStateFeature) (features (impl w)) = true
  | CSignRaw _ _ mechanism _ => RawCrypto.signMechanismFromToken (RawCrypto.mechanismToken mechanism) = Some mechanism
  | _ => True
  end.

Lemma call_listening a r secs (w : World Agent) :
  listening a w → Forall eventFits (before a) → Forall eventFits (after a) →
  requestFits (nextRequestId (impl w)) r → replyFits (nextRequestId (impl w)) (serve a r) →
  ∃ w', call r secs w = (Some (KnownReply (serve a r)), w') ∧ listening a w' ∧ features (impl w') = features (impl w).
Proof.
  intros (Hp & Hh & late & Hf & Hlate) Hb Ha Hreq Hrep.
  destruct (call_served a r secs _ late w Hp Hf eq_refl Hlate Hb Ha Hreq Hrep) as [l ->]. eexists. split; [done|].
  split; [|done]. split; [done|]. split; [done|]. by exists (after a).
Qed.

Lemma question_served {A} a r secs (failed : Status → A) k (w : World Agent) :
  listening a w → Forall eventFits (before a) → Forall eventFits (after a) →
  requestFits (nextRequestId (impl w)) r → replyFits (nextRequestId (impl w)) (serve a r) →
  ∃ w', question setup r secs failed k w =
    (match serve a r with Error e => failed (statusOf e) | reply => k (KnownReply reply) end, w') ∧ listening a w'.
Proof.
  intros Hw Hb Ha Hreq Hrep. destruct (call_listening a r secs w Hw Hb Ha Hreq Hrep) as (w' & Hc & Hw' & _). exists w'. split; [|done].
  unfold question. cbv [mbind client_bind mret client_ret]. rewrite (connect_listening a w Hw). cbn [negb]. rewrite Hc.
  by destruct (serve a r).
Qed.

Lemma perform_served a c r (w : World Agent) :
  listening a w → Forall eventFits (before a) → Forall eventFits (after a) → requestOf c = Some r → goesOut c w →
  requestFits (nextRequestId (impl w)) r → replyFits (nextRequestId (impl w)) (serve a r) →
  ∃ w', perform setup c w = (contract c (serve a r), w') ∧ listening a w'.
Proof.
  intros Hw Hb Ha Hc Ho Hreq Hrep.
  pose proof (λ A secs (failed : Status → A) k, question_served a r secs failed k w Hw Hb Ha Hreq Hrep) as Hq.
  destruct c; cbn [requestOf] in Hc; [done|..]; injection Hc as <-; cbn [perform]; unfold answering.
  - unfold certDer. edestruct Hq as (w' & -> & ?). exists w'. split; [|done]. by destruct (serve a _).
  - unfold publicKey. cbv [mbind client_bind mret client_ret reads]. cbn in Ho. rewrite Ho.
    edestruct Hq as (w' & -> & Hw'). clear Hq. destruct (serve a _) as [ | | | | |[]| | | | | | | | | | ]; cbn [contract keyOf]; eauto;
      destruct keyType; cbn [bool_decide]; eauto; (eexists; split; [done|]; destruct Hw' as (?&?&?&?&?); by repeat split; eauto).
  - unfold login. edestruct Hq as (w' & -> & ?). exists w'. split; [|done]. by destruct (serve a _).
  - unfold logout. edestruct Hq as (w' & -> & ?). exists w'. split; [|done]. by destruct (serve a _).
  - destruct Ho as [-> Ho]. unfold loginActive. cbv [mbind client_bind mret client_ret reads]. rewrite (connect_listening a w Hw). cbn [negb]. rewrite Ho. cbn [negb].
    edestruct (call_listening a) as (w' & -> & Hw' & _); [done..|]. exists w'. split; [|done]. by destruct (serve a _).
  - unfold signRaw. cbv zeta. cbn in Ho. rewrite bool_decide_true by done. cbn [negb].
    edestruct Hq as (w' & -> & ?). exists w'. split; [|done]. by destruct (serve a _).
  - unfold decrypt. edestruct Hq as (w' & -> & ?). exists w'. split; [|done]. by destruct (serve a _).
  - unfold derive. edestruct Hq as (w' & -> & ?). exists w'. split; [|done]. by destruct (serve a _).
Qed.

(** The constructor is connected when the agent greets back. *)
Lemma construct_listening a version offered :
  serve a (Hello kProtocolVersion true) = HelloAck version offered →
  path setup ≠ ""%string → (String.length (path setup) < sunPathSize setup)%nat →
  Forall eventFits (before a) → Forall eventFits (after a) →
  requestFits 1 (Hello kProtocolVersion true) → replyFits 1 (HelloAck version offered) →
  listening a (construct setup a) ∧ features (impl (construct setup a)) = offered.
Proof.
  intros Hs Hp Hl Hb Ha Hreq Hrep. unfold construct, connect. cbv [mbind client_bind mret client_ret reads]. cbn [fd impl initial asks p_socket agent_peer peer log].
  destruct (String.eqb_spec (path setup) ""); [done|]. cbn [negb orb]. destruct (Nat.leb_spec (sunPathSize setup) (String.length (path setup))); [lia|].
  cbn [orb asks p_connect agent_peer peer impl log negb]. unfold checkPeer. cbv [mbind client_bind mret client_ret emit change asks].
  unfold setTimeout. cbv [mbind client_bind mret client_ret asks emit].
  destruct (hasPeerCheck setup); cbn [default from_option id negb p_check p_timeout agent_peer peer impl log]; rewrite <-Hs in Hrep;
    (match goal with |- context [call ?r ?secs ?w0] =>
       destruct (call_served a r secs [] [] w0) as [l Hc]; [done..|] end); rewrite Hc, Hs; cbn;
    (split; [|done]; split; [done|]; split; [done|]; by exists (after a)).
Qed.
End Honest.

(** ** What the client promises *)




(** The readers a snapshot reports, fresh or cached, are as the module's model of a token
    takes them: the certificates of a reader are those of one card, read with what that card
    asks before it is read, and a reader without a card has none. *)
Theorem snapshots_sound {ctx : Type} `{!Qcbor ctx} {P : Type} `{!AgentPeer P} (setup : Setup) (p : P) (calls : list Call) (busy : bool) :
  Forall sound (snapshot setup busy (performAll setup calls (construct setup p))).1.
Proof.
  destruct (performAll_reachable setup calls _ (construct_reachable setup p)) as [Hw _].
  apply (perform_reachable setup (CSnapshot busy)) in Hw as (_ & Hs & _). cbn [perform] in Hs. unfold answering in Hs.
  by destruct (snapshot setup busy _).
Qed.

(** Once the key of a certificate was answered it stays: every later question about that
    certificate, on any reader, gives that key, or the refusal for a key of another family,
    and sends nothing. *)
Theorem public_keys_stay {ctx : Type} `{!Qcbor ctx} {P : Type} `{!AgentPeer P} (setup : Setup) (p : P) (calls later : list Call)
    (reader reader' certId : string) (ty ty' : Key.KeyType) (key : CertPublicKey) (w' : World P) :
  publicKey setup reader certId ty (performAll setup calls (construct setup p)) = (Ok key, w') →
  publicKey setup reader' certId ty' (performAll setup later w') =
    (if bool_decide (familyOf key = ty') then Ok key else Err Cryptoki.NotSupported, performAll setup later w').
Proof.
  intros Hk. destruct (performAll_reachable setup calls _ (construct_reachable setup p)) as [(proto & Hr & Hb & Hs) _].
  destruct (performAll setup calls (construct setup p)) as [i pr lg]. cbn in Hr, Hb, Hs.
  destruct (publicKey_ok setup reader certId ty
    (λ a i' p', kept i i' p' ∧ ∀ k, a = Ok k → keyCache i' !! certId = Some k) i proto Hb) with pr lg
    as (p' & Hr' & [Hb' [_ Hs']] & Hkey); [by split|done|]. rewrite Hk in *. cbn in *.
  specialize (Hkey _ eq_refl). destruct (performAll_reachable setup later w') as [_ Hg].
  { exists p'. auto. }
  unfold publicKey. cbv [mbind client_bind mret client_ret reads]. rewrite (lookup_weaken _ _ _ _ Hkey Hg). by case_bool_decide.
Qed.

(** ** Concrete agents *)

Definition testSetup : Setup := mkSetup "/run/agent" defaultTimeouts true 108.
Definition testAgent : Agent :=
  mkAgent (λ r, match r with
                | Hello _ _ => HelloAck "1" ["login-state"]
                | PkSignRaw _ _ _ data => RawSignatureReply (data ++ [7])
                | PkPublicKey _ _ => PublicKey (RsaPublicKey [9] [3])
                | _ => AckReply
                end) [ReaderRemoved "r9"] [OpProgress 4 1].
Definition testWorld : World Agent := construct testSetup testAgent.

Definition signCall : Call := CSignRaw "r0" "c0" RawCrypto.RsaPkcs1Sign [1; 2].


Definition keyAsked : World Agent := (publicKey testSetup "r0" "c0" Key.Rsa testWorld).2.

Lemma public_keys_stay_witness :
  publicKey testSetup "r1" "c0" Key.Ec keyAsked = (Err Cryptoki.NotSupported, keyAsked).
Proof.
  refine (public_keys_stay testSetup testAgent [] [] "r0" "r1" "c0" Key.Rsa Key.Ec (Cryptoki.RsaPublicKey [9] [3]) keyAsked _).
  vm_compute. reflexivity.
Defined.

(** The sizes of a message are computed, and its bytes are read back. *)
Ltac fits n :=
  repeat match goal with
  | |- _ ∧ _ => split
  | |- isU64 _ = true => by vm_compute
  | |- requestInRange _ = true => by vm_compute
  | |- replyOk _ _ = true => by vm_compute
  | |- eventOk _ _ = true => by vm_compute
  | |- (_ ≤ _)%nat => by apply Nat.leb_le; vm_compute
  | |- carried _ => carried_by n
  | |- _ => exact I
  end.

Lemma testAgent_events : Forall eventFits (before testAgent) ∧ Forall eventFits (after testAgent).
Proof.
  split; (constructor; [|constructor]); unfold eventFits; [fits 3%nat|fits 4%nat].
Qed.

Lemma testWorld_listens : listening testAgent testWorld.
Proof.
  split; [by vm_compute|]. split; [by vm_compute|]. exists (after testAgent). split; [vm_compute; reflexivity|apply testAgent_events].
Qed.


(** An agent that gives these frames, one list per request, and then none. *)
#[local] Instance script_peer : AgentPeer (list (list Frame)) := {
  p_socket s := (true, s);
  p_connect _ s := (true, s);
  p_check s := (Some true, s);
  p_timeout _ s := (true, s);
  p_send _ s := match s with frames :: s => (Some frames, s) | [] => (Some [], []) end }.

Definition lostAgent : list (list Frame) :=
  [[replyFrame 1 (HelloAck "1" [])];
   [replyFrame 2 (StateReply
      [mkReaderState "r0" "Reader 0" true (Some "card/0") "" Iface.Unknown;
       mkReaderState "r1" "Reader 1" true (Some "card/1") "" Iface.Unknown] [])];
   [replyFrame 3 (OpStarted 9)]].

Definition lostSnapshot : list Token.ReaderState :=
  [Token.mkReader "r0" "Reader 0" true "Reader 0" "0" []; Token.mkReader "r1" "Reader 1" true "Reader 1" "1" []].

(** The connection is lost while the first card is read: the snapshot says that both cards are
    there and have no certificates, as of cards that were read, and it is kept for the callers
    that do not wait. *)
Example lost_connection_reads_as_empty_cards :
  let w := construct testSetup lostAgent in
  let '(snap, w') := snapshot testSetup false w in
  snap = lostSnapshot ∧ connected w' = false ∧ (snapshot testSetup true w').1 = lostSnapshot.
Proof. by vm_compute. Qed.
End AgentSocket.
