(* ===== verification/QtValues.v ===== *)
(** * Values of the Qt client

    Models what stands between the wire's values and the values an application of the Qt
    client sees: the conversions at the top of [client/qt/src/socket/SocketTransport.cpp],
    [ConfigKeyHelpers.h], [CscaAnchorMapping.h], [CertFieldsExtra.h], [CredentialTypes.cpp] and
    [IdentityRows.cpp].

    [QVariant] is its kinds the source makes. What Qt does when it converts one kind to
    another is a class ([VariantOps]); the theorems assume of it what Qt documents
    ([VariantLaws]). Conversions between [std::string] and [QString] are taken to keep the
    text. A date is what it was made from. *)
From stdpp Require Import gmap strings sorting pretty.
From S2P Require Import Prelude Framing Cbor Vocabulary Fields Messages ClientCodec.
Import Framing Cbor Vocabulary Fields Messages ClientCodec.
Local Open Scope Z_scope.

Module QtValues.

Inductive QVariant :=
| VInvalid | VBool (b : bool) | VInt (i : Z) | VUInt (u : Z) | VLongLong (i : Z) | VULongLong (u : Z) | VDouble (d : Z)
| VString (s : string) | VByteArray (b : list Z) | VStringList (l : list string) | VList (l : list QVariant)
| VMap (m : list (string * QVariant)).

Notation QVariantMap := (gmap string QVariant).

Inductive QDateTime := InvalidDate | FromSecsSinceEpoch (s : Z) | FromString (text : string).

(** The conversions of [QVariant] the source uses. *)
Class VariantOps := {
  toString_ : QVariant → string; toBool_ : QVariant → bool; toInt_ : QVariant → Z; toUInt_ : QVariant → Z;
  toLongLong_ : QVariant → Z; toULongLong_ : QVariant → Z; toDouble_ : QVariant → Z;
  toStringList_ : QVariant → list string; toList_ : QVariant → list QVariant; toMap_ : QVariant → QVariantMap }.

(** What Qt documents of them: a value of the kind is that value; numbers in range convert; a
    list of texts and a list of values convert to each other. *)
Class VariantLaws (variants : VariantOps) := {
  toString_string s : toString_ (VString s) = s;
  toBool_bool b : toBool_ (VBool b) = b;
  toInt_int i : toInt_ (VInt i) = i;
  toUInt_uint u : toUInt_ (VUInt u) = u;
  toUInt_long i : 0 ≤ i < 2 ^ 32 → toUInt_ (VLongLong i) = i;
  toLongLong_long i : toLongLong_ (VLongLong i) = i;
  toStringList_strings l : toStringList_ (VStringList l) = l;
  toStringList_list l : toStringList_ (VList (map VString l)) = l;
  toList_list l : toList_ (VList l) = l;
  toMap_map m : NoDup m.*1 → toMap_ (VMap m) = list_to_map m;
  of_nothing : toString_ VInvalid = ""%string ∧ toBool_ VInvalid = false ∧ toUInt_ VInvalid = 0 }.

(** [m.value(key)]: an absent key is an invalid value. *)
Definition valueOf (m : QVariantMap) (key : string) : QVariant := default VInvalid (m !! key).

(** The entries of a [std::map], in the order of its keys. *)
Definition keyLe (a b : string) : Prop := Is_true (String.leb a b).
Definition inKeyOrder {A} (m : gmap string A) : list (string * A) :=
  omap (λ k, pair k <$> m !! k) (merge_sort keyLe (map_to_list m).*1).

Fixpoint cborToVariant (value : CborValue) : QVariant :=
  match value with
  | CNull => VInvalid
  | CBool b => VBool b
  | CUInt u => VULongLong u
  | CInt i => VLongLong i
  | CDouble d => VDouble d
  | CText s => VString s
  | CBytes b => VByteArray b
  | CArray es => VList (map cborToVariant es)
  | CMap m => VMap (map (λ kv, (kv.1, cborToVariant kv.2)) m)
  end.

(** ** Readers and cards *)

Definition preAuthToken (preAuth : Z) : string :=
  if preAuth =? 0 then "None"
  else if preAuth =? 1 then "Mrz"
  else if preAuth =? 2 then "Can"
  else "Unknown" +:+ pretty preAuth.

Definition readerProps (reader : ReaderState) : QVariantMap :=
  {[ "Name" := VString (rs_name reader);
     "HasCard" := VBool (rs_hasCard reader);
     "Card" := VString (default "" (rs_card reader));
     "Model" := VString (rs_model reader);
     "Interface" := VString (Iface.readerInterfaceToken (rs_iface reader)) ]}%string.

Definition cardProps (card : CardState) : QVariantMap :=
  {[ "Capabilities" := VUInt (cs_caps card);
     "PreReadAuthMethod" := VString (preAuthToken (cs_preAuth card));
     "Reader" := VString (cs_reader card);
     "CardType" := VString (default "" (cs_cardType card));
     "Atr" := VString (default "" (cs_atr card)) ]}%string.

(** ** Identity *)

Definition kFieldExtraLabelKey : string := "labelKey".
Definition kFieldExtraLabelFallback : string := "labelFallback".
Definition kFieldExtraType : string := "type".
Definition kFieldTypeBinary : string := "binary".

Record Field := mkField { f_key : string; f_value : string; f_detail : QVariant; f_extra : QVariantMap }.
Record FieldGroup := mkGroup { g_key : string; g_fields : list Field }.

Definition bytesOfText (s : string) : list Z := map (λ c, Z.of_nat (Ascii.nat_of_ascii c)) (String.list_ascii_of_string s).

Definition toField (fieldKey : string) (cell : IdentityField) : Field :=
  let extra : QVariantMap :=
    {[ kFieldExtraLabelKey := VString (if_labelKey cell);
       kFieldExtraLabelFallback := VString (if_labelFallback cell);
       kFieldExtraType := VString (if_type cell) ]} in
  if String.eqb (if_type cell) kFieldTypeBinary then
    mkField fieldKey "" (VByteArray (match if_value cell with inr b => b | inl s => bytesOfText s end)) extra
  else mkField fieldKey (match if_value cell with inl s => s | inr _ => ""%string end) VInvalid extra.

Definition toFieldGroup (groupKey : string) (cells : gmap string IdentityField) : FieldGroup :=
  mkGroup groupKey (map (λ kv, toField kv.1 kv.2) (inKeyOrder cells)).

Definition toFieldGroups (result : gmap string (gmap string IdentityField)) : list FieldGroup :=
  map (λ kv, toFieldGroup kv.1 kv.2) (inKeyOrder result).

(** ** Certificates *)

Inductive TrustStatus := Trusted | Untrusted | Expired | Revoked | UnknownTrust.

Record CertificateInfo := mkCertificate {
  c_id : string; c_subject : string; c_issuer : string; c_notBefore : QDateTime; c_notAfter : QDateTime;
  c_signingCapable : bool; c_trust : TrustStatus; c_securityStatus : list string; c_keyUsageBits : Z;
  c_extendedKeyUsageOids : list string; c_chainSubjectCns : list string; c_extra : QVariantMap }.

Definition certFieldValue (cert : CertInfo) (group field : string) : string :=
  match ci_fields cert !! group with
  | None => ""
  | Some cells => match cells !! field with None => "" | Some cell => cf_value cell end
  end.

Definition securityTokens (cert : CertInfo) : list string :=
  match ci_fields cert !! "security"%string with
  | None => []
  | Some cells => map (λ kv, cf_value kv.2) (inKeyOrder cells)
  end.

Definition trustOf (status : Z) : TrustStatus :=
  if status =? 0 then Trusted
  else if (status =? 1) || (status =? 2) || (status =? 3) then Untrusted
  else if status =? 4 then Expired
  else if status =? 5 then Revoked
  else UnknownTrust.

(** [CertFieldsExtra]: [add], and [installInto] on an empty map. *)
Notation CertFieldsExtra := (gmap string QVariantMap).
Definition add (group field labelKey labelFallback value : string) (m : CertFieldsExtra) : CertFieldsExtra :=
  <[group := <[field := VList [VString labelKey; VString labelFallback; VString value]]> (default ∅ (m !! group))]> m.
Definition installInto (m : CertFieldsExtra) : QVariantMap :=
  if bool_decide (m = ∅) then ∅
  else {[ "fields"%string := VMap (map (λ kv, (kv.1, VMap (inKeyOrder kv.2))) (inKeyOrder m)) ]}.

Definition fieldsExtra (cert : CertInfo) : CertFieldsExtra :=
  foldl (λ m kv, foldl (λ m fc, add kv.1 fc.1 (cf_labelKey fc.2) (cf_labelFallback fc.2) (cf_value fc.2) m) m (inKeyOrder kv.2))
    ∅ (inKeyOrder (ci_fields cert)).

Definition toCertificateInfo (cert : CertInfo) : CertificateInfo :=
  mkCertificate (ci_certId cert) (certFieldValue cert "subject" "cn") (certFieldValue cert "issuer" "cn")
    (FromString (certFieldValue cert "validity" "notBefore")) (FromString (certFieldValue cert "validity" "notAfter"))
    (ci_signingCapable cert) (trustOf (ci_trustStatus cert)) (securityTokens cert) (ci_keyUsageBits cert) (ci_ekus cert)
    (ci_chainSubjectCns cert) (installInto (fieldsExtra cert)).

Definition toCertificateInfos (certs : list CertInfo) : list CertificateInfo := map toCertificateInfo certs.

(** ** Settings *)

Definition kConfigDefaultLevel : string := "DefaultLevel".
Definition kConfigDefaultReason : string := "DefaultReason".
Definition kConfigDefaultLocation : string := "DefaultLocation".
Definition kConfigTsaUrls : string := "TsaUrls".
Definition kConfigTslSources : string := "TslSources".
Definition kConfigLastTsaUrl : string := "LastTsaUrl".
Definition kConfigCscaAnchorState : string := "CscaAnchorState".
Definition kConfigTslCacheDir : string := "TslCacheDir".

Definition oneOf (names : list string) (name : string) : bool := existsb (String.eqb name) names.

Definition isSettableConfigKey (key : string) : bool :=
  oneOf [kConfigDefaultLevel; kConfigDefaultReason; kConfigDefaultLocation; kConfigTsaUrls; kConfigTslSources] key.
Definition isKnownConfigKey (key : string) : bool :=
  isSettableConfigKey key || oneOf [kConfigLastTsaUrl; kConfigCscaAnchorState; kConfigTslCacheDir] key.

Definition tslSourceRow (url : string) (isLotl eager : bool) : QVariant := VList [VString url; VBool isLotl; VBool eager].

Definition kCscaAnchorAnchors : string := "anchors".
Definition kCscaAnchorIssuers : string := "issuers".
Definition kCscaAnchorReplayRefusalActive : string := "replayRefusalActive".
Definition kCscaAnchorSigner : string := "signer".
Definition kCscaAnchorSignerPinned : string := "signerPinned".
Definition kCscaAnchorAcceptedAt : string := "acceptedAt".
Definition kCscaAnchorSignedAt : string := "signedAt".

Definition isKnownCscaAnchorKey (key : string) : bool :=
  oneOf [kCscaAnchorAnchors; kCscaAnchorIssuers; kCscaAnchorReplayRefusalActive; kCscaAnchorSigner; kCscaAnchorSignerPinned;
         kCscaAnchorAcceptedAt; kCscaAnchorSignedAt] key.

Record CscaAnchorState := mkAnchorState {
  as_anchors : Z; as_issuers : Z; as_replayRefusalActive : bool; as_signer : string; as_signerPinned : bool;
  as_acceptedAt : QDateTime; as_signedAt : QDateTime; as_extra : QVariantMap }.

(** [map.insert(key, …)] where the optional is engaged. *)
Definition insertSome (key : string) (v : option QVariant) (m : QVariantMap) : QVariantMap :=
  match v with Some v => <[key := v]> m | None => m end.

(** The dict [importCscaMasterList] makes of a reply. *)
Definition anchorDict (s : CscaAnchorStateReply) : QVariantMap :=
  let m : QVariantMap :=
    <[kCscaAnchorReplayRefusalActive := VBool (ca_replayRefusalActive s)]>
      (<[kCscaAnchorIssuers := VUInt (u32 (ca_issuers s))]> {[kCscaAnchorAnchors := VUInt (u32 (ca_anchors s))]}) in
  let m := insertSome kCscaAnchorSigner (VString <$> ca_signer s) m in
  let m := insertSome kCscaAnchorSignerPinned (VBool <$> ca_signerPinned s) m in
  let m := insertSome kCscaAnchorAcceptedAt (VLongLong <$> ca_acceptedAt s) m in
  insertSome kCscaAnchorSignedAt (VLongLong <$> ca_signedAt s) m.

Section Conversions.
Context {variants : VariantOps}.

Definition cscaAnchorTime (m : QVariantMap) (key : string) : QDateTime :=
  match m !! key with None => InvalidDate | Some v => FromSecsSinceEpoch (toLongLong_ v) end.

Definition normalizeMember (key : string) (v : QVariant) : QVariant :=
  if oneOf [kCscaAnchorAnchors; kCscaAnchorIssuers] key then VUInt (toUInt_ v)
  else if oneOf [kCscaAnchorReplayRefusalActive; kCscaAnchorSignerPinned] key then VBool (toBool_ v)
  else if oneOf [kCscaAnchorAcceptedAt; kCscaAnchorSignedAt] key then VLongLong (toLongLong_ v)
  else if String.eqb key kCscaAnchorSigner then VString (toString_ v)
  else v.

Definition normalizeCscaAnchorState (raw : QVariantMap) : QVariantMap := map_imap (λ k v, Some (normalizeMember k v)) raw.

Definition cscaAnchorStateFromMap (m : QVariantMap) : CscaAnchorState :=
  mkAnchorState (toUInt_ (valueOf m kCscaAnchorAnchors)) (toUInt_ (valueOf m kCscaAnchorIssuers))
    (toBool_ (valueOf m kCscaAnchorReplayRefusalActive)) (toString_ (valueOf m kCscaAnchorSigner))
    (toBool_ (valueOf m kCscaAnchorSignerPinned)) (cscaAnchorTime m kCscaAnchorAcceptedAt)
    (cscaAnchorTime m kCscaAnchorSignedAt) (filter (λ kv, isKnownCscaAnchorKey kv.1 = false) m).

(** An entry that is neither a map with a url nor a list of three is dropped. *)
Definition normalizeTslSource (entry : QVariant) : option QVariant :=
  match entry with
  | VMap _ =>
      let fields := toMap_ entry in
      match valueOf fields "url" with
      | VInvalid => None
      | url => Some (tslSourceRow (toString_ url) (toBool_ (valueOf fields "lotl")) (toBool_ (valueOf fields "eager")))
      end
  | _ =>
      match toList_ entry with
      | [url; lotl; eager] => Some (tslSourceRow (toString_ url) (toBool_ lotl) (toBool_ eager))
      | _ => None
      end
  end.

Definition normalizeTslSources (raw : QVariant) : QVariant := VList (omap normalizeTslSource (toList_ raw)).

(** The map of the anchor state, in the order of its keys. *)
Definition configValueToVariant (key : string) (value : CborValue) : QVariant :=
  let generic := cborToVariant value in
  if String.eqb key kConfigTslSources then normalizeTslSources generic
  else if String.eqb key kConfigCscaAnchorState then VMap (inKeyOrder (normalizeCscaAnchorState (toMap_ generic)))
  else if String.eqb key kConfigTsaUrls then VStringList (toStringList_ generic)
  else generic.

Definition configValueToCbor (key : string) (value : QVariant) : CborValue :=
  if String.eqb key kConfigTslSources then
    CArray (omap (λ row,
      match toList_ row with
      | [url; lotl; eager] => Some (CArray [CText (toString_ url); CBool (toBool_ lotl); CBool (toBool_ eager)])
      | _ => None
      end) (toList_ value))
  else if String.eqb key kConfigTsaUrls then CArray (map CText (toStringList_ value))
  else CText (toString_ value).

(** ** Options of a signature *)

Definition toVisualSignatureOpts (v : QVariantMap) : VisualSignatureOpts :=
  mkVisual (toULongLong_ (valueOf v "page")) (toDouble_ (valueOf v "x")) (toDouble_ (valueOf v "y"))
    (toDouble_ (valueOf v "width")) (toDouble_ (valueOf v "height")) (toString_ (valueOf v "text")).

(** The keys are disjoint, so their order does not matter; an unknown key is dropped. *)
Definition toSignOpts (options : QVariantMap) : SignOpts :=
  let text key := default ""%string (toString_ <$> options !! key) in
  mkSignOpts (text "format"%string)
    (match options !! "level"%string with Some v => toString_ v | None => "auto"%string end)
    (text "packaging"%string) (toBool_ <$> options !! "allowExpired"%string) (toString_ <$> options !! "displayName"%string)
    (toString_ <$> options !! "reason"%string) (toString_ <$> options !! "location"%string) (toString_ <$> options !! "tsaUrl"%string)
    ((λ v, toVisualSignatureOpts (toMap_ v)) <$> options !! "visualSignature"%string).

(** ** Credentials *)

Inductive CredentialKind := KindUser | KindSign | KindPuk | KindCan | KindUnknown.
Inductive CredentialState := StateUnknown | StateTransport | StateOperational | StateNeedsChange | StateBlocked.
Inductive RecoveryPath := RecoveryUnknown | HolderViaPuk | IssuerProcess | RecoveryNone.

Definition kindFrom (t : string) : CredentialKind :=
  if String.eqb t "user" then KindUser
  else if String.eqb t "sign" then KindSign
  else if String.eqb t "puk" then KindPuk
  else if String.eqb t "can" then KindCan
  else KindUnknown.

Definition stateFrom (t : string) : CredentialState :=
  if String.eqb t "transport" then StateTransport
  else if String.eqb t "operational" then StateOperational
  else if String.eqb t "needsChange" then StateNeedsChange
  else if String.eqb t "blocked" then StateBlocked
  else StateUnknown.

Definition recoveryFrom (t : string) : RecoveryPath :=
  if String.eqb t "holderViaPuk" then HolderViaPuk
  else if String.eqb t "issuerProcess" then IssuerProcess
  else if String.eqb t "none" then RecoveryNone
  else RecoveryUnknown.

Definition outcomeFrom (t : string) : Cred.CredentialOutcome :=
  if String.eqb t "ok" then Cred.Ok_
  else if String.eqb t "userCancelled" then Cred.UserCancelled
  else if String.eqb t "missingFields" then Cred.MissingFields
  else if String.eqb t "invalidPin" then Cred.InvalidPin
  else if String.eqb t "blocked" then Cred.Blocked
  else if String.eqb t "pluginError" then Cred.PluginError
  else if String.eqb t "unsupported" then Cred.Unsupported
  else if String.eqb t "keyActivationFailed" then Cred.KeyActivationFailed
  else if String.eqb t "cardRemoved" then Cred.CardRemoved
  else if String.eqb t "entryExpired" then Cred.EntryExpired
  else Cred.Unspecified.

Record CredentialRecord := mkRecord {
  r_id : string; r_label : string; r_kind : CredentialKind; r_state : CredentialState; r_retriesLeft : option Z;
  r_retriesMax : option Z; r_usesLeft : option Z; r_usesMax : option Z; r_unblocksLeft : option Z; r_canChange : bool;
  r_unblockable : bool; r_activatable : bool; r_keyActivationPending : bool; r_keyActivatable : bool; r_recovery : RecoveryPath;
  r_blockedGuidanceKey : option string; r_blockedGuidanceFallback : option string; r_keyActivationGuidanceKey : option string;
  r_keyActivationGuidanceFallback : option string; r_extra : QVariantMap }.

Record PinResult := mkPinResult { p_outcome : Cred.CredentialOutcome; p_retriesLeft : option Z; p_blocked : bool; p_extra : QVariantMap }.

Definition credOutcomeToken (outcome : Cred.CredentialOutcome) : string :=
  match outcome with
  | Cred.Unspecified => "unspecified"
  | Cred.Ok_ => "ok"
  | Cred.UserCancelled => "userCancelled"
  | Cred.MissingFields => "missingFields"
  | Cred.InvalidPin => "invalidPin"
  | Cred.Blocked => "blocked"
  | Cred.PluginError => "pluginError"
  | Cred.Unsupported => "unsupported"
  | Cred.KeyActivationFailed => "keyActivationFailed"
  | Cred.CardRemoved => "cardRemoved"
  | Cred.EntryExpired => "entryExpired"
  end.

Definition credResultToMap (result : CredentialOpResult) : QVariantMap :=
  let m : QVariantMap := {["outcome"%string := VString (credOutcomeToken (co_outcome result))]} in
  let m := insertSome "retries_left" (VInt <$> co_retriesLeft result) m in
  <["blocked"%string := VBool (co_blocked result)]> m.

Definition credRecordToMap (r : Messages.CredentialRecord) : QVariantMap :=
  let m : QVariantMap :=
    {[ "id" := VString (cr_id r); "label" := VString (cr_label r); "kind" := VString (cr_kind r); "state" := VString (cr_state r) ]}%string in
  let m := insertSome "retries_left" (VInt <$> cr_retriesLeft r) m in
  let m := insertSome "retries_max" (VInt <$> cr_retriesMax r) m in
  let m := insertSome "uses_left" (VInt <$> cr_usesLeft r) m in
  let m := insertSome "uses_max" (VInt <$> cr_usesMax r) m in
  let m := insertSome "unblocks_left" (VInt <$> cr_unblocksLeft r) m in
  let m := <["can_change"%string := VBool (cr_canChange r)]> m in
  let m := <["unblockable"%string := VBool (cr_unblockable r)]> m in
  let m := <["activatable"%string := VBool (cr_activatable r)]> m in
  let m := <["key_activation_pending"%string := VBool (cr_keyActivationPending r)]> m in
  let m := <["key_activatable"%string := VBool (cr_keyActivatable r)]> m in
  let m := <["recovery"%string := VString (cr_recovery r)]> m in
  let m := insertSome "blocked_guidance_key" (VString <$> cr_blockedGuidanceKey r) m in
  let m := insertSome "blocked_guidance_fallback" (VString <$> cr_blockedGuidanceFallback r) m in
  let m := insertSome "key_activation_guidance_key" (VString <$> cr_keyActivationGuidanceKey r) m in
  insertSome "key_activation_guidance_fallback" (VString <$> cr_keyActivationGuidanceFallback r) m.

Definition optInt (m : QVariantMap) (k : string) : option Z := toInt_ <$> m !! k.
Definition optStr (m : QVariantMap) (k : string) : option string := toString_ <$> m !! k.
Definition leftover (m : QVariantMap) (consumed : list string) : QVariantMap := filter (λ kv, oneOf consumed kv.1 = false) m.

Definition recordKeys : list string :=
  ["id"; "label"; "kind"; "state"; "retries_left"; "retries_max"; "uses_left"; "uses_max"; "unblocks_left"; "can_change";
   "unblockable"; "activatable"; "key_activation_pending"; "key_activatable"; "recovery"; "blocked_guidance_key";
   "blocked_guidance_fallback"; "key_activation_guidance_key"; "key_activation_guidance_fallback"].

Definition recordFromVariantMap (m : QVariantMap) : CredentialRecord :=
  let text k := toString_ (valueOf m k) in
  let flag k := toBool_ (valueOf m k) in
  mkRecord (text "id"%string) (text "label"%string) (kindFrom (text "kind"%string)) (stateFrom (text "state"%string))
    (optInt m "retries_left") (optInt m "retries_max") (optInt m "uses_left") (optInt m "uses_max") (optInt m "unblocks_left")
    (flag "can_change"%string) (flag "unblockable"%string) (flag "activatable"%string) (flag "key_activation_pending"%string)
    (flag "key_activatable"%string) (recoveryFrom (text "recovery"%string)) (optStr m "blocked_guidance_key")
    (optStr m "blocked_guidance_fallback") (optStr m "key_activation_guidance_key") (optStr m "key_activation_guidance_fallback")
    (leftover m recordKeys).

Definition pinResultFromVariantMap (m : QVariantMap) : PinResult :=
  mkPinResult (outcomeFrom (toString_ (valueOf m "outcome"))) (optInt m "retries_left") (toBool_ (valueOf m "blocked"))
    (leftover m ["outcome"; "retries_left"; "blocked"]%string).

(** ** Payloads *)

Inductive OperationKind := KIdentity | KPhoto | KCertificates | KSign | KCredentials | KBatchSign.

#[export] Instance OperationKind_eq_dec : EqDecision OperationKind.
Proof. solve_decision. Defined.

Record BatchSignRow := mkRow { row_displayName : string; row_artifact : Z; row_meta : QVariantMap; row_error : Z }.

(** [OperationPayload]: what the kind selects. A descriptor is one of the frame's, duplicated. *)
Inductive OperationPayload :=
| PIdentity (identity : list FieldGroup)
| PPhotos (photos : list (string * Z))
| PCertificates (certificates : list CertificateInfo)
| PSign (signedArtifact : Z) (signMeta : QVariantMap)
| PBatch (batchRows : list BatchSignRow)
| PCredentials (pinResult : PinResult) (credentials : list CredentialRecord).

Definition payloadKind (p : OperationPayload) : OperationKind :=
  match p with
  | PIdentity _ => KIdentity | PPhotos _ => KPhoto | PCertificates _ => KCertificates | PSign _ _ => KSign
  | PBatch _ => KBatchSign | PCredentials _ _ => KCredentials
  end.

(** [fds[static_cast<std::size_t>(index)]]; [None] is an access out of range. *)
Definition fdAt (fds : list Z) (index : Z) : option Z := fds !! Z.to_nat index.

Definition metaMap (m : SignMeta) : QVariantMap :=
  {[ "format" := VString (sm_format m); "level" := VString (sm_level m); "tsaUsed" := VBool (sm_tsaUsed m);
     "chainComplete" := VBool (sm_chainComplete m) ]}%string.

Definition toPayload (result : OpResult) (fds : list Z) : option OperationPayload :=
  match result with
  | IdentityResult fields => Some (PIdentity (toFieldGroups fields))
  | PhotoResult photos => PPhotos <$> mapM (λ p, fd ← fdAt fds (ph_fd p); Some (ph_key p, fd)) photos
  | CertListResult certs => Some (PCertificates (toCertificateInfos certs))
  | OpSignResult sign => fd ← fdAt fds (sr_artifact sign); Some (PSign fd (metaMap (sr_meta sign)))
  | SignBatchResult rows =>
      PBatch <$> mapM (λ r, fd ← fdAt fds (sb_artifact r); Some (mkRow (sb_displayName r) fd (metaMap (sb_meta r)) (sb_code r))) rows
  | CredentialsResult result records =>
      Some (PCredentials (pinResultFromVariantMap (credResultToMap result)) (map (λ r, recordFromVariantMap (credRecordToMap r)) records))
  end.

(** ** Rows *)

Record IdentityRow := mkIdentityRow { ir_groupKey : string; ir_fieldKey : string; ir_labelKey : string; ir_labelFallback : string; ir_value : string }.

Definition flattenIdentityFields (groups : list FieldGroup) : list IdentityRow :=
  groups ≫= λ group, omap (λ field,
    if String.eqb (toString_ (valueOf (f_extra field) kFieldExtraType)) kFieldTypeBinary then None
    else Some (mkIdentityRow (g_key group) (f_key field) (toString_ (valueOf (f_extra field) kFieldExtraLabelKey))
                 (toString_ (valueOf (f_extra field) kFieldExtraLabelFallback)) (f_value field))) (g_fields group).
End Conversions.

(** ** Maps in the order of their keys *)

#[export] Instance keyLe_dec : RelDecision keyLe := λ a b, _.

Lemma inKeyOrder_keys {A} (m : gmap string A) : (inKeyOrder m).*1 ≡ₚ (map_to_list m).*1.
Proof.
  unfold inKeyOrder. rewrite <-(merge_sort_Permutation keyLe (map_to_list m).*1) at 2.
  assert (∀ k, k ∈ merge_sort keyLe (map_to_list m).*1 → is_Some (m !! k)) as Hin.
  { intros k. rewrite merge_sort_Permutation, list_elem_of_fmap. intros ([k' v] & -> & H%elem_of_map_to_list). by eexists. }
  induction (merge_sort keyLe (map_to_list m).*1) as [|k l IH]; [done|]. cbn.
  destruct (Hin k) as [v ->]; [by left|]. cbn. rewrite IH; [done|]. intros k' Hk'. apply Hin. by right.
Qed.

Lemma elem_of_inKeyOrder {A} (m : gmap string A) k v : (k, v) ∈ inKeyOrder m ↔ m !! k = Some v.
Proof.
  unfold inKeyOrder. rewrite list_elem_of_omap. split.
  - intros (k' & _ & E). destruct (m !! k') eqn:Hk; cbn in E; congruence.
  - intros H. exists k. rewrite merge_sort_Permutation, list_elem_of_fmap, H. split; [|done]. exists (k, v). by rewrite elem_of_map_to_list.
Qed.

Lemma inKeyOrder_nodup {A} (m : gmap string A) : NoDup (inKeyOrder m).*1.
Proof. rewrite inKeyOrder_keys. apply NoDup_fst_map_to_list. Qed.

Lemma inKeyOrder_map {A} (m : gmap string A) : list_to_map (inKeyOrder m) = m.
Proof. apply map_eq. intros k. apply option_eq. intros v. rewrite <-elem_of_list_to_map by apply inKeyOrder_nodup. apply elem_of_inKeyOrder. Qed.

(** ** What is carried over *)

(** The rows an application shows: the fields of the card that are text, each with its label,
    and no others. *)
Section Carried.
Context {variants : VariantOps} {laws : VariantLaws variants}.

Lemma toString_extra (a b c : QVariant) :
  let m : QVariantMap := {[kFieldExtraLabelKey := a; kFieldExtraLabelFallback := b; kFieldExtraType := c]} in
  valueOf m kFieldExtraLabelKey = a ∧ valueOf m kFieldExtraLabelFallback = b ∧ valueOf m kFieldExtraType = c.
Proof. done. Qed.

Lemma rows_exact (result : gmap string (gmap string IdentityField)) (row : IdentityRow) :
  row ∈ flattenIdentityFields (toFieldGroups result) ↔
  ∃ cells cell, result !! ir_groupKey row = Some cells ∧ cells !! ir_fieldKey row = Some cell ∧ if_type cell ≠ kFieldTypeBinary ∧
    ir_labelKey row = if_labelKey cell ∧ ir_labelFallback row = if_labelFallback cell ∧
    ir_value row = match if_value cell with inl s => s | inr _ => ""%string end.
Proof.
  unfold flattenIdentityFields, toFieldGroups. rewrite list_elem_of_bind. split.
  - intros (g & Hrow & Hg). apply list_elem_of_fmap in Hg as ([gk cells] & -> & Hg%elem_of_inKeyOrder).
    apply list_elem_of_omap in Hrow as (f & Hf & Hrow). cbn in Hf. apply list_elem_of_fmap in Hf as ([fk cell] & -> & Hc%elem_of_inKeyOrder).
    unfold toField in Hrow. cbn [fst snd] in Hrow.
    destruct (String.eqb_spec (if_type cell) kFieldTypeBinary) as [Hb|Hb]; cbn [f_extra f_key f_value] in Hrow;
      destruct (toString_extra (VString (if_labelKey cell)) (VString (if_labelFallback cell)) (VString (if_type cell))) as (E1 & E2 & E3);
      cbv zeta in E1, E2, E3; rewrite E1, E2, E3, !toString_string in Hrow.
    + by rewrite Hb, String.eqb_refl in Hrow.
    + rewrite (proj2 (String.eqb_neq _ _) Hb) in Hrow. injection Hrow as <-. exists cells, cell. done.
  - intros (cells & cell & Hg & Hc & Hb & E1 & E2 & E3). exists (toFieldGroup (ir_groupKey row) cells). split.
    2: { apply list_elem_of_fmap. exists (ir_groupKey row, cells). split; [done|]. by apply elem_of_inKeyOrder. }
    apply list_elem_of_omap. exists (toField (ir_fieldKey row) cell). split.
    { apply list_elem_of_fmap. exists (ir_fieldKey row, cell). split; [done|]. by apply elem_of_inKeyOrder. }
    unfold toField. rewrite (proj2 (String.eqb_neq _ _) Hb). cbn [f_extra f_key f_value].
    destruct (toString_extra (VString (if_labelKey cell)) (VString (if_labelFallback cell)) (VString (if_type cell))) as (F1 & F2 & F3).
    cbv zeta in F1, F2, F3. rewrite F1, F2, F3, !toString_string, (proj2 (String.eqb_neq _ _) Hb). destruct row; cbn in *; by subst.
Qed.

(** *** Credentials *)

Lemma insertSome_same k v (m : QVariantMap) : m !! k = None → insertSome k v m !! k = v.
Proof. destruct v; unfold insertSome; [by rewrite lookup_insert_eq|done]. Qed.
Lemma insertSome_other k k' v (m : QVariantMap) : k ≠ k' → insertSome k v m !! k' = m !! k'.
Proof. destruct v; unfold insertSome; [by intros; rewrite lookup_insert_ne|done]. Qed.

(** A lookup in a map built key by key. *)
Ltac carried :=
  unfold credRecordToMap, credResultToMap, valueOf, anchorDict;
  repeat first [rewrite insertSome_other by done | rewrite lookup_insert_ne by done | rewrite lookup_insert_eq
               | rewrite lookup_singleton_eq | rewrite lookup_singleton_ne by done
               | rewrite insertSome_same by (repeat first [rewrite insertSome_other by done | rewrite lookup_insert_ne by done
                                                          | rewrite lookup_singleton_ne by done]; done)];
  cbn.

Lemma optInt_carried (o : option Z) : toInt_ <$> (VInt <$> o) = o.
Proof. destruct o; cbn; [by rewrite toInt_int|done]. Qed.
Lemma optStr_carried (o : option string) : toString_ <$> (VString <$> o) = o.
Proof. destruct o; cbn; [by rewrite toString_string|done]. Qed.

Lemma leftover_none (m : QVariantMap) keys : (∀ k, is_Some (m !! k) → oneOf keys k = true) → leftover m keys = ∅.
Proof.
  intros H. apply map_eq. intros k. rewrite lookup_empty. apply eq_None_not_Some. intros [v [Hv Hf]%map_lookup_filter_Some].
  cbn in Hf. rewrite H in Hf by by eexists. done.
Qed.

Lemma insertSome_keys k v (m : QVariantMap) (P : string → Prop) :
  P k → (∀ k, is_Some (m !! k) → P k) → ∀ k', is_Some (insertSome k v m !! k') → P k'.
Proof. destruct v; unfold insertSome; [|done]. intros Hk H k'. destruct (decide (k = k')) as [<-|]; [done|]. rewrite lookup_insert_ne by done. apply H. Qed.
Lemma insert_keys k v (m : QVariantMap) (P : string → Prop) :
  P k → (∀ k, is_Some (m !! k) → P k) → ∀ k', is_Some (<[k := v]> m !! k') → P k'.
Proof. intros Hk H. apply (insertSome_keys k (Some v) m P Hk H). Qed.

Ltac allKeys := repeat first [apply (insertSome_keys _ _ _ (λ k, oneOf _ k = true)); [done|] | apply (insert_keys _ _ _ (λ k, oneOf _ k = true)); [done|]].

Lemma record_carried (r : Messages.CredentialRecord) :
  recordFromVariantMap (credRecordToMap r) =
  mkRecord (cr_id r) (cr_label r) (kindFrom (cr_kind r)) (stateFrom (cr_state r)) (cr_retriesLeft r) (cr_retriesMax r) (cr_usesLeft r)
    (cr_usesMax r) (cr_unblocksLeft r) (cr_canChange r) (cr_unblockable r) (cr_activatable r) (cr_keyActivationPending r)
    (cr_keyActivatable r) (recoveryFrom (cr_recovery r)) (cr_blockedGuidanceKey r) (cr_blockedGuidanceFallback r)
    (cr_keyActivationGuidanceKey r) (cr_keyActivationGuidanceFallback r) ∅.
Proof.
  unfold recordFromVariantMap. f_equal; try (unfold optInt, optStr; carried; by rewrite ?toString_string, ?toBool_bool, ?optInt_carried, ?optStr_carried).
  apply leftover_none. unfold credRecordToMap. allKeys. intros k [v Hv]. by rewrite lookup_empty in Hv.
Qed.

Lemma outcome_carried (r : CredentialOpResult) :
  pinResultFromVariantMap (credResultToMap r) = mkPinResult (co_outcome r) (co_retriesLeft r) (co_blocked r) ∅.
Proof.
  unfold pinResultFromVariantMap. f_equal; try (unfold optInt; carried; by rewrite ?toString_string, ?toBool_bool, ?optInt_carried).
  - carried. rewrite toString_string. by destruct (co_outcome r).
  - apply leftover_none. unfold credResultToMap. allKeys. intros k [v Hv]. by rewrite lookup_empty in Hv.
Qed.

(** *** Settings *)

(** The values an application reads and writes under a settable key. *)
Definition canonicalValue (key : string) (v : QVariant) : Prop :=
  if String.eqb key kConfigTslSources then ∃ rows : list (string * bool * bool), v = VList (map (λ r, tslSourceRow r.1.1 r.1.2 r.2) rows)
  else if String.eqb key kConfigTsaUrls then ∃ urls, v = VStringList urls
  else ∃ s, v = VString s.

Lemma map_omap_some {A B} (f : A → option B) (g : A → B) l : (∀ a, f a = Some (g a)) → omap f l = map g l.
Proof. intros H. induction l as [|a l IH]; cbn; [done|]. by rewrite H, IH. Qed.

Lemma tslRow_back (r : string * bool * bool) :
  normalizeTslSource (cborToVariant (CArray [CText r.1.1; CBool r.1.2; CBool r.2])) = Some (tslSourceRow r.1.1 r.1.2 r.2).
Proof. cbn. by rewrite toList_list, toString_string, !toBool_bool. Qed.

Lemma tslRows_sent (rows : list (string * bool * bool)) :
  configValueToCbor kConfigTslSources (VList (map (λ r, tslSourceRow r.1.1 r.1.2 r.2) rows)) =
  CArray (map (λ r, CArray [CText r.1.1; CBool r.1.2; CBool r.2]) rows).
Proof.
  unfold configValueToCbor. rewrite String.eqb_refl, toList_list. f_equal. induction rows as [|[[url lotl] eager] rows IH]; [done|].
  cbn [map omap list_omap]. unfold tslSourceRow at 1. cbn [fst snd]. by rewrite toList_list, toString_string, !toBool_bool, IH.
Qed.

Lemma value_back (key : string) (v : QVariant) :
  isSettableConfigKey key = true → canonicalValue key v → configValueToVariant key (configValueToCbor key v) = v.
Proof.
  intros Hs. unfold canonicalValue. destruct (String.eqb_spec key kConfigTslSources) as [->|Hl].
  { intros [rows ->]. rewrite tslRows_sent. unfold configValueToVariant. rewrite String.eqb_refl. unfold normalizeTslSources.
    cbn [cborToVariant]. rewrite toList_list. f_equal. rewrite map_map. induction rows as [|r rows IH]; [done|].
    cbn [map omap list_omap]. rewrite tslRow_back. by rewrite IH. }
  assert (String.eqb key kConfigCscaAnchorState = false) as Hc.
  { destruct (String.eqb_spec key kConfigCscaAnchorState) as [->|]; [by vm_compute in Hs|done]. }
  destruct (String.eqb_spec key kConfigTsaUrls) as [->|Hu].
  { intros [urls ->]. unfold configValueToCbor, configValueToVariant. cbn. rewrite toStringList_strings, map_map. cbn. by rewrite toStringList_list. }
  intros [s ->]. unfold configValueToCbor, configValueToVariant.
  by rewrite (proj2 (String.eqb_neq _ _) Hl), Hc, (proj2 (String.eqb_neq _ _) Hu), toString_string.
Qed.

(** Normalising keeps the keys, and what it gives it keeps. *)
Lemma normalize_dom (m : QVariantMap) : dom (normalizeCscaAnchorState m) = dom m.
Proof. apply set_eq. intros k. rewrite !elem_of_dom. unfold normalizeCscaAnchorState. rewrite map_lookup_imap. destruct (m !! k); cbn; [|done]. split; by eexists. Qed.

Lemma normalizeMember_again k v : normalizeMember k (normalizeMember k v) = normalizeMember k v.
Proof.
  unfold normalizeMember. destruct (oneOf [kCscaAnchorAnchors; _] k); [by rewrite toUInt_uint|].
  destruct (oneOf [kCscaAnchorReplayRefusalActive; _] k); [by rewrite toBool_bool|].
  destruct (oneOf [kCscaAnchorAcceptedAt; _] k); [by rewrite toLongLong_long|].
  destruct (String.eqb k _); [by rewrite toString_string|done].
Qed.

Lemma normalize_again m : normalizeCscaAnchorState (normalizeCscaAnchorState m) = normalizeCscaAnchorState m.
Proof.
  apply map_eq. intros k. unfold normalizeCscaAnchorState. rewrite !map_lookup_imap. destruct (m !! k); cbn; [|done].
  by rewrite normalizeMember_again.
Qed.

(** A state is read from its dict as it is from the normalised one. *)
Lemma state_normalized m : cscaAnchorStateFromMap m = cscaAnchorStateFromMap (normalizeCscaAnchorState m).
Proof.
  unfold cscaAnchorStateFromMap.
  assert (∀ k, normalizeCscaAnchorState m !! k = normalizeMember k <$> m !! k) as E.
  { intros k. unfold normalizeCscaAnchorState. rewrite map_lookup_imap. by destruct (m !! k). }
  destruct of_nothing as (N1 & N2 & N3).
  f_equal; unfold valueOf, cscaAnchorTime; rewrite ?E.
  1,2: destruct (m !! _); cbn; by rewrite ?toUInt_uint.
  1,3: destruct (m !! _); cbn; by rewrite ?toBool_bool.
  1: destruct (m !! _); cbn; by rewrite ?toString_string.
  1,2: destruct (m !! _); cbn; by rewrite ?toLongLong_long.
  apply map_eq. intros k. apply option_eq. intros v. rewrite !map_lookup_filter_Some, E. cbn.
  assert (isKnownCscaAnchorKey k = false → ∀ v, normalizeMember k v = v) as Hk.
  { unfold isKnownCscaAnchorKey, normalizeMember, oneOf. cbn. rewrite !orb_false_iff. intros (-> & -> & -> & -> & -> & -> & -> & _). done. }
  split; intros [Hv Hn]; (split; [|done]).
  - rewrite Hv. cbn. by rewrite Hk.
  - destruct (m !! k); [|done]. cbn in Hv. by rewrite Hk in Hv.
Qed.

Lemma sortedKeys_nodup (m : Map) : sortedKeys m = true → NoDup m.*1.
Proof.
  induction m as [|[k v] m IH]; cbn; [constructor|]. intros [Hk Hm]%andb_true_iff. constructor; [|by apply IH].
  intros ([k' v'] & -> & Hin)%list_elem_of_fmap. cbn in Hk. rewrite forallb_forall in Hk. apply list_elem_of_In in Hin.
  specialize (Hk _ Hin). cbn in Hk. by rewrite keyLess_irrefl in Hk.
Qed.

Lemma toMap_cbor (m : Map) k : sortedKeys m = true → toMap_ (cborToVariant (CMap m)) !! k = cborToVariant <$> mapFind k m.
Proof.
  intros Hs. cbn [cborToVariant]. rewrite toMap_map.
  2: { change (NoDup (fst <$> ((λ kv, (kv.1, cborToVariant kv.2)) <$> m))). rewrite <-list_fmap_compose. by apply sortedKeys_nodup. }
  clear Hs. induction m as [|[k' v] m IH]; [done|]. cbn [map list_to_map foldr uncurry mapFind fst snd].
  destruct (String.eqb_spec k' k) as [->|Hne]; [by rewrite lookup_insert_eq|]. rewrite lookup_insert_ne by done. apply IH.
Qed.

Lemma anchors_undated (a : CscaAnchorStateReply) :
  insertSome kCscaAnchorAcceptedAt (VLongLong <$> ca_acceptedAt a) (insertSome kCscaAnchorSignerPinned (VBool <$> ca_signerPinned a)
    (insertSome kCscaAnchorSigner (VString <$> ca_signer a) (<[kCscaAnchorReplayRefusalActive := VBool (ca_replayRefusalActive a)]>
      (<[kCscaAnchorIssuers := VUInt (u32 (ca_issuers a))]> {[kCscaAnchorAnchors := VUInt (u32 (ca_anchors a))]})))) !! kCscaAnchorSignedAt = None.
Proof. by carried. Qed.

(** The members of the state on the wire, as the dict of the reply has them. *)
Lemma anchors_read (a : CscaAnchorStateReply) :
  0 ≤ ca_anchors a < 2 ^ 32 → 0 ≤ ca_issuers a < 2 ^ 32 →
  normalizeCscaAnchorState (toMap_ (cborToVariant (CMap (encodeCscaAnchorState a)))) = anchorDict a.
Proof.
  intros Ha Hi. assert (∀ u, 0 ≤ u < 2 ^ 32 → cborToVariant (uint u) = VLongLong u) as Hu.
  { intros u Hu. unfold uint. by rewrite (proj2 (Z.leb_le u INT64_MAX)) by (unfold INT64_MAX; lia). }
  apply map_eq. intros k. unfold normalizeCscaAnchorState, encodeCscaAnchorState.
  rewrite map_lookup_imap, toMap_cbor, mapFind_fields by by apply emplaceAll_sorted.
  cbn [assoc]. unfold anchorDict, normalizeMember.
  repeat match goal with |- context [String.eqb ?c k] => destruct (String.eqb_spec c k) as [<-|]; [| ] end.
  all: carried; try done.
  - by rewrite Hu, toUInt_long, (wrap_small 32) by lia.
  - by rewrite Hu, toUInt_long, (wrap_small 32) by lia.
  - by rewrite toBool_bool.
  - destruct (ca_signer a); cbn; by rewrite ?toString_string.
  - destruct (ca_signerPinned a); cbn; by rewrite ?toBool_bool.
  - destruct (ca_acceptedAt a); cbn; by rewrite ?toLongLong_long.
  - destruct (ca_signedAt a); cbn; by rewrite ?toLongLong_long.
Qed.
End Carried.

(** The settings an application reads are those it wrote: a value of a settable key in the
    form the client promises comes back as it was sent, and the state of the anchors is the
    same dict whether it is read as a setting or as the reply to an import, so that a date the
    list does not have stays absent on both ways. *)
Theorem settings_carried {variants : VariantOps} {laws : VariantLaws variants} :
  (∀ key v, isSettableConfigKey key = true → canonicalValue key v → configValueToVariant key (configValueToCbor key v) = v) ∧
  (∀ a, 0 ≤ ca_anchors a < 2 ^ 32 → 0 ≤ ca_issuers a < 2 ^ 32 →
    let setting := configValueToVariant kConfigCscaAnchorState (CMap (encodeCscaAnchorState a)) in
    setting = VMap (inKeyOrder (anchorDict a)) ∧
    cscaAnchorStateFromMap (toMap_ setting) = cscaAnchorStateFromMap (anchorDict a) ∧
    (as_signedAt (cscaAnchorStateFromMap (toMap_ setting)) = InvalidDate ↔ ca_signedAt a = None)).
Proof.
  split; [apply value_back|]. intros a Ha Hi. cbv zeta.
  assert (configValueToVariant kConfigCscaAnchorState (CMap (encodeCscaAnchorState a)) = VMap (inKeyOrder (anchorDict a))) as E.
  { unfold configValueToVariant. cbn [String.eqb Ascii.eqb kConfigCscaAnchorState kConfigTslSources Bool.eqb]. by rewrite anchors_read. }
  rewrite E, toMap_map, inKeyOrder_map by apply inKeyOrder_nodup. split; [done|]. split; [done|].
  unfold cscaAnchorStateFromMap, cscaAnchorTime, anchorDict. cbn [as_signedAt]. rewrite insertSome_same by apply anchors_undated.
  by destruct (ca_signedAt a).
Qed.

(** ** Conversions for concrete runs *)

Definition plainVariants : VariantOps := {|
  toString_ v := match v with VString s => s | _ => ""%string end; toBool_ v := match v with VBool b => b | _ => false end;
  toInt_ v := match v with VInt i => i | _ => 0 end; toUInt_ v := match v with VUInt u => u | VLongLong i => u32 i | _ => 0 end;
  toLongLong_ v := match v with VLongLong i => i | _ => 0 end; toULongLong_ v := match v with VULongLong u => u | _ => 0 end;
  toDouble_ v := match v with VDouble d => d | _ => 0 end;
  toStringList_ v := match v with VStringList l => l | VList l => omap (λ v, match v with VString s => Some s | _ => None end) l | _ => [] end;
  toList_ v := match v with VList l => l | _ => [] end;
  toMap_ v := match v with VMap m => list_to_map m | _ => ∅ end |}.

Lemma plainVariants_laws : VariantLaws plainVariants.
Proof.
  split; try done.
  - intros i Hi. cbn. by rewrite (wrap_small 32) by lia.
  - intros l. cbn. induction l as [|s l IH]; [done|]. cbn. by rewrite IH.
Qed.

Definition sampleSources : QVariant := VList [tslSourceRow "https://lotl" true false; tslSourceRow "https://tl" false true].
Definition sampleAnchors : CscaAnchorStateReply := mkCscaAnchorState 500 90 true (Some "ab"%string) (Some false) (Some 7) None.

Lemma settings_carried_witness :
  configValueToVariant (variants := plainVariants) kConfigTslSources (configValueToCbor (variants := plainVariants) kConfigTslSources sampleSources) = sampleSources ∧
  as_signedAt (cscaAnchorStateFromMap (variants := plainVariants) (toMap_ (VariantOps := plainVariants)
    (configValueToVariant (variants := plainVariants) kConfigCscaAnchorState (CMap (encodeCscaAnchorState sampleAnchors))))) = InvalidDate.
Proof.
  pose proof (@settings_carried plainVariants plainVariants_laws) as [H1 H2]. split.
  - apply H1; [reflexivity|]. exists [("https://lotl", true, false); ("https://tl", false, true)]%string. reflexivity.
  - apply H2; [by vm_compute|by vm_compute|reflexivity].
Defined.
End QtValues.
