(* ===== verification/SecurityChecks.v ===== *)
(** * The security checks of a document

    Models [client/qt/src/SecurityChecks.cpp]: a group of fields that are verdicts is
    separated into one entry for each check and the aggregates. A check is a family of fields
    [check_<N>_<suffix>], or in the older form one field with the status and the detail in its
    value.

    The number of a check is decimal digits; [QChar::isDigit] takes other digits too, but a
    number with one does not convert and the key is then none of a check. *)
From Stdlib Require Import Ascii.
From stdpp Require Import gmap strings sorting.
From S2P Require Import Prelude QtValues.
Import QtValues.
Local Open Scope Z_scope.

Module SecurityChecks.

Definition startsWith (prefix s : string) : bool := String.prefix prefix s.
Definition endsWith (suffix s : string) : bool :=
  (String.length suffix <=? String.length s)%nat &&
  String.eqb (String.substring (String.length s - String.length suffix) (String.length suffix) s) suffix.
Definition mid (n : nat) (s : string) : string := String.substring n (String.length s - n) s.

Definition isDigit (c : Ascii.ascii) : bool :=
  let n := Ascii.nat_of_ascii c in (48 <=? n)%nat && (n <=? 57)%nat.

(** The leading digits, and what follows them. *)
Fixpoint spanDigits (s : string) : string * string :=
  match s with
  | String c rest => if isDigit c then let '(ds, after) := spanDigits rest in (String c ds, after) else (""%string, s)
  | EmptyString => (""%string, ""%string)
  end.

Fixpoint number (s : string) (n : Z) : Z :=
  match s with
  | String c rest => number rest (10 * n + (Z.of_nat (Ascii.nat_of_ascii c) - 48))
  | EmptyString => n
  end.

Record CheckFieldKey := mkKey { k_ordinal : string; k_order : Z; k_suffix : string }.

Definition kCheckPrefix : string := "check_".
Definition kAggregateOverallPrefix : string := "overall_".
Definition kAggregateAnnexPrefix : string := "annex_".

Definition parseCheckFieldKey (fieldKey : string) : option CheckFieldKey :=
  if negb (startsWith kCheckPrefix fieldKey) then None
  else
    let '(ordinal, after) := spanDigits (mid (String.length kCheckPrefix) fieldKey) in
    match ordinal, after with
    | EmptyString, _ => None
    | _, String "_"%char suffix =>
        if String.eqb suffix "" then None
        else if number ordinal 0 <? 2 ^ 64 then Some (mkKey ordinal (number ordinal 0) suffix)
        else None
    | _, _ => None
    end.

Definition isAggregateKey (fieldKey : string) : bool :=
  startsWith kAggregateOverallPrefix fieldKey || startsWith kAggregateAnnexPrefix fieldKey.

Record SecurityCheckEntry := mkEntry {
  e_ordinal : string; e_id : string; e_category : string; e_status : string; e_label : string; e_detail : string;
  e_error : string; e_reason : string }.

Definition noEntry : SecurityCheckEntry := mkEntry "" "" "" "" "" "" "" "".
Definition setOrdinal (v : string) (e : SecurityCheckEntry) : SecurityCheckEntry :=
  mkEntry v (e_id e) (e_category e) (e_status e) (e_label e) (e_detail e) (e_error e) (e_reason e).

(** [None]: there is no member for the suffix. *)
Definition assignSuffix (e : SecurityCheckEntry) (suffix value : string) : option SecurityCheckEntry :=
  if String.eqb suffix "id" then Some (mkEntry (e_ordinal e) value (e_category e) (e_status e) (e_label e) (e_detail e) (e_error e) (e_reason e))
  else if String.eqb suffix "category" then Some (mkEntry (e_ordinal e) (e_id e) value (e_status e) (e_label e) (e_detail e) (e_error e) (e_reason e))
  else if String.eqb suffix "status" then Some (mkEntry (e_ordinal e) (e_id e) (e_category e) value (e_label e) (e_detail e) (e_error e) (e_reason e))
  else if String.eqb suffix "label" then Some (mkEntry (e_ordinal e) (e_id e) (e_category e) (e_status e) value (e_detail e) (e_error e) (e_reason e))
  else if String.eqb suffix "detail" then Some (mkEntry (e_ordinal e) (e_id e) (e_category e) (e_status e) (e_label e) value (e_error e) (e_reason e))
  else if String.eqb suffix "error" then Some (mkEntry (e_ordinal e) (e_id e) (e_category e) (e_status e) (e_label e) (e_detail e) value (e_reason e))
  else if String.eqb suffix "reason" then Some (mkEntry (e_ordinal e) (e_id e) (e_category e) (e_status e) (e_label e) (e_detail e) (e_error e) value)
  else None.

(** What is before the first blank, and what is after it. *)
Fixpoint splitBlank (s : string) : option (string * string) :=
  match s with
  | EmptyString => None
  | String " "%char rest => Some (""%string, rest)
  | String c rest => match splitBlank rest with Some (a, b) => Some (String c a, b) | None => None end
  end.

Definition unwrapped (detail : string) : string :=
  if (2 <=? String.length detail)%nat && startsWith "(" detail && endsWith ")" detail
  then String.substring 1 (String.length detail - 2) detail else detail.

Section Checks.
Context {variants : VariantOps}.

Definition joinedCheck (field : Field) : SecurityCheckEntry :=
  let label := toString_ (valueOf (f_extra field) kFieldExtraLabelFallback) in
  match splitBlank (f_value field) with
  | None => mkEntry "" (f_key field) "" (f_value field) label "" "" ""
  | Some (status, detail) => mkEntry "" (f_key field) "" status label (unwrapped detail) "" ""
  end.

Definition isSecurityVerdictGroup (groupKey : string) : bool :=
  String.eqb groupKey "security_status" || (startsWith "annex." groupKey && endsWith ".security" groupKey).

Record CheckSlot := mkSlot { s_order : Z; s_entry : SecurityCheckEntry }.
Record SecurityVerdict := mkVerdict { checks : list SecurityCheckEntry; aggregates : list Field }.

(** The state of the loop over the fields. *)
Record Sorting := mkSorting { checkSlots : list CheckSlot; slotByOrdinal : gmap string nat; aside : list Field }.

Definition separateNext (structured : bool) (s : Sorting) (field : Field) : Sorting :=
  let toAggregates := mkSorting (checkSlots s) (slotByOrdinal s) (aside s ++ [field]) in
  if negb structured then
    if isAggregateKey (f_key field) then toAggregates
    else mkSorting (checkSlots s ++ [mkSlot (zlen (checkSlots s)) (joinedCheck field)]) (slotByOrdinal s) (aside s)
  else
    match parseCheckFieldKey (f_key field) with
    | None => toAggregates
    | Some parsed =>
        match slotByOrdinal s !! k_ordinal parsed with
        | None =>
            match assignSuffix noEntry (k_suffix parsed) (f_value field) with
            | None => s
            | Some entry =>
                mkSorting (checkSlots s ++ [mkSlot (k_order parsed) (setOrdinal (k_ordinal parsed) entry)])
                  (<[k_ordinal parsed := length (checkSlots s)]> (slotByOrdinal s)) (aside s)
            end
        | Some known =>
            mkSorting (alter (λ slot, mkSlot (s_order slot)
                          (default (s_entry slot) (assignSuffix (s_entry slot) (k_suffix parsed) (f_value field)))) known (checkSlots s))
              (slotByOrdinal s) (aside s)
        end
    end.

(** [std::stable_sort]: each slot goes after those that are not above it. *)
Fixpoint insertSlot (x : CheckSlot) (l : list CheckSlot) : list CheckSlot :=
  match l with
  | [] => [x]
  | y :: rest => if s_order x <? s_order y then x :: l else y :: insertSlot x rest
  end.
Definition stableSort (l : list CheckSlot) : list CheckSlot := foldl (λ sorted x, insertSlot x sorted) [] l.

Definition isStructured (fields : list Field) : bool :=
  existsb (λ field, bool_decide (is_Some (parseCheckFieldKey (f_key field)))) fields.

Definition separateSecurityChecks (group : FieldGroup) : SecurityVerdict :=
  if negb (isSecurityVerdictGroup (g_key group)) then mkVerdict [] (g_fields group)
  else
    let s := foldl (separateNext (isStructured (g_fields group))) (mkSorting [] ∅ []) (g_fields group) in
    mkVerdict (map s_entry (stableSort (checkSlots s))) (aside s).
End Checks.

Inductive SecurityCheckStatus := Passed | Failed_ | NotPerformed | NotSupported_ | Skipped.
Inductive SecurityCategory := DataIntegrity | Authenticity | Genuineness | Other.

Definition statusFromString (token : string) : option SecurityCheckStatus :=
  if String.eqb token "PASSED" then Some Passed
  else if String.eqb token "FAILED" then Some Failed_
  else if String.eqb token "NOT_PERFORMED" then Some NotPerformed
  else if String.eqb token "NOT_SUPPORTED" then Some NotSupported_
  else if String.eqb token "SKIPPED" then Some Skipped
  else None.

Definition categoryFromString (token : string) : option SecurityCategory :=
  if String.eqb token "data_integrity" then Some DataIntegrity
  else if String.eqb token "data_authenticity" then Some Authenticity
  else if String.eqb token "chip_genuineness" then Some Genuineness
  else if String.eqb token "other" then Some Other
  else None.

(** ** What a check is *)

Definition keyOf (n suffix : string) : string := kCheckPrefix +:+ n +:+ "_" +:+ suffix.

Definition has (fields : list Field) (key : string) : bool := existsb (λ f, String.eqb (f_key f) key) fields.
Definition valueAt (fields : list Field) (key : string) : string :=
  match List.find (λ f, String.eqb (f_key f) key) fields with Some f => f_value f | None => "" end.

(** The check with the number, as its fields have it; a field that is absent is empty. *)
Definition checkAt (fields : list Field) (n : string) : SecurityCheckEntry :=
  let member suffix := valueAt fields (keyOf n suffix) in
  mkEntry n (member "id"%string) (member "category"%string) (member "status"%string) (member "label"%string) (member "detail"%string)
    (member "error"%string) (member "reason"%string).

Definition suffixes : list string := ["id"; "category"; "status"; "label"; "detail"; "error"; "reason"].

(** There is a field of the check that has a member. *)
Definition opened (fields : list Field) (n : string) : bool := existsb (λ suffix, has fields (keyOf n suffix)) suffixes.

Fixpoint allDigits (s : string) : bool := match s with String c rest => isDigit c && allDigits rest | EmptyString => true end.
Definition isOrdinal (n : string) : Prop := n ≠ ""%string ∧ allDigits n = true ∧ number n 0 < 2 ^ 64.

(** *** Keys *)

Lemma prefix_cons c c' p s : String.prefix (String c p) (String c' s) = if Ascii.ascii_dec c c' then String.prefix p s else false.
Proof. reflexivity. Qed.
Lemma app_cons c p r : String c p +:+ r = String c (p +:+ r).
Proof. reflexivity. Qed.

Lemma startsWith_app p r : startsWith p (p +:+ r) = true.
Proof.
  unfold startsWith. induction p as [|c p IH]; [by destruct r|]. rewrite app_cons, prefix_cons. by destruct (Ascii.ascii_dec c c).
Qed.

Lemma startsWith_inv p s : startsWith p s = true → ∃ r, s = p +:+ r.
Proof.
  unfold startsWith. revert s. induction p as [|c p IH]; intros s; [by eexists|]. destruct s as [|c' s]; [done|].
  rewrite prefix_cons. destruct (Ascii.ascii_dec c c') as [<-|]; [|done]. intros [r ->]%IH. by exists r.
Qed.

Lemma substring_whole r : String.substring 0 (String.length r) r = r.
Proof. induction r as [|c r IH]; cbn; [done|]. by rewrite IH. Qed.

Lemma mid_app p r : mid (String.length p) (p +:+ r) = r.
Proof.
  unfold mid. replace (String.length (p +:+ r) - String.length p)%nat with (String.length r).
  - induction p as [|c p IH]; [apply substring_whole|]. rewrite app_cons. exact IH.
  - induction p as [|c p IH]; [change ("" +:+ r) with r; cbn; lia|]. rewrite app_cons. exact IH.
Qed.

Lemma spanDigits_inv s : let '(ds, after) := spanDigits s in s = ds +:+ after ∧ allDigits ds = true.
Proof.
  induction s as [|c s IH]; [done|]. cbn. destruct (isDigit c) eqn:E; [|done]. destruct (spanDigits s) as [ds after]. cbn.
  destruct IH as [-> ->]. by rewrite E.
Qed.

Lemma spanDigits_app ds suffix : allDigits ds = true → spanDigits (ds +:+ String "_"%char suffix) = (ds, String "_"%char suffix).
Proof.
  induction ds as [|c ds IH]; [done|]. rewrite app_cons. cbn [allDigits spanDigits]. intros [-> Hds]%andb_true_iff. by rewrite IH.
Qed.

Lemma parse_inv k p : parseCheckFieldKey k = Some p →
  k = keyOf (k_ordinal p) (k_suffix p) ∧ k_order p = number (k_ordinal p) 0 ∧ isOrdinal (k_ordinal p).
Proof.
  unfold parseCheckFieldKey. destruct (startsWith kCheckPrefix k) eqn:Hs; cbn [negb]; [|done]. apply startsWith_inv in Hs as [r ->].
  rewrite mid_app. pose proof (spanDigits_inv r) as Hr. destruct (spanDigits r) as [ds after]. destruct Hr as [-> Hds].
  destruct ds as [|c ds]; [done|]. destruct after as [|u suffix]; [done|]. revert Hds.
  destruct (Ascii.ascii_dec u "_"%char) as [->|Hne].
  2: { intros _. destruct u as [[] [] [] [] [] [] [] []]; done. }
  intros Hds. destruct (String.eqb suffix ""); [done|]. destruct (number (String c ds) 0 <? 2 ^ 64) eqn:Hn; [|done].
  intros [= <-]. split; [done|]. split; [done|]. split; [done|]. split; [done|]. cbn [k_ordinal]. by apply Z.ltb_lt.
Qed.

Lemma parse_key n suffix : isOrdinal n → suffix ≠ ""%string →
  parseCheckFieldKey (keyOf n suffix) = Some (mkKey n (number n 0) suffix).
Proof.
  intros (Hn & Hd & Hb) Hs. unfold parseCheckFieldKey, keyOf. rewrite startsWith_app, mid_app. cbn [negb].
  change ("_" +:+ suffix) with (String "_"%char suffix). rewrite spanDigits_app by done. destruct n as [|c n]; [done|].
  rewrite (proj2 (String.eqb_neq _ _) Hs). apply Z.ltb_lt in Hb. by rewrite Hb.
Qed.

Lemma suffix_nonempty suffix : suffix ∈ suffixes → suffix ≠ ""%string.
Proof. intros Hin ->. apply list_elem_of_In in Hin. cbn in Hin. intuition discriminate. Qed.

(** *** One more field *)

Section Runs.
Context {variants : VariantOps}.

Lemma has_snoc fs f k : has (fs ++ [f]) k = has fs k || String.eqb (f_key f) k.
Proof. unfold has. rewrite existsb_app. cbn. by rewrite orb_false_r. Qed.

Lemma valueAt_snoc fs f k : has fs (f_key f) = false →
  valueAt (fs ++ [f]) k = if String.eqb (f_key f) k then f_value f else valueAt fs k.
Proof.
  unfold valueAt, has. induction fs as [|g fs IH]; cbn; [by destruct (String.eqb (f_key f) k)|].
  destruct (String.eqb_spec (f_key g) k) as [<-|]; [|].
  - rewrite String.eqb_sym. intros [-> _]%orb_false_iff. done.
  - intros [_ H]%orb_false_iff. by apply IH.
Qed.

Lemma keyOf_same n n' s s' : isOrdinal n → isOrdinal n' → s ≠ ""%string → s' ≠ ""%string →
  keyOf n s = keyOf n' s' → n = n' ∧ s = s'.
Proof. intros Hn Hn' Hs Hs' E. apply (f_equal parseCheckFieldKey) in E. rewrite !parse_key in E by done. by simplify_eq. Qed.

(** A field that is none of the check's changes nothing of it. *)
Lemma checkAt_other fs f n : has fs (f_key f) = false → (∀ suffix, suffix ∈ suffixes → f_key f ≠ keyOf n suffix) →
  checkAt (fs ++ [f]) n = checkAt fs n ∧ opened (fs ++ [f]) n = opened fs n.
Proof.
  intros Hnew Hne. assert (∀ suffix, suffix ∈ suffixes → String.eqb (f_key f) (keyOf n suffix) = false) as Hf.
  { intros suffix Hs. by apply String.eqb_neq, Hne. }
  split.
  - unfold checkAt. rewrite !valueAt_snoc by done. by rewrite !Hf by (apply list_elem_of_In; cbn; tauto).
  - unfold opened, suffixes. cbn [existsb]. rewrite !has_snoc.
    rewrite !Hf by (apply list_elem_of_In; cbn; tauto). by rewrite !orb_false_r.
Qed.

Lemma checkAt_own fs f n suffix : has fs (f_key f) = false → isOrdinal n → f_key f = keyOf n suffix → suffix ≠ ""%string →
  checkAt (fs ++ [f]) n = default (checkAt fs n) (assignSuffix (checkAt fs n) suffix (f_value f)) ∧
  opened (fs ++ [f]) n = opened fs n || bool_decide (is_Some (assignSuffix noEntry suffix (f_value f))).
Proof.
  intros Hnew Hn Hk Hs.
  assert (∀ s', s' ≠ ""%string → String.eqb (f_key f) (keyOf n s') = String.eqb suffix s') as Hf.
  { intros s' Hs'. rewrite Hk. destruct (String.eqb_spec suffix s') as [->|Hne]; [apply String.eqb_refl|].
    apply String.eqb_neq. by intros [_ ?]%keyOf_same. }
  split.
  - unfold checkAt. rewrite !valueAt_snoc by done. rewrite !Hf by done. unfold assignSuffix. cbn [e_ordinal e_id e_category e_status e_label e_detail e_error e_reason].
    repeat match goal with |- context [String.eqb suffix ?c] => destruct (String.eqb_spec suffix c) as [->|]; [done|] end. done.
  - unfold opened, suffixes. cbn [existsb]. rewrite !has_snoc, !Hf by done. unfold assignSuffix.
    destruct (has fs (keyOf n "id")), (has fs (keyOf n "category")), (has fs (keyOf n "status")), (has fs (keyOf n "label")),
      (has fs (keyOf n "detail")), (has fs (keyOf n "error")), (has fs (keyOf n "reason")); cbn [orb]; try done;
    repeat match goal with |- context [String.eqb suffix ?c] => destruct (String.eqb_spec suffix c) as [->|]; [done|] end; done.
Qed.

Lemma checkAt_unopened fs n : opened fs n = false → checkAt fs n = setOrdinal n noEntry.
Proof.
  unfold opened, suffixes. cbn [existsb]. rewrite !orb_false_iff. intros (H1 & H2 & H3 & H4 & H5 & H6 & H7 & _).
  assert (∀ k, has fs k = false → valueAt fs k = ""%string) as Hv.
  { clear. intros k. unfold has, valueAt. induction fs as [|g fs IH]; cbn; [done|]. destruct (String.eqb (f_key g) k); [done|]. cbn. apply IH. }
  unfold checkAt. by rewrite !Hv.
Qed.

Lemma assign_ordinal e suffix v n : setOrdinal n <$> assignSuffix e suffix v = assignSuffix (setOrdinal n e) suffix v.
Proof. unfold assignSuffix. repeat (case_match; [done|]). done. Qed.

Lemma assign_known e suffix v : is_Some (assignSuffix e suffix v) ↔ is_Some (assignSuffix noEntry suffix v).
Proof. unfold assignSuffix. repeat (case_match; [split; by eexists|]). done. Qed.
End Runs.

Lemma parse_suffix k p : parseCheckFieldKey k = Some p → k_suffix p ≠ ""%string.
Proof.
  unfold parseCheckFieldKey. destruct (startsWith _ _); cbn [negb]; [|done]. destruct (spanDigits _) as [ds after].
  destruct ds as [|c ds]; [done|]. destruct after as [|u suffix]; [done|]. destruct (Ascii.ascii_dec u "_"%char) as [->|Hne].
  2: { destruct u as [[] [] [] [] [] [] [] []]; done. }
  destruct (String.eqb_spec suffix ""); [done|]. destruct (_ <? _); [|done]. by intros [= <-].
Qed.

Lemma key_of_other k p n : parseCheckFieldKey k = Some p → n ≠ k_ordinal p → isOrdinal n → ∀ suffix, suffix ∈ suffixes → k ≠ keyOf n suffix.
Proof. intros Hp Hne Hn suffix Hs ->. rewrite parse_key in Hp by (done || by apply suffix_nonempty). by simplify_eq. Qed.

Lemma assign_setOrdinal e suffix v e' : assignSuffix e suffix v = Some e' → e_ordinal e' = e_ordinal e.
Proof. unfold assignSuffix. repeat (case_match; [by intros [= <-]|]). done. Qed.

(** *** The loop *)

Section Loop.
Context {variants : VariantOps}.

Definition notOfCheck (f : Field) : Prop := parseCheckFieldKey (f_key f) = None.
#[local] Instance notOfCheck_dec f : Decision (notOfCheck f) := decide (parseCheckFieldKey (f_key f) = None).

Record Separated (fs : list Field) (s : Sorting) : Prop := {
  sp_index i slot : checkSlots s !! i = Some slot → slotByOrdinal s !! e_ordinal (s_entry slot) = Some i;
  sp_slot n i : slotByOrdinal s !! n = Some i →
    isOrdinal n ∧ opened fs n = true ∧ checkSlots s !! i = Some (mkSlot (number n 0) (checkAt fs n));
  sp_opened n : isOrdinal n → opened fs n = true → is_Some (slotByOrdinal s !! n);
  sp_aside : aside s = filter notOfCheck fs }.

Lemma filter_snoc fs f : filter notOfCheck (fs ++ [f]) = filter notOfCheck fs ++ (if decide (notOfCheck f) then [f] else []).
Proof. rewrite filter_app. f_equal. Qed.

(** A field that belongs to no check, or has no member and opens none. *)
Lemma separated_same fs f s s' :
  Separated fs s → checkSlots s' = checkSlots s → slotByOrdinal s' = slotByOrdinal s → aside s' = filter notOfCheck (fs ++ [f]) →
  (∀ n, isOrdinal n → checkAt (fs ++ [f]) n = checkAt fs n ∧ opened (fs ++ [f]) n = opened fs n) → Separated (fs ++ [f]) s'.
Proof.
  intros [Hi Hs Ho _] E1 E2 E3 Hsame. split; rewrite ?E1, ?E2; [done| | |done].
  - intros n i Hn. destruct (Hs n i Hn) as (H1 & H2 & H3). destruct (Hsame n H1) as [-> ->]. done.
  - intros n Hn. destruct (Hsame n Hn) as [_ ->]. by apply Ho.
Qed.

(** A field that opens a check. *)
Lemma separated_open fs f s p entry :
  Separated fs s → has fs (f_key f) = false → parseCheckFieldKey (f_key f) = Some p → slotByOrdinal s !! k_ordinal p = None →
  assignSuffix noEntry (k_suffix p) (f_value f) = Some entry →
  Separated (fs ++ [f]) (mkSorting (checkSlots s ++ [mkSlot (k_order p) (setOrdinal (k_ordinal p) entry)])
    (<[k_ordinal p := length (checkSlots s)]> (slotByOrdinal s)) (aside s)).
Proof.
  intros [Hi Hs Ho Ha] Hnew Hp Hnone Hentry. destruct (parse_inv _ _ Hp) as (Hk & Hord & Hn).
  destruct (checkAt_own fs f _ _ Hnew Hn Hk) as [Hc Hop]; [by eapply parse_suffix|].
  assert (opened fs (k_ordinal p) = false) as Hclosed.
  { destruct (opened fs (k_ordinal p)) eqn:E; [|done]. destruct (Ho _ Hn E). congruence. }
  rewrite (checkAt_unopened _ _ Hclosed), <-assign_ordinal, Hentry in Hc. cbn in Hc.
  split; cbn [checkSlots slotByOrdinal aside].
  - intros i slot [[Hlt Hsl]|(Hge & Hsl)]%lookup_snoc_Some.
    + pose proof (Hi i slot Hsl) as Hx. rewrite lookup_insert_ne; [done|]. intros E. congruence.
    + subst slot. cbn. rewrite Hge. by rewrite lookup_insert_eq.
  - intros n i. destruct (decide (n = k_ordinal p)) as [->|Hne].
    + rewrite lookup_insert_eq. intros [= <-]. split; [done|]. rewrite Hop, Hentry, Hc, Hord. split; [by rewrite orb_true_r|].
      by rewrite lookup_app_r, Nat.sub_diag.
    + rewrite lookup_insert_ne by done. intros Hx. destruct (Hs n i Hx) as (H1 & H2 & H3).
      destruct (checkAt_other fs f n Hnew) as [-> ->]; [by eapply key_of_other|]. split; [done|]. split; [done|]. by apply lookup_app_l_Some.
  - intros n Hn' Hopen. destruct (decide (n = k_ordinal p)) as [->|Hne]; [by rewrite lookup_insert_eq|].
    rewrite lookup_insert_ne by done. apply Ho; [done|]. destruct (checkAt_other fs f n Hnew) as [_ <-]; [by eapply key_of_other|done].
  - rewrite filter_snoc, Ha, decide_False, app_nil_r by (unfold notOfCheck; congruence). done.
Qed.

(** A further field of a check. *)
Lemma separated_more fs f s p known :
  Separated fs s → has fs (f_key f) = false → parseCheckFieldKey (f_key f) = Some p → slotByOrdinal s !! k_ordinal p = Some known →
  Separated (fs ++ [f]) (mkSorting (alter (λ slot, mkSlot (s_order slot)
    (default (s_entry slot) (assignSuffix (s_entry slot) (k_suffix p) (f_value f)))) known (checkSlots s)) (slotByOrdinal s) (aside s)).
Proof.
  intros [Hi Hs Ho Ha] Hnew Hp Hknown. destruct (parse_inv _ _ Hp) as (Hk & Hord & Hn).
  destruct (checkAt_own fs f _ _ Hnew Hn Hk) as [Hc Hop]; [by eapply parse_suffix|].
  destruct (Hs _ _ Hknown) as (_ & Hopened & Hslot). rewrite Hopened, orb_true_l in Hop.
  assert (∀ n, n ≠ k_ordinal p → isOrdinal n → checkAt (fs ++ [f]) n = checkAt fs n ∧ opened (fs ++ [f]) n = opened fs n) as Hother.
  { intros n Hne Hn'. apply checkAt_other; [done|]. by eapply key_of_other. }
  split; cbn [checkSlots slotByOrdinal aside].
  - intros i slot. destruct (decide (i = known)) as [->|Hne].
    + rewrite list_lookup_alter_eq, Hslot. cbn. intros [= <-]. cbn. destruct (assignSuffix _ _ _) eqn:E; cbn; [|done].
      by rewrite (assign_setOrdinal _ _ _ _ E).
    + rewrite list_lookup_alter_ne by done. apply Hi.
  - intros n i Hx. destruct (Hs n i Hx) as (H1 & H2 & H3). destruct (decide (n = k_ordinal p)) as [->|Hne].
    + assert (i = known) as -> by congruence. split; [done|]. rewrite Hop. split; [done|]. by rewrite list_lookup_alter_eq, Hslot, Hc.
    + destruct (Hother n Hne H1) as [-> ->]. split; [done|]. split; [done|]. rewrite list_lookup_alter_ne; [done|].
      intros ->. rewrite Hslot in H3. apply (f_equal (option_map (λ sl, e_ordinal (s_entry sl)))) in H3. cbn in H3. congruence.
  - intros n Hn' Hopen. destruct (decide (n = k_ordinal p)) as [->|Hne]; [by rewrite Hknown|]. apply Ho; [done|].
    destruct (Hother n Hne Hn') as [_ <-]. done.
  - rewrite filter_snoc, Ha, decide_False, app_nil_r by (unfold notOfCheck; congruence). done.
Qed.

Lemma separated_next fs f s : Separated fs s → has fs (f_key f) = false → Separated (fs ++ [f]) (separateNext true s f).
Proof.
  intros Hsep Hnew. unfold separateNext. cbn [negb]. destruct (parseCheckFieldKey (f_key f)) as [p|] eqn:Hp.
  - destruct (slotByOrdinal s !! k_ordinal p) as [known|] eqn:Hknown; [by apply separated_more|].
    destruct (assignSuffix noEntry (k_suffix p) (f_value f)) as [entry|] eqn:Hentry; [by apply separated_open|].
    destruct (parse_inv _ _ Hp) as (Hk & _ & Hn). apply (separated_same fs f s); [done..| |].
    + rewrite filter_snoc, decide_False, app_nil_r by (unfold notOfCheck; congruence). apply Hsep.
    + intros n Hn'. destruct (decide (n = k_ordinal p)) as [->|Hne]; [|apply checkAt_other; [done|by eapply key_of_other]].
      destruct (checkAt_own fs f _ _ Hnew Hn Hk) as [-> ->]; [by eapply parse_suffix|]. rewrite Hentry. cbn. rewrite orb_false_r. split; [|done].
      destruct (assignSuffix (checkAt fs (k_ordinal p)) _ _) eqn:E; [|done].
      destruct (proj1 (assign_known _ _ _) (mk_is_Some _ _ E)). congruence.
  - apply (separated_same fs f s); [done..| |].
    + cbn. rewrite filter_snoc, decide_True by done. by rewrite (sp_aside _ _ Hsep).
    + intros n Hn. apply checkAt_other; [done|]. intros suffix Hs E. rewrite E, parse_key in Hp; [done|done|by apply suffix_nonempty].
Qed.

Lemma separated_run fs : NoDup (f_key <$> fs) → Separated fs (foldl (separateNext true) (mkSorting [] ∅ []) fs).
Proof.
  induction fs as [|f fs IH] using rev_ind; [intros _; by split|]. rewrite fmap_app, foldl_app. intros (Hfs & Hdis & _)%NoDup_app.
  apply separated_next; [by apply IH|]. unfold has. apply not_true_iff_false. rewrite existsb_exists.
  intros (g & Hg & E%String.eqb_eq). apply (Hdis (f_key g)); [|rewrite E; by left]. apply list_elem_of_fmap. exists g. split; [done|]. by apply list_elem_of_In.
Qed.
End Loop.

(** *** The order *)

Definition slotLe (a b : CheckSlot) : Prop := s_order a ≤ s_order b.

Lemma insertSlot_perm x l : insertSlot x l ≡ₚ x :: l.
Proof. induction l as [|y l IH]; cbn; [done|]. destruct (_ <? _); [done|]. rewrite IH. apply Permutation_swap. Qed.

Lemma insertSlot_sorted x l : StronglySorted slotLe l → StronglySorted slotLe (insertSlot x l).
Proof.
  induction 1 as [|y l Hl IH Hy]; cbn; [by repeat constructor|]. destruct (Z.ltb_spec (s_order x) (s_order y)).
  - constructor; [by constructor|]. constructor; [unfold slotLe; lia|]. eapply Forall_impl; [done|]. unfold slotLe. intros z Hz. lia.
  - constructor; [done|]. rewrite insertSlot_perm. by constructor.
Qed.

Lemma stableSort_sorted l : StronglySorted slotLe (stableSort l).
Proof.
  unfold stableSort. assert (∀ acc, StronglySorted slotLe acc → StronglySorted slotLe (foldl (λ sorted x, insertSlot x sorted) acc l)) as H.
  { induction l as [|x l IH]; intros acc Ha; cbn; [done|]. by apply IH, insertSlot_sorted. }
  apply H. constructor.
Qed.

Lemma stableSort_perm l : stableSort l ≡ₚ l.
Proof.
  unfold stableSort. assert (∀ acc, foldl (λ sorted x, insertSlot x sorted) acc l ≡ₚ acc ++ l) as H; [|by apply H].
  induction l as [|x l IH]; intros acc; cbn; [by rewrite app_nil_r|]. rewrite IH, insertSlot_perm. apply Permutation_middle.
Qed.

(** *** The fields in another order *)

Lemma has_perm fs fs' k : fs ≡ₚ fs' → has fs k = has fs' k.
Proof.
  intros Hp. unfold has. apply eq_true_iff_eq. rewrite !existsb_exists. by setoid_rewrite <-list_elem_of_In; setoid_rewrite Hp.
Qed.

Lemma opened_perm fs fs' n : fs ≡ₚ fs' → opened fs n = opened fs' n.
Proof. intros Hp. unfold opened, suffixes. cbn [existsb]. by rewrite !(has_perm fs fs' _ Hp). Qed.

Lemma valueAt_in fs f : NoDup (f_key <$> fs) → f ∈ fs → valueAt fs (f_key f) = f_value f.
Proof.
  unfold valueAt. induction fs as [|g fs IH]; [by intros _ ?%elem_of_nil|]. cbn. intros [Hg Hfs]%NoDup_cons [<-|Hin]%elem_of_cons.
  - by rewrite String.eqb_refl.
  - destruct (String.eqb_spec (f_key g) (f_key f)) as [E|_]; [|by apply IH]. destruct Hg. rewrite E. by apply list_elem_of_fmap_2.
Qed.

Lemma valueAt_out fs k : (∀ f, f ∈ fs → f_key f ≠ k) → valueAt fs k = ""%string.
Proof.
  unfold valueAt. induction fs as [|g fs IH]; [done|]. cbn. intros H. rewrite (proj2 (String.eqb_neq (f_key g) k)) by (apply H; by left).
  apply IH. intros f Hf. apply H. by right.
Qed.

Lemma valueAt_perm fs fs' k : NoDup (f_key <$> fs) → fs ≡ₚ fs' → valueAt fs k = valueAt fs' k.
Proof.
  intros Hnd Hp. destruct (has fs k) eqn:E.
  - unfold has in E. apply existsb_exists in E as (f & Hin%list_elem_of_In & <-%String.eqb_eq).
    rewrite !valueAt_in; [done| |by rewrite <-Hp|done|done]. by rewrite <-Hp.
  - assert (∀ f, f ∈ fs → f_key f ≠ k) as H.
    { intros f Hf%list_elem_of_In <-. apply not_true_iff_false in E. apply E, existsb_exists. exists f. by rewrite String.eqb_refl. }
    rewrite !valueAt_out; [done| |done]. intros f. rewrite <-Hp. apply H.
Qed.

Lemma checkAt_perm fs fs' n : NoDup (f_key <$> fs) → fs ≡ₚ fs' → checkAt fs n = checkAt fs' n.
Proof. intros Hnd Hp. unfold checkAt. by rewrite !(valueAt_perm fs fs' _ Hnd Hp). Qed.

Lemma isStructured_perm fs fs' : fs ≡ₚ fs' → isStructured fs = isStructured fs'.
Proof.
  intros Hp. unfold isStructured. apply eq_true_iff_eq. rewrite !existsb_exists. by setoid_rewrite <-list_elem_of_In; setoid_rewrite Hp.
Qed.

Section Order.
Context {variants : VariantOps}.

Definition slotsOf (fs : list Field) : list CheckSlot := checkSlots (foldl (separateNext true) (mkSorting [] ∅ []) fs).

Lemma elem_of_slotsOf fs slot : NoDup (f_key <$> fs) →
  slot ∈ slotsOf fs ↔ ∃ n, isOrdinal n ∧ opened fs n = true ∧ slot = mkSlot (number n 0) (checkAt fs n).
Proof.
  intros [Hi Hs Ho _]%separated_run. unfold slotsOf. split.
  - intros [i Hslot]%list_elem_of_lookup. destruct (Hs _ _ (Hi _ _ Hslot)) as (H1 & H2 & H3).
    exists (e_ordinal (s_entry slot)). split; [done|]. split; [done|]. congruence.
  - intros (n & H1 & H2 & ->). destruct (Ho n H1 H2) as [i Hx]. destruct (Hs n i Hx) as (_ & _ & H3). by apply list_elem_of_lookup_2 in H3.
Qed.

Lemma slotsOf_ordinals fs : NoDup (f_key <$> fs) → NoDup ((e_ordinal ∘ s_entry) <$> slotsOf fs).
Proof.
  intros [Hi _ _ _]%separated_run. apply NoDup_alt. intros i j n. rewrite !list_lookup_fmap. unfold slotsOf.
  destruct (checkSlots _ !! i) as [a|] eqn:Ea; [|done]. destruct (checkSlots _ !! j) as [b|] eqn:Eb; [|done].
  cbn. intros [= Ha] [= Hb]. apply Hi in Ea, Eb. congruence.
Qed.

Lemma slotsOf_perm fs fs' : NoDup (f_key <$> fs) → fs ≡ₚ fs' → slotsOf fs ≡ₚ slotsOf fs'.
Proof.
  intros Hnd Hp. assert (NoDup (f_key <$> fs')) as Hnd' by by rewrite <-Hp.
  apply NoDup_Permutation; [by eapply NoDup_fmap_1, slotsOf_ordinals..|]. intros slot. rewrite !elem_of_slotsOf by done.
  split; intros (n & H1 & H2 & ->); exists n; (split; [done|]).
  - by rewrite <-(opened_perm fs fs'), (checkAt_perm fs fs') by done.
  - by rewrite (opened_perm fs fs'), (checkAt_perm fs fs') by done.
Qed.

(** No two checks have one number in two spellings. *)
Definition numbersDiffer (fs : list Field) : Prop :=
  ∀ n n', isOrdinal n → isOrdinal n' → opened fs n = true → opened fs n' = true → number n 0 = number n' 0 → n = n'.

Lemma sorted_once fs fs' : NoDup (f_key <$> fs) → numbersDiffer fs → fs ≡ₚ fs' → stableSort (slotsOf fs) = stableSort (slotsOf fs').
Proof.
  intros Hnd Hd Hp. apply (StronglySorted_unique_strong slotLe); [|apply stableSort_sorted..|].
  2: { rewrite !stableSort_perm. by apply slotsOf_perm. }
  intros a b. rewrite !stableSort_perm, <-(slotsOf_perm fs fs') by done. rewrite !elem_of_slotsOf by done.
  intros (n & H1 & H2 & ->) (n' & H1' & H2' & ->). unfold slotLe. cbn. intros Hle Hge. assert (n = n') as -> by (apply Hd; try done; lia). done.
Qed.
End Order.

Lemma numbers_sorted l : (∀ s, s ∈ l → s_order s = number (e_ordinal (s_entry s)) 0) → StronglySorted slotLe l →
  StronglySorted (λ a b, number (e_ordinal a) 0 ≤ number (e_ordinal b) 0) (map s_entry l).
Proof.
  intros Ho. induction 1 as [|s l Hl IH Hs]; [constructor|]. cbn. constructor; [apply IH; intros s' Hs'; apply Ho; by right|].
  apply Forall_fmap. rewrite Forall_forall in *. intros s' Hs'. specialize (Hs _ Hs'). unfold slotLe in Hs. cbn.
  rewrite <-!Ho; [done|by right|by left].
Qed.

(** C40: of a group of verdicts in the structured form, whose keys differ, the client shows
    exactly the checks whose fields are there, each once, with the text of its own fields and
    in the order of their numbers; the rest of the fields stays aside, in order and untouched.
    What is shown does not depend on the order in which the fields came, unless two checks
    spell one number differently. *)
Theorem checks_exact {variants : VariantOps} (group : FieldGroup) :
  isSecurityVerdictGroup (g_key group) = true → isStructured (g_fields group) = true → NoDup (f_key <$> g_fields group) →
  let fields := g_fields group in
  let verdict := separateSecurityChecks group in
  (∀ e, e ∈ checks verdict ↔ ∃ n, isOrdinal n ∧ opened fields n = true ∧ e = checkAt fields n) ∧
  NoDup (e_ordinal <$> checks verdict) ∧
  StronglySorted (λ a b, number (e_ordinal a) 0 ≤ number (e_ordinal b) 0) (checks verdict) ∧
  aggregates verdict = filter (λ f, parseCheckFieldKey (f_key f) = None) fields ∧
  ∀ fields', fields ≡ₚ fields' → numbersDiffer fields → checks (separateSecurityChecks (mkGroup (g_key group) fields')) = checks verdict.
Proof.
  intros Hg Hst Hnd. cbv zeta. unfold separateSecurityChecks. rewrite Hg, Hst. cbn [negb checks aggregates].
  fold (slotsOf (g_fields group)). assert (∀ s, s ∈ stableSort (slotsOf (g_fields group)) ↔ s ∈ slotsOf (g_fields group)) as Hin.
  { intros s. by rewrite stableSort_perm. }
  split; [|split; [|split; [|split]]].
  - intros e. rewrite list_elem_of_fmap. setoid_rewrite Hin. setoid_rewrite elem_of_slotsOf; [|done]. split.
    + intros (s & -> & n & H1 & H2 & ->). by exists n.
    + intros (n & H1 & H2 & ->). eexists. split; [|by exists n]. done.
  - change (NoDup (e_ordinal <$> (s_entry <$> stableSort (slotsOf (g_fields group))))). rewrite <-list_fmap_compose, stableSort_perm.
    by apply slotsOf_ordinals.
  - apply numbers_sorted; [|apply stableSort_sorted]. intros s. rewrite Hin, elem_of_slotsOf by done. by intros (n & _ & _ & ->).
  - rewrite (sp_aside _ _ (separated_run _ Hnd)). by apply list_filter_iff.
  - intros fields' Hp Hd. cbn [g_key g_fields]. rewrite Hg, <-(isStructured_perm (g_fields group) fields' Hp), Hst. cbn [negb checks].
    fold (slotsOf fields'). by rewrite (sorted_once (g_fields group) fields').
Qed.

(** ** Concrete groups *)

Definition sampleField (key value : string) : Field := mkField key value VInvalid ∅.
Definition sampleChecks : FieldGroup :=
  mkGroup "security_status" [sampleField "check_10_status" "PASSED"; sampleField "overall_integrity" "PASSED";
    sampleField "check_2_status" "FAILED"; sampleField "check_10_id" "csca"; sampleField "check_3_colour" "red"].

Lemma checks_exact_witness :
  let verdict := separateSecurityChecks (variants := plainVariants) sampleChecks in
  e_ordinal <$> checks verdict = ["2"; "10"]%string ∧ NoDup (e_ordinal <$> checks verdict) ∧
  aggregates verdict = filter (λ f, parseCheckFieldKey (f_key f) = None) (g_fields sampleChecks).
Proof.
  cbv zeta. split; [by vm_compute|].
  assert (NoDup (f_key <$> g_fields sampleChecks)) as Hnd by (apply (bool_decide_unpack _); by vm_compute).
  pose proof (checks_exact (variants := plainVariants) sampleChecks eq_refl eq_refl Hnd) as (_ & H1 & _ & H2 & _). by split.
Defined.

(** Two checks that spell one number differently are shown in the order they came. *)
Example one_number_twice :
  let shown l := e_status <$> checks (separateSecurityChecks (variants := plainVariants) (mkGroup "security_status" l)) in
  let a := sampleField "check_1_status" "PASSED" in
  let b := sampleField "check_01_status" "FAILED" in
  shown [a; b] = ["PASSED"; "FAILED"]%string ∧ shown [b; a] = ["FAILED"; "PASSED"]%string.
Proof. by vm_compute. Qed.

(** The older form: the detail loses one pair of parentheses. *)
Example joined_check :
  checks (separateSecurityChecks (variants := plainVariants)
    (mkGroup "annex.rs.security" [sampleField "pa" "FAILED (no (store))"; sampleField "annex_integrity" "PASSED"])) =
  [mkEntry "" "pa" "" "FAILED" "" "no (store)" "" ""].
Proof. by vm_compute. Qed.

End SecurityChecks.
