(* ===== verification/QtTransport.v ===== *)
(** * The Qt client's connection to the agent

    Models [client/qt/src/socket/SocketTransport.cpp] with [DerListenerRegistry.h]
    and the error names of [dbus/ErrorNameMap.cpp]: the seam of the Qt
    client over one socket, in one thread. A synchronous call waits on the socket only;
    what else arrives is queued, and listeners are told from the event loop.

    The thread is a state ([Transport]) and its steps ([tstep]): a call of the seam, which
    code in a callback may make at any point; the socket being readable; a task posted to
    the loop; a timer; the next errand of the drain. What the kernel and the agent do is an
    argument of a step. Listeners are numbers, and what they are told is noted ([notes]).
    The values told are those of [QtValues]. *)
From stdpp Require Import gmap strings pretty.
From S2P Require Import Prelude Framing Cbor Vocabulary Fields Messages ClientCodec QtValues.
Import Framing Cbor Vocabulary Fields Messages ClientCodec QtValues.
Local Open Scope Z_scope.

Module QtTransport.

(** ** Errors *)

Inductive CallError :=
| NoError | AgentUnavailable | Timeout | AccessDenied | InvalidArguments | TransportFailure | ProtocolError.

#[export] Instance CallError_eq_dec : EqDecision CallError.
Proof. solve_decision. Defined.

Record SeamError := mkSeamError {
  se_callError : CallError; se_errorCode : Z; se_syncError : option Sync.SyncError; se_wireName : string; se_message : string }.

Definition noSeamError : SeamError := mkSeamError NoError Err.None_ None "" "".
Definition isError (e : SeamError) : bool :=
  negb (bool_decide (se_callError e = NoError)) || negb (se_errorCode e =? Err.None_).

Definition make (call : CallError) (code : Z) (name message : string) : SeamError := mkSeamError call code None name message.

Definition classifyAgentErrorShortName (shortName message : string) : SeamError :=
  let answered code := make NoError code shortName message in
  let rejected call := make call Err.None_ shortName message in
  if oneOf ["UnknownCard"] shortName then answered Err.UnsupportedCard
  else if oneOf ["KeyNotFound"] shortName then answered Err.KeyNotFound
  else if oneOf ["AuthFailed"] shortName then answered Err.AuthFailed
  else if oneOf ["RateLimited"] shortName then answered Err.RateLimited
  else if oneOf ["UnsupportedOnThisCard"; "NotSupported"] shortName then answered Err.CapabilityMissing
  else if oneOf ["InputTooLarge"] shortName then answered Err.InvalidDocument
  else if oneOf ["CommunicationError"] shortName then answered Err.CommunicationError
  else if oneOf ["NoResult"] shortName then answered Err.CommunicationError
  else if oneOf ["Cancelled"] shortName then answered Err.CommunicationError
  else if oneOf ["InvalidRequest"; "UnknownCredential"; "UnsupportedSignatureParameter"; "UnknownConfigKey"; "ReadOnlyConfig";
                 "InvalidConfigValue"; "MasterListReplayed"] shortName then rejected InvalidArguments
  else if oneOf ["NotAuthorized"; "UserNotLoggedIn"] shortName then rejected AccessDenied
  else if oneOf ["UnsupportedProtocol"] shortName then rejected ProtocolError
  else answered Err.CommunicationError.

Definition mapAgentErrorShortName (shortName message : string) : SeamError :=
  let e := classifyAgentErrorShortName shortName message in
  mkSeamError (se_callError e) (se_errorCode e) (Some (Sync.decodeSyncError shortName)) (se_wireName e) (se_message e).

Definition localExchangeFailure (message : string) : SeamError :=
  make NoError Err.CommunicationError "CommunicationError" message.

Definition kAgentErrorPrefix : string := "org.librescrs.Agent.Error.".
Definition kFdoPrefix : string := "org.freedesktop.DBus.Error.".

(** What follows a prefix, where the text has it. *)
Definition afterPrefix (prefix s : string) : option string :=
  if String.prefix prefix s then Some (String.substring (String.length prefix) (String.length s - String.length prefix) s) else None.

Definition mapDBusErrorName (fullName message : string) : SeamError :=
  match afterPrefix kAgentErrorPrefix fullName with
  | Some short => mapAgentErrorShortName short message
  | None =>
      match afterPrefix kFdoPrefix fullName with
      | Some tail =>
          let failed call := make call Err.None_ fullName message in
          if oneOf ["ServiceUnknown"; "NameHasNoOwner"] tail then failed AgentUnavailable
          else if oneOf ["NoReply"; "Timeout"; "TimedOut"] tail then failed Timeout
          else if oneOf ["AccessDenied"; "AuthFailed"] tail then failed AccessDenied
          else if oneOf ["InvalidArgs"; "InvalidSignature"; "UnknownMethod"; "UnknownInterface"; "UnknownObject"; "UnknownProperty"] tail
          then failed InvalidArguments
          else failed TransportFailure
      | None => make ProtocolError Err.None_ fullName message
      end
  end.

Definition mapErrInfo (err : ErrInfo) : SeamError :=
  let message :=
    match ei_msgFallback err with
    | Some text => text
    | None => default ""%string (ei_msgKey err)
    end in
  match ei_code err with
  | inr sync => mapAgentErrorShortName (Sync.syncErrorName sync) message
  | inl code => mkSeamError NoError code None ("code:" +:+ pretty code) message
  end.

(** ** State *)

Inductive ObjectKind := OReader | OCard.

#[export] Instance ObjectKind_eq_dec : EqDecision ObjectKind.
Proof. solve_decision. Defined.

Record PropertyWatch := mkPropertyWatch { pw_objectId : string; pw_kind : ObjectKind }.
Record OperationWatch := mkOperationWatch { ow_op : Z; ow_kind : OperationKind }.

#[export] Instance PropertyWatch_eq_dec : EqDecision PropertyWatch.
Proof. solve_decision. Defined.
#[export] Instance OperationWatch_eq_dec : EqDecision OperationWatch.
Proof. solve_decision. Defined.

(** Keyed by the id of the request; its timer runs while it is here. *)
Record PendingProps := mkPendingProps { pp_token : Z; pp_objectId : string; pp_kind : ObjectKind; pp_listener : Z }.

Inductive DeferredItem :=
| DEvent (event : EventVariant) (fds : list Z)
| DReply (reply : DecodedReply)
| DLost (generation : Z) (lostProps : gmap Z PendingProps) (lostDer : gmap Z Z).

(** A call queued on the event loop. *)
Inductive Task :=
| TDrain
| TFailProps (token : Z) (objectId : string) (listener : Z)
| TFailDer (token : Z) (error : CallError).

(** What is left of the item being dispatched: each ends in at most one callback. *)
Inductive Errand :=
| EChanged (listener : Z) (objectId : string) (changed : QVariantMap)
| EFailProps (token : Z) (objectId : string) (listener : Z)
| EFailDer (token : Z)
| EGone (generation : Z).

Record DerOutcome := mkDer { do_der : list Z; do_error : SeamError }.

(** The callbacks, and the marks the theorems refer to: a frame that is queued, an event that
    is taken from the queue, a request that is sent, a certificate that is asked for or given
    up. *)
Inductive Note :=
| ServiceUnregistered
| ReaderAddedTo (id : string) (props : QVariantMap) | ReaderRemovedFrom (id : string)
| CardAddedTo (id : string) (props : QVariantMap) | CardRemovedFrom (id : string)
| ConfigChangedAt (key : string)
| PropertiesChanged (listener : Z) (changed : QVariantMap)
| PropertiesFetched (listener token : Z) (props : option QVariantMap)
| PhaseChanged (listener phase : Z)
| GroupReady (listener : Z) (group : FieldGroup)
| ResultReady (listener : Z) (payload : option OperationPayload)
| Finished (listener status code : Z) (msgKey msgFallback : string)
| CertificateDer (listener token : Z) (outcome : DerOutcome)
| NArrived (event : EventVariant) (fds : list Z)
| NDispatched (event : EventVariant) (fds : list Z)
| NSent (id : Z) (request : Request) (passFds : list Z) (timeoutMs : Z)
| NAskedDer (token : Z)
| NGaveUpDer (token : Z).

Record Transport := mkTransport {
  m_fd : bool; m_established : bool; m_quiesced : bool; m_agentVersion : string; m_features : list string;
  m_appearanceFont : option Z; m_appearanceFontFetched : bool; m_config : QVariantMap; m_configFetched : bool;
  m_registry : bool; m_propertyWatches : gmap Z PropertyWatch; m_operationWatches : gmap Z OperationWatch;
  m_derListeners : gmap Z Z; m_derNextToken : Z; m_pendingProps : gmap Z PendingProps; m_pendingDer : gmap Z Z;
  m_deferred : list DeferredItem; m_generation : Z; m_draining : bool; m_drainQueued : bool; m_nextRequestId : Z;
  m_nextPropsToken : Z; posted : list Task; rest : list Errand; notes : list Note }.

Definition setFd (v : bool) (t : Transport) : Transport :=
  mkTransport v (m_established t) (m_quiesced t) (m_agentVersion t) (m_features t) (m_appearanceFont t)
    (m_appearanceFontFetched t) (m_config t) (m_configFetched t) (m_registry t) (m_propertyWatches t)
    (m_operationWatches t) (m_derListeners t) (m_derNextToken t) (m_pendingProps t) (m_pendingDer t) (m_deferred t)
    (m_generation t) (m_draining t) (m_drainQueued t) (m_nextRequestId t) (m_nextPropsToken t) (posted t) (rest t)
    (notes t).
Definition setEstablished (v : bool) (t : Transport) : Transport :=
  mkTransport (m_fd t) v (m_quiesced t) (m_agentVersion t) (m_features t) (m_appearanceFont t)
    (m_appearanceFontFetched t) (m_config t) (m_configFetched t) (m_registry t) (m_propertyWatches t)
    (m_operationWatches t) (m_derListeners t) (m_derNextToken t) (m_pendingProps t) (m_pendingDer t) (m_deferred t)
    (m_generation t) (m_draining t) (m_drainQueued t) (m_nextRequestId t) (m_nextPropsToken t) (posted t) (rest t)
    (notes t).
Definition setQuiesced (v : bool) (t : Transport) : Transport :=
  mkTransport (m_fd t) (m_established t) v (m_agentVersion t) (m_features t) (m_appearanceFont t)
    (m_appearanceFontFetched t) (m_config t) (m_configFetched t) (m_registry t) (m_propertyWatches t)
    (m_operationWatches t) (m_derListeners t) (m_derNextToken t) (m_pendingProps t) (m_pendingDer t) (m_deferred t)
    (m_generation t) (m_draining t) (m_drainQueued t) (m_nextRequestId t) (m_nextPropsToken t) (posted t) (rest t)
    (notes t).
Definition setAgentVersion (v : string) (t : Transport) : Transport :=
  mkTransport (m_fd t) (m_established t) (m_quiesced t) v (m_features t) (m_appearanceFont t)
    (m_appearanceFontFetched t) (m_config t) (m_configFetched t) (m_registry t) (m_propertyWatches t)
    (m_operationWatches t) (m_derListeners t) (m_derNextToken t) (m_pendingProps t) (m_pendingDer t) (m_deferred t)
    (m_generation t) (m_draining t) (m_drainQueued t) (m_nextRequestId t) (m_nextPropsToken t) (posted t) (rest t)
    (notes t).
Definition setFeatures (v : list string) (t : Transport) : Transport :=
  mkTransport (m_fd t) (m_established t) (m_quiesced t) (m_agentVersion t) v (m_appearanceFont t)
    (m_appearanceFontFetched t) (m_config t) (m_configFetched t) (m_registry t) (m_propertyWatches t)
    (m_operationWatches t) (m_derListeners t) (m_derNextToken t) (m_pendingProps t) (m_pendingDer t) (m_deferred t)
    (m_generation t) (m_draining t) (m_drainQueued t) (m_nextRequestId t) (m_nextPropsToken t) (posted t) (rest t)
    (notes t).
Definition setAppearanceFont (v : option Z) (t : Transport) : Transport :=
  mkTransport (m_fd t) (m_established t) (m_quiesced t) (m_agentVersion t) (m_features t) v
    (m_appearanceFontFetched t) (m_config t) (m_configFetched t) (m_registry t) (m_propertyWatches t)
    (m_operationWatches t) (m_derListeners t) (m_derNextToken t) (m_pendingProps t) (m_pendingDer t) (m_deferred t)
    (m_generation t) (m_draining t) (m_drainQueued t) (m_nextRequestId t) (m_nextPropsToken t) (posted t) (rest t)
    (notes t).
Definition setAppearanceFontFetched (v : bool) (t : Transport) : Transport :=
  mkTransport (m_fd t) (m_established t) (m_quiesced t) (m_agentVersion t) (m_features t) (m_appearanceFont t) v
    (m_config t) (m_configFetched t) (m_registry t) (m_propertyWatches t) (m_operationWatches t) (m_derListeners t)
    (m_derNextToken t) (m_pendingProps t) (m_pendingDer t) (m_deferred t) (m_generation t) (m_draining t)
    (m_drainQueued t) (m_nextRequestId t) (m_nextPropsToken t) (posted t) (rest t) (notes t).
Definition setConfig (v : QVariantMap) (t : Transport) : Transport :=
  mkTransport (m_fd t) (m_established t) (m_quiesced t) (m_agentVersion t) (m_features t) (m_appearanceFont t)
    (m_appearanceFontFetched t) v (m_configFetched t) (m_registry t) (m_propertyWatches t) (m_operationWatches t)
    (m_derListeners t) (m_derNextToken t) (m_pendingProps t) (m_pendingDer t) (m_deferred t) (m_generation t)
    (m_draining t) (m_drainQueued t) (m_nextRequestId t) (m_nextPropsToken t) (posted t) (rest t) (notes t).
Definition setConfigFetched (v : bool) (t : Transport) : Transport :=
  mkTransport (m_fd t) (m_established t) (m_quiesced t) (m_agentVersion t) (m_features t) (m_appearanceFont t)
    (m_appearanceFontFetched t) (m_config t) v (m_registry t) (m_propertyWatches t) (m_operationWatches t)
    (m_derListeners t) (m_derNextToken t) (m_pendingProps t) (m_pendingDer t) (m_deferred t) (m_generation t)
    (m_draining t) (m_drainQueued t) (m_nextRequestId t) (m_nextPropsToken t) (posted t) (rest t) (notes t).
Definition setRegistry (v : bool) (t : Transport) : Transport :=
  mkTransport (m_fd t) (m_established t) (m_quiesced t) (m_agentVersion t) (m_features t) (m_appearanceFont t)
    (m_appearanceFontFetched t) (m_config t) (m_configFetched t) v (m_propertyWatches t) (m_operationWatches t)
    (m_derListeners t) (m_derNextToken t) (m_pendingProps t) (m_pendingDer t) (m_deferred t) (m_generation t)
    (m_draining t) (m_drainQueued t) (m_nextRequestId t) (m_nextPropsToken t) (posted t) (rest t) (notes t).
Definition setPropertyWatches (v : gmap Z PropertyWatch) (t : Transport) : Transport :=
  mkTransport (m_fd t) (m_established t) (m_quiesced t) (m_agentVersion t) (m_features t) (m_appearanceFont t)
    (m_appearanceFontFetched t) (m_config t) (m_configFetched t) (m_registry t) v (m_operationWatches t)
    (m_derListeners t) (m_derNextToken t) (m_pendingProps t) (m_pendingDer t) (m_deferred t) (m_generation t)
    (m_draining t) (m_drainQueued t) (m_nextRequestId t) (m_nextPropsToken t) (posted t) (rest t) (notes t).
Definition setOperationWatches (v : gmap Z OperationWatch) (t : Transport) : Transport :=
  mkTransport (m_fd t) (m_established t) (m_quiesced t) (m_agentVersion t) (m_features t) (m_appearanceFont t)
    (m_appearanceFontFetched t) (m_config t) (m_configFetched t) (m_registry t) (m_propertyWatches t) v
    (m_derListeners t) (m_derNextToken t) (m_pendingProps t) (m_pendingDer t) (m_deferred t) (m_generation t)
    (m_draining t) (m_drainQueued t) (m_nextRequestId t) (m_nextPropsToken t) (posted t) (rest t) (notes t).
Definition setDerListeners (v : gmap Z Z) (t : Transport) : Transport :=
  mkTransport (m_fd t) (m_established t) (m_quiesced t) (m_agentVersion t) (m_features t) (m_appearanceFont t)
    (m_appearanceFontFetched t) (m_config t) (m_configFetched t) (m_registry t) (m_propertyWatches t)
    (m_operationWatches t) v (m_derNextToken t) (m_pendingProps t) (m_pendingDer t) (m_deferred t) (m_generation t)
    (m_draining t) (m_drainQueued t) (m_nextRequestId t) (m_nextPropsToken t) (posted t) (rest t) (notes t).
Definition setDerNextToken (v : Z) (t : Transport) : Transport :=
  mkTransport (m_fd t) (m_established t) (m_quiesced t) (m_agentVersion t) (m_features t) (m_appearanceFont t)
    (m_appearanceFontFetched t) (m_config t) (m_configFetched t) (m_registry t) (m_propertyWatches t)
    (m_operationWatches t) (m_derListeners t) v (m_pendingProps t) (m_pendingDer t) (m_deferred t) (m_generation t)
    (m_draining t) (m_drainQueued t) (m_nextRequestId t) (m_nextPropsToken t) (posted t) (rest t) (notes t).
Definition setPendingProps (v : gmap Z PendingProps) (t : Transport) : Transport :=
  mkTransport (m_fd t) (m_established t) (m_quiesced t) (m_agentVersion t) (m_features t) (m_appearanceFont t)
    (m_appearanceFontFetched t) (m_config t) (m_configFetched t) (m_registry t) (m_propertyWatches t)
    (m_operationWatches t) (m_derListeners t) (m_derNextToken t) v (m_pendingDer t) (m_deferred t) (m_generation t)
    (m_draining t) (m_drainQueued t) (m_nextRequestId t) (m_nextPropsToken t) (posted t) (rest t) (notes t).
Definition setPendingDer (v : gmap Z Z) (t : Transport) : Transport :=
  mkTransport (m_fd t) (m_established t) (m_quiesced t) (m_agentVersion t) (m_features t) (m_appearanceFont t)
    (m_appearanceFontFetched t) (m_config t) (m_configFetched t) (m_registry t) (m_propertyWatches t)
    (m_operationWatches t) (m_derListeners t) (m_derNextToken t) (m_pendingProps t) v (m_deferred t) (m_generation t)
    (m_draining t) (m_drainQueued t) (m_nextRequestId t) (m_nextPropsToken t) (posted t) (rest t) (notes t).
Definition setDeferred (v : list DeferredItem) (t : Transport) : Transport :=
  mkTransport (m_fd t) (m_established t) (m_quiesced t) (m_agentVersion t) (m_features t) (m_appearanceFont t)
    (m_appearanceFontFetched t) (m_config t) (m_configFetched t) (m_registry t) (m_propertyWatches t)
    (m_operationWatches t) (m_derListeners t) (m_derNextToken t) (m_pendingProps t) (m_pendingDer t) v
    (m_generation t) (m_draining t) (m_drainQueued t) (m_nextRequestId t) (m_nextPropsToken t) (posted t) (rest t)
    (notes t).
Definition setGeneration (v : Z) (t : Transport) : Transport :=
  mkTransport (m_fd t) (m_established t) (m_quiesced t) (m_agentVersion t) (m_features t) (m_appearanceFont t)
    (m_appearanceFontFetched t) (m_config t) (m_configFetched t) (m_registry t) (m_propertyWatches t)
    (m_operationWatches t) (m_derListeners t) (m_derNextToken t) (m_pendingProps t) (m_pendingDer t) (m_deferred t) v
    (m_draining t) (m_drainQueued t) (m_nextRequestId t) (m_nextPropsToken t) (posted t) (rest t) (notes t).
Definition setDraining (v : bool) (t : Transport) : Transport :=
  mkTransport (m_fd t) (m_established t) (m_quiesced t) (m_agentVersion t) (m_features t) (m_appearanceFont t)
    (m_appearanceFontFetched t) (m_config t) (m_configFetched t) (m_registry t) (m_propertyWatches t)
    (m_operationWatches t) (m_derListeners t) (m_derNextToken t) (m_pendingProps t) (m_pendingDer t) (m_deferred t)
    (m_generation t) v (m_drainQueued t) (m_nextRequestId t) (m_nextPropsToken t) (posted t) (rest t) (notes t).
Definition setDrainQueued (v : bool) (t : Transport) : Transport :=
  mkTransport (m_fd t) (m_established t) (m_quiesced t) (m_agentVersion t) (m_features t) (m_appearanceFont t)
    (m_appearanceFontFetched t) (m_config t) (m_configFetched t) (m_registry t) (m_propertyWatches t)
    (m_operationWatches t) (m_derListeners t) (m_derNextToken t) (m_pendingProps t) (m_pendingDer t) (m_deferred t)
    (m_generation t) (m_draining t) v (m_nextRequestId t) (m_nextPropsToken t) (posted t) (rest t) (notes t).
Definition setNextRequestId (v : Z) (t : Transport) : Transport :=
  mkTransport (m_fd t) (m_established t) (m_quiesced t) (m_agentVersion t) (m_features t) (m_appearanceFont t)
    (m_appearanceFontFetched t) (m_config t) (m_configFetched t) (m_registry t) (m_propertyWatches t)
    (m_operationWatches t) (m_derListeners t) (m_derNextToken t) (m_pendingProps t) (m_pendingDer t) (m_deferred t)
    (m_generation t) (m_draining t) (m_drainQueued t) v (m_nextPropsToken t) (posted t) (rest t) (notes t).
Definition setNextPropsToken (v : Z) (t : Transport) : Transport :=
  mkTransport (m_fd t) (m_established t) (m_quiesced t) (m_agentVersion t) (m_features t) (m_appearanceFont t)
    (m_appearanceFontFetched t) (m_config t) (m_configFetched t) (m_registry t) (m_propertyWatches t)
    (m_operationWatches t) (m_derListeners t) (m_derNextToken t) (m_pendingProps t) (m_pendingDer t) (m_deferred t)
    (m_generation t) (m_draining t) (m_drainQueued t) (m_nextRequestId t) v (posted t) (rest t) (notes t).
Definition setPosted (v : list Task) (t : Transport) : Transport :=
  mkTransport (m_fd t) (m_established t) (m_quiesced t) (m_agentVersion t) (m_features t) (m_appearanceFont t)
    (m_appearanceFontFetched t) (m_config t) (m_configFetched t) (m_registry t) (m_propertyWatches t)
    (m_operationWatches t) (m_derListeners t) (m_derNextToken t) (m_pendingProps t) (m_pendingDer t) (m_deferred t)
    (m_generation t) (m_draining t) (m_drainQueued t) (m_nextRequestId t) (m_nextPropsToken t) v (rest t) (notes t).
Definition setRest (v : list Errand) (t : Transport) : Transport :=
  mkTransport (m_fd t) (m_established t) (m_quiesced t) (m_agentVersion t) (m_features t) (m_appearanceFont t)
    (m_appearanceFontFetched t) (m_config t) (m_configFetched t) (m_registry t) (m_propertyWatches t)
    (m_operationWatches t) (m_derListeners t) (m_derNextToken t) (m_pendingProps t) (m_pendingDer t) (m_deferred t)
    (m_generation t) (m_draining t) (m_drainQueued t) (m_nextRequestId t) (m_nextPropsToken t) (posted t) v (notes t).
Definition setNotes (v : list Note) (t : Transport) : Transport :=
  mkTransport (m_fd t) (m_established t) (m_quiesced t) (m_agentVersion t) (m_features t) (m_appearanceFont t)
    (m_appearanceFontFetched t) (m_config t) (m_configFetched t) (m_registry t) (m_propertyWatches t)
    (m_operationWatches t) (m_derListeners t) (m_derNextToken t) (m_pendingProps t) (m_pendingDer t) (m_deferred t)
    (m_generation t) (m_draining t) (m_drainQueued t) (m_nextRequestId t) (m_nextPropsToken t) (posted t) (rest t) v.

Definition note (n : Note) (t : Transport) : Transport := setNotes (notes t ++ [n]) t.
Definition post (task : Task) (t : Transport) : Transport := setPosted (posted t ++ [task]) t.

Definition initial : Transport :=
  mkTransport false false false "" [] None false ∅ false false ∅ ∅ ∅ 0 ∅ ∅ [] 0 false false 0 0 [] [] [].

(** A counter that is incremented before it is used. *)
Definition nextRequest (t : Transport) : Z * Transport :=
  let id := u64 (m_nextRequestId t + 1) in (id, setNextRequestId id t).

(** ** The queue *)

Definition scheduleDrain (t : Transport) : Transport :=
  if m_drainQueued t then t else post TDrain (setDrainQueued true t).

Definition defer (item : DeferredItem) (t : Transport) : Transport :=
  scheduleDrain (setDeferred (m_deferred t ++ [item]) t).

Definition dropConnection (t : Transport) : Transport :=
  if negb (m_fd t) then t
  else
    let wasEstablished := m_established t in
    let t := setEstablished false (setFd false t) in
    let t := setFeatures [] (setAgentVersion "" (setQuiesced false t)) in
    let t := setConfig ∅ (setConfigFetched false t) in
    if negb wasEstablished then t
    else
      let item := DLost (m_generation t) (m_pendingProps t) (m_pendingDer t) in
      defer item (setPendingDer ∅ (setPendingProps ∅ t)).

(** ** Synchronous exchanges *)

(** [failure], and the reply with its descriptors once one has come. *)
Record SyncResult := mkSync { failure : CallError; reply : option ReplyVariant; replyFds : list Z }.

(** One round of the wait on the socket. *)
Inductive Round :=
| Interrupted
| PollFailed
| PollTimedOut
| Pumped (result : PumpResult).

(** What becomes of one request: whether it could be sent, and the rounds until the deadline. *)
Record Exchange := mkExchange { x_sent : bool; x_rounds : list Round }.

Definition kHandshakeTimeoutMs : Z := 1000.
Definition kDefaultCallTimeoutMs : Z := 3000.
Definition kAuthorizedCallTimeoutMs : Z := 120000.

Section Seam.
Context {ctx : Type} `{!Qcbor ctx} {variants : VariantOps}.

(** [absorbFrame]: [None] when the frame is neither a reply nor an event. *)
Definition absorbFrame (f : Frame) (awaited : option Z) (out : SyncResult) (t : Transport) : option (SyncResult * Transport) :=
  match parseReply (Framing.body f) (length (Framing.fds f)) with
  | Some r =>
      if bool_decide (awaited = Some (requestId r)) then Some (mkSync NoError (Some (replyArm r)) (Framing.fds f), t)
      else Some (out, defer (DReply r) t)
  | None =>
      match parseEvent (Framing.body f) (length (Framing.fds f)) with
      | Some e => Some (out, note (NArrived e (Framing.fds f)) (defer (DEvent e (Framing.fds f)) t))
      | None => None
      end
  end.

(** The frames of one pump, and whether one of them was malformed. *)
Fixpoint absorbFrames (id : option Z) (fs : list Frame) (out : SyncResult) (t : Transport) : bool * SyncResult * Transport :=
  match fs with
  | [] => (false, out, t)
  | f :: fs =>
      let awaited := if bool_decide (failure out = NoError) then None else id in
      match absorbFrame f awaited out t with
      | None => (true, out, t)
      | Some (out, t) => absorbFrames id fs out t
      end
  end.

(** A result that has come already stays. *)
Definition failWith (e : CallError) (out : SyncResult) : SyncResult :=
  if bool_decide (failure out = NoError) then out else mkSync e (reply out) (replyFds out).

Fixpoint awaitSync (id : Z) (rounds : list Round) (out : SyncResult) (t : Transport) : SyncResult * Transport :=
  match rounds with
  | [] => (out, t)
  | Interrupted :: rounds | PollTimedOut :: rounds => awaitSync id rounds out t
  | PollFailed :: _ => (mkSync TransportFailure (reply out) (replyFds out), dropConnection t)
  | Pumped p :: rounds =>
      let '(malformed, out, t) := absorbFrames (Some id) (frames p) out t in
      if malformed then (failWith ProtocolError out, dropConnection t)
      else
        match status p with
        | PumpPeerClosed => (failWith AgentUnavailable out, dropConnection t)
        | PumpError error => (failWith (match error with Io => TransportFailure | _ => ProtocolError end) out, dropConnection t)
        | PumpOk => if bool_decide (failure out = NoError) then (out, t) else awaitSync id rounds out t
        end
  end.

Definition callSync (request : Request) (timeoutMs : Z) (passFds : list Z) (x : Exchange) (t : Transport) : SyncResult * Transport :=
  if negb (m_fd t) then (mkSync AgentUnavailable None [], t)
  else
    let '(id, t) := nextRequest t in
    if negb (x_sent x) then (mkSync AgentUnavailable None [], dropConnection t)
    else
      let t := note (NSent id request passFds timeoutMs) t in
      let '(out, t) := awaitSync id (x_rounds x) (mkSync Timeout None []) t in
      (out, match m_deferred t with [] => t | _ => scheduleDrain t end).

(** A reply that came, or [None]. *)
Definition replyOf (r : SyncResult) : option ReplyVariant :=
  if bool_decide (failure r = NoError) then reply r else None.

(** ** Connecting *)

(** [path] is [m_socketPath], encoded; [verifyPeer] is set where a peer is checked. *)
Record Setup := mkSetup { path : string; sunPathSize : nat; verifyPeer : bool }.

Record Dial := mkDial { d_socket : bool; d_reached : bool; d_verified : bool; d_hello : Exchange }.

Variable setup : Setup.

Definition connectAndHandshake (d : Dial) (t : Transport) : bool * Transport :=
  if String.eqb (path setup) "" then (false, t)
  else if (sunPathSize setup <? String.length (path setup) + 1)%nat then (false, t)
  else if negb (d_socket d) then (false, t)
  else if negb (d_reached d) then (false, t)
  else if verifyPeer setup && negb (d_verified d) then (false, t)
  else
    let '(result, t) := callSync (Hello kProtocolVersion true) kHandshakeTimeoutMs [] (d_hello d) (setFd true t) in
    match replyOf result with
    | Some (KnownReply (HelloAck version offered)) =>
        let t := setFeatures offered (setAgentVersion version t) in
        let t := setAppearanceFont None (setAppearanceFontFetched false t) in
        let t := setConfig ∅ (setConfigFetched false t) in
        let t := setQuiesced false (setEstablished true t) in
        (true, setGeneration (u64 (m_generation t + 1)) t)
    | _ => (false, setFd false t)
    end.

Definition isConnected (t : Transport) : bool := m_fd t && m_established t.

Definition probeAvailability (d : Dial) (x : Exchange) (t : Transport) : bool * Transport :=
  if negb (m_fd t) then connectAndHandshake d t
  else if m_quiesced t then
    let '(result, t) := callSync GetState kHandshakeTimeoutMs [] x t in
    match replyOf result with
    | Some (KnownReply (StateReply _ _)) => (true, setQuiesced false t)
    | _ => (false, t)
    end
  else (true, t).

(** [onDisk]: the socket exists in the file system. *)
Definition agentInstalled (onDisk : bool) (t : Transport) : bool :=
  m_fd t || (negb (String.eqb (path setup) "") && onDisk).

Inductive AgentStartResult := Running | Requested | NotInstalled | NotInApplications | Failed.

Definition startAgent (d : Dial) (x : Exchange) (onDisk : bool) (t : Transport) : AgentStartResult * Transport :=
  let '(available, t) := probeAvailability d x t in
  (if available then Running else if agentInstalled onDisk t then Failed else NotInstalled, t).

Definition hasFeature (token : string) (t : Transport) : bool := existsb (String.eqb token) (m_features t).

(** ** Settings *)

Definition refreshConfig (x : Exchange) (t : Transport) : Transport :=
  let '(result, t) := callSync GetConfig kHandshakeTimeoutMs [] x t in
  match replyOf result with
  | Some (KnownReply (ConfigReply entries)) => setConfig (map_imap (λ key value, Some (configValueToVariant key value)) entries) t
  | _ => setConfig ∅ t
  end.

Definition configSnapshot (x : Exchange) (t : Transport) : QVariantMap * Transport :=
  let t := if m_configFetched t then t else refreshConfig x (setConfigFetched true t) in
  (m_config t, t).

(** The refusal a reply stands for: no answer and an answer that is none of the request's are
    a failure of the communication. *)
Definition refusalOf (r : SyncResult) : option Sync.SyncError :=
  match replyOf r with
  | Some (KnownReply (Error err)) => Some (default Sync.CommunicationError (se_syncError (mapErrInfo err)))
  | Some (KnownReply AckReply) => None
  | _ => Some Sync.CommunicationError
  end.

Definition setConfigValue (key : string) (value : QVariant) (x : Exchange) (t : Transport) : option Sync.SyncError * Transport :=
  if negb (isKnownConfigKey key) then (Some Sync.UnknownConfigKey, t)
  else if negb (isSettableConfigKey key) then (Some Sync.ReadOnlyConfig, t)
  else
    let '(result, t) := callSync (SetConfig key (configValueToCbor key value)) kAuthorizedCallTimeoutMs [] x t in
    (refusalOf result, t).

Definition resetConfig (key : string) (x : Exchange) (t : Transport) : option Sync.SyncError * Transport :=
  if negb (isKnownConfigKey key) then (Some Sync.UnknownConfigKey, t)
  else
    let '(result, t) := callSync (ResetConfig key) kAuthorizedCallTimeoutMs [] x t in
    (refusalOf result, t).

Definition importCscaMasterList (masterListFd : Z) (x : Exchange) (t : Transport) :
    result Sync.SyncError QtValues.CscaAnchorState * Transport :=
  let '(result, t) := callSync (ImportCscaMasterList 0) kAuthorizedCallTimeoutMs [masterListFd] x t in
  (match replyOf result with
   | Some (KnownReply (Error err)) => Err (default Sync.CommunicationError (se_syncError (mapErrInfo err)))
   | Some (KnownReply (Messages.CscaAnchorState s)) => Ok (cscaAnchorStateFromMap (anchorDict s))
   | _ => Err Sync.CommunicationError
   end, t).

(** ** The registry, layout and font *)

Record RegistrySnapshot := mkSnapshot { sn_readers : list (string * QVariantMap); sn_cards : list (string * QVariantMap) }.

Definition fetchRegistry (x : Exchange) (t : Transport) : option RegistrySnapshot * Transport :=
  let '(result, t) := callSync GetState kHandshakeTimeoutMs [] x t in
  (match replyOf result with
   | Some (KnownReply (StateReply readers cards)) =>
       Some (mkSnapshot (map (λ r, (rs_handle r, readerProps r)) readers) (map (λ c, (cs_handle c, cardProps c)) cards))
   | _ => None
   end, t).

Definition layoutVisualSignature (text : string) (px py width height : Z) (x : Exchange) (t : Transport) :
    option (Z * Z * list string * bool) * Transport :=
  let '(result, t) := callSync (LayoutVisual text px py width height) kHandshakeTimeoutMs [] x t in
  (match replyOf result with
   | Some (KnownReply (LayoutReply fontSize lineHeight lines clipped)) => Some (fontSize, lineHeight, lines, clipped)
   | _ => None
   end, t).

Definition appearanceFont (x : Exchange) (t : Transport) : option Z * Transport :=
  let t :=
    if m_appearanceFontFetched t then t
    else
      let '(result, t) := callSync GetAppearanceFont kHandshakeTimeoutMs [] x (setAppearanceFontFetched true t) in
      match replyOf result with
      | Some (KnownReply (AppearanceFontReply fd)) =>
          if fd <? zlen (replyFds result) then setAppearanceFont (fdAt (replyFds result) fd) t else t
      | _ => t
      end in
  (m_appearanceFont t, t).

(** ** Properties of an object *)

Definition subscribeProperties (objectId : string) (kind : ObjectKind) (listener : Z) (t : Transport) : Transport :=
  setPropertyWatches (<[listener := mkPropertyWatch objectId kind]> (m_propertyWatches t)) t.
Definition unsubscribeProperties (listener : Z) (t : Transport) : Transport :=
  setPropertyWatches (delete listener (m_propertyWatches t)) t.

(** The subscription is the one the request was made for. *)
Definition watches (listener : Z) (objectId : string) (t : Transport) : bool :=
  match m_propertyWatches t !! listener with
  | Some w => String.eqb (pw_objectId w) objectId
  | None => false
  end.

Definition tellFetched (listener token : Z) (objectId : string) (props : option QVariantMap) (t : Transport) : Transport :=
  if watches listener objectId t then note (PropertiesFetched listener token props) t else t.

(** [sent]: whether the frame could be sent. *)
Definition requestProperties (objectId : string) (kind : ObjectKind) (listener : Z) (sent : bool) (t : Transport) : Z * Transport :=
  let token := u64 (m_nextPropsToken t + 1) in
  let t := setNextPropsToken token t in
  if negb (isConnected t) then (token, post (TFailProps token objectId listener) t)
  else
    let '(id, t) := nextRequest t in
    if negb sent then (token, post (TFailProps token objectId listener) (dropConnection t))
    else
      let t := note (NSent id GetState [] kDefaultCallTimeoutMs) t in
      (token, setPendingProps (<[id := mkPendingProps token objectId kind listener]> (m_pendingProps t)) t).

(** ** Operations *)

Inductive Method :=
| MReadIdentity | MGetPhoto | MReadCertificates | MReadTokenInfo | MSign | MSignBatch | MListCredentials | MManagePin
| MActivateSigningKey.

(** A descriptor is [None] when it is not valid. *)
Record OperationRequest := mkRequest {
  rq_method : Method; rq_certId : string; rq_document : option Z; rq_documents : list (string * option Z);
  rq_pinId : string; rq_verb : string; rq_options : QVariantMap }.

Record StartOutcome := mkStart { operationId : option Z; startError : SeamError }.

Definition refused (e : SeamError) : StartOutcome := mkStart None e.
Definition localRefusal (call : CallError) (message : string) : StartOutcome := refused (make call Err.None_ "" message).

(** The documents of a batch: their entries and the descriptors passed with them. *)
Fixpoint batchDocs (docs : list (string * option Z)) (passed : list Z) : option (list BatchDocument * list Z) :=
  match docs with
  | [] => Some ([], passed)
  | (name, fd) :: docs =>
      fd ← fd;
      rest ← batchDocs docs (passed ++ [fd]);
      Some (mkBatchDocument name (zlen passed) :: rest.1, rest.2)
  end.

Definition isCredentialsMethod (m : Method) : bool :=
  match m with MListCredentials | MManagePin | MActivateSigningKey => true | _ => false end.

(** The request of a method, with the descriptors that go with it. *)
Definition wireRequest (card : string) (rq : OperationRequest) : StartOutcome + (Request * list Z) :=
  match rq_method rq with
  | MReadIdentity => inr (ReadIdentity card, [])
  | MGetPhoto => inr (GetPhoto card, [])
  | MReadCertificates => inr (ReadCertificates card, [])
  | MReadTokenInfo => inr (ReadTokenInfo card, [])
  | MSign =>
      match rq_document rq with
      | None => inl (localRefusal InvalidArguments "sign requires a document file descriptor")
      | Some fd => inr (Sign card (rq_certId rq) 0 (toSignOpts (rq_options rq)), [fd])
      end
  | MSignBatch =>
      match batchDocs (rq_documents rq) [] with
      | None => inl (localRefusal InvalidArguments "signBatch requires every document to carry a file descriptor")
      | Some (docs, fds) => inr (SignBatch card (rq_certId rq) docs (toSignOpts (rq_options rq)), fds)
      end
  | MListCredentials => inr (ListCredentials card, [])
  | MManagePin => inr (ManagePin card (rq_pinId rq) (rq_verb rq) (toBool_ <$> rq_options rq !! "activateKey"%string), [])
  | MActivateSigningKey => inr (ActivateSigningKey card, [])
  end.

Definition startOperation (card : string) (rq : OperationRequest) (x : Exchange) (t : Transport) : StartOutcome * Transport :=
  if isCredentialsMethod (rq_method rq) && negb (hasFeature "credentials" t)
  then (refused (mapAgentErrorShortName "NotSupported" "agent does not advertise the credentials feature"), t)
  else
    match wireRequest card rq with
    | inl outcome => (outcome, t)
    | inr (wire, passFds) =>
        let '(result, t) := callSync wire kDefaultCallTimeoutMs passFds x t in
        (if negb (bool_decide (failure result = NoError))
         then localRefusal (failure result) "method entry produced no reply"
         else match reply result with
              | Some (KnownReply (OpStarted op)) => mkStart (Some op) noSeamError
              | Some (KnownReply (Error err)) => refused (mapErrInfo err)
              | _ => localRefusal ProtocolError "method entry returned an unexpected reply arm"
              end, t)
    end.

(** An id that is no number subscribes nothing. *)
Definition subscribeOperation (op : option Z) (kind : OperationKind) (listener : Z) (t : Transport) : Transport :=
  match op with
  | None => t
  | Some op => setOperationWatches (<[listener := mkOperationWatch op kind]> (m_operationWatches t)) t
  end.
Definition unsubscribeOperation (listener : Z) (t : Transport) : Transport :=
  setOperationWatches (delete listener (m_operationWatches t)) t.

Definition fetchOperationResult (op : option Z) (kind : OperationKind) (x : Exchange) (t : Transport) :
    option OperationPayload * Transport :=
  if negb (bool_decide (kind = KSign)) then (None, t)
  else
    match op with
    | None => (None, t)
    | Some op =>
        let '(result, t) := callSync (GetSignResult op) kDefaultCallTimeoutMs [] x t in
        (match replyOf result with
         | Some (KnownReply (SignRecovery recovered)) => toPayload (OpSignResult recovered) (replyFds result)
         | _ => None
         end, t)
    end.

Definition cancelOperation (op : option Z) (sent : bool) (t : Transport) : Transport :=
  match op with
  | None => t
  | Some op =>
      if negb (isConnected t) then t
      else
        let '(id, t) := nextRequest t in
        if sent then note (NSent id (CancelOp op) [] kDefaultCallTimeoutMs) t else dropConnection t
  end.

(** ** Certificates *)

(** [DerListenerRegistry]: [add], [cancel] and [takeIfPresent]. *)
Definition addDer (listener : Z) (t : Transport) : Z * Transport :=
  let token := u64 (m_derNextToken t + 1) in
  (token, setDerListeners (<[token := listener]> (m_derListeners t)) (setDerNextToken token t)).
Definition cancelDer (token : Z) (t : Transport) : Transport := setDerListeners (delete token (m_derListeners t)) t.
Definition takeIfPresent (token : Z) (t : Transport) : option Z * Transport :=
  (m_derListeners t !! token, setDerListeners (delete token (m_derListeners t)) t).

Definition tellDer (token : Z) (outcome : DerOutcome) (t : Transport) : Transport :=
  match takeIfPresent token t with
  | (None, t) => t
  | (Some listener, t) => note (CertificateDer listener token outcome) t
  end.

Definition derFailed (call : CallError) (message : string) : DerOutcome := mkDer [] (make call Err.None_ "" message).

Definition requestCertificateDer (reader cert : string) (listener : Z) (sent : bool) (t : Transport) : Z * Transport :=
  let '(token, t) := addDer listener t in
  let t := note (NAskedDer token) t in
  if negb (isConnected t) then (token, post (TFailDer token AgentUnavailable) t)
  else
    let '(id, t) := nextRequest t in
    if negb sent then (token, post (TFailDer token AgentUnavailable) (dropConnection t))
    else
      let t := note (NSent id (GetCertDer reader cert) [] kDefaultCallTimeoutMs) t in
      (token, setPendingDer (<[id := token]> (m_pendingDer t)) t).

(** The mark is set where there was something to give up. *)
Definition cancelCertificateDer (token : Z) (t : Transport) : Transport :=
  match m_derListeners t !! token with
  | Some _ => note (NGaveUpDer token) (cancelDer token t)
  | None => cancelDer token t
  end.

(** ** The event loop *)

Definition drainDeferred (t : Transport) : Transport :=
  let t := setDrainQueued false t in
  if m_draining t then t else setDraining true t.

Definition onReadable (p : PumpResult) (t : Transport) : Transport :=
  if negb (m_fd t) then t
  else
    let '(malformed, _, t) := absorbFrames None (frames p) (mkSync Timeout None []) t in
    let t :=
      if malformed then dropConnection t
      else match status p with PumpOk => t | _ => dropConnection t end in
    drainDeferred t.

Definition runTask (task : Task) (t : Transport) : Transport :=
  match task with
  | TDrain => drainDeferred t
  | TFailProps token objectId listener => tellFetched listener token objectId None t
  | TFailDer token error => tellDer token (derFailed error "the agent socket is not connected") t
  end.

(** The timer of a request that waits for its reply. *)
Definition propsTimedOut (id : Z) (t : Transport) : Transport :=
  match m_pendingProps t !! id with
  | None => t
  | Some p =>
      tellFetched (pp_listener p) (pp_token p) (pp_objectId p) None (setPendingProps (delete id (m_pendingProps t)) t)
  end.
Definition derTimedOut (id : Z) (t : Transport) : Transport :=
  match m_pendingDer t !! id with
  | None => t
  | Some token =>
      tellDer token (derFailed Timeout "no GetCertDer reply within the call budget")
        (setPendingDer (delete id (m_pendingDer t)) t)
  end.

(** ** Dispatch *)

Definition tellRegistry (n : Note) (t : Transport) : Transport := if m_registry t then note n t else t.

(** The first watch of the operation; the order of the table is not fixed. *)
Definition operationListenerFor (op : Z) (t : Transport) : option Z :=
  fst <$> List.find (λ '(_, w), ow_op w =? op) (map_to_list (m_operationWatches t)).

Definition tellOperation (op : Z) (n : Z → Note) (t : Transport) : Transport :=
  match operationListenerFor op t with
  | Some listener => note (n listener) t
  | None => t
  end.

Definition kReaderIface : string := "org.librescrs.Agent.Reader1".
Definition kCardIface : string := "org.librescrs.Agent.Card1".
Definition ifaceKind (iface : string) : option ObjectKind :=
  if String.eqb iface kReaderIface then Some OReader else if String.eqb iface kCardIface then Some OCard else None.

Definition targets (objectId : string) (kind : ObjectKind) (t : Transport) : list Z :=
  fst <$> filter (λ lw, lw.2 = mkPropertyWatch objectId kind) (map_to_list (m_propertyWatches t)).

(** [x] is the exchange of the settings that are read again. *)
Definition dispatchEvent (e : EventVariant) (fds : list Z) (x : Exchange) (t : Transport) : Transport :=
  match e with
  | UnknownEvent => t
  | KnownEvent e =>
      match e with
      | ReaderAdded reader => tellRegistry (ReaderAddedTo (rs_handle reader) (readerProps reader)) t
      | ReaderRemoved handle => tellRegistry (ReaderRemovedFrom handle) t
      | CardAdded card => tellRegistry (CardAddedTo (cs_handle card) (cardProps card)) t
      | CardRemoved handle => tellRegistry (CardRemovedFrom handle) t
      | PropertyChanged handle iface props =>
          match ifaceKind iface with
          | None => t
          | Some kind => setRest (map (λ l, EChanged l handle (cborToVariant <$> props)) (targets handle kind t)) t
          end
      | OpProgress op phase => tellOperation op (λ l, PhaseChanged l phase) t
      | OpIdentityGroup op groupKey fields => tellOperation op (λ l, GroupReady l (toFieldGroup groupKey fields)) t
      | OpResultReady op result => tellOperation op (λ l, ResultReady l (toPayload result fds)) t
      | OpFinished op status code msgKey msgFallback => tellOperation op (λ l, Finished l status code msgKey msgFallback) t
      | ConfigChanged key =>
          let t := if m_configFetched t then refreshConfig x t else t in
          tellRegistry (ConfigChangedAt key) t
      | AgentQuiesced _ => tellRegistry ServiceUnregistered (setQuiesced true t)
      end
  end.

(** The properties of one object in a state reply. *)
Definition propsIn (kind : ObjectKind) (objectId : string) (r : ReplyVariant) : option QVariantMap :=
  match r with
  | KnownReply (StateReply readers cards) =>
      match kind with
      | OReader => readerProps <$> List.find (λ s, String.eqb (rs_handle s) objectId) readers
      | OCard => cardProps <$> List.find (λ s, String.eqb (cs_handle s) objectId) cards
      end
  | _ => None
  end.

Definition derOutcomeOf (r : ReplyVariant) : DerOutcome :=
  match r with
  | KnownReply (CertDerReply der) => mkDer der noSeamError
  | KnownReply (Error err) => mkDer [] (mapErrInfo err)
  | _ => derFailed ProtocolError "unexpected reply arm for GetCertDer"
  end.

Definition dispatchAsyncReply (d : DecodedReply) (t : Transport) : Transport :=
  match m_pendingProps t !! requestId d with
  | Some p =>
      tellFetched (pp_listener p) (pp_token p) (pp_objectId p) (propsIn (pp_kind p) (pp_objectId p) (replyArm d))
        (setPendingProps (delete (requestId d) (m_pendingProps t)) t)
  | None =>
      match m_pendingDer t !! requestId d with
      | Some token => tellDer token (derOutcomeOf (replyArm d)) (setPendingDer (delete (requestId d) (m_pendingDer t)) t)
      | None => t
      end
  end.

(** The errands of a lost connection. *)
Definition deliverConnectionLost (generation : Z) (lostProps : gmap Z PendingProps) (lostDer : gmap Z Z) : list Errand :=
  map (λ kv, EFailProps (pp_token kv.2) (pp_objectId kv.2) (pp_listener kv.2)) (map_to_list lostProps) ++
  map (λ kv, EFailDer kv.2) (map_to_list lostDer) ++ [EGone generation].

Definition runErrand (e : Errand) (t : Transport) : Transport :=
  match e with
  | EChanged listener objectId changed =>
      if watches listener objectId t then note (PropertiesChanged listener changed) t else t
  | EFailProps token objectId listener => tellFetched listener token objectId None t
  | EFailDer token => tellDer token (derFailed AgentUnavailable "the agent connection was lost") t
  | EGone generation => if generation =? m_generation t then tellRegistry ServiceUnregistered t else t
  end.

(** One turn of the loop of [drainDeferred], which runs while [m_draining] is set: the next
    errand of the current item, else the next item. *)
Definition drainTurn (x : Exchange) (t : Transport) : Transport :=
  match rest t with
  | e :: errands => runErrand e (setRest errands t)
  | [] =>
      match m_deferred t with
      | [] => setDraining false t
      | item :: items =>
          let t := setDeferred items t in
          match item with
          | DEvent e fds => dispatchEvent e fds x (note (NDispatched e fds) t)
          | DReply r => dispatchAsyncReply r t
          | DLost generation lostProps lostDer => setRest (deliverConnectionLost generation lostProps lostDer) t
          end
      end
  end.

(** ** Steps *)

Inductive SeamCall :=
| CSetRegistryListener (set : bool)
| CProbe (d : Dial) (x : Exchange)
| CStart (d : Dial) (x : Exchange) (onDisk : bool)
| CConfigSnapshot (x : Exchange)
| CSetConfig (key : string) (value : QVariant) (x : Exchange)
| CResetConfig (key : string) (x : Exchange)
| CImport (fd : Z) (x : Exchange)
| CFetchRegistry (x : Exchange)
| CLayout (text : string) (px py width height : Z) (x : Exchange)
| CFont (x : Exchange)
| CSubscribeProperties (objectId : string) (kind : ObjectKind) (listener : Z)
| CUnsubscribeProperties (listener : Z)
| CRequestProperties (objectId : string) (kind : ObjectKind) (listener : Z) (sent : bool)
| CStartOperation (card : string) (rq : OperationRequest) (x : Exchange)
| CSubscribeOperation (op : option Z) (kind : OperationKind) (listener : Z)
| CUnsubscribeOperation (listener : Z)
| CFetchResult (op : option Z) (kind : OperationKind) (x : Exchange)
| CCancelOperation (op : option Z) (sent : bool)
| CRequestDer (reader cert : string) (listener : Z) (sent : bool)
| CCancelDer (token : Z).

Definition perform (c : SeamCall) (t : Transport) : Transport :=
  match c with
  | CSetRegistryListener set => setRegistry set t
  | CProbe d x => (probeAvailability d x t).2
  | CStart d x onDisk => (startAgent d x onDisk t).2
  | CConfigSnapshot x => (configSnapshot x t).2
  | CSetConfig key value x => (setConfigValue key value x t).2
  | CResetConfig key x => (resetConfig key x t).2
  | CImport fd x => (importCscaMasterList fd x t).2
  | CFetchRegistry x => (fetchRegistry x t).2
  | CLayout text px py width height x => (layoutVisualSignature text px py width height x t).2
  | CFont x => (appearanceFont x t).2
  | CSubscribeProperties objectId kind listener => subscribeProperties objectId kind listener t
  | CUnsubscribeProperties listener => unsubscribeProperties listener t
  | CRequestProperties objectId kind listener sent => (requestProperties objectId kind listener sent t).2
  | CStartOperation card rq x => (startOperation card rq x t).2
  | CSubscribeOperation op kind listener => subscribeOperation op kind listener t
  | CUnsubscribeOperation listener => unsubscribeOperation listener t
  | CFetchResult op kind x => (fetchOperationResult op kind x t).2
  | CCancelOperation op sent => cancelOperation op sent t
  | CRequestDer reader cert listener sent => (requestCertificateDer reader cert listener sent t).2
  | CCancelDer token => cancelCertificateDer token t
  end.

(** The counters have room. *)
Definition roomy (t : Transport) : Prop :=
  m_nextRequestId t + 1 < 2 ^ 64 ∧ m_derNextToken t + 1 < 2 ^ 64 ∧ m_generation t + 1 < 2 ^ 64.

Inductive tstep : Transport → Transport → Prop :=
| step_call c t : roomy t → tstep t (perform c t)
| step_readable p t : tstep t (onReadable p t)
| step_task task tasks t : posted t = task :: tasks → tstep t (runTask task (setPosted tasks t))
| step_props_timer id t : tstep t (propsTimedOut id t)
| step_der_timer id t : tstep t (derTimedOut id t)
| step_drain x t : roomy t → m_draining t = true → tstep t (drainTurn x t).

Inductive treach : Transport → Prop :=
| reach_initial : treach initial
| reach_step t t' : treach t → tstep t t' → treach t'.
End Seam.

(** ** What a call does to the queue

    [quiet]: listeners are not told anything; what arrives is put behind what is queued; a
    request that waits for its reply still does, or waits for the notice of the loss. *)

Definition silent (n : Note) : bool :=
  match n with NArrived _ _ | NSent _ _ _ _ => true | _ => false end.

Definition arrivedIn (l : list Note) : list (EventVariant * list Z) :=
  omap (λ n, match n with NArrived e fds => Some (e, fds) | _ => None end) l.
Definition dispatchedIn (l : list Note) : list (EventVariant * list Z) :=
  omap (λ n, match n with NDispatched e fds => Some (e, fds) | _ => None end) l.
Definition eventsOf (l : list DeferredItem) : list (EventVariant * list Z) :=
  omap (λ i, match i with DEvent e fds => Some (e, fds) | _ => None end) l.

(** The tokens of certificates that something will answer. *)
Definition itemDer (i : DeferredItem) : list Z := match i with DLost _ _ ld => (map_to_list ld).*2 | _ => [] end.
Definition taskDer (k : Task) : list Z := match k with TFailDer token _ => [token] | _ => [] end.
Definition errandDer (e : Errand) : list Z := match e with EFailDer token => [token] | _ => [] end.
Definition itemsDer (l : list DeferredItem) : list Z := concat (map itemDer l).
Definition tasksDer (l : list Task) : list Z := concat (map taskDer l).
Definition errandsDer (l : list Errand) : list Z := concat (map errandDer l).
#[global] Arguments itemsDer : simpl never.
#[global] Arguments tasksDer : simpl never.
#[global] Arguments errandsDer : simpl never.
#[global] Arguments eventsOf : simpl never.
#[global] Arguments arrivedIn : simpl never.
#[global] Arguments dispatchedIn : simpl never.

Definition holders (t : Transport) : list Z :=
  tasksDer (posted t) ++ (map_to_list (m_pendingDer t)).*2 ++ itemsDer (m_deferred t) ++ errandsDer (rest t).

Record quiet (t t' : Transport) : Prop := {
  q_listeners : m_derListeners t' = m_derListeners t;
  q_token : m_derNextToken t' = m_derNextToken t;
  q_props : m_propertyWatches t' = m_propertyWatches t;
  q_ops : m_operationWatches t' = m_operationWatches t;
  q_registry : m_registry t' = m_registry t;
  q_draining : m_draining t' = m_draining t;
  q_rest : rest t' = rest t;
  q_queued : (m_drainQueued t = true → TDrain ∈ posted t) → m_drainQueued t' = true → TDrain ∈ posted t';
  q_scheduled : (m_deferred t ≠ [] → m_draining t = true ∨ m_drainQueued t = true) →
                m_deferred t' ≠ [] → m_draining t' = true ∨ m_drainQueued t' = true;
  q_holders : holders t' ≡ₚ holders t;
  q_pending : m_pendingDer t' = m_pendingDer t ∨ m_pendingDer t' = ∅;
  q_ids : m_nextRequestId t' = m_nextRequestId t ∨ m_nextRequestId t' = u64 (m_nextRequestId t + 1);
  q_notes : ∃ ns, notes t' = notes t ++ ns ∧ Forall (λ n, silent n = true) ns ∧
            eventsOf (m_deferred t') = eventsOf (m_deferred t) ++ arrivedIn ns }.

(** As [quiet], and no request is sent. *)
Definition still (t t' : Transport) : Prop := quiet t t' ∧ m_nextRequestId t' = m_nextRequestId t.

Lemma eventsOf_app l1 l2 : eventsOf (l1 ++ l2) = eventsOf l1 ++ eventsOf l2.
Proof. apply omap_app. Qed.
Lemma arrivedIn_app l1 l2 : arrivedIn (l1 ++ l2) = arrivedIn l1 ++ arrivedIn l2.
Proof. apply omap_app. Qed.
Lemma dispatchedIn_app l1 l2 : dispatchedIn (l1 ++ l2) = dispatchedIn l1 ++ dispatchedIn l2.
Proof. apply omap_app. Qed.
Lemma itemsDer_app l1 l2 : itemsDer (l1 ++ l2) = itemsDer l1 ++ itemsDer l2.
Proof. unfold itemsDer. by rewrite map_app, concat_app. Qed.
Lemma tasksDer_app l1 l2 : tasksDer (l1 ++ l2) = tasksDer l1 ++ tasksDer l2.
Proof. unfold tasksDer. by rewrite map_app, concat_app. Qed.

Lemma still_refl t : still t t.
Proof. split; [|done]. split; try done; [by left|by left|]. exists []. by rewrite !app_nil_r. Qed.

Lemma still_trans t1 t2 t3 : still t1 t2 → still t2 t3 → still t1 t3.
Proof.
  intros [[] Hi] [[] Hi2]. split; [|congruence]. split; try congruence; eauto.
  - by etrans.
  - destruct q_pending1 as [->|?]; auto.
  - destruct q_notes1 as (n2 & -> & ? & E2), q_notes0 as (n1 & -> & ? & E1). exists (n1 ++ n2).
    split; [by rewrite app_assoc|]. split; [by apply Forall_app|]. by rewrite E2, E1, arrivedIn_app, app_assoc.
Qed.

Lemma still_quiet t t' : still t t' → quiet t t'.
Proof. by intros []. Qed.

(** A request that is sent, then anything that sends none. *)
Lemma sent_quiet t t' : still (nextRequest t).2 t' → quiet t t'.
Proof.
  intros [[] Hi]. cbn in *. split; try done; try (by right).
  all: cbn in *; eauto.
Qed.

Lemma quiet_still_trans t1 t2 t3 : quiet t1 t2 → still t2 t3 → quiet t1 t3.
Proof.
  intros [] [[] Hi2]. split; try congruence; eauto.
  - by etrans.
  - destruct q_pending1 as [->|?]; auto.
  - destruct q_notes1 as (n2 & -> & ? & E2), q_notes0 as (n1 & -> & ? & E1). exists (n1 ++ n2).
    split; [by rewrite app_assoc|]. split; [by apply Forall_app|]. by rewrite E2, E1, arrivedIn_app, app_assoc.
Qed.

(** A change of what the invariants do not look at. *)
Ltac by_fields := split; [split; try done; [by left|by left|exists []; by rewrite !app_nil_r]|done].

Lemma scheduleDrain_still t : still t (scheduleDrain t).
Proof.
  unfold scheduleDrain. destruct (m_drainQueued t) eqn:E; [apply still_refl|].
  split; [|done]. split; try done.
  - intros _ _. cbn. apply elem_of_app. right. by apply list_elem_of_singleton.
  - intros _ _. by right.
  - unfold holders. cbn. by rewrite tasksDer_app, app_nil_r.
  - by left.
  - by left.
  - exists []. by rewrite !app_nil_r.
Qed.

(** Something put at the end of the queue. *)
Lemma defer_deferred item t : m_deferred (defer item t) = m_deferred t ++ [item].
Proof. unfold defer, scheduleDrain. by destruct (m_drainQueued _). Qed.

Lemma defer_still item ns t t0 :
  still t t0 → itemDer item = [] → eventsOf [item] = arrivedIn ns → Forall (λ n, silent n = true) ns →
  still t (setNotes (notes t0 ++ ns) (defer item t0)).
Proof.
  intros H0 Hd He Hs. apply (still_trans t t0); [done|]. clear H0 t.
  unfold defer, scheduleDrain. cbn [m_drainQueued setDeferred]. destruct (m_drainQueued t0) eqn:E.
  - split; [|done]. split; try done; cbn.
    + intros _ _. by right.
    + unfold holders. cbn. rewrite itemsDer_app. unfold itemsDer at 2. cbn. by rewrite Hd, !app_nil_r.
    + by left.
    + by left.
    + exists ns. by rewrite eventsOf_app, He.
  - split; [|done]. split; try done; cbn.
    + intros _ _. apply elem_of_app. right. by apply list_elem_of_singleton.
    + intros _ _. by right.
    + unfold holders. cbn. rewrite itemsDer_app, tasksDer_app. unfold itemsDer at 2. cbn. by rewrite Hd, !app_nil_r.
    + by left.
    + by left.
    + exists ns. by rewrite eventsOf_app, He.
Qed.

Lemma setNotes_same t : setNotes (notes t) t = t.
Proof. by destruct t. Qed.

Lemma defer_notes item t : notes (defer item t) = notes t.
Proof. unfold defer, scheduleDrain. by destruct (m_drainQueued _). Qed.

Lemma dropConnection_still t : still t (dropConnection t).
Proof.
  unfold dropConnection. destruct (m_fd t); cbn [negb]; [|apply still_refl].
  destruct (m_established t); cbn [negb]; [|by_fields].
  unfold defer, scheduleDrain. cbn [m_drainQueued setPendingDer setPendingProps setConfig setConfigFetched setFeatures setAgentVersion
    setQuiesced setEstablished setFd setDeferred].
  assert (∀ l r d p, l ++ [] ++ (itemsDer d ++ itemsDer [DLost (m_generation t) p (m_pendingDer t)]) ++ r ≡ₚ
    l ++ (map_to_list (m_pendingDer t)).*2 ++ itemsDer d ++ r) as Hperm.
  { intros l r d p. unfold itemsDer at 2. cbn. rewrite app_nil_r. by rewrite (Permutation_app_comm (itemsDer _)), <-!app_assoc. }
  assert (∀ d p, eventsOf (d ++ [DLost (m_generation t) p (m_pendingDer t)]) = eventsOf d ++ arrivedIn []) as Hev.
  { intros d p. by rewrite eventsOf_app. }
  destruct (m_drainQueued t) eqn:E; (split; [|done]); split; try done; cbn.
  all: lazymatch goal with
    | |- _ ≡ₚ _ => unfold holders; cbn; rewrite itemsDer_app, ?tasksDer_app, map_to_list_empty; cbn; rewrite ?app_nil_r; apply Hperm
    | |- ∃ ns, _ => exists []; by rewrite Hev, !app_nil_r
    | |- _ → _ → _ ∈ _ => intros _ _; apply elem_of_app; right; by apply list_elem_of_singleton
    | |- _ → _ → _ ∨ _ => intros _ _; by right
    | |- ?x = _ ∨ ∅ = ∅ => by right
    | |- _ ∨ _ => by left
    end.
Qed.

Section Calls.
Context {ctx : Type} `{!Qcbor ctx} {variants : VariantOps}.
Variable setup : Setup.

Lemma absorbFrame_still f awaited out t out' t' : absorbFrame f awaited out t = Some (out', t') → still t t'.
Proof.
  unfold absorbFrame. destruct (parseReply _ _) as [r|].
  - destruct (bool_decide _); intros [= _ <-]; [apply still_refl|]. rewrite <-(setNotes_same (defer _ t)), defer_notes, <-(app_nil_r (notes t)).
    apply defer_still; [apply still_refl|done..|constructor].
  - destruct (parseEvent _ _) as [e|]; [|done]. intros [= _ <-]. unfold note. rewrite defer_notes.
    apply defer_still; [apply still_refl|done|done|]. by repeat constructor.
Qed.

Lemma absorbFrames_still id fs out t : still t (absorbFrames id fs out t).2.
Proof.
  revert out t. induction fs as [|f fs IH]; intros out t; cbn [absorbFrames]; [apply still_refl|].
  destruct (absorbFrame _ _ _ _) as [[out' t']|] eqn:E; [|apply still_refl]. apply absorbFrame_still in E.
  by apply (still_trans t t').
Qed.

Lemma awaitSync_still id rounds out t : still t (awaitSync id rounds out t).2.
Proof.
  revert out t. induction rounds as [|[| | |p] rounds IH]; intros out t; cbn [awaitSync]; try done; try apply still_refl.
  { apply dropConnection_still. }
  pose proof (absorbFrames_still (Some id) (frames p) out t) as Hf. destruct (absorbFrames _ _ _ _) as [[malformed out'] t'].
  cbn in Hf. assert (still t (dropConnection t')) by (apply (still_trans t t'); [done|apply dropConnection_still]).
  destruct malformed; [done|]. destruct (status p); try done. destruct (bool_decide _); [done|]. by apply (still_trans t t').
Qed.

Lemma callSync_quiet request timeoutMs passFds x t : quiet t (callSync request timeoutMs passFds x t).2.
Proof.
  unfold callSync. destruct (negb (m_fd t)); [apply still_quiet, still_refl|].
  pose proof (sent_quiet t) as Hs. destruct (nextRequest t) as [id t1]. cbn in Hs.
  destruct (negb (x_sent x)); [apply Hs, dropConnection_still|].
  assert (still t1 (note (NSent id request passFds timeoutMs) t1)) as Hn.
  { split; [|done]. split; try done; [by left|by left|]. exists [NSent id request passFds timeoutMs]. cbn.
    split; [done|]. split; [by repeat constructor|]. by rewrite app_nil_r. }
  pose proof (awaitSync_still id (x_rounds x) (mkSync Timeout None []) (note (NSent id request passFds timeoutMs) t1)) as Ha.
  destruct (awaitSync _ _ _ _) as [out t2]. cbn in *. apply Hs. pose proof (still_trans _ _ _ Hn Ha) as H2.
  destruct (m_deferred t2); [done|]. apply (still_trans t1 t2); [done|apply scheduleDrain_still].
Qed.

(** An exchange, then a change of what the invariants do not look at. *)
Definition plain (t t' : Transport) : Prop :=
  m_derListeners t' = m_derListeners t ∧ m_derNextToken t' = m_derNextToken t ∧ m_propertyWatches t' = m_propertyWatches t ∧
  m_operationWatches t' = m_operationWatches t ∧ m_registry t' = m_registry t ∧ m_draining t' = m_draining t ∧ rest t' = rest t ∧
  m_drainQueued t' = m_drainQueued t ∧ posted t' = posted t ∧ m_deferred t' = m_deferred t ∧ m_pendingDer t' = m_pendingDer t ∧
  m_nextRequestId t' = m_nextRequestId t ∧ notes t' = notes t.

Lemma plain_still t t' : plain t t' → still t t'.
Proof.
  intros (E1&E2&E3&E4&E5&E6&E7&E8&E9&E10&E11&E12&E13). split; [|done].
  split; rewrite ?E1, ?E2, ?E3, ?E4, ?E5, ?E6, ?E7, ?E8, ?E9, ?E10, ?E11, ?E12; try done.
  - unfold holders. by rewrite E7, E9, E10, E11.
  - by left.
  - by left.
  - exists []. by rewrite E13, !app_nil_r.
Qed.

Lemma callSync_then request timeoutMs passFds x t t' :
  plain (callSync request timeoutMs passFds x t).2 t' → quiet t t'.
Proof. intros H. eapply quiet_still_trans; [apply callSync_quiet|by apply plain_still]. Qed.

(** The same when something plain came first. *)
Lemma quiet_after t t1 t' : plain t t1 → quiet t1 t' → quiet t t'.
Proof.
  intros (E1&E2&E3&E4&E5&E6&E7&E8&E9&E10&E11&E12&E13) [].
  assert (holders t1 = holders t) as Hh by (unfold holders; by rewrite E7, E9, E10, E11).
  rewrite E6, E8, E9, E10 in *. rewrite E11 in *. rewrite E12 in *. rewrite E13 in *. rewrite Hh in *. split; congruence || done.
Qed.

Ltac exchange := 
  match goal with |- context [callSync ?r ?ms ?fds ?x ?t] =>
    let H := fresh in pose proof (λ t', callSync_then r ms fds x t t') as H;
    destruct (callSync r ms fds x t) as [result t1]; cbn [snd] in *; apply H; clear H
  end.

Lemma refreshConfig_quiet x t : quiet t (refreshConfig x t).
Proof. unfold refreshConfig. exchange. by repeat case_match. Qed.

Lemma connect_quiet d t : quiet t (connectAndHandshake setup d t).2.
Proof.
  unfold connectAndHandshake.
  repeat match goal with |- context [if ?c then (false, t) else _] => destruct c; [apply still_quiet, still_refl|] end.
  apply (quiet_after t (setFd true t)); [done|]. exchange. by repeat case_match.
Qed.

Lemma probe_quiet d x t : quiet t (probeAvailability setup d x t).2.
Proof.
  unfold probeAvailability. destruct (negb (m_fd t)); [apply connect_quiet|]. destruct (m_quiesced t); [|apply still_quiet, still_refl].
  exchange. by repeat case_match.
Qed.

(** The calls that ask the agent something and wait. *)
Definition isSync (c : SeamCall) : bool :=
  match c with
  | CSetRegistryListener _ | CSubscribeProperties _ _ _ | CUnsubscribeProperties _ | CRequestProperties _ _ _ _
  | CSubscribeOperation _ _ _ | CUnsubscribeOperation _ | CRequestDer _ _ _ _ | CCancelDer _ => false
  | _ => true
  end.

Lemma sync_quiet c t : isSync c = true → quiet t (perform setup c t).
Proof.
  destruct c; cbn [isSync perform]; try done; intros _.
  - apply probe_quiet.
  - unfold startAgent. pose proof (probe_quiet d x t). by destruct (probeAvailability setup d x t).
  - unfold configSnapshot. destruct (m_configFetched t); [apply still_quiet, still_refl|].
    apply (quiet_after t (setConfigFetched true t)); [done|]. apply refreshConfig_quiet.
  - unfold setConfigValue. repeat match goal with |- context [if ?c then (Some _, t) else _] => destruct c; [apply still_quiet, still_refl|] end.
    by exchange.
  - unfold resetConfig. destruct (negb _); [apply still_quiet, still_refl|]. by exchange.
  - unfold importCscaMasterList. by exchange.
  - unfold fetchRegistry. by exchange.
  - unfold layoutVisualSignature. by exchange.
  - unfold appearanceFont. destruct (m_appearanceFontFetched t); [apply still_quiet, still_refl|].
    apply (quiet_after t (setAppearanceFontFetched true t)); [done|]. exchange. by repeat case_match.
  - unfold startOperation. destruct (_ && _); [apply still_quiet, still_refl|]. destruct (wireRequest card rq) as [|[wire passFds]];
      [apply still_quiet, still_refl|]. by exchange.
  - unfold fetchOperationResult. destruct (negb _); [apply still_quiet, still_refl|]. destruct op; [|apply still_quiet, still_refl]. by exchange.
  - unfold cancelOperation. destruct op; [|apply still_quiet, still_refl]. destruct (negb _); [apply still_quiet, still_refl|].
    pose proof (sent_quiet t) as Hs. destruct (nextRequest t) as [id t1]. cbn in Hs. apply Hs. destruct sent; [|apply dropConnection_still].
    split; [|done]. split; try done; [by left|by left|]. eexists [_]. split; [done|]. split; [by repeat constructor|]. by rewrite app_nil_r.
Qed.

(** ** The books on certificates *)

Definition tally (token : Z) (n : Note) : Z :=
  match n with
  | NAskedDer k => if k =? token then 1 else 0
  | CertificateDer _ k _ | NGaveUpDer k => if k =? token then -1 else 0
  | _ => 0
  end.
Definition balance (token : Z) (l : list Note) : Z := foldr (λ n z, tally token n + z) 0 l.

Definition askedIn (l : list Note) : list Z := omap (λ n, match n with NAskedDer k => Some k | _ => None end) l.

Lemma balance_cons token n l : balance token (n :: l) = tally token n + balance token l.
Proof. done. Qed.
#[global] Arguments balance : simpl never.
Lemma balance_app token l1 l2 : balance token (l1 ++ l2) = balance token l1 + balance token l2.
Proof.
  induction l1 as [|n l1 IH]; [done|]. cbn [app].
  rewrite !balance_cons, IH. lia.
Qed.
Lemma askedIn_app l1 l2 : askedIn (l1 ++ l2) = askedIn l1 ++ askedIn l2.
Proof. apply omap_app. Qed.
#[global] Arguments askedIn : simpl never.

Lemma silent_balance token ns : Forall (λ n, silent n = true) ns → balance token ns = 0.
Proof. induction 1 as [|n ns Hn _ IH]; [done|]. rewrite balance_cons, IH. by destruct n. Qed.
Lemma silent_asked ns : Forall (λ n, silent n = true) ns → askedIn ns = [] ∧ dispatchedIn ns = [].
Proof. induction 1 as [|n ns Hn _ [IH1 IH2]]; [done|]. unfold askedIn, dispatchedIn in *. by destruct n. Qed.

(** What the loop needs to get every answer out: a certificate that is asked for is held by
    something, and what is queued will be drained. *)
Record Loop (t : Transport) : Prop := {
  l_held : ∀ token, is_Some (m_derListeners t !! token) → token ∈ holders t;
  l_queued : m_drainQueued t = true → TDrain ∈ posted t;
  l_scheduled : m_deferred t ≠ [] → m_draining t = true ∨ m_drainQueued t = true;
  l_rest : rest t ≠ [] → m_draining t = true }.

Record Book (t : Transport) : Prop := {
  b_balance : ∀ token, balance token (notes t) = match m_derListeners t !! token with Some _ => 1 | None => 0 end;
  b_asked : NoDup (askedIn (notes t));
  b_next : ∀ token, token ∈ askedIn (notes t) → token ≤ m_derNextToken t;
  b_known : ∀ token, is_Some (m_derListeners t !! token) → token ∈ askedIn (notes t);
  b_ids : ∀ id, is_Some (m_pendingDer t !! id) → id ≤ m_nextRequestId t;
  b_low : 0 ≤ m_nextRequestId t ∧ 0 ≤ m_derNextToken t;
  b_events : arrivedIn (notes t) = dispatchedIn (notes t) ++ eventsOf (m_deferred t) }.

Lemma quiet_loop t t' : quiet t t' → Loop t → Loop t'.
Proof.
  intros [] []. split.
  - intros token. rewrite q_listeners0, q_holders0. auto.
  - auto.
  - auto.
  - by rewrite q_rest0, q_draining0.
Qed.

Lemma quiet_book t t' : quiet t t' → m_nextRequestId t + 1 < 2 ^ 64 → Book t → Book t'.
Proof.
  intros [] Hroom []. destruct q_notes0 as (ns & En & Hs & Ee). pose proof (silent_asked _ Hs) as [Ha Hd].
  assert (m_nextRequestId t ≤ m_nextRequestId t') as Hid.
  { destruct q_ids0 as [->| ->]; [lia|]. unfold u64. rewrite wrap_small; lia. }
  split.
  - intros token. rewrite En, balance_app, (silent_balance _ _ Hs), q_listeners0, Z.add_0_r. done.
  - by rewrite En, askedIn_app, Ha, app_nil_r.
  - intros token. rewrite En, askedIn_app, Ha, app_nil_r, q_token0. auto.
  - intros token. rewrite En, askedIn_app, Ha, app_nil_r, q_listeners0. auto.
  - intros id Hi. destruct q_pending0 as [E|E]; rewrite E in Hi; [specialize (b_ids0 id Hi); lia|]. rewrite lookup_empty in Hi. by destruct Hi.
  - rewrite q_token0. lia.
  - rewrite En, arrivedIn_app, dispatchedIn_app, Hd, app_nil_r, Ee, b_events0. by rewrite app_assoc.
Qed.

(** A callback that is about no certificate. *)
Definition neutral (n : Note) : bool :=
  match n with
  | CertificateDer _ _ _ | NArrived _ _ | NDispatched _ _ | NAskedDer _ | NGaveUpDer _ => false
  | _ => true
  end.

Lemma neutral_notes n l : neutral n = true →
  (∀ token, balance token (l ++ [n]) = balance token l) ∧ askedIn (l ++ [n]) = askedIn l ∧
  arrivedIn (l ++ [n]) = arrivedIn l ∧ dispatchedIn (l ++ [n]) = dispatchedIn l.
Proof.
  intros Hn. rewrite askedIn_app, arrivedIn_app, dispatchedIn_app. split.
  { intros token. rewrite balance_app, balance_cons. change (balance token []) with 0. destruct n; try done; cbn; lia. }
  destruct n; try done; cbn; by rewrite !app_nil_r.
Qed.

Lemma neutral_book n t : neutral n = true → Book t → Book (note n t).
Proof.
  intros Hn []. destruct (neutral_notes n (notes t) Hn) as (E1 & E2 & E3 & E4).
  split; cbn; rewrite ?E2, ?E3, ?E4; try done. intros token. by rewrite E1.
Qed.

Lemma note_loop n t : Loop t → Loop (note n t).
Proof. by intros []. Qed.

(** The parts of the state the two invariants look at. *)
Definition alike (t t' : Transport) : Prop :=
  m_derListeners t' = m_derListeners t ∧ m_derNextToken t' = m_derNextToken t ∧ m_draining t' = m_draining t ∧ rest t' = rest t ∧
  m_drainQueued t' = m_drainQueued t ∧ posted t' = posted t ∧ m_deferred t' = m_deferred t ∧ m_pendingDer t' = m_pendingDer t ∧
  m_nextRequestId t' = m_nextRequestId t ∧ notes t' = notes t.

Lemma alike_both t t' : alike t t' → Loop t ∧ Book t → Loop t' ∧ Book t'.
Proof.
  intros (E1&E2&E3&E4&E5&E6&E7&E8&E9&E10) [[] []].
  assert (holders t' = holders t) as Hh by (unfold holders; by rewrite E4, E6, E7, E8).
  split; split; rewrite ?E1, ?E2, ?E3, ?E4, ?E5, ?E6, ?E7, ?E8, ?E9, ?E10, ?Hh; done.
Qed.

(** A certificate is answered by what held it. *)
Lemma tellDer_loop token outcome t t1 :
  Loop t → m_derListeners t1 = m_derListeners t → (∀ k, k ≠ token → k ∈ holders t → k ∈ holders t1) →
  (m_drainQueued t1 = true → TDrain ∈ posted t1) → (m_deferred t1 ≠ [] → m_draining t1 = true ∨ m_drainQueued t1 = true) →
  (rest t1 ≠ [] → m_draining t1 = true) → Loop (tellDer token outcome t1).
Proof.
  intros [] El Hh Hq Hs Hr. assert (Loop (setDerListeners (delete token (m_derListeners t1)) t1)) as H.
  { split; cbn; try done. intros k Hk. rewrite El in Hk. destruct (decide (k = token)) as [->|Hne].
    - rewrite lookup_delete_eq in Hk. by destruct Hk.
    - rewrite lookup_delete_ne in Hk by done. by apply Hh, l_held0. }
  unfold tellDer, takeIfPresent. destruct (m_derListeners t1 !! token); [by apply note_loop|done].
Qed.

Lemma tellDer_book token outcome t : Book t → Book (tellDer token outcome t).
Proof.
  intros []. unfold tellDer, takeIfPresent. destruct (m_derListeners t !! token) as [l|] eqn:E; last first.
  { rewrite delete_id by done. split; try done. }
  split; cbn; try done.
  - intros k. rewrite balance_app, balance_cons, b_balance0. cbn. change (balance k []) with 0. destruct (Z.eqb_spec token k) as [->|Hne].
    + by rewrite E, lookup_delete_eq.
    + rewrite lookup_delete_ne by done. destruct (m_derListeners t !! k); lia.
  - by rewrite askedIn_app, app_nil_r.
  - by rewrite askedIn_app, app_nil_r.
  - intros k Hk. rewrite askedIn_app, app_nil_r. apply b_known0. destruct (decide (k = token)) as [->|Hne]; [by rewrite E|].
    by rewrite lookup_delete_ne in Hk.
  - by rewrite arrivedIn_app, dispatchedIn_app, !app_nil_r.
Qed.

Definition both (t : Transport) : Prop := Loop t ∧ Book t.

Lemma quiet_both t t' : quiet t t' → roomy t → both t → both t'.
Proof. intros Hq (Hr & _) [? ?]. split; [by apply (quiet_loop t)|by apply (quiet_book t)]. Qed.

Lemma still_both t t' : still t t' → both t → both t'.
Proof.
  intros [Hq Hi] [Hl Hb]. split; [by apply (quiet_loop t)|]. destruct Hb.
  destruct Hq, q_notes0 as (ns & En & Hs & Ee). pose proof (silent_asked _ Hs) as [Ha Hd]. split.
  - intros token. by rewrite En, balance_app, (silent_balance _ _ Hs), q_listeners0, Z.add_0_r.
  - by rewrite En, askedIn_app, Ha, app_nil_r.
  - intros token. rewrite En, askedIn_app, Ha, app_nil_r, q_token0. auto.
  - intros token. rewrite En, askedIn_app, Ha, app_nil_r, q_listeners0. auto.
  - intros id Hid. rewrite Hi. destruct q_pending0 as [E|E]; rewrite E in Hid; [auto|]. rewrite lookup_empty in Hid. by destruct Hid.
  - by rewrite q_token0, Hi.
  - rewrite En, arrivedIn_app, dispatchedIn_app, Hd, app_nil_r, Ee, b_events0. by rewrite app_assoc.
Qed.

Lemma post_still task t : taskDer task = [] → still t (post task t).
Proof.
  intros Hd. split; [|done]. split; try done; cbn.
  - intros H1 H2. apply elem_of_app. auto.
  - unfold holders. cbn. rewrite tasksDer_app. unfold tasksDer at 2. cbn. by rewrite Hd, !app_nil_r.
  - by left.
  - by left.
  - exists []. by rewrite !app_nil_r.
Qed.

Lemma sent_still id r fds ms t : still t (note (NSent id r fds ms) t).
Proof.
  split; [|done]. split; try done; [by left|by left|]. eexists [_]. split; [done|]. split; [by repeat constructor|]. by rewrite app_nil_r.
Qed.

Lemma requestProperties_quiet objectId kind l sent t : quiet t (requestProperties objectId kind l sent t).2.
Proof.
  unfold requestProperties. set (t1 := setNextPropsToken _ t). apply (quiet_after t t1); [done|].
  destruct (negb (isConnected t1)); [by apply still_quiet, post_still|].
  pose proof (sent_quiet t1) as Hs. destruct (nextRequest t1) as [id t2]. cbn in Hs. apply Hs. destruct sent; cbn [negb].
  - eapply still_trans; [apply sent_still|]. by apply plain_still.
  - eapply still_trans; [apply dropConnection_still|]. by apply post_still.
Qed.

Lemma cancelCertificateDer_both token t : both t → both (cancelCertificateDer token t).
Proof.
  intros [[] []]. unfold cancelCertificateDer, cancelDer. destruct (m_derListeners t !! token) as [l|] eqn:E; last first.
  { by rewrite delete_id by done. }
  assert (∀ k, is_Some (delete token (m_derListeners t) !! k) → is_Some (m_derListeners t !! k)) as Hdel.
  { intros k Hk. destruct (decide (k = token)) as [->|Hne]; [by rewrite E|by rewrite lookup_delete_ne in Hk]. }
  split; split; cbn; try done.
  - intros k Hk. by apply l_held0, Hdel.
  - intros k. rewrite balance_app, balance_cons, b_balance0. cbn. change (balance k []) with 0. destruct (Z.eqb_spec token k) as [->|Hne].
    + by rewrite E, lookup_delete_eq.
    + rewrite lookup_delete_ne by done. destruct (m_derListeners t !! k); lia.
  - by rewrite askedIn_app, app_nil_r.
  - by rewrite askedIn_app, app_nil_r.
  - intros k Hk. rewrite askedIn_app, app_nil_r. by apply b_known0, Hdel.
  - by rewrite arrivedIn_app, dispatchedIn_app, !app_nil_r.
Qed.

(** A new token is on the books before anything holds it. *)
Lemma asked_book listener t token t' :
  Book t → roomy t → addDer listener t = (token, t') → Book (note (NAskedDer token) t') ∧ token ∉ askedIn (notes t).
Proof.
  intros [] (_ & Hr & _) [= <- <-]. unfold u64. rewrite wrap_small by lia. remember (m_derNextToken t + 1) as k eqn:Ek.
  assert (k ∉ askedIn (notes t)) as Hnew. { intros Hk%b_next0. lia. }
  assert (m_derListeners t !! k = None) as Hfree. { apply eq_None_not_Some. intros Hk%b_known0. done. }
  split; [|done]. split; cbn; try done.
  - intros j. rewrite balance_app, balance_cons, b_balance0. cbn. change (balance j []) with 0. destruct (Z.eqb_spec k j) as [<-|Hne].
    + by rewrite Hfree, lookup_insert_eq.
    + rewrite lookup_insert_ne by done. destruct (m_derListeners t !! j); lia.
  - rewrite askedIn_app. apply NoDup_app. split; [done|]. split; [|apply NoDup_singleton].
    intros j Hj Hk. change (askedIn [NAskedDer k]) with [k] in Hk. apply list_elem_of_singleton in Hk as ->. done.
  - intros j. rewrite askedIn_app, elem_of_app. change (askedIn [NAskedDer k]) with [k]. rewrite list_elem_of_singleton.
    intros [Hj%b_next0| ->]; lia.
  - intros j Hj. rewrite askedIn_app, elem_of_app. change (askedIn [NAskedDer k]) with [k]. rewrite list_elem_of_singleton.
    destruct (decide (j = k)) as [->|Hne]; [by right|]. rewrite lookup_insert_ne in Hj by done. left. auto.
  - lia.
  - by rewrite arrivedIn_app, dispatchedIn_app, !app_nil_r.
Qed.

(** The token is held from then on. *)
Lemma hold_loop listener t token t1 t' :
  Loop t → addDer listener t = (token, t1) → quiet (note (NAskedDer token) t1) t' →
  ∀ t'', m_derListeners t'' = m_derListeners t' → (∀ k, k = token ∨ k ∈ holders t' → k ∈ holders t'') →
  (TDrain ∈ posted t' → TDrain ∈ posted t'') → m_drainQueued t'' = m_drainQueued t' → m_deferred t'' = m_deferred t' →
  m_draining t'' = m_draining t' → rest t'' = rest t' → Loop t''.
Proof.
  intros [] [= <- <-] [] t'' E1 Hh Hp E2 E3 E4 E5. cbn in *. split.
  - intros k Hk. rewrite E1, q_listeners0 in Hk. apply Hh. set (u := u64 _) in *. destruct (decide (k = u)) as [->|Hne]; [by left|].
    rewrite lookup_insert_ne in Hk by done. right. rewrite q_holders0. by apply l_held0.
  - rewrite E2. auto.
  - rewrite E2, E3, E4. auto.
  - rewrite E4, E5, q_rest0, q_draining0. done.
Qed.

Lemma holders_post_der token e t k : k = token ∨ k ∈ holders t → k ∈ holders (post (TFailDer token e) t).
Proof.
  unfold holders. cbn. rewrite tasksDer_app. change (tasksDer [TFailDer token e]) with [token].
  rewrite !elem_of_app, list_elem_of_singleton. tauto.
Qed.

Lemma post_der_both listener t token t1 t' e :
  both t → roomy t → addDer listener t = (token, t1) → quiet (note (NAskedDer token) t1) t' →
  both (post (TFailDer token e) t').
Proof.
  intros [Hl Hb] Hr Ha Hq. split.
  - eapply (hold_loop listener t token t1 t'); try done; [intros; by apply holders_post_der|]. cbn. rewrite elem_of_app. auto.
  - destruct (asked_book _ _ _ _ Hb Hr Ha) as [Hb1 _]. injection Ha as <- <-.
    assert (Book t') as []; [|by split]. eapply quiet_book; [done| |done]. cbn. by destruct Hr.
Qed.

Lemma requestCertificateDer_both reader cert l sent t : roomy t → both t → both (requestCertificateDer reader cert l sent t).2.
Proof.
  intros Hr Hb. unfold requestCertificateDer. destruct (addDer l t) as [token t1] eqn:Ea.
  set (t2 := note (NAskedDer token) t1).
  destruct (negb (isConnected t2)); [by eapply post_der_both; [done|done|done|apply still_quiet, still_refl]|].
  destruct (nextRequest t2) as [id t3] eqn:En. pose proof (sent_quiet t2) as Hs. rewrite En in Hs. cbn in Hs.
  destruct sent; cbn [negb snd].
  - set (t4 := note _ t3). assert (quiet t2 t4) as Hq by (apply Hs, sent_still).
    destruct (asked_book _ _ _ _ (proj2 Hb) Hr Ea) as [Hb2 Hnew]. fold t2 in Hb2.
    assert (Hroom : m_nextRequestId t2 + 1 < 2 ^ 64). { injection Ea as _ <-. by destruct Hr. }
    assert (Book t4) as Hb4 by by apply (quiet_book t2).
    assert (m_pendingDer t4 !! id = None) as Hfree.
    { assert (id = m_nextRequestId t2 + 1) as Hid.
      { injection En as <- _. destruct (b_low _ Hb2). apply wrap_small. lia. }
      assert (m_pendingDer t4 = m_pendingDer t2) as -> by by injection En as _ <-.
      apply eq_None_not_Some. intros Hsome%(b_ids _ Hb2). lia. }
    split.
    + eapply (hold_loop l t token t1 t4); try done; [apply Hb|]. intros k. unfold holders. cbn.
      rewrite map_to_list_insert by done. cbn. rewrite !elem_of_app, elem_of_cons, !elem_of_app. tauto.
    + destruct Hb4. split; try done. cbn. intros j Hj. destruct (decide (j = id)) as [->|Hne].
      * injection En as <- <-. done.
      * rewrite lookup_insert_ne in Hj by done. auto.
  - eapply post_der_both; [done|done|done|]. apply Hs, dropConnection_still.
Qed.

Lemma perform_both c t : roomy t → both t → both (perform setup c t).
Proof.
  intros Hr Hb. destruct (isSync c) eqn:Es; [eapply quiet_both; [by apply sync_quiet|done|done]|].
  destruct c; try done; cbn [perform].
  1,2,3,6: by apply (alike_both t).
  - eapply quiet_both; [apply requestProperties_quiet|done|done].
  - destruct op; [|done]. by apply (alike_both t).
  - by apply requestCertificateDer_both.
  - by apply cancelCertificateDer_both.
Qed.

(** ** The steps of the loop *)

Lemma tellFetched_loop l token objectId props t : Loop t → Loop (tellFetched l token objectId props t).
Proof. unfold tellFetched. destruct (watches _ _ _); [apply note_loop|done]. Qed.
Lemma tellFetched_book l token objectId props t : Book t → Book (tellFetched l token objectId props t).
Proof. unfold tellFetched. destruct (watches _ _ _); [by apply neutral_book|done]. Qed.
Lemma tellRegistry_loop n t : Loop t → Loop (tellRegistry n t).
Proof. unfold tellRegistry. destruct (m_registry t); [apply note_loop|done]. Qed.
Lemma tellRegistry_book n t : neutral n = true → Book t → Book (tellRegistry n t).
Proof. unfold tellRegistry. destruct (m_registry t); [apply neutral_book|done]. Qed.
Lemma tellOperation_loop op n t : Loop t → Loop (tellOperation op n t).
Proof. unfold tellOperation. destruct (operationListenerFor _ _); [apply note_loop|done]. Qed.
Lemma tellOperation_book op n t : (∀ l, neutral (n l) = true) → Book t → Book (tellOperation op n t).
Proof. unfold tellOperation. destruct (operationListenerFor _ _); [|done]. intros Hn. apply neutral_book, Hn. Qed.

Lemma drainDeferred_loop t :
  Loop t ∨ m_drainQueued t = true ∧ Loop (setPosted (TDrain :: posted t) t) → Loop (drainDeferred t).
Proof.
  intros Hl. assert (Loop (setDraining true (setDrainQueued false t))) as H.
  { destruct Hl as [[]|[_ []]]; split; cbn in *; try done; by left. }
  unfold drainDeferred. cbn [m_draining setDrainQueued]. destruct (m_draining t) eqn:E; [|done].
  assert (setDraining true (setDrainQueued false t) = setDrainQueued false t) as <-; [|done].
  unfold setDraining, setDrainQueued. cbn. by rewrite <-E.
Qed.
Lemma drainDeferred_book t : Book t → Book (drainDeferred t).
Proof. intros []. unfold drainDeferred. by case_match. Qed.

Lemma onReadable_both p t : both t → both (onReadable p t).
Proof.
  intros Hb. unfold onReadable. destruct (negb (m_fd t)); [done|].
  pose proof (absorbFrames_still None (frames p) (mkSync Timeout None []) t) as Hs.
  destruct (absorbFrames _ _ _ _) as [[malformed out] t1]. cbn in Hs.
  assert (∀ t2, t2 = t1 ∨ t2 = dropConnection t1 → both (drainDeferred t2)) as H.
  { intros t2 H2. assert (both t2) as [? ?].
    { apply (still_both t); [|done]. destruct H2 as [->| ->]; [done|]. eapply still_trans; [done|apply dropConnection_still]. }
    split; [apply drainDeferred_loop; by left|by apply drainDeferred_book]. }
  apply H. destruct malformed; [by right|]. destruct (status p); auto.
Qed.

Lemma runTask_loop task tasks t : posted t = task :: tasks → Loop t → Loop (runTask task (setPosted tasks t)).
Proof.
  intros Hp [].
  destruct task as [|token objectId l|token e]; cbn [runTask].
  - apply drainDeferred_loop. assert (∀ k, k ∈ holders t → k ∈ holders (setPosted tasks t)) as Hh.
    { intros k. unfold holders. rewrite Hp. done. }
    destruct (m_drainQueued t) eqn:E.
    + right. split; [done|]. split; cbn; rewrite ?E; auto. intros _. apply elem_of_cons. by left.
    + left. split; cbn; rewrite ?E; try done. intros k Hk. by apply Hh, l_held0.
  - apply tellFetched_loop. split; cbn; try done.
    + intros k Hk%l_held0. unfold holders in *. rewrite Hp in Hk. done.
    + intros Hq%l_queued0. rewrite Hp in Hq. by apply elem_of_cons in Hq as [?|?].
  - eapply (tellDer_loop _ _ t); try done.
    + intros k Hne. unfold holders. rewrite Hp. cbn. change (tasksDer (TFailDer token e :: tasks)) with (token :: tasksDer tasks).
      cbn. rewrite elem_of_cons. by intros [?|?].
    + cbn. intros Hq%l_queued0. rewrite Hp in Hq. by apply elem_of_cons in Hq as [?|?].
Qed.
Lemma runTask_book task tasks t : Book t → Book (runTask task (setPosted tasks t)).
Proof.
  intros Hb. assert (Book (setPosted tasks t)) as Hb1 by by destruct Hb.
  destruct task; cbn [runTask]; [by apply drainDeferred_book|by apply tellFetched_book|by apply tellDer_book].
Qed.

(** A change of the requests for properties that wait. *)
Lemma setPendingProps_loop m t : Loop t → Loop (setPendingProps m t).
Proof. by intros []. Qed.
Lemma setPendingProps_book m t : Book t → Book (setPendingProps m t).
Proof. by intros []. Qed.

(** A reply or a timer takes the certificate from the table. *)
Lemma pendingDer_loop id token outcome t :
  m_pendingDer t !! id = Some token → Loop t → Loop (tellDer token outcome (setPendingDer (delete id (m_pendingDer t)) t)).
Proof.
  intros Hp []. eapply (tellDer_loop _ _ t); try done. intros k Hne. unfold holders. cbn.
  rewrite <-(map_to_list_delete _ id token Hp). cbn. rewrite !elem_of_app, elem_of_cons, !elem_of_app. tauto.
Qed.
Lemma pendingDer_book id token outcome t : Book t → Book (tellDer token outcome (setPendingDer (delete id (m_pendingDer t)) t)).
Proof.
  intros []. apply tellDer_book. split; try done. cbn. intros j Hj. apply b_ids0.
  destruct (decide (j = id)) as [->|Hne]; [rewrite lookup_delete_eq in Hj; by destruct Hj|by rewrite lookup_delete_ne in Hj].
Qed.

Lemma propsTimedOut_loop id t : Loop t → Loop (propsTimedOut id t).
Proof. intros Hb. unfold propsTimedOut. destruct (m_pendingProps t !! id); [|done]. by apply tellFetched_loop, setPendingProps_loop. Qed.
Lemma propsTimedOut_book id t : Book t → Book (propsTimedOut id t).
Proof. intros Hb. unfold propsTimedOut. destruct (m_pendingProps t !! id); [|done]. by apply tellFetched_book, setPendingProps_book. Qed.
Lemma derTimedOut_loop id t : Loop t → Loop (derTimedOut id t).
Proof. intros Hb. unfold derTimedOut. destruct (m_pendingDer t !! id) eqn:E; [|done]. by apply pendingDer_loop. Qed.
Lemma derTimedOut_book id t : Book t → Book (derTimedOut id t).
Proof. intros Hb. unfold derTimedOut. destruct (m_pendingDer t !! id) eqn:E; [|done]. by apply pendingDer_book. Qed.

Lemma dispatchAsyncReply_loop d t : Loop t → Loop (dispatchAsyncReply d t).
Proof.
  intros Hb. unfold dispatchAsyncReply. destruct (m_pendingProps t !! requestId d) as [p|].
  { by apply tellFetched_loop, setPendingProps_loop. }
  destruct (m_pendingDer t !! requestId d) eqn:E; [|done]. by apply pendingDer_loop.
Qed.
Lemma dispatchAsyncReply_book d t : Book t → Book (dispatchAsyncReply d t).
Proof.
  intros Hb. unfold dispatchAsyncReply. destruct (m_pendingProps t !! requestId d) as [p|].
  { by apply tellFetched_book, setPendingProps_book. }
  destruct (m_pendingDer t !! requestId d) eqn:E; [|done]. by apply pendingDer_book.
Qed.

Lemma errandsDer_lost g lp ld : errandsDer (deliverConnectionLost g lp ld) = (map_to_list ld).*2.
Proof.
  unfold errandsDer, deliverConnectionLost. rewrite !map_app, !concat_app. cbn. rewrite app_nil_r.
  assert (∀ l : list (Z * PendingProps), concat (map errandDer (map (λ kv, EFailProps (pp_token kv.2) (pp_objectId kv.2) (pp_listener kv.2)) l)) = []) as ->.
  { induction l; [done|]. cbn. done. }
  cbn. generalize (map_to_list ld). induction l as [|kv l IH]; [done|]. cbn. by rewrite IH.
Qed.

Lemma errandsDer_changed l objectId changed : errandsDer (map (λ k, EChanged k objectId changed) l) = [].
Proof. unfold errandsDer. induction l; [done|]. cbn. done. Qed.

(** An item leaves the queue: what it holds goes to the errands. *)
Lemma taken_loop item items errands t :
  Loop t → m_draining t = true → m_deferred t = item :: items → rest t = [] → errandsDer errands = itemDer item →
  Loop (setRest errands (setDeferred items t)).
Proof.
  intros [] Hd Hi Hr He. split; cbn; try done; [|by left].
  intros k Hk%l_held0. unfold holders in *. rewrite Hi, Hr in Hk. cbn. rewrite He.
  change (itemsDer (item :: items)) with (itemDer item ++ itemsDer items) in Hk. change (errandsDer []) with (@nil Z) in Hk.
  rewrite !elem_of_app in *. set_solver.
Qed.

Lemma dispatchEvent_loop e fds x t : Loop t → rest t = [] → m_draining t = true → Loop (dispatchEvent e fds x t).
Proof.
  intros Hl Hrest Hd. destruct e as [e|]; [|done]. cbn [dispatchEvent].
  destruct e; try (by apply tellRegistry_loop); try (by apply tellOperation_loop).
  - destruct (ifaceKind iface) as [kind|]; [|done]. destruct Hl. split; cbn; try done.
    intros k Hk%l_held0. unfold holders in *. cbn. rewrite errandsDer_changed. by rewrite Hrest in Hk.
  - apply tellRegistry_loop. destruct (m_configFetched t); [|done]. eapply quiet_loop; [apply refreshConfig_quiet|done].
  - apply tellRegistry_loop. by destruct Hl.
Qed.
Lemma dispatchEvent_book e fds x t : roomy t → Book t → Book (dispatchEvent e fds x t).
Proof.
  intros Hr Hb. destruct e as [e|]; [|done]. cbn [dispatchEvent].
  destruct e; try (by apply tellRegistry_book); try (by apply tellOperation_book).
  - destruct (ifaceKind iface) as [kind|]; [|done]. by destruct Hb.
  - apply tellRegistry_book; [done|]. destruct (m_configFetched t); [|done].
    eapply quiet_book; [apply refreshConfig_quiet|by destruct Hr|done].
  - apply tellRegistry_book; [done|]. by destruct Hb.
Qed.

Lemma drainTurn_loop x t : m_draining t = true → Loop t → Loop (drainTurn x t).
Proof.
  intros Hd Hl. unfold drainTurn. destruct (rest t) as [|e errands] eqn:Erest.
  - destruct (m_deferred t) as [|item items] eqn:Ei.
    { destruct Hl. split; cbn; try done; by rewrite ?Ei, ?Erest. }
    assert (∀ errands, errandsDer errands = itemDer item → Loop (setRest errands (setDeferred items t))) as Htaken.
    { intros errands He. by eapply taken_loop. }
    assert (setRest [] (setDeferred items t) = setDeferred items t) as Hsame.
    { unfold setRest, setDeferred. cbn. by rewrite <-Erest. }
    destruct item as [ev fds|r|g lp ld].
    + apply dispatchEvent_loop; [|done|done]. apply note_loop. rewrite <-Hsame. by apply Htaken.
    + apply dispatchAsyncReply_loop. rewrite <-Hsame. by apply Htaken.
    + apply Htaken, errandsDer_lost.
  - assert (errandDer e = [] → Loop (setRest errands t)) as Hplain.
    { intros He. destruct Hl. split; cbn; try done. intros k Hk%l_held0. unfold holders in *. rewrite Erest in Hk.
      change (errandsDer (e :: errands)) with (errandDer e ++ errandsDer errands) in Hk. by rewrite He in Hk. }
    destruct e as [l objectId changed|token objectId l|token|g]; cbn [runErrand].
    + destruct (watches _ _ _); [|by apply Hplain]. by apply note_loop, Hplain.
    + by apply tellFetched_loop, Hplain.
    + destruct Hl. eapply (tellDer_loop _ _ t); try done.
      intros k Hne. unfold holders. rewrite Erest. cbn. change (errandsDer (EFailDer token :: errands)) with (token :: errandsDer errands).
      rewrite !elem_of_app, elem_of_cons. tauto.
    + destruct (_ =? _); [|by apply Hplain]. by apply tellRegistry_loop, Hplain.
Qed.
Lemma drainTurn_book x t : roomy t → Book t → Book (drainTurn x t).
Proof.
  intros Hr Hb. unfold drainTurn. destruct (rest t) as [|e errands] eqn:Erest.
  - destruct (m_deferred t) as [|item items] eqn:Ei; [by destruct Hb|].
    destruct item as [ev fds|r|g lp ld].
    + apply dispatchEvent_book; [done|]. destruct Hb. split; cbn; rewrite ?balance_app, ?askedIn_app, ?app_nil_r; try done.
      * intros k. rewrite balance_app, balance_cons. cbn. change (balance k []) with 0. rewrite b_balance0. by destruct (_ !! _).
      * rewrite arrivedIn_app, dispatchedIn_app, app_nil_r, b_events0, Ei.
        change (dispatchedIn [NDispatched ev fds]) with [(ev, fds)]. by rewrite <-app_assoc.
    + apply dispatchAsyncReply_book. destruct Hb. split; try done. cbn. by rewrite b_events0, Ei.
    + destruct Hb. split; try done. cbn. by rewrite b_events0, Ei.
  - assert (Book (setRest errands t)) as Hb1 by by destruct Hb.
    destruct e as [l objectId changed|token objectId l|token|g]; cbn [runErrand].
    + destruct (watches _ _ _); [by apply neutral_book|done].
    + by apply tellFetched_book.
    + by apply tellDer_book.
    + destruct (_ =? _); [by apply tellRegistry_book|done].
Qed.

Lemma tstep_both t t' : tstep setup t t' → both t → both t'.
Proof.
  intros [c u Hr|p u|task tasks u Hp|id u|id u|x u Hr Hd] Hb; [by apply perform_both|by apply onReadable_both|..]; destruct Hb; split.
  - by apply runTask_loop.
  - by apply runTask_book.
  - by apply propsTimedOut_loop.
  - by apply propsTimedOut_book.
  - by apply derTimedOut_loop.
  - by apply derTimedOut_book.
  - by apply drainTurn_loop.
  - by apply drainTurn_book.
Qed.

Lemma treach_both t : treach setup t → both t.
Proof.
  induction 1 as [|t t' _ IH Hs]; [|by apply (tstep_both t)].
  split; split; try done; try (intros k [? Hk]; cbn in Hk; by rewrite lookup_empty in Hk); [apply NoDup_nil_2|].
  by intros k ?%not_elem_of_nil.
Qed.

(** ** Answers come *)

(** The agent says nothing, and nobody calls: what the loop does by itself. *)
Definition noAnswer : Exchange := mkExchange true [].

Inductive lstep : Transport → Transport → Prop :=
| loop_task task tasks t : posted t = task :: tasks → lstep t (runTask task (setPosted tasks t))
| loop_props id p t : m_pendingProps t !! id = Some p → lstep t (propsTimedOut id t)
| loop_der id token t : m_pendingDer t !! id = Some token → lstep t (derTimedOut id t)
| loop_drain t : m_draining t = true → lstep t (drainTurn noAnswer t).

Definition itemWeight (w : nat) (i : DeferredItem) : nat :=
  match i with DEvent _ _ => 8 + w | DReply _ => 1 | DLost _ lp ld => 2 + size lp + size ld end.
Definition itemsWeight (w : nat) (l : list DeferredItem) : nat := sum_list_with (itemWeight w) l.
Definition weight (t : Transport) : nat :=
  itemsWeight (size (m_propertyWatches t)) (m_deferred t) + length (rest t) + 4 * length (posted t) +
  (if m_draining t then 1 else 0) + size (m_pendingProps t) + size (m_pendingDer t).

Ltac weigh :=
  unfold weight; cbn [m_propertyWatches m_deferred rest posted m_draining m_pendingProps m_pendingDer setRest setPosted setDrainQueued
    setDraining setDeferred setPendingProps setPendingDer setConfig setNotes setNextRequestId setQuiesced note post].

Lemma weight_note n t : weight (note n t) = weight t.
Proof. done. Qed.
Lemma weight_tellDer token o t : weight (tellDer token o t) = weight t.
Proof. unfold tellDer, takeIfPresent. by destruct (m_derListeners t !! token). Qed.
Lemma weight_tellFetched l token objectId props t : weight (tellFetched l token objectId props t) = weight t.
Proof. unfold tellFetched. by destruct (watches _ _ _). Qed.
Lemma weight_tellRegistry n t : weight (tellRegistry n t) = weight t.
Proof. unfold tellRegistry. by destruct (m_registry t). Qed.
Lemma weight_tellOperation op n t : weight (tellOperation op n t) = weight t.
Proof. unfold tellOperation. by destruct (operationListenerFor _ _). Qed.

Lemma weight_schedule t : (weight (scheduleDrain t) ≤ weight t + 4)%nat.
Proof. unfold scheduleDrain. destruct (m_drainQueued t); [lia|]. weigh. rewrite length_app. cbn [length]. lia. Qed.

Lemma weight_refresh t : (weight (refreshConfig noAnswer t) ≤ weight t + 4)%nat.
Proof.
  assert (∀ t2, weight (setConfig ∅ t2) = weight t2) as Hc by done.
  unfold refreshConfig, callSync. destruct (negb (m_fd t)).
  { change (weight (setConfig ∅ t) ≤ weight t + 4)%nat. rewrite Hc. lia. }
  set (t1 := note (NSent (u64 (m_nextRequestId t + 1)) GetConfig [] kHandshakeTimeoutMs) (nextRequest t).2).
  change (weight (setConfig ∅ (match m_deferred t1 with [] => t1 | _ => scheduleDrain t1 end)) ≤ weight t1 + 4)%nat.
  rewrite Hc. destruct (m_deferred t1); [lia|]. apply weight_schedule.
Qed.

Lemma weight_draining t : (weight (drainDeferred t) ≤ weight t + 1)%nat.
Proof. unfold drainDeferred. cbn. destruct (m_draining t) eqn:E; weigh; rewrite E; lia. Qed.

Lemma targets_bound objectId kind t : (length (targets objectId kind t) ≤ size (m_propertyWatches t))%nat.
Proof.
  unfold targets. rewrite length_fmap. etrans; [apply length_filter|]. by rewrite length_map_to_list.
Qed.

Lemma weight_event e fds t : rest t = [] → (weight (dispatchEvent e fds noAnswer t) ≤ weight t + 4 + size (m_propertyWatches t))%nat.
Proof.
  intros Hr. destruct e as [e|]; cbn [dispatchEvent]; [|lia]. destruct e; rewrite ?weight_tellRegistry, ?weight_tellOperation; try lia.
  - destruct (ifaceKind iface) as [kind|]; [|lia]. pose proof (targets_bound handle kind t).
    weigh. rewrite length_map. lia.
  - destruct (m_configFetched t); [|lia]. pose proof (weight_refresh t). lia.
  - weigh. lia.
Qed.

Lemma weight_reply d t : (weight (dispatchAsyncReply d t) ≤ weight t)%nat.
Proof.
  unfold dispatchAsyncReply. destruct (m_pendingProps t !! requestId d) eqn:E.
  { rewrite weight_tellFetched. weigh. rewrite map_size_delete, E. lia. }
  destruct (m_pendingDer t !! requestId d) eqn:E2; [|lia]. rewrite weight_tellDer. weigh. rewrite map_size_delete, E2. lia.
Qed.

Lemma weight_drain t : m_draining t = true → (weight (drainTurn noAnswer t) < weight t)%nat.
Proof.
  intros Hd. unfold drainTurn. destruct (rest t) as [|e errands] eqn:Er.
  - destruct (m_deferred t) as [|item items] eqn:Ei.
    { weigh. rewrite Hd, Ei, Er. cbn [length]. lia. }
    assert (weight t = weight (setDeferred items t) + itemWeight (size (m_propertyWatches t)) item)%nat as Hw.
    { weigh. rewrite Ei. unfold itemsWeight. cbn [sum_list_with]. lia. }
    destruct item as [ev fds|r|g lp ld]; cbn [itemWeight] in Hw.
    + pose proof (weight_event ev fds (note (NDispatched ev fds) (setDeferred items t)) Er) as H. rewrite weight_note in H.
      change (m_propertyWatches (note (NDispatched ev fds) (setDeferred items t))) with (m_propertyWatches t) in H. lia.
    + pose proof (weight_reply r (setDeferred items t)). lia.
    + rewrite Hw. weigh. rewrite Er. unfold deliverConnectionLost. rewrite !length_app, !length_map, !length_map_to_list. cbn [length]. lia.
  - assert (weight t = S (weight (setRest errands t)))%nat as Hw by (weigh; rewrite Er; cbn [length]; lia).
    destruct e; cbn [runErrand]; rewrite ?weight_tellFetched, ?weight_tellDer; try (case_match; rewrite ?weight_note, ?weight_tellRegistry); lia.
Qed.

Lemma lstep_weight t t' : lstep t t' → (weight t' < weight t)%nat.
Proof.
  intros [task tasks u Hp|id p u Hp|id token u Hp|u Hd].
  - assert (weight u = weight (setPosted tasks u) + 4)%nat as Hw by (weigh; rewrite Hp; cbn [length]; lia).
    destruct task; cbn [runTask]; rewrite ?weight_tellFetched, ?weight_tellDer; try lia.
    pose proof (weight_draining (setPosted tasks u)). lia.
  - unfold propsTimedOut. rewrite Hp, weight_tellFetched. weigh. rewrite map_size_delete, Hp.
    assert (size (m_pendingProps u) ≠ 0%nat); [|lia]. rewrite map_size_ne_0_lookup. eauto.
  - unfold derTimedOut. rewrite Hp, weight_tellDer. weigh. rewrite map_size_delete, Hp.
    assert (size (m_pendingDer u) ≠ 0%nat); [|lia]. rewrite map_size_ne_0_lookup. eauto.
  - by apply weight_drain.
Qed.

Lemma lstep_acc t : Acc (λ t' t, lstep t t') t.
Proof.
  remember (weight t) as n eqn:En. revert t En. induction (lt_wf n) as [n _ IH]. intros t ->. constructor. intros t' Hs.
  eapply IH; [by apply lstep_weight|done].
Qed.

Lemma lstep_loop t t' : lstep t t' → Loop t → Loop t'.
Proof.
  intros [task tasks u Hp|id p u Hp|id token u Hp|u Hd].
  - by apply runTask_loop.
  - by apply propsTimedOut_loop.
  - by apply derTimedOut_loop.
  - by apply drainTurn_loop.
Qed.

Lemma settled_empty t : Loop t → (∀ u, ¬ lstep t u) → m_derListeners t = ∅.
Proof.
  intros [] Hn.
  assert (posted t = []) as Hp. { destruct (posted t) eqn:E; [done|]. by destruct (Hn _ (loop_task _ _ _ E)). }
  assert (m_draining t = false) as Hd. { destruct (m_draining t) eqn:E; [|done]. by destruct (Hn _ (loop_drain _ E)). }
  assert (m_pendingDer t = ∅) as Hm.
  { apply map_eq. intros id. rewrite lookup_empty. destruct (m_pendingDer t !! id) eqn:E; [|done]. by destruct (Hn _ (loop_der _ _ _ E)). }
  assert (rest t = []) as Hr. { destruct (rest t); [done|]. rewrite Hd in l_rest0. by specialize (l_rest0 ltac:(done)). }
  assert (m_deferred t = []) as Hi.
  { destruct (m_deferred t); [done|]. rewrite Hd, Hp in *. destruct l_scheduled0 as [?|Hq]; [done|done|].
    apply l_queued0 in Hq. by apply not_elem_of_nil in Hq. }
  apply map_eq. intros token. rewrite lookup_empty. destruct (m_derListeners t !! token) eqn:E; [|done].
  assert (token ∈ holders t) as Hh by (apply l_held0; by rewrite E). unfold holders in Hh. rewrite Hp, Hm, Hi, Hr, map_to_list_empty in Hh.
  by apply not_elem_of_nil in Hh.
Qed.

(** ** What listeners of an operation are told *)

(** Marks, and not callbacks. *)
Definition unheard (n : Note) : bool :=
  match n with NArrived _ _ | NSent _ _ _ _ | NAskedDer _ | NGaveUpDer _ => true | _ => false end.

(** A step that dispatches no event and tells no listener of an operation. *)
Definition aside (n : Note) : bool :=
  match n with PhaseChanged _ _ | GroupReady _ _ | ResultReady _ _ | Finished _ _ _ _ _ | NDispatched _ _ => false | _ => true end.

Definition listenerOf (n : Note) : option Z :=
  match n with PhaseChanged k _ | GroupReady k _ | ResultReady k _ | Finished k _ _ _ _ => Some k | _ => None end.
Definition toldOne (l : Z) (n : Note) : option Note := if bool_decide (listenerOf n = Some l) then Some n else None.
Definition toldTo (l : Z) (ns : list Note) : list Note := omap (toldOne l) ns.

(** The callback an event of this operation is. *)
Definition noteFor (op l : Z) (ev : EventVariant * list Z) : option Note :=
  match ev.1 with
  | KnownEvent (OpProgress k phase) => if k =? op then Some (PhaseChanged l phase) else None
  | KnownEvent (OpIdentityGroup k groupKey fields) => if k =? op then Some (GroupReady l (toFieldGroup groupKey fields)) else None
  | KnownEvent (OpResultReady k result) => if k =? op then Some (ResultReady l (toPayload result ev.2)) else None
  | KnownEvent (OpFinished k status code msgKey msgFallback) =>
      if k =? op then Some (Finished l status code msgKey msgFallback) else None
  | _ => None
  end.

(** [l] is the one listener of this operation. *)
Definition soleWatch (op l : Z) (t : Transport) : Prop :=
  (∃ w, m_operationWatches t !! l = Some w ∧ ow_op w = op) ∧
  ∀ l' w', m_operationWatches t !! l' = Some w' → ow_op w' = op → l' = l.

Lemma soleWatch_found op l t : soleWatch op l t → operationListenerFor op t = Some l.
Proof.
  intros [(w & Hw & Hop) Hsole]. unfold operationListenerFor.
  destruct (List.find _ _) as [[l' w']|] eqn:E.
  - apply find_some in E as [Hin Hop']. apply list_elem_of_In, elem_of_map_to_list in Hin. apply Z.eqb_eq in Hop'.
    cbn. f_equal. by eapply Hsole.
  - apply (find_none _ _) with (x := (l, w)) in E; [by rewrite Hop, Z.eqb_refl in E|].
    by apply list_elem_of_In, elem_of_map_to_list.
Qed.

Lemma soleWatch_other op op' l l' t : soleWatch op l t → op' ≠ op → operationListenerFor op' t = Some l' → l' ≠ l.
Proof.
  intros [(w & Hw & Hop) _] Hne. unfold operationListenerFor. destruct (List.find _ _) as [[k w']|] eqn:E; [|done].
  intros [= <-] ->. apply find_some in E as [Hin Hop']. apply list_elem_of_In, elem_of_map_to_list in Hin. apply Z.eqb_eq in Hop'. congruence.
Qed.

Definition extendsBy (P : list Note → Prop) (t t' : Transport) : Prop := ∃ ns, notes t' = notes t ++ ns ∧ P ns.
Definition allAside (ns : list Note) : Prop := Forall (λ n, aside n = true) ns.

Lemma aside_told l ns : allAside ns → toldTo l ns = [] ∧ dispatchedIn ns = [].
Proof.
  induction 1 as [|n ns Hn _ [IH1 IH2]]; [done|]. unfold toldTo, dispatchedIn in *. by destruct n.
Qed.

Lemma extends_same P t t' : notes t' = notes t → P [] → extendsBy P t t'.
Proof. intros E ?. exists []. by rewrite E, app_nil_r. Qed.
Lemma extends_one (P : list Note → Prop) n t : P [n] → extendsBy P t (note n t).
Proof. by exists [n]. Qed.
Lemma quiet_aside t t' : quiet t t' → extendsBy allAside t t'.
Proof. intros []. destruct q_notes0 as (ns & ? & Hs & _). exists ns. split; [done|]. eapply Forall_impl; [done|]. by intros []. Qed.
Lemma aside_trans t1 t2 t3 : extendsBy allAside t1 t2 → extendsBy allAside t2 t3 → extendsBy allAside t1 t3.
Proof. intros (n1 & E1 & ?) (n2 & E2 & ?). exists (n1 ++ n2). split; [by rewrite E2, E1, app_assoc|]. by apply Forall_app. Qed.

Lemma tellFetched_aside l token objectId props t : extendsBy allAside t (tellFetched l token objectId props t).
Proof. unfold tellFetched. destruct (watches _ _ _); [apply extends_one|apply extends_same; [done|]]; by repeat constructor. Qed.
Lemma tellDer_aside token o t : extendsBy allAside t (tellDer token o t).
Proof.
  unfold tellDer, takeIfPresent. destruct (m_derListeners t !! token); [|by apply extends_same; [done|constructor]].
  eexists [_]. split; [done|]. by repeat constructor.
Qed.
Lemma tellRegistry_aside n t : aside n = true → extendsBy allAside t (tellRegistry n t).
Proof. intros Hn. unfold tellRegistry. destruct (m_registry t); [apply extends_one|apply extends_same; [done|]]; by repeat constructor. Qed.

(** A call of the seam tells nobody anything. *)
Lemma perform_unheard c t : extendsBy (Forall (λ n, unheard n = true)) t (perform setup c t).
Proof.
  assert (∀ t', quiet t t' → extendsBy (Forall (λ n, unheard n = true)) t t') as Hq.
  { intros t' []. destruct q_notes0 as (ns & ? & Hs & _). exists ns. split; [done|]. eapply Forall_impl; [done|]. by intros []. }
  destruct (isSync c) eqn:Es; [by apply Hq, sync_quiet|]. destruct c; try done; cbn [perform].
  1,2,3,6: by apply extends_same.
  - apply Hq, requestProperties_quiet.
  - destruct op; by apply extends_same.
  - unfold requestCertificateDer. destruct (addDer listener t) as [token t1] eqn:Ea. set (t2 := note (NAskedDer token) t1).
    assert (notes t2 = notes t ++ [NAskedDer token]) as E2 by by injection Ea as <- <-.
    assert (∀ t', quiet t2 t' → extendsBy (Forall (λ n, unheard n = true)) t t') as H2.
    { intros t' []. destruct q_notes0 as (ns & En & Hs & _). exists (NAskedDer token :: ns). split; [by rewrite En, E2, <-app_assoc|].
      constructor; [done|]. eapply Forall_impl; [done|]. by intros []. }
    assert (∀ e t', quiet t2 t' → extendsBy (Forall (λ n, unheard n = true)) t (post (TFailDer token e) t')) as H3.
    { intros e t' Ht'. exact (H2 t' Ht'). }
    destruct (negb (isConnected t2)); [apply H3, still_quiet, still_refl|].
    pose proof (sent_quiet t2) as Hs. destruct (nextRequest t2) as [id t3]. cbn in Hs. destruct sent; cbn [negb snd].
    + apply (H2 (note (NSent id (GetCertDer reader cert) [] kDefaultCallTimeoutMs) t3)), Hs, sent_still.
    + apply H3, Hs, dropConnection_still.
  - unfold cancelCertificateDer. destruct (m_derListeners t !! token); [|by apply extends_same].
    eexists [_]. split; [done|]. by repeat constructor.
Qed.

(** The turn that dispatches an event tells the operation's listener, and nothing else does. *)
Definition heardBy (op l : Z) (ns : list Note) : Prop := toldTo l ns = omap (noteFor op l) (dispatchedIn ns).

Lemma aside_heard op l t t' : extendsBy allAside t t' → extendsBy (heardBy op l) t t'.
Proof. intros (ns & ? & Hs). exists ns. split; [done|]. unfold heardBy. by destruct (aside_told l ns Hs) as [-> ->]. Qed.

Lemma dispatched_then op l e fds t t' :
  extendsBy allAside (note (NDispatched e fds) t) t' → noteFor op l (e, fds) = None → extendsBy (heardBy op l) t t'.
Proof.
  intros (ns & E & Hs) Hn. exists (NDispatched e fds :: ns). split; [by rewrite E; cbn; rewrite <-app_assoc|].
  destruct (aside_told l ns Hs) as [E1 E2]. unfold heardBy, toldTo, dispatchedIn in *. cbn. by rewrite Hn, E1, E2.
Qed.

Lemma tellOperation_heard op l op' n e fds t :
  soleWatch op l t → noteFor op l (e, fds) = (if op' =? op then Some (n l) else None) → (∀ k, listenerOf (n k) = Some k) →
  extendsBy (heardBy op l) t (tellOperation op' n (note (NDispatched e fds) t)).
Proof.
  intros Hw Hn Hl. unfold tellOperation. change (operationListenerFor op' (note (NDispatched e fds) t)) with (operationListenerFor op' t).
  assert (∀ k, (if bool_decide (k = l) then [n k] else []) = (if op' =? op then [n l] else []) → heardBy op l [NDispatched e fds; n k]) as Hone.
  { intros k Hk. unfold heardBy, toldTo, dispatchedIn. cbn. rewrite Hn. unfold toldOne. rewrite Hl.
    assert ((match n k with NDispatched ev fs => Some (ev, fs) | _ => None end) = None) as -> by (specialize (Hl k); by destruct (n k)).
    rewrite (bool_decide_ext (Some k = Some l) (k = l)) by (split; congruence). by destruct (bool_decide _), (op' =? op). }
  destruct (operationListenerFor op' t) as [l'|] eqn:E.
  - exists [NDispatched e fds; n l']. split; [cbn; by rewrite <-app_assoc|]. apply Hone. destruct (Z.eqb_spec op' op) as [->|Hne].
    + rewrite (soleWatch_found op l t Hw) in E. injection E as ->. by rewrite bool_decide_true.
    + rewrite bool_decide_false; [done|]. by apply (soleWatch_other op op' l l' t).
  - destruct (Z.eqb_spec op' op) as [->|Hne]; [by rewrite (soleWatch_found op l t Hw) in E|].
    eapply dispatched_then; [apply extends_same; [done|constructor]|done].
Qed.

Lemma dispatch_heard op l e fds x t :
  soleWatch op l t → extendsBy (heardBy op l) t (dispatchEvent e fds x (note (NDispatched e fds) t)).
Proof.
  intros Hw. assert (∀ t', extendsBy allAside (note (NDispatched e fds) t) t' → noteFor op l (e, fds) = None → extendsBy (heardBy op l) t t') as Hd
    by (intros; by eapply dispatched_then).
  destruct e as [e|]; [|by apply Hd; [apply extends_same; [done|constructor]|]].
  destruct e; cbn [dispatchEvent]; try (by apply tellOperation_heard).
  all: apply Hd; [|done]; try (by apply tellRegistry_aside).
  - destruct (ifaceKind iface); apply extends_same; done || constructor.
  - eapply aside_trans; [|by apply tellRegistry_aside].
    match goal with |- context [if ?c then _ else _] => destruct c end; [|apply extends_same; [done|constructor]].
    apply quiet_aside, refreshConfig_quiet.
  - eapply aside_trans; [|by apply tellRegistry_aside]. apply extends_same; [done|constructor].
Qed.

Lemma setters_aside t t1 t' : notes t1 = notes t → extendsBy allAside t1 t' → extendsBy allAside t t'.
Proof. intros E (ns & En & ?). exists ns. by rewrite <-E. Qed.

Lemma drainTurn_heard op l x t : soleWatch op l t → extendsBy (heardBy op l) t (drainTurn x t).
Proof.
  intros Hw. unfold drainTurn. destruct (rest t) as [|e errands].
  - destruct (m_deferred t) as [|item items]; [apply aside_heard, extends_same; [done|constructor]|].
    destruct item as [ev fds|r|g lp ld].
    + destruct (dispatch_heard op l ev fds x (setDeferred items t) Hw) as (ns & ? & ?). by exists ns.
    + apply aside_heard. unfold dispatchAsyncReply. destruct (m_pendingProps _ !! _) as [p|].
      { by eapply setters_aside; [|apply tellFetched_aside]. }
      destruct (m_pendingDer _ !! _) as [token|]; [by eapply setters_aside; [|apply tellDer_aside]|apply extends_same; [done|constructor]].
    + apply aside_heard, extends_same; [done|constructor].
  - apply aside_heard, (setters_aside t (setRest errands t)); [done|].
    destruct e as [k objectId changed|token objectId k|token|g]; cbn [runErrand].
    + destruct (watches _ _ _); [by apply extends_one; repeat constructor|apply extends_same; [done|constructor]].
    + apply tellFetched_aside.
    + apply tellDer_aside.
    + destruct (_ =? _); [by apply tellRegistry_aside|apply extends_same; [done|constructor]].
Qed.

Lemma drainDeferred_notes t : notes (drainDeferred t) = notes t.
Proof. unfold drainDeferred. by destruct (m_draining _). Qed.

Lemma onReadable_aside p t : extendsBy allAside t (onReadable p t).
Proof.
  unfold onReadable. destruct (negb _); [apply extends_same; [done|constructor]|].
  pose proof (absorbFrames_still None (frames p) (mkSync Timeout None []) t) as Hs. destruct (absorbFrames _ _ _ _) as [[malformed out] t1].
  cbn in Hs. assert (still t (dropConnection t1)) as Hs2 by (eapply still_trans; [done|apply dropConnection_still]).
  assert (∀ t2, still t t2 → extendsBy allAside t (drainDeferred t2)) as H.
  { intros t2 H2. eapply aside_trans; [by apply quiet_aside, still_quiet|]. apply extends_same; [apply drainDeferred_notes|constructor]. }
  apply H. destruct malformed; [done|]. by destruct (status p).
Qed.

Lemma tstep_heard op l t t' : tstep setup t t' → soleWatch op l t → extendsBy (heardBy op l) t t'.
Proof.
  intros [c u Hr|p u|task tasks u Hp|id u|id u|x u Hr Hd] Hw.
  - apply aside_heard. destruct (perform_unheard c u) as (ns & ? & Hs). exists ns. split; [done|]. eapply Forall_impl; [done|]. by intros [].
  - apply aside_heard, onReadable_aside.
  - apply aside_heard, (setters_aside u (setPosted tasks u)); [done|]. destruct task; cbn [runTask]; [|apply tellFetched_aside|apply tellDer_aside].
    apply extends_same; [apply drainDeferred_notes|constructor].
  - apply aside_heard. unfold propsTimedOut. destruct (_ !! _); [|apply extends_same; [done|constructor]].
    by eapply setters_aside; [|apply tellFetched_aside].
  - apply aside_heard. unfold derTimedOut. destruct (_ !! _); [|apply extends_same; [done|constructor]].
    by eapply setters_aside; [|apply tellDer_aside].
  - by apply drainTurn_heard.
Qed.

(** Steps during which [l] is the one listener of the operation. *)
Inductive listens (op l : Z) : Transport → Transport → Prop :=
| listens_refl t : listens op l t t
| listens_step t t' t'' : soleWatch op l t → tstep setup t t' → listens op l t' t'' → listens op l t t''.

Lemma heardBy_app op l n1 n2 : heardBy op l n1 → heardBy op l n2 → heardBy op l (n1 ++ n2).
Proof. unfold heardBy, toldTo. intros H1 H2. by rewrite dispatchedIn_app, !omap_app, H1, H2. Qed.

Lemma listens_heard op l t t' : listens op l t t' → extendsBy (heardBy op l) t t'.
Proof.
  induction 1 as [t|t t' t'' Hw Hs _ (n2 & E2 & H2)]; [by apply extends_same|].
  destruct (tstep_heard op l t t' Hs Hw) as (n1 & E1 & H1). exists (n1 ++ n2). split; [by rewrite E2, E1, app_assoc|by apply heardBy_app].
Qed.

Lemma listens_reach op l t t' : listens op l t t' → treach setup t → treach setup t'.
Proof. induction 1 as [|t t' t'' _ Hs _ IH]; [done|]. intros Ht. apply IH. by eapply reach_step. Qed.

(** ** Counting *)

Definition answeredIn (l : list Note) : list Z := omap (λ n, match n with CertificateDer _ k _ => Some k | _ => None end) l.
Definition gaveUpIn (l : list Note) : list Z := omap (λ n, match n with NGaveUpDer k => Some k | _ => None end) l.
Definition count (token : Z) (l : list Z) : Z := zlen (filter (λ k, k = token) l).

Lemma count_told token k l : count token (k :: l) = (if k =? token then 1 else 0) + count token l.
Proof.
  unfold count. rewrite filter_cons. destruct (Z.eqb_spec k token) as [->|Hne].
  - rewrite decide_True by done. cbn [length]. lia.
  - rewrite decide_False by done. lia.
Qed.

Lemma balance_counts token l : balance token l = count token (askedIn l) - count token (answeredIn l) - count token (gaveUpIn l).
Proof.
  induction l as [|n l IH]; [done|]. rewrite balance_cons, IH. unfold askedIn, answeredIn, gaveUpIn.
  destruct n; cbn; rewrite ?count_told; try lia; destruct (_ =? token); lia.
Qed.

Lemma count_absent token l : token ∉ l → count token l = 0.
Proof.
  induction l as [|k l IH]; [done|]. rewrite not_elem_of_cons, count_told. intros [Hne Hin].
  destruct (Z.eqb_spec k token); [congruence|]. by rewrite IH.
Qed.
Lemma count_once token l : NoDup l → token ∈ l → count token l = 1.
Proof.
  induction 1 as [|k l Hk Hn IH]; [by intros ?%not_elem_of_nil|]. rewrite count_told. intros [->|Hin]%elem_of_cons.
  - by rewrite Z.eqb_refl, count_absent.
  - destruct (Z.eqb_spec k token) as [->|]; [done|]. by rewrite IH.
Qed.
End Calls.

(** ** What the transport promises *)

(** C30: a certificate that is asked for is answered once, or given up and then never
    answered, or it is still registered and something in the loop holds it: a failure that is
    queued, the table of requests with its timer, or the notice of a lost connection. *)
Theorem certificate_answered_once {ctx : Type} `{!Qcbor ctx} {variants : VariantOps} (setup : Setup) (t : Transport) (token : Z) :
  treach setup t → token ∈ askedIn (notes t) →
  count token (answeredIn (notes t)) + count token (gaveUpIn (notes t)) +
    (match m_derListeners t !! token with Some _ => 1 | None => 0 end) = 1 ∧
  (is_Some (m_derListeners t !! token) → token ∈ holders t).
Proof.
  intros [[] []]%treach_both Hin. split; [|auto]. pose proof (b_balance0 token) as Hb. rewrite balance_counts in Hb.
  rewrite (count_once token (askedIn (notes t))) in Hb by done. lia.
Qed.


(** C35: no call of the seam tells a listener anything; events reach listeners only from the
    loop, each once and in the order in which they arrived. *)
Theorem callbacks_from_the_loop {ctx : Type} `{!Qcbor ctx} {variants : VariantOps} (setup : Setup) (t : Transport) :
  treach setup t →
  arrivedIn (notes t) = dispatchedIn (notes t) ++ eventsOf (m_deferred t) ∧
  ∀ c, ∃ ns, notes (perform setup c t) = notes t ++ ns ∧ Forall (λ n, unheard n = true) ns.
Proof. intros [_ []]%treach_both. split; [done|]. intros c. apply perform_unheard. Qed.


(** The descriptors of a batch are passed in the order of its documents, and every document
    names its own. *)
Lemma batchDocs_indices docs passed l fds :
  batchDocs docs passed = Some (l, fds) →
  (∃ more, fds = passed ++ more) ∧ bd_name <$> l = fst <$> docs ∧
  Forall2 (λ d e, fds !! Z.to_nat (bd_fdIndex d) = e.2) l docs.
Proof.
  revert passed l fds. induction docs as [|[name fd] docs IH]; intros passed l fds; cbn [batchDocs].
  { intros [= <- <-]. split; [exists []; by rewrite app_nil_r|]. by split. }
  destruct fd as [fd|]; [|done]. cbn [mbind option_bind]. destruct (batchDocs docs (passed ++ [fd])) as [[l' fds']|] eqn:E; [|done].
  cbn. intros [= <- <-]. apply IH in E as ([more ->] & Hn & Hf). split; [exists (fd :: more); by rewrite <-app_assoc|].
  split; [cbn; by rewrite Hn|]. constructor; [|done]. cbn. rewrite Nat2Z.id, <-app_assoc. by rewrite lookup_app_r, Nat.sub_diag by done.
Qed.

(** ** Concrete runs *)

#[local] Existing Instance plainVariants.

Definition frameOf (tree : CborValue) : Frame := mkFrame (encode (ctx := Mini.context) tree) [].
Definition testSetup : Setup := mkSetup "/run/agent" 108 false.
Definition arriving (fs : list CborValue) (s : PumpStatus) : Exchange := mkExchange true [Pumped (mkPump (map frameOf fs) s)].
Definition ack (id : Z) : CborValue := makeReply id (HelloAck "5" ["credentials"]).
Definition dialled (fs : list CborValue) (s : PumpStatus) : SeamCall := CProbe (mkDial true true true (arriving fs s)) noAnswer.
Definition testStep := perform (ctx := Mini.context) testSetup.

(** The agent greets and closes the connection at once: the client takes itself for
    connected although nothing is, and no notice of the loss is queued. *)
Example greeting_then_closing :
  let '(available, t) := probeAvailability (ctx := Mini.context) testSetup (mkDial true true true (arriving [ack 1] PumpPeerClosed)) noAnswer initial in
  available = true ∧ m_fd t = false ∧ m_features t = ["credentials"]%string ∧ m_deferred t = [] ∧ posted t = [] ∧ notes t = [NSent 1 (Hello 1 true) [] 1000].
Proof. by vm_compute. Qed.

Definition connectedWorld : Transport := testStep (dialled [ack 1] PumpOk) initial.

(** The certificate arrives with the end of the connection: it is in the queue, and the
    request is told that the agent is unavailable. *)
Example answer_lost_with_connection :
  let t := (requestCertificateDer "r" "c" 7 true connectedWorld).2 in
  let t := onReadable (ctx := Mini.context) (mkPump [frameOf (makeReply 2 (CertDerReply [1; 2; 3]))] PumpPeerClosed) t in
  let turn := drainTurn (ctx := Mini.context) noAnswer in
  m_deferred t = [DReply (mkDecodedReply 2 (KnownReply (CertDerReply [1; 2; 3]))); DLost 1 ∅ {[2 := 1]}] ∧
  last (notes (turn (turn (turn t)))) = Some (CertificateDer 7 1 (derFailed AgentUnavailable "the agent connection was lost")).
Proof. by vm_compute. Qed.

(** Events of a connection that is gone are told after a new one is made: here the new one
    is taken for quiesced. *)
Example old_event_after_reconnection :
  let t := testStep (CFetchRegistry (arriving [eventToCbor (AgentQuiesced 1)] PumpPeerClosed)) (testStep (CSetRegistryListener true) connectedWorld) in
  let t := testStep (dialled [ack 3] PumpOk) t in
  let t := drainTurn (ctx := Mini.context) noAnswer (drainDeferred t) in
  m_fd t = true ∧ m_generation t = 2 ∧ m_quiesced t = true ∧ last (notes t) = Some ServiceUnregistered.
Proof. by vm_compute. Qed.

Lemma roomy_initial : roomy initial.
Proof. by vm_compute. Qed.

Definition askedWorld : Transport := testStep (CRequestDer "r" "c" 7 true) initial.

Lemma askedWorld_reached : treach (ctx := Mini.context) testSetup askedWorld.
Proof. eapply reach_step; [apply reach_initial|]. apply (step_call testSetup (CRequestDer "r" "c" 7 true)), roomy_initial. Qed.

Lemma certificate_answered_once_witness :
  count 1 (answeredIn (notes askedWorld)) + count 1 (gaveUpIn (notes askedWorld)) + 1 = 1 ∧ (is_Some (Some 7) → 1 ∈ holders askedWorld).
Proof. apply (certificate_answered_once testSetup askedWorld 1); [apply askedWorld_reached|]. apply list_elem_of_singleton. reflexivity. Defined.


Lemma connectedWorld_reached : treach (ctx := Mini.context) testSetup connectedWorld.
Proof. eapply reach_step; [apply reach_initial|]. apply (step_call testSetup (dialled [ack 1] PumpOk)), roomy_initial. Qed.

Lemma callbacks_from_the_loop_witness :
  arrivedIn (notes connectedWorld) = dispatchedIn (notes connectedWorld) ++ eventsOf (m_deferred connectedWorld) ∧
  ∀ c, ∃ ns, notes (testStep c connectedWorld) = notes connectedWorld ++ ns ∧ Forall (λ n, unheard n = true) ns.
Proof. apply (callbacks_from_the_loop testSetup connectedWorld). apply connectedWorld_reached. Defined.

Definition readRequest : OperationRequest := mkRequest MReadIdentity "" None [] "" "" ∅.
Definition readExchange : Exchange := arriving [makeReply 2 (OpStarted 9); eventToCbor (OpProgress 9 1)] PumpOk.
Definition startedWorld : Transport := (startOperation (ctx := Mini.context) "card" readRequest readExchange connectedWorld).2.
Definition listeningWorld : Transport := subscribeOperation (Some 9) KIdentity 4 startedWorld.
Definition heardWorld : Transport := drainTurn (ctx := Mini.context) noAnswer (runTask TDrain (setPosted [] listeningWorld)).

Lemma heard_run : listens (ctx := Mini.context) testSetup 9 4 listeningWorld heardWorld.
Proof.
  assert (∀ t, m_operationWatches t = {[4 := mkOperationWatch 9 KIdentity]} → soleWatch 9 4 t) as Hw.
  { intros t E. split; rewrite E; [eexists; split; [by rewrite lookup_singleton_eq|done]|].
    intros l' w' [-> _]%lookup_singleton_Some _. done. }
  eapply listens_step; [apply Hw; by vm_compute|by apply (step_task testSetup TDrain []); vm_compute|].
  eapply listens_step; [apply Hw; by vm_compute|apply (step_drain testSetup noAnswer); by vm_compute|apply listens_refl].
Qed.


End QtTransport.
